(* ===== verification/_CoqProject ===== *)
-Q . S2P
Prelude.v
Family.v
Utf8.v
Format.v
NetAddr.v
Io.v
Disk.v
Model.v
Url.v
Syntax.v
SyntaxProofs.v
Engines.v
Matching.v
Evaluate.v
Index.v
Resolve.v
Reference.v
Refinement.v
BodyPlan.v
TraceModel.v
TraceMemory.v
TracePending.v
TraceQueue.v
TraceJson.v
TraceSpill.v
SpillProofs.v
TraceWorker.v
Metadata.v
Template.v
TemplateProofs.v
Http1.v
Http1Proofs.v
Http1Body.v
Http1Write.v
ParseOps.v
ParseMatch.v
Values.v
ParseRule.v
Lint.v
ParseWf.v
ParseProofs.v
LintProofs.v
SemanticLintProofs.v
Explain.v
ExplainProofs.v
Migrate.v
Deadline.v
Slots.v
Relay.v
Transforms.v
Mock.v
Actions.v
RelayProofs.v
Heads.v
ResponseBody.v
ResponseProofs.v
ResponseFlow.v
FlowProofs.v
BufferedProofs.v
FlowFindings.v
FastResponse.v
Routing.v
Connect.v
Dial.v
FastPool.v
FastProofs.v
CleanProofs.v
WebSocket.v
WebSocketProofs.v
FlowSession.v
Forward.v
HttpFlow.v
Server.v
Intercept.v
ConnectFlow.v
ServerProofs.v
TraceGuard.v
RuleStore.v
RuleStoreProofs.v
