(* ===== verification/Prelude.v ===== *)
(** * rsproxy: a verification library

    rsproxy is a local HTTP debugging proxy written in Rust.  Clients send
    requests to the proxy; a rules language decides which typed actions apply
    to a request and to its response; the engine carries the actions out,
    talks to the upstream server and records every exchange as a trace
    session.  The workspace has these parts, all under [crates/]:

    - [rsproxy-rules]: the rules language, its matchers, the candidate index
      and the resolution of a request to actions;
    - [rsproxy-trace]: the bounded collector of sessions, with a memory store,
      a command queue between producers and one worker, and a disk spill;
    - [rsproxy-http] and [rsproxy-net]: HTTP/1 and HTTP/2 framing, DNS, pools;
    - [rsproxy-engine]: the request path that composes the three above;
    - [rsproxy-control], [rsproxy-platform], [rsproxy-cli] and [xtask]: the
      local API, operating-system integration, the command line and the
      repository's own checks.

    ** Conventions

    A Rust [char] is its code point and a [str] the list of its code points;
    bytes are numbers below 256 and lengths are counted in bytes ([len],
    [blen]).  Machine integers are [N] with their bound written out
    ([saturating_add], [wrapping_add64], [checked_add]).  [Result] is the
    source's [Result]; code that mutates a state and may fail is in the
    monad [Io.StateR], where effects before an error stay.  A [None] where
    the source has no [Option] is a panic.  Third-party code is a class of
    operations with a class of documented laws: the regex engines
    ([Engines.PatternEngines], [PatternLaws]), zstd ([TraceSpill.ZstdCodec]),
    the allocator and struct sizes ([TraceModel.Layout]); clock readings are
    arguments.  Witnesses instantiate them with concrete functions
    ([MiniEngine], sample instances).

    ** Files

    - [Prelude]: text, results, integers, tactics; [Utf8], [Format],
      [NetAddr], [Io], [Wire], [Disk]: the parts of the standard library the
      sources use (UTF-8, number formatting, IP literals, effects, byte
      streams, files).
    - [Family], [Model]: action families and family sets
      (matcher/action.rs, family.rs), the typed rule model (model.rs,
      action.rs, error.rs).
    - [Url]: absolute URLs and redirect targets (matcher/url.rs and the URL
      helpers of the engine).
    - [Engines], [MiniEngine], [Matching], [Evaluate]: pattern engines, globs
      (matching.rs, matcher/pattern.rs), matchers and conditions
      (matcher/condition.rs, planning.rs).
    - [Index], [Resolve]: candidate index (index.rs) and resolution
      (resolve.rs, resolution_api.rs).  [Reference] is the specification:
      every enabled rule in priority order, evaluated without an index.
      [Refinement] proves that the indexed resolution implements it,
      [BodyPlan] that the body plan is sound.  [Sample] is a concrete rule set.
    - [TraceModel], [TraceMemory], [TracePending], [TraceQueue],
      [TraceWorker]: sessions and events (model.rs, event.rs), the memory
      store, pending sessions, the queue and its counters, the collector
      (crates/rsproxy-trace/src/store).  [TraceJson]: serialization and
      redaction.  [TraceSpill], [SpillProofs]: the disk spill.
    - [Syntax], [Language], [ParseOps], [ParseMatch], [ParseRule]: the rules
      parser (parser/*, language.rs, the snapshot construction of resolve.rs).
      [SyntaxProofs] is about tokens and calls; [ParseWf] shows what a parsed
      rule satisfies, [IndexTotal] when the index can be built, and
      [ParseProofs] composes them: text to rules to actions.
    - [Lint], [LintProofs], [SemanticLintProofs]: the shadow and semantic lints
      (lint.rs, semantic_lint.rs) and that their findings are true.
      [Explain], [ExplainProofs]: explanations (explain.rs).  [Migrate]:
      migration of sources (migration.rs).  [Metadata]: generated template
      metadata (template/metadata.rs).
    - [Http1], [Http1Proofs], [Http1Body]: reading of HTTP/1 requests (net
      http.rs, http/request), and that its three head readers agree and its
      body decoder accepts exactly the grammar [framed].  [Http1Write],
      [Fields], [Heads]: writing of responses (net http/response.rs,
      rsproxy-http), header lists, and what a reader gets back from a head.
    - [Deadline]: the request deadline (net request_deadline.rs).  [Relay],
      [RelayProofs]: forwarding of request bodies (request_stream.rs,
      transforms/framing.rs, request_util.rs).
    - [Template], [TemplateProofs]: template rendering (template/render.rs,
      template/transform.rs, bounded_replace.rs).  [Values], [JsonEdit],
      [Transforms], [Actions]: rule values and every action on requests and
      responses (engine transforms/*, request_actions.rs, response_actions.rs,
      cookies.rs, auth.rs).
    - [ResponseBody], [ResponseProofs], [Sse]: readers of upstream bodies
      (body.rs, h1_forward/body_stream.rs, h1_forward/response/body.rs).
      [ResponseFlow]: the streamed, buffered and event-stream answers
      (upstream_response/*, h1_forward/fallback.rs, http_flow/completion.rs).
      [FlowProofs], [BufferedProofs] show what the client receives,
      [FlowFindings] the exchanges that go wrong, [FlowSample] is a concrete
      exchange.
    - [Routing], [RoutingProofs]: the route to an origin (routing.rs,
      routing/model.rs).  [Connect], [ConnectProofs]: the CONNECT and SOCKS5
      handshakes (connect_proxy.rs).  [Dial], [DialProofs]: TCP connections,
      TLS layers and the dialling of a route (connect.rs,
      connect_tls/timing.rs, connect_tls/handshake.rs); the answers of the
      network are numbered events of a parameter.
    - [WebSocket], [WebSocketProofs]: the websocket frame codec and relay
      (websocket_frame.rs, websocket.rs, websocket/concurrent.rs,
      websocket/nonblocking.rs).

    ** What the theorems show

    - Resolution: equality with the reference for every rule set and request,
      completeness of the index and of the literal prefilter, agreement of
      compiled globs with the glob notation, first-wins and skip discipline,
      provenance, soundness of the decision not to buffer a body.
    - URLs: parse/print round trip, safety of redirect targets.
    - Trace: the memory budget holds in every reachable state, the queue
      counters are exact under every interleaving, recording a session gives
      it back, a spill append followed by a verified read gives all records
      back within the disk budget, serialized lines are single lines that
      read back, CRC-32 detects every change of one byte.
    - Rule text: tokens lose nothing, quoted calls read back, a source is
      accepted with exactly the rules of its lines, a parsed source resolves
      like its rules tried one by one, and parsing panics on one kind of
      pattern only.  What the lints report is true of resolution, apart from
      exact URLs under a query glob.  Explained deletions read back; a migrated
      source begins with the language header and differs in call names only.
    - HTTP/1: the head readers agree on every cut of the stream, accepted
      framing is unambiguous, the body decoder is exact and collection within
      a limit loses nothing; a forwarded body decodes to what the client sent
      and its head describes it; a stage never outlives the request deadline.
    - Answers: a streamed or buffered answer is one head, readable as the
      status and fields of the result, and exactly the body, framed by its
      length or by chunks that decode to it.  Four theorems show exchanges
      that fail: a repeated length that survives a rewrite, a chunked response
      with a length, a HEAD response under a body rule, and an event stream
      that breaks off.
    - Upstreams: an [upstream] value gives the route over the hops it lists;
      dialling takes the legs of that route in order whatever the network
      answers; the SOCKS5 handshake asks for the target and consumes exactly
      the proxy's messages.
    - WebSockets: decoding does not depend on how bytes arrive, the relay
      passes on only what it received and in order, and it ends, with
      everything delivered, when both peers end and accept what is written;
      one theorem shows that it never ends when a peer is gone with bytes
      pending for it.
    - Templates: rendering replaces each expression once by its value.

    ** Bounds and fuel

    Recursion that is not structural takes a fuel that is computed from the
    input: the length of the text for [host_suffixes] and UTF-8 decoding (a
    step consumes a byte), the number of segments for spill eviction (a round
    removes one), the number of bytes still to come for reading loops
    ([Io.looping]; a round consumes a byte or ends).  Round-trip and
    refinement theorems show that these bounds are enough, since they give
    the result itself.

    ** Not modelled

    HTTP/2, DNS,
    pools and TLS, which are glue around h2, hyper, rustls and the operating
    system; the listener loop, mocks, upstream pools and CONNECT tunnels of
    the engine; the control API, platform integration, command line
    and repository tasks, which are input/output and presentation.  Of the
    modelled parts, durations, socket timeouts and updates of the recorded
    session are left out where the data does not depend on them; regex
    engines, zstd, JSON text, the file system of rule values and reason
    phrases are parameters. *)
From Stdlib Require Import Ascii String.
From stdpp Require Import base numbers list gmap strings.

(** ** Text: Rust [char] is a code point, [str] is the list of its chars *)

Abbreviation char := N (only parsing).
Abbreviation str := (list N) (only parsing).

Definition ch (a : ascii) : char := N_of_ascii a.
#[global] Arguments ch a%_char_scope : simpl never.

Fixpoint lit (s : string) : str :=
  match s with
  | EmptyString => []
  | String a s' => ch a :: lit s'
  end.
#[global] Arguments lit s%_string_scope : simpl never.

Declare Scope rs_scope.
Delimit Scope rs_scope with rs.
#[global] Open Scope rs_scope.
#[global] Open Scope N_scope.

Notation "a '=s?' b" := (bool_decide (a = b)) (at level 70, no associativity) : rs_scope.

(** ** Character classes of [core::char] and [u8] *)

Definition in_range (lo hi c : N) : bool := ((lo <=? c) && (c <=? hi)).

Definition is_ascii_digit (c : char) : bool := in_range 48 57 c.
Definition is_ascii_uppercase (c : char) : bool := in_range 65 90 c.
Definition is_ascii_lowercase (c : char) : bool := in_range 97 122 c.
Definition is_ascii_alphabetic (c : char) : bool :=
  is_ascii_uppercase c || is_ascii_lowercase c.
Definition is_ascii_alphanumeric (c : char) : bool :=
  is_ascii_alphabetic c || is_ascii_digit c.
Definition is_ascii_hexdigit (c : char) : bool :=
  is_ascii_digit c || in_range 65 70 c || in_range 97 102 c.
Definition is_ascii (c : char) : bool := (c <? 128).

(** [char::is_whitespace]: the Unicode White_Space property. *)
Definition is_whitespace (c : char) : bool :=
  in_range 9 13 c || (c =? 32) || (c =? 133) || (c =? 160) || (c =? 5760) ||
  in_range 8192 8202 c || in_range 8232 8233 c || (c =? 8239) || (c =? 8287) ||
  (c =? 12288).

(** [u8::is_ascii_whitespace]: space, tab, LF, FF and CR (no VT). *)
Definition is_ascii_whitespace (c : char) : bool :=
  (c =? 32) || (c =? 9) || (c =? 10) || (c =? 12) || (c =? 13).

(** [char::is_control]: general category Cc. *)
Definition is_control (c : char) : bool := (c <? 32) || in_range 127 159 c.

Definition lower (c : char) : char := if is_ascii_uppercase c then (c + 32) else c.
Definition upper (c : char) : char := if is_ascii_lowercase c then (c - 32) else c.

Definition to_ascii_lowercase (s : str) : str := map lower s.
Definition to_ascii_uppercase (s : str) : str := map upper s.
Definition eq_ignore_ascii_case (a b : str) : bool :=
  to_ascii_lowercase a =s? to_ascii_lowercase b.

(** Width of a char in UTF-8 and [str::len] (a byte count). *)
Definition char_len_utf8 (c : char) : N :=
  if (c <? 128) then 1 else if (c <? 2048) then 2 else if (c <? 65536) then 3 else 4.

Fixpoint len (s : str) : N :=
  match s with
  | [] => 0
  | c :: s' => char_len_utf8 c + len s'
  end.

Definition is_emptyb {A} (l : list A) : bool :=
  match l with [] => true | _ => false end.

(** ** Prefixes, suffixes and substrings *)

Fixpoint strip_prefix (p s : str) : option str :=
  match p, s with
  | [], _ => Some s
  | a :: p', b :: s' => if (a =? b) then strip_prefix p' s' else None
  | _ :: _, [] => None
  end.

Definition strip_suffix (p s : str) : option str :=
  match strip_prefix (rev p) (rev s) with
  | Some r => Some (rev r)
  | None => None
  end.

Definition starts_with (p s : str) : bool :=
  match strip_prefix p s with Some _ => true | None => false end.

Definition ends_with (p s : str) : bool :=
  match strip_suffix p s with Some _ => true | None => false end.

(** [str::contains(&str)] and byte-window search. *)
Fixpoint contains (p s : str) : bool :=
  starts_with p s ||
  match s with
  | [] => false
  | _ :: s' => contains p s'
  end.

Definition contains_char (c : char) (s : str) : bool := existsb (N.eqb c) s.

(** [str::split_once(&str)]: around the first occurrence. *)
Fixpoint split_once (p s : str) : option (str * str) :=
  match strip_prefix p s with
  | Some rest => Some ([], rest)
  | None =>
      match s with
      | [] => None
      | c :: s' =>
          match split_once p s' with
          | Some (a, b) => Some (c :: a, b)
          | None => None
          end
      end
  end.

(** [str::find(pred)] with the two halves: text before the first char that
    satisfies [P], and the text from that char on. *)
Fixpoint find_split (P : char -> bool) (s : str) : option (str * str) :=
  match s with
  | [] => None
  | c :: s' =>
      if P c then Some ([], s)
      else match find_split P s' with
           | Some (a, b) => Some (c :: a, b)
           | None => None
           end
  end.

(** [str::rsplit_once(char)]. *)
Definition rsplit_once_char (c : char) (s : str) : option (str * str) :=
  match split_once [c] (rev s) with
  | Some (a, b) => Some (rev b, rev a)
  | None => None
  end.

(** [str::split(char)]: always at least one piece. *)
Fixpoint split_char (c : char) (s : str) : list str :=
  match s with
  | [] => [[]]
  | x :: s' =>
      if (x =? c) then [] :: split_char c s'
      else match split_char c s' with
           | h :: t => (x :: h) :: t
           | [] => [[x]]
           end
  end.

(** ** Trimming *)

Fixpoint trim_start_matches (P : char -> bool) (s : str) : str :=
  match s with
  | [] => []
  | c :: s' => if P c then trim_start_matches P s' else s
  end.

Definition trim_end_matches (P : char -> bool) (s : str) : str :=
  rev (trim_start_matches P (rev s)).

Definition trim_matches (P : char -> bool) (s : str) : str :=
  trim_end_matches P (trim_start_matches P s).

Definition trim_start (s : str) : str := trim_start_matches is_whitespace s.
Definition trim_end (s : str) : str := trim_end_matches is_whitespace s.
Definition trim (s : str) : str := trim_matches is_whitespace s.

(** [str::join]. *)
Fixpoint join (sep : str) (l : list str) : str :=
  match l with
  | [] => []
  | [s] => s
  | s :: l' => s ++ sep ++ join sep l'
  end.

(** ** Fallible code: [core::result::Result] with stdpp's monad notation *)

Inductive Result (E A : Type) : Type :=
| Ok (a : A)
| Err (e : E).
Arguments Ok {E A} a.
Arguments Err {E A} e.

#[export] Instance result_ret {E} : MRet (Result E) := fun A a => Ok a.
#[export] Instance result_bind {E} : MBind (Result E) := fun A B f m =>
  match m with Ok a => f a | Err e => Err e end.
#[export] Instance result_fmap {E} : FMap (Result E) := fun A B f m =>
  match m with Ok a => Ok (f a) | Err e => Err e end.

Definition ok {E A} (m : Result E A) : option A :=
  match m with Ok a => Some a | Err _ => None end.
Definition is_ok {E A} (m : Result E A) : bool :=
  match m with Ok _ => true | Err _ => false end.
Definition map_err {E F A} (f : E -> F) (m : Result E A) : Result F A :=
  match m with Ok a => Ok a | Err e => Err (f e) end.
Definition ok_or {E A} (o : option A) (e : E) : Result E A :=
  match o with Some a => Ok a | None => Err e end.
Definition is_some {A} (o : option A) : bool :=
  match o with Some _ => true | None => false end.
Definition opt_or_else {A} (o : option A) (d : option A) : option A :=
  match o with Some _ => o | None => d end.
Definition unwrap_or {A} (o : option A) (d : A) : A :=
  match o with Some a => a | None => d end.

(** ** Machine integers *)

Definition U8_MAX : N := 255.
Definition U16_MAX : N := 65535.
Definition U32_MAX : N := 4294967295.
Definition U64_MAX : N := 18446744073709551615.
(** [usize] on the 64-bit targets the project ships. *)
Definition USIZE_MAX : N := U64_MAX.

Definition wrapping_add64 (a b : N) : N := ((a + b) mod 2 ^ 64).
Definition saturating_add (max a b : N) : N := N.min max (a + b).
Definition saturating_sub (a b : N) : N := (a - b).
Definition checked_add (max a b : N) : option N :=
  if (a + b <=? max) then Some (a + b) else None.
Definition checked_sub (a b : N) : option N :=
  if (b <=? a) then Some (a - b) else None.

Inductive IntErrorKind := IntEmpty | InvalidDigit | PosOverflow | NegOverflow.

(** [char::to_digit] restricted to the radices the sources use (10 and 16). *)
Definition to_digit (radix : N) (c : char) : option N :=
  let d := if is_ascii_digit c then Some (c - 48)
           else if in_range 97 122 c then Some (c - 87)
           else if in_range 65 90 c then Some (c - 55)
           else None in
  match d with
  | Some v => if v <? radix then Some v else None
  | None => None
  end.

(** The digit loop of [uN::from_str_radix]: a bad digit is reported before an
    overflow at the same position. *)
Fixpoint parse_digits (radix max acc : N) (s : str) : Result IntErrorKind N :=
  match s with
  | [] => Ok acc
  | c :: s' =>
      match to_digit radix c with
      | None => Err InvalidDigit
      | Some d =>
          if (acc * radix + d <=? max) then parse_digits radix max (acc * radix + d) s'
          else Err PosOverflow
      end
  end.

(** [uN::from_str_radix] for an unsigned type with maximum [max]: one leading
    ['+'] is accepted, a lone sign is not a number. *)
Definition from_str_radix (radix max : N) (s : str) : Result IntErrorKind N :=
  match s with
  | [] => Err IntEmpty
  | [c] => if ((c =? ch "+") || (c =? ch "-")) then Err InvalidDigit
           else parse_digits radix max 0 s
  | c :: s' => if (c =? ch "+") then parse_digits radix max 0 s'
               else parse_digits radix max 0 s
  end.

Definition parse_uint (max : N) (s : str) : Result IntErrorKind N :=
  from_str_radix 10 max s.

Definition digit_char (d : N) : char := if (d <? 10) then (48 + d) else (87 + d).

(** Digits of [n], most significant first; [fuel] bounds their number. *)
Fixpoint digits_aux (radix : N) (fuel : nat) (n : N) (acc : str) : str :=
  match fuel with
  | O => acc
  | S fuel' =>
      if (n <? radix) then digit_char n :: acc
      else digits_aux radix fuel' (n / radix) (digit_char (n mod radix) :: acc)
  end.

Definition to_radix (radix n : N) : str := digits_aux radix (S (N.to_nat (N.size n))) n [].

(** [u64::to_string] and the lower-case hexadecimal format. *)
Definition show_N (n : N) : str := to_radix 10 n.
Definition show_hex (n : N) : str := to_radix 16 n.

(** ** Automation *)

Create HintDb rs.

(** Turn boolean guards among the hypotheses into propositions. *)
Ltac bool_to_prop :=
  repeat match goal with
  | H : (_ && _) = true |- _ => apply andb_true_iff in H; destruct H
  | H : (_ || _) = false |- _ => apply orb_false_iff in H; destruct H
  | H : negb _ = true |- _ => apply negb_true_iff in H
  | H : negb _ = false |- _ => apply negb_false_iff in H
  | H : bool_decide _ = true |- _ => apply bool_decide_eq_true in H
  | H : bool_decide _ = false |- _ => apply bool_decide_eq_false in H
  | H : (_ =? _) = true |- _ => apply N.eqb_eq in H
  | H : (_ =? _) = false |- _ => apply N.eqb_neq in H
  | H : (_ <=? _) = true |- _ => apply N.leb_le in H
  | H : (_ <=? _) = false |- _ => apply N.leb_gt in H
  | H : (_ <? _) = true |- _ => apply N.ltb_lt in H
  | H : (_ <? _) = false |- _ => apply N.ltb_ge in H
  end.

(** Split on the scrutinee of the first [match] or [if] of the goal, keeping
    its equation. *)
Ltac case_goal :=
  match goal with
  | |- context [match ?x with _ => _ end] => let E := fresh "E" in destruct x eqn:E
  end.

(** The same for a hypothesis. *)
Ltac case_in H :=
  match type of H with
  | context [match ?x with _ => _ end] => let E := fresh "E" in destruct x eqn:E
  end.

(** Break a successful monadic computation into its successful steps. *)
Ltac bind_in H :=
  repeat (unfold mbind, result_bind, option_bind, mret, result_ret, option_ret in H;
          case_in H; try discriminate; simplify_eq/=).

(** ** Lemmas on text *)

Lemma strip_prefix_Some p s r : strip_prefix p s = Some r <-> s = p ++ r.
Proof.
  revert s. induction p as [|a p IH]; intros s; simpl.
  - naive_solver.
  - destruct s as [|b s]; [naive_solver|].
    destruct (N.eqb_spec a b) as [->|Hne]; [rewrite IH|]; naive_solver.
Qed.

Lemma strip_prefix_None p s : strip_prefix p s = None <-> forall r, s <> p ++ r.
Proof.
  split.
  - intros H r ->. destruct (strip_prefix p (p ++ r)) eqn:E; [done|].
    assert (strip_prefix p (p ++ r) = Some r) by (by apply strip_prefix_Some). congruence.
  - intros H. destruct (strip_prefix p s) eqn:E; [|done].
    apply strip_prefix_Some in E. naive_solver.
Qed.

Lemma strip_prefix_app p r : strip_prefix p (p ++ r) = Some r.
Proof. by apply strip_prefix_Some. Qed.

Lemma strip_suffix_Some p s r : strip_suffix p s = Some r <-> s = r ++ p.
Proof.
  unfold strip_suffix. split.
  - destruct (strip_prefix _ _) eqn:E; [|done]. intros [= <-].
    apply strip_prefix_Some in E. apply (f_equal (@rev _)) in E.
    by rewrite rev_involutive, rev_app_distr, rev_involutive in E.
  - intros ->. by rewrite rev_app_distr, strip_prefix_app, rev_involutive.
Qed.

Lemma strip_suffix_app p r : strip_suffix p (r ++ p) = Some r.
Proof. by apply strip_suffix_Some. Qed.

Lemma starts_with_true p s : starts_with p s = true <-> exists r, s = p ++ r.
Proof.
  unfold starts_with. destruct (strip_prefix p s) eqn:E.
  - apply strip_prefix_Some in E. naive_solver.
  - rewrite strip_prefix_None in E. naive_solver.
Qed.

Lemma ends_with_true p s : ends_with p s = true <-> exists r, s = r ++ p.
Proof.
  unfold ends_with. destruct (strip_suffix p s) eqn:E.
  - apply strip_suffix_Some in E. naive_solver.
  - split; [done|]. intros [r ->]. by rewrite strip_suffix_app in E.
Qed.

Lemma contains_true p s : contains p s = true <-> exists a b, s = a ++ p ++ b.
Proof.
  induction s as [|c s IH]; simpl; rewrite orb_true_iff, starts_with_true.
  - split.
    + intros [[r Hr]|?]; [|done]. by exists [], r.
    + intros (a & b & Hab). left. destruct a; [|done]. by exists b.
  - rewrite IH. split.
    + intros [[r Hr]|(a & b & ->)]; [by exists [], r|by exists (c :: a), b].
    + intros (a & b & Hab). destruct a as [|x a]; simplify_eq/=.
      * left. by exists b.
      * right. by exists a, b.
Qed.

Lemma contains_char_true c s : contains_char c s = true <-> c ∈ s.
Proof.
  unfold contains_char. rewrite existsb_exists. split.
  - intros (x & Hx & He). apply N.eqb_eq in He as <-. by apply list_elem_of_In.
  - intros H. exists c. by rewrite <- list_elem_of_In, N.eqb_refl.
Qed.

Lemma contains_char_false c s : contains_char c s = false <-> c ∉ s.
Proof. rewrite <- contains_char_true. by destruct (contains_char c s). Qed.

Lemma split_once_Some p s a b : split_once p s = Some (a, b) -> s = a ++ p ++ b.
Proof.
  revert a b. induction s as [|c s IH]; intros a b; simpl;
    destruct (strip_prefix p _) eqn:E; intros H; simplify_eq/=.
  - by apply strip_prefix_Some in E.
  - by apply strip_prefix_Some in E.
  - destruct (split_once p s) as [[a' b']|] eqn:Es; simplify_eq/=. by rewrite (IH a' b).
Qed.

Lemma split_once_None p s : split_once p s = None <-> forall a b, s <> a ++ p ++ b.
Proof.
  induction s as [|c s IH]; simpl; destruct (strip_prefix p _) eqn:E.
  - apply strip_prefix_Some in E. split; [done|]. intros H. by destruct (H [] l).
  - split; [|done]. intros _ a b Hab. rewrite strip_prefix_None in E.
    destruct a; [|done]. by apply (E b).
  - apply strip_prefix_Some in E. split; [done|]. intros H. by destruct (H [] l).
  - destruct (split_once p s) as [[a b]|] eqn:Es.
    + split; [done|]. intros H. apply split_once_Some in Es as ->. by destruct (H (c :: a) b).
    + split; [|done]. intros _ a b Hab. rewrite strip_prefix_None in E.
      destruct a as [|x a]; [by apply (E b)|]. simplify_eq/=.
      by apply (proj1 IH eq_refl a b).
Qed.

(** The first separator char splits the text where it first occurs. *)
Lemma split_once_char_first c a b : c ∉ a -> split_once [c] (a ++ c :: b) = Some (a, b).
Proof.
  induction a as [|x a IH]; simpl; intros Hn.
  - by rewrite N.eqb_refl.
  - assert (c <> x) as Hne by set_solver. apply N.eqb_neq in Hne as ->.
    rewrite IH; [done|set_solver].
Qed.

Lemma split_once_char_Some c s a b :
  split_once [c] s = Some (a, b) <-> s = a ++ c :: b /\ c ∉ a.
Proof.
  split; [|intros [-> ?]; by apply split_once_char_first].
  revert a b. induction s as [|x s IH]; intros a b; simpl; [done|].
  destruct (N.eqb_spec c x) as [->|Hne]; [intros [= <- <-]; set_solver|].
  destruct (split_once [c] s) as [[a' b']|] eqn:E; [|done]. intros [= <- <-].
  destruct (IH a' b' eq_refl) as [-> Hn]. set_solver.
Qed.

Lemma split_once_char_None c s : split_once [c] s = None <-> c ∉ s.
Proof.
  rewrite split_once_None. split.
  - intros H Hin. apply list_elem_of_split in Hin as (a & b & ->). by apply (H a b).
  - intros H a b ->. set_solver.
Qed.

Lemma rsplit_once_char_Some c s a b :
  rsplit_once_char c s = Some (a, b) <-> s = a ++ c :: b /\ c ∉ b.
Proof.
  unfold rsplit_once_char. split.
  - destruct (split_once [c] (rev s)) as [[a' b']|] eqn:E; [|done]. intros [= <- <-].
    apply split_once_char_Some in E as [E Hn]. apply (f_equal (@rev _)) in E.
    rewrite rev_involutive, rev_app_distr in E. simpl in E.
    rewrite <- app_assoc in E. split; [done|].
    rewrite list_elem_of_In, <- in_rev. by rewrite <- list_elem_of_In.
  - intros [-> Hn]. rewrite rev_app_distr. simpl. rewrite <- app_assoc. simpl.
    rewrite split_once_char_first, !rev_involutive; [done|].
    rewrite list_elem_of_In, <- in_rev. by rewrite <- list_elem_of_In.
Qed.

Lemma rsplit_once_char_None c s : rsplit_once_char c s = None <-> c ∉ s.
Proof.
  unfold rsplit_once_char. destruct (split_once [c] (rev s)) as [[a b]|] eqn:E.
  - apply split_once_char_Some in E as [E Hn]. split; [done|]. intros Hs. destruct Hs.
    rewrite list_elem_of_In, in_rev, <- list_elem_of_In, E. set_solver.
  - apply split_once_char_None in E. split; [|done]. intros _.
    by rewrite list_elem_of_In, in_rev, <- list_elem_of_In.
Qed.

Lemma find_split_Some P s a b :
  find_split P s = Some (a, b) ->
  s = a ++ b /\ Forall (fun c => P c = false) a /\ exists c b', b = c :: b' /\ P c = true.
Proof.
  revert a b. induction s as [|x s IH]; intros a b; simpl; [done|].
  destruct (P x) eqn:HP; [intros [= <- <-]; split_and!; eauto|].
  destruct (find_split P s) as [[a' b']|] eqn:E; [|done]. intros [= <- <-].
  destruct (IH a' b' eq_refl) as (-> & Ha & Hb). split_and!; auto.
Qed.

Lemma find_split_None P s : find_split P s = None <-> Forall (fun c => P c = false) s.
Proof.
  induction s as [|x s IH]; simpl; [by split|].
  rewrite Forall_cons, <- IH.
  destruct (P x); [naive_solver|].
  destruct (find_split P s) as [[a b]|]; naive_solver.
Qed.

Lemma find_split_app P a c b :
  Forall (fun c => P c = false) a -> P c = true ->
  find_split P (a ++ c :: b) = Some (a, c :: b).
Proof.
  induction 1 as [|x a Hx Ha IH]; simpl; intros Hc; [by rewrite Hc|].
  by rewrite Hx, IH.
Qed.

Lemma trim_start_matches_spec P s :
  exists l, s = l ++ trim_start_matches P s /\ Forall (fun c => P c = true) l.
Proof.
  induction s as [|x s (l & IH & Hl)]; simpl; [by exists []|].
  destruct (P x) eqn:E; [|by exists []].
  exists (x :: l). simpl. rewrite <- IH. auto.
Qed.

Lemma trim_start_matches_id P c s : P c = false -> trim_start_matches P (c :: s) = c :: s.
Proof. simpl. by intros ->. Qed.

Lemma trim_start_matches_head P s :
  match trim_start_matches P s with [] => True | c :: _ => P c = false end.
Proof. induction s as [|x s IH]; simpl; [done|]. by destruct (P x) eqn:E. Qed.

Lemma trim_start_matches_none P s :
  Forall (fun c => P c = false) s -> trim_start_matches P s = s.
Proof. destruct 1 as [|c s Hc]; [done|]. by apply trim_start_matches_id. Qed.

Lemma trim_start_matches_idem P s :
  trim_start_matches P (trim_start_matches P s) = trim_start_matches P s.
Proof.
  pose proof (trim_start_matches_head P s) as H.
  destruct (trim_start_matches P s); [done|]. by apply trim_start_matches_id.
Qed.

(** Trimming keeps a contiguous part of the text. *)
Lemma trim_matches_infix P s : exists a b, s = a ++ trim_matches P s ++ b.
Proof.
  unfold trim_matches, trim_end_matches.
  destruct (trim_start_matches_spec P s) as (a & Ha & _).
  destruct (trim_start_matches_spec P (rev (trim_start_matches P s))) as (b & Hb & _).
  exists a, (rev b). rewrite Ha at 1. f_equal.
  apply (f_equal (@rev _)) in Hb. by rewrite rev_app_distr, rev_involutive in Hb.
Qed.

Lemma trim_matches_none P s :
  Forall (fun c => P c = false) s -> trim_matches P s = s.
Proof.
  intros H. unfold trim_matches, trim_end_matches.
  rewrite (trim_start_matches_none P s H), trim_start_matches_none, rev_involutive; [done|].
  by apply Forall_rev.
Qed.

Lemma trim_start_matches_app P l s :
  Forall (fun c => P c = true) l -> trim_start_matches P (l ++ s) = trim_start_matches P s.
Proof. induction 1 as [|c l Hc Hl IH]; simpl; [done|]. by rewrite Hc. Qed.

(** Trimming removes exactly the matching margins of a text without matches. *)
Lemma trim_matches_wrap P l s r :
  Forall (fun c => P c = true) l -> Forall (fun c => P c = true) r ->
  Forall (fun c => P c = false) s -> trim_matches P (l ++ s ++ r) = s.
Proof.
  intros Hl Hr Hs. unfold trim_matches, trim_end_matches.
  rewrite trim_start_matches_app by done. destruct s as [|c s].
  - rewrite app_nil_l, <- (app_nil_r r), trim_start_matches_app by done. done.
  - rewrite <- app_comm_cons, trim_start_matches_id by (by apply Forall_cons in Hs as [? _]).
    rewrite app_comm_cons, rev_app_distr, trim_start_matches_app by (by apply Forall_rev).
    rewrite trim_start_matches_none by (by apply Forall_rev). apply rev_involutive.
Qed.

(** ASCII case folding. *)
Lemma in_range_spec lo hi c : in_range lo hi c = true <-> lo <= c <= hi.
Proof. unfold in_range. by rewrite andb_true_iff, !N.leb_le. Qed.

Lemma in_range_false lo hi c : in_range lo hi c = false <-> c < lo \/ hi < c.
Proof. unfold in_range. by rewrite andb_false_iff, !N.leb_gt. Qed.

Lemma lower_idem c : lower (lower c) = lower c.
Proof.
  unfold lower. destruct (is_ascii_uppercase c) eqn:E; [|by rewrite E].
  apply in_range_spec in E. unfold is_ascii_uppercase.
  by rewrite (proj2 (in_range_false 65 90 (c + 32))) by lia.
Qed.

Lemma to_ascii_lowercase_idem s : to_ascii_lowercase (to_ascii_lowercase s) = to_ascii_lowercase s.
Proof. unfold to_ascii_lowercase. rewrite map_map. apply map_ext, lower_idem. Qed.

Lemma to_ascii_lowercase_app a b :
  to_ascii_lowercase (a ++ b) = to_ascii_lowercase a ++ to_ascii_lowercase b.
Proof. apply map_app. Qed.

Lemma eq_ignore_ascii_case_spec a b :
  eq_ignore_ascii_case a b = true <-> to_ascii_lowercase a = to_ascii_lowercase b.
Proof. unfold eq_ignore_ascii_case. by rewrite bool_decide_eq_true. Qed.

Lemma eq_ignore_ascii_case_refl a : eq_ignore_ascii_case a a = true.
Proof. by apply eq_ignore_ascii_case_spec. Qed.

Lemma len_app a b : len (a ++ b) = len a + len b.
Proof. induction a as [|c a IH]; simpl; [done|]. rewrite IH. lia. Qed.

(** ** Printing and parsing unsigned integers *)

Lemma to_digit_digit_char radix d : d < radix -> radix <= 16 -> to_digit radix (digit_char d) = Some d.
Proof.
  intros Hd Hr. unfold to_digit, digit_char, is_ascii_digit, in_range.
  destruct (N.ltb_spec d 10).
  - rewrite (proj2 (N.leb_le 48 (48 + d))), (proj2 (N.leb_le (48 + d) 57)) by lia. simpl.
    replace (48 + d - 48) with d by lia. by rewrite (proj2 (N.ltb_lt d radix)).
  - rewrite (proj2 (N.leb_gt (87 + d) 57)) by lia. rewrite andb_false_r.
    rewrite (proj2 (N.leb_le 97 (87 + d))), (proj2 (N.leb_le (87 + d) 122)) by lia. simpl.
    replace (87 + d - 87) with d by lia. by rewrite (proj2 (N.ltb_lt d radix)).
Qed.

Section Radix.
Context (radix : N) (Hradix : 2 <= radix <= 16).

(** The digits of [n] put in front of [acc] read back as [n]. *)
Lemma parse_digits_aux max fuel n acc :
  n < 2 ^ N.of_nat fuel -> n <= max ->
  parse_digits radix max 0 (digits_aux radix fuel n acc) = parse_digits radix max n acc.
Proof.
  revert n acc. induction fuel as [|fuel IH]; intros n acc Hf Hm.
  - change (2 ^ N.of_nat 0) with 1 in Hf. by assert (n = 0) as -> by lia.
  - simpl. destruct (N.ltb_spec n radix).
    + cbn [parse_digits]. rewrite to_digit_digit_char by lia.
      replace (0 * radix + n) with n by lia.
      by rewrite (proj2 (N.leb_le n max)).
    + rewrite Nat2N.inj_succ, N.pow_succ_r' in Hf.
      assert (n / radix <= n) by (apply N.Div0.div_le_upper_bound; nia).
      rewrite IH; [|apply N.Div0.div_lt_upper_bound; nia|lia].
      simpl. rewrite to_digit_digit_char by (try apply N.mod_lt; lia).
      pose proof (N.div_mod n radix ltac:(lia)) as Hdm.
      replace (n / radix * radix + n mod radix) with n by lia.
      by rewrite (proj2 (N.leb_le n max)).
Qed.

Lemma digits_aux_chars fuel n acc :
  (0 < fuel)%nat ->
  exists d ds, digits_aux radix fuel n acc = digit_char d :: ds ++ acc /\ d < radix /\
    Forall (fun c => exists d, c = digit_char d /\ d < radix) ds.
Proof.
  revert n acc. induction fuel as [|fuel IH]; intros n acc Hf; [lia|]. simpl.
  destruct (N.ltb_spec n radix); [by exists n, []|].
  assert (n mod radix < radix) by (apply N.mod_lt; lia).
  destruct fuel as [|fuel]; [by exists (n mod radix), []|].
  destruct (IH (n / radix) (digit_char (n mod radix) :: acc)) as (d & ds & -> & Hd & Hds); [lia|].
  exists d, (ds ++ [digit_char (n mod radix)]). rewrite <- app_assoc. split_and!; [done..|].
  apply Forall_app. split; [done|]. constructor; eauto.
Qed.

Lemma size_bound n : n < 2 ^ N.of_nat (S (N.to_nat (N.size n))).
Proof.
  rewrite Nat2N.inj_succ, N2Nat.id, N.pow_succ_r'. pose proof (N.size_gt n). lia.
Qed.

(** Reading what was printed: no sign is ever printed, so the sign handling
    of [from_str_radix] does not interfere. *)
Lemma from_str_radix_to_radix max n :
  n <= max -> from_str_radix radix max (to_radix radix n) = Ok n.
Proof.
  intros Hm. unfold to_radix.
  pose proof (parse_digits_aux max _ n [] (size_bound n) Hm) as Hp.
  destruct (digits_aux_chars (S (N.to_nat (N.size n))) n []) as (d & ds & E & Hd & _); [lia|].
  rewrite E in *. cbn [parse_digits] in Hp.
  assert (digit_char d <> ch "+" /\ digit_char d <> ch "-") as [H1 H2].
  { unfold digit_char. cbv [ch N_of_ascii]. simpl. destruct (N.ltb_spec d 10); lia. }
  apply N.eqb_neq in H1, H2. unfold from_str_radix.
  destruct (ds ++ []) as [|c l]; rewrite H1, ?H2; exact Hp.
Qed.

End Radix.

Lemma parse_uint_show_N max n : n <= max -> parse_uint max (show_N n) = Ok n.
Proof. apply from_str_radix_to_radix. lia. Qed.

Lemma sublist_filter' {A} (P : A -> bool) (l : list A) : sublist (List.filter P l) l.
Proof.
  induction l as [|x l IH]; simpl; [constructor|].
  destruct (P x); [by apply sublist_skip|by apply sublist_cons].
Qed.

(** ** Sums over lists and maps *)

Definition sum_N (l : list N) : N := foldr N.add 0 l.

#[global] Instance sum_N_perm : Proper ((≡ₚ) ==> (=)) sum_N.
Proof. intros l1 l2 H. unfold sum_N. induction H; simpl; lia. Qed.

Lemma sum_N_app a b : sum_N (a ++ b) = sum_N a + sum_N b.
Proof. unfold sum_N. induction a as [|x a IH]; simpl; [done|]. rewrite IH. lia. Qed.

Section MapSum.
Context `{Countable K} {A : Type} (f : A -> N).

Definition map_sum (m : gmap K A) : N := sum_N (map (fun kv => f (snd kv)) (map_to_list m)).
(** The share of one key, 0 when it is absent. *)
Definition share (m : gmap K A) (k : K) : N := match m !! k with Some x => f x | None => 0 end.

Lemma map_sum_empty : map_sum ∅ = 0.
Proof. unfold map_sum. by rewrite map_to_list_empty. Qed.

Lemma map_sum_delete m k : map_sum m = share m k + map_sum (delete k m).
Proof.
  unfold share. destruct (m !! k) as [x|] eqn:E.
  - unfold map_sum. rewrite <- (map_to_list_delete m k x E). done.
  - by rewrite delete_id.
Qed.

Lemma map_sum_insert m k x : map_sum (<[k := x]> m) = f x + map_sum (delete k m).
Proof.
  rewrite (map_sum_delete _ k). unfold share. rewrite lookup_insert_eq. by rewrite delete_insert_eq.
Qed.

Lemma map_sum_filter (P : A -> bool) m :
  map_sum m = map_sum (filter (fun kv => P (snd kv) = true) m) +
              map_sum (filter (fun kv => P (snd kv) = false) m).
Proof.
  induction m as [|k x m Hm IH] using map_ind; [by rewrite !map_filter_empty, map_sum_empty|].
  assert (forall (Q : K * A -> Prop) `{!forall kv, Decision (Q kv)}, filter Q m !! k = None) as Hf
    by (intros; by rewrite map_lookup_filter, Hm).
  rewrite (map_sum_insert m), delete_id by done. destruct (P x) eqn:E.
  - rewrite map_filter_insert_True by done.
    rewrite (map_filter_insert_False _ m) by (simpl; congruence).
    rewrite map_sum_insert, (delete_id m), (delete_id (filter _ m)) by done. lia.
  - rewrite (map_filter_insert_False _ m) by (simpl; congruence).
    rewrite map_filter_insert_True by done.
    rewrite map_sum_insert, (delete_id m), (delete_id (filter _ m)) by done. lia.
Qed.
End MapSum.
#[global] Arguments map_sum : simpl never.
#[global] Arguments share : simpl never.
