(* ===== verification/Family.v ===== *)
(** * Action families and family sets

    The typed identity of every action of the rules language and the
    64-bit family sets used by [skip(...)] and by resolver state
    (crates/rsproxy-rules/src/matcher/action.rs and family.rs). *)
From Stdlib Require Import Ascii String.
From stdpp Require Import base numbers list gmap strings.
From S2P Require Import Prelude.

(** Request/response phase. *)
Module Phase.
Inductive t := Req | Res.
#[global] Instance eq_dec : EqDecision t.
Proof. solve_decision. Defined.
Definition as_str (p : t) : str :=
  match p with Req => lit "request" | Res => lit "response" end.
End Phase.

Definition REQUEST_PHASES : list Phase.t := [Phase.Req].
Definition RESPONSE_PHASES : list Phase.t := [Phase.Res].
Definition BOTH_PHASES : list Phase.t := [Phase.Req; Phase.Res].

Module ResolutionPolicy.
Inductive t := FirstWins | Stackable.
#[global] Instance eq_dec : EqDecision t.
Proof. solve_decision. Defined.
End ResolutionPolicy.

Module ActionFamily.
Inductive t :=
| Host | Upstream | Direct | Mock | MapRemote | Status | Redirect | ReqHeader | ResHeader
| ResStatus | ReqMethod | ReqCookie | ResCookie | ReqUa | ReqReferer | ReqAuth | ReqForwarded
| ReqType | ReqCharset | ResCors | ResType | ResCharset | ResMerge | ResTrailer | Attachment
| Cache | Tls | UrlRewrite | UrlQuery | Delete | ReqBodySet | ReqBodyPrepend | ReqBodyAppend
| ReqBodyReplace | ResBodySet | ResBodyPrepend | ResBodyAppend | ResBodyReplace | Inject
| DelayReq | DelayRes | ThrottleReq | ThrottleRes | Bypass | Hide | Tag | Skip.
#[global] Instance eq_dec : EqDecision t.
Proof. solve_decision. Defined.

(** The rows of the [action_families!] table. *)
Definition row (f : t) : str * list Phase.t * ResolutionPolicy.t :=
  let mk (n : string) p r := (lit n, p, r) in
  let FirstWins := ResolutionPolicy.FirstWins in
  let Stackable := ResolutionPolicy.Stackable in
  match f with
  | Host => mk "host" REQUEST_PHASES FirstWins
  | Upstream => mk "upstream" REQUEST_PHASES FirstWins
  | Direct => mk "direct" REQUEST_PHASES FirstWins
  | Mock => mk "mock" REQUEST_PHASES FirstWins
  | MapRemote => mk "map.remote" REQUEST_PHASES FirstWins
  | Status => mk "status" REQUEST_PHASES FirstWins
  | Redirect => mk "redirect" REQUEST_PHASES FirstWins
  | ReqHeader => mk "req.header" REQUEST_PHASES Stackable
  | ResHeader => mk "res.header" RESPONSE_PHASES Stackable
  | ResStatus => mk "res.status" RESPONSE_PHASES FirstWins
  | ReqMethod => mk "req.method" REQUEST_PHASES FirstWins
  | ReqCookie => mk "req.cookie" REQUEST_PHASES Stackable
  | ResCookie => mk "res.cookie" RESPONSE_PHASES Stackable
  | ReqUa => mk "req.ua" REQUEST_PHASES FirstWins
  | ReqReferer => mk "req.referer" REQUEST_PHASES FirstWins
  | ReqAuth => mk "req.auth" REQUEST_PHASES FirstWins
  | ReqForwarded => mk "req.forwarded" REQUEST_PHASES FirstWins
  | ReqType => mk "req.type" REQUEST_PHASES FirstWins
  | ReqCharset => mk "req.charset" REQUEST_PHASES FirstWins
  | ResCors => mk "res.cors" RESPONSE_PHASES FirstWins
  | ResType => mk "res.type" RESPONSE_PHASES FirstWins
  | ResCharset => mk "res.charset" RESPONSE_PHASES FirstWins
  | ResMerge => mk "res.merge" RESPONSE_PHASES Stackable
  | ResTrailer => mk "res.trailer" RESPONSE_PHASES Stackable
  | Attachment => mk "attachment" RESPONSE_PHASES FirstWins
  | Cache => mk "cache" RESPONSE_PHASES FirstWins
  | Tls => mk "tls" REQUEST_PHASES FirstWins
  | UrlRewrite => mk "url.rewrite" REQUEST_PHASES FirstWins
  | UrlQuery => mk "url.query" REQUEST_PHASES Stackable
  | Delete => mk "delete" BOTH_PHASES Stackable
  | ReqBodySet => mk "req.body.set" REQUEST_PHASES Stackable
  | ReqBodyPrepend => mk "req.body.prepend" REQUEST_PHASES Stackable
  | ReqBodyAppend => mk "req.body.append" REQUEST_PHASES Stackable
  | ReqBodyReplace => mk "req.body.replace" REQUEST_PHASES Stackable
  | ResBodySet => mk "res.body.set" RESPONSE_PHASES Stackable
  | ResBodyPrepend => mk "res.body.prepend" RESPONSE_PHASES Stackable
  | ResBodyAppend => mk "res.body.append" RESPONSE_PHASES Stackable
  | ResBodyReplace => mk "res.body.replace" RESPONSE_PHASES Stackable
  | Inject => mk "inject" RESPONSE_PHASES Stackable
  | DelayReq => mk "delay.req" REQUEST_PHASES FirstWins
  | DelayRes => mk "delay.res" RESPONSE_PHASES FirstWins
  | ThrottleReq => mk "throttle.req" REQUEST_PHASES FirstWins
  | ThrottleRes => mk "throttle.res" RESPONSE_PHASES FirstWins
  | Bypass => mk "bypass" REQUEST_PHASES FirstWins
  | Hide => mk "hide" BOTH_PHASES FirstWins
  | Tag => mk "tag" BOTH_PHASES Stackable
  | Skip => mk "skip" BOTH_PHASES Stackable
  end.

(** [ActionFamily::ALL], in stable language order. *)
Definition ALL : list t :=
  [Host; Upstream; Direct; Mock; MapRemote; Status; Redirect; ReqHeader; ResHeader;
   ResStatus; ReqMethod; ReqCookie; ResCookie; ReqUa; ReqReferer; ReqAuth; ReqForwarded;
   ReqType; ReqCharset; ResCors; ResType; ResCharset; ResMerge; ResTrailer; Attachment;
   Cache; Tls; UrlRewrite; UrlQuery; Delete; ReqBodySet; ReqBodyPrepend; ReqBodyAppend;
   ReqBodyReplace; ResBodySet; ResBodyPrepend; ResBodyAppend; ResBodyReplace; Inject;
   DelayReq; DelayRes; ThrottleReq; ThrottleRes; Bypass; Hide; Tag; Skip].

Definition as_str (f : t) : str := (row f).1.1.
Definition phases (f : t) : list Phase.t := (row f).1.2.
Definition resolution (f : t) : ResolutionPolicy.t := (row f).2.

(** The generated [match name { "host" => Some(Host), ... }]: the first arm
    whose literal equals the name. *)
Definition from_name (name : str) : option t :=
  find (fun f => as_str f =s? name) ALL.

(** The discriminant of the fieldless [#[repr(u8)]] enum. *)
Definition discriminant (f : t) : N :=
  match f with
  | Host => 0 | Upstream => 1 | Direct => 2 | Mock => 3 | MapRemote => 4 | Status => 5
  | Redirect => 6 | ReqHeader => 7 | ResHeader => 8 | ResStatus => 9 | ReqMethod => 10
  | ReqCookie => 11 | ResCookie => 12 | ReqUa => 13 | ReqReferer => 14 | ReqAuth => 15
  | ReqForwarded => 16 | ReqType => 17 | ReqCharset => 18 | ResCors => 19 | ResType => 20
  | ResCharset => 21 | ResMerge => 22 | ResTrailer => 23 | Attachment => 24 | Cache => 25
  | Tls => 26 | UrlRewrite => 27 | UrlQuery => 28 | Delete => 29 | ReqBodySet => 30
  | ReqBodyPrepend => 31 | ReqBodyAppend => 32 | ReqBodyReplace => 33 | ResBodySet => 34
  | ResBodyPrepend => 35 | ResBodyAppend => 36 | ResBodyReplace => 37 | Inject => 38
  | DelayReq => 39 | DelayRes => 40 | ThrottleReq => 41 | ThrottleRes => 42 | Bypass => 43
  | Hide => 44 | Tag => 45 | Skip => 46
  end.

(** [1u64 << self as u8]. *)
Definition bit (f : t) : N := (N.shiftl 1 (discriminant f)) mod 2 ^ 64.
End ActionFamily.

(** [family_within]: equal to the prefix, or nested under it. *)
Definition family_within (family prefix : str) : bool :=
  match strip_prefix prefix family with
  | Some suffix => is_emptyb suffix || starts_with [ch "."] suffix
  | None => false
  end.

(** [normalize_skip_family]. *)
Definition normalize_skip_family (family : str) : str :=
  map (fun c => if (c =? ch "_") || (c =? ch "-") then ch "." else c)
    (to_ascii_lowercase
       (trim_matches (fun c => (c =? 34) || (c =? 39)) (trim family))).

(** [ActionFamilySet]: a [u64] bit mask. *)
Module ActionFamilySet.
Definition t : Type := N.

Definition EMPTY : t := 0.
Definition ALL : t :=
  if N.of_nat (length ActionFamily.ALL) =? 64 then U64_MAX
  else N.shiftl 1 (N.of_nat (length ActionFamily.ALL)) - 1.

Definition contains (s : t) (f : ActionFamily.t) : bool :=
  negb (N.land s (ActionFamily.bit f) =? 0).
Definition insert (s : t) (f : ActionFamily.t) : t := N.lor s (ActionFamily.bit f).
Definition is_empty (s : t) : bool := s =? 0.
Definition iter (s : t) : list ActionFamily.t :=
  List.filter (contains s) ActionFamily.ALL.
Definition union (s other : t) : t := N.lor s other.
Definition from_iter (fs : list ActionFamily.t) : t := fold_left insert fs EMPTY.

(** The loop of [from_prefix]. *)
Definition collect_prefix (prefix : str) (families : list ActionFamily.t) (set : t) : t :=
  fold_left
    (fun set f => if family_within (ActionFamily.as_str f) prefix then insert set f else set)
    families set.

Definition from_prefix (prefix : str) : option t :=
  if (prefix =s? lit "all") || (prefix =s? lit "*") then Some ALL
  else
    let set := collect_prefix prefix ActionFamily.ALL EMPTY in
    if negb (is_empty set) then Some set else None.
End ActionFamilySet.

(** ** Families: the table is consistent *)

Lemma discriminant_bound f : ActionFamily.discriminant f < 47.
Proof. by destruct f. Qed.

Lemma discriminant_inj f g :
  ActionFamily.discriminant f = ActionFamily.discriminant g -> f = g.
Proof. destruct f; destruct g; (reflexivity || discriminate). Qed.

Lemma ALL_lookup f : ActionFamily.ALL !! N.to_nat (ActionFamily.discriminant f) = Some f.
Proof. by destruct f. Qed.

Lemma elem_of_ALL f : f ∈ ActionFamily.ALL.
Proof. eapply list_elem_of_lookup_2, ALL_lookup. Qed.

Lemma bit_pow f : ActionFamily.bit f = 2 ^ ActionFamily.discriminant f.
Proof.
  unfold ActionFamily.bit. rewrite N.shiftl_1_l. apply N.mod_small.
  apply N.pow_lt_mono_r; [lia|]. pose proof (discriminant_bound f). lia.
Qed.

(** [from_name] inverts [as_str] on every family. *)
Lemma from_name_as_str f : ActionFamily.from_name (ActionFamily.as_str f) = Some f.
Proof. destruct f; vm_compute; reflexivity. Qed.

Lemma from_name_Some name f :
  ActionFamily.from_name name = Some f <-> name = ActionFamily.as_str f.
Proof.
  split; [|intros ->; apply from_name_as_str].
  unfold ActionFamily.from_name. intros H. apply find_some in H as [_ H].
  by apply bool_decide_eq_true in H.
Qed.

(** ** The bit mask refines a set of families *)

Section FamilySet.
Import ActionFamilySet.

Lemma contains_testbit s f : contains s f = N.testbit s (ActionFamily.discriminant f).
Proof.
  unfold contains. rewrite bit_pow. set (d := ActionFamily.discriminant f).
  destruct (N.testbit s d) eqn:E.
  - apply negb_true_iff, N.eqb_neq. intros H.
    assert (N.testbit (N.land s (2 ^ d)) d = true) as Ht
      by (by rewrite N.land_spec, E, N.pow2_bits_true).
    by rewrite H, N.bits_0 in Ht.
  - apply negb_false_iff, N.eqb_eq. apply N.bits_inj. intros i.
    rewrite N.land_spec, N.bits_0. destruct (decide (i = d)) as [->|Hne].
    + by rewrite E.
    + by rewrite N.pow2_bits_false, andb_false_r.
Qed.

Lemma contains_EMPTY f : contains EMPTY f = false.
Proof. done. Qed.

Lemma contains_ALL f : contains ALL f = true.
Proof. by destruct f. Qed.

Lemma contains_union s s' f : contains (union s s') f = contains s f || contains s' f.
Proof. by rewrite !contains_testbit, N.lor_spec. Qed.

Lemma contains_insert s f g : contains (insert s f) g = bool_decide (f = g) || contains s g.
Proof.
  rewrite !contains_testbit. unfold insert. rewrite N.lor_spec, bit_pow, orb_comm. f_equal.
  case_bool_decide as Hfg; [subst; apply N.pow2_bits_true|].
  apply N.pow2_bits_false. intros H. by apply discriminant_inj in H.
Qed.

Lemma contains_from_iter fs f : contains (from_iter fs) f = bool_decide (f ∈ fs).
Proof.
  unfold from_iter. rewrite <- (orb_false_r (bool_decide _)), <- (contains_EMPTY f).
  generalize EMPTY. induction fs as [|g fs IH]; intros s; cbn [fold_left].
  - by rewrite bool_decide_eq_false_2 by set_solver.
  - rewrite IH, contains_insert, orb_assoc. f_equal.
    destruct (decide (g = f)) as [->|Hne].
    + rewrite (bool_decide_eq_true_2 (f = f)), orb_true_r by done.
      by rewrite bool_decide_eq_true_2 by set_solver.
    + rewrite (bool_decide_eq_false_2 (g = f)), orb_false_r by done.
      apply bool_decide_ext. set_solver.
Qed.

(** A mask whose members are those of another mask is that mask, below the
    47 bits in use. *)
Lemma family_set_ext s s' :
  s < 2 ^ 47 -> s' < 2 ^ 47 -> (forall f, contains s f = contains s' f) -> s = s'.
Proof.
  intros Hs Hs' Hext. apply N.bits_inj. intros i.
  destruct (N.ltb_spec i 47) as [Hi|Hi].
  - destruct (ActionFamily.ALL !! N.to_nat i) as [f|] eqn:Ef.
    + assert (ActionFamily.discriminant f = i) as <-.
      { pose proof (ALL_lookup f) as Hf.
        assert (NoDup ActionFamily.ALL) as Hnd
          by (apply (bool_decide_unpack _); by vm_compute).
        pose proof (NoDup_lookup _ _ _ _ Hnd Hf Ef). lia. }
      by rewrite <- !contains_testbit.
    + apply lookup_ge_None in Ef. simpl in Ef. lia.
  - rewrite !N.bits_above_log2; [done|..].
    + destruct (decide (s' = 0)) as [->|]; [simpl; lia|].
      apply N.log2_lt_pow2; [lia|]. eapply N.lt_le_trans; [done|]. apply N.pow_le_mono_r; lia.
    + destruct (decide (s = 0)) as [->|]; [simpl; lia|].
      apply N.log2_lt_pow2; [lia|]. eapply N.lt_le_trans; [done|]. apply N.pow_le_mono_r; lia.
Qed.

Lemma contains_collect_prefix prefix fs s f :
  contains (collect_prefix prefix fs s) f
  = (bool_decide (f ∈ fs) && family_within (ActionFamily.as_str f) prefix) || contains s f.
Proof.
  unfold collect_prefix. revert s. induction fs as [|g fs IH]; intros s; cbn [fold_left].
  - by rewrite bool_decide_eq_false_2 by set_solver.
  - rewrite IH. destruct (decide (f = g)) as [->|Hne].
    + rewrite (bool_decide_eq_true_2 (g ∈ g :: fs)) by set_solver. simpl.
      destruct (family_within _ prefix); [|by rewrite !andb_false_r].
      rewrite contains_insert, (bool_decide_eq_true_2 (g = g)) by done. by rewrite !orb_true_r.
    + rewrite (bool_decide_ext (f ∈ g :: fs) (f ∈ fs)) by set_solver. f_equal.
      destruct (family_within (ActionFamily.as_str g) prefix); [|done].
      by rewrite contains_insert, (bool_decide_eq_false_2 (g = f)) by congruence.
Qed.

End FamilySet.

(** the 64-bit masks behave as sets of families: membership in the empty
    and the full set, after an insertion, after a union and after collecting
    a list is what set theory says, the stable iteration lists exactly the
    members in language order, and masks with the same members are equal. *)
Theorem family_set_refines_sets (s s' : ActionFamilySet.t) (fs : list ActionFamily.t)
    (f g : ActionFamily.t) :
  ActionFamilySet.contains ActionFamilySet.EMPTY g = false /\
  ActionFamilySet.contains ActionFamilySet.ALL g = true /\
  (ActionFamilySet.contains (ActionFamilySet.insert s f) g = true <->
     g = f \/ ActionFamilySet.contains s g = true) /\
  (ActionFamilySet.contains (ActionFamilySet.union s s') g = true <->
     ActionFamilySet.contains s g = true \/ ActionFamilySet.contains s' g = true) /\
  (ActionFamilySet.contains (ActionFamilySet.from_iter fs) g = true <-> g ∈ fs) /\
  (g ∈ ActionFamilySet.iter s <-> ActionFamilySet.contains s g = true) /\
  sublist (ActionFamilySet.iter s) ActionFamily.ALL /\
  (s < 2 ^ 47 -> s' < 2 ^ 47 ->
   (forall h, ActionFamilySet.contains s h = ActionFamilySet.contains s' h) -> s = s').
Proof.
  split_and!.
  - apply contains_EMPTY.
  - apply contains_ALL.
  - rewrite contains_insert, orb_true_iff, bool_decide_eq_true. naive_solver.
  - by rewrite contains_union, orb_true_iff.
  - by rewrite contains_from_iter, bool_decide_eq_true.
  - unfold ActionFamilySet.iter. rewrite list_elem_of_In, filter_In, <- list_elem_of_In.
    pose proof (elem_of_ALL g). naive_solver.
  - apply sublist_filter'.
  - apply family_set_ext.
Qed.

(** [skip(prefix)] resolves to the families equal to the prefix or nested
    under it (every family for [all] and [*]), and is rejected exactly when
    there is none. *)
Theorem from_prefix_spec (prefix : str) :
  match ActionFamilySet.from_prefix prefix with
  | Some set => forall f, ActionFamilySet.contains set f = true <->
      prefix = lit "all" \/ prefix = lit "*" \/ family_within (ActionFamily.as_str f) prefix = true
  | None => prefix <> lit "all" /\ prefix <> lit "*" /\
      forall f, family_within (ActionFamily.as_str f) prefix = false
  end.
Proof.
  assert (forall f, ActionFamilySet.contains
    (ActionFamilySet.collect_prefix prefix ActionFamily.ALL ActionFamilySet.EMPTY) f
    = family_within (ActionFamily.as_str f) prefix) as Hset.
  { intros f. rewrite contains_collect_prefix, contains_EMPTY, orb_false_r.
    by rewrite bool_decide_eq_true_2 by apply elem_of_ALL. }
  unfold ActionFamilySet.from_prefix.
  destruct (ActionFamilySet.collect_prefix prefix ActionFamily.ALL ActionFamilySet.EMPTY)
    as [|p] eqn:E; clear E; destruct (_ || _) eqn:Eall.
  1, 3: intros f; rewrite contains_ALL; apply orb_true_iff in Eall;
    rewrite !bool_decide_eq_true in Eall; tauto.
  all: apply orb_false_iff in Eall; rewrite !bool_decide_eq_false in Eall; simpl.
  - split; [tauto|]. split; [tauto|]. intros f. by rewrite <- Hset.
  - intros f. rewrite Hset. tauto.
Qed.
