(* ===== verification/Utf8.v ===== *)
(** * UTF-8 text and bytes

    The view of [str] as bytes that the sources use through [as_bytes],
    [String::from_utf8] and [String::from_utf8_lossy] of the Rust standard
    library.  A byte is an [N]; text is a list of code points. *)
From Stdlib Require Import Ascii String.
From stdpp Require Import base numbers list gmap strings.
From S2P Require Import Prelude.

(** A Rust [char] is a Unicode scalar value. *)
Definition valid_char (c : char) : bool := (c <? 55296) || in_range 57344 1114111 c.
Definition valid_str (s : str) : bool := forallb valid_char s.

Definition encode_char (c : char) : list N :=
  if c <? 128 then [c]
  else if c <? 2048 then [192 + c / 64; 128 + c mod 64]
  else if c <? 65536 then [224 + c / 4096; 128 + c / 64 mod 64; 128 + c mod 64]
  else [240 + c / 262144; 128 + c / 4096 mod 64; 128 + c / 64 mod 64; 128 + c mod 64].

(** [str::as_bytes]. *)
Definition encode (s : str) : list N := flat_map encode_char s.

Definition is_cont (b : N) : bool := in_range 128 191 b.

(** The accepted second bytes of three- and four-byte sequences: overlong
    forms, surrogates and values above U+10FFFF are excluded here. *)
Definition second_ok3 (b0 b1 : N) : bool :=
  if b0 =? 224 then in_range 160 191 b1
  else if b0 =? 237 then in_range 128 159 b1
  else is_cont b1.
Definition second_ok4 (b0 b1 : N) : bool :=
  if b0 =? 240 then in_range 144 191 b1
  else if b0 =? 244 then in_range 128 143 b1
  else is_cont b1.

(** One sequence starting at byte [b0]: the char, or [None] for a maximal
    invalid part, with the bytes after it. *)
Definition utf8_step (b0 : N) (rest : list N) : option char * list N :=
  if b0 <? 128 then (Some b0, rest)
  else if in_range 194 223 b0 then
    match rest with
    | b1 :: r1 =>
        if is_cont b1 then (Some ((b0 - 192) * 64 + (b1 - 128)), r1) else (None, rest)
    | [] => (None, rest)
    end
  else if in_range 224 239 b0 then
    match rest with
    | b1 :: r1 =>
        if second_ok3 b0 b1 then
          match r1 with
          | b2 :: r2 =>
              if is_cont b2
              then (Some ((b0 - 224) * 4096 + (b1 - 128) * 64 + (b2 - 128)), r2)
              else (None, r1)
          | [] => (None, r1)
          end
        else (None, rest)
    | [] => (None, rest)
    end
  else if in_range 240 244 b0 then
    match rest with
    | b1 :: r1 =>
        if second_ok4 b0 b1 then
          match r1 with
          | b2 :: r2 =>
              if is_cont b2 then
                match r2 with
                | b3 :: r3 =>
                    if is_cont b3
                    then (Some ((b0 - 240) * 262144 + (b1 - 128) * 4096
                                + (b2 - 128) * 64 + (b3 - 128)), r3)
                    else (None, r2)
                | [] => (None, r2)
                end
              else (None, r1)
          | [] => (None, r1)
          end
        else (None, rest)
    | [] => (None, rest)
    end
  else (None, rest).

(** Decode all bytes; [fuel] is the number of bytes, which is enough because
    every step consumes at least one.  [bad] is the value of an invalid part. *)
Fixpoint decode_with (bad : option char) (fuel : nat) (bs : list N) : option str :=
  match fuel, bs with
  | _, [] => Some []
  | O, _ :: _ => None
  | S fuel', b0 :: rest =>
      match utf8_step b0 rest with
      | (Some c, rest') => (cons c) <$> decode_with bad fuel' rest'
      | (None, rest') =>
          match bad with
          | Some r => (cons r) <$> decode_with bad fuel' rest'
          | None => None
          end
      end
  end.

(** [String::from_utf8]. *)
Definition from_utf8 (bs : list N) : option str := decode_with None (length bs) bs.

(** [String::from_utf8_lossy]: every maximal invalid part becomes U+FFFD. *)
Definition from_utf8_lossy (bs : list N) : str :=
  unwrap_or (decode_with (Some 65533) (length bs) bs) [].

(** ** Lemmas *)

#[local] Ltac Zify.zify_post_hook ::= Z.to_euclidean_division_equations.

(** Decide range tests whose outcome [lia] can see. *)
Ltac range_tests :=
  repeat match goal with
  | |- context [?a <? ?b] =>
      first [rewrite (proj2 (N.ltb_lt a b)) by lia | rewrite (proj2 (N.ltb_ge a b)) by lia]
  | |- context [?a =? ?b] =>
      first [rewrite (proj2 (N.eqb_eq a b)) by lia | rewrite (proj2 (N.eqb_neq a b)) by lia]
  | |- context [in_range ?lo ?hi ?c] =>
      first [rewrite (proj2 (in_range_spec lo hi c)) by lia
            |rewrite (proj2 (in_range_false lo hi c)) by lia]
  end.

Lemma valid_char_spec c : valid_char c = true <-> c < 55296 \/ 57344 <= c <= 1114111.
Proof. unfold valid_char. by rewrite orb_true_iff, N.ltb_lt, in_range_spec. Qed.

Lemma encode_app a b : encode (a ++ b) = encode a ++ encode b.
Proof. apply flat_map_app. Qed.

Lemma length_encode s : N.of_nat (length (encode s)) = len s.
Proof.
  induction s as [|c s IH]; [done|]. cbn [encode flat_map len].
  rewrite length_app, Nat2N.inj_add, <- IH. f_equal.
  unfold encode_char, char_len_utf8. by repeat case_goal.
Qed.

(** The first byte of a char is not a continuation byte, the others are. *)
Lemma encode_char_shape c :
  c < 2097152 -> exists b0 tl, encode_char c = b0 :: tl /\ is_cont b0 = false /\
    Forall (fun b => is_cont b = true) tl.
Proof.
  intros Hc. unfold encode_char, is_cont.
  destruct (N.ltb_spec c 128); [|destruct (N.ltb_spec c 2048);
    [|destruct (N.ltb_spec c 65536)]];
    eexists _, _; (split; [reflexivity|split; [by range_tests|]]);
    repeat (apply Forall_nil_2 || apply Forall_cons_2); apply in_range_spec; lia.
Qed.

Lemma utf8_step_encode c b0 tl rest :
  valid_char c = true -> encode_char c = b0 :: tl ->
  utf8_step b0 (tl ++ rest) = (Some c, rest).
Proof.
  rewrite valid_char_spec. intros Hv. unfold encode_char.
  destruct (N.ltb_spec c 128); [|destruct (N.ltb_spec c 2048);
    [|destruct (N.ltb_spec c 65536)]]; intros [= <- <-]; simpl;
    unfold utf8_step, second_ok3, second_ok4, is_cont; range_tests.
  - done.
  - do 2 f_equal. lia.
  - destruct (N.eqb_spec (224 + c / 4096) 224), (N.eqb_spec (224 + c / 4096) 237);
      range_tests; do 2 f_equal; lia.
  - destruct (N.eqb_spec (240 + c / 262144) 240), (N.eqb_spec (240 + c / 262144) 244);
      range_tests; do 2 f_equal; lia.
Qed.

Lemma utf8_step_Some b0 rest c rest' :
  utf8_step b0 rest = (Some c, rest') ->
  valid_char c = true /\ b0 :: rest = encode_char c ++ rest'.
Proof.
  rewrite valid_char_spec. unfold utf8_step, second_ok3, second_ok4, is_cont.
  destruct (N.ltb_spec b0 128) as [H0|H0].
  { intros [= <- <-]. unfold encode_char. range_tests. split; [lia|done]. }
  destruct (in_range 194 223 b0) eqn:R2; [|destruct (in_range 224 239 b0) eqn:R3;
    [|destruct (in_range 240 244 b0) eqn:R4; [|done]]].
  - destruct rest as [|b1 r1]; [done|]. destruct (in_range 128 191 b1) eqn:C1; [|done].
    apply in_range_spec in R2, C1. intros [= <- <-]. unfold encode_char. range_tests.
    split; [lia|]. simpl. repeat f_equal; lia.
  - destruct rest as [|b1 r1]; [done|]. destruct (if b0 =? 224 then _ else _) eqn:C1; [|done].
    destruct r1 as [|b2 r2]; [done|]. destruct (in_range 128 191 b2) eqn:C2; [|done].
    apply in_range_spec in R3, C2. intros [= <- <-].
    destruct (N.eqb_spec b0 224), (N.eqb_spec b0 237); apply in_range_spec in C1;
      (split; [lia|]); unfold encode_char; range_tests; simpl; repeat f_equal; lia.
  - destruct rest as [|b1 r1]; [done|]. destruct (if b0 =? 240 then _ else _) eqn:C1; [|done].
    destruct r1 as [|b2 r2]; [done|]. destruct (in_range 128 191 b2) eqn:C2; [|done].
    destruct r2 as [|b3 r3]; [done|]. destruct (in_range 128 191 b3) eqn:C3; [|done].
    apply in_range_spec in R4, C2, C3. intros [= <- <-].
    destruct (N.eqb_spec b0 240), (N.eqb_spec b0 244); apply in_range_spec in C1;
      (split; [lia|]); unfold encode_char; range_tests; simpl; repeat f_equal; lia.
Qed.

Lemma utf8_step_length b0 rest c rest' :
  utf8_step b0 rest = (c, rest') -> (length rest' <= length rest)%nat.
Proof.
  unfold utf8_step. intros H.
  repeat (case_in H; simplify_eq/=; try lia).
Qed.

Lemma encode_char_nonempty c : encode_char c <> [].
Proof. unfold encode_char. by repeat case_goal. Qed.

Lemma decode_with_encode bad fuel s :
  valid_str s = true -> (length (encode s) <= fuel)%nat ->
  decode_with bad fuel (encode s) = Some s.
Proof.
  revert fuel. induction s as [|c s IH]; intros fuel; simpl; [by destruct fuel|].
  rewrite andb_true_iff, length_app. intros [Hc Hs] Hf.
  destruct (encode_char c) as [|b0 tl] eqn:E; [by destruct (encode_char_nonempty c)|].
  destruct fuel as [|fuel]; [simpl in Hf; lia|]. simpl.
  rewrite (utf8_step_encode c b0 tl (encode s) Hc E). rewrite IH; [done..|].
  simpl in Hf. fold (encode s) in Hf. lia.
Qed.

Lemma decode_with_None_sound fuel bs s :
  decode_with None fuel bs = Some s -> encode s = bs /\ valid_str s = true.
Proof.
  revert bs s. induction fuel as [|fuel IH]; intros [|b0 rest] s; simpl;
    [naive_solver..|].
  destruct (utf8_step b0 rest) as [[c|] rest'] eqn:E; [|done].
  destruct (decode_with None fuel rest') as [s'|] eqn:D; [|done]. intros [= <-].
  apply utf8_step_Some in E as [Hc ->]. destruct (IH _ _ D) as [<- Hs].
  simpl. by rewrite Hc, Hs.
Qed.

Lemma from_utf8_encode s : valid_str s = true -> from_utf8 (encode s) = Some s.
Proof. intros H. by apply decode_with_encode. Qed.

Lemma from_utf8_Some bs s : from_utf8 bs = Some s -> encode s = bs /\ valid_str s = true.
Proof. apply decode_with_None_sound. Qed.

Lemma from_utf8_lossy_encode s : valid_str s = true -> from_utf8_lossy (encode s) = s.
Proof. intros H. unfold from_utf8_lossy. by rewrite decode_with_encode. Qed.

(** Lossy decoding never runs out of fuel. *)
Lemma decode_with_total r fuel bs :
  (length bs <= fuel)%nat -> is_Some (decode_with (Some r) fuel bs).
Proof.
  revert bs. induction fuel as [|fuel IH]; intros [|b0 rest] Hf; simpl in *; try by eexists.
  - lia.
  - destruct (utf8_step b0 rest) as [[c|] rest'] eqn:E; apply utf8_step_length in E;
      destruct (IH rest') as [s' ->]; eauto with lia.
Qed.

(** ** Self-synchronisation: byte infixes of text are text infixes *)

Lemma valid_char_small c : valid_char c = true -> c < 2097152.
Proof. rewrite valid_char_spec. lia. Qed.

Lemma encode_prefix p s b :
  valid_str p = true -> valid_str s = true -> encode s = encode p ++ b ->
  exists r, s = p ++ r /\ encode r = b.
Proof.
  revert s. induction p as [|c p IH]; intros s Hp Hs E; simpl in *; [by exists s|].
  apply andb_true_iff in Hp as [Hc Hp].
  destruct (encode_char c) as [|b0 tl] eqn:Ec; [by destruct (encode_char_nonempty c)|].
  destruct s as [|c' s]; [done|]. simpl in *. apply andb_true_iff in Hs as [Hc' Hs].
  destruct (encode_char c') as [|b0' tl'] eqn:Ec'; [by destruct (encode_char_nonempty c')|].
  simpl in E. injection E as -> Etl.
  pose proof (utf8_step_encode c b0 tl (encode p ++ b) Hc Ec) as H1.
  pose proof (utf8_step_encode c' b0 tl' (encode s) Hc' Ec') as H2.
  rewrite <- app_assoc in Etl. rewrite Etl in H2. rewrite H1 in H2.
  injection H2 as -> Es. destruct (IH s Hp Hs) as (r & -> & Hr); [done|].
  by exists r.
Qed.

Lemma encode_boundary s a b0 b :
  valid_str s = true -> encode s = a ++ b0 :: b -> is_cont b0 = false ->
  exists t1 t2, s = t1 ++ t2 /\ encode t1 = a /\ encode t2 = b0 :: b.
Proof.
  revert a. induction s as [|c s IH]; intros a Hs E Hb; simpl in *; [by destruct a|].
  apply andb_true_iff in Hs as [Hc Hs].
  destruct a as [|x a]; [by exists [], (c :: s)|].
  destruct (encode_char_shape c) as (c0 & tl & Ec & _ & Htl); [by apply valid_char_small|].
  rewrite Ec in E. simpl in E. injection E as -> E.
  assert (exists a', a = tl ++ a' /\ flat_map encode_char s = a' ++ b0 :: b) as (a' & -> & E').
  { clear -Htl E Hb. revert a E. induction Htl as [|y tl Hy Htl IH]; intros a E; [by exists a|].
    destruct a as [|z a]; simpl in E; [congruence|]. injection E as -> E.
    destruct (IH a E) as (a' & -> & ?). by exists a'. }
  destruct (IH a' Hs E' Hb) as (t1 & t2 & -> & H1 & H2).
  exists (c :: t1), t2. simpl. by rewrite Ec, H1.
Qed.

(** A text literal that occurs in the bytes of a text occurs in the text. *)
Lemma encode_infix p s a b :
  valid_str p = true -> valid_str s = true -> p <> [] ->
  encode s = a ++ encode p ++ b -> contains p s = true.
Proof.
  intros Hp Hs Hne E. apply contains_true.
  destruct p as [|c p]; [done|]. pose proof Hp as Hp'.
  simpl in Hp. apply andb_true_iff in Hp as [Hc _].
  destruct (encode_char_shape c) as (b0 & tl & Ec & Hb0 & _); [by apply valid_char_small|].
  pose proof E as E'. simpl in E. rewrite Ec in E. simpl in E.
  destruct (encode_boundary s a b0 _ Hs E Hb0) as (t1 & t2 & -> & H1 & H2).
  unfold valid_str in Hs. rewrite forallb_app in Hs. apply andb_true_iff in Hs as [_ Ht2].
  destruct (encode_prefix (c :: p) t2 b Hp' Ht2) as (r & -> & _).
  { rewrite H2. simpl. by rewrite Ec. }
  by exists t1, r.
Qed.
