(* ===== verification/Format.v ===== *)
(** * Formatting and splitting of text

    The parts of [core::fmt] and [core::str] the line-oriented formats use:
    zero padding, [split_whitespace] and [lines]. *)
From Stdlib Require Import Ascii String.
From stdpp Require Import base numbers list gmap strings.
From S2P Require Import Prelude Utf8.

(** [format!(...{:0w})] *)
Definition pad0 (w : nat) (digits : str) : str := replicate (w - length digits) (ch "0") ++ digits.

(** [str::split_whitespace] *)
Fixpoint words_aux (acc : str) (s : str) : list str :=
  match s with
  | [] => if is_emptyb acc then [] else [rev acc]
  | c :: s' =>
      if is_whitespace c then
        if is_emptyb acc then words_aux [] s' else rev acc :: words_aux [] s'
      else words_aux (c :: acc) s'
  end.
Definition split_whitespace (s : str) : list str := words_aux [] s.

(** [str::lines]: a line feed ends a line, with a carriage return before it. *)
Definition chomp_cr (s : str) : str := unwrap_or (strip_suffix [13] s) s.
Fixpoint lines_aux (acc : str) (s : str) : list str :=
  match s with
  | [] => if is_emptyb acc then [] else [rev acc]
  | c :: s' => if c =? 10 then chomp_cr (rev acc) :: lines_aux [] s' else lines_aux (c :: acc) s'
  end.
Definition lines (s : str) : list str := lines_aux [] s.

(** ** Printed numbers *)

Definition digits_below (radix : N) (s : str) : Prop :=
  Forall (fun c => exists d, c = digit_char d /\ d < radix) s.

Lemma to_radix_digits radix n : 2 <= radix <= 16 -> to_radix radix n <> [] /\ digits_below radix (to_radix radix n).
Proof.
  intros Hr. unfold to_radix.
  destruct (digits_aux_chars radix Hr (S (N.to_nat (N.size n))) n []) as (d & ds & -> & Hd & Hds); [lia|].
  split; [done|]. rewrite app_nil_r. constructor; eauto.
Qed.

Lemma digit_char_not_space d : d < 16 -> is_whitespace (digit_char d) = false.
Proof.
  intros H. unfold digit_char.
  destruct (N.ltb_spec d 10); unfold is_whitespace; rewrite !orb_false_iff, !in_range_false, !N.eqb_neq; lia.
Qed.

(** Text of printed characters only. *)
Definition word (s : str) : Prop := s <> [] /\ Forall (fun c => is_whitespace c = false) s.

Lemma digits_word radix s : radix <= 16 -> s <> [] -> digits_below radix s -> word s.
Proof.
  intros Hr Hs Hd. split; [done|]. eapply Forall_impl; [exact Hd|].
  intros c (d & -> & Hlt). apply digit_char_not_space. lia.
Qed.

Lemma pad0_digits radix w s : 2 <= radix -> digits_below radix s -> digits_below radix (pad0 w s).
Proof.
  intros Hr Hs. apply Forall_app. split; [|done]. apply Forall_replicate. exists 0. split; [done|lia].
Qed.

Lemma pad0_nonempty w s : s <> [] -> pad0 w s <> [].
Proof. unfold pad0. intros Hs. destruct (replicate _ _); [done|]. done. Qed.

Lemma show_N_word n : word (show_N n).
Proof. destruct (to_radix_digits 10 n) as [? ?]; [lia|]. by apply (digits_word 10). Qed.

Lemma show_hex_word w n : word (pad0 w (show_hex n)).
Proof.
  destruct (to_radix_digits 16 n) as [? ?]; [lia|].
  apply (digits_word 16); [lia|by apply pad0_nonempty|apply pad0_digits; [lia|done]].
Qed.

(** Reading a zero-padded number. *)
Lemma parse_digits_zeros radix max k s :
  0 < radix -> parse_digits radix max 0 (replicate k (ch "0") ++ s) = parse_digits radix max 0 s.
Proof.
  intros Hr. induction k as [|k IH]; [done|]. cbn [replicate app parse_digits].
  change (to_digit radix (ch "0")) with (if 0 <? radix then Some 0 else None).
  rewrite (proj2 (N.ltb_lt 0 radix) Hr). rewrite N.mul_0_l, N.add_0_l.
  rewrite (proj2 (N.leb_le 0 max)) by lia. exact IH.
Qed.

Lemma from_str_radix_digits radix max s :
  s <> [] -> (forall c, head s = Some c -> c <> ch "+" /\ c <> ch "-") ->
  from_str_radix radix max s = parse_digits radix max 0 s.
Proof.
  intros Hs Hh. destruct s as [|c s]; [done|]. destruct (Hh c eq_refl) as [H1%N.eqb_neq H2%N.eqb_neq].
  unfold from_str_radix. destruct s; by rewrite H1, ?H2.
Qed.

Lemma digits_no_sign radix s c : radix <= 16 -> digits_below radix s -> head s = Some c -> c <> ch "+" /\ c <> ch "-".
Proof.
  intros Hr Hd Hc. destruct s as [|x s]; [done|]. injection Hc as ->.
  inversion Hd as [|? ? (d & -> & Hlt) _]; subst. unfold digit_char.
  cbv [ch N_of_ascii]. simpl. destruct (N.ltb_spec d 10); lia.
Qed.

Lemma from_str_radix_pad0 radix w max n :
  2 <= radix <= 16 -> n <= max -> from_str_radix radix max (pad0 w (to_radix radix n)) = Ok n.
Proof.
  intros Hr Hn. destruct (to_radix_digits radix n Hr) as [Hne Hd].
  rewrite from_str_radix_digits; [|by apply pad0_nonempty|].
  2: { intros c Hc. eapply digits_no_sign; [|apply pad0_digits; [|exact Hd]|exact Hc]; lia. }
  unfold pad0. rewrite parse_digits_zeros by lia.
  rewrite <- (from_str_radix_digits radix max); [by apply from_str_radix_to_radix|done|].
  intros c. apply (digits_no_sign radix); [lia|done].
Qed.

(** ** Splitting printed text *)

Lemma words_aux_word acc s rest :
  Forall (fun c => is_whitespace c = false) s ->
  words_aux acc (s ++ rest) = words_aux (rev s ++ acc) rest.
Proof.
  revert acc. induction s as [|c s IH]; intros acc Hs; [done|]. inversion Hs; subst.
  cbn [app words_aux]. rewrite H1. rewrite IH by done. simpl. by rewrite <- app_assoc.
Qed.

Lemma split_whitespace_cons s rest :
  word s -> split_whitespace (s ++ ch " " :: rest) = s :: split_whitespace rest.
Proof.
  intros [Hne Hs]. unfold split_whitespace. rewrite words_aux_word by done.
  cbn [words_aux]. change (is_whitespace (ch " ")) with true. cbn.
  rewrite app_nil_r. destruct (rev s) eqn:E; [by rewrite <- (rev_involutive s), E in Hne|].
  cbn [is_emptyb]. by rewrite <- E, rev_involutive.
Qed.

Lemma split_whitespace_last s : word s -> split_whitespace s = [s].
Proof.
  intros [Hne Hs]. unfold split_whitespace. rewrite <- (app_nil_r s) at 1.
  rewrite words_aux_word by done. cbn [words_aux]. rewrite app_nil_r.
  destruct (rev s) eqn:E; [by rewrite <- (rev_involutive s), E in Hne|].
  cbn [is_emptyb]. by rewrite <- E, rev_involutive.
Qed.

Lemma lines_aux_line acc s rest :
  10 ∉ s -> lines_aux acc (s ++ 10 :: rest) = chomp_cr (rev acc ++ s) :: lines rest.
Proof.
  revert acc. induction s as [|c s IH]; intros acc Hs.
  - cbn. by rewrite app_nil_r.
  - apply not_elem_of_cons in Hs as [Hc Hs]. cbn [app lines_aux].
    destruct (N.eqb_spec c 10); [congruence|]. rewrite IH by done. simpl. by rewrite <- app_assoc.
Qed.

Lemma chomp_cr_id s : 13 ∉ s -> chomp_cr s = s.
Proof.
  intros H. unfold chomp_cr. destruct (strip_suffix [13] s) as [t|] eqn:E; [|done].
  apply strip_suffix_Some in E as ->. set_solver.
Qed.

Lemma lines_cons s rest : 10 ∉ s -> 13 ∉ s -> lines (s ++ 10 :: rest) = s :: lines rest.
Proof. intros H1 H2. unfold lines at 1. rewrite lines_aux_line by done. by rewrite chomp_cr_id. Qed.

(** ** Lengths of printed numbers *)

Lemma digits_aux_length radix fuel n acc k :
  2 <= radix -> n < radix ^ N.of_nat (S k) ->
  (length (digits_aux radix fuel n acc) <= S k + length acc)%nat.
Proof.
  intros Hr. revert n acc k. induction fuel as [|fuel IH]; intros n acc k Hn; simpl; [lia|].
  destruct (N.ltb_spec n radix); [simpl; lia|].
  destruct k as [|k].
  - change (N.of_nat 1) with 1 in Hn. rewrite N.pow_1_r in Hn. lia.
  - etransitivity; [apply (IH _ _ k)|simpl; lia].
    apply N.Div0.div_lt_upper_bound.
    by rewrite (Nat2N.inj_succ (S k)), N.pow_succ_r' in Hn.
Qed.

Lemma show_N_length n : n <= U64_MAX -> (length (show_N n) <= 20)%nat.
Proof.
  intros H. unfold show_N, to_radix. etransitivity; [apply (digits_aux_length 10 _ _ _ 19)|simpl; lia]; [lia|].
  eapply N.le_lt_trans; [exact H|]. by vm_compute.
Qed.

Lemma show_hex_length n : n <= U32_MAX -> (length (show_hex n) <= 8)%nat.
Proof.
  intros H. unfold show_hex, to_radix. etransitivity; [apply (digits_aux_length 16 _ _ _ 7)|simpl; lia]; [lia|].
  eapply N.le_lt_trans; [exact H|]. by vm_compute.
Qed.

Lemma pad0_length w s : (length s <= w)%nat -> length (pad0 w s) = w.
Proof. intros H. unfold pad0. rewrite length_app, length_replicate. lia. Qed.

(** ** Splitting *)

(** [str::split] by a nonempty text; a round consumes the separator. *)
Fixpoint split_str_aux (fuel : nat) (p s : str) : list str :=
  match fuel with
  | O => [s]
  | S fuel' => match split_once p s with
               | Some (a, b) => a :: split_str_aux fuel' p b
               | None => [s]
               end
  end.
Definition split_str (p s : str) : list str := split_str_aux (length s) p s.

(** [str::splitn] by a char: at most [n] parts, the last unsplit. *)
Fixpoint splitn_char (n : nat) (c : char) (s : str) : list str :=
  match n with
  | O => []
  | S O => [s]
  | S n' => match split_once [c] s with
            | Some (a, b) => a :: splitn_char n' c b
            | None => [s]
            end
  end.

(** ** ASCII text *)

Lemma encode_ascii s : Forall (fun c => c < 128) s -> encode s = s.
Proof.
  induction 1 as [|c s Hc _ IH]; [done|]. unfold encode in *. cbn [flat_map]. rewrite IH.
  unfold encode_char. apply N.ltb_lt in Hc. by rewrite Hc.
Qed.

Lemma valid_ascii s : Forall (fun c => c < 128) s -> valid_str s = true.
Proof.
  induction 1 as [|c s Hc _ IH]; [done|]. cbn. unfold valid_str in IH. rewrite IH, andb_true_r.
  unfold valid_char. rewrite orb_true_iff, N.ltb_lt. lia.
Qed.

#[local] Ltac Zify.zify_post_hook ::= Z.to_euclidean_division_equations.
Lemma encode_elem c s : c < 128 -> c ∈ encode s <-> c ∈ s.
Proof.
  intros Hc. induction s as [|x s IH]; [done|]. cbn [encode flat_map].
  change (flat_map encode_char s) with (encode s). rewrite elem_of_app, IH, elem_of_cons.
  split; intros [H|H]; auto; left.
  - clear IH. unfold encode_char in H.
    repeat case_in H; set_unfold in H; bool_to_prop; intuition lia.
  - subst x. unfold encode_char. rewrite (proj2 (N.ltb_lt c 128)) by done. set_solver.
Qed.

#[local] Ltac Zify.zify_post_hook ::= idtac.
Lemma valid_str_app a b : valid_str (a ++ b) = valid_str a && valid_str b.
Proof. apply forallb_app. Qed.

(** ** Trimmed text *)

Lemma trim_matches_idem P s : trim_matches P (trim_matches P s) = trim_matches P s.
Proof.
  unfold trim_matches, trim_end_matches. set (a := trim_start_matches P s).
  pose proof (trim_start_matches_head P s) as Ha. fold a in Ha.
  destruct (trim_start_matches_spec P (rev a)) as (r & Hr & _).
  set (b := trim_start_matches P (rev a)) in *.
  assert (Eb : trim_start_matches P (rev b) = rev b).
  { apply (f_equal (@rev _)) in Hr. rewrite rev_involutive, rev_app_distr in Hr.
    destruct (rev b) as [|c t]; [done|]. rewrite Hr in Ha. by apply trim_start_matches_id. }
  rewrite Eb, rev_involutive. unfold b. by rewrite trim_start_matches_idem.
Qed.
Lemma trim_trim s : trim (trim s) = trim s.
Proof. apply trim_matches_idem. Qed.
Lemma trim_space s : trim (32 :: s) = trim s.
Proof. done. Qed.
Lemma trim_word s : Forall (fun c => is_whitespace c = false) s -> trim s = s.
Proof. apply trim_matches_none. Qed.
Lemma trim_elem c s : c ∈ trim s -> c ∈ s.
Proof. destruct (trim_matches_infix is_whitespace s) as (a & b & E). rewrite E at 2. set_solver. Qed.
Lemma trim_valid s : valid_str s = true -> valid_str (trim s) = true.
Proof.
  destruct (trim_matches_infix is_whitespace s) as (a & b & E). rewrite E at 1.
  rewrite !valid_str_app, !andb_true_iff. tauto.
Qed.
Lemma len_trim s : len (trim s) <= len s.
Proof. destruct (trim_matches_infix is_whitespace s) as (a & b & E). rewrite E at 2. unfold trim. rewrite !len_app. lia. Qed.

Lemma split_char_none c s : c ∉ s -> split_char c s = [s].
Proof.
  induction s as [|x s IH]; intros H; [done|]. cbn [split_char].
  rewrite (proj2 (N.eqb_neq x c)) by set_solver. by rewrite IH by set_solver.
Qed.

Lemma split_char_app c a s : c ∉ a -> split_char c (a ++ c :: s) = a :: split_char c s.
Proof.
  induction a as [|x a IH]; intros H; cbn [app split_char].
  - by rewrite N.eqb_refl.
  - rewrite (proj2 (N.eqb_neq x c)) by set_solver. by rewrite IH by set_solver.
Qed.
Lemma split_char_join c item items :
  Forall (fun i => c ∉ i) (item :: items) -> split_char c (join [c] (item :: items)) = item :: items.
Proof.
  revert item. induction items as [|next items IH]; intros item [Hi Hr]%Forall_cons.
  - by apply split_char_none.
  - change (join [c] (item :: next :: items)) with (item ++ [c] ++ join [c] (next :: items)). cbn [app].
    by rewrite split_char_app, IH.
Qed.
Lemma split_char_cons c s : exists h t, split_char c s = h :: t.
Proof.
  induction s as [|x s (h & t & IH)]; [by exists [], []|]. cbn [split_char]. rewrite IH.
  destruct (x =? c); eauto.
Qed.
Lemma split_char_no c s piece : piece ∈ split_char c s -> c ∉ piece.
Proof.
  revert piece. induction s as [|x s IH]; cbn [split_char]; intros piece.
  { intros ->%list_elem_of_singleton. set_solver. }
  destruct (split_char_cons c s) as (h & t & E). rewrite E in *. destruct (N.eqb_spec x c) as [->|Hx].
  - intros [->|H]%elem_of_cons; [set_solver|]. by apply IH.
  - intros [->|H]%elem_of_cons; [|apply IH; set_solver].
    specialize (IH h ltac:(set_solver)). set_solver.
Qed.
Lemma split_char_sep c a s : split_char c (a ++ c :: s) = split_char c a ++ split_char c s.
Proof.
  induction a as [|x a IH]; cbn [app split_char]; [by rewrite N.eqb_refl|]. rewrite IH.
  destruct (split_char_cons c a) as (h & t & ->). by destruct (x =? c).
Qed.

(** ** Hexadecimal sizes *)

(** [{:X}] *)
Definition show_HEX (n : N) : str := to_ascii_uppercase (show_hex n).

Lemma upper_digit d :
  d < 16 -> to_digit 16 (upper (digit_char d)) = Some d /\
  (in_range 48 57 (upper (digit_char d)) || in_range 65 70 (upper (digit_char d))) = true.
Proof.
  intros H. destruct d as [|p]; [by vm_compute|].
  do 4 (destruct p as [p|p|]; try (by vm_compute)); lia.
Qed.

Lemma show_HEX_chars n : Forall (fun c => (in_range 48 57 c || in_range 65 70 c) = true) (show_HEX n).
Proof.
  destruct (to_radix_digits 16 n ltac:(lia)) as [_ Hd]. unfold show_HEX, to_ascii_uppercase.
  apply Forall_map. eapply Forall_impl; [exact Hd|]. intros c (d & -> & Hlt). by apply upper_digit.
Qed.

Lemma parse_digits_upper max acc s :
  digits_below 16 s -> parse_digits 16 max acc (to_ascii_uppercase s) = parse_digits 16 max acc s.
Proof.
  intros H. revert acc. induction H as [|c s (d & -> & Hd) Hs IH]; intros acc; [done|].
  cbn [to_ascii_uppercase map parse_digits]. rewrite (proj1 (upper_digit d Hd)).
  rewrite to_digit_digit_char by lia. case_goal; [apply IH|done].
Qed.

Lemma from_str_radix_show_HEX max n : n <= max -> from_str_radix 16 max (show_HEX n) = Ok n.
Proof.
  intros Hn. destruct (to_radix_digits 16 n ltac:(lia)) as [Hne Hd].
  rewrite from_str_radix_digits.
  - unfold show_HEX. rewrite parse_digits_upper by done.
    rewrite <- (from_str_radix_digits 16 max); [apply from_str_radix_to_radix; lia|done|].
    intros c. apply (digits_no_sign 16); [lia|done].
  - unfold show_HEX, show_hex. by destruct (to_radix 16 n).
  - intros c Hc. pose proof (show_HEX_chars n) as H. destruct (show_HEX n); [done|]. injection Hc as ->.
    apply Forall_cons in H as [H _]. rewrite orb_true_iff, !in_range_spec in H.
    cbv [ch N_of_ascii]. simpl. lia.
Qed.

Lemma show_HEX_length n : n <= U64_MAX -> (length (show_HEX n) <= 16)%nat.
Proof.
  intros H. unfold show_HEX, to_ascii_uppercase. rewrite length_map.
  unfold show_hex, to_radix. etransitivity; [apply (digits_aux_length 16 _ _ _ 15)|simpl; lia]; [lia|].
  eapply N.le_lt_trans; [exact H|]. by vm_compute.
Qed.
