(* ===== verification/NetAddr.v ===== *)
(** * IP and socket addresses

    The parsers and printers of [std::net] that the sources call:
    [str::parse::<Ipv6Addr>] (URL authorities), [str::parse::<SocketAddr>] and
    [IpAddr::to_string] (client and server address conditions).  A parser
    takes the unread text and returns a value with the text left over; a
    failing alternative leaves the caller's text untouched. *)
From Stdlib Require Import Ascii String.
From stdpp Require Import base numbers list gmap strings.
From S2P Require Import Prelude.

Definition reader (A : Type) : Type := str -> option (A * str).

Inductive IpAddr :=
| V4 (octets : list N)
| V6 (segments : list N).

Record SocketAddr := mkSocketAddr { sa_ip : IpAddr; sa_port : N }.

Fixpoint read_digits (radix : N) (s : str) : list N * str :=
  match s with
  | [] => ([], [])
  | c :: s' =>
      match to_digit radix c with
      | Some d => let '(ds, rest) := read_digits radix s' in (d :: ds, rest)
      | None => ([], s)
      end
  end.

Definition digits_value (radix : N) (ds : list N) : N :=
  fold_left (fun acc d => acc * radix + d) ds 0.

(** [Parser::read_number]. *)
Definition read_number (radix : N) (max_digits : option nat) (allow_zero_prefix : bool)
    (max : N) : reader N := fun s =>
  let '(ds, rest) := read_digits radix s in
  if match max_digits with Some m => (m <? length ds)%nat | None => false end then None
  else if is_emptyb ds then None
  else if negb allow_zero_prefix && (match ds with 0 :: _ :: _ => true | _ => false end) then None
  else if digits_value radix ds <=? max then Some (digits_value radix ds, rest) else None.

Definition read_given_char (c : char) : reader unit := fun s =>
  match s with
  | x :: s' => if x =? c then Some (tt, s') else None
  | [] => None
  end.

Definition read_separator {A} (sep : char) (index : nat) (inner : reader A) : reader A := fun s =>
  match index with
  | O => inner s
  | S _ => match read_given_char sep s with Some (_, s') => inner s' | None => None end
  end.

(** [Parser::read_ipv4_addr]: four decimal octets without leading zeros. *)
Definition read_ipv4_addr : reader (list N) := fun s =>
  let octet i := read_separator (ch ".") i (read_number 10 (Some 3%nat) false 255) in
  '(a, s) ← octet 0%nat s; '(b, s) ← octet 1%nat s; '(c, s) ← octet 2%nat s;
  '(d, s) ← octet 3%nat s; Some ([a; b; c; d], s).

(** [read_groups]: up to [k] more groups, [i] already read; the flag reports a
    trailing embedded IPv4 address. *)
Fixpoint read_groups (k i : nat) (s : str) : list N * bool * str :=
  match k with
  | O => ([], false, s)
  | S k' =>
      let hex :=
        match read_separator (ch ":") i (read_number 16 (Some 4%nat) true 65535) s with
        | Some (g, s') => let '(gs, v4, s'') := read_groups k' (S i) s' in (g :: gs, v4, s'')
        | None => ([], false, s)
        end in
      match k' with
      | O => hex
      | S _ =>
          match read_separator (ch ":") i read_ipv4_addr s with
          | Some ([a; b; c; d], s') => ([a * 256 + b; c * 256 + d], true, s')
          | _ => hex
          end
      end
  end.

(** [Parser::read_ipv6_addr]. *)
Definition read_ipv6_addr : reader (list N) := fun s =>
  let '(head, head_ipv4, s1) := read_groups 8 0 s in
  if (length head =? 8)%nat then Some (head, s1)
  else if head_ipv4 then None
  else
    '(_, s2) ← read_given_char (ch ":") s1;
    '(_, s3) ← read_given_char (ch ":") s2;
    let limit := (8 - (length head + 1))%nat in
    let '(tail, _, s4) := read_groups limit 0 s3 in
    Some (head ++ replicate (8 - length head - length tail) 0 ++ tail, s4).

(** The whole input must be consumed. *)
Definition parse_with {A} (r : reader A) (s : str) : option A :=
  match r s with
  | Some (a, []) => Some a
  | _ => None
  end.

Definition parse_ipv6 (s : str) : option (list N) := parse_with read_ipv6_addr s.

Definition parse_ipv4 (s : str) : option (list N) :=
  if 15 <? len s then None else parse_with read_ipv4_addr s.

Definition read_port : reader N := fun s =>
  '(_, s) ← read_given_char (ch ":") s; read_number 10 None true U16_MAX s.

Definition read_scope_id : reader N := fun s =>
  '(_, s) ← read_given_char (ch "%") s; read_number 10 None true U32_MAX s.

Definition read_socket_addr_v4 : reader SocketAddr := fun s =>
  '(ip, s) ← read_ipv4_addr s; '(port, s) ← read_port s;
  Some (mkSocketAddr (V4 ip) port, s).

Definition read_socket_addr_v6 : reader SocketAddr := fun s =>
  '(_, s) ← read_given_char (ch "[") s;
  '(ip, s) ← read_ipv6_addr s;
  let s := match read_scope_id s with Some (_, s') => s' | None => s end in
  '(_, s) ← read_given_char (ch "]") s;
  '(port, s) ← read_port s;
  Some (mkSocketAddr (V6 ip) port, s).

Definition parse_socket_addr (s : str) : option SocketAddr :=
  parse_with
    (fun s => match read_socket_addr_v4 s with Some r => Some r | None => read_socket_addr_v6 s end)
    s.

(** ** Printing *)

Definition show_ipv4 (octets : list N) : str := join [ch "."] (map show_N octets).

Definition fmt_subslice (segments : list N) : str := join [ch ":"] (map show_hex segments).

(** The first longest run of zero segments, as (start, length). *)
Fixpoint longest_zero_run (i : nat) (cur best : nat * nat) (segments : list N) : nat * nat :=
  match segments with
  | [] => best
  | x :: xs =>
      if x =? 0 then
        let cur := if (cur.2 =? 0)%nat then (i, 1%nat) else (cur.1, S cur.2) in
        longest_zero_run (S i) cur (if (best.2 <? cur.2)%nat then cur else best) xs
      else longest_zero_run (S i) (0, 0)%nat best xs
  end.

Definition show_ipv6 (segments : list N) : str :=
  match segments with
  | [0; 0; 0; 0; 0; 65535; a; b] =>
      lit "::ffff:" ++ show_ipv4 [a / 256; a mod 256; b / 256; b mod 256]
  | _ =>
      let '(start, n) := longest_zero_run 0 (0, 0)%nat (0, 0)%nat segments in
      if (1 <? n)%nat
      then fmt_subslice (take start segments) ++ lit "::" ++ fmt_subslice (drop (start + n) segments)
      else fmt_subslice segments
  end.

Definition show_ip (ip : IpAddr) : str :=
  match ip with V4 octets => show_ipv4 octets | V6 segments => show_ipv6 segments end.

(** Concrete addresses. *)
Example parse_socket_addr_v4_example :
  show_ip ∘ sa_ip <$> parse_socket_addr (lit "127.0.0.1:8080") = Some (lit "127.0.0.1").
Proof. vm_compute. reflexivity. Qed.

Example parse_socket_addr_v6_example :
  show_ip ∘ sa_ip <$> parse_socket_addr (lit "[2001:DB8::1%3]:443") = Some (lit "2001:db8::1").
Proof. vm_compute. reflexivity. Qed.

Example parse_ipv6_examples :
  parse_ipv6 (lit "::ffff:1.2.3.4") = Some [0; 0; 0; 0; 0; 65535; 258; 772] /\
  parse_ipv6 (lit "1:2:3:4:5:6:7:8") = Some [1; 2; 3; 4; 5; 6; 7; 8] /\
  parse_ipv6 (lit "1::2::3") = None /\ parse_ipv6 (lit "::") = Some (replicate 8 0) /\
  parse_socket_addr (lit "01.2.3.4:5") = None.
Proof. vm_compute. repeat split; reflexivity. Qed.

(** ** What the IPv6 reader consumes, and that it ignores letter case *)

Definition ip_char (c : char) : bool := is_ascii_hexdigit c || (c =? ch ":") || (c =? ch ".").

Definition consumes {A} (r : reader A) : Prop :=
  forall s a rest, r s = Some (a, rest) ->
    exists used, s = used ++ rest /\ Forall (fun c => ip_char c = true) used.

Definition case_blind {A} (r : reader A) : Prop :=
  forall s, r (to_ascii_lowercase s) =
    (fun p : A * str => (p.1, to_ascii_lowercase p.2)) <$> r s.

Definition bind_reader {A B} (r : reader A) (k : A -> reader B) : reader B :=
  fun s => match r s with Some (a, s') => k a s' | None => None end.

Lemma consumes_bind {A B} (r : reader A) (k : A -> reader B) :
  consumes r -> (forall a, consumes (k a)) -> consumes (bind_reader r k).
Proof.
  intros Hr Hk s b rest. unfold bind_reader. destruct (r s) as [[a s']|] eqn:E; [|done].
  intros Hb. destruct (Hr _ _ _ E) as (u1 & -> & H1). destruct (Hk a _ _ _ Hb) as (u2 & -> & H2).
  exists (u1 ++ u2). rewrite app_assoc. split; [done|]. by apply Forall_app.
Qed.

Lemma case_blind_bind {A B} (r : reader A) (k : A -> reader B) :
  case_blind r -> (forall a, case_blind (k a)) -> case_blind (bind_reader r k).
Proof.
  intros Hr Hk s. unfold bind_reader. rewrite Hr.
  destruct (r s) as [[a s']|]; [|done]. simpl. apply Hk.
Qed.

Lemma consumes_ret {A} (a : A) : consumes (fun s => Some (a, s)).
Proof. intros s b rest [= <- <-]. by exists []. Qed.

Lemma case_blind_ret {A} (a : A) : case_blind (fun s => Some (a, s)).
Proof. by intros s. Qed.

(** Lower-casing changes only the letters A-Z, to a-z. *)
Lemma lower_cases c :
  lower c = c \/ (is_ascii_uppercase c = true /\ lower c = c + 32).
Proof. unfold lower. destruct (is_ascii_uppercase c); auto. Qed.

Lemma to_digit_lower radix c : radix <= 36 -> to_digit radix (lower c) = to_digit radix c.
Proof.
  intros Hr. destruct (lower_cases c) as [->|[Hu ->]]; [done|].
  apply in_range_spec in Hu. unfold to_digit, is_ascii_digit.
  rewrite (proj2 (in_range_false 48 57 (c + 32))), (proj2 (in_range_spec 97 122 (c + 32))) by lia.
  rewrite (proj2 (in_range_false 48 57 c)), (proj2 (in_range_false 97 122 c)),
    (proj2 (in_range_spec 65 90 c)) by lia.
  by replace (c + 32 - 87) with (c - 55) by lia.
Qed.

Lemma lower_eqb c x :
  is_ascii_alphabetic x = false -> (lower c =? x) = (c =? x).
Proof.
  intros Hx. apply orb_false_iff in Hx as [Hu Hl].
  destruct (lower_cases c) as [->|[Hc ->]]; [done|].
  apply in_range_spec in Hc. apply in_range_false in Hu, Hl.
  rewrite (proj2 (N.eqb_neq c x)) by lia. apply N.eqb_neq. lia.
Qed.

Lemma to_digit_hex radix c d :
  radix <= 16 -> to_digit radix c = Some d -> ip_char c = true.
Proof.
  intros Hr. unfold to_digit, ip_char, is_ascii_hexdigit, is_ascii_digit.
  destruct (in_range 48 57 c) eqn:E1; [done|].
  destruct (in_range 97 122 c) eqn:E2.
  - apply in_range_spec in E2. destruct (N.ltb_spec (c - 87) radix); [|done].
    by rewrite (proj2 (in_range_spec 97 102 c)), orb_true_r by lia.
  - destruct (in_range 65 90 c) eqn:E3; [|done]. apply in_range_spec in E3.
    destruct (N.ltb_spec (c - 55) radix); [|done].
    by rewrite (proj2 (in_range_spec 65 70 c)) by lia.
Qed.

Lemma read_digits_spec radix s ds rest :
  radix <= 16 -> read_digits radix s = (ds, rest) ->
  exists used, s = used ++ rest /\ Forall (fun c => ip_char c = true) used.
Proof.
  intros Hr. revert ds rest. induction s as [|c s IH]; intros ds rest; simpl.
  - intros [= <- <-]. by exists [].
  - destruct (to_digit radix c) eqn:E.
    + destruct (read_digits radix s) as [ds' rest'] eqn:Er. intros [= <- <-].
      destruct (IH _ _ eq_refl) as (u & -> & Hu). exists (c :: u).
      split; [done|]. constructor; [|done]. by eapply to_digit_hex.
    + intros [= <- <-]. by exists [].
Qed.

Lemma read_digits_lower radix s :
  radix <= 16 ->
  read_digits radix (to_ascii_lowercase s) =
  ((read_digits radix s).1, to_ascii_lowercase (read_digits radix s).2).
Proof.
  intros Hr. induction s as [|c s IH]; [done|]. simpl.
  rewrite to_digit_lower by lia. destruct (to_digit radix c) eqn:E; [|done].
  fold (to_ascii_lowercase s). rewrite IH. by destruct (read_digits radix s).
Qed.

Lemma read_number_consumes radix m z max : radix <= 16 -> consumes (read_number radix m z max).
Proof.
  intros Hr s a rest. unfold read_number. destruct (read_digits radix s) as [ds r] eqn:E.
  apply read_digits_spec in E; [|done]. intros H.
  destruct (match m with Some _ => _ | None => _ end); [done|].
  destruct (is_emptyb ds); [done|]. destruct (negb z && _); [done|].
  destruct (_ <=? max); [|done]. by injection H as <- <-.
Qed.

Lemma read_number_case_blind radix m z max :
  radix <= 16 -> case_blind (read_number radix m z max).
Proof.
  intros Hr s. unfold read_number. rewrite read_digits_lower by done.
  destruct (read_digits radix s) as [ds r]. simpl.
  destruct (match m with Some _ => _ | None => _ end); [done|].
  destruct (is_emptyb ds); [done|]. destruct (negb z && _); [done|].
  by destruct (_ <=? max).
Qed.

Lemma read_given_char_consumes c : ip_char c = true -> consumes (read_given_char c).
Proof.
  intros Hc [|x s] a rest; [done|]. simpl. destruct (N.eqb_spec x c) as [->|]; [|done].
  intros [= <- <-]. exists [c]. split; [done|]. by repeat constructor.
Qed.

Lemma read_given_char_case_blind c :
  is_ascii_alphabetic c = false -> case_blind (read_given_char c).
Proof.
  intros Hc [|x s]; [done|]. simpl. rewrite lower_eqb by done. by destruct (x =? c).
Qed.

Lemma read_separator_bind {A} sep i (r : reader A) s :
  read_separator sep i r s =
  match i with O => r s | S _ => bind_reader (read_given_char sep) (fun _ => r) s end.
Proof. by destruct i. Qed.

Lemma read_separator_consumes {A} sep i (r : reader A) :
  ip_char sep = true -> consumes r -> consumes (read_separator sep i r).
Proof.
  intros Hs Hr s a rest. rewrite read_separator_bind. destruct i; [apply Hr|].
  apply consumes_bind; [by apply read_given_char_consumes|done].
Qed.

Lemma read_separator_case_blind {A} sep i (r : reader A) :
  is_ascii_alphabetic sep = false -> case_blind r -> case_blind (read_separator sep i r).
Proof.
  intros Hs Hr s. rewrite !read_separator_bind. destruct i; [apply Hr|].
  apply case_blind_bind; [by apply read_given_char_case_blind|done].
Qed.

Lemma read_ipv4_addr_bind s :
  read_ipv4_addr s =
  let octet i := read_separator (ch ".") i (read_number 10 (Some 3%nat) false 255) in
  bind_reader (octet 0%nat) (fun a => bind_reader (octet 1%nat) (fun b =>
    bind_reader (octet 2%nat) (fun c => bind_reader (octet 3%nat) (fun d s =>
      Some ([a; b; c; d], s))))) s.
Proof.
  unfold read_ipv4_addr, bind_reader, mbind, option_bind. simpl.
  repeat (case_goal; try done; simplify_eq/=).
Qed.

Lemma read_ipv4_addr_consumes : consumes read_ipv4_addr.
Proof.
  intros s a rest. rewrite read_ipv4_addr_bind. cbv zeta.
  repeat (apply consumes_bind; [by apply read_separator_consumes, read_number_consumes|intro]).
  apply consumes_ret.
Qed.

Lemma read_ipv4_addr_case_blind : case_blind read_ipv4_addr.
Proof.
  intros s. rewrite !read_ipv4_addr_bind. cbv zeta.
  repeat (apply case_blind_bind;
    [by apply read_separator_case_blind, read_number_case_blind|intro]).
  apply case_blind_ret.
Qed.

Lemma read_hex_group_consumes i :
  consumes (read_separator (ch ":") i (read_number 16 (Some 4%nat) true 65535)).
Proof. by apply read_separator_consumes, read_number_consumes. Qed.

Lemma read_v4_group_consumes i : consumes (read_separator (ch ":") i read_ipv4_addr).
Proof. apply read_separator_consumes; [done|apply read_ipv4_addr_consumes]. Qed.

Lemma read_hex_group_case_blind i :
  case_blind (read_separator (ch ":") i (read_number 16 (Some 4%nat) true 65535)).
Proof. by apply read_separator_case_blind, read_number_case_blind. Qed.

Lemma read_v4_group_case_blind i : case_blind (read_separator (ch ":") i read_ipv4_addr).
Proof. apply read_separator_case_blind; [done|apply read_ipv4_addr_case_blind]. Qed.

(** The two alternatives of one step of [read_groups]. *)
Lemma read_groups_cases (P : list N * bool * str -> Prop) k i s :
  P ([], false, s) ->
  (forall g s', read_separator (ch ":") i (read_number 16 (Some 4%nat) true 65535) s = Some (g, s') ->
     P (let '(gs, v4, s'') := read_groups k (S i) s' in (g :: gs, v4, s''))) ->
  (forall gs s', (exists o, read_separator (ch ":") i read_ipv4_addr s = Some (o, s')) ->
     P (gs, true, s')) ->
  P (read_groups (S k) i s).
Proof.
  intros H0 Hhex Hv4. cbn [read_groups].
  assert (P match read_separator (ch ":") i (read_number 16 (Some 4%nat) true 65535) s with
        | Some (g, s') => let '(gs, v4, s'') := read_groups k (S i) s' in (g :: gs, v4, s'')
        | None => ([], false, s)
        end) as Hh.
  { destruct (read_separator _ i (read_number _ _ _ _) s) as [[g s']|] eqn:E; [by apply Hhex|done]. }
  destruct k as [|k]; [exact Hh|].
  destruct (read_separator (ch ":") i read_ipv4_addr s) as [[o s']|] eqn:E; [|exact Hh].
  destruct o as [|a [|b [|c [|d [|]]]]]; try exact Hh. apply Hv4. eauto.
Qed.

Lemma read_groups_consumes k i s :
  exists used, s = used ++ (read_groups k i s).2 /\ Forall (fun c => ip_char c = true) used.
Proof.
  revert i s. induction k as [|k IH]; intros i s; [by exists []|].
  apply (read_groups_cases (fun r => exists used, s = used ++ r.2 /\ Forall _ used)).
  - by exists [].
  - intros g s' E. apply read_hex_group_consumes in E as (u1 & -> & H1).
    destruct (IH (S i) s') as (u2 & H2 & Hu2).
    destruct (read_groups k (S i) s') as [[gs v4] s'']. simpl in *. subst s'.
    exists (u1 ++ u2). rewrite app_assoc. split; [done|]. by apply Forall_app.
  - intros gs s' [o E]. by apply read_v4_group_consumes in E.
Qed.

Lemma read_groups_case_blind k i s :
  read_groups k i (to_ascii_lowercase s) =
  ((read_groups k i s).1, to_ascii_lowercase (read_groups k i s).2).
Proof.
  revert i s. induction k as [|k IH]; intros i s; [done|]. cbn [read_groups].
  rewrite read_hex_group_case_blind, read_v4_group_case_blind.
  set (hex := match read_separator _ _ (read_number _ _ _ _) s with Some _ => _ | None => _ end).
  assert (match (fun p : N * str => (p.1, to_ascii_lowercase p.2)) <$>
            read_separator (ch ":") i (read_number 16 (Some 4%nat) true 65535) s with
          | Some (g, s') => let '(gs, v4, s'') := read_groups k (S i) s' in (g :: gs, v4, s'')
          | None => ([], false, to_ascii_lowercase s)
          end = (hex.1, to_ascii_lowercase hex.2)) as Hhex.
  { subst hex. destruct (read_separator _ i (read_number _ _ _ _) s) as [[g s']|]; [|done].
    simpl. rewrite IH. by destruct (read_groups k (S i) s') as [[gs v4] s'']. }
  rewrite Hhex. clearbody hex. clear Hhex. destruct k; [done|].
  destruct (read_separator (ch ":") i read_ipv4_addr s) as [[o s']|]; [|done]. simpl.
  by destruct o as [|a [|b [|c [|d [|]]]]].
Qed.

Lemma read_ipv6_addr_consumes : consumes read_ipv6_addr.
Proof.
  intros s a rest. unfold read_ipv6_addr.
  destruct (read_groups_consumes 8 0 s) as (u1 & H1 & Hu1).
  destruct (read_groups 8 0 s) as [[head v4] s1]. simpl in H1. subst s.
  destruct (length head =? 8)%nat; [intros [= <- <-]; by exists u1|].
  destruct v4; [done|]. unfold mbind, option_bind.
  destruct (read_given_char (ch ":") s1) as [[[] s2]|] eqn:E2; [|done].
  apply (read_given_char_consumes (ch ":")) in E2 as (u2 & -> & Hu2); [|done].
  destruct (read_given_char (ch ":") s2) as [[[] s3]|] eqn:E3; [|done].
  apply (read_given_char_consumes (ch ":")) in E3 as (u3 & -> & Hu3); [|done].
  destruct (read_groups_consumes (8 - (length head + 1)) 0 s3) as (u4 & H4 & Hu4).
  destruct (read_groups _ 0 s3) as [[tail v4] s4]. simpl in H4. subst s3. intros [= <- <-].
  exists (u1 ++ u2 ++ u3 ++ u4). rewrite <- !app_assoc. split; [done|]. by rewrite !Forall_app.
Qed.

Lemma read_ipv6_addr_case_blind : case_blind read_ipv6_addr.
Proof.
  intros s. unfold read_ipv6_addr. rewrite read_groups_case_blind.
  destruct (read_groups 8 0 s) as [[head v4] s1]. simpl.
  destruct (length head =? 8)%nat; [done|]. destruct v4; [done|].
  unfold mbind, option_bind.
  rewrite (read_given_char_case_blind (ch ":")) by done.
  destruct (read_given_char (ch ":") s1) as [[[] s2]|]; [|done]. simpl.
  rewrite (read_given_char_case_blind (ch ":")) by done.
  destruct (read_given_char (ch ":") s2) as [[[] s3]|]; [|done]. simpl.
  rewrite read_groups_case_blind. by destruct (read_groups _ 0 s3) as [[tail v4] s4].
Qed.

(** An accepted IPv6 literal has only hexadecimal digits, colons and dots. *)
Lemma parse_ipv6_chars s a :
  parse_ipv6 s = Some a -> Forall (fun c => ip_char c = true) s.
Proof.
  unfold parse_ipv6, parse_with. destruct (read_ipv6_addr s) as [[a' [|]]|] eqn:E; try done.
  apply read_ipv6_addr_consumes in E as (u & -> & Hu). by rewrite app_nil_r.
Qed.

Lemma parse_ipv6_lower s : parse_ipv6 (to_ascii_lowercase s) = parse_ipv6 s.
Proof.
  unfold parse_ipv6, parse_with. rewrite read_ipv6_addr_case_blind.
  by destruct (read_ipv6_addr s) as [[a [|]]|].
Qed.

(** Printed addresses consist of the same characters. *)
Lemma join_Forall (P : char -> Prop) sep l :
  Forall P sep -> Forall (Forall P) l -> Forall P (join sep l).
Proof.
  intros Hs. induction 1 as [|s l H1 H2 IH]; [done|]. destruct l as [|s' l]; [done|].
  cbn [join]. rewrite !Forall_app. auto.
Qed.

Lemma to_radix_ip_chars radix n :
  2 <= radix <= 16 -> Forall (fun c => ip_char c = true) (to_radix radix n).
Proof.
  intros Hr. unfold to_radix.
  destruct (digits_aux_chars radix Hr (S (N.to_nat (N.size n))) n []) as (d & ds & -> & Hd & Hds);
    [lia|].
  assert (forall d, d < radix -> ip_char (digit_char d) = true) as Hdig.
  { intros e He. eapply (to_digit_hex radix); [lia|]. apply to_digit_digit_char; lia. }
  rewrite app_nil_r. constructor; [by apply Hdig|].
  eapply Forall_impl; [exact Hds|]. intros c (e & -> & He). by apply Hdig.
Qed.

Lemma show_ipv4_chars o : Forall (fun c => ip_char c = true) (show_ipv4 o).
Proof.
  apply join_Forall; [by repeat constructor|]. apply Forall_map, Forall_forall. intros x _.
  apply to_radix_ip_chars. lia.
Qed.

Lemma fmt_subslice_chars o : Forall (fun c => ip_char c = true) (fmt_subslice o).
Proof.
  apply join_Forall; [by repeat constructor|]. apply Forall_map, Forall_forall. intros x _.
  apply to_radix_ip_chars. lia.
Qed.

Lemma show_ip_chars ip : Forall (fun c => ip_char c = true) (show_ip ip).
Proof.
  destruct ip as [o|segs]; [apply show_ipv4_chars|]. simpl. unfold show_ipv6.
  assert (Forall (fun c => ip_char c = true)
    (let '(start, n) := longest_zero_run 0 (0, 0)%nat (0, 0)%nat segs in
     if (1 <? n)%nat
     then fmt_subslice (take start segs) ++ lit "::" ++ fmt_subslice (drop (start + n) segs)
     else fmt_subslice segs)) as Hgen.
  { destruct (longest_zero_run _ _ _ _) as [start n]. destruct (1 <? n)%nat.
    - rewrite !Forall_app. split_and!; [apply fmt_subslice_chars|by repeat constructor|
        apply fmt_subslice_chars].
    - apply fmt_subslice_chars. }
  repeat (case_goal; try exact Hgen).
  apply Forall_app. split; [by repeat constructor|apply show_ipv4_chars].
Qed.

(** * Double-precision numbers

    The part of [f64] the rules parser uses: [str::parse::<f64>], products,
    comparisons with small constants, [round] and casts.  A finite number is
    [m * 2 ^ e] with its sign; every operation is computed exactly and rounded
    to nearest, ties to even. *)

Inductive F64 := Finite (negative : bool) (m : N) (e : Z) | Infinite (negative : bool) | NaN.

(** [m * 2 ^ e] as a fraction. *)
Definition dyadic (m : N) (e : Z) : N * N :=
  if (0 <=? e)%Z then (m * 2 ^ Z.to_N e, 1) else (m, 2 ^ Z.to_N (- e)).
(** [2 ^ k <= n / d]. *)
Definition at_least_pow2 (k : Z) (n d : N) : bool :=
  if (0 <=? k)%Z then d * 2 ^ Z.to_N k <=? n else d <=? n * 2 ^ Z.to_N (- k).

(** The double nearest to [n / d]. *)
Definition round_ratio (negative : bool) (n d : N) : F64 :=
  if n =? 0 then Finite negative 0 0
  else
    let k := (Z.of_N (N.log2 n) - Z.of_N (N.log2 d))%Z in
    let k := if at_least_pow2 k n d then k else (k - 1)%Z in
    let e := Z.max (k - 52) (-1074) in
    let '(n, d) := if (0 <=? e)%Z then (n, d * 2 ^ Z.to_N e) else (n * 2 ^ Z.to_N (- e), d) in
    let q := n / d in
    let r := n mod d in
    let m := if (d <? 2 * r) || ((2 * r =? d) && N.odd q) then q + 1 else q in
    if ((1023 <? k) || ((k =? 1023) && (m =? 2 ^ 53)%N))%Z then Infinite negative else Finite negative m e.

Definition f64_mul (a b : F64) : F64 :=
  match a, b with
  | Finite s m e, Finite s' m' e' =>
      let '(n, d) := dyadic (m * m') (e + e') in round_ratio (xorb s s') n d
  | Infinite s, Finite s' m _ | Finite s' m _, Infinite s => if m =? 0 then NaN else Infinite (xorb s s')
  | Infinite s, Infinite s' => Infinite (xorb s s')
  | NaN, _ | _, NaN => NaN
  end.
Definition f64_of_N (n : N) : F64 := round_ratio false n 1.

Definition is_finite (x : F64) : bool := match x with Finite _ _ _ => true | _ => false end.
(** A NaN is not asked. *)
Definition is_sign_negative (x : F64) : bool := match x with Finite s _ _ | Infinite s => s | NaN => false end.

(** [x >= n / d] and [x < n / d] for a positive [n / d]. *)
Definition f64_ge (x : F64) (n d : N) : bool :=
  match x with
  | Finite s m e => negb s && (let '(a, b) := dyadic m e in n * b <=? a * d)
  | Infinite s => negb s
  | NaN => false
  end.
Definition f64_lt (x : F64) (n d : N) : bool :=
  match x with NaN => false | _ => negb (f64_ge x n d) end.
(** [(0.0..=1.0).contains(&x)]; a negative zero is zero. *)
Definition in_unit (x : F64) : bool :=
  match x with
  | Finite s m e => (m =? 0) || (negb s && (let '(a, b) := dyadic m e in a <=? b))
  | _ => false
  end.

(** [x.round() as uN], with the greatest value [max]: halves away from zero,
    the cast saturates. *)
Definition round_as (max : N) (x : F64) : N :=
  match x with
  | Finite s m e => if s then 0 else let '(a, b) := dyadic m e in N.min max ((2 * a + b) / (2 * b))
  | Infinite s => if s then 0 else max
  | NaN => 0
  end.

(** ** Parsing *)

(** An exponent part, or none. *)
Definition read_exponent (s : str) : option Z :=
  match s with
  | [] => Some 0%Z
  | c :: s' =>
      if (c =? ch "e") || (c =? ch "E") then
        let '(negative, s') :=
          match s' with
          | x :: s'' => if x =? ch "-" then (true, s'') else if x =? ch "+" then (false, s'') else (false, s')
          | [] => (false, s')
          end in
        let '(digits, rest) := read_digits 10 s' in
        if is_emptyb digits || negb (is_emptyb rest) then None
        else Some (if negative then (- Z.of_N (digits_value 10 digits))%Z else Z.of_N (digits_value 10 digits))
      else None
  end.
Definition read_decimal (negative : bool) (s : str) : option F64 :=
  let '(whole, s) := read_digits 10 s in
  let '(fraction, s) :=
    match s with
    | c :: s' => if c =? ch "." then read_digits 10 s' else ([], s)
    | [] => ([], s)
    end in
  if is_emptyb (whole ++ fraction) then None
  else
    exponent ← read_exponent s;
    let mantissa := digits_value 10 (whole ++ fraction) in
    let exponent := (exponent - Z.of_nat (length fraction))%Z in
    Some (if (0 <=? exponent)%Z then round_ratio negative (mantissa * 10 ^ Z.to_N exponent) 1
          else round_ratio negative mantissa (10 ^ Z.to_N (- exponent))).
Definition parse_f64 (s : str) : option F64 :=
  let '(negative, s) :=
    match s with
    | x :: s' => if x =? ch "-" then (true, s') else if x =? ch "+" then (false, s') else (false, s)
    | [] => (false, s)
    end in
  if eq_ignore_ascii_case s (lit "inf") || eq_ignore_ascii_case s (lit "infinity") then Some (Infinite negative)
  else if eq_ignore_ascii_case s (lit "nan") then Some NaN
  else read_decimal negative s.
