(* ===== verification/Io.v ===== *)
(** * Effects

    A state-and-error monad for code that mutates a state and returns a
    [Result], and the [io::Error] values the sources inspect or build. *)
From Stdlib Require Import Ascii String.
From stdpp Require Import base numbers list gmap strings.
From S2P Require Import Prelude.

(** ** Stateful fallible code *)

(** Effects before an error stay, as in Rust. *)
Definition StateR (S E A : Type) : Type := S -> S * Result E A.

#[global] Instance StateR_ret {S E} : MRet (StateR S E) := fun A x s => (s, Ok x).
#[global] Instance StateR_bind {S E} : MBind (StateR S E) := fun A B f m s =>
  match m s with (s', Ok x) => f x s' | (s', Err e) => (s', Err e) end.

Definition sget {S E} : StateR S E S := fun s => (s, Ok s).
Definition sput {S E} (s : S) : StateR S E unit := fun _ => (s, Ok tt).
Definition lift_result {S E A} (r : Result E A) : StateR S E A := fun s => (s, r).
Definition fail {S E A} (e : E) : StateR S E A := fun s => (s, Err e).

(** ** Errors *)

(** The [io::ErrorKind]s the sources build or test. *)
Inductive IoKind :=
| NotFound | InvalidData | InvalidInput | BrokenPipe | ConnectionReset | ConnectionAborted
| NotConnected | AddrNotAvailable | PermissionDenied | UnexpectedEof | Interrupted | WouldBlock | TimedOut | OutOfMemory | WriteZero
| OtherIo.
Record IoError := mkIoError { io_kind : IoKind; io_message : str }.

#[global] Instance IoKind_eq_dec : EqDecision IoKind.
Proof. solve_decision. Defined.

(** What happens to an operation: nothing, or an error; a failing write leaves
    a prefix of its data. *)
Inductive Fault := Fine | Fails (written : nat) (error : IoError).

(** ** Triples *)

(** From states of [P], [m] ends with a value and a state of [Q] or, with an
    error, in a state of [E]. *)
Definition triple {S Er A} (P : S -> Prop) (m : StateR S Er A) (Q : A -> S -> Prop) (E : S -> Prop) : Prop :=
  forall s, P s -> match m s with (s', Ok a) => Q a s' | (s', Err _) => E s' end.

Create HintDb triples.
Lemma triple_bind {S Er A B} P (m : StateR S Er A) (k : A -> StateR S Er B) M Q E :
  triple P m M E -> (forall a, triple (M a) (k a) Q E) -> triple P (m ≫= k) Q E.
Proof.
  intros Hm Hk s Hs. specialize (Hm s Hs). unfold mbind, StateR_bind.
  destruct (m s) as [s' [a|e]]; [by apply Hk|done].
Qed.
Lemma triple_ret {S Er A} (P : S -> Prop) (a : A) (Q : A -> S -> Prop) E :
  (forall s, P s -> Q a s) -> triple P (mret (M := StateR S Er) a) Q E.
Proof. intros H s Hs. by apply H. Qed.
Lemma triple_fail {S Er A} (P : S -> Prop) (e : Er) (Q : A -> S -> Prop) E :
  (forall s, P s -> E s) -> triple P (fail e) Q E.
Proof. intros H s Hs. by apply H. Qed.
Lemma triple_lift {S Er A} (P : S -> Prop) (r : Result Er A) : triple P (lift_result r) (fun _ => P) P.
Proof. intros s Hs. by destruct r. Qed.
Lemma triple_conseq {S Er A} P P' (m : StateR S Er A) Q Q' E E' :
  triple P' m Q' E' -> (forall s, P s -> P' s) -> (forall a s, Q' a s -> Q a s) -> (forall s, E' s -> E s) ->
  triple P m Q E.
Proof.
  intros H HP HQ HE s Hs. specialize (H s (HP s Hs)). destruct (m s) as [s' [a|e]]; auto.
Qed.
Lemma triple_ok {S Er A B} (P : S -> Prop) (x : A) (k : A -> StateR S Er B) Q E :
  triple P (k x) Q E -> triple P (lift_result (Ok x) ≫= k) Q E.
Proof. intros H. exact H. Qed.
Lemma triple_pure {S Er A} (P : S -> Prop) (phi : Prop) (m : StateR S Er A) Q E :
  (phi -> triple P m Q E) -> triple (fun s => P s /\ phi) m Q E.
Proof. intros H s [Hs Hphi]. by apply H. Qed.
#[export] Hint Resolve triple_lift : triples.

(** * Byte streams

    [std::io::Read], [BufRead] and [Write] as the HTTP/1 code uses them.  A
    network stream is a list of arrivals: what the peer sent, cut anywhere,
    and the errors of the operating system in between.  A byte slice is a
    stream that delivers everything at once ([impl Read for &[u8]]).  The
    reading code is written against the class [Read] of both.  [sim] relates a
    program on arrivals to the same program on the bytes they carry: it is what
    makes a result independent of how the network cuts the bytes. *)

(** ** Slices *)

(** [&v[..n]] and [&v[n..]] for a machine-width [n], by recursion on the slice. *)
Fixpoint take_N {A} (n : N) (l : list A) : list A :=
  match l with
  | [] => []
  | x :: l' => if n =? 0 then [] else x :: take_N (n - 1) l'
  end.
Fixpoint drop_N {A} (n : N) (l : list A) : list A :=
  match l with
  | [] => []
  | _ :: l' => if n =? 0 then l else drop_N (n - 1) l'
  end.
(** [v.len()]. *)
Definition blen {A} (l : list A) : N := N.of_nat (length l).

(** ** Reading *)

(** Bytes that arrive together, or an error of a read. *)
Inductive Arrival := Bytes (bs : list N) | Broken (e : IoError).
Abbreviation Stream := (list Arrival) (only parsing).

Definition unread (bs : list N) (s : Stream) : Stream :=
  match bs with [] => s | _ => Bytes bs :: s end.

Definition failed_to_fill : IoError := mkIoError UnexpectedEof (lit "failed to fill whole buffer").

(** One [read] into a buffer of [n] bytes. *)
Definition stream_read (n : N) : StateR Stream IoError (list N) := fun s =>
  match s with
  | [] => ([], Ok [])
  | Bytes bs :: s' => (unread (drop_N n bs) s', Ok (take_N n bs))
  | Broken e :: s' => (s', Err e)
  end.

(** [read_exact]: reads until the buffer is full, over interruptions. *)
Fixpoint stream_read_exact (n : N) (s : Stream) : Stream * Result IoError (list N) :=
  if n =? 0 then (s, Ok [])
  else
    match s with
    | [] => ([], Err failed_to_fill)
    | Bytes [] :: s' => (s', Err failed_to_fill)
    | Bytes bs :: s' =>
        if n <=? blen bs then (unread (drop_N n bs) s', Ok (take_N n bs))
        else
          match stream_read_exact (n - blen bs) s' with
          | (s'', Ok more) => (s'', Ok (bs ++ more))
          | (s'', Err e) => (s'', Err e)
          end
    | Broken e :: s' =>
        if decide (io_kind e = Interrupted) then stream_read_exact n s' else (s', Err e)
    end.

Definition slice_read_exact (n : N) : StateR (list N) IoError (list N) := fun bs =>
  if n <=? blen bs then (drop_N n bs, Ok (take_N n bs)) else ([], Err failed_to_fill).

(** The bytes a stream carries. *)
Definition carried (s : Stream) : list N :=
  flat_map (fun a => match a with Bytes bs => bs | Broken _ => [] end) s.

(** The trait, with the bytes still to come, which bound the reading loops. *)
Class Read (S : Type) := {
  read : N -> StateR S IoError (list N);
  read_exact : N -> StateR S IoError (list N);
  pending : S -> list N
}.
#[global] Instance Stream_read : Read (list Arrival) :=
  {| read := stream_read; read_exact := stream_read_exact; pending := carried |}.
#[global] Instance Slice_read : Read (list N) :=
  {| read := fun n bs => (drop_N n bs, Ok (take_N n bs));
     read_exact := slice_read_exact; pending := fun bs => bs |}.

(** A loop that consumes a byte per round, with the rounds its input allows. *)
Definition looping {S A} `{Read S} (loop : nat -> StateR S IoError A) : StateR S IoError A :=
  fun s => loop (Datatypes.S (length (pending s))) s.
(** The value of a loop whose rounds are used up; the bound rules it out. *)
Definition spent {S A} : StateR S IoError A := fail (mkIoError OtherIo (lit "unreachable")).

(** A buffer of one byte. *)
Definition read_byte {S} `{Read S} : StateR S IoError N :=
  bs ← read_exact 1; mret (default 0 (head bs)).

(** [BufRead::fill_buf] and [consume]. *)
Definition fill_buf : StateR Stream IoError (list N) := fun s =>
  match s with
  | [] => ([], Ok [])
  | Bytes bs :: _ => (s, Ok bs)
  | Broken e :: s' => (s', Err e)
  end.
Definition consume (n : N) : StateR Stream IoError unit := fun s =>
  match s with
  | Bytes bs :: s' => (unread (drop_N n bs) s', Ok tt)
  | _ => (s, Ok tt)
  end.
(** [TcpStream::peek]. *)
Definition peek (n : N) : StateR Stream IoError (list N) := fun s =>
  match s with
  | [] => ([], Ok [])
  | Bytes bs :: _ => (s, Ok (take_N n bs))
  | Broken e :: s' => (s', Err e)
  end.

(** ** Writing *)

(** The bytes a peer has received and what happens to the coming writes. *)
Record Sink := mkSink { sk_written : list N; sk_faults : list Fault }.

Definition write_bytes (bs : list N) : StateR Sink IoError unit := fun w =>
  match sk_faults w with
  | [] => (mkSink (sk_written w ++ bs) [], Ok tt)
  | Fine :: fs => (mkSink (sk_written w ++ bs) fs, Ok tt)
  | Fails n e :: fs => (mkSink (sk_written w ++ take n bs) fs, Err e)
  end.
Definition flush : StateR Sink IoError unit := fun w =>
  match sk_faults w with
  | [] => (w, Ok tt)
  | Fine :: fs => (mkSink (sk_written w) fs, Ok tt)
  | Fails _ e :: fs => (mkSink (sk_written w) fs, Err e)
  end.

(** Code with an input and an output. *)
Definition on_input {S W A} (m : StateR S IoError A) : StateR (S * W) IoError A :=
  fun sw => let '(s, r) := m (fst sw) in ((s, snd sw), r).
Definition on_output {S W A} (m : StateR W IoError A) : StateR (S * W) IoError A :=
  fun sw => let '(w, r) := m (snd sw) in ((fst sw, w), r).

(** ** Slices, proofs *)

Lemma take_N_take {A} n (l : list A) : take_N n l = take (N.to_nat n) l.
Proof.
  revert n. induction l as [|x l IH]; intros n; cbn [take_N]; [by rewrite take_nil|].
  case_goal; bool_to_prop; [subst; done|]. rewrite IH.
  replace (N.to_nat n) with (S (N.to_nat (n - 1))) by lia. done.
Qed.
Lemma drop_N_drop {A} n (l : list A) : drop_N n l = drop (N.to_nat n) l.
Proof.
  revert n. induction l as [|x l IH]; intros n; cbn [drop_N]; [by rewrite drop_nil|].
  case_goal; bool_to_prop; [subst; done|]. rewrite IH.
  replace (N.to_nat n) with (S (N.to_nat (n - 1))) by lia. done.
Qed.
Lemma take_drop_N {A} n (l : list A) : take_N n l ++ drop_N n l = l.
Proof. by rewrite take_N_take, drop_N_drop, take_drop. Qed.
Lemma blen_app {A} (a b : list A) : blen (a ++ b) = blen a + blen b.
Proof. unfold blen. rewrite length_app. lia. Qed.
Lemma blen_take_N {A} n (l : list A) : blen (take_N n l) = N.min n (blen l).
Proof. unfold blen. rewrite take_N_take, length_take. lia. Qed.
Lemma blen_drop_N {A} n (l : list A) : blen (drop_N n l) = blen l - n.
Proof. unfold blen. rewrite drop_N_drop, length_drop. lia. Qed.
Lemma blen_nil {A} : blen (@nil A) = 0.
Proof. done. Qed.
Lemma blen_cons {A} (x : A) l : blen (x :: l) = 1 + blen l.
Proof. unfold blen. cbn. lia. Qed.
Lemma blen_0 {A} (l : list A) : blen l = 0 -> l = [].
Proof. destruct l; [done|]. rewrite blen_cons. lia. Qed.
Lemma take_N_app {A} n (a b : list A) : blen a = n -> take_N n (a ++ b) = a.
Proof. unfold blen. intros <-. rewrite take_N_take, Nat2N.id. apply take_app_length. Qed.
Lemma drop_N_app {A} n (a b : list A) : blen a = n -> drop_N n (a ++ b) = b.
Proof. unfold blen. intros <-. rewrite drop_N_drop, Nat2N.id. apply drop_app_length. Qed.
Lemma take_N_app_le {A} n (a b : list A) : n <= blen a -> take_N n (a ++ b) = take_N n a.
Proof. unfold blen. intros. rewrite !take_N_take. apply take_app_le. lia. Qed.
Lemma drop_N_app_le {A} n (a b : list A) : n <= blen a -> drop_N n (a ++ b) = drop_N n a ++ b.
Proof. unfold blen. intros. rewrite !drop_N_drop. apply drop_app_le. lia. Qed.
Lemma take_N_app_ge {A} n (a b : list A) : blen a <= n -> take_N n (a ++ b) = a ++ take_N (n - blen a) b.
Proof.
  unfold blen. intros. rewrite !take_N_take, take_app_ge by lia.
  do 2 f_equal. lia.
Qed.
Lemma drop_N_app_ge {A} n (a b : list A) : blen a <= n -> drop_N n (a ++ b) = drop_N (n - blen a) b.
Proof. unfold blen. intros. rewrite !drop_N_drop, drop_app_ge by lia. f_equal. lia. Qed.
Lemma take_N_all {A} n (l : list A) : blen l <= n -> take_N n l = l.
Proof. unfold blen. intros. rewrite take_N_take. apply take_ge. lia. Qed.
Lemma drop_N_all {A} n (l : list A) : blen l <= n -> drop_N n l = [].
Proof. unfold blen. intros. rewrite drop_N_drop. apply drop_ge. lia. Qed.
Create Rewrite HintDb blen.
#[export] Hint Rewrite @blen_app @blen_take_N @blen_drop_N @blen_nil @blen_cons : blen.

(** ** Streams, proofs *)

(** A stream that only carries bytes. *)
Definition healthy (s : list Arrival) : Prop :=
  Forall (fun a => exists b bs, a = Bytes (b :: bs)) s.

Lemma healthy_unread bs s : healthy s -> healthy (unread bs s).
Proof. destruct bs; [done|]. intros H. constructor; eauto. Qed.
Lemma carried_unread bs s : carried (unread bs s) = bs ++ carried s.
Proof. by destruct bs. Qed.

Lemma stream_read_exact_spec n s :
  healthy s ->
  exists s', healthy s' /\ carried s' = fst (slice_read_exact n (carried s)) /\
             stream_read_exact n s = (s', snd (slice_read_exact n (carried s))).
Proof.
  intros Hs. revert n. unfold slice_read_exact.
  induction Hs as [|a s (b & bs & ->) Hs IH]; intros n; cbn [stream_read_exact carried flat_map].
  - destruct (N.eqb_spec n 0) as [->|Hn]; exists [].
    { split_and!; [constructor|done|done]. }
    rewrite (proj2 (N.leb_gt n _)) by (rewrite blen_nil; lia).
    split_and!; [constructor|done|done].
  - change (flat_map _ s) with (carried s). destruct (N.eqb_spec n 0) as [->|Hn].
    { exists (Bytes (b :: bs) :: s). cbn. split_and!; [|done|done]. constructor; eauto. }
    destruct (N.leb_spec n (blen (b :: bs))) as [Hle|Hgt].
    + exists (unread (drop_N n (b :: bs)) s).
      rewrite (proj2 (N.leb_le n _)) by (autorewrite with blen in *; lia).
      split_and!; [by apply healthy_unread| |].
      * rewrite carried_unread. cbn [fst]. by rewrite drop_N_app_le.
      * cbn [snd]. by rewrite take_N_app_le.
    + destruct (IH (n - blen (b :: bs))) as (s' & Hs' & Hc & ->). exists s'.
      rewrite blen_app. destruct (N.leb_spec (n - blen (b :: bs)) (blen (carried s))).
      * rewrite (proj2 (N.leb_le n _)) by lia. cbn [fst snd] in *. split_and!; [done| |].
        -- rewrite Hc, drop_N_app_ge by lia. done.
        -- rewrite take_N_app_ge by lia. done.
      * rewrite (proj2 (N.leb_gt n _)) by lia. done.
Qed.

(** A short read delivers a nonempty part of the bytes to come. *)
Lemma stream_read_spec n s :
  healthy s -> 0 < n ->
  exists s' bs, stream_read n s = (s', Ok bs) /\ healthy s' /\ carried s = bs ++ carried s' /\
    blen bs <= n /\ (bs = [] -> carried s = []).
Proof.
  intros Hs Hn. destruct Hs as [|a s (b & bs & ->) Hs].
  { exists [], []. split_and!; [done|constructor|done|rewrite blen_nil; lia|done]. }
  exists (unread (drop_N n (b :: bs)) s), (take_N n (b :: bs)).
  split_and!; [done|by apply healthy_unread| | |].
  - rewrite carried_unread, app_assoc, take_drop_N. done.
  - rewrite blen_take_N. lia.
  - cbn [take_N]. by rewrite (proj2 (N.eqb_neq n 0)) by lia.
Qed.

(** The program [f] on arrivals does what [g] does on the bytes they carry. *)
Definition sim {A} (f : StateR (list Arrival) IoError A) (g : StateR (list N) IoError A) : Prop :=
  forall s, healthy s -> exists s', healthy s' /\ carried s' = fst (g (carried s)) /\
                                    f s = (s', snd (g (carried s))).

Create HintDb wire.
Lemma sim_ret {A} (x : A) : sim (mret x) (mret x).
Proof. intros s Hs. by exists s. Qed.
Lemma sim_lift {A} (r : Result IoError A) : sim (lift_result r) (lift_result r).
Proof. intros s Hs. by exists s. Qed.
Lemma sim_fail {A} e : @sim A (fail e) (fail e).
Proof. intros s Hs. by exists s. Qed.
Lemma sim_bind {A B} f g (k : A -> StateR (list Arrival) IoError B) l :
  sim f g -> (forall x, sim (k x) (l x)) -> sim (f ≫= k) (g ≫= l).
Proof.
  intros Hf Hk s Hs. destruct (Hf s Hs) as (s1 & H1 & C1 & E1).
  unfold mbind, StateR_bind. rewrite E1. destruct (g (carried s)) as [bs [x|e]]; cbn in *; [|eauto].
  destruct (Hk x s1 H1) as (s2 & H2 & C2 & E2). rewrite C1 in C2, E2. eauto.
Qed.
Lemma sim_read_exact n : sim (read_exact n) (read_exact n).
Proof. intros s Hs. by apply stream_read_exact_spec. Qed.
Lemma sim_read_byte : sim read_byte read_byte.
Proof. apply sim_bind; [apply sim_read_exact|intros; apply sim_ret]. Qed.
Lemma sim_looping {A} (f g : nat -> StateR _ IoError A) :
  (forall fuel, sim (f fuel) (g fuel)) -> sim (looping f) (looping g).
Proof. intros H s Hs. exact (H _ s Hs). Qed.
#[export] Hint Resolve sim_ret sim_lift sim_fail sim_read_exact sim_read_byte : wire.

(** Runs of the two programs correspond in both directions. *)
Lemma sim_ok {A} (f : StateR _ IoError A) g s s' r :
  sim f g -> healthy s -> f s = (s', r) -> healthy s' /\ g (carried s) = (carried s', r).
Proof.
  intros Hf Hs E. destruct (Hf s Hs) as (t & Ht & Hc & E'). rewrite E in E'. simplify_eq.
  split; [done|]. rewrite Hc. by destruct (g (carried s)).
Qed.
Lemma sim_run {A} (f : StateR _ IoError A) g s rest r :
  sim f g -> healthy s -> g (carried s) = (rest, r) ->
  exists s', f s = (s', r) /\ healthy s' /\ carried s' = rest.
Proof. intros Hf Hs E. destruct (Hf s Hs) as (t & Ht & Hc & E'). rewrite E in Hc, E'. eauto. Qed.

(** A read into a buffer of one byte does not depend on the cuts. *)
Lemma sim_read_one : sim (read 1) (read 1).
Proof.
  intros s Hs. destruct Hs as [|a s (b & bs & ->) Hs].
  { exists []. split_and!; [constructor|done|done]. }
  exists (unread (drop_N 1 (b :: bs)) s). split_and!; [by apply healthy_unread| |].
  - rewrite carried_unread. cbn [carried flat_map read Slice_read fst].
    by rewrite drop_N_app_le by (rewrite blen_cons; lia).
  - cbn [carried flat_map read Slice_read Stream_read stream_read snd].
    by rewrite take_N_app_le by (rewrite blen_cons; lia).
Qed.
#[export] Hint Resolve sim_read_one : wire.

(** A monadic program is simulated when its parts are. *)
Ltac sim_step :=
  first [ progress intros | solve [eauto with wire] | apply sim_bind
        | progress cbv beta zeta
        | match goal with |- sim (match ?x with _ => _ end) _ => destruct x end
        | match goal with |- sim (if ?x then _ else _) _ => destruct x end ].
Ltac sim_auto := repeat sim_step.

(** What a successful sequence did. *)
Lemma bind_ok {S E A B} (m : StateR S E A) (k : A -> StateR S E B) s s' y :
  (m ≫= k) s = (s', Ok y) -> exists s1 x, m s = (s1, Ok x) /\ k x s1 = (s', Ok y).
Proof. unfold mbind, StateR_bind. destruct (m s) as [s1 [x|e]]; [eauto|done]. Qed.
Lemma bind_run {S E A B} (m : StateR S E A) (k : A -> StateR S E B) s s1 x :
  m s = (s1, Ok x) -> (m ≫= k) s = k x s1.
Proof. unfold mbind, StateR_bind. by intros ->. Qed.
Lemma bind_err {S E A B} (m : StateR S E A) (k : A -> StateR S E B) s s1 e :
  m s = (s1, Err e) -> (m ≫= k) s = (s1, Err e).
Proof. unfold mbind, StateR_bind. by intros ->. Qed.
Lemma bind_ret {S E A B} (x : A) (k : A -> StateR S E B) s : (mret x ≫= k) s = k x s.
Proof. done. Qed.

(** A successful reading: from any healthy stream that carries [bytes], [m]
    returns [x] and leaves [rest]. *)
Definition yields {A} (m : StateR (list Arrival) IoError A) (bytes : list N) (x : A) (rest : list N) : Prop :=
  forall s, healthy s -> carried s = bytes -> exists s', m s = (s', Ok x) /\ healthy s' /\ carried s' = rest.

Lemma yields_ret {A} (x : A) bytes : yields (mret x) bytes x bytes.
Proof. intros s Hs <-. by exists s. Qed.
Lemma yields_bind {A B} m (k : A -> StateR (list Arrival) IoError B) bytes x mid y rest :
  yields m bytes x mid -> yields (k x) mid y rest -> yields (m ≫= k) bytes y rest.
Proof.
  intros Hm Hk s Hs Hc. destruct (Hm s Hs Hc) as (s1 & E & Hs1 & Hc1).
  rewrite (bind_run _ _ _ _ _ E). by apply Hk.
Qed.
Lemma yields_sim {A} (f : StateR (list Arrival) IoError A) g bytes x rest :
  sim f g -> g bytes = (rest, Ok x) -> yields f bytes x rest.
Proof. intros Hf Hg s Hs <-. by apply (sim_run f g). Qed.
Lemma yields_lift {A} (x : A) bytes : yields (lift_result (Ok x)) bytes x bytes.
Proof. intros s Hs <-. by exists s. Qed.
Lemma yields_exact n data rest : blen data = n -> yields (read_exact n) (data ++ rest) data rest.
Proof.
  intros Hn. apply (yields_sim _ _ _ _ _ (sim_read_exact n)). cbn [read_exact Slice_read].
  unfold slice_read_exact. rewrite (proj2 (N.leb_le _ _)) by (rewrite blen_app; lia).
  by rewrite take_N_app, drop_N_app.
Qed.
Lemma yields_looping {A} (f : nat -> StateR (list Arrival) IoError A) bytes x rest :
  yields (f (S (length bytes))) bytes x rest -> yields (looping f) bytes x rest.
Proof. intros H s Hs Hc. unfold looping. cbn [pending Stream_read]. rewrite Hc. by apply H. Qed.
#[export] Hint Resolve yields_ret yields_lift yields_exact : wire.
