(* ===== verification/Disk.v ===== *)
(** * Files

    The parts of [std::fs] the sources use, on an explicit disk: named files
    of bytes and a script of the faults the operating system injects, one
    entry per operation.  Operations are functions on the disk that also
    return their [io::Result]; effects before an error stay. *)
From Stdlib Require Import Ascii String.
From stdpp Require Import base numbers list gmap strings.
From S2P Require Import Prelude Io.

(** ** The disk *)

(** A file in a directory: [dir.join(name)]. *)
Abbreviation Path := (str * str)%type (only parsing).

Record Disk := mkDisk { d_files : gmap (list N * list N) (list N); d_faults : list Fault }.

Definition next_fault (d : Disk) : Fault * Disk :=
  match d_faults d with
  | [] => (Fine, d)
  | f :: fs => (f, mkDisk (d_files d) fs)
  end.

Abbreviation Io := (StateR Disk IoError) (only parsing).

(** An operation that a fault prevents entirely. *)
Definition guarded {A} (op : Io A) : Io A := fun d =>
  match next_fault d with
  | (Fine, d) => op d
  | (Fails _ e, d) => (d, Err e)
  end.

Definition is_not_found (e : IoError) : bool :=
  match io_kind e with NotFound => true | _ => false end.
Definition not_found : IoError := mkIoError NotFound (lit "entity not found").

Definition create_dir_all (dir : str) : Io unit := guarded (fun d => (d, Ok tt)).

(** The names of a directory, in an unspecified order. *)
Definition read_dir (dir : str) : Io (list str) := guarded (fun d =>
  (d, Ok (map (fun kv => kv.1.2) (List.filter (fun kv => bool_decide (kv.1.1 = dir)) (map_to_list (d_files d)))))).

Definition metadata_len (path : Path) : Io N := guarded (fun d =>
  match d_files d !! path with
  | Some content => (d, Ok (N.of_nat (length content)))
  | None => (d, Err not_found)
  end).

(** [fs::read], and [File::open] with the content the handle will read. *)
Definition read_file (path : Path) : Io (list N) := guarded (fun d =>
  match d_files d !! path with
  | Some content => (d, Ok content)
  | None => (d, Err not_found)
  end).

(** [OpenOptions::new().create(true).append(true).open(path)] *)
Definition open_append (path : Path) : Io unit := guarded (fun d =>
  (mkDisk (<[path := default [] (d_files d !! path)]> (d_files d)) (d_faults d), Ok tt)).

(** [write_all] on a file opened for appending. *)
Definition write_all (path : Path) (bytes : list N) : Io unit := fun d =>
  let append n d := mkDisk (<[path := default [] (d_files d !! path) ++ take n bytes]> (d_files d)) (d_faults d) in
  match next_fault d with
  | (Fine, d) => (append (length bytes) d, Ok tt)
  | (Fails n e, d) => (append n d, Err e)
  end.

Definition remove_file (path : Path) : Io unit := guarded (fun d =>
  match d_files d !! path with
  | Some _ => (mkDisk (delete path (d_files d)) (d_faults d), Ok tt)
  | None => (d, Err not_found)
  end).

(** [fs::write]: a new content, of which a failing write leaves a prefix. *)
Definition write_file (path : Path) (bytes : list N) : Io unit := fun d =>
  let put n d := mkDisk (<[path := take n bytes]> (d_files d)) (d_faults d) in
  match next_fault d with
  | (Fine, d) => (put (length bytes) d, Ok tt)
  | (Fails n e, d) => (put n d, Err e)
  end.

(** [fs::rename], which replaces its target. *)
Definition rename (from to : Path) : Io unit := guarded (fun d =>
  match d_files d !! from with
  | Some content => (mkDisk (<[to := content]> (delete from (d_files d))) (d_faults d), Ok tt)
  | None => (d, Err not_found)
  end).

(** [Path::is_file], which takes an error for absence. *)
Definition is_file (path : Path) (d : Disk) : Disk * bool :=
  match next_fault d with
  | (Fine, d) => (d, is_some (d_files d !! path))
  | (Fails _ _, d) => (d, false)
  end.

(** ** Without faults *)

Definition faultless (d : Disk) : Prop := Forall (eq Fine) (d_faults d).

Lemma next_fault_faultless d :
  faultless d -> exists d', next_fault d = (Fine, d') /\ d_files d' = d_files d /\ faultless d'.
Proof.
  unfold next_fault, faultless. destruct (d_faults d) as [|f fs] eqn:E; intros H.
  - exists d. rewrite E. done.
  - inversion H; subst. by exists (mkDisk (d_files d) fs).
Qed.

Lemma guarded_faultless {A} (op : Io A) d :
  faultless d -> exists d', guarded op d = op d' /\ d_files d' = d_files d /\ faultless d'.
Proof.
  intros H. unfold guarded. destruct (next_fault_faultless d H) as (d' & -> & Hf & Hl). by exists d'.
Qed.

Lemma read_file_spec path content d :
  faultless d -> d_files d !! path = Some content ->
  exists d', read_file path d = (d', Ok content) /\ d_files d' = d_files d /\ faultless d'.
Proof.
  intros H Hp. unfold read_file. destruct (guarded_faultless (fun d => match d_files d !! path with
    | Some content => (d, Ok content) | None => (d, Err not_found) end) d H) as (d' & -> & Hf & Hl).
  exists d'. rewrite Hf, Hp. done.
Qed.

(** Opening for append and writing all bytes extends the file. *)
Lemma append_spec path bytes d :
  faultless d ->
  exists d', (_ ← open_append path; write_all path bytes) d = (d', Ok tt) /\ faultless d' /\
    d_files d' = <[path := default [] (d_files d !! path) ++ bytes]> (d_files d).
Proof.
  intros H. unfold mbind, StateR_bind, open_append.
  destruct (guarded_faultless (fun d => (mkDisk (<[path := default [] (d_files d !! path)]> (d_files d))
    (d_faults d), Ok tt : Result IoError unit)) d H) as (d1 & -> & Hf & Hl). unfold write_all.
  destruct (next_fault_faultless (mkDisk (<[path := default [] (d_files d1 !! path)]> (d_files d1)) (d_faults d1)))
    as (d2 & -> & Hf2 & Hl2); [done|].
  eexists. split; [reflexivity|]. cbn. rewrite Hf2. cbn. rewrite Hf. split; [done|].
  rewrite lookup_insert_eq. cbn. rewrite firstn_all. apply insert_insert_eq.
Qed.

Lemma remove_file_spec path d :
  faultless d ->
  exists d' r, remove_file path d = (d', r) /\ faultless d' /\ d_files d' = delete path (d_files d) /\
    (r = Ok tt \/ r = Err not_found).
Proof.
  intros H. unfold remove_file.
  destruct (guarded_faultless (fun d => match d_files d !! path with
    | Some _ => (mkDisk (delete path (d_files d)) (d_faults d), Ok tt)
    | None => (d, Err not_found) end) d H) as (d1 & -> & Hf & Hl).
  rewrite Hf. destruct (d_files d !! path) eqn:E; eexists _, _; (split; [reflexivity|]).
  - cbn. split_and!; [done..|by left].
  - split_and!; [done| |by right]. by rewrite Hf, delete_id.
Qed.
