(* ===== verification/Model.v ===== *)
(** * The rule model: values, actions, matchers, conditions, rules, requests

    The data types of crates/rsproxy-rules/src/{error,action,action/*,model}.rs
    and template/metadata.rs with the source's constructors, the family and
    phase classification of actions (matcher/action.rs), and the skip state of
    family.rs.

    A compiled [regex::Regex], [fancy_regex::Regex] or [AhoCorasick] is
    represented by what it was built from; what such an object does on a text
    is given by the interfaces of Engines.v. *)
From Stdlib Require Import Ascii String.
From stdpp Require Import base numbers list gmap strings.
From S2P Require Import Prelude Family.

(** ** Limits of the language (language.rs) *)

Definition MAX_RULE_SOURCE_LINE_BYTES : N := 64 * 1024.
Definition MAX_RULE_GLOB_CAPTURES : nat := 9.
Definition MAX_RULE_DIAGNOSTICS : nat := 256.
Definition MAX_RULE_PARSE_NESTING : nat := 32.

(** ** Errors (error.rs) *)

(** The float and regex variants of [RuleModelError] carry error values of the
    standard library and of the regex crates, which are left out here. *)
Inductive RuleModelError :=
| EmptyInput (context message : str)
| MissingArgument (context message : str)
| InvalidSyntax (context message : str)
| InvalidInput (context message : str)
| UnsupportedInput (context message : str)
| ConstraintViolation (context message : str)
| LimitExceeded (context message : str)
| InvalidInteger (context input message : str) (source : IntErrorKind)
| InvalidFloat (context input message : str)
| InvalidRegex (context : str)
| InvalidRegexMatcher
| InvalidExactUrlMatcher (source : RuleModelError)
| InvalidTemplate (context message : str).

(** ** Values and small operations (action/value.rs, action/delete.rs) *)

Module Value.
Inductive t :=
| Inline (value : str)
| File (path : str)
| Reference (key : str).

Definition as_inline (v : t) : option str :=
  match v with Inline s => Some s | File _ | Reference _ => None end.
Definition source (v : t) : str :=
  match v with Inline s | File s | Reference s => s end.
End Value.

Definition valid_value_key (key : str) : bool :=
  negb (is_emptyb key) && (len key <=? 128) &&
  forallb (fun b => is_ascii_alphanumeric b || (b =? ch ".") || (b =? ch "_") || (b =? ch "-"))
    key.

Inductive DeleteBodyPathSegment :=
| SegKey (key : str)
| SegIndex (index : N).

Record DeleteBodyPath := mkDeleteBodyPath { dbp_segments : list DeleteBodyPathSegment }.

Definition DeleteBodyPath_new (segments : list DeleteBodyPathSegment)
    : Result RuleModelError DeleteBodyPath :=
  if is_emptyb segments
  then Err (EmptyInput (lit "delete body path")
              (lit "delete body path must contain at least one segment"))
  else Ok (mkDeleteBodyPath segments).

Module DeletePathSegment.
Inductive t := Index (i : Z) | Last.
End DeletePathSegment.

(** ** Compiled pattern objects *)

(** [regex::Regex] with the builder options it was built with. *)
Record LinearRegex := mkLinearRegex {
  lr_source : str;
  lr_case_insensitive : bool;
  lr_size_limit : option N;
}.

(** [fancy_regex::Regex] with its backtrack limit. *)
Record FancyRegex := mkFancyRegex { fr_source : str; fr_backtrack_limit : N }.

(** [aho_corasick::AhoCorasick]. *)
Record AhoCorasick := mkAhoCorasick { ac_patterns : list str; ac_case_insensitive : bool }.

(** [RegexReplacePattern] (action/replace_pattern.rs). *)
Record RegexReplacePattern := mkRegexReplacePattern {
  rrp_pattern : str;
  rrp_case_insensitive : bool;
  rrp_compiled : LinearRegex;
}.

(** [HostPool] (action/host_pool.rs): clones share the cursor cell, named here
    by the location of the [Arc<AtomicUsize>], and each has its own selection. *)
Record HostPool := mkHostPool {
  hp_addresses : list Value.t;
  hp_cursor : N;
  hp_selection : option N;
}.

Definition HostPool_clone (p : HostPool) : HostPool :=
  mkHostPool (hp_addresses p) (hp_cursor p) None.

(** ** Actions (action.rs) *)

Module HeaderOp.
Inductive t :=
| Set_ (name : str) (value : Value.t)
| Remove (name : str)
| Replace (name : str) (pattern : RegexReplacePattern) (replacement : str).
End HeaderOp.

Module QueryOp.
Inductive t := Set_ (name : str) (value : Value.t) | Remove (name : str).
End QueryOp.

Module DeleteOp.
Inductive t :=
| Pathname
| PathSegment (segment : DeletePathSegment.t)
| UrlParams
| UrlParam (name : str)
| ReqHeader (name : str)
| ResHeader (name : str)
| ReqBody
| ResBody
| ReqBodyPath (path : DeleteBodyPath)
| ResBodyPath (path : DeleteBodyPath)
| ReqType
| ResType
| ReqCharset
| ResCharset
| ReqCookie (name : str)
| ResCookie (name : str)
| ReqCookies
| ResCookies
| Trailer (name : str)
| Trailers.
End DeleteOp.

Record CookieAttr := mkCookieAttr { ca_name : str; ca_value : option Value.t }.

Module CookieOp.
Inductive t :=
| Set_ (name : str) (value : Value.t) (attrs : list CookieAttr)
| Remove (name : str).
End CookieOp.

Record MockInlineOp := mkMockInlineOp {
  mi_status : option N;
  mi_headers : list (str * Value.t);
  mi_body : option Value.t;
}.

Record CorsOp := mkCorsOp {
  co_origin : Value.t;
  co_methods : option Value.t;
  co_headers : option Value.t;
  co_credentials : option bool;
  co_expose : option Value.t;
  co_max_age : option Value.t;
}.

Record CacheDirective := mkCacheDirective { cd_name : str; cd_value : option Value.t }.

Module CacheOp.
Inductive t := Off | Directives (directives : list CacheDirective).
End CacheOp.

Inductive TlsMinVersion := Tls12 | Tls13.

Definition TlsMinVersion_as_str (v : TlsMinVersion) : str :=
  match v with Tls12 => lit "1.2" | Tls13 => lit "1.3" end.

Inductive TlsCipherSuite :=
| Tls13Aes128GcmSha256
| Tls13Aes256GcmSha384
| Tls13Chacha20Poly1305Sha256
| Tls12EcdheEcdsaAes128GcmSha256
| Tls12EcdheEcdsaAes256GcmSha384
| Tls12EcdheEcdsaChacha20Poly1305Sha256
| Tls12EcdheRsaAes128GcmSha256
| Tls12EcdheRsaAes256GcmSha384
| Tls12EcdheRsaChacha20Poly1305Sha256.

Definition TlsCipherSuite_as_str (s : TlsCipherSuite) : str :=
  match s with
  | Tls13Aes128GcmSha256 => lit "TLS_AES_128_GCM_SHA256"
  | Tls13Aes256GcmSha384 => lit "TLS_AES_256_GCM_SHA384"
  | Tls13Chacha20Poly1305Sha256 => lit "TLS_CHACHA20_POLY1305_SHA256"
  | Tls12EcdheEcdsaAes128GcmSha256 => lit "TLS_ECDHE_ECDSA_WITH_AES_128_GCM_SHA256"
  | Tls12EcdheEcdsaAes256GcmSha384 => lit "TLS_ECDHE_ECDSA_WITH_AES_256_GCM_SHA384"
  | Tls12EcdheEcdsaChacha20Poly1305Sha256 => lit "TLS_ECDHE_ECDSA_WITH_CHACHA20_POLY1305_SHA256"
  | Tls12EcdheRsaAes128GcmSha256 => lit "TLS_ECDHE_RSA_WITH_AES_128_GCM_SHA256"
  | Tls12EcdheRsaAes256GcmSha384 => lit "TLS_ECDHE_RSA_WITH_AES_256_GCM_SHA384"
  | Tls12EcdheRsaChacha20Poly1305Sha256 => lit "TLS_ECDHE_RSA_WITH_CHACHA20_POLY1305_SHA256"
  end.

Definition TlsCipherSuite_is_tls13 (s : TlsCipherSuite) : bool :=
  match s with
  | Tls13Aes128GcmSha256 | Tls13Aes256GcmSha384 | Tls13Chacha20Poly1305Sha256 => true
  | _ => false
  end.

Record TlsOp := mkTlsOp {
  to_client_cert : option str;
  to_client_key : option str;
  to_min_version : option TlsMinVersion;
  to_ciphers : list TlsCipherSuite;
}.

Module BodyOp.
Inductive t :=
| Set_ (value : Value.t)
| Prepend (value : Value.t)
| Append (value : Value.t)
| Replace (pattern : RegexReplacePattern) (replacement : str).
End BodyOp.

Module InjectTarget.
Inductive t := Html | Js | Css.
End InjectTarget.

Module InjectMode.
Inductive t := Append | Prepend | Replace.
End InjectMode.

Record InjectOp := mkInjectOp {
  io_target : InjectTarget.t;
  io_value : Value.t;
  io_mode : InjectMode.t;
}.

Module UrlRewritePattern.
Inductive t := Plain (value : Value.t) | Regex (pattern : RegexReplacePattern).
End UrlRewritePattern.

Module Action.
Inductive t :=
| Host (pool : HostPool)
| Upstream (value : Value.t)
| Direct
| Mock (value : Value.t)
| MockRaw (value : Value.t)
| MockInline (op : MockInlineOp)
| Status (code : N)
| Redirect (url : Value.t) (code : N)
| ReqHeader (op : HeaderOp.t)
| ResHeader (op : HeaderOp.t)
| ResStatus (code : N)
| ReqMethod (value : Value.t)
| ReqCookie (op : CookieOp.t)
| ResCookie (op : CookieOp.t)
| ReqUa (value : Value.t)
| ReqReferer (value : Value.t)
| ReqAuth (value : Value.t)
| ReqForwarded (value : Value.t)
| ReqType (value : Value.t)
| ReqCharset (value : Value.t)
| ResCors (op : CorsOp)
| ResType (value : Value.t)
| ResCharset (value : Value.t)
| ResMerge (value : Value.t)
| ResTrailer (op : HeaderOp.t)
| Attachment (filename : option Value.t)
| Cache (op : CacheOp.t)
| Tls (op : TlsOp)
| MapRemote (value : Value.t)
| UrlRewrite (from : UrlRewritePattern.t) (to : Value.t)
| UrlQuery (ops : list QueryOp.t)
| Delete (ops : list DeleteOp.t)
| ReqBody (op : BodyOp.t)
| ResBody (op : BodyOp.t)
| Inject (op : InjectOp)
| Delay (phase : Phase.t) (millis : N)
| Throttle (phase : Phase.t) (bytes_per_sec : N)
| Bypass
| Hide
| Tag (value : Value.t)
| Skip (families : ActionFamilySet.t).

(** [Clone]: derived, with the hand-written [HostPool::clone]. *)
Definition clone (a : t) : t :=
  match a with Host pool => Host (HostPool_clone pool) | _ => a end.

Definition family (a : t) : ActionFamily.t :=
  match a with
  | Host _ => ActionFamily.Host
  | Upstream _ => ActionFamily.Upstream
  | Direct => ActionFamily.Direct
  | Mock _ | MockRaw _ | MockInline _ => ActionFamily.Mock
  | MapRemote _ => ActionFamily.MapRemote
  | Status _ => ActionFamily.Status
  | Redirect _ _ => ActionFamily.Redirect
  | ReqHeader _ => ActionFamily.ReqHeader
  | ResHeader _ => ActionFamily.ResHeader
  | ResStatus _ => ActionFamily.ResStatus
  | ReqMethod _ => ActionFamily.ReqMethod
  | ReqCookie _ => ActionFamily.ReqCookie
  | ResCookie _ => ActionFamily.ResCookie
  | ReqUa _ => ActionFamily.ReqUa
  | ReqReferer _ => ActionFamily.ReqReferer
  | ReqAuth _ => ActionFamily.ReqAuth
  | ReqForwarded _ => ActionFamily.ReqForwarded
  | ReqType _ => ActionFamily.ReqType
  | ReqCharset _ => ActionFamily.ReqCharset
  | ResCors _ => ActionFamily.ResCors
  | ResType _ => ActionFamily.ResType
  | ResCharset _ => ActionFamily.ResCharset
  | ResMerge _ => ActionFamily.ResMerge
  | ResTrailer _ => ActionFamily.ResTrailer
  | Attachment _ => ActionFamily.Attachment
  | Cache _ => ActionFamily.Cache
  | Tls _ => ActionFamily.Tls
  | UrlRewrite _ _ => ActionFamily.UrlRewrite
  | UrlQuery _ => ActionFamily.UrlQuery
  | Delete _ => ActionFamily.Delete
  | ReqBody (BodyOp.Set_ _) => ActionFamily.ReqBodySet
  | ReqBody (BodyOp.Prepend _) => ActionFamily.ReqBodyPrepend
  | ReqBody (BodyOp.Append _) => ActionFamily.ReqBodyAppend
  | ReqBody (BodyOp.Replace _ _) => ActionFamily.ReqBodyReplace
  | ResBody (BodyOp.Set_ _) => ActionFamily.ResBodySet
  | ResBody (BodyOp.Prepend _) => ActionFamily.ResBodyPrepend
  | ResBody (BodyOp.Append _) => ActionFamily.ResBodyAppend
  | ResBody (BodyOp.Replace _ _) => ActionFamily.ResBodyReplace
  | Inject _ => ActionFamily.Inject
  | Delay Phase.Req _ => ActionFamily.DelayReq
  | Delay Phase.Res _ => ActionFamily.DelayRes
  | Throttle Phase.Req _ => ActionFamily.ThrottleReq
  | Throttle Phase.Res _ => ActionFamily.ThrottleRes
  | Bypass => ActionFamily.Bypass
  | Hide => ActionFamily.Hide
  | Tag _ => ActionFamily.Tag
  | Skip _ => ActionFamily.Skip
  end.

Definition is_stackable (a : t) : bool :=
  bool_decide (ActionFamily.resolution (family a) = ResolutionPolicy.Stackable).
Definition is_single (a : t) : bool := negb (is_stackable a).

Definition delete_operation_applies_in (op : DeleteOp.t) (phase : Phase.t) : bool :=
  match op with
  | DeleteOp.Pathname | DeleteOp.PathSegment _ | DeleteOp.UrlParams | DeleteOp.UrlParam _
  | DeleteOp.ReqHeader _ | DeleteOp.ReqBody | DeleteOp.ReqBodyPath _ | DeleteOp.ReqType
  | DeleteOp.ReqCharset | DeleteOp.ReqCookie _ | DeleteOp.ReqCookies =>
      bool_decide (phase = Phase.Req)
  | DeleteOp.ResHeader _ | DeleteOp.ResBody | DeleteOp.ResBodyPath _ | DeleteOp.ResType
  | DeleteOp.ResCharset | DeleteOp.ResCookie _ | DeleteOp.ResCookies | DeleteOp.Trailer _
  | DeleteOp.Trailers => bool_decide (phase = Phase.Res)
  end.

Definition applies_in (a : t) (phase : Phase.t) : bool :=
  match a with
  | Delete ops => existsb (fun op => delete_operation_applies_in op phase) ops
  | _ => bool_decide (phase ∈ ActionFamily.phases (family a))
  end.

(** [Action::STACKABLE_FAMILIES]. *)
Definition STACKABLE_FAMILIES : list ActionFamily.t :=
  [ActionFamily.ReqHeader; ActionFamily.ResHeader; ActionFamily.ReqCookie;
   ActionFamily.ResCookie; ActionFamily.ResMerge; ActionFamily.ResTrailer;
   ActionFamily.UrlQuery; ActionFamily.Delete; ActionFamily.ReqBodySet;
   ActionFamily.ReqBodyPrepend; ActionFamily.ReqBodyAppend; ActionFamily.ReqBodyReplace;
   ActionFamily.ResBodySet; ActionFamily.ResBodyPrepend; ActionFamily.ResBodyAppend;
   ActionFamily.ResBodyReplace; ActionFamily.Inject; ActionFamily.Tag; ActionFamily.Skip].
End Action.

(** ** Skip state (family.rs) *)

Module SkipState.
Record t := mk { families : ActionFamilySet.t }.
Definition default : t := mk ActionFamilySet.EMPTY.
Definition suppresses (s : t) (family : ActionFamily.t) : bool :=
  ActionFamilySet.contains (families s) family.
Definition observe (s : t) (a : Action.t) : t :=
  match a with
  | Action.Skip fs =>
      if ActionFamilySet.is_empty fs then mk ActionFamilySet.ALL
      else mk (ActionFamilySet.union (families s) fs)
  | _ => s
  end.
End SkipState.

(** ** Matchers and conditions (model.rs) *)

Inductive RegexEngine := Linear | Fancy.

Inductive CompiledRegex :=
| CompiledLinear (regex : LinearRegex)
| CompiledFancy (regex : FancyRegex).

Record RegexMatcher := mkRegexMatcher {
  rm_pattern : str;
  rm_case_insensitive : bool;
  rm_engine : RegexEngine;
  rm_compiled : CompiledRegex;
}.

Record GlobMatcher := mkGlobMatcher {
  gm_scheme : option str;
  gm_host : str;
  gm_port : option str;
  gm_path : option str;
  gm_query : option str;
}.

Module Matcher.
Inductive t :=
| ExactUrl (url : str)
| Glob (glob : GlobMatcher)
| Port (port : N)
| Regex (regex : RegexMatcher)
| Not (inner : t).
End Matcher.

Module UrlCondition.
Inductive t := Glob (pattern : str) | Regex (regex : RegexMatcher).
End UrlCondition.

Module Condition.
Inductive t :=
| Method (methods : list str)
| Host (pattern : str)
| Url (condition : UrlCondition.t)
| ClientIp (patterns : list str)
| ServerIp (patterns : list str)
| HeaderPresent (name : str)
| HeaderContains (name value : str)
| ResHeaderPresent (name : str)
| ResHeaderContains (name value : str)
| BodyContains (literal : str)
| BodyRegex (regex : RegexMatcher)
| Status (statuses : list N)
| ChancePermille (permille : N)
| EnvPresent (name : str)
| EnvEquals (name value : str)
| Any (conditions : list t)
| All (conditions : list t)
| Not (inner : t).

(** Induction with the hypothesis for every nested condition. *)
Section Induction.
Context (P : t -> Prop).
Context (Hleaf : forall c,
  match c with Any _ | All _ | Not _ => False | _ => True end -> P c).
Context (Hany : forall cs, Forall P cs -> P (Any cs)).
Context (Hall : forall cs, Forall P cs -> P (All cs)).
Context (Hnot : forall c, P c -> P (Not c)).

Fixpoint ind_nested (c : t) : P c :=
  let fix go (cs : list t) : Forall P cs :=
    match cs with
    | [] => @List.Forall_nil _ P
    | c :: cs' => @List.Forall_cons _ P c cs' (ind_nested c) (go cs')
    end in
  match c with
  | Any cs => Hany cs (go cs)
  | All cs => Hall cs (go cs)
  | Not c' => Hnot c' (ind_nested c')
  | c' => ltac:(first [exact (Hleaf c' I) | apply Hleaf; exact I])
  end.
End Induction.

(** [for_each_node] (planning.rs): the nodes in visiting order. *)
Fixpoint nodes (c : t) : list t :=
  c :: match c with
       | Any cs | All cs => flat_map nodes cs
       | Not inner => nodes inner
       | _ => []
       end.

Fixpoint depends_on_request_body (c : t) : bool :=
  match c with
  | BodyContains _ | BodyRegex _ => true
  | Any cs | All cs => existsb depends_on_request_body cs
  | Not inner => depends_on_request_body inner
  | _ => false
  end.

Fixpoint depends_on_response (c : t) : bool :=
  match c with
  | ResHeaderPresent _ | ResHeaderContains _ _ | Status _ => true
  | Any cs | All cs => existsb depends_on_response cs
  | Not inner => depends_on_response inner
  | _ => false
  end.
End Condition.

(** ** Rules, requests and results (model.rs) *)

Record Rule := mkRule {
  r_group : str;
  r_line : N;
  r_raw : str;
  r_matcher : Matcher.t;
  r_actions : list Action.t;
  r_conditions : list Condition.t;
  r_important : bool;
  r_disabled : bool;
  r_tags : list str;
}.

(** [effective_actions] (family.rs): same-rule actions that survive earlier skips. *)
Fixpoint effective_actions_from (skip : SkipState.t) (actions : list Action.t) : list Action.t :=
  match actions with
  | [] => []
  | a :: rest =>
      if SkipState.suppresses skip (Action.family a) then effective_actions_from skip rest
      else a :: effective_actions_from (SkipState.observe skip a) rest
  end.
Definition effective_actions (rule : Rule) : list Action.t :=
  effective_actions_from SkipState.default (r_actions rule).

(** The values behind [TemplateMetadata]; generated once per request and then
    stable, which the shared [OnceLock] of the source guarantees. *)
Record TemplateMetadata := mkTemplateMetadata {
  tm_id : str;
  tm_now_ms : N;
  tm_random : N;
  tm_random_uuid : str;
}.

Record RequestMeta := mkRequestMeta {
  req_method : str;
  req_url : str;
  req_headers : list (str * str);
  req_body : list N;
  req_client_ip : option str;
  req_server_ip : option str;
  req_template : TemplateMetadata;
}.

Record ResponseMeta := mkResponseMeta {
  res_status : N;
  res_headers : list (str * str);
}.

Record MatchedRule := mkMatchedRule { mr_group : str; mr_line : N; mr_raw : str }.

(** [named] is a [BTreeMap] used through lookups only. *)
Record Captures := mkCaptures {
  c_whole : option str;
  c_indexed : list str;
  c_named : gmap str str;
}.
Definition Captures_default : Captures := mkCaptures None [] ∅.

Definition Captures_get_index (c : Captures) (index : nat) : option str :=
  match index with
  | O => c_whole c
  | S i => c_indexed c !! i
  end.

(** Numbered captures are limited to [$1]-[$9]. *)
Definition Captures_insert_index (c : Captures) (value : str) : Captures :=
  if (length (c_indexed c) <? 9)%nat
  then mkCaptures (c_whole c) (c_indexed c ++ [value]) (c_named c)
  else c.

Record ResolvedAction := mkResolvedAction {
  ra_action : Action.t;
  ra_rule : MatchedRule;
  ra_captures : Captures;
  ra_response : option ResponseMeta;
}.

Record ResolveResult := mkResolveResult {
  rr_actions : list ResolvedAction;
  rr_matched_rules : list MatchedRule;
}.

(** [header] (matching.rs): the first value of a field, by case-insensitive name. *)
Fixpoint header (headers : list (str * str)) (name : str) : option str :=
  match headers with
  | [] => None
  | (k, v) :: rest => if eq_ignore_ascii_case k name then Some v else header rest name
  end.
