(* ===== verification/Url.v ===== *)
(** * Absolute URLs

    [UrlParts::parse] and its helpers, the effective port and origin form, and
    the validation of redirect locations
    (crates/rsproxy-rules/src/matcher/url.rs); the printing of a URL and the
    transport/rule scheme conversions of WebSocket requests
    (crates/rsproxy-engine/src/proxy/request_util.rs, transforms/sse.rs). *)
From Stdlib Require Import Ascii String.
From stdpp Require Import base numbers list gmap strings.
From S2P Require Import Prelude Utf8 NetAddr Family Model.

Record UrlParts := mkUrlParts {
  up_scheme : str;
  up_host : str;
  up_port : option N;
  up_path : str;
  up_query : option str;
}.

Definition is_bracket (c : char) : bool := (c =? ch "[") || (c =? ch "]").

Definition valid_absolute_scheme (input : str) : bool :=
  match input with
  | [] => false
  | c :: rest =>
      is_ascii_alphabetic c &&
      forallb (fun c => is_ascii_alphanumeric c || (c =? ch "+") || (c =? ch "-") || (c =? ch "."))
        rest
  end.

Definition parse_absolute_port (input : str) : Result RuleModelError N :=
  if is_emptyb input then Err (EmptyInput (lit "URL port") (lit "URL port is empty"))
  else
    match parse_uint U16_MAX input with
    | Err source =>
        Err (InvalidInteger (lit "URL port") input
               (lit "invalid URL port `" ++ input ++ lit "`") source)
    | Ok port =>
        if port =? 0
        then Err (ConstraintViolation (lit "URL port") (lit "URL port must be 1..65535"))
        else Ok port
    end.

Definition invalid_authority (authority : str) : RuleModelError :=
  InvalidInput (lit "URL authority") (lit "invalid URL authority `" ++ authority ++ lit "`").

(** The host text (brackets included) and the port of an authority. *)
Definition parse_absolute_authority (authority : str)
    : Result RuleModelError (str * option N) :=
  if starts_with [ch "["] authority then
    match split_once [ch "]"] authority with
    | None => Err (InvalidSyntax (lit "URL IPv6 authority")
                     (lit "IPv6 URL host is missing closing `]`"))
    | Some (before, tail) =>
        let host := drop 1 before in
        match parse_ipv6 host with
        | None => Err (InvalidInput (lit "URL IPv6 authority")
                         (lit "invalid IPv6 URL host `" ++ host ++ lit "`"))
        | Some _ =>
            port ← (if is_emptyb tail then Ok None
                    else match strip_prefix [ch ":"] tail with
                         | None => Err (invalid_authority authority)
                         | Some raw => port ← parse_absolute_port raw; Ok (Some port)
                         end);
            Ok (before ++ [ch "]"], port)
        end
    end
  else if existsb is_bracket authority then Err (invalid_authority authority)
  else
    match rsplit_once_char (ch ":") authority with
    | Some (host, raw_port) =>
        if negb (contains_char (ch ":") host) then
          if is_emptyb host then Err (EmptyInput (lit "URL host") (lit "url host is empty"))
          else port ← parse_absolute_port raw_port; Ok (host, Some port)
        else Err (InvalidSyntax (lit "URL IPv6 authority")
                    (lit "IPv6 URL hosts must use brackets"))
    | None => Ok (authority, None)
    end.

(** The split of path and query: an explicitly empty query stays present. *)
Definition split_path_query (path_and_query : str) : str * option str :=
  match split_once [ch "?"] path_and_query with
  | Some (path, query) => (if is_emptyb path then lit "/" else path, Some query)
  | None =>
      match strip_prefix [ch "?"] path_and_query with
      | Some query => (lit "/", Some query)
      | None => (path_and_query, None)
      end
  end.

Definition UrlParts_parse (input : str) : Result RuleModelError UrlParts :=
  '(scheme, rest) ←
    ok_or (split_once (lit "://") input)
      (InvalidSyntax (lit "URL") (lit "url must include scheme: " ++ input));
  if negb (valid_absolute_scheme scheme) then
    Err (InvalidInput (lit "URL scheme") (lit "invalid URL scheme `" ++ scheme ++ lit "`"))
  else if contains_char (ch "#") input then
    Err (InvalidInput (lit "URL fragment")
           (lit "absolute request URLs must not include a fragment"))
  else
    let scheme := to_ascii_lowercase scheme in
    let '(authority, path_and_query) :=
      match find_split (fun c => (c =? ch "/") || (c =? ch "?")) rest with
      | Some (authority, path_and_query) => (authority, path_and_query)
      | None => (rest, lit "/")
      end in
    if is_emptyb authority then Err (EmptyInput (lit "URL host") (lit "url host is empty"))
    else if contains_char (ch "@") authority then
      Err (InvalidInput (lit "URL authority") (lit "URL user information is not supported"))
    else
      '(host, port) ← parse_absolute_authority authority;
      let host := to_ascii_lowercase (trim_matches is_bracket host) in
      if is_emptyb host then Err (EmptyInput (lit "URL host") (lit "url host is empty"))
      else if existsb (fun c => is_control c || is_whitespace c) host then
        Err (InvalidInput (lit "URL host")
               (lit "URL host must not contain whitespace or control characters"))
      else
        let '(path, query) := split_path_query path_and_query in
        Ok (mkUrlParts scheme host port path query).

Definition effective_port (u : UrlParts) : option N :=
  match up_port u with
  | Some p => Some p
  | None =>
      if (up_scheme u =s? lit "http") || (up_scheme u =s? lit "ws") then Some 80
      else if (up_scheme u =s? lit "https") || (up_scheme u =s? lit "wss") then Some 443
      else if up_scheme u =s? lit "tunnel" then up_port u
      else None
  end.

Definition origin_form (u : UrlParts) : str :=
  match up_query u with
  | Some query =>
      if negb (is_emptyb query) then up_path u ++ lit "?" ++ query else up_path u
  | None => up_path u
  end.

(** [validate_percent_encoding]: the byte loop, stepping over one byte or over
    one three-byte escape. *)
Fixpoint validate_percent_encoding (bytes : list N) : Result RuleModelError unit :=
  match bytes with
  | [] => Ok tt
  | b :: rest =>
      if negb (b =? ch "%") then validate_percent_encoding rest
      else
        match rest with
        | h :: l :: rest' =>
            if is_ascii_hexdigit h && is_ascii_hexdigit l
            then validate_percent_encoding rest'
            else Err (InvalidInput (lit "redirect location")
                        (lit "redirect location contains an invalid percent escape"))
        | _ => Err (InvalidInput (lit "redirect location")
                      (lit "redirect location contains an invalid percent escape"))
        end
  end.

(** The text of [reference.split(['/', '?']).next()]. *)
Definition first_segment (reference : str) : str :=
  match find_split (fun c => (c =? ch "/") || (c =? ch "?")) reference with
  | Some (segment, _) => segment
  | None => reference
  end.

Definition validate_redirect_location (value : str) : Result RuleModelError unit :=
  if is_emptyb value then
    Err (EmptyInput (lit "redirect location") (lit "redirect location must not be empty"))
  else if existsb (fun b => (b <=? 32) || (b =? 127) || (b =? 92)) (encode value) then
    Err (InvalidInput (lit "redirect location")
           (lit "redirect location must not contain whitespace, controls, or backslashes"))
  else
    _ ← validate_percent_encoding (encode value);
    let reference :=
      match split_once [ch "#"] value with Some (base, _) => base | None => value end in
    if is_emptyb reference then Ok tt
    else
      let absolute :=
        match split_once [ch ":"] reference with
        | Some (scheme, _) => if valid_absolute_scheme scheme then Some scheme else None
        | None => None
        end in
      match absolute with
      | Some scheme =>
          let scheme := to_ascii_lowercase scheme in
          if negb ((scheme =s? lit "http") || (scheme =s? lit "https")) then
            Err (UnsupportedInput (lit "redirect location scheme")
                   (lit "absolute redirect locations must use http or https"))
          else _ ← UrlParts_parse reference; Ok tt
      | None =>
          match strip_prefix (lit "//") reference with
          | Some authority => _ ← UrlParts_parse (lit "http://" ++ authority); Ok tt
          | None =>
              if contains_char (ch ":") (first_segment reference) then
                Err (InvalidInput (lit "redirect location")
                  (lit "a relative redirect's first path segment must not contain `:`"))
              else Ok tt
          end
      end.

(** ** Printing (crates/rsproxy-engine/src/proxy: request_util.rs, transforms/sse.rs) *)

Definition format_authority_host (host : str) : str :=
  let host :=
    match strip_prefix [ch "["] host with
    | Some inner =>
        match strip_suffix [ch "]"] inner with Some inner => inner | None => host end
    | None => host
    end in
  if contains_char (ch ":") host then lit "[" ++ host ++ lit "]" else host.

Definition format_host_port (host : str) (port : N) : str :=
  format_authority_host host ++ lit ":" ++ show_N port.

Definition url_to_string (u : UrlParts) : str :=
  let authority :=
    match up_port u with
    | Some port => format_host_port (up_host u) port
    | None => format_authority_host (up_host u)
    end in
  up_scheme u ++ lit "://" ++ authority ++ origin_form u.

Definition host_header (u : UrlParts) : str :=
  let host := format_authority_host (up_host u) in
  let http := (up_scheme u =s? lit "http") || (up_scheme u =s? lit "ws") in
  let https := (up_scheme u =s? lit "https") || (up_scheme u =s? lit "wss") in
  match up_port u with
  | None => host
  | Some port =>
      if ((port =? 80) && http) || ((port =? 443) && https) then host
      else host ++ lit ":" ++ show_N port
  end.

Definition replace_url_scheme (url : str) (replacement : str -> option str) : option str :=
  '(scheme, rest) ← split_once (lit "://") url;
  r ← replacement (to_ascii_lowercase scheme);
  Some (r ++ lit "://" ++ rest).

Definition normalize_websocket_transport_scheme (url : str) : Result RuleModelError str :=
  parsed ← UrlParts_parse url;
  Ok (unwrap_or
    (replace_url_scheme url (fun _ =>
       if up_scheme parsed =s? lit "ws" then Some (lit "http")
       else if up_scheme parsed =s? lit "wss" then Some (lit "https")
       else None)) url).

(** WebSocket upgrade detection (proxy/websocket.rs); only the first
    [Connection] field is inspected. *)
Definition connection_has_token (headers : list (str * str)) (token : str) : bool :=
  match header headers (lit "connection") with
  | Some value =>
      existsb (fun part => eq_ignore_ascii_case (trim part) token) (split_char (ch ",") value)
  | None => false
  end.

Definition is_websocket_request (headers : list (str * str)) : bool :=
  match header headers (lit "upgrade") with
  | Some value => eq_ignore_ascii_case value (lit "websocket")
  | None => false
  end && connection_has_token headers (lit "upgrade").

Definition is_websocket_response (headers : list (str * str)) (status : N) : bool :=
  (status =? 101) && is_websocket_request headers.

Definition rule_url_for (transport_url : str) (headers : list (str * str)) : str :=
  if negb (is_websocket_request headers) then transport_url
  else unwrap_or
    (replace_url_scheme transport_url (fun scheme =>
       if scheme =s? lit "http" then Some (lit "ws")
       else if scheme =s? lit "https" then Some (lit "wss")
       else None)) transport_url.

Example parse_example :
  UrlParts_parse (lit "HTTPS://Example.COM:8443/a/b?x=1") =
  Ok (mkUrlParts (lit "https") (lit "example.com") (Some 8443) (lit "/a/b") (Some (lit "x=1"))).
Proof. vm_compute. reflexivity. Qed.

Example parse_ipv6_url_example :
  UrlParts_parse (lit "http://[::1]?q") =
  Ok (mkUrlParts (lit "http") (lit "::1") None (lit "/") (Some (lit "q"))).
Proof. vm_compute. reflexivity. Qed.

(** ** Well-formed URLs *)

Definition no_char (c : char) (s : str) : bool := negb (contains_char c s).

(** A bracket-free host without colon, or an IPv6 literal. *)
Definition host_wf (host : str) : bool :=
  negb (is_emptyb host) && (to_ascii_lowercase host =s? host) &&
  forallb (fun c => negb (is_control c || is_whitespace c)) host &&
  no_char (ch "/") host && no_char (ch "?") host && no_char (ch "#") host &&
  no_char (ch "@") host && forallb (fun c => negb (is_bracket c)) host &&
  (no_char (ch ":") host || is_some (parse_ipv6 host)).

Definition url_wf (u : UrlParts) : bool :=
  valid_absolute_scheme (up_scheme u) && (to_ascii_lowercase (up_scheme u) =s? up_scheme u) &&
  host_wf (up_host u) &&
  match up_port u with Some p => (1 <=? p) && (p <=? U16_MAX) | None => true end &&
  starts_with [ch "/"] (up_path u) && no_char (ch "?") (up_path u) && no_char (ch "#") (up_path u) &&
  match up_query u with Some q => no_char (ch "#") q | None => true end.

(** What printing keeps: an explicitly empty query is not printed. *)
Definition drop_empty_query (u : UrlParts) : UrlParts :=
  mkUrlParts (up_scheme u) (up_host u) (up_port u) (up_path u)
    (match up_query u with Some [] => None | q => q end).

Lemma no_char_spec c s : no_char c s = true <-> c ∉ s.
Proof. unfold no_char. by rewrite negb_true_iff, contains_char_false. Qed.

Lemma no_char_app c a b : no_char c (a ++ b) = no_char c a && no_char c b.
Proof. unfold no_char, contains_char. by rewrite existsb_app, negb_orb. Qed.

Lemma no_char_lower c s :
  is_ascii_alphabetic c = false -> no_char c (to_ascii_lowercase s) = no_char c s.
Proof.
  intros Hc. unfold no_char, contains_char. f_equal. induction s as [|x s IH]; [done|].
  simpl. fold (to_ascii_lowercase s). rewrite IH. f_equal.
  rewrite N.eqb_sym, lower_eqb, N.eqb_sym; done.
Qed.

Lemma no_char_forall P c s :
  P c = false -> Forall (fun x => P x = true) s -> no_char c s = true.
Proof.
  intros Hc Hs. apply no_char_spec. intros Hin. rewrite Forall_forall in Hs.
  specialize (Hs c Hin). congruence.
Qed.

Lemma forallb_lower P s :
  (forall c, P (lower c) = P c) -> forallb P (to_ascii_lowercase s) = forallb P s.
Proof. intros HP. induction s as [|c s IH]; [done|]. simpl. by rewrite HP, <- IH. Qed.

Lemma is_alphabetic_lower c : is_ascii_alphabetic (lower c) = is_ascii_alphabetic c.
Proof.
  destruct (lower_cases c) as [->|[Hu ->]]; [done|].
  unfold is_ascii_alphabetic. rewrite Hu. apply in_range_spec in Hu.
  unfold is_ascii_lowercase. rewrite (proj2 (in_range_spec 97 122 (c + 32))) by lia.
  apply orb_true_r.
Qed.

Lemma is_digit_lower c : is_ascii_digit (lower c) = is_ascii_digit c.
Proof.
  destruct (lower_cases c) as [->|[Hu ->]]; [done|]. apply in_range_spec in Hu.
  unfold is_ascii_digit. by rewrite !(proj2 (in_range_false 48 57 _)) by lia.
Qed.

Lemma valid_absolute_scheme_lower s :
  valid_absolute_scheme (to_ascii_lowercase s) = valid_absolute_scheme s.
Proof.
  destruct s as [|c s]; [done|]. cbn [valid_absolute_scheme to_ascii_lowercase map].
  rewrite is_alphabetic_lower. f_equal. apply forallb_lower. intros x.
  unfold is_ascii_alphanumeric. by rewrite is_alphabetic_lower, is_digit_lower, !lower_eqb.
Qed.

Lemma split_once_unfold p s :
  split_once p s =
  match strip_prefix p s with
  | Some rest => Some ([], rest)
  | None =>
      match s with
      | [] => None
      | c :: s' =>
          match split_once p s' with Some (a, b) => Some (c :: a, b) | None => None end
      end
  end.
Proof. by destruct s. Qed.

Lemma split_once_head_absent x p a b :
  x ∉ a -> split_once (x :: p) (a ++ (x :: p) ++ b) = Some (a, b).
Proof.
  induction a as [|c a IH]; intros Hn; rewrite split_once_unfold.
  - by rewrite app_nil_l, strip_prefix_app.
  - rewrite <- app_comm_cons.
    assert (x <> c) as Hne by set_solver. apply N.eqb_neq in Hne.
    cbn [strip_prefix]. rewrite Hne, IH; [done|set_solver].
Qed.

Lemma scheme_no_char c s :
  is_ascii_alphanumeric c || (c =? ch "+") || (c =? ch "-") || (c =? ch ".") = false ->
  valid_absolute_scheme s = true -> no_char c s = true.
Proof.
  intros Hc. destruct s as [|x s]; [done|]. simpl. rewrite andb_true_iff, forallb_forall.
  intros [Hx Hs].
  eapply (no_char_forall (fun c => is_ascii_alphanumeric c || (c =? ch "+") || (c =? ch "-") ||
    (c =? ch "."))); [done|]. constructor.
  - unfold is_ascii_alphanumeric. by rewrite Hx.
  - apply Forall_forall. intros y Hy. apply Hs. by apply list_elem_of_In.
Qed.

Lemma show_N_digits n : Forall (fun c => is_ascii_digit c = true) (show_N n).
Proof.
  unfold show_N, to_radix.
  destruct (digits_aux_chars 10 ltac:(lia) (S (N.to_nat (N.size n))) n []) as (d & ds & -> & Hd & Hds);
    [lia|].
  assert (forall d, d < 10 -> is_ascii_digit (digit_char d) = true) as Hdig.
  { intros e He. unfold digit_char. rewrite (proj2 (N.ltb_lt e 10)) by done.
    apply in_range_spec. lia. }
  rewrite app_nil_r. constructor; [by apply Hdig|].
  eapply Forall_impl; [exact Hds|]. intros c (e & -> & He). by apply Hdig.
Qed.

Lemma show_N_nonempty n : show_N n <> [].
Proof.
  unfold show_N, to_radix.
  by destruct (digits_aux_chars 10 ltac:(lia) (S (N.to_nat (N.size n))) n []) as (d & ds & -> & _);
    [lia|].
Qed.

Lemma show_N_no_char c n : is_ascii_digit c = false -> no_char c (show_N n) = true.
Proof. intros Hc. eapply no_char_forall; [exact Hc|apply show_N_digits]. Qed.

Lemma parse_absolute_port_show p :
  1 <= p <= U16_MAX -> parse_absolute_port (show_N p) = Ok p.
Proof.
  intros Hp. unfold parse_absolute_port.
  destruct (show_N p) eqn:E; [by destruct (show_N_nonempty p)|]. cbn [is_emptyb]. rewrite <- E.
  rewrite parse_uint_show_N by lia. by rewrite (proj2 (N.eqb_neq p 0)) by lia.
Qed.

Lemma from_str_radix_bound radix max s n : from_str_radix radix max s = Ok n -> n <= max.
Proof.
  assert (forall s acc, acc <= max -> parse_digits radix max acc s = Ok n -> n <= max) as Hd.
  { clear s. intros s. induction s as [|c s IH]; intros acc Ha; simpl; [by intros [= <-]|].
    destruct (to_digit radix c) as [d|]; [|done].
    destruct (N.leb_spec (acc * radix + d) max); [|done]. by apply IH. }
  unfold from_str_radix. destruct s as [|c [|c' s]]; [done| |].
  - destruct (_ || _); [done|]. apply Hd; lia.
  - destruct (_ =? _); apply Hd; lia.
Qed.

Lemma parse_absolute_port_bound s p : parse_absolute_port s = Ok p -> 1 <= p <= U16_MAX.
Proof.
  unfold parse_absolute_port. destruct (is_emptyb s); [done|].
  destruct (parse_uint U16_MAX s) as [n|] eqn:E; [|done].
  apply from_str_radix_bound in E. destruct (N.eqb_spec n 0); [done|]. intros [= <-]. lia.
Qed.

Lemma forallb_Forall {A} (P : A -> bool) l : forallb P l = true <-> Forall (fun x => P x = true) l.
Proof. by rewrite forallb_forall, Forall_forall; setoid_rewrite list_elem_of_In. Qed.

Lemma forallb_negb_existsb {A} (P : A -> bool) l :
  forallb (fun x => negb (P x)) l = negb (existsb P l).
Proof. induction l as [|x l IH]; [done|]. simpl. by rewrite IH, negb_orb. Qed.

Lemma is_bracket_lower c : is_bracket (lower c) = is_bracket c.
Proof. unfold is_bracket. by rewrite !lower_eqb. Qed.

Lemma existsb_bracket_false s :
  existsb is_bracket s = false -> Forall (fun c => is_bracket c = false) s.
Proof.
  intros H. apply (f_equal negb) in H. rewrite <- forallb_negb_existsb, forallb_Forall in H.
  eapply Forall_impl; [exact H|]. intros c Hc. by apply negb_true_iff.
Qed.

Lemma ip_chars_no_bracket s :
  Forall (fun c => ip_char c = true) s -> Forall (fun c => is_bracket c = false) s.
Proof.
  intros H. eapply Forall_impl; [exact H|]. intros c Hc. unfold is_bracket.
  destruct (N.eqb_spec c (ch "[")) as [->|]; [done|].
  by destruct (N.eqb_spec c (ch "]")) as [->|].
Qed.

Definition authority_clean (a : str) : bool :=
  no_char (ch "/") a && no_char (ch "?") a && no_char (ch "#") a && no_char (ch "@") a.

Lemma authority_clean_lower a : authority_clean (to_ascii_lowercase a) = authority_clean a.
Proof. unfold authority_clean. by rewrite !no_char_lower. Qed.

Lemma authority_clean_elim a :
  authority_clean a = true ->
  no_char (ch "/") a = true /\ no_char (ch "?") a = true /\
  no_char (ch "#") a = true /\ no_char (ch "@") a = true.
Proof. unfold authority_clean. rewrite !andb_true_iff. tauto. Qed.

Lemma authority_clean_ip s :
  Forall (fun c => ip_char c = true) s -> authority_clean s = true.
Proof.
  intros H. unfold authority_clean.
  rewrite !(no_char_forall ip_char _ s); done.
Qed.

(** The shapes of an accepted authority. *)
Inductive authority_shape (a : str) : str -> option N -> Prop :=
| shape_ipv6 ip port addr : parse_ipv6 ip = Some addr ->
    match port with Some p => 1 <= p <= U16_MAX | None => True end ->
    authority_shape a (lit "[" ++ ip ++ lit "]") port
| shape_plain host port : Forall (fun c => is_bracket c = false) host ->
    no_char (ch ":") host = true -> (exists tail, a = host ++ tail) ->
    match port with Some p => 1 <= p <= U16_MAX | None => True end ->
    authority_shape a host port.

Lemma parse_absolute_authority_shape a h p :
  parse_absolute_authority a = Ok (h, p) -> authority_shape a h p.
Proof.
  unfold parse_absolute_authority. destruct (starts_with [ch "["] a) eqn:Es.
  - apply starts_with_true in Es as [r ->].
    destruct (split_once [ch "]"] ([ch "["] ++ r)) as [[before tail]|] eqn:Eb; [|done].
    apply split_once_char_Some in Eb as [Eb _].
    destruct before as [|x ip]; [done|]. injection Eb as <- ->. change (drop 1 (ch "[" :: ip)) with ip.
    destruct (parse_ipv6 ip) as [addr|] eqn:Ei; [|done].
    unfold mbind, result_bind. destruct (is_emptyb tail).
    + intros [= <- <-]. by eapply (shape_ipv6 _ ip).
    + destruct (strip_prefix [ch ":"] tail) as [raw|]; [|done].
      destruct (parse_absolute_port raw) as [port|] eqn:Ep; [|done]. intros [= <- <-].
      apply parse_absolute_port_bound in Ep. by eapply (shape_ipv6 _ ip).
  - destruct (existsb is_bracket a) eqn:Eb; [done|]. apply existsb_bracket_false in Eb.
    destruct (rsplit_once_char (ch ":") a) as [[host raw]|] eqn:Er.
    + apply rsplit_once_char_Some in Er as [-> _].
      destruct (negb (contains_char (ch ":") host)) eqn:Ec; [|done].
      destruct (is_emptyb host); [done|]. unfold mbind, result_bind.
      destruct (parse_absolute_port raw) as [port|] eqn:Ep; [|done]. intros [= <- <-].
      apply parse_absolute_port_bound in Ep. apply Forall_app in Eb as [Eb _].
      apply shape_plain; eauto.
    + apply rsplit_once_char_None in Er. intros [= <- <-].
      apply shape_plain; [done|by apply no_char_spec|by exists []; rewrite app_nil_r|done].
Qed.

Lemma host_wf_intro host :
  host <> [] -> to_ascii_lowercase host = host ->
  existsb (fun c => is_control c || is_whitespace c) host = false ->
  authority_clean host = true -> Forall (fun c => is_bracket c = false) host ->
  no_char (ch ":") host || is_some (parse_ipv6 host) = true -> host_wf host = true.
Proof.
  intros Hne Hl Hc Ha Hb Hi. unfold host_wf. unfold authority_clean in Ha.
  apply andb_true_iff in Ha as [Ha ->]. apply andb_true_iff in Ha as [Ha ->].
  apply andb_true_iff in Ha as [-> ->]. rewrite Hi, forallb_negb_existsb, Hc.
  rewrite bool_decide_eq_true_2 by done.
  rewrite (proj2 (forallb_Forall (fun c => negb (is_bracket c)) host)).
  - by destruct host.
  - eapply Forall_impl; [exact Hb|]. by intros c ->.
Qed.

Lemma authority_host_wf a h p :
  authority_clean a = true -> authority_shape a h p ->
  let host := to_ascii_lowercase (trim_matches is_bracket h) in
  is_emptyb host = false ->
  existsb (fun c => is_control c || is_whitespace c) host = false -> host_wf host = true.
Proof.
  intros Ha Hs host Hne Hc.
  assert (host <> []) as Hne' by (by destruct host).
  apply host_wf_intro; [done|apply to_ascii_lowercase_idem|done|..]; clear Hne Hne' Hc;
    subst host; destruct Hs as [ip port addr Hip Hport|host port Hb Hcolon [tail ->] Hport].
  - rewrite (trim_matches_wrap is_bracket (lit "[") ip (lit "]")), authority_clean_lower;
      [by eapply authority_clean_ip, parse_ipv6_chars|by repeat constructor..|].
    by eapply ip_chars_no_bracket, parse_ipv6_chars.
  - rewrite trim_matches_none, authority_clean_lower by done. clear -Ha.
    unfold authority_clean in *. rewrite !no_char_app in Ha.
    destruct (no_char _ host), (no_char _ host), (no_char _ host), (no_char _ host);
      simpl in *; try done; by rewrite ?andb_false_r in Ha.
  - rewrite (trim_matches_wrap is_bracket (lit "[") ip (lit "]"));
      [|by repeat constructor..|by eapply ip_chars_no_bracket, parse_ipv6_chars].
    apply Forall_map. eapply Forall_impl; [by eapply ip_chars_no_bracket, parse_ipv6_chars|].
    intros c Hc. simpl. by rewrite is_bracket_lower.
  - rewrite trim_matches_none by done. apply Forall_map.
    eapply Forall_impl; [exact Hb|]. intros c Hc. simpl. by rewrite is_bracket_lower.
  - rewrite (trim_matches_wrap is_bracket (lit "[") ip (lit "]"));
      [|by repeat constructor..|by eapply ip_chars_no_bracket, parse_ipv6_chars].
    by rewrite parse_ipv6_lower, Hip, orb_true_r.
  - rewrite trim_matches_none, no_char_lower, Hcolon by done. done.
Qed.

(** What a successful parse has checked. *)
Lemma UrlParts_parse_inv input u :
  UrlParts_parse input = Ok u ->
  exists scheme authority pq h,
    valid_absolute_scheme scheme = true /\ up_scheme u = to_ascii_lowercase scheme /\
    authority_clean authority = true /\ authority_shape authority h (up_port u) /\
    up_host u = to_ascii_lowercase (trim_matches is_bracket h) /\
    is_emptyb (up_host u) = false /\
    existsb (fun c => is_control c || is_whitespace c) (up_host u) = false /\
    (up_path u, up_query u) = split_path_query pq /\ no_char (ch "#") pq = true /\
    exists c tl, pq = c :: tl /\ (c = ch "/" \/ c = ch "?").
Proof.
  unfold UrlParts_parse, mbind, result_bind.
  destruct (split_once (lit "://") input) as [[scheme rest]|] eqn:Es; [|done]. cbn [ok_or].
  destruct (valid_absolute_scheme scheme) eqn:Ev; [|done]. cbn [negb].
  destruct (contains_char (ch "#") input) eqn:Eh; [done|].
  apply split_once_Some in Es. rewrite Es in Eh. apply (f_equal negb) in Eh.
  fold (no_char (ch "#") (scheme ++ lit "://" ++ rest)) in Eh.
  rewrite !no_char_app, !andb_true_iff in Eh. destruct Eh as (_ & _ & Hh). clear Es input.
  destruct (match find_split _ rest with Some _ => _ | None => _ end) as [authority pq] eqn:Ef.
  assert (no_char (ch "/") authority = true /\ no_char (ch "?") authority = true /\
    no_char (ch "#") authority = true /\ no_char (ch "#") pq = true /\
    exists c tl, pq = c :: tl /\ (c = ch "/" \/ c = ch "?")) as (H1 & H2 & H3 & H4 & H5).
  { destruct (find_split _ rest) as [[a q]|] eqn:Ef'.
    - apply find_split_Some in Ef' as (-> & Hf & c & q' & -> & Hc). injection Ef as <- <-.
      rewrite no_char_app, andb_true_iff in Hh. destruct Hh as [? ?].
      assert (Forall (fun c => negb ((c =? ch "/") || (c =? ch "?")) = true) a) as Hf'
        by (eapply Forall_impl; [exact Hf|]; by intros x ->).
      split_and!; [by eapply no_char_forall; [|exact Hf']..|done|done|].
      exists c, q'. split; [done|]. apply orb_true_iff in Hc. by rewrite !N.eqb_eq in Hc.
    - apply find_split_None in Ef'. injection Ef as <- <-.
      assert (Forall (fun c => negb ((c =? ch "/") || (c =? ch "?")) = true) rest) as Hf'
        by (eapply Forall_impl; [exact Ef'|]; by intros x ->).
      split_and!; [by eapply no_char_forall; [|exact Hf']..|done|done|].
      exists (ch "/"), []. split; [done|by left]. }
  destruct (is_emptyb authority); [done|].
  destruct (contains_char (ch "@") authority) eqn:Eat; [done|].
  destruct (parse_absolute_authority authority) as [[h port]|] eqn:Ea; [|done].
  apply parse_absolute_authority_shape in Ea.
  destruct (is_emptyb (to_ascii_lowercase _)) eqn:Eh1; [done|].
  destruct (existsb _ (to_ascii_lowercase _)) eqn:Eh2; [done|].
  destruct (split_path_query pq) as [path query] eqn:Ep. intros [= <-]. simpl.
  exists scheme, authority, pq, h. split_and!; try done.
  unfold authority_clean. rewrite H1, H2, H3. unfold no_char. by rewrite Eat.
Qed.

Lemma split_path_query_wf pq path query :
  no_char (ch "#") pq = true -> (exists c tl, pq = c :: tl /\ (c = ch "/" \/ c = ch "?")) ->
  (path, query) = split_path_query pq ->
  starts_with [ch "/"] path = true /\ no_char (ch "?") path = true /\
  no_char (ch "#") path = true /\
  match query with Some q => no_char (ch "#") q = true | None => True end.
Proof.
  intros Hh (c & tl & -> & Hc). unfold split_path_query.
  destruct (split_once [ch "?"] (c :: tl)) as [[p q]|] eqn:E.
  - apply split_once_char_Some in E as [E Hq]. rewrite E, no_char_app, andb_true_iff in Hh.
    destruct Hh as [Hp Hq']. intros [= -> ->].
    assert (no_char (ch "#") q = true).
    { change (ch "?" :: q) with ([ch "?"] ++ q) in Hq'.
      rewrite no_char_app, andb_true_iff in Hq'. by destruct Hq'. }
    destruct p as [|x p]; [by vm_compute; split_and!|].
    injection E as -> ->. split_and!; try done; [|by apply no_char_spec].
    destruct Hc as [->| ->]; [|set_solver]. apply starts_with_true. by exists p.
  - apply split_once_char_None in E.
    destruct Hc as [->| ->]; [|set_solver].
    change (strip_prefix [ch "?"] (ch "/" :: tl)) with (@None str). cbv iota.
    intros [= -> ->].
    split_and!; [apply starts_with_true; by exists tl|by apply no_char_spec|done|done].
Qed.

Lemma UrlParts_parse_wf_lemma input u : UrlParts_parse input = Ok u -> url_wf u = true.
Proof.
  intros H. apply UrlParts_parse_inv in H as (scheme & a & pq & h & Hs & Hus & Ha & Hsh & Huh &
    Hne & Hctl & Hpq & Hpq1 & Hpq2).
  destruct (split_path_query_wf _ _ _ Hpq1 Hpq2 Hpq) as (Hp1 & Hp2 & Hp3 & Hq).
  unfold url_wf. rewrite Hp1, Hp2, Hp3, Hus, valid_absolute_scheme_lower, Hs.
  rewrite to_ascii_lowercase_idem, bool_decide_eq_true_2 by done. cbn [andb].
  rewrite Huh in Hne, Hctl. rewrite Huh, (authority_host_wf a h (up_port u) Ha Hsh Hne Hctl).
  cbn [andb].
  assert (match up_port u with Some p => (1 <=? p) && (p <=? U16_MAX) | None => true end = true) as ->.
  { destruct Hsh as [? [p|] ? ? Hport|? [p|] ? ? ? Hport]; try done;
      apply andb_true_iff; rewrite !N.leb_le; lia. }
  by destruct (up_query u).
Qed.

(** ** Printing a URL and parsing it back *)

Lemma host_wf_elim host :
  host_wf host = true ->
  host <> [] /\ to_ascii_lowercase host = host /\
  existsb (fun c => is_control c || is_whitespace c) host = false /\
  authority_clean host = true /\ Forall (fun c => is_bracket c = false) host /\
  (no_char (ch ":") host = true \/ is_some (parse_ipv6 host) = true).
Proof.
  unfold host_wf, authority_clean. rewrite !andb_true_iff, orb_true_iff, bool_decide_eq_true.
  intros ((((((((H1 & H2) & H3) & H4) & H5) & H6) & H7) & H8) & H9).
  rewrite H4, H5, H6, H7. rewrite forallb_negb_existsb, negb_true_iff in H3.
  do 4 (split; [by destruct host|]). split; [|done].
  rewrite forallb_Forall in H8. eapply Forall_impl; [exact H8|]. intros c. by rewrite negb_true_iff.
Qed.

Lemma format_authority_host_plain host :
  Forall (fun c => is_bracket c = false) host ->
  format_authority_host host =
  if contains_char (ch ":") host then lit "[" ++ host ++ lit "]" else host.
Proof.
  intros Hb. unfold format_authority_host. destruct host as [|c host]; [done|].
  assert (strip_prefix [ch "["] (c :: host) = None) as ->; [|done].
  apply strip_prefix_None. intros r [= -> ->]. by apply Forall_cons in Hb as [? _].
Qed.

Definition print_port (port : option N) : str :=
  match port with Some p => lit ":" ++ show_N p | None => [] end.

Lemma parse_printed_authority host port :
  host_wf host = true -> match port with Some p => 1 <= p <= U16_MAX | None => True end ->
  exists h, parse_absolute_authority (format_authority_host host ++ print_port port) = Ok (h, port) /\
    trim_matches is_bracket h = host.
Proof.
  intros (Hne & Hl & _ & Ha & Hb & Hi)%host_wf_elim Hp.
  rewrite format_authority_host_plain by done. unfold parse_absolute_authority, mbind, result_bind.
  destruct (contains_char (ch ":") host) eqn:Ec.
  - destruct Hi as [Hi|Hi]; [by unfold no_char in Hi; rewrite Ec in Hi|].
    destruct (parse_ipv6 host) as [addr|] eqn:Eip; [|done].
    exists (lit "[" ++ host ++ lit "]"). split; [|by apply trim_matches_wrap; [repeat constructor..|]].
    assert (split_once [ch "]"] ((lit "[" ++ host ++ lit "]") ++ print_port port)
      = Some (lit "[" ++ host, print_port port)) as ->.
    { rewrite !app_assoc, <- (app_assoc _ (lit "]")). apply split_once_char_first.
      apply no_char_spec. rewrite no_char_app. apply andb_true_iff. split; [done|].
      apply no_char_spec. intros Hin. rewrite Forall_forall in Hb. by specialize (Hb _ Hin). }
    change (starts_with [ch "["] _) with true. cbv iota.
    change (drop 1 (lit "[" ++ host)) with host. rewrite Eip.
    destruct port as [p|]; simpl; [|done].
    change (strip_prefix [ch ":"] (lit ":" ++ show_N p)) with (Some (show_N p)).
    cbv iota. rewrite parse_absolute_port_show by done. done.
  - exists host. split; [|by apply trim_matches_none].
    assert (starts_with [ch "["] (host ++ print_port port) = false) as ->.
    { destruct host as [|c host]; [done|]. apply not_true_iff_false. rewrite starts_with_true.
      intros [r [= -> _]]. by apply Forall_cons in Hb as [? _]. }
    assert (existsb is_bracket (host ++ print_port port) = false) as ->.
    { rewrite existsb_app. apply orb_false_iff. split.
      - apply not_true_iff_false. rewrite existsb_exists. intros (c & Hin & Hc).
        apply list_elem_of_In in Hin. rewrite Forall_forall in Hb. rewrite (Hb c Hin) in Hc. done.
      - destruct port as [p|]; [|done]. cbn [print_port]. rewrite existsb_app.
        apply orb_false_iff. split; [done|]. apply not_true_iff_false. rewrite existsb_exists.
        intros (c & Hin & Hc). apply list_elem_of_In in Hin.
        pose proof (show_N_digits p) as Hd. rewrite Forall_forall in Hd. specialize (Hd c Hin).
        apply orb_true_iff in Hc as [Hc|Hc]; apply N.eqb_eq in Hc as ->; done. }
    destruct port as [p|]; cbn [print_port].
    + assert (rsplit_once_char (ch ":") (host ++ lit ":" ++ show_N p) = Some (host, show_N p)) as ->.
      { apply rsplit_once_char_Some. split; [done|]. apply no_char_spec. by apply show_N_no_char. }
      rewrite Ec. destruct host; [done|]. simpl. by rewrite parse_absolute_port_show.
    + rewrite app_nil_r.
      assert (rsplit_once_char (ch ":") host = None) as ->; [|done].
      apply rsplit_once_char_None. by apply contains_char_false.
Qed.

Lemma origin_form_split u :
  url_wf u = true ->
  split_path_query (origin_form u) = (up_path u, up_query (drop_empty_query u)) /\
  no_char (ch "#") (origin_form u) = true /\ exists tl, origin_form u = ch "/" :: tl.
Proof.
  unfold url_wf. rewrite !andb_true_iff. intros ((((_ & H1) & H2) & H3) & H4).
  apply starts_with_true in H1 as [tl H1]. unfold origin_form, drop_empty_query, split_path_query.
  cbn [up_query]. apply no_char_spec in H2.
  assert (split_once [ch "?"] (up_path u) = None) as Hnone by (by apply split_once_char_None).
  assert (strip_prefix [ch "?"] (up_path u) = None) as Hstrip.
  { apply strip_prefix_None. intros r Hr. rewrite Hr in H2. set_solver. }
  destruct (up_query u) as [[|c q]|]; cbn [is_emptyb negb].
  - rewrite Hnone, Hstrip. eauto.
  - change (lit "?" ++ c :: q) with (ch "?" :: c :: q).
    rewrite (split_once_char_first (ch "?") (up_path u)) by done.
    split; [by rewrite H1|]. split; [|rewrite H1; by eexists].
    change (ch "?" :: c :: q) with (lit "?" ++ c :: q). by rewrite !no_char_app, H3, H4.
  - rewrite Hnone, Hstrip. eauto.
Qed.

Lemma parse_url_to_string u :
  url_wf u = true -> UrlParts_parse (url_to_string u) = Ok (drop_empty_query u).
Proof.
  intros Hwf. destruct (origin_form_split u Hwf) as (Hsplit & Hhash & tl & Htl).
  unfold url_wf in Hwf. rewrite !andb_true_iff in Hwf.
  destruct Hwf as (((((((Hs & Hsl) & Hh) & Hp) & _) & _) & _) & _).
  apply bool_decide_eq_true in Hsl.
  assert (match up_port u with Some p => 1 <= p <= U16_MAX | None => True end) as Hp'.
  { destruct (up_port u); [|done]. by rewrite andb_true_iff, !N.leb_le in Hp. }
  destruct (parse_printed_authority (up_host u) (up_port u) Hh Hp') as (h & Hauth & Htrim).
  assert (url_to_string u = up_scheme u ++ lit "://" ++
    (format_authority_host (up_host u) ++ print_port (up_port u)) ++ origin_form u) as ->.
  { unfold url_to_string, format_host_port. destruct (up_port u); simpl; by rewrite ?app_nil_r. }
  set (a := format_authority_host _ ++ _) in *.
  assert (authority_clean a = true /\ a <> []) as [Hclean Hane].
  { apply host_wf_elim in Hh as (Hne & _ & _ & Hc & Hb & _). subst a.
    rewrite format_authority_host_plain by done. split.
    - unfold authority_clean in *. rewrite !no_char_app.
      destruct (contains_char (ch ":") (up_host u)), (up_port u); cbn [print_port];
        rewrite ?no_char_app, ?(show_N_no_char (ch "/")), ?(show_N_no_char (ch "?")),
          ?(show_N_no_char (ch "#")), ?(show_N_no_char (ch "@")) by done; simpl;
        rewrite ?andb_true_r; exact Hc.
    - by destruct (contains_char _ _), (up_host u). }
  clearbody a. unfold UrlParts_parse, mbind, result_bind.
  change (lit "://") with (ch ":" :: lit "//").
  rewrite split_once_head_absent by (apply no_char_spec; by eapply scheme_no_char).
  cbn [ok_or]. rewrite Hs. cbn [negb].
  pose proof (authority_clean_elim a Hclean) as (Ha1 & Ha2 & Ha3 & Ha4).
  assert (contains_char (ch "#") (up_scheme u ++ (ch ":" :: lit "//") ++ a ++ origin_form u) = false) as ->.
  { apply contains_char_false, no_char_spec. rewrite !no_char_app, Ha3, Hhash.
    by rewrite (scheme_no_char (ch "#")). }
  rewrite Htl, find_split_app, <- Htl; [| |done].
  2: { apply Forall_forall. intros c Hc. apply orb_false_iff.
       apply no_char_spec in Ha1, Ha2. rewrite !N.eqb_neq. split; congruence. }
  assert (is_emptyb a = false) as -> by (by destruct a).
  unfold no_char in Ha4. rewrite negb_true_iff in Ha4. rewrite Ha4, Hauth, Htrim.
  apply host_wf_elim in Hh as (Hne & Hl & Hctl & _). rewrite Hl, Hctl.
  assert (is_emptyb (up_host u) = false) as -> by (by destruct (up_host u)).
  by rewrite Hsplit, Hsl.
Qed.

(** ** Properties *)

(** every accepted URL is normalised (lower-case valid scheme and host, a
    host without whitespace, controls, separators or brackets, a port in
    1..65535, an absolute path, no fragment), and printing it gives text that
    parses back to the same parts, an explicitly empty query aside. *)
Theorem url_parse_print_roundtrip (input : str) (u : UrlParts) :
  UrlParts_parse input = Ok u ->
  url_wf u = true /\ UrlParts_parse (url_to_string u) = Ok (drop_empty_query u).
Proof.
  intros H. apply UrlParts_parse_wf_lemma in H. split; [done|]. by apply parse_url_to_string.
Qed.

Lemma url_parse_print_roundtrip_witness :
  UrlParts_parse (lit "HTTPS://[2001:DB8::1]:8443?x=1") =
    Ok (mkUrlParts (lit "https") (lit "2001:db8::1") (Some 8443) (lit "/") (Some (lit "x=1"))) /\
  UrlParts_parse (lit "https://[2001:db8::1]:8443/?x=1") =
    Ok (mkUrlParts (lit "https") (lit "2001:db8::1") (Some 8443) (lit "/") (Some (lit "x=1"))).
Proof.
  split; [vm_compute; reflexivity|].
  refine (eq_trans _ (proj2 (url_parse_print_roundtrip
    (lit "HTTPS://[2001:DB8::1]:8443?x=1") _ ltac:(vm_compute; reflexivity)))).
  vm_compute. reflexivity.
Defined.

(** Replacing a valid scheme by another valid scheme changes the scheme only. *)
Lemma parse_replaced_scheme scheme rest s' u :
  no_char (ch ":") scheme = true -> valid_absolute_scheme s' = true ->
  UrlParts_parse (scheme ++ lit "://" ++ rest) = Ok u ->
  UrlParts_parse (s' ++ lit "://" ++ rest) =
    Ok (mkUrlParts (to_ascii_lowercase s') (up_host u) (up_port u) (up_path u) (up_query u)).
Proof.
  intros Hc Hv. unfold UrlParts_parse. change (lit "://") with (ch ":" :: lit "//").
  assert (ch ":" ∉ scheme) as Hc1 by (by apply no_char_spec).
  assert (ch ":" ∉ s') as Hc2 by (apply no_char_spec; by eapply scheme_no_char).
  rewrite (split_once_head_absent _ _ scheme rest Hc1), (split_once_head_absent _ _ s' rest Hc2).
  unfold mbind, result_bind. cbn [ok_or]. rewrite Hv. cbn [negb].
  destruct (valid_absolute_scheme scheme) eqn:Ev; [|done]. cbn [negb].
  destruct (contains_char (ch "#") (scheme ++ _)) eqn:Eh; [done|].
  assert (contains_char (ch "#") (s' ++ (ch ":" :: lit "//") ++ rest) = false) as ->.
  { apply contains_char_false, no_char_spec. apply contains_char_false, no_char_spec in Eh.
    rewrite !no_char_app, !andb_true_iff in Eh. destruct Eh as (_ & H1 & H2).
    by rewrite !no_char_app, H1, H2, (scheme_no_char (ch "#")). }
  destruct (match find_split _ rest with Some _ => _ | None => _ end) as [a pq].
  destruct (is_emptyb a); [done|]. destruct (contains_char (ch "@") a); [done|].
  destruct (parse_absolute_authority a) as [[h p]|]; [|done].
  destruct (is_emptyb _); [done|]. destruct (existsb _ _); [done|].
  destruct (split_path_query pq) as [path query]. by intros [= <-].
Qed.

(** Presenting a WebSocket URL to the transport as HTTP(S) succeeds for
    every accepted URL and changes at most its scheme (ws to http, wss to
    https); host, port, path and query are kept. *)
Theorem websocket_transport_keeps_target (url : str) (u : UrlParts) :
  UrlParts_parse url = Ok u ->
  exists url', normalize_websocket_transport_scheme url = Ok url' /\
    UrlParts_parse url' = Ok (mkUrlParts
      (if up_scheme u =s? lit "ws" then lit "http"
       else if up_scheme u =s? lit "wss" then lit "https" else up_scheme u)
      (up_host u) (up_port u) (up_path u) (up_query u)).
Proof.
  intros H. unfold normalize_websocket_transport_scheme, mbind, result_bind. rewrite H.
  eexists. split; [reflexivity|]. unfold replace_url_scheme, mbind, option_bind.
  destruct (split_once (lit "://") url) as [[scheme rest]|] eqn:Es.
  2: { unfold UrlParts_parse in H. by rewrite Es in H. }
  pose proof (split_once_Some _ _ _ _ Es) as Hurl.
  assert (no_char (ch ":") scheme = true).
  { unfold UrlParts_parse in H. rewrite Es in H. unfold mbind, result_bind in H. simpl in H.
    destruct (valid_absolute_scheme scheme) eqn:Ev; [|done]. by eapply scheme_no_char. }
  case_bool_decide; [|case_bool_decide]; cbn [unwrap_or].
  - rewrite Hurl in H. by apply (parse_replaced_scheme _ _ (lit "http")) in H.
  - rewrite Hurl in H. by apply (parse_replaced_scheme _ _ (lit "https")) in H.
  - rewrite H. by destruct u.
Qed.

Lemma websocket_transport_keeps_target_witness :
  exists url', normalize_websocket_transport_scheme (lit "WSS://h:1/p") = Ok url' /\
    UrlParts_parse url' = Ok (mkUrlParts (lit "https") (lit "h") (Some 1) (lit "/p") None).
Proof.
  exact (websocket_transport_keeps_target (lit "WSS://h:1/p")
    (mkUrlParts (lit "wss") (lit "h") (Some 1) (lit "/p") None) ltac:(vm_compute; reflexivity)).
Defined.

Lemma existsb_false_Forall {A} (P : A -> bool) l :
  existsb P l = false -> Forall (fun x => P x = false) l.
Proof.
  intros H. apply (f_equal negb) in H. rewrite <- forallb_negb_existsb, forallb_Forall in H.
  eapply Forall_impl; [exact H|]. intros c Hc. by apply negb_true_iff.
Qed.

(** an accepted redirect location cannot break out of its header line or
    change the redirect scheme: its bytes contain no whitespace, control or
    backslash, and a location with a scheme is an http(s) URL with a valid
    host. *)
Theorem redirect_location_safe (value : str) :
  validate_redirect_location value = Ok tt ->
  Forall (fun b => 32 < b /\ b <> 127 /\ b <> 92) (encode value) /\ value <> [] /\
  forall scheme rest,
    split_once [ch ":"] (match split_once [ch "#"] value with Some (b, _) => b | None => value end)
      = Some (scheme, rest) ->
    valid_absolute_scheme scheme = true ->
    (to_ascii_lowercase scheme = lit "http" \/ to_ascii_lowercase scheme = lit "https") /\
    exists u, UrlParts_parse
      (match split_once [ch "#"] value with Some (b, _) => b | None => value end) = Ok u /\
      url_wf u = true.
Proof.
  unfold validate_redirect_location. destruct (is_emptyb value) eqn:Ee; [done|].
  destruct (existsb _ (encode value)) eqn:Eb; [done|].
  destruct (validate_percent_encoding (encode value)); [|done]. unfold mbind, result_bind.
  set (reference := match split_once [ch "#"] value with Some _ => _ | None => _ end).
  intros H. split_and!.
  - apply existsb_false_Forall in Eb. eapply Forall_impl; [exact Eb|]. simpl. intros b Hb.
    rewrite !orb_false_iff, N.leb_gt, !N.eqb_neq in Hb. tauto.
  - by destruct value.
  - intros scheme rest Hs Hv. rewrite Hs, Hv in H.
    assert (is_emptyb reference = false) as Hne by (by destruct reference).
    rewrite Hne in H. cbv zeta in H.
    destruct (_ || _) eqn:Es; [|done]. cbn [negb] in H.
    split; [rewrite orb_true_iff, !bool_decide_eq_true in Es; tauto|].
    destruct (UrlParts_parse reference) as [u|] eqn:Eu; [|done].
    exists u. split; [done|]. by apply UrlParts_parse_wf_lemma in Eu.
Qed.

Lemma redirect_location_safe_witness :
  validate_redirect_location (lit "https://a.b/c%20d#x") = Ok tt /\
  Forall (fun b => 32 < b /\ b <> 127 /\ b <> 92) (encode (lit "https://a.b/c%20d#x")).
Proof.
  split; [vm_compute; reflexivity|].
  exact (proj1 (redirect_location_safe (lit "https://a.b/c%20d#x") ltac:(vm_compute; reflexivity))).
Defined.
