(* ===== verification/Syntax.v ===== *)
(** * Tokens, calls and values of the rule language

    crates/rsproxy-rules/src/parser/lexer.rs and parser/syntax.rs.  Positions in
    a text are the text before and behind them; the spans of tokens are byte
    offsets. *)
From Stdlib Require Import Ascii String.
From stdpp Require Import base numbers list gmap strings.
From S2P Require Import Prelude Family NetAddr Model.

Definition MAX_PARSE_NESTING : N := 32.
Definition MAX_RULE_CALL_ARGUMENTS : nat := 256.
Definition QUOTE : char := 34.
Definition APOSTROPHE : char := 39.
Definition is_quote (c : char) : bool := (c =? QUOTE) || (c =? APOSTROPHE).

Module Syntax.

(** ** Tokens (lexer.rs) *)

Record RuleToken := mkRuleToken { tk_text : str; tk_start : N; tk_end : N }.

Record LexState := mkLexState {
  lx_tokens : list RuleToken;
  lx_current : str;
  lx_start : option N;
  lx_paren : N;
  lx_quote : option char;
  lx_escaped : bool;
}.
Definition lex_start : LexState := mkLexState [] [] None 0 None false.
Definition lex_push (st : LexState) (c : char) (paren : N) (quote : option char) (escaped : bool) : LexState :=
  mkLexState (lx_tokens st) (lx_current st ++ [c]) (lx_start st) paren quote escaped.
(** The tokens with the one that ends at [index], if any. *)
Definition lex_flush (st : LexState) (index : N) : list RuleToken :=
  if is_emptyb (lx_current st) then lx_tokens st
  else lx_tokens st ++ [mkRuleToken (lx_current st) (unwrap_or (lx_start st) 0) index].

Definition nesting_error (what : str) : RuleModelError :=
  LimitExceeded (what ++ lit " nesting")
    (what ++ lit " nesting exceeds " ++ show_N MAX_PARSE_NESTING ++ lit " levels").

Definition lex_char (st : LexState) (index : N) (c : char) : Result RuleModelError LexState :=
  let st :=
    if negb (is_some (lx_start st)) && negb (is_whitespace c)
    then mkLexState (lx_tokens st) (lx_current st) (Some index) (lx_paren st) (lx_quote st) (lx_escaped st)
    else st in
  if lx_escaped st then Ok (lex_push st c (lx_paren st) (lx_quote st) false)
  else if c =? ch "\" then Ok (lex_push st c (lx_paren st) (lx_quote st) true)
  else
    match lx_quote st with
    | Some q => Ok (lex_push st c (lx_paren st) (if c =? q then None else Some q) false)
    | None =>
        if is_quote c then Ok (lex_push st c (lx_paren st) (Some c) false)
        else if c =? ch "(" then
          if MAX_PARSE_NESTING <? lx_paren st + 1 then Err (nesting_error (lit "rule"))
          else Ok (lex_push st c (lx_paren st + 1) None false)
        else if c =? ch ")" then
          if lx_paren st =? 0 then Err (InvalidSyntax (lit "rule") (lit "unmatched `)`"))
          else Ok (lex_push st c (lx_paren st - 1) None false)
        else if is_whitespace c && (lx_paren st =? 0) then
          Ok (mkLexState (lex_flush st index) [] None (lx_paren st) None false)
        else Ok (lex_push st c (lx_paren st) None false)
    end.
Fixpoint lex_loop (st : LexState) (index : N) (input : str) : Result RuleModelError (LexState * N) :=
  match input with
  | [] => Ok (st, index)
  | c :: rest => st ← lex_char st index c; lex_loop st (index + char_len_utf8 c) rest
  end.
Definition tokenize (input : str) : Result RuleModelError (list RuleToken) :=
  '(st, index) ← lex_loop lex_start 0 input;
  if is_some (lx_quote st) then Err (InvalidSyntax (lit "rule") (lit "unterminated quote"))
  else if negb (lx_paren st =? 0) then Err (InvalidSyntax (lit "rule") (lit "unclosed `(`"))
  else Ok (lex_flush st index).

(** ** Quoting and comments (syntax.rs) *)

Fixpoint strip_comment_loop (quote : option char) (escaped : bool) (input : str) : str :=
  match input with
  | [] => []
  | c :: rest =>
      if escaped then c :: strip_comment_loop quote false rest
      else if c =? ch "\" then c :: strip_comment_loop quote true rest
      else
        match quote with
        | Some q => c :: strip_comment_loop (if c =? q then None else Some q) false rest
        | None =>
            if is_quote c then c :: strip_comment_loop (Some c) false rest
            else if c =? ch "#" then []
            else c :: strip_comment_loop None false rest
        end
  end.
Definition strip_comment (input : str) : option str :=
  let out := strip_comment_loop None false input in
  if is_emptyb (trim out) then None else Some out.

Fixpoint unescape (escaped : bool) (inner : str) : str :=
  match inner with
  | [] => []
  | c :: rest =>
      if escaped then
        (if c =? ch "n" then 10 else if c =? ch "r" then 13 else if c =? ch "t" then 9 else c) :: unescape false rest
      else if c =? ch "\" then unescape true rest
      else c :: unescape false rest
  end.
Definition enclosed (q : char) (s : str) : bool := starts_with [q] s && ends_with [q] s.
Definition unquote (input : str) : str :=
  let input := trim input in
  if negb (enclosed QUOTE input || enclosed APOSTROPHE input) || (len input <? 2) then input
  else unescape false (removelast (drop 1 input)).

(** ** Arguments (syntax.rs) *)

(** [regex_end_at_argument_boundary]: the number of characters between the
    slash and the closing one. *)
Fixpoint regex_end_at_argument_boundary (escaped character_class : bool) (offset : nat) (rest : str) : option nat :=
  match rest with
  | [] => None
  | c :: rest' =>
      let continue escaped character_class :=
        regex_end_at_argument_boundary escaped character_class (S offset) rest' in
      if escaped then continue false character_class
      else if c =? ch "\" then continue true character_class
      else if c =? ch "[" then continue false true
      else if (c =? ch "]") && character_class then continue false false
      else if (c =? ch "/") && negb character_class &&
              match find (fun c => negb (is_whitespace c)) rest' with Some c => c =? ch "," | None => true end
      then Some offset
      else continue false character_class
  end.

Record ArgState := mkArgState {
  ag_args : list str;
  ag_current : str;
  (** the last character before this one that is no whitespace *)
  ag_last : option char;
  (** how many characters a regex literal still has *)
  ag_regex : nat;
  ag_escaped : bool;
  ag_quote : option char;
  ag_angle : N;
  ag_brace : N;
  ag_bracket : N;
  ag_paren : N;
}.
Definition arg_start : ArgState := mkArgState [] [] None 0 false None 0 0 0 0.
Definition begins_file_value (last : option char) : bool :=
  match last with Some c => (c =? ch ",") || (c =? ch "(") || (c =? ch "=") | None => true end.
Definition begins_regex_value (last : option char) : bool :=
  match last with Some c => begins_file_value (Some c) || (c =? ch "~") | None => true end.

(** The character belongs to the argument. *)
Definition arg_push (st : ArgState) (c : char) (regex : nat) (escaped : bool) (quote : option char)
    (angle brace bracket paren : N) : ArgState :=
  mkArgState (ag_args st) (ag_current st ++ [c]) (if is_whitespace c then ag_last st else Some c) regex escaped quote
    angle brace bracket paren.
Definition arg_nest (st : ArgState) (c : char) (angle brace bracket paren : N) : Result RuleModelError ArgState :=
  if MAX_PARSE_NESTING <? angle + brace + bracket + paren then Err (nesting_error (lit "call"))
  else Ok (arg_push st c 0 false None angle brace bracket paren).
Definition push_argument (args : list str) (argument empty_message : str) : Result RuleModelError (list str) :=
  if is_emptyb argument then Err (EmptyInput (lit "call argument") empty_message)
  else if (length args =? MAX_RULE_CALL_ARGUMENTS)%nat then
    Err (LimitExceeded (lit "call argument count")
           (lit "call exceeds the " ++ show_N (N.of_nat MAX_RULE_CALL_ARGUMENTS) ++ lit "-argument limit"))
  else Ok (args ++ [argument]).
Definition unmatched (c : string) : RuleModelError :=
  InvalidSyntax (lit "call argument") (lit "unmatched `" ++ lit c ++ lit "`").

Definition arg_char (st : ArgState) (c : char) (rest : str) : Result RuleModelError ArgState :=
  let '(mkArgState args current last regex escaped quote angle brace bracket paren) := st in
  let keep regex escaped quote := Ok (arg_push st c regex escaped quote angle brace bracket paren) in
  match regex with
  | S regex' => keep regex' escaped quote
  | O =>
      match (if (c =? ch "/") && begins_regex_value last
             then regex_end_at_argument_boundary false false 0 rest else None) with
      | Some offset => keep (S offset) escaped quote
      | None =>
          if escaped then keep O false quote
          else if c =? ch "\" then keep O true quote
          else
            match quote with
            | Some q => keep O false (if c =? q then None else Some q)
            | None =>
                if is_quote c then keep O false (Some c)
                else if c =? ch "(" then arg_nest st c angle brace bracket (paren + 1)
                else if c =? ch ")" then
                  if paren =? 0 then Err (unmatched ")")
                  else Ok (arg_push st c 0 false None angle brace bracket (paren - 1))
                else if (c =? ch "<") && begins_file_value last then arg_nest st c (angle + 1) brace bracket paren
                else if (c =? ch ">") && (0 <? angle) then Ok (arg_push st c 0 false None (angle - 1) brace bracket paren)
                else if c =? ch "{" then arg_nest st c angle (brace + 1) bracket paren
                else if c =? ch "}" then
                  if brace =? 0 then Err (unmatched "}")
                  else Ok (arg_push st c 0 false None angle (brace - 1) bracket paren)
                else if c =? ch "[" then arg_nest st c angle brace (bracket + 1) paren
                else if c =? ch "]" then
                  if bracket =? 0 then Err (unmatched "]")
                  else Ok (arg_push st c 0 false None angle brace (bracket - 1) paren)
                else if (c =? ch ",") && (angle =? 0) && (brace =? 0) && (bracket =? 0) && (paren =? 0) then
                  args ← push_argument args (trim current) (lit "call arguments must not be empty");
                  Ok (mkArgState args [] (Some c) 0 false None angle brace bracket paren)
                else keep O false None
            end
      end
  end.
Fixpoint arg_loop (st : ArgState) (input : str) : Result RuleModelError ArgState :=
  match input with
  | [] => Ok st
  | c :: rest => st ← arg_char st c rest; arg_loop st rest
  end.
Definition unclosed (c : string) : RuleModelError :=
  InvalidSyntax (lit "call argument") (lit "unclosed `" ++ lit c ++ lit "`").
Definition split_args (input : str) : Result RuleModelError (list str) :=
  if is_emptyb (trim input) then Ok []
  else
    st ← arg_loop arg_start input;
    if is_some (ag_quote st) then Err (InvalidSyntax (lit "call argument") (lit "unterminated quote"))
    else if negb (ag_angle st =? 0) then Err (unclosed "<")
    else if negb (ag_brace st =? 0) then Err (unclosed "{")
    else if negb (ag_bracket st =? 0) then Err (unclosed "[")
    else if negb (ag_paren st =? 0) then Err (unclosed "(")
    else push_argument (ag_args st) (trim (ag_current st))
           (lit "call arguments must not be empty or end with a comma").

(** ** Calls and values (syntax.rs) *)

Definition expected_call (input : str) : RuleModelError :=
  InvalidSyntax (lit "call") (lit "expected call syntax: " ++ input).
Definition parse_call (input : str) : Result RuleModelError (str * list str) :=
  match split_once [ch "("] input with
  | None => Err (expected_call input)
  | Some (name, rest) =>
      match strip_suffix [ch ")"] rest with
      | None => Err (InvalidSyntax (lit "call") (lit "call must end with `)`: " ++ input))
      | Some body =>
          if is_emptyb name then Err (EmptyInput (lit "call name") (lit "call name is empty"))
          else args ← split_args body; Ok (name, args)
      end
  end.
Definition one_argument (action : str) : RuleModelError :=
  MissingArgument (lit "action argument") (action ++ lit " requires exactly one argument").
Definition require_one (args : list str) (action : str) : Result RuleModelError str :=
  match args with
  | [arg] => if is_emptyb (trim arg) then Err (one_argument action) else Ok (trim arg)
  | _ => Err (one_argument action)
  end.
(** The caller has checked that the input is a call. *)
Definition require_call_body (input action : str) : Result RuleModelError str :=
  match split_once [ch "("] input with
  | None => Err (expected_call input)
  | Some (_, rest) =>
      let body := trim (removelast rest) in
      if is_emptyb body then Err (one_argument action) else Ok body
  end.

Definition parse_value (input : str) : Result RuleModelError Value.t :=
  let input := trim input in
  if negb (Bool.eqb (starts_with [ch "<"] input) (ends_with [ch ">"] input)) then
    Err (InvalidSyntax (lit "file value") (lit "file values must use a paired `<path>` delimiter"))
  else
    match strip_prefix [ch "<"] input ≫= strip_suffix [ch ">"] with
    | Some path =>
        if is_emptyb (trim path) then
          Err (EmptyInput (lit "file value path") (lit "file value path must not be empty"))
        else if contains_char 0 path then
          Err (InvalidInput (lit "file value path") (lit "file value path must not contain NUL"))
        else Ok (Value.File path)
    | None =>
        match strip_prefix [ch "@"] input with
        | Some key =>
            if valid_value_key key then Ok (Value.Reference key)
            else
              Err (InvalidInput (lit "value key")
                     (lit "invalid value key `" ++ key ++
                      lit "`; use 1-128 ASCII letters, digits, dot, underscore, or hyphen"))
        | None => Ok (Value.Inline (unquote input))
        end
    end.

Definition integer_error {A} (context input message : str) (r : Result IntErrorKind A) : Result RuleModelError A :=
  map_err (InvalidInteger context input message) r.
Definition checked_scaled_number (value : F64) (multiplier : N) (context input : str) (allow_zero : bool)
    : Result RuleModelError N :=
  let scaled := f64_mul value (f64_of_N multiplier) in
  if negb (is_finite value) || is_sign_negative value || negb (is_finite scaled) ||
     f64_ge scaled (2 ^ 64) 1 || (negb allow_zero && f64_lt scaled 1 2)
  then Err (ConstraintViolation context
              (context ++ lit " `" ++ input ++ lit "` is outside the supported finite range"))
  else Ok (round_as U64_MAX scaled).
Definition parse_duration_ms (input : str) : Result RuleModelError N :=
  let message := lit "invalid duration `" ++ input ++ lit "`" in
  match strip_suffix (lit "ms") input with
  | Some ms => integer_error (lit "duration") input message (parse_uint U64_MAX ms)
  | None =>
      match strip_suffix (lit "s") input with
      | Some sec =>
          value ← ok_or (parse_f64 sec) (InvalidFloat (lit "duration") input message);
          checked_scaled_number value 1000 (lit "duration") input true
      | None => integer_error (lit "duration") input message (parse_uint U64_MAX input)
      end
  end.
(** The number of a speed and its unit. *)
Definition speed_unit (raw : str) : str * N :=
  match strip_suffix (lit "kb") raw with
  | Some value => (value, 1024)
  | None =>
      match strip_suffix (lit "k") raw with
      | Some value => (value, 1024)
      | None =>
          match strip_suffix (lit "mb") raw with
          | Some value => (value, 1024 * 1024)
          | None =>
              match strip_suffix (lit "m") raw with
              | Some value => (value, 1024 * 1024)
              | None =>
                  match strip_suffix (lit "b") raw with
                  | Some value => (value, 1)
                  | None => (raw, 1)
                  end
              end
          end
      end
  end.
Definition parse_speed_bps (input : str) : Result RuleModelError N :=
  let lower := to_ascii_lowercase input in
  let raw := unwrap_or (strip_suffix (lit "/s") lower) lower in
  let '(number, multiplier) := speed_unit raw in
  value ← ok_or (parse_f64 number) (InvalidFloat (lit "speed") input (lit "invalid speed `" ++ input ++ lit "`"));
  bytes ← checked_scaled_number value multiplier (lit "speed") input false;
  if bytes =? 0 then Err (ConstraintViolation (lit "speed") (lit "speed must be greater than zero"))
  else Ok bytes.
End Syntax.

(** * The surface of the rule language

    crates/rsproxy-rules/src/language.rs: the limits, the spellings of actions,
    conditions and properties and their canonical names.  The help topics of a
    spelling are left out. *)

Definition RULE_LANGUAGE_VERSION : N := 3.
Definition RULE_LANGUAGE_HEADER : str := lit "@language 3".
Definition MAX_RULE_SNAPSHOT_SOURCE_BYTES : N := 16 * 1024 * 1024.
Definition MAX_RULE_GROUP_NAME_BYTES : N := 128.
Definition MAX_RULE_GROUPS_PER_SNAPSHOT : N := 1024.
Definition MAX_RULES_PER_SNAPSHOT : N := 10000.
Definition MAX_RULE_ACTIONS_PER_RULE : N := 256.
Definition MAX_RULE_ACTIONS_PER_SNAPSHOT : N := 100000.
Definition MAX_RULE_CONDITION_NODES_PER_RULE : N := 256.
Definition MAX_RULE_CONDITION_NODES_PER_SNAPSHOT : N := 100000.
Definition MAX_RULE_BODY_CONDITIONS_PER_SNAPSHOT : N := 256.
Definition MAX_RULE_PROPERTIES_PER_RULE : N := 64.
Definition MIN_HTTP_STATUS : N := 100.
Definition MAX_HTTP_STATUS : N := 599.
Definition MIN_FINAL_HTTP_STATUS : N := 200.
Definition REDIRECT_STATUSES : list N := [301; 302; 303; 307; 308].

Definition is_http_token_byte (b : N) : bool :=
  is_ascii_alphanumeric b || contains_char b (lit "!#$%&'*+-.^_`|~").

(** [RuleSyntaxSpelling]; a prefix spelling carries a suffix. *)
Record RuleSyntaxSpelling := mkSpelling { sp_canonical : str; sp_aliases : list str; sp_prefix : bool }.
Definition spelling (canonical : string) (aliases : list string) : RuleSyntaxSpelling :=
  mkSpelling (lit canonical) (map lit aliases) false.
Definition has_suffix (input prefix : str) : bool :=
  match strip_prefix prefix input with Some suffix => negb (is_emptyb suffix) | None => false end.
Definition accepts (s : RuleSyntaxSpelling) (input : str) : bool :=
  if sp_prefix s then has_suffix input (sp_canonical s) || existsb (has_suffix input) (sp_aliases s)
  else (sp_canonical s =s? input) || existsb (fun alias => alias =s? input) (sp_aliases s).

Definition ACTION_SYNTAX : list RuleSyntaxSpelling :=
  [spelling "host" [];
   spelling "upstream" [];
   spelling "direct" [];
   spelling "mock" [];
   spelling "mock.raw" ["mockRaw"; "mock_raw"; "mock-raw"];
   spelling "map.remote" ["mapRemote"; "map_remote"; "map-remote"];
   spelling "status" [];
   spelling "redirect" [];
   spelling "req.header" [];
   spelling "res.header" [];
   spelling "res.status" [];
   spelling "req.method" [];
   spelling "req.cookie" [];
   spelling "res.cookie" [];
   spelling "req.ua" [];
   spelling "req.referer" [];
   spelling "req.auth" [];
   spelling "req.forwarded" [];
   spelling "req.type" [];
   spelling "req.charset" [];
   spelling "res.cors" [];
   spelling "res.type" [];
   spelling "res.charset" [];
   spelling "res.merge" [];
   spelling "res.trailer" [];
   spelling "attachment" [];
   spelling "cache" [];
   spelling "tls" [];
   spelling "url.rewrite" [];
   spelling "url.query" [];
   spelling "delete" [];
   spelling "req.body.set" [];
   spelling "req.body.prepend" [];
   spelling "req.body.append" [];
   spelling "req.body.replace" [];
   spelling "res.body.set" [];
   spelling "res.body.prepend" [];
   spelling "res.body.append" [];
   spelling "res.body.replace" [];
   spelling "inject" [];
   spelling "delay" [];
   spelling "throttle" [];
   spelling "bypass" [];
   spelling "hide" [];
   spelling "tag" [];
   spelling "skip" []].

Definition CONDITION_SYNTAX : list RuleSyntaxSpelling :=
  [spelling "method" [];
   spelling "host" [];
   spelling "url" [];
   spelling "client.ip" ["clientIp"; "ip"; "client_ip"; "client-ip"];
   spelling "server.ip" ["serverIp"; "server_ip"; "server-ip"];
   spelling "header" [];
   spelling "res.header" ["resHeader"; "res_header"; "res-header"];
   spelling "body" [];
   spelling "status" [];
   spelling "chance" [];
   spelling "env" [];
   spelling "any" [];
   spelling "all" [];
   spelling "not" []].

Definition PROPERTY_SYNTAX : list RuleSyntaxSpelling :=
  [spelling "@important" []; spelling "@disabled" []; mkSpelling (lit "@tag:") [] true].

Definition canonical_name (spellings : list RuleSyntaxSpelling) (input : str) : option str :=
  sp_canonical <$> find (fun s => accepts s input) spellings.
Definition canonical_v3_name (spellings : list RuleSyntaxSpelling) (input : str) : option str :=
  sp_canonical <$> find (fun s => if sp_prefix s then has_suffix input (sp_canonical s)
                                  else sp_canonical s =s? input) spellings.
Definition canonical_action_name (input : str) : option str := canonical_name ACTION_SYNTAX input.
Definition canonical_v3_action_name (input : str) : option str := canonical_v3_name ACTION_SYNTAX input.
Definition canonical_condition_name (input : str) : option str := canonical_name CONDITION_SYNTAX input.
Definition canonical_v3_condition_name (input : str) : option str := canonical_v3_name CONDITION_SYNTAX input.

(** The first of [f] on the elements of a list. *)
Definition find_map {A B} (f : A -> option B) (l : list A) : option B := head (omap f l).
Definition canonical_property (input : str) : option (str * str) :=
  find_map (fun s =>
    if sp_prefix s
    then (fun suffix => (sp_canonical s, suffix)) <$>
         find_map (fun prefix => strip_prefix prefix input) (sp_canonical s :: sp_aliases s)
    else if (sp_canonical s =s? input) || existsb (fun alias => alias =s? input) (sp_aliases s)
         then Some (sp_canonical s, []) else None) PROPERTY_SYNTAX.
