(* ===== verification/SyntaxProofs.v ===== *)
(** * Tokens and arguments lose nothing

    The lexer covers a rule line, and quoted arguments are read back. *)
From Stdlib Require Import Ascii String.
From stdpp Require Import base numbers list gmap strings.
From S2P Require Import Prelude Family Utf8 Format NetAddr Model Syntax.
Import Syntax.

(** ** Tokens *)

Definition separated (s : str) : Prop := match last s with Some c => is_whitespace c = true | None => True end.
Definition begins_word (s : str) : Prop := match s with c :: _ => is_whitespace c = false | [] => False end.
(** [covers tokens s]: the text is the tokens in order at their byte spans, with
    nothing but whitespace between, before and behind them. *)
Inductive covers : list RuleToken -> str -> Prop :=
| covers_nil : covers [] []
| covers_space ts s c : covers ts s -> is_whitespace c = true -> covers ts (s ++ [c])
| covers_token ts s text :
    covers ts s -> separated s -> begins_word text ->
    covers (ts ++ [mkRuleToken text (len s) (len s + len text)]) (s ++ text).

(** The lexer's state after [s]. *)
Definition lexed (st : LexState) (s : str) : Prop :=
  exists s0, covers (lx_tokens st) s0 /\ separated s0 /\ s = s0 ++ lx_current st /\
    match lx_current st with
    | [] => st = mkLexState (lx_tokens st) [] None 0 None false
    | c :: _ => lx_start st = Some (len s0) /\ is_whitespace c = false
    end.
Lemma lexed_flush st s : lexed st s -> covers (lex_flush st (len s)) s.
Proof.
  intros (s0 & Hc & Hs & -> & H). unfold lex_flush. destruct (lx_current st) as [|c cur]; cbn [is_emptyb].
  - by rewrite app_nil_r.
  - destruct H as [-> H]. cbn [unwrap_or]. rewrite len_app. by constructor.
Qed.
Lemma lexed_push st s c start p q e :
  lexed st s -> (lx_current st = [] -> start = Some (len s) /\ is_whitespace c = false) ->
  (lx_current st <> [] -> start = lx_start st) ->
  lexed (mkLexState (lx_tokens st) (lx_current st ++ [c]) start p q e) (s ++ [c]).
Proof.
  intros (s0 & Hc & Hs & -> & H) H1 H2. exists s0. split_and!; [done|done|by rewrite <- app_assoc|].
  cbn [lx_current lx_start]. destruct (lx_current st) as [|c' cur]; cbn [app].
  - destruct H1 as [-> H1]; [done|]. by rewrite app_nil_r.
  - by rewrite H2.
Qed.
Lemma lexed_inside st s : lexed st s -> lx_current st <> [] -> exists n, lx_start st = Some n.
Proof. intros (s0 & _ & _ & _ & H) Hn. destruct (lx_current st); [done|]. destruct H as [-> _]. eauto. Qed.
Lemma lexed_outside st s : lexed st s -> lx_current st = [] -> st = mkLexState (lx_tokens st) [] None 0 None false.
Proof. intros (s0 & _ & _ & _ & H) Hn. by rewrite Hn in H. Qed.
Lemma lexed_space st s c : lexed st s -> is_whitespace c = true ->
  lexed (mkLexState (lex_flush st (len s)) [] None 0 None false) (s ++ [c]).
Proof.
  intros H Hc. exists (s ++ [c]). cbn [lx_tokens lx_current]. rewrite app_nil_r. split_and!; [|by unfold separated; rewrite last_snoc|done|done].
  apply covers_space; [by apply lexed_flush|done].
Qed.
Lemma lex_char_lexed st s c st' : lexed st s -> lex_char st (len s) c = Ok st' -> lexed st' (s ++ [c]).
Proof.
  intros H Hc. unfold lex_char in Hc.
  match type of Hc with context [if ?b then ?x else st] => set (st0 := if b then x else st) in Hc end.
  assert (H0 : lx_tokens st0 = lx_tokens st /\ lx_current st0 = lx_current st) by (subst st0; by destruct (_ && _)).
  assert (Hstart : (lx_current st = [] -> lx_escaped st0 = false /\ lx_quote st0 = None /\ lx_paren st0 = 0 /\
                      (is_whitespace c = false -> lx_start st0 = Some (len s))) /\
                   (lx_current st <> [] -> lx_start st0 = lx_start st)).
  { split.
    - intros Hn. pose proof (lexed_outside _ _ H Hn) as E. subst st0. rewrite E. cbn. by destruct (is_whitespace c).
    - intros Hn. destruct (lexed_inside _ _ H Hn) as [n Hs]. subst st0. by rewrite Hs. }
  clearbody st0. destruct H0 as [E1 E2], Hstart as [Hout Hin].
  assert (Hpush : forall p q e, (lx_current st = [] -> is_whitespace c = false) -> lexed (lex_push st0 c p q e) (s ++ [c])).
  { intros p q e Hw. unfold lex_push. rewrite E1, E2. apply lexed_push; [done| |done].
    intros Hn. destruct (Hout Hn) as (_ & _ & _ & Hs). split; [by apply Hs, Hw|by apply Hw]. }
  destruct (lx_escaped st0) eqn:Ee.
  { injection Hc as <-. apply Hpush. intros Hn. by destruct (Hout Hn) as (? & _). }
  destruct (c =? ch "\") eqn:Eb; [injection Hc as <-; apply Hpush; intros _; by bool_to_prop; subst|].
  destruct (lx_quote st0) as [q|] eqn:Eq.
  { injection Hc as <-. apply Hpush. intros Hn. by destruct (Hout Hn) as (_ & ? & _). }
  destruct (is_quote c) eqn:Eqc.
  { injection Hc as <-. apply Hpush. intros _. unfold is_quote in Eqc. apply orb_true_iff in Eqc as [|]; by bool_to_prop; subst. }
  destruct (c =? ch "(") eqn:Eo.
  { case_in Hc; [done|]. injection Hc as <-. apply Hpush. intros _. by bool_to_prop; subst. }
  destruct (c =? ch ")") eqn:Ecl.
  { case_in Hc; [done|]. injection Hc as <-. apply Hpush. intros _. by bool_to_prop; subst. }
  destruct (is_whitespace c && (lx_paren st0 =? 0)) eqn:Ew; injection Hc as <-.
  - apply andb_true_iff in Ew as [Ew Hp]. bool_to_prop. rewrite Hp. unfold lex_flush. rewrite E1, E2.
    destruct (decide (lx_current st = [])) as [Hn|Hn].
    + apply (lexed_space st s c) in H; [|done]. unfold lex_flush in H. by rewrite Hn in *.
    + rewrite (Hin Hn). by apply (lexed_space st s c).
  - apply Hpush. intros Hn. destruct (Hout Hn) as (_ & _ & Hp & _). rewrite Hp in Ew. by rewrite andb_true_r in Ew.
Qed.
Lemma lex_loop_lexed input st s st' index :
  lexed st s -> lex_loop st (len s) input = Ok (st', index) -> lexed st' (s ++ input) /\ index = len (s ++ input).
Proof.
  revert st s. induction input as [|c input IH]; intros st s H; cbn [lex_loop].
  - intros [= <- <-]. by rewrite app_nil_r.
  - destruct (lex_char st (len s) c) as [st1|] eqn:E; [|done]. cbn [mbind result_bind]. intros Hl.
    apply (lex_char_lexed _ _ _ _ H) in E. replace (len s + char_len_utf8 c) with (len (s ++ [c])) in Hl by (rewrite len_app; cbn [len]; lia).
    apply IH in Hl; [|done]. by rewrite <- app_assoc in Hl.
Qed.
Lemma tokenize_covers input tokens : tokenize input = Ok tokens -> covers tokens input.
Proof.
  unfold tokenize. destruct (lex_loop lex_start 0 input) as [[st index]|] eqn:E; [|done]. cbn [mbind result_bind].
  repeat case_match; try done. intros [= <-]. apply (lex_loop_lexed input lex_start []) in E.
  - destruct E as [E ->]. by apply lexed_flush.
  - exists []. repeat constructor.
Qed.

(** ** Quoting *)

(** A text in double quotes. *)
Definition escape (s : str) : str :=
  flat_map (fun c => if (c =? ch "\") || (c =? QUOTE) then [ch "\"; c] else [c]) s.
Definition quote (s : str) : str := QUOTE :: escape s ++ [QUOTE].

Lemma unescape_escape s : unescape false (escape s) = s.
Proof.
  induction s as [|c s IH]; [done|]. cbn [escape flat_map]. fold (escape s).
  destruct (N.eqb_spec c (ch "\")) as [->|H1]; cbn [orb app unescape]; [by rewrite IH|].
  destruct (N.eqb_spec c QUOTE) as [->|H2]; cbn [orb app unescape]; [by rewrite IH|].
  rewrite (proj2 (N.eqb_neq _ _) H1). by rewrite IH.
Qed.
Lemma trim_matches_enclosed P q s : P q = false -> trim_matches P (q :: s ++ [q]) = q :: s ++ [q].
Proof.
  intros H. unfold trim_matches, trim_end_matches. rewrite trim_start_matches_id by done.
  rewrite app_comm_cons, rev_app_distr. cbn [rev app]. rewrite trim_start_matches_id by done.
  cbn [rev]. by rewrite rev_app_distr, rev_involutive.
Qed.
Lemma trim_quote s : trim (quote s) = quote s.
Proof. by apply trim_matches_enclosed. Qed.
Lemma unquote_quote s : unquote (quote s) = s.
Proof.
  unfold unquote. rewrite trim_quote. unfold enclosed, quote.
  assert (ends_with [QUOTE] (QUOTE :: escape s ++ [QUOTE]) = true) as ->.
  { unfold ends_with, is_some. by rewrite app_comm_cons, strip_suffix_app. }
  assert (starts_with [QUOTE] (QUOTE :: escape s ++ [QUOTE]) = true) as -> by done.
  rewrite (proj2 (N.ltb_ge _ _)) by (cbn [len]; rewrite len_app; cbn; lia). cbn [andb orb negb].
  change (drop 1 (QUOTE :: escape s ++ [QUOTE])) with (escape s ++ [QUOTE]).
  by rewrite removelast_last, unescape_escape.
Qed.
Lemma parse_value_quote s : parse_value (quote s) = Ok (Value.Inline s).
Proof.
  unfold parse_value. rewrite trim_quote.
  assert (starts_with [ch "<"] (quote s) = false) as -> by done.
  assert (ends_with [ch ">"] (quote s) = false) as ->.
  { unfold ends_with, is_some, quote. destruct (strip_suffix _ _) as [r|] eqn:E; [|done].
    apply strip_suffix_Some in E. rewrite app_comm_cons in E. by apply app_inj_tail in E as [_ ?]. }
  cbn [Bool.eqb negb]. assert (strip_prefix [ch "<"] (quote s) = None) as -> by done. cbn [mbind option_bind].
  assert (strip_prefix [ch "@"] (quote s) = None) as -> by done. by rewrite unquote_quote.
Qed.

(** ** Arguments *)

(** The state between two values and inside one in double quotes. *)
Definition plain_state (args : list str) (current : str) (last : option char) : ArgState :=
  mkArgState args current last 0 false None 0 0 0 0.
Definition quoted_state (args : list str) (current : str) (last : option char) : ArgState :=
  mkArgState args current last 0 false (Some QUOTE) 0 0 0 0.

Lemma no_regex c (last : option char) (rest : str) : c <> ch "/" ->
  (if (c =? ch "/") && begins_regex_value last then regex_end_at_argument_boundary false false 0 rest else None) = None.
Proof. intros H. by rewrite (proj2 (N.eqb_neq _ _) H). Qed.
(** One character, escaped or not, inside double quotes. *)
Lemma arg_loop_escaped args current last c rest :
  c <> ch "/" ->
  arg_loop (quoted_state args current last) (ch "\" :: c :: rest) =
  arg_loop (quoted_state args (current ++ [ch "\"; c]) (if is_whitespace c then Some (ch "\") else Some c)) rest.
Proof.
  intros Hc. cbn [arg_loop]. change (arg_char (quoted_state args current last) (ch "\") (c :: rest)) with
    (@Ok RuleModelError _ (mkArgState args (current ++ [ch "\"]) (Some (ch "\")) 0 true (Some QUOTE) 0 0 0 0)).
  cbn [mbind result_bind]. unfold arg_char. rewrite no_regex by done. cbn [mbind result_bind]. unfold arg_push.
  cbn [ag_args ag_current ag_last]. by rewrite <- app_assoc.
Qed.
Lemma arg_loop_quoted args current last c rest :
  c <> ch "/" -> c <> ch "\" -> c <> QUOTE ->
  arg_loop (quoted_state args current last) (c :: rest) =
  arg_loop (quoted_state args (current ++ [c]) (if is_whitespace c then last else Some c)) rest.
Proof.
  intros Hc H1 H2. cbn [arg_loop]. unfold arg_char at 1, quoted_state at 1. rewrite no_regex by done.
  by rewrite (proj2 (N.eqb_neq _ _) H1), (proj2 (N.eqb_neq _ _) H2).
Qed.
Lemma arg_loop_escape args current last a rest :
  ch "/" ∉ a -> exists last',
  arg_loop (quoted_state args current last) (escape a ++ rest) =
  arg_loop (quoted_state args (current ++ escape a) last') rest.
Proof.
  revert current last. induction a as [|c a IH]; intros current last Hn.
  { exists last. by rewrite app_nil_r. }
  apply not_elem_of_cons in Hn as [Hc Hn]. cbn [escape flat_map]. fold (escape a).
  destruct ((c =? ch "\") || (c =? QUOTE)) eqn:E; cbn [app].
  - rewrite arg_loop_escaped by done. edestruct (IH (current ++ [ch "\"; c])) as [last' ->]; [done|].
    exists last'. by rewrite <- app_assoc.
  - bool_to_prop. rewrite arg_loop_quoted by done. edestruct (IH (current ++ [c])) as [last' ->]; [done|].
    exists last'. by rewrite <- app_assoc.
Qed.
Lemma arg_loop_quote args current last a rest :
  ch "/" ∉ a ->
  arg_loop (plain_state args current last) (quote a ++ rest) =
  arg_loop (plain_state args (current ++ quote a) (Some QUOTE)) rest.
Proof.
  intros Hn. unfold quote. cbn [app arg_loop].
  change (arg_char (plain_state args current last) QUOTE ((escape a ++ [QUOTE]) ++ rest)) with
    (@Ok RuleModelError _ (quoted_state args (current ++ [QUOTE]) (Some QUOTE))). cbn [mbind result_bind].
  rewrite <- app_assoc. destruct (arg_loop_escape args (current ++ [QUOTE]) (Some QUOTE) a ([QUOTE] ++ rest) Hn) as [last' ->].
  cbn [app arg_loop]. change (arg_char (quoted_state ?x ?y last') QUOTE rest) with
    (@Ok RuleModelError _ (plain_state x (y ++ [QUOTE]) (Some QUOTE))). cbn [mbind result_bind].
  by rewrite <- !app_assoc.
Qed.
Lemma push_quote args a message :
  (length args < MAX_RULE_CALL_ARGUMENTS)%nat -> push_argument args (quote a) message = Ok (args ++ [quote a]).
Proof. intros H. unfold push_argument. rewrite (proj2 (Nat.eqb_neq _ _)) by lia. done. Qed.
Definition spaces (s : str) : Prop := s = [] \/ s = [32].
Lemma trim_spaces_quote s a : spaces s -> trim (s ++ quote a) = quote a.
Proof. intros [-> | ->]; cbn [app]; rewrite ?trim_space; apply trim_quote. Qed.
Definition close_args (st : ArgState) : Result RuleModelError (list str) :=
  push_argument (ag_args st) (trim (ag_current st)) (lit "call arguments must not be empty or end with a comma").
Lemma arg_loop_args as_ a args current last :
  Forall (fun a => ch "/" ∉ a) (a :: as_) -> spaces current ->
  (length args + length (a :: as_) <= MAX_RULE_CALL_ARGUMENTS)%nat ->
  exists args' current' last',
    arg_loop (plain_state args current last) (join (lit ", ") (map quote (a :: as_))) = Ok (plain_state args' current' last') /\
    close_args (plain_state args' current' last') = Ok (args ++ map quote (a :: as_)).
Proof.
  revert a args current last. induction as_ as [|b as_ IH]; intros a args current last Hn Hs Hl; apply Forall_cons in Hn as [Ha Hn].
  - eexists _, _, _. cbn [map join]. rewrite <- (app_nil_r (quote a)), arg_loop_quote by done. split; [done|].
    rewrite app_nil_r. unfold close_args. cbn [ag_args ag_current plain_state]. rewrite trim_spaces_quote by done.
    apply push_quote. cbn [length] in Hl. lia.
  - change (join (lit ", ") (map quote (a :: b :: as_))) with
      (quote a ++ [ch ","; 32] ++ join (lit ", ") (map quote (b :: as_))).
    rewrite arg_loop_quote by done. cbn [app arg_loop].
    change (arg_char (plain_state args (current ++ quote a) (Some QUOTE)) (ch ",") ?rest) with
      (args' ← push_argument args (trim (current ++ quote a)) (lit "call arguments must not be empty");
       Ok (plain_state args' [] (Some (ch ",")))).
    rewrite trim_spaces_quote by done. rewrite push_quote by (cbn [length] in Hl; lia). cbn [mbind result_bind].
    change (arg_char (plain_state ?x [] (Some (ch ","))) 32 ?rest) with
      (@Ok RuleModelError _ (plain_state x [32] (Some (ch ",")))). cbn [mbind result_bind].
    edestruct (IH b (args ++ [quote a]) [32] (Some (ch ","))) as (args' & current' & last' & E1 & E2);
      [done|by right|rewrite length_app; cbn [length] in *; lia|].
    exists args', current', last'. rewrite <- app_assoc in E2. by split.
Qed.
Lemma trim_matches_nonempty P c s : P c = false -> trim_matches P (c :: s) <> [].
Proof.
  intros H. unfold trim_matches, trim_end_matches. rewrite trim_start_matches_id by done. intros E.
  destruct (trim_start_matches_spec P (rev (c :: s))) as (l & El & Hl).
  apply (f_equal (@rev char)) in E. rewrite rev_involutive in E. rewrite E in El. cbn [rev] in El. rewrite app_nil_r in El.
  rewrite Forall_forall in Hl. rewrite (Hl c) in H; [done|]. rewrite <- El. cbn. set_solver.
Qed.
Lemma split_args_quoted args :
  Forall (fun a => ch "/" ∉ a) args -> (length args <= MAX_RULE_CALL_ARGUMENTS)%nat ->
  split_args (join (lit ", ") (map quote args)) = Ok (map quote args).
Proof.
  destruct args as [|a args]; [done|]. intros Hn Hl. unfold split_args.
  destruct (is_emptyb _) eqn:E.
  { exfalso. assert (exists s, join (lit ", ") (map quote (a :: args)) = QUOTE :: s) as [s Es].
    { destruct args; cbn [map join]; unfold quote; eauto. }
    rewrite Es in E. destruct (trim (QUOTE :: s)) eqn:E'; [|done]. by apply (trim_matches_nonempty is_whitespace QUOTE s). }
  destruct (arg_loop_args args a [] [] None Hn ltac:(by left) Hl) as (args' & current' & last' & E1 & E2).
  change arg_start with (plain_state [] [] None). rewrite E1. cbn [mbind result_bind]. exact E2.
Qed.

(** ** Properties *)

(** The lexer loses nothing: the tokens of an accepted line are its words
    in order, each at the byte span it carries, with only whitespace around
    them. *)
Theorem tokenize_lossless input tokens : tokenize input = Ok tokens -> covers tokens input.
Proof. apply tokenize_covers. Qed.


Definition sample_line : str := lit "a.test mock.raw(a b)  tag('x y') @important".
Lemma tokenize_lossless_witness :
  match tokenize sample_line with
  | Ok tokens => map tk_start tokens = [0; 7; 22; 33] /\ covers tokens sample_line
  | Err _ => False
  end.
Proof.
  assert (match tokenize sample_line with Ok tokens => map tk_start tokens = [0; 7; 22; 33] | Err _ => False end) as H
    by (by vm_compute).
  destruct (tokenize sample_line) as [tokens|] eqn:E; [|done]. split; [exact H|]. by apply tokenize_lossless.
Defined.
