(* ===== verification/Engines.v ===== *)
(** * Interfaces of the pattern engines

    The crates [regex], [fancy_regex], [regex_syntax] and [aho_corasick] and the
    process environment are not part of the repository.  [PatternEngines] lists
    the operations the sources call; [PatternLaws] states the documented
    behaviour of these crates that the rule engine relies on.  Every law is
    about the foreign operations alone, in terms of the languages defined here. *)
From Stdlib Require Import Ascii String.
From stdpp Require Import base numbers list gmap strings.
From S2P Require Import Prelude Family Utf8 Model.

(** ** Syntax trees of [regex_syntax::hir]

    The contents of classes, the kinds of look-around assertions, upper bounds,
    greediness and capture names are never read by the sources. *)
Inductive Hir :=
| HirEmpty
| HirLiteral (bytes : list N)
| HirClass
| HirLook
| HirRepetition (min : N) (sub : Hir)
| HirCapture (sub : Hir)
| HirConcat (parts : list Hir)
| HirAlternation (alternatives : list Hir).

(** Byte strings a tree may match.  Classes are unconstrained and assertions
    match the empty string, so this contains the exact language. *)
Fixpoint hir_may_match (h : Hir) (w : list N) : Prop :=
  match h with
  | HirEmpty | HirLook => w = []
  | HirLiteral bytes => w = bytes
  | HirClass => True
  | HirRepetition min sub =>
      exists ws, w = concat ws /\ Forall (hir_may_match sub) ws /\ min <= N.of_nat (length ws)
  | HirCapture sub => hir_may_match sub w
  | HirConcat parts =>
      (fix all_parts (parts : list Hir) (w : list N) : Prop :=
         match parts with
         | [] => w = []
         | p :: ps => exists w1 w2, w = w1 ++ w2 /\ hir_may_match p w1 /\ all_parts ps w2
         end) parts w
  | HirAlternation alternatives =>
      (fix some_alternative (alternatives : list Hir) : Prop :=
         match alternatives with
         | [] => False
         | a :: rest => hir_may_match a w \/ some_alternative rest
         end) alternatives
  end.

(** ** The regular-expression fragment of compiled globs

    Anchored sequences of literals and lazy wildcard groups: any text, or text
    without one excluded char. *)
Inductive Frag :=
| FragLit (c : char)
| FragGroup (capturing : bool) (excluded : option char).

(** Texts of a fragment sequence. *)
Inductive frag_lang : list Frag -> str -> Prop :=
| frag_lang_nil : frag_lang [] []
| frag_lang_lit c fs s : frag_lang fs s -> frag_lang (FragLit c :: fs) (c :: s)
| frag_lang_group cap ex fs w s :
    match ex with Some sep => sep ∉ w | None => True end ->
    frag_lang fs s -> frag_lang (FragGroup cap ex :: fs) (w ++ s).

(** Errors of [fancy_regex] at match time. *)
Inductive FancyError := BacktrackLimitExceeded | OtherFancyError.

Class PatternEngines := {
  (** [RegexBuilder::build().is_ok()] *)
  regex_accepts : LinearRegex -> bool;
  (** [Regex::captures]: the groups of the leftmost match, group 0 first *)
  regex_captures : LinearRegex -> str -> option (list (option str));
  (** [Regex::capture_names], one entry per group *)
  regex_capture_names : LinearRegex -> list (option str);
  fancy_accepts : FancyRegex -> bool;
  fancy_captures : FancyRegex -> str -> Result FancyError (option (list (option str)));
  fancy_capture_names : FancyRegex -> list (option str);
  (** [regex_syntax::is_meta_character] *)
  is_meta_character : char -> bool;
  (** [regex_syntax::parse(..).ok()] *)
  regex_syntax_parse : str -> option Hir;
  (** [AhoCorasickBuilder::build().is_ok()] *)
  ac_accepts : AhoCorasick -> bool;
  (** the pattern ids of [find_overlapping_iter], in match order *)
  find_overlapping : AhoCorasick -> str -> list nat;
  (** [std::env::var(..).ok()] *)
  env_var : str -> option str;
}.

(** The source text of a fragment sequence, as regular-expression syntax. *)
Definition escape_literal {PE : PatternEngines} (c : char) : str :=
  if is_meta_character c then [ch "\"; c] else [c].

Definition frag_source {PE : PatternEngines} (f : Frag) : str :=
  match f with
  | FragLit c => escape_literal c
  | FragGroup cap ex =>
      (if cap then lit "(" else lit "(?:") ++
      (match ex with
       | None => lit ".*?"
       | Some sep => lit "[^" ++ escape_literal sep ++ lit "]*?"
       end) ++ lit ")"
  end.

Definition anchored_source {PE : PatternEngines} (fs : list Frag) : str :=
  lit "(?s)\A" ++ flat_map frag_source fs ++ lit "\z".

Class PatternLaws (PE : PatternEngines) : Prop := {
  (** A case-sensitive match of a pattern spans bytes its syntax tree may match. *)
  regex_hir_sound : forall r hir text groups,
    regex_accepts r = true -> lr_case_insensitive r = false ->
    regex_syntax_parse (lr_source r) = Some hir ->
    regex_captures r text = Some groups ->
    exists a w b, encode text = a ++ w ++ b /\ hir_may_match hir w;
  fancy_hir_sound : forall r hir text groups,
    fancy_accepts r = true ->
    regex_syntax_parse (fr_source r) = Some hir ->
    fancy_captures r text = Ok (Some groups) ->
    exists a w b, encode text = a ++ w ++ b /\ hir_may_match hir w;
  (** An anchored fragment matches exactly its language. *)
  regex_fragment : forall fs limit text,
    regex_accepts (mkLinearRegex (anchored_source fs) false limit) = true ->
    is_Some (regex_captures (mkLinearRegex (anchored_source fs) false limit) text)
      <-> frag_lang fs text;
  (** Overlapping search reports exactly the patterns that occur. *)
  find_overlapping_spec : forall ac text i,
    ac_accepts ac = true ->
    i ∈ find_overlapping ac text <->
    exists p, ac_patterns ac !! i = Some p /\
      (if ac_case_insensitive ac
       then contains (to_ascii_lowercase p) (to_ascii_lowercase text)
       else contains p text) = true;
}.

(** * A small pattern engine

    A concrete, executable instance of [PatternEngines] that satisfies
    [PatternLaws]: literal regular expressions, the anchored glob fragment with
    lazy captures, and naive multi-pattern search.  Examples and witnesses of
    the development run on it. *)

Definition mini_meta (c : char) : bool := contains_char c (lit "\.+*?()|[]{}^$#&-~").

Fixpoint parse_frags (fuel : nat) (s : str) : option (list Frag) :=
  match fuel with
  | O => None
  | S fuel' =>
      match s with
      | [] => Some []
      | c :: rest =>
          if c =? ch "\" then
            match rest with
            | x :: rest' => cons (FragLit x) <$> parse_frags fuel' rest'
            | [] => None
            end
          else if c =? ch "(" then
            let '(cap, rest) :=
              match strip_prefix (lit "?:") rest with
              | Some r => (false, r)
              | None => (true, rest)
              end in
            match strip_prefix (lit ".*?)") rest with
            | Some r => cons (FragGroup cap None) <$> parse_frags fuel' r
            | None =>
                match strip_prefix (lit "[^") rest with
                | Some (x :: r) =>
                    let '(sep, r) := if x =? ch "\" then (head r, tail r) else (Some x, r) in
                    match sep, strip_prefix (lit "]*?)") r with
                    | Some sep, Some r => cons (FragGroup cap (Some sep)) <$> parse_frags fuel' r
                    | _, _ => None
                    end
                | _ => None
                end
            end
          else if mini_meta c then None
          else cons (FragLit c) <$> parse_frags fuel' rest
      end
  end.

(** The shortest group text after which the continuation [k] succeeds. *)
Fixpoint lazy_group (k : str -> option (list (option str))) (cap : bool) (ex : option char)
    (acc : str) (s : str) : option (list (option str)) :=
  match k s with
  | Some gs => Some (if cap then Some (rev acc) :: gs else gs)
  | None =>
      match s with
      | x :: s' =>
          if match ex with Some sep => x =? sep | None => false end then None
          else lazy_group k cap ex (x :: acc) s'
      | [] => None
      end
  end.

(** The captured texts of the leftmost-first (lazy) match. *)
Fixpoint frag_match (fs : list Frag) (s : str) : option (list (option str)) :=
  match fs with
  | [] => match s with [] => Some [] | _ :: _ => None end
  | FragLit c :: fs' =>
      match s with
      | x :: s' => if x =? c then frag_match fs' s' else None
      | [] => None
      end
  | FragGroup cap ex :: fs' => lazy_group (frag_match fs') cap ex [] s
  end.

Definition mini_plain (p : str) : bool := valid_str p && negb (existsb mini_meta p).

Definition mini_fragment (source : str) : option (list Frag) :=
  body ← strip_prefix (lit "(?s)\A") source;
  body ← strip_suffix (lit "\z") body;
  parse_frags (S (length body)) body.

Definition mini_captures (r : LinearRegex) (text : str) : option (list (option str)) :=
  match mini_fragment (lr_source r) with
  | Some fs => gs ← frag_match fs text; Some (Some text :: gs)
  | None =>
      if mini_plain (lr_source r) then
        if (if lr_case_insensitive r
            then contains (to_ascii_lowercase (lr_source r)) (to_ascii_lowercase text)
            else contains (lr_source r) text)
        then Some [Some (lr_source r)] else None
      else None
  end.

#[global] Instance mini_engine : PatternEngines := {
  regex_accepts r := is_some (mini_fragment (lr_source r)) || mini_plain (lr_source r);
  regex_captures := mini_captures;
  regex_capture_names r := [];
  fancy_accepts r := false;
  fancy_captures r text := Ok None;
  fancy_capture_names r := [];
  is_meta_character := mini_meta;
  regex_syntax_parse p := if mini_plain p then Some (HirLiteral (encode p)) else None;
  ac_accepts ac := true;
  find_overlapping ac text :=
    List.filter (fun i =>
      match ac_patterns ac !! i with
      | Some p =>
          if ac_case_insensitive ac
          then contains (to_ascii_lowercase p) (to_ascii_lowercase text)
          else contains p text
      | None => false
      end) (seq 0 (length (ac_patterns ac)));
  env_var name := if name =s? lit "MODE" then Some (lit "dev") else None;
}.

(** ** The laws hold *)

Lemma parse_frag_cons (f : Frag) (fuel : nat) (rest : str) :
  parse_frags (S fuel) (frag_source f ++ rest) = cons f <$> parse_frags fuel rest.
Proof.
  destruct f as [c|cap ex].
  - unfold frag_source, escape_literal. cbn [is_meta_character mini_engine].
    destruct (mini_meta c) eqn:Em; cbn [app parse_frags].
    + by rewrite N.eqb_refl.
    + destruct (N.eqb_spec c (ch "\")) as [->|H1]; [done|].
      destruct (N.eqb_spec c (ch "(")) as [->|H2]; [done|]. by rewrite Em.
  - unfold frag_source, escape_literal. cbn [is_meta_character mini_engine].
    destruct ex as [sep|]; [destruct (mini_meta sep) eqn:Em|];
      destruct cap; rewrite <- ?app_assoc; try reflexivity.
    all: cbn [app parse_frags];
      change (lit "(") with [ch "("]; change (lit "(?:") with (ch "(" :: lit "?:");
      cbn [app parse_frags]; rewrite ?N.eqb_refl.
    all: destruct (N.eqb_spec sep (ch "\")) as [->|H1]; [done|]; apply N.eqb_neq in H1.
    all: change (ch "(" =? ch "\") with false; cbv iota beta; cbn [app].
    all: first [rewrite (strip_prefix_app (lit "?:"))
               |change (strip_prefix (lit "?:") _) with (@None str)]; cbv iota beta.
    all: change (strip_prefix (lit ".*?)") _) with (@None str); cbv iota beta.
    all: rewrite (strip_prefix_app (lit "[^")); cbv iota beta; rewrite H1; cbv iota beta.
    all: by change (lit "]*?" ++ lit ")" ++ rest) with (lit "]*?)" ++ rest);
      rewrite strip_prefix_app.
Qed.

Lemma parse_frags_print (fs : list Frag) (fuel : nat) :
  (length fs < fuel)%nat -> parse_frags fuel (flat_map frag_source fs) = Some fs.
Proof.
  revert fuel. induction fs as [|f fs IH]; intros [|fuel] Hf; simpl in Hf; try lia; [done|].
  cbn [flat_map]. rewrite parse_frag_cons, IH by lia. done.
Qed.

Lemma length_frag_source fs : (length fs <= length (flat_map frag_source fs))%nat.
Proof.
  induction fs as [|f fs IH]; [done|]. cbn [flat_map length]. rewrite length_app.
  assert (0 < length (frag_source f))%nat; [|lia].
  destruct f as [c|cap ex]; unfold frag_source, escape_literal.
  - destruct (is_meta_character c); simpl; lia.
  - rewrite length_app. destruct cap; vm_compute; lia.
Qed.

Lemma mini_fragment_anchored fs : mini_fragment (anchored_source fs) = Some fs.
Proof.
  unfold mini_fragment, anchored_source, mbind, option_bind.
  rewrite strip_prefix_app, strip_suffix_app. apply parse_frags_print.
  pose proof (length_frag_source fs). lia.
Qed.

Definition group_allows (ex : option char) (w : str) : Prop :=
  match ex with Some sep => sep ∉ w | None => True end.

Lemma lazy_group_sound k cap ex acc s gs :
  lazy_group k cap ex acc s = Some gs ->
  exists w s', s = w ++ s' /\ group_allows ex w /\ is_Some (k s').
Proof.
  assert (group_allows ex []) as Hnil by (destruct ex; set_solver).
  revert acc. induction s as [|x s IH]; intros acc; simpl.
  - destruct (k []) eqn:E; [|done]. intros _. exists [], []. eauto.
  - destruct (k (x :: s)) eqn:E; [intros _; exists [], (x :: s); eauto|].
    destruct (match ex with Some sep => x =? sep | None => false end) eqn:Ex; [done|].
    intros H. destruct (IH _ H) as (w & s' & -> & Hw & Hs').
    exists (x :: w), s'. split_and!; [done| |done].
    destruct ex as [sep|]; [|done]. apply N.eqb_neq in Ex. set_solver.
Qed.

Lemma lazy_group_complete k cap ex acc w s :
  group_allows ex w -> is_Some (k s) -> is_Some (lazy_group k cap ex acc (w ++ s)).
Proof.
  intros Hw [gs Hs]. revert acc Hw. induction w as [|x w IH]; intros acc Hw.
  - destruct s; simpl in *; rewrite Hs; by eexists.
  - simpl. destruct (k (x :: w ++ s)); [by eexists|].
    assert (match ex with Some sep => x =? sep | None => false end = false) as ->.
    { destruct ex as [sep|]; [|done]. simpl in Hw. apply N.eqb_neq. set_solver. }
    apply IH. destruct ex; simpl in *; set_solver.
Qed.

Lemma frag_match_sound fs s gs : frag_match fs s = Some gs -> frag_lang fs s.
Proof.
  revert s gs. induction fs as [|[c|cap ex] fs IH]; intros s gs.
  - destruct s; [constructor|done].
  - destruct s as [|x s]; [done|]. simpl. destruct (N.eqb_spec x c) as [->|]; [|done].
    intros H. constructor. by eapply IH.
  - intros H. apply lazy_group_sound in H as (w & s' & -> & Hw & gs' & Hs').
    constructor; [done|]. by eapply IH.
Qed.

Lemma frag_match_complete fs s : frag_lang fs s -> is_Some (frag_match fs s).
Proof.
  induction 1 as [|c fs s H IH|cap ex fs w s Hw H IH]; [by eexists| |].
  - simpl. by rewrite N.eqb_refl.
  - by apply lazy_group_complete.
Qed.

#[global] Instance mini_laws : PatternLaws mini_engine.
Proof.
  split.
  - intros r hir text groups Hacc Hci. cbn. unfold mini_captures. rewrite Hci.
    destruct (mini_plain (lr_source r)) eqn:Ep; [|done]. intros [= <-].
    destruct (mini_fragment (lr_source r)) as [fs|] eqn:Ef.
    { unfold mini_fragment, mbind, option_bind in Ef.
      destruct (strip_prefix (lit "(?s)\A") (lr_source r)) as [b|] eqn:Eb; [|done].
      apply strip_prefix_Some in Eb. rewrite Eb in Ep. unfold mini_plain in Ep.
      rewrite existsb_app in Ep. cbn in Ep. by rewrite andb_false_r in Ep. }
    destruct (contains (lr_source r) text) eqn:Ec; [|done]. intros _.
    apply contains_true in Ec as (a & b & ->). exists (encode a), (encode (lr_source r)), (encode b).
    by rewrite !encode_app.
  - done.
  - intros fs limit text _. cbn. unfold mini_captures. cbn [lr_source].
    rewrite mini_fragment_anchored. split.
    + destruct (frag_match fs text) eqn:E; [|by intros [? ?]]. intros _. by eapply frag_match_sound.
    + intros H. apply frag_match_complete in H as [gs ->]. by eexists.
  - intros ac text i _. cbn.
    rewrite list_elem_of_In, filter_In, <- list_elem_of_In, elem_of_seq.
    destruct (ac_patterns ac !! i) as [p|] eqn:E; [|naive_solver].
    apply lookup_lt_Some in E. split.
    + intros [_ H]. eauto.
    + intros (p' & [= <-] & H). split; [lia|done].
Qed.
