(* ===== verification/Matching.v ===== *)
(** * Glob programs and primitive matching

    crates/rsproxy-rules/src/matching.rs: the translation of globs to anchored
    regular expressions, the interning set of compiled globs, host, address and
    path matching, and deterministic sampling.  A [None] result of an operation
    that returns no [Option] in the source is its [expect] panic. *)
From Stdlib Require Import Ascii String.
From stdpp Require Import base numbers list gmap strings.
From S2P Require Import Prelude Family Utf8 NetAddr Model Url Engines.

Definition MAX_GLOB_PATTERN_BYTES : N := MAX_RULE_SOURCE_LINE_BYTES.
Definition GLOB_REGEX_SIZE_LIMIT : N := 4 * 1024 * 1024.

Abbreviation GlobId := nat (only parsing).

(** [ids] are two nested maps, separator first; [programs] in id order. *)
Record CompiledGlobSet := mkCompiledGlobSet {
  gs_ids : gmap char (gmap str GlobId);
  gs_programs : list LinearRegex;
}.
Definition CompiledGlobSet_default : CompiledGlobSet := mkCompiledGlobSet ∅ [].

Definition glob_syntax_is_active (pattern : str) : bool :=
  existsb (fun c => (c =? ch "*") || (c =? ch "\")) pattern.

Definition host_pattern_uses_regex (pattern : str) : bool :=
  let pattern := trim_matches is_bracket pattern in
  glob_syntax_is_active pattern && negb (pattern =s? lit "*") && negb (pattern =s? lit "**") &&
  negb (starts_with (lit "*.") pattern) && negb (starts_with (lit "**.") pattern).

Definition exact_url_matches (expected : str) (url : UrlParts) : bool :=
  match UrlParts_parse expected with
  | Err _ => false
  | Ok expected =>
      (up_scheme expected =s? up_scheme url) && (up_host expected =s? up_host url) &&
      (effective_port expected =s? effective_port url) && (up_path expected =s? up_path url) &&
      (negb (is_some (up_query expected)) || (up_query expected =s? up_query url))
  end.

(** The label prefix of [host] when it ends with [.base]. *)
Definition dotted_suffix_prefix (host base : str) : option str :=
  rest ← strip_suffix base host; strip_suffix [ch "."] rest.

Definition normalize_ip_value (value : str) : str :=
  match parse_socket_addr value with
  | Some addr => show_ip (sa_ip addr)
  | None => trim_matches is_bracket (trim value)
  end.

(** A byte after the prefix is ['/'] exactly when the next char is. *)
Definition path_prefix_matches (pattern path : str) : bool :=
  if pattern =s? lit "/" then true
  else
    (path =s? pattern) ||
    match strip_prefix pattern path with
    | Some rest => ends_with [ch "/"] pattern || starts_with [ch "/"] rest
    | None => false
    end.

(** FNV-1a-style sampling over URL and method bytes. *)
Definition chance_step (hash byte : N) : N :=
  (N.lxor hash byte * 1099511628211) mod 2 ^ 64.

Definition chance (req : RequestMeta) (line permille : N) : bool :=
  if 1000 <=? permille then true
  else if permille =? 0 then false
  else
    let hash := fold_left chance_step (encode (req_url req) ++ encode (req_method req))
                  1469598103934665603 in
    N.lxor hash line mod 1000 <? permille.

Section Globs.
Context {PE : PatternEngines}.

(** The loop of [compile_glob_regex] after [captures] numbered groups. *)
Fixpoint glob_source_loop (sep : char) (captures : nat) (cs : str) : option str :=
  let group (double : bool) : str :=
    (if (captures <? MAX_RULE_GLOB_CAPTURES)%nat then lit "(" else lit "(?:") ++
    (if double then lit ".*?" else lit "[^" ++ escape_literal sep ++ lit "]*?") ++ lit ")" in
  let captures' := if (captures <? MAX_RULE_GLOB_CAPTURES)%nat then S captures else captures in
  match cs with
  | [] => Some []
  | c :: rest =>
      if c =? ch "\" then
        match rest with
        | x :: rest' => src ← glob_source_loop sep captures rest'; Some (escape_literal x ++ src)
        | [] => None
        end
      else if negb (c =? ch "*") then
        src ← glob_source_loop sep captures rest; Some (escape_literal c ++ src)
      else
        match rest with
        | x :: rest' =>
            if x =? ch "*"
            then src ← glob_source_loop sep captures' rest'; Some (group true ++ src)
            else src ← glob_source_loop sep captures' rest; Some (group false ++ src)
        | [] => src ← glob_source_loop sep captures' rest; Some (group false ++ src)
        end
  end.

Definition compile_glob_regex (pattern : str) (sep : char) : option LinearRegex :=
  body ← glob_source_loop sep 0 pattern;
  let regex := mkLinearRegex (lit "(?s)\A" ++ body ++ lit "\z") false
                 (Some GLOB_REGEX_SIZE_LIMIT) in
  if regex_accepts regex then Some regex else None.

Definition validate_glob_pattern (pattern : str) (separator : char) (context : str)
    : Result RuleModelError unit :=
  if MAX_GLOB_PATTERN_BYTES <? len pattern then
    Err (LimitExceeded context
           (lit "glob pattern exceeds " ++ show_N MAX_GLOB_PATTERN_BYTES ++ lit " bytes"))
  else
    match compile_glob_regex pattern separator with
    | Some _ => Ok tt
    | None => Err (InvalidInput context (lit "invalid or incomplete glob pattern"))
    end.

(** ** The interning set *)

Definition glob_id (set : CompiledGlobSet) (pattern : str) (separator : char) : option GlobId :=
  patterns ← gs_ids set !! separator; patterns !! pattern.

Definition register (set : CompiledGlobSet) (pattern : str) (separator : char)
    : option CompiledGlobSet :=
  match glob_id set pattern separator with
  | Some _ => Some set
  | None =>
      regex ← compile_glob_regex pattern separator;
      let id := length (gs_programs set) in
      let bucket := default ∅ (gs_ids set !! separator) in
      Some (mkCompiledGlobSet (<[separator := <[pattern := id]> bucket]> (gs_ids set))
              (gs_programs set ++ [regex]))
  end.

(** Registrations in program order; the first panic ends them. *)
Definition register_all (set : CompiledGlobSet) (patterns : list (str * char))
    : option CompiledGlobSet :=
  foldl (fun acc p => set ← acc; register set p.1 p.2) (Some set) patterns.

(** The patterns [register_matcher] registers, in order. *)
Fixpoint matcher_globs (m : Matcher.t) : list (str * char) :=
  match m with
  | Matcher.Glob glob =>
      (if host_pattern_uses_regex (gm_host glob) then [(gm_host glob, ch ".")] else []) ++
      (match gm_port glob with Some port => [(port, ch ".")] | None => [] end) ++
      (match gm_path glob with
       | Some path => if glob_syntax_is_active path then [(path, ch "/")] else []
       | None => []
       end) ++
      (match gm_query glob with Some query => [(query, ch "&")] | None => [] end)
  | Matcher.Not inner => matcher_globs inner
  | Matcher.ExactUrl _ | Matcher.Port _ | Matcher.Regex _ => []
  end.

(** The patterns one condition node registers. *)
Definition node_globs (c : Condition.t) : list (str * char) :=
  match c with
  | Condition.Host pattern =>
      if host_pattern_uses_regex pattern then [(to_ascii_lowercase pattern, ch ".")] else []
  | Condition.Url (UrlCondition.Glob pattern) =>
      if glob_syntax_is_active pattern then [(pattern, 0)] else []
  | Condition.ClientIp patterns | Condition.ServerIp patterns =>
      map (fun pattern => (normalize_ip_value pattern, 0))
        (List.filter (fun pattern => glob_syntax_is_active pattern &&
           negb (pattern =s? lit "*") && negb (pattern =s? lit "**")) patterns)
  | _ => []
  end.

Definition condition_globs (c : Condition.t) : list (str * char) :=
  flat_map node_globs (Condition.nodes c).

Definition register_matcher (set : CompiledGlobSet) (m : Matcher.t) : option CompiledGlobSet :=
  register_all set (matcher_globs m).
Definition register_condition (set : CompiledGlobSet) (c : Condition.t) : option CompiledGlobSet :=
  register_all set (condition_globs c).

Definition CompiledGlobSet_build (rules : list Rule) : option CompiledGlobSet :=
  foldl (fun acc rule =>
    set ← acc;
    set ← register_matcher set (r_matcher rule);
    foldl (fun acc c => set ← acc; register_condition set c) (Some set) (r_conditions rule))
    (Some CompiledGlobSet_default) rules.

(** ** Matching through ids *)

Definition regex_is_match (r : LinearRegex) (text : str) : bool := is_some (regex_captures r text).

Definition glob_match_id (set : CompiledGlobSet) (id : GlobId) (text : str) : bool :=
  match gs_programs set !! id with
  | Some regex => regex_is_match regex text
  | None => false
  end.

(** The numbered groups of a match, up to nine captures per rule. *)
Definition append_matched_glob_captures (groups : list (option str)) (captures : Captures)
    : Captures :=
  let remaining := (MAX_RULE_GLOB_CAPTURES - length (c_indexed captures))%nat in
  fold_left (fun captures capture => Captures_insert_index captures (unwrap_or capture []))
    (take remaining (drop 1 groups)) captures.

Definition append_glob_captures (regex : LinearRegex) (text : str) (captures : Captures)
    : option Captures :=
  groups ← regex_captures regex text;
  Some (append_matched_glob_captures groups captures).

(** [Some] is the boolean result [true] with the extended captures. *)
Definition glob_match_with_captures_id (set : CompiledGlobSet) (id : GlobId) (text : str)
    (captures : Captures) : option Captures :=
  regex ← gs_programs set !! id; append_glob_captures regex text captures.

Definition host_matches_id (set : CompiledGlobSet) (pattern host : str) (id : option GlobId)
    : bool :=
  let pattern := to_ascii_lowercase (trim_matches is_bracket pattern) in
  let host := to_ascii_lowercase (trim_matches is_bracket host) in
  if (pattern =s? lit "**") || (pattern =s? lit "*") then true
  else
    match strip_prefix (lit "**.") pattern with
    | Some base => (host =s? base) || is_some (dotted_suffix_prefix host base)
    | None =>
        match strip_prefix (lit "*.") pattern with
        | Some base =>
            match dotted_suffix_prefix host base with
            | Some prefix => negb (is_emptyb prefix) && negb (contains_char (ch ".") prefix)
            | None => false
            end
        | None =>
            if glob_syntax_is_active pattern then
              match id with Some id => glob_match_id set id host | None => false end
            else pattern =s? host
        end
    end.

Definition host_matches (set : CompiledGlobSet) (pattern host : str) : bool :=
  host_matches_id set pattern host
    (glob_id set (to_ascii_lowercase (trim_matches is_bracket pattern)) (ch ".")).

Definition ip_matches_id (set : CompiledGlobSet) (pattern actual : str) (id : option GlobId)
    : bool :=
  let pattern := normalize_ip_value pattern in
  if (pattern =s? lit "*") || (pattern =s? lit "**") then true
  else if glob_syntax_is_active pattern then
    match id with Some id => glob_match_id set id actual | None => false end
  else eq_ignore_ascii_case pattern actual.
End Globs.

(** ** Reference meaning of a glob

    An interpreter of the pattern text: [**] stands for any text, [*] for any
    text without the separator, a backslash quotes the next char. *)
Fixpoint any_suffix (P : str -> bool) (allow : char -> bool) (s : str) : bool :=
  P s || match s with
         | [] => false
         | x :: s' => allow x && any_suffix P allow s'
         end.

Fixpoint globb (sep : char) (p : str) (s : str) : bool :=
  match p with
  | [] => is_emptyb s
  | c :: rest =>
      if c =? ch "\" then
        match rest, s with
        | x :: rest', y :: s' => (y =? x) && globb sep rest' s'
        | _, _ => false
        end
      else if negb (c =? ch "*") then
        match s with y :: s' => (y =? c) && globb sep rest s' | [] => false end
      else
        match rest with
        | x :: rest' =>
            if x =? ch "*" then any_suffix (globb sep rest') (fun _ => true) s
            else any_suffix (globb sep rest) (fun y => negb (y =? sep)) s
        | [] => any_suffix (globb sep rest) (fun y => negb (y =? sep)) s
        end
  end.

(** The regular-expression fragments of a glob. *)
Fixpoint glob_frags (sep : char) (captures : nat) (cs : str) : option (list Frag) :=
  let group := FragGroup (captures <? MAX_RULE_GLOB_CAPTURES)%nat in
  let captures' := if (captures <? MAX_RULE_GLOB_CAPTURES)%nat then S captures else captures in
  match cs with
  | [] => Some []
  | c :: rest =>
      if c =? ch "\" then
        match rest with
        | x :: rest' => cons (FragLit x) <$> glob_frags sep captures rest'
        | [] => None
        end
      else if negb (c =? ch "*") then cons (FragLit c) <$> glob_frags sep captures rest
      else
        match rest with
        | x :: rest' =>
            if x =? ch "*" then cons (group None) <$> glob_frags sep captures' rest'
            else cons (group (Some sep)) <$> glob_frags sep captures' rest
        | [] => cons (group (Some sep)) <$> glob_frags sep captures' rest
        end
  end.

(** Induction on a pattern that steps over one or two chars. *)
Lemma pattern_ind (P : str -> Prop) :
  P [] -> (forall c, P [c]) ->
  (forall c x rest, P (x :: rest) -> P rest -> P (c :: x :: rest)) -> forall p, P p.
Proof.
  intros H0 H1 H2 p.
  assert (P p /\ forall c, P (c :: p)) as [? _]; [|done].
  induction p as [|x p [IH1 IH2]]; [done|]. split; [done|]. intros c. by apply H2.
Qed.

Lemma any_suffix_spec P allow s :
  any_suffix P allow s = true <->
  exists w s', s = w ++ s' /\ Forall (fun x => allow x = true) w /\ P s' = true.
Proof.
  induction s as [|x s IH]; cbn [any_suffix]; rewrite orb_true_iff.
  - split.
    + intros [H|H]; [|done]. by exists [], [].
    + intros (w & s' & E & _ & H). left. by destruct w; simplify_eq/=.
  - rewrite andb_true_iff, IH. split.
    + intros [H|[Hx (w & s' & -> & Hw & H)]]; [by exists [], (x :: s)|].
      exists (x :: w), s'. auto.
    + intros (w & s' & E & Hw & H). destruct w as [|y w]; simplify_eq/=; [by left|right].
      apply Forall_cons in Hw as [? ?]. eauto 6.
Qed.

Lemma frag_lang_lit_inv c fs s :
  frag_lang (FragLit c :: fs) s <-> exists s', s = c :: s' /\ frag_lang fs s'.
Proof.
  split; [inversion 1; subst; eauto|]. intros (s' & -> & H). by constructor.
Qed.

Lemma frag_lang_group_inv cap ex fs s :
  frag_lang (FragGroup cap ex :: fs) s <->
  exists w s', s = w ++ s' /\ match ex with Some sep => sep ∉ w | None => True end /\
    frag_lang fs s'.
Proof.
  split; [inversion 1; subst; eauto 6|]. intros (w & s' & -> & Hw & H). by constructor.
Qed.

Lemma lit_step c (g : str -> bool) fs s :
  (forall s, g s = true <-> frag_lang fs s) ->
  match s with y :: s' => (y =? c) && g s' | [] => false end = true
    <-> frag_lang (FragLit c :: fs) s.
Proof.
  intros Hg. rewrite frag_lang_lit_inv. destruct s as [|y s].
  - split; [done|]. by intros (? & ? & _).
  - rewrite andb_true_iff, N.eqb_eq, Hg. naive_solver.
Qed.

Lemma group_step cap sep (g : str -> bool) fs s :
  (forall s, g s = true <-> frag_lang fs s) ->
  any_suffix g (fun y => match sep with Some sep => negb (y =? sep) | None => true end) s = true
    <-> frag_lang (FragGroup cap sep :: fs) s.
Proof.
  intros Hg. rewrite frag_lang_group_inv, any_suffix_spec.
  setoid_rewrite Hg. do 2 (apply exist_proper; intro). 
  assert (forall w : str, Forall (fun x => match sep with Some sep => negb (x =? sep) | None => true end = true) w
    <-> match sep with Some sep => sep ∉ w | None => True end) as Hw; [|by rewrite Hw].
  intros w. destruct sep as [sep|].
  - rewrite Forall_forall. setoid_rewrite negb_true_iff. setoid_rewrite N.eqb_neq. naive_solver.
  - split; [done|]. intros _. by apply Forall_forall.
Qed.

Lemma globb_cons sep c rest s :
  globb sep (c :: rest) s =
  if c =? ch "\" then
    match rest, s with
    | x :: rest', y :: s' => (y =? x) && globb sep rest' s'
    | _, _ => false
    end
  else if negb (c =? ch "*") then
    match s with y :: s' => (y =? c) && globb sep rest s' | [] => false end
  else
    match rest with
    | x :: rest' =>
        if x =? ch "*" then any_suffix (globb sep rest') (fun _ => true) s
        else any_suffix (globb sep rest) (fun y => negb (y =? sep)) s
    | [] => any_suffix (globb sep rest) (fun y => negb (y =? sep)) s
    end.
Proof. reflexivity. Qed.

Lemma glob_frags_cons sep captures c rest :
  glob_frags sep captures (c :: rest) =
  let group := FragGroup (captures <? MAX_RULE_GLOB_CAPTURES)%nat in
  let captures' := if (captures <? MAX_RULE_GLOB_CAPTURES)%nat then S captures else captures in
  if c =? ch "\" then
    match rest with
    | x :: rest' => cons (FragLit x) <$> glob_frags sep captures rest'
    | [] => None
    end
  else if negb (c =? ch "*") then cons (FragLit c) <$> glob_frags sep captures rest
  else
    match rest with
    | x :: rest' =>
        if x =? ch "*" then cons (group None) <$> glob_frags sep captures' rest'
        else cons (group (Some sep)) <$> glob_frags sep captures' rest
    | [] => cons (group (Some sep)) <$> glob_frags sep captures' rest
    end.
Proof. reflexivity. Qed.

Definition accepts (fs : option (list Frag)) (s : str) : Prop :=
  match fs with Some fs => frag_lang fs s | None => False end.

Lemma accepts_lit c (g : str -> bool) fs s :
  (forall s, g s = true <-> accepts fs s) ->
  match s with y :: s' => (y =? c) && g s' | [] => false end = true
    <-> accepts (cons (FragLit c) <$> fs) s.
Proof.
  intros Hg. destruct fs as [fs|]; [by apply lit_step|]. destruct s as [|y s]; [done|].
  rewrite andb_true_iff, Hg. simpl. tauto.
Qed.

Lemma accepts_group cap sep (g : str -> bool) fs s :
  (forall s, g s = true <-> accepts fs s) ->
  any_suffix g (fun y => match sep with Some sep => negb (y =? sep) | None => true end) s = true
    <-> accepts (cons (FragGroup cap sep) <$> fs) s.
Proof.
  intros Hg. destruct fs as [fs|]; [by apply group_step|].
  rewrite any_suffix_spec. split; [|done]. intros (w & s' & _ & _ & H). by apply Hg in H.
Qed.

(** The interpreter accepts the language of the fragments; an incomplete
    escape accepts nothing. *)
Lemma globb_frags sep captures p s :
  globb sep p s = true <-> accepts (glob_frags sep captures p) s.
Proof.
  assert (forall n s, globb sep [] s = true <-> accepts (glob_frags sep n []) s) as Hnil.
  { intros n s'. simpl. destruct s'; simpl; split; try done; [constructor|by inversion 1]. }
  revert captures s. induction p as [|c|c x rest IH1 IH2] using pattern_ind; intros captures s.
  - apply Hnil.
  - rewrite globb_cons, glob_frags_cons. cbv zeta.
    destruct (c =? ch "\"); [done|]. destruct (c =? ch "*"); cbn [negb].
    + by apply (accepts_group _ (Some sep)).
    + by apply accepts_lit.
  - rewrite globb_cons, glob_frags_cons. cbv zeta.
    destruct (c =? ch "\"); [by apply accepts_lit|]. destruct (c =? ch "*"); cbn [negb].
    + destruct (x =? ch "*"); [by apply (accepts_group _ None)|by apply (accepts_group _ (Some sep))].
    + by apply accepts_lit.
Qed.

Section GlobProofs.
Context {PE : PatternEngines}.

Lemma glob_source_frags sep captures p :
  glob_source_loop sep captures p = flat_map frag_source <$> glob_frags sep captures p.
Proof.
  revert captures. induction p as [|c|c x rest IH1 IH2] using pattern_ind; intros captures.
  - done.
  - cbn [glob_source_loop glob_frags]. destruct (c =? ch "\"); [done|].
    by destruct (c =? ch "*"), (captures <? MAX_RULE_GLOB_CAPTURES)%nat.
  - rewrite glob_frags_cons. cbv zeta. 
    assert (glob_source_loop sep captures (c :: x :: rest) =
      let group (double : bool) : str :=
        (if (captures <? MAX_RULE_GLOB_CAPTURES)%nat then lit "(" else lit "(?:") ++
        (if double then lit ".*?" else lit "[^" ++ escape_literal sep ++ lit "]*?") ++ lit ")" in
      let captures' := if (captures <? MAX_RULE_GLOB_CAPTURES)%nat then S captures else captures in
      if c =? ch "\" then
        src ← glob_source_loop sep captures rest; Some (escape_literal x ++ src)
      else if negb (c =? ch "*") then
        src ← glob_source_loop sep captures (x :: rest); Some (escape_literal c ++ src)
      else if x =? ch "*"
        then src ← glob_source_loop sep captures' rest; Some (group true ++ src)
        else src ← glob_source_loop sep captures' (x :: rest); Some (group false ++ src)) as ->
      by reflexivity.
    cbv zeta. rewrite !IH1, !IH2.
    destruct (c =? ch "\"); [by destruct (glob_frags sep captures rest)|].
    destruct (c =? ch "*"); cbn [negb]; [|by destruct (glob_frags sep captures (x :: rest))].
    destruct (captures <? MAX_RULE_GLOB_CAPTURES)%nat, (x =? ch "*");
      match goal with |- context [glob_frags ?s ?n ?l] => by destruct (glob_frags s n l) end.
Qed.

Lemma compile_glob_regex_inv p sep r :
  compile_glob_regex p sep = Some r ->
  exists fs, glob_frags sep 0 p = Some fs /\ regex_accepts r = true /\
    r = mkLinearRegex (anchored_source fs) false (Some GLOB_REGEX_SIZE_LIMIT).
Proof.
  unfold compile_glob_regex. rewrite glob_source_frags.
  destruct (glob_frags sep 0 p) as [fs|]; [|done]. unfold mbind, option_bind. cbn [fmap option_fmap option_map].
  fold (anchored_source fs). destruct (regex_accepts _) eqn:E; [|done].
  intros [= <-]. eauto.
Qed.

Context {PL : PatternLaws PE}.

Lemma compile_glob_regex_correct p sep r text :
  compile_glob_regex p sep = Some r -> regex_is_match r text = globb sep p text.
Proof.
  intros (fs & Hfs & Hacc & ->)%compile_glob_regex_inv.
  apply eq_bool_prop_intro. rewrite !Is_true_true.
  rewrite (globb_frags sep 0 p text), Hfs. cbn [accepts].
  rewrite <- (regex_fragment fs (Some GLOB_REGEX_SIZE_LIMIT) text Hacc).
  unfold regex_is_match. destruct (regex_captures _ text); split; try done; by intros [? ?].
Qed.
End GlobProofs.

(** ** The interning set *)

Section GlobSet.
Context {PE : PatternEngines}.

(** Every id names a program compiled from exactly that pattern and separator. *)
Definition glob_set_wf (set : CompiledGlobSet) : Prop :=
  forall p sep id, glob_id set p sep = Some id ->
    exists r, gs_programs set !! id = Some r /\ compile_glob_regex p sep = Some r.

Definition registered (set : CompiledGlobSet) (ps : list (str * char)) : Prop :=
  Forall (fun p => is_Some (glob_id set p.1 p.2)) ps.

(** [set'] knows every id of [set]. *)
Definition glob_set_extends (set set' : CompiledGlobSet) : Prop :=
  forall p sep id, glob_id set p sep = Some id -> glob_id set' p sep = Some id.

Lemma glob_set_wf_default : glob_set_wf CompiledGlobSet_default.
Proof. by intros p sep id. Qed.

Lemma glob_id_insert set p sep id programs p' sep' :
  glob_id (mkCompiledGlobSet
    (<[sep := <[p := id]> (default ∅ (gs_ids set !! sep))]> (gs_ids set)) programs) p' sep' =
  if decide (p' = p /\ sep' = sep) then Some id else glob_id set p' sep'.
Proof.
  unfold glob_id, mbind, option_bind. cbn [gs_ids].
  destruct (decide (sep = sep')) as [->|Hs].
  - rewrite lookup_insert_eq. destruct (decide (p = p')) as [->|Hp].
    + rewrite lookup_insert_eq. by rewrite decide_True.
    + rewrite lookup_insert_ne by done. rewrite decide_False by naive_solver.
      by destruct (gs_ids set !! sep').
  - rewrite lookup_insert_ne by done. by rewrite decide_False by naive_solver.
Qed.

Lemma register_spec set p sep set' :
  glob_set_wf set -> register set p sep = Some set' ->
  glob_set_wf set' /\ glob_set_extends set set' /\ is_Some (glob_id set' p sep).
Proof.
  intros Hwf. unfold register. destruct (glob_id set p sep) as [id|] eqn:Eid.
  { intros [= <-]. split_and!; [done|by intros ???|by eexists]. }
  unfold mbind, option_bind. destruct (compile_glob_regex p sep) as [r|] eqn:Er; [|done].
  intros [= <-]. split_and!.
  - intros p' sep' id'. rewrite glob_id_insert. cbn [gs_programs]. case_decide as Hd.
    + destruct Hd as [-> ->]. intros [= <-]. exists r. split; [|done].
      rewrite lookup_app_r by lia. by rewrite Nat.sub_diag.
    + intros Hid. destruct (Hwf _ _ _ Hid) as (r' & Hr' & Hc). exists r'. split; [|done].
      by apply lookup_app_l_Some.
  - intros p' sep' id' Hid. rewrite glob_id_insert. case_decide as Hd; [|done].
    destruct Hd as [-> ->]. congruence.
  - rewrite glob_id_insert. rewrite decide_True by done. by eexists.
Qed.

Lemma glob_set_extends_trans s1 s2 s3 :
  glob_set_extends s1 s2 -> glob_set_extends s2 s3 -> glob_set_extends s1 s3.
Proof. intros H1 H2 p sep id H. by apply H2, H1. Qed.

Lemma registered_extends s1 s2 ps :
  glob_set_extends s1 s2 -> registered s1 ps -> registered s2 ps.
Proof.
  intros He Hr. eapply Forall_impl; [exact Hr|]. intros p [id Hid]. exists id. by apply He.
Qed.

(** A fold of partial steps that starts from a panic stays there. *)
Lemma foldl_None {A B} (f : B -> A -> option B) (l : list A) :
  foldl (fun acc x => b ← acc; f b x) None l = None.
Proof. by induction l. Qed.

(** Folding steps that preserve an invariant and extend the state. *)
Lemma foldl_partial {A B} (f : B -> A -> option B) (I : B -> Prop) (R : B -> B -> Prop)
    (Q : A -> B -> Prop) :
  (forall b, R b b) -> (forall a b c, R a b -> R b c -> R a c) ->
  (forall b x b', I b -> f b x = Some b' -> I b' /\ R b b' /\ Q x b') ->
  (forall x b b', R b b' -> Q x b -> Q x b') ->
  forall l b b', I b -> foldl (fun acc x => b ← acc; f b x) (Some b) l = Some b' ->
    I b' /\ R b b' /\ Forall (fun x => Q x b') l.
Proof.
  intros Hrefl Htrans Hstep Hmono l. induction l as [|x l IH]; intros b b' Hb; simpl.
  - intros [= <-]. auto.
  - destruct (f b x) as [b1|] eqn:E; [|by rewrite foldl_None].
    intros H. destruct (Hstep b x b1 Hb E) as (H1 & H2 & H3).
    destruct (IH b1 b' H1 H) as (H4 & H5 & H6). split_and!; eauto.
Qed.

Lemma register_all_spec set ps set' :
  glob_set_wf set -> register_all set ps = Some set' ->
  glob_set_wf set' /\ glob_set_extends set set' /\ registered set' ps.
Proof.
  unfold register_all.
  apply (foldl_partial (fun set p => register set p.1 p.2) glob_set_wf glob_set_extends
    (fun p set => is_Some (glob_id set p.1 p.2))).
  - by intros ????.
  - intros. by eapply glob_set_extends_trans.
  - intros b x b' Hb H. by apply register_spec.
  - intros x b b' He [id Hid]. exists id. by apply He.
Qed.

(** After a successful build every glob of every rule has an id. *)
Lemma CompiledGlobSet_build_spec rules set :
  CompiledGlobSet_build rules = Some set ->
  glob_set_wf set /\
  Forall (fun rule => registered set (matcher_globs (r_matcher rule)) /\
    Forall (fun c => registered set (condition_globs c)) (r_conditions rule)) rules.
Proof.
  unfold CompiledGlobSet_build. intros H.
  assert (glob_set_wf set /\ glob_set_extends CompiledGlobSet_default set /\
    Forall (fun rule => registered set (matcher_globs (r_matcher rule)) /\
      Forall (fun c => registered set (condition_globs c)) (r_conditions rule)) rules) as (?&_&?);
    [|done].
  revert H. apply (foldl_partial
    (fun set rule => set ← register_matcher set (r_matcher rule);
       foldl (fun acc c => set ← acc; register_condition set c) (Some set) (r_conditions rule))
    glob_set_wf glob_set_extends
    (fun rule set => registered set (matcher_globs (r_matcher rule)) /\
      Forall (fun c => registered set (condition_globs c)) (r_conditions rule))).
  - by intros ????.
  - intros. by eapply glob_set_extends_trans.
  - intros s rule s' Hs Hstep. unfold register_matcher, mbind, option_bind in Hstep.
    destruct (register_all s _) as [s1|] eqn:E1; [|done].
    apply register_all_spec in E1 as (Hw1 & Hx1 & Hr1); [|done].
    apply (foldl_partial register_condition glob_set_wf glob_set_extends
      (fun c set => registered set (condition_globs c))) in Hstep as (Hw2 & Hx2 & Hr2).
    + split_and!; [done|by eapply glob_set_extends_trans| |done]. by eapply registered_extends.
    + by intros ????.
    + intros. by eapply glob_set_extends_trans.
    + intros b x b' Hb H. by apply register_all_spec.
    + intros x b b' Hb H. by eapply registered_extends.
    + done.
  - intros rule s s' Hx [H1 H2]. split; [by eapply registered_extends|].
    eapply Forall_impl; [exact H2|]. intros c Hc. by eapply registered_extends.
  - apply glob_set_wf_default.
Qed.
End GlobSet.

(** ** Correctness of interned globs *)


