(* ===== verification/Evaluate.v ===== *)
(** * Rule matchers and conditions over compiled resources

    crates/rsproxy-rules/src/matcher/pattern.rs, matcher/condition.rs,
    planning.rs and the resource types of model.rs: evaluation of a rule's
    matcher and conditions through the interned globs and body literals of a
    snapshot.  The [OnceCell] caches of the source memoise pure functions of
    the request; the model evaluates those functions where they are used. *)
From Stdlib Require Import Ascii String.
From stdpp Require Import base numbers list gmap strings.
From S2P Require Import Prelude Utf8 NetAddr Family Model Url Engines Matching.

Abbreviation BodyLiteralId := nat (only parsing).

Module CompiledMatcherResources.
Inductive t :=
| None_
| Glob (host port path query : option GlobId)
| Not (inner : t).
End CompiledMatcherResources.

Module CompiledConditionResources.
Inductive t :=
| None_
| Host (id : option GlobId)
| UrlGlob (id : option GlobId)
| ClientIp (ids : list (option GlobId))
| ServerIp (ids : list (option GlobId))
| BodyContains (id : BodyLiteralId)
| Children (children : list t)
| Not (inner : t).
End CompiledConditionResources.

Record CompiledRuleResources := mkCompiledRuleResources {
  cr_matcher : CompiledMatcherResources.t;
  cr_conditions : list CompiledConditionResources.t;
}.

Record CompiledBodyContainsSet := mkCompiledBodyContainsSet {
  bs_literals : list str;
  bs_literal_ids : gmap str BodyLiteralId;
  bs_matcher : option AhoCorasick;
}.

(** ** Captures of a regular-expression match *)

(** [captures.name(name)]: the text of the group carrying the name. *)
Fixpoint capture_by_name (names : list (option str)) (groups : list (option str)) (name : str)
    : option str :=
  match names, groups with
  | n :: names', g :: groups' =>
      match n with
      | Some n => if n =s? name then g else capture_by_name names' groups' name
      | None => capture_by_name names' groups' name
      end
  | _, _ => None
  end.

(** [collect_captures] with the engine's group list and capture names. *)
Definition collect_captures (names : list (option str)) (groups : list (option str)) : Captures :=
  let get_index i := match groups !! i with Some g => g | None => None end in
  let base := mkCaptures (get_index 0%nat) [] ∅ in
  let indexed := fold_left
    (fun out idx => Captures_insert_index out (unwrap_or (get_index idx) []))
    (seq 1 (Nat.min (length groups) 10 - 1)) base in
  fold_left
    (fun out name =>
       match name with
       | Some name =>
           match capture_by_name names groups name with
           | Some value => mkCaptures (c_whole out) (c_indexed out) (<[name := value]> (c_named out))
           | None => out
           end
       | None => out
       end) names indexed.

(** [contains_ascii_case_insensitive]: some window of the bytes equals the
    needle up to ASCII case. *)
Fixpoint windows_any (needle haystack : list N) : bool :=
  (if (length needle <=? length haystack)%nat
   then eq_ignore_ascii_case (take (length needle) haystack) needle else false) ||
  match haystack with
  | [] => false
  | _ :: rest => windows_any needle rest
  end.

Definition contains_ascii_case_insensitive (haystack needle : str) : bool :=
  if is_emptyb needle then true else windows_any (encode needle) (encode haystack).

Section Matchers.
Context {PE : PatternEngines}.

Definition matches_linear (regex : LinearRegex) (raw_url : str) : option Captures :=
  groups ← regex_captures regex raw_url;
  Some (collect_captures (regex_capture_names regex) groups).

Definition matches_fancy (regex : FancyRegex) (raw_url : str) : option Captures :=
  match fancy_captures regex raw_url with
  | Ok (Some groups) => Some (collect_captures (fancy_capture_names regex) groups)
  | Ok None => None
  | Err BacktrackLimitExceeded => None
  | Err _ => None
  end.

Definition RegexMatcher_matches (rm : RegexMatcher) (raw_url : str) : option Captures :=
  match rm_compiled rm with
  | CompiledLinear regex => matches_linear regex raw_url
  | CompiledFancy regex => matches_fancy regex raw_url
  end.

Definition resources_match (id : option GlobId) (text : str) (globs : CompiledGlobSet) : bool :=
  match id with Some id => glob_match_id globs id text | None => false end.

Definition resources_match_with_captures (id : option GlobId) (text : str)
    (globs : CompiledGlobSet) (captures : Captures) : option Captures :=
  id ← id; glob_match_with_captures_id globs id text captures.

Definition GlobMatcher_matches_compiled (self : GlobMatcher) (url : UrlParts)
    (globs : CompiledGlobSet) (resources : CompiledMatcherResources.t) : option Captures :=
  match resources with
  | CompiledMatcherResources.Glob host port_id path_id query_id =>
      if match gm_scheme self with
         | Some scheme => negb (eq_ignore_ascii_case scheme (up_scheme url))
         | None => false
         end then None
      else if negb (host_matches_id globs (gm_host self) (up_host url) host) then None
      else if match gm_port self with
              | Some _ =>
                  match effective_port url with
                  | Some port => negb (resources_match port_id (show_N port) globs)
                  | None => true
                  end
              | None => false
              end then None
      else
        captures ←
          match gm_path self with
          | Some path_pat =>
              if glob_syntax_is_active path_pat
              then resources_match_with_captures path_id (up_path url) globs Captures_default
              else if path_prefix_matches path_pat (up_path url) then Some Captures_default
              else None
          | None => Some Captures_default
          end;
        match gm_query self with
        | Some _ =>
            resources_match_with_captures query_id (unwrap_or (up_query url) []) globs captures
        | None => Some captures
        end
  | _ => None
  end.

Fixpoint Matcher_matches_compiled (self : Matcher.t) (url : UrlParts) (raw_url : str)
    (globs : CompiledGlobSet) (resources : CompiledMatcherResources.t) : option Captures :=
  match self with
  | Matcher.ExactUrl expected =>
      if exact_url_matches expected url then Some Captures_default else None
  | Matcher.Glob glob => GlobMatcher_matches_compiled glob url globs resources
  | Matcher.Port port =>
      if effective_port url =s? Some port then Some Captures_default else None
  | Matcher.Regex regex => RegexMatcher_matches regex raw_url
  | Matcher.Not inner =>
      match resources with
      | CompiledMatcherResources.Not inner_resources =>
          match Matcher_matches_compiled inner url raw_url globs inner_resources with
          | Some _ => None
          | None => Some Captures_default
          end
      | _ => None
      end
  end.

(** ** Body literals *)

(** The loop of [scan]; [None] is an out-of-range index, which the ids
    reported by the automaton never are. *)
Fixpoint scan_loop (found : list nat) (matched : list bool) (remaining : nat)
    : option (list bool) :=
  match found with
  | [] => Some matched
  | id :: rest =>
      match matched !! id with
      | None => None
      | Some true => scan_loop rest matched remaining
      | Some false =>
          let matched := <[id := true]> matched in
          if (remaining - 1 =? 0)%nat then Some matched
          else scan_loop rest matched (remaining - 1)
      end
  end.

Definition scan (set : CompiledBodyContainsSet) (text : str) : option (list bool) :=
  let matched := replicate (length (bs_literals set)) false in
  match bs_matcher set with
  | None => Some matched
  | Some matcher => scan_loop (find_overlapping matcher text) matched (length matched)
  end.

Definition matches_id (id : BodyLiteralId) (matched : list bool) : bool :=
  unwrap_or (matched !! id) false.

(** ** Conditions *)

Record ConditionMatchContext := mkConditionMatchContext {
  cx_url : option UrlParts;
  cx_res : option ResponseMeta;
  cx_line : N;
  cx_globs : CompiledGlobSet;
  cx_body_literals : CompiledBodyContainsSet;
  cx_req : RequestMeta;
}.

Definition with_line (cx : ConditionMatchContext) (line : N) : ConditionMatchContext :=
  mkConditionMatchContext (cx_url cx) (cx_res cx) line (cx_globs cx) (cx_body_literals cx)
    (cx_req cx).

Definition body_text (req : RequestMeta) : str := from_utf8_lossy (req_body req).

Definition body_contains (req : RequestMeta) (compiled : CompiledBodyContainsSet)
    (id : BodyLiteralId) : bool :=
  match scan compiled (body_text req) with
  | Some matched => matches_id id matched
  | None => false
  end.

Definition UrlCondition_matches (self : UrlCondition.t) (raw_url : str)
    (globs : CompiledGlobSet) (resources : CompiledConditionResources.t) : bool :=
  match self with
  | UrlCondition.Glob pattern =>
      if glob_syntax_is_active pattern then
        match resources with
        | CompiledConditionResources.UrlGlob id =>
            match id with Some id => glob_match_id globs id raw_url | None => false end
        | _ => false
        end
      else pattern =s? raw_url
  | UrlCondition.Regex regex => is_some (RegexMatcher_matches regex raw_url)
  end.

(** [patterns.iter().zip(ids).any(..)] of the address conditions. *)
Fixpoint any_ip_matches (globs : CompiledGlobSet) (actual : str) (patterns : list str)
    (ids : list (option GlobId)) : bool :=
  match patterns, ids with
  | pattern :: patterns', id :: ids' =>
      ip_matches_id globs pattern actual id || any_ip_matches globs actual patterns' ids'
  | _, _ => false
  end.

Definition header_contains (headers : list (str * str)) (name value : str) : bool :=
  match header headers name with
  | Some actual => contains_ascii_case_insensitive actual value
  | None => false
  end.

Fixpoint matches_with_compiled (self : Condition.t) (resources : CompiledConditionResources.t)
    (cx : ConditionMatchContext) : bool :=
  let req := cx_req cx in
  let globs := cx_globs cx in
  match self with
  | Condition.Method methods =>
      existsb (fun m => eq_ignore_ascii_case m (req_method req)) methods
  | Condition.Host pattern =>
      match resources with
      | CompiledConditionResources.Host id =>
          match cx_url cx with
          | Some url => host_matches_id globs pattern (up_host url) id
          | None => false
          end
      | _ => false
      end
  | Condition.Url condition => UrlCondition_matches condition (req_url req) globs resources
  | Condition.ClientIp patterns =>
      match normalize_ip_value <$> req_client_ip req with
      | Some actual =>
          match resources with
          | CompiledConditionResources.ClientIp ids => any_ip_matches globs actual patterns ids
          | _ => false
          end
      | None => false
      end
  | Condition.ServerIp patterns =>
      match normalize_ip_value <$> req_server_ip req with
      | Some actual =>
          match resources with
          | CompiledConditionResources.ServerIp ids => any_ip_matches globs actual patterns ids
          | _ => false
          end
      | None => false
      end
  | Condition.HeaderPresent name => is_some (header (req_headers req) name)
  | Condition.HeaderContains name value => header_contains (req_headers req) name value
  | Condition.ResHeaderPresent name =>
      match cx_res cx with
      | Some res => is_some (header (res_headers res) name)
      | None => false
      end
  | Condition.ResHeaderContains name value =>
      match cx_res cx with
      | Some res => header_contains (res_headers res) name value
      | None => false
      end
  | Condition.BodyContains _ =>
      match resources with
      | CompiledConditionResources.BodyContains id =>
          body_contains req (cx_body_literals cx) id
      | _ => false
      end
  | Condition.BodyRegex regex => is_some (RegexMatcher_matches regex (body_text req))
  | Condition.Status statuses =>
      match cx_res cx with
      | Some res => existsb (N.eqb (res_status res)) statuses
      | None => false
      end
  | Condition.ChancePermille permille => chance req (cx_line cx) permille
  | Condition.EnvPresent name => is_some (env_var name)
  | Condition.EnvEquals name value =>
      match env_var name with Some actual => actual =s? value | None => false end
  | Condition.Any conditions =>
      match resources with
      | CompiledConditionResources.Children children =>
          (fix any (cs : list Condition.t) (rs : list CompiledConditionResources.t) : bool :=
             match cs, rs with
             | c :: cs', r :: rs' => matches_with_compiled c r cx || any cs' rs'
             | _, _ => false
             end) conditions children
      | _ => false
      end
  | Condition.All conditions =>
      match resources with
      | CompiledConditionResources.Children children =>
          (fix all (cs : list Condition.t) (rs : list CompiledConditionResources.t) : bool :=
             match cs, rs with
             | c :: cs', r :: rs' => matches_with_compiled c r cx && all cs' rs'
             | _, _ => true
             end) conditions children
      | _ => false
      end
  | Condition.Not inner =>
      if negb (is_some (cx_res cx)) && Condition.depends_on_response inner then false
      else
        match resources with
        | CompiledConditionResources.Not inner_resources =>
            negb (matches_with_compiled inner inner_resources cx)
        | _ => false
        end
  end.

(** [may_match_before_request_body] (planning.rs). *)
Fixpoint may_match_before_request_body (self : Condition.t)
    (resources : CompiledConditionResources.t) (cx : ConditionMatchContext) : bool :=
  match self with
  | Condition.BodyContains _ | Condition.BodyRegex _ | Condition.ResHeaderPresent _
  | Condition.ResHeaderContains _ _ | Condition.Status _ => true
  | Condition.Any conditions =>
      match resources with
      | CompiledConditionResources.Children children =>
          (fix any (cs : list Condition.t) (rs : list CompiledConditionResources.t) : bool :=
             match cs, rs with
             | c :: cs', r :: rs' => may_match_before_request_body c r cx || any cs' rs'
             | _, _ => false
             end) conditions children
      | _ => false
      end
  | Condition.All conditions =>
      match resources with
      | CompiledConditionResources.Children children =>
          (fix all (cs : list Condition.t) (rs : list CompiledConditionResources.t) : bool :=
             match cs, rs with
             | c :: cs', r :: rs' => may_match_before_request_body c r cx && all cs' rs'
             | _, _ => true
             end) conditions children
      | _ => false
      end
  | Condition.Not inner =>
      if Condition.depends_on_request_body inner || Condition.depends_on_response inner then true
      else matches_with_compiled self resources cx
  | _ => matches_with_compiled self resources cx
  end.
End Matchers.
