(* ===== verification/Index.v ===== *)
(** * The candidate index

    crates/rsproxy-rules/src/index.rs: host buckets, the global bucket, the
    Aho-Corasick prefilter of required regex literals, and the binding of
    rules to interned globs and body literals. *)
From Stdlib Require Import Ascii String.
From stdpp Require Import base numbers list gmap strings.
From S2P Require Import Prelude Utf8 NetAddr Family Model Url Engines Matching Evaluate.

(** ** Ordered collections: [BTreeSet<String>] and [BTreeMap<String, Vec<usize>>] *)

(** [Ord for str]: lexicographic on bytes, which is lexicographic on chars. *)
Fixpoint str_compare (a b : str) : comparison :=
  match a, b with
  | [], [] => Eq
  | [], _ :: _ => Lt
  | _ :: _, [] => Gt
  | x :: a', y :: b' =>
      match N.compare x y with
      | Eq => str_compare a' b'
      | o => o
      end
  end.

Fixpoint bset_insert (x : str) (s : list str) : list str :=
  match s with
  | [] => [x]
  | y :: s' =>
      match str_compare x y with
      | Lt => x :: s
      | Eq => s
      | Gt => y :: bset_insert x s'
      end
  end.

(** [map.entry(key).or_default().push(value)]. *)
Fixpoint bmap_push (key : str) (value : nat) (m : list (str * list nat)) : list (str * list nat) :=
  match m with
  | [] => [(key, [value])]
  | (k, vs) :: m' =>
      match str_compare key k with
      | Lt => (key, [value]) :: m
      | Eq => (k, vs ++ [value]) :: m'
      | Gt => (k, vs) :: bmap_push key value m'
      end
  end.

Definition bucket_push (key : str) (value : nat) (m : gmap str (list nat)) : gmap str (list nat) :=
  <[key := default [] (m !! key) ++ [value]]> m.

(** ** Index records (model.rs) *)

Record RuleIndex := mkRuleIndex {
  ix_domain_exact : gmap str (list nat);
  ix_domain_suffix : gmap str (list nat);
  ix_global : list nat;
  ix_prefilter_literals : list str;
  ix_prefilter_literal_rules : list (list nat);
  ix_prefilter_rule_ids : gset nat;
  ix_prefilter : option AhoCorasick;
  ix_compiled_globs : CompiledGlobSet;
  ix_compiled_body_literals : CompiledBodyContainsSet;
  ix_compiled_resources : list CompiledRuleResources;
}.

Record RuleSetStats := mkRuleSetStats {
  st_rules : nat;
  st_disabled : nat;
  st_domain_exact_entries : nat;
  st_domain_suffix_entries : nat;
  st_indexed_rules : nat;
  st_global_rules : nat;
  st_prefilter_literals : nat;
  st_prefilter_rules : nat;
  st_compiled_globs : nat;
  st_compiled_body_literals : nat;
}.

(** ** Index keys of matchers *)

Module MatcherIndexKey.
Inductive t := Exact (host : str) | Suffix (host : str) | Global.
End MatcherIndexKey.

Definition is_plain_domain (host : str) : bool :=
  negb (is_emptyb host) &&
  forallb (fun c => is_ascii_alphanumeric c || (c =? ch "-") || (c =? ch ".") ||
                    (c =? ch ":") || (c =? ch "_")) host.

(** [trim_matches(['[', ']']).to_ascii_lowercase()]. *)
Definition normalize_host (host : str) : str := to_ascii_lowercase (trim_matches is_bracket host).

Definition glob_index_key (glob : GlobMatcher) : MatcherIndexKey.t :=
  let host := normalize_host (gm_host glob) in
  if is_emptyb host || (host =s? lit "*") || contains_char (ch "?") host
  then MatcherIndexKey.Global
  else
    match opt_or_else (strip_prefix (lit "**.") host)
            (opt_or_else (strip_prefix (lit "*.") host) (strip_prefix (lit ".") host)) with
    | Some base =>
        if is_plain_domain base then MatcherIndexKey.Suffix base else MatcherIndexKey.Global
    | None =>
        if contains_char (ch "*") host then MatcherIndexKey.Global
        else if is_plain_domain host then MatcherIndexKey.Exact host
        else MatcherIndexKey.Global
    end.

Definition matcher_index_key (m : Matcher.t) : MatcherIndexKey.t :=
  match m with
  | Matcher.ExactUrl expected =>
      match UrlParts_parse expected with
      | Ok url => MatcherIndexKey.Exact (normalize_host (up_host url))
      | Err _ => MatcherIndexKey.Global
      end
  | Matcher.Glob glob => glob_index_key glob
  | Matcher.Port _ | Matcher.Regex _ | Matcher.Not _ => MatcherIndexKey.Global
  end.

(** The host itself and the texts after its dots, longest first; a trailing
    dot adds no empty suffix.  [fuel] bounds the number of suffixes. *)
Fixpoint host_suffixes_loop (fuel : nat) (host : str) : list str :=
  match fuel with
  | O => []
  | S fuel' =>
      host :: match split_once [ch "."] host with
              | None => []
              | Some (_, rest) => if is_emptyb rest then [] else host_suffixes_loop fuel' rest
              end
  end.
Definition host_suffixes (host : str) : list str := host_suffixes_loop (S (length host)) host.

(** [extend_unique]: [out] without repetitions, [seen] its set. *)
Fixpoint extend_unique (out : list nat) (seen : gset nat) (values : list nat)
    : list nat * gset nat :=
  match values with
  | [] => (out, seen)
  | v :: rest =>
      if decide (v ∈ seen) then extend_unique out seen rest
      else extend_unique (out ++ [v]) ({[v]} ∪ seen) rest
  end.

(** [max_by_key(Vec::len)]: the last longest. *)
Definition max_by_len (candidates : list (list N)) : option (list N) :=
  fold_left (fun best x =>
    match best with
    | None => Some x
    | Some b => if (length x <? length b)%nat then Some b else Some x
    end) candidates None.

Fixpoint longest_required (h : Hir) : option (list N) :=
  match h with
  | HirLiteral literal => Some literal
  | HirCapture sub => longest_required sub
  | HirConcat parts =>
      max_by_len
        ((fix filter_map (parts : list Hir) : list (list N) :=
            match parts with
            | [] => []
            | p :: ps =>
                match longest_required p with
                | Some l => l :: filter_map ps
                | None => filter_map ps
                end
            end) parts)
  | HirRepetition min sub => if 0 <? min then longest_required sub else None
  | HirEmpty | HirClass | HirLook | HirAlternation _ => None
  end.

Section Indexing.
Context {PE : PatternEngines}.

Definition required_regex_literal (regex : RegexMatcher) : option str :=
  if rm_case_insensitive regex then None
  else
    hir ← regex_syntax_parse (rm_pattern regex);
    bytes ← longest_required hir;
    literal ← from_utf8 bytes;
    if 3 <=? len literal then Some literal else None.

(** ** Body literals *)

Definition collect_body_literals (c : Condition.t) (literals : list str) : list str :=
  fold_left (fun literals node =>
    match node with
    | Condition.BodyContains literal => bset_insert literal literals
    | _ => literals
    end) (Condition.nodes c) literals.

Definition index_of_literals (literals : list str) : gmap str nat :=
  list_to_map (imap (fun i l => (l, i)) literals).

(** The map from source literals to the ids of their lower-cased forms;
    [None] is a failing index operation. *)
Fixpoint bind_literals (normalized_ids : gmap str nat) (source_literals : list str)
    : option (gmap str nat) :=
  match source_literals with
  | [] => Some ∅
  | literal :: rest =>
      ids ← bind_literals normalized_ids rest;
      id ← normalized_ids !! to_ascii_lowercase literal;
      Some (<[literal := id]> ids)
  end.

(** [None] is the failure of the [expect] on the automaton. *)
Definition from_literals (source_literals : list str) : option CompiledBodyContainsSet :=
  let literals :=
    fold_left (fun s l => bset_insert (to_ascii_lowercase l) s) source_literals [] in
  literal_ids ← bind_literals (index_of_literals literals) source_literals;
  if is_emptyb literals then Some (mkCompiledBodyContainsSet literals literal_ids None)
  else
    let matcher := mkAhoCorasick literals true in
    if ac_accepts matcher
    then Some (mkCompiledBodyContainsSet literals literal_ids (Some matcher))
    else None.

Definition CompiledBodyContainsSet_build (rules : list Rule) : option CompiledBodyContainsSet :=
  from_literals
    (fold_left (fun s rule => fold_left (fun s c => collect_body_literals c s) (r_conditions rule) s)
       rules []).

(** ** Binding rules to compiled resources *)

Fixpoint bind_matcher_resources (m : Matcher.t) (globs : CompiledGlobSet)
    : CompiledMatcherResources.t :=
  match m with
  | Matcher.Glob glob =>
      CompiledMatcherResources.Glob
        (if host_pattern_uses_regex (gm_host glob)
         then glob_id globs (gm_host glob) (ch ".") else None)
        (port ← gm_port glob; glob_id globs port (ch "."))
        (path ← gm_path glob;
         if glob_syntax_is_active path then glob_id globs path (ch "/") else None)
        (query ← gm_query glob; glob_id globs query (ch "&"))
  | Matcher.Not inner => CompiledMatcherResources.Not (bind_matcher_resources inner globs)
  | Matcher.ExactUrl _ | Matcher.Port _ | Matcher.Regex _ => CompiledMatcherResources.None_
  end.

(** [None] is the failure of the [expect] on a missing literal id. *)
Fixpoint bind_condition_resources (c : Condition.t) (globs : CompiledGlobSet)
    (body_literals : CompiledBodyContainsSet) : option CompiledConditionResources.t :=
  match c with
  | Condition.Host pattern =>
      Some (CompiledConditionResources.Host
        (if host_pattern_uses_regex pattern
         then glob_id globs (to_ascii_lowercase pattern) (ch ".") else None))
  | Condition.Url (UrlCondition.Glob pattern) =>
      Some (CompiledConditionResources.UrlGlob
        (if glob_syntax_is_active pattern then glob_id globs pattern 0 else None))
  | Condition.ClientIp patterns =>
      Some (CompiledConditionResources.ClientIp
        (map (fun p => glob_id globs (normalize_ip_value p) 0) patterns))
  | Condition.ServerIp patterns =>
      Some (CompiledConditionResources.ServerIp
        (map (fun p => glob_id globs (normalize_ip_value p) 0) patterns))
  | Condition.BodyContains literal =>
      id ← bs_literal_ids body_literals !! literal;
      Some (CompiledConditionResources.BodyContains id)
  | Condition.Any children | Condition.All children =>
      rs ← (fix bind_all (cs : list Condition.t) : option (list CompiledConditionResources.t) :=
              match cs with
              | [] => Some []
              | c :: cs' =>
                  r ← bind_condition_resources c globs body_literals;
                  rs ← bind_all cs'; Some (r :: rs)
              end) children;
      Some (CompiledConditionResources.Children rs)
  | Condition.Not inner =>
      r ← bind_condition_resources inner globs body_literals;
      Some (CompiledConditionResources.Not r)
  | _ => Some CompiledConditionResources.None_
  end.

Definition bind_rule (globs : CompiledGlobSet) (body_literals : CompiledBodyContainsSet)
    (rule : Rule) : option CompiledRuleResources :=
  conditions ← mapM (fun c => bind_condition_resources c globs body_literals) (r_conditions rule);
  Some (mkCompiledRuleResources (bind_matcher_resources (r_matcher rule) globs) conditions).

(** ** Building the index *)

(** The buckets while rules are classified; the last field is the ordered map
    from required literals to rules. *)
Record Buckets := mkBuckets {
  bk_exact : gmap str (list nat);
  bk_suffix : gmap str (list nat);
  bk_global : list nat;
  bk_rule_ids : gset nat;
  bk_literal_rules : list (str * list nat);
}.
Definition Buckets_empty : Buckets := mkBuckets ∅ ∅ [] ∅ [].

Definition classify_rule (b : Buckets) (idx : nat) (rule : Rule) : Buckets :=
  let required :=
    match r_matcher rule with
    | Matcher.Regex regex => required_regex_literal regex
    | _ => None
    end in
  match required with
  | Some literal =>
      mkBuckets (bk_exact b) (bk_suffix b) (bk_global b) ({[idx]} ∪ bk_rule_ids b)
        (bmap_push literal idx (bk_literal_rules b))
  | None =>
      match matcher_index_key (r_matcher rule) with
      | MatcherIndexKey.Exact host =>
          mkBuckets (bucket_push host idx (bk_exact b)) (bk_suffix b) (bk_global b)
            (bk_rule_ids b) (bk_literal_rules b)
      | MatcherIndexKey.Suffix host =>
          mkBuckets (bk_exact b) (bucket_push host idx (bk_suffix b)) (bk_global b)
            (bk_rule_ids b) (bk_literal_rules b)
      | MatcherIndexKey.Global =>
          mkBuckets (bk_exact b) (bk_suffix b) (bk_global b ++ [idx])
            (bk_rule_ids b) (bk_literal_rules b)
      end
  end.

Fixpoint classify_rules (b : Buckets) (idx : nat) (rules : list Rule) : Buckets :=
  match rules with
  | [] => b
  | rule :: rest => classify_rules (classify_rule b idx rule) (S idx) rest
  end.

(** [None] is the panic of an [expect] on a glob or literal that does not compile. *)
Definition RuleIndex_build (rules : list Rule) : option RuleIndex :=
  let b := classify_rules Buckets_empty 0 rules in
  let literals := map fst (bk_literal_rules b) in
  let literal_rules := map snd (bk_literal_rules b) in
  let automaton := mkAhoCorasick literals false in
  let prefilter :=
    if is_emptyb literals then None
    else if ac_accepts automaton then Some automaton else None in
  globs ← CompiledGlobSet_build rules;
  body_literals ← CompiledBodyContainsSet_build rules;
  resources ← mapM (bind_rule globs body_literals) rules;
  Some
    match prefilter with
    | Some _ =>
        mkRuleIndex (bk_exact b) (bk_suffix b) (bk_global b) literals literal_rules
          (bk_rule_ids b) prefilter globs body_literals resources
    | None =>
        mkRuleIndex (bk_exact b) (bk_suffix b) (bk_global b ++ concat literal_rules) [] []
          ∅ None globs body_literals resources
    end.

(** The loop of [prefilter_matches] over the reported pattern ids; it stops
    once every prefiltered rule is a candidate. *)
Fixpoint prefilter_loop (literal_rules : list (list nat)) (total : nat) (found : list nat)
    (out : list nat) (seen : gset nat) : list nat :=
  match found with
  | [] => out
  | pattern :: rest =>
      match literal_rules !! pattern with
      | Some rules =>
          let '(out, seen) := extend_unique out seen rules in
          if (size seen =? total)%nat then out
          else prefilter_loop literal_rules total rest out seen
      | None => prefilter_loop literal_rules total rest out seen
      end
  end.

Definition prefilter_matches (ix : RuleIndex) (raw_url : str) : list nat :=
  match ix_prefilter ix with
  | None => []
  | Some prefilter =>
      prefilter_loop (ix_prefilter_literal_rules ix) (size (ix_prefilter_rule_ids ix))
        (find_overlapping prefilter raw_url) [] ∅
  end.

Definition sum_lengths (m : gmap str (list nat)) : nat :=
  map_fold (fun _ v acc => (length v + acc)%nat) 0%nat m.

Definition RuleIndex_stats (ix : RuleIndex) (rules : list Rule) : RuleSetStats :=
  mkRuleSetStats (length rules) (length (List.filter r_disabled rules))
    (size (ix_domain_exact ix)) (size (ix_domain_suffix ix))
    (sum_lengths (ix_domain_exact ix) + sum_lengths (ix_domain_suffix ix))
    (length (ix_global ix)) (length (ix_prefilter_literals ix))
    (size (ix_prefilter_rule_ids ix)) (length (gs_programs (ix_compiled_globs ix)))
    (length (bs_literals (ix_compiled_body_literals ix))).
End Indexing.
