(* ===== verification/Resolve.v ===== *)
(** * Rule resolution

    crates/rsproxy-rules/src/resolve.rs ([resolve_inner] and
    [candidate_rule_indices]), resolution_api.rs and the snapshot record of
    model.rs, together with a reference resolution that has no index, no
    interned globs and no prefilter. *)
From Stdlib Require Import Ascii String.
From stdpp Require Import base numbers list gmap strings.
From S2P Require Import Prelude Family Utf8 NetAddr Model Url Engines Matching Evaluate Index.

Record RuleSet := mkRuleSet {
  rs_language_version : N;
  rs_version : N;
  rs_rules : list Rule;
  rs_index : RuleIndex;
}.

(** ** Action filtering *)

Definition delete_needs_request_body (op : DeleteOp.t) : bool :=
  match op with DeleteOp.ReqBody | DeleteOp.ReqBodyPath _ => true | _ => false end.

Definition action_requires_request_body (a : Action.t) : bool :=
  match a with
  | Action.ReqBody _ => true
  | Action.Delete ops => existsb delete_needs_request_body ops
  | _ => false
  end.

Definition action_for_body_availability (a : Action.t) (request_body_available : bool)
    : option Action.t :=
  if request_body_available then Some (Action.clone a)
  else
    match a with
    | Action.ReqBody _ => None
    | Action.Delete ops =>
        let ops := List.filter (fun op => negb (delete_needs_request_body op)) ops in
        if negb (is_emptyb ops) then Some (Action.Delete ops) else None
    | _ => Some (Action.clone a)
    end.

(** The mutable locals of the resolution loop. *)
Record ResolveState := mkResolveState {
  s_actions : list ResolvedAction;
  s_matched_rules : list MatchedRule;
  s_seen_rules : gset (str * N);
  s_single_families : ActionFamilySet.t;
  s_skip : SkipState.t;
}.
Definition ResolveState_init : ResolveState :=
  mkResolveState [] [] ∅ ActionFamilySet.EMPTY SkipState.default.

(** One iteration of the action loop. *)
Definition visit_action (brief : MatchedRule) (captures : Captures)
    (response : option ResponseMeta) (include_request_body : bool)
    (st : ResolveState) (action : Action.t) : ResolveState :=
  match action_for_body_availability action include_request_body with
  | None => st
  | Some action =>
      let family := Action.family action in
      if SkipState.suppresses (s_skip st) family then st
      else if Action.is_single action && ActionFamilySet.contains (s_single_families st) family
      then st
      else
        let single := if Action.is_single action
                      then ActionFamilySet.insert (s_single_families st) family
                      else s_single_families st in
        let key := (mr_group brief, mr_line brief) in
        let '(seen, matched) :=
          if decide (key ∈ s_seen_rules st) then (s_seen_rules st, s_matched_rules st)
          else ({[key]} ∪ s_seen_rules st, s_matched_rules st ++ [brief]) in
        mkResolveState
          (s_actions st ++ [mkResolvedAction action brief captures response])
          matched seen single (SkipState.observe (s_skip st) action)
  end.

Definition rule_brief (rule : Rule) : MatchedRule :=
  mkMatchedRule (r_group rule) (r_line rule) (r_raw rule).

(** The action loop of one matched rule. *)
Definition visit_rule_actions (rule : Rule) (captures : Captures) (response : option ResponseMeta)
    (include_request_body : bool) (st : ResolveState) : ResolveState :=
  fold_left (visit_action (rule_brief rule) captures response include_request_body)
    (r_actions rule) st.

(** ** Priority order: [sort_by_key(|idx| (!rule.important, *idx))] *)

Definition not_important (rules : list Rule) (idx : nat) : bool :=
  match rules !! idx with Some rule => negb (r_important rule) | None => false end.

Definition key_leb (rules : list Rule) (i j : nat) : bool :=
  match not_important rules i, not_important rules j with
  | false, true => true
  | true, false => false
  | _, _ => (i <=? j)%nat
  end.

Fixpoint insert_by_key (rules : list Rule) (i : nat) (l : list nat) : list nat :=
  match l with
  | [] => [i]
  | j :: l' => if key_leb rules i j then i :: l else j :: insert_by_key rules i l'
  end.

Definition sort_by_key (rules : list Rule) (l : list nat) : list nat :=
  foldr (insert_by_key rules) [] l.

Section Resolution.
Context {PE : PatternEngines}.

Definition candidate_rule_indices (rs : RuleSet) (url : option UrlParts) (raw_url : str)
    : list nat :=
  match url with
  | None => seq 0 (length (rs_rules rs))
  | Some url =>
      let ix := rs_index rs in
      let host := normalize_host (up_host url) in
      let acc := ([], ∅) in
      let acc := match ix_domain_exact ix !! host with
                 | Some exact => extend_unique acc.1 acc.2 exact
                 | None => acc
                 end in
      let acc := fold_left (fun acc suffix =>
        match ix_domain_suffix ix !! suffix with
        | Some bucket => extend_unique acc.1 acc.2 bucket
        | None => acc
        end) (host_suffixes host) acc in
      let acc := extend_unique acc.1 acc.2 (ix_global ix) in
      let acc := extend_unique acc.1 acc.2 (prefilter_matches ix raw_url) in
      if is_emptyb acc.1 && negb (is_emptyb raw_url) then [] else acc.1
  end.

Definition condition_context (rs : RuleSet) (parts : option UrlParts) (res : option ResponseMeta)
    (line : N) (req : RequestMeta) : ConditionMatchContext :=
  mkConditionMatchContext parts res line (ix_compiled_globs (rs_index rs))
    (ix_compiled_body_literals (rs_index rs)) req.

(** [conditions.iter().zip(&resources.conditions).all(p)] *)
Fixpoint zip_all (p : Condition.t -> CompiledConditionResources.t -> bool)
    (cs : list Condition.t) (rs : list CompiledConditionResources.t) : bool :=
  match cs, rs with
  | c :: cs', r :: rs' => p c r && zip_all p cs' rs'
  | _, _ => true
  end.

(** One iteration of the loop over ordered candidates.  Candidate indices are
    in range for the rules and their resources; the fallback arm stands for
    the index panic. *)
Definition visit_rule (rs : RuleSet) (parts : option UrlParts) (req : RequestMeta)
    (res : option ResponseMeta) (include_request_body : bool) (st : ResolveState) (idx : nat)
    : ResolveState :=
  match rs_rules rs !! idx, ix_compiled_resources (rs_index rs) !! idx with
  | Some rule, Some resources =>
      if r_disabled rule then st
      else
        match url ← parts;
              Matcher_matches_compiled (r_matcher rule) url (req_url req)
                (ix_compiled_globs (rs_index rs)) (cr_matcher resources) with
        | None => st
        | Some captures =>
            if negb include_request_body &&
               existsb Condition.depends_on_request_body (r_conditions rule)
            then st
            else if negb (zip_all
                   (fun c r => matches_with_compiled c r
                                 (condition_context rs parts res (r_line rule) req))
                   (r_conditions rule) (cr_conditions resources))
            then st
            else visit_rule_actions rule captures res include_request_body st
        end
  | _, _ => st
  end.

Definition resolve_inner (rs : RuleSet) (req : RequestMeta) (res : option ResponseMeta)
    (include_request_body : bool) : ResolveResult :=
  if is_emptyb (rs_rules rs) then mkResolveResult [] []
  else
    let parts := ok (UrlParts_parse (req_url req)) in
    let ordered := sort_by_key (rs_rules rs)
                     (candidate_rule_indices rs parts (req_url req)) in
    let st := fold_left (visit_rule rs parts req res include_request_body) ordered
                ResolveState_init in
    mkResolveResult (s_actions st) (s_matched_rules st).

(** ** Public entry points (resolution_api.rs) *)

Definition resolve (rs : RuleSet) (req : RequestMeta) : ResolveResult :=
  resolve_inner rs req None true.
Definition resolve_response (rs : RuleSet) (req : RequestMeta) (res : ResponseMeta)
    : ResolveResult := resolve_inner rs req (Some res) true.
Definition resolve_without_request_body (rs : RuleSet) (req : RequestMeta) : ResolveResult :=
  resolve_inner rs req None false.
Definition resolve_response_without_request_body (rs : RuleSet) (req : RequestMeta)
    (res : ResponseMeta) : ResolveResult := resolve_inner rs req (Some res) false.

(** The filters of [request_body_required], for one candidate. *)
Definition candidate_requires_body (rs : RuleSet) (parts : option UrlParts) (req : RequestMeta)
    (idx : nat) : bool :=
  match rs_rules rs !! idx, ix_compiled_resources (rs_index rs) !! idx with
  | Some rule, Some resources =>
      negb (r_disabled rule) &&
      is_some (url ← parts;
               Matcher_matches_compiled (r_matcher rule) url (req_url req)
                 (ix_compiled_globs (rs_index rs)) (cr_matcher resources)) &&
      zip_all (fun c r => may_match_before_request_body c r
                 (with_line (condition_context rs parts None 0 req) (r_line rule)))
        (r_conditions rule) (cr_conditions resources) &&
      (existsb Condition.depends_on_request_body (r_conditions rule) ||
       existsb action_requires_request_body (r_actions rule))
  | _, _ => false
  end.

Definition request_body_required (rs : RuleSet) (req : RequestMeta) : bool :=
  let parts := ok (UrlParts_parse (req_url req)) in
  existsb (candidate_requires_body rs parts req)
    (candidate_rule_indices rs parts (req_url req)).
End Resolution.

(** * A concrete rule set

    Three rules and a request, bound by the model's own index builder on the
    small pattern engine; the examples of the later files run on them. *)

Definition sample_rule (line : N) (m : Matcher.t) (actions : list Action.t)
    (conditions : list Condition.t) (important : bool) : Rule :=
  mkRule (lit "default") line [] m actions conditions important false [].

Definition sample_regex (pattern : string) : RegexMatcher :=
  mkRegexMatcher (lit pattern) false Linear
    (CompiledLinear (mkLinearRegex (lit pattern) false None)).

Definition sample_rules : list Rule := [
  sample_rule 1
    (Matcher.Glob (mkGlobMatcher None (lit "*.example.com") None (Some (lit "/a/*/c")) None))
    [Action.Status 404; Action.Hide] [] false;
  sample_rule 2 (Matcher.Regex (sample_regex "example"))
    [Action.Status 500; Action.Tag (Value.Inline (lit "x"))]
    [Condition.BodyContains (lit "HeLLo")] true;
  sample_rule 3 (Matcher.Glob (mkGlobMatcher None (lit "**") None None None))
    [Action.Skip 0; Action.Direct] [Condition.ClientIp [lit "10.*"]] false
].

Definition sample_request (url : string) : RequestMeta :=
  mkRequestMeta (lit "GET") (lit url) [] (encode (lit "xx hello"))
    (Some (lit "10.0.0.1:55")) None (mkTemplateMetadata [] 0 0 []).

Definition sample_index : option RuleIndex := RuleIndex_build sample_rules.
Definition sample_set (ix : RuleIndex) : RuleSet := mkRuleSet 3 1 sample_rules ix.
