(* ===== verification/Reference.v ===== *)
(** * Reference resolution

    What rule resolution means, without the candidate index, the interned
    globs, the prefilter and the body-literal automaton: every enabled rule is
    tried in priority order, globs are interpreted, body literals are searched
    directly.  Refinement.v proves the engine equal to it. *)
From Stdlib Require Import Ascii String.
From stdpp Require Import base numbers list gmap strings.
From S2P Require Import Prelude Family Utf8 NetAddr Model Url Engines Matching Evaluate Index Resolve.

(** Host patterns; [program] is the text interpreted as a glob when the
    pattern is neither a bare nor a leading-label wildcard. *)
Definition host_reference (program pattern host : str) : bool :=
  let pattern := normalize_host pattern in
  let host := normalize_host host in
  if (pattern =s? lit "**") || (pattern =s? lit "*") then true
  else
    match strip_prefix (lit "**.") pattern with
    | Some base => (host =s? base) || is_some (dotted_suffix_prefix host base)
    | None =>
        match strip_prefix (lit "*.") pattern with
        | Some base =>
            match dotted_suffix_prefix host base with
            | Some prefix => negb (is_emptyb prefix) && negb (contains_char (ch ".") prefix)
            | None => false
            end
        | None =>
            if glob_syntax_is_active pattern then globb (ch ".") program host
            else pattern =s? host
        end
    end.

Definition ip_reference (pattern actual : str) : bool :=
  let pattern := normalize_ip_value pattern in
  if (pattern =s? lit "*") || (pattern =s? lit "**") then true
  else if glob_syntax_is_active pattern then globb 0 pattern actual
  else eq_ignore_ascii_case pattern actual.

Section Reference.
Context {PE : PatternEngines}.

(** Match a glob and append its captures. *)
Definition glob_captures_reference (pattern : str) (sep : char) (text : str) (captures : Captures)
    : option Captures :=
  regex ← compile_glob_regex pattern sep; append_glob_captures regex text captures.

Definition GlobMatcher_reference (self : GlobMatcher) (url : UrlParts) : option Captures :=
  if match gm_scheme self with
     | Some scheme => negb (eq_ignore_ascii_case scheme (up_scheme url))
     | None => false
     end then None
  else if negb (host_reference (gm_host self) (gm_host self) (up_host url)) then None
  else if match gm_port self with
          | Some pattern =>
              match effective_port url with
              | Some port => negb (globb (ch ".") pattern (show_N port))
              | None => true
              end
          | None => false
          end then None
  else
    captures ←
      match gm_path self with
      | Some pattern =>
          if glob_syntax_is_active pattern
          then glob_captures_reference pattern (ch "/") (up_path url) Captures_default
          else if path_prefix_matches pattern (up_path url) then Some Captures_default
          else None
      | None => Some Captures_default
      end;
    match gm_query self with
    | Some pattern =>
        glob_captures_reference pattern (ch "&") (unwrap_or (up_query url) []) captures
    | None => Some captures
    end.

Fixpoint Matcher_reference (m : Matcher.t) (url : UrlParts) (raw_url : str) : option Captures :=
  match m with
  | Matcher.ExactUrl expected =>
      if exact_url_matches expected url then Some Captures_default else None
  | Matcher.Glob glob => GlobMatcher_reference glob url
  | Matcher.Port port =>
      if effective_port url =s? Some port then Some Captures_default else None
  | Matcher.Regex regex => RegexMatcher_matches regex raw_url
  | Matcher.Not inner =>
      match Matcher_reference inner url raw_url with
      | Some _ => None
      | None => Some Captures_default
      end
  end.

Fixpoint Condition_reference (c : Condition.t) (url : option UrlParts) (res : option ResponseMeta)
    (line : N) (req : RequestMeta) : bool :=
  match c with
  | Condition.Method methods =>
      existsb (fun m => eq_ignore_ascii_case m (req_method req)) methods
  | Condition.Host pattern =>
      match url with
      | Some url => host_reference (to_ascii_lowercase pattern) pattern (up_host url)
      | None => false
      end
  | Condition.Url (UrlCondition.Glob pattern) =>
      if glob_syntax_is_active pattern then globb 0 pattern (req_url req)
      else pattern =s? req_url req
  | Condition.Url (UrlCondition.Regex regex) => is_some (RegexMatcher_matches regex (req_url req))
  | Condition.ClientIp patterns =>
      match req_client_ip req with
      | Some ip => existsb (fun p => ip_reference p (normalize_ip_value ip)) patterns
      | None => false
      end
  | Condition.ServerIp patterns =>
      match req_server_ip req with
      | Some ip => existsb (fun p => ip_reference p (normalize_ip_value ip)) patterns
      | None => false
      end
  | Condition.HeaderPresent name => is_some (header (req_headers req) name)
  | Condition.HeaderContains name value => header_contains (req_headers req) name value
  | Condition.ResHeaderPresent name =>
      match res with Some res => is_some (header (res_headers res) name) | None => false end
  | Condition.ResHeaderContains name value =>
      match res with Some res => header_contains (res_headers res) name value | None => false end
  | Condition.BodyContains literal =>
      contains (to_ascii_lowercase literal) (to_ascii_lowercase (body_text req))
  | Condition.BodyRegex regex => is_some (RegexMatcher_matches regex (body_text req))
  | Condition.Status statuses =>
      match res with Some res => existsb (N.eqb (res_status res)) statuses | None => false end
  | Condition.ChancePermille permille => chance req line permille
  | Condition.EnvPresent name => is_some (env_var name)
  | Condition.EnvEquals name value =>
      match env_var name with Some actual => actual =s? value | None => false end
  | Condition.Any cs => existsb (fun c => Condition_reference c url res line req) cs
  | Condition.All cs => forallb (fun c => Condition_reference c url res line req) cs
  | Condition.Not inner =>
      if negb (is_some res) && Condition.depends_on_response inner then false
      else negb (Condition_reference inner url res line req)
  end.

(** Rules that contribute to a resolution, and with which captures. *)
Definition rule_reference (rule : Rule) (parts : option UrlParts) (req : RequestMeta)
    (res : option ResponseMeta) (include_request_body : bool) : option Captures :=
  if r_disabled rule then None
  else
    captures ← (url ← parts; Matcher_reference (r_matcher rule) url (req_url req));
    if negb include_request_body && existsb Condition.depends_on_request_body (r_conditions rule)
    then None
    else if forallb (fun c => Condition_reference c parts res (r_line rule) req) (r_conditions rule)
    then Some captures
    else None.

(** Important rules first, then source order. *)
Definition priority_order (rules : list Rule) : list nat :=
  List.filter (fun i => negb (not_important rules i)) (seq 0 (length rules)) ++
  List.filter (not_important rules) (seq 0 (length rules)).

Definition visit_reference (rules : list Rule) (parts : option UrlParts) (req : RequestMeta)
    (res : option ResponseMeta) (include_request_body : bool) (st : ResolveState) (idx : nat)
    : ResolveState :=
  match rules !! idx with
  | Some rule =>
      match rule_reference rule parts req res include_request_body with
      | Some captures => visit_rule_actions rule captures res include_request_body st
      | None => st
      end
  | None => st
  end.

Definition resolve_reference (rules : list Rule) (req : RequestMeta) (res : option ResponseMeta)
    (include_request_body : bool) : ResolveResult :=
  let parts := ok (UrlParts_parse (req_url req)) in
  let st := fold_left (visit_reference rules parts req res include_request_body)
              (priority_order rules) ResolveState_init in
  mkResolveResult (s_actions st) (s_matched_rules st).
End Reference.

(** ** Compiled matchers mean what their rules say *)

Section MatcherBinding.
Context {PE : PatternEngines} {PL : PatternLaws PE}.
Context (globs : CompiledGlobSet) (Hglobs : glob_set_wf globs).

(** Matching through the id of a registered glob is interpreting the glob. *)
Lemma glob_match_id_reference p sep id text :
  glob_id globs p sep = Some id -> glob_match_id globs id text = globb sep p text.
Proof.
  intros Hid. destruct (Hglobs _ _ _ Hid) as (r & Hr & Hc).
  unfold glob_match_id. rewrite Hr. by apply compile_glob_regex_correct.
Qed.

Lemma resources_match_reference p sep text :
  is_Some (glob_id globs p sep) ->
  resources_match (glob_id globs p sep) text globs = globb sep p text.
Proof. intros [id Hid]. rewrite Hid. by apply glob_match_id_reference. Qed.

Lemma resources_match_with_captures_reference p sep text captures :
  is_Some (glob_id globs p sep) ->
  resources_match_with_captures (glob_id globs p sep) text globs captures =
  glob_captures_reference p sep text captures.
Proof.
  intros [id Hid]. rewrite Hid. destruct (Hglobs _ _ _ Hid) as (r & Hr & Hc).
  unfold glob_captures_reference. rewrite Hc. cbn. unfold glob_match_with_captures_id.
  by rewrite Hr.
Qed.

Lemma glob_syntax_is_active_lower p :
  glob_syntax_is_active (to_ascii_lowercase p) = glob_syntax_is_active p.
Proof.
  unfold glob_syntax_is_active. induction p as [|c p IH]; [done|]. simpl. fold (to_ascii_lowercase p).
  by rewrite IH, !lower_eqb.
Qed.

Lemma strip_prefix_lower_None p s :
  to_ascii_lowercase p = p -> strip_prefix p (to_ascii_lowercase s) = None ->
  starts_with p s = false.
Proof.
  intros Hp H. apply not_true_iff_false. rewrite starts_with_true. intros [r ->].
  by rewrite to_ascii_lowercase_app, Hp, strip_prefix_app in H.
Qed.

(** The branch of [host_matches_id] that consults the id is the one in which
    the pattern was registered. *)
Lemma host_matches_id_reference (program pattern host : str) :
  (host_pattern_uses_regex pattern = true -> is_Some (glob_id globs program (ch "."))) ->
  host_matches_id globs pattern host
    (if host_pattern_uses_regex pattern then glob_id globs program (ch ".") else None) =
  host_reference program pattern host.
Proof.
  intros Hreg. unfold host_matches_id, host_reference, normalize_host.
  destruct (_ || _) eqn:Estar; [done|].
  destruct (strip_prefix (lit "**.") _) eqn:E1; [done|].
  destruct (strip_prefix (lit "*.") _) eqn:E2; [done|].
  destruct (glob_syntax_is_active _) eqn:Ea; [|done].
  assert (host_pattern_uses_regex pattern = true) as Hu.
  { unfold host_pattern_uses_regex. rewrite glob_syntax_is_active_lower in Ea. rewrite Ea.
    apply strip_prefix_lower_None in E1, E2; [|done..]. rewrite E1, E2.
    apply orb_false_iff in Estar as [Es1 Es2]. rewrite !bool_decide_eq_false in *.
    rewrite !bool_decide_eq_false_2; [done|..]; by intros Heq; rewrite Heq in *. }
  rewrite Hu in *. destruct (Hreg eq_refl) as [id Hid]. rewrite Hid.
  by apply glob_match_id_reference.
Qed.

Lemma registered_app ps qs :
  registered globs (ps ++ qs) -> registered globs ps /\ registered globs qs.
Proof. apply Forall_app. Qed.

Lemma registered_one p sep : registered globs [(p, sep)] -> is_Some (glob_id globs p sep).
Proof. intros H. by apply Forall_cons in H as [? _]. Qed.

Lemma GlobMatcher_bind glob url :
  registered globs (matcher_globs (Matcher.Glob glob)) ->
  GlobMatcher_matches_compiled glob url globs (bind_matcher_resources (Matcher.Glob glob) globs) =
  GlobMatcher_reference glob url.
Proof.
  cbn [matcher_globs]. intros [Hhost [Hport [Hpath Hquery]%registered_app]%registered_app]%registered_app.
  unfold GlobMatcher_matches_compiled, GlobMatcher_reference. cbn [bind_matcher_resources].
  destruct (match gm_scheme glob with Some _ => _ | None => _ end); [done|].
  rewrite host_matches_id_reference.
  2: { intros Hu. rewrite Hu in Hhost. by apply registered_one. }
  destruct (host_reference _ _ _); [|done]. cbn [negb].
  assert (match gm_port glob with
          | Some _ => match effective_port url with
                      | Some port => negb (resources_match
                          (port ← gm_port glob; glob_id globs port (ch ".")) (show_N port) globs)
                      | None => true
                      end
          | None => false
          end =
          match gm_port glob with
          | Some pattern => match effective_port url with
                            | Some port => negb (globb (ch ".") pattern (show_N port))
                            | None => true
                            end
          | None => false
          end) as ->.
  { destruct (gm_port glob) as [pp|]; [|done]. destruct (effective_port url); [|done].
    cbn. by rewrite resources_match_reference by by apply registered_one. }
  match goal with |- (if ?b then _ else _) = _ => destruct b; [done|] end.
  assert (forall captures, match gm_query glob with
    | Some _ => resources_match_with_captures (query ← gm_query glob; glob_id globs query (ch "&"))
                  (unwrap_or (up_query url) []) globs captures
    | None => Some captures
    end = match gm_query glob with
    | Some pattern => glob_captures_reference pattern (ch "&") (unwrap_or (up_query url) []) captures
    | None => Some captures
    end) as Hq.
  { intros captures. destruct (gm_query glob) as [q|]; [|done].
    apply resources_match_with_captures_reference. by apply registered_one. }
  destruct (gm_path glob) as [path|]; [|apply Hq]. cbn [mbind option_bind].
  destruct (glob_syntax_is_active path); [|destruct (path_prefix_matches _ _); [apply Hq|done]].
  rewrite resources_match_with_captures_reference by by apply registered_one.
  destruct (glob_captures_reference path _ _ _); [apply Hq|done].
Qed.

Lemma Matcher_bind m url raw :
  registered globs (matcher_globs m) ->
  Matcher_matches_compiled m url raw globs (bind_matcher_resources m globs) =
  Matcher_reference m url raw.
Proof.
  induction m as [| | | |m IH]; try done; intros Hreg.
  - by apply GlobMatcher_bind.
  - cbn [Matcher_matches_compiled Matcher_reference bind_matcher_resources]. by rewrite IH.
Qed.
End MatcherBinding.

(** ** Body literals *)

Lemma str_compare_eq a b : str_compare a b = Eq -> a = b.
Proof.
  revert b. induction a as [|x a IH]; intros [|y b]; simpl; try done.
  destruct (N.compare_spec x y) as [->|H|H]; [|done|done]. intros H. f_equal. by apply IH.
Qed.

Lemma elem_of_bset_insert x y s : y ∈ bset_insert x s <-> y = x \/ y ∈ s.
Proof.
  induction s as [|z s IH]; simpl; [set_solver|].
  destruct (str_compare x z) eqn:E; [apply str_compare_eq in E as ->; set_solver|set_solver|].
  rewrite !elem_of_cons, IH. naive_solver.
Qed.

Lemma elem_of_fold_bset (f : str -> str) sources acc y :
  y ∈ fold_left (fun s l => bset_insert (f l) s) sources acc <->
  (exists l, l ∈ sources /\ y = f l) \/ y ∈ acc.
Proof.
  revert acc. induction sources as [|l sources IH]; intros acc; simpl; [set_solver|].
  rewrite IH, elem_of_bset_insert. set_solver.
Qed.

Lemma index_of_literals_spec literals l :
  l ∈ literals -> exists i, index_of_literals literals !! l = Some i /\ literals !! i = Some l.
Proof.
  intros Hin. unfold index_of_literals.
  destruct (list_to_map (imap (fun i l => (l, i)) literals) !! l) as [i|] eqn:E.
  - exists i. split; [done|]. apply elem_of_list_to_map_2 in E.
    apply elem_of_lookup_imap in E as (j & y & [= -> ->] & Hj). done.
  - exfalso. apply not_elem_of_list_to_map_2 in E. apply E.
    apply list_elem_of_lookup in Hin as [i Hi].
    apply list_elem_of_fmap. exists (l, i). split; [done|].
    apply elem_of_lookup_imap. eauto.
Qed.

Section BodyLiterals.
Context {PE : PatternEngines} {PL : PatternLaws PE}.

Definition count_false (m : list bool) : nat := length (List.filter negb m).

Lemma count_false_insert m i :
  m !! i = Some false -> count_false (<[i := true]> m) = (count_false m - 1)%nat /\ (0 < count_false m)%nat.
Proof.
  revert i. induction m as [|b m IH]; intros [|i]; [done|done| |]; intros H.
  - simpl in H. injection H as ->. unfold count_false. simpl. lia.
  - simpl in H. destruct (IH i H) as [H1 H2]. unfold count_false in *. simpl.
    destruct b; simpl; lia.
Qed.

Lemma count_false_zero m i b : count_false m = 0%nat -> m !! i = Some b -> b = true.
Proof.
  revert i. induction m as [|c m IH]; intros [|i]; [done|done| |].
  - simpl. destruct c; [by intros _ [= <-]|done].
  - destruct c; [apply IH|done].
Qed.

(** One scan of the reported ids marks exactly those ids, also when it stops
    early because everything is marked. *)
Lemma scan_loop_spec found matched remaining :
  Forall (fun id => (id < length matched)%nat) found -> remaining = count_false matched ->
  exists m, scan_loop found matched remaining = Some m /\ length m = length matched /\
    forall i, (i < length matched)%nat ->
      m !! i = Some true <-> matched !! i = Some true \/ i ∈ found.
Proof.
  revert matched remaining. induction found as [|id found IH]; intros matched remaining Hf ->; simpl.
  { exists matched. split_and!; [done|done|]. set_solver. }
  apply Forall_cons in Hf as [Hid Hf].
  destruct (matched !! id) as [[|]|] eqn:E; [| |apply lookup_ge_None in E; lia].
  - destruct (IH matched _ Hf eq_refl) as (m & -> & Hl & Hm). exists m. split_and!; [done|done|].
    intros i Hi. rewrite (Hm i Hi), elem_of_cons. naive_solver.
  - destruct (count_false_insert _ _ E) as [Hc Hpos].
    destruct (Nat.eqb_spec (count_false matched - 1) 0) as [Hz|Hz].
    + exists (<[id := true]> matched). rewrite length_insert. split_and!; [done|done|].
      intros i Hi.
      destruct (<[id := true]> matched !! i) as [b|] eqn:Eb.
      2: { apply lookup_ge_None in Eb. rewrite length_insert in Eb. lia. }
      assert (b = true) as -> by (eapply count_false_zero; [|exact Eb]; lia).
      split; [|done]. intros _. destruct (decide (i = id)) as [->|Hne]; [set_solver|].
      rewrite list_lookup_insert_ne in Eb by done. auto.
    + rewrite <- Hc.
      destruct (IH (<[id := true]> matched) (count_false (<[id := true]> matched)))
        as (m & -> & Hl & Hm); [by rewrite length_insert|done|].
      rewrite length_insert in *. exists m. split_and!; [done|done|]. intros i Hi.
      rewrite (Hm i Hi), elem_of_cons. destruct (decide (i = id)) as [->|Hne].
      * rewrite list_lookup_insert_eq by done. naive_solver.
      * rewrite list_lookup_insert_ne by done. naive_solver.
Qed.

(** Literals, their ids and the automaton fit together. *)
Definition body_set_wf (set : CompiledBodyContainsSet) : Prop :=
  (forall l id, bs_literal_ids set !! l = Some id ->
     bs_literals set !! id = Some (to_ascii_lowercase l)) /\
  (bs_literals set = [] \/
   bs_matcher set = Some (mkAhoCorasick (bs_literals set) true) /\
   ac_accepts (mkAhoCorasick (bs_literals set) true) = true).

Lemma scan_spec set text id l :
  body_set_wf set -> bs_literals set !! id = Some l -> to_ascii_lowercase l = l ->
  exists m, scan set text = Some m /\
    matches_id id m = contains l (to_ascii_lowercase text).
Proof.
  intros [_ [Hnil|[Hm Hacc]]] Hid Hl; [by rewrite Hnil in Hid|].
  unfold scan. rewrite Hm, length_replicate.
  assert (forall i, i ∈ find_overlapping (mkAhoCorasick (bs_literals set) true) text <->
    exists p, bs_literals set !! i = Some p /\
      contains (to_ascii_lowercase p) (to_ascii_lowercase text) = true) as Hf.
  { intros i. by rewrite (find_overlapping_spec _ text i Hacc). }
  destruct (scan_loop_spec (find_overlapping (mkAhoCorasick (bs_literals set) true) text)
    (replicate (length (bs_literals set)) false) (length (bs_literals set))) as (m & -> & Hlen & Hspec).
  - apply Forall_forall. intros i Hi. apply Hf in Hi as (p & Hp & _).
    rewrite length_replicate. by eapply lookup_lt_Some.
  - unfold count_false. clear. induction (length (bs_literals set)); simpl; auto.
  - exists m. split; [done|]. apply lookup_lt_Some in Hid as Hlt.
    rewrite length_replicate in *. specialize (Hspec id Hlt). rewrite Hf, Hid in Hspec.
    unfold matches_id. destruct (lookup_lt_is_Some_2 m id) as [b Hb]; [lia|]. rewrite Hb in *.
    simpl. apply eq_bool_prop_intro. rewrite !Is_true_true. rewrite <- Hl.
    transitivity (Some b = Some true); [naive_solver|]. rewrite Hspec, lookup_replicate. naive_solver.
Qed.

Lemma bind_literals_spec literals sources ids :
  Forall (fun l => to_ascii_lowercase l ∈ literals) sources ->
  bind_literals (index_of_literals literals) sources = Some ids ->
  (forall l id, ids !! l = Some id -> literals !! id = Some (to_ascii_lowercase l)) /\
  Forall (fun l => is_Some (ids !! l)) sources.
Proof.
  intros Hin. revert ids. induction Hin as [|l sources Hl Hin IH]; intros ids; simpl.
  { intros [= <-]. split; [set_solver|done]. }
  unfold mbind, option_bind. destruct (bind_literals _ sources) as [ids'|]; [|done].
  destruct (IH ids' eq_refl) as [H1 H2].
  destruct (index_of_literals_spec literals _ Hl) as (i & Hi & Hlit). rewrite Hi.
  intros [= <-]. split.
  - intros l' id. destruct (decide (l = l')) as [->|Hne].
    + rewrite lookup_insert_eq. by intros [= <-].
    + rewrite lookup_insert_ne by done. apply H1.
  - constructor; [rewrite lookup_insert_eq; by eexists|].
    eapply Forall_impl; [exact H2|]. intros l' [id Hid].
    destruct (decide (l = l')) as [->|Hne]; [rewrite lookup_insert_eq; by eexists|].
    rewrite lookup_insert_ne by done. by eexists.
Qed.

Lemma from_literals_spec sources set :
  from_literals sources = Some set ->
  body_set_wf set /\ Forall (fun l => is_Some (bs_literal_ids set !! l)) sources.
Proof.
  unfold from_literals, mbind, option_bind. set (literals := fold_left _ sources []).
  assert (Forall (fun l => to_ascii_lowercase l ∈ literals) sources) as Hin.
  { apply Forall_forall. intros l Hl. apply elem_of_fold_bset. left. eauto. }
  clearbody literals.
  destruct (bind_literals _ sources) as [ids|] eqn:E; [|done].
  destruct (bind_literals_spec literals sources ids Hin E) as [H1 H2].
  destruct (is_emptyb literals) eqn:Ee.
  - intros [= <-]. split; [|done]. split; [done|]. left. by destruct literals.
  - destruct (ac_accepts _) eqn:Ea; [|done]. intros [= <-]. split; [|done]. split; [done|]. by right.
Qed.

(** Every body literal of every rule is collected. *)
Lemma elem_of_collect_body_literals c s l :
  l ∈ collect_body_literals c s <-> Condition.BodyContains l ∈ Condition.nodes c \/ l ∈ s.
Proof.
  clear PL.
  unfold collect_body_literals. revert s. generalize (Condition.nodes c) as ns.
  induction ns as [|n ns IH]; intros s; simpl; [set_solver|].
  rewrite IH. destruct n; rewrite ?elem_of_bset_insert; set_solver.
Qed.

Lemma CompiledBodyContainsSet_build_spec rules set :
  CompiledBodyContainsSet_build rules = Some set ->
  body_set_wf set /\
  Forall (fun rule => Forall (fun c => forall l, Condition.BodyContains l ∈ Condition.nodes c ->
    is_Some (bs_literal_ids set !! l)) (r_conditions rule)) rules.
Proof.
  clear PL.
  intros [Hwf Hall]%from_literals_spec. split; [done|].
  rewrite Forall_forall in Hall. apply Forall_forall. intros rule Hr.
  apply Forall_forall. intros c Hc l Hl. apply Hall. clear Hall Hwf.
  assert (forall cs s, l ∈ s \/ c ∈ cs ->
    l ∈ fold_left (fun s c => collect_body_literals c s) cs s) as Hcs.
  { induction cs as [|c' cs IH]; intros s; simpl; [set_solver|]. intros H. apply IH.
    rewrite elem_of_collect_body_literals. set_solver. }
  revert Hr. generalize (@nil str) as s. 
  assert (forall rules s, l ∈ s \/ rule ∈ rules -> l ∈ fold_left (fun s rule =>
    fold_left (fun s c => collect_body_literals c s) (r_conditions rule) s) rules s) as H.
  { clear rules. induction rules as [|r rules IH]; intros s; simpl; [set_solver|]. intros H. apply IH.
    destruct H as [H|H]; [left; apply Hcs; by left|].
    apply elem_of_cons in H as [<-|H]; [left; apply Hcs; by right|by right]. }
  intros s Hr. apply H. by right.
Qed.
End BodyLiterals.

(** ** Compiled conditions mean what their rules say *)

Lemma glob_syntax_is_active_ip s :
  Forall (fun c => ip_char c = true) s -> glob_syntax_is_active s = false.
Proof.
  intros H. apply not_true_iff_false. unfold glob_syntax_is_active. rewrite existsb_exists.
  intros (c & Hin & Hc). apply list_elem_of_In in Hin. rewrite Forall_forall in H.
  specialize (H c Hin). apply orb_true_iff in Hc as [Hc|Hc]; apply N.eqb_eq in Hc as ->; done.
Qed.

Lemma glob_syntax_is_active_app a b :
  glob_syntax_is_active (a ++ b) = glob_syntax_is_active a || glob_syntax_is_active b.
Proof. apply existsb_app. Qed.

(** A pattern that is an active glob after normalisation was one before. *)
Lemma normalize_ip_value_active p :
  glob_syntax_is_active (normalize_ip_value p) = true ->
  normalize_ip_value p <> lit "*" -> normalize_ip_value p <> lit "**" ->
  glob_syntax_is_active p = true /\ p <> lit "*" /\ p <> lit "**".
Proof.
  intros Ha H1 H2. split_and!; [|intros ->; by apply H1; vm_compute|intros ->; by apply H2; vm_compute].
  unfold normalize_ip_value in Ha. destruct (parse_socket_addr p) as [addr|].
  - by rewrite (glob_syntax_is_active_ip (show_ip _)) in Ha by apply show_ip_chars.
  - destruct (trim_matches_infix is_whitespace p) as (a & b & ->).
    destruct (trim_matches_infix is_bracket (trim p)) as (a' & b' & E).
    change (trim_matches is_whitespace p) with (trim p). rewrite E.
    rewrite !glob_syntax_is_active_app, Ha. by rewrite !orb_true_r.
Qed.

Section ConditionBinding.
Context {PE : PatternEngines} {PL : PatternLaws PE}.
Context (globs : CompiledGlobSet) (Hglobs : glob_set_wf globs).
Context (body : CompiledBodyContainsSet) (Hbody : body_set_wf body).

Lemma ip_matches_id_reference p actual :
  (glob_syntax_is_active p && negb (p =s? lit "*") && negb (p =s? lit "**") = true ->
   is_Some (glob_id globs (normalize_ip_value p) 0)) ->
  ip_matches_id globs p actual (glob_id globs (normalize_ip_value p) 0) = ip_reference p actual.
Proof.
  intros Hreg. unfold ip_matches_id, ip_reference. destruct (_ || _) eqn:Es; [done|].
  destruct (glob_syntax_is_active (normalize_ip_value p)) eqn:Ea; [|done].
  apply orb_false_iff in Es as [E1 E2]. rewrite !bool_decide_eq_false in E1, E2.
  destruct (normalize_ip_value_active p Ea E1 E2) as (H1 & H2 & H3).
  destruct Hreg as [id Hid]; [by rewrite H1, !bool_decide_eq_false_2|].
  rewrite Hid. by apply glob_match_id_reference.
Qed.

Lemma any_ip_matches_reference patterns actual :
  registered globs (map (fun p => (normalize_ip_value p, 0))
    (List.filter (fun p => glob_syntax_is_active p && negb (p =s? lit "*") && negb (p =s? lit "**"))
       patterns)) ->
  any_ip_matches globs actual patterns (map (fun p => glob_id globs (normalize_ip_value p) 0) patterns)
  = existsb (fun p => ip_reference p actual) patterns.
Proof.
  induction patterns as [|p patterns IH]; [done|]. cbn [map List.filter any_ip_matches existsb].
  intros Hreg. rewrite ip_matches_id_reference.
  - rewrite IH; [done|]. destruct (_ && _) in Hreg; [|done]. by apply Forall_cons in Hreg as [_ ?].
  - intros Hp. rewrite Hp in Hreg. by apply Forall_cons in Hreg as [? _].
Qed.

(** The binding of a list of children, child by child. *)
Lemma bind_children_Forall2 cs rs :
  (fix bind_all (cs : list Condition.t) : option (list CompiledConditionResources.t) :=
     match cs with
     | [] => Some []
     | c :: cs' =>
         r ← bind_condition_resources c globs body; rs ← bind_all cs'; Some (r :: rs)
     end) cs = Some rs ->
  Forall2 (fun c r => bind_condition_resources c globs body = Some r) cs rs.
Proof.
  revert rs. induction cs as [|c cs IH]; intros rs; [by intros [= <-]|].
  unfold mbind, option_bind. destruct (bind_condition_resources c globs body) as [r|] eqn:E; [|done].
  intros H. match type of H with match ?x with _ => _ end = _ => destruct x eqn:E'; [|done] end.
  injection H as <-. constructor; [done|]. by apply IH.
Qed.

Lemma registered_children cs c :
  registered globs (flat_map node_globs (flat_map Condition.nodes cs)) -> c ∈ cs ->
  registered globs (condition_globs c).
Proof.
  unfold registered, condition_globs. rewrite !Forall_forall. intros H Hin p Hp. apply H.
  rewrite list_elem_of_In, in_flat_map in *. destruct Hp as (n & Hn & Hp). exists n.
  split; [|done]. rewrite in_flat_map. exists c. by rewrite <- list_elem_of_In.
Qed.

Lemma Condition_bind c r cx :
  cx_globs cx = globs -> cx_body_literals cx = body ->
  registered globs (condition_globs c) ->
  bind_condition_resources c globs body = Some r ->
  matches_with_compiled c r cx =
  Condition_reference c (cx_url cx) (cx_res cx) (cx_line cx) (cx_req cx).
Proof.
  intros Hcg Hcb. revert r.
  induction c as [c Hleaf|cs IH|cs IH|c IH] using Condition.ind_nested; intros r Hreg Hbind.
  - destruct c; try done; cbn [bind_condition_resources] in Hbind;
      unfold condition_globs in Hreg; cbn in Hreg; rewrite ?app_nil_r in Hreg;
      try (injection Hbind as <-; cbn); try done.
    + rewrite Hcg. destruct (cx_url cx) as [url|]; [|done].
      apply host_matches_id_reference; [done|..]. intros Hu. rewrite Hu in Hreg.
      by apply registered_one in Hreg.
    + destruct condition as [p|rx]; [|done]. injection Hbind as <-. simpl.
      rewrite Hcg. destruct (glob_syntax_is_active p); [|done].
      apply registered_one in Hreg as [id Hid]. rewrite Hid. by apply glob_match_id_reference.
    + rewrite Hcg. destruct (req_client_ip _); [|done]. simpl. by apply any_ip_matches_reference.
    + rewrite Hcg. destruct (req_server_ip _); [|done]. simpl. by apply any_ip_matches_reference.
    + unfold mbind, option_bind in Hbind.
      destruct (bs_literal_ids body !! literal) as [id|] eqn:E; [|done]. injection Hbind as <-.
      simpl. unfold body_contains. rewrite Hcb.
      destruct (scan_spec body (body_text (cx_req cx)) id (to_ascii_lowercase literal)) as (m & -> & Hm);
        [done|by apply Hbody|apply to_ascii_lowercase_idem|done].
  - cbn [bind_condition_resources] in Hbind. unfold mbind at 1, option_bind at 1 in Hbind.
    match type of Hbind with match ?x with _ => _ end = _ => destruct x as [rs|] eqn:E; [|done] end.
    injection Hbind as <-. apply bind_children_Forall2 in E.
    unfold condition_globs in Hreg. cbn [Condition.nodes flat_map node_globs app] in Hreg.
    cbn [matches_with_compiled Condition_reference].
    induction E as [|c r cs rs Hb E IHE]; [done|]. apply Forall_cons in IH as [IHc IH].
    cbn [existsb]. rewrite (IHc r); [|by apply (registered_children (c :: cs)); [|set_solver]|done].
    f_equal. apply IHE; [done|]. cbn [flat_map] in Hreg. rewrite flat_map_app in Hreg.
    by apply registered_app in Hreg as [_ ?].
  - cbn [bind_condition_resources] in Hbind. unfold mbind at 1, option_bind at 1 in Hbind.
    match type of Hbind with match ?x with _ => _ end = _ => destruct x as [rs|] eqn:E; [|done] end.
    injection Hbind as <-. apply bind_children_Forall2 in E.
    unfold condition_globs in Hreg. cbn [Condition.nodes flat_map node_globs app] in Hreg.
    cbn [matches_with_compiled Condition_reference].
    induction E as [|c r cs rs Hb E IHE]; [done|]. apply Forall_cons in IH as [IHc IH].
    cbn [forallb]. rewrite (IHc r); [|by apply (registered_children (c :: cs)); [|set_solver]|done].
    f_equal. apply IHE; [done|]. cbn [flat_map] in Hreg. rewrite flat_map_app in Hreg.
    by apply registered_app in Hreg as [_ ?].
  - cbn [bind_condition_resources] in Hbind. unfold mbind, option_bind in Hbind.
    destruct (bind_condition_resources c globs body) as [r'|] eqn:E; [|done]. injection Hbind as <-.
    cbn [matches_with_compiled Condition_reference]. destruct (_ && _); [done|].
    f_equal. by apply IH.
Qed.
End ConditionBinding.

(** * The index of validated rules

    Building the index panics when a glob or the automaton of body literals
    does not compile.  It does not for rules whose globs compile and whose
    body literals are few and short. *)

Section Total.
Context {PE : PatternEngines}.

Definition compiles (p : str * char) : Prop := is_Some (compile_glob_regex p.1 p.2).
Definition rule_compiles (rule : Rule) : Prop :=
  Forall compiles (matcher_globs (r_matcher rule)) /\
  Forall (fun c => Forall compiles (condition_globs c)) (r_conditions rule).

Lemma len_to_ascii_lowercase s : len (to_ascii_lowercase s) = len s.
Proof.
  induction s as [|c s IH]; [done|]. unfold to_ascii_lowercase in *. cbn [map len]. rewrite IH. f_equal.
  unfold lower. case_goal; [|done]. unfold is_ascii_uppercase, in_range in *. bool_to_prop. unfold char_len_utf8.
  rewrite !(proj2 (N.ltb_lt _ 128)) by lia. done.
Qed.

(** A fold whose steps succeed succeeds. *)
Lemma foldl_total {A B} (f : B -> A -> option B) l b :
  Forall (fun x => forall b, is_Some (f b x)) l -> is_Some (foldl (fun acc x => b ← acc; f b x) (Some b) l).
Proof.
  intros H. revert b. induction H as [|x l Hx _ IH]; intros b; cbn; [by eexists|].
  destruct (Hx b) as [b' ->]. apply IH.
Qed.
Lemma register_total set p : compiles p -> is_Some (register set p.1 p.2).
Proof. intros [r Hr]. unfold register. case_match; [by eexists|]. rewrite Hr. by eexists. Qed.
Lemma register_all_total set ps : Forall compiles ps -> is_Some (register_all set ps).
Proof.
  intros H. apply (foldl_total (fun set p => register set p.1 p.2)). eapply Forall_impl; [exact H|].
  intros p Hp b. by apply register_total.
Qed.
Lemma registered_compiles set ps : glob_set_wf set -> registered set ps -> Forall compiles ps.
Proof.
  intros Hwf H. eapply Forall_impl; [exact H|]. intros p [id Hid].
  destruct (Hwf _ _ _ Hid) as (r & _ & Hr). by exists r.
Qed.
Lemma CompiledGlobSet_build_total rules : Forall rule_compiles rules -> is_Some (CompiledGlobSet_build rules).
Proof.
  intros H. unfold CompiledGlobSet_build.
  apply (foldl_total (fun set rule => set ← register_matcher set (r_matcher rule);
    foldl (fun acc c => set ← acc; register_condition set c) (Some set) (r_conditions rule))).
  eapply Forall_impl; [exact H|]. intros rule [Hm Hc] set. unfold register_matcher.
  destruct (register_all_total set _ Hm) as [set' ->]. cbn [mbind option_bind].
  apply (foldl_total register_condition). eapply Forall_impl; [exact Hc|].
  intros c Hg b. by apply register_all_total.
Qed.

(** ** Body literals *)

(** The condition nodes of rules and the body conditions among them. *)
Definition rules_nodes (rules : list Rule) : list Condition.t :=
  flat_map (fun rule => flat_map Condition.nodes (r_conditions rule)) rules.
Definition is_body_node (c : Condition.t) : bool :=
  match c with Condition.BodyContains _ | Condition.BodyRegex _ => true | _ => false end.

(** The automaton of few and short literals is within the limits of
    [aho_corasick]: at most 256 literals of at most 64 KiB. *)
Definition small_automata_build : Prop := forall literals,
  (length literals <= 256)%nat -> Forall (fun l => len l <= 65536) literals ->
  ac_accepts (mkAhoCorasick literals true) = true.

Lemma length_bset_insert x s : (length (bset_insert x s) <= S (length s))%nat.
Proof.
  induction s as [|y s IH]; cbn; [lia|]. repeat case_match; cbn; lia.
Qed.
Lemma bind_literals_total literals sources :
  Forall (fun l => to_ascii_lowercase l ∈ literals) sources ->
  is_Some (bind_literals (index_of_literals literals) sources).
Proof.
  induction 1 as [|l sources Hl _ [ids IH]]; cbn [bind_literals]; [by eexists|]. rewrite IH. cbn [mbind option_bind].
  destruct (index_of_literals_spec literals _ Hl) as (i & -> & _). by eexists.
Qed.
Lemma from_literals_total sources :
  (forall literals, (length literals <= length sources)%nat -> (forall l, l ∈ literals -> exists l', l' ∈ sources /\
      l = to_ascii_lowercase l') -> ac_accepts (mkAhoCorasick literals true) = true) ->
  is_Some (from_literals sources).
Proof.
  intros Hac. unfold from_literals. set (literals := fold_left _ sources []).
  assert (Hin : Forall (fun l => to_ascii_lowercase l ∈ literals) sources).
  { apply Forall_forall. intros l Hl. apply elem_of_fold_bset. left. eauto. }
  destruct (bind_literals_total literals sources Hin) as [ids ->]. cbn [mbind option_bind].
  destruct (is_emptyb literals); [by eexists|]. rewrite Hac; [by eexists| |].
  - assert (H : forall s, (length (fold_left (fun s l => bset_insert (to_ascii_lowercase l) s) sources s) <=
                           length sources + length s)%nat); [|specialize (H []); fold literals in H; cbn [length] in H; lia].
    clear. induction sources as [|l sources IH]; intros s; cbn; [lia|].
    pose proof (IH (bset_insert (to_ascii_lowercase l) s)). pose proof (length_bset_insert (to_ascii_lowercase l) s). lia.
  - intros l Hl. apply elem_of_fold_bset in Hl as [(l' & H1 & H2)|Hl]; [by exists l'|set_solver].
Qed.

Definition collect_node (literals : list str) (node : Condition.t) : list str :=
  match node with Condition.BodyContains literal => bset_insert literal literals | _ => literals end.
Lemma body_sources rules :
  fold_left (fun s rule => fold_left (fun s c => collect_body_literals c s) (r_conditions rule) s) rules [] =
  fold_left collect_node (rules_nodes rules) [].
Proof.
  assert (Hc : forall cs s, fold_left (fun s c => collect_body_literals c s) cs s =
                            fold_left collect_node (flat_map Condition.nodes cs) s).
  { induction cs as [|c cs IH]; intros s; cbn [fold_left flat_map]; [done|]. by rewrite fold_left_app, <- IH. }
  generalize (@nil str) as s. unfold rules_nodes.
  induction rules as [|rule rules IH]; intros s; cbn [fold_left flat_map]; [done|]. by rewrite fold_left_app, IH, Hc.
Qed.
Lemma collect_nodes_spec ns s :
  (length (fold_left collect_node ns s) <= length (List.filter is_body_node ns) + length s)%nat /\
  forall l, l ∈ fold_left collect_node ns s <-> Condition.BodyContains l ∈ ns \/ l ∈ s.
Proof.
  revert s. induction ns as [|n ns IH]; intros s; cbn [fold_left List.filter]; [set_solver by lia|].
  destruct (IH (collect_node s n)) as [H1 H2]. split.
  - assert (length (collect_node s n) <= length (List.filter is_body_node [n]) + length s)%nat.
    { destruct n; cbn; try lia. apply length_bset_insert. }
    cbn [List.filter] in *. destruct (is_body_node n); cbn [length] in *; lia.
  - intros l. rewrite H2. unfold collect_node. destruct n; rewrite ?elem_of_bset_insert; set_solver.
Qed.
Lemma CompiledBodyContainsSet_build_total rules :
  small_automata_build -> (length (List.filter is_body_node (rules_nodes rules)) <= 256)%nat ->
  (forall l, Condition.BodyContains l ∈ rules_nodes rules -> len l <= 65536) ->
  is_Some (CompiledBodyContainsSet_build rules).
Proof.
  intros Hac Hcount Hlen. unfold CompiledBodyContainsSet_build. rewrite body_sources.
  destruct (collect_nodes_spec (rules_nodes rules) []) as [H1 H2]. cbn [length] in H1.
  apply from_literals_total. intros literals Hl Hin. apply Hac; [lia|]. apply Forall_forall. intros l Hx.
  destruct (Hin l Hx) as (l' & Hl' & ->). rewrite len_to_ascii_lowercase. apply Hlen.
  apply H2 in Hl' as [?|?]; [done|set_solver].
Qed.

(** ** Binding and the whole index *)

Lemma bind_condition_total globs body c :
  (forall l, Condition.BodyContains l ∈ Condition.nodes c -> is_Some (bs_literal_ids body !! l)) ->
  is_Some (bind_condition_resources c globs body).
Proof.
  induction c as [c Hleaf|cs IH|cs IH|c IH] using Condition.ind_nested; intros H.
  - destruct c; try done; cbn [bind_condition_resources]; try by eexists.
    + destruct condition; by eexists.
    + destruct (H literal) as [id ->]; [set_solver|by eexists].
  - cbn [bind_condition_resources]. cbn [Condition.nodes] in H.
    match goal with |- is_Some (?x ≫= _) => assert (is_Some x) as [rs ->]; [|by eexists] end.
    induction IH as [|c cs Hc _ IH]; [by eexists|]. cbn [flat_map] in H.
    destruct Hc as [r ->]; [set_solver|]. cbn [mbind option_bind]. destruct IH as [rs ->]; [set_solver|by eexists].
  - cbn [bind_condition_resources]. cbn [Condition.nodes] in H.
    match goal with |- is_Some (?x ≫= _) => assert (is_Some x) as [rs ->]; [|by eexists] end.
    induction IH as [|c cs Hc _ IH]; [by eexists|]. cbn [flat_map] in H.
    destruct Hc as [r ->]; [set_solver|]. cbn [mbind option_bind]. destruct IH as [rs ->]; [set_solver|by eexists].
  - cbn [bind_condition_resources]. destruct IH as [r ->]; [|by eexists]. intros l Hl. apply H. cbn. set_solver.
Qed.
Lemma bind_rules_total globs body rules :
  CompiledBodyContainsSet_build rules = Some body -> is_Some (mapM (bind_rule globs body) rules).
Proof.
  intros [_ H]%CompiledBodyContainsSet_build_spec. apply mapM_is_Some. eapply Forall_impl; [exact H|].
  intros rule Hr. change (is_Some (bind_rule globs body rule)). unfold bind_rule.
  assert (is_Some (mapM (fun c => bind_condition_resources c globs body) (r_conditions rule))) as [cs ->]; [|by eexists].
  apply mapM_is_Some. eapply Forall_impl; [exact Hr|]. intros c Hc. by apply bind_condition_total.
Qed.
Lemma RuleIndex_build_total rules :
  small_automata_build -> (length (List.filter is_body_node (rules_nodes rules)) <= 256)%nat ->
  (forall l, Condition.BodyContains l ∈ rules_nodes rules -> len l <= 65536) ->
  is_Some (RuleIndex_build rules) <-> Forall rule_compiles rules.
Proof.
  intros Hac Hcount Hlen. unfold RuleIndex_build. split.
  - intros [ix Hix]. destruct (CompiledGlobSet_build rules) as [set|] eqn:E; [|done].
    apply CompiledGlobSet_build_spec in E as [Hwf E]. eapply Forall_impl; [exact E|].
    intros rule [Hm Hc]. split.
    + by eapply registered_compiles.
    + eapply Forall_impl; [exact Hc|]. intros c. by apply registered_compiles.
  - intros Hc. destruct (CompiledGlobSet_build_total rules Hc) as [globs ->]. cbn [mbind option_bind].
    destruct (CompiledBodyContainsSet_build_total rules Hac Hcount Hlen) as [body Hb]. rewrite Hb. cbn [mbind option_bind].
    destruct (bind_rules_total globs body rules Hb) as [resources ->]. by eexists.
Qed.
End Total.
