(* ===== verification/Refinement.v ===== *)
(** * The rule engine implements the reference resolution

    Soundness of the required-literal prefilter, completeness of the host
    buckets, the priority sort, and from these the equality of indexed and
    reference resolution; then the consequences for first-wins families, skip
    suppression, rule provenance and request-body planning. *)
From Stdlib Require Import Ascii String.
From stdpp Require Import base numbers list gmap strings sorting.
From S2P Require Import Prelude Family Utf8 NetAddr Model Url Engines Matching Evaluate Index Resolve.
From S2P Require Import Reference.

(** ** Required literals of regular expressions *)

Section HirInduction.
Context (P : Hir -> Prop).
Context (Hempty : P HirEmpty) (Hlit : forall b, P (HirLiteral b)) (Hclass : P HirClass)
  (Hlook : P HirLook) (Hrep : forall n h, P h -> P (HirRepetition n h))
  (Hcap : forall h, P h -> P (HirCapture h)) (Hcat : forall hs, Forall P hs -> P (HirConcat hs))
  (Halt : forall hs, P (HirAlternation hs)).

Fixpoint hir_ind_nested (h : Hir) : P h :=
  let fix go (hs : list Hir) : Forall P hs :=
    match hs with
    | [] => @List.Forall_nil _ P
    | h :: hs' => @List.Forall_cons _ P h hs' (hir_ind_nested h) (go hs')
    end in
  match h with
  | HirEmpty => Hempty
  | HirLiteral b => Hlit b
  | HirClass => Hclass
  | HirLook => Hlook
  | HirRepetition n h' => Hrep n h' (hir_ind_nested h')
  | HirCapture h' => Hcap h' (hir_ind_nested h')
  | HirConcat hs => Hcat hs (go hs)
  | HirAlternation hs => Halt hs
  end.
End HirInduction.

Lemma max_by_len_elem l x : max_by_len l = Some x -> x ∈ l.
Proof.
  unfold max_by_len.
  assert (forall acc, fold_left (fun best x =>
    match best with
    | None => Some x
    | Some b => if (length x <? length b)%nat then Some b else Some x
    end) l acc = Some x -> x ∈ l \/ acc = Some x) as H.
  { induction l as [|y l IH]; intros acc; simpl; [auto|]. intros H.
    destruct (IH _ H) as [?|Hacc]; [set_solver|]. destruct acc as [b|].
    - destruct (_ <? _)%nat; simplify_eq; [by right|set_solver].
    - simplify_eq. set_solver. }
  intros Hx. by destruct (H None Hx).
Qed.

(** Every text a tree may match contains the literal reported for the tree. *)
Lemma longest_required_sound h literal w :
  longest_required h = Some literal -> hir_may_match h w ->
  exists a b, w = a ++ literal ++ b.
Proof.
  revert literal w.
  induction h as [| | | |n h IH|h IH|hs IH|] using hir_ind_nested;
    intros literal w Hlit Hw; try done.
  - simpl in *. simplify_eq. exists [], []. by rewrite app_nil_r.
  - simpl in Hlit. destruct (N.ltb_spec 0 n) as [Hn|]; [|done].
    destruct Hw as (ws & -> & Hws & Hlen). destruct ws as [|w1 ws]; [simpl in Hlen; lia|].
    apply Forall_cons in Hws as [Hw1 _]. destruct (IH _ _ Hlit Hw1) as (a & b & ->).
    exists a, (b ++ concat ws). simpl. by rewrite <- !app_assoc.
  - by eapply IH.
  - cbn [longest_required] in Hlit. apply max_by_len_elem in Hlit.
    cbn [hir_may_match] in Hw. revert w Hw.
    induction IH as [|h hs IHh IH IHhs]; intros w Hw; [set_solver|].
    destruct Hw as (w1 & w2 & -> & Hw1 & Hw2). cbn in Hlit.
    assert (longest_required h = Some literal \/
      literal ∈ (fix filter_map (parts : list Hir) : list (list N) :=
        match parts with
        | [] => []
        | p :: ps => match longest_required p with
                     | Some l => l :: filter_map ps
                     | None => filter_map ps
                     end
        end) hs) as [H1|H1].
    { destruct (longest_required h); [|by right]. set_solver. }
    + destruct (IHh _ _ H1 Hw1) as (a & b & ->). exists a, (b ++ w2). by rewrite <- !app_assoc.
    + destruct (IHhs H1 w2 Hw2) as (a & b & ->). exists (w1 ++ a), b. by rewrite <- !app_assoc.
Qed.

(** ** Rules as the parser builds them *)

(** [fancy_pattern] (parser/matcher.rs). *)
Definition fancy_pattern (pattern : str) (case_insensitive : bool) : str :=
  if case_insensitive then lit "(?i:" ++ pattern ++ lit ")" else pattern.

Section Refinement.
Context {PE : PatternEngines} {PL : PatternLaws PE}.

(** The compiled program of a regex matcher is built from its pattern. *)
Definition regex_matcher_wf (rm : RegexMatcher) : Prop :=
  match rm_compiled rm with
  | CompiledLinear r =>
      r = mkLinearRegex (rm_pattern rm) (rm_case_insensitive rm) None /\ regex_accepts r = true
  | CompiledFancy r =>
      fr_source r = fancy_pattern (rm_pattern rm) (rm_case_insensitive rm) /\ fancy_accepts r = true
  end.

Definition rule_wf (rule : Rule) : Prop :=
  match r_matcher rule with Matcher.Regex rm => regex_matcher_wf rm | _ => True end.

Lemma required_regex_literal_sound rm literal url captures :
  regex_matcher_wf rm -> valid_str url = true ->
  required_regex_literal rm = Some literal -> RegexMatcher_matches rm url = Some captures ->
  contains literal url = true.
Proof.
  intros Hwf Hv. unfold required_regex_literal, mbind, option_bind.
  destruct (rm_case_insensitive rm) eqn:Eci; [done|].
  destruct (regex_syntax_parse (rm_pattern rm)) as [hir|] eqn:Ehir; [|done].
  destruct (longest_required hir) as [bytes|] eqn:Elit; [|done].
  destruct (from_utf8 bytes) as [l|] eqn:Eutf; [|done].
  destruct (N.leb_spec 3 (len l)) as [Hlen|]; [|done]. intros [= <-] Hm.
  apply from_utf8_Some in Eutf as [<- Hvl].
  assert (exists a w b, encode url = a ++ w ++ b /\ hir_may_match hir w) as (a & w & b & E & Hw).
  { unfold RegexMatcher_matches, regex_matcher_wf in *. destruct (rm_compiled rm) as [r|r].
    - destruct Hwf as [-> Hacc]. unfold matches_linear, mbind, option_bind in Hm.
      destruct (regex_captures _ url) as [gs|] eqn:Egs; [|done].
      by eapply regex_hir_sound in Egs.
    - destruct Hwf as [Hsrc Hacc]. rewrite Eci in Hsrc. unfold matches_fancy in Hm.
      destruct (fancy_captures r url) as [[gs|]|] eqn:Egs; [|done|by destruct e].
      eapply fancy_hir_sound in Egs; [done|done|by rewrite Hsrc]. }
  destruct (longest_required_sound _ _ _ Elit Hw) as (a' & b' & ->).
  eapply (encode_infix l url (a ++ a') (b' ++ b)); [done|done|by intros ->|].
  by rewrite E, <- !app_assoc.
Qed.
End Refinement.

(** ** Host buckets *)

Lemma host_suffixes_loop_complete fuel h base :
  (length h < fuel)%nat -> base <> [] ->
  (h = base \/ exists pre, h = pre ++ ch "." :: base) -> base ∈ host_suffixes_loop fuel h.
Proof.
  revert h. induction fuel as [|fuel IH]; intros h Hf Hb Hh; [lia|]. cbn [host_suffixes_loop].
  destruct Hh as [->|[pre ->]]; [set_solver|].
  destruct (split_once [ch "."] (pre ++ ch "." :: base)) as [[a rest]|] eqn:E.
  2: { apply split_once_char_None in E. set_solver. }
  apply split_once_char_Some in E as [E Ha].
  assert (rest = base \/ exists pre', rest = pre' ++ ch "." :: base) as Hrest.
  { clear -E Ha. revert a E Ha. induction pre as [|x pre IH]; intros a E Ha.
    - destruct a as [|y a]; [injection E as ->; by left|]. injection E as <- ->. set_solver.
    - destruct a as [|y a]; [injection E as -> <-; right; by exists pre|].
      injection E as -> E. apply (IH a); [done|set_solver]. }
  assert (rest <> []) as Hne.
  { intros ->. destruct Hrest as [?|[pre' ?]]; [congruence|]. by destruct pre'. }
  destruct rest as [|c rest]; [done|]. cbn [is_emptyb]. apply elem_of_cons. right.
  apply IH; [|done|done]. apply (f_equal length) in E. rewrite !length_app in E. simpl in *.
  rewrite length_app in Hf. simpl in Hf. lia.
Qed.

Lemma host_suffixes_complete h base :
  base <> [] -> (h = base \/ exists pre, h = pre ++ ch "." :: base) -> base ∈ host_suffixes h.
Proof. intros. apply host_suffixes_loop_complete; [lia|done|done]. Qed.

Lemma dotted_suffix_prefix_Some host base pre :
  dotted_suffix_prefix host base = Some pre -> host = pre ++ ch "." :: base.
Proof.
  unfold dotted_suffix_prefix, mbind, option_bind.
  destruct (strip_suffix base host) as [r|] eqn:E; [|done].
  apply strip_suffix_Some in E as ->. intros H. apply strip_suffix_Some in H as ->.
  by rewrite <- app_assoc.
Qed.

Lemma is_plain_domain_inactive s : is_plain_domain s = true -> glob_syntax_is_active s = false.
Proof.
  unfold is_plain_domain. rewrite andb_true_iff, forallb_forall. intros [_ H].
  apply not_true_iff_false. unfold glob_syntax_is_active. rewrite existsb_exists.
  intros (c & Hin & Hc). specialize (H c Hin).
  apply orb_true_iff in Hc as [Hc|Hc]; apply N.eqb_eq in Hc as ->; done.
Qed.

Lemma is_plain_domain_nonempty s : is_plain_domain s = true -> s <> [].
Proof. by destruct s. Qed.

(** What a host pattern's index key promises about the hosts it matches. *)
Definition key_admits (key : MatcherIndexKey.t) (host : str) : Prop :=
  match key with
  | MatcherIndexKey.Exact h => host = h
  | MatcherIndexKey.Suffix base => base ∈ host_suffixes host
  | MatcherIndexKey.Global => True
  end.

Lemma glob_index_key_complete glob program host :
  host_reference program (gm_host glob) host = true ->
  key_admits (glob_index_key glob) (normalize_host host).
Proof.
  unfold host_reference, glob_index_key. set (p := normalize_host (gm_host glob)).
  set (h := normalize_host host). intros Hm.
  destruct (is_emptyb p || (p =s? lit "*") || contains_char (ch "?") p) eqn:E0; [done|].
  apply orb_false_iff in E0 as [[_ E0]%orb_false_iff _].
  destruct (p =s? lit "**") eqn:E1.
  { apply bool_decide_eq_true in E1. clearbody p. subst p. done. }
  rewrite E0 in Hm. cbn [orb] in Hm.
  destruct (strip_prefix (lit "**.") p) as [base|] eqn:E2; cbn [opt_or_else].
  { destruct (is_plain_domain base) eqn:Ep; [|done]. simpl.
    apply host_suffixes_complete; [by apply is_plain_domain_nonempty|].
    apply orb_true_iff in Hm as [Hm|Hm]; [left; by apply bool_decide_eq_true in Hm|right].
    destruct (dotted_suffix_prefix h base) as [pre|] eqn:Ed; [|done].
    exists pre. by apply dotted_suffix_prefix_Some. }
  destruct (strip_prefix (lit "*.") p) as [base|] eqn:E3; cbn [opt_or_else].
  { destruct (is_plain_domain base) eqn:Ep; [|done]. simpl.
    apply host_suffixes_complete; [by apply is_plain_domain_nonempty|right].
    destruct (dotted_suffix_prefix h base) as [pre|] eqn:Ed; [|done].
    exists pre. by apply dotted_suffix_prefix_Some. }
  destruct (strip_prefix (lit ".") p) as [base|] eqn:E4.
  { destruct (is_plain_domain base) eqn:Ep; [|done]. simpl.
    apply strip_prefix_Some in E4. rewrite E4 in Hm.
    rewrite glob_syntax_is_active_app, (is_plain_domain_inactive base Ep) in Hm.
    change (glob_syntax_is_active (lit ".")) with false in Hm. cbn [orb] in Hm.
    apply bool_decide_eq_true in Hm. rewrite <- Hm.
    apply host_suffixes_complete; [by apply is_plain_domain_nonempty|right]. by exists []. }
  destruct (contains_char (ch "*") p); [done|].
  destruct (is_plain_domain p) eqn:Ep; [|done]. simpl.
  rewrite (is_plain_domain_inactive p Ep) in Hm. by apply bool_decide_eq_true in Hm.
Qed.

Lemma matcher_index_key_complete {PE : PatternEngines} m url raw captures :
  Matcher_reference m url raw = Some captures ->
  key_admits (matcher_index_key m) (normalize_host (up_host url)).
Proof.
  destruct m as [expected|glob|port|rm|m]; try done; cbn [Matcher_reference matcher_index_key].
  - unfold exact_url_matches. destruct (UrlParts_parse expected) as [u|]; [|done].
    destruct (_ =s? _); [|done]. destruct (up_host u =s? up_host url) eqn:E; [|done].
    apply bool_decide_eq_true in E. simpl. by rewrite E.
  - unfold GlobMatcher_reference. destruct (match gm_scheme glob with Some _ => _ | None => _ end); [done|].
    destruct (host_reference _ _ _) eqn:E; [|done]. intros _. by eapply glob_index_key_complete.
Qed.

(** ** Unique extension of candidate lists *)

Lemma extend_unique_spec out seen values o s :
  (forall x, x ∈ out <-> x ∈ seen) -> extend_unique out seen values = (o, s) ->
  (forall x, x ∈ o <-> x ∈ s) /\ (forall x, x ∈ o <-> x ∈ out \/ x ∈ values) /\
  (NoDup out -> NoDup o).
Proof.
  revert out seen. induction values as [|v values IH]; intros out seen Hos; simpl.
  - intros [= <- <-]. split_and!; [done|set_solver|done].
  - case_decide as Hv; intros H.
    + apply IH in H as (H1 & H2 & H3); [|done]. split_and!; [done| |done].
      intros x. rewrite H2, elem_of_cons. rewrite <- Hos in Hv. naive_solver.
    + apply IH in H as (H1 & H2 & H3).
      2: { intros x. rewrite elem_of_app, list_elem_of_singleton, elem_of_union, elem_of_singleton, Hos.
           naive_solver. }
      split_and!; [done| |].
      * intros x. rewrite H2, elem_of_app, list_elem_of_singleton, elem_of_cons. naive_solver.
      * intros Hnd. apply H3. apply NoDup_app. split_and!; [done| |apply NoDup_singleton].
        intros x Hx. rewrite list_elem_of_singleton. intros ->. by apply Hv, Hos.
Qed.

(** The accumulator of the candidate loop. *)
Definition acc_ok (acc : list nat * gset nat) : Prop :=
  (forall x, x ∈ acc.1 <-> x ∈ acc.2) /\ NoDup acc.1.

Lemma extend_acc acc values :
  acc_ok acc -> acc_ok (extend_unique acc.1 acc.2 values) /\
  forall x, x ∈ (extend_unique acc.1 acc.2 values).1 <-> x ∈ acc.1 \/ x ∈ values.
Proof.
  intros [H1 H2]. destruct (extend_unique acc.1 acc.2 values) as [o s] eqn:E.
  apply extend_unique_spec in E as (H3 & H4 & H5); [|done]. split; [|done]. split; auto.
Qed.

(** ** Classification of rules into buckets *)

Definition in_bmap (m : list (str * list nat)) (key : str) (x : nat) : Prop :=
  exists vs, (key, vs) ∈ m /\ x ∈ vs.
Definition in_bucket (m : gmap str (list nat)) (key : str) (x : nat) : Prop :=
  exists vs, m !! key = Some vs /\ x ∈ vs.

Lemma in_bmap_cons key vs m k x :
  in_bmap ((key, vs) :: m) k x <-> (k = key /\ x ∈ vs) \/ in_bmap m k x.
Proof.
  unfold in_bmap. split.
  - intros (ws & [[= -> ->]|H]%elem_of_cons & Hx); eauto.
  - intros [[-> Hx]|(ws & H & Hx)]; [exists vs; set_solver|exists ws; set_solver].
Qed.

Lemma in_bmap_push key v m k x :
  in_bmap (bmap_push key v m) k x <-> (k = key /\ x = v) \/ in_bmap m k x.
Proof.
  induction m as [|[k' vs] m IH]; simpl.
  - rewrite in_bmap_cons, list_elem_of_singleton. done.
  - destruct (str_compare key k') eqn:E.
    + apply str_compare_eq in E as ->.
      rewrite !in_bmap_cons, elem_of_app, list_elem_of_singleton. tauto.
    + by rewrite in_bmap_cons, list_elem_of_singleton.
    + rewrite !in_bmap_cons, IH. tauto.
Qed.

Lemma in_bucket_push key v m k x :
  in_bucket (bucket_push key v m) k x <-> (k = key /\ x = v) \/ in_bucket m k x.
Proof.
  unfold in_bucket, bucket_push. destruct (decide (key = k)) as [->|Hne].
  - rewrite lookup_insert_eq. split.
    + intros (vs & [= <-] & Hx). apply elem_of_app in Hx as [Hx|Hx]; [|left; set_solver].
      right. destruct (m !! k) as [vs|]; [eauto|]. simpl in Hx. set_solver.
    + intros H. eexists. split; [done|]. apply elem_of_app.
      destruct H as [[_ ->]|(vs & -> & Hx)]; [right; set_solver|by left].
  - rewrite lookup_insert_ne by done. naive_solver.
Qed.

Section Classification.
Context {PE : PatternEngines}.

Definition rule_required (rule : Rule) : option str :=
  match r_matcher rule with Matcher.Regex rm => required_regex_literal rm | _ => None end.

(** The bucket in which a rule must be found. *)
Definition placed (b : Buckets) (idx : nat) (rule : Rule) : Prop :=
  match rule_required rule with
  | Some literal => in_bmap (bk_literal_rules b) literal idx
  | None =>
      match matcher_index_key (r_matcher rule) with
      | MatcherIndexKey.Exact h => in_bucket (bk_exact b) h idx
      | MatcherIndexKey.Suffix h => in_bucket (bk_suffix b) h idx
      | MatcherIndexKey.Global => idx ∈ bk_global b
      end
  end.

(** Every bucket holds ids of rules only; prefiltered ids are recorded. *)
Definition buckets_ok (n : nat) (b : Buckets) : Prop :=
  (forall h x, in_bucket (bk_exact b) h x -> (x < n)%nat) /\
  (forall h x, in_bucket (bk_suffix b) h x -> (x < n)%nat) /\
  (forall x, x ∈ bk_global b -> (x < n)%nat) /\
  (forall x, x ∈ bk_rule_ids b -> (x < n)%nat) /\
  (forall l x, in_bmap (bk_literal_rules b) l x -> x ∈ bk_rule_ids b).

Lemma classify_rule_placed b idx rule : placed (classify_rule b idx rule) idx rule.
Proof.
  unfold placed, classify_rule, rule_required.
  destruct (match r_matcher rule with Matcher.Regex _ => _ | _ => _ end); simpl.
  - apply in_bmap_push. auto.
  - destruct (matcher_index_key (r_matcher rule)); simpl; rewrite ?in_bucket_push; [auto..|set_solver].
Qed.

Lemma classify_rule_mono b idx rule idx' rule' :
  placed b idx' rule' -> placed (classify_rule b idx rule) idx' rule'.
Proof.
  unfold placed, classify_rule, rule_required.
  destruct (match r_matcher rule with Matcher.Regex _ => _ | _ => _ end);
    [|destruct (matcher_index_key (r_matcher rule))];
    destruct (match r_matcher rule' with Matcher.Regex _ => _ | _ => _ end);
    try destruct (matcher_index_key (r_matcher rule')); simpl;
    rewrite ?in_bmap_push, ?in_bucket_push, ?elem_of_app; auto.
Qed.

Lemma classify_rule_ok b idx rule :
  buckets_ok idx b -> buckets_ok (S idx) (classify_rule b idx rule).
Proof.
  intros (H1 & H2 & H3 & H4 & H5). unfold classify_rule, buckets_ok.
  destruct (match r_matcher rule with Matcher.Regex _ => _ | _ => _ end);
    [|destruct (matcher_index_key (r_matcher rule))]; simpl;
    (split_and!; [intros h x|intros h x|intros x|intros x|intros l0 x]);
    rewrite ?in_bmap_push, ?in_bucket_push, ?elem_of_app, ?list_elem_of_singleton,
      ?elem_of_union, ?elem_of_singleton; intros Hx;
    repeat match goal with
    | H : _ \/ _ |- _ => destruct H
    | H : _ /\ _ |- _ => destruct H
    | H : in_bucket (bk_exact _) _ _ |- _ => apply H1 in H
    | H : in_bucket (bk_suffix _) _ _ |- _ => apply H2 in H
    | H : _ ∈ bk_global _ |- _ => apply H3 in H
    | H : _ ∈ bk_rule_ids _ |- (_ < _)%nat => apply H4 in H
    | H : in_bmap _ _ _ |- _ => apply H5 in H
    end; subst; solve [lia|set_solver].
Qed.

Lemma classify_rules_spec b k rules :
  buckets_ok k b ->
  buckets_ok (k + length rules) (classify_rules b k rules) /\
  (forall idx rule, placed b idx rule -> placed (classify_rules b k rules) idx rule) /\
  (forall i rule, rules !! i = Some rule -> placed (classify_rules b k rules) (k + i) rule).
Proof.
  revert b k. induction rules as [|r rules IH]; intros b k Hok; simpl.
  - rewrite Nat.add_0_r. split_and!; [done|done|]. intros i rule. by rewrite lookup_nil.
  - destruct (IH (classify_rule b k r) (S k)) as (H1 & H2 & H3); [by apply classify_rule_ok|].
    rewrite <- Nat.add_succ_comm. split_and!; [done| |].
    + intros idx rule Hp. apply H2. by apply classify_rule_mono.
    + intros [|i] rule; simpl.
      * intros [= ->]. rewrite Nat.add_0_r. apply H2, classify_rule_placed.
      * intros Hi. rewrite <- Nat.add_succ_comm. by apply H3.
Qed.

Lemma buckets_ok_empty : buckets_ok 0 Buckets_empty.
Proof.
  unfold buckets_ok, in_bucket, in_bmap. split_and!; simpl.
  - intros h x (vs & H & _). by rewrite lookup_empty in H.
  - intros h x (vs & H & _). by rewrite lookup_empty in H.
  - set_solver.
  - set_solver.
  - intros l x (vs & H & _). set_solver.
Qed.

Lemma classify_all rules :
  buckets_ok (length rules) (classify_rules Buckets_empty 0 rules) /\
  (forall i rule, rules !! i = Some rule -> placed (classify_rules Buckets_empty 0 rules) i rule).
Proof.
  destruct (classify_rules_spec Buckets_empty 0 rules buckets_ok_empty) as (H1 & _ & H3). auto.
Qed.
End Classification.

(** ** Candidates *)

Section Candidates.
Context {PE : PatternEngines} {PL : PatternLaws PE}.

(** The prefilter reports every rule of every reported literal, also when it
    stops early because all prefiltered rules are candidates already. *)
Lemma prefilter_loop_spec literal_rules (R : gset nat) found out seen :
  (forall p rules x, literal_rules !! p = Some rules -> x ∈ rules -> x ∈ R) ->
  (forall x, x ∈ out <-> x ∈ seen) -> seen ⊆ R -> NoDup out ->
  let res := prefilter_loop literal_rules (size R) found out seen in
  NoDup res /\ (forall x, x ∈ res -> x ∈ R) /\ (forall x, x ∈ out -> x ∈ res) /\
  (forall p rules x, p ∈ found -> literal_rules !! p = Some rules -> x ∈ rules -> x ∈ res).
Proof.
  intros HR. revert out seen. induction found as [|p found IH]; intros out seen Hos Hsub Hnd; simpl.
  { split_and!; [done|set_solver|done|set_solver]. }
  destruct (literal_rules !! p) as [rules|] eqn:Ep.
  - destruct (extend_unique out seen rules) as [o s] eqn:Ee.
    apply extend_unique_spec in Ee as (H1 & H2 & H3); [|done].
    assert (s ⊆ R) as Hs.
    { intros x Hx. apply H1, H2 in Hx as [Hx|Hx]; [apply Hsub; by apply Hos|by eapply HR]. }
    destruct (Nat.eqb_spec (size s) (size R)) as [Hsz|Hsz].
    + assert (s = R) as -> by (apply set_subseteq_size_eq; [done|lia]).
      split_and!; [by apply H3|intros x Hx; by apply H1|intros x Hx; apply H2; by left|].
      intros p' rules' x _ Hp' Hx. apply H1. by eapply HR.
    + destruct (IH o s H1 Hs (H3 Hnd)) as (I1 & I2 & I3 & I4).
      split_and!; [done|done|intros x Hx; apply I3, H2; by left|].
      intros p' rules' x [->|Hp]%elem_of_cons Hp' Hx; [|by eapply I4].
      apply I3, H2. right. congruence.
  - destruct (IH out seen Hos Hsub Hnd) as (I1 & I2 & I3 & I4).
    split_and!; [done|done|done|]. intros p' rules' x [->|Hp]%elem_of_cons Hp' Hx; [congruence|].
    by eapply I4.
Qed.

(** What a built index guarantees. *)
Record index_ok (rules : list Rule) (ix : RuleIndex) : Prop := {
  io_globs : CompiledGlobSet_build rules = Some (ix_compiled_globs ix);
  io_body : CompiledBodyContainsSet_build rules = Some (ix_compiled_body_literals ix);
  io_resources : mapM (bind_rule (ix_compiled_globs ix) (ix_compiled_body_literals ix)) rules
    = Some (ix_compiled_resources ix);
  io_prefilter : exists b, b = classify_rules Buckets_empty 0 rules /\
    ix_domain_exact ix = bk_exact b /\ ix_domain_suffix ix = bk_suffix b /\
    ((exists ac, ix_prefilter ix = Some ac /\ ac_accepts ac = true /\
        ac = mkAhoCorasick (map fst (bk_literal_rules b)) false /\
        ix_global ix = bk_global b /\
        ix_prefilter_literal_rules ix = map snd (bk_literal_rules b) /\
        ix_prefilter_rule_ids ix = bk_rule_ids b) \/
     (ix_prefilter ix = None /\
        ix_global ix = bk_global b ++ concat (map snd (bk_literal_rules b))));
}.

Lemma RuleIndex_build_ok rules ix : RuleIndex_build rules = Some ix -> index_ok rules ix.
Proof.
  unfold RuleIndex_build, mbind, option_bind.
  destruct (CompiledGlobSet_build rules) as [globs|] eqn:Eg; [|done].
  destruct (CompiledBodyContainsSet_build rules) as [body|] eqn:Eb; [|done].
  destruct (mapM (bind_rule globs body) rules) as [res|] eqn:Er; [|done].
  set (b := classify_rules Buckets_empty 0 rules).
  destruct (is_emptyb (map fst (bk_literal_rules b))) eqn:Ee;
    [|destruct (ac_accepts _) eqn:Ea]; intros [= <-]; split; simpl; try done;
    exists b; split_and!; try done; eauto 10.
Qed.

Lemma lookup_map_fst_snd (m : list (str * list nat)) p l ids :
  map fst m !! p = Some l -> map snd m !! p = Some ids -> (l, ids) ∈ m.
Proof.
  change (map fst m) with (fst <$> m). change (map snd m) with (snd <$> m).
  rewrite !list_lookup_fmap. destruct (m !! p) as [[l' ids']|] eqn:E; [|done].
  intros [= ->] [= ->]. by eapply list_elem_of_lookup_2.
Qed.

Context (rules : list Rule) (ix : RuleIndex) (Hix : index_ok rules ix).
Context (Hwf : Forall rule_wf rules).
Context (v lv : N).
Let rs := mkRuleSet lv v rules ix.

Lemma prefilter_matches_spec url :
  NoDup (prefilter_matches ix url) /\
  (forall x, x ∈ prefilter_matches ix url -> (x < length rules)%nat) /\
  (forall i rule literal, rules !! i = Some rule -> rule_required rule = Some literal ->
     contains literal url = true -> i ∈ ix_global ix \/ i ∈ prefilter_matches ix url).
Proof.
  destruct (io_prefilter _ _ Hix) as (b & -> & _ & _ & Hpre).
  destruct (classify_all rules) as [(_ & _ & _ & Hids & Hlit) Hplaced].
  unfold prefilter_matches. destruct Hpre as [(ac & -> & Hacc & -> & Hglobal & -> & ->)|[-> Hglobal]].
  - destruct (prefilter_loop_spec (map snd (bk_literal_rules (classify_rules Buckets_empty 0 rules)))
      (bk_rule_ids (classify_rules Buckets_empty 0 rules))
      (find_overlapping (mkAhoCorasick
         (map fst (bk_literal_rules (classify_rules Buckets_empty 0 rules))) false) url) [] ∅)
      as (I1 & I2 & I3 & I4); [|set_solver|set_solver|constructor|].
    { intros p ids x Hp Hx. change (map snd ?m) with (snd <$> m) in Hp.
      rewrite list_lookup_fmap in Hp.
      destruct (_ !! p) as [[l ids']|] eqn:E; [|done]. injection Hp as <-.
      apply list_elem_of_lookup_2 in E. apply (Hlit l x). by exists ids'. }
    split_and!; [done|intros x Hx; by apply Hids, I2|].
    + intros i rule literal Hi Hreq Hc. right. pose proof (Hplaced i rule Hi) as Hp.
      unfold placed in Hp. rewrite Hreq in Hp. destruct Hp as (ids & Hin & Hx).
      apply list_elem_of_lookup in Hin as [p Hp]. apply (I4 p ids i); [| |done].
      * apply find_overlapping_spec; [done|]. exists literal. simpl. split; [|done].
        change (map fst ?m) with (fst <$> m). by rewrite list_lookup_fmap, Hp.
      * change (map snd ?m) with (snd <$> m). by rewrite list_lookup_fmap, Hp.
  - split_and!; [constructor|set_solver|]. intros i rule literal Hi Hreq _. left. rewrite Hglobal.
    pose proof (Hplaced i rule Hi) as Hp. unfold placed in Hp. rewrite Hreq in Hp.
    destruct Hp as (ids & Hin & Hx). apply elem_of_app. right.
    apply list_elem_of_In, in_concat. exists ids. rewrite <- !list_elem_of_In. split; [|done].
    change (map snd ?m) with (snd <$> m). apply list_elem_of_fmap. by exists (literal, ids).
Qed.

(** The loop over host suffixes adds exactly the ids of their buckets. *)
Lemma suffix_fold_spec suffixes acc :
  acc_ok acc ->
  let acc' := fold_left (fun acc suffix =>
    match ix_domain_suffix ix !! suffix with
    | Some bucket => extend_unique acc.1 acc.2 bucket
    | None => acc
    end) suffixes acc in
  acc_ok acc' /\ forall x, x ∈ acc'.1 <->
    x ∈ acc.1 \/ exists s, s ∈ suffixes /\ in_bucket (ix_domain_suffix ix) s x.
Proof.
  revert acc. induction suffixes as [|s suffixes IH]; intros acc Hacc; simpl.
  { split; [done|]. set_solver. }
  unfold in_bucket in *. destruct (ix_domain_suffix ix !! s) as [bucket|] eqn:E.
  - destruct (extend_acc acc bucket Hacc) as [H1 H2]. destruct (IH _ H1) as [H3 H4].
    split; [done|]. intros x. rewrite H4, H2. setoid_rewrite elem_of_cons. split.
    + intros [[?|?]|(s' & ? & ?)]; [by left|right; exists s; eauto|right; exists s'; eauto].
    + intros [?|(s' & [->|Hs'] & vs & Hvs & ?)]; [by do 2 left|left; right; congruence|].
      right. exists s'. eauto.
  - destruct (IH _ Hacc) as [H3 H4]. split; [done|]. intros x. rewrite H4.
    setoid_rewrite elem_of_cons. split.
    + intros [?|(s' & ? & ?)]; [by left|right; exists s'; eauto].
    + intros [?|(s' & [->|Hs'] & vs & Hvs & ?)]; [by left|congruence|]. right. exists s'. eauto.
Qed.

Lemma candidates_spec url raw :
  let cs := candidate_rule_indices rs (Some url) raw in
  NoDup cs /\
  forall x, x ∈ cs <->
    in_bucket (ix_domain_exact ix) (normalize_host (up_host url)) x \/
    (exists s, s ∈ host_suffixes (normalize_host (up_host url)) /\
       in_bucket (ix_domain_suffix ix) s x) \/
    x ∈ ix_global ix \/ x ∈ prefilter_matches ix raw.
Proof.
  unfold candidate_rule_indices. cbn [rs_index rs_rules rs].
  set (h := normalize_host (up_host url)).
  set (acc1 := match ix_domain_exact ix !! h with Some exact => _ | None => _ end).
  assert (acc_ok acc1 /\ forall x, x ∈ acc1.1 <-> in_bucket (ix_domain_exact ix) h x) as [A1 B1].
  { assert (acc_ok (@nil nat, (∅ : gset nat))) as A0 by (split; [set_solver|constructor]).
    unfold in_bucket. subst acc1. destruct (ix_domain_exact ix !! h) as [exact|].
    - destruct (extend_acc _ exact A0) as [H1 H2]. split; [done|]. intros x. rewrite H2. set_solver.
    - split; [done|]. set_solver. }
  clearbody acc1. destruct (suffix_fold_spec (host_suffixes h) acc1 A1) as [A2 B2].
  destruct (extend_acc _ (ix_global ix) A2) as [A3 B3].
  destruct (extend_acc _ (prefilter_matches ix raw) A3) as [A4 B4].
  set (acc4 := extend_unique _ _ (prefilter_matches ix raw)) in *.
  assert (forall x, x ∈ acc4.1 <-> in_bucket (ix_domain_exact ix) h x \/
    (exists s, s ∈ host_suffixes h /\ in_bucket (ix_domain_suffix ix) s x) \/
    x ∈ ix_global ix \/ x ∈ prefilter_matches ix raw) as B.
  { intros x. rewrite B4, B3, B2, B1. tauto. }
  assert ((if is_emptyb acc4.1 && negb (is_emptyb raw) then [] else acc4.1) = acc4.1) as ->.
  { destruct (is_emptyb acc4.1) eqn:Ee; [|done]. destruct acc4.1; [|done]. by destruct (negb _). }
  split; [apply A4|exact B].
Qed.

Lemma candidates_in_range url raw x :
  x ∈ candidate_rule_indices rs (Some url) raw -> (x < length rules)%nat.
Proof.
  rewrite (proj2 (candidates_spec url raw)).
  destruct (prefilter_matches_spec raw) as (_ & Hpre & _).
  destruct (io_prefilter _ _ Hix) as (b & Hb & He & Hs & Hg).
  destruct (classify_all rules) as [(H1 & H2 & H3 & H4 & H5) _]. rewrite <- Hb in *.
  rewrite He, Hs. intros [Hx|[(s & _ & Hx)|[Hx|Hx]]]; [by eapply H1|by eapply H2| |by apply Hpre].
  destruct Hg as [(ac & _ & _ & _ & Hg & _)|[_ Hg]]; rewrite Hg in Hx; [by apply H3|].
  apply elem_of_app in Hx as [Hx|Hx]; [by apply H3|].
  apply list_elem_of_In, in_concat in Hx as (ids & Hids & Hx).
  rewrite <- list_elem_of_In in Hx. apply in_map_iff in Hids as ([l ids'] & <- & Hin).
  apply H4, (H5 l). exists ids'. by rewrite list_elem_of_In.
Qed.

(** No matching rule is missed by the index. *)
Lemma candidates_complete url raw i rule captures :
  valid_str raw = true -> rules !! i = Some rule ->
  Matcher_reference (r_matcher rule) url raw = Some captures ->
  i ∈ candidate_rule_indices rs (Some url) raw.
Proof.
  intros Hv Hi Hm. rewrite (proj2 (candidates_spec url raw)).
  destruct (rule_required rule) as [literal|] eqn:Ereq.
  - destruct (prefilter_matches_spec raw) as (_ & _ & Hpre).
    destruct (Hpre i rule literal Hi Ereq); [|tauto..].
    unfold rule_required in Ereq. rewrite Forall_forall in Hwf.
    pose proof (Hwf rule ltac:(by eapply list_elem_of_lookup_2)) as Hr. unfold rule_wf in Hr.
    destruct (r_matcher rule); try done. by eapply required_regex_literal_sound.
  - destruct (io_prefilter _ _ Hix) as (b & -> & He & Hs & Hg).
    destruct (classify_all rules) as [_ Hplaced]. pose proof (Hplaced i rule Hi) as Hp.
    unfold placed in Hp. rewrite Ereq in Hp. apply matcher_index_key_complete in Hm.
    rewrite He, Hs. destruct (matcher_index_key (r_matcher rule)); simpl in Hm.
    + left. by rewrite Hm.
    + right; left. eauto.
    + right; right; left. destruct Hg as [(ac & _ & _ & _ & -> & _)|[_ ->]]; [done|].
      apply elem_of_app. by left.
Qed.
End Candidates.

(** ** Priority order *)

Section Priority.
Context (rules : list Rule).

Definition key_le (i j : nat) : Prop := key_leb rules i j = true.

#[local] Instance key_le_trans : Transitive key_le.
Proof.
  intros i j k. unfold key_le, key_leb.
  destruct (not_important rules i), (not_important rules j), (not_important rules k);
    rewrite ?Nat.leb_le; done || lia.
Qed.

#[local] Instance key_le_antisym : AntiSymm (=) key_le.
Proof.
  intros i j. unfold key_le, key_leb.
  destruct (not_important rules i), (not_important rules j); rewrite ?Nat.leb_le; done || lia.
Qed.

Lemma key_le_total i j : key_leb rules i j = false -> key_le j i.
Proof.
  unfold key_le, key_leb.
  destruct (not_important rules i), (not_important rules j); rewrite ?Nat.leb_le, ?Nat.leb_gt; done || lia.
Qed.

Lemma insert_by_key_perm i l : insert_by_key rules i l ≡ₚ i :: l.
Proof.
  induction l as [|j l IH]; simpl; [done|]. destruct (key_leb rules i j); [done|].
  rewrite IH. apply Permutation_swap.
Qed.

Lemma insert_by_key_sorted i l :
  StronglySorted key_le l -> StronglySorted key_le (insert_by_key rules i l).
Proof.
  induction 1 as [|j l Hl IH Hj]; simpl; [repeat constructor|].
  destruct (key_leb rules i j) eqn:E.
  - constructor; [by constructor|]. constructor; [done|].
    eapply Forall_impl; [exact Hj|]. intros k Hk. by eapply key_le_trans.
  - constructor; [done|]. rewrite insert_by_key_perm. constructor; [by apply key_le_total|done].
Qed.

Lemma sort_by_key_perm l : sort_by_key rules l ≡ₚ l.
Proof. induction l as [|i l IH]; simpl; [done|]. by rewrite insert_by_key_perm, IH. Qed.

Lemma sort_by_key_sorted l : StronglySorted key_le (sort_by_key rules l).
Proof. induction l as [|i l IH]; simpl; [constructor|]. by apply insert_by_key_sorted. Qed.

Lemma StronglySorted_filter {A} (R : A -> A -> Prop) (P : A -> bool) l :
  StronglySorted R l -> StronglySorted R (List.filter P l).
Proof.
  induction 1 as [|x l Hl IH Hx]; simpl; [constructor|]. destruct (P x); [|done].
  constructor; [done|]. apply Forall_forall. intros y Hy. rewrite Forall_forall in Hx.
  apply Hx. apply list_elem_of_In, filter_In in Hy as [Hy _]. by apply list_elem_of_In.
Qed.

Lemma StronglySorted_app' {A} (R : A -> A -> Prop) l1 l2 :
  StronglySorted R l1 -> StronglySorted R l2 ->
  (forall x y, x ∈ l1 -> y ∈ l2 -> R x y) -> StronglySorted R (l1 ++ l2).
Proof.
  induction 1 as [|x l Hl IH Hx]; intros H2 Hxy; simpl; [done|].
  constructor; [apply IH; [done|]; set_solver|]. apply Forall_app. split; [done|].
  apply Forall_forall. set_solver.
Qed.

Lemma seq_sorted s n : StronglySorted le (seq s n).
Proof.
  revert s. induction n as [|n IH]; intros s; simpl; [constructor|]. constructor; [done|].
  apply Forall_forall. intros x Hx. apply elem_of_seq in Hx. lia.
Qed.

Lemma StronglySorted_mono_in {A} (R R' : A -> A -> Prop) l :
  (forall x y, x ∈ l -> y ∈ l -> R x y -> R' x y) -> StronglySorted R l -> StronglySorted R' l.
Proof.
  intros Himp Hl. induction Hl as [|x l Hl IH Hx]; [constructor|].
  constructor; [apply IH; set_solver|]. rewrite Forall_forall in *. intros y Hy.
  apply Himp; [set_solver..|auto].
Qed.

Lemma priority_order_sorted : StronglySorted key_le (priority_order rules).
Proof.
  unfold priority_order. apply StronglySorted_app'.
  - apply (StronglySorted_mono_in le); [|by apply StronglySorted_filter, seq_sorted].
    intros x y Hx Hy Hle. apply list_elem_of_In, filter_In in Hx as [_ Hx], Hy as [_ Hy].
    apply negb_true_iff in Hx, Hy. unfold key_le, key_leb. rewrite Hx, Hy. by apply Nat.leb_le.
  - apply (StronglySorted_mono_in le); [|by apply StronglySorted_filter, seq_sorted].
    intros x y Hx Hy Hle. apply list_elem_of_In, filter_In in Hx as [_ Hx], Hy as [_ Hy].
    unfold key_le, key_leb. rewrite Hx, Hy. by apply Nat.leb_le.
  - intros x y Hx Hy. apply list_elem_of_In, filter_In in Hx as [_ Hx], Hy as [_ Hy].
    apply negb_true_iff in Hx. unfold key_le, key_leb. by rewrite Hx, Hy.
Qed.

Lemma elem_of_priority_order i : i ∈ priority_order rules <-> (i < length rules)%nat.
Proof.
  unfold priority_order. rewrite elem_of_app, !list_elem_of_In, !filter_In, <- !list_elem_of_In.
  rewrite elem_of_seq, negb_true_iff. destruct (not_important rules i); intuition lia.
Qed.

Lemma NoDup_priority_order : NoDup (priority_order rules).
Proof.
  unfold priority_order. apply NoDup_app. split_and!.
  - apply NoDup_ListNoDup, List.NoDup_filter, NoDup_ListNoDup, NoDup_seq.
  - intros x Hx Hy. apply list_elem_of_In, filter_In in Hx as [_ Hx], Hy as [_ Hy].
    rewrite Hy in Hx. done.
  - apply NoDup_ListNoDup, List.NoDup_filter, NoDup_ListNoDup, NoDup_seq.
Qed.

(** Sorting candidates selects them from the priority order. *)
Lemma sort_candidates cs :
  NoDup cs -> (forall x, x ∈ cs -> (x < length rules)%nat) ->
  sort_by_key rules cs = List.filter (fun i => bool_decide (i ∈ cs)) (priority_order rules).
Proof.
  intros Hnd Hr. apply (StronglySorted_unique key_le).
  - apply sort_by_key_sorted.
  - apply StronglySorted_filter, priority_order_sorted.
  - rewrite sort_by_key_perm. apply NoDup_Permutation; [done|..].
    + apply NoDup_ListNoDup, List.NoDup_filter, NoDup_ListNoDup, NoDup_priority_order.
    + intros x. rewrite (list_elem_of_In (List.filter _ _) x), filter_In, <- list_elem_of_In.
      rewrite elem_of_priority_order, bool_decide_eq_true. naive_solver.
Qed.
End Priority.

Lemma fold_left_filter_noop {A B} (f : B -> A -> B) (P : A -> bool) l b :
  (forall x b, P x = false -> x ∈ l -> f b x = b) ->
  fold_left f (List.filter P l) b = fold_left f l b.
Proof.
  revert b. induction l as [|x l IH]; intros b Hnoop; simpl; [done|].
  destruct (P x) eqn:E; simpl.
  - apply IH. intros y b' Hy Hin. apply Hnoop; [done|set_solver].
  - rewrite (Hnoop x b E) by set_solver. apply IH. intros y b' Hy Hin. apply Hnoop; [done|set_solver].
Qed.

Lemma fold_left_ext_in {A B} (f g : B -> A -> B) l b :
  (forall x b, x ∈ l -> f b x = g b x) -> fold_left f l b = fold_left g l b.
Proof.
  revert b. induction l as [|x l IH]; intros b H; simpl; [done|].
  rewrite H by set_solver. apply IH. intros y b' Hy. apply H. set_solver.
Qed.

(** ** The refinement *)

Section Main.
Context {PE : PatternEngines} {PL : PatternLaws PE}.
Context (rules : list Rule) (ix : RuleIndex) (Hix : index_ok rules ix).
Context (v lv : N).
Let rs := mkRuleSet lv v rules ix.

Lemma zip_all_reference parts res line req cs rs' :
  Forall (fun c => registered (ix_compiled_globs ix) (condition_globs c)) cs ->
  Forall2 (fun c r => bind_condition_resources c (ix_compiled_globs ix)
    (ix_compiled_body_literals ix) = Some r) cs rs' ->
  zip_all (fun c r => matches_with_compiled c r (condition_context rs parts res line req)) cs rs' =
  forallb (fun c => Condition_reference c parts res line req) cs.
Proof.
  destruct (CompiledGlobSet_build_spec _ _ (io_globs _ _ Hix)) as [Hg _].
  destruct (CompiledBodyContainsSet_build_spec _ _ (io_body _ _ Hix)) as [Hb _].
  intros Hreg. induction 1 as [|c r cs rs' Hbind Hrest IH]; [done|].
  apply Forall_cons in Hreg as [Hc Hreg]. simpl. rewrite IH by done. f_equal.
  by apply (Condition_bind (ix_compiled_globs ix) Hg (ix_compiled_body_literals ix) Hb).
Qed.

Lemma visit_rule_reference parts req res inc st idx :
  visit_rule rs parts req res inc st idx = visit_reference rules parts req res inc st idx.
Proof.
  unfold visit_rule, visit_reference. cbn [rs_rules rs_index rs].
  destruct (rules !! idx) as [rule|] eqn:Er; [|done].
  pose proof (io_resources _ _ Hix) as Hres. apply mapM_Some_1 in Hres.
  destruct (Forall2_lookup_l _ _ _ _ _ Hres Er) as (resources & -> & Hbind).
  unfold bind_rule, mbind, option_bind in Hbind.
  destruct (mapM _ (r_conditions rule)) as [crs|] eqn:Ec; [|done]. injection Hbind as <-.
  apply mapM_Some_1 in Ec.
  destruct (CompiledGlobSet_build_spec _ _ (io_globs _ _ Hix)) as [Hg Hreg].
  rewrite Forall_forall in Hreg.
  destruct (Hreg rule) as [Hm Hcs]; [by eapply list_elem_of_lookup_2|].
  unfold rule_reference. destruct (r_disabled rule); [done|]. cbn [cr_matcher cr_conditions].
  destruct parts as [url|]; [|done]. cbn [mbind option_bind].
  rewrite (Matcher_bind (ix_compiled_globs ix) Hg) by done.
  destruct (Matcher_reference (r_matcher rule) url (req_url req)) as [captures|]; [|done].
  cbn. destruct (_ && _); [done|].
  rewrite zip_all_reference by done.
  by destruct (forallb _ _).
Qed.

Context (Hwf : Forall rule_wf rules).

Lemma visit_reference_noop url req res inc st idx :
  valid_str (req_url req) = true ->
  idx ∉ candidate_rule_indices rs (Some url) (req_url req) ->
  visit_reference rules (Some url) req res inc st idx = st.
Proof.
  intros Hv Hn. unfold visit_reference. destruct (rules !! idx) as [rule|] eqn:Er; [|done].
  unfold rule_reference. destruct (r_disabled rule); [done|]. cbn [mbind option_bind].
  destruct (Matcher_reference (r_matcher rule) url (req_url req)) as [captures|] eqn:Em; [|done].
  destruct Hn. by eapply candidates_complete.
Qed.

Lemma resolve_inner_reference req res inc :
  valid_str (req_url req) = true ->
  resolve_inner rs req res inc = resolve_reference rules req res inc.
Proof.
  intros Hv. unfold resolve_inner, resolve_reference. cbn [rs_rules rs].
  destruct (is_emptyb rules) eqn:Ee; [by destruct rules|].
  assert (fold_left (visit_rule rs (ok (UrlParts_parse (req_url req))) req res inc)
    (sort_by_key rules (candidate_rule_indices rs (ok (UrlParts_parse (req_url req))) (req_url req)))
    ResolveState_init =
    fold_left (visit_reference rules (ok (UrlParts_parse (req_url req))) req res inc)
      (priority_order rules) ResolveState_init) as ->; [|done].
  rewrite (fold_left_ext_in _ (visit_reference rules (ok (UrlParts_parse (req_url req))) req res inc))
    by (intros; apply visit_rule_reference).
  destruct (UrlParts_parse (req_url req)) as [url|e]; cbn [ok].
  - rewrite sort_candidates; [|by apply candidates_spec|by apply candidates_in_range].
    apply fold_left_filter_noop. intros i st Hi _. apply bool_decide_eq_false in Hi.
    by apply visit_reference_noop.
  - cbn [candidate_rule_indices]. rewrite sort_candidates.
    + apply fold_left_filter_noop. intros i st Hi Hin. apply bool_decide_eq_false in Hi.
      apply elem_of_priority_order in Hin. destruct Hi. apply elem_of_seq. simpl. lia.
    + apply NoDup_seq.
    + intros x Hx. apply elem_of_seq in Hx. simpl in Hx. lia.
Qed.
End Main.

(** ** Invariants of the resolution loop *)

Section Invariants.
Context {PE : PatternEngines}.

(** What every action step preserves holds of the state behind a result. *)
Lemma resolve_invariant (I : ResolveState -> Prop) rs req res inc :
  I ResolveState_init ->
  (forall brief captures response st a, I st -> I (visit_action brief captures response inc st a)) ->
  exists st, I st /\ resolve_inner rs req res inc = mkResolveResult (s_actions st) (s_matched_rules st).
Proof.
  intros Hinit Hstep. unfold resolve_inner.
  destruct (is_emptyb (rs_rules rs)); [by exists ResolveState_init|].
  eexists. split; [|reflexivity]. generalize (sort_by_key (rs_rules rs)
    (candidate_rule_indices rs (ok (UrlParts_parse (req_url req))) (req_url req))).
  intros l. revert Hinit. generalize ResolveState_init.
  induction l as [|i l IH]; intros st Hst; simpl; [done|]. apply IH. unfold visit_rule.
  repeat (case_goal; try done). unfold visit_rule_actions. revert st Hst.
  induction (r_actions r) as [|a acts IHa]; intros st Hst; simpl; [done|]. apply IHa, Hstep, Hst.
Qed.

(** The three ways one action step ends. *)
Lemma visit_action_cases (P : ResolveState -> Prop) brief captures response inc st a :
  P st ->
  (forall a', action_for_body_availability a inc = Some a' ->
     SkipState.suppresses (s_skip st) (Action.family a') = false ->
     (Action.is_single a' = true ->
        ActionFamilySet.contains (s_single_families st) (Action.family a') = false) ->
     P (mkResolveState
       (s_actions st ++ [mkResolvedAction a' brief captures response])
       (if decide ((mr_group brief, mr_line brief) ∈ s_seen_rules st) then s_matched_rules st
        else s_matched_rules st ++ [brief])
       (if decide ((mr_group brief, mr_line brief) ∈ s_seen_rules st) then s_seen_rules st
        else {[(mr_group brief, mr_line brief)]} ∪ s_seen_rules st)
       (if Action.is_single a' then ActionFamilySet.insert (s_single_families st) (Action.family a')
        else s_single_families st)
       (SkipState.observe (s_skip st) a'))) ->
  P (visit_action brief captures response inc st a).
Proof.
  intros Hst Hadd. unfold visit_action.
  destruct (action_for_body_availability a inc) as [a'|]; [|done].
  destruct (SkipState.suppresses _ _) eqn:Es; [done|].
  destruct (Action.is_single a' && _) eqn:Ef; [done|].
  specialize (Hadd a' eq_refl Es).
  destruct (decide _); simpl; apply Hadd; intros Hs; by rewrite Hs in Ef.
Qed.

Definition single_families_of (actions : list ResolvedAction) : list ActionFamily.t :=
  map (fun ra => Action.family (ra_action ra))
    (List.filter (fun ra => Action.is_single (ra_action ra)) actions).

Lemma single_families_of_app l ra :
  single_families_of (l ++ [ra]) =
  single_families_of l ++ (if Action.is_single (ra_action ra) then [Action.family (ra_action ra)] else []).
Proof.
  unfold single_families_of. rewrite List.filter_app, map_app. simpl.
  by destruct (Action.is_single (ra_action ra)).
Qed.

Lemma first_wins_invariant rs req res inc :
  NoDup (single_families_of (rr_actions (resolve_inner rs req res inc))).
Proof.
  destruct (resolve_invariant (fun st =>
    NoDup (single_families_of (s_actions st)) /\
    forall f, f ∈ single_families_of (s_actions st) ->
      ActionFamilySet.contains (s_single_families st) f = true) rs req res inc)
    as (st & [Hnd _] & ->); [split; [constructor|set_solver]| |done].
  intros brief captures response st a [Hnd Hin]. apply visit_action_cases; [done|].
  intros a' _ _ Hs. cbn [s_actions s_single_families].
  rewrite single_families_of_app. cbn [ra_action].
  destruct (Action.is_single a'); [|rewrite app_nil_r; done]. specialize (Hs eq_refl). split.
  - apply NoDup_app. split_and!; [done| |apply NoDup_singleton].
    intros f Hf ->%list_elem_of_singleton. apply Hin in Hf. congruence.
  - intros f [Hf|Hf]%elem_of_app; rewrite contains_insert; [by rewrite Hin, orb_true_r|].
    apply list_elem_of_singleton in Hf as ->. by rewrite bool_decide_eq_true_2.
Qed.

(** The families a [skip(...)] action suppresses: all of them when the list is empty. *)
Definition skip_suppresses (a : Action.t) (f : ActionFamily.t) : bool :=
  match a with
  | Action.Skip fs => ActionFamilySet.is_empty fs || ActionFamilySet.contains fs f
  | _ => false
  end.

Lemma suppresses_observe s a f :
  SkipState.suppresses (SkipState.observe s a) f =
  SkipState.suppresses s f || skip_suppresses a f.
Proof.
  unfold SkipState.suppresses, SkipState.observe, skip_suppresses.
  destruct a; try by rewrite orb_false_r.
  destruct (ActionFamilySet.is_empty families); simpl.
  - by rewrite contains_ALL, orb_true_r.
  - apply contains_union.
Qed.

Lemma skip_invariant rs req res inc i j a b :
  rr_actions (resolve_inner rs req res inc) !! i = Some a ->
  rr_actions (resolve_inner rs req res inc) !! j = Some b -> (i < j)%nat ->
  skip_suppresses (ra_action a) (Action.family (ra_action b)) = false.
Proof.
  destruct (resolve_invariant (fun st =>
    (forall i j a b, s_actions st !! i = Some a -> s_actions st !! j = Some b -> (i < j)%nat ->
       skip_suppresses (ra_action a) (Action.family (ra_action b)) = false) /\
    (forall i a f, s_actions st !! i = Some a -> skip_suppresses (ra_action a) f = true ->
       SkipState.suppresses (s_skip st) f = true)) rs req res inc)
    as (st & [Hord _] & ->); [split; [intros ???? H|intros ??? H]; by cbn in H; rewrite lookup_nil in H| |by apply Hord].
  clear. intros brief captures response st a [Hord Hsup]. apply visit_action_cases; [done|].
  intros a' _ Hs _. cbn [s_actions s_skip]. split.
  - intros i j x y Hi Hj Hij. rewrite lookup_snoc_Some in Hi, Hj.
    destruct Hi as [[Hi Hx]|[-> _]]; [|destruct Hj as [[Hj _]|[-> _]]; lia].
    destruct Hj as [[_ Hy]|[-> <-]]; [by eapply Hord|]. cbn [ra_action].
    apply not_true_iff_false. intros Ht. apply (Hsup i x) in Ht; [congruence|done].
  - intros i x f Hi Hx. rewrite suppresses_observe, orb_true_iff.
    rewrite lookup_snoc_Some in Hi. destruct Hi as [[_ Hi]|[_ <-]]; [left; by eapply Hsup|by right].
Qed.

Definition rule_key (r : MatchedRule) : str * N := (mr_group r, mr_line r).

Lemma provenance_invariant rs req res inc :
  let r := resolve_inner rs req res inc in
  NoDup (map rule_key (rr_matched_rules r)) /\
  (forall m, m ∈ rr_matched_rules r -> exists a, a ∈ rr_actions r /\ ra_rule a = m) /\
  (forall a, a ∈ rr_actions r -> rule_key (ra_rule a) ∈ map rule_key (rr_matched_rules r)).
Proof.
  destruct (resolve_invariant (fun st =>
    NoDup (map rule_key (s_matched_rules st)) /\
    (forall m, m ∈ s_matched_rules st -> exists a, a ∈ s_actions st /\ ra_rule a = m) /\
    (forall a, a ∈ s_actions st -> rule_key (ra_rule a) ∈ map rule_key (s_matched_rules st)) /\
    (forall k, k ∈ s_seen_rules st <-> k ∈ map rule_key (s_matched_rules st))) rs req res inc)
    as (st & (H1 & H2 & H3 & _) & ->); [|..|done].
  { split_and!; [constructor|set_solver..]. }
  intros brief captures response st a (H1 & H2 & H3 & H4). apply visit_action_cases; [done|].
  intros a' _ _ _. cbn [s_actions s_matched_rules s_seen_rules].
  fold (rule_key brief). destruct (decide (rule_key brief ∈ s_seen_rules st)) as [Hin|Hin].
  - split_and!; [done| | |done].
    + intros m Hm. destruct (H2 m Hm) as (x & Hx & <-). exists x. set_solver.
    + intros x [Hx| ->%list_elem_of_singleton]%elem_of_app; [by apply H3|]. by apply H4.
  - rewrite map_app. cbn [map]. split_and!.
    + apply NoDup_app. split_and!; [done| |apply NoDup_singleton].
      intros k Hk ->%list_elem_of_singleton. by apply Hin, H4.
    + intros m [Hm| ->%list_elem_of_singleton]%elem_of_app.
      * destruct (H2 m Hm) as (x & Hx & <-). exists x. set_solver.
      * eexists. split; [apply elem_of_app; right; by apply list_elem_of_singleton|done].
    + intros x [Hx| ->%list_elem_of_singleton]%elem_of_app; apply elem_of_app; [left; by apply H3|].
      right. by apply list_elem_of_singleton.
    + intros k. rewrite elem_of_union, elem_of_singleton, elem_of_app, H4, list_elem_of_singleton. tauto.
Qed.

Lemma action_for_body_unavailable a a' :
  action_for_body_availability a false = Some a' -> action_requires_request_body a' = false.
Proof.
  unfold action_for_body_availability.
  destruct a; try (by intros [= <-]).
  destruct (negb _); [|done]. intros [= <-]. cbn [action_requires_request_body].
  induction ops as [|op ops IH]; [done|]. simpl.
  destruct (delete_needs_request_body op) eqn:E; simpl; [done|]. by rewrite E.
Qed.

Lemma no_body_actions_invariant rs req res a :
  a ∈ rr_actions (resolve_inner rs req res false) ->
  action_requires_request_body (ra_action a) = false.
Proof.
  destruct (resolve_invariant (fun st => forall a, a ∈ s_actions st ->
    action_requires_request_body (ra_action a) = false) rs req res false)
    as (st & H & ->); [set_solver| |by apply H].
  clear. intros brief captures response st a H. apply visit_action_cases; [done|].
  intros a' Ha' _ _ x [Hx| ->%list_elem_of_singleton]%elem_of_app; [by apply H|].
  by eapply action_for_body_unavailable.
Qed.
End Invariants.

(** ** Correctness of rule resolution *)

Section Properties.
Context {PE : PatternEngines}.

(** C1: For rules whose compiled expressions stem from their patterns, the
    indexed engine (host buckets, required-literal prefilter, interned globs,
    shared body-literal automaton, first-wins and skip bookkeeping) returns on
    every request exactly the actions and matched rules of the reference
    resolution that tries every enabled rule in priority order. *)
Theorem resolve_refines_reference {PL : PatternLaws PE} lv v rules ix req res inc :
  RuleIndex_build rules = Some ix -> Forall rule_wf rules -> valid_str (req_url req) = true ->
  resolve_inner (mkRuleSet lv v rules ix) req res inc = resolve_reference rules req res inc.
Proof. intros Hix Hwf Hv. apply resolve_inner_reference; [by apply RuleIndex_build_ok|done..]. Qed.

(** The candidate index loses no rule and invents none: for a parsable URL
    the candidates are distinct, in range, and contain every enabled or
    disabled rule whose matcher accepts the URL. *)
Theorem candidates_complete_for_matches {PL : PatternLaws PE} lv v rules ix url raw i rule captures :
  RuleIndex_build rules = Some ix -> Forall rule_wf rules -> valid_str raw = true ->
  rules !! i = Some rule -> Matcher_reference (r_matcher rule) url raw = Some captures ->
  NoDup (candidate_rule_indices (mkRuleSet lv v rules ix) (Some url) raw) /\
  i ∈ candidate_rule_indices (mkRuleSet lv v rules ix) (Some url) raw.
Proof.
  intros Hix%RuleIndex_build_ok Hwf Hv Hi Hm.
  split; [by apply candidates_spec|by eapply candidates_complete].
Qed.

(** The literal extracted from a regular expression for the prefilter is a
    substring of every URL the expression matches. *)
Theorem required_literal_in_every_match {PL : PatternLaws PE} rm literal url captures :
  regex_matcher_wf rm -> valid_str url = true -> required_regex_literal rm = Some literal ->
  RegexMatcher_matches rm url = Some captures -> contains literal url = true.
Proof. apply required_regex_literal_sound. Qed.

(** First match wins: no two resolved actions of single-value families have
    the same family, for any rule set, request and response. *)
Theorem single_families_first_wins rs req res inc :
  NoDup (single_families_of (rr_actions (resolve_inner rs req res inc))).
Proof. apply first_wins_invariant. Qed.

(** A resolved [skip] action hides every later action of the families it
    names, and every later action when it names none. *)
Theorem skip_hides_later_actions rs req res inc i j a b :
  rr_actions (resolve_inner rs req res inc) !! i = Some a ->
  rr_actions (resolve_inner rs req res inc) !! j = Some b -> (i < j)%nat ->
  skip_suppresses (ra_action a) (Action.family (ra_action b)) = false.
Proof. apply skip_invariant. Qed.

(** The matched rules are the provenance of the actions: one entry per
    rule location, each the origin of some action, and the location of every
    action's rule is listed. *)
Theorem matched_rules_are_provenance rs req res inc :
  let r := resolve_inner rs req res inc in
  NoDup (map rule_key (rr_matched_rules r)) /\
  (forall m, m ∈ rr_matched_rules r -> exists a, a ∈ rr_actions r /\ ra_rule a = m) /\
  (forall a, a ∈ rr_actions r -> rule_key (ra_rule a) ∈ map rule_key (rr_matched_rules r)).
Proof. apply provenance_invariant. Qed.

(** Without a buffered body, neither request nor response resolution
    returns an action that needs the request body. *)
Theorem unbuffered_resolution_needs_no_body rs req res :
  Forall (fun a => action_requires_request_body (ra_action a) = false)
    (rr_actions (resolve_without_request_body rs req)) /\
  Forall (fun a => action_requires_request_body (ra_action a) = false)
    (rr_actions (resolve_response_without_request_body rs req res)).
Proof. split; apply Forall_forall; intros a; apply no_body_actions_invariant. Qed.
End Properties.

(** ** The properties at a concrete rule set *)

Lemma resolve_refines_reference_witness :
  match sample_index with
  | Some ix =>
      length (rr_actions (resolve_inner (sample_set ix)
        (sample_request "http://www.example.com/a/b/c?q=1") None true)) = 4%nat /\
      resolve_inner (sample_set ix) (sample_request "http://www.example.com/a/b/c?q=1") None true =
      resolve_reference sample_rules (sample_request "http://www.example.com/a/b/c?q=1") None true
  | None => False
  end.
Proof.
  destruct sample_index as [ix|] eqn:E; [|by vm_compute in E].
  split.
  - vm_compute in E. injection E as <-. by vm_compute.
  - apply resolve_refines_reference; [exact E| |by vm_compute].
    repeat constructor.
Defined.

Lemma candidates_complete_for_matches_witness :
  match sample_index, ok (UrlParts_parse (lit "http://www.example.com/a/b/c?q=1")) with
  | Some ix, Some url =>
      NoDup (candidate_rule_indices (sample_set ix) (Some url) (lit "http://www.example.com/a/b/c?q=1")) /\
      0%nat ∈ candidate_rule_indices (sample_set ix) (Some url) (lit "http://www.example.com/a/b/c?q=1")
  | _, _ => False
  end.
Proof.
  destruct sample_index as [ix|] eqn:E; [|by vm_compute in E].
  destruct (ok (UrlParts_parse _)) as [url|] eqn:Eu; [|by vm_compute in Eu].
  vm_compute in Eu. injection Eu as <-.
  eapply candidates_complete_for_matches; [exact E|repeat constructor|by vm_compute|reflexivity|].
  vm_compute. reflexivity.
Defined.

Lemma required_literal_in_every_match_witness :
  required_regex_literal (sample_regex "example") = Some (lit "example") /\
  contains (lit "example") (lit "http://www.example.com/") = true.
Proof.
  split; [by vm_compute|].
  eapply (required_literal_in_every_match (sample_regex "example"));
    [by split|by vm_compute..|vm_compute; reflexivity].
Defined.

Lemma skip_hides_later_actions_witness :
  match sample_index with
  | Some ix =>
      match rr_actions (resolve (sample_set ix) (sample_request "http://www.example.com/a/b/c")) with
      | [_; _; a; b] => skip_suppresses (ra_action a) (Action.family (ra_action b)) = false
      | _ => False
      end
  | None => False
  end.
Proof.
  destruct sample_index as [ix|] eqn:E; [|by vm_compute in E].
  vm_compute in E. injection E as <-.
  unfold resolve. destruct (rr_actions _) as [|a0 [|a1 [|a [|b [|]]]]] eqn:Er;
    try (vm_compute in Er; discriminate Er).
  eapply (skip_hides_later_actions _ _ None true 2 3 a b); [rewrite Er; reflexivity..|lia].
Defined.
