(* ===== verification/BodyPlan.v ===== *)
(** * Request-body planning

    Soundness of [RuleSet::request_body_required] (resolution_api.rs): when it answers no,
    resolving with any buffered body gives what resolving without one gives. *)
From Stdlib Require Import Ascii String.
From stdpp Require Import base numbers list gmap strings.
From S2P Require Import Prelude Family Model Url Engines Matching Evaluate Index Resolve Refinement.

Definition set_body (req : RequestMeta) (body : list N) : RequestMeta :=
  mkRequestMeta (req_method req) (req_url req) (req_headers req) body (req_client_ip req)
    (req_server_ip req) (req_template req).

Section BodyPlanning.
Context {PE : PatternEngines}.

(** Contexts that differ at most in the request body and the response. *)
Definition cx_similar (cx cx' : ConditionMatchContext) : Prop :=
  cx_url cx = cx_url cx' /\ cx_line cx = cx_line cx' /\ cx_globs cx = cx_globs cx' /\
  cx_body_literals cx = cx_body_literals cx' /\
  exists body, cx_req cx' = set_body (cx_req cx) body.

Lemma existsb_false_cons {A} (P : A -> bool) x l :
  existsb P (x :: l) = false -> P x = false /\ existsb P l = false.
Proof. simpl. by intros H%orb_false_iff. Qed.

(** A condition that mentions neither is evaluated alike in both. *)
Lemma matches_similar c r cx cx' :
  cx_similar cx cx' -> Condition.depends_on_request_body c = false ->
  Condition.depends_on_response c = false ->
  matches_with_compiled c r cx = matches_with_compiled c r cx'.
Proof.
  intros (Hu & Hl & Hg & Hb & body & Hr). revert r.
  induction c as [c Hleaf|cs IH|cs IH|c IH] using Condition.ind_nested; intros r Hbody Hres.
  - destruct c; try done; cbn [matches_with_compiled]; rewrite ?Hu, ?Hl, ?Hg, ?Hb, ?Hr; done.
  - cbn [matches_with_compiled]. destruct r; try done.
    revert children. induction IH as [|c cs IHc _ IHcs]; intros [|r rs]; try done.
    apply existsb_false_cons in Hbody as [? ?], Hres as [? ?]. rewrite IHc by done. f_equal.
    by apply IHcs.
  - cbn [matches_with_compiled]. destruct r; try done.
    revert children. induction IH as [|c cs IHc _ IHcs]; intros [|r rs]; try done.
    apply existsb_false_cons in Hbody as [? ?], Hres as [? ?]. rewrite IHc by done. f_equal.
    by apply IHcs.
  - cbn [matches_with_compiled]. cbn in Hbody, Hres. rewrite Hres, !andb_false_r.
    destruct r; try done. by rewrite IH.
Qed.

(** A condition that does not mention the body ignores it. *)
Lemma matches_body_irrelevant c r cx cx' :
  cx_similar cx cx' -> cx_res cx = cx_res cx' -> Condition.depends_on_request_body c = false ->
  matches_with_compiled c r cx = matches_with_compiled c r cx'.
Proof.
  intros (Hu & Hl & Hg & Hb & body & Hr) Hres. revert r.
  induction c as [c Hleaf|cs IH|cs IH|c IH] using Condition.ind_nested; intros r Hbody.
  - destruct c; try done; cbn [matches_with_compiled];
      rewrite ?Hu, ?Hl, ?Hg, ?Hb, ?Hr, ?Hres; done.
  - cbn [matches_with_compiled]. destruct r; try done.
    revert children. induction IH as [|c cs IHc _ IHcs]; intros [|r rs]; try done.
    apply existsb_false_cons in Hbody as [? ?]. rewrite IHc by done. f_equal. by apply IHcs.
  - cbn [matches_with_compiled]. destruct r; try done.
    revert children. induction IH as [|c cs IHc _ IHcs]; intros [|r rs]; try done.
    apply existsb_false_cons in Hbody as [? ?]. rewrite IHc by done. f_equal. by apply IHcs.
  - cbn [matches_with_compiled]. rewrite Hres. destruct (_ && _); [done|].
    destruct r; try done. by rewrite IH.
Qed.

(** A condition that matches with body and response may match before them. *)
Lemma may_match_sound c r cx cx' :
  cx_similar cx cx' -> matches_with_compiled c r cx' = true ->
  may_match_before_request_body c r cx = true.
Proof.
  intros Hsim. revert r.
  induction c as [c Hleaf|cs IH|cs IH|c IH] using Condition.ind_nested; intros r Hm.
  - destruct c; try done; cbn [may_match_before_request_body];
      by rewrite (matches_similar _ r cx cx').
  - cbn [may_match_before_request_body matches_with_compiled] in *. destruct r; try done.
    revert children Hm. induction IH as [|c cs IHc _ IHcs]; intros [|r rs]; try done.
    rewrite !orb_true_iff. intros [Hm|Hm]; [left; by apply IHc|right; by apply IHcs].
  - cbn [may_match_before_request_body matches_with_compiled] in *. destruct r; try done.
    revert children Hm. induction IH as [|c cs IHc _ IHcs]; intros [|r rs]; try done.
    rewrite !andb_true_iff. intros [Hm1 Hm2]; split; [by apply IHc|by apply IHcs].
  - cbn [may_match_before_request_body]. destruct (_ || _) eqn:E; [done|].
    apply orb_false_iff in E as [E1 E2]. by rewrite (matches_similar _ r cx cx').
Qed.

Lemma zip_all_impl (p q : Condition.t -> CompiledConditionResources.t -> bool) cs rs :
  (forall c r, p c r = true -> q c r = true) -> zip_all p cs rs = true -> zip_all q cs rs = true.
Proof.
  intros Hpq. revert rs. induction cs as [|c cs IH]; intros [|r rs]; try done. simpl.
  rewrite !andb_true_iff. intros [? ?]. auto.
Qed.

Lemma zip_all_ext (p q : Condition.t -> CompiledConditionResources.t -> bool) cs rs :
  (forall c r, c ∈ cs -> p c r = q c r) -> zip_all p cs rs = zip_all q cs rs.
Proof.
  revert rs. induction cs as [|c cs IH]; intros [|r rs] H; try done. simpl.
  rewrite H by set_solver. f_equal. apply IH. intros; apply H; set_solver.
Qed.

(** No empty [delete()], which the parser rejects. *)
Definition nonempty_delete (a : Action.t) : bool :=
  match a with Action.Delete [] => false | _ => true end.

Lemma action_for_body_irrelevant a :
  nonempty_delete a = true -> action_requires_request_body a = false ->
  action_for_body_availability a true = action_for_body_availability a false.
Proof.
  intros Hn Hb. destruct a; try done. simpl in *.
  assert (List.filter (fun op => negb (delete_needs_request_body op)) ops = ops) as ->; [|by destruct ops].
  clear Hn. induction ops as [|op ops IH]; [done|].
  apply existsb_false_cons in Hb as [H1 H2]. simpl. rewrite H1. simpl. by rewrite IH.
Qed.

Lemma visit_actions_irrelevant rule captures res st :
  forallb nonempty_delete (r_actions rule) = true ->
  existsb action_requires_request_body (r_actions rule) = false ->
  visit_rule_actions rule captures res true st = visit_rule_actions rule captures res false st.
Proof.
  unfold visit_rule_actions. revert st. generalize (r_actions rule) as acts.
  induction acts as [|a acts IH]; intros st Hn Hb; [done|]. simpl in Hn.
  apply andb_true_iff in Hn as [Ha Hn]. apply existsb_false_cons in Hb as [Hb1 Hb2]. simpl.
  rewrite IH by done. unfold visit_action. by rewrite action_for_body_irrelevant.
Qed.

Lemma visit_rule_body_irrelevant rs parts req res body st idx :
  Forall (fun rule => forallb nonempty_delete (r_actions rule) = true) (rs_rules rs) ->
  candidate_requires_body rs parts req idx = false ->
  visit_rule rs parts (set_body req body) res true st idx = visit_rule rs parts req res false st idx.
Proof.
  intros Hdel. unfold candidate_requires_body, visit_rule.
  destruct (rs_rules rs !! idx) as [rule|] eqn:Er; [|done].
  destruct (ix_compiled_resources (rs_index rs) !! idx) as [resources|]; [|done].
  rewrite Forall_forall in Hdel. specialize (Hdel rule ltac:(by eapply list_elem_of_lookup_2)).
  destruct (r_disabled rule); [done|]. cbn [req_url set_body negb andb].
  set (m := url ← parts; _). destruct m as [captures|]; [|done]. cbn [is_some andb].
  set (cx0 := with_line _ _).
  assert (forall res req', (exists b, req' = set_body req b) ->
    cx_similar cx0 (condition_context rs parts res (r_line rule) req')) as Hsim0.
  { intros res' req' E. split_and!; [done..|exact E]. }
  set (cx' := condition_context rs parts res (r_line rule) (set_body req body)).
  set (cx := condition_context rs parts res (r_line rule) req).
  assert (existsb Condition.depends_on_request_body (r_conditions rule) = false ->
    zip_all (fun c r => matches_with_compiled c r cx') (r_conditions rule) (cr_conditions resources) =
    zip_all (fun c r => matches_with_compiled c r cx) (r_conditions rule) (cr_conditions resources)) as Heq.
  { intros Hd. apply zip_all_ext. intros c r Hc. symmetry. apply matches_body_irrelevant;
      [split_and!; [done..|by exists body]|done|]. apply existsb_false_Forall in Hd. rewrite Forall_forall in Hd. by apply Hd. }
  destruct (zip_all (fun c r => matches_with_compiled c r cx') _ _) eqn:Ez.
  - rewrite (zip_all_impl (fun c r => matches_with_compiled c r cx')).
    + intros [Hd Ha]%orb_false_iff. rewrite Hd in *. rewrite <- Heq by done. cbn.
      by apply visit_actions_irrelevant.
    + intros c r. apply may_match_sound, Hsim0. by exists body.
    + done.
  - intros _. destruct (existsb Condition.depends_on_request_body _) eqn:Ed; [done|].
    by rewrite <- Heq.
Qed.

Lemma request_body_irrelevant rs req res body :
  Forall (fun rule => forallb nonempty_delete (r_actions rule) = true) (rs_rules rs) ->
  request_body_required rs req = false ->
  resolve_inner rs (set_body req body) res true = resolve_inner rs req res false.
Proof.
  intros Hdel Hreq. unfold request_body_required in Hreq. unfold resolve_inner.
  cbn [req_url set_body]. destruct (is_emptyb (rs_rules rs)); [done|].
  apply existsb_false_Forall in Hreq. rewrite Forall_forall in Hreq.
  rewrite (fold_left_ext_in _ (visit_rule rs (ok (UrlParts_parse (req_url req))) req res false)).
  - done.
  - intros idx st Hin. apply visit_rule_body_irrelevant; [done|]. apply Hreq.
    by rewrite sort_by_key_perm in Hin.
Qed.
End BodyPlanning.

(** ** Soundness of the buffering decision *)

(** C7: When [request_body_required] answers no, buffering is unnecessary: for
    every body the request could carry and for the request and the response
    phase alike, resolving with that body available gives what resolving
    without one gives. *)
Theorem request_body_required_sound {PE : PatternEngines} rs req body res :
  Forall (fun rule => forallb nonempty_delete (r_actions rule) = true) (rs_rules rs) ->
  request_body_required rs req = false ->
  resolve rs (set_body req body) = resolve_without_request_body rs req /\
  resolve_response rs (set_body req body) res = resolve_response_without_request_body rs req res.
Proof. intros Hdel Hreq. split; by apply request_body_irrelevant. Qed.

Definition body_rule : Rule :=
  sample_rule 4 (Matcher.Glob (mkGlobMatcher None (lit "**") None None None))
    [Action.ReqBody (BodyOp.Set_ (Value.Inline (lit "z")))] [Condition.Method [lit "POST"]] false.

Lemma request_body_required_sound_witness :
  match RuleIndex_build [body_rule] with
  | Some ix =>
      let rs := mkRuleSet 3 1 [body_rule] ix in
      let get := sample_request "http://a.test/" in
      let post := mkRequestMeta (lit "POST") (req_url get) [] [] None None (req_template get) in
      request_body_required rs post = true /\
      resolve rs (set_body get [1; 2; 3]) = resolve_without_request_body rs get
  | None => False
  end.
Proof.
  destruct (RuleIndex_build [body_rule]) as [ix|] eqn:E; [|by vm_compute in E].
  vm_compute in E. injection E as <-. cbv zeta. split; [by vm_compute|].
  apply (request_body_required_sound _ (sample_request "http://a.test/") [1; 2; 3] (mkResponseMeta 200 []));
    [by repeat constructor|by vm_compute].
Defined.
