(* ===== verification/TraceModel.v ===== *)
(** * Trace sessions and events

    crates/rsproxy-trace/src/model.rs, event.rs and the size estimate of
    store/memory.rs.  Growable buffers carry the capacity the estimates read;
    how a buffer grows and how large a struct is are left to the platform
    ([Layout]), as the language does. *)
From Stdlib Require Import Ascii String.
From stdpp Require Import base numbers list gmap strings.
From S2P Require Import Prelude Utf8 Model.

(** ** Growable buffers: [Vec<T>] and [String] *)

Record Buf (A : Type) := mkBuf { items : list A; capacity : N }.
#[global] Arguments mkBuf {A} _ _.
#[global] Arguments items {A} _.
#[global] Arguments capacity {A} _.
Abbreviation RString := (Buf N) (only parsing).

(** Struct sizes and the growth policy of [Vec::reserve]. *)
Class Layout := {
  size_of_Session : N;
  size_of_String : N;
  size_of_header : N;
  size_of_MatchedRule : N;
  size_of_FrameRecord : N;
  size_of_TlsRecord : N;
  size_of_TraceEvent : N;
  grow : N -> N -> N;
}.

(** [Vec::new()] does not allocate. *)
Definition Buf_new {A} : Buf A := mkBuf [] 0.
Definition Buf_clear {A} (b : Buf A) : Buf A := mkBuf [] (capacity b).

Definition Buf_extend `{Layout} {A} (b : Buf A) (xs : list A) : Buf A :=
  let needed := N.of_nat (length (items b) + length xs) in
  mkBuf (items b ++ xs) (if needed <=? capacity b then capacity b else grow (capacity b) needed).
Definition Buf_push `{Layout} {A} (b : Buf A) (x : A) : Buf A := Buf_extend b [x].

(** ** Records (model.rs) *)

Module SessionKind.
Inductive t := Http | Tunnel | Sse | WebSocket.
End SessionKind.

Module FrameDirection.
Inductive t := ClientToServer | ServerToClient.
End FrameDirection.

Module FrameDataEncoding.
Inductive t := AsUtf8 | Hex.
Definition name (e : t) : str :=
  match e with AsUtf8 => lit "utf8" | Hex => lit "hex" end.
End FrameDataEncoding.

Record TlsRecord := mkTlsRecord {
  tr_phase : RString;
  tr_host : RString;
  tr_handshake_ms : N;
  tr_peer_certificates : N;
  tr_protocol : option RString;
  tr_cipher_suite : option RString;
  tr_alpn : option RString;
  tr_error : option RString;
}.

Record FrameRecord := mkFrameRecord {
  fr_direction : FrameDirection.t;
  fr_at_ms : N;
  fr_opcode : RString;
  fr_fin : bool;
  fr_payload_len : N;
  fr_data_encoding : FrameDataEncoding.t;
  fr_data : Buf N;
  fr_truncated : bool;
}.

Abbreviation Headers := (Buf (RString * RString)) (only parsing).

Record Session := mkSession {
  se_id : N;
  se_kind : SessionKind.t;
  se_started_ms : N;
  se_duration_ms : N;
  se_pool_wait_ms : N;
  se_dns_ms : N;
  se_connect_ms : N;
  se_ttfb_ms : N;
  se_request_send_ms : option N;
  se_response_receive_ms : option N;
  se_method : RString;
  se_url : RString;
  se_status : option N;
  se_client : RString;
  se_upstream : option RString;
  se_request_bytes : N;
  se_response_bytes : N;
  se_matched_rules : Buf MatchedRule;
  se_flags : Buf RString;
  se_error : option RString;
  se_req_headers : Headers;
  se_req_trailers : Headers;
  se_req_body_head : Buf N;
  se_res_headers : Headers;
  se_res_trailers : Headers;
  se_res_body_head : Buf N;
  se_frames : Buf FrameRecord;
  se_tls : Buf TlsRecord;
}.

(** [FrameRecord::new]; the preview is collected into a fresh vector. *)
Definition FrameRecord_new `{Layout} (direction : FrameDirection.t) (at_ms : N) (opcode : RString)
    (fin : bool) (payload : list N) (preview_limit : N) (data_encoding : FrameDataEncoding.t)
    : FrameRecord :=
  mkFrameRecord direction at_ms opcode fin (N.of_nat (length payload)) data_encoding
    (Buf_extend Buf_new (take (N.to_nat preview_limit) payload))
    (preview_limit <? N.of_nat (length payload)).

Definition FrameRecord_preview_len (f : FrameRecord) : N := N.of_nat (length (items (fr_data f))).

(** [Session::new]; [now] is the reading of [now_millis]. *)
Definition Session_new (now : N) (kind : SessionKind.t) (method url client : RString) : Session :=
  mkSession 0 kind now 0 0 0 0 0 None None method url None client None 0 0 Buf_new Buf_new None
    Buf_new Buf_new Buf_new Buf_new Buf_new Buf_new Buf_new Buf_new.

Definition Session_finish (now : N) (s : Session) : Session :=
  mkSession (se_id s) (se_kind s) (se_started_ms s) (saturating_sub now (se_started_ms s))
    (se_pool_wait_ms s) (se_dns_ms s) (se_connect_ms s) (se_ttfb_ms s) (se_request_send_ms s)
    (se_response_receive_ms s) (se_method s) (se_url s) (se_status s) (se_client s) (se_upstream s)
    (se_request_bytes s) (se_response_bytes s) (se_matched_rules s) (se_flags s) (se_error s)
    (se_req_headers s) (se_req_trailers s) (se_req_body_head s) (se_res_headers s)
    (se_res_trailers s) (se_res_body_head s) (se_frames s) (se_tls s).

(** ** Events (event.rs) *)

Record SessionStart := mkSessionStart {
  st_kind : SessionKind.t;
  st_started_ms : N;
  st_method : RString;
  st_url : RString;
  st_client : RString;
}.

Definition SessionStart_from_session (s : Session) : SessionStart :=
  mkSessionStart (se_kind s) (se_started_ms s) (se_method s) (se_url s) (se_client s).

Module BodyDirection.
Inductive t := Request | Response.
End BodyDirection.

Record SessionEnd := mkSessionEnd {
  en_kind : SessionKind.t;
  en_duration_ms : N;
  en_pool_wait_ms : N;
  en_dns_ms : N;
  en_connect_ms : N;
  en_ttfb_ms : N;
  en_request_send_ms : option N;
  en_response_receive_ms : option N;
  en_upstream : option RString;
  en_flags : Buf RString;
  en_error : option RString;
}.

Module TraceEvent.
Inductive t :=
| Start (id : N) (start : SessionStart)
| Request (id : N) (method url : option RString) (headers trailers : Headers)
    (matched_rules : Buf MatchedRule)
| Response (id : N) (status : option N) (headers trailers : Headers)
| BodyChunk (id : N) (direction : BodyDirection.t) (data : list N) (observed_bytes : N)
| BodySnapshot (id : N) (direction : BodyDirection.t) (data : list N) (observed_bytes : N)
| Frame (id : N) (frame : FrameRecord)
| Tls (id : N) (record : TlsRecord)
| End_ (id : N) (fields : SessionEnd)
| Abort (id : N).

Definition session_id (e : t) : N :=
  match e with
  | Start id _ | Request id _ _ _ _ _ | Response id _ _ _ | BodyChunk id _ _ _
  | BodySnapshot id _ _ _ | Frame id _ | Tls id _ | End_ id _ | Abort id => id
  end.

Definition session_end (s : Session) : SessionEnd :=
  mkSessionEnd (se_kind s) (se_duration_ms s) (se_pool_wait_ms s) (se_dns_ms s) (se_connect_ms s)
    (se_ttfb_ms s) (se_request_send_ms s) (se_response_receive_ms s) (se_upstream s) (se_flags s)
    (se_error s).

(** The body snapshot of one direction, when there is anything to report. *)
Definition body_snapshot (id : N) (direction : BodyDirection.t) (head : Buf N) (bytes : N)
    : list t :=
  if (0 <? bytes) || negb (is_emptyb (items head))
  then [BodySnapshot id direction (items head) bytes] else [].

Definition from_session (s : Session) : list t :=
  let id := se_id s in
  [Start id (SessionStart_from_session s);
   Request id None None (se_req_headers s) (se_req_trailers s) (se_matched_rules s)] ++
  body_snapshot id BodyDirection.Request (se_req_body_head s) (se_request_bytes s) ++
  [Response id (se_status s) (se_res_headers s) (se_res_trailers s)] ++
  body_snapshot id BodyDirection.Response (se_res_body_head s) (se_response_bytes s) ++
  map (Frame id) (items (se_frames s)) ++
  map (Tls id) (items (se_tls s)) ++
  [End_ id (session_end s)].

Definition continuation_from_session (s : Session) : list t := drop 1 (from_session s).
End TraceEvent.

(** ** Size estimates *)

(** [Iterator::sum] on [usize] in a release build. *)
Definition usize_sum (l : list N) : N := fold_left wrapping_add64 l 0.
Definition usize_add (a b : N) : N := saturating_add USIZE_MAX a b.
Infix "+s" := usize_add (at level 50, left associativity) : rs_scope.

Definition vector_storage_bytes (cap size : N) : N := N.min USIZE_MAX (cap * size).
Definition option_string_bytes (value : option RString) : N :=
  match value with Some s => capacity s | None => 0 end.

Section Estimates.
Context {L : Layout}.

Definition headers_bytes (headers : Headers) : N :=
  vector_storage_bytes (capacity headers) size_of_header +s
  usize_sum (map (fun '(name, value) => capacity name +s capacity value) (items headers)).

Definition rules_bytes (rules : Buf MatchedRule) : N :=
  vector_storage_bytes (capacity rules) size_of_MatchedRule +s
  usize_sum (map (fun rule => len (mr_group rule) +s len (mr_raw rule)) (items rules)).

Definition frame_bytes (frame : FrameRecord) : N :=
  capacity (fr_opcode frame) +s capacity (fr_data frame).

Definition tls_bytes (r : TlsRecord) : N :=
  capacity (tr_phase r) +s capacity (tr_host r) +s option_string_bytes (tr_protocol r) +s
  option_string_bytes (tr_cipher_suite r) +s option_string_bytes (tr_alpn r) +s
  option_string_bytes (tr_error r).

Definition estimate_session_bytes (s : Session) : N :=
  size_of_Session +s
  capacity (se_method s) +s
  capacity (se_url s) +s
  capacity (se_client s) +s
  option_string_bytes (se_upstream s) +s
  option_string_bytes (se_error s) +s
  headers_bytes (se_req_headers s) +s
  headers_bytes (se_req_trailers s) +s
  headers_bytes (se_res_headers s) +s
  headers_bytes (se_res_trailers s) +s
  capacity (se_req_body_head s) +s
  capacity (se_res_body_head s) +s
  vector_storage_bytes (capacity (se_flags s)) size_of_String +s
  usize_sum (map capacity (items (se_flags s))) +s
  vector_storage_bytes (capacity (se_matched_rules s)) size_of_MatchedRule +s
  usize_sum (map (fun rule => len (mr_group rule) +s len (mr_raw rule)) (items (se_matched_rules s))) +s
  vector_storage_bytes (capacity (se_frames s)) size_of_FrameRecord +s
  usize_sum (map frame_bytes (items (se_frames s))) +s
  vector_storage_bytes (capacity (se_tls s)) size_of_TlsRecord +s
  usize_sum (map tls_bytes (items (se_tls s))).

(** [TraceEvent::dynamic_bytes] and [estimated_bytes]. *)
Definition dynamic_bytes (e : TraceEvent.t) : N :=
  match e with
  | TraceEvent.Start _ start =>
      capacity (st_method start) +s capacity (st_url start) +s capacity (st_client start)
  | TraceEvent.Request _ method url headers trailers rules =>
      option_string_bytes method +s option_string_bytes url +s headers_bytes headers +s
      headers_bytes trailers +s rules_bytes rules
  | TraceEvent.Response _ _ headers trailers => headers_bytes headers +s headers_bytes trailers
  | TraceEvent.BodyChunk _ _ data observed =>
      N.max (N.of_nat (length data)) (N.min USIZE_MAX observed)
  | TraceEvent.BodySnapshot _ _ data _ => N.of_nat (length data)
  | TraceEvent.Frame _ frame => frame_bytes frame
  | TraceEvent.Tls _ record => tls_bytes record
  | TraceEvent.End_ _ f =>
      option_string_bytes (en_upstream f) +s option_string_bytes (en_error f) +s
      vector_storage_bytes (capacity (en_flags f)) size_of_String +s
      usize_sum (map capacity (items (en_flags f)))
  | TraceEvent.Abort _ => 0
  end.

Definition estimated_bytes (e : TraceEvent.t) : N := size_of_TraceEvent +s dynamic_bytes e.
End Estimates.

#[global] Arguments usize_add : simpl never.

(** Estimates never exceed [usize]. *)
Lemma usize_add_le a b : a +s b <= USIZE_MAX.
Proof. unfold usize_add, saturating_add. lia. Qed.

Lemma estimate_session_le {L : Layout} s : estimate_session_bytes s <= USIZE_MAX.
Proof. apply usize_add_le. Qed.

Lemma estimated_bytes_le {L : Layout} e : estimated_bytes e <= USIZE_MAX.
Proof. apply usize_add_le. Qed.

(** The sums are long; proofs treat them as opaque. *)
#[global] Opaque estimate_session_bytes estimated_bytes.
