(* ===== verification/TraceMemory.v ===== *)
(** * Resident session store

    crates/rsproxy-trace/src/store/memory.rs and the memory partition of
    store/config.rs: a FIFO of completed sessions bounded by count and bytes. *)
From Stdlib Require Import Ascii String.
From stdpp Require Import base numbers list gmap strings.
From S2P Require Import Prelude Model TraceModel.

(** ** Budgets (config.rs) *)

Definition DEFAULT_TRACE_QUEUE_CAPACITY : N := 8192.
Definition DEFAULT_TRACE_MEMORY_BUDGET : N := 256 * 1024 * 1024.
Definition DEFAULT_TRACE_QUEUE_MEMORY_BUDGET : N := 64 * 1024 * 1024.
Definition DEFAULT_TRACE_BODY_LIMIT : N := 64 * 1024.

(** [TraceStoreConfig::memory_partitions]: the queue's share and the rest. *)
Definition memory_partitions (total : N) (queue_memory_budget_bytes : option N) : N * N :=
  let automatic :=
    if total =? 0 then 0
    else N.min (N.max (total / 4) 1) DEFAULT_TRACE_QUEUE_MEMORY_BUDGET in
  let queue := N.min (unwrap_or queue_memory_budget_bytes automatic) total in
  (queue, saturating_sub total queue).

(** ** The store *)

Record StoredSession := mkStored { sd_session : Session; sd_bytes : N }.

Record MemoryStore := mkMemoryStore {
  ms_max_sessions : N;
  ms_memory_budget_bytes : N;
  ms_memory_bytes : N;
  ms_evicted_sessions : N;
  ms_sessions : list StoredSession;
}.

Definition MemoryStore_new (max_sessions memory_budget_bytes : N) : MemoryStore :=
  mkMemoryStore max_sessions memory_budget_bytes 0 0 [].

Definition ms_len (st : MemoryStore) : N := N.of_nat (length (ms_sessions st)).

Definition evict_oldest (st : MemoryStore) : MemoryStore :=
  match ms_sessions st with
  | [] => st
  | stored :: rest =>
      mkMemoryStore (ms_max_sessions st) (ms_memory_budget_bytes st)
        (saturating_sub (ms_memory_bytes st) (sd_bytes stored))
        (saturating_add U64_MAX (ms_evicted_sessions st) 1) rest
  end.

(** [while !sessions.is_empty() && over(self) { self.evict_oldest() }] *)
Fixpoint evict_while (over : MemoryStore -> bool) (fuel : nat) (st : MemoryStore) : MemoryStore :=
  match fuel with
  | O => st
  | S fuel' =>
      if negb (is_emptyb (ms_sessions st)) && over st
      then evict_while over fuel' (evict_oldest st) else st
  end.

(** Every round removes one session, so the list's length is enough fuel. *)
Definition evict_until (over : MemoryStore -> bool) (st : MemoryStore) : MemoryStore :=
  evict_while over (length (ms_sessions st)) st.

Section Memory.
Context {L : Layout}.

Definition over_limits (bytes : N) (st : MemoryStore) : bool :=
  (ms_max_sessions st <=? ms_len st) ||
  (ms_memory_budget_bytes st <? ms_memory_bytes st +s bytes).

Definition MemoryStore_insert (st : MemoryStore) (session : Session) : MemoryStore :=
  let bytes := estimate_session_bytes session in
  if (ms_max_sessions st =? 0) || (ms_memory_budget_bytes st =? 0) ||
     (ms_memory_budget_bytes st <? bytes)
  then mkMemoryStore (ms_max_sessions st) (ms_memory_budget_bytes st) (ms_memory_bytes st)
         (saturating_add U64_MAX (ms_evicted_sessions st) 1) (ms_sessions st)
  else
    let st := evict_until (over_limits bytes) st in
    mkMemoryStore (ms_max_sessions st) (ms_memory_budget_bytes st) (ms_memory_bytes st +s bytes)
      (ms_evicted_sessions st) (ms_sessions st ++ [mkStored session bytes]).

Definition MemoryStore_list (st : MemoryStore) (limit : N) : list Session :=
  map sd_session
    (take (N.to_nat (N.min limit (ms_len st))) (rev (ms_sessions st))).

Definition MemoryStore_list_after (st : MemoryStore) (after limit : N) : list Session :=
  map sd_session
    (take (N.to_nat limit)
       (List.filter (fun stored => after <? se_id (sd_session stored)) (ms_sessions st))).

Definition MemoryStore_get (st : MemoryStore) (id : N) : option Session :=
  sd_session <$> List.find (fun stored => se_id (sd_session stored) =? id) (ms_sessions st).

Definition MemoryStore_clear (st : MemoryStore) : MemoryStore :=
  mkMemoryStore (ms_max_sessions st) (ms_memory_budget_bytes st) 0 (ms_evicted_sessions st) [].

Definition evict_to_budget (st : MemoryStore) (budget : N) : MemoryStore :=
  evict_until (fun st => budget <? ms_memory_bytes st) st.

(** ** Accounting *)

Definition stored_bytes (l : list StoredSession) : N := foldr (fun s n => sd_bytes s + n) 0 l.

(** The accounting is exact and both limits hold. *)
Record memory_ok (st : MemoryStore) : Prop := {
  mo_bytes : ms_memory_bytes st = stored_bytes (ms_sessions st);
  mo_estimates : Forall (fun s => sd_bytes s = estimate_session_bytes (sd_session s)) (ms_sessions st);
  mo_budget : ms_memory_bytes st <= ms_memory_budget_bytes st;
  mo_count : ms_len st <= ms_max_sessions st;
  mo_usize : ms_memory_budget_bytes st < USIZE_MAX;
}.

Lemma stored_bytes_app a b : stored_bytes (a ++ b) = stored_bytes a + stored_bytes b.
Proof. unfold stored_bytes. induction a as [|x a IH]; simpl; [done|]. rewrite IH. lia. Qed.

Lemma stored_bytes_drop k l : stored_bytes (drop k l) <= stored_bytes l.
Proof.
  rewrite <- (take_drop k l) at 2. rewrite stored_bytes_app. lia.
Qed.

(** What dropping the [k] oldest sessions leaves. *)
Definition evicted (k : nat) (st : MemoryStore) : MemoryStore :=
  mkMemoryStore (ms_max_sessions st) (ms_memory_budget_bytes st)
    (stored_bytes (drop k (ms_sessions st)))
    (saturating_add U64_MAX (ms_evicted_sessions st) (N.of_nat k)) (drop k (ms_sessions st)).

Lemma evict_oldest_evicted st :
  ms_memory_bytes st = stored_bytes (ms_sessions st) -> ms_sessions st <> [] ->
  evict_oldest st = evicted 1 st.
Proof.
  intros Hb Hne. unfold evict_oldest, evicted. destruct (ms_sessions st) as [|x l] eqn:E; [done|].
  rewrite Hb. change (drop 1 (x :: l)) with l.
  change (stored_bytes (x :: l)) with (sd_bytes x + stored_bytes l).
  f_equal. unfold saturating_sub. lia.
Qed.

Lemma evicted_evicted j k st : evicted j (evicted k st) = evicted (k + j) st.
Proof.
  unfold evicted. cbn. rewrite drop_drop. f_equal. unfold saturating_add. lia.
Qed.

(** The loop drops the shortest prefix after which [over] fails. *)
Lemma evict_while_spec over fuel st :
  ms_memory_bytes st = stored_bytes (ms_sessions st) ->
  ms_evicted_sessions st <= U64_MAX ->
  (length (ms_sessions st) <= fuel)%nat ->
  exists k, evict_while over fuel st = evicted k st /\ (k <= length (ms_sessions st))%nat /\
    (drop k (ms_sessions st) = [] \/ over (evicted k st) = false) /\
    (forall j, (j < k)%nat -> over (evicted j st) = true).
Proof.
  revert st. induction fuel as [|fuel IH]; intros st Hb He Hf; simpl.
  - exists 0%nat. destruct st as [m b by_ e l]; cbn in *. destruct l; [|simpl in Hf; lia].
    unfold evicted. cbn. rewrite Hb. split_and!; [f_equal; unfold saturating_add; lia|lia|by left|lia].
  - assert (evicted 0 st = st) as E0.
    { destruct st; unfold evicted; cbn in *. f_equal; [done|unfold saturating_add; lia]. }
    destruct (is_emptyb (ms_sessions st)) eqn:Ee; cbn [negb andb].
    { exists 0%nat. rewrite E0. split_and!; [done|lia|left; by destruct (ms_sessions st)|lia]. }
    destruct (over st) eqn:Eo.
    2: { exists 0%nat. rewrite E0. split_and!; [done|lia|by right|lia]. }
    assert (ms_sessions st <> []) as Hne by (by destruct (ms_sessions st)).
    rewrite evict_oldest_evicted by done.
    destruct (IH (evicted 1 st)) as (k & -> & Hk & Hend & Hall).
    + done.
    + cbn. unfold saturating_add. lia.
    + cbn. rewrite length_drop. lia.
    + exists (S k). rewrite evicted_evicted. cbn [ms_sessions evicted] in *.
      rewrite length_drop in Hk. rewrite drop_drop in Hend. rewrite evicted_evicted in Hend.
      split_and!; [done|destruct (ms_sessions st); simpl in *; [done|lia]|done|].
      intros [|j] Hj; [by rewrite E0|]. change (S j) with (1 + j)%nat.
      rewrite <- evicted_evicted. apply Hall. lia.
Qed.

Lemma evict_until_spec over st :
  ms_memory_bytes st = stored_bytes (ms_sessions st) -> ms_evicted_sessions st <= U64_MAX ->
  exists k, evict_until over st = evicted k st /\ (k <= length (ms_sessions st))%nat /\
    (drop k (ms_sessions st) = [] \/ over (evicted k st) = false) /\
    (forall j, (j < k)%nat -> over (evicted j st) = true).
Proof. intros. by apply evict_while_spec. Qed.

Lemma memory_ok_new max budget : budget < USIZE_MAX -> memory_ok (MemoryStore_new max budget).
Proof. intros H. split; try done; apply N.le_0_l. Qed.

Lemma memory_ok_clear st : memory_ok st -> memory_ok (MemoryStore_clear st).
Proof. intros [H1 H2 H3 H4 H5]. split; try done; apply N.le_0_l. Qed.

Lemma memory_ok_evicted k st : memory_ok st -> memory_ok (evicted k st).
Proof.
  intros [H1 H2 H3 H4 H5]. pose proof (stored_bytes_drop k (ms_sessions st)).
  split; cbn; [done|by apply Forall_drop|lia| |done].
  unfold ms_len in *. cbn. rewrite length_drop. lia.
Qed.

(** Eviction to a budget: the shortest sufficient prefix goes. *)
Lemma evict_to_budget_spec st budget :
  memory_ok st -> ms_evicted_sessions st <= U64_MAX ->
  exists k, evict_to_budget st budget = evicted k st /\
    stored_bytes (drop k (ms_sessions st)) <= budget /\
    (forall j, (j < k)%nat -> budget < stored_bytes (drop j (ms_sessions st))).
Proof.
  intros Hok He.
  destruct (evict_until_spec (fun st => budget <? ms_memory_bytes st) st (mo_bytes _ Hok) He)
    as (k & E & Hk & Hend & Hall).
  exists k. split_and!; [done| |].
  - destruct Hend as [->|H]; [simpl; lia|]. cbn in H. bool_to_prop. lia.
  - intros j Hj. specialize (Hall j Hj). cbn in Hall. by bool_to_prop.
Qed.

(** A session that fits alone is stored, and the sessions kept with it are the
    longest suffix of the older ones that respects both limits. *)
Lemma insert_spec st session :
  memory_ok st -> ms_evicted_sessions st <= U64_MAX ->
  0 < ms_max_sessions st -> 0 < ms_memory_budget_bytes st ->
  estimate_session_bytes session <= ms_memory_budget_bytes st ->
  exists k, ms_sessions (MemoryStore_insert st session) =
      drop k (ms_sessions st) ++ [mkStored session (estimate_session_bytes session)] /\
    memory_ok (MemoryStore_insert st session) /\
    ms_evicted_sessions (MemoryStore_insert st session) =
      saturating_add U64_MAX (ms_evicted_sessions st) (N.of_nat k) /\
    (forall j, (j < k)%nat ->
      ms_max_sessions st < N.of_nat (length (drop j (ms_sessions st))) + 1 \/
      ms_memory_budget_bytes st <
        stored_bytes (drop j (ms_sessions st)) + estimate_session_bytes session).
Proof.
  intros Hok He Hm Hbud Hfit. unfold MemoryStore_insert.
  set (bytes := estimate_session_bytes session) in *.
  replace (_ || _ || _) with false.
  2: { symmetry. rewrite !orb_false_iff, !N.eqb_neq, N.ltb_ge. lia. }
  destruct (evict_until_spec (over_limits bytes) st (mo_bytes _ Hok) He) as (k & E & Hk & Hend & Hall).
  exists k. rewrite E. cbn [ms_sessions evicted ms_memory_bytes ms_evicted_sessions].
  pose proof (memory_ok_evicted k st Hok) as [Ho1 Ho2 Ho3 Ho4 Ho5].
  assert (ms_len (evicted k st) < ms_max_sessions st /\
    stored_bytes (drop k (ms_sessions st)) + bytes <= ms_memory_budget_bytes st) as [Hlen Hsum].
  { destruct Hend as [H|H].
    - unfold ms_len. cbn. rewrite H. simpl. lia.
    - unfold over_limits in H. apply orb_false_iff in H as [H1 H2]. bool_to_prop.
      cbn [evicted ms_memory_bytes ms_max_sessions ms_memory_budget_bytes] in *.
      unfold usize_add, saturating_add in H2. split; [lia|]. cbn in Ho5. lia. }
  split_and!; [done| |done|].
  - cbn in *. split; cbn.
    + rewrite stored_bytes_app. simpl. unfold usize_add, saturating_add. lia.
    + apply Forall_app. split; [done|]. by repeat constructor.
    + unfold usize_add, saturating_add. lia.
    + unfold ms_len in *. cbn in *. rewrite length_app. simpl. lia.
    + done.
  - intros j Hj. specialize (Hall j Hj). unfold over_limits, ms_len, usize_add, saturating_add in Hall.
    cbn [evicted ms_max_sessions ms_memory_budget_bytes ms_memory_bytes ms_sessions] in Hall.
    pose proof (mo_usize _ Hok) as Hu. apply orb_true_iff in Hall as [H|H]; bool_to_prop; [left|right]; lia.
Qed.

Lemma insert_rejected st session :
  ms_max_sessions st = 0 \/ ms_memory_budget_bytes st < estimate_session_bytes session \/
  ms_memory_budget_bytes st = 0 ->
  ms_sessions (MemoryStore_insert st session) = ms_sessions st /\
  ms_memory_bytes (MemoryStore_insert st session) = ms_memory_bytes st /\
  ms_evicted_sessions (MemoryStore_insert st session) =
    saturating_add U64_MAX (ms_evicted_sessions st) 1.
Proof.
  intros H. unfold MemoryStore_insert. replace (_ || _ || _) with true; [done|].
  symmetry. rewrite !orb_true_iff, !N.eqb_eq, N.ltb_lt. tauto.
Qed.

Lemma insert_params st session :
  ms_max_sessions (MemoryStore_insert st session) = ms_max_sessions st /\
  ms_memory_budget_bytes (MemoryStore_insert st session) = ms_memory_budget_bytes st.
Proof.
  unfold MemoryStore_insert. case_goal; [done|]. cbn. unfold evict_until.
  generalize (length (ms_sessions st)) as fuel. intros fuel.
  revert st E. induction fuel as [|fuel IH]; intros st E; [done|]. cbn [evict_while].
  case_goal; [|done]. unfold evict_oldest at 1 2. destruct (ms_sessions st); [by apply IH|].
  apply (IH (mkMemoryStore _ _ _ _ _) E).
Qed.

Lemma memory_ok_insert st session :
  memory_ok st -> ms_evicted_sessions st <= U64_MAX ->
  memory_ok (MemoryStore_insert st session) /\
  ms_evicted_sessions (MemoryStore_insert st session) <= U64_MAX.
Proof.
  intros Hok He.
  destruct (decide (0 < ms_max_sessions st /\ 0 < ms_memory_budget_bytes st /\
    estimate_session_bytes session <= ms_memory_budget_bytes st)) as [(H1 & H2 & H3)|H].
  - destruct (insert_spec st session Hok He H1 H2 H3) as (k & _ & Hok' & -> & _).
    split; [done|]. unfold saturating_add. lia.
  - destruct (insert_rejected st session) as (E1 & E2 & E3); [lia|].
    destruct (insert_params st session) as [E4 E5]. rewrite E3.
    split; [|unfold saturating_add; lia]. destruct Hok. split; unfold ms_len in *; congruence.
Qed.

(** Inserting a completed session that fits the budget on its own keeps it,
    evicts the fewest oldest sessions that make room by count and by bytes,
    counts each eviction, and leaves the byte accounting exact and within
    budget; a session that can never fit is only counted. *)
Theorem memory_insert_evicts_fewest st session :
  memory_ok st -> ms_evicted_sessions st <= U64_MAX ->
  let st' := MemoryStore_insert st session in
  let bytes := estimate_session_bytes session in
  memory_ok st' /\
  ((0 < ms_max_sessions st /\ 0 < ms_memory_budget_bytes st /\ bytes <= ms_memory_budget_bytes st /\
    exists k, ms_sessions st' = drop k (ms_sessions st) ++ [mkStored session bytes] /\
      ms_evicted_sessions st' = saturating_add U64_MAX (ms_evicted_sessions st) (N.of_nat k) /\
      forall j, (j < k)%nat ->
        ms_max_sessions st < N.of_nat (length (drop j (ms_sessions st))) + 1 \/
        ms_memory_budget_bytes st < stored_bytes (drop j (ms_sessions st)) + bytes) \/
   ((ms_max_sessions st = 0 \/ ms_memory_budget_bytes st = 0 \/ ms_memory_budget_bytes st < bytes) /\
    ms_sessions st' = ms_sessions st /\
    ms_evicted_sessions st' = saturating_add U64_MAX (ms_evicted_sessions st) 1)).
Proof.
  intros Hok He. cbv zeta. split; [by apply memory_ok_insert|].
  destruct (decide (0 < ms_max_sessions st /\ 0 < ms_memory_budget_bytes st /\
    estimate_session_bytes session <= ms_memory_budget_bytes st)) as [(H1 & H2 & H3)|H].
  - left. destruct (insert_spec st session Hok He H1 H2 H3) as (k & E & _ & Ee & Hmin).
    split_and!; [done..|]. exists k. by split_and!.
  - right. destruct (insert_rejected st session) as (E1 & E2 & E3); [lia|]. split_and!; [lia|done..].
Qed.
End Memory.

(** Sizes for the examples: one unit per struct, doubling growth. *)
#[local] Instance sample_layout : Layout := {
  size_of_Session := 10; size_of_String := 1; size_of_header := 2; size_of_MatchedRule := 3;
  size_of_FrameRecord := 4; size_of_TlsRecord := 5; size_of_TraceEvent := 6;
  grow cap needed := N.max (2 * cap) needed;
}.

Definition text (s : string) : RString := mkBuf (lit s) (len (lit s)).
Definition sample_session (id : N) : Session :=
  mkSession id SessionKind.Http 5 6 0 0 0 0 None (Some 3) (text "GET") (text "http://a.test/") (Some 200)
    (text "127.0.0.1") None 3 4 Buf_new (mkBuf [text "f"] 1) None
    (mkBuf [(text "a", text "b")] 1) Buf_new (mkBuf [1; 2; 3] 3) Buf_new Buf_new (mkBuf [4; 5; 6; 7] 4)
    Buf_new Buf_new.

Lemma memory_insert_evicts_fewest_witness :
  let st := MemoryStore_insert (MemoryStore_insert (MemoryStore_new 3 120) (sample_session 1))
              (sample_session 2) in
  memory_ok (MemoryStore_insert st (sample_session 3)) /\
  map (fun s => se_id (sd_session s)) (ms_sessions (MemoryStore_insert st (sample_session 3))) = [2; 3].
Proof.
  intros st. split; [|by vm_compute].
  destruct (memory_insert_evicts_fewest st (sample_session 3)) as [H _]; [|by vm_compute|exact H].
  apply memory_ok_insert; [|by vm_compute]. apply memory_ok_insert; [|by vm_compute].
  by apply memory_ok_new.
Defined.
