(* ===== verification/TracePending.v ===== *)
(** * Assembly of pending sessions

    crates/rsproxy-trace/src/store/pending.rs.  Instants are nanoseconds; an
    event sees one reading while stale sessions expire and one when it touches
    its session. *)
From Stdlib Require Import Ascii String.
From stdpp Require Import base numbers list gmap strings.
From S2P Require Import Prelude Model TraceModel TraceMemory.

Definition PENDING_TTL : N := 300 * 1000000000.
Definition CLEANUP_INTERVAL : N := 1000000000.

Record PendingSession := mkPending { ps_session : Session; ps_touched : N }.

Record PendingSessions := mkPendingSessions {
  pd_sessions : gmap N PendingSession;
  pd_body_limit : N;
  pd_incomplete_sessions : N;
  pd_orphan_events : N;
  pd_memory_bytes : N;
  pd_last_cleanup : N;
}.

Record Clock := mkClock { at_expiry : N; at_touch : N }.

(** [Instant::elapsed] *)
Definition elapsed (now since : N) : N := saturating_sub now since.

Definition append_preview {L : Layout} (target : Buf N) (data : list N) (body_limit : N) : Buf N :=
  let remaining := saturating_sub body_limit (N.of_nat (length (items target))) in
  Buf_extend target (take (N.to_nat (N.min (N.of_nat (length data)) remaining)) data).

(** ** Field updates of a session *)

Definition set_request (s : Session) (method url : option RString) (headers trailers : Headers)
    (rules : Buf MatchedRule) : Session :=
  mkSession (se_id s) (se_kind s) (se_started_ms s) (se_duration_ms s) (se_pool_wait_ms s)
    (se_dns_ms s) (se_connect_ms s) (se_ttfb_ms s) (se_request_send_ms s) (se_response_receive_ms s)
    (unwrap_or method (se_method s)) (unwrap_or url (se_url s)) (se_status s) (se_client s)
    (se_upstream s) (se_request_bytes s) (se_response_bytes s) rules (se_flags s) (se_error s)
    headers trailers (se_req_body_head s) (se_res_headers s) (se_res_trailers s)
    (se_res_body_head s) (se_frames s) (se_tls s).

Definition set_response (s : Session) (status : option N) (headers trailers : Headers) : Session :=
  mkSession (se_id s) (se_kind s) (se_started_ms s) (se_duration_ms s) (se_pool_wait_ms s)
    (se_dns_ms s) (se_connect_ms s) (se_ttfb_ms s) (se_request_send_ms s) (se_response_receive_ms s)
    (se_method s) (se_url s) status (se_client s) (se_upstream s) (se_request_bytes s)
    (se_response_bytes s) (se_matched_rules s) (se_flags s) (se_error s) (se_req_headers s)
    (se_req_trailers s) (se_req_body_head s) headers trailers (se_res_body_head s) (se_frames s)
    (se_tls s).

Definition set_req_body (s : Session) (bytes : N) (head : Buf N) : Session :=
  mkSession (se_id s) (se_kind s) (se_started_ms s) (se_duration_ms s) (se_pool_wait_ms s)
    (se_dns_ms s) (se_connect_ms s) (se_ttfb_ms s) (se_request_send_ms s) (se_response_receive_ms s)
    (se_method s) (se_url s) (se_status s) (se_client s) (se_upstream s) bytes
    (se_response_bytes s) (se_matched_rules s) (se_flags s) (se_error s) (se_req_headers s)
    (se_req_trailers s) head (se_res_headers s) (se_res_trailers s) (se_res_body_head s)
    (se_frames s) (se_tls s).

Definition set_res_body (s : Session) (bytes : N) (head : Buf N) : Session :=
  mkSession (se_id s) (se_kind s) (se_started_ms s) (se_duration_ms s) (se_pool_wait_ms s)
    (se_dns_ms s) (se_connect_ms s) (se_ttfb_ms s) (se_request_send_ms s) (se_response_receive_ms s)
    (se_method s) (se_url s) (se_status s) (se_client s) (se_upstream s) (se_request_bytes s)
    bytes (se_matched_rules s) (se_flags s) (se_error s) (se_req_headers s) (se_req_trailers s)
    (se_req_body_head s) (se_res_headers s) (se_res_trailers s) head (se_frames s) (se_tls s).

Definition push_frame {L : Layout} (s : Session) (frame : FrameRecord) : Session :=
  mkSession (se_id s) (se_kind s) (se_started_ms s) (se_duration_ms s) (se_pool_wait_ms s)
    (se_dns_ms s) (se_connect_ms s) (se_ttfb_ms s) (se_request_send_ms s) (se_response_receive_ms s)
    (se_method s) (se_url s) (se_status s) (se_client s) (se_upstream s) (se_request_bytes s)
    (se_response_bytes s) (se_matched_rules s) (se_flags s) (se_error s) (se_req_headers s)
    (se_req_trailers s) (se_req_body_head s) (se_res_headers s) (se_res_trailers s)
    (se_res_body_head s) (Buf_push (se_frames s) frame) (se_tls s).

Definition push_tls {L : Layout} (s : Session) (record : TlsRecord) : Session :=
  mkSession (se_id s) (se_kind s) (se_started_ms s) (se_duration_ms s) (se_pool_wait_ms s)
    (se_dns_ms s) (se_connect_ms s) (se_ttfb_ms s) (se_request_send_ms s) (se_response_receive_ms s)
    (se_method s) (se_url s) (se_status s) (se_client s) (se_upstream s) (se_request_bytes s)
    (se_response_bytes s) (se_matched_rules s) (se_flags s) (se_error s) (se_req_headers s)
    (se_req_trailers s) (se_req_body_head s) (se_res_headers s) (se_res_trailers s)
    (se_res_body_head s) (se_frames s) (Buf_push (se_tls s) record).

Definition set_end (s : Session) (f : SessionEnd) : Session :=
  mkSession (se_id s) (en_kind f) (se_started_ms s) (en_duration_ms f) (en_pool_wait_ms f)
    (en_dns_ms f) (en_connect_ms f) (en_ttfb_ms f) (en_request_send_ms f)
    (en_response_receive_ms f) (se_method s) (se_url s) (se_status s) (se_client s) (en_upstream f)
    (se_request_bytes s) (se_response_bytes s) (se_matched_rules s) (en_flags f) (en_error f)
    (se_req_headers s) (se_req_trailers s) (se_req_body_head s) (se_res_headers s)
    (se_res_trailers s) (se_res_body_head s) (se_frames s) (se_tls s).

(** [Session::new] followed by the assignments of the [Start] arm. *)
Definition opened_session (now id : N) (start : SessionStart) : Session :=
  let s := Session_new now (st_kind start) (st_method start) (st_url start) (st_client start) in
  mkSession id (se_kind s) (st_started_ms start) (se_duration_ms s) (se_pool_wait_ms s)
    (se_dns_ms s) (se_connect_ms s) (se_ttfb_ms s) (se_request_send_ms s) (se_response_receive_ms s)
    (se_method s) (se_url s) (se_status s) (se_client s) (se_upstream s) (se_request_bytes s)
    (se_response_bytes s) (se_matched_rules s) (se_flags s) (se_error s) (se_req_headers s)
    (se_req_trailers s) (se_req_body_head s) (se_res_headers s) (se_res_trailers s)
    (se_res_body_head s) (se_frames s) (se_tls s).

Section Pending.
Context {L : Layout}.

Definition PendingSessions_new (body_limit now : N) : PendingSessions :=
  mkPendingSessions ∅ body_limit 0 0 0 now.

Definition with_sessions (p : PendingSessions) (sessions : gmap N PendingSession)
    (memory_bytes incomplete : N) : PendingSessions :=
  mkPendingSessions sessions (pd_body_limit p) incomplete (pd_orphan_events p) memory_bytes
    (pd_last_cleanup p).

Definition orphan (p : PendingSessions) : PendingSessions :=
  mkPendingSessions (pd_sessions p) (pd_body_limit p) (pd_incomplete_sessions p)
    (saturating_add U64_MAX (pd_orphan_events p) 1) (pd_memory_bytes p) (pd_last_cleanup p).

(** [PendingSessions::update] *)
Definition pending_update (now : N) (p : PendingSessions) (id : N) (f : Session -> Session)
    : PendingSessions :=
  match pd_sessions p !! id with
  | None => orphan p
  | Some pending =>
      let before := estimate_session_bytes (ps_session pending) in
      let session := f (ps_session pending) in
      let after := estimate_session_bytes session in
      with_sessions p (<[id := mkPending session now]> (pd_sessions p))
        (saturating_sub (pd_memory_bytes p) before +s after) (pd_incomplete_sessions p)
  end.

Definition fresh (now : N) (pending : PendingSession) : bool :=
  elapsed now (ps_touched pending) <? PENDING_TTL.

(** The saturating sum [retain] accumulates over the removed sessions. *)
Definition removed_bytes (sessions : gmap N PendingSession) : N :=
  fold_left (fun n kv => n +s estimate_session_bytes (ps_session (snd kv))) (map_to_list sessions) 0.

Definition expire_stale (now : N) (p : PendingSessions) : PendingSessions :=
  if elapsed now (pd_last_cleanup p) <? CLEANUP_INTERVAL then p
  else
    let kept := filter (fun kv => fresh now (snd kv) = true) (pd_sessions p) in
    let gone := filter (fun kv => fresh now (snd kv) = false) (pd_sessions p) in
    mkPendingSessions kept (pd_body_limit p)
      (saturating_add U64_MAX (pd_incomplete_sessions p)
         (saturating_sub (N.of_nat (size (pd_sessions p))) (N.of_nat (size kept))))
      (pd_orphan_events p) (saturating_sub (pd_memory_bytes p) (removed_bytes gone)) now.

(** Removal without publication ([Abort] and [abort_for_budget]). *)
Definition abort_for_budget (p : PendingSessions) (id : N) : PendingSessions :=
  match pd_sessions p !! id with
  | None => p
  | Some pending =>
      with_sessions p (delete id (pd_sessions p))
        (saturating_sub (pd_memory_bytes p) (estimate_session_bytes (ps_session pending)))
        (saturating_add U64_MAX (pd_incomplete_sessions p) 1)
  end.

Definition chunk_session (limit : N) (direction : BodyDirection.t) (data : list N) (observed : N)
    (s : Session) : Session :=
  match direction with
  | BodyDirection.Request =>
      set_req_body s (saturating_add U64_MAX (se_request_bytes s) observed)
        (append_preview (se_req_body_head s) data limit)
  | BodyDirection.Response =>
      set_res_body s (saturating_add U64_MAX (se_response_bytes s) observed)
        (append_preview (se_res_body_head s) data limit)
  end.

Definition snapshot_session (limit : N) (direction : BodyDirection.t) (data : list N) (observed : N)
    (s : Session) : Session :=
  match direction with
  | BodyDirection.Request =>
      set_req_body s observed (append_preview (Buf_clear (se_req_body_head s)) data limit)
  | BodyDirection.Response =>
      set_res_body s observed (append_preview (Buf_clear (se_res_body_head s)) data limit)
  end.

Definition PendingSessions_apply (clock : Clock) (p : PendingSessions) (event : TraceEvent.t)
    : PendingSessions * option Session :=
  let p := expire_stale (at_expiry clock) p in
  let now := at_touch clock in
  match event with
  | TraceEvent.Start id start =>
      let session := opened_session now id start in
      let session_bytes := estimate_session_bytes session in
      let sessions := <[id := mkPending session now]> (pd_sessions p) in
      match pd_sessions p !! id with
      | Some replaced =>
          (with_sessions p sessions
             (saturating_sub (pd_memory_bytes p) (estimate_session_bytes (ps_session replaced)) +s
              session_bytes)
             (saturating_add U64_MAX (pd_incomplete_sessions p) 1), None)
      | None =>
          (with_sessions p sessions (pd_memory_bytes p +s session_bytes)
             (pd_incomplete_sessions p), None)
      end
  | TraceEvent.Request id method url headers trailers rules =>
      (pending_update now p id (fun s => set_request s method url headers trailers rules), None)
  | TraceEvent.Response id status headers trailers =>
      (pending_update now p id (fun s => set_response s status headers trailers), None)
  | TraceEvent.BodyChunk id direction data observed =>
      (pending_update now p id (chunk_session (pd_body_limit p) direction data observed), None)
  | TraceEvent.BodySnapshot id direction data observed =>
      (pending_update now p id (snapshot_session (pd_body_limit p) direction data observed), None)
  | TraceEvent.Frame id frame => (pending_update now p id (fun s => push_frame s frame), None)
  | TraceEvent.Tls id record => (pending_update now p id (fun s => push_tls s record), None)
  | TraceEvent.End_ id fields =>
      match pd_sessions p !! id with
      | None => (orphan p, None)
      | Some pending =>
          (with_sessions p (delete id (pd_sessions p))
             (saturating_sub (pd_memory_bytes p) (estimate_session_bytes (ps_session pending)))
             (pd_incomplete_sessions p),
           Some (set_end (ps_session pending) fields))
      end
  | TraceEvent.Abort id => (abort_for_budget p id, None)
  end.

Definition PendingSessions_clear (p : PendingSessions) : PendingSessions :=
  with_sessions p ∅ 0 (pd_incomplete_sessions p).

(** ** Accounting *)

(** The exact total of the pending estimates, and the share of one session. *)
Definition bytes_of (q : PendingSession) : N := estimate_session_bytes (ps_session q).
Definition pending_total (m : gmap N PendingSession) : N := map_sum bytes_of m.
Definition pending_bytes (m : gmap N PendingSession) (id : N) : N := share bytes_of m id.
#[local] Arguments pending_total : simpl never.
#[local] Arguments pending_bytes : simpl never.

Lemma pending_total_delete m id :
  pending_total m = pending_bytes m id + pending_total (delete id m).
Proof. exact (map_sum_delete bytes_of m id). Qed.

Lemma pending_total_insert m id p :
  pending_total (<[id := p]> m) = estimate_session_bytes (ps_session p) + pending_total (delete id m).
Proof. exact (map_sum_insert bytes_of m id p). Qed.

Lemma removed_bytes_total m : removed_bytes m = N.min USIZE_MAX (pending_total m).
Proof.
  unfold removed_bytes, pending_total, map_sum.
  assert (forall l n, n <= USIZE_MAX ->
    fold_left (fun n kv => n +s estimate_session_bytes (ps_session (snd kv))) l n =
    N.min USIZE_MAX (n + sum_N (map (fun kv : N * PendingSession => bytes_of (snd kv)) l))) as H.
  { induction l as [|kv l IH]; intros n Hn; simpl; [lia|].
    rewrite IH by apply usize_add_le. unfold usize_add, saturating_add, bytes_of. simpl. lia. }
  rewrite H by (unfold USIZE_MAX; lia). by rewrite N.add_0_l.
Qed.

(** The recorded bytes are the total of the estimates. *)
Definition pending_ok (p : PendingSessions) : Prop :=
  pd_memory_bytes p = pending_total (pd_sessions p).

Lemma expire_ok now p : pending_ok p -> pd_memory_bytes p <= USIZE_MAX -> pending_ok (expire_stale now p).
Proof.
  unfold pending_ok, expire_stale. intros Hp Hle. case_goal; [done|]. cbn.
  rewrite removed_bytes_total. pose proof (map_sum_filter bytes_of (fresh now) (pd_sessions p)) as Hf.
  fold (pending_total (pd_sessions p)) in Hf. unfold pending_total in *.
  unfold saturating_sub. lia.
Qed.

Lemma pending_bytes_le m id : pending_bytes m id <= USIZE_MAX.
Proof. unfold pending_bytes, share, bytes_of. destruct (m !! id); [apply estimate_session_le|]. unfold USIZE_MAX. lia. Qed.

Lemma pending_update_ok now p id f :
  pending_ok p -> pending_total (pd_sessions (pending_update now p id f)) <= USIZE_MAX ->
  pending_ok (pending_update now p id f).
Proof.
  unfold pending_ok, pending_update. destruct (pd_sessions p !! id) as [q|] eqn:E; [|done]. cbn.
  intros Hp. rewrite pending_total_insert. cbn. pose proof (pending_total_delete (pd_sessions p) id) as Hd.
  unfold pending_bytes, share, bytes_of in Hd. rewrite E in Hd.
  unfold usize_add, saturating_add, saturating_sub. lia.
Qed.

Lemma abort_ok p id : pending_ok p -> pending_ok (abort_for_budget p id).
Proof.
  unfold pending_ok, abort_for_budget. destruct (pd_sessions p !! id) as [q|] eqn:E; [|done]. cbn.
  pose proof (pending_total_delete (pd_sessions p) id) as Hd. unfold pending_bytes, share, bytes_of in Hd.
  rewrite E in Hd. unfold saturating_sub. lia.
Qed.

(** Every event keeps the accounting exact, as long as the total fits [usize]. *)
Lemma apply_ok clock p event :
  pending_ok p -> pd_memory_bytes p <= USIZE_MAX ->
  pending_total (pd_sessions (PendingSessions_apply clock p event).1) <= USIZE_MAX ->
  pending_ok (PendingSessions_apply clock p event).1.
Proof.
  intros Hp Hle. unfold PendingSessions_apply.
  pose proof (expire_ok (at_expiry clock) p Hp Hle) as Hq. revert Hq.
  generalize (expire_stale (at_expiry clock) p) as q. clear. intros q Hq.
  destruct event; cbn [fst]; try by apply pending_update_ok.
  - unfold pending_ok in *. destruct (pd_sessions q !! id) as [r|] eqn:E; cbn;
      rewrite pending_total_insert; cbn [ps_session];
      pose proof (pending_total_delete (pd_sessions q) id) as Hd; unfold pending_bytes, share, bytes_of in Hd;
      rewrite E in Hd; unfold usize_add, saturating_add, saturating_sub; lia.
  - unfold pending_ok in *. destruct (pd_sessions q !! id) as [r|] eqn:E; cbn; [|done].
    pose proof (pending_total_delete (pd_sessions q) id) as Hd. unfold pending_bytes, share, bytes_of in Hd.
    rewrite E in Hd. unfold saturating_sub. lia.
  - intros _. by apply abort_ok.
Qed.

(** ** Growth of the recorded bytes

    Whatever saturates, an event lets the recorded bytes exceed a bound only by
    the estimate of its own session. *)

Definition within (bound : N) (p : PendingSessions) (id : N) : Prop :=
  pd_memory_bytes p <= bound + pending_bytes (pd_sessions p) id.

Lemma expire_within bound now p id : within bound p id -> within bound (expire_stale now p) id.
Proof.
  unfold within, expire_stale. intros H. case_goal; [done|]. cbn.
  rewrite removed_bytes_total. unfold saturating_sub.
  pose proof (pending_total_delete (filter (fun kv => fresh now (snd kv) = false) (pd_sessions p)) id) as Hd.
  assert (pending_bytes (pd_sessions p) id <=
    pending_bytes (filter (fun kv => fresh now (snd kv) = true) (pd_sessions p)) id +
    pending_bytes (filter (fun kv => fresh now (snd kv) = false) (pd_sessions p)) id) as Hs.
  { unfold pending_bytes, share, bytes_of. rewrite !map_lookup_filter. destruct (pd_sessions p !! id) as [q|]; simpl; [|lia].
    destruct (fresh now q); simpl; lia. }
  pose proof (pending_bytes_le (filter (fun kv => fresh now (snd kv) = false) (pd_sessions p)) id).
  unfold USIZE_MAX in *. lia.
Qed.

Lemma pending_update_within bound now p id f :
  within bound p id -> within bound (pending_update now p id f) id.
Proof.
  unfold within, pending_update. destruct (pd_sessions p !! id) as [q|] eqn:E; cbn; [|done].
  unfold pending_bytes, share, bytes_of. rewrite E, lookup_insert_eq. cbn. unfold usize_add, saturating_add, saturating_sub. lia.
Qed.

Lemma abort_within bound p id : within bound p id -> pd_memory_bytes (abort_for_budget p id) <= bound.
Proof.
  unfold within, abort_for_budget, pending_bytes, share, bytes_of. destruct (pd_sessions p !! id) as [q|]; cbn; [|lia].
  unfold saturating_sub. lia.
Qed.

Lemma apply_within bound clock p event :
  within bound p (TraceEvent.session_id event) ->
  within bound (PendingSessions_apply clock p event).1 (TraceEvent.session_id event).
Proof.
  intros H%(expire_within bound (at_expiry clock)). unfold PendingSessions_apply. revert H.
  generalize (expire_stale (at_expiry clock) p) as q. clear. intros q.
  destruct event; cbn [fst TraceEvent.session_id]; try by apply pending_update_within.
  - unfold within, pending_bytes, share, bytes_of. destruct (pd_sessions q !! id) as [r|] eqn:E; cbn;
      rewrite lookup_insert_eq; cbn; unfold usize_add, saturating_add, saturating_sub; lia.
  - unfold within, pending_bytes, share, bytes_of. destruct (pd_sessions q !! id) as [r|] eqn:E; cbn.
    + rewrite lookup_delete_eq. unfold saturating_sub. lia.
    + by rewrite E.
  - intros H. pose proof (abort_within _ _ _ H). unfold within. lia.
Qed.

(** After [End] or [Abort] nothing of the session is left. *)
Definition closes (event : TraceEvent.t) : bool :=
  match event with TraceEvent.End_ _ _ | TraceEvent.Abort _ => true | _ => false end.

Lemma apply_closes bound clock p event :
  closes event = true -> within bound p (TraceEvent.session_id event) ->
  pd_memory_bytes (PendingSessions_apply clock p event).1 <= bound.
Proof.
  intros Hc H%(expire_within bound (at_expiry clock)). unfold PendingSessions_apply. revert H.
  generalize (expire_stale (at_expiry clock) p) as q. clear -Hc. intros q.
  destruct event; try done; cbn [TraceEvent.session_id].
  - unfold within, pending_bytes, share, bytes_of. destruct (pd_sessions q !! id) as [r|]; cbn; [unfold saturating_sub|]; lia.
  - apply abort_within.
Qed.

(** ** Assembly *)

(** A batch of events, the [i]-th under clock [clock i]; the published sessions. *)
Fixpoint apply_all (clock : nat -> Clock) (p : PendingSessions) (events : list TraceEvent.t)
    : PendingSessions * list Session :=
  match events with
  | [] => (p, [])
  | e :: events' =>
      let '(p, published) := PendingSessions_apply (clock O) p e in
      let '(p, rest) := apply_all (fun i => clock (S i)) p events' in
      (p, match published with Some s => s :: rest | None => rest end)
  end.

(** The effect of an event on its pending session. *)
Definition session_step (limit : N) (s : Session) (event : TraceEvent.t) : Session :=
  match event with
  | TraceEvent.Request _ method url headers trailers rules =>
      set_request s method url headers trailers rules
  | TraceEvent.Response _ status headers trailers => set_response s status headers trailers
  | TraceEvent.BodyChunk _ direction data observed => chunk_session limit direction data observed s
  | TraceEvent.BodySnapshot _ direction data observed =>
      snapshot_session limit direction data observed s
  | TraceEvent.Frame _ frame => push_frame s frame
  | TraceEvent.Tls _ record => push_tls s record
  | _ => s
  end.

Definition updates (id : N) (e : TraceEvent.t) : Prop :=
  TraceEvent.session_id e = id /\
  match e with TraceEvent.Start _ _ | TraceEvent.End_ _ _ | TraceEvent.Abort _ => False | _ => True end.

(** Readings of one batch, which lasts less than the pending time to live. *)
Definition prompt (t0 : N) (clock : nat -> Clock) : Prop :=
  forall i, t0 <= at_touch (clock i) /\ at_expiry (clock i) < t0 + PENDING_TTL.

Lemma expire_keeps t0 now p id q :
  pd_sessions p !! id = Some q -> t0 <= ps_touched q -> now < t0 + PENDING_TTL ->
  pd_sessions (expire_stale now p) !! id = Some q /\
  pd_body_limit (expire_stale now p) = pd_body_limit p.
Proof.
  intros Hq Ht Hn. unfold expire_stale. case_goal; [done|]. cbn. split; [|done].
  rewrite map_lookup_filter, Hq. simpl. rewrite option_guard_True; [done|].
  unfold fresh, elapsed, saturating_sub, PENDING_TTL in *. apply N.ltb_lt. lia.
Qed.

Lemma expire_limit now p : pd_body_limit (expire_stale now p) = pd_body_limit p.
Proof. unfold expire_stale. by case_goal. Qed.

Lemma apply_update t0 clock p id q e :
  prompt t0 clock -> pd_sessions p !! id = Some q -> t0 <= ps_touched q -> updates id e ->
  exists p', PendingSessions_apply (clock O) p e = (p', None) /\
    pd_sessions p' !! id =
      Some (mkPending (session_step (pd_body_limit p) (ps_session q) e) (at_touch (clock O))) /\
    pd_body_limit p' = pd_body_limit p.
Proof.
  intros Hc Hq Ht [Hid He]. destruct (Hc O) as [_ Hexp].
  destruct (expire_keeps t0 (at_expiry (clock O)) p id q Hq Ht Hexp) as [Hq' Hl].
  unfold PendingSessions_apply. destruct e; cbn in Hid, He; try done; subst id0;
    (eexists; split; [reflexivity|]); rewrite ?Hl;
    unfold pending_update; rewrite Hq'; cbn; by rewrite lookup_insert_eq.
Qed.

Lemma apply_updates t0 es clock p id q :
  prompt t0 clock -> pd_sessions p !! id = Some q -> t0 <= ps_touched q -> Forall (updates id) es ->
  exists p' q', apply_all clock p es = (p', []) /\ pd_sessions p' !! id = Some q' /\
    ps_session q' = fold_left (session_step (pd_body_limit p)) es (ps_session q) /\
    t0 <= ps_touched q' /\ pd_body_limit p' = pd_body_limit p.
Proof.
  revert clock p q. induction es as [|e es IH]; intros clock p q Hc Hq Ht Hes.
  - exists p, q. done.
  - inversion Hes as [|? ? He Hes']; subst.
    destruct (apply_update t0 clock p id q e Hc Hq Ht He) as (p1 & E1 & Hq1 & Hl1).
    destruct (IH (fun i => clock (S i)) p1 _ (fun i => Hc (S i)) Hq1) as (p2 & q2 & E2 & Hq2 & Hs2 & Ht2 & Hl2).
    + cbn. apply Hc.
    + done.
    + exists p2, q2. cbn [apply_all]. rewrite E1, E2. cbn [fold_left]. rewrite Hs2, Hl1.
      split_and!; [done..|congruence].
Qed.

Lemma apply_all_app clock p es1 es2 :
  apply_all clock p (es1 ++ es2) =
  let '(p1, l1) := apply_all clock p es1 in
  let '(p2, l2) := apply_all (fun i => clock (length es1 + i)%nat) p1 es2 in (p2, l1 ++ l2).
Proof.
  revert clock p. induction es1 as [|e es1 IH]; intros clock p; cbn [apply_all app length].
  - by destruct (apply_all _ p es2).
  - destruct (PendingSessions_apply (clock O) p e) as [p1 o]. rewrite IH.
    destruct (apply_all _ p1 es1) as [p2 l1]. cbn. destruct (apply_all _ p2 es2) as [p3 l2].
    by destruct o.
Qed.

(** Sessions equal up to the capacities of their buffers, bodies cut at [limit]. *)
Definition recorded_as (limit : N) (s s' : Session) : Prop :=
  exists req_head res_head frames tls,
    s' = mkSession (se_id s) (se_kind s) (se_started_ms s) (se_duration_ms s) (se_pool_wait_ms s)
      (se_dns_ms s) (se_connect_ms s) (se_ttfb_ms s) (se_request_send_ms s)
      (se_response_receive_ms s) (se_method s) (se_url s) (se_status s) (se_client s)
      (se_upstream s) (se_request_bytes s) (se_response_bytes s) (se_matched_rules s)
      (se_flags s) (se_error s) (se_req_headers s) (se_req_trailers s) req_head
      (se_res_headers s) (se_res_trailers s) res_head frames tls /\
    items req_head = take (N.to_nat limit) (items (se_req_body_head s)) /\
    items res_head = take (N.to_nat limit) (items (se_res_body_head s)) /\
    items frames = items (se_frames s) /\ items tls = items (se_tls s).

Lemma fold_frames limit id fs s :
  exists b, fold_left (session_step limit) (map (TraceEvent.Frame id) fs) s =
    mkSession (se_id s) (se_kind s) (se_started_ms s) (se_duration_ms s) (se_pool_wait_ms s)
      (se_dns_ms s) (se_connect_ms s) (se_ttfb_ms s) (se_request_send_ms s)
      (se_response_receive_ms s) (se_method s) (se_url s) (se_status s) (se_client s)
      (se_upstream s) (se_request_bytes s) (se_response_bytes s) (se_matched_rules s)
      (se_flags s) (se_error s) (se_req_headers s) (se_req_trailers s) (se_req_body_head s)
      (se_res_headers s) (se_res_trailers s) (se_res_body_head s) b (se_tls s) /\
    items b = items (se_frames s) ++ fs.
Proof.
  revert s. induction fs as [|f fs IH]; intros s; cbn [map fold_left].
  - exists (se_frames s). rewrite app_nil_r. by destruct s.
  - destruct (IH (session_step limit s (TraceEvent.Frame id f))) as (b & -> & Hb). exists b.
    split; [done|]. rewrite Hb. cbn. by rewrite <- app_assoc.
Qed.

Lemma fold_tls limit id rs s :
  exists b, fold_left (session_step limit) (map (TraceEvent.Tls id) rs) s =
    mkSession (se_id s) (se_kind s) (se_started_ms s) (se_duration_ms s) (se_pool_wait_ms s)
      (se_dns_ms s) (se_connect_ms s) (se_ttfb_ms s) (se_request_send_ms s)
      (se_response_receive_ms s) (se_method s) (se_url s) (se_status s) (se_client s)
      (se_upstream s) (se_request_bytes s) (se_response_bytes s) (se_matched_rules s)
      (se_flags s) (se_error s) (se_req_headers s) (se_req_trailers s) (se_req_body_head s)
      (se_res_headers s) (se_res_trailers s) (se_res_body_head s) (se_frames s) b /\
    items b = items (se_tls s) ++ rs.
Proof.
  revert s. induction rs as [|r rs IH]; intros s; cbn [map fold_left].
  - exists (se_tls s). rewrite app_nil_r. by destruct s.
  - destruct (IH (session_step limit s (TraceEvent.Tls id r))) as (b & -> & Hb). exists b.
    split; [done|]. rewrite Hb. cbn. by rewrite <- app_assoc.
Qed.

Lemma append_preview_fresh (b : Buf N) data limit :
  items b = [] -> items (append_preview b data limit) = take (N.to_nat limit) data.
Proof.
  intros Hb. unfold append_preview, Buf_extend. cbn. rewrite Hb. cbn. unfold saturating_sub.
  destruct (N.le_gt_cases (N.of_nat (length data)) limit).
  - rewrite (take_ge data (N.to_nat limit)) by lia. apply take_ge. lia.
  - f_equal. lia.
Qed.

Definition snapshot_step (limit : N) (id : N) (d : BodyDirection.t) (head : Buf N) (bytes : N) (s : Session)
    : Session :=
  fold_left (session_step limit) (TraceEvent.body_snapshot id d head bytes) s.

Lemma snapshot_req limit id head bytes s :
  items (se_req_body_head s) = [] -> se_request_bytes s = 0 ->
  exists b, snapshot_step limit id BodyDirection.Request head bytes s = set_req_body s bytes b /\
    items b = take (N.to_nat limit) (items head).
Proof.
  intros He Hb. unfold snapshot_step, TraceEvent.body_snapshot. case_goal.
  - eexists. split; [reflexivity|]. by apply append_preview_fresh.
  - apply orb_false_iff in E as [E1 E2]. bool_to_prop. exists (se_req_body_head s).
    destruct (items head); [|done]. rewrite take_nil. split; [|done].
    assert (bytes = 0) as -> by lia. rewrite <- Hb. by destruct s.
Qed.

Lemma snapshot_res limit id head bytes s :
  items (se_res_body_head s) = [] -> se_response_bytes s = 0 ->
  exists b, snapshot_step limit id BodyDirection.Response head bytes s = set_res_body s bytes b /\
    items b = take (N.to_nat limit) (items head).
Proof.
  intros He Hb. unfold snapshot_step, TraceEvent.body_snapshot. case_goal.
  - eexists. split; [reflexivity|]. by apply append_preview_fresh.
  - apply orb_false_iff in E as [E1 E2]. bool_to_prop. exists (se_res_body_head s).
    destruct (items head); [|done]. rewrite take_nil. split; [|done].
    assert (bytes = 0) as -> by lia. rewrite <- Hb. by destruct s.
Qed.

(** The events of a session between its start and its end. *)
Definition session_updates (s : Session) : list TraceEvent.t :=
  let id := se_id s in
  TraceEvent.Request id None None (se_req_headers s) (se_req_trailers s) (se_matched_rules s) ::
  TraceEvent.body_snapshot id BodyDirection.Request (se_req_body_head s) (se_request_bytes s) ++
  TraceEvent.Response id (se_status s) (se_res_headers s) (se_res_trailers s) ::
  TraceEvent.body_snapshot id BodyDirection.Response (se_res_body_head s) (se_response_bytes s) ++
  map (TraceEvent.Frame id) (items (se_frames s)) ++ map (TraceEvent.Tls id) (items (se_tls s)).

Lemma from_session_shape s :
  TraceEvent.from_session s =
  TraceEvent.Start (se_id s) (SessionStart_from_session s) :: session_updates s ++
  [TraceEvent.End_ (se_id s) (TraceEvent.session_end s)].
Proof.
  unfold TraceEvent.from_session, session_updates. cbn [app]. do 2 f_equal.
  rewrite <- !app_assoc. cbn [app]. by rewrite <- !app_assoc.
Qed.

Lemma session_updates_update s : Forall (updates (se_id s)) (session_updates s).
Proof.
  assert (forall d h b, Forall (updates (se_id s)) (TraceEvent.body_snapshot (se_id s) d h b)) as Hb.
  { intros d h b. unfold TraceEvent.body_snapshot. case_goal; repeat constructor. }
  unfold session_updates. constructor; [done|]. apply Forall_app. split; [done|].
  constructor; [done|]. repeat (apply Forall_app; split); [done| |]; apply Forall_map, Forall_true; done.
Qed.

Lemma session_updates_content limit now s :
  recorded_as limit s
    (set_end (fold_left (session_step limit) (session_updates s)
       (opened_session now (se_id s) (SessionStart_from_session s))) (TraceEvent.session_end s)).
Proof.
  unfold session_updates. cbn [fold_left session_step]. rewrite fold_left_app.
  set (s1 := set_request _ _ _ _ _ _).
  fold (snapshot_step limit (se_id s) BodyDirection.Request (se_req_body_head s) (se_request_bytes s) s1).
  destruct (snapshot_req limit (se_id s) (se_req_body_head s) (se_request_bytes s) s1) as (b1 & -> & Hb1);
    [done..|].
  cbn [fold_left session_step]. rewrite fold_left_app. set (s2 := set_response _ _ _ _).
  fold (snapshot_step limit (se_id s) BodyDirection.Response (se_res_body_head s) (se_response_bytes s) s2).
  destruct (snapshot_res limit (se_id s) (se_res_body_head s) (se_response_bytes s) s2) as (b2 & -> & Hb2);
    [done..|].
  rewrite fold_left_app. set (s3 := set_res_body _ _ _).
  destruct (fold_frames limit (se_id s) (items (se_frames s)) s3) as (b3 & -> & Hb3).
  match goal with |- context [fold_left _ _ ?x] => set (s4 := x) end.
  destruct (fold_tls limit (se_id s) (items (se_tls s)) s4) as (b4 & -> & Hb4).
  exists b1, b2, b3, b4. split_and!; [by destruct s|done..].
Qed.

(** C17: Recording a completed session goes through the event queue without
    loss: splitting it into events and applying them to any collector state
    publishes exactly one session, which has every field of the original, its
    frames and TLS records in order, and its bodies cut at the preview limit;
    nothing of it stays pending. *)
Theorem recorded_session_roundtrip t0 clock p s :
  prompt t0 clock ->
  exists p' s', apply_all clock p (TraceEvent.from_session s) = (p', [s']) /\
    recorded_as (pd_body_limit p) s s' /\ pd_sessions p' !! se_id s = None.
Proof.
  intros Hc. rewrite from_session_shape. cbn [apply_all].
  destruct (PendingSessions_apply (clock O) p _) as [p1 o] eqn:E1.
  set (q1 := mkPending (opened_session (at_touch (clock O)) (se_id s) (SessionStart_from_session s))
               (at_touch (clock O))).
  assert (pd_sessions p1 !! se_id s = Some q1 /\ pd_body_limit p1 = pd_body_limit p /\ o = None)
    as (Hq1 & Hl1 & ->).
  { unfold PendingSessions_apply in E1.
    destruct (pd_sessions (expire_stale (at_expiry (clock O)) p) !! se_id s);
      injection E1 as <- <-; cbn; by rewrite lookup_insert_eq, expire_limit. }
  rewrite apply_all_app.
  destruct (apply_updates t0 (session_updates s) (fun i => clock (S i)) p1 (se_id s) q1)
    as (p2 & q2 & E2 & Hq2 & Hs2 & Ht2 & Hl2);
    [by intros i; apply Hc|done|apply Hc|apply session_updates_update|].
  rewrite E2. cbn [apply_all PendingSessions_apply].
  set (t := clock _). assert (at_expiry t < t0 + PENDING_TTL) as Hexp by apply Hc.
  destruct (expire_keeps t0 (at_expiry t) p2 _ _ Hq2 Ht2 Hexp) as [-> _].
  eexists _, _. split; [reflexivity|]. split.
  - rewrite Hs2, Hl1. apply session_updates_content.
  - cbn. by rewrite lookup_delete_eq.
Qed.

(** ** Preview bounds *)

Definition preview_ok (limit : N) (s : Session) : Prop :=
  N.of_nat (length (items (se_req_body_head s))) <= limit /\
  N.of_nat (length (items (se_res_body_head s))) <= limit.

Lemma append_preview_le (b : Buf N) data limit :
  N.of_nat (length (items b)) <= limit -> N.of_nat (length (items (append_preview b data limit))) <= limit.
Proof.
  unfold append_preview, Buf_extend, saturating_sub. cbn. rewrite length_app, length_take. lia.
Qed.

Definition previews_ok (p : PendingSessions) : Prop :=
  map_Forall (fun _ q => preview_ok (pd_body_limit p) (ps_session q)) (pd_sessions p).

Lemma update_previews now p id f :
  previews_ok p -> (forall s, preview_ok (pd_body_limit p) s -> preview_ok (pd_body_limit p) (f s)) ->
  previews_ok (pending_update now p id f).
Proof.
  unfold previews_ok, pending_update. intros Hp Hf. destruct (pd_sessions p !! id) as [q|] eqn:E; [|done].
  cbn. apply map_Forall_insert_2; [|done]. cbn. apply Hf. by eapply Hp.
Qed.

Lemma apply_previews clock p event :
  previews_ok p ->
  previews_ok (PendingSessions_apply clock p event).1 /\
  (forall s, (PendingSessions_apply clock p event).2 = Some s -> preview_ok (pd_body_limit p) s).
Proof.
  intros Hp. assert (previews_ok (expire_stale (at_expiry clock) p)) as Hq.
  { unfold expire_stale. case_goal; [done|]. unfold previews_ok. cbn.
    intros i q Hi. apply map_lookup_filter_Some in Hi as [Hi _]. by eapply Hp. }
  unfold PendingSessions_apply. rewrite <- (expire_limit (at_expiry clock) p). revert Hq.
  generalize (expire_stale (at_expiry clock) p) as q. clear. intros q Hq.
  destruct event; cbn [fst snd]; try (split; [apply update_previews; [done|by intros []]|done]).
  - split; [|by destruct (pd_sessions q !! id)]. unfold previews_ok.
    destruct (pd_sessions q !! id); cbn; (apply map_Forall_insert_2; [|done]); cbn; split; cbn; lia.
  - split; [apply update_previews; [done|]|done]. intros s [H1 H2].
    destruct direction; (split; cbn; [|done]) || (split; cbn; [done|]); by apply append_preview_le.
  - split; [apply update_previews; [done|]|done]. intros s [H1 H2].
    destruct direction; split; cbn [snapshot_session set_req_body set_res_body se_req_body_head se_res_body_head];
      try done; apply append_preview_le; cbn; lia.
  - destruct (pd_sessions q !! id) as [r|] eqn:E; cbn; [|done]. split.
    + unfold previews_ok. cbn. by apply map_Forall_delete.
    + intros s [= <-]. apply (Hq id r E).
  - split; [|done]. unfold abort_for_budget. destruct (pd_sessions q !! id); [|done].
    unfold previews_ok. cbn. by apply map_Forall_delete.
Qed.
End Pending.

#[local] Existing Instance sample_layout.

Lemma recorded_session_roundtrip_witness :
  exists p' s', apply_all (fun i => mkClock 100 (100 + N.of_nat i)) (PendingSessions_new 2 0)
      (TraceEvent.from_session (sample_session 7)) = (p', [s']) /\
    recorded_as 2 (sample_session 7) s' /\ items (se_res_body_head s') = [4; 5].
Proof.
  destruct (recorded_session_roundtrip 100 (fun i => mkClock 100 (100 + N.of_nat i))
    (PendingSessions_new 2 0) (sample_session 7)) as (p' & s' & E & H & _).
  - intros i. unfold PENDING_TTL. cbn. lia.
  - exists p', s'. split; [exact E|]. split; [exact H|].
    destruct H as (? & ? & ? & ? & -> & _ & Hres & _). cbn. by rewrite Hres.
Defined.
