(* ===== verification/TraceQueue.v ===== *)
(** * The trace command queue

    crates/rsproxy-trace/src/store/counters.rs and [TraceStore::submit] of
    store.rs: lock-free reservation of queue memory by concurrent producers, a
    bounded channel, and release by the collector thread.  The sequential
    functions are the operations as one thread sees them; the step relation
    interleaves any number of threads at the granularity of their atomics. *)
From Stdlib Require Import Ascii String.
From stdpp Require Import base numbers list gmap strings.
From S2P Require Import Prelude TraceModel.

Record TraceCounters := mkTraceCounters {
  next_id : N;
  queue_dropped : N;
  queue_memory_dropped : N;
  queue_bytes : N;
}.

Definition TraceCounters_new : TraceCounters := mkTraceCounters 1 0 0 0.

Definition set_queue_bytes (c : TraceCounters) (n : N) : TraceCounters :=
  mkTraceCounters (next_id c) (queue_dropped c) (queue_memory_dropped c) n.

(** [fetch_add(1, Relaxed)] on the counters. *)
Definition bump_dropped (c : TraceCounters) : TraceCounters :=
  mkTraceCounters (next_id c) (wrapping_add64 (queue_dropped c) 1) (queue_memory_dropped c)
    (queue_bytes c).
Definition bump_memory_dropped (c : TraceCounters) : TraceCounters :=
  mkTraceCounters (next_id c) (queue_dropped c) (wrapping_add64 (queue_memory_dropped c) 1)
    (queue_bytes c).
Definition take_id (c : TraceCounters) : N * TraceCounters :=
  (next_id c, mkTraceCounters (wrapping_add64 (next_id c) 1) (queue_dropped c)
                (queue_memory_dropped c) (queue_bytes c)).

(** ** Sequential operations *)

Definition try_reserve (c : TraceCounters) (bytes memory_budget_bytes : N)
    : TraceCounters * bool :=
  if memory_budget_bytes <? queue_bytes c +s bytes then (c, false)
  else (set_queue_bytes c (queue_bytes c +s bytes), true).

Definition release_queue_bytes (c : TraceCounters) (bytes : N) : TraceCounters :=
  set_queue_bytes c (saturating_sub (queue_bytes c) bytes).

(** The bounded channel: its capacity, its content, and whether the receiver lives. *)
Record Channel (A : Type) := mkChannel { ch_capacity : N; ch_queue : list A; ch_open : bool }.
#[global] Arguments mkChannel {A} _ _ _.
#[global] Arguments ch_capacity {A} _.
#[global] Arguments ch_queue {A} _.
#[global] Arguments ch_open {A} _.

Definition has_room {A} (c : Channel A) : bool :=
  ch_open c && (N.of_nat (length (ch_queue c)) <? ch_capacity c).

Definition try_send {A} (c : Channel A) (x : A) : Channel A * bool :=
  if has_room c then (mkChannel (ch_capacity c) (ch_queue c ++ [x]) (ch_open c), true)
  else (c, false).

(** [TraceStore::submit] *)
Definition submit {A} (budget : N) (c : TraceCounters) (chan : Channel A) (command : A)
    (queued_bytes : N) : TraceCounters * Channel A * bool :=
  let '(c, reserved) := try_reserve c queued_bytes budget in
  if negb reserved then (bump_memory_dropped (bump_dropped c), chan, false)
  else
    let '(chan, sent) := try_send chan command in
    if sent then (c, chan, true)
    else (bump_dropped (release_queue_bytes c queued_bytes), chan, false).

(** ** Interleaved execution *)

(** Where a producer is inside [submit]. *)
Inductive Producer :=
| Loaded (bytes queued : N)      (* read [queue_bytes], about to check and exchange *)
| Reserved (bytes : N)           (* reservation made, about to send *)
| Unsent (bytes : N)             (* channel full or closed, about to release *)
| Released                       (* about to count the drop *)
| Rejected                       (* over budget, about to count the drop *)
| Counted.                       (* about to count the memory drop *)

(** A queued command: event commands hold their reservation, queries hold none. *)
Abbreviation Queued := (option N) (only parsing).

Record World := mkWorld {
  w_counters : TraceCounters;
  w_channel : Channel Queued;
  w_producers : gmap N Producer;
  w_collector : option Queued;   (* the command being processed *)
  w_lost : N;                    (* reservations dropped with a closed channel *)
}.

Definition held_by (p : Producer) : N :=
  match p with Reserved b | Unsent b => b | _ => 0 end.
Definition held_queued (q : Queued) : N := match q with Some b => b | None => 0 end.

Section Steps.
Context (budget : N).

Definition with_producer (w : World) (c : TraceCounters) (t : N) (p : Producer) : World :=
  mkWorld c (w_channel w) (<[t := p]> (w_producers w)) (w_collector w) (w_lost w).
Definition producer_done (w : World) (c : TraceCounters) (chan : Channel Queued) (t : N) : World :=
  mkWorld c chan (delete t (w_producers w)) (w_collector w) (w_lost w).
Definition push {A} (c : Channel A) (x : A) : Channel A :=
  mkChannel (ch_capacity c) (ch_queue c ++ [x]) (ch_open c).

Inductive step : World -> World -> Prop :=
| step_load w t bytes : w_producers w !! t = None ->
    step w (with_producer w (w_counters w) t (Loaded bytes (queue_bytes (w_counters w))))
| step_reject w t bytes queued : w_producers w !! t = Some (Loaded bytes queued) ->
    budget < queued +s bytes ->
    step w (with_producer w (w_counters w) t Rejected)
| step_exchange w t bytes queued : w_producers w !! t = Some (Loaded bytes queued) ->
    queued +s bytes <= budget -> queue_bytes (w_counters w) = queued ->
    step w (with_producer w (set_queue_bytes (w_counters w) (queued +s bytes)) t (Reserved bytes))
| step_retry w t bytes queued : w_producers w !! t = Some (Loaded bytes queued) ->
    queued +s bytes <= budget ->
    step w (with_producer w (w_counters w) t (Loaded bytes (queue_bytes (w_counters w))))
| step_send w t bytes : w_producers w !! t = Some (Reserved bytes) -> has_room (w_channel w) = true ->
    step w (producer_done w (w_counters w) (push (w_channel w) (Some bytes)) t)
| step_full w t bytes : w_producers w !! t = Some (Reserved bytes) -> has_room (w_channel w) = false ->
    step w (with_producer w (w_counters w) t (Unsent bytes))
| step_release w t bytes : w_producers w !! t = Some (Unsent bytes) ->
    step w (with_producer w (release_queue_bytes (w_counters w) bytes) t Released)
| step_count w t : w_producers w !! t = Some Released ->
    step w (producer_done w (bump_dropped (w_counters w)) (w_channel w) t)
| step_rejected w t : w_producers w !! t = Some Rejected ->
    step w (with_producer w (bump_dropped (w_counters w)) t Counted)
| step_counted w t : w_producers w !! t = Some Counted ->
    step w (producer_done w (bump_memory_dropped (w_counters w)) (w_channel w) t)
| step_query w : has_room (w_channel w) = true ->
    step w (mkWorld (w_counters w) (push (w_channel w) None) (w_producers w) (w_collector w) (w_lost w))
| step_receive w q rest : w_collector w = None -> ch_queue (w_channel w) = q :: rest ->
    step w (mkWorld (w_counters w) (mkChannel (ch_capacity (w_channel w)) rest (ch_open (w_channel w)))
              (w_producers w) (Some q) (w_lost w))
| step_process w q : w_collector w = Some q ->
    step w (mkWorld (release_queue_bytes (w_counters w) (held_queued q)) (w_channel w)
              (w_producers w) None (w_lost w))
| step_shutdown w : w_collector w = None -> ch_open (w_channel w) = true ->
    step w (mkWorld (w_counters w) (mkChannel (ch_capacity (w_channel w)) [] false) (w_producers w) None
              (w_lost w + sum_N (map held_queued (ch_queue (w_channel w))))).

Inductive reachable (capacity : N) : World -> Prop :=
| reach_init : reachable capacity (mkWorld TraceCounters_new (mkChannel capacity [] true) ∅ None 0)
| reach_step w w' : reachable capacity w -> step w w' -> reachable capacity w'.

(** Bytes reserved by threads, queued commands, the collector, and lost ones. *)
Definition outstanding (w : World) : N :=
  map_sum held_by (w_producers w) + sum_N (map held_queued (ch_queue (w_channel w))) +
  match w_collector w with Some q => held_queued q | None => 0 end + w_lost w.

Record queue_ok (capacity : N) (w : World) : Prop := {
  qo_exact : queue_bytes (w_counters w) = outstanding w;
  qo_budget : queue_bytes (w_counters w) <= budget;
  qo_length : N.of_nat (length (ch_queue (w_channel w))) <= capacity;
  qo_capacity : ch_capacity (w_channel w) = capacity;
  qo_lost : ch_open (w_channel w) = true -> w_lost w = 0;
}.

Lemma map_sum_replace (m : gmap N Producer) t p q :
  m !! t = Some p -> map_sum held_by m + held_by q = map_sum held_by (<[t := q]> m) + held_by p.
Proof.
  intros H. rewrite map_sum_insert, (map_sum_delete held_by m t). unfold share. rewrite H. lia.
Qed.

Lemma map_sum_remove (m : gmap N Producer) t p :
  m !! t = Some p -> map_sum held_by m = held_by p + map_sum held_by (delete t m).
Proof. intros H. rewrite (map_sum_delete held_by m t). unfold share. by rewrite H. Qed.

Lemma map_sum_new (m : gmap N Producer) t q :
  m !! t = None -> map_sum held_by (<[t := q]> m) = held_by q + map_sum held_by m.
Proof. intros H. by rewrite map_sum_insert, delete_id. Qed.

Context (Hbudget : budget < USIZE_MAX).

Lemma step_queue_ok capacity w w' : queue_ok capacity w -> step w w' -> queue_ok capacity w'.
Proof.
  intros [Hex Hb Hl Hc Hlost] Hstep. unfold outstanding in Hex.
  destruct Hstep as [w t bytes Ht|w t bytes queued Ht Hlt|w t bytes queued Ht Hle Heq|w t bytes queued Ht Hle
    |w t bytes Ht Hr|w t bytes Ht Hr|w t bytes Ht|w t Ht|w t Ht|w t Ht|w Hr|w q rest Hw Hq|w q Hw|w Hw Hopen];
    (split; unfold outstanding; cbn; try done).
  all: try (pose proof (map_sum_replace _ _ _ (Loaded bytes (queue_bytes (w_counters w))) Ht)).
  all: try (pose proof (map_sum_replace _ _ _ (Reserved bytes) Ht)).
  all: try (pose proof (map_sum_replace _ _ _ (Unsent bytes) Ht)).
  all: try (pose proof (map_sum_replace _ _ _ Released Ht)).
  all: try (pose proof (map_sum_replace _ _ _ Rejected Ht)).
  all: try (pose proof (map_sum_replace _ _ _ Counted Ht)).
  all: try (pose proof (map_sum_remove _ _ _ Ht)).
  all: rewrite ?map_app, ?sum_N_app, ?length_app; cbn [held_by held_queued map sum_N foldr length] in *.
  all: try (rewrite Hw in * ); try (rewrite Hq in * ); cbn [map sum_N foldr held_queued length] in *.
  all: try (unfold has_room in Hr; apply andb_true_iff in Hr as [_ Hr%N.ltb_lt]).
  all: unfold usize_add, saturating_add, saturating_sub, release_queue_bytes in *; cbn in *.
  all: try (rewrite map_sum_new by done; cbn [held_by]).
  all: try lia.
Qed.

Lemma reachable_queue_ok capacity w : reachable capacity w -> queue_ok capacity w.
Proof.
  induction 1 as [|w w' _ IH Hstep]; [|by eapply step_queue_ok].
  split; cbn; try done; lia.
Qed.
End Steps.

(** C14: However producers, queries and the collector interleave, the queue
    counter equals the bytes reserved and not yet released, never exceeds the
    queue budget, the channel never exceeds its capacity, and once nothing is
    in flight the counter is back at zero. *)
Theorem queue_memory_bounded budget capacity w :
  budget < USIZE_MAX -> reachable budget capacity w ->
  queue_bytes (w_counters w) = outstanding w /\
  queue_bytes (w_counters w) <= budget /\
  N.of_nat (length (ch_queue (w_channel w))) <= capacity /\
  (w_producers w = ∅ -> ch_queue (w_channel w) = [] -> w_collector w = None ->
   ch_open (w_channel w) = true -> queue_bytes (w_counters w) = 0).
Proof.
  intros Hb [Hex Hle Hlen _ Hlost]%reachable_queue_ok; [|done]. split_and!; [done..|].
  intros Hp Hq Hc Ho. rewrite Hex. unfold outstanding. rewrite Hp, Hq, Hc, Hlost, map_sum_empty by done.
  done.
Qed.

(** A submission never waits: it is enqueued with its reservation exactly
    when the reservation fits the budget and the channel has room; otherwise
    the queue and its byte counter are unchanged and the drop is counted. *)
Theorem submit_reserves_or_drops {A} budget c (chan : Channel A) command bytes :
  queue_bytes c <= budget -> budget < USIZE_MAX ->
  let fits := queue_bytes c + bytes <=? budget in
  let '(c', chan', accepted) := submit budget c chan command bytes in
  accepted = fits && has_room chan /\
  queue_bytes c' = (if accepted then queue_bytes c + bytes else queue_bytes c) /\
  ch_queue chan' = (if accepted then ch_queue chan ++ [command] else ch_queue chan) /\
  queue_dropped c' = (if accepted then queue_dropped c else wrapping_add64 (queue_dropped c) 1) /\
  queue_memory_dropped c' =
    (if fits then queue_memory_dropped c else wrapping_add64 (queue_memory_dropped c) 1).
Proof.
  intros Hq Hb. cbv zeta. unfold submit, try_reserve.
  destruct (N.ltb_spec budget (queue_bytes c +s bytes)) as [Hlt|Hge]; cbn [negb].
  - replace (queue_bytes c + bytes <=? budget) with false; [by cbn|].
    symmetry. apply N.leb_gt. unfold usize_add, saturating_add in Hlt. lia.
  - replace (queue_bytes c + bytes <=? budget) with true.
    2: { symmetry. apply N.leb_le. unfold usize_add, saturating_add in Hge. lia. }
    unfold usize_add, saturating_add in *.
    unfold try_send. destruct (has_room chan); cbn; split_and!; try done; try lia.
    unfold saturating_sub. lia.
Qed.

Lemma queue_memory_bounded_witness :
  exists w, reachable 100 4 w /\ queue_bytes (w_counters w) = outstanding w /\
    queue_bytes (w_counters w) = 60.
Proof.
  assert (exists w, reachable 100 4 w /\ queue_bytes (w_counters w) = 60) as (w & Hr & Hb).
  { eexists. split.
    - eapply reach_step; [eapply reach_step; [eapply reach_step; [apply reach_init|]|]|].
      + apply (step_load _ _ 7 60). reflexivity.
      + eapply (step_exchange _ _ 7 60); [reflexivity|vm_compute; discriminate|reflexivity].
      + eapply (step_send _ _ 7 60); reflexivity.
    - reflexivity. }
  exists w. split; [exact Hr|].
  destruct (queue_memory_bounded 100 4 w eq_refl Hr) as [H _]. split; [exact H|exact Hb].
Defined.

Lemma submit_reserves_or_drops_witness :
  (submit 100 TraceCounters_new (mkChannel 1 [5] true) 9 40).2 = false /\
  queue_dropped (submit 100 TraceCounters_new (mkChannel 1 [5] true) 9 40).1.1 = 1.
Proof.
  pose proof (submit_reserves_or_drops 100 TraceCounters_new (mkChannel 1 [5] true) 9 40
    ltac:(vm_compute; discriminate) eq_refl) as H.
  split; [|reflexivity]. apply H.
Defined.
