(* ===== verification/TraceJson.v ===== *)
(** * Serialized sessions

    crates/rsproxy-trace/src/serialize.rs: the NDJSON line of a session, and
    crates/rsproxy-rules/src/redact.rs, which removes SOCKS credentials from
    the rule text it contains. *)
From Stdlib Require Import Ascii String.
From stdpp Require Import base numbers list gmap strings.
From S2P Require Import Prelude Utf8 Model TraceModel.

(** ** Redaction (redact.rs) *)

Definition authority_stop (c : char) : bool :=
  is_whitespace c || (c =? ch ")") || (c =? ch ",") || (c =? ch "]").

(** The loop over one scheme; [seen] is the text before [search_from]. *)
Fixpoint redact_loop (scheme : str) (fuel : nat) (seen rest : str) : str :=
  match fuel with
  | O => seen ++ rest
  | S fuel' =>
      match split_once scheme rest with
      | None => seen ++ rest
      | Some (before, tail) =>
          match split_once (lit "@") tail with
          | None => seen ++ rest
          | Some (credentials, after) =>
              let authority_end :=
                match find_split authority_stop tail with
                | Some (p, _) => length p
                | None => length tail
                end in
              if (length credentials <? authority_end)%nat && contains_char (ch ":") credentials &&
                 negb (contains_char (ch "/") credentials)
              then redact_loop scheme fuel' (seen ++ before ++ scheme ++ lit "auth@") after
              else redact_loop scheme fuel' (seen ++ before ++ scheme ++ credentials ++ lit "@") after
          end
      end
  end.

(** Each round consumes an [@], so the length is enough fuel. *)
Definition redact_pass (scheme input : str) : str := redact_loop scheme (S (length input)) [] input.

Definition redact_secrets (input : str) : str :=
  redact_pass (lit "socks://") (redact_pass (lit "socks5://") input).

(** ** JSON text (serialize.rs) *)

(** [format!(...{:04x})] *)
Definition hex4 (n : N) : str :=
  let digits := show_hex n in replicate (4 - length digits) (ch "0") ++ digits.

(** The double quote; written as a code since string literals delimit with it. *)
Definition quote : char := 34.

Definition json_char (c : char) : str :=
  if c =? quote then [ch "\"; quote]
  else if c =? ch "\" then lit "\\"
  else if c =? 10 then lit "\n"
  else if c =? 13 then lit "\r"
  else if c =? 9 then lit "\t"
  else if is_control c then lit "\u" ++ hex4 c
  else [c].

Definition json_string (input : str) : str := quote :: flat_map json_char input ++ [quote].

Definition opt_string (value : option str) : str :=
  match value with Some v => json_string v | None => lit "null" end.
Definition opt_number (value : option N) : str :=
  match value with Some v => show_N v | None => lit "null" end.
Definition show_bool (b : bool) : str := if b then lit "true" else lit "false".

Definition hex_lower (bytes : list N) : str :=
  flat_map (fun b => [digit_char (b / 16); digit_char (b mod 16)]) bytes.

Definition kind_name (k : SessionKind.t) : str :=
  match k with
  | SessionKind.Http => lit "http"
  | SessionKind.Tunnel => lit "tunnel"
  | SessionKind.Sse => lit "sse"
  | SessionKind.WebSocket => lit "websocket"
  end.

Definition direction_name (d : FrameDirection.t) : str :=
  match d with FrameDirection.ClientToServer => lit "c2s" | FrameDirection.ServerToClient => lit "s2c" end.

(** A member of an object, [,"name":value] without the comma. *)
Definition member (name : string) (value : str) : str :=
  quote :: lit name ++ quote :: ch ":" :: value.
Definition members (ms : list str) : str := ch "{" :: join (lit ",") ms ++ lit "}".
Definition array (vs : list str) : str := ch "[" :: join (lit ",") vs ++ lit "]".
(** A fixed word in quotes. *)
Definition quoted (word : str) : str := quote :: word ++ [quote].

Definition headers_json (headers : list (RString * RString)) : str :=
  array (map (fun '(name, value) => array [json_string (items name); json_string (items value)]) headers).

Definition frame_data_json (f : FrameRecord) : str :=
  match fr_data_encoding f with
  | FrameDataEncoding.AsUtf8 => json_string (from_utf8_lossy (items (fr_data f)))
  | FrameDataEncoding.Hex => json_string (hex_lower (items (fr_data f)))
  end.

Definition frame_json (f : FrameRecord) : str :=
  members [
    member "direction" (quoted (direction_name (fr_direction f)));
    member "at_ms" (show_N (fr_at_ms f));
    member "opcode" (json_string (items (fr_opcode f)));
    member "fin" (show_bool (fr_fin f));
    member "payload_len" (show_N (fr_payload_len f));
    member "preview_len" (show_N (FrameRecord_preview_len f));
    member "data_encoding" (quoted (FrameDataEncoding.name (fr_data_encoding f)));
    member "data" (frame_data_json f);
    member "truncated" (show_bool (fr_truncated f))].

Definition tls_json (r : TlsRecord) : str :=
  members [
    member "phase" (json_string (items (tr_phase r)));
    member "host" (json_string (items (tr_host r)));
    member "handshake_ms" (show_N (tr_handshake_ms r));
    member "peer_certificates" (show_N (tr_peer_certificates r));
    member "protocol" (opt_string (items <$> tr_protocol r));
    member "cipher_suite" (opt_string (items <$> tr_cipher_suite r));
    member "alpn" (opt_string (items <$> tr_alpn r));
    member "error" (opt_string (items <$> tr_error r))].

Definition rule_json (rule : MatchedRule) : str :=
  members [
    member "group" (json_string (mr_group rule));
    member "line" (show_N (mr_line rule));
    member "raw" (json_string (redact_secrets (mr_raw rule)))].

Definition spill_session_line (s : Session) : str :=
  members [
    member "id" (show_N (se_id s));
    member "kind" (quoted (kind_name (se_kind s)));
    member "started_ms" (show_N (se_started_ms s));
    member "duration_ms" (show_N (se_duration_ms s));
    member "pool_wait_ms" (show_N (se_pool_wait_ms s));
    member "dns_ms" (show_N (se_dns_ms s));
    member "connect_ms" (show_N (se_connect_ms s));
    member "ttfb_ms" (show_N (se_ttfb_ms s));
    member "request_send_ms" (opt_number (se_request_send_ms s));
    member "response_receive_ms" (opt_number (se_response_receive_ms s));
    member "method" (json_string (items (se_method s)));
    member "url" (json_string (items (se_url s)));
    member "status" (opt_number (se_status s));
    member "client" (json_string (items (se_client s)));
    member "upstream" (opt_string (items <$> se_upstream s));
    member "request_bytes" (show_N (se_request_bytes s));
    member "response_bytes" (show_N (se_response_bytes s));
    member "flags" (array (map (fun flag => json_string (items flag)) (items (se_flags s))));
    member "rules" (array (map rule_json (items (se_matched_rules s))));
    member "req_headers" (headers_json (items (se_req_headers s)));
    member "req_trailers" (headers_json (items (se_req_trailers s)));
    member "req_body_head" (json_string (from_utf8_lossy (items (se_req_body_head s))));
    member "res_headers" (headers_json (items (se_res_headers s)));
    member "res_trailers" (headers_json (items (se_res_trailers s)));
    member "res_body_head" (json_string (from_utf8_lossy (items (se_res_body_head s))));
    member "frames" (array (map frame_json (items (se_frames s))));
    member "tls" (array (map tls_json (items (se_tls s))));
    member "error" (opt_string (items <$> se_error s))].

(** ** Reading JSON strings back *)

Definition hex_value (digits : str) : option N := ok (from_str_radix 16 U32_MAX digits).

(** A reader of JSON string contents up to the closing quote; raw control
    characters are errors. *)
Fixpoint json_chars (s : str) : option (str * str) :=
  match s with
  | [] => None
  | c :: s1 =>
      if c =? quote then Some ([], s1)
      else if c =? ch "\" then
        match s1 with
        | [] => None
        | e :: s2 =>
            if e =? ch "u" then
              match s2 with
              | h1 :: h2 :: h3 :: h4 :: s3 =>
                  x ← hex_value [h1; h2; h3; h4]; '(l, r) ← json_chars s3; Some (x :: l, r)
              | _ => None
              end
            else
              x ← (if e =? quote then Some quote else if e =? ch "\" then Some (ch "\")
                   else if e =? ch "/" then Some (ch "/") else if e =? ch "b" then Some 8
                   else if e =? ch "f" then Some 12 else if e =? ch "n" then Some 10
                   else if e =? ch "r" then Some 13 else if e =? ch "t" then Some 9 else None);
              '(l, r) ← json_chars s2; Some (x :: l, r)
        end
      else if c <? 32 then None
      else '(l, r) ← json_chars s1; Some (c :: l, r)
  end.

Definition json_read_string (s : str) : option (str * str) :=
  match s with c :: s' => if c =? quote then json_chars s' else None | [] => None end.

(** A property of all numbers below a bound, by evaluation. *)
Lemma below_spec (P : N -> bool) (n : nat) :
  forallb (fun i => P (N.of_nat i)) (seq 0 n) = true -> forall c, c < N.of_nat n -> P c = true.
Proof.
  intros H c Hc. rewrite forallb_forall in H. rewrite <- (N2Nat.id c). apply H.
  apply in_seq. lia.
Qed.

Definition hex4_ok (c : N) : bool :=
  match hex4 c with
  | [h1; h2; h3; h4] =>
      bool_decide (hex_value [h1; h2; h3; h4] = Some c) &&
      forallb (fun h => negb (is_control h)) [h1; h2; h3; h4]
  | _ => false
  end.

Lemma hex4_control c : is_control c = true -> hex4_ok c = true.
Proof.
  intros Hc. apply (below_spec hex4_ok 160); [by vm_compute|].
  unfold is_control in Hc. apply orb_true_iff in Hc as [Hc|Hc].
  - apply N.ltb_lt in Hc. lia.
  - apply in_range_spec in Hc. lia.
Qed.

Lemma json_char_read c rest l r :
  json_chars rest = Some (l, r) -> json_chars (json_char c ++ rest) = Some (c :: l, r).
Proof.
  intros H. unfold json_char.
  destruct (N.eqb_spec c quote) as [->|H1];
    [change (json_chars _) with ('(l, r) ← json_chars rest; Some (quote :: l, r)); by rewrite H|].
  destruct (N.eqb_spec c (ch "\")) as [->|H2];
    [change (json_chars _) with ('(l, r) ← json_chars rest; Some (ch "\" :: l, r)); by rewrite H|].
  destruct (N.eqb_spec c 10) as [->|H3];
    [change (json_chars _) with ('(l, r) ← json_chars rest; Some (10 :: l, r)); by rewrite H|].
  destruct (N.eqb_spec c 13) as [->|H4];
    [change (json_chars _) with ('(l, r) ← json_chars rest; Some (13 :: l, r)); by rewrite H|].
  destruct (N.eqb_spec c 9) as [->|H5];
    [change (json_chars _) with ('(l, r) ← json_chars rest; Some (9 :: l, r)); by rewrite H|].
  destruct (is_control c) eqn:Hc.
  - apply hex4_control in Hc. unfold hex4_ok in Hc.
    destruct (hex4 c) as [|h1 [|h2 [|h3 [|h4 [|]]]]]; try done.
    apply andb_true_iff in Hc as [Hc _]. apply bool_decide_eq_true in Hc.
    change (json_chars _) with
      (x ← hex_value [h1; h2; h3; h4]; '(l, r) ← json_chars rest; Some (x :: l, r)).
    by rewrite Hc, H.
  - cbn [app json_chars]. apply N.eqb_neq in H1, H2. rewrite H1, H2.
    unfold is_control in Hc. apply orb_false_iff in Hc as [Hc _]. by rewrite Hc, H.
Qed.

Lemma json_chars_read s rest :
  json_chars (flat_map json_char s ++ quote :: rest) = Some (s, rest).
Proof.
  induction s as [|c s IH]; [done|]. cbn [flat_map]. rewrite <- app_assoc. by apply json_char_read.
Qed.

(** ** Lines contain no control characters *)

Definition clean (s : str) : Prop := Forall (fun c => is_control c = false) s.

Lemma clean_app a b : clean a -> clean b -> clean (a ++ b).
Proof. intros. by apply Forall_app. Qed.
Lemma clean_cons c s : is_control c = false -> clean s -> clean (c :: s).
Proof. by constructor. Qed.
Lemma clean_nil : clean [].
Proof. constructor. Qed.

Lemma clean_check s : forallb (fun c => negb (is_control c)) s = true -> clean s.
Proof.
  intros H. apply Forall_forall. intros c Hc. rewrite forallb_forall in H.
  apply negb_true_iff, H. by apply list_elem_of_In.
Qed.

Lemma clean_json_char c : clean (json_char c).
Proof.
  unfold json_char. repeat (case_goal; [by apply clean_check|]).
  case_goal.
  - apply hex4_control in E4. unfold hex4_ok in E4.
    destruct (hex4 c) as [|h1 [|h2 [|h3 [|h4 [|]]]]]; try done.
    apply andb_true_iff in E4 as [_ Hc]. apply clean_app; [by apply clean_check|by apply clean_check].
  - apply clean_cons; [done|apply clean_nil].
Qed.

Lemma clean_json_string s : clean (json_string s).
Proof.
  apply clean_cons; [done|]. apply clean_app; [|by apply clean_check].
  induction s as [|c s IH]; [constructor|]. cbn. apply clean_app; [apply clean_json_char|done].
Qed.

Lemma digit_char_clean d : d < 16 -> is_control (digit_char d) = false.
Proof.
  intros H. apply negb_true_iff. apply (below_spec (fun d => negb (is_control (digit_char d))) 16); [done|].
  simpl. lia.
Qed.

Lemma clean_show_N n : clean (show_N n).
Proof.
  unfold show_N, to_radix. generalize (S (N.to_nat (N.size n))) as fuel. intros fuel.
  assert (forall acc, clean acc -> clean (digits_aux 10 fuel n acc)) as H; [|apply H, clean_nil].
  revert n. induction fuel as [|fuel IH]; intros n acc Hacc; cbn [digits_aux]; [done|].
  assert (clean (digit_char (n mod 10) :: acc)) as H1.
  { apply clean_cons; [|done]. apply digit_char_clean. pose proof (N.mod_lt n 10). lia. }
  destruct (N.ltb_spec n 10); [|by apply IH].
  apply clean_cons; [apply digit_char_clean; lia|done].
Qed.

Lemma clean_join sep l : clean sep -> Forall clean l -> clean (join sep l).
Proof.
  intros Hs. induction 1 as [|s l H Hl IH]; [constructor|]. simpl.
  destruct l; [done|]. by repeat apply clean_app.
Qed.

Lemma clean_members ms : Forall clean ms -> clean (members ms).
Proof.
  intros H. apply clean_cons; [done|]. apply clean_app; [|by apply clean_check].
  apply clean_join; [by apply clean_check|done].
Qed.

Lemma clean_array vs : Forall clean vs -> clean (array vs).
Proof.
  intros H. apply clean_cons; [done|]. apply clean_app; [|by apply clean_check].
  apply clean_join; [by apply clean_check|done].
Qed.

Lemma clean_array_map {A} (f : A -> str) l : (forall x, clean (f x)) -> clean (array (map f l)).
Proof. intros H. apply clean_array, Forall_map, Forall_true. intros x. apply H. Qed.

Lemma clean_member name value :
  forallb (fun c => negb (is_control c)) (lit name) = true -> clean value -> clean (member name value).
Proof.
  intros Hn Hv. apply clean_cons; [done|]. apply clean_app; [by apply clean_check|].
  by repeat (apply clean_cons; [done|]).
Qed.

Lemma clean_quoted w : clean w -> clean (quoted w).
Proof. intros H. apply clean_cons; [done|]. apply clean_app; [done|by apply clean_check]. Qed.

Lemma clean_opt_string v : clean (opt_string v).
Proof. destruct v; [apply clean_json_string|by apply clean_check]. Qed.
Lemma clean_opt_number v : clean (opt_number v).
Proof. destruct v; [apply clean_show_N|by apply clean_check]. Qed.
Lemma clean_show_bool b : clean (show_bool b).
Proof. by destruct b; apply clean_check. Qed.
Lemma clean_kind k : clean (kind_name k).
Proof. by destruct k; apply clean_check. Qed.
Lemma clean_direction d : clean (direction_name d).
Proof. by destruct d; apply clean_check. Qed.
Lemma clean_encoding d : clean (FrameDataEncoding.name d).
Proof. by destruct d; apply clean_check. Qed.

Create HintDb clean.
#[export] Hint Resolve clean_json_string clean_show_N clean_members clean_array clean_array_map
  clean_quoted clean_opt_string clean_opt_number clean_show_bool clean_kind clean_direction
  clean_encoding clean_nil : clean.

(** An object whose member names are literals. *)
Ltac clean_object :=
  apply clean_members; repeat (apply Forall_cons; split; [apply clean_member; [reflexivity|]|]);
  [..|apply Forall_nil; exact I]; auto with clean.

Lemma clean_headers hs : clean (headers_json hs).
Proof.
  apply clean_array_map. intros [n v]. apply clean_array.
  repeat (apply Forall_cons; split; [apply clean_json_string|]). by apply Forall_nil.
Qed.
Lemma clean_frame_data f : clean (frame_data_json f).
Proof. unfold frame_data_json. destruct (fr_data_encoding f); apply clean_json_string. Qed.
#[export] Hint Resolve clean_headers clean_frame_data : clean.

Lemma clean_frame f : clean (frame_json f).
Proof. unfold frame_json. clean_object. Qed.
Lemma clean_tls r : clean (tls_json r).
Proof. unfold tls_json. clean_object. Qed.
Lemma clean_rule r : clean (rule_json r).
Proof. unfold rule_json. clean_object. Qed.
#[export] Hint Resolve clean_frame clean_tls clean_rule : clean.

Lemma clean_session_line s : clean (spill_session_line s).
Proof. unfold spill_session_line. clean_object. Qed.

(** ** Redaction *)

Lemma split_once_shorter p s a b : p <> [] -> split_once p s = Some (a, b) -> (length b < length s)%nat.
Proof.
  intros Hp ->%split_once_Some. rewrite !length_app. destruct p; [done|]. simpl. lia.
Qed.

Lemma redact_loop_seen scheme fuel seen rest :
  redact_loop scheme fuel seen rest = seen ++ redact_loop scheme fuel [] rest.
Proof.
  revert seen rest. induction fuel as [|fuel IH]; intros seen rest; simpl; [done|].
  destruct (split_once scheme rest) as [[b t]|]; [|done].
  destruct (split_once (lit "@") t) as [[c a]|]; [|done].
  case_goal; rewrite IH; symmetry; rewrite IH; symmetry; by rewrite <- !app_assoc.
Qed.

(** More fuel than characters changes nothing. *)
Lemma redact_loop_fuel scheme fuel fuel' seen rest :
  (length rest < fuel)%nat -> (length rest < fuel')%nat ->
  redact_loop scheme fuel seen rest = redact_loop scheme fuel' seen rest.
Proof.
  revert fuel' seen rest. induction fuel as [|fuel IH]; intros [|fuel'] seen rest H1 H2; try lia.
  cbn [redact_loop]. destruct (split_once scheme rest) as [[b t]|] eqn:E1; [|done].
  destruct (split_once (lit "@") t) as [[c a]|] eqn:E2; [|done].
  apply split_once_Some in E1. apply split_once_shorter in E2; [|done]. subst rest.
  rewrite !length_app in *. case_goal; apply IH; lia.
Qed.

(** Redaction replaces the credentials of the first SOCKS authority by the
    marker [auth] and goes on behind it, whenever the text before the [@] is a
    user and password without a slash and without an authority terminator. *)
Theorem redact_replaces_credentials scheme input before credentials after :
  split_once scheme input = Some (before, credentials ++ ch "@" :: after) ->
  ch "@" ∉ credentials -> ch ":" ∈ credentials -> ch "/" ∉ credentials ->
  Forall (fun c => authority_stop c = false) credentials ->
  redact_pass scheme input = before ++ scheme ++ lit "auth@" ++ redact_pass scheme after.
Proof.
  intros Hs Hat Hcolon Hslash Hstop. unfold redact_pass at 1. cbn [redact_loop]. rewrite Hs.
  change (lit "@") with [ch "@"]. rewrite split_once_char_first by done.
  assert ((length credentials < match find_split authority_stop (credentials ++ ch "@" :: after) with
    | Some (p, _) => length p | None => length (credentials ++ ch "@" :: after) end)%nat) as Hend.
  { destruct (find_split authority_stop _) as [[p q]|] eqn:Ef; [|rewrite length_app; simpl; lia].
    apply find_split_Some in Ef as (E & _ & c & r & -> & Hc).
    destruct (decide (length p <= length credentials)%nat) as [Hle|]; [|lia]. exfalso.
    assert ((credentials ++ ch "@" :: after) !! length p = Some c) as Hl.
    { rewrite E. rewrite lookup_app_r by lia. by rewrite Nat.sub_diag. }
    destruct (decide (length p < length credentials)%nat).
    - rewrite lookup_app_l in Hl by done. rewrite Forall_forall in Hstop.
      rewrite (Hstop c) in Hc by (by eapply list_elem_of_lookup_2). done.
    - rewrite lookup_app_r in Hl by lia. replace (length p - length credentials)%nat with 0%nat in Hl by lia.
      injection Hl as <-. done. }
  apply Nat.ltb_lt in Hend. rewrite Hend. cbn [andb].
  apply contains_char_true in Hcolon. apply contains_char_false in Hslash. rewrite Hcolon, Hslash. cbn [andb negb].
  rewrite redact_loop_seen. rewrite !app_nil_l, <- !app_assoc. do 3 f_equal.
  unfold redact_pass. apply redact_loop_fuel; [|lia].
  apply split_once_Some in Hs. subst input. rewrite !length_app. simpl. lia.
Qed.

(** A SOCKS authority without credentials shields the next one: when a
    second SOCKS URL with credentials follows it, the search resumes behind the
    second URL's [@] and its password is left in the output. *)
Theorem redact_misses_second_authority :
  redact_secrets (lit "socks5://a:1 socks5://user:pw@b") = lit "socks5://a:1 socks5://user:pw@b" /\
  redact_secrets (lit "socks5://user:pw@b") = lit "socks5://auth@b".
Proof. by vm_compute. Qed.

(** A serialized string reads back as the original text, with the reader
    positioned behind its closing quote, whatever characters it contains. *)
Theorem json_string_roundtrip s rest :
  json_read_string (json_string s ++ rest) = Some (s, rest).
Proof.
  unfold json_string. cbn [app json_read_string]. rewrite <- app_assoc.
  change (quote =? quote) with true. cbn. apply json_chars_read.
Qed.

(** The serialized line of any session contains no control character, in
    particular no line break, so that one spilled session is one line. *)
Theorem session_line_is_one_line s :
  Forall (fun c => is_control c = false) (spill_session_line s).
Proof. apply clean_session_line. Qed.

Lemma redact_replaces_credentials_witness :
  redact_pass (lit "socks5://") (lit "x socks5://u:p@h y") =
  lit "x " ++ lit "socks5://" ++ lit "auth@" ++ redact_pass (lit "socks5://") (lit "h y").
Proof.
  apply (redact_replaces_credentials (lit "socks5://") (lit "x socks5://u:p@h y") (lit "x ") (lit "u:p") (lit "h y")).
  - by vm_compute.
  - apply contains_char_false. by vm_compute.
  - apply contains_char_true. by vm_compute.
  - apply contains_char_false. by vm_compute.
  - by repeat constructor.
Defined.
