(* ===== verification/TraceSpill.v ===== *)
(** * Disk spill of trace sessions

    crates/rsproxy-trace/src/spill.rs with spill/codec.rs, spill/path.rs and
    spill/read.rs: numbered NDJSON segments with integrity indexes, budgeted by
    evicting whole oldest segments, and the verified reader.  The zstd codec is
    a third-party library and a parameter. *)
From Stdlib Require Import Ascii String.
From stdpp Require Import base numbers list gmap strings.
From S2P Require Import Prelude Utf8 Model TraceModel TraceJson Format Io Disk.

(** ** Records (spill.rs) *)

Module TraceSpillCompression.
Inductive t := NoCompression | Zstd (level : Z).
#[global] Instance eq_dec : EqDecision t.
Proof. solve_decision. Defined.
Definition name (c : t) : str :=
  match c with NoCompression => lit "none" | Zstd _ => lit "zstd" end.
End TraceSpillCompression.

Record TraceSpillConfig := mkTraceSpillConfig {
  sc_dir : str;
  sc_segment_bytes : N;
  sc_disk_budget_bytes : N;
  sc_compression : TraceSpillCompression.t;
}.

Definition TraceSpillConfig_new (dir : str) (segment_bytes disk_budget_bytes : N) : TraceSpillConfig :=
  mkTraceSpillConfig dir (N.max segment_bytes 1) disk_budget_bytes TraceSpillCompression.NoCompression.

Definition with_compression (c : TraceSpillConfig) (compression : TraceSpillCompression.t)
    : TraceSpillConfig :=
  mkTraceSpillConfig (sc_dir c) (sc_segment_bytes c) (sc_disk_budget_bytes c) compression.

Record SpillSegment := mkSpillSegment {
  sg_index : N;
  sg_path : Path;
  sg_compression : TraceSpillCompression.t;
  sg_bytes : N;
  sg_idx_path : Path;
  sg_index_bytes : N;
  sg_indexed_records : N;
}.

Record TraceSpillState := mkTraceSpillState {
  sp_dir : str;
  sp_segment_bytes : N;
  sp_disk_budget_bytes : N;
  sp_compression : TraceSpillCompression.t;
  sp_next_segment : N;
  sp_segments : list SpillSegment;
  sp_bytes_on_disk : N;
  sp_evicted_segments : N;
  sp_initialized : bool;
}.

Definition TraceSpillState_new (c : TraceSpillConfig) : TraceSpillState :=
  mkTraceSpillState (sc_dir c) (N.max (sc_segment_bytes c) 1) (sc_disk_budget_bytes c)
    (sc_compression c) 1 [] 0 0 false.

(** ** Names (path.rs) *)

Definition segment_path (dir : str) (index : N) (compression : TraceSpillCompression.t) : Path :=
  (dir, lit "seg-" ++ pad0 12 (show_N index) ++
        match compression with
        | TraceSpillCompression.NoCompression => lit ".ndjson"
        | TraceSpillCompression.Zstd _ => lit ".ndjson.zst"
        end).

Definition index_path_for_segment (path : Path) : Path := (path.1, path.2 ++ lit ".idx").
Definition segment_index_path (dir : str) (index : N) (compression : TraceSpillCompression.t) : Path :=
  index_path_for_segment (segment_path dir index compression).

Definition parse_segment_name (name : str) : option (N * TraceSpillCompression.t) :=
  match strip_suffix (lit ".ndjson.zst") name with
  | Some stem =>
      digits ← strip_prefix (lit "seg-") stem;
      index ← ok (parse_uint U64_MAX digits);
      Some (index, TraceSpillCompression.Zstd 1)
  | None =>
      rest ← strip_prefix (lit "seg-") name;
      digits ← strip_suffix (lit ".ndjson") rest;
      index ← ok (parse_uint U64_MAX digits);
      Some (index, TraceSpillCompression.NoCompression)
  end.

Definition parse_segment_index (name : str) : option N := fst <$> parse_segment_name name.

Definition index_metadata (path : Path) : Io (N * N) := fun d =>
  match metadata_len path d with
  | (d, Ok bytes) =>
      match read_file path d with
      | (d, Ok body) => (d, Ok (bytes, N.of_nat (length (List.filter (N.eqb 10) body))))
      | (d, Err e) => (d, Err e)
      end
  | (d, Err e) => if is_not_found e then (d, Ok (0, 0)) else (d, Err e)
  end.

Definition active_or_next_path (s : TraceSpillState) : Path :=
  match last (sp_segments s) with
  | Some segment => sg_path segment
  | None => segment_path (sp_dir s) (sp_next_segment s) (sp_compression s)
  end.

(** ** Records on disk (codec.rs) *)

(** The [zstd] crate. *)
Class ZstdCodec := {
  zstd_encode_all : Z -> list N -> Result IoError (list N);
  zstd_decode_all : list N -> Result IoError (list N);
}.

(** Its documented law: decoding restores what was encoded. *)
Class ZstdLaws (Zc : ZstdCodec) : Prop := {
  zstd_roundtrip level input output :
    zstd_encode_all level input = Ok output -> zstd_decode_all output = Ok input;
}.

Definition crc_bit (crc : N) : N :=
  let mask := (2 ^ 32 - N.land crc 1) mod 2 ^ 32 in
  N.lxor (N.shiftr crc 1) (N.land 3988292384 mask).

Definition crc_byte (crc byte : N) : N := Nat.iter 8 crc_bit (N.lxor crc byte).

Definition crc32 (bytes : list N) : N := N.lxor (fold_left crc_byte bytes U32_MAX) U32_MAX.

Record SpillIndexEntry := mkSpillIndexEntry { ie_offset : N; ie_len : N; ie_crc : N }.

Definition parse_index_entry (line : str) : option SpillIndexEntry :=
  match split_whitespace line with
  | offset :: rest =>
      offset ← ok (parse_uint USIZE_MAX offset);
      match rest with
      | len :: rest =>
          len ← ok (parse_uint USIZE_MAX len);
          match rest with
          | id :: rest =>
              _ ← ok (parse_uint U64_MAX id);
              match rest with
              | crc :: _ =>
                  crc ← ok (from_str_radix 16 U32_MAX crc); Some (mkSpillIndexEntry offset len crc)
              | [] => None
              end
          | [] => None
          end
      | [] => None
      end
  | [] => None
  end.

(** [format!("{offset} {index_len} {id} {crc:08x}\n")] *)
Definition index_line (offset index_len id crc : N) : str :=
  show_N offset ++ ch " " :: show_N index_len ++ ch " " :: show_N id ++ ch " " :: pad0 8 (show_hex crc) ++ [10].

(** Code on the disk and the spill state. *)
Abbreviation SpillM := (StateR (Disk * TraceSpillState) IoError) (only parsing).

Section Spill.
Context {Zc : ZstdCodec}.

Definition encode_spill_record (line : list N) (compression : TraceSpillCompression.t)
    : Result IoError (list N) :=
  match compression with
  | TraceSpillCompression.NoCompression => Ok (line ++ [10])
  | TraceSpillCompression.Zstd level => zstd_encode_all level (line ++ [10])
  end.

Definition decode_indexed_record (compression : TraceSpillCompression.t) (record : list N)
    : Result IoError (list N) :=
  match compression with
  | TraceSpillCompression.NoCompression => Ok record
  | TraceSpillCompression.Zstd _ =>
      match zstd_decode_all record with
      | Ok decoded =>
          match strip_suffix [10] decoded with
          | Some payload => Ok payload
          | None => Err (mkIoError InvalidData
                           (lit "compressed spill record is missing trailing newline"))
          end
      | Err e => Err e
      end
  end.

(** ** The segment set (spill.rs) *)

Definition on_disk {A} (op : Io A) : SpillM A := fun '(d, s) =>
  let '(d, r) := op d in ((d, s), r).
Definition get_spill : SpillM TraceSpillState := fun w => (w, Ok w.2).
Definition put_spill (s : TraceSpillState) : SpillM unit := fun w => ((w.1, s), Ok tt).

Definition set_segments (s : TraceSpillState) (segments : list SpillSegment) (bytes_on_disk evicted : N)
    : TraceSpillState :=
  mkTraceSpillState (sp_dir s) (sp_segment_bytes s) (sp_disk_budget_bytes s) (sp_compression s)
    (sp_next_segment s) segments bytes_on_disk evicted (sp_initialized s).

Definition start_spill_segment (s : TraceSpillState) : TraceSpillState :=
  let index := sp_next_segment s in
  mkTraceSpillState (sp_dir s) (sp_segment_bytes s) (sp_disk_budget_bytes s) (sp_compression s)
    (wrapping_add64 index 1)
    (sp_segments s ++
     [mkSpillSegment index (segment_path (sp_dir s) index (sp_compression s)) (sp_compression s) 0
        (segment_index_path (sp_dir s) index (sp_compression s)) 0 0])
    (sp_bytes_on_disk s) (sp_evicted_segments s) (sp_initialized s).

(** Removal of a file that may be gone already; other errors name the file. *)
Definition path_display (path : Path) : str := path.1 ++ ch "/" :: path.2.

Definition remove_if_present (verb : string) (path : Path) : Io unit := fun d =>
  match remove_file path d with
  | (d, Ok _) => (d, Ok tt)
  | (d, Err e) =>
      if is_not_found e then (d, Ok tt)
      else (d, Err (mkIoError (io_kind e)
                      (lit verb ++ ch " " :: path_display path ++ lit ": " ++ io_message e)))
  end.

(** The eviction loop; every round pops a segment. *)
Fixpoint evict_segments (fuel : nat) : SpillM unit :=
  match fuel with
  | O => mret tt
  | S fuel' =>
      s ← get_spill;
      if (sp_disk_budget_bytes s <? sp_bytes_on_disk s) && (1 <? N.of_nat (length (sp_segments s))) then
        match sp_segments s with
        | [] => mret tt
        | segment :: rest =>
            put_spill (set_segments s rest (sp_bytes_on_disk s) (sp_evicted_segments s)) ;;
            on_disk (remove_if_present "remove" (sg_path segment)) ;;
            on_disk (remove_if_present "remove" (sg_idx_path segment)) ;;
            put_spill (set_segments s rest
              (saturating_sub (sp_bytes_on_disk s) (wrapping_add64 (sg_bytes segment) (sg_index_bytes segment)))
              (wrapping_add64 (sp_evicted_segments s) 1)) ;;
            evict_segments fuel'
        end
      else mret tt
  end.

Definition enforce_spill_budget : SpillM unit :=
  s ← get_spill;
  if sp_disk_budget_bytes s =? 0 then mret tt else evict_segments (length (sp_segments s)).

(** The directory scan of [ensure_spill_initialized]. *)
Fixpoint scan_segments (dir : str) (names : list str) : Io (list SpillSegment) :=
  match names with
  | [] => mret []
  | name :: names' =>
      match parse_segment_name name with
      | None => scan_segments dir names'
      | Some (index, compression) =>
          let path := (dir, name) in
          bytes ← metadata_len path;
          let idx_path := index_path_for_segment path in
          '(index_bytes, indexed_records) ← index_metadata idx_path;
          rest ← scan_segments dir names';
          mret (mkSpillSegment index path compression bytes idx_path index_bytes indexed_records :: rest)
      end
  end.

Fixpoint insert_segment (g : SpillSegment) (l : list SpillSegment) : list SpillSegment :=
  match l with
  | [] => [g]
  | h :: l' => if sg_index g <=? sg_index h then g :: l else h :: insert_segment g l'
  end.
(** [sort_by_key(|segment| segment.index)], a stable sort. *)
Definition sort_segments (l : list SpillSegment) : list SpillSegment := foldr insert_segment [] l.

Definition ensure_spill_initialized : SpillM unit :=
  s ← get_spill;
  if sp_initialized s then mret tt
  else
    on_disk (create_dir_all (sp_dir s)) ;;
    names ← on_disk (read_dir (sp_dir s));
    segments ← on_disk (scan_segments (sp_dir s) names);
    let segments := sort_segments segments in
    let bytes := fold_left wrapping_add64
                   (map (fun g => wrapping_add64 (sg_bytes g) (sg_index_bytes g)) segments) 0 in
    let next := match last segments with
                | Some g => saturating_add U64_MAX (sg_index g) 1
                | None => 1
                end in
    put_spill (mkTraceSpillState (sp_dir s) (sp_segment_bytes s) (sp_disk_budget_bytes s)
      (sp_compression s) next segments bytes (sp_evicted_segments s) true) ;;
    enforce_spill_budget.

Definition needs_new_segment (s : TraceSpillState) (record_bytes : N) : bool :=
  is_emptyb (sp_segments s) ||
  match last (sp_segments s) with
  | Some g =>
      negb (bool_decide (sg_compression g = sp_compression s)) ||
      ((0 <? sg_bytes g) && (sp_segment_bytes s <? wrapping_add64 (sg_bytes g) record_bytes))
  | None => false
  end.

(** The accounting after a record of [record_bytes] and an index line of
    [index_len] bytes were written to the active segment. *)
Definition note_append (s : TraceSpillState) (g : SpillSegment) (record_bytes index_len : N)
    : TraceSpillState :=
  set_segments s
    (removelast (sp_segments s) ++
     [mkSpillSegment (sg_index g) (sg_path g) (sg_compression g) (wrapping_add64 (sg_bytes g) record_bytes)
        (sg_idx_path g) (wrapping_add64 (sg_index_bytes g) index_len)
        (wrapping_add64 (sg_indexed_records g) 1)])
    (wrapping_add64 (sp_bytes_on_disk s) (wrapping_add64 record_bytes index_len))
    (sp_evicted_segments s).

Definition append_spill (session : Session) : SpillM unit :=
  ensure_spill_initialized ;;
  s ← get_spill;
  let line := encode (spill_session_line session) in
  record ← lift_result (encode_spill_record line (sp_compression s));
  let record_bytes := N.of_nat (length record) in
  (if needs_new_segment s record_bytes then put_spill (start_spill_segment s) else mret tt) ;;
  s ← get_spill;
  match last (sp_segments s) with
  | None => lift_result (Err (mkIoError OtherIo (lit "initialized spill state must contain an active segment")))
  | Some g =>
      let crc := crc32 line in
      on_disk (open_append (sg_path g)) ;;
      on_disk (write_all (sg_path g) record) ;;
      let index_len := match sp_compression s with
                       | TraceSpillCompression.NoCompression => N.of_nat (length line)
                       | TraceSpillCompression.Zstd _ => record_bytes
                       end in
      let text := encode (index_line (sg_bytes g) index_len (se_id session) crc) in
      on_disk (open_append (sg_idx_path g)) ;;
      on_disk (write_all (sg_idx_path g) text) ;;
      put_spill (note_append s g record_bytes (N.of_nat (length text))) ;;
      enforce_spill_budget
  end.

Definition is_spill_name (name : str) : bool :=
  is_some (parse_segment_index name) ||
  is_some (parse_segment_name (unwrap_or (strip_suffix (lit ".idx") name) name)) ||
  (name =s? lit "sessions.ndjson").

Fixpoint remove_spill_files (dir : str) (names : list str) : Io unit :=
  match names with
  | [] => mret tt
  | name :: names' =>
      (if is_spill_name name then remove_if_present "clear" (dir, name) else mret tt) ;;
      remove_spill_files dir names'
  end.

Definition clear_spill : SpillM unit :=
  s ← get_spill;
  on_disk (create_dir_all (sp_dir s)) ;;
  names ← on_disk (read_dir (sp_dir s));
  on_disk (remove_spill_files (sp_dir s) names) ;;
  put_spill (mkTraceSpillState (sp_dir s) (sp_segment_bytes s) (sp_disk_budget_bytes s)
    (sp_compression s) 1 [] 0 0 true).

(** ** The verified reader (read.rs) *)

Record SpillReadSegment := mkSpillReadSegment {
  rd_data : list N;
  rd_index : option (list N);
  rd_compression : TraceSpillCompression.t;
  rd_data_len : N;
  rd_index_len : N;
}.

Definition SpillReadSegment_open (g : SpillSegment) : Io SpillReadSegment := fun d =>
  match read_file (sg_path g) d with
  | (d, Ok data) =>
      match read_file (sg_idx_path g) d with
      | (d, Ok index) => (d, Ok (mkSpillReadSegment data (Some index) (sg_compression g) (sg_bytes g) (sg_index_bytes g)))
      | (d, Err e) =>
          if is_not_found e
          then (d, Ok (mkSpillReadSegment data None (sg_compression g) (sg_bytes g) (sg_index_bytes g)))
          else (d, Err e)
      end
  | (d, Err e) => (d, Err e)
  end.

Fixpoint open_segments (gs : list SpillSegment) : Io (list SpillReadSegment) :=
  match gs with
  | [] => mret []
  | g :: gs' => r ← SpillReadSegment_open g; rest ← open_segments gs'; mret (r :: rest)
  end.

Definition spill_read_snapshot : SpillM (list SpillReadSegment) :=
  ensure_spill_initialized ;;
  s ← get_spill;
  on_disk (open_segments (sp_segments s)).

Definition read_legacy_segment (compression : TraceSpillCompression.t) (data : list N)
    : Result IoError (list N) :=
  match compression with
  | TraceSpillCompression.NoCompression => Ok data
  | TraceSpillCompression.Zstd _ => zstd_decode_all data
  end.

Definition valid_bounds (compression : TraceSpillCompression.t) (data : list N) (stop : N) : bool :=
  match compression with
  | TraceSpillCompression.NoCompression =>
      (stop <=? N.of_nat (length data)) &&
      match data !! N.to_nat stop with
      | Some byte => byte =? 10
      | None => stop =? N.of_nat (length data)
      end
  | TraceSpillCompression.Zstd _ => stop <=? N.of_nat (length data)
  end.

(** One index line: the payload it vouches for, or [None] when it is corrupt. *)
Definition read_entry (compression : TraceSpillCompression.t) (data : list N) (line : str)
    : option (list N) :=
  entry ← parse_index_entry line;
  let stop := ie_offset entry +s ie_len entry in
  if negb (valid_bounds compression data stop) then None
  else
    let record := take (N.to_nat (stop - ie_offset entry)) (drop (N.to_nat (ie_offset entry)) data) in
    payload ← ok (decode_indexed_record compression record);
    if crc32 payload =? ie_crc entry then Some payload else None.

Definition read_entries (compression : TraceSpillCompression.t) (data : list N) (ls : list str)
    : list N * N :=
  fold_left (fun '(out, corrupt) line =>
    match read_entry compression data line with
    | Some payload => (out ++ payload ++ [10], corrupt)
    | None => (out, saturating_add U64_MAX corrupt 1)
    end) ls ([], 0).

Definition read_snapshot_segment (r : SpillReadSegment) : Result IoError (list N * N) :=
  let data := take (N.to_nat (rd_data_len r)) (rd_data r) in
  match rd_index r with
  | None => match read_legacy_segment (rd_compression r) data with
            | Ok body => Ok (body, 0)
            | Err e => Err e
            end
  | Some index =>
      match from_utf8 (take (N.to_nat (rd_index_len r)) index) with
      | Some text => Ok (read_entries (rd_compression r) data (lines text))
      | None => Err (mkIoError InvalidData (lit "invalid utf-8 sequence"))
      end
  end.

Fixpoint read_verified_snapshot_from (body : list N) (corrupt : N) (rs : list SpillReadSegment)
    : Result IoError (list N * N) :=
  match rs with
  | [] => Ok (body, corrupt)
  | r :: rs' =>
      match read_snapshot_segment r with
      | Ok (segment_body, segment_corrupt) =>
          read_verified_snapshot_from (body ++ segment_body)
            (saturating_add U64_MAX corrupt segment_corrupt) rs'
      | Err e => Err e
      end
  end.
Definition read_verified_snapshot (rs : list SpillReadSegment) : Result IoError (list N * N) :=
  read_verified_snapshot_from [] 0 rs.
End Spill.
