(* ===== verification/SpillProofs.v ===== *)
(** * The spill store keeps and returns what it is given

    Segment names parse back, checksums detect any damage within one byte,
    appending preserves the layout of segments and indexes, and the verified
    reader returns the retained records. *)
From Stdlib Require Import Ascii String.
From stdpp Require Import base numbers list gmap strings.
From S2P Require Import Prelude Utf8 Model TraceModel TraceMemory TraceJson Format Io Disk TraceSpill.

(** ** Names *)

(** Compression as a name records it: the level is not part of it. *)
Definition named_compression (c : TraceSpillCompression.t) : TraceSpillCompression.t :=
  match c with
  | TraceSpillCompression.NoCompression => TraceSpillCompression.NoCompression
  | TraceSpillCompression.Zstd _ => TraceSpillCompression.Zstd 1
  end.

Lemma strip_suffix_miss p s : ends_with p s = false -> strip_suffix p s = None.
Proof. unfold ends_with. by destruct (strip_suffix p s). Qed.

Lemma last_app_ne {A} (l k : list A) : k <> [] -> last (l ++ k) = last k.
Proof.
  intros Hk. destruct (exists_last Hk) as (k' & x & ->). by rewrite app_assoc, !last_snoc.
Qed.

Lemma ends_with_last p s x y :
  last p = Some x -> last s = Some y -> x <> y -> ends_with p s = false.
Proof.
  intros Hp Hs Hne. apply not_true_iff_false. intros (r & ->)%ends_with_true.
  rewrite last_app_ne in Hs by (by intros ->). congruence.
Qed.

Lemma parse_segment_path dir index c :
  index <= U64_MAX ->
  parse_segment_name (segment_path dir index c).2 = Some (index, named_compression c).
Proof.
  intros Hi. unfold parse_segment_name, segment_path. cbn [snd].
  assert (ok (parse_uint U64_MAX (pad0 12 (show_N index))) = Some index) as Hp.
  { unfold parse_uint, show_N. by rewrite from_str_radix_pad0. }
  destruct c; cbn [named_compression].
  - rewrite strip_suffix_miss.
    2: { eapply ends_with_last; [reflexivity|rewrite app_assoc, last_app_ne by done; reflexivity|done]. }
    rewrite strip_prefix_app. cbn [mbind option_bind]. rewrite strip_suffix_app. cbn [mbind option_bind].
    by rewrite Hp.
  - rewrite app_assoc, strip_suffix_app, strip_prefix_app. cbn [mbind option_bind]. by rewrite Hp.
Qed.

Lemma segment_path_inj dir i j c c' :
  i <= U64_MAX -> j <= U64_MAX -> segment_path dir i c = segment_path dir j c' -> i = j.
Proof.
  intros Hi Hj E. pose proof (parse_segment_path dir i c Hi) as H1.
  rewrite E, parse_segment_path in H1 by done. congruence.
Qed.

Lemma segment_index_path_inj dir i j c c' :
  i <= U64_MAX -> j <= U64_MAX -> segment_index_path dir i c = segment_index_path dir j c' -> i = j.
Proof.
  intros Hi Hj E. apply (segment_path_inj dir i j c c' Hi Hj).
  unfold segment_index_path, index_path_for_segment in E. injection E as E.
  apply app_inj_2 in E as [E _]; [|done]. unfold segment_path in *. do 2 f_equal. exact E.
Qed.

Lemma segment_path_not_index dir i j c c' : segment_path dir i c <> segment_index_path dir j c'.
Proof.
  unfold segment_index_path, index_path_for_segment, segment_path. cbn [fst snd]. intros E.
  injection E as E. apply (f_equal last) in E. rewrite ?app_assoc in E.
  destruct c; rewrite !last_app_ne in E by done; done.
Qed.

(** A segment's number and compression are recovered from the name it is
    written under, and no two numbers share a data or an index file. *)
Theorem segment_names_roundtrip dir index c :
  index <= U64_MAX ->
  parse_segment_name (segment_path dir index c).2 = Some (index, named_compression c) /\
  (forall j c', j <= U64_MAX -> j <> index ->
    segment_path dir j c' <> segment_path dir index c /\
    segment_index_path dir j c' <> segment_index_path dir index c /\
    segment_path dir j c' <> segment_index_path dir index c).
Proof.
  intros Hi. split; [by apply parse_segment_path|]. intros j c' Hj Hne. split_and!.
  - intros E. by apply Hne, (segment_path_inj dir j index c' c).
  - intros E. by apply Hne, (segment_index_path_inj dir j index c' c).
  - apply segment_path_not_index.
Qed.

(** ** Checksums *)

(** One bit step moves the low bit to the top and is therefore reversible. *)
Lemma crc_bit_spec crc :
  crc < 2 ^ 32 ->
  crc_bit crc = if N.odd crc then N.lxor (N.shiftr crc 1) 3988292384 else N.shiftr crc 1.
Proof.
  intros Hc. unfold crc_bit. change 1 with (N.ones 1) at 2. rewrite N.land_ones.
  change (2 ^ 1) with 2. rewrite <- N.bit0_mod, N.bit0_odd.
  destruct (N.odd crc); cbn [N.b2n].
  - change ((2 ^ 32 - 1) mod 2 ^ 32) with U32_MAX. by change (N.land 3988292384 U32_MAX) with 3988292384.
  - change ((2 ^ 32 - 0) mod 2 ^ 32) with 0. by rewrite N.land_0_r, N.lxor_0_r.
Qed.

Lemma lt_pow2_testbit n k : n < 2 ^ k <-> forall i, k <= i -> N.testbit n i = false.
Proof.
  split.
  - intros H i Hi. destruct (N.eq_dec n 0) as [->|Hn]; [apply N.bits_0|].
    apply N.bits_above_log2. apply N.log2_lt_pow2; [lia|]. eapply N.lt_le_trans; [exact H|].
    apply N.pow_le_mono_r; lia.
  - intros H. destruct (N.eq_dec n 0) as [->|Hn]; [apply N.neq_0_lt_0; by apply N.pow_nonzero|].
    apply N.log2_lt_pow2; [lia|]. destruct (N.lt_ge_cases (N.log2 n) k) as [|Hge]; [done|].
    specialize (H _ Hge). by rewrite N.bit_log2 in H.
Qed.

Lemma lxor_lt a b k : a < 2 ^ k -> b < 2 ^ k -> N.lxor a b < 2 ^ k.
Proof.
  intros Ha Hb. apply lt_pow2_testbit. intros i Hi. rewrite N.lxor_spec.
  rewrite (proj1 (lt_pow2_testbit a k) Ha i Hi), (proj1 (lt_pow2_testbit b k) Hb i Hi). done.
Qed.

Lemma shiftr_lt a : a < 2 ^ 32 -> N.shiftr a 1 < 2 ^ 31.
Proof.
  intros H. apply lt_pow2_testbit. intros i Hi. rewrite N.shiftr_spec by lia.
  apply (proj1 (lt_pow2_testbit a 32) H). lia.
Qed.

Lemma crc_bit_lt crc : crc < 2 ^ 32 -> crc_bit crc < 2 ^ 32.
Proof.
  intros H. rewrite crc_bit_spec by done. pose proof (shiftr_lt crc H) as Hs.
  assert (N.shiftr crc 1 < 2 ^ 32) by (eapply N.lt_trans; [exact Hs|done]).
  destruct (N.odd crc); [|done]. by apply lxor_lt.
Qed.

Lemma crc_bit_top crc : crc < 2 ^ 32 -> N.testbit (crc_bit crc) 31 = N.odd crc.
Proof.
  intros H. rewrite crc_bit_spec by done. pose proof (shiftr_lt crc H) as Hs.
  pose proof (proj1 (lt_pow2_testbit _ 31) Hs 31 ltac:(lia)) as Hb.
  destruct (N.odd crc); [|done]. by rewrite N.lxor_spec, Hb.
Qed.

Lemma crc_bit_inj a b : a < 2 ^ 32 -> b < 2 ^ 32 -> crc_bit a = crc_bit b -> a = b.
Proof.
  intros Ha Hb E. assert (N.odd a = N.odd b) as Ho.
  { by rewrite <- (crc_bit_top a), <- (crc_bit_top b), E. }
  assert (N.shiftr a 1 = N.shiftr b 1) as Hs.
  { rewrite !crc_bit_spec in E by done. rewrite <- Ho in E. destruct (N.odd a); [|done].
    apply (f_equal (fun x => N.lxor x 3988292384)) in E.
    by rewrite !N.lxor_assoc, N.lxor_nilpotent, !N.lxor_0_r in E. }
  apply N.bits_inj. intros i. destruct (N.eq_dec i 0) as [->|Hi].
  - by rewrite !N.bit0_odd.
  - replace i with (i - 1 + 1) by lia. by rewrite <- !N.shiftr_spec, Hs by lia.
Qed.

Lemma crc_iter_lt n x : x < 2 ^ 32 -> Nat.iter n crc_bit x < 2 ^ 32.
Proof. intros H. induction n as [|n IH]; [done|]. simpl. by apply crc_bit_lt. Qed.

Lemma crc_iter_inj n a b :
  a < 2 ^ 32 -> b < 2 ^ 32 -> Nat.iter n crc_bit a = Nat.iter n crc_bit b -> a = b.
Proof.
  intros Ha Hb. induction n as [|n IH]; [done|]. simpl. intros E.
  apply IH. apply crc_bit_inj; [by apply crc_iter_lt..|done].
Qed.

Definition bytes_ok (l : list N) : Prop := Forall (fun b => b < 256) l.

Lemma byte_lt32 b : b < 256 -> b < 2 ^ 32.
Proof. intros. eapply N.lt_trans; [eassumption|done]. Qed.

Lemma crc_byte_lt crc b : crc < 2 ^ 32 -> b < 256 -> crc_byte crc b < 2 ^ 32.
Proof. intros. apply crc_iter_lt, lxor_lt; [done|by apply byte_lt32]. Qed.

Lemma crc_fold_lt l crc : crc < 2 ^ 32 -> bytes_ok l -> fold_left crc_byte l crc < 2 ^ 32.
Proof.
  intros Hc Hl. revert crc Hc. induction Hl as [|b l Hb _ IH]; intros crc Hc; [done|].
  simpl. apply IH. by apply crc_byte_lt.
Qed.

Lemma crc32_lt l : bytes_ok l -> crc32 l <= U32_MAX.
Proof.
  intros Hl. assert (crc32 l < 2 ^ 32) as H; [|change (2 ^ 32) with (U32_MAX + 1) in H; lia].
  apply lxor_lt; [by apply crc_fold_lt|done].
Qed.

Lemma lxor_cancel_l a b c : N.lxor a b = N.lxor a c -> b = c.
Proof.
  intros E. apply (f_equal (N.lxor a)) in E.
  by rewrite <- !N.lxor_assoc, N.lxor_nilpotent, !N.lxor_0_l in E.
Qed.

Lemma crc_byte_inj_state a b x : a < 2 ^ 32 -> b < 2 ^ 32 -> x < 256 -> crc_byte a x = crc_byte b x -> a = b.
Proof.
  intros Ha Hb Hx E. apply byte_lt32 in Hx. apply crc_iter_inj in E; [|by apply lxor_lt..].
  rewrite !(N.lxor_comm _ x) in E. by apply lxor_cancel_l in E.
Qed.

Lemma crc_byte_inj_byte a x y : a < 2 ^ 32 -> x < 256 -> y < 256 -> crc_byte a x = crc_byte a y -> x = y.
Proof.
  intros Ha Hx Hy E. apply byte_lt32 in Hx, Hy. apply crc_iter_inj in E; [|by apply lxor_lt..].
  by apply lxor_cancel_l in E.
Qed.

Lemma crc_fold_inj l a b :
  a < 2 ^ 32 -> b < 2 ^ 32 -> bytes_ok l -> fold_left crc_byte l a = fold_left crc_byte l b -> a = b.
Proof.
  intros Ha Hb Hl. revert a b Ha Hb. induction Hl as [|x l Hx _ IH]; intros a b Ha Hb E; [done|].
  simpl in E. apply IH in E; [|by apply crc_byte_lt..]. by apply (crc_byte_inj_state a b x).
Qed.

(** Replacing one byte of a record by another always changes its
    checksum, so the verified reader never accepts such a record. *)
Theorem crc32_detects_byte_damage before x y after :
  bytes_ok before -> x < 256 -> y < 256 -> bytes_ok after -> x <> y ->
  crc32 (before ++ x :: after) <> crc32 (before ++ y :: after).
Proof.
  intros Hb Hx Hy Ha Hne E. apply Hne. unfold crc32 in E. rewrite !(N.lxor_comm _ U32_MAX) in E.
  apply lxor_cancel_l in E. rewrite !fold_left_app in E. cbn [fold_left] in E.
  assert (fold_left crc_byte before U32_MAX < 2 ^ 32) as Hs by (by apply crc_fold_lt).
  apply crc_fold_inj in E; [|by apply crc_byte_lt..|done]. by apply crc_byte_inj_byte in E.
Qed.

(** ** Segment contents *)

Lemma index_line_parse offset ilen id crc :
  offset <= USIZE_MAX -> ilen <= USIZE_MAX -> id <= U64_MAX -> crc <= U32_MAX ->
  parse_index_entry (show_N offset ++ ch " " :: show_N ilen ++ ch " " :: show_N id ++ ch " " :: pad0 8 (show_hex crc)) =
  Some (mkSpillIndexEntry offset ilen crc).
Proof.
  intros Ho Hl Hi Hc. unfold parse_index_entry.
  rewrite !split_whitespace_cons by apply show_N_word. rewrite split_whitespace_last by apply show_hex_word.
  rewrite !parse_uint_show_N by done. cbn [ok mbind option_bind].
  unfold show_hex. rewrite from_str_radix_pad0 by (unfold U32_MAX in *; lia). done.
Qed.

(** Characters of an index line. *)
Definition index_char (c : char) : bool := is_ascii_hexdigit c || (c =? 32).

Lemma digits_index_char radix s : radix <= 16 -> digits_below radix s -> Forall (fun c => index_char c = true) s.
Proof.
  intros Hr Hs. eapply Forall_impl; [exact Hs|]. intros c (d & -> & Hd).
  apply (below_spec (fun d => index_char (digit_char d)) 16); [done|]. simpl. lia.
Qed.

Lemma show_index_char n : Forall (fun c => index_char c = true) (show_N n).
Proof. destruct (to_radix_digits 10 n) as [_ H]; [lia|]. by apply (digits_index_char 10). Qed.

Lemma show_hex_index_char w n : Forall (fun c => index_char c = true) (pad0 w (show_hex n)).
Proof.
  destruct (to_radix_digits 16 n) as [_ H]; [lia|]. apply (digits_index_char 16); [lia|].
  apply pad0_digits; [lia|done].
Qed.

Lemma index_char_ascii c : index_char c = true -> c < 128 /\ c <> 10 /\ c <> 13.
Proof.
  unfold index_char, is_ascii_hexdigit, is_ascii_digit. intros H.
  rewrite !orb_true_iff, !in_range_spec, N.eqb_eq in H. lia.
Qed.

(** An index line without its line feed. *)
Definition index_entry (offset ilen id crc : N) : str :=
  show_N offset ++ ch " " :: show_N ilen ++ ch " " :: show_N id ++ ch " " :: pad0 8 (show_hex crc).

Lemma index_line_entry offset ilen id crc :
  index_line offset ilen id crc = index_entry offset ilen id crc ++ [10].
Proof.
  unfold index_line, index_entry. rewrite <- !app_assoc. cbn [app]. do 2 f_equal.
  rewrite <- !app_assoc. cbn [app]. do 2 f_equal. rewrite <- !app_assoc. done.
Qed.

Lemma index_entry_chars offset ilen id crc : Forall (fun c => index_char c = true) (index_entry offset ilen id crc).
Proof.
  unfold index_entry. repeat (apply Forall_app; split; [apply show_index_char|constructor; [done|]]).
  apply show_hex_index_char.
Qed.

Lemma index_entry_clean offset ilen id crc :
  (10 ∉ index_entry offset ilen id crc) /\ (13 ∉ index_entry offset ilen id crc).
Proof.
  pose proof (index_entry_chars offset ilen id crc) as H. rewrite Forall_forall in H.
  split; intros Hin%H%index_char_ascii; lia.
Qed.

(** A sequence of terminated lines and its bytes. *)
Definition terminated (ls : list str) : str := flat_map (fun l => l ++ [10]) ls.

Lemma lines_terminated ls : Forall (fun l => (10 ∉ l) /\ (13 ∉ l)) ls -> lines (terminated ls) = ls.
Proof.
  induction 1 as [|l ls [H1 H2] _ IH]; [done|]. unfold terminated in *. cbn [flat_map].
  rewrite <- app_assoc. cbn [app]. rewrite lines_cons by done. by rewrite IH.
Qed.

Section Contents.
Context {Zc : ZstdCodec}.

(** The length an index entry records. *)
Definition entry_len (c : TraceSpillCompression.t) (line record : list N) : N :=
  match c with
  | TraceSpillCompression.NoCompression => N.of_nat (length line)
  | TraceSpillCompression.Zstd _ => N.of_nat (length record)
  end.

(** Records (session id and line) with the data and index entries that hold them. *)
Inductive contents (c : TraceSpillCompression.t) : list (N * list N) -> list N -> list str -> Prop :=
| contents_nil : contents c [] [] []
| contents_snoc recs data entries id line record :
    contents c recs data entries ->
    encode_spill_record line c = Ok record -> bytes_ok line -> id <= U64_MAX ->
    N.of_nat (length data + length record) <= USIZE_MAX ->
    contents c (recs ++ [(id, line)]) (data ++ record)
      (entries ++ [index_entry (N.of_nat (length data)) (entry_len c line record) id (crc32 line)]).

Definition bodies (recs : list (N * list N)) : list N := flat_map (fun r => r.2 ++ [10]) recs.

Lemma contents_entries c recs data entries :
  contents c recs data entries -> Forall (fun l => Forall (fun c => index_char c = true) l) entries.
Proof.
  induction 1 as [|recs data entries id line record _ IH _ _ _ _]; [constructor|].
  apply Forall_app. split; [done|]. constructor; [apply index_entry_chars|constructor].
Qed.

Lemma contents_lines c recs data entries :
  contents c recs data entries -> lines (terminated entries) = entries.
Proof.
  intros H%contents_entries. apply lines_terminated. eapply Forall_impl; [exact H|].
  intros l Hl. rewrite Forall_forall in Hl. split; intros Hin%Hl%index_char_ascii; lia.
Qed.

Lemma contents_ascii c recs data entries :
  contents c recs data entries -> Forall (fun c => c < 128) (terminated entries).
Proof.
  intros H%contents_entries. unfold terminated. apply Forall_flat_map. eapply Forall_impl; [exact H|].
  intros l Hl. apply Forall_app. split; [|by repeat constructor].
  eapply Forall_impl; [exact Hl|]. intros x Hx. by apply index_char_ascii.
Qed.

Context {Zl : ZstdLaws Zc}.

(** An entry vouches for its record in any extension of the data. *)
Lemma read_entry_written c data line record id extra :
  encode_spill_record line c = Ok record -> bytes_ok line -> id <= U64_MAX ->
  N.of_nat (length data + length record) <= USIZE_MAX ->
  read_entry c (data ++ record ++ extra)
    (index_entry (N.of_nat (length data)) (entry_len c line record) id (crc32 line)) = Some line.
Proof.
  intros Henc Hb Hid Hlen. unfold read_entry, index_entry.
  assert (entry_len c line record <= N.of_nat (length record)) as Hel.
  { destruct c; cbn; [|lia]. injection Henc as <-. rewrite length_app. lia. }
  rewrite index_line_parse; [|lia|lia|done|by apply crc32_lt]. cbn [mbind option_bind ie_offset ie_len ie_crc].
  assert (N.of_nat (length data) +s entry_len c line record =
    N.of_nat (length data) + entry_len c line record) as -> by (unfold usize_add, saturating_add; lia).
  replace (N.of_nat (length data) + entry_len c line record - N.of_nat (length data))
    with (entry_len c line record) by lia.
  rewrite Nat2N.id, drop_app_length.
  assert (valid_bounds c (data ++ record ++ extra) (N.of_nat (length data) + entry_len c line record) = true)
    as ->.
  { unfold valid_bounds. destruct c; cbn [entry_len] in *.
    - injection Henc as <-. apply andb_true_iff. split; [apply N.leb_le; rewrite !length_app; lia|].
      rewrite lookup_app_r by lia.
      replace (N.to_nat (N.of_nat (length data) + N.of_nat (length line)) - length data)%nat
        with (length line) by lia.
      rewrite <- app_assoc, lookup_app_r, Nat.sub_diag by lia. done.
    - apply N.leb_le. rewrite !length_app. lia. }
  cbn [negb].
  assert (ok (decode_indexed_record c (take (N.to_nat (entry_len c line record)) (record ++ extra))) = Some line) as ->.
  { destruct c; cbn [entry_len decode_indexed_record].
    - injection Henc as <-. rewrite <- app_assoc, Nat2N.id, take_app_length. done.
    - rewrite Nat2N.id, take_app_length. cbn in Henc. apply zstd_roundtrip in Henc as ->.
      by rewrite strip_suffix_app. }
  cbn [mbind option_bind]. by rewrite N.eqb_refl.
Qed.

Lemma read_entries_contents c recs data entries extra :
  contents c recs data entries ->
  read_entries c (data ++ extra) entries = (bodies recs, 0).
Proof.
  intros H. revert extra.
  induction H as [|recs data entries id line record H IH Henc Hb Hid Hlen]; intros extra; [done|].
  unfold read_entries in *. rewrite fold_left_app, <- app_assoc.
  rewrite (IH (record ++ extra)). cbn [fold_left]. rewrite read_entry_written by done.
  unfold bodies. rewrite flat_map_app. cbn. by rewrite app_nil_r.
Qed.
End Contents.

(** ** The segment set *)

Section Segments.
Context {Zc : ZstdCodec}.

Lemma wrapping_add64_small a b : a + b <= U64_MAX -> wrapping_add64 a b = a + b.
Proof.
  intros H. apply N.mod_small. change (2 ^ 64) with (U64_MAX + 1). lia.
Qed.

Definition seg_total (g : SpillSegment) : N := sg_bytes g + sg_index_bytes g.

(** A segment whose files hold the given records; a new one may have no file yet. *)
Record seg_holds (files : gmap (list N * list N) (list N)) (dir : str) (g : SpillSegment)
    (recs : list (N * list N)) (data : list N) (entries : list str) : Prop := {
  sh_contents : contents (sg_compression g) recs data entries;
  sh_path : sg_path g = segment_path dir (sg_index g) (sg_compression g);
  sh_idx_path : sg_idx_path g = segment_index_path dir (sg_index g) (sg_compression g);
  sh_data : default [] (files !! sg_path g) = data;
  sh_index : default [] (files !! sg_idx_path g) = terminated entries;
  sh_bytes : sg_bytes g = N.of_nat (length data);
  sh_index_bytes : sg_index_bytes g = N.of_nat (length (terminated entries));
}.

(** ... and has both files. *)
Definition seg_ok (files : gmap (list N * list N) (list N)) (dir : str) (g : SpillSegment)
    (recs : list (N * list N)) : Prop :=
  exists data entries, seg_holds files dir g recs data entries /\
    is_Some (files !! sg_path g) /\ is_Some (files !! sg_idx_path g).

Record spill_ok (d : Disk) (s : TraceSpillState) (recss : list (list (N * list N))) : Prop := {
  so_initialized : sp_initialized s = true;
  so_segments : Forall2 (seg_ok (d_files d) (sp_dir s)) (sp_segments s) recss;
  so_nodup : NoDup (map sg_index (sp_segments s));
  so_below : Forall (fun g => sg_index g < sp_next_segment s) (sp_segments s);
  so_next : sp_next_segment s <= U64_MAX;
  so_bytes : sp_bytes_on_disk s = sum_N (map seg_total (sp_segments s));
  so_u64 : sp_bytes_on_disk s <= U64_MAX;
  so_fresh : forall i c, sp_next_segment s <= i -> i <= U64_MAX ->
    d_files d !! segment_path (sp_dir s) i c = None /\
    d_files d !! segment_index_path (sp_dir s) i c = None;
}.

(** Files of different segments are different. *)
Lemma seg_ok_frame files files' dir g recs :
  seg_ok files dir g recs ->
  files' !! sg_path g = files !! sg_path g -> files' !! sg_idx_path g = files !! sg_idx_path g ->
  seg_ok files' dir g recs.
Proof.
  intros (data & entries & [H1 H2 H3 H4 H5 H6 H7] & Hp & Hi) E1 E2. exists data, entries.
  split_and!; [split; congruence|congruence..].
Qed.

Lemma seg_paths files dir g recs :
  seg_ok files dir g recs ->
  sg_path g = segment_path dir (sg_index g) (sg_compression g) /\
  sg_idx_path g = segment_index_path dir (sg_index g) (sg_compression g).
Proof. by intros (data & entries & [H1 H2 H3 _ _ _ _] & _). Qed.

Lemma seg_ok_other files dir g recs i c x :
  seg_ok files dir g recs -> sg_index g <= U64_MAX -> i <= U64_MAX -> sg_index g <> i ->
  (forall p, p <> segment_path dir i c -> p <> segment_index_path dir i c -> x !! p = files !! p) ->
  seg_ok x dir g recs.
Proof.
  intros Hok Hg Hi Hne Hx. destruct (seg_paths _ _ _ _ Hok) as [Hp Hq].
  eapply seg_ok_frame; [exact Hok|..]; apply Hx; rewrite ?Hp, ?Hq.
  - intros E. by apply Hne, (segment_path_inj dir _ _ _ _ Hg Hi E).
  - apply segment_path_not_index.
  - intros E. by eapply segment_path_not_index.
  - intros E. by apply Hne, (segment_index_path_inj dir _ _ _ _ Hg Hi E).
Qed.

(** Removing the files of one segment. *)
Lemma remove_if_present_spec verb path d :
  faultless d -> exists d', remove_if_present verb path d = (d', Ok tt) /\ faultless d' /\
    d_files d' = delete path (d_files d).
Proof.
  intros H. unfold remove_if_present.
  destruct (remove_file_spec path d H) as (d' & r & -> & Hf & Hd & [->| ->]); exists d'; done.
Qed.

Lemma spill_ok_pop d s g segs recs recss d' evicted :
  spill_ok d s (recs :: recss) -> sp_segments s = g :: segs ->
  d_files d' = delete (sg_idx_path g) (delete (sg_path g) (d_files d)) ->
  spill_ok d' (set_segments s segs (sp_bytes_on_disk s - seg_total g) evicted) recss.
Proof.
  intros [Hi Hs Hn Hb Hnx Hby Hu Hf] E Ed. rewrite E in *.
  inversion Hs as [|? ? ? ? Hg Hsegs]; subst. apply NoDup_cons in Hn as [Hnin Hn].
  inversion Hb as [|? ? Hg' Hb']; subst. destruct (seg_paths _ _ _ _ Hg) as [Hp Hq].
  assert (Forall (fun h => sg_index h <= U64_MAX /\ sg_index h <> sg_index g) segs) as Hother.
  { apply Forall_forall. intros h Hh. split.
    - rewrite Forall_forall in Hb'. specialize (Hb' h Hh). cbn in Hb'. lia.
    - intros Eh. apply Hnin. rewrite <- Eh. by apply list_elem_of_fmap_2. }
  split; cbn; try done.
  - clear -Hsegs Hother Hp Hq Hg' Hnx Ed. induction Hsegs as [|h r segs recss Hh _ IH]; [constructor|].
    inversion Hother as [|? ? [Hle Hne] Hrest]; subst. constructor; [|by apply IH].
    eapply (seg_ok_other _ _ _ _ (sg_index g) (sg_compression g)); [exact Hh|done|lia|done|].
    intros p H1 H2. rewrite Ed, Hp, Hq. by rewrite !lookup_delete_ne by congruence.
  - rewrite Hby. cbn. lia.
  - lia.
  - intros i c H1 H2. destruct (Hf i c H1 H2) as [F1 F2]. rewrite Ed.
    split; apply lookup_delete_None; right; apply lookup_delete_None; by right.
Qed.

Lemma evict_segments_spec fuel d s recss :
  faultless d -> spill_ok d s recss -> (length (sp_segments s) <= fuel)%nat ->
  exists d' s' k, evict_segments fuel (d, s) = ((d', s'), Ok tt) /\ faultless d' /\
    spill_ok d' s' (drop k recss) /\ sp_segments s' = drop k (sp_segments s) /\
    sp_dir s' = sp_dir s /\ sp_compression s' = sp_compression s /\
    (sp_bytes_on_disk s' <= sp_disk_budget_bytes s \/ (length (sp_segments s') <= 1)%nat) /\
    (forall j, (j < k)%nat -> sp_disk_budget_bytes s < sum_N (map seg_total (drop j (sp_segments s))) /\
      (1 < length (drop j (sp_segments s)))%nat).
Proof.
  revert d s recss. induction fuel as [|fuel IH]; intros d s recss Hd Hok Hf.
  - exists d, s, 0%nat. split_and!; try done; [right; lia|lia].
  - cbn [evict_segments]. unfold mbind at 1, StateR_bind at 1, get_spill at 1.
    cbn [snd]. destruct (_ && _) eqn:Ec.
    2: { exists d, s, 0%nat. split_and!; try done; [|lia].
         apply andb_false_iff in Ec as [Ec|Ec]; apply N.ltb_ge in Ec; [by left|right; lia]. }
    apply andb_true_iff in Ec as [E1%N.ltb_lt E2%N.ltb_lt]. cbn [snd] in *.
    destruct (sp_segments s) as [|g segs] eqn:Es; [simpl in E2; lia|].
    assert (1 < length (g :: segs))%nat as Hl1 by lia.
    pose proof (so_segments _ _ _ Hok) as Hs. rewrite Es in Hs.
    inversion Hs as [|? recs ? recss' Hg Hsegs]; subst.
    unfold mbind, StateR_bind, put_spill, on_disk. cbn [fst snd].
    destruct (remove_if_present_spec "remove" (sg_path g) d Hd) as (d1 & -> & Hd1 & Ed1).
    destruct (remove_if_present_spec "remove" (sg_idx_path g) d1 Hd1) as (d2 & -> & Hd2 & Ed2).
    cbn [fst snd].
    assert (seg_total g <= sp_bytes_on_disk s) as Hle.
    { rewrite (so_bytes _ _ _ Hok), Es. cbn. lia. }
    assert (wrapping_add64 (sg_bytes g) (sg_index_bytes g) = seg_total g) as ->.
    { apply wrapping_add64_small. pose proof (so_u64 _ _ _ Hok). unfold seg_total in *. lia. }
    unfold saturating_sub.
    destruct (IH d2 (set_segments s segs (sp_bytes_on_disk s - seg_total g)
      (wrapping_add64 (sp_evicted_segments s) 1)) recss') as (d' & s' & k & -> & Hd' & Hok' & Hseg' & Hdir & Hcmp & Hend & Hmin).
    + done.
    + eapply spill_ok_pop; [exact Hok|done|]. by rewrite Ed2, Ed1.
    + cbn. simpl in Hf. lia.
    + exists d', s', (S k). cbn in *. split_and!; try done.
      intros [|j] Hj.
      * rewrite (so_bytes _ _ _ Hok), Es in E1. split; [exact E1|exact Hl1].
      * cbn. apply Hmin. lia.
Qed.

(** ** Appending *)

Lemma index_line_length offset ilen id crc :
  offset <= U64_MAX -> ilen <= U64_MAX -> id <= U64_MAX -> crc <= U32_MAX ->
  (length (index_line offset ilen id crc) <= 72)%nat.
Proof.
  intros Ho%show_N_length Hl%show_N_length Hi%show_N_length Hc%show_hex_length.
  unfold index_line. repeat (rewrite ?length_app; cbn [length]). rewrite pad0_length by lia. lia.
Qed.

Lemma terminated_snoc entries e : terminated (entries ++ [e]) = terminated entries ++ e ++ [10].
Proof. unfold terminated. rewrite flat_map_app. cbn. by rewrite app_nil_r. Qed.

(** Writing a record and its index line extends what the segment holds. *)
Lemma seg_holds_append files dir g recs data entries id line record :
  seg_holds files dir g recs data entries ->
  encode_spill_record line (sg_compression g) = Ok record -> bytes_ok line -> id <= U64_MAX ->
  N.of_nat (length data + length record) <= U64_MAX ->
  let text := index_line (sg_bytes g) (entry_len (sg_compression g) line record) id (crc32 line) in
  sg_index_bytes g + N.of_nat (length text) <= U64_MAX ->
  let files1 := <[sg_path g := default [] (files !! sg_path g) ++ record]> files in
  let files2 := <[sg_idx_path g := default [] (files1 !! sg_idx_path g) ++ text]> files1 in
  seg_ok files2 dir
    (mkSpillSegment (sg_index g) (sg_path g) (sg_compression g)
       (wrapping_add64 (sg_bytes g) (N.of_nat (length record))) (sg_idx_path g)
       (wrapping_add64 (sg_index_bytes g) (N.of_nat (length text)))
       (wrapping_add64 (sg_indexed_records g) 1))
    (recs ++ [(id, line)]).
Proof.
  intros [H1 H2 H3 H4 H5 H6 H7] Henc Hb Hid Hlen text Htext files1 files2.
  assert (sg_path g <> sg_idx_path g) as Hne by (rewrite H2, H3; apply segment_path_not_index).
  assert (files2 !! sg_path g = Some (data ++ record)) as F1.
  { unfold files2, files1. rewrite lookup_insert_ne by done. rewrite lookup_insert_eq. by rewrite H4. }
  set (entry := index_entry (sg_bytes g) (entry_len (sg_compression g) line record) id (crc32 line)).
  assert (files2 !! sg_idx_path g = Some (terminated (entries ++ [entry]))) as F2.
  { unfold files2. rewrite lookup_insert_eq. f_equal. unfold files1 at 1.
    rewrite lookup_insert_ne by done. rewrite H5, terminated_snoc. unfold text. by rewrite index_line_entry. }
  assert (length text = length (entry ++ [10])) as Ht by (unfold text; by rewrite index_line_entry).
  clearbody files2. clear files1. clearbody text.
  exists (data ++ record), (entries ++ [entry]). split_and!; [|cbn; rewrite F1; by eexists|cbn; rewrite F2; by eexists].
  split; cbn [sg_index sg_path sg_compression sg_bytes sg_idx_path sg_index_bytes]; try done.
  - unfold entry. rewrite H6. by apply contents_snoc.
  - by rewrite F1.
  - by rewrite F2.
  - rewrite wrapping_add64_small by lia. rewrite length_app. lia.
  - rewrite wrapping_add64_small by lia. rewrite terminated_snoc, length_app, H7, Ht. lia.
Qed.

(** The state in which the active segment [g] is about to receive a record. *)
Record about_to_append (d : Disk) (s : TraceSpillState) (segs : list SpillSegment) (g : SpillSegment)
    (recss : list (list (N * list N))) (recs : list (N * list N)) : Prop := {
  ap_initialized : sp_initialized s = true;
  ap_segments : sp_segments s = segs ++ [g];
  ap_compression : sg_compression g = sp_compression s;
  ap_others : Forall2 (seg_ok (d_files d) (sp_dir s)) segs recss;
  ap_active : exists data entries, seg_holds (d_files d) (sp_dir s) g recs data entries;
  ap_nodup : NoDup (map sg_index (segs ++ [g]));
  ap_below : Forall (fun h => sg_index h < sp_next_segment s) (segs ++ [g]);
  ap_next : sp_next_segment s <= U64_MAX;
  ap_bytes : sp_bytes_on_disk s = sum_N (map seg_total (segs ++ [g]));
  ap_fresh : forall i c, sp_next_segment s <= i -> i <= U64_MAX ->
    d_files d !! segment_path (sp_dir s) i c = None /\
    d_files d !! segment_index_path (sp_dir s) i c = None;
}.

Lemma note_append_ok d s segs g recss recs id line record d' :
  about_to_append d s segs g recss recs ->
  encode_spill_record line (sg_compression g) = Ok record -> bytes_ok line -> id <= U64_MAX ->
  let text := index_line (sg_bytes g) (entry_len (sg_compression g) line record) id (crc32 line) in
  sp_bytes_on_disk s + (N.of_nat (length record) + N.of_nat (length text)) <= U64_MAX ->
  let files1 := <[sg_path g := default [] (d_files d !! sg_path g) ++ record]> (d_files d) in
  d_files d' = <[sg_idx_path g := default [] (files1 !! sg_idx_path g) ++ text]> files1 ->
  spill_ok d' (note_append s g (N.of_nat (length record)) (N.of_nat (length text)))
    (recss ++ [recs ++ [(id, line)]]).
Proof.
  intros [H1 H2 H3 H4 (data & entries & Hg) H6 H7 H8 H9 H10] Henc Hb Hid text Hu files1 Ed.
  assert (seg_total g <= sp_bytes_on_disk s) as Hgt.
  { rewrite H9, map_app, sum_N_app. cbn. lia. }
  unfold seg_total in Hgt.
  pose proof (sh_bytes _ _ _ _ _ _ Hg) as Hgb.
  assert (seg_ok (d_files d') (sp_dir s)
    (mkSpillSegment (sg_index g) (sg_path g) (sg_compression g)
       (wrapping_add64 (sg_bytes g) (N.of_nat (length record))) (sg_idx_path g)
       (wrapping_add64 (sg_index_bytes g) (N.of_nat (length text)))
       (wrapping_add64 (sg_indexed_records g) 1)) (recs ++ [(id, line)])) as Hok.
  { rewrite Ed. apply (seg_holds_append (d_files d) (sp_dir s) g recs data entries); try done; [lia|].
    fold text. lia. }
  clearbody text.
  apply Forall_app in H7 as [H7 H7g]. inversion H7g as [|? ? Hgn _]; subst.
  assert (forall p, p <> segment_path (sp_dir s) (sg_index g) (sg_compression g) ->
    p <> segment_index_path (sp_dir s) (sg_index g) (sg_compression g) -> d_files d' !! p = d_files d !! p) as Hframe.
  { intros p P1 P2. rewrite Ed. unfold files1. rewrite (sh_path _ _ _ _ _ _ Hg), (sh_idx_path _ _ _ _ _ _ Hg).
    by rewrite !lookup_insert_ne by congruence. }
  unfold note_append. rewrite H2, removelast_last. split; cbn.
  - done.
  - apply Forall2_app; [|by repeat constructor].
    rewrite map_app in H6. apply NoDup_app in H6 as (_ & Hdis & _).
    assert (Forall (fun h => sg_index h <= U64_MAX /\ sg_index h <> sg_index g) segs) as Hother.
    { apply Forall_forall. intros h Hh. rewrite Forall_forall in H7. specialize (H7 h Hh). cbn in H7.
      split; [lia|]. intros E. apply (Hdis (sg_index h)); [by apply list_elem_of_fmap_2|]. rewrite E. by left. }
    clear -H4 Hother Hframe Hgn H8. induction H4 as [|h r segs recss Hh _ IH]; [constructor|].
    inversion Hother as [|? ? [Hle Hne] Hrest]; subst. constructor; [|by apply IH].
    eapply seg_ok_other; [exact Hh|done| |exact Hne|exact Hframe]. lia.
  - rewrite map_app in *. exact H6.
  - apply Forall_app. split; [done|]. by repeat constructor.
  - done.
  - rewrite (wrapping_add64_small (N.of_nat _)) by lia. rewrite wrapping_add64_small by lia.
    rewrite H9, !map_app, !sum_N_app. cbn. unfold seg_total. cbn.
    rewrite !wrapping_add64_small by lia. lia.
  - rewrite (wrapping_add64_small (N.of_nat _)) by lia. rewrite wrapping_add64_small by lia. lia.
  - intros i c Hi1 Hi2. destruct (H10 i c Hi1 Hi2) as [F1 F2].
    assert (i <> sg_index g) by lia.
    split; (rewrite Hframe; [done|..]); try (by apply segment_path_not_index);
      try (intros E; by symmetry in E; apply segment_path_not_index in E).
    + intros E. apply segment_path_inj in E; lia.
    + intros E. apply segment_index_path_inj in E; lia.
Qed.

Lemma about_to_start d s recss :
  spill_ok d s recss -> sp_next_segment s < U64_MAX ->
  exists g, about_to_append d (start_spill_segment s) (sp_segments s) g recss [].
Proof.
  intros [H1 H2 H3 H4 H5 H6 H7 H8] Hn. eexists. unfold start_spill_segment.
  rewrite wrapping_add64_small by lia. split; cbn; try done.
  - exists [], []. destruct (H8 (sp_next_segment s) (sp_compression s)) as [F1 F2]; [lia..|].
    split; cbn; try done; [constructor|by rewrite F1|by rewrite F2].
  - rewrite map_app. apply NoDup_app. split_and!; [done| |apply NoDup_singleton].
    intros i Hi ->%list_elem_of_singleton. cbn in Hi. apply list_elem_of_fmap in Hi as (h & E & Hh).
    rewrite Forall_forall in H4. specialize (H4 h Hh). cbn in H4. lia.
  - apply Forall_app. split; [|repeat constructor; cbn; lia].
    eapply Forall_impl; [exact H4|]. cbn. lia.
  - lia.
  - rewrite map_app, sum_N_app. cbn. unfold seg_total at 2. cbn. rewrite H6. lia.
  - intros i c Hi1 Hi2. apply H8; lia.
Qed.

Lemma about_to_continue d s recss record_bytes :
  spill_ok d s recss -> needs_new_segment s record_bytes = false ->
  exists segs g recss0 recs, recss = recss0 ++ [recs] /\ about_to_append d s segs g recss0 recs.
Proof.
  intros [H1 H2 H3 H4 H5 H6 H7 H8] Hn. unfold needs_new_segment in Hn.
  apply orb_false_iff in Hn as [He Hn].
  destruct (last (sp_segments s)) as [g|] eqn:El.
  2: { apply last_None in El. by rewrite El in He. }
  apply last_Some in El as [segs Es]. apply orb_false_iff in Hn as [Hc _].
  apply negb_false_iff, bool_decide_eq_true in Hc.
  rewrite Es in H2. apply Forall2_app_inv_l in H2 as (recss0 & recss1 & Ho & Hg & ->).
  inversion Hg as [|? recs ? ? Hg' Hnil]; subst. inversion Hnil; subst.
  destruct Hg' as (data & entries & Hh & _).
  exists segs, g, recss0, recs. split; [done|]. split; rewrite <- ?Es; try done. by exists data, entries.
Qed.

Lemma enforce_budget_spec d s recss :
  faultless d -> spill_ok d s recss ->
  exists d' s' k, enforce_spill_budget (d, s) = ((d', s'), Ok tt) /\ faultless d' /\
    spill_ok d' s' (drop k recss) /\ (recss <> [] -> (k < length recss)%nat) /\
    (sp_disk_budget_bytes s = 0 \/ sp_bytes_on_disk s' <= sp_disk_budget_bytes s \/
     length (sp_segments s') = 1%nat).
Proof.
  intros Hd Hok. unfold enforce_spill_budget, mbind, StateR_bind, get_spill. cbn [snd].
  pose proof (Forall2_length _ _ _ (so_segments _ _ _ Hok)) as Hlen.
  destruct (N.eqb_spec (sp_disk_budget_bytes s) 0) as [E|E].
  { exists d, s, 0%nat. split_and!; try done; [|by left].
    intros Hne. destruct recss; [done|]. simpl. lia. }
  destruct (evict_segments_spec (length (sp_segments s)) d s recss Hd Hok) as
    (d' & s' & k & -> & Hd' & Hok' & Hs' & _ & _ & Hend & Hmin); [done|].
  pose proof (Forall2_length _ _ _ (so_segments _ _ _ Hok')) as Hlen'.
  assert (recss <> [] -> (k < length recss)%nat) as Hk.
  { intros Hne. destruct (decide (k < length recss)%nat) as [|Hge]; [done|]. exfalso.
    destruct k as [|k]; [destruct recss; [done|simpl in Hge; lia]|].
    destruct (Hmin k ltac:(lia)) as [_ H1]. rewrite length_drop in H1. lia. }
  exists d', s', k. split_and!; try done. right.
  destruct Hend as [H|H]; [by left|].
  destruct (decide (recss = [])) as [->|Hne].
  - left. rewrite (so_bytes _ _ _ Hok'), Hs'. destruct (sp_segments s); [|done]. rewrite drop_nil. cbn. lia.
  - right. specialize (Hk Hne). rewrite Hs', length_drop in *. lia.
Qed.

(** Both writes of an append on a disk without faults. *)
Lemma on_disk_append s path bytes d :
  faultless d ->
  exists d', faultless d' /\
    d_files d' = <[path := default [] (d_files d !! path) ++ bytes]> (d_files d) /\
    forall B (k : SpillM B),
      (_ ← on_disk (open_append path); _ ← on_disk (write_all path bytes); k) (d, s) = k (d', s).
Proof.
  intros H. destruct (append_spec path bytes d H) as (d' & E & Hd & Hf). exists d'. split_and!; [done..|].
  intros B k. unfold mbind, StateR_bind, on_disk in *.
  destruct (open_append path d) as [d1 [[]|e]]; [|done]. by rewrite E.
Qed.

Lemma append_to_active d s segs g recss recs session record :
  faultless d -> about_to_append d s segs g recss recs ->
  let line := encode (spill_session_line session) in
  encode_spill_record line (sp_compression s) = Ok record -> bytes_ok line -> se_id session <= U64_MAX ->
  sp_bytes_on_disk s + N.of_nat (length record) + 72 <= U64_MAX ->
  let ilen := entry_len (sp_compression s) line record in
  let text := encode (index_line (sg_bytes g) ilen (se_id session) (crc32 line)) in
  exists d' s' k,
    (_ ← on_disk (open_append (sg_path g)); _ ← on_disk (write_all (sg_path g) record);
     _ ← on_disk (open_append (sg_idx_path g)); _ ← on_disk (write_all (sg_idx_path g) text);
     _ ← put_spill (note_append s g (N.of_nat (length record)) (N.of_nat (length text)));
     enforce_spill_budget) (d, s) = ((d', s'), Ok tt) /\
    faultless d' /\ spill_ok d' s' (drop k (recss ++ [recs ++ [(se_id session, line)]])) /\
    (k <= length recss)%nat /\
    (sp_disk_budget_bytes s = 0 \/ sp_bytes_on_disk s' <= sp_disk_budget_bytes s \/
     length (sp_segments s') = 1%nat).
Proof.
  intros Hd Hab line. clearbody line. intros Henc Hb Hid Hu ilen text.
  assert (sg_compression g = sp_compression s) as Hc by apply Hab.
  assert (sg_bytes g + sg_index_bytes g <= sp_bytes_on_disk s) as Hgt.
  { rewrite (ap_bytes _ _ _ _ _ _ Hab), map_app, sum_N_app. cbn. unfold seg_total at 2. lia. }
  assert (ilen <= N.of_nat (length record)) as Hil.
  { unfold ilen, entry_len. unfold encode_spill_record in Henc. destruct (sp_compression s); [|lia].
    injection Henc as Er. rewrite <- Er, length_app. lia. }
  assert (text = index_line (sg_bytes g) ilen (se_id session) (crc32 line)) as Et.
  { apply encode_ascii. rewrite index_line_entry. apply Forall_app. split; [|by repeat constructor].
    eapply Forall_impl; [apply index_entry_chars|]. intros x Hx. by apply index_char_ascii. }
  assert ((length text <= 72)%nat) as Htl.
  { rewrite Et. apply index_line_length; [lia|lia|done|by apply crc32_lt]. }
  destruct (on_disk_append s (sg_path g) record d Hd) as (d1 & Hd1 & Ef1 & ->).
  destruct (on_disk_append s (sg_idx_path g) text d1 Hd1) as (d2 & Hd2 & Ef2 & ->).
  unfold mbind at 1, StateR_bind at 1, put_spill. cbn [fst].
  assert (spill_ok d2 (note_append s g (N.of_nat (length record)) (N.of_nat (length text)))
    (recss ++ [recs ++ [(se_id session, line)]])) as Hok.
  { unfold ilen in Et. rewrite Et. rewrite <- Hc in *.
    eapply note_append_ok; [exact Hab|exact Henc|exact Hb|exact Hid| |].
    - rewrite <- Et. lia.
    - rewrite <- Et, <- Ef1. exact Ef2. }
  destruct (enforce_budget_spec d2 _ _ Hd2 Hok) as (d' & s' & k & -> & Hd' & Hok' & Hk & Hend).
  exists d', s', k. split_and!; try done.
  rewrite length_app in Hk. simpl in Hk. assert ((k < length recss + 1)%nat); [|lia].
  apply Hk. by destruct recss.
Qed.

Lemma append_spill_spec d s recss session record :
  faultless d -> spill_ok d s recss ->
  let line := encode (spill_session_line session) in
  encode_spill_record line (sp_compression s) = Ok record -> bytes_ok line -> se_id session <= U64_MAX ->
  sp_next_segment s < U64_MAX ->
  sp_bytes_on_disk s + N.of_nat (length record) + 72 <= U64_MAX ->
  exists d' s' recss' k,
    append_spill session (d, s) = ((d', s'), Ok tt) /\ faultless d' /\
    concat recss' = concat recss ++ [(se_id session, line)] /\ (k < length recss')%nat /\
    spill_ok d' s' (drop k recss') /\
    (sp_disk_budget_bytes s = 0 \/ sp_bytes_on_disk s' <= sp_disk_budget_bytes s \/
     length (sp_segments s') = 1%nat).
Proof.
  intros Hd Hok line Henc Hb Hid Hn Hu. unfold append_spill.
  unfold mbind at 1, StateR_bind at 1, ensure_spill_initialized. unfold mbind at 1, StateR_bind at 1, get_spill at 1.
  cbn [snd]. rewrite (so_initialized _ _ _ Hok). cbn [mret StateR_ret].
  unfold mbind at 1, StateR_bind at 1, get_spill at 1. cbn [snd].
  fold line. unfold mbind at 1, StateR_bind at 1, lift_result at 1. rewrite Henc.
  unfold mbind at 1, StateR_bind at 1.
  destruct (needs_new_segment s (N.of_nat (length record))) eqn:En.
  - destruct (about_to_start d s recss Hok Hn) as (g & Hab). unfold put_spill at 1. cbn [fst].
    unfold mbind at 1, StateR_bind at 1, get_spill at 1. cbn [snd].
    rewrite (ap_segments _ _ _ _ _ _ Hab), last_snoc.
    destruct (append_to_active d (start_spill_segment s) (sp_segments s) g recss [] session record)
      as (d' & s' & k & E & Hd' & Hok' & Hk & Hend); try done.
    exists d', s', (recss ++ [[] ++ [(se_id session, line)]]), k. split_and!; try done.
    + by rewrite concat_app.
    + rewrite length_app. simpl. lia.
  - cbn [mret StateR_ret]. unfold mbind at 1, StateR_bind at 1, get_spill at 1. cbn [snd].
    destruct (about_to_continue d s recss _ Hok En) as (segs & g & recss0 & recs & -> & Hab).
    rewrite (ap_segments _ _ _ _ _ _ Hab), last_snoc.
    destruct (append_to_active d s segs g recss0 recs session record)
      as (d' & s' & k & E & Hd' & Hok' & Hk & Hend); try done.
    exists d', s', (recss0 ++ [recs ++ [(se_id session, line)]]), k. split_and!; try done.
    + rewrite !concat_app. cbn. by rewrite !app_nil_r, app_assoc.
    + rewrite length_app. simpl. lia.
Qed.
End Segments.

(** ** Reading back *)

Section Reading.
Context {Zc : ZstdCodec} {Zl : ZstdLaws Zc}.

Lemma bodies_app a b : bodies (a ++ b) = bodies a ++ bodies b.
Proof. apply flat_map_app. Qed.

(** A segment read from its own files returns its records. *)
Lemma read_segment_ok files dir g recs d :
  faultless d -> d_files d = files -> seg_ok files dir g recs ->
  exists d' r, SpillReadSegment_open g d = (d', Ok r) /\ faultless d' /\ d_files d' = files /\
    read_snapshot_segment r = Ok (bodies recs, 0).
Proof.
  intros Hd <- (data & entries & [H1 H2 H3 H4 H5 H6 H7] & [x Hx] & [y Hy]).
  unfold SpillReadSegment_open.
  destruct (read_file_spec _ _ d Hd Hx) as (d1 & -> & Ef1 & Hd1). rewrite <- Ef1 in Hy.
  destruct (read_file_spec _ _ d1 Hd1 Hy) as (d2 & -> & Ef2 & Hd2).
  eexists d2, _. split; [reflexivity|]. split_and!; [done|congruence|].
  rewrite Hx in H4. rewrite Ef1 in Hy. rewrite Hy in H5. cbn in H4, H5. subst x y.
  unfold read_snapshot_segment. cbn [rd_index rd_index_len rd_data rd_data_len rd_compression].
  rewrite H6, H7, !Nat2N.id, !firstn_all.
  pose proof (contents_ascii _ _ _ _ H1) as Ha.
  rewrite <- (encode_ascii (terminated entries)) by done.
  rewrite from_utf8_encode by (by apply valid_ascii).
  rewrite (contents_lines _ _ _ _ H1). rewrite <- (app_nil_r data).
  by rewrite (read_entries_contents _ _ _ _ [] H1).
Qed.

Lemma read_segments_ok files dir segs recss d :
  faultless d -> d_files d = files -> Forall2 (seg_ok files dir) segs recss ->
  exists d' rs, open_segments segs d = (d', Ok rs) /\ faultless d' /\ d_files d' = files /\
    forall body corrupt, corrupt <= U64_MAX ->
      read_verified_snapshot_from body corrupt rs = Ok (body ++ bodies (concat recss), corrupt).
Proof.
  intros Hd Hf Hs. revert d Hd Hf. induction Hs as [|g recs segs recss Hg _ IH]; intros d Hd Hf.
  - eexists d, []. split_and!; try done. intros body corrupt _. by rewrite app_nil_r.
  - destruct (read_segment_ok files dir g recs d Hd Hf Hg) as (d1 & r & E1 & Hd1 & Hf1 & Hr).
    destruct (IH d1 Hd1 Hf1) as (d2 & rs & E2 & Hd2 & Hf2 & Hrs).
    exists d2, (r :: rs). cbn [open_segments]. unfold mbind, StateR_bind. rewrite E1, E2.
    split_and!; try done. intros body corrupt Hc. cbn [read_verified_snapshot_from]. rewrite Hr.
    replace (saturating_add U64_MAX corrupt 0) with corrupt by (unfold saturating_add; lia).
    rewrite Hrs by done. cbn [concat]. by rewrite bodies_app, app_assoc.
Qed.

Lemma spill_read_ok d s recss :
  faultless d -> spill_ok d s recss ->
  exists d' rs, spill_read_snapshot (d, s) = ((d', s), Ok rs) /\
    read_verified_snapshot rs = Ok (bodies (concat recss), 0).
Proof.
  intros Hd Hok. unfold spill_read_snapshot.
  unfold mbind at 1, StateR_bind at 1, ensure_spill_initialized. unfold mbind at 1, StateR_bind at 1, get_spill at 1.
  cbn [snd]. rewrite (so_initialized _ _ _ Hok). cbn [mret StateR_ret].
  unfold mbind, StateR_bind, get_spill. cbn [snd]. unfold on_disk.
  destruct (read_segments_ok (d_files d) (sp_dir s) (sp_segments s) recss d Hd eq_refl) as (d' & rs & -> & _ & _ & Hr);
    [apply Hok|].
  exists d', rs. split; [done|]. unfold read_verified_snapshot. by rewrite Hr by (unfold U64_MAX; lia).
Qed.

End Reading.

(** ** On a concrete disk *)

(** A codec that prefixes a marker byte. *)
#[local] Instance sample_zstd : ZstdCodec := {
  zstd_encode_all level input := Ok (40 :: input);
  zstd_decode_all input := match input with b :: r => if b =? 40 then Ok r else Err not_found | [] => Err not_found end;
}.
#[local] Instance sample_zstd_laws : ZstdLaws sample_zstd.
Proof. split. intros level input output [= <-]. done. Qed.

(** An initialized store over an empty directory. *)
Definition sample_spill : TraceSpillState :=
  mkTraceSpillState (lit "d") 700 1200 (TraceSpillCompression.Zstd 3) 1 [] 0 0 true.


Lemma segment_names_roundtrip_witness :
  parse_segment_name (lit "seg-000000000012.ndjson.zst") = Some (12, TraceSpillCompression.Zstd 1).
Proof.
  change (lit "seg-000000000012.ndjson.zst") with (segment_path [] 12 (TraceSpillCompression.Zstd 9)).2.
  apply (segment_names_roundtrip [] 12 (TraceSpillCompression.Zstd 9)). vm_compute. discriminate.
Defined.

Lemma crc32_detects_byte_damage_witness : crc32 (lit "abc") <> crc32 (lit "aXc").
Proof.
  apply (crc32_detects_byte_damage (lit "a") (ch "b") (ch "X") (lit "c")); try (by vm_compute); by repeat constructor.
Defined.
