(* ===== verification/TraceWorker.v ===== *)
(** * The trace collector

    crates/rsproxy-trace/src/store/worker.rs, store/stats.rs, store/follow.rs
    and the producer side of store.rs: commands, the collector thread's
    handling of each, followers, and the budgets that bound it all. *)
From Stdlib Require Import Ascii String.
From stdpp Require Import base numbers list gmap strings.
From S2P Require Import Prelude Model TraceModel TraceMemory TracePending TraceQueue Io Disk TraceSpill.

(** ** Follower channels

    A follower is the collector's end of a bounded channel; the subscriber
    holds the receiver and a liveness token.  Channels live in a heap since
    both sides change them. *)
Record FollowChannel := mkFollowChannel { fc_channel : Channel Session; fc_alive : bool }.
Abbreviation FollowHeap := (gmap N FollowChannel) (only parsing).

(** ** State *)

Record TraceWorker := mkTraceWorker {
  tw_memory : MemoryStore;
  tw_pending : PendingSessions;
  tw_total_memory_budget_bytes : N;
  tw_queue_memory_budget_bytes : N;
  tw_spill : option TraceSpillState;
  tw_spilled : N;
  tw_spill_errors : N;
  tw_last_spill_error : option str;
  tw_spill_corrupt_records : N;
  tw_spill_read_generation : N;
  tw_followers : list N;
  tw_follow_dropped : N;
}.

(** The collector with the disk it spills to and the channels it publishes on. *)
Record Collector := mkCollector {
  co_worker : TraceWorker;
  co_disk : Disk;
  co_channels : FollowHeap;
}.

Record TraceStats := mkTraceStats {
  ts_sessions : N;
  ts_max_sessions : N;
  ts_dropped : N;
  ts_queue_dropped : N;
  ts_queue_capacity : N;
  ts_queue_bytes : N;
  ts_queue_memory_budget_bytes : N;
  ts_queue_memory_dropped : N;
  ts_evicted_sessions : N;
  ts_memory_bytes : N;
  ts_completed_memory_bytes : N;
  ts_pending_memory_bytes : N;
  ts_resident_memory_budget_bytes : N;
  ts_total_memory_bytes : N;
  ts_memory_budget_bytes : N;
  ts_next_id : N;
  ts_pending_sessions : N;
  ts_incomplete_sessions : N;
  ts_orphan_events : N;
  ts_follow_subscribers : N;
  ts_follow_dropped : N;
  ts_spilled : N;
  ts_spill_path : option str;
  ts_spill_dir : option str;
  ts_spill_bytes : N;
  ts_spill_segments : N;
  ts_spill_segment_bytes : N;
  ts_spill_disk_budget_bytes : N;
  ts_spill_compression : option str;
  ts_spill_evicted_segments : N;
  ts_spill_errors : N;
  ts_last_spill_error : option str;
  ts_spill_index_entries : N;
  ts_spill_corrupt_records : N;
}.

Module Command.
Inductive t :=
| Event (event : TraceEvent.t) (queued_bytes : N)
| Events (events : list TraceEvent.t) (queued_bytes : N)
| List_ (limit : N)
| ListAfter (after limit : N)
| Get (id : N)
| Clear
| Stats
| SpillPath
| SpillPaths
| SpillSnapshot
| SpillReadReport (generation corrupt : N)
| Follow (after backlog_limit : N) (sender : N) (reply_open : bool)
| Shutdown.

(** The reservation a command carries. *)
Definition queued_bytes (c : t) : N :=
  match c with Event _ b | Events _ b => b | _ => 0 end.
End Command.

Module Reply.
Inductive t :=
| Nothing
| Sessions (l : list Session)
| Session_ (s : option Session)
| Statistics (s : TraceStats)
| Path_ (p : option Path)
| Paths (l : list Path)
| Snapshot (r : Result IoError (N * list SpillReadSegment)).
End Reply.

Section Worker.
Context {L : Layout} {Zc : ZstdCodec}.

Definition TraceWorker_new (max_sessions total_memory resident_memory queue_memory body_limit now : N)
    (spill_config : option TraceSpillConfig) : TraceWorker :=
  mkTraceWorker (MemoryStore_new max_sessions resident_memory) (PendingSessions_new body_limit now)
    total_memory queue_memory (TraceSpillState_new <$> spill_config) 0 0 None 0 0 [] 0.

(** ** Field updates *)

Definition set_memory (w : TraceWorker) (m : MemoryStore) : TraceWorker :=
  mkTraceWorker m (tw_pending w) (tw_total_memory_budget_bytes w) (tw_queue_memory_budget_bytes w)
    (tw_spill w) (tw_spilled w) (tw_spill_errors w) (tw_last_spill_error w)
    (tw_spill_corrupt_records w) (tw_spill_read_generation w) (tw_followers w) (tw_follow_dropped w).
Definition set_pending (w : TraceWorker) (p : PendingSessions) : TraceWorker :=
  mkTraceWorker (tw_memory w) p (tw_total_memory_budget_bytes w) (tw_queue_memory_budget_bytes w)
    (tw_spill w) (tw_spilled w) (tw_spill_errors w) (tw_last_spill_error w)
    (tw_spill_corrupt_records w) (tw_spill_read_generation w) (tw_followers w) (tw_follow_dropped w).
Definition set_spill (w : TraceWorker) (s : option TraceSpillState) (spilled errors : N)
    (last : option str) : TraceWorker :=
  mkTraceWorker (tw_memory w) (tw_pending w) (tw_total_memory_budget_bytes w)
    (tw_queue_memory_budget_bytes w) s spilled errors last (tw_spill_corrupt_records w)
    (tw_spill_read_generation w) (tw_followers w) (tw_follow_dropped w).
Definition set_spill_reads (w : TraceWorker) (last : option str) (corrupt generation : N) : TraceWorker :=
  mkTraceWorker (tw_memory w) (tw_pending w) (tw_total_memory_budget_bytes w)
    (tw_queue_memory_budget_bytes w) (tw_spill w) (tw_spilled w) (tw_spill_errors w) last corrupt
    generation (tw_followers w) (tw_follow_dropped w).
Definition set_followers (w : TraceWorker) (followers : list N) (dropped : N) : TraceWorker :=
  mkTraceWorker (tw_memory w) (tw_pending w) (tw_total_memory_budget_bytes w)
    (tw_queue_memory_budget_bytes w) (tw_spill w) (tw_spilled w) (tw_spill_errors w)
    (tw_last_spill_error w) (tw_spill_corrupt_records w) (tw_spill_read_generation w) followers dropped.

(** ** Operations *)

Definition record_spill_error (w : TraceWorker) (e : IoError) : TraceWorker :=
  set_spill w (tw_spill w) (tw_spilled w) (saturating_add U64_MAX (tw_spill_errors w) 1)
    (Some (io_message e)).

Definition with_spill_state (w : TraceWorker) (s : TraceSpillState) : TraceWorker :=
  set_spill w (Some s) (tw_spilled w) (tw_spill_errors w) (tw_last_spill_error w).

(** Run code on the spill state, if spilling is configured; errors are recorded. *)
Definition run_spill (c : Collector) (op : SpillM unit) (on_ok : TraceWorker -> TraceWorker) : Collector :=
  match tw_spill (co_worker c) with
  | None => c
  | Some s =>
      let '((d, s), r) := op (co_disk c, s) in
      let w := with_spill_state (co_worker c) s in
      mkCollector (match r with Ok _ => on_ok w | Err e => record_spill_error w e end) d (co_channels c)
  end.

Definition ensure_spill (c : Collector) : Collector :=
  run_spill c ensure_spill_initialized (fun w => w).

(** [TraceWorker::publish]: dead followers go, full channels lose the session. *)
Fixpoint publish_to (session : Session) (followers : list N) (heap : FollowHeap) (dropped : N)
    : list N * FollowHeap * N :=
  match followers with
  | [] => ([], heap, dropped)
  | f :: rest =>
      match heap !! f with
      | Some fc =>
          if negb (fc_alive fc) then publish_to session rest heap dropped
          else if negb (ch_open (fc_channel fc)) then publish_to session rest heap dropped
          else
            let '(chan, sent) := try_send (fc_channel fc) session in
            let heap := <[f := mkFollowChannel chan (fc_alive fc)]> heap in
            let dropped := if sent then dropped else saturating_add U64_MAX dropped 1 in
            let '(active, heap, dropped) := publish_to session rest heap dropped in
            (f :: active, heap, dropped)
      | None => publish_to session rest heap dropped
      end
  end.

Definition publish (c : Collector) (session : Session) : Collector :=
  let '(active, heap, dropped) :=
    publish_to session (tw_followers (co_worker c)) (co_channels c) (tw_follow_dropped (co_worker c)) in
  mkCollector (set_followers (co_worker c) active dropped) (co_disk c) heap.

Definition prune_followers (c : Collector) : Collector :=
  mkCollector
    (set_followers (co_worker c)
       (List.filter (fun f => match co_channels c !! f with Some fc => fc_alive fc | None => false end)
          (tw_followers (co_worker c)))
       (tw_follow_dropped (co_worker c)))
    (co_disk c) (co_channels c).

Definition commit (c : Collector) (session : Session) : Collector :=
  let c := run_spill c (append_spill session) (fun w =>
    set_spill w (tw_spill w) (saturating_add U64_MAX (tw_spilled w) 1) (tw_spill_errors w) None) in
  let c := mkCollector (set_memory (co_worker c) (MemoryStore_insert (tw_memory (co_worker c)) session))
             (co_disk c) (co_channels c) in
  if is_emptyb (tw_followers (co_worker c)) then c else publish c session.

Definition enforce_memory_budget (w : TraceWorker) (current_id : option N) : TraceWorker :=
  let budget := ms_memory_budget_bytes (tw_memory w) in
  let pending := match current_id with
                 | Some id => if budget <? pd_memory_bytes (tw_pending w)
                              then abort_for_budget (tw_pending w) id else tw_pending w
                 | None => tw_pending w
                 end in
  set_memory (set_pending w pending)
    (evict_to_budget (tw_memory w) (saturating_sub budget (pd_memory_bytes pending))).

Definition on_worker (c : Collector) (f : TraceWorker -> TraceWorker) : Collector :=
  mkCollector (f (co_worker c)) (co_disk c) (co_channels c).

Definition apply_event (clock : Clock) (c : Collector) (event : TraceEvent.t) (enforce_budget : bool)
    : Collector :=
  let id := TraceEvent.session_id event in
  let '(pending, published) := PendingSessions_apply clock (tw_pending (co_worker c)) event in
  let c := on_worker c (fun w => set_pending w pending) in
  let c := match published with Some session => commit c session | None => c end in
  if enforce_budget then on_worker c (fun w => enforce_memory_budget w (Some id)) else c.

(** The loop of the [Events] command. *)
Fixpoint apply_events (clock : nat -> Clock) (c : Collector) (events : list TraceEvent.t) : Collector :=
  match events with
  | [] => c
  | e :: events' => apply_events (fun i => clock (S i)) (apply_event (clock O) c e false) events'
  end.

Definition clear (c : Collector) : Collector :=
  let w := co_worker c in
  let w := set_pending (set_memory w (MemoryStore_clear (tw_memory w))) (PendingSessions_clear (tw_pending w)) in
  let w := set_spill w (tw_spill w) 0 0 None in
  let w := set_spill_reads w (tw_last_spill_error w) 0 (wrapping_add64 (tw_spill_read_generation w) 1) in
  run_spill (mkCollector w (co_disk c) (co_channels c)) clear_spill (fun w => w).

Definition spill_field {A} (w : TraceWorker) (f : TraceSpillState -> A) (d : A) : A :=
  match tw_spill w with Some s => f s | None => d end.

Definition stats (c : Collector) (counters : TraceCounters) (queue_capacity : N) : Collector * TraceStats :=
  let c := prune_followers (ensure_spill c) in
  let w := co_worker c in
  let completed := ms_memory_bytes (tw_memory w) in
  let pending := pd_memory_bytes (tw_pending w) in
  let memory := completed +s pending in
  (c, mkTraceStats (ms_len (tw_memory w)) (ms_max_sessions (tw_memory w)) (queue_dropped counters)
    (queue_dropped counters) queue_capacity (queue_bytes counters) (tw_queue_memory_budget_bytes w)
    (queue_memory_dropped counters) (ms_evicted_sessions (tw_memory w)) memory completed pending
    (ms_memory_budget_bytes (tw_memory w)) (memory +s queue_bytes counters)
    (tw_total_memory_budget_bytes w) (next_id counters)
    (N.of_nat (size (pd_sessions (tw_pending w)))) (pd_incomplete_sessions (tw_pending w))
    (pd_orphan_events (tw_pending w)) (N.of_nat (length (tw_followers w))) (tw_follow_dropped w)
    (tw_spilled w) (spill_field w (fun s => Some (path_display (active_or_next_path s))) None)
    (spill_field w (fun s => Some (sp_dir s)) None) (spill_field w sp_bytes_on_disk 0)
    (spill_field w (fun s => N.of_nat (length (sp_segments s))) 0)
    (spill_field w sp_segment_bytes 0) (spill_field w sp_disk_budget_bytes 0)
    (spill_field w (fun s => Some (TraceSpillCompression.name (sp_compression s))) None)
    (spill_field w sp_evicted_segments 0) (tw_spill_errors w) (tw_last_spill_error w)
    (spill_field w (fun s => fold_left wrapping_add64 (map sg_indexed_records (sp_segments s)) 0) 0)
    (tw_spill_corrupt_records w)).

Definition spill_snapshot (c : Collector) : Collector * Result IoError (N * list SpillReadSegment) :=
  match tw_spill (co_worker c) with
  | None => (c, Ok (tw_spill_read_generation (co_worker c), []))
  | Some s =>
      let '((d, s), r) := spill_read_snapshot (co_disk c, s) in
      (mkCollector (with_spill_state (co_worker c) s) d (co_channels c),
       match r with
       | Ok rs => Ok (tw_spill_read_generation (co_worker c), rs)
       | Err e => Err e
       end)
  end.

(** One round of the collector's loop; [true] when it goes on. *)
Definition handle (clock : nat -> Clock) (queue_capacity : N) (c : Collector) (counters : TraceCounters)
    (command : Command.t) : Collector * TraceCounters * Reply.t * bool :=
  let w := co_worker c in
  match command with
  | Command.Event event queued =>
      (apply_event (clock O) c event true, release_queue_bytes counters queued, Reply.Nothing, true)
  | Command.Events events queued =>
      let c := apply_events clock c events in
      (on_worker c (fun w => enforce_memory_budget w None), release_queue_bytes counters queued,
       Reply.Nothing, true)
  | Command.List_ limit => (c, counters, Reply.Sessions (MemoryStore_list (tw_memory w) limit), true)
  | Command.ListAfter after limit =>
      (c, counters, Reply.Sessions (MemoryStore_list_after (tw_memory w) after limit), true)
  | Command.Get id => (c, counters, Reply.Session_ (MemoryStore_get (tw_memory w) id), true)
  | Command.Clear => (clear c, counters, Reply.Nothing, true)
  | Command.Stats =>
      let '(c, s) := stats c counters queue_capacity in (c, counters, Reply.Statistics s, true)
  | Command.SpillPath =>
      let c := ensure_spill c in
      (c, counters, Reply.Path_ (active_or_next_path <$> tw_spill (co_worker c)), true)
  | Command.SpillPaths =>
      let c := ensure_spill c in
      (c, counters, Reply.Paths (spill_field (co_worker c) (fun s => map sg_path (sp_segments s)) []), true)
  | Command.SpillSnapshot =>
      let '(c, r) := spill_snapshot c in (c, counters, Reply.Snapshot r, true)
  | Command.SpillReadReport generation corrupt =>
      let w' := if generation =? tw_spill_read_generation w then
                  set_spill_reads w
                    (if 0 <? corrupt
                     then Some (lit "skipped " ++ show_N corrupt ++ lit " corrupt spill record(s)")
                     else tw_last_spill_error w)
                    corrupt (tw_spill_read_generation w)
                else w in
      (mkCollector w' (co_disk c) (co_channels c), counters, Reply.Nothing, true)
  | Command.Follow after backlog_limit sender reply_open =>
      let backlog := MemoryStore_list_after (tw_memory w) after backlog_limit in
      let w' := if reply_open then set_followers w (tw_followers w ++ [sender]) (tw_follow_dropped w) else w in
      (mkCollector w' (co_disk c) (co_channels c), counters, Reply.Sessions backlog, true)
  | Command.Shutdown => (c, counters, Reply.Nothing, false)
  end.

(** ** Producers (store.rs) *)

Record TraceStore := mkTraceStore {
  sr_counters : TraceCounters;
  sr_channel : Channel Command.t;
  sr_collector : Collector;
  sr_queue_budget : N;
}.

Definition submit_command (st : TraceStore) (command : Command.t) (queued_bytes : N) : TraceStore * bool :=
  let '(counters, chan, accepted) :=
    submit (sr_queue_budget st) (sr_counters st) (sr_channel st) command queued_bytes in
  (mkTraceStore counters chan (sr_collector st) (sr_queue_budget st), accepted).

Definition set_id (s : Session) (id : N) : Session :=
  mkSession id (se_kind s) (se_started_ms s) (se_duration_ms s) (se_pool_wait_ms s) (se_dns_ms s)
    (se_connect_ms s) (se_ttfb_ms s) (se_request_send_ms s) (se_response_receive_ms s) (se_method s)
    (se_url s) (se_status s) (se_client s) (se_upstream s) (se_request_bytes s)
    (se_response_bytes s) (se_matched_rules s) (se_flags s) (se_error s) (se_req_headers s)
    (se_req_trailers s) (se_req_body_head s) (se_res_headers s) (se_res_trailers s)
    (se_res_body_head s) (se_frames s) (se_tls s).

Definition take_store_id (st : TraceStore) : N * TraceStore :=
  let '(id, counters) := take_id (sr_counters st) in
  (id, mkTraceStore counters (sr_channel st) (sr_collector st) (sr_queue_budget st)).

Definition TraceStore_record (st : TraceStore) (session : Session) : TraceStore * N :=
  let '(id, st) := take_store_id st in
  let session := set_id session id in
  let queued := estimate_session_bytes session in
  let '(st, _) := submit_command st (Command.Events (TraceEvent.from_session session) queued) queued in
  (st, id).

Definition TraceStore_emit (st : TraceStore) (event : TraceEvent.t) : TraceStore * bool :=
  let queued := estimated_bytes event in submit_command st (Command.Event event queued) queued.

Definition TraceStore_start (st : TraceStore) (start : SessionStart) : TraceStore * N :=
  let '(id, st) := take_store_id st in
  let '(st, _) := TraceStore_emit st (TraceEvent.Start id start) in (st, id).

Definition TraceStore_finish (st : TraceStore) (session : Session) : TraceStore * bool :=
  if se_id session =? 0 then (st, false)
  else
    let queued := estimate_session_bytes session in
    submit_command st (Command.Events (TraceEvent.continuation_from_session session) queued) queued.

Definition TraceStore_abort (st : TraceStore) (id : N) : TraceStore * bool :=
  TraceStore_emit st (TraceEvent.Abort id).

(** A query waits for room in the queue and holds no reservation. *)
Definition query (st : TraceStore) (command : Command.t) : TraceStore :=
  mkTraceStore (sr_counters st) (push (sr_channel st) command) (sr_collector st) (sr_queue_budget st).

Record TraceStoreConfig := mkTraceStoreConfig {
  cf_max_sessions : N;
  cf_queue_capacity : N;
  cf_memory_budget_bytes : N;
  cf_queue_memory_budget_bytes : option N;
  cf_body_limit : N;
  cf_spill : option TraceSpillConfig;
}.

Definition TraceStoreConfig_default : TraceStoreConfig :=
  mkTraceStoreConfig 4096 DEFAULT_TRACE_QUEUE_CAPACITY DEFAULT_TRACE_MEMORY_BUDGET None
    DEFAULT_TRACE_BODY_LIMIT None.

(** [TraceStore::new_with_config], on a disk and at an instant. *)
Definition TraceStore_new_with_config (config : TraceStoreConfig) (disk : Disk) (now : N) : TraceStore :=
  let '(queue_budget, resident_budget) :=
    memory_partitions (cf_memory_budget_bytes config) (cf_queue_memory_budget_bytes config) in
  mkTraceStore TraceCounters_new (mkChannel (N.max (cf_queue_capacity config) 1) [] true)
    (mkCollector
       (TraceWorker_new (cf_max_sessions config) (cf_memory_budget_bytes config) resident_budget
          queue_budget (cf_body_limit config) now (cf_spill config)) disk ∅)
    queue_budget.

(** The collector takes one command. *)
Definition collect (clock : nat -> Clock) (st : TraceStore) : option (TraceStore * Reply.t) :=
  match ch_queue (sr_channel st) with
  | [] => None
  | command :: rest =>
      let chan := mkChannel (ch_capacity (sr_channel st)) rest (ch_open (sr_channel st)) in
      let '(c, counters, reply, goes_on) :=
        handle clock (ch_capacity (sr_channel st)) (sr_collector st) (sr_counters st) command in
      Some (mkTraceStore counters (if goes_on : bool then chan else mkChannel (ch_capacity chan) [] false) c
              (sr_queue_budget st), reply)
  end.
End Worker.

(** ** Bounded memory *)

Section Bounds.
Context {L : Layout} {Zc : ZstdCodec}.

Lemma run_spill_resident c op on_ok :
  (forall w, tw_memory (on_ok w) = tw_memory w /\ tw_pending (on_ok w) = tw_pending w) ->
  tw_memory (co_worker (run_spill c op on_ok)) = tw_memory (co_worker c) /\
  tw_pending (co_worker (run_spill c op on_ok)) = tw_pending (co_worker c).
Proof.
  intros H. unfold run_spill. destruct (tw_spill (co_worker c)) as [s|]; [|done].
  destruct (op (co_disk c, s)) as [[d s'] [x|e]]; cbn; [|done].
  apply (H (with_spill_state (co_worker c) s')).
Qed.

Lemma publish_resident c session :
  tw_memory (co_worker (publish c session)) = tw_memory (co_worker c) /\
  tw_pending (co_worker (publish c session)) = tw_pending (co_worker c).
Proof. unfold publish. by destruct (publish_to _ _ _ _) as [[a h] d]. Qed.

Lemma commit_resident c session :
  tw_memory (co_worker (commit c session)) = MemoryStore_insert (tw_memory (co_worker c)) session /\
  tw_pending (co_worker (commit c session)) = tw_pending (co_worker c).
Proof.
  unfold commit.
  pose proof (run_spill_resident c (append_spill session) (fun w =>
    set_spill w (tw_spill w) (saturating_add U64_MAX (tw_spilled w) 1) (tw_spill_errors w) None)
    (fun w => conj eq_refl eq_refl)) as [H1 H2].
  case_goal; cbn; [by rewrite H1, H2|].
  match goal with |- context [publish ?x ?y] => destruct (publish_resident x y) as [-> ->] end.
  cbn. by rewrite H1, H2.
Qed.

(** The two parts of resident memory and their common budget. *)
Record resident_ok (c : Collector) : Prop := {
  ro_memory : memory_ok (tw_memory (co_worker c));
  ro_evicted : ms_evicted_sessions (tw_memory (co_worker c)) <= U64_MAX;
  ro_budget : ms_memory_bytes (tw_memory (co_worker c)) + pd_memory_bytes (tw_pending (co_worker c)) <=
    ms_memory_budget_bytes (tw_memory (co_worker c));
}.

(** The completed part alone, while a command is being processed. *)
Record completed_ok (budget : N) (c : Collector) : Prop := {
  cp_memory : memory_ok (tw_memory (co_worker c));
  cp_evicted : ms_evicted_sessions (tw_memory (co_worker c)) <= U64_MAX;
  cp_budget : ms_memory_budget_bytes (tw_memory (co_worker c)) = budget;
}.

Lemma apply_event_completed clock budget c event :
  completed_ok budget c -> completed_ok budget (apply_event clock c event false) /\
  tw_pending (co_worker (apply_event clock c event false)) =
    (PendingSessions_apply clock (tw_pending (co_worker c)) event).1.
Proof.
  intros [H1 H2 H3]. unfold apply_event. destruct (PendingSessions_apply _ _ _) as [p [s|]]; cbn [fst].
  - destruct (commit_resident (on_worker c (fun w => set_pending w p)) s) as [E1 E2].
    rewrite E2. split; [|done]. destruct (memory_ok_insert _ s H1 H2). destruct (insert_params (tw_memory (co_worker c)) s).
    split; rewrite E1; cbn; congruence.
  - split; [by split|done].
Qed.

Lemma enforce_resident budget w id bound :
  memory_ok (tw_memory w) -> ms_evicted_sessions (tw_memory w) <= U64_MAX ->
  ms_memory_budget_bytes (tw_memory w) = budget -> bound <= budget ->
  match id with
  | Some id => within bound (tw_pending w) id
  | None => pd_memory_bytes (tw_pending w) <= bound
  end ->
  forall d h, resident_ok (mkCollector (enforce_memory_budget w id) d h).
Proof.
  intros Hm He Hb Hle Hp d h. unfold enforce_memory_budget. rewrite Hb.
  set (p := match id with Some id => _ | None => _ end).
  assert (pd_memory_bytes p <= budget) as Hpd.
  { unfold p. destruct id as [id|]; [|lia]. destruct (N.ltb_spec budget (pd_memory_bytes (tw_pending w))); [|done].
    etransitivity; [apply (abort_within bound); exact Hp|done]. }
  destruct (evict_to_budget_spec (tw_memory w) (saturating_sub budget (pd_memory_bytes p)) Hm He)
    as (k & E & Hk & _).
  split; cbn; rewrite E.
  - by apply memory_ok_evicted.
  - cbn. unfold saturating_add. lia.
  - cbn. rewrite Hb. unfold saturating_sub in Hk. lia.
Qed.

(** Batches the producers submit: events of one session, the last closing it. *)
Definition batch_ok (events : list TraceEvent.t) : Prop :=
  exists id init e, events = init ++ [e] /\ closes e = true /\
    Forall (fun e => TraceEvent.session_id e = id) (init ++ [e]).

Lemma apply_events_within budget bound id events clock c :
  completed_ok budget c -> within bound (tw_pending (co_worker c)) id ->
  Forall (fun e => TraceEvent.session_id e = id) events ->
  completed_ok budget (apply_events clock c events) /\
  within bound (tw_pending (co_worker (apply_events clock c events))) id.
Proof.
  revert clock c. induction events as [|e events IH]; intros clock c Hc Hw He; [done|].
  inversion He as [|? ? <- He']; subst. cbn [apply_events].
  destruct (apply_event_completed (clock O) budget c e Hc) as [Hc' Hp].
  apply IH; [done| |done]. rewrite Hp. by apply apply_within.
Qed.

Lemma apply_events_app clock c es1 es2 :
  apply_events clock c (es1 ++ es2) =
  apply_events (fun i => clock (length es1 + i)%nat) (apply_events clock c es1) es2.
Proof. revert clock c. induction es1 as [|e es1 IH]; intros clock c; [done|]. cbn. by rewrite IH. Qed.

Lemma apply_batch budget bound events clock c :
  completed_ok budget c -> pd_memory_bytes (tw_pending (co_worker c)) <= bound -> batch_ok events ->
  completed_ok budget (apply_events clock c events) /\
  pd_memory_bytes (tw_pending (co_worker (apply_events clock c events))) <= bound.
Proof.
  intros Hc Hp (id & init & e & -> & Hcl & Hall). apply Forall_app in Hall as [Hinit He].
  inversion He as [|? ? Hid _]; subst.
  destruct (apply_events_within budget bound (TraceEvent.session_id e) init clock c Hc) as [Hc1 Hw1];
    [unfold within; lia|done|].
  rewrite apply_events_app. cbn [apply_events].
  destruct (apply_event_completed (clock (length init + 0)%nat) budget _ e Hc1) as [Hc2 Hp2].
  split; [exact Hc2|]. rewrite Hp2. by apply apply_closes.
Qed.

Lemma resident_completed c :
  resident_ok c -> completed_ok (ms_memory_budget_bytes (tw_memory (co_worker c))) c /\
  pd_memory_bytes (tw_pending (co_worker c)) <= ms_memory_budget_bytes (tw_memory (co_worker c)).
Proof. intros [H1 H2 H3]. split; [by split|lia]. Qed.

Definition command_ok (c : Command.t) : Prop :=
  match c with Command.Events es _ => batch_ok es | _ => True end.

(** Every command leaves resident memory within its budget. *)
Lemma handle_resident clock cap c counters command :
  resident_ok c -> command_ok command -> resident_ok (handle clock cap c counters command).1.1.1.
Proof.
  intros Hr Hcmd. destruct (resident_completed c Hr) as [Hc Hp].
  set (budget := ms_memory_budget_bytes (tw_memory (co_worker c))) in *.
  assert (forall c', tw_memory (co_worker c') = tw_memory (co_worker c) ->
    tw_pending (co_worker c') = tw_pending (co_worker c) -> resident_ok c') as Hsame.
  { intros c' E1 E2. destruct Hr. split; rewrite ?E1, ?E2; done. }
  destruct command; cbn [handle fst]; try done.
  - destruct (apply_event_completed (clock O) budget c event Hc) as [Hc' Hp'].
    unfold apply_event in *. destruct (PendingSessions_apply _ _ _) as [p o] eqn:E. cbn [fst] in *.
    set (c1 := match o with Some session => _ | None => _ end) in *. destruct Hc' as [H1 H2 H3].
    apply (enforce_resident budget (co_worker c1) (Some (TraceEvent.session_id event)) budget); try done.
    rewrite Hp'. change p with (fst (p, o)). rewrite <- E. apply apply_within. unfold within. lia.
  - destruct (apply_batch budget budget events clock c Hc Hp Hcmd) as [[H1 H2 H3] Hp'].
    by apply (enforce_resident budget _ None budget).
  - unfold clear. match goal with |- resident_ok (run_spill ?x _ _) =>
      destruct (run_spill_resident x clear_spill (fun w => w)) as [E1 E2]; [done|] end.
    destruct Hr as [H1 H2 H3]. split; rewrite ?E1, ?E2; cbn; [by apply memory_ok_clear|done|lia].
  - destruct (run_spill_resident c ensure_spill_initialized (fun w => w)) as [E1 E2]; [done|].
    unfold stats. cbn [fst]. by apply Hsame.
  - destruct (run_spill_resident c ensure_spill_initialized (fun w => w)) as [E1 E2]; [done|].
    by apply Hsame.
  - destruct (run_spill_resident c ensure_spill_initialized (fun w => w)) as [E1 E2]; [done|].
    by apply Hsame.
  - unfold spill_snapshot. destruct (tw_spill (co_worker c)); [|done].
    destruct (spill_read_snapshot _) as [[d s] r]. cbn. by apply Hsame.
  - apply Hsame; by case_goal.
  - apply Hsame; by case_goal.
Qed.

Lemma from_session_batch s :
  batch_ok (TraceEvent.from_session s) /\ batch_ok (TraceEvent.continuation_from_session s).
Proof.
  assert (Forall (fun e => TraceEvent.session_id e = se_id s)
    (session_updates s ++ [TraceEvent.End_ (se_id s) (TraceEvent.session_end s)])) as Hall.
  { apply Forall_app. split; [|by repeat constructor].
    eapply Forall_impl; [apply session_updates_update|]. by intros e [H _]. }
  unfold TraceEvent.continuation_from_session. rewrite from_session_shape. split.
  - exists (se_id s), (TraceEvent.Start (se_id s) (SessionStart_from_session s) :: session_updates s), (TraceEvent.End_ (se_id s) (TraceEvent.session_end s)). split_and!; [done..|]. by constructor.
  - by exists (se_id s), (session_updates s), (TraceEvent.End_ (se_id s) (TraceEvent.session_end s)).
Qed.

(** ** Whole store *)

Definition queued_total (st : TraceStore) : N :=
  sum_N (map Command.queued_bytes (ch_queue (sr_channel st))).

(** Calls of any thread and rounds of the collector, in any order. *)
Inductive store_step : TraceStore -> TraceStore -> Prop :=
| step_record st session : store_step st (TraceStore_record st session).1
| step_start st start : store_step st (TraceStore_start st start).1
| step_emit st event : store_step st (TraceStore_emit st event).1
| step_finish st session : store_step st (TraceStore_finish st session).1
| step_store_query st command :
    match command with Command.Event _ _ | Command.Events _ _ => False | _ => True end ->
    has_room (sr_channel st) = true -> store_step st (query st command)
| step_collect st clock st' reply : collect clock st = Some (st', reply) -> store_step st st'.

Inductive store_reachable (st0 : TraceStore) : TraceStore -> Prop :=
| sreach_init : store_reachable st0 st0
| sreach_step st st' : store_reachable st0 st -> store_step st st' -> store_reachable st0 st'.

Record store_ok (total : N) (st : TraceStore) : Prop := {
  sk_resident : resident_ok (sr_collector st);
  sk_commands : Forall command_ok (ch_queue (sr_channel st));
  sk_reserved : queued_total st <= queue_bytes (sr_counters st);
  sk_queue : queue_bytes (sr_counters st) <= sr_queue_budget st;
  sk_total : sr_queue_budget st +
    ms_memory_budget_bytes (tw_memory (co_worker (sr_collector st))) = total;
  sk_usize : total < USIZE_MAX;
}.

Lemma submit_ok total st command bytes :
  store_ok total st -> command_ok command -> Command.queued_bytes command = bytes ->
  store_ok total (submit_command st command bytes).1.
Proof.
  intros [H1 H2 H3 H4 H5 H6] Hcmd Hb. unfold submit_command, submit, try_reserve.
  destruct (N.ltb_spec (sr_queue_budget st) (queue_bytes (sr_counters st) +s bytes)) as [Hlt|Hge];
    cbn [negb]; [by split|].
  unfold usize_add, saturating_add in *. unfold try_send. destruct (has_room (sr_channel st)); cbn; split; cbn; try done.
  - apply Forall_app. split; [done|]. by repeat constructor.
  - unfold queued_total in *. cbn. rewrite map_app, sum_N_app. cbn. lia.
  - unfold saturating_sub. unfold queued_total in *. cbn. lia.
  - unfold saturating_sub. lia.
Qed.

Lemma take_id_ok total st : store_ok total st -> store_ok total (take_store_id st).2.
Proof. by intros [H1 H2 H3 H4 H5 H6]. Qed.

Lemma handle_counters clock cap c counters command :
  (handle clock cap c counters command).1.1.2 =
  match command with
  | Command.Event _ b | Command.Events _ b => release_queue_bytes counters b
  | _ => counters
  end.
Proof.
  destruct command; try done. cbn. unfold spill_snapshot.
  destruct (tw_spill (co_worker c)); [|done]. by destruct (spill_read_snapshot _) as [[? ?] ?].
Qed.

Lemma handle_budget clock cap c counters command :
  resident_ok c -> command_ok command ->
  ms_memory_budget_bytes (tw_memory (co_worker (handle clock cap c counters command).1.1.1)) =
  ms_memory_budget_bytes (tw_memory (co_worker c)).
Proof.
  intros Hr Hcmd. destruct (resident_completed c Hr) as [Hc Hp].
  assert (forall w id, memory_ok (tw_memory w) -> ms_evicted_sessions (tw_memory w) <= U64_MAX ->
    ms_memory_budget_bytes (tw_memory (enforce_memory_budget w id)) = ms_memory_budget_bytes (tw_memory w)) as He.
  { intros w id H1 H2. unfold enforce_memory_budget. cbn.
    match goal with |- context [evict_to_budget ?m ?b] => destruct (evict_to_budget_spec m b H1 H2) as (k & -> & _) end.
    done. }
  destruct command; cbn [handle fst]; try done.
  - destruct (apply_event_completed (clock O) _ c event Hc) as [[H1 H2 H3] _].
    unfold apply_event in *. destruct (PendingSessions_apply _ _ _) as [p o].
    cbn [fst on_worker co_worker] in *. rewrite He by done. exact H3.
  - destruct (apply_batch _ _ events clock c Hc Hp Hcmd) as [[H1 H2 H3] _].
    cbn [on_worker co_worker]. rewrite He by done. exact H3.
  - unfold clear. match goal with |- context [run_spill ?x _ _] =>
      destruct (run_spill_resident x clear_spill (fun w => w)) as [E1 E2]; [done|] end. by rewrite E1.
  - destruct (run_spill_resident c ensure_spill_initialized (fun w => w)) as [E1 E2]; [done|].
    unfold stats. cbn. unfold ensure_spill. by rewrite E1.
  - destruct (run_spill_resident c ensure_spill_initialized (fun w => w)) as [E1 E2]; [done|].
    unfold ensure_spill. by rewrite E1.
  - destruct (run_spill_resident c ensure_spill_initialized (fun w => w)) as [E1 E2]; [done|].
    unfold ensure_spill. by rewrite E1.
  - unfold spill_snapshot. destruct (tw_spill (co_worker c)); [|done].
    by destruct (spill_read_snapshot _) as [[d s] r].
  - cbn. by case_goal.
  - cbn. by case_goal.
Qed.

Lemma collect_ok total clock st st' reply :
  store_ok total st -> collect clock st = Some (st', reply) -> store_ok total st'.
Proof.
  intros [H1 H2 H3 H4 H5 H6]. unfold collect.
  destruct (ch_queue (sr_channel st)) as [|command rest] eqn:Eq; [done|].
  inversion H2 as [|? ? Hcmd Hrest]; subst.
  destruct (handle clock _ (sr_collector st) (sr_counters st) command) as [[[c counters] r] go] eqn:E.
  pose proof (handle_resident clock (ch_capacity (sr_channel st)) (sr_collector st) (sr_counters st) command H1 Hcmd) as G1.
  pose proof (handle_budget clock (ch_capacity (sr_channel st)) (sr_collector st) (sr_counters st) command H1 Hcmd) as G2.
  pose proof (handle_counters clock (ch_capacity (sr_channel st)) (sr_collector st) (sr_counters st) command) as G3.
  rewrite E in G1, G2, G3. cbn in G1, G2, G3. injection 1 as <- <-.
  assert (queued_total st = Command.queued_bytes command + sum_N (map Command.queued_bytes rest)) as Hq.
  { unfold queued_total. by rewrite Eq. }
  assert (sum_N (map Command.queued_bytes rest) <= queue_bytes counters /\
    queue_bytes counters <= sr_queue_budget st) as [Hc1 Hc2].
  { rewrite G3. destruct command; cbn in *; unfold saturating_sub; lia. }
  split; cbn; try done; [destruct go; cbn; [done|constructor]| |lia].
  unfold queued_total. cbn. destruct go; cbn; [done|lia].
Qed.

Lemma store_step_ok total st st' : store_ok total st -> store_step st st' -> store_ok total st'.
Proof.
  intros Hok Hstep. destruct Hstep as [st session|st start|st event|st session|st command Hc Hr|st clock st' reply Hco].
  - unfold TraceStore_record. pose proof (take_id_ok total st Hok) as Hok'.
    destruct (take_store_id st) as [id st1]. cbn in Hok'.
    match goal with |- context [submit_command st1 ?c ?b] =>
      pose proof (submit_ok total st1 c b Hok' (proj1 (from_session_batch _)) eq_refl) as H;
      by destruct (submit_command st1 c b) end.
  - unfold TraceStore_start. pose proof (take_id_ok total st Hok) as Hok'.
    destruct (take_store_id st) as [id st1]. cbn in Hok'. unfold TraceStore_emit.
    match goal with |- context [submit_command st1 ?c ?b] =>
      pose proof (submit_ok total st1 c b Hok' I eq_refl) as H; by destruct (submit_command st1 c b) end.
  - by apply submit_ok.
  - unfold TraceStore_finish. case_goal; [done|]. apply submit_ok; [done|apply from_session_batch|done].
  - destruct Hok as [H1 H2 H3 H4 H5 H6]. split; cbn; try done.
    + apply Forall_app. split; [done|]. repeat constructor. by destruct command.
    + unfold queued_total in *. cbn. rewrite map_app, sum_N_app. cbn. destruct command; try done; cbn; lia.
  - by eapply collect_ok.
Qed.

Lemma new_store_ok config disk now :
  cf_memory_budget_bytes config < USIZE_MAX ->
  store_ok (cf_memory_budget_bytes config) (TraceStore_new_with_config config disk now).
Proof.
  intros Hu. unfold TraceStore_new_with_config.
  destruct (memory_partitions _ _) as [q r] eqn:E. unfold memory_partitions in E.
  injection E as Eq Er. rewrite Eq in Er. unfold saturating_sub in Er.
  assert (q <= cf_memory_budget_bytes config) as Hq by lia.
  split; cbn; try done; try lia.
  split; cbn; [apply memory_ok_new; lia|lia|lia].
Qed.
End Bounds.

(** C8: Trace memory stays within the configured total: whatever calls producers
    make, in whatever order the collector serves them, with whatever clock
    readings, spill faults and follower behaviour, queued reservations, completed
    sessions and pending sessions together never exceed the memory budget; each
    part respects its own share and the completed sessions their count limit. *)
Theorem trace_memory_bounded {L : Layout} {Zc : ZstdCodec} config disk now st :
  cf_memory_budget_bytes config < USIZE_MAX ->
  store_reachable (TraceStore_new_with_config config disk now) st ->
  let memory := tw_memory (co_worker (sr_collector st)) in
  let pending := tw_pending (co_worker (sr_collector st)) in
  queue_bytes (sr_counters st) + ms_memory_bytes memory + pd_memory_bytes pending <=
    cf_memory_budget_bytes config /\
  queue_bytes (sr_counters st) <= sr_queue_budget st /\
  ms_memory_bytes memory + pd_memory_bytes pending <= ms_memory_budget_bytes memory /\
  ms_len memory <= ms_max_sessions memory /\
  ms_memory_bytes memory = stored_bytes (ms_sessions memory).
Proof.
  intros Hu Hr. cbv zeta.
  assert (store_ok (cf_memory_budget_bytes config) st) as [[Hm He Hb] _ _ Hq Ht _].
  { induction Hr as [|st st' _ IH Hstep]; [by apply new_store_ok|by eapply store_step_ok]. }
  split_and!; [lia|done|done|by apply Hm|by apply Hm].
Qed.

#[local] Existing Instance sample_layout.
#[local] Instance no_zstd : ZstdCodec := {
  zstd_encode_all level input := Err not_found; zstd_decode_all input := Err not_found
}.

Definition sample_config : TraceStoreConfig := mkTraceStoreConfig 2 4 400 None 2 None.

Lemma trace_memory_bounded_witness :
  let st0 := TraceStore_new_with_config sample_config (mkDisk ∅ []) 0 in
  let st1 := (TraceStore_record st0 (sample_session 0)).1 in
  exists st2 reply, collect (fun i => mkClock 1 1) st1 = Some (st2, reply) /\
    queue_bytes (sr_counters st2) + ms_memory_bytes (tw_memory (co_worker (sr_collector st2))) +
    pd_memory_bytes (tw_pending (co_worker (sr_collector st2))) <= 400 /\
    ms_len (tw_memory (co_worker (sr_collector st2))) = 1.
Proof.
  intros st0 st1. destruct (collect (fun i => mkClock 1 1) st1) as [[st2 reply]|] eqn:E.
  2: { vm_compute in E. discriminate E. }
  exists st2, reply. split; [reflexivity|]. split.
  - apply (trace_memory_bounded sample_config (mkDisk ∅ []) 0 st2); [reflexivity|].
    eapply sreach_step; [eapply sreach_step; [apply sreach_init|apply step_record]|].
    eapply step_collect. exact E.
  - vm_compute in E. injection E as <- <-. reflexivity.
Defined.
