(* ===== verification/Metadata.v ===== *)
(** * Request metadata of templates

    crates/rsproxy-rules/src/template/metadata.rs: the identifier, time and
    random values that templates expose, from the entropy of the operating
    system or from a counter when there is none. *)
From Stdlib Require Import Ascii String.
From stdpp Require Import base numbers list gmap strings.
From S2P Require Import Prelude Utf8 Format Model.

Definition wrap64 (n : N) : N := n mod 2 ^ 64.
Definition splitmix64 (value : N) : N :=
  let value := wrap64 (value + 0x9e3779b97f4a7c15) in
  let value := wrap64 (N.lxor value (N.shiftr value 30) * 0xbf58476d1ce4e5b9) in
  let value := wrap64 (N.lxor value (N.shiftr value 27) * 0x94d049bb133111eb) in
  N.lxor value (N.shiftr value 31).
Definition rotate_left (value bits : N) : N :=
  N.lor (wrap64 (N.shiftl value bits)) (N.shiftr value (64 - bits)).
Definition to_le_bytes (value : N) : list N := map (fun i => N.shiftr value (8 * N.of_nat i) mod 256) (seq 0 8).
Definition from_le_bytes (bytes : list N) : N := foldr (fun byte value => byte + 256 * value) 0 bytes.

(** The loop over the five eight-byte chunks of the entropy. *)
Fixpoint fallback_chunks (chunks : nat) (state : N) : list N :=
  match chunks with
  | O => []
  | S chunks' => let state := splitmix64 state in to_le_bytes state ++ fallback_chunks chunks' state
  end.
(** [fill_fallback_entropy]: the bytes and the next counter. *)
Definition fill_fallback_entropy (counter now_ms pid : N) : list N * N :=
  (fallback_chunks 5 (N.lxor (N.lxor now_ms (rotate_left counter 23)) pid), wrap64 (counter + 1)).

Definition hex_digit (d : N) : char := if d <? 10 then 48 + d else 87 + d.
Definition encode_hex (bytes : list N) : str := flat_map (fun byte => [hex_digit (byte / 16); hex_digit (byte mod 16)]) bytes.
Definition encode_uuid (bytes : list N) : str :=
  let encoded := encode_hex bytes in
  let part from to := take (to - from) (drop from encoded) in
  part 0%nat 8%nat ++ lit "-" ++ part 8%nat 12%nat ++ lit "-" ++ part 12%nat 16%nat ++ lit "-" ++ part 16%nat 20%nat ++
  lit "-" ++ part 20%nat 32%nat.

(** [generate_values] for what [getrandom::fill] returns. *)
Definition generate_values (filled : option (list N)) (counter now_ms pid : N) : TemplateMetadata * N :=
  let '(entropy, counter) :=
    match filled with Some entropy => (entropy, counter) | None => fill_fallback_entropy counter now_ms pid end in
  let at_ i := unwrap_or (entropy !! i) 0 in
  let random := from_le_bytes (take 8 (drop 16 entropy)) in
  let entropy := <[30%nat := N.lor (N.land (at_ 30%nat) 0x0f) 0x40]> entropy in
  let entropy := <[32%nat := N.lor (N.land (at_ 32%nat) 0x3f) 0x80]> entropy in
  (mkTemplateMetadata (encode_hex (take 16 entropy)) now_ms random (encode_uuid (take 16 (drop 24 entropy))), counter).

(** [TemplateMetadata::fixed] *)
Definition TemplateMetadata_fixed (id : str) (now_ms random : N) (random_uuid : str) : TemplateMetadata :=
  mkTemplateMetadata id now_ms random random_uuid.
(** The shared [OnceLock]: the first use generates, every later one reads. *)
Definition get_or_init (cell : option TemplateMetadata) (generated : TemplateMetadata) : TemplateMetadata * option TemplateMetadata :=
  match cell with Some values => (values, cell) | None => (generated, Some generated) end.

(** ** Layout *)

Definition lower_hex (c : char) : bool := is_ascii_digit c || in_range 97 102 c.
(** 8-4-4-4-12 hexadecimal digits of version 4 and variant 1. *)
Definition uuid_layout : list (char -> bool) :=
  let dash c := c =? ch "-" in
  replicate 8 lower_hex ++ [dash] ++ replicate 4 lower_hex ++ [dash; fun c => c =? ch "4"] ++ replicate 3 lower_hex ++
  [dash; fun c => contains_char c (lit "89ab")] ++ replicate 3 lower_hex ++ [dash] ++ replicate 12 lower_hex.
Fixpoint follows (layout : list (char -> bool)) (text : str) : bool :=
  match layout, text with
  | [], [] => true
  | accepts :: layout', c :: text' => accepts c && follows layout' text'
  | _, _ => false
  end.
Definition uuid_v4 (text : str) : bool := follows uuid_layout text.

Lemma byte_cases (P : N -> bool) x : forallb P (map N.of_nat (seq 0 256)) = true -> x < 256 -> P x = true.
Proof.
  intros H Hx. rewrite forallb_forall in H. apply H, in_map_iff. exists (N.to_nat x). split; [lia|]. apply in_seq. lia.
Qed.
Lemma hex_digits x : x < 256 -> lower_hex (hex_digit (x / 16)) && lower_hex (hex_digit (x mod 16)) = true.
Proof. apply (byte_cases (fun x => lower_hex (hex_digit (x / 16)) && lower_hex (hex_digit (x mod 16)))). by vm_compute. Qed.
Lemma version_digit x : x < 256 ->
  let y := N.lor (N.land x 0x0f) 0x40 in (hex_digit (y / 16) =? ch "4") && lower_hex (hex_digit (y mod 16)) = true.
Proof.
  apply (byte_cases (fun x => let y := N.lor (N.land x 0x0f) 0x40 in (hex_digit (y / 16) =? ch "4") && lower_hex (hex_digit (y mod 16)))).
  by vm_compute.
Qed.
Lemma variant_digit x : x < 256 ->
  let y := N.lor (N.land x 0x3f) 0x80 in contains_char (hex_digit (y / 16)) (lit "89ab") && lower_hex (hex_digit (y mod 16)) = true.
Proof.
  apply (byte_cases (fun x => let y := N.lor (N.land x 0x3f) 0x80 in
    contains_char (hex_digit (y / 16)) (lit "89ab") && lower_hex (hex_digit (y mod 16)))).
  by vm_compute.
Qed.
Lemma masked_byte mask bits x :
  forallb (fun x => N.lor (N.land x mask) bits <? 256) (map N.of_nat (seq 0 256)) = true -> x < 256 ->
  N.lor (N.land x mask) bits < 256.
Proof. intros H Hx. apply N.ltb_lt. by apply (byte_cases (fun x => N.lor (N.land x mask) bits <? 256)). Qed.
Definition bytes_ok (bytes : list N) : Prop := Forall (fun b => b < 256) bytes.
Lemma to_le_bytes_ok value : length (to_le_bytes value) = 8%nat /\ bytes_ok (to_le_bytes value).
Proof. split; [done|]. apply Forall_map, Forall_true. intros i. cbv beta. apply N.mod_lt. lia. Qed.
Lemma fallback_chunks_ok chunks state :
  length (fallback_chunks chunks state) = (8 * chunks)%nat /\ bytes_ok (fallback_chunks chunks state).
Proof.
  revert state. induction chunks as [|chunks IH]; intros state; [by split; [|constructor]|]. cbn [fallback_chunks].
  destruct (to_le_bytes_ok (splitmix64 state)) as [Hl Hb], (IH (splitmix64 state)) as [Hl' Hb'].
  split; [rewrite length_app; lia|by apply Forall_app].
Qed.
Lemma from_le_bytes_bound bytes : bytes_ok bytes -> from_le_bytes bytes < 256 ^ N.of_nat (length bytes).
Proof.
  induction 1 as [|b bytes Hb _ IH]; [done|]. cbn [from_le_bytes foldr length]. fold (from_le_bytes bytes).
  rewrite Nat2N.inj_succ, N.pow_succ_r'. lia.
Qed.
Lemma encode_hex_ok bytes :
  bytes_ok bytes -> length (encode_hex bytes) = (2 * length bytes)%nat /\ forallb lower_hex (encode_hex bytes) = true.
Proof.
  induction 1 as [|b bytes Hb _ [IHl IHh]]; [done|]. unfold encode_hex. cbn [flat_map]. fold (encode_hex bytes). split.
  - rewrite length_app. cbn. lia.
  - cbn [app forallb]. rewrite IHh. by rewrite andb_true_r, hex_digits.
Qed.
Lemma encode_uuid_ok bytes :
  length bytes = 16%nat -> bytes_ok bytes ->
  (exists x, x < 256 /\ bytes !! 6%nat = Some (N.lor (N.land x 0x0f) 0x40)) ->
  (exists x, x < 256 /\ bytes !! 8%nat = Some (N.lor (N.land x 0x3f) 0x80)) -> uuid_v4 (encode_uuid bytes) = true.
Proof.
  intros Hl Hb (x & Hx & Ex) (y & Hy & Ey).
  do 16 (destruct bytes as [|? bytes]; [done|]). destruct bytes; [|done]. cbn in Ex, Ey. injection Ex as ->. injection Ey as ->.
  unfold bytes_ok in Hb. repeat (apply Forall_cons in Hb as [? Hb]).
  apply version_digit, andb_true_iff in Hx as [Hx1 Hx2]. apply variant_digit, andb_true_iff in Hy as [Hy1 Hy2].
  repeat match goal with H : ?b < 256 |- _ => apply hex_digits, andb_true_iff in H as [? ?] end.
  unfold uuid_v4, uuid_layout, encode_uuid, encode_hex.
  cbn [flat_map app drop take Nat.sub replicate]. change (lit "-") with [ch "-"]. cbn [app follows].
  repeat (apply andb_true_iff; split; [assumption || reflexivity|]). reflexivity.
Qed.

(** C38: Generated metadata has the documented layout, with the entropy of the
    system and with the fallback alike: the identifier is 32 lower-case
    hexadecimal digits, the random value fits 64 bits and the UUID has the
    layout, version and variant of RFC 4122 version 4. *)
Theorem generated_metadata_layout filled counter now_ms pid :
  match filled with Some entropy => length entropy = 40%nat /\ bytes_ok entropy | None => True end ->
  let values := fst (generate_values filled counter now_ms pid) in
  length (tm_id values) = 32%nat /\ forallb lower_hex (tm_id values) = true /\
  tm_random values < 2 ^ 64 /\ tm_now_ms values = now_ms /\ uuid_v4 (tm_random_uuid values) = true.
Proof.
  intros H. unfold generate_values.
  set (source := match filled with Some entropy => (entropy, counter) | None => fill_fallback_entropy counter now_ms pid end).
  assert (He : length (fst source) = 40%nat /\ bytes_ok (fst source)).
  { unfold source. destruct filled; [done|]. apply fallback_chunks_ok. }
  clearbody source. destruct source as [entropy counter']. cbn [fst] in He. destruct He as [Hl Hb]. clear H.
  assert (Hat : forall i, unwrap_or (entropy !! i) 0 < 256).
  { intros i. destruct (entropy !! i) eqn:E; [exact (Forall_lookup_1 _ _ _ _ Hb E)|done]. }
  pose proof (masked_byte 0x0f 0x40 _ eq_refl (Hat 30%nat)) as H30. pose proof (masked_byte 0x3f 0x80 _ eq_refl (Hat 32%nat)) as H32.
  cbn [fst tm_id tm_random tm_now_ms tm_random_uuid].
  set (e1 := <[30%nat := _]> entropy). set (e2 := <[32%nat := _]> e1).
  assert (Hl2 : length e2 = 40%nat) by (unfold e2, e1; by rewrite !length_insert).
  assert (Hb2 : bytes_ok e2) by (unfold e2, e1; repeat apply Forall_insert; done).
  destruct (encode_hex_ok (take 16 e2)) as [Hid1 Hid2]; [by apply Forall_take|]. rewrite length_take, Hl2 in Hid1.
  split_and!; [done|done| |done|].
  - pose proof (from_le_bytes_bound (take 8 (drop 16 entropy)) ltac:(by apply Forall_take, Forall_drop)) as Hr.
    rewrite length_take, length_drop, Hl in Hr. exact Hr.
  - apply encode_uuid_ok.
    + rewrite length_take, length_drop, Hl2. done.
    + by apply Forall_take, Forall_drop.
    + exists (unwrap_or (entropy !! 30%nat) 0). split; [done|]. rewrite lookup_take_lt, lookup_drop by lia.
      unfold e2. rewrite list_lookup_insert_ne by done. unfold e1. by rewrite list_lookup_insert_eq by lia.
    + exists (unwrap_or (entropy !! 32%nat) 0). split; [done|]. rewrite lookup_take_lt, lookup_drop by lia.
      unfold e2. rewrite list_lookup_insert_eq; [done|]. unfold e1. rewrite length_insert. lia.
Qed.

(** ** The layout of an example *)

Lemma generated_metadata_layout_witness :
  uuid_v4 (tm_random_uuid (fst (generate_values (Some (repeat 255 40)) 1 1700000000000 42))) = true /\
  length (tm_id (fst (generate_values None 1 1700000000000 42))) = 32%nat.
Proof.
  split.
  - apply (generated_metadata_layout (Some (repeat 255 40)) 1 1700000000000 42).
    split; [reflexivity|]. repeat constructor.
  - apply (generated_metadata_layout None 1 1700000000000 42). exact I.
Defined.
