(* ===== verification/Template.v ===== *)
(** * Templates

    Rule values and their rendering: crates/rsproxy-rules/src/bounded_replace.rs,
    action/replace_pattern.rs, template/transform.rs and template/render.rs. *)
From Stdlib Require Import Ascii String.
From stdpp Require Import base numbers list gmap strings.
From S2P Require Import Prelude Family Utf8 Format Io Model Url Engines.

(** ** Texts *)

(** [str::replace]; an empty pattern matches before every character and at the end. *)
Definition str_replace (from to s : str) : str :=
  if is_emptyb from then flat_map (fun c => to ++ [c]) s ++ to else join to (split_str from s).
(** [str::match_indices(..).count()] *)
Definition match_count (from s : str) : N :=
  if is_emptyb from then N.of_nat (S (length s)) else N.of_nat (pred (length (split_str from s))).

(** ** Capture iteration of the [regex] crate *)

(** A match of [captures_iter]: its place in the text, its groups by index
    (group 0 first) and the named groups that took part. *)
Record RegexMatch := mkRegexMatch {
  m_start : nat;
  m_end : nat;
  m_groups : list (option str);
  m_named : list (str * str);
}.
Definition m_get (m : RegexMatch) (index : N) : option str := m_groups m !! N.to_nat index ≫= id.
Definition m_name (m : RegexMatch) (name : str) : option str :=
  snd <$> find (fun kv => fst kv =s? name) (m_named m).

Class CaptureEngine := captures_iter : LinearRegex -> str -> list RegexMatch.

(** ** Bounded replacement *)

Definition limit_error (context : str) (limit : N) : RuleModelError :=
  LimitExceeded context (context ++ lit " exceeds the " ++ show_N limit ++ lit "-byte rendered output limit").

Definition push_bounded (output value : str) (limit : N) (context : str) : Result RuleModelError str :=
  match checked_add USIZE_MAX (len output) (len value) with
  | Some length => if limit <? length then Err (limit_error context limit) else Ok (output ++ value)
  | None => Err (limit_error context limit)
  end.

Module ReplacementToken.
Inductive t := Literal (value : str) | CaptureIndex (index : N) | CaptureName (name : str) | Dollar.
End ReplacementToken.

Definition capture_name_or_index (name : str) : ReplacementToken.t :=
  match parse_uint USIZE_MAX name with
  | Ok index => ReplacementToken.CaptureIndex index
  | Err _ => ReplacementToken.CaptureName name
  end.

Definition capture_word (c : char) : bool := is_ascii_alphanumeric c || (c =? ch "_").
(** The characters before the first that is not of a capture word, and the rest. *)
Fixpoint take_word (s : str) : str * str :=
  match s with
  | [] => ([], [])
  | c :: s' => if capture_word c then let '(w, r) := take_word s' in (c :: w, r) else ([], s)
  end.

(** [capture_token], on the text after the dollar sign. *)
Definition capture_token (after : str) : option (ReplacementToken.t * str) :=
  match after with
  | [] => None
  | c :: after' =>
      if c =? ch "{" then
        '(name, rest) ← split_once [ch "}"] after';
        Some (capture_name_or_index name, rest)
      else
        let '(name, rest) := take_word after in
        if is_emptyb name then None else Some (capture_name_or_index name, rest)
  end.

Fixpoint replacement_tokens_loop (fuel : nat) (remaining : str) : list ReplacementToken.t :=
  match fuel with
  | O => []
  | S fuel' =>
      match remaining with
      | [] => []
      | _ =>
          match split_once [ch "$"] remaining with
          | None => [ReplacementToken.Literal remaining]
          | Some (before, after) =>
              (if is_emptyb before then [] else [ReplacementToken.Literal before]) ++
              match strip_prefix [ch "$"] after with
              | Some rest => ReplacementToken.Dollar :: replacement_tokens_loop fuel' rest
              | None =>
                  match capture_token after with
                  | None => ReplacementToken.Literal (lit "$") :: replacement_tokens_loop fuel' after
                  | Some (token, rest) => token :: replacement_tokens_loop fuel' rest
                  end
              end
          end
      end
  end.
Definition replacement_tokens (replacement : str) : list ReplacementToken.t :=
  replacement_tokens_loop (S (length replacement)) replacement.

Definition token_value (captures : RegexMatch) (token : ReplacementToken.t) : option str :=
  match token with
  | ReplacementToken.Literal value => Some value
  | ReplacementToken.CaptureIndex index => m_get captures index
  | ReplacementToken.CaptureName name => m_name captures name
  | ReplacementToken.Dollar => Some (lit "$")
  end.

Fixpoint expand_bounded (tokens : list ReplacementToken.t) (captures : RegexMatch) (output : str)
    (limit : N) (context : str) : Result RuleModelError str :=
  match tokens with
  | [] => Ok output
  | token :: tokens' =>
      output ← match token_value captures token with
               | Some value => push_bounded output value limit context
               | None => Ok output
               end;
      expand_bounded tokens' captures output limit context
  end.

Definition slice (s : str) (from to : nat) : str := take (to - from) (drop from s).

Section Render.
Context {PE : PatternEngines} {CE : CaptureEngine}.

Fixpoint replace_matches (tokens : list ReplacementToken.t) (input : str) (matches : list RegexMatch)
    (last : nat) (output : str) (limit : N) (context : str) : Result RuleModelError str :=
  match matches with
  | [] => push_bounded output (drop last input) limit context
  | m :: matches' =>
      output ← push_bounded output (slice input last (m_start m)) limit context;
      output ← expand_bounded tokens m output limit context;
      replace_matches tokens input matches' (m_end m) output limit context
  end.
Definition regex_replace_all (regex : LinearRegex) (input replacement : str) (limit : N) (context : str)
    : Result RuleModelError str :=
  replace_matches (replacement_tokens replacement) input (captures_iter regex input) 0 [] limit context.

(** [RegexReplacePattern] *)
Definition RegexReplacePattern_new (pattern : str) (case_insensitive : bool)
    : option RegexReplacePattern :=
  let compiled := mkLinearRegex pattern case_insensitive None in
  if regex_accepts compiled then Some (mkRegexReplacePattern pattern case_insensitive compiled) else None.
Definition replace_all_bounded (p : RegexReplacePattern) (input replacement : str) (limit : N)
    : Result RuleModelError str :=
  regex_replace_all (rrp_compiled p) input replacement limit (lit "regex replacement").

(** ** The replace transform *)

Record ReplaceTransform := mkReplaceTransform {
  rt_variable : str;
  rt_pattern : str;
  rt_case_insensitive : bool;
  rt_replacement : str;
}.

Definition unescape_slashes (input : str) : str := str_replace (lit "\/") (lit "/") input.
Definition DQUOTE : char := 34.
Definition unquote (input : str) : str :=
  let quoted := (starts_with [DQUOTE] input && ends_with [DQUOTE] input) ||
                (starts_with [ch "'"] input && ends_with [ch "'"] input) in
  if quoted && (2 <=? len input) then removelast (drop 1 input) else input.

(** [replace_separator] after the opening slash: the pattern text, the flag and
    the replacement. *)
Fixpoint replace_separator (escaped : bool) (pattern : str) (rest : str)
    : Result RuleModelError (str * bool * str) :=
  match rest with
  | [] => Err (InvalidTemplate (lit "template replace")
                 (lit "template replace must separate regex and replacement with a comma"))
  | c :: tail =>
      let continue escaped := replace_separator escaped (pattern ++ [c]) tail in
      if escaped then continue false
      else if c =? ch "\" then continue true
      else if negb (c =? ch "/") then continue false
      else
        let trimmed := trim_start tail in
        let '(case_insensitive, after_flags) :=
          match strip_prefix (lit "i") trimmed with
          | Some after => (true, trim_start after)
          | None => (false, trimmed)
          end in
        match strip_prefix (lit ",") after_flags with
        | Some replacement => Ok (pattern, case_insensitive, replacement)
        | None => continue false
        end
  end.

Definition parse_replace_transform (expression : str) : Result RuleModelError (option ReplaceTransform) :=
  match split_once (lit ".replace(") expression with
  | None => Ok None
  | Some (variable, call) =>
      match strip_suffix (lit ")") call with
      | Some arguments =>
          if is_emptyb (trim variable) then
            Err (InvalidTemplate (lit "template replace")
                   (lit "template replace must be `${var.replace(/regex/, replacement)}`"))
          else
            match strip_prefix (lit "/") arguments with
            | None => Err (InvalidTemplate (lit "template replace regex")
                             (lit "template replace regex must start with `/`"))
            | Some rest =>
                '(pattern, case_insensitive, replacement) ← replace_separator false [] rest;
                Ok (Some (mkReplaceTransform (trim variable) (unescape_slashes pattern) case_insensitive
                            (unquote (trim replacement))))
            end
      | None => Err (InvalidTemplate (lit "template replace")
                       (lit "template replace must be `${var.replace(/regex/, replacement)}`"))
      end
  end.

(** [find_template_end]: the expression and the text after its closing brace. *)
Fixpoint find_template_end (braces : nat) (escaped : bool) (expression rest : str) : option (str * str) :=
  match rest with
  | [] => None
  | c :: tail =>
      let continue braces escaped := find_template_end braces escaped (expression ++ [c]) tail in
      if escaped then continue braces false
      else if c =? ch "\" then continue braces true
      else if c =? ch "{" then continue (S braces) false
      else if c =? ch "}" then
        match braces with O => Some (expression, tail) | S braces' => continue braces' false end
      else continue braces false
  end.

(** The thread's cache of compiled template expressions, oldest first. *)
Record CachedRegex := mkCachedRegex { cr_pattern : str; cr_case_insensitive : bool; cr_regex : LinearRegex }.
Definition RegexCache : Type := list CachedRegex.
Definition REGEX_CACHE_CAPACITY : nat := 128.

Definition cache_hit (pattern : str) (case_insensitive : bool) (entry : CachedRegex) : bool :=
  (cr_pattern entry =s? pattern) && Bool.eqb (cr_case_insensitive entry) case_insensitive.

(** [position] and [remove]: the first entry that satisfies [P], and the others. *)
Fixpoint take_first {A} (P : A -> bool) (l : list A) : option (A * list A) :=
  match l with
  | [] => None
  | x :: l' => if P x then Some (x, l') else '(y, l'') ← take_first P l'; Some (y, x :: l'')
  end.

(** The entry to use, and the cache without it. *)
Definition cached_entry (pattern : str) (case_insensitive : bool)
    : StateR RegexCache RuleModelError CachedRegex := fun cache =>
  match take_first (cache_hit pattern case_insensitive) cache with
  | Some (entry, cache) => (cache, Ok entry)
  | None =>
      let regex := mkLinearRegex pattern case_insensitive None in
      if regex_accepts regex then
        (if (length cache =? REGEX_CACHE_CAPACITY)%nat then drop 1 cache else cache,
         Ok (mkCachedRegex pattern case_insensitive regex))
      else (cache, Err (InvalidRegex (lit "invalid template replace regex")))
  end.
(** The entry becomes the most recent one. *)
Definition keep_entry {A} (entry : CachedRegex) (result : Result RuleModelError A)
    : StateR RegexCache RuleModelError A := fun cache => (cache ++ [entry], result).
Definition replace_cached_bounded (input pattern : str) (case_insensitive : bool) (replacement : str)
    (limit : N) : StateR RegexCache RuleModelError str :=
  entry ← cached_entry pattern case_insensitive;
  keep_entry entry
    (regex_replace_all (cr_regex entry) input replacement limit (lit "template replacement")).

(** ** Variables *)

Definition request_cookie (headers : list (str * str)) (name : str) : option str :=
  let parts := flat_map (fun h => split_char (ch ";") (snd h))
                 (List.filter (fun h => eq_ignore_ascii_case (fst h) (lit "cookie")) headers) in
  trim ∘ snd <$> find (fun kv => trim (fst kv) =s? name) (omap (fun part => split_once [ch "="] (trim part)) parts).
Definition response_cookie (headers : list (str * str)) (name : str) : option str :=
  let cookies := omap (fun h => head (split_char (ch ";") (snd h)))
                   (List.filter (fun h => eq_ignore_ascii_case (fst h) (lit "set-cookie")) headers) in
  trim ∘ snd <$> find (fun kv => trim (fst kv) =s? name) (omap (fun c => split_once [ch "="] (trim c)) cookies).

Definition render_variable (key : str) (request : RequestMeta) (response : option ResponseMeta)
    (captures : Captures) : str :=
  let url := ok (UrlParts_parse (req_url request)) in
  let prefixed prefix (lookup : str -> option str) (otherwise : str) :=
    match strip_prefix prefix key with Some name => unwrap_or (lookup name) [] | None => otherwise end in
  if key =s? lit "id" then tm_id (req_template request)
  else if key =s? lit "now" then show_N (tm_now_ms (req_template request))
  else if key =s? lit "random" then show_N (tm_random (req_template request))
  else if key =s? lit "randomUUID" then tm_random_uuid (req_template request)
  else if key =s? lit "url" then req_url request
  else if key =s? lit "method" then req_method request
  else if (key =s? lit "host") || (key =s? lit "hostname") then unwrap_or (up_host <$> url) []
  else if key =s? lit "port" then unwrap_or (show_N <$> (url ≫= effective_port)) []
  else if (key =s? lit "path") || (key =s? lit "pathname") then unwrap_or (up_path <$> url) []
  else if (key =s? lit "query") || (key =s? lit "search") then unwrap_or (url ≫= up_query) []
  else if key =s? lit "clientIp" then unwrap_or (req_client_ip request) []
  else if key =s? lit "serverIp" then unwrap_or (req_server_ip request) []
  else if key =s? lit "statusCode" then unwrap_or (show_N ∘ res_status <$> response) []
  else
    prefixed (lit "reqH.") (fun name => header (req_headers request) name)
   (prefixed (lit "resH.") (fun name => response ≫= fun r => header (res_headers r) name)
   (prefixed (lit "reqCookies.") (fun name => request_cookie (req_headers request) name)
   (prefixed (lit "resCookies.") (fun name => response ≫= fun r => response_cookie (res_headers r) name)
   (unwrap_or (c_named captures !! key) [])))).

(** ** Rendering *)

Definition RENDER_CONTEXT : str := lit "template rendering".

Definition render_expression_bounded (expression : str) (request : RequestMeta)
    (response : option ResponseMeta) (captures : Captures) (limit : N)
    : StateR RegexCache RuleModelError str := fun cache =>
  let render key := render_variable key request response captures in
  match parse_replace_transform expression with
  | Ok None =>
      let value := render expression in
      (cache, if limit <? len value then Err (limit_error RENDER_CONTEXT limit) else Ok value)
  | Err _ => (cache, Ok [])
  | Ok (Some t) =>
      match replace_cached_bounded (render (rt_variable t)) (rt_pattern t) (rt_case_insensitive t)
              (rt_replacement t) limit cache with
      | (cache, Ok value) => (cache, Ok value)
      | (cache, Err (LimitExceeded context message)) => (cache, Err (LimitExceeded context message))
      | (cache, Err _) => (cache, Ok [])
      end
  end.

Fixpoint render_loop (request : RequestMeta) (response : option ResponseMeta) (captures : Captures)
    (limit : N) (fuel : nat) (output rest : str) : StateR RegexCache RuleModelError str :=
  match fuel with
  | O => fail (InvalidTemplate [] [])
  | S fuel' =>
      let push output value := lift_result (push_bounded output value limit RENDER_CONTEXT) in
      let continue := render_loop request response captures limit fuel' in
      match split_once [ch "$"] rest with
      | None => push output rest
      | Some (before, tail) =>
          output ← push output before;
          let plain := output ← push output (lit "$"); continue output tail in
          match tail with
          | [] => plain
          | c :: tail' =>
              if is_ascii_digit c then
                output ← match Captures_get_index captures (N.to_nat (c - 48)) with
                         | Some value => push output value
                         | None => mret output
                         end;
                continue output tail'
              else if c =? ch "{" then
                match find_template_end 0 false [] tail' with
                | Some (expression, tail'') =>
                    value ← render_expression_bounded expression request response captures
                              (saturating_sub limit (len output));
                    output ← push output value;
                    continue output tail''
                | None => plain
                end
              else plain
          end
      end
  end.
Definition render_with_response_bounded (captures : Captures) (input : str) (request : RequestMeta)
    (response : option ResponseMeta) (limit : N) : StateR RegexCache RuleModelError str :=
  render_loop request response captures limit (S (length input)) [] input.

(** [ResolvedAction::render_bounded] *)
Definition render_bounded (item : ResolvedAction) (input : str) (request : RequestMeta) (limit : N)
    : StateR RegexCache RuleModelError str :=
  render_with_response_bounded (ra_captures item) input request (ra_response item) limit.
End Render.
