(* ===== verification/TemplateProofs.v ===== *)
(** * Templates, proofs

    Rendering is one pass over the template: its parts are found in the template
    alone, each is replaced once by its value, and the limit only decides
    whether the text is returned. The regex cache never shows. *)
From Stdlib Require Import Ascii String.
From stdpp Require Import base numbers list gmap strings.
From S2P Require Import Prelude Family Utf8 Format Io Model Url Engines Template.

(** ** Bounded texts *)

Definition limit_exceeded {A} (r : Result RuleModelError A) : Prop :=
  exists context message, r = Err (LimitExceeded context message).

(** [r] is [text] when it fits, and a limit error otherwise. *)
Definition bounded (limit : N) (text : str) (r : Result RuleModelError str) : Prop :=
  if len text <=? limit then r = Ok text else limit_exceeded r.

Lemma bounded_ok limit text r : len text <= limit -> bounded limit text r <-> r = Ok text.
Proof. unfold bounded. intros H. by rewrite (proj2 (N.leb_le _ _) H). Qed.
Lemma bounded_err limit text r : limit < len text -> bounded limit text r <-> limit_exceeded r.
Proof. unfold bounded. intros H. by rewrite (proj2 (N.leb_gt _ _) H). Qed.

Lemma bounded_cases limit text r :
  bounded limit text r ->
  r = Ok text /\ len text <= limit \/ exists context message, r = Err (LimitExceeded context message) /\ limit < len text.
Proof.
  unfold bounded. destruct (N.leb_spec (len text) limit); [by left|]. intros (c & m & ->). right. eauto.
Qed.

Lemma bounded_ret limit text : len text <= limit -> bounded limit text (Ok text).
Proof. intros H. by apply bounded_ok. Qed.
Lemma bounded_push limit output value context :
  limit <= USIZE_MAX -> bounded limit (output ++ value) (push_bounded output value limit context).
Proof.
  intros Hl. unfold bounded, push_bounded, checked_add. rewrite len_app.
  destruct (N.leb_spec (len output + len value) limit).
  - rewrite (proj2 (N.leb_le _ _)), (proj2 (N.ltb_ge _ _)) by lia. done.
  - destruct (_ <=? USIZE_MAX); [rewrite (proj2 (N.ltb_lt _ _)) by lia|]; by eexists _, _.
Qed.
Lemma bounded_bind limit a b r (k : str -> Result RuleModelError str) :
  bounded limit a r -> (len a <= limit -> bounded limit (a ++ b) (k a)) -> bounded limit (a ++ b) (r ≫= k).
Proof.
  intros Ha Hk. destruct (N.le_gt_cases (len a) limit) as [Hl|Hl].
  - apply (bounded_ok _ _ _ Hl) in Ha as ->. by apply Hk.
  - apply (bounded_err _ _ _ Hl) in Ha as (c & m & ->). apply bounded_err; [rewrite len_app; lia|]. by eexists _, _.
Qed.
#[local] Hint Resolve bounded_ret bounded_push : core.

(** ** Replacement *)

(** The text of a replacement for one match. *)
Definition expansion (tokens : list ReplacementToken.t) (m : RegexMatch) : str :=
  flat_map (fun token => unwrap_or (token_value m token) []) tokens.

Fixpoint replaced (tokens : list ReplacementToken.t) (input : str) (matches : list RegexMatch) (last : nat) : str :=
  match matches with
  | [] => drop last input
  | m :: matches' => slice input last (m_start m) ++ expansion tokens m ++ replaced tokens input matches' (m_end m)
  end.

Section Rendering.
Context {PE : PatternEngines} {CE : CaptureEngine}.

Lemma expand_bounded_spec tokens m output limit context :
  limit <= USIZE_MAX -> len output <= limit ->
  bounded limit (output ++ expansion tokens m) (expand_bounded tokens m output limit context).
Proof.
  intros Hl. revert output. induction tokens as [|token tokens IH]; intros output Ho; cbn [expansion flat_map expand_bounded].
  - rewrite app_nil_r. auto.
  - change (flat_map _ tokens) with (expansion tokens m). rewrite app_assoc.
    apply bounded_bind; [|auto]. destruct (token_value m token); cbn [unwrap_or]; [auto|].
    rewrite app_nil_r. auto.
Qed.

Lemma replace_matches_spec tokens input matches last output limit context :
  limit <= USIZE_MAX -> len output <= limit ->
  bounded limit (output ++ replaced tokens input matches last)
    (replace_matches tokens input matches last output limit context).
Proof.
  intros Hl. revert last output. induction matches as [|m matches IH]; intros last output Ho;
    cbn [replaced replace_matches]; [auto|].
  rewrite app_assoc. apply bounded_bind; [auto|]. intros Ho1. rewrite app_assoc.
  apply bounded_bind; [by apply expand_bounded_spec|]. intros Ho2. by apply IH.
Qed.

Definition replaced_text (regex : LinearRegex) (input replacement : str) : str :=
  replaced (replacement_tokens replacement) input (captures_iter regex input) 0.

Lemma regex_replace_all_spec regex input replacement limit context :
  limit <= USIZE_MAX ->
  bounded limit (replaced_text regex input replacement) (regex_replace_all regex input replacement limit context).
Proof. intros Hl. apply (replace_matches_spec _ _ _ _ []); [done|cbn [len]; lia]. Qed.

(** ** The cache *)

Definition cache_ok (cache : RegexCache) : Prop :=
  (length cache <= REGEX_CACHE_CAPACITY)%nat /\
  Forall (fun e => cr_regex e = mkLinearRegex (cr_pattern e) (cr_case_insensitive e) None /\
                   regex_accepts (cr_regex e) = true) cache.

Lemma take_first_Some {A} (P : A -> bool) l x l' :
  take_first P l = Some (x, l') -> P x = true /\ l ≡ₚ x :: l'.
Proof.
  revert l'. induction l as [|y l IH]; intros l'; cbn [take_first]; [done|].
  destruct (P y) eqn:Hy; [intros [= -> ->]; done|].
  destruct (take_first P l) as [[z l'']|] eqn:E; [|done]. intros [= -> <-].
  destruct (IH _ eq_refl) as [Hp Hl]. split; [done|]. rewrite Hl. apply Permutation_swap.
Qed.

Lemma cached_entry_spec pattern ci cache :
  cache_ok cache ->
  exists cache', cache_ok cache' /\
    let regex := mkLinearRegex pattern ci None in
    if regex_accepts regex
    then cached_entry pattern ci cache = (cache', Ok (mkCachedRegex pattern ci regex)) /\
         (length cache' < REGEX_CACHE_CAPACITY)%nat
    else cached_entry pattern ci cache = (cache', Err (InvalidRegex (lit "invalid template replace regex"))).
Proof.
  intros [Hlen Hall]. unfold cached_entry.
  destruct (take_first (cache_hit pattern ci) cache) as [[[p i r] cache']|] eqn:E.
  - apply take_first_Some in E as [Hhit Hperm]. rewrite Hperm in Hall.
    apply Forall_cons in Hall as [[Hr Ha] Hall]. cbn [cr_regex cr_pattern cr_case_insensitive] in *.
    apply andb_true_iff in Hhit as [Hp Hi]. apply bool_decide_eq_true in Hp. apply Bool.eqb_prop in Hi.
    cbn in Hp, Hi. subst p i r. cbv zeta. rewrite Ha. apply Permutation_length in Hperm. cbn [length] in Hperm.
    exists cache'. split_and!; [split; [lia|done]|done|lia].
  - cbv zeta. destruct (regex_accepts _) eqn:Ha.
    + destruct (Nat.eqb_spec (length cache) REGEX_CACHE_CAPACITY) as [Hf|Hf].
      * exists (drop 1 cache). pose proof (length_drop cache 1). unfold REGEX_CACHE_CAPACITY in *.
        split_and!; [split; [unfold REGEX_CACHE_CAPACITY; lia|by apply Forall_drop]|done|lia].
      * exists cache. split_and!; [done|done|lia].
    + exists cache. done.
Qed.

Lemma replace_cached_spec input pattern ci replacement limit cache :
  limit <= USIZE_MAX -> cache_ok cache ->
  let regex := mkLinearRegex pattern ci None in
  exists cache' r, replace_cached_bounded input pattern ci replacement limit cache = (cache', r) /\ cache_ok cache' /\
    if regex_accepts regex then bounded limit (replaced_text regex input replacement) r
    else r = Err (InvalidRegex (lit "invalid template replace regex")).
Proof.
  intros Hl Hc. cbv zeta. destruct (cached_entry_spec pattern ci cache Hc) as (cache1 & Hc1 & H).
  cbv zeta in H. unfold replace_cached_bounded, mbind, StateR_bind. destruct (regex_accepts _) eqn:Ha.
  - destruct H as [-> Hlen]. unfold keep_entry. eexists _, _. split; [done|]. split; [|by apply regex_replace_all_spec].
    destruct Hc1 as [_ Hall]. split; [rewrite length_app; cbn; lia|].
    apply Forall_app. split; [done|]. by repeat constructor.
  - rewrite H. by eexists _, _.
Qed.

(** ** The parts of a template *)

Inductive TemplatePart := PartText (text : str) | PartCapture (index : nat) | PartExpression (expression : str).

Fixpoint template_parts_loop (fuel : nat) (rest : str) : list TemplatePart :=
  match fuel with
  | O => []
  | S fuel' =>
      match split_once [ch "$"] rest with
      | None => [PartText rest]
      | Some (before, tail) =>
          PartText before ::
          match tail with
          | c :: tail' =>
              if is_ascii_digit c then PartCapture (N.to_nat (c - 48)) :: template_parts_loop fuel' tail'
              else
                match (if c =? ch "{" then find_template_end 0 false [] tail' else None) with
                | Some (expression, tail'') => PartExpression expression :: template_parts_loop fuel' tail''
                | None => PartText (lit "$") :: template_parts_loop fuel' tail
                end
          | [] => PartText (lit "$") :: template_parts_loop fuel' tail
          end
      end
  end.
Definition template_parts (input : str) : list TemplatePart := template_parts_loop (S (length input)) input.

Section Values.
Context (request : RequestMeta) (response : option ResponseMeta) (captures : Captures).

Definition expression_text (expression : str) : str :=
  match parse_replace_transform expression with
  | Ok None => render_variable expression request response captures
  | Err _ => []
  | Ok (Some t) =>
      let regex := mkLinearRegex (rt_pattern t) (rt_case_insensitive t) None in
      if regex_accepts regex
      then replaced_text regex (render_variable (rt_variable t) request response captures) (rt_replacement t)
      else []
  end.
Definition part_text (part : TemplatePart) : str :=
  match part with
  | PartText text => text
  | PartCapture index => unwrap_or (Captures_get_index captures index) []
  | PartExpression expression => expression_text expression
  end.
Definition rendered_parts (parts : list TemplatePart) : str := flat_map part_text parts.

Lemma render_expression_spec expression limit cache :
  limit <= USIZE_MAX -> cache_ok cache ->
  exists cache' r, render_expression_bounded expression request response captures limit cache = (cache', r) /\
    cache_ok cache' /\ bounded limit (expression_text expression) r.
Proof.
  intros Hl Hc. unfold render_expression_bounded, expression_text. cbv zeta.
  destruct (parse_replace_transform expression) as [[t|]|e].
  - destruct (replace_cached_spec (render_variable (rt_variable t) request response captures) (rt_pattern t)
                (rt_case_insensitive t) (rt_replacement t) limit cache) as (cache' & r & -> & Hc' & H); [done..|].
    cbv zeta in H. destruct (regex_accepts _).
    + exists cache', r. by destruct (bounded_cases _ _ _ H) as [[-> _]|(c & m & -> & _)].
    + subst r. exists cache', (Ok []). split_and!; [done|done|apply bounded_ret; cbn [len]; lia].
  - eexists _, _. split; [done|]. split; [done|]. unfold bounded.
    destruct (N.leb_spec (len (render_variable expression request response captures)) limit).
    + by rewrite (proj2 (N.ltb_ge _ _)).
    + rewrite (proj2 (N.ltb_lt _ _)) by done. by eexists _, _.
  - exists cache, (Ok []). split_and!; [done|done|apply bounded_ret; cbn [len]; lia].
Qed.

(** A stateful text, under the cache invariant. *)
Definition renders (limit : N) (text : str) (m : StateR RegexCache RuleModelError str) : Prop :=
  forall cache, cache_ok cache -> exists cache' r, m cache = (cache', r) /\ cache_ok cache' /\ bounded limit text r.

Lemma renders_lift limit text r : bounded limit text r -> renders limit text (lift_result r).
Proof. intros H cache Hc. by exists cache, r. Qed.
Lemma renders_bind limit sub a b m (k : str -> StateR RegexCache RuleModelError str) :
  renders sub a m -> (len a <= sub -> renders limit b (k a)) -> (sub < len a -> limit < len b) ->
  renders limit b (m ≫= k).
Proof.
  intros Hm Hk Hlt cache Hc. destruct (Hm cache Hc) as (cache1 & r & E & Hc1 & Hr).
  unfold mbind, StateR_bind. rewrite E. destruct (bounded_cases _ _ _ Hr) as [[-> Hle]|(c & msg & -> & Hgt)].
  - by apply Hk.
  - exists cache1. eexists. split_and!; [done|done|]. apply bounded_err; [auto|]. by eexists _, _.
Qed.
(** Adding a part to the text so far. *)
Lemma renders_push limit output value b (k : str -> StateR RegexCache RuleModelError str) :
  limit <= USIZE_MAX -> (len (output ++ value) <= limit -> renders limit ((output ++ value) ++ b) (k (output ++ value))) ->
  renders limit ((output ++ value) ++ b) (lift_result (push_bounded output value limit RENDER_CONTEXT) ≫= k).
Proof.
  intros Hl Hk. eapply renders_bind; [by apply renders_lift, bounded_push|done|].
  rewrite (len_app (output ++ value)). lia.
Qed.

Lemma find_template_end_shorter braces escaped expression rest e tail :
  find_template_end braces escaped expression rest = Some (e, tail) -> (length tail < length rest)%nat.
Proof.
  revert braces escaped expression. induction rest as [|c rest IH]; intros braces escaped expression; [done|].
  cbn [find_template_end length]. intros H. repeat case_match; try (apply IH in H; lia). injection H as _ <-. lia.
Qed.

Lemma render_loop_spec limit fuel output rest :
  limit <= USIZE_MAX -> len output <= limit -> (length rest < fuel)%nat ->
  renders limit (output ++ rendered_parts (template_parts_loop fuel rest))
    (render_loop request response captures limit fuel output rest).
Proof.
  intros Hl. revert output rest. induction fuel as [|fuel IH]; intros output rest Ho Hf; [lia|].
  cbn [template_parts_loop render_loop]. destruct (split_once [ch "$"] rest) as [[before tail]|] eqn:Es.
  2:{ unfold rendered_parts. cbn [flat_map part_text]. rewrite app_nil_r. by apply renders_lift, bounded_push. }
  apply split_once_Some in Es. apply (f_equal length) in Es. rewrite !length_app in Es. cbn [length] in Es.
  unfold rendered_parts. cbn [flat_map part_text]. rewrite app_assoc. apply renders_push; [done|]. clear Ho. intros Ho.
  assert (Hplain : renders limit ((output ++ before) ++ rendered_parts (PartText (lit "$") :: template_parts_loop fuel tail))
            (output ← lift_result (push_bounded (output ++ before) (lit "$") limit RENDER_CONTEXT);
             render_loop request response captures limit fuel output tail)).
  { unfold rendered_parts. cbn [flat_map part_text]. rewrite app_assoc. apply renders_push; [done|].
    intros Ho'. apply IH; [done|lia]. }
  destruct tail as [|c tail']; [exact Hplain|]. cbn [length] in Es. destruct (is_ascii_digit c).
  { cbn [flat_map part_text]. rewrite app_assoc. destruct (Captures_get_index _ _) as [v|]; cbn [unwrap_or].
    - apply renders_push; [done|]. intros Ho'. apply IH; [done|lia].
    - rewrite app_nil_r. apply IH; [done|lia]. }
  destruct (c =? ch "{"); [|exact Hplain].
  destruct (find_template_end 0 false [] tail') as [[e tail'']|] eqn:Ee; [|exact Hplain].
  apply find_template_end_shorter in Ee. cbn [flat_map part_text]. rewrite app_assoc. unfold saturating_sub.
  eapply renders_bind.
  - intros cache Hc. apply render_expression_spec; [lia|done].
  - intros _. apply renders_push; [done|]. intros Ho'. apply IH; [done|lia].
  - rewrite !len_app in *. lia.
Qed.
End Values.
End Rendering.

(** C28: Rendering a template is a single pass: the parts are determined by the
    template text alone, every part is replaced by its value exactly once (a value
    that itself looks like a template is copied, never expanded), and the result is
    the concatenation when it fits the byte limit and a limit error otherwise,
    whatever the thread's regex cache holds; the cache keeps its invariant and its
    capacity. *)
Theorem rendering_is_single_pass {PE : PatternEngines} {CE : CaptureEngine} captures input request response limit cache :
  limit <= USIZE_MAX -> cache_ok cache ->
  let text := rendered_parts request response captures (template_parts input) in
  exists cache' r, render_with_response_bounded captures input request response limit cache = (cache', r) /\
    cache_ok cache' /\ if len text <=? limit then r = Ok text else limit_exceeded r.
Proof.
  intros Hl Hc text. apply (render_loop_spec request response captures limit _ [] input); [done| |lia|done].
  cbn [len]. lia.
Qed.

(** An engine for literal patterns. *)
Fixpoint literal_matches (p : str) (fuel pos : nat) (s : str) : list RegexMatch :=
  match fuel with
  | O => []
  | S fuel' =>
      match split_once p s with
      | None => []
      | Some (a, b) =>
          let start := (pos + length a)%nat in
          mkRegexMatch start (start + length p) [Some p] [] :: literal_matches p fuel' (start + length p) b
      end
  end.
Definition literal_engine : CaptureEngine := fun r text => literal_matches (lr_source r) (length text) 0 text.

Definition sample_template : str := lit "<${reqH.X-Name}> $1 ${url.replace(/a/, o)} $".
Definition sample_meta : RequestMeta :=
  mkRequestMeta (lit "GET") (lit "http://a/banana") [(lit "x-name", lit "${url} $1")] [] None None
    (mkTemplateMetadata [] 0 0 []).
Lemma rendering_is_single_pass_witness :
  let captures := mkCaptures None [lit "one"] ∅ in
  exists cache' : RegexCache,
    @render_with_response_bounded mini_engine literal_engine captures sample_template sample_meta None 64 [] =
      (cache', Ok (lit "<${url} $1> one http://o/bonono $")).
Proof.
  intros captures.
  destruct (@rendering_is_single_pass mini_engine literal_engine captures sample_template sample_meta None 64 [])
    as (cache' & r & E & _ & H); [done| |].
  - split; [cbn; lia|constructor].
  - vm_compute in H. exists cache'. rewrite E, H. by vm_compute.
Defined.
