(* ===== verification/Http1.v ===== *)
(** * HTTP/1 messages

    Reading of HTTP/1 heads and request bodies: crates/rsproxy-net/src/http.rs
    and its request module.  Readers are generic over [Io.Read], as the
    source is over [Read]. *)
From Stdlib Require Import Ascii String.
From stdpp Require Import base numbers list gmap strings.
From S2P Require Import Prelude Utf8 Format Io.

(** Header fields in wire order. *)
Abbreviation Headers := (list (list N * list N)) (only parsing).

Definition invalid_data (message : str) : IoError := mkIoError InvalidData message.
Definition invalid_input (message : str) : IoError := mkIoError InvalidInput message.

Definition crlf : list N := [13; 10].
Definition TERMINATOR : list N := [13; 10; 13; 10].

(** ** Message heads *)

Definition head_incomplete : IoError :=
  mkIoError UnexpectedEof (lit "connection closed before headers completed").
Definition head_too_large : IoError := invalid_data (lit "header size limit exceeded").

(** The loop of [read_head], one byte per read. *)
Fixpoint read_head_loop {S} `{Read S} (max_header_size : N) (fuel : nat) (buf : list N)
    : StateR S IoError (option (list N)) :=
  match fuel with
  | O => spent
  | Datatypes.S fuel' =>
      got ← read 1;
      match got with
      | [] => if is_emptyb buf then mret None else fail head_incomplete
      | byte :: _ =>
          let buf := buf ++ [byte] in
          if max_header_size <? blen buf then fail head_too_large
          else if ends_with TERMINATOR buf then mret (Some (take_N (blen buf - 4) buf))
          else read_head_loop max_header_size fuel' buf
      end
  end.
Definition read_head {S} `{Read S} (max_header_size : N) : StateR S IoError (option (list N)) :=
  looping (fun fuel => read_head_loop max_header_size fuel []).

(** The terminator automaton of [read_head_buffered]. *)
Definition PREFIX : list nat := [0; 0; 1; 2]%nat.
Fixpoint fall_back (fuel : nat) (byte : N) (matched : nat) : nat :=
  match fuel with
  | O => matched
  | S fuel' =>
      if (0 <? matched)%nat && negb (TERMINATOR !! matched =s? Some byte)
      then fall_back fuel' byte (default 0%nat (PREFIX !! (matched - 1)%nat))
      else matched
  end.
Definition advance (matched : nat) (byte : N) : nat :=
  let matched := fall_back matched byte matched in
  if TERMINATOR !! matched =s? Some byte then S matched else matched.
(** The scan of one buffer: the state after it, and the bytes up to a match. *)
Fixpoint scan_buffer (matched : nat) (index : N) (available : list N) : nat * option N :=
  match available with
  | [] => (matched, None)
  | byte :: rest =>
      let matched := advance matched byte in
      if (matched =? 4)%nat then (matched, Some (index + 1)) else scan_buffer matched (index + 1) rest
  end.

Fixpoint read_head_buffered_loop (max_header_size : N) (fuel : nat) (buf : list N) (matched : nat)
    : StateR Stream IoError (option (list N)) :=
  match fuel with
  | O => spent
  | S fuel' =>
      available ← fill_buf;
      if is_emptyb available then if is_emptyb buf then mret None else fail head_incomplete
      else
        let '(matched, complete) := scan_buffer matched 0 available in
        let consumed := default (blen available) complete in
        let buf := buf ++ take_N consumed available in
        _ ← consume consumed;
        if max_header_size <? blen buf then fail head_too_large
        else if is_some complete then mret (Some (take_N (blen buf - 4) buf))
        else read_head_buffered_loop max_header_size fuel' buf matched
  end.
Definition read_head_buffered (max_header_size : N) : StateR Stream IoError (option (list N)) :=
  looping (fun fuel => read_head_buffered_loop max_header_size fuel [] 0).

Definition count_exceeded (max_header_count : N) : IoError :=
  invalid_data (lit "header count limit exceeded (limit " ++ show_N max_header_count ++ lit ")").

Fixpoint parse_headers_from (max_header_count count : N) (lines : list str) : Result IoError Headers :=
  match lines with
  | [] => Ok []
  | line :: lines' =>
      if is_emptyb line then parse_headers_from max_header_count count lines'
      else
        let count := count + 1 in
        if max_header_count <? count then Err (count_exceeded max_header_count)
        else
          headers ← parse_headers_from max_header_count count lines';
          Ok (match split_once [ch ":"] line with
              | Some (name, value) => (trim name, trim value) :: headers
              | None => headers
              end)
  end.
Definition parse_headers_limited (lines : list str) (max_header_count : N) : Result IoError Headers :=
  parse_headers_from max_header_count 0 lines.

Record RawResponseHead := mkRawResponseHead {
  rh_version : str; rh_status : N; rh_reason : str; rh_headers : Headers }.

Definition parse_response_head (head : list N) (max_header_count : N) : Result IoError RawResponseHead :=
  match split_str crlf (from_utf8_lossy head) with
  | [] => Err (invalid_data (lit "empty response"))
  | status_line :: lines =>
      let parts := splitn_char 3 (ch " ") status_line in
      let version := unwrap_or (parts !! 0%nat) (lit "HTTP/1.1") in
      let status := unwrap_or (ok (parse_uint U16_MAX (unwrap_or (parts !! 1%nat) (lit "502")))) 502 in
      let reason := unwrap_or (parts !! 2%nat) [] in
      headers ← parse_headers_limited lines max_header_count;
      Ok (mkRawResponseHead version status reason headers)
  end.

Definition empty_response : IoError := mkIoError UnexpectedEof (lit "empty response").

Definition read_response_head {S} `{Read S} (max_header_size max_header_count : N)
    : StateR S IoError RawResponseHead :=
  head ← read_head max_header_size;
  head ← lift_result (ok_or head empty_response);
  lift_result (parse_response_head head max_header_count).
Definition read_response_head_buffered (max_header_size max_header_count : N)
    : StateR Stream IoError RawResponseHead :=
  head ← read_head_buffered max_header_size;
  head ← lift_result (ok_or head empty_response);
  lift_result (parse_response_head head max_header_count).

(** ** Request heads *)

Record RawRequest := mkRawRequest {
  rq_method : str; rq_target : str; rq_version : str; rq_headers : Headers;
  rq_body : list N; rq_trailers : Headers }.

Module RequestBodyFraming.
Inductive t := None | ContentLength (length : N) | Chunked.
Definition has_body (f : t) : bool :=
  match f with None | ContentLength 0 => false | _ => true end.
End RequestBodyFraming.

Record RequestHead := mkRequestHead { hd_request : RawRequest; hd_body : RequestBodyFraming.t }.

(** The comma-separated, trimmed values of all fields with a name. *)
Definition field_values (name : str) (headers : Headers) : list str :=
  map trim (flat_map (fun '(n, v) => if eq_ignore_ascii_case n name then split_char (ch ",") v else [])
              headers).

Definition content_length (headers : Headers) : Result IoError (option N) :=
  match field_values (lit "content-length") headers with
  | [] => Ok None
  | first :: others =>
      parsed ← map_err (fun _ => invalid_data (lit "invalid Content-Length header"))
                 (parse_uint USIZE_MAX first);
      if existsb (fun value => match parse_uint USIZE_MAX value with
                               | Ok v => negb (v =? parsed)
                               | Err _ => true
                               end) others
      then Err (invalid_data (lit "conflicting Content-Length headers"))
      else Ok (Some parsed)
  end.

Definition transfer_codings (headers : Headers) : list str :=
  map to_ascii_lowercase
    (List.filter (fun v => negb (is_emptyb v)) (field_values (lit "transfer-encoding") headers)).

Definition body_framing (headers : Headers) : Result IoError RequestBodyFraming.t :=
  content_length ← content_length headers;
  let transfer_codings := transfer_codings headers in
  if negb (is_emptyb transfer_codings) && is_some content_length then
    Err (invalid_data (lit "request must not contain both Content-Length and Transfer-Encoding"))
  else if is_emptyb transfer_codings then
    Ok (match content_length with
        | Some n => RequestBodyFraming.ContentLength n
        | None => RequestBodyFraming.None
        end)
  else if transfer_codings =s? [lit "chunked"] then Ok RequestBodyFraming.Chunked
  else Err (invalid_data (lit "unsupported request Transfer-Encoding: " ++
                          join (lit ", ") transfer_codings)).

(** [parse] of request/head.rs. *)
Definition parse_request_head (head : list N) (max_header_count : N) : Result IoError RequestHead :=
  match split_str crlf (from_utf8_lossy head) with
  | [] => Err (invalid_data (lit "empty request"))
  | request_line :: lines =>
      let parts := split_whitespace request_line in
      let method := unwrap_or (parts !! 0%nat) [] in
      let target := unwrap_or (parts !! 1%nat) [] in
      let version := unwrap_or (parts !! 2%nat) (lit "HTTP/1.1") in
      if is_emptyb method || is_emptyb target then Err (invalid_data (lit "invalid request line"))
      else
        headers ← parse_headers_limited lines max_header_count;
        framing ← body_framing headers;
        Ok (mkRequestHead (mkRawRequest method target version headers [] []) framing)
  end.

Definition read_request_head {S} `{Read S} (max_header_size max_header_count : N)
    : StateR S IoError (option RequestHead) :=
  head ← read_head max_header_size;
  match head with
  | None => mret None
  | Some head => request ← lift_result (parse_request_head head max_header_count); mret (Some request)
  end.

(** [windows(4).position(...)]. *)
Fixpoint terminator_position (position : N) (bs : list N) : option N :=
  match bs with
  | [] => None
  | _ :: bs' => if starts_with TERMINATOR bs then Some position else terminator_position (position + 1) bs'
  end.

Definition PEEK_CAPACITY : N := 4 * 1024.
Definition read_request_head_tcp (max_header_size max_header_count : N)
    : StateR Stream IoError (option RequestHead) :=
  let peek_limit := N.max (N.min PEEK_CAPACITY (saturating_add USIZE_MAX max_header_size 1)) 1 in
  peeked ← peek peek_limit;
  if is_emptyb peeked then mret None
  else
    match terminator_position 0 peeked with
    | Some position =>
        let end_ := position + 4 in
        if max_header_size <? end_ then fail head_too_large
        else
          head ← read_exact end_;
          request ← lift_result (parse_request_head (take_N (end_ - 4) head) max_header_count);
          mret (Some request)
    | None => read_request_head max_header_size max_header_count
    end.

(** ** Trailers *)

(** The loop of [read_crlf_line_limited]. *)
Fixpoint crlf_line_loop {S} `{Read S} (limit : N) (fuel : nat) (bytes : list N)
    : StateR S IoError str :=
  match fuel with
  | O => spent
  | Datatypes.S fuel' =>
      byte ← read_byte;
      let bytes := bytes ++ [byte] in
      if saturating_add USIZE_MAX limit 2 <? blen bytes then
        fail (invalid_data (lit "chunk line size limit exceeded (limit " ++ show_N limit ++ lit ")"))
      else if ends_with crlf bytes then
        lift_result (ok_or (from_utf8 (take_N (blen bytes - 2) bytes))
                       (invalid_data (lit "request chunk line is not UTF-8")))
      else crlf_line_loop limit fuel' bytes
  end.
Definition read_crlf_line_limited {S} `{Read S} (limit : N) : StateR S IoError str :=
  looping (fun fuel => crlf_line_loop limit fuel []).

Definition is_header_token_byte (b : N) : bool :=
  is_ascii_alphanumeric b || contains_char b (lit "!#$%&'*+-.^_`|~").

Definition FORBIDDEN_REQUEST_TRAILERS : list str :=
  [lit "authorization"; lit "connection"; lit "content-length"; lit "cookie"; lit "host";
   lit "keep-alive"; lit "proxy-authorization"; lit "proxy-connection"; lit "te"; lit "trailer";
   lit "transfer-encoding"; lit "upgrade"].
Definition request_trailer_forbidden (name : str) : bool :=
  existsb (fun f => to_ascii_lowercase name =s? f) FORBIDDEN_REQUEST_TRAILERS.

Definition validate_request_trailer (name value : str) : Result IoError unit :=
  if is_emptyb name || negb (forallb is_header_token_byte (encode name)) then
    Err (invalid_data (lit "invalid request trailer name `" ++ name ++ lit "`"))
  else if request_trailer_forbidden name then
    Err (invalid_data (lit "forbidden request trailer `" ++ name ++ lit "`"))
  else if existsb (fun b => (b =? 13) || (b =? 10) || (b =? 0)) (encode value) then
    Err (invalid_data (lit "invalid value for request trailer `" ++ name ++ lit "`"))
  else Ok tt.

Definition trailer_size_exceeded (max_header_size : N) : IoError :=
  invalid_data (lit "trailer size limit exceeded (limit " ++ show_N max_header_size ++ lit ")").
Definition trailer_count_exceeded (max_header_count : N) : IoError :=
  invalid_data (lit "trailer count limit exceeded (limit " ++ show_N max_header_count ++ lit ")").

(** What one trailer line adds; [None] at the empty line that ends them. *)
Definition trailer_of_line (line : str) : Result IoError (str * str) :=
  match split_once [ch ":"] line with
  | None => Err (invalid_data (lit "invalid request trailer"))
  | Some (name, value) =>
      let name := trim name in
      if is_emptyb name then Err (invalid_data (lit "empty request trailer name"))
      else
        let value := trim value in
        _ ← validate_request_trailer name value; Ok (name, value)
  end.

Fixpoint read_trailers_loop {S} `{Read S} (max_header_size max_header_count : N) (fuel : nat)
    (trailers : Headers) (total_size : N) : StateR S IoError Headers :=
  match fuel with
  | O => spent
  | Datatypes.S fuel' =>
      line ← read_crlf_line_limited max_header_size;
      let total_size := saturating_add USIZE_MAX (saturating_add USIZE_MAX total_size (len line)) 2 in
      if max_header_size <? total_size then fail (trailer_size_exceeded max_header_size)
      else if is_emptyb line then mret trailers
      else if max_header_count <=? blen trailers then fail (trailer_count_exceeded max_header_count)
      else
        trailer ← lift_result (trailer_of_line line);
        read_trailers_loop max_header_size max_header_count fuel' (trailers ++ [trailer]) total_size
  end.
Definition read_trailers {S} `{Read S} (max_header_size max_header_count : N)
    : StateR S IoError Headers :=
  looping (fun fuel => read_trailers_loop max_header_size max_header_count fuel [] 0).

Fixpoint validate_all_trailers (trailers : Headers) (size : N) : Result IoError N :=
  match trailers with
  | [] => Ok size
  | (name, value) :: trailers' =>
      _ ← validate_request_trailer name value;
      validate_all_trailers trailers'
        (saturating_add USIZE_MAX (saturating_add USIZE_MAX (saturating_add USIZE_MAX size (len name))
           (len value)) 32)
  end.
Definition validate_request_trailers (trailers : Headers) (max_header_size max_header_count : N)
    : Result IoError unit :=
  if max_header_count <? blen trailers then Err (trailer_count_exceeded max_header_count)
  else
    size ← validate_all_trailers trailers 0;
    if max_header_size <? size then Err (trailer_size_exceeded max_header_size) else Ok tt.

(** ** Request bodies *)

Module RequestBodyState.
Inductive t := Finished | ContentLength (remaining : N) | Chunked (remaining : N).
End RequestBodyState.

Record RequestBodyReader := mkRequestBodyReader {
  br_framing : RequestBodyFraming.t; br_state : RequestBodyState.t }.

Definition RequestBodyReader_new (framing : RequestBodyFraming.t) : RequestBodyReader :=
  mkRequestBodyReader framing
    (match framing with
     | RequestBodyFraming.None | RequestBodyFraming.ContentLength 0 => RequestBodyState.Finished
     | RequestBodyFraming.ContentLength remaining => RequestBodyState.ContentLength remaining
     | RequestBodyFraming.Chunked => RequestBodyState.Chunked 0
     end).

(** The bytes written into the caller's buffer, or the end. *)
Module RequestBodyRead.
Inductive t := Data (data : list N) | End_ (trailers : Headers).
End RequestBodyRead.

Definition in_state (r : RequestBodyReader) (state : RequestBodyState.t) : RequestBodyReader :=
  mkRequestBodyReader (br_framing r) state.

Definition chunk_size (line : str) : option N :=
  ok (from_str_radix 16 USIZE_MAX (trim (default [] (head (split_char (ch ";") line))))).

(** The data part of a chunk, [remaining] bytes before its end. *)
Definition read_chunk_data {S} `{Read S} (r : RequestBodyReader) (remaining buffer : N)
    : StateR S IoError (RequestBodyReader * RequestBodyRead.t) :=
  let take := N.min remaining buffer in
  data ← read_exact take;
  let remaining := remaining - take in
  delimiter ← (if remaining =? 0 then read_exact 2 else mret crlf);
  if delimiter =s? crlf then mret (in_state r (RequestBodyState.Chunked remaining), RequestBodyRead.Data data)
  else fail (invalid_data (lit "invalid chunk terminator in request")).

(** One [read] into a buffer of [buffer] bytes. *)
Definition RequestBodyReader_read {S} `{Read S} (r : RequestBodyReader)
    (buffer max_header_size max_header_count : N)
    : StateR S IoError (RequestBodyReader * RequestBodyRead.t) :=
  if buffer =? 0 then fail (invalid_input (lit "request body read buffer must not be empty"))
  else
    match br_state r with
    | RequestBodyState.Finished => mret (r, RequestBodyRead.End_ [])
    | RequestBodyState.ContentLength remaining =>
        let take := N.min remaining buffer in
        data ← read take;
        if is_emptyb data then
          fail (mkIoError UnexpectedEof (lit "connection closed before request body completed"))
        else
          let remaining := remaining - blen data in
          mret (in_state r (if remaining =? 0 then RequestBodyState.Finished
                            else RequestBodyState.ContentLength remaining),
                RequestBodyRead.Data data)
    | RequestBodyState.Chunked remaining =>
        if remaining =? 0 then
          size_line ← read_crlf_line_limited max_header_size;
          size ← lift_result (ok_or (chunk_size size_line)
                                (invalid_data (lit "invalid chunk size in request")));
          if size =? 0 then
            trailers ← read_trailers max_header_size max_header_count;
            mret (in_state r RequestBodyState.Finished, RequestBodyRead.End_ trailers)
          else read_chunk_data r size buffer
        else read_chunk_data r remaining buffer
    end.

Definition REQUEST_BODY_CHUNK_SIZE : N := 16 * 1024.

(** The loop of [read_request_body_all]; allocation failures are not modelled. *)
Fixpoint read_body_all_loop {S} `{Read S} (max_header_size max_header_count : N) (fuel : nat)
    (r : RequestBodyReader) (body : list N) : StateR S IoError (list N * Headers) :=
  match fuel with
  | O => spent
  | Datatypes.S fuel' =>
      next ← RequestBodyReader_read r REQUEST_BODY_CHUNK_SIZE max_header_size max_header_count;
      match snd next with
      | RequestBodyRead.Data data =>
          read_body_all_loop max_header_size max_header_count fuel' (fst next) (body ++ data)
      | RequestBodyRead.End_ trailers => mret (body, trailers)
      end
  end.
Definition read_request_body_all {S} `{Read S} (r : RequestBodyReader)
    (max_header_size max_header_count : N) : StateR S IoError (list N * Headers) :=
  looping (fun fuel => read_body_all_loop max_header_size max_header_count fuel r []).

Module BoundedRequestBody.
Inductive t :=
| Complete (body : list N) (trailers : Headers)
| Overflow (prefix : list N) (reader : RequestBodyReader).
End BoundedRequestBody.

Fixpoint read_bounded_loop {S} `{Read S} (limit max_header_size max_header_count : N) (fuel : nat)
    (r : RequestBodyReader) (body : list N) : StateR S IoError BoundedRequestBody.t :=
  match fuel with
  | O => spent
  | Datatypes.S fuel' =>
      let allowed := saturating_sub (saturating_add USIZE_MAX limit 1) (blen body) in
      if allowed =? 0 then mret (BoundedRequestBody.Overflow body r)
      else
        next ← RequestBodyReader_read r (N.min allowed REQUEST_BODY_CHUNK_SIZE)
                 max_header_size max_header_count;
        match snd next with
        | RequestBodyRead.Data data =>
            let body := body ++ data in
            if limit <? blen body then mret (BoundedRequestBody.Overflow body (fst next))
            else read_bounded_loop limit max_header_size max_header_count fuel' (fst next) body
        | RequestBodyRead.End_ trailers => mret (BoundedRequestBody.Complete body trailers)
        end
  end.
Definition read_request_body_bounded {S} `{Read S} (framing : RequestBodyFraming.t)
    (limit max_header_size max_header_count : N) : StateR S IoError BoundedRequestBody.t :=
  let r := RequestBodyReader_new framing in
  if match framing with RequestBodyFraming.ContentLength length => limit <? length | _ => false end
  then mret (BoundedRequestBody.Overflow [] r)
  else looping (fun fuel => read_bounded_loop limit max_header_size max_header_count fuel r []).

Definition read_request {S} `{Read S} (max_header_size max_header_count : N)
    : StateR S IoError (option RawRequest) :=
  head ← read_request_head max_header_size max_header_count;
  match head with
  | None => mret None
  | Some head =>
      content ← read_request_body_all (RequestBodyReader_new (hd_body head)) max_header_size max_header_count;
      let q := hd_request head in
      mret (Some (mkRawRequest (rq_method q) (rq_target q) (rq_version q) (rq_headers q)
                    (fst content) (snd content)))
  end.
