(* ===== verification/Http1Proofs.v ===== *)
(** * HTTP/1 messages, proofs

    Heads: both readers find the first blank line, whatever the cuts of the
    network.  Bodies: the incremental decoder accepts exactly the grammar
    [framed] of RFC 9112 bodies under the configured limits. *)
From Stdlib Require Import Ascii String.
From stdpp Require Import base numbers list gmap strings.
From S2P Require Import Prelude Utf8 Format Io Http1.

(** ** First occurrences *)

Lemma split_once_first p c a rest :
  contains (p ++ [c]) (a ++ p) = false ->
  split_once (p ++ [c]) (a ++ (p ++ [c]) ++ rest) = Some (a, rest).
Proof.
  induction a as [|x a IH]; intros H.
  - cbn [app]. destruct ((p ++ [c]) ++ rest) eqn:E; [by destruct p|].
    cbn [split_once]. rewrite <- E. by rewrite strip_prefix_app.
  - cbn [app split_once]. cbn [app contains] in H. apply orb_false_iff in H as [Hs H].
    destruct (strip_prefix (p ++ [c]) (x :: a ++ (p ++ [c]) ++ rest)) as [r|] eqn:E.
    + exfalso. apply strip_prefix_Some in E. apply not_true_iff_false in Hs. apply Hs.
      apply starts_with_true. exists (drop (length (p ++ [c])) (x :: a ++ p)).
      rewrite <- (take_drop (length (p ++ [c])) (x :: a ++ p)) at 1. f_equal.
      apply (f_equal (take (length (p ++ [c])))) in E. rewrite take_app_length in E.
      etransitivity; [|exact E].
      replace (x :: a ++ (p ++ [c]) ++ rest) with ((x :: a ++ p) ++ c :: rest)
        by (cbn; by rewrite <- !app_assoc).
      rewrite take_app_le; [done|]. cbn. rewrite !length_app. cbn. lia.
    + by rewrite IH.
Qed.

Lemma contains_snoc p s c :
  p <> [] -> contains p s = false -> contains p (s ++ [c]) = ends_with p (s ++ [c]).
Proof.
  intros Hp Hs. apply eq_true_iff_eq. rewrite ends_with_true, contains_true. split.
  - intros (a & b & E). destruct b as [|b0 b] using rev_ind.
    + exists a. by rewrite app_nil_r in E.
    + exfalso. rewrite !app_assoc in E. apply app_inj_tail in E as [E _].
      apply not_true_iff_false in Hs. apply Hs, contains_true. exists a, b. by rewrite app_assoc.
  - intros (r & E). exists r, []. by rewrite app_nil_r.
Qed.

(** A separator that the last byte completes is the first one. *)
Lemma split_once_snoc p buf b rest :
  p <> [] -> contains p buf = false -> ends_with p (buf ++ [b]) = true ->
  exists a, buf ++ [b] = a ++ p /\ split_once p (buf ++ b :: rest) = Some (a, rest).
Proof.
  intros Hp Hb He. apply ends_with_true in He as [a E]. exists a. split; [done|].
  destruct p as [|c p _] using rev_ind; [done|].
  rewrite app_assoc in E. apply app_inj_tail in E as [-> <-].
  replace ((a ++ p) ++ b :: rest) with (a ++ (p ++ [b]) ++ rest) by (by rewrite <- !app_assoc).
  by apply split_once_first.
Qed.

(** Bytes other than the first of the separator are skipped. *)
Lemma split_once_skip c p a s :
  c ∉ a -> split_once (c :: p) (a ++ s) = (fun '(x, y) => (a ++ x, y)) <$> split_once (c :: p) s.
Proof.
  induction a as [|b a IH]; intros Ha; cbn [app].
  - by destruct (split_once (c :: p) s) as [[? ?]|].
  - cbn [split_once strip_prefix]. rewrite (proj2 (N.eqb_neq c b)) by set_solver.
    rewrite IH by set_solver. by destruct (split_once (c :: p) s) as [[? ?]|].
Qed.

Lemma split_once_crlf text rest :
  13 ∉ text -> split_once crlf (encode text ++ crlf ++ rest) = Some (encode text, rest).
Proof.
  intros H. unfold crlf. rewrite split_once_skip by (rewrite encode_elem; [done|lia]).
  cbn. by rewrite app_nil_r.
Qed.

Lemma contains_false_nil p : p <> [] -> contains p [] = false.
Proof. by destruct p. Qed.

Lemma blen_TERMINATOR : blen TERMINATOR = 4.
Proof. done. Qed.
Lemma blen_crlf : blen crlf = 2.
Proof. done. Qed.
#[export] Hint Rewrite blen_TERMINATOR blen_crlf : blen.

(** Bytes without the separator end before its end. *)
Lemma split_once_beyond p buf bs h r :
  contains p buf = false -> split_once p (buf ++ bs) = Some (h, r) -> blen buf < blen (h ++ p).
Proof.
  intros Hc E. apply split_once_Some in E.
  destruct (N.le_gt_cases (blen (h ++ p)) (blen buf)) as [Hle|]; [|done].
  exfalso. apply not_true_iff_false in Hc. apply Hc, contains_true.
  exists h, (drop (length (h ++ p)) buf).
  apply (f_equal (take (length (h ++ p)))) in E. unfold blen in Hle.
  rewrite app_assoc, take_app_length, take_app_le in E by lia.
  rewrite <- (take_drop (length (h ++ p)) buf) at 1. by rewrite E, app_assoc.
Qed.

(** ** Heads *)

(** What a head reader returns for the bytes of a connection. *)
Definition head_result (max_header_size : N) (bytes : list N) : Result IoError (option (list N)) :=
  match split_once TERMINATOR bytes with
  | Some (head, _) => if blen head + 4 <=? max_header_size then Ok (Some head) else Err head_too_large
  | None => if is_emptyb bytes then Ok None
            else if max_header_size <? blen bytes then Err head_too_large else Err head_incomplete
  end.
(** The bytes behind the head. *)
Definition head_rest (bytes : list N) : list N :=
  match split_once TERMINATOR bytes with Some (_, rest) => rest | None => [] end.

(** [res] is the outcome for the connection [bytes], with its rest after a head. *)
Definition head_outcome (max : N) (bytes : list N) (left : list N) (res : Result IoError (option (list N)))
    : Prop :=
  res = head_result max bytes /\ (is_ok res = true -> left = head_rest bytes).

Lemma head_outcome_large max buf bs left :
  contains TERMINATOR buf = false -> max < blen buf + blen (take 1 bs) ->
  head_outcome max (buf ++ bs) left (Err head_too_large).
Proof.
  intros Hc Hm. split; [|done]. unfold head_result.
  assert (Hl : blen (take 1 bs) <= 1) by (unfold blen; rewrite length_take; lia).
  destruct (split_once TERMINATOR (buf ++ bs)) as [[h r]|] eqn:E.
  - rewrite (proj2 (N.leb_gt _ _)); [done|].
    apply split_once_beyond in E; [|done]. autorewrite with blen in E. lia.
  - rewrite (proj2 (N.ltb_lt _ _)).
    + destruct (buf ++ bs) eqn:E2; [|done]. apply app_eq_nil in E2 as [-> ->].
      rewrite take_nil, (@blen_nil N) in Hm. lia.
    + rewrite <- (take_drop 1 bs). autorewrite with blen. lia.
Qed.

Lemma head_outcome_end max buf :
  contains TERMINATOR buf = false -> blen buf <= max ->
  head_outcome max buf [] (if is_emptyb buf then Ok None else Err head_incomplete).
Proof.
  intros Hc Hm. unfold head_outcome, head_result, head_rest.
  rewrite (proj2 (split_once_None _ _)).
  - rewrite (proj2 (N.ltb_ge _ _)) by lia. by destruct buf.
  - intros a b ->. apply not_true_iff_false in Hc. apply Hc, contains_true. eauto.
Qed.

Lemma head_outcome_found max buf bs h rest :
  split_once TERMINATOR (buf ++ bs) = Some (h, rest) -> blen h + 4 <= max ->
  head_outcome max (buf ++ bs) rest (Ok (Some h)).
Proof.
  intros E Hm. unfold head_outcome, head_result, head_rest. rewrite E.
  by rewrite (proj2 (N.leb_le _ _)) by lia.
Qed.

Lemma read_one_slice b bs : read 1 (b :: bs) = (bs, Ok [b]).
Proof.
  cbn -[take_N drop_N]. rewrite take_N_take, drop_N_drop. done.
Qed.

Lemma read_byte_slice b bs : read_byte (b :: bs) = (bs, Ok b).
Proof.
  unfold read_byte. rewrite (bind_run _ _ (b :: bs) bs [b]); [done|]. cbn [read_exact Slice_read].
  unfold slice_read_exact. rewrite (proj2 (N.leb_le _ _)) by (rewrite blen_cons; lia).
  by rewrite drop_N_drop, take_N_take.
Qed.

Lemma read_head_loop_slice max fuel bs buf :
  (length bs < fuel)%nat -> contains TERMINATOR buf = false -> blen buf <= max ->
  let out := read_head_loop max fuel buf bs in head_outcome max (buf ++ bs) (fst out) (snd out).
Proof.
  revert bs buf. induction fuel as [|fuel IH]; intros bs buf Hf Hc Hm; [lia|].
  cbn [read_head_loop]. destruct bs as [|b bs].
  - erewrite bind_run by done. rewrite app_nil_r.
    pose proof (head_outcome_end max buf Hc Hm) as H. by destruct (is_emptyb buf).
  - rewrite (bind_run _ _ _ _ _ (read_one_slice b bs)). cbv zeta.
    destruct (N.ltb_spec max (blen (buf ++ [b]))) as [Hl|Hl].
    { apply head_outcome_large; [done|cbn [take]; autorewrite with blen in *; lia]. }
    destruct (ends_with TERMINATOR (buf ++ [b])) eqn:He.
    + destruct (split_once_snoc TERMINATOR buf b bs) as (a & Ea & Es); [done..|].
      apply head_outcome_found with (buf := buf) (bs := b :: bs); cbn [fst snd].
      * rewrite Es. do 3 f_equal. rewrite Ea, take_N_app; [done|autorewrite with blen; lia].
      * rewrite Ea in *. autorewrite with blen in *. lia.
    + specialize (IH bs (buf ++ [b])). cbn zeta in IH. rewrite <- app_assoc in IH. apply IH; [cbn in Hf; lia| |done].
      by rewrite contains_snoc.
Qed.

Lemma read_head_slice max bs :
  let out := read_head max bs in head_outcome max bs (fst out) (snd out).
Proof. apply (read_head_loop_slice max _ bs []); [cbn; lia|done|rewrite blen_nil; lia]. Qed.

Lemma sim_read_head max : sim (read_head max) (read_head max).
Proof.
  apply sim_looping. intros fuel. generalize (@nil N).
  induction fuel as [|fuel IH]; intros buf; cbn [read_head_loop]; unfold spent; sim_auto.
Qed.
#[export] Hint Resolve sim_read_head : wire.

(** ** The terminator automaton *)

(** [matched] is the length of the longest end of the bytes read (here in
    reverse) that begins the terminator. *)
Definition automaton (matched : nat) (r : list N) : Prop :=
  match matched with
  | 0%nat => head r <> Some 13 /\ take 2 r <> [10; 13]
  | 1%nat => head r = Some 13 /\ take 2 (tail r) <> [10; 13]
  | 2%nat => take 2 r = [10; 13]
  | 3%nat => take 3 r = [13; 10; 13]
  | _ => False
  end.

(** The automaton as a table. *)
Lemma advance_table matched b :
  (matched < 4)%nat ->
  advance matched b =
  if b =? 13 then if Nat.even matched then S matched else 1%nat
  else if b =? 10 then if Nat.odd matched then S matched else 0%nat else 0%nat.
Proof.
  intros H. unfold advance.
  destruct (N.eqb_spec b 13) as [->|H13]; [|destruct (N.eqb_spec b 10) as [->|H10]];
    destruct matched as [|[|[|[|matched]]]]; try lia; try reflexivity;
    cbn [fall_back]; unfold TERMINATOR, PREFIX; cbn;
    repeat (case_bool_decide; cbn in *); congruence.
Qed.

Lemma automaton_bound matched r : automaton matched r -> (matched < 4)%nat.
Proof. destruct matched as [|[|[|[|matched]]]]; cbn; [lia..|done]. Qed.

(** A step of the automaton: at 4 the byte completes the terminator. *)
Lemma automaton_step matched buf b :
  contains TERMINATOR buf = false -> automaton matched (rev buf) ->
  if (advance matched b =? 4)%nat then ends_with TERMINATOR (buf ++ [b]) = true
  else contains TERMINATOR (buf ++ [b]) = false /\ automaton (advance matched b) (rev (buf ++ [b])).
Proof.
  intros Hc Ha. rewrite (advance_table _ _ (automaton_bound _ _ Ha)), rev_app_distr. cbn [rev app].
  rewrite contains_snoc by done.
  assert (He : ends_with TERMINATOR (buf ++ [b]) = true <-> b = 10 /\ take 3 (rev buf) = [13; 10; 13]).
  { rewrite ends_with_true. split.
    - intros [a E]. change TERMINATOR with ([13; 10; 13] ++ [10]) in E. rewrite app_assoc in E.
      apply app_inj_tail in E as [-> ->]. by rewrite rev_app_distr.
    - intros [-> E]. exists (rev (drop 3 (rev buf))).
      rewrite <- (rev_involutive buf) at 1. rewrite <- (take_drop 3 (rev buf)) at 1.
      by rewrite E, rev_app_distr, <- app_assoc. }
  revert Ha He. generalize (rev buf) as r. intros r Ha He. clear Hc.
  destruct matched as [|[|[|[|matched]]]]; cbn [automaton] in Ha; try done;
    (destruct (N.eqb_spec b 13) as [->|H13]; [|destruct (N.eqb_spec b 10) as [->|H10]]); cbn.
  all: try (apply He; naive_solver).
  all: split; [apply not_true_iff_false; rewrite He|].
  all: destruct r as [|r1 [|r2 [|r3 r]]]; cbn in *; naive_solver.
Qed.

Lemma scan_buffer_spec matched index buf available :
  contains TERMINATOR buf = false -> automaton matched (rev buf) ->
  match scan_buffer matched index available with
  | (_, Some e) =>
      exists a b c, available = a ++ b :: c /\ e = index + blen (a ++ [b]) /\
        contains TERMINATOR (buf ++ a) = false /\ ends_with TERMINATOR (buf ++ a ++ [b]) = true
  | (matched', None) =>
      contains TERMINATOR (buf ++ available) = false /\ automaton matched' (rev (buf ++ available))
  end.
Proof.
  revert matched index buf. induction available as [|b available IH]; intros matched index buf Hc Ha;
    cbn [scan_buffer].
  { by rewrite app_nil_r. }
  pose proof (automaton_step matched buf b Hc Ha) as Hs. cbv zeta.
  destruct (advance matched b =? 4)%nat.
  - exists [], b, available. cbn [app]. rewrite app_nil_r. split_and!; [done|autorewrite with blen; lia|done|done].
  - destruct Hs as [Hc' Ha']. specialize (IH _ (index + 1) _ Hc' Ha').
    destruct (scan_buffer (advance matched b) (index + 1) available) as [m' [e|]].
    + destruct IH as (a & b' & c & -> & -> & H1 & H2). exists (b :: a), b', c.
      rewrite <- !app_assoc in H1, H2. cbn [app] in *. split_and!; [done| |done|done].
      autorewrite with blen. lia.
    + by rewrite <- !app_assoc in IH.
Qed.

Lemma read_head_buffered_loop_spec max fuel s buf matched :
  healthy s -> (length (carried s) < fuel)%nat -> contains TERMINATOR buf = false -> blen buf <= max ->
  automaton matched (rev buf) ->
  let out := read_head_buffered_loop max fuel buf matched s in
  healthy (fst out) /\ head_outcome max (buf ++ carried s) (carried (fst out)) (snd out).
Proof.
  revert s buf matched. induction fuel as [|fuel IH]; intros s buf matched Hs Hf Hc Hm Ha; [lia|].
  cbn [read_head_buffered_loop]. destruct Hs as [|a s (b & bs & ->) Hs].
  { erewrite bind_run by done. cbn [is_emptyb carried flat_map]. rewrite app_nil_r.
    pose proof (head_outcome_end max buf Hc Hm) as H. destruct (is_emptyb buf); (split; [constructor|done]). }
  erewrite bind_run by done. cbn [is_emptyb].
  pose proof (scan_buffer_spec matched 0 buf (b :: bs) Hc Ha) as Hscan.
  destruct (scan_buffer matched 0 (b :: bs)) as [m' [e|]]; cbn [default from_option is_some id].
  - destruct Hscan as (p & x & q & E & He & Hp & Hend). rewrite E in *.
    assert (Ht : take_N e (p ++ x :: q) = p ++ [x]).
    { replace (p ++ x :: q) with ((p ++ [x]) ++ q) by (by rewrite <- app_assoc).
      apply take_N_app. rewrite He. lia. }
    assert (Hd : drop_N e (p ++ x :: q) = q).
    { replace (p ++ x :: q) with ((p ++ [x]) ++ q) by (by rewrite <- app_assoc).
      apply drop_N_app. rewrite He. lia. }
    erewrite bind_run by done. rewrite Ht, Hd. rewrite app_assoc in Hend.
    destruct (split_once_snoc TERMINATOR (buf ++ p) x (q ++ carried s)) as (h & Eh & Es); [done..|].
    replace (buf ++ carried (Bytes (p ++ x :: q) :: s)) with ((buf ++ p) ++ x :: q ++ carried s)
      by (cbn; by rewrite <- !app_assoc).
    rewrite app_assoc, Eh. autorewrite with blen.
    destruct (N.ltb_spec max (blen h + 4)) as [Hl|Hl]; (split; [by apply healthy_unread|]).
    + split; [|done]. unfold head_result. rewrite Es. by rewrite (proj2 (N.leb_gt _ _)) by lia.
    + cbn [fst snd mret StateR_ret]. rewrite take_N_app by lia. rewrite carried_unread.
      by apply head_outcome_found.
  - destruct Hscan as [Hc' Ha']. erewrite bind_run by done.
    rewrite take_N_all, drop_N_all by done. cbn [unread].
    replace (buf ++ carried (Bytes (b :: bs) :: s)) with ((buf ++ b :: bs) ++ carried s)
      by (cbn; by rewrite <- !app_assoc).
    destruct (N.ltb_spec max (blen (buf ++ b :: bs))) as [Hl|Hl].
    + split; [done|]. apply head_outcome_large; [done|lia].
    + apply IH; try done. change (carried (Bytes (b :: bs) :: s)) with ((b :: bs) ++ carried s) in Hf.
      rewrite length_app in Hf. cbn [length] in Hf. lia.
Qed.

Lemma read_head_buffered_spec max s :
  healthy s ->
  let out := read_head_buffered max s in
  healthy (fst out) /\ head_outcome max (carried s) (carried (fst out)) (snd out).
Proof.
  intros Hs. apply (read_head_buffered_loop_spec max _ s [] 0); try done.
  - cbn [pending Stream_read]. lia.
  - rewrite blen_nil. lia.
Qed.

(** ** Peeking *)

Lemma split_once_app p s more a b :
  split_once p s = Some (a, b) -> split_once p (s ++ more) = Some (a, b ++ more).
Proof.
  revert a b. induction s as [|c s IH]; intros a b; cbn [split_once app].
  - destruct (strip_prefix p []) eqn:E; [|done]. intros [= <- <-].
    apply strip_prefix_Some in E. symmetry in E. apply app_eq_nil in E as [-> ->]. by destruct more.
  - destruct (strip_prefix p (c :: s)) as [r|] eqn:E.
    + intros [= <- <-]. apply strip_prefix_Some in E.
      rewrite (proj2 (strip_prefix_Some p (c :: s ++ more) (r ++ more))); [done|].
      change (c :: s ++ more) with ((c :: s) ++ more). by rewrite E, app_assoc.
    + destruct (split_once p s) as [[x y]|] eqn:E2; [|done]. intros [= <- <-].
      rewrite (IH _ _ eq_refl). destruct (strip_prefix p (c :: s ++ more)) as [r|] eqn:E3; [|done].
      exfalso. apply strip_prefix_Some in E3. apply split_once_Some in E2.
      rewrite strip_prefix_None in E. apply (E (drop (length p) (c :: s))).
      rewrite <- (take_drop (length p) (c :: s)) at 1. f_equal.
      apply (f_equal (take (length p))) in E3. rewrite take_app_length in E3.
      rewrite <- E3 at 2. change (c :: s ++ more) with ((c :: s) ++ more).
      rewrite take_app_le; [done|]. rewrite E2. cbn. rewrite !length_app. lia.
Qed.

Lemma terminator_position_spec k bs :
  terminator_position k bs = (fun h => k + blen (fst h)) <$> split_once TERMINATOR bs.
Proof.
  revert k. induction bs as [|b bs IH]; intros k; [done|]. cbn [terminator_position split_once].
  unfold starts_with. destruct (strip_prefix TERMINATOR (b :: bs)); cbn [is_some].
  - cbn [fmap option_fmap option_map fst]. rewrite blen_nil. f_equal. lia.
  - rewrite IH. destruct (split_once TERMINATOR bs) as [[x y]|]; [|done].
    cbn [fmap option_fmap option_map fst]. rewrite blen_cons. f_equal. lia.
Qed.

Lemma sim_read_request_head max count : sim (read_request_head max count) (read_request_head max count).
Proof. unfold read_request_head. sim_auto. Qed.
#[export] Hint Resolve sim_read_request_head : wire.

(** A head behind which [rest] follows. *)
Lemma read_head_found max bs h rest :
  split_once TERMINATOR bs = Some (h, rest) -> blen h + 4 <= max ->
  read_head max bs = (rest, Ok (Some h)).
Proof.
  intros E Hm. destruct (read_head_slice max bs) as [Er Rr].
  unfold head_result, head_rest in *. rewrite E, (proj2 (N.leb_le _ _)) in Er by lia. rewrite E in Rr.
  destruct (read_head max bs) as [v r]; cbn [fst snd] in *. subst r. by rewrite Rr.
Qed.

Lemma read_head_too_large max bs h rest :
  split_once TERMINATOR bs = Some (h, rest) -> max < blen h + 4 ->
  snd (read_head max bs) = Err head_too_large.
Proof.
  intros E Hm. destruct (read_head_slice max bs) as [Er _].
  unfold head_result in Er. by rewrite E, (proj2 (N.leb_gt _ _)) in Er by lia.
Qed.

(** The reader that peeks at a TCP stream does what the plain reader does. *)
Lemma read_request_head_tcp_spec max count s :
  healthy s ->
  let tcp := read_request_head_tcp max count s in
  let plain := read_request_head max count (carried s) in
  snd tcp = snd plain /\ (is_ok (snd plain) = true -> healthy (fst tcp) /\ carried (fst tcp) = fst plain).
Proof.
  intros Hs. unfold read_request_head_tcp.
  assert (Hp : 0 < N.max (N.min PEEK_CAPACITY (saturating_add USIZE_MAX max 1)) 1) by lia.
  set (limit := N.max _ 1) in *. clearbody limit. cbv zeta.
  destruct Hs as [|a s' (b & bs & ->) Hs']; [split; [done|split; [constructor|done]]|].
  assert (Hs : healthy (Bytes (b :: bs) :: s')) by (constructor; eauto).
  set (s := Bytes (b :: bs) :: s') in *.
  rewrite (bind_run (peek limit) _ s s (take_N limit (b :: bs)) eq_refl).
  rewrite terminator_position_spec.
  replace (is_emptyb (take_N limit (b :: bs))) with false
    by (cbn [take_N]; by rewrite (proj2 (N.eqb_neq limit 0)) by lia).
  destruct (split_once TERMINATOR (take_N limit (b :: bs))) as [[h c]|] eqn:E;
    cbn [fmap option_fmap option_map fst].
  2: { destruct (sim_read_request_head max count s Hs) as (t & Ht & Ct & ->). done. }
  assert (Ec : split_once TERMINATOR (carried s) = Some (h, c ++ drop_N limit (b :: bs) ++ carried s')).
  { change (carried s) with ((b :: bs) ++ carried s').
    rewrite <- (take_drop_N limit (b :: bs)) at 1. rewrite <- app_assoc. by apply split_once_app. }
  set (rest := c ++ _) in Ec. clearbody rest. clear E.
  rewrite N.add_0_l. destruct (N.ltb_spec max (blen h + 4)) as [Hl|Hl].
  - pose proof (read_head_too_large _ _ _ _ Ec Hl) as Ee. unfold read_request_head, mbind, StateR_bind.
    destruct (read_head max (carried s)) as [v r]. cbn [snd] in Ee. by subst r.
  - unfold read_request_head. rewrite (bind_run _ _ _ _ _ (read_head_found _ _ _ _ Ec Hl)).
    apply split_once_Some in Ec.
    destruct (sim_read_exact (blen h + 4) s Hs) as (t & Ht & Ct & Et).
    assert (Ex : slice_read_exact (blen h + 4) (carried s) = (rest, Ok (h ++ TERMINATOR))).
    { unfold slice_read_exact. rewrite Ec, app_assoc.
      rewrite take_N_app, drop_N_app by (by autorewrite with blen).
      rewrite (proj2 (N.leb_le _ _)); [done|]. autorewrite with blen. lia. }
    change (read_exact (blen h + 4) (carried s)) with (slice_read_exact (blen h + 4) (carried s)) in Ct, Et.
    rewrite Ex in Ct, Et. rewrite (bind_run _ _ _ _ _ Et), take_N_app by lia.
    unfold mbind, StateR_bind, lift_result. destruct (parse_request_head h count); [|done].
    cbn [fst snd]. done.
Qed.

(** C25: the three head readers agree, however the network cuts the bytes.  The
    buffered response reader with its terminator automaton returns the head or
    the error that the bytewise reader returns; the request reader that peeks at
    the TCP stream returns what the plain request reader returns; and behind
    a head all of them leave exactly the bytes that follow the blank line. *)
Theorem head_readers_agree max count s :
  healthy s ->
  (snd (read_response_head_buffered max count s) = snd (read_response_head max count s) /\
   (is_ok (snd (read_response_head max count s)) = true ->
    carried (fst (read_response_head_buffered max count s)) = head_rest (carried s) /\
    carried (fst (read_response_head max count s)) = head_rest (carried s))) /\
  (snd (read_request_head_tcp max count s) = snd (read_request_head max count s) /\
   (is_ok (snd (read_request_head max count s)) = true ->
    carried (fst (read_request_head_tcp max count s)) = carried (fst (read_request_head max count s)))).
Proof.
  intros Hs. split.
  - unfold read_response_head_buffered, read_response_head.
    destruct (read_head_buffered_spec max s Hs) as [_ [Eb Rb]].
    destruct (sim_read_head max s Hs) as (t & _ & Ct & Et).
    destruct (read_head_slice max (carried s)) as [Es Rs].
    unfold mbind, StateR_bind. rewrite Et.
    destruct (read_head_buffered max s) as [u r]. cbn [fst snd] in *.
    destruct (read_head max (carried s)) as [v r']. cbn [fst snd] in *. subst r r'.
    destruct (head_result max (carried s)) as [[h|]|e]; cbn [lift_result ok_or fst snd]; [|done|done].
    destruct (parse_response_head h count); cbn [is_ok fst snd]; [|done].
    split; [done|]. intros _. rewrite Rb, Ct, Rs; done.
  - destruct (read_request_head_tcp_spec max count s Hs) as [-> H].
    destruct (sim_read_request_head max count s Hs) as (t & Ht & Ct & ->). cbn [fst snd].
    split; [done|]. intros Hok. rewrite Ct. by apply H.
Qed.

Definition sample_head : list N :=
  lit "GET / HTTP/1.1" ++ crlf ++ lit "Host: a" ++ TERMINATOR ++ lit "next".
Lemma head_readers_agree_witness :
  healthy [Bytes (take 23 sample_head); Bytes (drop 23 sample_head)] /\
  snd (read_request_head_tcp 100 5 [Bytes (take 23 sample_head); Bytes (drop 23 sample_head)]) =
  snd (read_request_head 100 5 [Bytes (take 23 sample_head); Bytes (drop 23 sample_head)]).
Proof.
  assert (H : healthy [Bytes (take 23 sample_head); Bytes (drop 23 sample_head)])
    by (repeat constructor; vm_compute; eauto).
  split; [exact H|].
  exact (proj1 (proj2 (head_readers_agree 100 5 _ H))).
Defined.

(** ** Framing *)

Lemma content_length_spec headers n :
  content_length headers = Ok n ->
  match n with
  | None => field_values (lit "content-length") headers = []
  | Some n => field_values (lit "content-length") headers <> [] /\
              Forall (fun v => parse_uint USIZE_MAX v = Ok n) (field_values (lit "content-length") headers)
  end.
Proof.
  unfold content_length. destruct (field_values _ _) as [|v vs]; [by intros [= <-]|].
  destruct (parse_uint USIZE_MAX v) as [k|] eqn:Ek; [|done]. cbn [map_err mbind result_bind].
  case_goal; [done|]. intros [= <-]. split; [done|]. constructor; [done|].
  apply Forall_forall. intros w Hw. apply not_true_iff_false in E.
  destruct (parse_uint USIZE_MAX w) as [k'|] eqn:Ew.
  - destruct (N.eqb_spec k' k) as [->|Hk]; [done|]. exfalso. apply E, existsb_exists. exists w.
    split; [by apply list_elem_of_In|]. rewrite Ew. by apply negb_true_iff, N.eqb_neq.
  - exfalso. apply E, existsb_exists. exists w. split; [by apply list_elem_of_In|]. by rewrite Ew.
Qed.

(** the body framing of an accepted request is unambiguous.  A chunked
    request has no Content-Length and no other transfer coding; a request with a
    length has no transfer coding, and all its Content-Length values, in
    however many fields, denote that length; otherwise it has neither.  A
    request with both kinds of framing or with conflicting lengths is refused. *)
Theorem request_framing_unambiguous headers f :
  body_framing headers = Ok f ->
  match f with
  | RequestBodyFraming.Chunked =>
      field_values (lit "content-length") headers = [] /\ transfer_codings headers = [lit "chunked"]
  | RequestBodyFraming.ContentLength n =>
      transfer_codings headers = [] /\ field_values (lit "content-length") headers <> [] /\
      Forall (fun v => parse_uint USIZE_MAX v = Ok n) (field_values (lit "content-length") headers)
  | RequestBodyFraming.None =>
      transfer_codings headers = [] /\ field_values (lit "content-length") headers = []
  end.
Proof.
  unfold body_framing. destruct (content_length headers) as [n|] eqn:En; [|done].
  apply content_length_spec in En. cbn [mbind result_bind]. cbv zeta.
  destruct (transfer_codings headers) as [|c cs] eqn:Et; cbn [is_emptyb negb andb].
  - destruct n; intros [= <-]; done.
  - destruct n as [n|]; [done|]. cbn [is_some]. case_bool_decide as Ec; [|done].
    intros [= <-]. by rewrite Ec.
Qed.
Lemma request_framing_unambiguous_witness :
  body_framing [(lit "Transfer-Encoding", lit "Chunked")] = Ok RequestBodyFraming.Chunked /\
  transfer_codings [(lit "Transfer-Encoding", lit "Chunked")] = [lit "chunked"].
Proof.
  assert (H : body_framing [(lit "Transfer-Encoding", lit "Chunked")] = Ok RequestBodyFraming.Chunked)
    by (vm_compute; reflexivity).
  split; [exact H|]. exact (proj2 (request_framing_unambiguous _ _ H)).
Defined.
