(* ===== verification/Http1Body.v ===== *)
(** * Request bodies on the wire

    The grammar of HTTP/1 request bodies under the configured limits, and the
    proof that the incremental decoder of crates/rsproxy-net/src/http/request
    accepts exactly this grammar, whatever the buffer sizes and the cuts of
    the network.  Collecting a body completely or up to a limit is a corollary. *)
From Stdlib Require Import Ascii String.
From stdpp Require Import base numbers list gmap strings.
From S2P Require Import Prelude Utf8 Format Io Http1 Http1Proofs.

(** ** Grammar *)

Section Grammar.
Context (max_header_size max_header_count : N).

(** A line of UTF-8 text that the first CRLF of [bytes] ends. *)
Definition crlf_line (bytes : list N) (text : str) (rest : list N) : Prop :=
  split_once crlf bytes = Some (encode text, rest) /\ valid_str text = true /\
  len text + 2 <= saturating_add USIZE_MAX max_header_size 2.

Definition trailer_total (total : N) (line : str) : N :=
  saturating_add USIZE_MAX (saturating_add USIZE_MAX total (len line)) 2.

(** The trailer lines after [seen], which took [total] bytes. *)
Inductive trailer_lines : Headers -> N -> list N -> Headers -> list N -> Prop :=
| trailers_end seen total bytes rest :
    crlf_line bytes [] rest -> trailer_total total [] <= max_header_size ->
    trailer_lines seen total bytes seen rest
| trailers_more seen total bytes line trailer mid all rest :
    crlf_line bytes line mid -> line <> [] -> trailer_total total line <= max_header_size ->
    blen seen < max_header_count -> trailer_of_line line = Ok trailer ->
    trailer_lines (seen ++ [trailer]) (trailer_total total line) mid all rest ->
    trailer_lines seen total bytes all rest.

(** From a decoder state, [bytes] hold a body, its trailers, and [rest]. *)
Inductive framed : RequestBodyState.t -> list N -> list N -> Headers -> list N -> Prop :=
| framed_finished rest : framed RequestBodyState.Finished rest [] [] rest
| framed_length n body rest :
    0 < n -> blen body = n -> framed (RequestBodyState.ContentLength n) (body ++ rest) body [] rest
| framed_data n data bytes body trailers rest :
    0 < n -> blen data = n -> framed (RequestBodyState.Chunked 0) bytes body trailers rest ->
    framed (RequestBodyState.Chunked n) (data ++ crlf ++ bytes) (data ++ body) trailers rest
| framed_size n line bytes mid body trailers rest :
    crlf_line bytes line mid -> chunk_size line = Some n -> 0 < n ->
    framed (RequestBodyState.Chunked n) mid body trailers rest ->
    framed (RequestBodyState.Chunked 0) bytes body trailers rest
| framed_last line bytes mid trailers rest :
    crlf_line bytes line mid -> chunk_size line = Some 0 ->
    trailer_lines [] 0 mid trailers rest ->
    framed (RequestBodyState.Chunked 0) bytes [] trailers rest.
End Grammar.

(** ** Lines *)

Lemma crlf_line_loop_spec limit fuel bs buf :
  (length bs < fuel)%nat -> contains crlf buf = false ->
  blen buf <= saturating_add USIZE_MAX limit 2 ->
  forall text rest,
  crlf_line_loop limit fuel buf bs = (rest, Ok text) <-> crlf_line limit (buf ++ bs) text rest.
Proof.
  revert bs buf. induction fuel as [|fuel IH]; intros bs buf Hf Hc Hm text rest; [lia|].
  cbn [crlf_line_loop]. destruct bs as [|b bs].
  - rewrite app_nil_r. split; [done|]. intros (E & _). exfalso.
    apply split_once_Some in E. apply not_true_iff_false in Hc. apply Hc, contains_true. eauto.
  - rewrite (bind_run _ _ _ _ _ (read_byte_slice b bs)). cbv zeta.
    destruct (N.ltb_spec (saturating_add USIZE_MAX limit 2) (blen (buf ++ [b]))) as [Hl|Hl].
    { split; [done|]. intros (E & _ & H). exfalso. apply split_once_beyond in E; [|done].
      rewrite <- length_encode in H. autorewrite with blen in *. unfold blen in *. lia. }
    destruct (ends_with crlf (buf ++ [b])) eqn:He.
    + destruct (split_once_snoc crlf buf b bs) as (a & Ea & Es); [done..|].
      rewrite Ea, take_N_app by (autorewrite with blen; lia). unfold crlf_line. rewrite Es.
      unfold lift_result, ok_or. split.
      * destruct (from_utf8 a) as [t|] eqn:Eu; [|done]. intros [= <- <-].
        apply from_utf8_Some in Eu as [<- Hv]. split_and!; [done|done|].
        rewrite Ea in Hl. rewrite <- length_encode. autorewrite with blen in Hl. unfold blen in Hl. lia.
      * intros ([= -> ->] & Hv & _). by rewrite from_utf8_encode.
    + rewrite IH; [|cbn in Hf; lia| |done].
      * by rewrite <- app_assoc.
      * by rewrite contains_snoc.
Qed.

Lemma read_crlf_line_slice limit bs text rest :
  read_crlf_line_limited limit bs = (rest, Ok text) <-> crlf_line limit bs text rest.
Proof.
  unfold read_crlf_line_limited, looping. rewrite crlf_line_loop_spec; [done|cbn; lia|done|].
  rewrite blen_nil. lia.
Qed.

Lemma crlf_line_shorter limit bs text rest : crlf_line limit bs text rest -> (length rest + 2 <= length bs)%nat.
Proof. intros (E & _). apply split_once_Some in E as ->. rewrite !length_app. cbn. lia. Qed.

Lemma sim_read_crlf_line limit : sim (read_crlf_line_limited limit) (read_crlf_line_limited limit).
Proof.
  apply sim_looping. intros fuel. generalize (@nil N).
  induction fuel as [|fuel IH]; intros buf; cbn [crlf_line_loop]; unfold spent; sim_auto.
Qed.
#[export] Hint Resolve sim_read_crlf_line : wire.

(** ** Trailers *)

Lemma read_trailers_loop_spec size count fuel seen total bs :
  (length bs < fuel)%nat -> forall all rest,
  read_trailers_loop size count fuel seen total bs = (rest, Ok all) <->
  trailer_lines size count seen total bs all rest.
Proof.
  revert seen total bs. induction fuel as [|fuel IH]; intros seen total bs Hf all rest; [lia|].
  cbn [read_trailers_loop]. split.
  - intros H. apply bind_ok in H as (mid & line & El & H). apply read_crlf_line_slice in El.
    pose proof (crlf_line_shorter _ _ _ _ El). cbv zeta in H. fold (trailer_total total line) in H.
    destruct (N.ltb_spec size (trailer_total total line)) as [|Hsize]; [done|].
    destruct (is_emptyb line) eqn:Eline.
    { destruct line; [|done]. injection H as <- <-. by apply trailers_end. }
    destruct (N.leb_spec count (blen seen)) as [|Hcount]; [done|].
    apply bind_ok in H as (mid' & trailer & Et & H). injection Et as <- Et.
    apply IH in H; [|lia]. eapply trailers_more; [done|by intros ->|done|lia|done|done].
  - intros H. inversion H as [? ? ? ? El Hs|? ? ? line trailer mid ? ? El Hne Hs Hcnt Et Hr]; subst.
    + rewrite (bind_run _ _ _ _ _ (proj2 (read_crlf_line_slice _ _ _ _) El)). cbv zeta.
      fold (trailer_total total []). by rewrite (proj2 (N.ltb_ge _ _)) by done.
    + pose proof (crlf_line_shorter _ _ _ _ El).
      rewrite (bind_run _ _ _ _ _ (proj2 (read_crlf_line_slice _ _ _ _) El)). cbv zeta.
      fold (trailer_total total line).
      rewrite (proj2 (N.ltb_ge _ _)) by done. destruct line as [|c line]; [done|]. cbn [is_emptyb].
      rewrite (proj2 (N.leb_gt _ _)) by done. rewrite Et. apply IH; [lia|done].
Qed.

Lemma read_trailers_slice size count bs all rest :
  read_trailers size count bs = (rest, Ok all) <-> trailer_lines size count [] 0 bs all rest.
Proof. apply read_trailers_loop_spec. cbn. lia. Qed.

Lemma sim_read_trailers size count : sim (read_trailers size count) (read_trailers size count).
Proof.
  apply sim_looping. intros fuel. generalize (@nil (list N * list N)) 0.
  induction fuel as [|fuel IH]; intros seen total; cbn [read_trailers_loop]; unfold spent; sim_auto.
Qed.
#[export] Hint Resolve sim_read_trailers : wire.

Lemma trailer_lines_shorter size count seen total bs all rest :
  trailer_lines size count seen total bs all rest -> (length rest + 2 <= length bs)%nat.
Proof. induction 1 as [? ? ? ? H|? ? ? ? ? ? ? ? H]; apply crlf_line_shorter in H; lia. Qed.

(** ** The decoder *)

Section Decoder.
Context (max_header_size max_header_count : N).
Local Abbreviation framed := (framed max_header_size max_header_count).

Lemma slice_read_exact_ok n bs bs' data :
  read_exact n bs = (bs', Ok data) <-> bs = data ++ bs' /\ blen data = n.
Proof.
  cbn [read_exact Slice_read]. unfold slice_read_exact. split.
  - destruct (N.leb_spec n (blen bs)); [|done]. intros [= <- <-].
    rewrite take_drop_N, blen_take_N. split; [done|lia].
  - intros [-> <-]. rewrite (proj2 (N.leb_le _ _)) by (rewrite blen_app; lia).
    by rewrite take_N_app, drop_N_app.
Qed.

(** What a step of the decoder may return: the end with the trailers, or a
    nonempty piece of the body that fits the buffer; [k] is what remains. *)
Definition step_ok (r r' : RequestBodyReader) (buffer : N) (x : RequestBodyRead.t)
    (bytes bytes' : list N) : Prop :=
  br_framing r' = br_framing r /\
  match x with
  | RequestBodyRead.End_ trailers => framed (br_state r) bytes [] trailers bytes'
  | RequestBodyRead.Data data =>
      data <> [] /\ blen data <= buffer /\ (length bytes' < length bytes)%nat /\
      forall body trailers rest,
        framed (br_state r') bytes' body trailers rest ->
        framed (br_state r) bytes (data ++ body) trailers rest
  end.
(** The step that a framed body allows. *)
Definition step_done (r r' : RequestBodyReader) (x : RequestBodyRead.t) (bytes' : list N)
    (body : list N) (trailers : Headers) (rest : list N) : Prop :=
  match x with
  | RequestBodyRead.End_ trailers' => body = [] /\ trailers' = trailers /\ bytes' = rest
  | RequestBodyRead.Data data =>
      exists body', body = data ++ body' /\ framed (br_state r') bytes' body' trailers rest
  end.

Lemma chunk_data_sound r n buffer bs bs' r' x :
  0 < n -> 0 < buffer ->
  read_chunk_data r n buffer bs = (bs', Ok (r', x)) ->
  step_ok (in_state r (RequestBodyState.Chunked n)) r' buffer x bs bs'.
Proof.
  intros Hn Hb H. unfold read_chunk_data in H.
  apply bind_ok in H as (bs1 & data & E1 & H). apply slice_read_exact_ok in E1 as [-> Hd].
  apply bind_ok in H as (bs2 & delimiter & E2 & H). case_bool_decide as Hdel; [|done].
  injection H as <- <- <-. subst delimiter. split; [done|].
  assert (Hne : data <> []) by (intros ->; rewrite blen_nil in Hd; lia).
  split_and!; [done|lia| |].
  { destruct data; [done|]. destruct (n - N.min n buffer =? 0).
    - apply slice_read_exact_ok in E2 as [-> _]. rewrite !length_app. cbn. lia.
    - injection E2 as <-. rewrite length_app. cbn. lia. }
  intros body trailers rest Hf. cbn [br_state in_state] in *.
  destruct (N.eqb_spec (n - N.min n buffer) 0) as [Hz|Hz].
  - apply slice_read_exact_ok in E2 as [-> _]. rewrite Hz in Hf. apply framed_data; [done|lia|done].
  - injection E2 as <-. inversion Hf; subst; [|lia|lia].
    rewrite !app_assoc, <- (app_assoc (data ++ data0)). apply framed_data; [done| |done].
    rewrite blen_app. lia.
Qed.

Lemma chunk_data_complete r n buffer bs body trailers rest :
  0 < n -> 0 < buffer -> framed (RequestBodyState.Chunked n) bs body trailers rest ->
  exists bs' r' x, read_chunk_data r n buffer bs = (bs', Ok (r', x)) /\
    step_done (in_state r (RequestBodyState.Chunked n)) r' x bs' body trailers rest.
Proof.
  intros Hn Hb Hf. inversion Hf as [| |? data bytes body' ? ? _ Hd Hr| |]; subst; [|lia|lia].
  set (k := N.min (blen data) buffer).
  assert (Hk : blen (take_N k data) = k) by (rewrite blen_take_N; lia).
  unfold read_chunk_data. fold k.
  rewrite (bind_run _ _ _ (drop_N k data ++ crlf ++ bytes) (take_N k data)).
  2: { apply slice_read_exact_ok. split; [|done]. by rewrite (app_assoc (take_N k data)), take_drop_N. }
  destruct (N.eqb_spec (blen data - k) 0) as [Hz|Hz].
  - rewrite drop_N_all by lia. cbn [app].
    rewrite (bind_run _ _ _ bytes crlf) by (by apply slice_read_exact_ok).
    rewrite bool_decide_true by done. do 3 eexists. split; [done|]. exists body'.
    split; [by rewrite take_N_all by lia|]. cbn [br_state in_state]. by rewrite Hz.
  - rewrite bind_ret, bool_decide_true by done.
    do 3 eexists. split; [done|]. exists (drop_N k data ++ body').
    split; [by rewrite (app_assoc (take_N k data)), take_drop_N|].
    apply framed_data; [cbn; lia|by rewrite blen_drop_N|done].
Qed.

Lemma sim_read_chunk_data r n buffer : sim (read_chunk_data r n buffer) (read_chunk_data r n buffer).
Proof. unfold read_chunk_data. sim_auto. Qed.
#[local] Hint Resolve sim_read_chunk_data : wire.

(** The chunked part of the decoder only uses exact reads. *)
Definition chunked_read {S} `{Read S} (r : RequestBodyReader) (remaining buffer : N)
    : StateR S IoError (RequestBodyReader * RequestBodyRead.t) :=
  if remaining =? 0 then
    size_line ← read_crlf_line_limited max_header_size;
    size ← lift_result (ok_or (chunk_size size_line)
                          (invalid_data (lit "invalid chunk size in request")));
    if size =? 0 then
      trailers ← read_trailers max_header_size max_header_count;
      mret (in_state r RequestBodyState.Finished, RequestBodyRead.End_ trailers)
    else read_chunk_data r size buffer
  else read_chunk_data r remaining buffer.

Lemma sim_chunked_read r n buffer : sim (chunked_read r n buffer) (chunked_read r n buffer).
Proof. unfold chunked_read. sim_auto. Qed.

Lemma chunked_read_sound r n buffer bs bs' r' x :
  br_state r = RequestBodyState.Chunked n -> 0 < buffer ->
  chunked_read r n buffer bs = (bs', Ok (r', x)) -> step_ok r r' buffer x bs bs'.
Proof.
  intros Hst Hb. destruct r as [f st]. cbn in Hst. subst st. unfold chunked_read.
  destruct (N.eqb_spec n 0) as [->|Hn]; intros H.
  - apply bind_ok in H as (mid & line & El & H). apply read_crlf_line_slice in El.
    apply bind_ok in H as (mid' & k & Ek & H). injection Ek as <- Ek.
    destruct (chunk_size line) as [k'|] eqn:Ec; [|done]. injection Ek as ->.
    destruct (N.eqb_spec k 0) as [->|Hk].
    + apply bind_ok in H as (mid' & trailers & Et & H). injection H as <- <- <-.
      apply read_trailers_slice in Et. split; [done|]. by eapply framed_last.
    + apply chunk_data_sound in H as [Hf H]; [|lia|done]. split; [done|]. destruct x as [d|].
      * destruct H as (Hd & Hl & Hs & H). pose proof (crlf_line_shorter _ _ _ _ El).
        split_and!; [done|done|lia|]. intros body trailers rest Hr.
        eapply framed_size; [done|done|lia|]. by apply H.
      * eapply framed_size; [done|done|lia|done].
  - apply chunk_data_sound in H; [done|lia|done].
Qed.

Lemma chunked_read_complete r n buffer bs body trailers rest :
  br_state r = RequestBodyState.Chunked n -> 0 < buffer -> framed (br_state r) bs body trailers rest ->
  exists bs' r' x, chunked_read r n buffer bs = (bs', Ok (r', x)) /\
    step_done r r' x bs' body trailers rest.
Proof.
  intros Hst Hb. destruct r as [f st]. cbn in Hst. subst st. cbn [br_state]. unfold chunked_read.
  destruct (N.eqb_spec n 0) as [->|Hn]; intros Hf.
  - inversion Hf as [| |? ? ? ? ? ? H0|k line ? mid ? ? ? El Ec Hk Hr|line ? mid ? ? El Ec Ht]; subst; [lia| |];
      rewrite (bind_run _ _ _ _ _ (proj2 (read_crlf_line_slice _ _ _ _) El)); rewrite Ec;
      erewrite bind_run by done.
    + rewrite (proj2 (N.eqb_neq k 0)) by lia.
      destruct (chunk_data_complete (mkRequestBodyReader f (RequestBodyState.Chunked 0)) k buffer mid
                  body trailers rest) as (bs' & r' & x & -> & H); [done..|]. eauto.
    + rewrite N.eqb_refl, (bind_run _ _ _ _ _ (proj2 (read_trailers_slice _ _ _ _ _) Ht)). eexists _, _, _. done.
  - destruct (chunk_data_complete (mkRequestBodyReader f (RequestBodyState.Chunked n)) n buffer bs
                body trailers rest) as (bs' & r' & x & -> & H); [lia|done|done|]. eauto.
Qed.

(** Soundness: whatever a step returns extends every reading of the rest. *)
Lemma reader_step_sound r buffer s s' r' x :
  healthy s -> 0 < buffer ->
  RequestBodyReader_read r buffer max_header_size max_header_count s = (s', Ok (r', x)) ->
  healthy s' /\ step_ok r r' buffer x (carried s) (carried s').
Proof.
  intros Hs Hb. unfold RequestBodyReader_read. rewrite (proj2 (N.eqb_neq buffer 0)) by lia.
  destruct (br_state r) as [|n|n] eqn:Hst.
  - intros [= <- <- <-]. split; [done|]. split; [done|]. rewrite Hst. constructor.
  - intros H. apply bind_ok in H as (s1 & data & Er & H). cbn [read Stream_read] in Er.
    destruct (is_emptyb data) eqn:Ed; [done|].
    assert (Hn : 0 < N.min n buffer).
    { destruct (N.eq_dec n 0) as [->|]; [|lia]. exfalso. rewrite N.min_0_l in Er.
      destruct s as [|[[|b bs]|e] s]; cbn in Er; simplify_eq/=. }
    destruct (stream_read_spec (N.min n buffer) s Hs Hn) as (s2 & data' & E & Hs2 & Hc & Hl & _).
    rewrite E in Er. injection Er as <- <-. injection H as <- <- <-. split; [done|].
    split; [done|]. destruct data' as [|d ds]; [done|]. split_and!; [done|lia| |].
    { rewrite Hc, length_app. cbn. lia. }
    intros body trailers rest Hf. rewrite Hst, Hc. cbn [br_state in_state] in Hf.
    destruct (N.eqb_spec (n - blen (d :: ds)) 0); inversion Hf; subst.
    + rewrite app_nil_r. apply framed_length; lia.
    + rewrite app_assoc. apply framed_length; [lia|]. rewrite blen_app. lia.
  - intros H. fold (@chunked_read (list Arrival) _ r n buffer) in H.
    destruct (sim_ok _ _ _ _ _ (sim_chunked_read r n buffer) Hs H) as [Hs' H'].
    split; [done|]. by eapply chunked_read_sound.
Qed.

Lemma framed_length_inv n bytes body trailers rest :
  framed (RequestBodyState.ContentLength n) bytes body trailers rest ->
  0 < n /\ blen body = n /\ trailers = [] /\ bytes = body ++ rest.
Proof. intros H. by inversion H. Qed.

(** Completeness: a framed body is read piece by piece. *)
Lemma reader_step_complete r buffer s body trailers rest :
  healthy s -> 0 < buffer -> framed (br_state r) (carried s) body trailers rest ->
  exists s' r' x,
    RequestBodyReader_read r buffer max_header_size max_header_count s = (s', Ok (r', x)) /\
    step_done r r' x (carried s') body trailers rest.
Proof.
  intros Hs Hb Hf. unfold RequestBodyReader_read. rewrite (proj2 (N.eqb_neq buffer 0)) by lia.
  destruct (br_state r) as [|n|n] eqn:Hst.
  - inversion Hf; subst. eexists _, _, _. split; [done|]. done.
  - apply framed_length_inv in Hf as (Hn & <- & -> & Hc). symmetry in Hc.
    destruct (stream_read_spec (N.min (blen body) buffer) s Hs) as (s' & data & E & Hs' & Hc' & Hd & He); [lia|].
    cbn [read Stream_read]. rewrite (bind_run _ _ _ _ _ E).
    destruct data as [|d ds].
    { rewrite (He eq_refl) in Hc. apply app_eq_nil in Hc as [-> _]. unfold blen in Hn. cbn [length] in Hn. lia. }
    cbn [is_emptyb]. eexists _, _, _. split; [done|]. exists (drop_N (blen (d :: ds)) body).
    cbn [br_state in_state].
    assert (Hb' : take_N (blen (d :: ds)) body = d :: ds).
    { rewrite <- (take_N_app_le _ body rest) by lia. rewrite Hc, Hc'. by apply take_N_app. }
    assert (Hr' : carried s' = drop_N (blen (d :: ds)) body ++ rest).
    { rewrite <- drop_N_app_le by lia. rewrite Hc, Hc'. symmetry. by apply drop_N_app. }
    split; [by rewrite <- Hb' at 1; rewrite take_drop_N|]. rewrite Hr'.
    destruct (N.eqb_spec (blen body - blen (d :: ds)) 0).
    + rewrite drop_N_all by lia. constructor.
    + apply framed_length; [lia|]. by rewrite blen_drop_N.
  - rewrite <- Hst in Hf.
    destruct (chunked_read_complete r n buffer _ _ _ _ Hst Hb Hf) as (bs' & r' & x & E & H).
    destruct (sim_run _ _ _ _ _ (sim_chunked_read r n buffer) Hs E) as (s' & E' & _ & <-). eauto.
Qed.

Lemma body_all_sound fuel r seen s s' all trailers :
  healthy s -> read_body_all_loop max_header_size max_header_count fuel r seen s = (s', Ok (all, trailers)) ->
  healthy s' /\ exists body, all = seen ++ body /\ framed (br_state r) (carried s) body trailers (carried s').
Proof.
  revert r seen s. induction fuel as [|fuel IH]; intros r seen s Hs H; [done|].
  cbn [read_body_all_loop] in H. apply bind_ok in H as (s1 & [r1 x] & E & H).
  apply reader_step_sound in E as (Hs1 & _ & Hx); [|done|done]. cbn [fst snd] in H. destruct x as [d|t].
  - destruct (IH _ _ _ Hs1 H) as (Hs' & body & -> & Hf). split; [done|]. exists (d ++ body).
    rewrite app_assoc. split; [done|]. by apply Hx.
  - injection H as <- <- <-. split; [done|]. exists []. by rewrite app_nil_r.
Qed.

Lemma body_all_complete fuel r seen s body trailers rest :
  healthy s -> (length (carried s) < fuel)%nat -> framed (br_state r) (carried s) body trailers rest ->
  exists s', read_body_all_loop max_header_size max_header_count fuel r seen s =
             (s', Ok (seen ++ body, trailers)) /\ healthy s' /\ carried s' = rest.
Proof.
  revert r seen s body. induction fuel as [|fuel IH]; intros r seen s body Hs Hf Hb; [lia|].
  cbn [read_body_all_loop].
  destruct (reader_step_complete r REQUEST_BODY_CHUNK_SIZE s _ _ _ Hs ltac:(done) Hb)
    as (s1 & r1 & x & E & Hd). rewrite (bind_run _ _ _ _ _ E).
  apply reader_step_sound in E as (Hs1 & _ & Hx); [|done|done]. cbn [fst snd]. destruct x as [d|t].
  - destruct Hd as (body' & -> & Hb'). destruct Hx as (_ & _ & Hlt & _).
    rewrite app_assoc. apply IH; [done|lia|done].
  - destruct Hd as (-> & -> & <-). exists s1. by rewrite app_nil_r.
Qed.

Lemma read_request_body_all_iff r s body trailers rest :
  healthy s ->
  framed (br_state r) (carried s) body trailers rest <->
  exists s', read_request_body_all r max_header_size max_header_count s = (s', Ok (body, trailers)) /\
             healthy s' /\ carried s' = rest.
Proof.
  intros Hs. unfold read_request_body_all, looping. split.
  - intros Hf. destruct (body_all_complete (S (length (pending s))) r [] s body trailers rest)
      as (s' & E & H); [done|cbn; lia|done|]. eauto.
  - intros (s' & E & _ & <-). apply body_all_sound in E as (_ & body' & -> & Hf); done.
Qed.

(** Two readings of the same bytes are the same. *)
Lemma framed_det st bytes b1 t1 rest1 b2 t2 rest2 :
  framed st bytes b1 t1 rest1 -> framed st bytes b2 t2 rest2 -> b1 = b2 /\ t1 = t2 /\ rest1 = rest2.
Proof.
  intros H1 H2.
  assert (Hs : exists s, healthy s /\ carried s = bytes).
  { destruct bytes as [|b bs]; [exists []|exists [Bytes (b :: bs)]].
    - split; [constructor|done].
    - split; [constructor; [eauto|constructor]|]. cbn. by rewrite app_nil_r. }
  destruct Hs as (s & Hs & <-).
  apply (read_request_body_all_iff (mkRequestBodyReader RequestBodyFraming.None st)) in H1 as (u & E1 & _ & <-); [|done].
  apply (read_request_body_all_iff (mkRequestBodyReader RequestBodyFraming.None st)) in H2 as (v & E2 & _ & <-); [|done].
  rewrite E1 in E2. by simplify_eq.
Qed.

(** ** Bounded collection *)

(** The outcome of the bounded reader after [seen] for a connection that holds
    [body]: all of it, or a prefix past the limit and a decoder for the rest. *)
Definition bounded_done (r : RequestBodyReader) (limit : N) (seen body : list N) (trailers : Headers)
    (rest bytes' : list N) (out : BoundedRequestBody.t) : Prop :=
  match out with
  | BoundedRequestBody.Complete all trailers' =>
      all = seen ++ body /\ trailers' = trailers /\ bytes' = rest /\ blen all <= limit
  | BoundedRequestBody.Overflow prefix r' =>
      limit < blen (seen ++ body) /\ blen prefix <= limit + 1 /\ br_framing r' = br_framing r /\
      exists more, seen ++ body = prefix ++ more /\ framed (br_state r') bytes' more trailers rest
  end.

Lemma bounded_loop_complete limit fuel r seen s body trailers rest :
  limit < USIZE_MAX -> healthy s -> blen seen <= limit -> (length (carried s) < fuel)%nat ->
  framed (br_state r) (carried s) body trailers rest ->
  exists s' out, read_bounded_loop limit max_header_size max_header_count fuel r seen s = (s', Ok out) /\
    healthy s' /\ bounded_done r limit seen body trailers rest (carried s') out.
Proof.
  intros Hlim. revert r seen s body. induction fuel as [|fuel IH]; intros r seen s body Hs Hseen Hf Hb; [lia|].
  cbn [read_bounded_loop]. cbv zeta. unfold saturating_sub, saturating_add.
  rewrite N.min_r by lia. rewrite (proj2 (N.eqb_neq _ 0)) by lia.
  assert (Hbuf : 0 < N.min (limit + 1 - blen seen) REQUEST_BODY_CHUNK_SIZE)
    by (unfold REQUEST_BODY_CHUNK_SIZE; lia).
  destruct (reader_step_complete r _ s _ _ _ Hs Hbuf Hb) as (s1 & r1 & x & E & Hd).
  rewrite (bind_run _ _ _ _ _ E). apply reader_step_sound in E as (Hs1 & Hr1 & Hx); [|done|done].
  cbn [fst snd]. destruct x as [d|t].
  - destruct Hd as (body' & -> & Hb'). destruct Hx as (_ & Hl & Hlt & _).
    destruct (N.ltb_spec limit (blen (seen ++ d))) as [Hgt|Hle].
    + exists s1, (BoundedRequestBody.Overflow (seen ++ d) r1). split; [done|]. split; [done|].
      cbn [bounded_done]. rewrite app_assoc. autorewrite with blen in *. split_and!; [lia|lia|done|eauto].
    + destruct (IH r1 (seen ++ d) s1 body') as (s' & out & E & Hs' & Ho); [done|done|lia|done|].
      exists s', out. split; [done|]. split; [done|].
      destruct out; cbn [bounded_done] in *; rewrite app_assoc; [done|by rewrite <- Hr1].
  - destruct Hd as (-> & -> & <-). exists s1, (BoundedRequestBody.Complete seen trailers).
    split; [done|]. split; [done|]. cbn [bounded_done]. by rewrite app_nil_r.
Qed.
End Decoder.

(** C15: the incremental request decoder reads exactly the bodies of the grammar
    under the configured limits, whatever its internal buffer and the cuts of
    the network: it returns a body and trailers if and only if the bytes of the
    connection hold them, and leaves exactly the bytes behind the message. *)
Theorem request_body_decoder_exact size count framing s body trailers rest :
  healthy s ->
  framed size count (br_state (RequestBodyReader_new framing)) (carried s) body trailers rest <->
  exists s', read_request_body_all (RequestBodyReader_new framing) size count s =
               (s', Ok (body, trailers)) /\ healthy s' /\ carried s' = rest.
Proof. apply read_request_body_all_iff. Qed.

Definition sample_chunks : list N :=
  lit "3;x=1" ++ crlf ++ lit "abc" ++ crlf ++ lit "A" ++ crlf ++ lit "0123456789" ++ crlf ++
  lit "0" ++ crlf ++ lit "Digest: z" ++ crlf ++ crlf ++ lit "next".
Definition sample_chunks_stream : list Arrival :=
  [Bytes (take 9 sample_chunks); Bytes (take 17 (drop 9 sample_chunks)); Bytes (drop 26 sample_chunks)].
Lemma sample_chunks_healthy : healthy sample_chunks_stream.
Proof. repeat constructor; vm_compute; eauto. Qed.
(** The decoder's run on the sample. *)
Lemma sample_chunks_framed :
  framed 100 5 (br_state (RequestBodyReader_new RequestBodyFraming.Chunked)) (carried sample_chunks_stream)
    (lit "abc0123456789") [(lit "Digest", lit "z")] (lit "next").
Proof.
  apply (read_request_body_all_iff 100 5 (RequestBodyReader_new RequestBodyFraming.Chunked));
    [exact sample_chunks_healthy|].
  eexists. split; [vm_compute; reflexivity|]. split; [repeat constructor; eauto|reflexivity].
Qed.

Lemma request_body_decoder_exact_witness :
  healthy sample_chunks_stream /\
  exists s', read_request_body_all (RequestBodyReader_new RequestBodyFraming.Chunked) 100 5
               sample_chunks_stream = (s', Ok (lit "abc0123456789", [(lit "Digest", lit "z")])) /\
             healthy s' /\ carried s' = lit "next".
Proof.
  split; [exact sample_chunks_healthy|].
  exact (proj1 (request_body_decoder_exact 100 5 RequestBodyFraming.Chunked _ _ _ _ sample_chunks_healthy)
           sample_chunks_framed).
Defined.

Lemma read_bounded_done size count framing limit s body trailers rest :
  limit < USIZE_MAX -> healthy s ->
  framed size count (br_state (RequestBodyReader_new framing)) (carried s) body trailers rest ->
  exists s' out, read_request_body_bounded framing limit size count s = (s', Ok out) /\ healthy s' /\
    bounded_done size count (RequestBodyReader_new framing) limit [] body trailers rest (carried s') out.
Proof.
  intros Hlim Hs Hf. unfold read_request_body_bounded. case_goal.
  - destruct framing as [|n|]; [done| |done]. apply N.ltb_lt in E.
    assert (Hb : blen body = n).
    { cbn in Hf. destruct n; [lia|]. by apply framed_length_inv in Hf as (_ & ? & _). }
    eexists _, _. split; [done|]. split; [done|]. cbn [bounded_done app].
    split_and!; [lia|rewrite blen_nil; lia|done|]. exists body. done.
  - unfold looping. edestruct (bounded_loop_complete size count limit) as (s' & out & E' & Hs' & Ho);
      [done|done| |by apply Nat.lt_succ_diag_r|done|]; [rewrite blen_nil; lia|]. eauto.
Qed.

(** collecting a request body up to a limit loses nothing.  For a connection
    that holds a body, the bounded reader returns all of it when it fits the
    limit; otherwise it returns a prefix of at most one byte more than the limit
    and a decoder that reads exactly the remaining bytes, the trailers and
    nothing behind them. *)
Theorem bounded_body_lossless size count framing limit s body trailers rest :
  limit < USIZE_MAX -> healthy s ->
  framed size count (br_state (RequestBodyReader_new framing)) (carried s) body trailers rest ->
  exists s' out,
    read_request_body_bounded framing limit size count s = (s', Ok out) /\
    match out with
    | BoundedRequestBody.Complete all trailers' =>
        all = body /\ trailers' = trailers /\ carried s' = rest /\ blen body <= limit
    | BoundedRequestBody.Overflow prefix r' =>
        limit < blen body /\ blen prefix <= limit + 1 /\ br_framing r' = framing /\
        exists more s'', body = prefix ++ more /\
          read_request_body_all r' size count s' = (s'', Ok (more, trailers)) /\ carried s'' = rest
    end.
Proof.
  intros Hlim Hs Hf.
  destruct (read_bounded_done size count framing limit s _ _ _ Hlim Hs Hf) as (s' & out & E & Hs' & Ho).
  exists s', out. split; [done|]. destruct out as [all t|p r'].
  { destruct Ho as (-> & H). done. }
  destruct Ho as (H1 & H2 & H3 & more & H4 & H5). split_and!; [done|done|done|].
  apply read_request_body_all_iff in H5 as (s'' & E2 & _ & <-); [|done]. exists more, s''. done.
Qed.
Lemma bounded_body_lossless_witness :
  healthy sample_chunks_stream /\
  exists s' out, read_request_body_bounded RequestBodyFraming.Chunked 5 100 5 sample_chunks_stream =
                   (s', Ok out).
Proof.
  split; [exact sample_chunks_healthy|].
  destruct (bounded_body_lossless 100 5 RequestBodyFraming.Chunked 5 sample_chunks_stream _ _ _
              eq_refl sample_chunks_healthy sample_chunks_framed) as (s' & out & E & _).
  exists s', out. exact E.
Defined.
