(* ===== verification/Http1Write.v ===== *)
(** * HTTP/1 responses and header fields

    crates/rsproxy-http/src/lib.rs (which responses carry content) and
    crates/rsproxy-net/src/http/response.rs (header fields, response heads and
    complete responses).  The reason phrases of the [http] crate are a
    parameter. *)
From Stdlib Require Import Ascii String.
From stdpp Require Import base numbers list gmap strings.
From S2P Require Import Prelude Utf8 Format Io Http1.

(** ** Content semantics *)

Definition response_has_framed_body (method : str) (status : N) : bool :=
  negb (eq_ignore_ascii_case method (lit "HEAD")) &&
  negb (eq_ignore_ascii_case method (lit "CONNECT") && in_range 200 299 status) &&
  negb (in_range 100 199 status || (status =? 204) || (status =? 304)).

Definition status_can_send_content (status : N) : bool :=
  negb (in_range 100 199 status || (status =? 204) || (status =? 205) || (status =? 304)).

Definition response_can_send_content (method : str) (status : N) : bool :=
  negb (eq_ignore_ascii_case method (lit "HEAD")) &&
  negb (eq_ignore_ascii_case method (lit "CONNECT") && in_range 200 299 status) &&
  status_can_send_content status.

Definition FORBIDDEN_TRAILERS : list str :=
  [lit "age"; lit "authorization"; lit "cache-control"; lit "connection"; lit "content-encoding";
   lit "content-length"; lit "content-range"; lit "content-type"; lit "date"; lit "expect";
   lit "expires"; lit "host"; lit "keep-alive"; lit "location"; lit "max-forwards"; lit "pragma";
   lit "proxy-authenticate"; lit "proxy-authorization"; lit "proxy-connection"; lit "range";
   lit "retry-after"; lit "te"; lit "trailer"; lit "transfer-encoding"; lit "upgrade"; lit "vary";
   lit "warning"; lit "www-authenticate"].
Definition is_forbidden_trailer_name (name : str) : bool :=
  existsb (eq_ignore_ascii_case name) FORBIDDEN_TRAILERS.

(** ** Header fields *)

(** [header]: the first value. *)
Definition header (headers : Headers) (name : str) : option str :=
  snd <$> List.find (fun h => eq_ignore_ascii_case (fst h) name) headers.

Definition canonical_header_name (name : str) : str :=
  join (lit "-") (map (fun part => match part with [] => [] | c :: cs => upper c :: cs end)
                    (split_char (ch "-") name)).

Fixpoint replace_first (name value : str) (headers : Headers) : option Headers :=
  match headers with
  | [] => None
  | (n, v) :: headers' =>
      if eq_ignore_ascii_case n name then Some ((n, value) :: headers')
      else (cons (n, v)) <$> replace_first name value headers'
  end.
Definition set_header (headers : Headers) (name value : str) : Headers :=
  match replace_first name value headers with
  | Some headers' => headers'
  | None => headers ++ [(canonical_header_name name, value)]
  end.

Definition remove_header (headers : Headers) (name : str) : Headers :=
  List.filter (fun h => negb (eq_ignore_ascii_case (fst h) name)) headers.

(** ** Validation *)

Definition is_http_token_byte (b : N) : bool :=
  is_ascii_alphanumeric b || contains_char b (lit "!#$%&'*+-.^_`|~").
Definition is_http_field_value_byte (b : N) : bool :=
  (b =? 9) || ((32 <=? b) && negb (b =? 127)).

Fixpoint validate_fields (headers : Headers) : Result IoError unit :=
  match headers with
  | [] => Ok tt
  | (name, value) :: headers' =>
      if is_emptyb name || negb (forallb is_http_token_byte (encode name)) then
        Err (invalid_input (lit "invalid HTTP response header name `" ++ name ++ lit "`"))
      else if negb (forallb is_http_field_value_byte (encode value)) then
        Err (invalid_input (lit "invalid value for HTTP response header `" ++ name ++ lit "`"))
      else validate_fields headers'
  end.
Definition validate_response_parts (version : str) (status : N) (reason : str) (headers : Headers)
    : Result IoError unit :=
  if negb ((version =s? lit "HTTP/1.0") || (version =s? lit "HTTP/1.1")) then
    Err (invalid_input (lit "invalid HTTP response version `" ++ version ++ lit "`"))
  else if negb (in_range 100 599 status) then
    Err (invalid_input (lit "invalid HTTP response status `" ++ show_N status ++ lit "`"))
  else if negb (forallb is_http_field_value_byte (encode reason)) then
    Err (invalid_input (lit "invalid HTTP response reason phrase"))
  else validate_fields headers.

Definition bad_content_length : IoError :=
  invalid_input (lit "invalid HTTP response Content-Length header").
Fixpoint streaming_lengths (content_length : option N) (values : list str) : Result IoError (option N) :=
  match values with
  | [] => Ok content_length
  | value :: values' =>
      if is_emptyb value || negb (forallb is_ascii_digit (encode value)) then Err bad_content_length
      else
        parsed ← map_err (fun _ => bad_content_length) (parse_uint U64_MAX value);
        if match content_length with Some existing => negb (existing =? parsed) | None => false end
        then Err (invalid_input (lit "conflicting HTTP response Content-Length headers"))
        else streaming_lengths (Some parsed) values'
  end.
Definition validate_streaming_framing (headers : Headers) : Result IoError (option N) :=
  content_length ← streaming_lengths None (field_values (lit "content-length") headers);
  if is_some content_length &&
     existsb (fun h => eq_ignore_ascii_case (fst h) (lit "transfer-encoding")) headers
  then Err (invalid_input
              (lit "HTTP response cannot contain both Content-Length and Transfer-Encoding"))
  else Ok content_length.

Definition matches_body_framing_header (name : str) : bool :=
  existsb (fun framing => eq_ignore_ascii_case name framing)
    [lit "content-length"; lit "trailer"; lit "transfer-encoding"].
Definition is_complete_response_managed_header (name : str) : bool :=
  existsb (fun managed => eq_ignore_ascii_case name managed)
    [lit "connection"; lit "content-length"; lit "keep-alive"; lit "proxy-connection"; lit "te";
     lit "trailer"; lit "transfer-encoding"; lit "upgrade"].

(** ** Writing *)

Definition line (text : str) : str := text ++ crlf.
Definition field_line (h : str * str) : str := fst h ++ lit ": " ++ snd h.
Definition connection_line (keep_alive : bool) : str :=
  lit "Connection: " ++ (if keep_alive then lit "keep-alive" else lit "close").
Definition status_line (version : str) (status : N) (reason : str) : str :=
  version ++ lit " " ++ show_N status ++ lit " " ++ reason.

Definition COALESCED_RESPONSE_LIMIT : N := 64 * 1024.

(** The head of a complete response. *)
Definition complete_response_head (version : str) (status : N) (reason : str) (headers : Headers)
    (body : list N) (keep_alive : bool) : str :=
  line (status_line version status reason) ++
  flat_map (fun h => line (field_line h))
    (List.filter (fun h => negb (is_complete_response_managed_header (fst h))) headers) ++
  (if status_can_send_content status then line (lit "Content-Length: " ++ show_N (blen body))
   else if status =? 205 then line (lit "Content-Length: 0") else []) ++
  line (connection_line keep_alive) ++ crlf.

Definition write_response_with_version_and_connection (version : str) (status : N) (reason : str)
    (headers : Headers) (body : list N) (keep_alive : bool) : StateR Sink IoError unit :=
  _ ← lift_result (validate_response_parts version status reason headers);
  if negb (status_can_send_content status) && negb (is_emptyb body) then
    fail (invalid_input (lit "HTTP status " ++ show_N status ++
                         lit " does not allow response content"))
  else
    let head := encode (complete_response_head version status reason headers body keep_alive) in
    _ ← (if blen body <=? COALESCED_RESPONSE_LIMIT then write_bytes (head ++ body)
         else _ ← write_bytes head; write_bytes body);
    flush.
Definition write_response (status : N) (reason : str) (headers : Headers) (body : list N)
    : StateR Sink IoError unit :=
  write_response_with_version_and_connection (lit "HTTP/1.1") status reason headers body false.

(** [StatusCode::canonical_reason] of the [http] crate, for codes 100 to 999. *)
Class StatusReasons := canonical_reason : N -> option str.

Section WriteHead.
Context {SR : StatusReasons}.

Definition reason_phrase (status : N) : str :=
  if in_range 100 999 status then unwrap_or (canonical_reason status) [] else [].

Definition streaming_response_head (version : str) (status : N) (reason : str) (headers : Headers)
    (content_length : option N) (keep_alive : bool) : str :=
  line (status_line version status reason) ++
  flat_map (fun h => line (field_line h))
    (List.filter (fun h =>
       negb (eq_ignore_ascii_case (fst h) (lit "connection") ||
             eq_ignore_ascii_case (fst h) (lit "content-length") ||
             (negb (status_can_send_content status) && matches_body_framing_header (fst h)))) headers) ++
  (if status_can_send_content status then
     match content_length with
     | Some n => line (lit "Content-Length: " ++ show_N n)
     | None => []
     end
   else if status =? 205 then line (lit "Content-Length: 0") else []) ++
  line (connection_line keep_alive) ++ crlf.

Definition write_response_head_with_connection (head : RawResponseHead) (headers : Headers)
    (keep_alive : bool) : StateR Sink IoError unit :=
  let reason := if is_emptyb (rh_reason head) then reason_phrase (rh_status head) else rh_reason head in
  _ ← lift_result (validate_response_parts (rh_version head) (rh_status head) reason headers);
  content_length ← lift_result (validate_streaming_framing headers);
  write_bytes (encode (streaming_response_head (rh_version head) (rh_status head) reason headers
                         content_length keep_alive)).
Definition write_response_head (head : RawResponseHead) (headers : Headers) : StateR Sink IoError unit :=
  write_response_head_with_connection head headers false.
End WriteHead.

(** * Header fields, proofs

    How setting and removing a field of a header list changes its values. *)

Lemma field_values_nil name headers :
  Forall (fun h => eq_ignore_ascii_case (fst h) name = false) headers -> field_values name headers = [].
Proof.
  unfold field_values. intros H.
  assert (E : flat_map (fun '(n, v) => if eq_ignore_ascii_case n name then split_char (ch ",") v else []) headers = []).
  { induction H as [|[n v] headers Hn _ IH]; [done|]. cbn [flat_map]. cbn in Hn. by rewrite Hn, IH. }
  by rewrite E.
Qed.

Lemma remove_header_none name headers :
  Forall (fun h => eq_ignore_ascii_case (fst h) name = false) (remove_header headers name).
Proof.
  unfold remove_header. apply Forall_forall. intros h Hh.
  apply list_elem_of_In, filter_In in Hh as [_ Hh]. by apply negb_true_iff in Hh.
Qed.

Lemma remove_header_forall P headers name : Forall P headers -> Forall P (remove_header headers name).
Proof.
  intros H. unfold remove_header. apply Forall_forall. intros h Hh.
  apply list_elem_of_In, filter_In in Hh as [Hh _]. rewrite Forall_forall in H. by apply H, list_elem_of_In.
Qed.

Lemma eq_ignore_ascii_case_trans a b c :
  eq_ignore_ascii_case a b = true -> eq_ignore_ascii_case a c = true -> eq_ignore_ascii_case b c = true.
Proof. rewrite !eq_ignore_ascii_case_spec. congruence. Qed.

Lemma field_values_remove_other name other headers :
  eq_ignore_ascii_case name other = false ->
  field_values name (remove_header headers other) = field_values name headers.
Proof.
  intros Hne. unfold field_values. f_equal. induction headers as [|[n v] headers IH]; [done|].
  cbn [remove_header List.filter fst flat_map]. fold (remove_header headers other).
  destruct (eq_ignore_ascii_case n other) eqn:Eo; cbn [negb flat_map].
  - rewrite IH. destruct (eq_ignore_ascii_case n name) eqn:En; [|done].
    by rewrite (eq_ignore_ascii_case_trans n name other En Eo) in Hne.
  - by rewrite IH.
Qed.

Lemma replace_first_none name value headers :
  Forall (fun h => eq_ignore_ascii_case (fst h) name = false) headers -> replace_first name value headers = None.
Proof.
  induction 1 as [|[n v] headers Hn _ IH]; [done|]. cbn in *. by rewrite Hn, IH.
Qed.

(** A field that is set where there was none. *)
Lemma field_values_set_new query name value headers :
  Forall (fun h => eq_ignore_ascii_case (fst h) name = false) headers ->
  field_values query (set_header headers name value) =
  field_values query headers ++
  (if eq_ignore_ascii_case (canonical_header_name name) query then map trim (split_char (ch ",") value) else []).
Proof.
  intros H. unfold set_header. rewrite replace_first_none by done. unfold field_values.
  rewrite flat_map_app, map_app. cbn [flat_map]. rewrite app_nil_r. f_equal. by destruct (eq_ignore_ascii_case _ query).
Qed.

Lemma show_N_field n : map trim (split_char (ch ",") (show_N n)) = [show_N n].
Proof.
  destruct (show_N_word n) as [_ H]. rewrite split_char_none.
  - cbn [map]. by rewrite trim_word.
  - destruct (to_radix_digits 10 n ltac:(lia)) as [_ Hd]. intros Hin. unfold digits_below in Hd. rewrite Forall_forall in Hd.
    destruct (Hd _ Hin) as (d & Hc & Hlt). unfold digit_char in Hc.
    cbv [ch N_of_ascii] in Hc. simpl in Hc. destruct (N.ltb_spec d 10); lia.
Qed.

Definition CL : str := lit "content-length".
Definition TE : str := lit "transfer-encoding".

Definition has_name (name : str) (h : str * str) : bool := eq_ignore_ascii_case (fst h) name.

Lemma replace_first_Some name value headers headers' :
  replace_first name value headers = Some headers' ->
  exists a n v b, headers = a ++ (n, v) :: b /\ headers' = a ++ (n, value) :: b /\
    eq_ignore_ascii_case n name = true /\ Forall (fun h => eq_ignore_ascii_case (fst h) name = false) a.
Proof.
  revert headers'. induction headers as [|[n v] headers IH]; intros headers' H; [done|]. cbn in H.
  destruct (eq_ignore_ascii_case n name) eqn:En.
  - injection H as <-. by exists [], n, v, headers.
  - destruct (replace_first name value headers) as [h|] eqn:Eh; [|done]. injection H as <-.
    destruct (IH _ eq_refl) as (a & n' & v' & b & -> & -> & Hn & Ha).
    exists ((n, v) :: a), n', v', b. split_and!; [done..|]. by constructor.
Qed.

Lemma field_values_app name a b : field_values name (a ++ b) = field_values name a ++ field_values name b.
Proof. unfold field_values. by rewrite flat_map_app, map_app. Qed.

Lemma replace_first_None_inv name value headers :
  replace_first name value headers = None ->
  Forall (fun h => eq_ignore_ascii_case (fst h) name = false) headers.
Proof.
  induction headers as [|[n v] headers IH]; [by constructor|]. cbn.
  destruct (eq_ignore_ascii_case n name) eqn:En; [done|].
  destruct (replace_first name value headers); [done|]. intros _. constructor; [done|by apply IH].
Qed.

(** Setting a field leaves the others alone. *)
Lemma field_values_set_other name value headers other :
  eq_ignore_ascii_case (canonical_header_name name) name = true -> eq_ignore_ascii_case name other = false ->
  field_values other (set_header headers name value) = field_values other headers.
Proof.
  intros Hcan Ho. unfold set_header. destruct (replace_first name value headers) as [h|] eqn:Eh.
  - destruct (replace_first_Some _ _ _ _ Eh) as (a & n & v & b & -> & -> & Hn & Ha).
    rewrite !field_values_app. f_equal.
    change ((n, value) :: b) with ([(n, value)] ++ b). change ((n, v) :: b) with ([(n, v)] ++ b).
    rewrite !field_values_app. f_equal. unfold field_values. cbn [flat_map].
    destruct (eq_ignore_ascii_case n other) eqn:Eo; [|done].
    by rewrite (eq_ignore_ascii_case_trans n name other Hn Eo) in Ho.
  - rewrite field_values_app. unfold field_values at 2. cbn [flat_map].
    destruct (eq_ignore_ascii_case (canonical_header_name name) other) eqn:Eo.
    + by rewrite (eq_ignore_ascii_case_trans _ name other Hcan Eo) in Ho.
    + by rewrite app_nil_r.
Qed.

(** Setting a field that occurs at most once. *)
Lemma field_values_set_single name value headers :
  eq_ignore_ascii_case (canonical_header_name name) name = true ->
  (length (List.filter (has_name name) headers) <= 1)%nat ->
  field_values name (set_header headers name value) = map trim (split_char (ch ",") value).
Proof.
  intros Hcan Hone. unfold set_header. destruct (replace_first name value headers) as [h|] eqn:Eh.
  - destruct (replace_first_Some _ _ _ _ Eh) as (a & n & v & b & -> & -> & Hn & Ha).
    assert (Hb : Forall (fun h => eq_ignore_ascii_case (fst h) name = false) b).
    { apply Forall_forall. intros x Hx. apply not_true_iff_false. intros Hx'.
      assert (In x (List.filter (has_name name) b)) as Hin
        by (apply filter_In; split; [by apply list_elem_of_In|done]).
      rewrite List.filter_app, length_app in Hone. cbn [List.filter] in Hone.
      replace (has_name name (n, v)) with true in Hone by (symmetry; exact Hn). cbn [length] in Hone.
      destruct (List.filter (has_name name) b); [done|]. cbn in Hone. lia. }
    rewrite field_values_app, (field_values_nil _ a) by done.
    change ((n, value) :: b) with ([(n, value)] ++ b).
    rewrite field_values_app, (field_values_nil _ b), app_nil_r by done.
    unfold field_values. cbn [flat_map app]. by rewrite Hn, app_nil_r.
  - apply replace_first_None_inv in Eh. rewrite field_values_app. unfold field_values at 2. cbn [flat_map].
    by rewrite Hcan, app_nil_r, (field_values_nil _ headers).
Qed.

Lemma header_none name headers :
  header headers name = None <-> Forall (fun h => eq_ignore_ascii_case (fst h) name = false) headers.
Proof.
  unfold header. induction headers as [|[n v] headers IH]; cbn; [by split|].
  rewrite Forall_cons. cbn. destruct (eq_ignore_ascii_case n name); cbn; [|naive_solver].
  split; [done|]. by intros [? _].
Qed.

Lemma filter_remove_le name other headers :
  (length (List.filter (has_name name) (remove_header headers other)) <=
   length (List.filter (has_name name) headers))%nat.
Proof.
  induction headers as [|h headers IH]; [done|]. cbn [remove_header List.filter].
  fold (remove_header headers other). destruct (negb (eq_ignore_ascii_case (fst h) other)); cbn [List.filter];
    destruct (has_name name h); cbn; lia.
Qed.


(** ** Hop-by-hop fields *)

Lemma fold_remove_forall P names headers : Forall P headers -> Forall P (fold_left remove_header names headers).
Proof. revert headers. induction names as [|n names IH]; intros headers H; cbn; [done|]. by apply IH, remove_header_forall. Qed.
(** A name that is removed by the fold does not occur after it. *)
Lemma fold_remove_none names name headers :
  name ∈ names -> header (fold_left remove_header names headers) name = None.
Proof.
  revert headers. induction names as [|n names IH]; intros headers Hin; [by apply not_elem_of_nil in Hin|]. cbn.
  apply elem_of_cons in Hin as [<-|Hin]; [|by apply IH].
  apply header_none, fold_remove_forall, remove_header_none.
Qed.
Lemma header_remove_other headers name other :
  eq_ignore_ascii_case name other = false -> header (remove_header headers other) name = header headers name.
Proof.
  intros Hne. unfold header. induction headers as [|[n v] headers IH]; [done|].
  cbn [remove_header List.filter fst]. fold (remove_header headers other).
  destruct (eq_ignore_ascii_case n other) eqn:Eo; cbn [negb List.find fst].
  - destruct (eq_ignore_ascii_case n name) eqn:En; [|done].
    by rewrite (eq_ignore_ascii_case_trans n name other En Eo) in Hne.
  - destruct (eq_ignore_ascii_case n name); [done|]. exact IH.
Qed.
Lemma header_app a b name :
  header (a ++ b) name = match header a name with Some v => Some v | None => header b name end.
Proof.
  unfold header. induction a as [|[n v] a IH]; [done|]. cbn [app List.find fst].
  by destruct (eq_ignore_ascii_case n name).
Qed.
(** Names are compared without case. *)
Lemma header_case headers a b : eq_ignore_ascii_case a b = true -> header headers a = header headers b.
Proof.
  intros H. unfold header. induction headers as [|[n v] headers IH]; [done|]. cbn [List.find fst].
  replace (eq_ignore_ascii_case n b) with (eq_ignore_ascii_case n a); [by destruct (eq_ignore_ascii_case n a)|].
  apply eq_ignore_ascii_case_spec in H. unfold eq_ignore_ascii_case. by rewrite H.
Qed.
Lemma field_values_case headers a b : eq_ignore_ascii_case a b = true -> field_values a headers = field_values b headers.
Proof.
  intros H. unfold field_values. f_equal. apply flat_map_ext. intros [n v].
  replace (eq_ignore_ascii_case n b) with (eq_ignore_ascii_case n a); [done|].
  apply eq_ignore_ascii_case_spec in H. unfold eq_ignore_ascii_case. by rewrite H.
Qed.
(** Setting a field is seen under its name and under no other. *)
Lemma header_set name value headers query :
  eq_ignore_ascii_case (canonical_header_name name) name = true ->
  header (set_header headers name value) query =
  if eq_ignore_ascii_case name query then Some value else header headers query.
Proof.
  intros Hcan. unfold set_header. destruct (replace_first name value headers) as [h|] eqn:Eh.
  - destruct (replace_first_Some _ _ _ _ Eh) as (a & n & v & b & -> & -> & Hn & Ha).
    rewrite !header_app. destruct (eq_ignore_ascii_case name query) eqn:Eq.
    + assert (Hq : header a query = None) by (rewrite <- (header_case _ _ _ Eq); by apply header_none).
      rewrite Hq. unfold header. cbn [List.find fst].
      replace (eq_ignore_ascii_case n query) with true; [done|]. symmetry.
      rewrite !eq_ignore_ascii_case_spec in *. congruence.
    + unfold header at 2 4. cbn [List.find fst].
      replace (eq_ignore_ascii_case n query) with false; [done|]. symmetry.
      apply not_true_iff_false. intros E. by rewrite (eq_ignore_ascii_case_trans n name query Hn E) in Eq.
  - apply replace_first_None_inv in Eh. rewrite header_app. destruct (eq_ignore_ascii_case name query) eqn:Eq.
    + assert (Hq : header headers query = None) by (rewrite <- (header_case _ _ _ Eq); by apply header_none).
      rewrite Hq. unfold header. cbn [List.find fst].
      replace (eq_ignore_ascii_case (canonical_header_name name) query) with true; [done|]. symmetry.
      rewrite !eq_ignore_ascii_case_spec in *. congruence.
    + destruct (header headers query); [done|]. unfold header. cbn [List.find fst].
      replace (eq_ignore_ascii_case (canonical_header_name name) query) with false; [done|]. symmetry.
      apply not_true_iff_false. intros E. by rewrite (eq_ignore_ascii_case_trans _ name query Hcan E) in Eq.
Qed.
