(* ===== verification/ParseOps.v ===== *)
(** * Parsing of action operands

    crates/rsproxy-rules/src/parser: header, cookie, CORS and cache operations
    (metadata.rs), inline mocks (mock.rs), query, body and inject operations
    (transforms.rs), deletions (delete.rs), TLS options (tls.rs); the
    construction of host pools (action/host_pool.rs) and the validation of
    templates (action/template_validation.rs, template/transform.rs). *)
From Stdlib Require Import Ascii String.
From stdpp Require Import base numbers list gmap strings.
From S2P Require Import Prelude Family Utf8 NetAddr Model Url Syntax Engines Template Http1Write.
Import Syntax.
Abbreviation Parsed := (Result RuleModelError).

(** [collect] and loops over arguments. *)
Fixpoint collect {A B} (f : A -> Parsed B) (l : list A) : Parsed (list B) :=
  match l with
  | [] => Ok []
  | x :: l' => y ← f x; ys ← collect f l'; Ok (y :: ys)
  end.
Fixpoint fold_args {A S} (f : S -> A -> Parsed S) (s : S) (l : list A) : Parsed S :=
  match l with
  | [] => Ok s
  | x :: l' => s ← f s x; fold_args f s l'
  end.
Definition one_of (input : str) (names : list string) : bool := existsb (fun name => input =s? lit name) names.
Definition strip_char (c : char) (input : str) : option str := strip_prefix [c] input.
Definition split_at_char (c : char) (input : str) : option (str * str) := split_once [c] input.

(** ** Headers (metadata.rs) *)

Definition is_http_token (name : str) : bool := forallb Syntax.is_http_token_byte (encode name).
Definition normalize_header_name (input : str) : Parsed str :=
  let name := trim input in
  if is_emptyb name || negb (is_http_token name) then
    Err (InvalidInput (lit "header name")
           (lit "invalid header name `" ++ name ++ lit "`; use an unquoted HTTP header name such as `x-debug`"))
  else Ok (to_ascii_lowercase name).
Definition header_replace_parts (input : str) : option (str * str) :=
  match split_at_char (ch "~") input with
  | Some (name, expression) => if contains_char (ch ":") name then None else Some (name, expression)
  | None => None
  end.
(** [first_unescaped_slash]: the text before the slash and behind it. *)
Fixpoint first_unescaped_slash (escaped : bool) (before input : str) : option (str * str) :=
  match input with
  | [] => None
  | c :: rest =>
      if escaped then first_unescaped_slash false (before ++ [c]) rest
      else if c =? ch "\" then first_unescaped_slash true (before ++ [c]) rest
      else if c =? ch "/" then Some (before, rest)
      else first_unescaped_slash false (before ++ [c]) rest
  end.
Fixpoint unescape_header_slashes (input : str) : str :=
  match input with
  | [] => []
  | c :: rest =>
      match rest with
      | x :: rest' =>
          if (c =? ch "\") && (x =? ch "/") then ch "/" :: unescape_header_slashes rest'
          else c :: unescape_header_slashes rest
      | [] => [c]
      end
  end.

Section Operands.
Context {PE : PatternEngines}.

Definition replace_pattern (pattern : str) (case_insensitive : bool) (context : str) : Parsed RegexReplacePattern :=
  ok_or (RegexReplacePattern_new pattern case_insensitive) (InvalidRegex context).
Definition parse_header_replacement (expression : str) : Parsed (RegexReplacePattern * str) :=
  let malformed := InvalidSyntax (lit "header replacement") (lit "header replacement must use `/regex/replacement`") in
  match strip_char (ch "/") (trim expression) with
  | None => Err malformed
  | Some rest =>
      '(pattern, replacement) ← ok_or (first_unescaped_slash false [] rest) malformed;
      pattern ← replace_pattern (unescape_header_slashes pattern) false (lit "invalid header replacement regex");
      Ok (pattern, unescape_header_slashes replacement)
  end.
Definition parse_header_op (input : str) : Parsed HeaderOp.t :=
  let input := trim input in
  match strip_char (ch "-") input with
  | Some name => name ← normalize_header_name name; Ok (HeaderOp.Remove name)
  | None =>
      match header_replace_parts input with
      | Some (name, expression) =>
          name ← normalize_header_name name;
          '(pattern, replacement) ← parse_header_replacement expression;
          Ok (HeaderOp.Replace name pattern replacement)
      | None =>
          '(name, value) ← ok_or (split_at_char (ch ":") input)
            (InvalidSyntax (lit "header operation")
               (lit "header op must be `name: value`, `-name`, or `name ~ /regex/replacement`"));
          name ← normalize_header_name name;
          value ← parse_value (trim value);
          Ok (HeaderOp.Set_ name value)
      end
  end.
Definition validate_trailer_op (operation : HeaderOp.t) : Parsed unit :=
  match operation with
  | HeaderOp.Remove _ => Ok tt
  | HeaderOp.Set_ name _ | HeaderOp.Replace name _ _ =>
      if is_forbidden_trailer_name name then
        Err (ConstraintViolation (lit "response trailer")
               (lit "HTTP field `" ++ name ++ lit "` is forbidden in a trailer section"))
      else Ok tt
  end.

(** ** Cookies, CORS and caching (metadata.rs) *)

Definition capitalize (part : str) : str := match part with [] => [] | c :: rest => upper c :: rest end.
Definition canonical_cookie_attr_name (name : str) : str :=
  let name := to_ascii_lowercase (trim name) in
  if one_of name ["path"] then lit "Path"
  else if one_of name ["domain"] then lit "Domain"
  else if one_of name ["expires"] then lit "Expires"
  else if one_of name ["max-age"; "max_age"] then lit "Max-Age"
  else if one_of name ["http-only"; "httponly"] then lit "HttpOnly"
  else if one_of name ["secure"] then lit "Secure"
  else if one_of name ["samesite"; "same-site"; "same_site"] then lit "SameSite"
  else if one_of name ["partitioned"] then lit "Partitioned"
  else if one_of name ["priority"] then lit "Priority"
  else join (lit "-") (map capitalize (split_char (ch "-") name)).
Definition parse_cookie_attr (attrs : list CookieAttr) (part : str) : Parsed (list CookieAttr) :=
  let part := trim part in
  if is_emptyb part then Ok attrs
  else
    '(name, value) ← match split_at_char (ch "=") part with
                     | Some (name, value) => value ← parse_value (trim value); Ok (trim name, Some value)
                     | None => Ok (part, None)
                     end;
    let name := canonical_cookie_attr_name (trim name) in
    if is_emptyb name then Err (EmptyInput (lit "cookie attribute name") (lit "cookie attribute name is empty"))
    else Ok (attrs ++ [mkCookieAttr name value]).
Definition parse_cookie_op (input : str) : Parsed CookieOp.t :=
  let input := trim input in
  let malformed := InvalidSyntax (lit "cookie operation") (lit "cookie op must be `name=value` or `-name`") in
  match strip_char (ch "-") input with
  | Some name =>
      if is_emptyb (trim name)
      then Err (MissingArgument (lit "cookie remove operation") (lit "cookie remove op needs a name"))
      else Ok (CookieOp.Remove (trim name))
  | None =>
      let parts := split_char (ch ";") input in
      let first := trim (unwrap_or (head parts) []) in
      if is_emptyb first then Err malformed
      else
        '(name, value) ← ok_or (split_at_char (ch "=") first) malformed;
        if is_emptyb (trim name) then Err (EmptyInput (lit "cookie name") (lit "cookie name is empty"))
        else
          attrs ← fold_args parse_cookie_attr [] (drop 1 parts);
          value ← parse_value (trim value);
          Ok (CookieOp.Set_ (trim name) value attrs)
  end.

Definition parse_bool (input field : str) : Parsed bool :=
  let input := to_ascii_lowercase (trim input) in
  if one_of input ["true"; "yes"; "1"; "on"] then Ok true
  else if one_of input ["false"; "no"; "0"; "off"] then Ok false
  else Err (InvalidInput (lit "boolean option") (field ++ lit " must be true or false")).
Record CorsFields := mkCorsFields {
  cf_origin : option Value.t; cf_methods : option Value.t; cf_headers : option Value.t;
  cf_credentials : option bool; cf_expose : option Value.t; cf_max_age : option Value.t }.
Definition parse_cors_arg (f : CorsFields) (indexed : nat * str) : Parsed CorsFields :=
  let '(mkCorsFields origin methods headers credentials expose max_age) := f in
  let arg := trim (snd indexed) in
  if is_emptyb arg then Ok f
  else if (fst indexed =? 0)%nat && negb (contains_char (ch "=") arg) then
    v ← parse_value arg; Ok (mkCorsFields (Some v) methods headers credentials expose max_age)
  else
    '(key, value) ← ok_or (split_at_char (ch "=") arg)
      (InvalidSyntax (lit "res.cors argument") (lit "res.cors detailed arguments must be key=value"));
    let key := to_ascii_lowercase (trim key) in
    if one_of key ["origin"; "allow-origin"] then
      v ← parse_value (trim value); Ok (mkCorsFields (Some v) methods headers credentials expose max_age)
    else if one_of key ["methods"; "allow-methods"] then
      v ← parse_value (trim value); Ok (mkCorsFields origin (Some v) headers credentials expose max_age)
    else if one_of key ["headers"; "allow-headers"] then
      v ← parse_value (trim value); Ok (mkCorsFields origin methods (Some v) credentials expose max_age)
    else if one_of key ["credentials"; "allow-credentials"] then
      b ← parse_bool (unquote (trim value)) (lit "res.cors credentials");
      Ok (mkCorsFields origin methods headers (Some b) expose max_age)
    else if one_of key ["expose"; "expose-headers"] then
      v ← parse_value (trim value); Ok (mkCorsFields origin methods headers credentials (Some v) max_age)
    else if one_of key ["max-age"; "max_age"] then
      v ← parse_value (trim value); Ok (mkCorsFields origin methods headers credentials expose (Some v))
    else Err (UnsupportedInput (lit "res.cors argument") (lit "unknown res.cors argument `" ++ key ++ lit "`")).
Definition parse_cors_op (args : list str) : Parsed CorsOp :=
  if is_emptyb args then
    Err (MissingArgument (lit "res.cors action") (lit "res.cors requires at least an origin"))
  else
    f ← fold_args parse_cors_arg (mkCorsFields None None None None None None) (imap pair args);
    origin ← ok_or (cf_origin f) (MissingArgument (lit "res.cors origin") (lit "res.cors requires an origin"));
    Ok (mkCorsOp origin (cf_methods f) (cf_headers f) (cf_credentials f) (cf_expose f) (cf_max_age f)).

Definition canonical_cache_directive_name (name : str) : str :=
  let name := to_ascii_lowercase (trim name) in
  if one_of name ["max_age"] then lit "max-age"
  else if one_of name ["s_maxage"; "s-max-age"] then lit "s-maxage"
  else if one_of name ["stale_while_revalidate"] then lit "stale-while-revalidate"
  else if one_of name ["stale_if_error"] then lit "stale-if-error"
  else if one_of name ["must_revalidate"] then lit "must-revalidate"
  else if one_of name ["proxy_revalidate"] then lit "proxy-revalidate"
  else if one_of name ["no_cache"] then lit "no-cache"
  else if one_of name ["no_store"] then lit "no-store"
  else if one_of name ["no_transform"] then lit "no-transform"
  else name.
Definition parse_cache_arg (directives : list CacheDirective) (arg : str) : Parsed (list CacheDirective) :=
  let arg := trim arg in
  if is_emptyb arg then Ok directives
  else if forallb is_ascii_digit arg
  then Ok (directives ++ [mkCacheDirective (lit "max-age") (Some (Value.Inline arg))])
  else
    '(name, value) ← match split_at_char (ch "=") arg with
                     | Some (name, value) => value ← parse_value (trim value); Ok (trim name, Some value)
                     | None => Ok (arg, None)
                     end;
    let name := canonical_cache_directive_name name in
    if is_emptyb name then Err (EmptyInput (lit "cache directive name") (lit "cache directive name is empty"))
    else Ok (directives ++ [mkCacheDirective name value]).
Definition parse_cache_op (args : list str) : Parsed CacheOp.t :=
  let missing := MissingArgument (lit "cache action") (lit "cache requires at least one directive") in
  if is_emptyb args then Err missing
  else if match args with [arg] => eq_ignore_ascii_case (trim arg) (lit "off") | _ => false end then Ok CacheOp.Off
  else
    directives ← fold_args parse_cache_arg [] args;
    if is_emptyb directives then Err missing else Ok (CacheOp.Directives directives).

(** ** Statuses and mocks (error.rs, mock.rs) *)

Definition validate_status_range (code low high : N) (context expected : str) : Parsed unit :=
  if in_range low high code then Ok tt
  else Err (ConstraintViolation context
              (context ++ lit " must be " ++ expected ++ lit "; got " ++ show_N code)).
Definition final_status (code : N) (context : str) : Parsed unit :=
  validate_status_range code MIN_FINAL_HTTP_STATUS MAX_HTTP_STATUS context (lit "200..599").
Definition parse_mock_arg (op : MockInlineOp) (arg : str) : Parsed MockInlineOp :=
  let arg := trim arg in
  match split_at_char (ch "=") arg with
  | None =>
      Err (InvalidInput (lit "mock argument")
             (lit "inline mock arguments use key=value form (status, type, header, body); got `" ++ arg ++ lit "`"))
  | Some (key, value) =>
      let key := trim key in
      if key =s? lit "status" then
        let value := trim value in
        code ← integer_error (lit "mock status") value (lit "mock status must be numeric") (parse_uint U16_MAX value);
        _ ← final_status code (lit "mock status");
        Ok (mkMockInlineOp (Some code) (mi_headers op) (mi_body op))
      else if key =s? lit "type" then
        v ← parse_value value;
        Ok (mkMockInlineOp (mi_status op) (mi_headers op ++ [(lit "Content-Type", v)]) (mi_body op))
      else if key =s? lit "header" then
        match split_at_char (ch ":") value with
        | None =>
            Err (InvalidInput (lit "mock header")
                   (lit "mock header must use `header=Name: value`; got `" ++ value ++ lit "`"))
        | Some (name, value) =>
            name ← normalize_header_name name;
            v ← parse_value (trim_start value);
            Ok (mkMockInlineOp (mi_status op) (mi_headers op ++ [(name, v)]) (mi_body op))
        end
      else if key =s? lit "body" then
        v ← parse_value value; Ok (mkMockInlineOp (mi_status op) (mi_headers op) (Some v))
      else
        Err (UnsupportedInput (lit "mock argument")
               (lit "unknown inline mock argument `" ++ key ++ lit "`; use status, type, header, or body"))
  end.
Definition inline_mock_form (args : list str) : bool :=
  (1 <? length args)%nat ||
  match args with
  | arg :: _ => existsb (fun prefix => starts_with (lit prefix) (trim arg)) ["status="; "body="; "type="; "header="]%string
  | [] => false
  end.
Definition parse_mock (args : list str) : Parsed Action.t :=
  if negb (inline_mock_form args) then
    arg ← require_one args (lit "mock"); v ← parse_value arg; Ok (Action.Mock v)
  else
    op ← fold_args parse_mock_arg (mkMockInlineOp None [] None) args;
    if match mi_status op with Some status => negb (status_can_send_content status) | None => false end &&
       is_some (mi_body op)
    then Err (ConstraintViolation (lit "inline mock body") (lit "mock status 204, 205, or 304 must not define a body"))
    else Ok (Action.MockInline op).

Definition validate_map_remote_scheme (scheme target : str) : Parsed unit :=
  if one_of (to_ascii_lowercase scheme) ["http"; "https"; "ws"; "wss"] then Ok tt
  else Err (InvalidInput (lit "map.remote target")
              (lit "map.remote target must use http, https, ws, or wss; got `" ++ target ++ lit "`")).
Definition validate_map_remote_target (value : Value.t) : Parsed unit :=
  match value with
  | Value.Inline target =>
      let target := trim target in
      match split_at_char (ch "$") target with
      | Some (before, _) =>
          match split_once (lit "://") before with
          | Some (scheme, _) => validate_map_remote_scheme scheme target
          | None => Ok tt
          end
      | None => parsed ← UrlParts_parse target; validate_map_remote_scheme (up_scheme parsed) target
      end
  | _ => Ok tt
  end.

(** ** Queries, bodies and injections (transforms.rs) *)

Definition parse_query_arg (arg : str) : Parsed QueryOp.t :=
  let arg := trim arg in
  match strip_char (ch "-") arg with
  | Some name =>
      if is_emptyb (trim name)
      then Err (MissingArgument (lit "url.query remove operation") (lit "url.query remove op needs a name"))
      else Ok (QueryOp.Remove (trim name))
  | None =>
      '(name, value) ← ok_or (split_at_char (ch "=") arg)
        (InvalidSyntax (lit "url.query operation") (lit "url.query op must be `k=v` or `-k`"));
      if is_emptyb (trim name) then Err (EmptyInput (lit "url.query name") (lit "url.query name is empty"))
      else value ← parse_value (trim value); Ok (QueryOp.Set_ (trim name) value)
  end.
Definition parse_query_ops (args : list str) : Parsed (list QueryOp.t) :=
  if is_emptyb args then
    Err (MissingArgument (lit "url.query action") (lit "url.query requires at least one operation"))
  else collect parse_query_arg args.

(** [regex_literal_end]: the pattern between the first slash and the last one
    that is not escaped, and the flags behind it. *)
Fixpoint regex_literal_loop (escaped : bool) (seen : str) (found : option (str * str)) (rest : str)
    : option (str * str) :=
  match rest with
  | [] => found
  | c :: rest' =>
      if escaped then regex_literal_loop false (seen ++ [c]) found rest'
      else if c =? ch "\" then regex_literal_loop true (seen ++ [c]) found rest'
      else regex_literal_loop false (seen ++ [c]) (if c =? ch "/" then Some (seen, rest') else found) rest'
  end.
Definition regex_literal (input : str) : option (str * str) := regex_literal_loop false [] None (drop 1 input).

Definition parse_regex_replace_pattern (input : str) : Parsed RegexReplacePattern :=
  let input := trim input in
  let context := lit "invalid replacement regex" in
  if negb (starts_with [ch "/"] input) then replace_pattern (unquote input) false context
  else
    '(pattern, flags) ← ok_or (regex_literal input)
      (InvalidSyntax (lit "body.replace regex") (lit "body.replace regex pattern must end with `/`"));
    if existsb (fun c => negb (c =? ch "i")) flags then
      Err (UnsupportedInput (lit "body.replace regex flags")
             (lit "unsupported body.replace regex flags `" ++ flags ++ lit "`"))
    else replace_pattern pattern (contains_char (ch "i") flags) context.
Definition parse_body_replace (args : list str) (action : str) : Parsed BodyOp.t :=
  match args with
  | [pattern; replacement] =>
      pattern ← parse_regex_replace_pattern pattern; Ok (BodyOp.Replace pattern (unquote replacement))
  | _ => Err (MissingArgument (lit "body replacement") (action ++ lit " requires pattern and replacement"))
  end.
Definition parse_url_rewrite_pattern (input : str) : Parsed UrlRewritePattern.t :=
  let input := trim input in
  if starts_with [ch "/"] input && is_some (regex_literal input)
  then pattern ← parse_regex_replace_pattern input; Ok (UrlRewritePattern.Regex pattern)
  else value ← parse_value input; Ok (UrlRewritePattern.Plain value).

Definition parse_inject_target (input : str) : Parsed InjectTarget.t :=
  let target := to_ascii_lowercase (trim input) in
  if one_of target ["html"] then Ok InjectTarget.Html
  else if one_of target ["js"; "javascript"] then Ok InjectTarget.Js
  else if one_of target ["css"] then Ok InjectTarget.Css
  else Err (UnsupportedInput (lit "inject target") (lit "unsupported inject target `" ++ target ++ lit "`")).
Definition parse_inject_mode (input : option str) : Parsed InjectMode.t :=
  match input with
  | None => Ok InjectMode.Append
  | Some input =>
      let mode := to_ascii_lowercase (trim input) in
      if mode =s? lit "append" then Ok InjectMode.Append
      else if mode =s? lit "prepend" then Ok InjectMode.Prepend
      else if mode =s? lit "replace" then Ok InjectMode.Replace
      else Err (UnsupportedInput (lit "inject mode") (lit "unsupported inject mode `" ++ mode ++ lit "`"))
  end.
Definition parse_inject_op (args : list str) : Parsed InjectOp :=
  let parse target value mode :=
    target ← parse_inject_target target;
    mode ← parse_inject_mode mode;
    value ← parse_value value;
    Ok (mkInjectOp target value mode) in
  match args with
  | [target; value] => parse target value None
  | [target; value; mode] => parse target value (Some mode)
  | _ => Err (MissingArgument (lit "inject action") (lit "inject requires target, value, and optional mode"))
  end.
End Operands.

(** ** Deletions (delete.rs) *)

Definition matches_name (input : str) (names : list string) : bool :=
  existsb (fun name => eq_ignore_ascii_case input (lit name)) names.
Definition suffix (input : str) (prefix : string) : option str :=
  let n := length (lit prefix) in
  if eq_ignore_ascii_case (take n input) (lit prefix) then Some (drop n input) else None.
Definition suffix_any (input : str) (prefixes : list string) : option str := find_map (suffix input) prefixes.
Definition valid_name (kind value : str) : Parsed str :=
  let value := trim value in
  if is_emptyb value || existsb is_control value then
    Err (InvalidInput (lit "delete property name")
           (kind ++ lit " name must be non-empty and contain no control characters"))
  else Ok value.

Definition MAX_BODY_PATH_BYTES : N := 16 * 1024.
Definition MAX_BODY_PATH_SEGMENTS : nat := 128.
Definition dangling_escape : RuleModelError :=
  InvalidSyntax (lit "delete body path") (lit "delete body path ends with an escape").
(** [split_body_path]; escapes stay in the components. *)
Fixpoint split_body_path (current : str) (input : str) : Parsed (list str) :=
  match input with
  | [] => Ok [current]
  | c :: rest =>
      if c =? ch "\" then
        match rest with
        | [] => Err dangling_escape
        | escaped :: rest' => split_body_path (current ++ [c; escaped]) rest'
        end
      else if c =? ch "." then components ← split_body_path [] rest; Ok (current :: components)
      else split_body_path (current ++ [c]) rest
  end.
Definition control_escape (c : char) : char :=
  if c =? ch "n" then 10 else if c =? ch "r" then 13 else if c =? ch "t" then 9
  else if c =? ch "f" then 12 else if c =? ch "v" then 11 else c.
(** Characters with whether they were escaped. *)
Fixpoint decode_body_path_component (input : str) : Parsed (list (char * bool)) :=
  match input with
  | [] => Ok []
  | c :: rest =>
      if negb (c =? ch "\") then decoded ← decode_body_path_component rest; Ok ((c, false) :: decoded)
      else
        match rest with
        | [] => Err dangling_escape
        | escaped :: rest' => decoded ← decode_body_path_component rest'; Ok ((control_escape escaped, true) :: decoded)
        end
  end.
Definition body_array_index (chars : list (char * bool)) : Parsed (option N) :=
  if is_emptyb chars || existsb (fun c => snd c || negb (is_ascii_digit (fst c))) chars ||
     ((1 <? length chars)%nat && match chars with (c, _) :: _ => c =? ch "0" | [] => false end)
  then Ok None
  else
    let value := map fst chars in
    index ← integer_error (lit "delete body array index") value
      (lit "delete body array index is out of range: `" ++ value ++ lit "`") (parse_uint USIZE_MAX value);
    Ok (Some index).
(** Up to the last plain [[] of a text read backwards: what is behind it and
    what is before it, backwards. *)
Fixpoint split_open (inside : list (char * bool)) (backwards : list (char * bool))
    : option (list (char * bool) * list (char * bool)) :=
  match backwards with
  | [] => None
  | (c, escaped) :: rest =>
      if (c =? ch "[") && negb escaped then Some (inside, rest) else split_open ((c, escaped) :: inside) rest
  end.
(** The array selectors at the end of a component read backwards: what is
    before them, backwards, and the selectors. *)
Fixpoint trailing_indexes (fuel : nat) (backwards : list (char * bool)) (indexes : list N)
    : Parsed (list (char * bool) * list N) :=
  match fuel, backwards with
  | S fuel', (c, false) :: rest =>
      if c =? ch "]" then
        match split_open [] rest with
        | None => Ok (backwards, indexes)
        | Some (inside, before) =>
            index ← body_array_index inside;
            match index with
            | None => Ok (backwards, indexes)
            | Some index => trailing_indexes fuel' before (index :: indexes)
            end
        end
      else Ok (backwards, indexes)
  | _, _ => Ok (backwards, indexes)
  end.
Definition parse_body_path_component (segments : list DeleteBodyPathSegment) (input : str)
    : Parsed (list DeleteBodyPathSegment) :=
  chars ← decode_body_path_component input;
  '(backwards, indexes) ← trailing_indexes (length chars) (rev chars) [];
  let key := if negb (is_emptyb backwards) || is_emptyb indexes then [SegKey (map fst (rev backwards))] else [] in
  let segments := segments ++ key ++ map SegIndex indexes in
  if (MAX_BODY_PATH_SEGMENTS <? length segments)%nat then
    Err (LimitExceeded (lit "delete body path")
           (lit "delete body path exceeds " ++ show_N (N.of_nat MAX_BODY_PATH_SEGMENTS) ++ lit " segments"))
  else Ok segments.
Definition parse_body_path (input : str) : Parsed DeleteBodyPath :=
  if is_emptyb input then Err (EmptyInput (lit "delete body path") (lit "delete body path must not be empty"))
  else if MAX_BODY_PATH_BYTES <? len input then
    Err (LimitExceeded (lit "delete body path")
           (lit "delete body path exceeds " ++ show_N MAX_BODY_PATH_BYTES ++ lit " bytes"))
  else
    components ← split_body_path [] input;
    segments ← fold_args parse_body_path_component [] components;
    DeleteBodyPath_new segments.

(** [i32::from_str]. *)
Definition parse_i32 (s : str) : Result IntErrorKind Z :=
  match s with
  | c :: _ :: _ =>
      if c =? ch "-" then
        match parse_digits 10 (2 ^ 31) 0 (drop 1 s) with
        | Ok n => Ok (- Z.of_N n)%Z
        | Err PosOverflow => Err NegOverflow
        | Err e => Err e
        end
      else n ← parse_uint (2 ^ 31 - 1) s; Ok (Z.of_N n)
  | _ => n ← parse_uint (2 ^ 31 - 1) s; Ok (Z.of_N n)
  end.
Definition parse_path_segment (segment : str) : Parsed DeletePathSegment.t :=
  let name := to_ascii_lowercase segment in
  if name =s? lit "first" then Ok (DeletePathSegment.Index 0)
  else if name =s? lit "last" then Ok DeletePathSegment.Last
  else
    index ← integer_error (lit "pathname segment") segment
      (lit "invalid pathname segment `" ++ segment ++ lit "`") (parse_i32 segment);
    Ok (DeletePathSegment.Index index).

(** The alternatives of [parse_delete_property] in order: a name, or a prefix
    with what its suffix means. *)
Inductive DeleteForm :=
| Named (names : list string) (ops : list DeleteOp.t)
| Prefixed (prefixes : list string) (ops : str -> Parsed (list DeleteOp.t)).
Definition named_op (kind : string) (op : str -> DeleteOp.t) (name : str) : Parsed (list DeleteOp.t) :=
  name ← valid_name (lit kind) name; Ok [op name].
Definition both_ops (kind : string) (request response : str -> DeleteOp.t) (name : str) : Parsed (list DeleteOp.t) :=
  name ← valid_name (lit kind) name; Ok [request name; response name].
Definition body_path_op (op : DeleteBodyPath -> DeleteOp.t) (path : str) : Parsed (list DeleteOp.t) :=
  path ← parse_body_path path; Ok [op path].
Definition DELETE_FORMS : list DeleteForm :=
  [Named ["pathname"] [DeleteOp.Pathname];
   Prefixed ["pathname."] (fun s => segment ← parse_path_segment s; Ok [DeleteOp.PathSegment segment]);
   Named ["urlParams"; "url.params"; "params"; "query"] [DeleteOp.UrlParams];
   Prefixed ["urlParams."; "url.params."; "params."; "query."] (named_op "URL parameter" DeleteOp.UrlParam);
   Prefixed ["reqHeaders."; "reqHeader."; "req.headers."; "req.header."; "reqH."]
     (named_op "request header" DeleteOp.ReqHeader);
   Prefixed ["resHeaders."; "resHeader."; "res.headers."; "res.header."; "resH."]
     (named_op "response header" DeleteOp.ResHeader);
   Prefixed ["headers."] (both_ops "header" DeleteOp.ReqHeader DeleteOp.ResHeader);
   Named ["reqBody"; "req.body"] [DeleteOp.ReqBody];
   Named ["resBody"; "res.body"] [DeleteOp.ResBody];
   Named ["body"] [DeleteOp.ReqBody; DeleteOp.ResBody];
   Prefixed ["reqBody."; "req.body."] (body_path_op DeleteOp.ReqBodyPath);
   Prefixed ["resBody."; "res.body."] (body_path_op DeleteOp.ResBodyPath);
   Named ["reqType"; "req.type"] [DeleteOp.ReqType];
   Named ["resType"; "res.type"] [DeleteOp.ResType];
   Named ["reqCharset"; "req.charset"] [DeleteOp.ReqCharset];
   Named ["resCharset"; "res.charset"] [DeleteOp.ResCharset];
   Named ["reqCookies"; "req.cookies"] [DeleteOp.ReqCookies];
   Named ["resCookies"; "res.cookies"] [DeleteOp.ResCookies];
   Named ["cookies"; "cookie"] [DeleteOp.ReqCookies; DeleteOp.ResCookies];
   Prefixed ["reqCookies."; "reqCookie."; "req.cookies."; "req.cookie."; "reqC."]
     (named_op "request cookie" DeleteOp.ReqCookie);
   Prefixed ["resCookies."; "resCookie."; "res.cookies."; "res.cookie."; "resC."]
     (named_op "response cookie" DeleteOp.ResCookie);
   Prefixed ["cookies."; "cookie."] (both_ops "cookie" DeleteOp.ReqCookie DeleteOp.ResCookie);
   Prefixed ["trailer."] (named_op "trailer" DeleteOp.Trailer);
   Named ["trailers"; "trailer"] [DeleteOp.Trailers]].
Fixpoint parse_delete_forms (forms : list DeleteForm) (property : str) : Parsed (list DeleteOp.t) :=
  match forms with
  | [] => Err (UnsupportedInput (lit "delete property") (lit "unknown delete property `" ++ property ++ lit "`"))
  | Named names ops :: forms' =>
      if matches_name property names then Ok ops else parse_delete_forms forms' property
  | Prefixed prefixes ops :: forms' =>
      match suffix_any property prefixes with
      | Some suffix => ops suffix
      | None => parse_delete_forms forms' property
      end
  end.
Definition parse_delete_property (property : str) : Parsed (list DeleteOp.t) := parse_delete_forms DELETE_FORMS property.
Definition parse_delete_arg (operations : list DeleteOp.t) (raw : str) : Parsed (list DeleteOp.t) :=
  let property := unquote (trim raw) in
  if is_emptyb property then
    Err (EmptyInput (lit "delete property") (lit "delete properties must not be empty"))
  else ops ← parse_delete_property property; Ok (operations ++ ops).
Definition parse_delete_ops (args : list str) : Parsed (list DeleteOp.t) :=
  if is_emptyb args then
    Err (MissingArgument (lit "delete action") (lit "delete requires at least one property"))
  else fold_args parse_delete_arg [] args.

(** ** TLS options (tls.rs) *)

Definition parse_tls_min_version (input : str) : Parsed TlsMinVersion :=
  let name := to_ascii_lowercase (trim input) in
  if one_of name ["1.2"; "tls1.2"; "tlsv1.2"; "tls12"; "tlsv12"] then Ok Tls12
  else if one_of name ["1.3"; "tls1.3"; "tlsv1.3"; "tls13"; "tlsv13"] then Ok Tls13
  else Err (UnsupportedInput (lit "TLS minimum version")
              (lit "unsupported tls minimum version `" ++ input ++ lit "`; supported: 1.2, 1.3")).
Definition CIPHER_NAMES : list (list string * TlsCipherSuite) :=
  [(["TLS_AES_128_GCM_SHA256"; "TLS13_AES_128_GCM_SHA256"]%string, Tls13Aes128GcmSha256);
   (["TLS_AES_256_GCM_SHA384"; "TLS13_AES_256_GCM_SHA384"]%string, Tls13Aes256GcmSha384);
   (["TLS_CHACHA20_POLY1305_SHA256"; "TLS13_CHACHA20_POLY1305_SHA256"]%string, Tls13Chacha20Poly1305Sha256);
   (["TLS_ECDHE_ECDSA_WITH_AES_128_GCM_SHA256"; "ECDHE-ECDSA-AES128-GCM-SHA256"]%string,
    Tls12EcdheEcdsaAes128GcmSha256);
   (["TLS_ECDHE_ECDSA_WITH_AES_256_GCM_SHA384"; "ECDHE-ECDSA-AES256-GCM-SHA384"]%string,
    Tls12EcdheEcdsaAes256GcmSha384);
   (["TLS_ECDHE_ECDSA_WITH_CHACHA20_POLY1305_SHA256"; "ECDHE-ECDSA-CHACHA20-POLY1305";
     "ECDHE-ECDSA-CHACHA20-POLY1305-SHA256"]%string, Tls12EcdheEcdsaChacha20Poly1305Sha256);
   (["TLS_ECDHE_RSA_WITH_AES_128_GCM_SHA256"; "ECDHE-RSA-AES128-GCM-SHA256"]%string, Tls12EcdheRsaAes128GcmSha256);
   (["TLS_ECDHE_RSA_WITH_AES_256_GCM_SHA384"; "ECDHE-RSA-AES256-GCM-SHA384"]%string, Tls12EcdheRsaAes256GcmSha384);
   (["TLS_ECDHE_RSA_WITH_CHACHA20_POLY1305_SHA256"; "ECDHE-RSA-CHACHA20-POLY1305";
     "ECDHE-RSA-CHACHA20-POLY1305-SHA256"]%string, Tls12EcdheRsaChacha20Poly1305Sha256)].
Definition parse_tls_cipher_suite (input : str) : Parsed TlsCipherSuite :=
  let name := to_ascii_uppercase (trim input) in
  ok_or (snd <$> find (fun entry => one_of name (fst entry)) CIPHER_NAMES)
    (UnsupportedInput (lit "TLS cipher suite") (lit "unsupported tls cipher suite `" ++ input ++ lit "`")).
#[global] Instance TlsCipherSuite_eq_dec : EqDecision TlsCipherSuite.
Proof. solve_decision. Defined.
#[global] Instance TlsMinVersion_eq_dec : EqDecision TlsMinVersion.
Proof. solve_decision. Defined.

Definition normalize_tls_path (input : str) : str :=
  let value := unquote (trim input) in
  unwrap_or (strip_prefix [ch "<"] value ≫= strip_suffix [ch ">"]) value.
Definition tls_path (value : str) (context option : string) : Parsed str :=
  let value := normalize_tls_path value in
  if is_emptyb value then Err (EmptyInput (lit context) (lit option ++ lit " must not be empty"))
  else if contains_char 0 value then Err (InvalidInput (lit context) (lit option ++ lit " must not contain NUL"))
  else Ok value.
(** [str::split] on any of the three separators. *)
Definition split_ciphers (value : str) : list str :=
  split_char (ch ":") (map (fun c => if (c =? ch "|") || (c =? ch ";") then ch ":" else c) value).
Definition add_cipher (ciphers : list TlsCipherSuite) (name : str) : Parsed (list TlsCipherSuite) :=
  cipher ← parse_tls_cipher_suite name;
  Ok (if bool_decide (cipher ∈ ciphers) then ciphers else ciphers ++ [cipher]).
Definition parse_tls_arg (op : TlsOp) (arg : str) : Parsed TlsOp :=
  '(key, value) ← ok_or (split_at_char (ch "=") arg)
    (InvalidSyntax (lit "TLS option") (lit "tls options must use key=value syntax"));
  let key := map (fun c => if c =? ch "_" then ch "-" else c) (to_ascii_lowercase (trim key)) in
  let '(mkTlsOp cert key_path min_version ciphers) := op in
  if one_of key ["client-cert"] then
    path ← tls_path value "TLS client certificate" "tls client-cert"; Ok (mkTlsOp (Some path) key_path min_version ciphers)
  else if one_of key ["client-key"] then
    path ← tls_path value "TLS client key" "tls client-key"; Ok (mkTlsOp cert (Some path) min_version ciphers)
  else if one_of key ["min"; "min-version"] then
    version ← parse_tls_min_version (unquote (trim value)); Ok (mkTlsOp cert key_path (Some version) ciphers)
  else if one_of key ["cipher"; "ciphers"] then
    let value := unquote (trim value) in
    if is_emptyb value then Err (EmptyInput (lit "TLS ciphers") (lit "tls ciphers must not be empty"))
    else ciphers ← fold_args add_cipher ciphers (split_ciphers value); Ok (mkTlsOp cert key_path min_version ciphers)
  else
    Err (UnsupportedInput (lit "TLS option")
           (lit "unsupported tls option `" ++ key ++ lit "`; supported: client-cert, client-key, min, ciphers")).
Definition parse_tls_op (args : list str) : Parsed TlsOp :=
  if is_emptyb args then Err (MissingArgument (lit "TLS action") (lit "tls requires at least one option"))
  else
    op ← fold_args parse_tls_arg (mkTlsOp None None None []) args;
    if negb (Bool.eqb (is_some (to_client_cert op)) (is_some (to_client_key op))) then
      Err (ConstraintViolation (lit "TLS client identity")
             (lit "tls client-cert and client-key must be configured together"))
    else if bool_decide (to_min_version op = Some Tls13) && negb (is_emptyb (to_ciphers op)) &&
            forallb (fun cipher => negb (TlsCipherSuite_is_tls13 cipher)) (to_ciphers op)
    then Err (ConstraintViolation (lit "TLS ciphers") (lit "tls min=1.3 requires at least one TLS 1.3 cipher suite"))
    else Ok op.

(** ** Host pools (action/host_pool.rs) *)

(** [cursor] is the location of the new counter. *)
Definition HostPool_new (cursor : N) (addresses : list Value.t) : Parsed HostPool :=
  if is_emptyb addresses then Err (EmptyInput (lit "host addresses") (lit "host requires at least one address"))
  else if existsb (fun address => is_emptyb (trim (Value.source address))) addresses then
    Err (EmptyInput (lit "host address") (lit "host addresses cannot be empty"))
  else Ok (mkHostPool addresses cursor None).

(** ** Templates (template/transform.rs, action/template_validation.rs) *)

Section Templates.
Context {PE : PatternEngines}.

Fixpoint validate_template_loop (fuel : nat) (input : str) : Parsed unit :=
  match fuel with
  | O => Ok tt
  | S fuel' =>
      match split_once (lit "${") input with
      | None => Ok tt
      | Some (_, tail) =>
          '(expression, rest) ← ok_or (find_template_end 0 false [] tail)
            (InvalidTemplate (lit "template variable") (lit "unterminated template variable"));
          transform ← parse_replace_transform expression;
          _ ← match transform with
              | Some t =>
                  if regex_accepts (mkLinearRegex (rt_pattern t) (rt_case_insensitive t) None) then Ok tt
                  else Err (InvalidRegex (lit "invalid template replace regex"))
              | None => Ok tt
              end;
          validate_template_loop fuel' rest
      end
  end.
Definition validate_template (input : str) : Parsed unit := validate_template_loop (S (length input)) input.

Definition validate_value (value : Value.t) : Parsed unit :=
  match value with
  | Value.Inline value | Value.File value => validate_template value
  | Value.Reference _ => Ok tt
  end.
Definition validate_values (values : list Value.t) : Parsed unit :=
  fold_args (fun _ value => validate_value value) tt values.
Definition option_values (values : list (option Value.t)) : list Value.t := omap id values.
Definition validate_header (operation : HeaderOp.t) : Parsed unit :=
  match operation with HeaderOp.Set_ _ value => validate_value value | _ => Ok tt end.
Definition validate_cookie (operation : CookieOp.t) : Parsed unit :=
  match operation with
  | CookieOp.Set_ _ value attrs => _ ← validate_value value; validate_values (option_values (map ca_value attrs))
  | CookieOp.Remove _ => Ok tt
  end.
Definition validate_cors (op : CorsOp) : Parsed unit :=
  validate_values (option_values [Some (co_origin op); co_methods op; co_headers op; co_expose op; co_max_age op]).
Definition validate_body (operation : BodyOp.t) : Parsed unit :=
  match operation with
  | BodyOp.Set_ value | BodyOp.Prepend value | BodyOp.Append value => validate_value value
  | BodyOp.Replace _ _ => Ok tt
  end.
Definition validate_regex_replacement_value (value : Value.t) : Parsed unit :=
  match value with Value.File path => validate_template path | _ => Ok tt end.
Definition validate_templates (action : Action.t) : Parsed unit :=
  match action with
  | Action.Host pool => validate_values (hp_addresses pool)
  | Action.Upstream value | Action.ReqMethod value | Action.ReqUa value | Action.ReqReferer value
  | Action.ReqAuth value | Action.ReqForwarded value | Action.ReqType value | Action.ReqCharset value
  | Action.ResType value | Action.ResCharset value | Action.ResMerge value | Action.Tag value => validate_value value
  | Action.Mock value | Action.MockRaw value => validate_value value
  | Action.MockInline op => validate_values (map snd (mi_headers op) ++ option_values [mi_body op])
  | Action.MapRemote value => validate_value value
  | Action.Redirect url _ => validate_value url
  | Action.ReqHeader op | Action.ResHeader op | Action.ResTrailer op => validate_header op
  | Action.ReqCookie op | Action.ResCookie op => validate_cookie op
  | Action.ResCors op => validate_cors op
  | Action.Attachment filename => match filename with Some value => validate_value value | None => Ok tt end
  | Action.Cache (CacheOp.Directives directives) => validate_values (option_values (map cd_value directives))
  | Action.Tls op =>
      fold_args (fun _ path => validate_template path) tt (omap id [to_client_cert op; to_client_key op])
  | Action.UrlRewrite from to =>
      match from with
      | UrlRewritePattern.Plain from => validate_values [from; to]
      | UrlRewritePattern.Regex _ => validate_regex_replacement_value to
      end
  | Action.UrlQuery ops =>
      validate_values (omap (fun op => match op with QueryOp.Set_ _ value => Some value | QueryOp.Remove _ => None end) ops)
  | Action.ReqBody op | Action.ResBody op => validate_body op
  | Action.Inject op => validate_value (io_value op)
  | Action.Direct | Action.Status _ | Action.ResStatus _ | Action.Cache CacheOp.Off | Action.Delay _ _
  | Action.Throttle _ _ | Action.Bypass | Action.Hide | Action.Delete _ | Action.Skip _ => Ok tt
  end.
End Templates.
