(* ===== verification/ParseMatch.v ===== *)
(** * Parsing of matchers and conditions

    crates/rsproxy-rules/src/parser/matcher.rs and parser/conditions.rs. *)
From Stdlib Require Import Ascii String.
From stdpp Require Import base numbers list gmap strings.
From S2P Require Import Prelude Family Utf8 NetAddr Model Url Syntax Engines Matching Refinement ParseOps.
Import Syntax.

Inductive SyntaxProfile := Compatible | CanonicalV3.
#[global] Instance SyntaxProfile_eq_dec : EqDecision SyntaxProfile.
Proof. solve_decision. Defined.

Definition DEFAULT_FANCY_BACKTRACK_LIMIT : N := 100000.

Section Matching.
Context {PE : PatternEngines}.

(** ** Matchers (matcher.rs) *)

Definition parse_regex_matcher (input : str) : Parsed RegexMatcher :=
  '(pattern, flags) ← ok_or (regex_literal input)
    (InvalidSyntax (lit "regex matcher") (lit "regex matcher must end with `/`"));
  if existsb (fun c => negb (c =? ch "i")) flags then
    Err (UnsupportedInput (lit "regex flags") (lit "unsupported regex flags `" ++ flags ++ lit "`"))
  else
    let case_insensitive := contains_char (ch "i") flags in
    let linear := mkLinearRegex pattern case_insensitive None in
    if regex_accepts linear then Ok (mkRegexMatcher pattern case_insensitive Linear (CompiledLinear linear))
    else
      let fancy := mkFancyRegex (fancy_pattern pattern case_insensitive) DEFAULT_FANCY_BACKTRACK_LIMIT in
      if fancy_accepts fancy then Ok (mkRegexMatcher pattern case_insensitive Fancy (CompiledFancy fancy))
      else Err InvalidRegexMatcher.

Definition valid_scheme (input : str) : bool :=
  match input with
  | [] => false
  | c :: rest =>
      is_ascii_alphabetic c &&
      forallb (fun c => is_ascii_alphanumeric c || (c =? ch "+") || (c =? ch "-") || (c =? ch ".")) rest
  end.
Definition parse_port_pattern (input : str) : Parsed str :=
  if is_emptyb input then Err (EmptyInput (lit "matcher port") (lit "matcher port is empty"))
  else if contains_char (ch "*") input then
    if forallb (fun c => is_ascii_digit c || (c =? ch "*")) input then Ok input
    else Err (InvalidInput (lit "matcher port pattern") (lit "invalid matcher port pattern `" ++ input ++ lit "`"))
  else
    port ← integer_error (lit "matcher port") input (lit "invalid matcher port `" ++ input ++ lit "`")
      (parse_uint U16_MAX input);
    if port =? 0 then Err (ConstraintViolation (lit "matcher port") (lit "matcher port must be 1..65535"))
    else Ok (show_N port).
Definition parse_glob_authority (input : str) : Parsed (str * option str) :=
  let invalid := InvalidInput (lit "matcher authority") (lit "invalid matcher authority `" ++ input ++ lit "`") in
  if starts_with [ch "["] input then
    match split_at_char (ch "]") input with
    | None => Err (InvalidSyntax (lit "IPv6 matcher") (lit "IPv6 matcher is missing closing `]`"))
    | Some (host, tail) =>
        let host := host ++ [ch "]"] in
        if is_emptyb tail then Ok (host, None)
        else
          raw ← ok_or (strip_char (ch ":") tail) invalid;
          port ← parse_port_pattern raw;
          Ok (host, Some port)
    end
  else if existsb is_bracket input then Err invalid
  else
    match rsplit_once_char (ch ":") input with
    | None => Ok (input, None)
    | Some (host, raw_port) =>
        if contains_char (ch ":") host
        then Err (InvalidSyntax (lit "IPv6 matcher") (lit "IPv6 matcher must use brackets"))
        else port ← parse_port_pattern raw_port; Ok (host, Some port)
    end.
Definition validate_optional (pattern : option str) (separator : char) (context : str) : Parsed unit :=
  match pattern with Some pattern => validate_glob_pattern pattern separator context | None => Ok tt end.
Definition parse_glob_matcher (input : str) : Parsed GlobMatcher :=
  '(scheme, rest) ← match split_once (lit "://") input with
                    | Some (scheme, rest) =>
                        if valid_scheme scheme then Ok (Some (to_ascii_lowercase scheme), rest)
                        else Err (InvalidInput (lit "matcher scheme")
                                    (lit "invalid matcher scheme `" ++ scheme ++ lit "`"))
                    | None => Ok (None, input)
                    end;
  let '(before_query, query) :=
    match split_at_char (ch "?") rest with Some (before, query) => (before, Some query) | None => (rest, None) end in
  let '(host_port, path) :=
    match find_split (N.eqb (ch "/")) before_query with
    | Some (host_port, path) => (host_port, Some path)
    | None => (before_query, None)
    end in
  let empty_host := EmptyInput (lit "glob matcher host") (lit "glob matcher host is empty") in
  if is_emptyb host_port then Err empty_host
  else
    '(host, port) ← parse_glob_authority host_port;
    let host := to_ascii_lowercase (trim_matches is_bracket host) in
    if is_emptyb host then Err empty_host
    else
      _ ← validate_glob_pattern host (ch ".") (lit "matcher host glob");
      _ ← validate_optional port (ch ".") (lit "matcher port glob");
      _ ← validate_optional path (ch "/") (lit "matcher path glob");
      _ ← validate_optional query (ch "&") (lit "matcher query glob");
      Ok (mkGlobMatcher scheme host port path query).

(** A matcher without negation. *)
Definition parse_plain_matcher (input : str) : Parsed Matcher.t :=
  match strip_char (ch "=") input with
  | Some rest =>
      if is_emptyb rest then
        Err (MissingArgument (lit "exact matcher") (lit "exact matcher must include a URL"))
      else
        _ ← map_err InvalidExactUrlMatcher (UrlParts_parse rest);
        _ ← map_err InvalidExactUrlMatcher (parse_glob_matcher rest);
        Ok (Matcher.ExactUrl rest)
  | None =>
      if starts_with [ch "/"] input then m ← parse_regex_matcher input; Ok (Matcher.Regex m)
      else
        match strip_char (ch ":") input with
        | Some port =>
            port ← integer_error (lit "port matcher") port (lit "invalid port matcher: " ++ input)
              (parse_uint U16_MAX port);
            if port =? 0 then Err (ConstraintViolation (lit "port matcher") (lit "port must be 1..65535"))
            else Ok (Matcher.Port port)
        | None => glob ← parse_glob_matcher input; Ok (Matcher.Glob glob)
        end
  end.
Fixpoint parse_matcher_at_depth (depth : N) (input : str) : Parsed Matcher.t :=
  if MAX_PARSE_NESTING <? depth then Err (nesting_error (lit "matcher"))
  else
    match input with
    | c :: rest =>
        if c =? ch "!" then inner ← parse_matcher_at_depth (depth + 1) rest; Ok (Matcher.Not inner)
        else parse_plain_matcher input
    | [] => parse_plain_matcher input
    end.
Definition parse_matcher (input : str) : Parsed Matcher.t := parse_matcher_at_depth 0 input.

(** ** Conditions (conditions.rs) *)

Definition condition_node_count (c : Condition.t) : N := N.of_nat (length (Condition.nodes c)).
Definition is_body_condition (c : Condition.t) : bool :=
  match c with Condition.BodyContains _ | Condition.BodyRegex _ => true | _ => false end.
Definition body_condition_count (c : Condition.t) : N :=
  N.of_nat (length (List.filter is_body_condition (Condition.nodes c))).

Definition parse_method (value : str) : Parsed str :=
  let value := trim (unquote value) in
  if is_emptyb value || negb (is_http_token value) then
    Err (InvalidInput (lit "method condition") (lit "invalid method condition `" ++ value ++ lit "`"))
  else Ok (to_ascii_uppercase value).
Definition parse_method_condition (args : list str) : Parsed (list str) :=
  if is_emptyb args then
    Err (MissingArgument (lit "method condition") (lit "method requires at least one method"))
  else collect parse_method args.
Definition parse_ip_pattern (name value : str) : Parsed str :=
  let value := trim (unquote value) in
  if is_emptyb value || existsb is_control value then
    Err (EmptyInput (lit "IP condition pattern") (name ++ lit " patterns must be non-empty"))
  else _ ← validate_glob_pattern value 0 (lit "IP condition glob"); Ok value.
Definition parse_ip_patterns (args : list str) (name : str) : Parsed (list str) :=
  if is_emptyb args then
    Err (MissingArgument (lit "IP condition") (name ++ lit " requires at least one pattern"))
  else collect (parse_ip_pattern name) args.
Definition validate_header_name (input : str) : Parsed str :=
  let name := trim input in
  if is_emptyb name || negb (is_http_token name) then
    Err (InvalidInput (lit "header condition name") (lit "invalid header condition name `" ++ name ++ lit "`"))
  else Ok (to_ascii_lowercase name).
Definition parse_header_condition (input : str) (response : bool) : Parsed Condition.t :=
  match split_at_char (ch "~") input with
  | Some (name, value) =>
      name ← validate_header_name name;
      let value := unquote (trim value) in
      if is_emptyb value then
        Err (EmptyInput (lit "header contains condition") (lit "header contains condition value is empty"))
      else Ok (if response then Condition.ResHeaderContains name value else Condition.HeaderContains name value)
  | None =>
      name ← validate_header_name input;
      Ok (if response then Condition.ResHeaderPresent name else Condition.HeaderPresent name)
  end.
Definition parse_status (value : str) : Parsed N :=
  status ← integer_error (lit "status condition") (trim value) (lit "invalid status condition `" ++ value ++ lit "`")
    (parse_uint U16_MAX (trim value));
  _ ← validate_status_range status MIN_HTTP_STATUS MAX_HTTP_STATUS (lit "status condition") (lit "100..599");
  Ok status.
Definition parse_status_condition (args : list str) : Parsed (list N) :=
  if is_emptyb args then
    Err (MissingArgument (lit "status condition") (lit "status requires at least one code"))
  else collect parse_status args.
Definition parse_chance (raw : str) : Parsed Condition.t :=
  let message := lit "chance must be 0.0..1.0" in
  value ← ok_or (parse_f64 raw) (InvalidFloat (lit "chance condition") raw message);
  if negb (in_unit value) then Err (ConstraintViolation (lit "chance condition") message)
  else Ok (Condition.ChancePermille (round_as U16_MAX (f64_mul value (f64_of_N 1000)))).
Definition validate_env_name (name : str) : Parsed unit :=
  if is_emptyb name || contains_char (ch "=") name || contains_char 0 name || existsb is_whitespace name then
    Err (InvalidInput (lit "environment condition name")
           (lit "env condition name is empty or contains `=`, NUL, or whitespace"))
  else Ok tt.
Definition parse_env (arg : str) : Parsed Condition.t :=
  match split_at_char (ch "=") arg with
  | Some (name, value) =>
      _ ← validate_env_name (trim name); Ok (Condition.EnvEquals (trim name) (unquote (trim value)))
  | None => _ ← validate_env_name (trim arg); Ok (Condition.EnvPresent (trim arg))
  end.
Definition is_regex_literal (input : str) : bool := starts_with [ch "/"] input && is_some (regex_literal input).
Definition parse_url_condition (input : str) : Parsed UrlCondition.t :=
  let input := trim input in
  if is_regex_literal input then m ← parse_regex_matcher input; Ok (UrlCondition.Regex m)
  else
    let pattern := unquote input in
    _ ← validate_glob_pattern pattern 0 (lit "URL condition glob");
    Ok (UrlCondition.Glob pattern).
Definition parse_body_condition (input : str) : Parsed Condition.t :=
  let input := trim input in
  if is_regex_literal input then m ← parse_regex_matcher input; Ok (Condition.BodyRegex m)
  else
    let text := trim (unwrap_or (strip_char (ch "~") input) input) in
    if is_emptyb text then
      Err (MissingArgument (lit "body condition") (lit "body condition requires text or regex"))
    else Ok (Condition.BodyContains (unquote text)).

Definition condition_name (profile : SyntaxProfile) (name : str) : option str :=
  match profile with
  | Compatible => canonical_condition_name name
  | CanonicalV3 => canonical_v3_condition_name name
  end.
Definition unknown_condition (profile : SyntaxProfile) (name : str) : RuleModelError :=
  let unknown := UnsupportedInput (lit "condition") (lit "unknown condition `" ++ name ++ lit "`") in
  match profile, canonical_condition_name name with
  | CanonicalV3, Some canonical =>
      UnsupportedInput (lit "condition")
        (lit "v3 accepts canonical condition names only; replace `" ++ name ++ lit "` with `" ++ canonical ++ lit "`")
  | _, _ => unknown
  end.

(** The named conditions that hold no others. *)
Definition parse_leaf (name : str) (args : list str) : option (Parsed Condition.t) :=
  let one := require_one args name in
  if name =s? lit "method" then Some (v ← parse_method_condition args; Ok (Condition.Method v))
  else if name =s? lit "host" then
    Some (arg ← one;
          let pattern := unquote arg in
          _ ← validate_glob_pattern pattern (ch ".") (lit "host condition glob");
          Ok (Condition.Host pattern))
  else if name =s? lit "url" then Some (arg ← one; v ← parse_url_condition arg; Ok (Condition.Url v))
  else if name =s? lit "client.ip" then Some (v ← parse_ip_patterns args name; Ok (Condition.ClientIp v))
  else if name =s? lit "server.ip" then Some (v ← parse_ip_patterns args name; Ok (Condition.ServerIp v))
  else if name =s? lit "header" then Some (arg ← one; parse_header_condition arg false)
  else if name =s? lit "res.header" then Some (arg ← one; parse_header_condition arg true)
  else if name =s? lit "body" then Some (arg ← one; parse_body_condition arg)
  else if name =s? lit "status" then Some (v ← parse_status_condition args; Ok (Condition.Status v))
  else if name =s? lit "chance" then Some (arg ← one; parse_chance arg)
  else if name =s? lit "env" then Some (arg ← one; parse_env arg)
  else None.

(** [levels] is one more than the nesting that is still allowed. *)
Fixpoint parse_condition_levels (levels : nat) (profile : SyntaxProfile) (input : str) : Parsed Condition.t :=
  match levels with
  | O => Err (nesting_error (lit "condition"))
  | S levels' =>
      match strip_char (ch "!") input with
      | Some rest => inner ← parse_condition_levels levels' profile rest; Ok (Condition.Not inner)
      | None =>
          '(input_name, args) ← parse_call input;
          match condition_name profile input_name with
          | None => Err (unknown_condition profile input_name)
          | Some name =>
              let several build :=
                if is_emptyb args then
                  Err (MissingArgument (name ++ lit " condition") (name ++ lit " requires at least one condition"))
                else cs ← collect (fun arg => parse_condition_levels levels' profile (trim arg)) args; Ok (build cs) in
              match parse_leaf name args with
              | Some result => result
              | None =>
                  if name =s? lit "any" then several Condition.Any
                  else if name =s? lit "all" then several Condition.All
                  else if name =s? lit "not" then
                    inner ← require_one args name;
                    c ← parse_condition_levels levels' profile inner;
                    Ok (Condition.Not c)
                  else Err (UnsupportedInput (lit "condition") (lit "unknown condition `" ++ name ++ lit "`"))
              end
          end
      end
  end.
Definition parse_condition (input : str) (profile : SyntaxProfile) : Parsed Condition.t :=
  parse_condition_levels (S (N.to_nat MAX_PARSE_NESTING)) profile input.
End Matching.
