(* ===== verification/Values.v ===== *)
(** * Values of rule actions

    crates/rsproxy-engine/src/proxy/transforms/values.rs, the limits of
    transforms/content.rs and bounded_io.rs: how the value of an action becomes
    text or bytes.  All of it runs with the regex cache of its thread. *)
From Stdlib Require Import Ascii String.
From stdpp Require Import base numbers list gmap strings.
From S2P Require Import Prelude Family Utf8 Format Io Model Url Engines Template Http1 Http1Write.

(** The part of the proxy's configuration that actions and captures use. *)
Record ProxyConfig := mkProxyConfig {
  pc_storage : str;
  pc_max_header_size : N;
  pc_max_header_count : N;
  pc_body_buffer_limit : N;
  pc_trace_body_limit : N;
  pc_trace_exclude_media_body : bool;
}.

Definition MAX_RULE_EXTERNAL_VALUE_BYTES : N := 8 * 1024 * 1024.
Definition MAX_RULE_RENDERED_VALUE_BYTES : N := 8 * 1024 * 1024.
Definition MAX_RULE_EXTERNAL_PATH_BYTES : N := 4096.

(** The file system of the host: the content of a file, or why it does not open. *)
Class RuleFiles := open_file : str -> Result IoError (list N).

(** Programs of this component: the thread's regex cache, and I/O errors. *)
Abbreviation Act := (StateR RegexCache IoError).

(** ** Limits *)

Definition output_limit_error (label : str) (limit : N) : IoError :=
  invalid_data (label ++ lit " exceeds the " ++ show_N limit ++ lit "-byte output limit").
Definition remaining_capacity (current limit : N) (label : str) : Result IoError N :=
  ok_or (checked_sub limit current) (output_limit_error label limit).
Definition push_text_bounded (output value : str) (limit : N) (label : str) : Result IoError str :=
  match checked_add USIZE_MAX (len output) (len value) with
  | Some length => if limit <? length then Err (output_limit_error label limit) else Ok (output ++ value)
  | None => Err (output_limit_error label limit)
  end.
Definition ensure_output_limit (value : str) (limit : N) (label : str) : Result IoError unit :=
  if limit <? len value then Err (output_limit_error label limit) else Ok tt.

Definition rule_header_limit (config : ProxyConfig) : N :=
  N.min (pc_max_header_size config) MAX_RULE_RENDERED_VALUE_BYTES.
Definition rule_body_limit (config : ProxyConfig) : N :=
  N.min (pc_body_buffer_limit config) MAX_RULE_RENDERED_VALUE_BYTES.

(** [Display] of the errors that carry a message; the compilers' own texts are
    not part of the model. *)
Fixpoint model_error_text (e : RuleModelError) : str :=
  match e with
  | EmptyInput _ m | MissingArgument _ m | InvalidSyntax _ m | Model.InvalidInput _ m | UnsupportedInput _ m
  | ConstraintViolation _ m | LimitExceeded _ m | InvalidInteger _ _ m _ | InvalidFloat _ _ m
  | InvalidTemplate _ m => m
  | InvalidRegex context => context
  | InvalidRegexMatcher => lit "invalid regex matcher"
  | InvalidExactUrlMatcher source => lit "invalid exact URL matcher: " ++ model_error_text source
  end.
Definition rule_output_error (e : RuleModelError) : IoError := invalid_data (model_error_text e).

(** ** Files *)

(** [Path::join] on Unix. *)
Definition path_join (base path : str) : str :=
  if starts_with (lit "/") path then path
  else if is_emptyb base || ends_with (lit "/") base then base ++ path
  else base ++ lit "/" ++ path.

Definition read_open_file (content : list N) (path : str) (limit : N) (label : str) : Result IoError (list N) :=
  let bytes := take_N (saturating_add USIZE_MAX limit 1) content in
  if limit <? blen bytes then
    Err (invalid_data (label ++ lit " " ++ path ++ lit " exceeds the " ++ show_N limit ++ lit "-byte limit"))
  else Ok bytes.

Section Values.
Context {PE : PatternEngines} {CE : CaptureEngine} {RF : RuleFiles}.

Definition bounded_read_file (path : str) (limit : N) (label : str) : Result IoError (list N) :=
  content ← open_file path; read_open_file content path limit label.

Definition read_external_value (path : str) (limit : N) : Result IoError (list N) :=
  bounded_read_file path (N.min limit MAX_RULE_EXTERNAL_VALUE_BYTES) (lit "rule value").
Definition read_file_bytes (path : str) (config : ProxyConfig) (limit : N) : Result IoError (list N) :=
  match read_external_value (path_join (pc_storage config) path) limit with
  | Err e => if bool_decide (io_kind e = NotFound) then read_external_value path limit else Err e
  | Ok bytes => Ok bytes
  end.

Definition read_reference_bytes_bounded (key : str) (config : ProxyConfig) (limit : N)
    : Result IoError (list N) :=
  if negb (valid_value_key key) then Err (invalid_input (lit "invalid value key `" ++ key ++ lit "`"))
  else
    bounded_read_file (path_join (path_join (pc_storage config) (lit "values")) key)
      (N.min limit MAX_RULE_EXTERNAL_VALUE_BYTES) (lit "rule value").

(** ** Rendering *)

Section Item.
Context (config : ProxyConfig) (item : ResolvedAction) (meta : RequestMeta).

Definition render_action_value (input : str) (limit : N) : Act str := fun cache =>
  let '(cache, r) := render_bounded item input meta limit cache in
  (cache, map_err (fun e => invalid_data (lit "rule value rendering failed: " ++ model_error_text e)) r).
Definition render_rule_path (path : str) : Act str := render_action_value path MAX_RULE_EXTERNAL_PATH_BYTES.

(** Bytes that are not text are left as they are. *)
Definition render_text_bytes (bytes : list N) (limit : N) : Act (list N) :=
  match from_utf8 bytes with
  | Some text =>
      rendered ← render_action_value text (N.min limit MAX_RULE_RENDERED_VALUE_BYTES); mret (encode rendered)
  | None => mret bytes
  end.

Definition resolve_value_bytes_bounded (value : Value.t) (limit : N) : Act (list N) :=
  let limit := N.min limit MAX_RULE_RENDERED_VALUE_BYTES in
  match value with
  | Value.Inline text => rendered ← render_action_value text limit; mret (encode rendered)
  | Value.File path =>
      path ← render_rule_path path;
      bytes ← lift_result (read_file_bytes path config (N.min limit MAX_RULE_EXTERNAL_VALUE_BYTES));
      render_text_bytes bytes limit
  | Value.Reference key =>
      bytes ← lift_result (read_reference_bytes_bounded key config limit);
      render_text_bytes bytes limit
  end.
Definition resolve_value_text_bounded (value : Value.t) (limit : N) : Act str :=
  bytes ← resolve_value_bytes_bounded value limit;
  lift_result (ok_or (from_utf8 bytes) (invalid_data (lit "text action value must be valid UTF-8"))).

(** [resolve_raw_value_text]: replacement text of a regular expression, not rendered. *)
Definition resolve_raw_value_text (value : Value.t) : Act str :=
  let text bytes :=
    lift_result (ok_or (from_utf8 bytes) (invalid_data (lit "regex replacement value must be valid UTF-8"))) in
  match value with
  | Value.Inline text => mret text
  | Value.File path =>
      path ← render_rule_path path;
      bytes ← lift_result (read_file_bytes path config MAX_RULE_EXTERNAL_VALUE_BYTES);
      text bytes
  | Value.Reference key =>
      bytes ← lift_result (read_reference_bytes_bounded key config MAX_RULE_EXTERNAL_VALUE_BYTES);
      text bytes
  end.

(** [Option::map(..).transpose()] *)
Definition resolve_optional (value : option Value.t) (limit : N) (otherwise : str) : Act str :=
  match value with Some v => resolve_value_text_bounded v limit | None => mret otherwise end.
End Item.
End Values.

(** * JSON edits of bodies

    crates/rsproxy-engine/src/proxy/transforms/delete/body.rs and the merge of
    response_actions.rs.  Reading and printing JSON is serde_json's; its
    [Value] and the tree edits are modelled. *)

(** ** Values *)

(** [serde_json::Value]; a number is its text, an object a [BTreeMap]. *)
Inductive JsonValue :=
| JNull
| JBool (b : bool)
| JNumber (text : str)
| JString (s : str)
| JArray (items : list JsonValue)
| JObject (members : list (str * JsonValue)).

(** The order of [String]: by bytes, which for valid text is by characters. *)
Fixpoint str_ltb (a b : str) : bool :=
  match a, b with
  | _, [] => false
  | [], _ :: _ => true
  | x :: a', y :: b' => (x <? y) || ((x =? y) && str_ltb a' b')
  end.

Definition object_get (key : str) (members : list (str * JsonValue)) : option JsonValue :=
  snd <$> find (fun m => fst m =s? key) members.
(** [BTreeMap::insert] of a key that may be present. *)
Fixpoint object_insert (key : str) (value : JsonValue) (members : list (str * JsonValue)) : list (str * JsonValue) :=
  match members with
  | [] => [(key, value)]
  | (k, v) :: rest =>
      if k =s? key then (key, value) :: rest
      else if str_ltb key k then (key, value) :: members
      else (k, v) :: object_insert key value rest
  end.
Definition object_remove (key : str) (members : list (str * JsonValue)) : list (str * JsonValue) :=
  List.filter (fun m => negb (fst m =s? key)) members.

Class JsonText := {
  (** [serde_json::from_str], with the text of its error *)
  json_from_str : str -> Result str JsonValue;
  (** the first value of a [StreamDeserializer] and its [byte_offset] *)
  json_first : str -> option (JsonValue * N);
  (** [serde_json::to_vec] *)
  json_to_vec : JsonValue -> list N;
}.

(** ** Deletion by path *)

Definition segment_key (segment : DeleteBodyPathSegment) : str :=
  match segment with SegKey key => key | SegIndex index => show_N index end.
Definition segment_index (segment : DeleteBodyPathSegment) : option N :=
  match segment with
  | SegIndex index => Some index
  | SegKey key =>
      if (key =s? lit "0") || (negb (starts_with (lit "0") key) && forallb is_ascii_digit key)
      then ok (parse_uint USIZE_MAX key) else None
  end.

(** The child a segment names, and the value with that child replaced. *)
Definition json_child (value : JsonValue) (segment : DeleteBodyPathSegment)
    : option (JsonValue * (JsonValue -> JsonValue)) :=
  match value with
  | JObject members =>
      child ← object_get (segment_key segment) members;
      Some (child, fun c => JObject (object_insert (segment_key segment) c members))
  | JArray items =>
      index ← segment_index segment;
      child ← items !! N.to_nat index;
      Some (child, fun c => JArray (<[N.to_nat index := c]> items))
  | _ => None
  end.

Definition delete_json_last (value : JsonValue) (last : DeleteBodyPathSegment) : option JsonValue :=
  match value with
  | JObject members =>
      _ ← object_get (segment_key last) members; Some (JObject (object_remove (segment_key last) members))
  | JArray items =>
      index ← segment_index last;
      if index <? blen items
      then Some (JArray (take (N.to_nat index) items ++ drop (S (N.to_nat index)) items)) else None
  | _ => None
  end.

(** [delete_json_path]: the edited value, or [None] when nothing is there to delete. *)
Fixpoint delete_json_path (value : JsonValue) (segments : list DeleteBodyPathSegment) : option JsonValue :=
  match segments with
  | [] => None
  | [last] => delete_json_last value last
  | segment :: segments' =>
      '(child, put) ← json_child value segment;
      child ← delete_json_path child segments';
      Some (put child)
  end.

(** ** Merge *)

Fixpoint merge_json (base patch : JsonValue) {struct patch} : JsonValue :=
  match patch with
  | JObject patch_members =>
      match base with
      | JObject members =>
          JObject ((fix merge_members (members ps : list (str * JsonValue)) :=
                      match ps with
                      | [] => members
                      | (key, value) :: ps' =>
                          merge_members
                            match object_get key members with
                            | Some existing => object_insert key (merge_json existing value) members
                            | None => object_insert key value members
                            end ps'
                      end) members patch_members)
      | _ => patch
      end
  | _ => patch
  end.

(** ** Bodies *)

Definition plain_body (headers : Headers) : bool :=
  match header headers (lit "content-encoding") with
  | None => true
  | Some value => forallb (fun e => eq_ignore_ascii_case (trim e) (lit "identity")) (split_char (ch ",") value)
  end.
Definition media_type (headers : Headers) : option str :=
  value ← header headers (lit "content-type");
  first ← head (split_char (ch ";") value);
  if is_emptyb (trim first) then None else Some (to_ascii_lowercase (trim first)).
Definition json_media_type (media_type : str) : bool :=
  (media_type =s? lit "application/json") || (media_type =s? lit "text/json") ||
  ends_with (lit "+json") media_type.
Definition jsonp_media_type (media_type : str) : bool :=
  existsb (fun t => media_type =s? t)
    [lit "application/javascript"; lit "text/javascript"; lit "application/x-javascript";
     lit "application/ecmascript"; lit "text/ecmascript"; lit "application/jsonp"].

Section Bodies.
Context {JT : JsonText}.

(** The first array or object of a text: what precedes it, the value and what follows it. *)
Definition first_json_value (before text : str) : option (str * JsonValue * list N) :=
  '(skipped, tail) ← find_split (fun c => (c =? ch "{") || (c =? ch "[")) text;
  '(value, length) ← json_first tail;
  match value with
  | JObject _ | JArray _ => Some (before ++ skipped, value, drop_N length (encode tail))
  | _ => None
  end.

Definition delete_json_field (body : list N) (path : DeleteBodyPath) (jsonp : bool) : option (list N) :=
  text ← from_utf8 body;
  let '(before, searched) :=
    match (if jsonp then split_once (lit "(") text else None) with
    | Some (a, b) => (a ++ lit "(", b)
    | None => ([], text)
    end in
  '(before, value, after) ← first_json_value before searched;
  value ← delete_json_path value (dbp_segments path);
  Some (encode before ++ json_to_vec value ++ after).

Definition form_field_name (path : DeleteBodyPath) : str :=
  concat (imap (fun index segment =>
    match segment with
    | SegKey key => (if (0 <? index)%nat then lit "." else []) ++ key
    | SegIndex value => lit "[" ++ show_N value ++ lit "]"
    end) (dbp_segments path)).
Definition delete_form_field (body : list N) (path : DeleteBodyPath) : option (list N) :=
  let fields := split_char (ch "&") body in
  let kept := List.filter (fun field =>
                negb (bool_decide (head (split_char (ch "=") field) = Some (encode (form_field_name path))))) fields in
  if (length kept =? length fields)%nat then None else Some (join (lit "&") kept).

Definition delete_request_body_path (headers : Headers) (body : list N) (path : DeleteBodyPath) : option (list N) :=
  if negb (plain_body headers) then None
  else
    match media_type headers with
    | Some t => if t =s? lit "application/x-www-form-urlencoded" then delete_form_field body path
                else if json_media_type t then delete_json_field body path false else None
    | None => None
    end.
Definition delete_response_body_path (headers : Headers) (body : list N) (path : DeleteBodyPath) : option (list N) :=
  if negb (plain_body headers) then None
  else
    match media_type headers with
    | None => delete_json_field body path false
    | Some t => if json_media_type t then delete_json_field body path false
                else if jsonp_media_type t then delete_json_field body path true else None
    end.

(** [apply_res_merge]: the merged body; a body that is not a JSON object is left alone. *)
Definition apply_res_merge (body : list N) (patch : str) (limit : N) : Result IoError (list N) :=
  match from_utf8 body ≫= fun text => ok (json_from_str text) with
  | Some (JObject members) =>
      patch ← map_err (fun e => invalid_input (lit "invalid res.merge json: " ++ e)) (json_from_str patch);
      match patch with
      | JObject _ =>
          let merged := json_to_vec (merge_json (JObject members) patch) in
          if limit <? blen merged then Err (output_limit_error (lit "merged response body") limit) else Ok merged
      | _ => Err (invalid_input (lit "res.merge json must be an object"))
      end
  | _ => Ok body
  end.
End Bodies.
