(* ===== verification/ParseRule.v ===== *)
(** * Parsing of rules and rule sources

    crates/rsproxy-rules/src/parser/mod.rs, parser/error.rs and
    parser/migration_hints.rs: one rule line; resolve.rs and
    snapshot_support.rs: the groups of a source, their limits and diagnostics.
    [Ok] and [Err] are the results of the source; [None] is a panic. *)
From Stdlib Require Import Ascii String.
From stdpp Require Import base numbers list gmap strings.
From S2P Require Import Prelude Family Utf8 Format NetAddr Model Url Syntax Engines Matching Index Resolve.
From S2P Require Import ParseOps ParseMatch Values.
Import Syntax.

(** ** Errors (parser/error.rs, error.rs) *)

Module RuleErrorCode.
Inductive t := Syntax | Matcher | Action | Condition | Property.
End RuleErrorCode.
Record RuleSourceSpan := mkSpan { sp_start : N; sp_end : N }.
Record ParseRuleError := mkParseRuleError {
  pe_code : RuleErrorCode.t; pe_source : RuleModelError; pe_span : option RuleSourceSpan }.
Definition parse_error (code : RuleErrorCode.t) (source : RuleModelError) : ParseRuleError :=
  mkParseRuleError code source None.
Definition at_token (token : RuleToken) (e : ParseRuleError) : ParseRuleError :=
  mkParseRuleError (pe_code e) (pe_source e) (Some (mkSpan (tk_start token) (tk_end token))).

(** ** Hints (migration_hints.rs) *)

Definition looks_like_host_port (input : str) : bool :=
  match rsplit_once_char (ch ":") input with
  | None => false
  | Some (host, port) =>
      negb (is_emptyb host) && forallb is_ascii_digit port && negb (is_emptyb port) &&
      forallb (fun c => is_ascii_alphanumeric c || (c =? ch ".") || (c =? ch "-") || (c =? ch "_")) host
  end.
Definition whistle_syntax_hint (input : str) : option str :=
  let quoted := lit "`" ++ input ++ lit "`" in
  let proxy_hint scheme rest :=
    quoted ++ lit " looks like a Whistle proxy target; use `upstream(" ++ lit scheme ++ rest ++ lit ")`" in
  if input =s? lit "$0" then
    Some (lit "`$0` is Whistle syntax for " ++ [QUOTE] ++ lit "leave this request alone" ++ [QUOTE] ++
          lit "; use `direct skip()` in rsproxy")
  else
    match find_map (fun prefix => strip_prefix (lit prefix) input) ["socks://"; "socks5://"]%string with
    | Some rest => Some (proxy_hint "socks5://"%string rest)
    | None =>
        match find_map (fun prefix => strip_prefix (lit prefix) input) ["proxy://"; "http-proxy://"]%string with
        | Some rest => Some (proxy_hint "proxy://"%string rest)
        | None =>
            if starts_with (lit "https-proxy://") input then
              Some (quoted ++ lit " looks like a Whistle proxy target; use `upstream(" ++ input ++ lit ")`")
            else if starts_with (lit "http://") input || starts_with (lit "https://") input then
              Some (quoted ++ lit " looks like a Whistle map target; use `map.remote(" ++ input ++
                    lit ")` for a transparent URL-preserving forward or `redirect(" ++ input ++
                    lit ")` for a client-visible 30x")
            else if negb (contains_char (ch "(") input) && looks_like_host_port input then
              Some (quoted ++ lit " looks like a Whistle host mapping; use `host(" ++ input ++
                    lit ")` to keep the original Host header or `map.remote(http://" ++ input ++
                    lit ")` for a transparent forward")
            else None
        end
    end.

(** ** Actions (mod.rs) *)

Definition action_name (profile : SyntaxProfile) (name : str) : option str :=
  match profile with Compatible => canonical_action_name name | CanonicalV3 => canonical_v3_action_name name end.
Definition unknown_action (profile : SyntaxProfile) (name : str) : RuleModelError :=
  match profile, canonical_action_name name with
  | CanonicalV3, Some canonical =>
      UnsupportedInput (lit "action")
        (lit "v3 accepts canonical action names only; replace `" ++ name ++ lit "` with `" ++ canonical ++ lit "`")
  | _, _ => UnsupportedInput (lit "action") (lit "unknown action `" ++ name ++ lit "`")
  end.

Section Actions.
Context {PE : PatternEngines}.

Definition parse_upstream (args : list str) : Parsed Action.t :=
  match args with
  | [] => Err (MissingArgument (lit "upstream action") (lit "upstream requires at least one argument"))
  | [arg] => value ← parse_value arg; Ok (Action.Upstream value)
  | _ => Ok (Action.Upstream (Value.Inline (join (lit ", ") args)))
  end.
Definition parse_status_code (raw context message : str) : Parsed N :=
  code ← integer_error context raw message (parse_uint U16_MAX raw);
  _ ← final_status code context;
  Ok code.
Definition parse_redirect (args : list str) : Parsed Action.t :=
  match args with
  | [] => Err (MissingArgument (lit "redirect action") (lit "redirect requires URL"))
  | location :: more =>
      code ← match more with
             | [] => Ok 302
             | raw :: _ =>
                 integer_error (lit "redirect code") raw (lit "redirect code must be numeric") (parse_uint U16_MAX raw)
             end;
      if (1 <? length more)%nat then
        Err (ConstraintViolation (lit "redirect action") (lit "redirect accepts URL and at most one status code"))
      else if negb (existsb (N.eqb code) REDIRECT_STATUSES) then
        Err (ConstraintViolation (lit "redirect code") (lit "redirect code must be one of 301, 302, 303, 307, or 308"))
      else
        url ← parse_value location;
        _ ← match url with
            | Value.Inline location =>
                if contains_char (ch "$") location then Ok tt else validate_redirect_location location
            | _ => Ok tt
            end;
        Ok (Action.Redirect url code)
  end.
Definition parse_attachment (args : list str) : Parsed Action.t :=
  if (1 <? length args)%nat then
    Err (ConstraintViolation (lit "attachment action") (lit "attachment accepts at most one filename"))
  else
    match args with
    | arg :: _ =>
        if is_emptyb (trim arg) then Ok (Action.Attachment None)
        else value ← parse_value arg; Ok (Action.Attachment (Some value))
    | [] => Ok (Action.Attachment None)
    end.
Definition parse_phase (input context : str) : Parsed Phase.t :=
  if trim input =s? lit "req" then Ok Phase.Req
  else if trim input =s? lit "res" then Ok Phase.Res
  else Err (InvalidInput (context ++ lit " phase") (context ++ lit " phase must be req or res")).
Definition parse_delay (args : list str) : Parsed Action.t :=
  match args with
  | [phase; duration] =>
      phase ← parse_phase phase (lit "delay");
      millis ← parse_duration_ms (trim duration);
      Ok (Action.Delay phase millis)
  | _ => Err (MissingArgument (lit "delay action") (lit "delay requires phase and duration"))
  end.
Definition parse_throttle (args : list str) : Parsed Action.t :=
  match args with
  | [phase; speed] =>
      phase ← parse_phase phase (lit "throttle");
      bytes_per_sec ← parse_speed_bps (trim speed);
      Ok (Action.Throttle phase bytes_per_sec)
  | _ => Err (MissingArgument (lit "throttle action") (lit "throttle requires phase and speed"))
  end.
Definition parse_skip_family (families : ActionFamilySet.t) (family : str) : Parsed ActionFamilySet.t :=
  let family := normalize_skip_family (unquote family) in
  match ActionFamilySet.from_prefix family with
  | None =>
      Err (UnsupportedInput (lit "skip action family")
             (lit "unknown skip family `" ++ family ++
              lit "`; use an action family, a parent such as `res.body`, `all`, or `*`"))
  | Some selected => Ok (ActionFamilySet.union families selected)
  end.
Definition parse_url_rewrite (args : list str) : Parsed Action.t :=
  match args with
  | [from; to] =>
      from ← parse_url_rewrite_pattern from;
      to ← parse_value to;
      Ok (Action.UrlRewrite from to)
  | _ => Err (MissingArgument (lit "url.rewrite action") (lit "url.rewrite requires from and to"))
  end.

(** The actions with one value, by name. *)
Definition VALUE_ACTIONS : list (string * (Value.t -> Action.t)) :=
  [("mock.raw"%string, Action.MockRaw); ("req.method"%string, Action.ReqMethod); ("req.ua"%string, Action.ReqUa);
   ("req.referer"%string, Action.ReqReferer); ("req.auth"%string, Action.ReqAuth);
   ("req.forwarded"%string, Action.ReqForwarded); ("req.type"%string, Action.ReqType);
   ("req.charset"%string, Action.ReqCharset); ("res.type"%string, Action.ResType);
   ("res.charset"%string, Action.ResCharset); ("res.merge"%string, Action.ResMerge); ("tag"%string, Action.Tag);
   ("req.body.set"%string, fun v => Action.ReqBody (BodyOp.Set_ v));
   ("req.body.prepend"%string, fun v => Action.ReqBody (BodyOp.Prepend v));
   ("req.body.append"%string, fun v => Action.ReqBody (BodyOp.Append v));
   ("res.body.set"%string, fun v => Action.ResBody (BodyOp.Set_ v));
   ("res.body.prepend"%string, fun v => Action.ResBody (BodyOp.Prepend v));
   ("res.body.append"%string, fun v => Action.ResBody (BodyOp.Append v))].
(** The call [name(args)] written as [input]; a host pool gets [cursor]. *)
Definition parse_named_action (cursor : N) (input name : str) (args : list str) : Parsed Action.t :=
  let named s := name =s? lit s in
  match find (fun entry => named (fst entry)) VALUE_ACTIONS with
  | Some (_, build) => arg ← require_one args name; value ← parse_value arg; Ok (build value)
  | None =>
      if named "host"%string then
        addresses ← collect parse_value args; pool ← HostPool_new cursor addresses; Ok (Action.Host pool)
      else if named "upstream"%string then parse_upstream args
      else if named "mock"%string then parse_mock args
      else if named "map.remote"%string then
        arg ← require_one args name;
        value ← parse_value arg;
        _ ← validate_map_remote_target value;
        Ok (Action.MapRemote value)
      else if named "status"%string then
        raw ← require_one args name;
        code ← parse_status_code raw (lit "status code") (lit "status code must be numeric");
        Ok (Action.Status code)
      else if named "redirect"%string then parse_redirect args
      else if named "req.header"%string then
        body ← require_call_body input name; op ← parse_header_op body; Ok (Action.ReqHeader op)
      else if named "res.header"%string then
        body ← require_call_body input name; op ← parse_header_op body; Ok (Action.ResHeader op)
      else if named "res.status"%string then
        raw ← require_one args name;
        code ← parse_status_code raw (lit "response status code") (lit "res.status code must be numeric");
        Ok (Action.ResStatus code)
      else if named "req.cookie"%string then
        arg ← require_one args name; op ← parse_cookie_op arg; Ok (Action.ReqCookie op)
      else if named "res.cookie"%string then
        arg ← require_one args name; op ← parse_cookie_op arg; Ok (Action.ResCookie op)
      else if named "res.cors"%string then op ← parse_cors_op args; Ok (Action.ResCors op)
      else if named "res.trailer"%string then
        body ← require_call_body input name;
        op ← parse_header_op body;
        _ ← validate_trailer_op op;
        Ok (Action.ResTrailer op)
      else if named "attachment"%string then parse_attachment args
      else if named "cache"%string then op ← parse_cache_op args; Ok (Action.Cache op)
      else if named "tls"%string then op ← parse_tls_op args; Ok (Action.Tls op)
      else if named "url.rewrite"%string then parse_url_rewrite args
      else if named "url.query"%string then ops ← parse_query_ops args; Ok (Action.UrlQuery ops)
      else if named "delete"%string then ops ← parse_delete_ops args; Ok (Action.Delete ops)
      else if named "req.body.replace"%string then op ← parse_body_replace args name; Ok (Action.ReqBody op)
      else if named "res.body.replace"%string then op ← parse_body_replace args name; Ok (Action.ResBody op)
      else if named "inject"%string then op ← parse_inject_op args; Ok (Action.Inject op)
      else if named "delay"%string then parse_delay args
      else if named "throttle"%string then parse_throttle args
      else if named "skip"%string then
        families ← fold_args parse_skip_family ActionFamilySet.EMPTY args; Ok (Action.Skip families)
      else Err (UnsupportedInput (lit "action") (lit "unknown action `" ++ name ++ lit "`"))
  end.
(** The actions without arguments. *)
Definition parse_bare_action (name : option str) : option Action.t :=
  match name with
  | Some name =>
      if name =s? lit "direct" then Some Action.Direct
      else if name =s? lit "bypass" then Some Action.Bypass
      else if name =s? lit "hide" then Some Action.Hide
      else None
  | None => None
  end.
Definition parse_action (cursor : N) (input : str) (profile : SyntaxProfile) : Parsed Action.t :=
  match parse_bare_action (action_name profile input) with
  | Some action => Ok action
  | None =>
      match whistle_syntax_hint input with
      | Some hint => Err (UnsupportedInput (lit "action") hint)
      | None =>
          '(input_name, args) ← parse_call input;
          match action_name profile input_name with
          | None => Err (unknown_action profile input_name)
          | Some name =>
              action ← parse_named_action cursor input name args;
              _ ← validate_templates action;
              Ok action
          end
      end
  end.
End Actions.

(** ** One rule (mod.rs) *)

Section Rules.
Context {PE : PatternEngines}.
Abbreviation ParsedRule := (Result ParseRuleError).

Record RuleParts := mkRuleParts {
  rp_actions : list Action.t;
  rp_conditions : list Condition.t;
  rp_nodes : N;
  rp_important : bool;
  rp_disabled : bool;
  rp_tags : list str;
  rp_properties : N;
}.
Definition no_parts : RuleParts := mkRuleParts [] [] 0 false false [] 0.
Definition rule_limit (context : string) (limit : N) (label : string) : RuleModelError :=
  LimitExceeded (lit context) (lit "rule exceeds the " ++ show_N limit ++ lit "-" ++ lit label ++ lit " limit").

Definition add_condition (parts : RuleParts) (profile : SyntaxProfile) (token : RuleToken) : ParsedRule RuleParts :=
  condition ← map_err (fun e => at_token token (parse_error RuleErrorCode.Condition e))
                (parse_condition (tk_text token) profile);
  let nodes := saturating_add USIZE_MAX (rp_nodes parts) (condition_node_count condition) in
  if MAX_RULE_CONDITION_NODES_PER_RULE <? nodes then
    Err (parse_error RuleErrorCode.Condition
           (rule_limit "condition count" MAX_RULE_CONDITION_NODES_PER_RULE "condition-node"))
  else
    Ok (mkRuleParts (rp_actions parts) (rp_conditions parts ++ [condition]) nodes (rp_important parts)
          (rp_disabled parts) (rp_tags parts) (rp_properties parts)).
Definition add_property (parts : RuleParts) (token : RuleToken) : ParsedRule RuleParts :=
  let '(mkRuleParts actions conditions nodes important disabled tags properties) := parts in
  let properties := properties + 1 in
  let error e := Err (parse_error RuleErrorCode.Property e) in
  if MAX_RULE_PROPERTIES_PER_RULE <? properties then
    error (rule_limit "property count" MAX_RULE_PROPERTIES_PER_RULE "property")
  else
    let unknown := UnsupportedInput (lit "rule property") (lit "unknown property " ++ tk_text token) in
    match canonical_property (tk_text token) with
    | Some (name, suffix) =>
        if name =s? lit "@important" then Ok (mkRuleParts actions conditions nodes true disabled tags properties)
        else if name =s? lit "@disabled" then Ok (mkRuleParts actions conditions nodes important true tags properties)
        else if name =s? lit "@tag:" then
          if is_emptyb suffix then error (MissingArgument (lit "rule tag") (lit "@tag: requires a non-empty name"))
          else Ok (mkRuleParts actions conditions nodes important disabled (tags ++ [suffix]) properties)
        else error unknown
    | None => error unknown
    end.
(** [first] numbers the cursors of the rule's host pools. *)
Definition add_action (first : N) (parts : RuleParts) (profile : SyntaxProfile) (token : RuleToken)
    : ParsedRule RuleParts :=
  let count := N.of_nat (length (rp_actions parts)) in
  if count =? MAX_RULE_ACTIONS_PER_RULE then
    Err (parse_error RuleErrorCode.Action (rule_limit "action count" MAX_RULE_ACTIONS_PER_RULE "action"))
  else
    action ← map_err (fun e => at_token token (parse_error RuleErrorCode.Action e))
               (parse_action (first + count) (tk_text token) profile);
    Ok (mkRuleParts (rp_actions parts ++ [action]) (rp_conditions parts) (rp_nodes parts) (rp_important parts)
          (rp_disabled parts) (rp_tags parts) (rp_properties parts)).
Fixpoint parse_parts (first : N) (profile : SyntaxProfile) (parts : RuleParts) (tokens : list RuleToken)
    : ParsedRule RuleParts :=
  match tokens with
  | [] => Ok parts
  | token :: rest =>
      if tk_text token =s? lit "when" then
        match rest with
        | [] =>
            Err (parse_error RuleErrorCode.Condition
                   (MissingArgument (lit "when property") (lit "`when` must be followed by a condition")))
        | condition :: rest' => parts ← add_condition parts profile condition; parse_parts first profile parts rest'
        end
      else if starts_with [ch "@"] (tk_text token) then
        parts ← add_property parts token; parse_parts first profile parts rest
      else parts ← add_action first parts profile token; parse_parts first profile parts rest
  end.
Definition parse_rule (first : N) (group : str) (line : N) (input : str) (profile : SyntaxProfile) : ParsedRule Rule :=
  tokens ← map_err (fun e => mkParseRuleError RuleErrorCode.Syntax e (Some (mkSpan 0 (len input)))) (tokenize input);
  match tokens with
  | [] => Err (parse_error RuleErrorCode.Syntax (EmptyInput (lit "rule") (lit "empty rule")))
  | token :: rest =>
      matcher ← map_err (fun e => at_token token (parse_error RuleErrorCode.Matcher e)) (parse_matcher (tk_text token));
      parts ← parse_parts first profile no_parts rest;
      if is_emptyb (rp_actions parts) then
        Err (parse_error RuleErrorCode.Action
               (MissingArgument (lit "rule action") (lit "rule must include at least one action")))
      else
        Ok (mkRule group line input matcher (rp_actions parts) (rp_conditions parts) (rp_important parts)
              (rp_disabled parts) (rp_tags parts))
  end.

(** ** Sources (resolve.rs, snapshot_support.rs) *)

Record RuleError := mkRuleError {
  re_code : RuleErrorCode.t; re_group : str; re_line : N; re_span : option RuleSourceSpan; re_message : str }.
(** The diagnostics with a new one, and whether the limit is reached. *)
Definition push_parse_diagnostic (errors : list RuleError) (error : RuleError) : list RuleError * bool :=
  if (length errors <? MAX_RULE_DIAGNOSTICS - 1)%nat then (errors ++ [error], false)
  else if (length errors <? MAX_RULE_DIAGNOSTICS)%nat then
    (errors ++ [mkRuleError RuleErrorCode.Syntax (re_group error) (re_line error) (re_span error)
                  (lit "diagnostic limit of " ++ show_N (N.of_nat MAX_RULE_DIAGNOSTICS) ++
                   lit " reached; remaining source was not parsed")], true)
  else (errors, true).

Record Snapshot := mkSnapshot {
  sn_rules : list Rule;
  sn_errors : list RuleError;
  sn_bytes : N;
  sn_lines : N;
  sn_actions : N;
  sn_nodes : N;
  sn_body : N;
}.
Definition no_rules : Snapshot := mkSnapshot [] [] 0 0 0 0 0.
Definition with_errors (s : Snapshot) (errors : list RuleError) : Snapshot :=
  mkSnapshot (sn_rules s) errors (sn_bytes s) (sn_lines s) (sn_actions s) (sn_nodes s) (sn_body s).

(** How a loop goes on: [continue], [break] of the lines, [break 'groups]. *)
Inductive Flow := NextLine | EndGroup | EndAll.
(** A diagnostic after which the loop goes on unless the limit is reached. *)
Definition diagnose (s : Snapshot) (error : RuleError) : Snapshot * Flow :=
  let '(errors, full) := push_parse_diagnostic (sn_errors s) error in
  (with_errors s errors, if full then EndAll else NextLine).
Definition diagnose_and (flow : Flow) (s : Snapshot) (error : RuleError) : Snapshot * Flow :=
  (with_errors s (fst (push_parse_diagnostic (sn_errors s) error)), flow).

Definition charge (counter cost limit : N) : N * bool :=
  let counter := saturating_add USIZE_MAX counter cost in (counter, limit <? counter).
Definition snapshot_limit (group : str) (line : N) (code : RuleErrorCode.t) (limit : N) (label : string) : RuleError :=
  mkRuleError code group line None (lit "snapshot exceeds the " ++ show_N limit ++ lit "-" ++ lit label ++ lit " limit").
(** The budgets are charged in order; a budget that is exceeded ends the source. *)
Definition publish_rule (s : Snapshot) (group : str) (line : N) (rule : Rule) : Snapshot * Flow :=
  let nodes := sum_N (map condition_node_count (r_conditions rule)) in
  let body := sum_N (map body_condition_count (r_conditions rule)) in
  let '(actions, over) := charge (sn_actions s) (N.of_nat (length (r_actions rule))) MAX_RULE_ACTIONS_PER_SNAPSHOT in
  let s := mkSnapshot (sn_rules s) (sn_errors s) (sn_bytes s) (sn_lines s) actions (sn_nodes s) (sn_body s) in
  if over then
    diagnose_and EndAll s (snapshot_limit group line RuleErrorCode.Action MAX_RULE_ACTIONS_PER_SNAPSHOT "action")
  else
    let '(nodes, over) := charge (sn_nodes s) nodes MAX_RULE_CONDITION_NODES_PER_SNAPSHOT in
    let s := mkSnapshot (sn_rules s) (sn_errors s) (sn_bytes s) (sn_lines s) actions nodes (sn_body s) in
    if over then
      diagnose_and EndAll s
        (snapshot_limit group line RuleErrorCode.Condition MAX_RULE_CONDITION_NODES_PER_SNAPSHOT "condition-node")
    else
      let '(body, over) := charge (sn_body s) body MAX_RULE_BODY_CONDITIONS_PER_SNAPSHOT in
      let s := mkSnapshot (sn_rules s) (sn_errors s) (sn_bytes s) (sn_lines s) actions nodes body in
      if over then
        diagnose_and EndAll s
          (snapshot_limit group line RuleErrorCode.Condition MAX_RULE_BODY_CONDITIONS_PER_SNAPSHOT "body-condition")
      else (mkSnapshot (sn_rules s ++ [rule]) (sn_errors s) (sn_bytes s) (sn_lines s) actions nodes body, NextLine).

Definition is_language_directive (line : str) : bool :=
  (line =s? lit "@language") ||
  match strip_prefix (lit "@language") line with Some (c :: _) => is_whitespace c | _ => false end.

(** An effective line that is no directive. *)
Definition parse_rule_line (s : Snapshot) (group : str) (line_no : N) (line : str) (profile : SyntaxProfile)
    : Snapshot * Flow :=
  if sn_lines s =? MAX_RULES_PER_SNAPSHOT then
    diagnose_and EndAll s (snapshot_limit group line_no RuleErrorCode.Syntax MAX_RULES_PER_SNAPSHOT "rule")
  else
    let first := sn_lines s * MAX_RULE_ACTIONS_PER_RULE in
    let s := mkSnapshot (sn_rules s) (sn_errors s) (sn_bytes s) (sn_lines s + 1) (sn_actions s) (sn_nodes s) (sn_body s) in
    match parse_rule first group line_no line profile with
    | Ok rule => publish_rule s group line_no rule
    | Err e => diagnose s (mkRuleError (pe_code e) group line_no (pe_span e) (model_error_text (pe_source e)))
    end.
(** One physical line; the profile is [None] before the first effective line. *)
Definition parse_line (require_header : bool) (group : str) (s : Snapshot) (profile : option SyntaxProfile)
    (line_no : N) (raw_line : str) : Snapshot * option SyntaxProfile * Flow :=
  let error code message := mkRuleError code group line_no None message in
  if MAX_RULE_SOURCE_LINE_BYTES <? len raw_line then
    let '(s, flow) := diagnose s (error RuleErrorCode.Syntax
      (lit "rule line exceeds the " ++ show_N MAX_RULE_SOURCE_LINE_BYTES ++ lit "-byte limit")) in (s, profile, flow)
  else
    match strip_comment raw_line with
    | None => (s, profile, NextLine)
    | Some line =>
        let line := trim line in
        match profile with
        | None =>
            if is_language_directive line then
              if line =s? RULE_LANGUAGE_HEADER then (s, Some CanonicalV3, NextLine)
              else
                let '(s, flow) := diagnose_and EndGroup s (error RuleErrorCode.Property
                  (lit "unsupported rule language directive `" ++ line ++ lit "`; expected `" ++ RULE_LANGUAGE_HEADER ++
                   lit "`")) in (s, Some Compatible, flow)
            else if require_header then
              let '(s, flow) := diagnose_and EndGroup s (error RuleErrorCode.Property
                (lit "missing `" ++ RULE_LANGUAGE_HEADER ++ lit "`; it must be the first effective source line")) in
              (s, Some Compatible, flow)
            else
              let '(s, flow) := parse_rule_line s group line_no line Compatible in (s, Some Compatible, flow)
        | Some used =>
            if is_language_directive line then
              let '(s, flow) := diagnose s (error RuleErrorCode.Property
                (lit "`" ++ RULE_LANGUAGE_HEADER ++ lit "` may appear only on the first effective source line")) in
              (s, profile, flow)
            else let '(s, flow) := parse_rule_line s group line_no line used in (s, profile, flow)
        end
    end.
Fixpoint parse_lines (require_header : bool) (group : str) (s : Snapshot) (profile : option SyntaxProfile)
    (line_no : N) (raw_lines : list str) : Snapshot * Flow :=
  match raw_lines with
  | [] => (s, NextLine)
  | raw :: rest =>
      match parse_line require_header group s profile line_no raw with
      | (s, profile, NextLine) => parse_lines require_header group s profile (line_no + 1) rest
      | (s, _, flow) => (s, flow)
      end
  end.
(** One group; the result says whether the groups end here. *)
Definition parse_group (require_header : bool) (s : Snapshot) (index : N) (group text : str) : Snapshot * bool :=
  let valid := negb (is_emptyb group) && (len group <=? MAX_RULE_GROUP_NAME_BYTES) in
  let diagnostic_group := if valid then group else lit "<invalid-group>" in
  let error message := mkRuleError RuleErrorCode.Syntax diagnostic_group 1 None message in
  let stop message := (fst (diagnose_and EndAll s (error message)), true) in
  if MAX_RULE_GROUPS_PER_SNAPSHOT <=? index then
    stop (lit "snapshot exceeds the " ++ show_N MAX_RULE_GROUPS_PER_SNAPSHOT ++ lit "-group limit")
  else
    match checked_add USIZE_MAX (sn_bytes s) (len text) with
    | Some bytes =>
        if bytes <=? MAX_RULE_SNAPSHOT_SOURCE_BYTES then
          let s := mkSnapshot (sn_rules s) (sn_errors s) bytes (sn_lines s) (sn_actions s) (sn_nodes s) (sn_body s) in
          if negb valid then
            let '(s, flow) := diagnose s (error (lit "rule group name must contain 1..=" ++
              show_N MAX_RULE_GROUP_NAME_BYTES ++ lit " bytes")) in
            (s, match flow with EndAll => true | _ => false end)
          else
            let '(s, flow) := parse_lines require_header group s None 1 (lines text) in
            (s, match flow with EndAll => true | _ => false end)
        else stop (lit "snapshot source exceeds the " ++ show_N MAX_RULE_SNAPSHOT_SOURCE_BYTES ++ lit "-byte limit")
    | None => stop (lit "snapshot source exceeds the " ++ show_N MAX_RULE_SNAPSHOT_SOURCE_BYTES ++ lit "-byte limit")
    end.
Fixpoint parse_all_groups (require_header : bool) (s : Snapshot) (index : N) (groups : list (str * str)) : Snapshot :=
  match groups with
  | [] => s
  | (group, text) :: rest =>
      match parse_group require_header s index group text with
      | (s, true) => s
      | (s, false) => parse_all_groups require_header s (index + 1) rest
      end
  end.
(** [version] is the number [next_ruleset_version] gives. *)
Definition parse_groups_with_profile (require_header : bool) (version : N) (groups : list (str * str))
    : option (Result (list RuleError) RuleSet) :=
  let s := parse_all_groups require_header no_rules 0 groups in
  if is_emptyb (sn_errors s) then
    index ← RuleIndex_build (sn_rules s);
    Some (Ok (mkRuleSet RULE_LANGUAGE_VERSION version (sn_rules s) index))
  else Some (Err (sn_errors s)).
Definition parse_groups := parse_groups_with_profile false.
Definition parse_versioned_groups := parse_groups_with_profile true.
End Rules.
