(* ===== verification/Lint.v ===== *)
(** * Lints of rule sets

    crates/rsproxy-rules/src/lint.rs: later rules that can never win a family;
    semantic_lint.rs, semantic_lint/finding.rs and semantic_lint/sets.rs:
    contradictions within one rule.  A [BTreeSet] is the list of its elements,
    in order where the order is printed. *)
From Stdlib Require Import Ascii String.
From stdpp Require Import base numbers list gmap strings.
From S2P Require Import Prelude Utf8 NetAddr Family Model Url Engines Matching Evaluate Index Resolve Http1 Http1Write.

Definition MAX_RULE_LINT_COMPARISONS : N := 1000000.
Definition MAX_RULE_LINT_COMPARISON_BYTES : N := 256 * 1024 * 1024.
Definition MAX_RULE_LINT_FINDINGS : N := 10000.
Definition MAX_RULE_LINT_REPORT_BYTES : N := 4 * 1024 * 1024.

Definition list_mem (x : str) (l : list str) : bool := existsb (fun y => y =s? x) l.
Definition sum_len (l : list str) : N := sum_N (map len l).
(** [checked_add(size).is_none_or(|bytes| bytes > limit)] *)
Definition exceeds (total size limit : N) : bool :=
  match checked_add USIZE_MAX total size with Some bytes => limit <? bytes | None => true end.

(** ** Shadowed rules (lint.rs) *)

Record LintFinding := mkLintFinding {
  lf_group : str;
  lf_line : N;
  lf_raw : str;
  lf_shadowed_by_group : str;
  lf_shadowed_by_line : N;
  lf_shadowed_by_raw : str;
  lf_families : list str;
}.
Record LintReport := mkLintReport {
  lr_findings : list LintFinding;
  lr_complete : bool;
  lr_comparisons : N;
  lr_comparison_bytes : N;
}.

Definition option_len (s : option str) : N := match s with Some s => len s | None => 0 end.
Fixpoint matcher_source_bytes (m : Matcher.t) : N :=
  match m with
  | Matcher.ExactUrl url => len url
  | Matcher.Glob glob =>
      fold_left (saturating_add USIZE_MAX)
        [len (gm_host glob); option_len (gm_port glob); option_len (gm_path glob); option_len (gm_query glob)]
        (option_len (gm_scheme glob))
  | Matcher.Port _ => 2
  | Matcher.Regex regex => len (rm_pattern regex)
  | Matcher.Not inner => matcher_source_bytes inner
  end.
Definition lint_finding_bytes (f : LintFinding) : N :=
  fold_left (saturating_add USIZE_MAX)
    [len (lf_raw f); len (lf_shadowed_by_group f); len (lf_shadowed_by_raw f); sum_len (lf_families f)] (len (lf_group f)).
Definition add_new (families : list str) (family : str) : list str :=
  if list_mem family families then families else families ++ [family].
Definition single_families (rule : Rule) : list str :=
  fold_left (fun families a =>
    if Action.is_single a then add_new families (ActionFamily.as_str (Action.family a)) else families)
    (effective_actions rule) [].

Section Shadow.
Context {PE : PatternEngines}.

Definition host_pattern_subsumes (a b : str) (globs : CompiledGlobSet) : bool :=
  if (a =s? b) || (a =s? lit "*") || (a =s? lit "**") then true
  else if negb (glob_syntax_is_active b) then host_matches globs a b
  else
    match strip_prefix (lit "**.") a with
    | Some base =>
        match (match strip_prefix (lit "**.") b with Some base => Some base | None => strip_prefix (lit "*.") b end) with
        | Some later_base =>
            negb (glob_syntax_is_active later_base) &&
            ((later_base =s? base) || is_some (dotted_suffix_prefix later_base base))
        | None => false
        end
    | None => false
    end.
Definition option_subsumes (a b : option str) : bool := negb (is_some a) || bool_decide (a = b).
Definition glob_subsumes (a b : GlobMatcher) (globs : CompiledGlobSet) : bool :=
  option_subsumes (gm_scheme a) (gm_scheme b) && host_pattern_subsumes (gm_host a) (gm_host b) globs &&
  option_subsumes (gm_port a) (gm_port b) && option_subsumes (gm_path a) (gm_path b) &&
  option_subsumes (gm_query a) (gm_query b).
Definition matcher_subsumes (a b : Matcher.t) (globs : CompiledGlobSet) : bool :=
  match a, b with
  | Matcher.Glob a, Matcher.Glob b => glob_subsumes a b globs
  | Matcher.Glob _, Matcher.ExactUrl url =>
      match UrlParts_parse url with
      | Ok parts => is_some (Matcher_matches_compiled a parts url globs (bind_matcher_resources a globs))
      | Err _ => false
      end
  | Matcher.ExactUrl a, Matcher.ExactUrl b => a =s? b
  | _, _ => false
  end.

(** The locals of the loops of [lint_report]. *)
Record LintState := mkLintState {
  ls_findings : list LintFinding;
  ls_report_bytes : N;
  ls_comparisons : N;
  ls_comparison_bytes : N;
}.
(** One rule in priority order with what is computed once per rule. *)
Record Ordered := mkOrdered { od_rule : Rule; od_families : list str; od_bytes : N }.
Definition lint_order (rs : RuleSet) : list Ordered :=
  omap (fun i => match rs_rules rs !! i with
                 | Some rule => Some (mkOrdered rule (single_families rule) (matcher_source_bytes (r_matcher rule)))
                 | None => None
                 end)
    (sort_by_key (rs_rules rs)
       (List.filter (fun i => match rs_rules rs !! i with Some rule => negb (r_disabled rule) | None => false end)
          (seq 0 (length (rs_rules rs))))).
Definition shadow_finding (later earlier : Rule) (shared : list str) : LintFinding :=
  mkLintFinding (r_group later) (r_line later) (r_raw later) (r_group earlier) (r_line earlier) (r_raw earlier) shared.

(** The loop over the earlier rules; [false] is [break 'later]. *)
Fixpoint lint_earlier (globs : CompiledGlobSet) (later : Ordered) (remaining : list str) (st : LintState)
    (earliers : list Ordered) : LintState * bool :=
  match earliers with
  | [] => (st, true)
  | earlier :: rest =>
      let size := saturating_add USIZE_MAX (od_bytes later) (od_bytes earlier) in
      if (ls_comparisons st =? MAX_RULE_LINT_COMPARISONS) ||
         exceeds (ls_comparison_bytes st) size MAX_RULE_LINT_COMPARISON_BYTES
      then (st, false)
      else
        let st := mkLintState (ls_findings st) (ls_report_bytes st) (ls_comparisons st + 1)
                    (ls_comparison_bytes st + size) in
        if negb (is_emptyb (r_conditions (od_rule earlier))) then lint_earlier globs later remaining st rest
        else
          let shared := List.filter (fun family => list_mem family remaining) (od_families earlier) in
          if is_emptyb shared then lint_earlier globs later remaining st rest
          else if negb (matcher_subsumes (r_matcher (od_rule earlier)) (r_matcher (od_rule later)) globs)
          then lint_earlier globs later remaining st rest
          else
            let remaining := List.filter (fun family => negb (list_mem family shared)) remaining in
            let finding := shadow_finding (od_rule later) (od_rule earlier) shared in
            let size := lint_finding_bytes finding in
            if (N.of_nat (length (ls_findings st)) =? MAX_RULE_LINT_FINDINGS) ||
               exceeds (ls_report_bytes st) size MAX_RULE_LINT_REPORT_BYTES
            then (st, false)
            else
              let st := mkLintState (ls_findings st ++ [finding]) (ls_report_bytes st + size) (ls_comparisons st)
                          (ls_comparison_bytes st) in
              if is_emptyb remaining then (st, true) else lint_earlier globs later remaining st rest
  end.
(** The loop over the later rules behind those already visited. *)
Fixpoint lint_later (globs : CompiledGlobSet) (visited : list Ordered) (st : LintState) (laters : list Ordered)
    : LintState * bool :=
  match laters with
  | [] => (st, true)
  | later :: rest =>
      if is_emptyb (od_families later) then lint_later globs (visited ++ [later]) st rest
      else
        match lint_earlier globs later (od_families later) st visited with
        | (st, true) => lint_later globs (visited ++ [later]) st rest
        | (st, false) => (st, false)
        end
  end.
Definition lint_report (rs : RuleSet) : LintReport :=
  let '(st, complete) :=
    lint_later (ix_compiled_globs (rs_index rs)) [] (mkLintState [] 0 0 0) (lint_order rs) in
  mkLintReport (ls_findings st) complete (ls_comparisons st) (ls_comparison_bytes st).
End Shadow.

(** ** Contradictions within one rule (semantic_lint.rs) *)

Module SemanticLintKind.
Inductive t :=
| DuplicateSingleFamily | UnsatisfiableConditions | RequestActionRequiresResponse | ActionAfterSkip
| ConflictingTerminalActions | ResponseActionWithLocalResponse | UpstreamOverriddenByDirect
| BodyActionWithBodylessStatus.
Definition as_str (k : t) : str :=
  lit match k with
      | DuplicateSingleFamily => "duplicate-single-family"
      | UnsatisfiableConditions => "unsatisfiable-conditions"
      | RequestActionRequiresResponse => "request-action-requires-response"
      | ActionAfterSkip => "action-after-skip"
      | ConflictingTerminalActions => "conflicting-terminal-actions"
      | ResponseActionWithLocalResponse => "response-action-with-local-response"
      | UpstreamOverriddenByDirect => "upstream-overridden-by-direct"
      | BodyActionWithBodylessStatus => "body-action-with-bodyless-status"
      end.
End SemanticLintKind.
Record SemanticLintFinding := mkSemanticLintFinding {
  sf_kind : SemanticLintKind.t;
  sf_group : str;
  sf_line : N;
  sf_raw : str;
  sf_message : str;
  sf_families : list str;
}.
Record SemanticLintReport := mkSemanticLintReport { sr_findings : list SemanticLintFinding; sr_complete : bool }.

Definition finding (rule : Rule) (kind : SemanticLintKind.t) (message : str) (families : list str) : SemanticLintFinding :=
  mkSemanticLintFinding kind (r_group rule) (r_line rule) (r_raw rule) message families.
Definition semantic_finding_bytes (f : SemanticLintFinding) : N :=
  fold_left (saturating_add USIZE_MAX) [len (sf_raw f); len (sf_message f); sum_len (sf_families f)] (len (sf_group f)).

Definition family_name (a : Action.t) : str := ActionFamily.as_str (Action.family a).
(** [collect::<BTreeSet<_>>().into_iter().collect()] *)
Definition sorted_set (l : list str) : list str := fold_left (fun s x => bset_insert x s) l [].
Fixpoint duplicate_names (seen : list ActionFamily.t) (actions : list Action.t) : list str :=
  match actions with
  | [] => []
  | a :: rest =>
      if Action.is_single a then
        if bool_decide (Action.family a ∈ seen) then family_name a :: duplicate_names seen rest
        else duplicate_names (Action.family a :: seen) rest
      else duplicate_names seen rest
  end.
Definition duplicate_single_families (effective : list Action.t) : list str := sorted_set (duplicate_names [] effective).

Fixpoint condition_requires_response (c : Condition.t) : bool :=
  match c with
  | Condition.ResHeaderPresent _ | Condition.ResHeaderContains _ _ | Condition.Status _ => true
  | Condition.All cs => existsb condition_requires_response cs
  | Condition.Any cs => forallb condition_requires_response cs
  | Condition.Not inner => Condition.depends_on_response inner
  | _ => false
  end.
Definition request_actions_requiring_response (rule : Rule) (effective : list Action.t) : list str :=
  if negb (existsb condition_requires_response (r_conditions rule)) then []
  else sorted_set (map family_name
         (List.filter (fun a => Action.applies_in a Phase.Req && negb (Action.applies_in a Phase.Res)) effective)).

Fixpoint suppressed_names (skip : SkipState.t) (actions : list Action.t) : list str :=
  match actions with
  | [] => []
  | a :: rest =>
      if SkipState.suppresses skip (Action.family a) then family_name a :: suppressed_names skip rest
      else suppressed_names (SkipState.observe skip a) rest
  end.
Definition actions_after_skip (rule : Rule) : list str := sorted_set (suppressed_names SkipState.default (r_actions rule)).

Definition has_effective_family (effective : list Action.t) (family : ActionFamily.t) : bool :=
  existsb (fun a => bool_decide (Action.family a = family)) effective.
Definition terminal_families (effective : list Action.t) : list str :=
  map ActionFamily.as_str
    (List.filter (has_effective_family effective) [ActionFamily.Status; ActionFamily.Redirect; ActionFamily.Mock]).
Definition response_actions_with_local_response (effective : list Action.t) (terminal : list str) : list str :=
  if is_emptyb terminal then []
  else sorted_set (map family_name
         (List.filter (fun a => Action.applies_in a Phase.Res && negb (Action.applies_in a Phase.Req)) effective)).

Definition status_forbids_body (status : N) : bool := negb (status_can_send_content status).
Definition is_content_family (family : ActionFamily.t) : bool :=
  match family with
  | ActionFamily.ResBodySet | ActionFamily.ResBodyPrepend | ActionFamily.ResBodyAppend | ActionFamily.ResBodyReplace
  | ActionFamily.Inject | ActionFamily.ResMerge => true
  | _ => false
  end.
Definition body_actions_with_bodyless_status (effective : list Action.t) : list str :=
  if negb (existsb (fun a => match a with Action.ResStatus status => status_forbids_body status | _ => false end) effective)
  then []
  else
    let families := sorted_set (map ActionFamily.as_str (List.filter is_content_family (map Action.family effective))) in
    if is_emptyb families then families else lit "res.status" :: families.

Inductive ConstantTruth := ConstTrue | ConstFalse | ConstUnknown.
#[global] Instance ConstantTruth_eq_dec : EqDecision ConstantTruth.
Proof. solve_decision. Defined.
Definition some_truth (t : ConstantTruth) (ts : list ConstantTruth) : bool := existsb (fun x => bool_decide (x = t)) ts.
Fixpoint constant_truth (c : Condition.t) : ConstantTruth :=
  match c with
  | Condition.ChancePermille permille =>
      if permille =? 0 then ConstFalse else if permille =? 1000 then ConstTrue else ConstUnknown
  | Condition.Any cs =>
      let ts := map constant_truth cs in
      if some_truth ConstTrue ts then ConstTrue else if some_truth ConstUnknown ts then ConstUnknown else ConstFalse
  | Condition.All cs =>
      let ts := map constant_truth cs in
      if some_truth ConstFalse ts then ConstFalse else if some_truth ConstUnknown ts then ConstUnknown else ConstTrue
  | Condition.Not inner =>
      match constant_truth inner with ConstTrue => ConstFalse | ConstFalse => ConstTrue | ConstUnknown => ConstUnknown end
  | _ => ConstUnknown
  end.

Fixpoint flatten_conjunction (c : Condition.t) : list Condition.t :=
  match c with
  | Condition.All cs => flat_map flatten_conjunction cs
  | _ => [c]
  end.
Definition intersection {A} `{EqDecision A} (sets : list (list A)) : option (list A) :=
  fold_left (fun acc values =>
    Some match acc with
         | Some current => List.filter (fun x => bool_decide (x ∈ values)) current
         | None => values
         end) sets None.
Definition is_subset {A} `{EqDecision A} (a b : list A) : bool := forallb (fun x => bool_decide (x ∈ b)) a.
Definition required_methods (c : Condition.t) : option (list str) :=
  match c with Condition.Method values => Some values | _ => None end.
Definition required_statuses (c : Condition.t) : option (list N) :=
  match c with Condition.Status values => Some values | _ => None end.
Definition forbidden {A} (required : Condition.t -> option (list A)) (c : Condition.t) : list A :=
  match c with Condition.Not inner => unwrap_or (required inner) [] | _ => [] end.
(** [method_constraints_are_empty] and [status_constraints_are_empty]. *)
Definition constraints_are_empty {A} `{EqDecision A} (required : Condition.t -> option (list A))
    (conjunction : list Condition.t) : bool :=
  match intersection (omap required conjunction) with
  | Some values => is_subset values (flat_map (forbidden required) conjunction)
  | None => false
  end.

(** The maps of [environment_contradiction]. *)
Record EnvFacts := mkEnvFacts {
  ef_required : list (str * str);
  ef_required_present : list str;
  ef_forbidden_present : list str;
  ef_forbidden_values : list (str * str);
}.
(** [BTreeMap::insert]: the previous value and the map. *)
Fixpoint bmap_insert (key value : str) (m : list (str * str)) : option str * list (str * str) :=
  match m with
  | [] => (None, [(key, value)])
  | (k, v) :: m' =>
      match str_compare key k with
      | Lt => (None, (key, value) :: m)
      | Eq => (Some v, (k, value) :: m')
      | Gt => let '(old, m') := bmap_insert key value m' in (old, (k, v) :: m')
      end
  end.
Definition quoted (s : str) : str := lit "`" ++ s ++ lit "`".
Definition env_condition (f : EnvFacts) (c : Condition.t) : str + EnvFacts :=
  let '(mkEnvFacts required required_present forbidden_present forbidden_values) := f in
  match c with
  | Condition.EnvPresent name =>
      inr (mkEnvFacts required (bset_insert name required_present) forbidden_present forbidden_values)
  | Condition.EnvEquals name value =>
      let '(old, required) := bmap_insert name value required in
      let facts := mkEnvFacts required (bset_insert name required_present) forbidden_present forbidden_values in
      match old with
      | Some previous =>
          if negb (previous =s? value) then
            inl (lit "environment variable " ++ quoted name ++ lit " is required to equal both " ++ quoted previous ++
                 lit " and " ++ quoted value)
          else inr facts
      | None => inr facts
      end
  | Condition.Not (Condition.EnvPresent name) =>
      inr (mkEnvFacts required required_present (bset_insert name forbidden_present) forbidden_values)
  | Condition.Not (Condition.EnvEquals name value) =>
      inr (mkEnvFacts required required_present forbidden_present ((name, value) :: forbidden_values))
  | _ => inr f
  end.
Fixpoint env_conditions (f : EnvFacts) (cs : list Condition.t) : str + EnvFacts :=
  match cs with
  | [] => inr f
  | c :: cs' => match env_condition f c with inl message => inl message | inr f => env_conditions f cs' end
  end.
Definition environment_contradiction (conjunction : list Condition.t) : option str :=
  match env_conditions (mkEnvFacts [] [] [] []) conjunction with
  | inl message => Some message
  | inr f =>
      match find (fun name => list_mem name (ef_forbidden_present f)) (ef_required_present f) with
      | Some name => Some (lit "environment variable " ++ quoted name ++ lit " is required to be both present and absent")
      | None =>
          match find (fun entry => bool_decide (entry ∈ ef_forbidden_values f)) (ef_required f) with
          | Some (name, value) =>
              Some (lit "environment variable " ++ quoted name ++ lit " is required to equal and not equal " ++ quoted value)
          | None => None
          end
      end
  end.
Definition unsatisfiable_conditions (conditions : list Condition.t) : option str :=
  if existsb (fun c => bool_decide (constant_truth c = ConstFalse)) conditions then
    Some (lit "a constant chance/boolean condition can never match")
  else
    let conjunction := flat_map flatten_conjunction conditions in
    if constraints_are_empty required_methods conjunction then
      Some (lit "method constraints have no value in common")
    else if constraints_are_empty required_statuses conjunction then
      Some (lit "response-status constraints have no value in common")
    else environment_contradiction conjunction.

(** The findings of one rule, in the order of the source. *)
Definition rule_findings (rule : Rule) : list SemanticLintFinding :=
  let effective := effective_actions rule in
  let names := join (lit ", ") in
  let duplicates := duplicate_single_families effective in
  let phase_families := request_actions_requiring_response rule effective in
  let skipped := actions_after_skip rule in
  let terminal := terminal_families effective in
  let response := response_actions_with_local_response effective terminal in
  let bodyless := body_actions_with_bodyless_status effective in
  let when (reported : bool) kind message families := if reported then [finding rule kind message families] else [] in
  when (negb (is_emptyb duplicates)) SemanticLintKind.DuplicateSingleFamily
    (lit "later actions can never win single-action families: " ++ names duplicates) duplicates ++
  match unsatisfiable_conditions (r_conditions rule) with
  | Some message => [finding rule SemanticLintKind.UnsatisfiableConditions message []]
  | None => []
  end ++
  when (negb (is_emptyb phase_families)) SemanticLintKind.RequestActionRequiresResponse
    (lit "request-only actions cannot run after the required response metadata exists: " ++ names phase_families)
    phase_families ++
  when (negb (is_emptyb skipped)) SemanticLintKind.ActionAfterSkip
    (lit "earlier skip actions suppress later families in this rule: " ++ names skipped) skipped ++
  when (1 <? length terminal)%nat SemanticLintKind.ConflictingTerminalActions
    (lit "only one local response can be sent; precedence is status, then redirect, then mock: " ++ names terminal) terminal ++
  when (negb (is_emptyb response)) SemanticLintKind.ResponseActionWithLocalResponse
    (lit "local response action " ++ names terminal ++ lit " bypasses response-phase actions: " ++ names response) response ++
  when (has_effective_family effective ActionFamily.Direct && has_effective_family effective ActionFamily.Upstream)
    SemanticLintKind.UpstreamOverriddenByDirect
    (lit "direct routing always overrides the upstream action in this rule") [lit "upstream"; lit "direct"] ++
  when (negb (is_emptyb bodyless)) SemanticLintKind.BodyActionWithBodylessStatus
    (lit "res.status(204/205/304) suppresses response content actions: " ++ names (drop 1 bodyless)) bodyless.

(** The findings that fit, and whether all do. *)
Fixpoint take_findings (kept : list SemanticLintFinding) (bytes : N) (all : list SemanticLintFinding) : SemanticLintReport :=
  match all with
  | [] => mkSemanticLintReport kept true
  | f :: rest =>
      let size := semantic_finding_bytes f in
      if (N.of_nat (length kept) =? MAX_RULE_LINT_FINDINGS) || exceeds bytes size MAX_RULE_LINT_REPORT_BYTES
      then mkSemanticLintReport kept false
      else take_findings (kept ++ [f]) (bytes + size) rest
  end.
Definition semantic_lint_report (rs : RuleSet) : SemanticLintReport :=
  take_findings [] 0 (flat_map rule_findings (List.filter (fun rule => negb (r_disabled rule)) (rs_rules rs))).
