(* ===== verification/ParseWf.v ===== *)
(** * What the parser guarantees of a rule

    Matchers and conditions that parse have compiled expressions that stem from
    their patterns, globs that were validated, and texts no longer than the
    line they come from. *)
From Stdlib Require Import Ascii String.
From stdpp Require Import base numbers list gmap strings.
From S2P Require Import Prelude Family Utf8 Format NetAddr Model Url Syntax Engines Matching Evaluate Index.
From S2P Require Import Resolve Reference Refinement ParseOps ParseMatch Values ParseRule.
Import Syntax.

(** ** Byte lengths *)

Lemma char_len_pos c : 1 <= char_len_utf8 c.
Proof. unfold char_len_utf8. repeat case_match; lia. Qed.
Lemma len_sublist (a b : str) : a `sublist_of` b -> len a <= len b.
Proof. induction 1; cbn [len]; [done|lia|lia]. Qed.
Lemma trim_matches_sublist P (s : str) : trim_matches P s `sublist_of` s.
Proof. destruct (trim_matches_infix P s) as (a & b & E). rewrite E at 2. apply sublist_inserts_l, sublist_inserts_r, reflexivity. Qed.
Lemma trim_sublist (s : str) : trim s `sublist_of` s.
Proof. apply trim_matches_sublist. Qed.

Lemma len_unescape escaped s : len (unescape escaped s) <= len s.
Proof.
  revert escaped. induction s as [|c s IH]; intros escaped; [done|]. cbn [unescape len].
  pose proof (IH true). pose proof (IH false). pose proof (char_len_pos c).
  destruct escaped; [|case_match; cbn [len]; lia]. cbn [len].
  assert (char_len_utf8 10 = 1 /\ char_len_utf8 13 = 1 /\ char_len_utf8 9 = 1) as (? & ? & ?) by done.
  repeat case_match; lia.
Qed.
Lemma removelast_sublist (s : str) : removelast s `sublist_of` s.
Proof.
  induction s as [|c s IH]; [done|]. cbn [removelast]. destruct s; [apply sublist_nil_l|by apply sublist_skip].
Qed.
Lemma len_unquote s : len (unquote s) <= len s.
Proof.
  unfold unquote. pose proof (len_sublist _ _ (trim_sublist s)). case_match; [done|].
  etransitivity; [apply len_unescape|]. etransitivity; [|exact H].
  apply len_sublist. etransitivity; [apply removelast_sublist|apply sublist_drop].
Qed.

(** The tokens of a text together are no longer than the text. *)
Definition tokens_within (st : LexState) (n : N) : Prop :=
  Forall (fun t => len (tk_text t) <= n) (lx_tokens st) /\ len (lx_current st) <= n.
Lemma lex_flush_within st index n : tokens_within st n -> Forall (fun t => len (tk_text t) <= n) (lex_flush st index).
Proof. intros [H1 H2]. unfold lex_flush. case_match; [done|]. apply Forall_app; split; [done|]. by repeat constructor. Qed.
Lemma tokens_within_mono st n m : tokens_within st n -> n <= m -> tokens_within st m.
Proof. intros [H1 H2] Hnm. split; [|lia]. eapply Forall_impl; [exact H1|]. cbn. intros. lia. Qed.
Lemma lex_push_within st c p q e n :
  tokens_within st n -> tokens_within (lex_push st c p q e) (n + char_len_utf8 c).
Proof.
  intros [H1 H2]. split; cbn.
  - eapply Forall_impl; [exact H1|]. cbn. intros. lia.
  - rewrite len_app. cbn. lia.
Qed.
Lemma lex_char_within st index c st' n :
  tokens_within st n -> lex_char st index c = Ok st' -> tokens_within st' (n + char_len_utf8 c).
Proof.
  intros H Hc. unfold lex_char in Hc.
  match type of Hc with context [if ?b then mkLexState ?a ?b' ?c' ?d ?e ?f else st] =>
    set (st0 := if b then mkLexState a b' c' d e f else st) in Hc; assert (H0 : tokens_within st0 n) by
      (subst st0; destruct b; done) end.
  clearbody st0. repeat case_in Hc; simplify_eq/=; try by apply lex_push_within.
  apply (tokens_within_mono _ n); [|lia]. split; cbn; [by apply lex_flush_within|lia].
Qed.
Lemma tokenize_within input tokens : tokenize input = Ok tokens -> Forall (fun t => len (tk_text t) <= len input) tokens.
Proof.
  unfold tokenize. intros H. bind_in H.
  assert (Hl : forall input st index st' index' n, tokens_within st n -> lex_loop st index input = Ok (st', index') ->
            tokens_within st' (n + len input)).
  { clear. induction input as [|c input IH]; intros st index st' index' n Hn; cbn [lex_loop len].
    - intros [= <- <-]. by rewrite N.add_0_r.
    - intros H. bind_in H. rewrite N.add_assoc. eapply IH; [|exact H]. by eapply lex_char_within. }
  apply lex_flush_within. eapply (Hl _ lex_start 0 _ _ 0); [|eassumption]. by split.
Qed.

(** The same for the arguments of a call. *)
Definition args_within (st : ArgState) (n : N) : Prop :=
  Forall (fun a => len a <= n) (ag_args st) /\ len (ag_current st) <= n.
Lemma push_argument_within args a message args' n :
  Forall (fun a => len a <= n) args -> len a <= n -> push_argument args a message = Ok args' ->
  Forall (fun a => len a <= n) args'.
Proof. intros H1 H2 H. unfold push_argument in H. repeat case_in H; simplify_eq. apply Forall_app; split; [done|]. by constructor. Qed.
Lemma arg_push_within st c r e q a b k p n :
  args_within st n -> args_within (arg_push st c r e q a b k p) (n + char_len_utf8 c).
Proof.
  intros [H1 H2]. split; cbn.
  - eapply Forall_impl; [exact H1|]. cbn. intros. lia.
  - rewrite len_app. cbn. lia.
Qed.
Lemma arg_char_within st c rest st' n :
  args_within st n -> arg_char st c rest = Ok st' -> args_within st' (n + char_len_utf8 c).
Proof.
  intros H Hc. unfold arg_char, arg_nest in Hc. destruct st as [args current last regex escaped quote an br bk pa].
  repeat (case_in Hc; simplify_eq; try by apply arg_push_within); bind_in Hc; try by apply arg_push_within.
  destruct H as [H1 H2]. cbn in H1, H2. split; cbn; [|lia]. eapply push_argument_within; [| |eassumption].
  - eapply Forall_impl; [exact H1|]. cbn. intros. lia.
  - etransitivity; [apply len_trim|]. lia.
Qed.
Lemma arg_loop_within input st st' n :
  args_within st n -> arg_loop st input = Ok st' -> args_within st' (n + len input).
Proof.
  revert st n. induction input as [|c input IH]; intros st n Hn; cbn [arg_loop len].
  - intros [= <-]. by rewrite N.add_0_r.
  - intros H. bind_in H. rewrite N.add_assoc. eapply IH; [|exact H]. by eapply arg_char_within.
Qed.
Lemma split_args_within input args : split_args input = Ok args -> Forall (fun a => len a <= len input) args.
Proof.
  unfold split_args. intros H. case_in H; [by simplify_eq|].
  destruct (arg_loop arg_start input) as [st|] eqn:El; [|done]. cbn [mbind result_bind] in H.
  apply (arg_loop_within _ _ _ 0) in El as [H1 H2]; [|by split]. repeat case_in H; simplify_eq.
  eapply push_argument_within; [done| |exact H]. etransitivity; [apply len_trim|done].
Qed.
Lemma parse_call_within input name args :
  parse_call input = Ok (name, args) -> Forall (fun a => len a <= len input) args.
Proof.
  unfold parse_call. destruct (split_once _ _) as [[name' rest]|] eqn:E1; [|done].
  destruct (strip_suffix _ _) as [body|] eqn:E2; [|done]. intros H. bind_in H.
  apply split_once_Some in E1 as ->. apply strip_suffix_Some in E2 as ->.
  eapply Forall_impl; [by apply split_args_within|]. cbv beta. intros a Ha. rewrite !len_app. lia.
Qed.
Lemma require_one_within args action a n :
  Forall (fun a => len a <= n) args -> require_one args action = Ok a -> len a <= n.
Proof.
  intros H. unfold require_one. destruct args as [|b [|]]; try done. case_match; [done|]. intros [= <-].
  inversion_clear H. etransitivity; [apply len_trim|done].
Qed.

Lemma len_strip_char c s : len (unwrap_or (strip_char c s) s) <= len s.
Proof.
  unfold strip_char. destruct (strip_prefix [c] s) as [r|] eqn:E; cbn [unwrap_or]; [|done].
  apply strip_prefix_Some in E as ->. rewrite len_app. lia.
Qed.

Section Parsed.
Context {PE : PatternEngines}.

(** ** Matchers *)

Lemma validate_glob_pattern_compiles p sep context u : validate_glob_pattern p sep context = Ok u -> compiles (p, sep).
Proof. unfold validate_glob_pattern, compiles. cbn. repeat case_match; try done; intros; by eexists. Qed.
Lemma parse_regex_matcher_wf input rm : parse_regex_matcher input = Ok rm -> regex_matcher_wf rm.
Proof.
  unfold parse_regex_matcher. destruct (regex_literal input) as [[pattern flags]|]; [|done]. cbn [mbind result_bind ok_or].
  intros H. repeat case_in H; simplify_eq; unfold regex_matcher_wf; cbn; done.
Qed.
Lemma validate_optional_compiles p sep context u :
  validate_optional p sep context = Ok u -> match p with Some p => compiles (p, sep) | None => True end.
Proof. destruct p; [apply validate_glob_pattern_compiles|done]. Qed.
Lemma trim_start_matches_lower P s :
  (forall c, P (lower c) = P c) -> trim_start_matches P (to_ascii_lowercase s) = to_ascii_lowercase (trim_start_matches P s).
Proof. intros H. induction s as [|c s IH]; [done|]. cbn. rewrite H. by destruct (P c). Qed.
Lemma trim_matches_lower P s :
  (forall c, P (lower c) = P c) -> trim_matches P (to_ascii_lowercase s) = to_ascii_lowercase (trim_matches P s).
Proof.
  intros H. unfold trim_matches, trim_end_matches. rewrite trim_start_matches_lower by done. unfold to_ascii_lowercase.
  rewrite <- map_rev. fold (to_ascii_lowercase (rev (trim_start_matches P s))). rewrite trim_start_matches_lower by done.
  unfold to_ascii_lowercase. by rewrite map_rev.
Qed.
Lemma normalize_host_idem h : normalize_host (normalize_host h) = normalize_host h.
Proof.
  unfold normalize_host. rewrite trim_matches_lower by apply is_bracket_lower.
  by rewrite trim_matches_idem, to_ascii_lowercase_idem.
Qed.
Lemma parse_glob_matcher_parsed input glob :
  parse_glob_matcher input = Ok glob ->
  Forall compiles (matcher_globs (Matcher.Glob glob)) /\ normalize_host (gm_host glob) = gm_host glob.
Proof.
  unfold parse_glob_matcher.
  match goal with |- (?x ≫= _) = _ -> _ => destruct x as [[scheme rest]|]; [|done] end. cbn [mbind result_bind].
  destruct (match split_at_char _ rest with Some _ => _ | None => _ end) as [before query].
  destruct (match find_split _ before with Some _ => _ | None => _ end) as [host_port path].
  case_match; [done|]. destruct (parse_glob_authority host_port) as [[host port]|]; [|done]. cbn [mbind result_bind].
  case_match; [done|].
  destruct (validate_glob_pattern _ _ _) eqn:E1; [|done]. destruct (validate_optional port _ _) eqn:E2; [|done].
  destruct (validate_optional path _ _) eqn:E3; [|done]. destruct (validate_optional query _ _) eqn:E4; [|done].
  intros [= <-]. split; [|apply normalize_host_idem]. apply validate_glob_pattern_compiles in E1.
  apply validate_optional_compiles in E2, E3, E4. cbn [matcher_globs gm_host gm_port gm_path gm_query].
  rewrite !Forall_app. repeat split; repeat case_match; repeat constructor; done.
Qed.

Definition matcher_parsed (m : Matcher.t) : Prop :=
  Forall compiles (matcher_globs m) /\
  match m with
  | Matcher.Regex rm => regex_matcher_wf rm
  | Matcher.Glob glob => normalize_host (gm_host glob) = gm_host glob
  | _ => True
  end.
Lemma parse_plain_matcher_parsed input m : parse_plain_matcher input = Ok m -> matcher_parsed m.
Proof.
  unfold parse_plain_matcher. intros H. bind_in H; (split; [try by constructor|try done]).
  - by eapply parse_regex_matcher_wf.
  - by eapply parse_glob_matcher_parsed.
  - by eapply parse_glob_matcher_parsed.
Qed.
Lemma parse_matcher_at_depth_parsed input depth m : parse_matcher_at_depth depth input = Ok m -> matcher_parsed m.
Proof.
  revert depth m. induction input as [|c input IH]; intros depth m; cbn [parse_matcher_at_depth];
    (destruct (_ <? depth); [done|]); [apply parse_plain_matcher_parsed|].
  case_match; [|apply parse_plain_matcher_parsed].
  intros H0. bind_in H0. destruct (IH _ _ E) as [H1 _]. by split.
Qed.

(** ** Conditions *)

(** What holds of one condition node of a text of at most [n] bytes. *)
Definition node_parsed (n : N) (c : Condition.t) : Prop :=
  match c with
  | Condition.Method methods => Forall (fun m => to_ascii_uppercase m = m) methods
  | Condition.Host p => compiles (p, ch ".")
  | Condition.Url (UrlCondition.Glob p) => compiles (p, 0)
  | Condition.Url (UrlCondition.Regex rm) | Condition.BodyRegex rm => regex_matcher_wf rm
  | Condition.ClientIp ps | Condition.ServerIp ps => Forall (fun p => compiles (p, 0)) ps
  | Condition.BodyContains l => len l <= n
  | _ => True
  end.
Definition condition_parsed (n : N) (c : Condition.t) : Prop := Forall (node_parsed n) (Condition.nodes c).

Lemma node_parsed_mono n m c : n <= m -> node_parsed n c -> node_parsed m c.
Proof. intros H. destruct c; cbn; try done. lia. Qed.
Lemma condition_parsed_mono n m c : n <= m -> condition_parsed n c -> condition_parsed m c.
Proof. intros H Hc. eapply Forall_impl; [exact Hc|]. intros. by eapply node_parsed_mono. Qed.

Lemma collect_Ok {A B} (f : A -> Parsed B) l ys : collect f l = Ok ys -> Forall2 (fun x y => f x = Ok y) l ys.
Proof.
  revert ys. induction l as [|x l IH]; intros ys H; cbn [collect] in H; [by simplify_eq|].
  bind_in H. constructor; [done|by apply IH].
Qed.
Lemma collect_Forall {A B} (f : A -> Parsed B) (P : A -> Prop) (Q : B -> Prop) l ys :
  (forall x y, P x -> f x = Ok y -> Q y) -> Forall P l -> collect f l = Ok ys -> Forall Q ys.
Proof.
  intros Hf Hl H%collect_Ok. induction H as [|x y l ys Hxy _ IH]; [done|]. inversion_clear Hl.
  constructor; [by eapply Hf|by apply IH].
Qed.
Lemma to_ascii_uppercase_idem s : to_ascii_uppercase (to_ascii_uppercase s) = to_ascii_uppercase s.
Proof.
  unfold to_ascii_uppercase. rewrite map_map. apply map_ext. intros c. unfold upper, is_ascii_lowercase.
  destruct (in_range _ _ c) eqn:E; [|by rewrite E]. apply in_range_spec in E.
  rewrite (proj2 (in_range_false _ _ _)); [done|]. change (ch "a") with 97 in *. change (ch "z") with 122 in *. lia.
Qed.
Lemma parse_method_condition_upper args methods :
  parse_method_condition args = Ok methods -> Forall (fun m => to_ascii_uppercase m = m) methods.
Proof.
  unfold parse_method_condition. case_match; [done|]. apply (collect_Forall _ (fun _ => True)); [|by apply Forall_true].
  intros x y _. unfold parse_method. case_match; [done|]. intros [= <-]. apply to_ascii_uppercase_idem.
Qed.
Lemma parse_ip_patterns_compile args name ps :
  parse_ip_patterns args name = Ok ps -> Forall (fun p => compiles (p, 0)) ps.
Proof.
  unfold parse_ip_patterns. case_match; [done|]. apply (collect_Forall _ (fun _ => True)); [|by apply Forall_true].
  intros x y _. unfold parse_ip_pattern. case_match; [done|]. intros H1. bind_in H1.
  by eapply validate_glob_pattern_compiles.
Qed.
Lemma parse_url_condition_parsed n arg u : parse_url_condition arg = Ok u -> node_parsed n (Condition.Url u).
Proof.
  unfold parse_url_condition. intros H. bind_in H.
  - by eapply parse_regex_matcher_wf.
  - by eapply validate_glob_pattern_compiles.
Qed.
Lemma parse_body_condition_parsed n arg c :
  len arg <= n -> parse_body_condition arg = Ok c -> condition_parsed n c.
Proof.
  intros Hn. unfold parse_body_condition. intros H. bind_in H; (constructor; [cbn [node_parsed]|by constructor]).
  - by eapply parse_regex_matcher_wf.
  - etransitivity; [apply len_unquote|]. etransitivity; [apply len_trim|].
    etransitivity; [|exact Hn]. etransitivity; [|apply (len_trim arg)].
    apply len_strip_char.
Qed.

Lemma parse_header_condition_parsed n arg response c :
  parse_header_condition arg response = Ok c -> condition_parsed n c.
Proof. unfold parse_header_condition. intros H. bind_in H; destruct response; by repeat constructor. Qed.
Lemma parse_chance_parsed n arg c : parse_chance arg = Ok c -> condition_parsed n c.
Proof. unfold parse_chance. intros H. bind_in H. by repeat constructor. Qed.
Lemma parse_env_parsed n arg c : parse_env arg = Ok c -> condition_parsed n c.
Proof. unfold parse_env. intros H. bind_in H; by repeat constructor. Qed.

Lemma parse_leaf_parsed n name args c :
  Forall (fun a => len a <= n) args -> parse_leaf name args = Some (Ok c) -> condition_parsed n c.
Proof.
  intros Hn. unfold parse_leaf. set (one := require_one args name).
  assert (Hone : forall a, one = Ok a -> len a <= n) by (intros a; by apply require_one_within). clearbody one.
  intros H. repeat (case_in H; [|try done]); injection H as H; bind_in H.
  - constructor; [by eapply parse_method_condition_upper|by constructor].
  - repeat constructor. by eapply validate_glob_pattern_compiles.
  - constructor; [by eapply parse_url_condition_parsed|by constructor].
  - constructor; [by eapply parse_ip_patterns_compile|by constructor].
  - constructor; [by eapply parse_ip_patterns_compile|by constructor].
  - by eapply parse_header_condition_parsed.
  - by eapply parse_header_condition_parsed.
  - eapply parse_body_condition_parsed; [|done]. by apply Hone.
  - by repeat constructor.
  - by eapply parse_chance_parsed.
  - by eapply parse_env_parsed.
Qed.

Lemma condition_parsed_children n cs : Forall (condition_parsed n) cs -> Forall (node_parsed n) (flat_map Condition.nodes cs).
Proof. induction 1; cbn [flat_map]; [done|]. by apply Forall_app. Qed.
Lemma parse_condition_levels_parsed levels profile input c :
  parse_condition_levels levels profile input = Ok c -> condition_parsed (len input) c.
Proof.
  revert input c. induction levels as [|levels IH]; intros input c; cbn [parse_condition_levels]; [done|].
  destruct (strip_char _ input) as [rest|] eqn:Es.
  { assert (len rest <= len input) by (apply strip_prefix_Some in Es as ->; rewrite len_app; lia).
    intros H'. bind_in H'. constructor; [done|]. eapply condition_parsed_mono; [|by apply IH]. done. }
  destruct (parse_call input) as [[name args]|] eqn:Ec; [|done]. cbn [mbind result_bind].
  apply parse_call_within in Ec. destruct (condition_name profile name) as [name'|]; [|done].
  destruct (parse_leaf name' args) as [r|] eqn:El; [intros ->; by eapply parse_leaf_parsed|].
  assert (Hc : forall a c, len a <= len input -> parse_condition_levels levels profile (trim a) = Ok c ->
                 condition_parsed (len input) c).
  { intros a c' Ha Hp. eapply condition_parsed_mono; [|by apply IH]. etransitivity; [apply len_trim|done]. }
  intros H. repeat case_in H; try done; bind_in H; (constructor; [done|]); cbn [Condition.nodes].
  - apply condition_parsed_children. eapply collect_Forall; [exact Hc|exact Ec|done].
  - apply condition_parsed_children. eapply collect_Forall; [exact Hc|exact Ec|done].
  - eapply condition_parsed_mono; [|by apply IH]. by eapply require_one_within.
Qed.

(** ** Rules *)

Definition rule_parsed (n : N) (rule : Rule) : Prop :=
  matcher_parsed (r_matcher rule) /\ Forall (condition_parsed n) (r_conditions rule).

Lemma add_condition_spec parts profile token parts' :
  add_condition parts profile token = Ok parts' ->
  exists c, parse_condition (tk_text token) profile = Ok c /\ rp_conditions parts' = rp_conditions parts ++ [c].
Proof.
  unfold add_condition. destruct (parse_condition _ _) as [c|e] eqn:E; [|done]. cbn [map_err mbind result_bind].
  case_match; [done|]. intros [= <-]. by exists c.
Qed.
Lemma add_property_conditions parts token parts' :
  add_property parts token = Ok parts' -> rp_conditions parts' = rp_conditions parts.
Proof.
  unfold add_property. destruct parts. case_match; [done|]. destruct (canonical_property _) as [[name suffix]|]; [|done].
  repeat case_match; intros; by simplify_eq.
Qed.
Lemma add_action_conditions first parts profile token parts' :
  add_action first parts profile token = Ok parts' -> rp_conditions parts' = rp_conditions parts.
Proof.
  unfold add_action. case_match; [done|]. destruct (parse_action _ _ _); [|done]. cbn [map_err mbind result_bind].
  by intros [= <-].
Qed.
Lemma parse_parts_parsed n first profile tokens parts parts' :
  Forall (fun t => len (tk_text t) <= n) tokens -> Forall (condition_parsed n) (rp_conditions parts) ->
  parse_parts first profile parts tokens = Ok parts' -> Forall (condition_parsed n) (rp_conditions parts').
Proof.
  remember (length tokens) as k eqn:Ek. revert tokens parts Ek.
  induction k as [k IH] using lt_wf_ind; intros tokens parts -> Ht Hp; destruct tokens as [|t tokens]; cbn [parse_parts].
  { by intros [= <-]. }
  inversion_clear Ht as [|? ? Ht1 Ht2]. case_match; [|case_match].
  - destruct tokens as [|t' tokens]; [done|]. inversion_clear Ht2 as [|? ? Ht3 Ht4].
    destruct (add_condition _ _ _) as [parts1|] eqn:E; [|done]. cbn [mbind result_bind].
    apply add_condition_spec in E as (c & Hc & E). eapply IH; [|done|done|]; [cbn; lia|]. rewrite E. apply Forall_app.
    split; [done|]. constructor; [|done]. eapply condition_parsed_mono; [|by eapply parse_condition_levels_parsed]. done.
  - destruct (add_property _ _) as [parts1|] eqn:E; [|done]. cbn [mbind result_bind].
    apply add_property_conditions in E. eapply IH; [|done|done|by rewrite E]. cbn; lia.
  - destruct (add_action _ _ _ _) as [parts1|] eqn:E; [|done]. cbn [mbind result_bind].
    apply add_action_conditions in E. eapply IH; [|done|done|by rewrite E]. cbn; lia.
Qed.
Lemma parse_rule_parsed first group line input profile rule :
  parse_rule first group line input profile = Ok rule -> rule_parsed (len input) rule.
Proof.
  unfold parse_rule. destruct (tokenize input) as [tokens|] eqn:Et; [|done]. cbn [map_err mbind result_bind].
  apply tokenize_within in Et. destruct tokens as [|token rest]; [done|]. inversion_clear Et as [|? ? _ Hr].
  destruct (parse_matcher _) as [m|] eqn:Em; [|done]. cbn [map_err mbind result_bind].
  destruct (parse_parts _ _ _ _) as [parts|] eqn:Ep; [|done]. cbn [mbind result_bind]. case_match; [done|].
  intros [= <-]. split; cbn.
  - by eapply parse_matcher_at_depth_parsed.
  - eapply parse_parts_parsed; [exact Hr| |exact Ep]. by constructor.
Qed.
Lemma rule_parsed_wf n rule : rule_parsed n rule -> rule_wf rule.
Proof. intros [[_ H] _]. unfold rule_wf. by destruct (r_matcher rule). Qed.
End Parsed.
