(* ===== verification/ParseProofs.v ===== *)
(** * Rule sources mean their lines

    What a rule source is accepted as, read off its lines at once, and that the
    parser's loops with their budgets and diagnostics accept exactly that. *)
From Stdlib Require Import Ascii String.
From stdpp Require Import base numbers list gmap strings.
From S2P Require Import Prelude Family Utf8 Format NetAddr Model Url Syntax Engines Matching Evaluate Index.
From S2P Require Import Resolve Reference Refinement ParseOps ParseMatch Values ParseRule ParseWf.
Import Syntax.

Section Source.
Context {PE : PatternEngines}.

(** ** The reference *)

(** The effective lines of a text: number and text without comment. *)
Fixpoint effective_lines (no : N) (raw_lines : list str) : list (N * str) :=
  match raw_lines with
  | [] => []
  | raw :: rest =>
      match strip_comment raw with
      | Some line => (no, trim line) :: effective_lines (no + 1) rest
      | None => effective_lines (no + 1) rest
      end
  end.
(** One rule line of a source. *)
Record Entry := mkEntry { en_group : str; en_line : N; en_text : str; en_profile : SyntaxProfile }.
Definition entries (group : str) (profile : SyntaxProfile) (ls : list (N * str)) : option (list Entry) :=
  if existsb (fun l => is_language_directive (snd l)) ls then None
  else Some (map (fun l => mkEntry group (fst l) (snd l) profile) ls).
(** The rule lines of a group; [None] when a line is too long or a language
    directive is missing, unknown or misplaced. *)
Definition text_entries (require_header : bool) (group : str) (no : N) (raw_lines : list str) : option (list Entry) :=
  if existsb (fun raw => MAX_RULE_SOURCE_LINE_BYTES <? len raw) raw_lines then None
  else
    match effective_lines no raw_lines with
    | [] => Some []
    | (no, line) :: rest =>
        if line =s? RULE_LANGUAGE_HEADER then entries group CanonicalV3 rest
        else if require_header then None
        else entries group Compatible ((no, line) :: rest)
    end.
Definition group_entries (require_header : bool) (group : str * str) : option (list Entry) :=
  if negb (is_emptyb (fst group)) && (len (fst group) <=? MAX_RULE_GROUP_NAME_BYTES)
  then text_entries require_header (fst group) 1 (lines (snd group))
  else None.
Definition source_bytes (groups : list (str * str)) : N := sum_N (map (fun g => len (snd g)) groups).
Definition source_entries (require_header : bool) (groups : list (str * str)) : option (list Entry) :=
  if (N.of_nat (length groups) <=? MAX_RULE_GROUPS_PER_SNAPSHOT) &&
     (source_bytes groups <=? MAX_RULE_SNAPSHOT_SOURCE_BYTES)
  then ls ← mapM (group_entries require_header) groups; Some (concat ls)
  else None.
(** The rules of the entries, behind the rules there are. *)
Fixpoint parse_entries (rules : list Rule) (es : list Entry) : option (list Rule) :=
  match es with
  | [] => Some rules
  | e :: es' =>
      match parse_rule (N.of_nat (length rules) * MAX_RULE_ACTIONS_PER_RULE) (en_group e) (en_line e) (en_text e)
              (en_profile e) with
      | Ok rule => parse_entries (rules ++ [rule]) es'
      | Err _ => None
      end
  end.
Definition rules_actions (rules : list Rule) : N := sum_N (map (fun r => N.of_nat (length (r_actions r))) rules).
Definition rules_conditions (count : Condition.t -> N) (rules : list Rule) : N :=
  sum_N (map (fun r => sum_N (map count (r_conditions r))) rules).
Definition within_limits (rules : list Rule) : bool :=
  (N.of_nat (length rules) <=? MAX_RULES_PER_SNAPSHOT) &&
  (rules_actions rules <=? MAX_RULE_ACTIONS_PER_SNAPSHOT) &&
  (rules_conditions condition_node_count rules <=? MAX_RULE_CONDITION_NODES_PER_SNAPSHOT) &&
  (rules_conditions body_condition_count rules <=? MAX_RULE_BODY_CONDITIONS_PER_SNAPSHOT).
Definition reference_source (require_header : bool) (groups : list (str * str)) : option (list Rule) :=
  es ← source_entries require_header groups;
  rules ← parse_entries [] es;
  if within_limits rules then Some rules else None.

(** ** One line *)

(** The state of the loops after [rules] without a diagnostic. *)
Definition snapshot_of (rules : list Rule) (bytes : N) : Snapshot :=
  mkSnapshot rules [] bytes (N.of_nat (length rules)) (rules_actions rules)
    (rules_conditions condition_node_count rules) (rules_conditions body_condition_count rules).

Lemma push_parse_diagnostic_nonempty errors e : fst (push_parse_diagnostic errors e) <> [].
Proof.
  unfold push_parse_diagnostic. repeat case_match; cbn; try by destruct errors.
Qed.
Lemma diagnose_nonempty s e : sn_errors (fst (diagnose s e)) <> [].
Proof.
  unfold diagnose. pose proof (push_parse_diagnostic_nonempty (sn_errors s) e).
  by destruct (push_parse_diagnostic _ _).
Qed.
Lemma diagnose_and_nonempty flow s e : sn_errors (fst (diagnose_and flow s e)) <> [].
Proof. apply push_parse_diagnostic_nonempty. Qed.

Lemma rules_actions_snoc rules rule : rules_actions (rules ++ [rule]) = rules_actions rules + N.of_nat (length (r_actions rule)).
Proof. unfold rules_actions. rewrite map_app, sum_N_app. cbn. lia. Qed.
Lemma rules_conditions_snoc count rules rule :
  rules_conditions count (rules ++ [rule]) = rules_conditions count rules + sum_N (map count (r_conditions rule)).
Proof. unfold rules_conditions. rewrite map_app, sum_N_app. cbn. lia. Qed.

Lemma publish_rule_spec rules bytes lines group no rule :
  within_limits rules = true -> N.of_nat (length rules) + 1 <= MAX_RULES_PER_SNAPSHOT ->
  let s := mkSnapshot rules [] bytes lines (rules_actions rules) (rules_conditions condition_node_count rules)
             (rules_conditions body_condition_count rules) in
  if within_limits (rules ++ [rule])
  then publish_rule s group no rule =
       (mkSnapshot (rules ++ [rule]) [] bytes lines (rules_actions (rules ++ [rule]))
          (rules_conditions condition_node_count (rules ++ [rule]))
          (rules_conditions body_condition_count (rules ++ [rule])), NextLine)
  else sn_errors (fst (publish_rule s group no rule)) <> [].
Proof.
  intros Hin Hlines. cbv zeta. unfold publish_rule, charge, within_limits in *.
  rewrite !rules_actions_snoc, !rules_conditions_snoc, length_app.
  set (a := rules_actions rules) in *. set (c := rules_conditions condition_node_count rules) in *.
  set (b := rules_conditions body_condition_count rules) in *. cbn [sn_actions sn_nodes sn_body].
  set (a' := N.of_nat (length (r_actions rule))). set (c' := sum_N (map condition_node_count _)).
  set (b' := sum_N (map body_condition_count _)). clearbody a b c a' b' c'. bool_to_prop. cbn [length].
  unfold saturating_add, USIZE_MAX, U64_MAX, MAX_RULE_ACTIONS_PER_SNAPSHOT, MAX_RULE_CONDITION_NODES_PER_SNAPSHOT,
    MAX_RULE_BODY_CONDITIONS_PER_SNAPSHOT, MAX_RULES_PER_SNAPSHOT in *.
  destruct (N.leb_spec (N.of_nat (length rules + 1)) 10000); [|lia].
  destruct (N.ltb_spec 100000 (N.min 18446744073709551615 (a + a'))), (N.leb_spec (a + a') 100000); try lia;
    [apply diagnose_and_nonempty|].
  destruct (N.ltb_spec 100000 (N.min 18446744073709551615 (c + c'))), (N.leb_spec (c + c') 100000); try lia;
    [apply diagnose_and_nonempty|].
  destruct (N.ltb_spec 256 (N.min 18446744073709551615 (b + b'))), (N.leb_spec (b + b') 256); try lia;
    [apply diagnose_and_nonempty|].
  cbn [andb sn_rules sn_errors sn_bytes sn_lines]. repeat f_equal; lia.
Qed.
Lemma parse_rule_line_spec rules bytes group no line profile :
  within_limits rules = true ->
  let step := parse_rule_line (snapshot_of rules bytes) group no line profile in
  match parse_rule (N.of_nat (length rules) * MAX_RULE_ACTIONS_PER_RULE) group no line profile with
  | Ok rule =>
      if within_limits (rules ++ [rule]) then step = (snapshot_of (rules ++ [rule]) bytes, NextLine)
      else sn_errors (fst step) <> []
  | Err _ => sn_errors (fst step) <> []
  end.
Proof.
  intros Hin. cbv zeta. unfold parse_rule_line. cbn [sn_lines snapshot_of].
  destruct (N.eqb_spec (N.of_nat (length rules)) MAX_RULES_PER_SNAPSHOT) as [E|Hne].
  - destruct (parse_rule _ _ _ _ _) as [rule|]; [|apply diagnose_and_nonempty].
    assert (within_limits (rules ++ [rule]) = false) as ->; [|apply diagnose_and_nonempty].
    unfold within_limits. rewrite length_app. cbn [length].
    by rewrite (proj2 (N.leb_gt _ _)) by (unfold MAX_RULES_PER_SNAPSHOT in *; lia).
  - destruct (parse_rule _ _ _ _ _) as [rule|]; [|apply diagnose_nonempty].
    assert (Hlt : N.of_nat (length rules) + 1 <= MAX_RULES_PER_SNAPSHOT).
    { unfold within_limits in Hin. bool_to_prop. lia. }
    pose proof (publish_rule_spec rules bytes (N.of_nat (length rules) + 1) group no rule Hin Hlt) as H.
    cbv zeta in H. destruct (within_limits (rules ++ [rule])); [|done].
    unfold snapshot_of. cbn [sn_rules sn_errors sn_bytes sn_actions sn_nodes sn_body]. rewrite H, length_app. cbn [length]. repeat f_equal. lia.
Qed.

(** ** The lines of a group *)

(** A property of the diagnostics that every further diagnostic keeps holds
    of the diagnostics of every further line. *)
Definition kept (P : list RuleError -> Prop) : Prop := forall errors e, P errors -> P (fst (push_parse_diagnostic errors e)).

Section Kept.
Context (P : list RuleError -> Prop) (HP : kept P).
Lemma diagnose_kept s e : P (sn_errors s) -> P (sn_errors (fst (diagnose s e))).
Proof. intros H. unfold diagnose. pose proof (HP _ e H). by destruct (push_parse_diagnostic _ _). Qed.
Lemma diagnose_and_kept flow s e : P (sn_errors s) -> P (sn_errors (fst (diagnose_and flow s e))).
Proof. intros H. by apply HP. Qed.
#[local] Hint Resolve diagnose_kept diagnose_and_kept : core.
Lemma with_profile {A B C} (x : A * B) (p : C) : fst (fst (let '(s, flow) := x in (s, p, flow))) = fst x.
Proof. by destruct x. Qed.
Lemma fst_let {A B C} (x : A * B) (f : B -> C) : fst (let '(s, flow) := x in (s, f flow)) = fst x.
Proof. by destruct x. Qed.

Lemma parse_rule_line_kept s group no line profile :
  P (sn_errors s) -> P (sn_errors (fst (parse_rule_line s group no line profile))).
Proof.
  intros H. unfold parse_rule_line. case_match; [by auto|]. case_match; [|by auto].
  unfold publish_rule, charge. cbn [sn_actions sn_nodes sn_body]. repeat (case_match; [by auto|]). done.
Qed.
#[local] Hint Resolve parse_rule_line_kept : core.
Lemma parse_line_kept h group s profile no raw :
  P (sn_errors s) -> P (sn_errors (fst (fst (parse_line h group s profile no raw)))).
Proof. intros H. unfold parse_line. repeat (case_match; rewrite ?with_profile; auto). Qed.
Lemma parse_lines_kept h group s profile no raws :
  P (sn_errors s) -> P (sn_errors (fst (parse_lines h group s profile no raws))).
Proof.
  revert s profile no. induction raws as [|raw raws IH]; intros s profile no H; cbn [parse_lines]; [done|].
  pose proof (parse_line_kept h group s profile no raw H) as Hl.
  destruct (parse_line _ _ _ _ _ _) as [[s' p'] []]; [by apply IH|done|done].
Qed.
#[local] Hint Resolve parse_lines_kept : core.
Lemma parse_group_kept h s index group text :
  P (sn_errors s) -> P (sn_errors (fst (parse_group h s index group text))).
Proof.
  intros H. unfold parse_group. case_match; [by apply diagnose_and_kept|]. case_match; [|by apply diagnose_and_kept].
  case_match; [|by apply diagnose_and_kept]. case_match; rewrite (fst_let _ (fun flow => match flow with EndAll => true | _ => false end)); auto.
Qed.
Lemma parse_all_groups_kept h groups s index :
  P (sn_errors s) -> P (sn_errors (parse_all_groups h s index groups)).
Proof.
  revert s index. induction groups as [|[group text] groups IH]; intros s index H; [done|]. cbn [parse_all_groups].
  pose proof (parse_group_kept h s index group text H) as Hg. destruct (parse_group _ _ _ _ _) as [s' []]; [done|by apply IH].
Qed.
End Kept.

(** Diagnostics stay, and there are never more than the limit. *)
Lemma kept_nonempty : kept (fun errors => errors <> []).
Proof. intros errors e _. apply push_parse_diagnostic_nonempty. Qed.
Lemma kept_bounded : kept (fun errors => (length errors <= MAX_RULE_DIAGNOSTICS)%nat).
Proof.
  intros errors e H. unfold push_parse_diagnostic. destruct (Nat.ltb_spec (length errors) (MAX_RULE_DIAGNOSTICS - 1)).
  - cbn [fst]. rewrite length_app. cbn [length]. lia.
  - destruct (Nat.ltb_spec (length errors) MAX_RULE_DIAGNOSTICS); [|done]. cbn [fst]. rewrite length_app. cbn [length]. lia.
Qed.
Lemma parse_lines_keeps h group s profile no raws :
  sn_errors s <> [] -> sn_errors (fst (parse_lines h group s profile no raws)) <> [].
Proof. apply (parse_lines_kept (fun errors => errors <> [])), kept_nonempty. Qed.

(** The loop ends with a diagnostic behind one that was just made. *)
Ltac diagnosed H :=
  match type of H with sn_errors (fst ?x) <> [] => destruct x as [? []] end; cbn [fst] in H; [by apply parse_lines_keeps|done|done].

(** The rules behind [rules] that the lines of one profile give. *)
Definition accept_lines (group : str) (profile : SyntaxProfile) (rules : list Rule) (no : N) (raws : list str)
    : option (list Rule) :=
  if existsb (fun raw => MAX_RULE_SOURCE_LINE_BYTES <? len raw) raws then None
  else
    es ← entries group profile (effective_lines no raws);
    rules ← parse_entries rules es;
    if within_limits rules then Some rules else None.

Lemma parse_entries_extends es rules rules' : parse_entries rules es = Some rules' -> rules `prefix_of` rules'.
Proof.
  revert rules. induction es as [|e es IH]; intros rules; cbn [parse_entries]; [by intros [= <-]|].
  case_match; [|done]. intros H1%IH. etransitivity; [|exact H1]. by apply prefix_app_r.
Qed.
Lemma within_limits_prefix rules rules' : rules `prefix_of` rules' -> within_limits rules' = true -> within_limits rules = true.
Proof.
  intros [more ->]. unfold within_limits, rules_actions, rules_conditions.
  rewrite length_app, !map_app, !sum_N_app. intros H. bool_to_prop. rewrite !andb_true_iff, !N.leb_le. lia.
Qed.
Lemma accept_lines_step group profile rules no raw raws :
  accept_lines group profile rules no (raw :: raws) =
  if MAX_RULE_SOURCE_LINE_BYTES <? len raw then None
  else
    match strip_comment raw with
    | None => accept_lines group profile rules (no + 1) raws
    | Some line =>
        if is_language_directive (trim line) then None
        else
          match parse_rule (N.of_nat (length rules) * MAX_RULE_ACTIONS_PER_RULE) group no (trim line) profile with
          | Ok rule =>
              if within_limits (rules ++ [rule]) then accept_lines group profile (rules ++ [rule]) (no + 1) raws else None
          | Err _ => None
          end
    end.
Proof.
  unfold accept_lines. cbn [existsb effective_lines]. destruct (_ <? len raw); [done|]. cbn [orb].
  destruct (strip_comment raw) as [line|]; [|done].
  destruct (existsb _ raws).
  { repeat case_match; done. }
  unfold entries. cbn [existsb snd]. destruct (is_language_directive (trim line)); [done|]. cbn [orb].
  destruct (existsb _ (effective_lines _ _)).
  { cbn. repeat case_match; done. }
  cbn [map mbind option_bind parse_entries en_group en_line en_text en_profile fst snd].
  case_match; [|done]. destruct (within_limits (rules ++ _)) eqn:Hw; [done|].
  match goal with |- (?x ≫= _) = _ => destruct x as [rules'|] eqn:E; [|done] end. cbn [mbind option_bind].
  destruct (within_limits rules') eqn:Hw'; [|done]. apply parse_entries_extends in E.
  by rewrite (within_limits_prefix _ _ E Hw') in Hw.
Qed.
Lemma parse_lines_in_profile h group profile bytes raws rules no :
  within_limits rules = true ->
  let result := parse_lines h group (snapshot_of rules bytes) (Some profile) no raws in
  match accept_lines group profile rules no raws with
  | Some rules' => result = (snapshot_of rules' bytes, NextLine) /\ within_limits rules' = true
  | None => sn_errors (fst result) <> []
  end.
Proof.
  cbv zeta. revert rules no. induction raws as [|raw raws IH]; intros rules no Hw.
  { unfold accept_lines. cbn. by rewrite Hw. }
  rewrite accept_lines_step. cbn [parse_lines]. unfold parse_line. destruct (_ <? len raw).
  { match goal with |- context [diagnose ?s ?e] => pose proof (diagnose_nonempty s e) as Hd end. diagnosed Hd. }
  destruct (strip_comment raw) as [line|]; [|by apply IH]. destruct (is_language_directive (trim line)).
  { match goal with |- context [diagnose ?s ?e] => pose proof (diagnose_nonempty s e) as Hd end. diagnosed Hd. }
  pose proof (parse_rule_line_spec rules bytes group no (trim line) profile Hw) as Hr. cbv zeta in Hr.
  destruct (parse_rule _ _ _ _ _) as [rule|]; [destruct (within_limits (rules ++ [rule])) eqn:Hw'|].
  - rewrite Hr. by apply IH.
  - diagnosed Hr.
  - diagnosed Hr.
Qed.

Definition accept_text (h : bool) (group : str) (rules : list Rule) (no : N) (raws : list str) : option (list Rule) :=
  es ← text_entries h group no raws;
  rules ← parse_entries rules es;
  if within_limits rules then Some rules else None.
Lemma accept_text_step h group rules no raw raws :
  accept_text h group rules no (raw :: raws) =
  if MAX_RULE_SOURCE_LINE_BYTES <? len raw then None
  else
    match strip_comment raw with
    | None => accept_text h group rules (no + 1) raws
    | Some line =>
        if trim line =s? RULE_LANGUAGE_HEADER then accept_lines group CanonicalV3 rules (no + 1) raws
        else if h then None
        else accept_lines group Compatible rules no (raw :: raws)
    end.
Proof.
  unfold accept_text, accept_lines, text_entries. cbn [existsb effective_lines]. destruct (_ <? len raw); [done|]. cbn [orb].
  destruct (strip_comment raw) as [line|]; [|done]. destruct (existsb _ raws); [by repeat case_match|].
  by repeat case_match.
Qed.
Lemma parse_lines_start h group bytes raws rules no :
  within_limits rules = true ->
  let result := parse_lines h group (snapshot_of rules bytes) None no raws in
  match accept_text h group rules no raws with
  | Some rules' => result = (snapshot_of rules' bytes, NextLine) /\ within_limits rules' = true
  | None => sn_errors (fst result) <> []
  end.
Proof.
  cbv zeta. revert rules no. induction raws as [|raw raws IH]; intros rules no Hw.
  { unfold accept_text. cbn. by rewrite Hw. }
  rewrite accept_text_step. cbn [parse_lines]. unfold parse_line. destruct (_ <? len raw) eqn:El.
  { match goal with |- context [diagnose ?s ?e] => pose proof (diagnose_nonempty s e) as Hd end. diagnosed Hd. }
  destruct (strip_comment raw) as [line|] eqn:Ec; [|by apply IH].
  destruct (trim line =s? RULE_LANGUAGE_HEADER) eqn:Eh.
  { bool_to_prop. rewrite Eh. by apply (parse_lines_in_profile h group CanonicalV3). }
  destruct h.
  { destruct (is_language_directive _); apply diagnose_and_nonempty. }
  pose proof (parse_lines_in_profile false group Compatible bytes (raw :: raws) rules no Hw) as H.
  cbv zeta in H. cbn [parse_lines] in H. unfold parse_line in H. rewrite El, Ec in H.
  destruct (is_language_directive (trim line)) eqn:Ed; [|done].
  rewrite accept_lines_step, El, Ec, Ed. apply diagnose_and_nonempty.
Qed.

(** ** The groups *)

Definition accept_group (h : bool) (rules : list Rule) (bytes index : N) (group text : str) : option (list Rule) :=
  if (index <? MAX_RULE_GROUPS_PER_SNAPSHOT) && (bytes + len text <=? MAX_RULE_SNAPSHOT_SOURCE_BYTES) then
    es ← group_entries h (group, text);
    rules ← parse_entries rules es;
    if within_limits rules then Some rules else None
  else None.
Lemma parse_group_spec h rules bytes index group text :
  within_limits rules = true ->
  let result := parse_group h (snapshot_of rules bytes) index group text in
  match accept_group h rules bytes index group text with
  | Some rules' => result = (snapshot_of rules' (bytes + len text), false) /\ within_limits rules' = true
  | None => sn_errors (fst result) <> []
  end.
Proof.
  intros Hw. cbv zeta. unfold parse_group, accept_group, group_entries, checked_add. cbn [fst snd sn_bytes snapshot_of].
  rewrite N.ltb_antisym. destruct (_ <=? index); [apply diagnose_and_nonempty|]. cbn [negb andb].
  destruct (N.leb_spec (bytes + len text) MAX_RULE_SNAPSHOT_SOURCE_BYTES) as [Hb|Hb].
  - rewrite (proj2 (N.leb_le _ USIZE_MAX)) by
      (unfold MAX_RULE_SNAPSHOT_SOURCE_BYTES, USIZE_MAX, U64_MAX in *; lia).
    rewrite (proj2 (N.leb_le _ _) Hb). destruct (negb _ && _); cbn [negb].
    + pose proof (parse_lines_start h group (bytes + len text) (lines text) rules 1 Hw) as H. cbv zeta in H.
      unfold accept_text in H. change (mkSnapshot _ _ (bytes + len text) _ _ _ _) with (snapshot_of rules (bytes + len text)).
      case_match; [destruct H as [-> H]; by split|]. by destruct (parse_lines _ _ _ _ _ _).
    + match goal with |- context [diagnose ?s ?e] => pose proof (diagnose_nonempty s e) as Hd; by destruct (diagnose s e) end.
  - case_match; [|apply diagnose_and_nonempty]. case_match; simplify_eq.
    rewrite (proj2 (N.leb_gt _ _) Hb). apply diagnose_and_nonempty.
Qed.
Lemma parse_entries_app rules a b : parse_entries rules (a ++ b) = rules ← parse_entries rules a; parse_entries rules b.
Proof. revert rules. induction a as [|e a IH]; intros rules; [done|]. cbn [app parse_entries]. by case_match. Qed.
Definition accept_groups (h : bool) (rules : list Rule) (bytes index : N) (groups : list (str * str)) : option (list Rule) :=
  if (index + N.of_nat (length groups) <=? MAX_RULE_GROUPS_PER_SNAPSHOT) &&
     (bytes + source_bytes groups <=? MAX_RULE_SNAPSHOT_SOURCE_BYTES) then
    ls ← mapM (group_entries h) groups;
    rules ← parse_entries rules (concat ls);
    if within_limits rules then Some rules else None
  else None.
Lemma accept_groups_step h rules bytes index group text groups :
  accept_groups h rules bytes index ((group, text) :: groups) =
  rules ← accept_group h rules bytes index group text;
  accept_groups h rules (bytes + len text) (index + 1) groups.
Proof.
  unfold accept_groups, accept_group.
  change (source_bytes ((group, text) :: groups)) with (len text + source_bytes groups).
  rewrite N.add_assoc. replace (index + N.of_nat (length ((group, text) :: groups))) with (index + 1 + N.of_nat (length groups))
    by (cbn [length]; lia).
  destruct ((index + 1 + _ <=? _) && _) eqn:E; cycle 1.
  { destruct (if (index <? _) && _ then _ else _); done. }
  bool_to_prop. rewrite (proj2 (N.ltb_lt index _)) by lia. rewrite (proj2 (N.leb_le (bytes + len text) _)) by lia.
  cbn [mapM andb]. destruct (group_entries h (group, text)) as [es|]; [|done]. cbn [mbind option_bind].
  destruct (mapM _ groups) as [ls|]; cbn [mbind option_bind mret option_ret concat].
  - rewrite parse_entries_app. destruct (parse_entries rules es) as [rules1|]; [|done]. cbn [mbind option_bind].
    destruct (within_limits rules1) eqn:Hw; [done|].
    destruct (parse_entries rules1 _) as [rules2|] eqn:E2; [|done]. cbn [mbind option_bind].
    destruct (within_limits rules2) eqn:Hw2; [|done]. apply parse_entries_extends in E2.
    by rewrite (within_limits_prefix _ _ E2 Hw2) in Hw.
  - destruct (parse_entries rules es) as [rules1|]; [|done]. cbn. by destruct (within_limits rules1).
Qed.
Lemma parse_all_groups_spec h groups rules bytes index :
  within_limits rules = true -> index <= MAX_RULE_GROUPS_PER_SNAPSHOT -> bytes <= MAX_RULE_SNAPSHOT_SOURCE_BYTES ->
  match accept_groups h rules bytes index groups with
  | Some rules' =>
      parse_all_groups h (snapshot_of rules bytes) index groups = snapshot_of rules' (bytes + source_bytes groups)
  | None => sn_errors (parse_all_groups h (snapshot_of rules bytes) index groups) <> []
  end.
Proof.
  revert rules bytes index. induction groups as [|[group text] groups IH]; intros rules bytes index Hw Hi Hb.
  { unfold accept_groups. cbn [length source_bytes map sum_N foldr mapM mbind option_bind mret option_ret concat parse_entries
      parse_all_groups]. change (source_bytes []) with 0. rewrite Hw, !N.add_0_r.
    by rewrite (proj2 (N.leb_le _ _) Hi), (proj2 (N.leb_le _ _) Hb). }
  rewrite accept_groups_step. cbn [parse_all_groups].
  pose proof (parse_group_spec h rules bytes index group text Hw) as H. cbv zeta in H.
  destruct (accept_group h rules bytes index group text) as [rules1|] eqn:E; cbn [mbind option_bind].
  - destruct H as [-> Hw1]. change (source_bytes ((group, text) :: groups)) with (len text + source_bytes groups).
    rewrite N.add_assoc. unfold accept_group in E. destruct (_ && _) eqn:Ec in E; [|done]. bool_to_prop. apply IH; [done|lia|done].
  - destruct (parse_group _ _ _ _ _) as [s []]; [done|]. by apply (parse_all_groups_kept (fun errors => errors <> [])); [apply kept_nonempty|].
Qed.
Lemma parse_source_spec h groups :
  match reference_source h groups with
  | Some rules => parse_all_groups h no_rules 0 groups = snapshot_of rules (source_bytes groups)
  | None => sn_errors (parse_all_groups h no_rules 0 groups) <> []
  end.
Proof.
  pose proof (parse_all_groups_spec h groups [] 0 0 ltac:(done) ltac:(done) ltac:(done)) as H.
  unfold accept_groups in H. unfold reference_source, source_entries. change (snapshot_of [] 0) with no_rules in H.
  rewrite !N.add_0_l in H. destruct (_ && _); [|done]. by destruct (mapM _ groups).
Qed.

(** ** The rules of an accepted source *)

Lemma strip_comment_within raw line : strip_comment raw = Some line -> len line <= len raw.
Proof.
  unfold strip_comment. case_match; [done|]. intros [= <-]. apply len_sublist. clear. generalize (@None char), false.
  induction raw as [|c raw IH]; intros quote escaped; cbn [strip_comment_loop]; [done|].
  repeat case_match; try apply sublist_skip, IH. apply sublist_nil_l.
Qed.
Lemma effective_lines_within no raws n :
  existsb (fun raw => n <? len raw) raws = false -> Forall (fun l => len (snd l) <= n) (effective_lines no raws).
Proof.
  revert no. induction raws as [|raw raws IH]; intros no; cbn [existsb effective_lines]; [constructor|].
  intros [H1 H2]%orb_false_iff. destruct (strip_comment raw) as [line|] eqn:E; [|by apply IH].
  constructor; [|by apply IH]. cbn. bool_to_prop. etransitivity; [apply len_trim|].
  apply strip_comment_within in E. lia.
Qed.
Definition entries_within (es : list Entry) : Prop := Forall (fun e => len (en_text e) <= MAX_RULE_SOURCE_LINE_BYTES) es.
Lemma entries_Some_within group profile ls es :
  Forall (fun l => len (snd l) <= MAX_RULE_SOURCE_LINE_BYTES) ls -> entries group profile ls = Some es -> entries_within es.
Proof. intros H. unfold entries. case_match; [done|]. intros [= <-]. by apply Forall_map. Qed.
Lemma group_entries_within h g es : group_entries h g = Some es -> entries_within es.
Proof.
  unfold group_entries, text_entries. case_match; [|done]. case_match; [done|].
  pose proof (effective_lines_within 1 (lines (snd g)) _ H0) as Hw. destruct (effective_lines _ _) as [|[no line] rest].
  { intros [= <-]. constructor. }
  case_match; [inversion_clear Hw; by apply entries_Some_within|]. case_match; [done|]. by apply entries_Some_within.
Qed.
Lemma source_entries_within h groups es : source_entries h groups = Some es -> entries_within es.
Proof.
  unfold source_entries. case_match; [|done]. destruct (mapM _ groups) as [ls|] eqn:E; [|done]. cbn. intros [= <-].
  apply mapM_Some in E. apply Forall_concat. clear H.
  induction E as [|g ls gs lss Hg _ IH]; [constructor|]. constructor; [by eapply group_entries_within|done].
Qed.
Lemma parse_entries_parsed es rules rules' :
  entries_within es -> Forall (rule_parsed MAX_RULE_SOURCE_LINE_BYTES) rules -> parse_entries rules es = Some rules' ->
  Forall (rule_parsed MAX_RULE_SOURCE_LINE_BYTES) rules'.
Proof.
  intros He. revert rules. induction He as [|e es He _ IH]; intros rules Hr; cbn [parse_entries]; [by intros [= <-]|].
  case_match; [|done]. apply IH. apply Forall_app. split; [done|]. constructor; [|done].
  apply parse_rule_parsed in H as [H1 H2]. split; [done|]. eapply Forall_impl; [exact H2|]. intros c.
  by apply condition_parsed_mono.
Qed.
Lemma reference_source_parsed h groups rules :
  reference_source h groups = Some rules ->
  Forall (rule_parsed MAX_RULE_SOURCE_LINE_BYTES) rules /\ within_limits rules = true.
Proof.
  unfold reference_source. destruct (source_entries h groups) as [es|] eqn:Es; [|done]. cbn [mbind option_bind].
  destruct (parse_entries [] es) as [rules0|] eqn:Ep; [|done]. cbn [mbind option_bind]. case_match; [|done]. intros [= <-].
  split; [|done]. eapply parse_entries_parsed; [by eapply source_entries_within|constructor|done].
Qed.

(** C13: A source that the line-by-line reading accepts gives exactly its rules
    in order, with the index built from them; every other source is refused
    with at least one and at most [MAX_RULE_DIAGNOSTICS] diagnostics. *)
Theorem parse_groups_reads_lines h version groups :
  match reference_source h groups with
  | Some rules =>
      parse_groups_with_profile h version groups =
      ix ← RuleIndex_build rules; Some (Ok (mkRuleSet RULE_LANGUAGE_VERSION version rules ix))
  | None =>
      exists errors, parse_groups_with_profile h version groups = Some (Err errors) /\
        (1 <= length errors <= MAX_RULE_DIAGNOSTICS)%nat
  end.
Proof.
  pose proof (parse_source_spec h groups) as H. unfold parse_groups_with_profile.
  destruct (reference_source h groups) as [rules|]; [by rewrite H|].
  pose proof (parse_all_groups_kept _ kept_bounded h groups no_rules 0 ltac:(cbn; lia)) as Hb.
  destruct (sn_errors (parse_all_groups h no_rules 0 groups)) as [|e es] eqn:E; [done|]. cbn [is_emptyb].
  exists (e :: es). split; [done|]. cbn [length] in *. lia.
Qed.
End Source.

(** ** From the source text to the actions *)

Section Composition.
Context {PE : PatternEngines}.

Lemma parse_groups_Ok h version groups rs :
  parse_groups_with_profile h version groups = Some (Ok rs) ->
  exists rules ix, reference_source h groups = Some rules /\ RuleIndex_build rules = Some ix /\
    rs = mkRuleSet RULE_LANGUAGE_VERSION version rules ix.
Proof.
  pose proof (parse_source_spec h groups) as H. unfold parse_groups_with_profile.
  destruct (reference_source h groups) as [rules|].
  - rewrite H. cbn [is_emptyb sn_errors snapshot_of sn_rules]. destruct (RuleIndex_build rules) as [ix|] eqn:E; [|done].
    cbn. intros [= <-]. eauto.
  - by destruct (sn_errors _).
Qed.

(** C2: From text to actions: a rule set parsed from source text returns, on
    every request, exactly what trying the rules of the text's lines one by one
    in priority order returns. *)
Theorem parsed_source_resolves_by_reference {PL : PatternLaws PE} h version groups rs req res inc :
  parse_groups_with_profile h version groups = Some (Ok rs) -> valid_str (req_url req) = true ->
  exists rules, reference_source h groups = Some rules /\
    resolve_inner rs req res inc = resolve_reference rules req res inc.
Proof.
  intros (rules & ix & Hr & Hix & ->)%parse_groups_Ok Hv. exists rules. split; [done|].
  apply resolve_inner_reference; [by apply RuleIndex_build_ok| |done].
  apply reference_source_parsed in Hr as [Hr _]. eapply Forall_impl; [exact Hr|]. apply rule_parsed_wf.
Qed.
End Composition.

(** ** When building the snapshot panics *)

Section Panics.
Context {PE : PatternEngines}.

(** The patterns of a condition that the index registers in another form than
    the parser has validated. *)
Definition renormalised (c : Condition.t) : list (str * char) :=
  match c with
  | Condition.Host p =>
      if host_pattern_uses_regex p && negb (to_ascii_lowercase p =s? p) then [(to_ascii_lowercase p, ch ".")] else []
  | Condition.ClientIp ps | Condition.ServerIp ps =>
      map (fun p => (normalize_ip_value p, 0))
        (List.filter (fun p => glob_syntax_is_active p && negb (p =s? lit "*") && negb (p =s? lit "**") &&
                               negb (normalize_ip_value p =s? p)) ps)
  | _ => []
  end.

Lemma renormalised_registered c p : p ∈ renormalised c -> p ∈ node_globs c.
Proof.
  destruct c; cbn [renormalised node_globs]; try (by intros []%not_elem_of_nil).
  - destruct (host_pattern_uses_regex pattern); [|done]. cbn [andb]. case_match; [done|set_solver].
  - rewrite !list_elem_of_In, !in_map_iff. intros (q & <- & Hq). exists q. split; [done|].
    rewrite filter_In in *. destruct Hq as [Hq1 [Hq2 _]%andb_true_iff]. by split.
  - rewrite !list_elem_of_In, !in_map_iff. intros (q & <- & Hq). exists q. split; [done|].
    rewrite filter_In in *. destruct Hq as [Hq1 [Hq2 _]%andb_true_iff]. by split.
Qed.
Lemma ip_globs_compile ps :
  Forall (fun p => compiles (p, 0)) ps ->
  Forall compiles (map (fun p => (normalize_ip_value p, 0))
    (List.filter (fun p => glob_syntax_is_active p && negb (p =s? lit "*") && negb (p =s? lit "**") &&
                           negb (normalize_ip_value p =s? p)) ps)) ->
  Forall compiles (map (fun p => (normalize_ip_value p, 0))
    (List.filter (fun p => glob_syntax_is_active p && negb (p =s? lit "*") && negb (p =s? lit "**")) ps)).
Proof.
  induction 1 as [|p ps Hp _ IH]; cbn [List.filter map]; [done|].
  destruct (glob_syntax_is_active p && _ && _); cbn [andb]; [|done].
  destruct (normalize_ip_value p =s? p) eqn:E; cbn [negb map].
  - bool_to_prop. intros H. rewrite E. constructor; [done|by apply IH].
  - intros H. inversion_clear H. constructor; [done|by apply IH].
Qed.
Lemma node_globs_compile n c : node_parsed n c -> Forall compiles (renormalised c) -> Forall compiles (node_globs c).
Proof.
  destruct c; cbn [node_parsed renormalised node_globs]; try by intros.
  - destruct (host_pattern_uses_regex pattern); [|done]. cbn [andb].
    destruct (to_ascii_lowercase pattern =s? pattern) eqn:E; [|done]. bool_to_prop. rewrite E. intros. by constructor.
  - destruct condition; [|done]. case_match; [|done]. intros. by constructor.
  - apply ip_globs_compile.
  - apply ip_globs_compile.
Qed.
Lemma elem_of_flat_map {A B} (f : A -> list B) l y : y ∈ flat_map f l <-> exists x, x ∈ l /\ y ∈ f x.
Proof. rewrite list_elem_of_In, in_flat_map. by setoid_rewrite <- list_elem_of_In. Qed.
Lemma elem_of_rules_nodes rules c :
  c ∈ rules_nodes rules <-> exists rule cond, rule ∈ rules /\ cond ∈ r_conditions rule /\ c ∈ Condition.nodes cond.
Proof. unfold rules_nodes. rewrite elem_of_flat_map. setoid_rewrite elem_of_flat_map. naive_solver. Qed.
Lemma parsed_rules_compile n rules :
  Forall (rule_parsed n) rules ->
  Forall rule_compiles rules <-> Forall compiles (flat_map renormalised (rules_nodes rules)).
Proof.
  unfold rule_parsed, rule_compiles, condition_parsed, condition_globs. intros Hp. rewrite Forall_forall in Hp. split.
  - intros H. apply Forall_forall. intros p (c & (rule & cond & Hr & Hcond & Hc)%elem_of_rules_nodes & Hin)%elem_of_flat_map.
    rewrite Forall_forall in H. destruct (H rule Hr) as [_ Hcs]. rewrite Forall_forall in Hcs. specialize (Hcs cond Hcond).
    rewrite Forall_forall in Hcs. apply Hcs, elem_of_flat_map. exists c. by split; [|apply renormalised_registered].
  - intros H. rewrite Forall_forall in H. apply Forall_forall. intros rule Hr. destruct (Hp rule Hr) as [[Hm _] Hcs].
    split; [done|]. rewrite Forall_forall in Hcs. apply Forall_forall. intros cond Hcond. specialize (Hcs cond Hcond).
    rewrite Forall_forall in Hcs. apply Forall_forall. intros p (c & Hc & Hin)%elem_of_flat_map.
    pose proof (node_globs_compile n c (Hcs c Hc)) as Hg. rewrite (Forall_forall compiles (node_globs c)) in Hg.
    apply Hg; [|done]. apply Forall_forall. intros q Hq. apply H, elem_of_flat_map. exists c. split; [|done].
    apply elem_of_rules_nodes. eauto.
Qed.
Lemma body_nodes_within rules :
  within_limits rules = true -> (length (List.filter is_body_node (rules_nodes rules)) <= 256)%nat.
Proof.
  intros H. assert (E : N.of_nat (length (List.filter is_body_node (rules_nodes rules))) = rules_conditions body_condition_count rules).
  { unfold rules_nodes, rules_conditions. clear H. induction rules as [|rule rules IH]; [done|]. cbn [flat_map map sum_N foldr].
    rewrite List.filter_app, length_app. fold (sum_N (map (fun r => sum_N (map body_condition_count (r_conditions r))) rules)).
    rewrite Nat2N.inj_add, IH. f_equal. induction (r_conditions rule) as [|c cs IHc]; [done|]. cbn [flat_map map].
    rewrite List.filter_app, length_app, Nat2N.inj_add, IHc. done. }
  unfold within_limits in H. bool_to_prop. unfold MAX_RULE_BODY_CONDITIONS_PER_SNAPSHOT in *. lia.
Qed.
Lemma body_literals_within n rules :
  Forall (rule_parsed n) rules -> forall l, Condition.BodyContains l ∈ rules_nodes rules -> len l <= n.
Proof.
  intros Hp l (rule & cond & Hr & Hcond & Hl)%elem_of_rules_nodes. rewrite Forall_forall in Hp.
  destruct (Hp rule Hr) as [_ Hcs]. rewrite Forall_forall in Hcs. specialize (Hcs cond Hcond).
  unfold condition_parsed in Hcs. rewrite Forall_forall in Hcs. by apply (Hcs _ Hl).
Qed.
#[local] Instance compiles_dec p : Decision (compiles p).
Proof. unfold compiles. apply _. Defined.

(** C33: Parsing panics exactly when the source is acceptable and an IP pattern,
    or a host pattern with capitals, that was validated as written does not
    compile in the form in which the index registers it; nothing else of a
    source can make it panic. *)
Theorem parse_panics_only_on_renormalised_globs h version groups :
  small_automata_build ->
  parse_groups_with_profile h version groups = None <->
  exists rules p, reference_source h groups = Some rules /\ p ∈ flat_map renormalised (rules_nodes rules) /\ ~ compiles p.
Proof.
  intros Hac. pose proof (parse_source_spec h groups) as H. unfold parse_groups_with_profile.
  destruct (reference_source h groups) as [rules|] eqn:Er.
  - rewrite H. cbn [is_emptyb sn_errors snapshot_of sn_rules]. apply reference_source_parsed in Er as [Hp Hw].
    pose proof (parsed_rules_compile _ rules Hp) as Hc.
    rewrite <- (RuleIndex_build_total rules Hac (body_nodes_within rules Hw)) in Hc.
    + destruct (RuleIndex_build rules) as [ix|]; cbn.
      * split; [done|]. intros (rules' & p & [= <-] & Hin & Hn). destruct Hn.
        assert (Hall : Forall compiles (flat_map renormalised (rules_nodes rules))) by (apply Hc; by eexists).
        rewrite Forall_forall in Hall. by apply Hall.
      * split; [intros _|done]. destruct (decide (Forall compiles (flat_map renormalised (rules_nodes rules)))) as [Hy|Hn].
        { apply Hc in Hy as [? ?]. done. }
        apply not_Forall_Exists in Hn; [|apply _]. apply Exists_exists in Hn as (p & Hp' & Hn). eauto.
    + by apply body_literals_within.
  - destruct (sn_errors _); [done|]. cbn. split; [done|]. by intros (? & ? & ? & _).
Qed.
End Panics.

(** ** The properties at concrete sources *)

Definition sample_source : list (str * str) :=
  [(lit "main", RULE_LANGUAGE_HEADER ++ [10] ++ lit "# comment" ++ [10] ++
     lit "*.example.com/a/** host(10.0.0.1) res.header(x-a: 1) when method(GET) @important" ++ [10] ++ [10] ++
     lit "/login/ status(404) when any(host(api.test), client.ip(10.*))")].
(** A pattern that is validated with an escaped bracket at its end. *)
Definition panicking_source : list (str * str) := [(lit "main", lit "a.test direct when client.ip(10.*\])")].

Lemma sample_source_parses :
  match parse_versioned_groups 1 sample_source with Some (Ok rs) => length (rs_rules rs) = 2%nat | _ => False end.
Proof. by vm_compute. Qed.
Lemma panicking_source_panics : parse_groups 1 panicking_source = None.
Proof. by vm_compute. Qed.

Lemma parsed_source_resolves_by_reference_witness :
  match parse_versioned_groups 1 sample_source with
  | Some (Ok rs) =>
      exists rules, reference_source true sample_source = Some rules /\
        resolve_inner rs (sample_request "http://www.example.com/a/b/c?q=1") None true =
        resolve_reference rules (sample_request "http://www.example.com/a/b/c?q=1") None true
  | _ => False
  end.
Proof.
  pose proof sample_source_parses as H. destruct (parse_versioned_groups 1 sample_source) as [[rs|]|] eqn:E; [|done..].
  apply (parsed_source_resolves_by_reference true 1 sample_source rs); [exact E|by vm_compute].
Defined.
Lemma parse_panics_only_on_renormalised_globs_witness :
  exists rules p, reference_source false panicking_source = Some rules /\
    p ∈ flat_map renormalised (rules_nodes rules) /\ ~ compiles p.
Proof.
  apply (parse_panics_only_on_renormalised_globs false 1 panicking_source).
  - intros literals _ _. reflexivity.
  - exact panicking_source_panics.
Defined.
