(* ===== verification/LintProofs.v ===== *)
(** * Lints tell the truth

    Conditions reported as unsatisfiable never hold, actions reported as
    shadowed or waiting for a response are never resolved. *)
From Stdlib Require Import Ascii String.
From stdpp Require Import base numbers list gmap strings.
From S2P Require Import Prelude Family Utf8 Format NetAddr Model Url Syntax Engines Matching Evaluate Index.
From S2P Require Import Resolve Reference Refinement ParseOps ParseMatch Values ParseRule Lint ParseWf.
From S2P Require Import ParseProofs.

Lemma to_lower_upper s : to_ascii_lowercase (to_ascii_uppercase s) = to_ascii_lowercase s.
Proof.
  unfold to_ascii_lowercase, to_ascii_uppercase. rewrite map_map. apply map_ext. intros c.
  unfold lower, upper, is_ascii_uppercase, is_ascii_lowercase. change (ch "A") with 65. change (ch "Z") with 90.
  change (ch "a") with 97. change (ch "z") with 122.
  destruct (in_range 97 122 c) eqn:E; [|done]. apply in_range_spec in E. rewrite (proj2 (in_range_spec 65 90 _)) by lia.
  rewrite (proj2 (in_range_false 65 90 c)) by lia. lia.
Qed.

(** What stands under a negation is a node too. *)
Lemma nodes_self c : c ∈ Condition.nodes c.
Proof. destruct c; cbn; set_solver. Qed.
Lemma nodes_not c d : Condition.Not d ∈ Condition.nodes c -> d ∈ Condition.nodes c.
Proof.
  induction c as [c Hleaf|cs IH|cs IH|c IH] using Condition.ind_nested; intros H.
  - destruct c; try done; cbn in H; set_solver.
  - cbn [Condition.nodes] in *. apply elem_of_cons in H as [?|H]; [done|]. right.
    apply elem_of_flat_map in H as (c & Hc & Hd). apply elem_of_flat_map. exists c. rewrite Forall_forall in IH. auto.
  - cbn [Condition.nodes] in *. apply elem_of_cons in H as [?|H]; [done|]. right.
    apply elem_of_flat_map in H as (c & Hc & Hd). apply elem_of_flat_map. exists c. rewrite Forall_forall in IH. auto.
  - cbn [Condition.nodes] in *. apply elem_of_cons in H as [[= ->]|H]; right; [apply nodes_self|auto].
Qed.

(** ** Constant conditions *)

Section Conditions.
Context {PE : PatternEngines}.
Context (url : option UrlParts) (res : option ResponseMeta) (line : N) (req : RequestMeta).
Abbreviation holds c := (Condition_reference c url res line req).

(** The value of a condition is known when the response it asks for is. *)
Definition decided (c : Condition.t) : Prop := is_some res = true \/ Condition.depends_on_response c = false.
Lemma decided_children cs c : is_some res = true \/ existsb Condition.depends_on_response cs = false -> c ∈ cs -> decided c.
Proof.
  intros [H|H] Hc; [by left|right]. apply not_true_iff_false. intros Hd. apply not_true_iff_false in H. destruct H.
  apply existsb_exists. exists c. by rewrite <- list_elem_of_In.
Qed.
Definition truth_ok (c : Condition.t) : Prop :=
  (constant_truth c = ConstFalse -> holds c = false) /\ (constant_truth c = ConstTrue -> decided c -> holds c = true).
Lemma some_truth_true t cs : some_truth t (map constant_truth cs) = true -> exists c, c ∈ cs /\ constant_truth c = t.
Proof.
  unfold some_truth. rewrite existsb_exists. intros (x & Hx & E). apply in_map_iff in Hx as (c & <- & Hc).
  apply bool_decide_eq_true in E. exists c. by rewrite list_elem_of_In.
Qed.
Lemma some_truth_false t cs c : some_truth t (map constant_truth cs) = false -> c ∈ cs -> constant_truth c <> t.
Proof.
  intros H Hc E. apply not_true_iff_false in H. destruct H. unfold some_truth. apply existsb_exists. exists (constant_truth c).
  split; [apply in_map; by rewrite <- list_elem_of_In|by apply bool_decide_eq_true].
Qed.
Lemma constant_truth_sound c : truth_ok c.
Proof.
  induction c as [c Hleaf|cs IH|cs IH|c [IH1 IH2]] using Condition.ind_nested.
  - destruct c; try done; split; try done; cbn [constant_truth Condition_reference]; unfold chance;
      destruct (N.eqb_spec permille 0) as [->|]; try done; destruct (N.eqb_spec permille 1000) as [->|]; done.
  - rewrite Forall_forall in IH. unfold truth_ok. cbn [constant_truth Condition_reference].
    destruct (some_truth ConstTrue _) eqn:E1; [|destruct (some_truth ConstUnknown _) eqn:E2].
    + split; [done|]. intros _ Hd. apply some_truth_true in E1 as (c & Hc & E1). apply existsb_exists. exists c.
      rewrite <- list_elem_of_In. split; [done|]. by apply (IH c Hc), (decided_children cs).
    + done.
    + split; [|done]. intros _. apply not_true_iff_false. rewrite existsb_exists. intros (c & Hc & Ht).
      rewrite <- list_elem_of_In in Hc. pose proof (some_truth_false _ _ _ E1 Hc). pose proof (some_truth_false _ _ _ E2 Hc).
      rewrite (proj1 (IH c Hc)) in Ht; [done|]. by destruct (constant_truth c).
  - rewrite Forall_forall in IH. unfold truth_ok. cbn [constant_truth Condition_reference].
    destruct (some_truth ConstFalse _) eqn:E1; [|destruct (some_truth ConstUnknown _) eqn:E2].
    + split; [|done]. intros _. apply some_truth_true in E1 as (c & Hc & E1). apply not_true_iff_false.
      rewrite forallb_forall. intros H. specialize (H c ltac:(by rewrite <- list_elem_of_In)).
      by rewrite (proj1 (IH c Hc) E1) in H.
    + done.
    + split; [done|]. intros _ Hd. apply forallb_forall. intros c Hc. rewrite <- list_elem_of_In in Hc.
      pose proof (some_truth_false _ _ _ E1 Hc). pose proof (some_truth_false _ _ _ E2 Hc).
      apply (IH c Hc); [by destruct (constant_truth c)|by apply (decided_children cs)].
  - unfold truth_ok. cbn [constant_truth Condition_reference]. split.
    + intros H. destruct (negb (is_some res) && _) eqn:E; [done|]. rewrite IH2; [done|by destruct (constant_truth c)|].
      apply andb_false_iff in E as [E|E]; [left; by apply negb_false_iff|by right].
    + intros H [Hd|Hd]; [rewrite Hd|cbn in Hd; rewrite Hd]; rewrite ?andb_false_r; cbn [negb andb];
        rewrite IH1; (done || by destruct (constant_truth c)).
Qed.

(** ** Constraints without a common value *)

Lemma flatten_holds c : holds c = true -> Forall (fun c => holds c = true) (flatten_conjunction c).
Proof.
  induction c as [c Hleaf|cs IH|cs IH|c IH] using Condition.ind_nested; intros H.
  - destruct c; try done; by constructor.
  - by constructor.
  - cbn [flatten_conjunction]. cbn [Condition_reference] in H. rewrite forallb_forall in H. rewrite Forall_forall in IH.
    apply Forall_forall. intros d (c & Hc & Hd)%elem_of_flat_map. specialize (IH c Hc).
    rewrite (Forall_forall _ (flatten_conjunction c)) in IH. apply IH; [apply H; by rewrite <- list_elem_of_In|done].
  - by constructor.
Qed.
Lemma flatten_nodes c d : d ∈ flatten_conjunction c -> d ∈ Condition.nodes c.
Proof.
  induction c as [c Hleaf|cs IH|cs IH|c IH] using Condition.ind_nested; intros H.
  - destruct c; try done; cbn in *; set_solver.
  - cbn in *. set_solver.
  - cbn [flatten_conjunction] in H. apply elem_of_flat_map in H as (c & Hc & Hd). cbn [Condition.nodes]. right.
    apply elem_of_flat_map. exists c. rewrite Forall_forall in IH. auto.
  - cbn in *. set_solver.
Qed.
Lemma intersection_from {A} `{EqDecision A} (sets : list (list A)) acc vs x :
  fold_left (fun acc values =>
    Some match acc with Some current => List.filter (fun x => bool_decide (x ∈ values)) current | None => values end)
    sets acc = Some vs ->
  (forall s, s ∈ sets -> x ∈ s) -> match acc with Some current => x ∈ current | None => True end -> x ∈ vs.
Proof.
  revert acc. induction sets as [|s sets IH]; intros acc; cbn [fold_left]; [intros ->; done|].
  intros H Hs Ha. apply (IH _ H); [intros; apply Hs; by right|]. destruct acc as [current|]; [|apply Hs; by left].
  rewrite list_elem_of_In, filter_In, <- list_elem_of_In. split; [done|]. apply bool_decide_eq_true, Hs. by left.
Qed.
(** A value that all required sets share and no forbidden set holds refutes
    that the constraints are empty. *)
Lemma constraints_not_empty {A} `{EqDecision A} (required : Condition.t -> option (list A)) conjunction x :
  (forall c vs, c ∈ conjunction -> required c = Some vs -> x ∈ vs) ->
  (forall c vs, Condition.Not c ∈ conjunction -> required c = Some vs -> x ∉ vs) ->
  constraints_are_empty required conjunction = false.
Proof.
  intros Hreq Hforb. unfold constraints_are_empty. destruct (intersection _) as [vs|] eqn:E; [|done].
  assert (Hx : x ∈ vs).
  { eapply (intersection_from (omap required conjunction) None); [exact E| |done].
    intros s (c & Hc & Hs)%list_elem_of_omap. by eapply Hreq. }
  apply not_true_iff_false. unfold is_subset. rewrite forallb_forall. intros H.
  specialize (H x ltac:(by rewrite <- list_elem_of_In)). apply bool_decide_eq_true in H.
  apply elem_of_flat_map in H as (c & Hc & Hin). destruct c; cbn [forbidden] in Hin; try by apply elem_of_nil in Hin.
  destruct (required c) as [vs'|] eqn:Er; cbn [unwrap_or] in Hin; [by eapply Hforb|by apply elem_of_nil in Hin].
Qed.

Lemma upper_lower c : upper (lower c) = upper c.
Proof.
  unfold upper, lower, is_ascii_uppercase, is_ascii_lowercase. change (ch "A") with 65. change (ch "Z") with 90.
  change (ch "a") with 97. change (ch "z") with 122.
  destruct (in_range 65 90 c) eqn:E; [|done]. apply in_range_spec in E. rewrite (proj2 (in_range_spec 97 122 _)) by lia.
  rewrite (proj2 (in_range_false 97 122 c)) by lia. lia.
Qed.
Lemma upper_method m method : to_ascii_uppercase m = m -> eq_ignore_ascii_case m method = true -> m = to_ascii_uppercase method.
Proof.
  unfold eq_ignore_ascii_case. intros Hm H%bool_decide_eq_true. rewrite <- Hm. apply (f_equal to_ascii_uppercase) in H.
  unfold to_ascii_uppercase, to_ascii_lowercase in *. rewrite !map_map in H.
  by rewrite !(map_ext (fun c => upper (lower c)) upper) in H by apply upper_lower.
Qed.
Lemma not_holds c : holds (Condition.Not c) = true -> holds c = false.
Proof. cbn [Condition_reference]. destruct (_ && _); [done|]. apply negb_true_iff. Qed.
Section Conjunction.
Context (conjunction : list Condition.t) (Hall : Forall (fun c => holds c = true) conjunction).

Lemma methods_not_empty n :
  Forall (node_parsed n) conjunction -> (forall c, Condition.Not c ∈ conjunction -> node_parsed n c) ->
  constraints_are_empty required_methods conjunction = false.
Proof.
  rewrite Forall_forall in Hall. intros Hp Hn. rewrite Forall_forall in Hp.
  apply (constraints_not_empty _ _ (to_ascii_uppercase (req_method req))).
  - intros c vs Hc. destruct c; try done. intros [= ->]. specialize (Hall _ Hc). cbn in Hall.
    apply existsb_exists in Hall as (m & Hm & Heq). rewrite <- list_elem_of_In in Hm.
    specialize (Hp _ Hc). cbn in Hp. rewrite Forall_forall in Hp. by rewrite <- (upper_method m _ (Hp m Hm) Heq).
  - intros c vs Hc. destruct c; try done. intros [= ->]. pose proof (not_holds _ (Hall _ Hc)) as Hf. cbn in Hf.
    intros Hin. apply not_true_iff_false in Hf. destruct Hf. apply existsb_exists. eexists. split; [by apply list_elem_of_In|].
    unfold eq_ignore_ascii_case. apply bool_decide_eq_true. apply to_lower_upper.
Qed.
Lemma statuses_not_empty : constraints_are_empty required_statuses conjunction = false.
Proof.
  rewrite Forall_forall in Hall. destruct res as [r|] eqn:Er.
  - apply (constraints_not_empty _ _ (res_status r)).
    + intros c vs Hc. destruct c; try done. intros [= ->]. specialize (Hall _ Hc). cbn in Hall.
      apply existsb_exists in Hall as (s & Hs & Heq). apply N.eqb_eq in Heq. subst. by apply list_elem_of_In.
    + intros c vs Hc. destruct c; try done. intros [= ->]. pose proof (Hall _ Hc) as Hf. cbn in Hf.
      apply negb_true_iff in Hf. intros Hin. apply not_true_iff_false in Hf. destruct Hf. apply existsb_exists.
      eexists. split; [by apply list_elem_of_In|]. apply N.eqb_refl.
  - unfold constraints_are_empty, intersection. assert (omap required_statuses conjunction = []) as ->; [|done].
    destruct (omap required_statuses conjunction) as [|vs l] eqn:E; [done|].
    assert (Hin : vs ∈ omap required_statuses conjunction) by (rewrite E; by left).
    apply list_elem_of_omap in Hin as (c & Hc & Hs). destruct c; try done. by specialize (Hall _ Hc).
Qed.

(** What the maps say is true of the environment. *)
Definition env_ok (f : EnvFacts) : Prop :=
  (forall n v, (n, v) ∈ ef_required f -> env_var n = Some v) /\
  (forall n, n ∈ ef_required_present f -> is_some (env_var n) = true) /\
  (forall n, n ∈ ef_forbidden_present f -> is_some (env_var n) = false) /\
  (forall n v, (n, v) ∈ ef_forbidden_values f -> env_var n <> Some v).
Lemma bmap_insert_spec key value m old m' :
  bmap_insert key value m = (old, m') ->
  (forall p, old = Some p -> (key, p) ∈ m) /\ (forall e, e ∈ m' -> e = (key, value) \/ e ∈ m).
Proof.
  revert old m'. induction m as [|[k v] m IH]; intros old m'; cbn [bmap_insert].
  { intros [= <- <-]. set_solver. }
  destruct (str_compare key k) eqn:E.
  - intros [= <- <-]. apply str_compare_eq in E. subst k. set_solver.
  - intros [= <- <-]. set_solver.
  - destruct (bmap_insert key value m) as [old1 m1] eqn:E1. intros [= <- <-].
    destruct (IH _ _ eq_refl) as [H1 H2]. set_solver.
Qed.
Lemma env_equals_holds n v : holds (Condition.EnvEquals n v) = true <-> env_var n = Some v.
Proof.
  cbn [Condition_reference]. destruct (env_var n) as [actual|]; [|done]. rewrite bool_decide_eq_true. naive_solver.
Qed.
Lemma env_condition_sound f c :
  holds c = true -> env_ok f -> exists f', env_condition f c = inr f' /\ env_ok f'.
Proof.
  intros Hc Hf. destruct f as [required present absent values]. pose proof Hf as (H1 & H2 & H3 & H4).
  cbn [ef_required ef_required_present ef_forbidden_present ef_forbidden_values] in *.
  destruct c; try (eexists; split; [done|exact Hf]); cbn [env_condition].
  - eexists. split; [done|]. split_and!; cbn; try done. intros n. rewrite elem_of_bset_insert. intros [->|Hn]; [done|auto].
  - apply env_equals_holds in Hc. destruct (bmap_insert name value required) as [old required'] eqn:E.
    destruct (bmap_insert_spec _ _ _ _ _ E) as [Ho Hr].
    assert (Hok : env_ok (mkEnvFacts required' (bset_insert name present) absent values)).
    { split_and!; cbn; try done.
      - intros n v [[= -> ->]|Hin]%Hr; auto.
      - intros n. rewrite elem_of_bset_insert. intros [->|Hn]; [by rewrite Hc|auto]. }
    destruct old as [previous|]; [|by eexists]. rewrite (H1 _ _ (Ho previous eq_refl)) in Hc. injection Hc as ->.
    rewrite bool_decide_eq_true_2 by done. by eexists.
  - apply not_holds in Hc. destruct c; try (eexists; split; [done|exact Hf]).
    + eexists. split; [done|]. split_and!; cbn; try done. intros n. rewrite elem_of_bset_insert. intros [->|Hn]; [done|auto].
    + eexists. split; [done|]. split_and!; cbn; try done. intros n v [[= -> ->]|Hin]%elem_of_cons; [|auto].
      intros E. apply env_equals_holds in E. by rewrite E in Hc.
Qed.
Lemma env_conditions_sound cs f :
  Forall (fun c => holds c = true) cs -> env_ok f -> exists f', env_conditions f cs = inr f' /\ env_ok f'.
Proof.
  intros H. revert f. induction H as [|c cs Hc _ IH]; intros f Hf; cbn [env_conditions]; [by eexists|].
  destruct (env_condition_sound f c Hc Hf) as (f' & -> & Hf'). by apply IH.
Qed.
Lemma environment_consistent : environment_contradiction conjunction = None.
Proof.
  unfold environment_contradiction.
  destruct (env_conditions_sound conjunction (mkEnvFacts [] [] [] []) Hall) as (f & -> & H1 & H2 & H3 & H4).
  { split_and!; cbn; set_solver. }
  destruct (find _ (ef_required_present f)) as [name|] eqn:E.
  { apply find_some in E as [Hin Hm]. unfold list_mem in Hm. apply existsb_exists in Hm as (y & Hy & Heq%bool_decide_eq_true).
    subst y. rewrite <- list_elem_of_In in *. specialize (H2 _ Hin). by rewrite (H3 _ Hy) in H2. }
  destruct (find _ (ef_required f)) as [[name value]|] eqn:E'; [|done].
  apply find_some in E' as [Hin Hm%bool_decide_eq_true]. rewrite <- list_elem_of_In in Hin.
  by specialize (H4 _ _ Hm (H1 _ _ Hin)).
Qed.
End Conjunction.

Lemma unsatisfiable_conditions_sound n cs message :
  Forall (condition_parsed n) cs -> unsatisfiable_conditions cs = Some message -> forallb (fun c => holds c) cs = false.
Proof.
  intros Hp H. apply not_true_iff_false. intros Hall. rewrite forallb_forall in Hall. revert H. unfold unsatisfiable_conditions.
  destruct (existsb _ cs) eqn:E.
  { apply existsb_exists in E as (c & Hc & Hf%bool_decide_eq_true). specialize (Hall c Hc). by rewrite (proj1 (constant_truth_sound c) Hf) in Hall. }
  set (conjunction := flat_map flatten_conjunction cs).
  assert (Hc : Forall (fun c => holds c = true) conjunction).
  { apply Forall_forall. intros d (c & Hc & Hd)%elem_of_flat_map. pose proof (flatten_holds c) as Hf.
    rewrite (Forall_forall _ (flatten_conjunction c)) in Hf. apply Hf; [apply Hall; by rewrite <- list_elem_of_In|done]. }
  assert (Hin : forall d, d ∈ conjunction -> exists c, c ∈ cs /\ d ∈ Condition.nodes c).
  { intros d (c & Hc' & Hd)%elem_of_flat_map. exists c. split; [done|]. by apply flatten_nodes. }
  rewrite Forall_forall in Hp. unfold condition_parsed in Hp.
  rewrite (methods_not_empty conjunction Hc n).
  - by rewrite (statuses_not_empty conjunction Hc), (environment_consistent conjunction Hc).
  - apply Forall_forall. intros d (c & Hc' & Hd)%Hin. specialize (Hp c Hc'). rewrite Forall_forall in Hp. auto.
  - intros d (c & Hc' & Hd)%Hin. specialize (Hp c Hc'). rewrite Forall_forall in Hp. apply Hp. by apply nodes_not.
Qed.
End Conditions.

Lemma requires_response_sound {PE : PatternEngines} c url line req :
  condition_requires_response c = true -> Condition_reference c url None line req = false.
Proof.
  induction c as [c Hleaf|cs IH|cs IH|c IH] using Condition.ind_nested; intros H.
  - by destruct c.
  - cbn [condition_requires_response] in H. rewrite forallb_forall in H. rewrite Forall_forall in IH.
    cbn [Condition_reference]. apply not_true_iff_false. rewrite existsb_exists. intros (c & Hc & Ht).
    rewrite (IH c) in Ht; [done|by rewrite list_elem_of_In|by apply H].
  - cbn [condition_requires_response] in H. apply existsb_exists in H as (c & Hc & H). rewrite Forall_forall in IH.
    cbn [Condition_reference]. apply not_true_iff_false. rewrite forallb_forall. intros Ht. specialize (Ht c Hc).
    rewrite (IH c) in Ht; [done|by rewrite list_elem_of_In|done].
  - cbn [condition_requires_response] in H. cbn [Condition_reference]. by rewrite H.
Qed.

(** ** Coverage of matchers *)

Section Coverage.
Context {PE : PatternEngines} {PL : PatternLaws PE}.
Context (globs : CompiledGlobSet) (Hglobs : glob_set_wf globs).

Lemma dotted_suffix_prefix_app pre base : dotted_suffix_prefix (pre ++ ch "." :: base) base = Some pre.
Proof.
  unfold dotted_suffix_prefix. change (pre ++ ch "." :: base) with (pre ++ [ch "."] ++ base).
  rewrite app_assoc, strip_suffix_app. cbn [mbind option_bind].
  apply strip_suffix_app.
Qed.
(** [host_matches] through the id of a normalised pattern. *)
Lemma host_matches_reference p h :
  normalize_host p = p -> (host_pattern_uses_regex p = true -> is_Some (glob_id globs p (ch "."))) ->
  host_matches globs p h = host_reference p p h.
Proof.
  intros Hn Hreg. rewrite <- (host_matches_id_reference globs Hglobs p p h Hreg). unfold host_matches.
  fold (normalize_host p). rewrite Hn. unfold host_matches_id. fold (normalize_host p). rewrite Hn. fold (normalize_host h).
  destruct (_ || _) eqn:Estar; [done|].
  destruct (strip_prefix (lit "**.") p) eqn:E1; [done|]. destruct (strip_prefix (lit "*.") p) eqn:E2; [done|].
  destruct (glob_syntax_is_active p) eqn:Ea; [|done]. assert (trim_matches is_bracket p = p) as Ht.
  { rewrite <- Hn. unfold normalize_host. rewrite trim_matches_lower by apply is_bracket_lower. by rewrite trim_matches_idem. }
  unfold host_pattern_uses_regex. rewrite Ht, Ea. apply orb_false_iff in Estar as [-> ->].
  unfold starts_with. by rewrite E1, E2.
Qed.
Lemma host_reference_literal p h :
  normalize_host p = p -> glob_syntax_is_active p = false -> host_reference p p h = true -> normalize_host h = p.
Proof.
  intros Hn Ha. unfold host_reference. rewrite Hn.
  destruct (p =s? lit "**") eqn:E1; [apply bool_decide_eq_true in E1; by subst|].
  destruct (p =s? lit "*") eqn:E2; [apply bool_decide_eq_true in E2; by subst|]. cbn [orb].
  destruct (strip_prefix (lit "**.") p) as [r|] eqn:E3; [apply strip_prefix_Some in E3; by subst|].
  destruct (strip_prefix (lit "*.") p) as [r|] eqn:E4; [apply strip_prefix_Some in E4; by subst|].
  rewrite Ha. by intros ->%bool_decide_eq_true.
Qed.
Lemma host_reference_norm p h h' : normalize_host h = normalize_host h' -> host_reference p p h = host_reference p p h'.
Proof. intros H. unfold host_reference. by rewrite H. Qed.
Lemma host_under_base a base later_base h :
  normalize_host a = a -> strip_prefix (lit "**.") a = Some base ->
  (later_base = base \/ is_some (dotted_suffix_prefix later_base base) = true) ->
  (normalize_host h = later_base \/ is_some (dotted_suffix_prefix (normalize_host h) later_base) = true) ->
  host_reference a a h = true.
Proof.
  intros Hn Hs Hl Hh. unfold host_reference. rewrite Hn. destruct (_ || _); [done|]. rewrite Hs.
  apply orb_true_iff. rewrite bool_decide_eq_true.
  destruct Hl as [->|Hl]; [done|]. right. destruct (dotted_suffix_prefix later_base base) as [pre|] eqn:E1; [|done].
  apply dotted_suffix_prefix_Some in E1 as ->. destruct Hh as [->|Hh]; [by rewrite dotted_suffix_prefix_app|].
  destruct (dotted_suffix_prefix (normalize_host h) _) as [pre'|] eqn:E2; [|done].
  apply dotted_suffix_prefix_Some in E2 as ->.
  change (pre' ++ ch "." :: pre ++ ch "." :: base) with (pre' ++ (ch "." :: pre) ++ ch "." :: base).
  by rewrite app_assoc, dotted_suffix_prefix_app.
Qed.
Lemma host_pattern_subsumes_sound a b h :
  normalize_host a = a -> normalize_host b = b -> (host_pattern_uses_regex a = true -> is_Some (glob_id globs a (ch "."))) ->
  host_pattern_subsumes a b globs = true -> host_reference b b h = true -> host_reference a a h = true.
Proof.
  intros Ha Hb Hreg H Hm. unfold host_pattern_subsumes in H.
  destruct (a =s? b) eqn:E1; [apply bool_decide_eq_true in E1; by subst|].
  destruct (a =s? lit "*") eqn:E2; [apply bool_decide_eq_true in E2; by subst|].
  destruct (a =s? lit "**") eqn:E3; [apply bool_decide_eq_true in E3; by subst|]. cbn [orb] in H.
  destruct (glob_syntax_is_active b) eqn:Eb; cbn [negb] in H; cycle 1.
  { apply host_reference_literal in Hm; [|done..]. rewrite (host_reference_norm a h b) by congruence.
    by rewrite <- host_matches_reference. }
  destruct (strip_prefix (lit "**.") a) as [base|] eqn:Ea; [|done].
  unfold host_reference in Hm. rewrite Hb in Hm.
  destruct (b =s? lit "**") eqn:S1; [apply bool_decide_eq_true in S1; by subst b|].
  destruct (b =s? lit "*") eqn:S2; [apply bool_decide_eq_true in S2; by subst b|]. cbn [orb] in Hm.
  destruct (strip_prefix (lit "**.") b) as [lb|]; [|destruct (strip_prefix (lit "*.") b) as [lb|]; [|done]];
    apply andb_true_iff in H as [_ H]; rewrite orb_true_iff, bool_decide_eq_true in H;
    (eapply host_under_base; [done|done|exact H|]).
  - by rewrite orb_true_iff, bool_decide_eq_true in Hm.
  - right. by destruct (dotted_suffix_prefix _ lb).
Qed.

Lemma glob_captures_any p sep text c c' :
  is_Some (glob_captures_reference p sep text c) -> is_Some (glob_captures_reference p sep text c').
Proof.
  unfold glob_captures_reference, append_glob_captures. destruct (compile_glob_regex p sep) as [r|]; [|by intros []].
  cbn [mbind option_bind]. destruct (regex_captures r text); [|by intros []]. by eexists.
Qed.
Definition path_accepts (p path : str) : Prop :=
  if glob_syntax_is_active p then is_Some (glob_captures_reference p (ch "/") path Captures_default)
  else path_prefix_matches p path = true.
(** A glob matcher accepts a URL when each of its parts does. *)
Lemma GlobMatcher_reference_Some g url :
  is_Some (GlobMatcher_reference g url) <->
  (forall s, gm_scheme g = Some s -> eq_ignore_ascii_case s (up_scheme url) = true) /\
  host_reference (gm_host g) (gm_host g) (up_host url) = true /\
  (forall p, gm_port g = Some p -> exists port, effective_port url = Some port /\ globb (ch ".") p (show_N port) = true) /\
  (forall p, gm_path g = Some p -> path_accepts p (up_path url)) /\
  (forall p, gm_query g = Some p ->
     is_Some (glob_captures_reference p (ch "&") (unwrap_or (up_query url) []) Captures_default)).
Proof.
  unfold GlobMatcher_reference. destruct g as [scheme host port path query]. cbn [gm_scheme gm_host gm_port gm_path gm_query].
  split.
  - intros H. destruct (match scheme with Some _ => _ | None => _ end) eqn:E1; [by destruct H|].
    destruct (host_reference _ _ _) eqn:E2; [|by destruct H]. cbn [negb] in H.
    destruct (match port with Some _ => _ | None => _ end) eqn:E3; [by destruct H|].
    match type of H with is_Some (?x ≫= _) => destruct x as [captures|] eqn:E4; [|by destruct H] end. cbn [mbind option_bind] in H.
    split_and!; [| done | | |].
    + intros s ->. by apply negb_false_iff.
    + intros p ->. destruct (effective_port url) as [n|]; [|done]. exists n. split; [done|]. by apply negb_false_iff.
    + intros p ->. unfold path_accepts. destruct (glob_syntax_is_active p); [by eexists|]. by destruct (path_prefix_matches _ _).
    + intros p ->. by eapply glob_captures_any.
  - intros (H1 & H2 & H3 & H4 & H5).
    assert (match scheme with Some s => negb (eq_ignore_ascii_case s (up_scheme url)) | None => false end = false) as ->.
    { destruct scheme as [s|]; [|done]. by rewrite (H1 s eq_refl). }
    rewrite H2. cbn [negb].
    match goal with |- is_Some (if ?x then _ else _) => assert (x = false) as -> end.
    { destruct port as [p|]; [|done]. destruct (H3 p eq_refl) as (n & -> & Hg). by rewrite Hg. }
    match goal with |- is_Some (?x ≫= _) => assert (is_Some x) as [captures ->] end.
    { destruct path as [p|]; [|by eexists]. specialize (H4 p eq_refl). unfold path_accepts in H4.
      destruct (glob_syntax_is_active p); [done|]. rewrite H4. by eexists. }
    cbn [mbind option_bind]. destruct query as [p|]; [|by eexists]. by eapply glob_captures_any, H5.
Qed.
Lemma option_subsumes_Some a b x : option_subsumes a b = true -> a = Some x -> b = Some x.
Proof. intros H ->. unfold option_subsumes in H. cbn in H. apply bool_decide_eq_true in H. by subst. Qed.

(** A finding on an exact URL without a query is sound when the glob has no
    query pattern either. *)
Definition query_covered (a b : Matcher.t) : Prop :=
  match a, b with
  | Matcher.Glob g, Matcher.ExactUrl e =>
      gm_query g = None \/ match UrlParts_parse e with Ok u => is_some (up_query u) = true | Err _ => True end
  | _, _ => True
  end.
Lemma glob_covers_exact g expected parts url :
  UrlParts_parse expected = Ok parts -> exact_url_matches expected url = true ->
  gm_query g = None \/ is_some (up_query parts) = true ->
  is_Some (GlobMatcher_reference g parts) -> is_Some (GlobMatcher_reference g url).
Proof.
  intros Hp Hm Hq. unfold exact_url_matches in Hm. rewrite Hp in Hm. bool_to_prop.
  rewrite !GlobMatcher_reference_Some. intros (G1 & G2 & G3 & G4 & G5).
  repeat match goal with E : _ = _ url |- _ => rewrite <- E; clear E end.
  split_and!; try done. intros p Hg. destruct Hq as [Hq|Hq]; [congruence|].
  match goal with E : _ || _ = true |- _ => rewrite Hq in E; cbn in E; apply bool_decide_eq_true in E; rewrite <- E end. auto.
Qed.
Lemma matcher_subsumes_sound a b url raw :
  match a with Matcher.Glob g => normalize_host (gm_host g) = gm_host g | _ => True end ->
  match b with Matcher.Glob g => normalize_host (gm_host g) = gm_host g | _ => True end ->
  registered globs (matcher_globs a) -> query_covered a b -> matcher_subsumes a b globs = true ->
  is_Some (Matcher_reference b url raw) -> is_Some (Matcher_reference a url raw).
Proof.
  intros Ha Hb Hreg Hq H Hm. destruct a as [ea|ga| | |], b as [eb|gb| | |]; try done; cbn [matcher_subsumes] in H.
  - apply bool_decide_eq_true in H. by subst.
  - destruct (UrlParts_parse eb) as [parts|] eqn:Ep; [|done].
    rewrite (Matcher_bind globs Hglobs) in H by done. cbn [Matcher_reference query_covered] in *. rewrite Ep in Hq.
    destruct (exact_url_matches eb url) eqn:Ee; [|by destruct Hm].
    eapply glob_covers_exact; [done|done|done|]. destruct (GlobMatcher_reference ga parts); [by eexists|done].
  - cbn [Matcher_reference] in *. unfold glob_subsumes in H. bool_to_prop. rewrite GlobMatcher_reference_Some in *.
    destruct Hm as (H1' & H2' & H3' & H4' & H5').
    split_and!; try (intros ? ?; match goal with G : forall _, ?f gb = _ -> _ |- _ => eapply G, option_subsumes_Some; eassumption end).
    eapply host_pattern_subsumes_sound; [done|exact Hb| |done|done]. intros Hu.
    cbn [matcher_globs] in Hreg. rewrite Hu in Hreg. apply registered_app in Hreg as [Hreg _]. by apply registered_one in Hreg.
Qed.
End Coverage.

(** ** Claimed families *)

Section Claims.

(** No single action of the family can be added any more. *)
Definition claimed (st : ResolveState) (f : ActionFamily.t) : bool :=
  SkipState.suppresses (s_skip st) f || ActionFamilySet.contains (s_single_families st) f.

Lemma single_available a inc : Action.is_single a = true -> action_for_body_availability a inc = Some (Action.clone a).
Proof. destruct inc; [done|]. destruct a as []; try done; by destruct op. Qed.
Lemma family_clone a : Action.family (Action.clone a) = Action.family a.
Proof. by destruct a. Qed.
Lemma is_single_clone a : Action.is_single (Action.clone a) = Action.is_single a.
Proof. unfold Action.is_single, Action.is_stackable. by rewrite family_clone. Qed.
Lemma claimed_kept brief captures response inc st a f :
  claimed st f = true -> claimed (visit_action brief captures response inc st a) f = true.
Proof.
  intros H. apply visit_action_cases; [done|]. intros a' _ _ _. unfold claimed in *. cbn [s_skip s_single_families].
  rewrite suppresses_observe. apply orb_true_iff in H as [H|H]; [by rewrite H|]. apply orb_true_iff. right.
  destruct (Action.is_single a'); [|done]. by rewrite contains_insert, H, orb_true_r.
Qed.
Lemma claimed_kept_actions brief captures response inc acts st f :
  claimed st f = true -> claimed (fold_left (visit_action brief captures response inc) acts st) f = true.
Proof. revert st. induction acts as [|x acts IH]; intros st H; [done|]. cbn [fold_left]. by apply IH, claimed_kept. Qed.
Lemma visit_action_claims brief captures response inc st a :
  Action.is_single a = true -> claimed (visit_action brief captures response inc st a) (Action.family a) = true.
Proof.
  intros Hs. unfold visit_action. rewrite single_available, family_clone, is_single_clone, Hs by done. unfold claimed.
  destruct (SkipState.suppresses (s_skip st) _) eqn:E1; [by rewrite E1|]. cbn [andb].
  destruct (ActionFamilySet.contains (s_single_families st) _) eqn:E2; [by rewrite E2, orb_true_r|].
  destruct (decide _); cbn [s_skip s_single_families]; by rewrite contains_insert, bool_decide_eq_true_2, orb_true_r.
Qed.
Lemma visit_action_claimed brief captures response inc st a :
  Action.is_single a = true -> claimed st (Action.family a) = true -> visit_action brief captures response inc st a = st.
Proof.
  intros Hs Hc. unfold visit_action. rewrite single_available, family_clone, is_single_clone, Hs by done. unfold claimed in Hc.
  destruct (SkipState.suppresses (s_skip st) _); [done|]. cbn [orb] in Hc. by rewrite Hc.
Qed.
(** A rule claims the families of its single actions. *)
Lemma visit_actions_claim brief captures response inc acts st a :
  a ∈ acts -> Action.is_single a = true ->
  claimed (fold_left (visit_action brief captures response inc) acts st) (Action.family a) = true.
Proof.
  intros Ha Hs. apply list_elem_of_split in Ha as (pre & post & ->). rewrite fold_left_app. cbn [fold_left].
  by apply claimed_kept_actions, visit_action_claims.
Qed.

(** ** Dead actions *)

(** The rule without its actions of some families. *)
Definition without_families (families : list str) (rule : Rule) : Rule :=
  mkRule (r_group rule) (r_line rule) (r_raw rule) (r_matcher rule)
    (List.filter (fun a => negb (list_mem (family_name a) families)) (r_actions rule))
    (r_conditions rule) (r_important rule) (r_disabled rule) (r_tags rule).
Lemma as_str_inj f g : ActionFamily.as_str f = ActionFamily.as_str g -> f = g.
Proof. intros H. pose proof (from_name_as_str f) as Hf. rewrite H, from_name_as_str in Hf. by injection Hf. Qed.
Lemma list_mem_elem x l : list_mem x l = true <-> x ∈ l.
Proof.
  unfold list_mem. rewrite existsb_exists. setoid_rewrite <- list_elem_of_In. setoid_rewrite bool_decide_eq_true. naive_solver.
Qed.
(** The single families behind names. *)
Definition single_names (families : list str) : Prop :=
  forall name, name ∈ families -> exists a, Action.is_single a = true /\ family_name a = name.
Definition all_claimed (families : list str) (st : ResolveState) : Prop :=
  forall f, ActionFamily.as_str f ∈ families -> claimed st f = true.
Lemma single_of_name families a : single_names families -> family_name a ∈ families -> Action.is_single a = true.
Proof.
  intros H Ha. destruct (H _ Ha) as (b & Hb & E). apply as_str_inj in E. unfold Action.is_single, Action.is_stackable in *.
  by rewrite <- E.
Qed.
Lemma without_families_same families rule captures response inc st :
  single_names families -> all_claimed families st ->
  visit_rule_actions (without_families families rule) captures response inc st =
  visit_rule_actions rule captures response inc st.
Proof.
  intros Hn. unfold visit_rule_actions. change (rule_brief (without_families families rule)) with (rule_brief rule).
  cbn [r_actions without_families]. revert st. induction (r_actions rule) as [|a acts IH]; intros st Hc; [done|].
  cbn [List.filter fold_left]. destruct (list_mem (family_name a) families) eqn:E; cbn [negb].
  - apply list_mem_elem in E. rewrite (visit_action_claimed _ _ _ _ st a); [by apply IH|by eapply single_of_name|by apply Hc].
  - cbn [fold_left]. apply IH. intros f Hf. by apply claimed_kept, Hc.
Qed.
End Claims.

Section Shadowing.
Context {PE : PatternEngines}.
Context (rules : list Rule) (req : RequestMeta) (res : option ResponseMeta) (inc : bool).
Let parts := ok (UrlParts_parse (req_url req)).

Lemma visit_reference_kept st i f :
  claimed st f = true -> claimed (visit_reference rules parts req res inc st i) f = true.
Proof. intros H. unfold visit_reference. repeat case_match; try done. by apply claimed_kept_actions. Qed.
Lemma visit_references_kept order st f :
  claimed st f = true -> claimed (fold_left (visit_reference rules parts req res inc) order st) f = true.
Proof. revert st. induction order as [|i order IH]; intros st H; [done|]. cbn [fold_left]. by apply IH, visit_reference_kept. Qed.
Lemma visited_claims order st i earlier captures a :
  i ∈ order -> rules !! i = Some earlier -> rule_reference earlier parts req res inc = Some captures ->
  a ∈ r_actions earlier -> Action.is_single a = true ->
  claimed (fold_left (visit_reference rules parts req res inc) order st) (Action.family a) = true.
Proof.
  intros Hi He Hr Ha Hs. apply list_elem_of_split in Hi as (pre & post & ->). rewrite fold_left_app. cbn [fold_left].
  apply visit_references_kept. unfold visit_reference at 1. rewrite He, Hr. by apply visit_actions_claim.
Qed.
Lemma not_important_alter j rule families :
  rules !! j = Some rule ->
  forall i, not_important (<[j := without_families families rule]> rules) i = not_important rules i.
Proof.
  intros Hj i. unfold not_important. destruct (decide (i = j)) as [->|Hne].
  - rewrite list_lookup_insert_eq, Hj; [done|by eapply lookup_lt_Some].
  - by rewrite list_lookup_insert_ne.
Qed.
Lemma priority_order_alter j rule families :
  rules !! j = Some rule -> priority_order (<[j := without_families families rule]> rules) = priority_order rules.
Proof.
  intros Hj. unfold priority_order. rewrite length_insert. f_equal; apply filter_ext; intros i; by rewrite (not_important_alter j rule).
Qed.
(** Actions of families that are claimed whenever their rule matches are dead:
    the rule without them resolves every request alike. *)
Lemma dead_actions j rule families pre post :
  rules !! j = Some rule -> priority_order rules = pre ++ j :: post -> single_names families ->
  (is_Some (rule_reference rule parts req res inc) ->
     all_claimed families (fold_left (visit_reference rules parts req res inc) pre ResolveState_init)) ->
  resolve_reference (<[j := without_families families rule]> rules) req res inc = resolve_reference rules req res inc.
Proof.
  intros Hj Ho Hn Hc. unfold resolve_reference. fold parts. rewrite (priority_order_alter j rule families Hj), Ho.
  assert (Hnd : NoDup (pre ++ j :: post)) by (rewrite <- Ho; apply NoDup_priority_order).
  apply NoDup_app in Hnd as (_ & Hpre & [Hj' _]%NoDup_cons).
  assert (Hother : forall l st, j ∉ l -> fold_left (visit_reference (<[j := without_families families rule]> rules) parts req res inc) l st =
                                        fold_left (visit_reference rules parts req res inc) l st).
  { intros l st Hl. apply fold_left_ext_in. intros i Hi st'. unfold visit_reference. rewrite list_lookup_insert_ne; [done|].
    intros ->. done. }
  rewrite !fold_left_app. cbn [fold_left]. rewrite Hother by done.
  rewrite Hother by (intros Hin; by apply (Hpre j Hin), list_elem_of_here). set (st := fold_left _ pre _) in *.
  assert (Hvisit : visit_reference (<[j := without_families families rule]> rules) parts req res inc st j =
                   visit_reference rules parts req res inc st j); [|by rewrite Hvisit].
  unfold visit_reference. rewrite list_lookup_insert_eq, Hj by (by eapply lookup_lt_Some).
  change (rule_reference (without_families families rule) parts req res inc) with (rule_reference rule parts req res inc).
  destruct (rule_reference rule parts req res inc); [|done]. apply without_families_same; [done|by apply Hc].
Qed.
End Shadowing.

(** ** What the shadow lint reports *)

Section Findings.
Context {PE : PatternEngines}.
Context (globs : CompiledGlobSet).

(** [earlier] comes before [later] and covers it for the families [shared]. *)
Record shadows (earlier later : Ordered) (shared : list str) : Prop := {
  shadows_unconditional : r_conditions (od_rule earlier) = [];
  shadows_some : shared <> [];
  shadows_families : shared ⊆ od_families earlier;
  shadows_later : shared ⊆ od_families later;
  shadows_subsumes : matcher_subsumes (r_matcher (od_rule earlier)) (r_matcher (od_rule later)) globs = true;
}.
Definition explained (laters : list Ordered) (finding : LintFinding) : Prop :=
  exists before later rest earlier shared,
    laters = before ++ later :: rest /\ earlier ∈ before /\ shadows earlier later shared /\
    finding = shadow_finding (od_rule later) (od_rule earlier) shared.
Lemma lint_earlier_explained laters before later rest earliers remaining st :
  laters = before ++ later :: rest -> earliers ⊆ before -> remaining ⊆ od_families later ->
  Forall (explained laters) (ls_findings st) ->
  Forall (explained laters) (ls_findings (lint_earlier globs later remaining st earliers).1).
Proof.
  intros Hl. revert remaining st. induction earliers as [|earlier earliers IH]; intros remaining st Hin Hr Hst; [done|].
  cbn [lint_earlier]. case_match; [done|]. assert (earliers ⊆ before) by set_solver.
  destruct (is_emptyb (r_conditions _)) eqn:Hc; cbn [negb]; [|by apply IH].
  set (shared := List.filter _ (od_families earlier)).
  destruct (is_emptyb shared) eqn:Hsome; [by apply IH|].
  destruct (matcher_subsumes _ _ _) eqn:Hm; cbn [negb]; [|by apply IH]. case_match; [done|].
  assert (Hst' : Forall (explained laters) (ls_findings st ++ [shadow_finding (od_rule later) (od_rule earlier) shared])).
  { apply Forall_app. split; [done|]. constructor; [|done].
    exists before, later, rest, earlier, shared. split_and!; [done|set_solver| |done].
    split; [by destruct (r_conditions _)|by intros Hnil; rewrite Hnil in Hsome| | |done];
      subst shared; intros x [Hx Hy%list_mem_elem]%list_elem_of_In%List.filter_In; [by apply list_elem_of_In|set_solver]. }
  case_match; [done|apply IH; [done| |done]]. intros x. rewrite list_elem_of_In, List.filter_In, <- list_elem_of_In. set_solver.
Qed.
Lemma lint_later_explained laters visited st rest :
  laters = visited ++ rest -> Forall (explained laters) (ls_findings st) ->
  Forall (explained laters) (ls_findings (lint_later globs visited st rest).1).
Proof.
  revert visited st. induction rest as [|later rest IH]; intros visited st Hl Hst; [done|]. cbn [lint_later].
  assert (Hl' : laters = (visited ++ [later]) ++ rest) by (by rewrite <- app_assoc).
  case_match; [by apply IH|].
  pose proof (lint_earlier_explained laters visited later rest visited (od_families later) st Hl ltac:(done) ltac:(done) Hst) as H'.
  destruct (lint_earlier _ _ _ _ _) as [st' [|]]; [by apply IH|done].
Qed.
End Findings.

(** ** From findings to dead actions *)

Lemma effective_subset skip acts : effective_actions_from skip acts ⊆ acts.
Proof.
  revert skip. induction acts as [|a acts IH]; intros skip; cbn [effective_actions_from]; [done|].
  specialize (IH skip) as H1. specialize (IH (SkipState.observe skip a)) as H2. case_match; set_solver.
Qed.
Lemma single_families_actions rule name :
  name ∈ single_families rule -> exists a, a ∈ r_actions rule /\ Action.is_single a = true /\ family_name a = name.
Proof.
  unfold single_families. pose proof (effective_subset SkipState.default (r_actions rule)) as Hsub.
  fold (effective_actions rule) in Hsub. revert Hsub. generalize (effective_actions rule) as acts.
  assert (H : forall acts init, acts ⊆ r_actions rule ->
    name ∈ fold_left (fun families a => if Action.is_single a then add_new families (ActionFamily.as_str (Action.family a)) else families) acts init ->
    name ∈ init \/ exists a, a ∈ r_actions rule /\ Action.is_single a = true /\ family_name a = name).
  { induction acts as [|a acts IH]; intros init Hsub Hin; [by left|]. cbn [fold_left] in Hin.
    apply IH in Hin as [Hin|?]; [|by right|set_solver].
    destruct (Action.is_single a) eqn:Hs; [|by left]. unfold add_new in Hin. case_match; [by left|].
    apply elem_of_app in Hin as [?|Hin]; [by left|]. apply list_elem_of_singleton in Hin as ->.
    right. exists a. split_and!; [set_solver|done|done]. }
  intros acts Hsub Hin. apply H in Hin as [[]%not_elem_of_nil|?]; done.
Qed.
Lemma omap_split {A B} (f : A -> option B) l before y rest :
  omap f l = before ++ y :: rest ->
  exists l1 x l2, l = l1 ++ x :: l2 /\ omap f l1 = before /\ f x = Some y.
Proof.
  revert before. induction l as [|x l IH]; intros before H; [by destruct before|]. cbn in H.
  destruct (f x) as [z|] eqn:E.
  - destruct before as [|b before]; injection H as -> H.
    + exists [], x, l. done.
    + apply IH in H as (l1 & x' & l2 & -> & <- & Hx). exists (x :: l1), x', l2. split_and!; [done| |done]. cbn. by rewrite E.
  - apply IH in H as (l1 & x' & l2 & -> & <- & Hx). exists (x :: l1), x', l2. split_and!; [done| |done]. cbn. by rewrite E.
Qed.
Lemma omap_filter {A B} (f : A -> option B) p l :
  omap f (List.filter p l) = omap (fun x => if p x then f x else None) l.
Proof. induction l as [|x l IH]; [done|]. cbn. destruct (p x); cbn; by rewrite IH. Qed.
(** The lint reads the enabled rules in priority order. *)
Definition ordered_at (rules : list Rule) (i : nat) : option Ordered :=
  match rules !! i with
  | Some rule =>
      if r_disabled rule then None else Some (mkOrdered rule (single_families rule) (matcher_source_bytes (r_matcher rule)))
  | None => None
  end.
Lemma lint_order_priority rs : lint_order rs = omap (ordered_at (rs_rules rs)) (priority_order (rs_rules rs)).
Proof.
  unfold lint_order. rewrite sort_candidates; [|apply NoDup_ListNoDup, List.NoDup_filter, NoDup_ListNoDup, NoDup_seq|].
  2: { intros x. rewrite list_elem_of_In, List.filter_In, <- list_elem_of_In, elem_of_seq. lia. }
  rewrite omap_filter. apply list_omap_ext, Forall_Forall2_diag, Forall_true. intros i. unfold ordered_at.
  destruct (rs_rules rs !! i) as [rule|] eqn:E; [|by case_match].
  assert (Hin : bool_decide (i ∈ List.filter (fun i => match rs_rules rs !! i with Some rule => negb (r_disabled rule) | None => false end)
          (seq 0 (length (rs_rules rs)))) = negb (r_disabled rule)); [|rewrite Hin; by destruct (r_disabled rule)].
  apply eq_true_iff_eq. rewrite bool_decide_eq_true, list_elem_of_In, List.filter_In, <- list_elem_of_In, elem_of_seq, E.
  apply lookup_lt_Some in E. naive_solver lia.
Qed.

Section Dead.
Context {PE : PatternEngines} {PL : PatternLaws PE}.

Lemma unconditional_matches rule parts req res inc :
  r_disabled rule = false -> r_conditions rule = [] ->
  rule_reference rule parts req res inc = (url ← parts; Matcher_reference (r_matcher rule) url (req_url req)).
Proof.
  intros Hd Hc. unfold rule_reference. rewrite Hd, Hc. cbn [existsb forallb]. rewrite andb_false_r.
  by destruct (parts ≫= _).
Qed.
Lemma rule_reference_matches rule parts req res inc :
  is_Some (rule_reference rule parts req res inc) -> exists url, parts = Some url /\ is_Some (Matcher_reference (r_matcher rule) url (req_url req)).
Proof.
  unfold rule_reference. intros [x Hx]. case_match; [done|]. destruct parts as [url|]; [|done]. exists url. split; [done|].
  cbn [mbind option_bind] in Hx. destruct (Matcher_reference _ _ _); [by eexists|done].
Qed.
Lemma shadowed_actions_dead rules globs pre j post i earlier later req res inc :
  CompiledGlobSet_build rules = Some globs -> Forall (rule_parsed MAX_RULE_SOURCE_LINE_BYTES) rules ->
  priority_order rules = pre ++ j :: post -> i ∈ pre ->
  ordered_at rules i = Some earlier -> ordered_at rules j = Some later ->
  forall shared, shadows globs earlier later shared -> query_covered (r_matcher (od_rule earlier)) (r_matcher (od_rule later)) ->
  resolve_reference (<[j := without_families shared (od_rule later)]> rules) req res inc = resolve_reference rules req res inc.
Proof.
  intros Hg Hp Ho Hi He Hl shared [Hc _ Hs _ Hm] Hq. unfold ordered_at in He, Hl.
  destruct (rules !! i) as [re|] eqn:Ei; [|done]. destruct (r_disabled re) eqn:Ed; [done|]. injection He as <-.
  destruct (rules !! j) as [rl|] eqn:Ej; [|done]. destruct (r_disabled rl); [done|]. injection Hl as <-. cbn [od_rule od_families] in *.
  apply (dead_actions rules req res inc j rl shared pre post); [done|done| |].
  - intros name Hn. apply Hs, single_families_actions in Hn as (a & _ & Ha). by exists a.
  - intros (url & Hu & Hmatch)%rule_reference_matches f Hf. apply Hs, single_families_actions in Hf as (a & Ha & Hsingle & E).
    apply as_str_inj in E. subst f.
    destruct (CompiledGlobSet_build_spec _ _ Hg) as [Hwf Hreg].
    pose proof (Forall_lookup_1 _ _ _ _ Hreg Ei) as [Hre _].
    pose proof (Forall_lookup_1 _ _ _ _ Hp Ei) as [[_ Hpe] _]. pose proof (Forall_lookup_1 _ _ _ _ Hp Ej) as [[_ Hpl] _].
    assert (Hmatched : is_Some (Matcher_reference (r_matcher re) url (req_url req))).
    { apply (matcher_subsumes_sound globs Hwf (r_matcher re) (r_matcher rl)); try done; by repeat case_match. }
    destruct Hmatched as [captures Hcap]. eapply visited_claims; [done|done| |done|done].
    rewrite unconditional_matches, Hu by done. exact Hcap.
Qed.
End Dead.

Section ShadowTheorem.
Context {PE : PatternEngines} {PL : PatternLaws PE}.

Lemma lint_report_explained rs finding :
  finding ∈ lr_findings (lint_report rs) -> explained (ix_compiled_globs (rs_index rs)) (lint_order rs) finding.
Proof.
  unfold lint_report.
  pose proof (lint_later_explained (ix_compiled_globs (rs_index rs)) (lint_order rs) [] (mkLintState [] 0 0 0) (lint_order rs)
    eq_refl (Forall_nil_2 _)) as H.
  destruct (lint_later _ _ _ _) as [st c]. cbn [lr_findings fst] in *. rewrite Forall_forall in H. apply H.
Qed.
(** C12: What the shadow lint reports is dead code: a finding names an enabled
    rule of the source and some of its actions, and a rule set without those
    actions resolves every request to the same result. The exact-URL matcher is
    the exception: it needs a covering glob without query pattern. *)
Theorem shadow_lint_reports_dead_actions h version groups rs f :
  parse_groups_with_profile h version groups = Some (Ok rs) -> f ∈ lr_findings (lint_report rs) ->
  lf_families f <> [] /\
  exists i j earlier later,
    rs_rules rs !! i = Some earlier /\ rs_rules rs !! j = Some later /\ f = shadow_finding later earlier (lf_families f) /\
    (forall name, name ∈ lf_families f ->
       exists a, a ∈ r_actions later /\ Action.is_single a = true /\ family_name a = name) /\
    (query_covered (r_matcher earlier) (r_matcher later) -> forall req res inc, valid_str (req_url req) = true ->
       resolve_reference (<[j := without_families (lf_families f) later]> (rs_rules rs)) req res inc =
       resolve_inner rs req res inc).
Proof.
  intros (rules & ix & Hr & Hix & ->)%parse_groups_Ok (before & later & rest & earlier & shared & Ho & He & Hs & ->)%lint_report_explained.
  cbn [rs_rules rs_index lf_families shadow_finding] in *. apply reference_source_parsed in Hr as [Hr _].
  split; [apply Hs|]. rewrite lint_order_priority in Ho. apply omap_split in Ho as (pre & j & post & Ho & <- & Hl).
  apply list_elem_of_omap in He as (i & Hi & He). exists i, j, (od_rule earlier), (od_rule later).
  assert (Hat : forall k o, ordered_at rules k = Some o -> rules !! k = Some (od_rule o) /\ od_families o = single_families (od_rule o)).
  { intros k o. unfold ordered_at. repeat case_match; try done. by intros [= <-]. }
  split_and!; [by apply Hat|by apply Hat|done| |].
  - intros name Hn%(shadows_later _ _ _ _ Hs). destruct (Hat _ _ Hl) as [_ Hf]. rewrite Hf in Hn.
    by apply single_families_actions.
  - intros Hq req res inc Hv. rewrite resolve_inner_reference; [|by apply RuleIndex_build_ok| |done].
    2: { eapply Forall_impl; [exact Hr|]. apply rule_parsed_wf. }
    eapply shadowed_actions_dead; try done. by apply (io_globs _ _ (RuleIndex_build_ok _ _ Hix)).
Qed.
End ShadowTheorem.

(** ** The shadow lint at concrete sources *)

Definition shadowed_source : list (str * str) :=
  [(lit "main", lit "**.example.com status(404)" ++ [10] ++ lit "*.example.com/a/** status(500) res.header(x-a: 1)")].
Lemma shadowed_source_lint :
  match parse_groups_with_profile false 1 shadowed_source with
  | Some (Ok rs) => map (fun f => (lf_line f, lf_shadowed_by_line f, lf_families f)) (lr_findings (lint_report rs)) = [(2, 1, [lit "status"])]
  | _ => False
  end.
Proof. by vm_compute. Qed.
Lemma shadow_lint_reports_dead_actions_witness :
  match parse_groups_with_profile false 1 shadowed_source with
  | Some (Ok rs) =>
      match lr_findings (lint_report rs) with
      | f :: _ =>
          lf_families f <> [] /\
          exists i j earlier later, rs_rules rs !! i = Some earlier /\ rs_rules rs !! j = Some later /\
            f = shadow_finding later earlier (lf_families f) /\ r_line later = 2
      | [] => False
      end
  | _ => False
  end.
Proof.
  pose proof shadowed_source_lint as H. destruct (parse_groups_with_profile false 1 shadowed_source) as [[rs|]|] eqn:E; [|done..].
  destruct (lr_findings (lint_report rs)) as [|f fs] eqn:Ef; [done|]. injection H as Hline _ _ _.
  assert (Hin : f ∈ lr_findings (lint_report rs)) by (rewrite Ef; left).
  destruct (shadow_lint_reports_dead_actions false 1 shadowed_source rs f E Hin) as (Hn & i & j & earlier & later & Hi & Hj & Hf & _).
  split; [exact Hn|]. exists i, j, earlier, later. split_and!; [exact Hi|exact Hj|exact Hf|]. by rewrite <- Hline, Hf.
Defined.

(** An exact URL without a query accepts every query, which the covering glob
    need not. *)
Definition exact_source : list (str * str) :=
  [(lit "main", lit "a.test/p?* status(404)" ++ [10] ++ lit "=http://a.test/p status(500)")].
(** On an exact-URL rule without a query the shadow lint is wrong when the
    earlier glob constrains the query: of the rules [a.test/p?*] and
    [=http://a.test/p] it reports the second's status action as shadowed, but a
    request with two query parameters is answered by exactly that action. *)
Theorem shadow_lint_misjudges_exact_urls :
  match parse_groups 1 exact_source with
  | Some (Ok rs) =>
      map (fun f => (lf_line f, lf_shadowed_by_line f, lf_families f)) (lr_findings (lint_report rs)) = [(2, 1, [lit "status"])] /\
      map ra_action (rr_actions (resolve_inner rs (sample_request "http://a.test/p?a=1&b=2") None true)) = [Action.Status 500]
  | _ => False
  end.
Proof. by vm_compute. Qed.
