(* ===== verification/SemanticLintProofs.v ===== *)
(** * The semantic lint tells the truth

    What semantic_lint.rs reports of one rule, stated of resolution: a rule with
    unsatisfiable conditions never matches, one that needs a response never
    matches a request, and an action reported as a duplicate or as suppressed by
    an earlier skip can be deleted without changing what the rule contributes. *)
From Stdlib Require Import Ascii String.
From stdpp Require Import base numbers list gmap strings.
From S2P Require Import Prelude Family Utf8 Format NetAddr Model Url Syntax Engines Matching Evaluate Index.
From S2P Require Import Resolve Reference Refinement ParseOps ParseMatch Values ParseRule Lint ParseWf.
From S2P Require Import ParseProofs LintProofs.

(** The rule with other actions. *)
Definition with_actions (rule : Rule) (actions : list Action.t) : Rule :=
  mkRule (r_group rule) (r_line rule) (r_raw rule) (r_matcher rule) actions (r_conditions rule) (r_important rule)
    (r_disabled rule) (r_tags rule).
(** The rule has an action of the named family without which it contributes the
    same, wherever the states of resolution satisfy [P]. *)
Definition superfluous (P : ResolveState -> Prop) (rule : Rule) (name : str) : Prop :=
  exists pre a post, r_actions rule = pre ++ a :: post /\ family_name a = name /\
    forall captures response inc st, P st ->
      visit_rule_actions (with_actions rule (pre ++ post)) captures response inc st =
      visit_rule_actions rule captures response inc st.
Lemma superfluous_intro (P : ResolveState -> Prop) rule pre a post :
  r_actions rule = pre ++ a :: post ->
  (forall captures response inc st, P st ->
     let st' := fold_left (visit_action (rule_brief rule) captures response inc) pre st in
     visit_action (rule_brief rule) captures response inc st' a = st') ->
  superfluous P rule (family_name a).
Proof.
  intros E H. exists pre, a, post. split_and!; [done|done|]. intros captures response inc st Hst.
  unfold visit_rule_actions. change (rule_brief (with_actions rule (pre ++ post))) with (rule_brief rule).
  cbn [r_actions with_actions]. rewrite E, !fold_left_app. cbn [fold_left]. by rewrite H.
Qed.

Lemma bset_insert_elem x y s : x ∈ bset_insert y s -> x = y \/ x ∈ s.
Proof. induction s as [|z s IH]; cbn [bset_insert]; [set_solver|]. case_match; set_solver. Qed.
Lemma sorted_set_elem x l : x ∈ sorted_set l -> x ∈ l.
Proof.
  unfold sorted_set. enough (H : forall s, x ∈ fold_left (fun s x => bset_insert x s) l s -> x ∈ s \/ x ∈ l).
  { intros [[]%not_elem_of_nil|?]%H; done. }
  induction l as [|y l IH]; intros s; cbn [fold_left]; [by left|]. intros [[->|?]%bset_insert_elem|?]%IH; set_solver.
Qed.

(** ** Duplicates *)

Lemma duplicate_names_split seen skip acts name :
  name ∈ duplicate_names seen (effective_actions_from skip acts) ->
  exists pre a post, acts = pre ++ a :: post /\ family_name a = name /\ Action.is_single a = true /\
    (Action.family a ∈ seen \/ exists b, b ∈ pre /\ Action.is_single b = true /\ Action.family b = Action.family a).
Proof.
  revert seen skip. induction acts as [|x acts IH]; intros seen skip; [intros []%not_elem_of_nil|].
  cbn [effective_actions_from].
  assert (Hlater : forall seen' skip', seen' ⊆ Action.family x :: seen -> (Action.is_single x = true \/ seen' ⊆ seen) ->
    name ∈ duplicate_names seen' (effective_actions_from skip' acts) ->
    exists pre a post, x :: acts = pre ++ a :: post /\ family_name a = name /\ Action.is_single a = true /\
      (Action.family a ∈ seen \/ exists b, b ∈ pre /\ Action.is_single b = true /\ Action.family b = Action.family a)).
  { intros seen' skip' Hsub Hx (pre & a & post & -> & Hn & Hs & Hor)%IH. exists (x :: pre), a, post. split_and!; [done..|].
    destruct Hor as [Hin|(b & Hb & Hb')]; [|right; exists b; set_solver].
    destruct Hx as [Hx|Hx]; [|left; set_solver]. apply Hsub, elem_of_cons in Hin as [Hin|Hin]; [|by left].
    right. exists x. set_solver. }
  case_match; [apply Hlater; set_solver|]. cbn [duplicate_names].
  destruct (Action.is_single x) eqn:Hs; [|apply Hlater; set_solver].
  case_bool_decide as Hseen; [|apply Hlater; set_solver].
  intros [->|H']%elem_of_cons; [|revert H'; apply Hlater; set_solver].
  exists [], x, acts. split_and!; [done..|by left].
Qed.
Lemma duplicates_superfluous rule name :
  name ∈ duplicate_single_families (effective_actions rule) -> superfluous (fun _ => True) rule name.
Proof.
  intros (pre & a & post & E & <- & Hs & Hor)%sorted_set_elem%duplicate_names_split.
  eapply superfluous_intro; [done|]. intros captures response inc st _. apply visit_action_claimed; [done|].
  destruct Hor as [[]%not_elem_of_nil|(b & Hb & Hsb & <-)]. by apply visit_actions_claim.
Qed.

(** ** Suppressed actions *)

Definition skips (st : ResolveState) (f : ActionFamily.t) : bool := SkipState.suppresses (s_skip st) f.
(** Resolution suppresses at least what the lint takes to be suppressed, and no
    skip that the lint takes to run. *)
Definition skip_tracks (skip : SkipState.t) (st : ResolveState) : Prop :=
  (forall f, SkipState.suppresses skip f = true -> skips st f = true) /\
  (skips st ActionFamily.Skip = true -> SkipState.suppresses skip ActionFamily.Skip = true).
Lemma available_family a inc a' : action_for_body_availability a inc = Some a' -> Action.family a' = Action.family a.
Proof.
  unfold action_for_body_availability. destruct inc; [intros [= <-]; apply family_clone|].
  destruct a; try done; try (intros <-%(inj Some); apply family_clone). cbv zeta. case_match; [|done]. by intros [= <-].
Qed.
Lemma suppressed_noop brief captures response inc st a :
  skips st (Action.family a) = true -> visit_action brief captures response inc st a = st.
Proof.
  intros H. apply visit_action_cases; [done|]. intros a' Ha Hf _. unfold skips in H.
  apply available_family in Ha. by rewrite Ha, H in Hf.
Qed.
Lemma skip_action_observed brief captures response inc st families :
  skips st ActionFamily.Skip = false ->
  s_skip (visit_action brief captures response inc st (Action.Skip families)) = SkipState.observe (s_skip st) (Action.Skip families).
Proof.
  intros H. unfold visit_action, skips in *. replace (action_for_body_availability (Action.Skip families) inc)
    with (Some (Action.Skip families)) by (by destruct inc). cbn [Action.family]. rewrite H. cbn. by destruct (decide _).
Qed.
Lemma other_action_skip brief captures response inc st a :
  Action.family a <> ActionFamily.Skip -> s_skip (visit_action brief captures response inc st a) = s_skip st.
Proof.
  intros H. apply visit_action_cases; [done|]. intros a' Ha _ _. cbn [s_skip].
  apply available_family in Ha. rewrite <- Ha in H. by destruct a'.
Qed.
Lemma skip_tracks_step brief captures response inc skip st a :
  SkipState.suppresses skip (Action.family a) = false -> skip_tracks skip st ->
  skip_tracks (SkipState.observe skip a) (visit_action brief captures response inc st a).
Proof.
  intros Hn [Ht Hs]. destruct (decide (Action.family a = ActionFamily.Skip)) as [E|E].
  - rewrite E in Hn. assert (Hst : skips st ActionFamily.Skip = false).
    { destruct (skips st ActionFamily.Skip); [|done]. by rewrite Hs in Hn. }
    destruct a; try discriminate E; try (destruct op; discriminate E); try (destruct phase; discriminate E).
    unfold skip_tracks, skips. rewrite skip_action_observed by done. split.
    + intros f. rewrite !suppresses_observe, !orb_true_iff. intros [Hf|Hf]; [left; by apply Ht|by right].
    + rewrite !suppresses_observe, !orb_true_iff. intros [Hf|Hf]; [|by right]. unfold skips in Hst. congruence.
  - unfold skip_tracks, skips. rewrite other_action_skip by done.
    replace (SkipState.observe skip a) with skip by (by destruct a). done.
Qed.
Lemma suppressed_names_split skip acts name :
  name ∈ suppressed_names skip acts ->
  exists pre a post, acts = pre ++ a :: post /\ family_name a = name /\
    forall brief captures response inc st, skip_tracks skip st ->
      skips (fold_left (visit_action brief captures response inc) pre st) (Action.family a) = true.
Proof.
  revert skip. induction acts as [|x acts IH]; intros skip; [intros []%not_elem_of_nil|]. cbn [suppressed_names].
  destruct (SkipState.suppresses skip (Action.family x)) eqn:E.
  - intros [->|H]%elem_of_cons.
    + exists [], x, acts. split_and!; [done..|]. intros brief captures response inc st [Ht _]. by apply Ht.
    + apply IH in H as (pre & a & post & -> & Hn & H). exists (x :: pre), a, post. split_and!; [done..|].
      intros brief captures response inc st Hst. cbn [fold_left]. rewrite suppressed_noop; [by apply H|by apply Hst].
  - intros (pre & a & post & -> & Hn & H)%IH. exists (x :: pre), a, post. split_and!; [done..|].
    intros brief captures response inc st Hst. cbn [fold_left]. by apply H, skip_tracks_step.
Qed.
Lemma suppressed_superfluous rule name :
  name ∈ actions_after_skip rule -> superfluous (fun st => skips st ActionFamily.Skip = false) rule name.
Proof.
  intros (pre & a & post & E & <- & H)%sorted_set_elem%suppressed_names_split.
  eapply superfluous_intro; [done|]. intros captures response inc st Hst. apply suppressed_noop, H.
  split; [done|]. by rewrite Hst.
Qed.

(** ** The report *)

Section Report.
Context {PE : PatternEngines}.

(** What a finding of each kind says about its rule. *)
Definition semantic_claim (rule : Rule) (f : SemanticLintFinding) : Prop :=
  match sf_kind f with
  | SemanticLintKind.UnsatisfiableConditions => forall parts req res inc, rule_reference rule parts req res inc = None
  | SemanticLintKind.RequestActionRequiresResponse =>
      (forall parts req inc, rule_reference rule parts req None inc = None) /\
      forall name, name ∈ sf_families f ->
        exists a, a ∈ r_actions rule /\ family_name a = name /\ Action.applies_in a Phase.Req = true /\ Action.applies_in a Phase.Res = false
  | SemanticLintKind.DuplicateSingleFamily => forall name, name ∈ sf_families f -> superfluous (fun _ => True) rule name
  | SemanticLintKind.ActionAfterSkip =>
      forall name, name ∈ sf_families f -> superfluous (fun st => skips st ActionFamily.Skip = false) rule name
  | SemanticLintKind.ConflictingTerminalActions | SemanticLintKind.ResponseActionWithLocalResponse
  | SemanticLintKind.UpstreamOverriddenByDirect | SemanticLintKind.BodyActionWithBodylessStatus => True
  end.
Lemma rule_findings_sound rule f :
  rule_parsed MAX_RULE_SOURCE_LINE_BYTES rule -> f ∈ rule_findings rule ->
  semantic_claim rule f /\ sf_group f = r_group rule /\ sf_line f = r_line rule /\ sf_raw f = r_raw rule.
Proof.
  intros Hp. unfold rule_findings. rewrite !elem_of_app.
  assert (Hwhen : forall (b : bool) kind message families,
    f ∈ (if b then [finding rule kind message families] else []) -> b = true /\ f = finding rule kind message families).
  { intros b kind message families H. destruct b; set_solver. }
  intros [H|[H|[H|[H|[H|[H|[H|H]]]]]]]; try (apply Hwhen in H as [Hb ->]; split; [|done]; try done).
  - intros name. apply duplicates_superfluous.
  - destruct (unsatisfiable_conditions _) as [message|] eqn:E; [|by apply not_elem_of_nil in H].
    apply list_elem_of_singleton in H as ->. split; [|done]. intros parts req res inc. unfold rule_reference.
    destruct Hp as [_ Hp]. rewrite (unsatisfiable_conditions_sound parts res (r_line rule) req _ _ _ Hp E).
    case_match; [done|]. destruct (parts ≫= _); [|done]. cbn. by case_match.
  - revert Hb. unfold semantic_claim. cbn [sf_kind finding sf_families]. unfold request_actions_requiring_response.
    destruct (existsb condition_requires_response (r_conditions rule)) eqn:E; cbn [negb is_emptyb]; [intros _; split|done].
    + intros parts req inc. unfold rule_reference. apply existsb_exists in E as (c & Hc & Hr).
      assert (forallb (fun c => Condition_reference c parts None (r_line rule) req) (r_conditions rule) = false) as ->.
      { apply not_true_iff_false. rewrite forallb_forall. intros Hall. specialize (Hall c Hc).
        by rewrite requires_response_sound in Hall. }
      case_match; [done|]. destruct (parts ≫= _); [|done]. cbn. by case_match.
    + intros name (a & <- & [Ha [H1 H2%negb_true_iff]%andb_true_iff]%filter_In)%sorted_set_elem%list_elem_of_In%in_map_iff.
      exists a. split_and!; try done. apply (effective_subset SkipState.default). by apply list_elem_of_In.
  - intros name. apply suppressed_superfluous.
Qed.
Lemma take_findings_subset kept bytes all : sr_findings (take_findings kept bytes all) ⊆ kept ++ all.
Proof.
  revert kept bytes. induction all as [|f all IH]; intros kept bytes; cbn [take_findings]; [set_solver|].
  case_match; [set_solver|]. specialize (IH (kept ++ [f]) (bytes + semantic_finding_bytes f)). set_solver.
Qed.

End Report.

(** ** The semantic lint at a concrete source *)

Definition contradictory_source : list (str * str) :=
  [(lit "main", lit "a.test status(404) status(500) when method(GET) when method(POST)" ++ [10] ++
     lit "b.test host(10.0.0.1) when res.header(x-a)" ++ [10] ++
     lit "c.test skip(host) host(10.0.0.1)")].
Lemma contradictory_source_lint :
  match parse_groups_with_profile false 1 contradictory_source with
  | Some (Ok rs) =>
      map (fun f => (sf_kind f, sf_line f)) (sr_findings (semantic_lint_report rs)) =
      [(SemanticLintKind.DuplicateSingleFamily, 1); (SemanticLintKind.UnsatisfiableConditions, 1);
       (SemanticLintKind.RequestActionRequiresResponse, 2); (SemanticLintKind.ActionAfterSkip, 3)]
  | _ => False
  end.
Proof. by vm_compute. Qed.
