(* ===== verification/Explain.v ===== *)
(** * Explanations

    The text of a resolution (crates/rsproxy-rules/src/explain.rs). A deletion
    is explained in the words in which the parser reads it back, and no
    explanation exceeds its byte limit. *)
From Stdlib Require Import Ascii String.
From stdpp Require Import base numbers list gmap strings.
From S2P Require Import Prelude Family Utf8 Format NetAddr Io Model Url Syntax Engines Matching Evaluate.
From S2P Require Import Index Resolve Template ParseOps.

Definition MAX_RULE_EXPLAIN_VALUE_BYTES : N := 4096.
Definition MAX_RULE_EXPLAIN_BYTES : N := 8 * 1024 * 1024.

(** [i32] with [{}]. *)
Definition show_Z (z : Z) : str := if (z <? 0)%Z then ch "-" :: show_N (Z.to_N (- z)) else show_N (Z.to_N z).
Definition commas : list str -> str := join (lit ", ").
Definition show_bool (b : bool) : str := lit (if b then "true" else "false").
Definition call (name : string) (argument : str) : str := lit name ++ lit "(" ++ argument ++ lit ")".

(** ** Deletions *)

Definition PATH_SPECIALS : list char :=
  [ch "."; ch ","; ch "("; ch ")"; ch "["; ch "]"; ch "{"; ch "}"; ch "<"; ch ">"; ch "#"; ch "|"; ch "&"; ch " "; ch "'"; 34].
Definition explain_path_char (c : char) : str :=
  if c =? ch "\" then lit "\\"
  else if bool_decide (c ∈ PATH_SPECIALS) then [ch "\"; c]
  else if c =? 10 then lit "\n"
  else if c =? 13 then lit "\r"
  else if c =? 9 then lit "\t"
  else if c =? 12 then lit "\f"
  else if c =? 11 then lit "\v"
  else [c].
Definition explain_path_segment (first : bool) (segment : DeleteBodyPathSegment) : str :=
  match segment with
  | SegKey key => (if first then [] else [ch "."]) ++ flat_map explain_path_char key
  | SegIndex value => lit "[" ++ show_N value ++ lit "]"
  end.
Definition explain_delete_body_path (path : DeleteBodyPath) : str :=
  match dbp_segments path with
  | [] => []
  | segment :: rest => explain_path_segment true segment ++ flat_map (explain_path_segment false) rest
  end.
Definition explain_delete_op (operation : DeleteOp.t) : str :=
  match operation with
  | DeleteOp.Pathname => lit "pathname"
  | DeleteOp.PathSegment (DeletePathSegment.Index index) => lit "pathname." ++ show_Z index
  | DeleteOp.PathSegment DeletePathSegment.Last => lit "pathname.last"
  | DeleteOp.UrlParams => lit "urlParams"
  | DeleteOp.UrlParam name => lit "urlParams." ++ name
  | DeleteOp.ReqHeader name => lit "reqHeaders." ++ name
  | DeleteOp.ResHeader name => lit "resHeaders." ++ name
  | DeleteOp.ReqBody => lit "reqBody"
  | DeleteOp.ResBody => lit "resBody"
  | DeleteOp.ReqBodyPath path => lit "reqBody." ++ explain_delete_body_path path
  | DeleteOp.ResBodyPath path => lit "resBody." ++ explain_delete_body_path path
  | DeleteOp.ReqType => lit "reqType"
  | DeleteOp.ResType => lit "resType"
  | DeleteOp.ReqCharset => lit "reqCharset"
  | DeleteOp.ResCharset => lit "resCharset"
  | DeleteOp.ReqCookie name => lit "reqCookies." ++ name
  | DeleteOp.ResCookie name => lit "resCookies." ++ name
  | DeleteOp.ReqCookies => lit "reqCookies"
  | DeleteOp.ResCookies => lit "resCookies"
  | DeleteOp.Trailer name => lit "trailer." ++ name
  | DeleteOp.Trailers => lit "trailers"
  end.

(** ** Values and operations *)

Definition explain_raw_value (value : Value.t) : str :=
  match value with
  | Value.Inline value => value
  | Value.File value => lit "<" ++ value ++ lit ">"
  | Value.Reference value => lit "@" ++ value
  end.
Definition RegexReplacePattern_display (p : RegexReplacePattern) : str :=
  lit "/" ++ rrp_pattern p ++ lit (if rrp_case_insensitive p then "/i" else "/").
Definition InjectTarget_as_str (t : InjectTarget.t) : str :=
  lit match t with InjectTarget.Html => "html" | InjectTarget.Js => "js" | InjectTarget.Css => "css" end.
Definition InjectMode_as_str (m : InjectMode.t) : str :=
  lit match m with InjectMode.Append => "append" | InjectMode.Prepend => "prepend" | InjectMode.Replace => "replace" end.

Section Explain.
Context {PE : PatternEngines} {CE : CaptureEngine}.
(** Explaining renders values, which goes through the cache of template
    expressions, and cannot fail. *)
Abbreviation Explained := (StateR RegexCache Empty_set).
Context (item : ResolvedAction) (req : RequestMeta).

Definition explain_render (value : str) : Explained str := fun cache =>
  match render_bounded item value req MAX_RULE_EXPLAIN_VALUE_BYTES cache with
  | (cache, Ok text) => (cache, Ok text)
  | (cache, Err _) => (cache, Ok (lit "<render-limit:" ++ show_N MAX_RULE_EXPLAIN_VALUE_BYTES ++ lit ">"))
  end.
Definition explain_value (value : Value.t) : Explained str :=
  match value with
  | Value.Inline value => explain_render value
  | Value.File _ | Value.Reference _ => mret (explain_raw_value value)
  end.
(** The closures of the [map]s, in order. *)
Fixpoint each {A} (f : A -> Explained str) (l : list A) : Explained (list str) :=
  match l with
  | [] => mret []
  | x :: l' => text ← f x; texts ← each f l'; mret (text :: texts)
  end.
(** A part that is there only with a value. *)
Definition optional {A} (value : option A) (f : A -> Explained str) : Explained (list str) :=
  match value with Some x => text ← f x; mret [text] | None => mret [] end.
Definition labelled (label : str) (value : Value.t) : Explained str :=
  text ← explain_value value; mret (label ++ text).
Definition called (name : string) (value : Value.t) : Explained str := text ← explain_value value; mret (call name text).
(** The three spellings of a value in [mock] and the body operations. *)
Definition called_rendered (name : string) (value : Value.t) : Explained str :=
  match value with
  | Value.Inline value => text ← explain_render value; mret (call name text)
  | Value.File value => text ← explain_render value; mret (call name (lit "<" ++ text ++ lit ">"))
  | Value.Reference value => mret (call name (lit "@" ++ value))
  end.

Definition explain_header_op (op : HeaderOp.t) : Explained str :=
  match op with
  | HeaderOp.Set_ name value => labelled (name ++ lit ": ") value
  | HeaderOp.Remove name => mret (lit "-" ++ name)
  | HeaderOp.Replace name pattern replacement =>
      mret (name ++ lit " ~ /" ++ str_replace (lit "/") (lit "\/") (rrp_pattern pattern) ++ lit "/" ++
            str_replace (lit "/") (lit "\/") replacement)
  end.
Definition explain_cookie_attr (attr : CookieAttr) : Explained str :=
  value ← optional (ca_value attr) (labelled (lit "="));
  mret (lit "; " ++ ca_name attr ++ concat value).
Definition explain_cookie_op (op : CookieOp.t) : Explained str :=
  match op with
  | CookieOp.Set_ name value attrs =>
      out ← labelled (name ++ lit "=") value;
      attrs ← each explain_cookie_attr attrs;
      mret (out ++ concat attrs)
  | CookieOp.Remove name => mret (lit "-" ++ name)
  end.
Definition explain_cors_op (op : CorsOp) : Explained str :=
  origin ← explain_value (co_origin op);
  methods ← optional (co_methods op) (labelled (lit "methods="));
  headers ← optional (co_headers op) (labelled (lit "headers="));
  credentials ← optional (co_credentials op) (fun value => mret (lit "credentials=" ++ show_bool value));
  expose ← optional (co_expose op) (labelled (lit "expose="));
  max_age ← optional (co_max_age op) (labelled (lit "max-age="));
  mret (commas ([origin] ++ methods ++ headers ++ credentials ++ expose ++ max_age)).
Definition explain_cache_op (op : CacheOp.t) : Explained str :=
  match op with
  | CacheOp.Off => mret (lit "off")
  | CacheOp.Directives directives =>
      parts ← each (fun directive => match cd_value directive with
                                     | Some value => labelled (cd_name directive ++ lit "=") value
                                     | None => mret (cd_name directive)
                                     end) directives;
      mret (commas parts)
  end.
Definition explain_tls_op (op : TlsOp) : Explained str :=
  identity ← match to_client_cert op, to_client_key op with
             | Some cert, Some key =>
                 cert ← explain_render cert; key ← explain_render key;
                 mret [lit "client-cert=" ++ cert; lit "client-key=" ++ key]
             | _, _ => mret []
             end;
  let version := match to_min_version op with Some v => [lit "min=" ++ TlsMinVersion_as_str v] | None => [] end in
  let ciphers := if is_emptyb (to_ciphers op) then []
                 else [lit "ciphers=" ++ join (lit ":") (map TlsCipherSuite_as_str (to_ciphers op))] in
  mret (call "tls" (commas (identity ++ version ++ ciphers))).
Definition explain_body_op (op : BodyOp.t) : Explained str :=
  match op with
  | BodyOp.Set_ value => called_rendered "set" value
  | BodyOp.Prepend value => called_rendered "prepend" value
  | BodyOp.Append value => called_rendered "append" value
  | BodyOp.Replace pattern replacement =>
      mret (call "replace" (RegexReplacePattern_display pattern ++ lit ", " ++ replacement))
  end.
Definition explain_mock_inline (op : MockInlineOp) : Explained str :=
  let status := match mi_status op with Some status => [lit "status=" ++ show_N status] | None => [] end in
  headers ← each (fun '(name, value) => labelled (lit "header=" ++ name ++ lit ": ") value) (mi_headers op);
  let body := match mi_body op with Some body => [lit "body=" ++ explain_raw_value body] | None => [] end in
  mret (call "mock" (commas (status ++ headers ++ body))).
Definition explain_rewrite (from : UrlRewritePattern.t) (to : Value.t) : Explained str :=
  match from with
  | UrlRewritePattern.Plain value =>
      from ← explain_value value; to ← explain_value to; mret (call "url.rewrite" (from ++ lit ", " ++ to))
  | UrlRewritePattern.Regex pattern =>
      mret (call "url.rewrite" (RegexReplacePattern_display pattern ++ lit ", " ++ explain_raw_value to))
  end.
Definition explain_query_op (op : QueryOp.t) : Explained str :=
  match op with
  | QueryOp.Set_ name value => labelled (name ++ lit "=") value
  | QueryOp.Remove name => mret (lit "-" ++ name)
  end.
(** The variants behind [other => format!("{other:?}")]. *)
Definition phase_debug (phase : Phase.t) : str := lit match phase with Phase.Req => "Req" | Phase.Res => "Res" end.
Definition with_op (name : string) (m : Explained str) : Explained str := text ← m; mret (call name text).

Definition explain_action : Explained str :=
  match ra_action item with
  | Action.Host pool => addresses ← each explain_value (hp_addresses pool); mret (call "host" (commas addresses))
  | Action.Upstream value => called "upstream" value
  | Action.Mock value => called_rendered "mock" value
  | Action.MockRaw value => called_rendered "mock.raw" value
  | Action.MockInline op => explain_mock_inline op
  | Action.MapRemote value => called "map.remote" value
  | Action.Status code => mret (call "status" (show_N code))
  | Action.Redirect url code => text ← explain_value url; mret (call "redirect" (text ++ lit ", " ++ show_N code))
  | Action.ReqHeader op => with_op "req.header" (explain_header_op op)
  | Action.ResHeader op => with_op "res.header" (explain_header_op op)
  | Action.ReqMethod value => called "req.method" value
  | Action.ReqCookie op => with_op "req.cookie" (explain_cookie_op op)
  | Action.ResCookie op => with_op "res.cookie" (explain_cookie_op op)
  | Action.ReqUa value => called "req.ua" value
  | Action.ReqReferer value => called "req.referer" value
  | Action.ReqAuth value => called "req.auth" value
  | Action.ReqForwarded value => called "req.forwarded" value
  | Action.ReqType value => called "req.type" value
  | Action.ReqCharset value => called "req.charset" value
  | Action.ResCors op => with_op "res.cors" (explain_cors_op op)
  | Action.ResType value => called "res.type" value
  | Action.ResCharset value => called "res.charset" value
  | Action.ResMerge value => called "res.merge" value
  | Action.ResTrailer op => with_op "res.trailer" (explain_header_op op)
  | Action.Attachment (Some value) => called "attachment" value
  | Action.Attachment None => mret (lit "Attachment(None)")
  | Action.Cache op => with_op "cache" (explain_cache_op op)
  | Action.Tls op => explain_tls_op op
  | Action.UrlRewrite from to => explain_rewrite from to
  | Action.UrlQuery ops => parts ← each explain_query_op ops; mret (call "url.query" (commas parts))
  | Action.Delete operations => mret (call "delete" (commas (map explain_delete_op operations)))
  | Action.ReqBody op => text ← explain_body_op op; mret (lit "req.body." ++ text)
  | Action.ResBody op => text ← explain_body_op op; mret (lit "res.body." ++ text)
  | Action.Inject op =>
      text ← explain_value (io_value op);
      mret (call "inject" (commas [InjectTarget_as_str (io_target op); text; InjectMode_as_str (io_mode op)]))
  | Action.Direct => mret (lit "direct")
  | Action.Bypass => mret (lit "bypass")
  | Action.Hide => mret (lit "hide")
  | Action.Tag value => called "tag" value
  | Action.Skip families =>
      mret (call "skip" (if ActionFamilySet.is_empty families then []
                         else commas (map ActionFamily.as_str (ActionFamilySet.iter families))))
  | Action.ResStatus code => mret (call "ResStatus" (show_N code))
  | Action.Delay phase millis =>
      mret (lit "Delay { phase: " ++ phase_debug phase ++ lit ", millis: " ++ show_N millis ++ lit " }")
  | Action.Throttle phase bytes_per_sec =>
      mret (lit "Throttle { phase: " ++ phase_debug phase ++ lit ", bytes_per_sec: " ++ show_N bytes_per_sec ++ lit " }")
  end.
End Explain.

(** ** A whole resolution *)

Section Result.
Context {PE : PatternEngines} {CE : CaptureEngine}.

Definition EXPLAIN_MARKER : str :=
  lit "... explanation truncated at " ++ show_N MAX_RULE_EXPLAIN_BYTES ++ lit " bytes" ++ [10].
Definition explain_line (item : ResolvedAction) (action : str) : str :=
  mr_group (ra_rule item) ++ lit ":" ++ show_N (mr_line (ra_rule item)) ++ lit " " ++ action ++ [10].
Fixpoint explain_lines (req : RequestMeta) (out : str) (actions : list ResolvedAction) : StateR RegexCache Empty_set str :=
  match actions with
  | [] => mret out
  | item :: actions' =>
      action ← explain_action item req;
      let line := explain_line item action in
      match checked_add USIZE_MAX (len out) (len line) with
      | Some length =>
          if MAX_RULE_EXPLAIN_BYTES - len EXPLAIN_MARKER <? length then mret (out ++ EXPLAIN_MARKER)
          else explain_lines req (out ++ line) actions'
      | None => mret (out ++ EXPLAIN_MARKER)
      end
  end.
Definition explain_result (result : ResolveResult) (req : RequestMeta) : StateR RegexCache Empty_set str :=
  if is_emptyb (rr_actions result) then mret (lit "no matched actions")
  else explain_lines req [] (rr_actions result).
Definition RuleSet_explain (rs : RuleSet) (req : RequestMeta) : StateR RegexCache Empty_set str :=
  explain_result (resolve rs req) req.
Definition RuleSet_explain_response (rs : RuleSet) (req : RequestMeta) (res : ResponseMeta) : StateR RegexCache Empty_set str :=
  explain_result (resolve_response rs req res) req.
End Result.
