(* ===== verification/ExplainProofs.v ===== *)
(** * Explanations can be read back and stay within their limit *)
From Stdlib Require Import Ascii String.
From stdpp Require Import base numbers list gmap strings.
From S2P Require Import Prelude Family Utf8 Format NetAddr Io Model Url Syntax Engines Matching Evaluate.
From S2P Require Import Index Resolve Template ParseOps ParseWf Explain.
Import Syntax.

(** ** Body paths *)

Definition plain (text : str) : list (char * bool) := map (fun c => (c, false)) text.
Definition index_text (n : N) : str := lit "[" ++ show_N n ++ lit "]".
Definition key_text (key : str) : str := flat_map explain_path_char key.
(** Whether a character is explained with an escape. *)
Definition escaped_char (c : char) : bool :=
  (c =? ch "\") || bool_decide (c ∈ PATH_SPECIALS) || in_range 9 13 c.
Definition key_chars (key : str) : list (char * bool) := map (fun c => (c, escaped_char c)) key.

Lemma explain_path_char_cases c :
  (escaped_char c = false /\ explain_path_char c = [c] /\ c <> ch "\" /\ c <> ch ".") \/
  (escaped_char c = true /\ exists e, explain_path_char c = [ch "\"; e] /\ control_escape e = c).
Proof.
  unfold explain_path_char, escaped_char. destruct (N.eqb_spec c (ch "\")) as [->|Hb]; [right; split; [done|by eexists]|].
  destruct (decide (c ∈ PATH_SPECIALS)) as [Hs|Hs].
  { rewrite bool_decide_eq_true_2 by done. right. split; [done|]. exists c. split; [done|]. clear Hb.
    repeat (apply elem_of_cons in Hs as [->|Hs]; [done|]). by apply not_elem_of_nil in Hs. }
  rewrite bool_decide_eq_false_2 by done. cbn [orb].
  assert (c <> ch ".") by (intros ->; apply Hs; left).
  assert (Hrange : in_range 9 13 c = (c =? 10) || (c =? 13) || (c =? 9) || (c =? 12) || (c =? 11)).
  { apply eq_true_iff_eq. rewrite in_range_spec, !orb_true_iff, !N.eqb_eq. lia. }
  rewrite Hrange. destruct (N.eqb_spec c 10) as [->|]; [right; split; [done|by eexists]|].
  destruct (N.eqb_spec c 13) as [->|]; [right; split; [done|by eexists]|].
  destruct (N.eqb_spec c 9) as [->|]; [right; split; [done|by eexists]|].
  destruct (N.eqb_spec c 12) as [->|]; [right; split; [done|by eexists]|].
  destruct (N.eqb_spec c 11) as [->|]; [right; split; [done|by eexists]|]. by left.
Qed.
Lemma split_key cur key rest : split_body_path cur (key_text key ++ rest) = split_body_path (cur ++ key_text key) rest.
Proof.
  revert cur. induction key as [|c key IH]; intros cur; [by rewrite app_nil_r|]. unfold key_text. cbn [flat_map]. fold (key_text key).
  rewrite <- app_assoc. destruct (explain_path_char_cases c) as [(_ & -> & Hb & Hd)|(_ & e & -> & _)]; cbn [app split_body_path].
  - rewrite (proj2 (N.eqb_neq _ _) Hb), (proj2 (N.eqb_neq _ _) Hd), IH, <- app_assoc. done.
  - rewrite N.eqb_refl, IH, <- app_assoc. done.
Qed.
Lemma decode_key key rest chars :
  decode_body_path_component rest = Ok chars ->
  decode_body_path_component (key_text key ++ rest) = Ok (key_chars key ++ chars).
Proof.
  intros H. induction key as [|c key IH]; [done|]. unfold key_text. cbn [flat_map]. fold (key_text key). rewrite <- app_assoc.
  unfold key_chars. cbn [map]. fold (key_chars key).
  destruct (explain_path_char_cases c) as [(-> & -> & Hb & Hd)|(-> & e & -> & He)]; cbn [app decode_body_path_component].
  - rewrite (proj2 (N.eqb_neq _ _) Hb). cbn [negb]. by rewrite IH.
  - rewrite N.eqb_refl. cbn [negb]. rewrite IH. cbn. by rewrite He.
Qed.

(** Text without escapes and separators. *)
Definition unescaped (text : str) : Prop := Forall (fun c => c <> ch "\" /\ c <> ch ".") text.
Lemma split_unescaped cur text rest :
  unescaped text -> split_body_path cur (text ++ rest) = split_body_path (cur ++ text) rest.
Proof.
  intros H. revert cur. induction H as [|c text [Hb Hd] _ IH]; intros cur; [by rewrite app_nil_r|]. cbn [app split_body_path].
  rewrite (proj2 (N.eqb_neq _ _) Hb), (proj2 (N.eqb_neq _ _) Hd), IH, <- app_assoc. done.
Qed.
Lemma decode_unescaped text : unescaped text -> decode_body_path_component text = Ok (plain text).
Proof.
  induction 1 as [|c text [Hb Hd] _ IH]; [done|]. cbn [decode_body_path_component].
  rewrite (proj2 (N.eqb_neq _ _) Hb). cbn [negb]. by rewrite IH.
Qed.
Lemma index_text_unescaped n : unescaped (index_text n).
Proof.
  unfold index_text, unescaped. repeat (apply Forall_app; split); try (by repeat constructor).
  eapply Forall_impl; [apply show_N_digits|]. intros c Hc%in_range_spec. change (ch "\") with 92. change (ch ".") with 46.
  change (ch "0") with 48 in Hc. lia.
Qed.
Lemma decode_index_texts indexes :
  decode_body_path_component (concat (map index_text indexes)) = Ok (plain (concat (map index_text indexes))).
Proof.
  apply decode_unescaped. induction indexes as [|n indexes IH]; [constructor|]. cbn [map concat].
  apply Forall_app. split; [apply index_text_unescaped|done].
Qed.

(** The digits of a number other than zero do not begin with a zero. *)
Lemma digits_aux_head fuel n acc :
  n <> 0 -> n < 2 ^ N.of_nat fuel -> exists d ds, digits_aux 10 fuel n acc = digit_char d :: ds /\ 0 < d < 10.
Proof.
  revert n acc. induction fuel as [|fuel IH]; intros n acc Hn Hf.
  - change (2 ^ N.of_nat 0) with 1 in Hf. lia.
  - cbn [digits_aux]. destruct (N.ltb_spec n 10); [exists n, acc; split; [done|lia]|].
    rewrite Nat2N.inj_succ, N.pow_succ_r' in Hf. apply IH.
    + intros E. apply N.div_small_iff in E; lia.
    + apply N.Div0.div_lt_upper_bound. lia.
Qed.
Lemma body_array_index_show n : n <= USIZE_MAX -> body_array_index (plain (show_N n)) = Ok (Some n).
Proof.
  intros Hn. unfold body_array_index.
  assert (Hd : existsb (fun c => snd c || negb (is_ascii_digit (fst c))) (plain (show_N n)) = false).
  { apply not_true_iff_false. rewrite existsb_exists. intros ([c b] & [x [[= <- <-] Hx]]%in_map_iff & H).
    pose proof (show_N_digits n) as Hd. rewrite Forall_forall in Hd. rewrite <- list_elem_of_In in Hx.
    cbn in H. by rewrite (Hd _ Hx) in H. }
  assert (Hz : (1 <? length (plain (show_N n)))%nat && match plain (show_N n) with (c, _) :: _ => c =? ch "0" | [] => false end = false).
  { destruct (N.eq_dec n 0) as [->|H0]; [done|].
    destruct (digits_aux_head _ n [] H0 (size_bound 10 ltac:(lia) n)) as (d & ds & E & Hd1). unfold show_N, to_radix. rewrite E.
    cbn [plain map]. apply andb_false_intro2, N.eqb_neq. unfold digit_char. rewrite (proj2 (N.ltb_lt d 10)) by lia.
    change (ch "0") with 48. lia. }
  rewrite Hd, Hz. replace (is_emptyb (plain (show_N n))) with false.
  2: { pose proof (show_N_nonempty n). by destruct (show_N n). }
  cbn [orb]. unfold plain. rewrite map_map, map_id, parse_uint_show_N by done. done.
Qed.
Lemma split_open_plain inside digits before :
  Forall (fun c => c <> ch "[") digits ->
  split_open inside (rev (plain digits) ++ (ch "[", false) :: before) = Some (plain digits ++ inside, before).
Proof.
  revert inside. induction digits as [|c digits IH] using rev_ind; intros inside H; [done|].
  apply Forall_app in H as [H Hc]. inversion Hc; subst. unfold plain in *. rewrite map_app, rev_app_distr. cbn [map rev app split_open].
  rewrite (proj2 (N.eqb_neq _ _)) by done. cbn [andb]. rewrite IH by done. by rewrite <- app_assoc.
Qed.
Lemma trailing_index fuel before n indexes :
  n <= USIZE_MAX ->
  trailing_indexes (S fuel) (rev (plain (index_text n)) ++ before) indexes = trailing_indexes fuel before (n :: indexes).
Proof.
  intros Hn. unfold index_text, plain. rewrite !map_app, !rev_app_distr. cbn [lit map rev app].
  change (rev (map (fun c => (c, false)) (lit "]"))) with [(ch "]", false)].
  change (rev (map (fun c => (c, false)) (lit "["))) with [(ch "[", false)].
  cbn [app trailing_indexes]. rewrite N.eqb_refl, <- app_assoc. cbn [app]. fold (plain (show_N n)).
  rewrite split_open_plain. 2: { eapply Forall_impl; [apply show_N_digits|]. intros c Hc%in_range_spec. change (ch "[") with 91. lia. }
  rewrite app_nil_r, body_array_index_show by done. done.
Qed.
Lemma trailing_stops fuel key indexes :
  trailing_indexes fuel (rev (key_chars key)) indexes = Ok (rev (key_chars key), indexes).
Proof.
  destruct key as [|c key _] using rev_ind; [by destruct fuel|]. unfold key_chars. rewrite map_app, rev_app_distr. cbn [map rev app].
  destruct fuel; [done|]. cbn [trailing_indexes]. destruct (escaped_char c) eqn:E; [done|].
  destruct (N.eqb_spec c (ch "]")) as [->|]; done.
Qed.
Lemma trailing_all fuel key indexes tail :
  Forall (fun n => n <= USIZE_MAX) indexes -> (length indexes <= fuel)%nat ->
  trailing_indexes fuel (rev (key_chars key ++ plain (concat (map index_text indexes)))) tail =
  Ok (rev (key_chars key), indexes ++ tail).
Proof.
  revert fuel tail. induction indexes as [|n indexes IH] using rev_ind; intros fuel tail H Hf.
  - cbn [map concat plain app]. rewrite app_nil_r. apply trailing_stops.
  - apply Forall_app in H as [H Hn]. inversion Hn; subst. rewrite length_app in Hf. cbn in Hf.
    destruct fuel as [|fuel]; [lia|]. rewrite map_app, concat_app. cbn [map concat]. rewrite app_nil_r.
    unfold plain. rewrite map_app. fold (plain (index_text n)). fold (plain (concat (map index_text indexes))).
    rewrite app_assoc, rev_app_distr, trailing_index by done. rewrite IH by (done || lia). by rewrite <- app_assoc.
Qed.

(** The components in which a path is read back: the text that a component
    begins with, and the segments behind it. *)
Fixpoint components (current : str) (segments : list DeleteBodyPathSegment) : list str :=
  match segments with
  | [] => [current]
  | SegIndex n :: segments' => components (current ++ index_text n) segments'
  | SegKey key :: segments' => current :: components (key_text key) segments'
  end.
Lemma split_printed current segments :
  split_body_path current (flat_map (explain_path_segment false) segments) = Ok (components current segments).
Proof.
  revert current. induction segments as [|[key|n] segments IH]; intros current; [done| |]; cbn [flat_map explain_path_segment components].
  - cbn [app]. cbn [split_body_path]. change (ch "." =? ch "\") with false. rewrite N.eqb_refl. cbv iota.
    fold (key_text key). rewrite split_key. cbn [app]. rewrite IH. done.
  - fold (index_text n). rewrite split_unescaped by apply index_text_unescaped. apply IH.
Qed.
(** A key without text is never followed by an array selector. *)
Fixpoint path_wf (segments : list DeleteBodyPathSegment) : Prop :=
  match segments with
  | [] => True
  | SegKey key :: segments' =>
      match segments' with SegIndex _ :: _ => key <> [] | _ => True end /\ path_wf segments'
  | SegIndex n :: segments' => n <= USIZE_MAX /\ path_wf segments'
  end.
(** What a component with a key and selectors stands for. *)
Definition component_segments (key : option str) (indexes : list N) : list DeleteBodyPathSegment :=
  match key with Some key => [SegKey key] | None => [] end ++ map SegIndex indexes.
Lemma index_texts_length indexes : (length indexes <= length (concat (map index_text indexes)))%nat.
Proof.
  induction indexes as [|n indexes IH]; [done|]. cbn [map concat length]. rewrite length_app.
  assert (1 <= length (index_text n))%nat by (unfold index_text; rewrite length_app; change (length (lit "[")) with 1%nat; lia). lia.
Qed.
Lemma read_component segments key indexes :
  Forall (fun n => n <= USIZE_MAX) indexes ->
  match key with Some [] => indexes = [] | Some _ => True | None => indexes <> [] end ->
  (length (segments ++ component_segments key indexes) <= MAX_BODY_PATH_SEGMENTS)%nat ->
  parse_body_path_component segments (key_text (unwrap_or key []) ++ concat (map index_text indexes)) =
  Ok (segments ++ component_segments key indexes).
Proof.
  intros Hn Hk Hl. unfold parse_body_path_component. rewrite (decode_key _ _ _ (decode_index_texts indexes)). cbn [mbind result_bind].
  rewrite trailing_all; [|done|].
  2: { rewrite length_app. unfold plain. rewrite length_map. pose proof (index_texts_length indexes). lia. }
  cbn [mbind result_bind]. rewrite app_nil_r.
  assert (Hsegs : (if negb (is_emptyb (rev (key_chars (unwrap_or key [])))) || is_emptyb indexes
                   then [SegKey (map fst (rev (rev (key_chars (unwrap_or key [])))))] else []) ++ map SegIndex indexes =
                  component_segments key indexes).
  { rewrite rev_involutive. unfold key_chars. rewrite map_map. cbn [fst]. rewrite map_id.
    destruct key as [key|]; cbn [unwrap_or component_segments].
    - unfold component_segments. destruct key as [|c key]; [by rewrite Hk|]. cbn [map rev].
      by destruct (rev (map _ key)).
    - by destruct indexes. }
  cbv zeta. rewrite Hsegs. by rewrite (proj2 (Nat.ltb_ge _ _)) by lia.
Qed.
Lemma read_components segments key indexes rest :
  Forall (fun n => n <= USIZE_MAX) indexes ->
  match key with Some [] => indexes = [] /\ match rest with SegIndex _ :: _ => False | _ => True end
               | Some _ => True | None => indexes <> [] end ->
  path_wf rest ->
  (length (segments ++ component_segments key indexes ++ rest) <= MAX_BODY_PATH_SEGMENTS)%nat ->
  fold_args parse_body_path_component segments
    (components (key_text (unwrap_or key []) ++ concat (map index_text indexes)) rest) =
  Ok (segments ++ component_segments key indexes ++ rest).
Proof.
  revert segments key indexes. induction rest as [|[k|n] rest IH]; intros segments key indexes Hn Hk Hwf Hl.
  - cbn [components fold_args]. rewrite app_nil_r in *. rewrite read_component; [done|done| |done].
    destruct key as [[|]|]; naive_solver.
  - destruct Hwf as [Hk' Hwf]. cbn [components fold_args]. rewrite read_component; [|done| |].
    2: { destruct key as [[|]|]; naive_solver. }
    2: { rewrite !length_app in *. cbn in Hl. lia. }
    cbn [mbind result_bind]. specialize (IH (segments ++ component_segments key indexes) (Some k) []).
    cbn [unwrap_or map concat] in IH. rewrite app_nil_r in IH. rewrite IH; [|constructor| |done|].
    + by rewrite <- app_assoc.
    + destruct k; [|done]. split; [done|]. by destruct rest as [|[]].
    + by rewrite <- app_assoc.
  - destruct Hwf as [Hn' Hwf]. cbn [components].
    replace ((key_text (unwrap_or key []) ++ concat (map index_text indexes)) ++ index_text n)
      with (key_text (unwrap_or key []) ++ concat (map index_text (indexes ++ [n]))).
    2: { rewrite map_app, concat_app. cbn [map concat]. by rewrite app_nil_r, app_assoc. }
    assert (E : component_segments key (indexes ++ [n]) ++ rest = component_segments key indexes ++ SegIndex n :: rest).
    { unfold component_segments. rewrite map_app, <- !app_assoc. done. }
    rewrite IH; [by rewrite E| | |done|by rewrite E].
    + apply Forall_app. by split; [|constructor].
    + destruct key as [[|]|]; [naive_solver|done|]. by destruct indexes.
Qed.

(** What the parser makes of a body path. *)
Lemma explain_path_cons first segments :
  explain_delete_body_path (mkDeleteBodyPath (first :: segments)) =
  explain_path_segment true first ++ flat_map (explain_path_segment false) segments.
Proof. done. Qed.
Lemma explain_path_read segments :
  path_wf segments -> segments <> [] -> segments <> [SegKey []] -> (length segments <= MAX_BODY_PATH_SEGMENTS)%nat ->
  len (explain_delete_body_path (mkDeleteBodyPath segments)) <= MAX_BODY_PATH_BYTES ->
  parse_body_path (explain_delete_body_path (mkDeleteBodyPath segments)) = Ok (mkDeleteBodyPath segments).
Proof.
  intros Hwf Hne Hkey Hl Hb. unfold parse_body_path. rewrite (proj2 (N.ltb_ge _ _)) by done.
  assert (Hsome : is_emptyb (explain_delete_body_path (mkDeleteBodyPath segments)) = false).
  { destruct segments as [|[key|n] segments]; [done| |done]. rewrite explain_path_cons. cbn [explain_path_segment app].
    destruct key as [|c key]; cbn [flat_map app].
    - destruct segments as [|[k|n] segments]; [done..|]. by destruct Hwf.
    - destruct (explain_path_char_cases c) as [(_ & -> & _)|(_ & e & -> & _)]; done. }
  rewrite Hsome. destruct segments as [|first segments]; [done|]. rewrite explain_path_cons.
  assert (Hread : (components ← split_body_path [] (explain_path_segment true first ++ flat_map (explain_path_segment false) segments);
    fold_args parse_body_path_component [] components) = Ok (first :: segments)).
  { destruct first as [key|n]; cbn [explain_path_segment app].
    - destruct Hwf as [Hk Hwf]. fold (key_text key). rewrite split_key, split_printed. cbn [app mbind result_bind].
      pose proof (read_components [] (Some key) [] segments ltac:(constructor)) as H. cbn [unwrap_or map concat] in H.
      rewrite app_nil_r in H. apply H; [|done|done]. destruct key; [|done]. split; [done|]. by destruct segments as [|[]].
    - destruct Hwf as [Hn Hwf]. fold (index_text n). rewrite split_unescaped, split_printed by apply index_text_unescaped.
      cbn [app mbind result_bind]. pose proof (read_components [] None [n] segments) as H. cbn [unwrap_or map concat] in H.
      rewrite app_nil_r in H. apply H; [by constructor|done|done|done]. }
  destruct (split_body_path _ _) as [comps|]; [|done]. cbn [mbind result_bind] in *. by rewrite Hread.
Qed.

Lemma parse_digits_bound radix max acc s n : acc <= max -> parse_digits radix max acc s = Ok n -> n <= max.
Proof.
  revert acc. induction s as [|c s IH]; intros acc Ha H; cbn [parse_digits] in H; [by simplify_eq|].
  case_match; [|done]. destruct (N.leb_spec (acc * radix + n0) max); [by eapply IH|done].
Qed.
Lemma parse_uint_bound max s n : parse_uint max s = Ok n -> n <= max.
Proof. unfold parse_uint, from_str_radix. intros H. repeat case_match; try done; by eapply parse_digits_bound; [apply N.le_0_l|]. Qed.
Lemma body_array_index_bound chars n : body_array_index chars = Ok (Some n) -> n <= USIZE_MAX.
Proof.
  unfold body_array_index. case_match; [done|]. unfold integer_error.
  destruct (parse_uint _ _) as [m|e] eqn:E; cbn; [|done]. intros [= ->]. by eapply parse_uint_bound.
Qed.
Lemma trailing_indexes_grow fuel backwards indexes b idx :
  trailing_indexes fuel backwards indexes = Ok (b, idx) -> (length indexes <= length idx)%nat.
Proof.
  revert backwards indexes. induction fuel as [|fuel IH]; intros backwards indexes H; cbn [trailing_indexes] in H; [by simplify_eq|].
  destruct backwards as [|[c [|]] rest]; [by simplify_eq|by simplify_eq|]. case_match; [|by simplify_eq].
  destruct (split_open [] rest) as [[inside before]|]; [|by simplify_eq].
  destruct (body_array_index inside) as [[n|]|]; cbn [mbind result_bind] in H; [|by simplify_eq|done].
  apply IH in H. cbn in H. lia.
Qed.
Lemma trailing_indexes_bound fuel backwards indexes b idx :
  trailing_indexes fuel backwards indexes = Ok (b, idx) ->
  Forall (fun n => n <= USIZE_MAX) indexes ->
  Forall (fun n => n <= USIZE_MAX) idx /\ (idx = [] -> b = backwards).
Proof.
  revert backwards indexes. induction fuel as [|fuel IH]; intros backwards indexes H Hi; cbn [trailing_indexes] in H.
  { by simplify_eq. }
  destruct backwards as [|[c [|]] rest]; [by simplify_eq|by simplify_eq|]. case_match; [|by simplify_eq].
  destruct (split_open [] rest) as [[inside before]|]; [|by simplify_eq].
  destruct (body_array_index inside) as [[n|]|] eqn:E; cbn [mbind result_bind] in H; [| |done]; [|by simplify_eq].
  assert (Hn : Forall (fun n => n <= USIZE_MAX) (n :: indexes)) by (constructor; [by eapply body_array_index_bound|done]).
  destruct (IH _ _ H Hn) as [H1 _]. split; [done|]. intros ->. exfalso.
  apply trailing_indexes_grow in H. cbn in H. lia.
Qed.
Lemma parse_component_bound segments input segments' :
  parse_body_path_component segments input = Ok segments' ->
  exists added, segments' = segments ++ added /\ added <> [] /\ (length segments' <= MAX_BODY_PATH_SEGMENTS)%nat /\
    Forall (fun s => match s with SegIndex n => n <= USIZE_MAX | SegKey _ => True end) added /\
    (added = [SegKey []] -> input = []).
Proof.
  unfold parse_body_path_component. destruct (decode_body_path_component input) as [chars|] eqn:Ed; [|done]. cbn [mbind result_bind].
  destruct (trailing_indexes _ _ _) as [[b idx]|] eqn:Et; [|done]. cbn [mbind result_bind].
  destruct (trailing_indexes_bound _ _ _ _ _ Et ltac:(constructor)) as [Hb He]. case_match eqn:Hl; [done|]. intros [= <-].
  eexists. split; [done|]. apply Nat.ltb_ge in Hl. split_and!.
  - destruct b; [|done]. by destruct idx.
  - done.
  - apply Forall_app. split; [case_match; repeat constructor|]. by apply Forall_map.
  - intros E. destruct idx as [|i idx]; [|destruct (negb _ || _); [done|by destruct idx]]. rewrite (He eq_refl) in E.
    cbn [is_emptyb map] in E. rewrite orb_true_r, app_nil_r, rev_involutive in E. injection E as E.
    apply map_eq_nil in E. subst chars. destruct input as [|c input]; [done|]. cbn [decode_body_path_component] in Ed.
    destruct (negb (c =? ch "\")); [by destruct (decode_body_path_component input)|]. destruct input as [|e input]; [done|].
    by destruct (decode_body_path_component input).
Qed.
Lemma parse_components_bound segments inputs segments' :
  fold_args parse_body_path_component segments inputs = Ok segments' ->
  exists added, segments' = segments ++ added /\ (length inputs <= length added)%nat /\
    (inputs <> [] -> (length segments' <= MAX_BODY_PATH_SEGMENTS)%nat) /\
    Forall (fun s => match s with SegIndex n => n <= USIZE_MAX | SegKey _ => True end) added /\
    (added = [SegKey []] -> inputs = [[]]) /\ (inputs = [] -> added = []).
Proof.
  revert segments. induction inputs as [|input inputs IH]; intros segments H; cbn [fold_args] in H.
  - injection H as <-. exists []. by rewrite app_nil_r.
  - destruct (parse_body_path_component segments input) as [middle|] eqn:E; [|done]. cbn [mbind result_bind] in H.
    apply parse_component_bound in E as (a1 & -> & Hne & Hl1 & Hf1 & He1). apply IH in H as (a2 & -> & Hl2 & Hl2' & Hf2 & He2 & Hn2).
    exists (a1 ++ a2). rewrite app_assoc, length_app. cbn [length]. split_and!; [done| | |by apply Forall_app| |done].
    + destruct a1; [done|]. cbn. lia.
    + intros _. destruct inputs as [|i inputs]; [|by apply Hl2']. by rewrite (Hn2 eq_refl), app_nil_r.
    + intros Ha. destruct a1 as [|x [|y a1]]; [done| |done]. cbn in Ha. injection Ha as -> ->.
      destruct inputs; [|cbn in Hl2; lia]. by rewrite (He1 eq_refl).
Qed.
Lemma split_single current input component :
  split_body_path current input = Ok [component] -> component = current ++ input.
Proof.
  revert current. induction input as [input IH] using (induction_ltof1 _ (@length char)); intros current H. unfold ltof in IH.
  destruct input as [|c input]; cbn [split_body_path] in H; [simplify_eq; by rewrite app_nil_r|]. case_match.
  - destruct input as [|e input]; [done|]. apply IH in H; [|cbn; lia]. by rewrite H, <- app_assoc.
  - case_match; [|apply IH in H; [by rewrite H, <- app_assoc|cbn; lia]].
    destruct (split_body_path [] input) as [l|] eqn:E; [|done]. cbn in H. simplify_eq.
    exfalso. clear -E. assert (Hne : forall input current, split_body_path current input <> Ok []); [|by apply Hne in E]. clear.
    induction input as [input IH] using (induction_ltof1 _ (@length char)). unfold ltof in IH. intros current.
    destruct input as [|c input]; [done|]. cbn [split_body_path]. repeat case_match; try done; try (apply IH; cbn; lia).
    by destruct (split_body_path [] input).
Qed.
(** Every empty key of the path is followed by a key or by nothing. *)
Fixpoint anchored (segments : list DeleteBodyPathSegment) : bool :=
  match segments with
  | SegKey [] :: SegIndex _ :: _ => false
  | _ :: segments' => anchored segments'
  | [] => true
  end.
Lemma anchored_wf segments :
  anchored segments = true -> Forall (fun s => match s with SegIndex n => n <= USIZE_MAX | SegKey _ => True end) segments ->
  path_wf segments.
Proof.
  induction segments as [|s segments IH]; intros H Hf; [done|]. inversion Hf as [|? ? Hn Hf']; subst.
  destruct s as [key|n]; cbn [path_wf].
  - cbn [anchored] in H. destruct key as [|c key].
    + destruct segments as [|[k|n] segments]; [done|split; [done|by apply IH]|done].
    + split; [by destruct segments as [|[]]|by apply IH].
  - by split; [|apply IH].
Qed.
Lemma parsed_path_read input path :
  parse_body_path input = Ok path -> anchored (dbp_segments path) = true ->
  len (explain_delete_body_path path) <= MAX_BODY_PATH_BYTES ->
  parse_body_path (explain_delete_body_path path) = Ok path.
Proof.
  unfold parse_body_path at 1. destruct (is_emptyb input) eqn:Ee; [done|]. case_match; [done|].
  destruct (split_body_path [] input) as [comps|] eqn:Es; [|done]. cbn [mbind result_bind].
  destruct (fold_args _ _ comps) as [segments|] eqn:Ef; [|done]. cbn [mbind result_bind].
  apply parse_components_bound in Ef as (added & -> & Hl1 & Hl2 & Hf & Hk & Hn). cbn [app] in *. unfold DeleteBodyPath_new.
  destruct (is_emptyb added) eqn:Ea; [done|]. intros [= <-] Hanch Hlen. cbn [dbp_segments] in Hanch.
  assert (Hne : added <> []) by (by intros ->). apply explain_path_read; [by apply anchored_wf|done| |apply Hl2; naive_solver|done].
  intros ->. rewrite (Hk eq_refl) in Es. apply split_single in Es. cbn in Es. by rewrite <- Es in Ee.
Qed.

(** ** Properties *)

(** A form that no text beginning with [prefix] takes. *)
Definition clashes (prefix : str) (name : string) : bool :=
  let n := Nat.min (length prefix) (length (lit name)) in
  eq_ignore_ascii_case (take n prefix) (take n (lit name)).
Definition form_rejects (prefix : str) (form : DeleteForm) : bool :=
  match form with
  | Named names _ => forallb (fun name => negb (clashes prefix name) || (length (lit name) <? length prefix)%nat) names
  | Prefixed names _ => forallb (fun name => negb (clashes prefix name)) names
  end.
Lemma lower_take n s : to_ascii_lowercase (take n s) = take n (to_ascii_lowercase s).
Proof. unfold to_ascii_lowercase. by rewrite firstn_map. Qed.
Lemma clashes_prefix prefix rest name text :
  eq_ignore_ascii_case (take text (prefix ++ rest)) (lit name) = true -> (length (lit name) <= text)%nat -> clashes prefix name = true.
Proof.
  unfold clashes. rewrite !eq_ignore_ascii_case_spec, !lower_take. intros E Hl.
  apply (f_equal (take (Nat.min (length prefix) (length (lit name))))) in E.
  rewrite take_take in E. unfold to_ascii_lowercase in *. rewrite map_app in E. rewrite take_app_le in E; [|rewrite length_map; lia].
  by replace (Nat.min (Nat.min (length prefix) (length (lit name))) text) with (Nat.min (length prefix) (length (lit name))) in E by lia.
Qed.
Lemma find_map_cons {A B} (f : A -> option B) x l :
  find_map f (x :: l) = match f x with Some y => Some y | None => find_map f l end.
Proof. unfold find_map. cbn. by destruct (f x). Qed.
Lemma forms_rejected prefix rest forms forms' :
  forallb (form_rejects prefix) forms = true ->
  parse_delete_forms (forms ++ forms') (prefix ++ rest) = parse_delete_forms forms' (prefix ++ rest).
Proof.
  induction forms as [|form forms IH]; [done|]. cbn [forallb app]. intros [Hf H]%andb_true_iff. specialize (IH H).
  destruct form as [names ops|names ops]; cbn [parse_delete_forms form_rejects] in *; rewrite forallb_forall in Hf.
  - assert (matches_name (prefix ++ rest) names = false) as ->; [|done]. apply not_true_iff_false. unfold matches_name.
    rewrite existsb_exists. intros (name & Hin & E). specialize (Hf name Hin). apply orb_true_iff in Hf as [Hf|Hf].
    + rewrite (clashes_prefix prefix rest name (length (lit name))) in Hf; [done| |done].
      rewrite take_ge; [done|]. apply eq_ignore_ascii_case_spec, (f_equal length) in E. unfold to_ascii_lowercase in E.
      rewrite !length_map in E. lia.
    + apply Nat.ltb_lt in Hf. apply eq_ignore_ascii_case_spec, (f_equal length) in E. unfold to_ascii_lowercase in E.
      rewrite !length_map, length_app in E. lia.
  - assert (suffix_any (prefix ++ rest) names = None) as ->; [|done]. unfold suffix_any.
    induction names as [|name names IHn]; [done|]. rewrite find_map_cons. unfold suffix at 1.
    destruct (eq_ignore_ascii_case (take (length (lit name)) (prefix ++ rest)) (lit name)) eqn:E; [|apply IHn; intros; apply Hf; by right].
    apply clashes_prefix in E; [|done]. specialize (Hf name (or_introl eq_refl)). by rewrite E in Hf.
Qed.
Lemma read_prefixed k p names ops rest :
  DELETE_FORMS !! k = Some (Prefixed (p :: names) ops) -> forallb (form_rejects (lit p)) (take k DELETE_FORMS) = true ->
  parse_delete_property (lit p ++ rest) = ops rest.
Proof.
  intros Hk Hr. unfold parse_delete_property. rewrite <- (take_drop_middle _ _ _ Hk), forms_rejected by done.
  cbn [parse_delete_forms]. unfold suffix_any. rewrite find_map_cons. unfold suffix at 1.
  by rewrite take_app_length, drop_app_length, eq_ignore_ascii_case_refl.
Qed.

(** What the parser guarantees of the operations it returns. *)
Definition name_parsed (name : str) : Prop := forall kind, valid_name kind name = Ok name.
Definition op_parsed (op : DeleteOp.t) : Prop :=
  match op with
  | DeleteOp.UrlParam name | DeleteOp.ReqHeader name | DeleteOp.ResHeader name | DeleteOp.ReqCookie name
  | DeleteOp.ResCookie name | DeleteOp.Trailer name => name_parsed name
  | DeleteOp.PathSegment (DeletePathSegment.Index i) => (- 2 ^ 31 <= i < 2 ^ 31)%Z
  | DeleteOp.ReqBodyPath path | DeleteOp.ResBodyPath path => exists input, parse_body_path input = Ok path
  | _ => True
  end.
Lemma valid_name_parsed kind value name : valid_name kind value = Ok name -> name_parsed name.
Proof.
  unfold valid_name. case_match eqn:E; [done|]. intros [= <-] kind'. unfold valid_name. rewrite trim_trim. by rewrite E.
Qed.
Lemma parse_i32_bound s i : parse_i32 s = Ok i -> (- 2 ^ 31 <= i < 2 ^ 31)%Z.
Proof.
  assert (H : forall s i, (n ← parse_uint (2 ^ 31 - 1) s; Ok (Z.of_N n)) = Ok i -> (- 2 ^ 31 <= i < 2 ^ 31)%Z).
  { intros s' i'. destruct (parse_uint _ s') eqn:E; [|done]. intros [= <-]. apply parse_uint_bound in E. lia. }
  unfold parse_i32. destruct s as [|c [|d s]]; [apply H|apply H|]. case_match; [|apply H].
  destruct (parse_digits _ _ _ _) as [n|e] eqn:E; [|by destruct e]. intros [= <-]. apply parse_digits_bound in E; lia.
Qed.
Definition form_parsed (form : DeleteForm) : Prop :=
  match form with
  | Named _ ops => Forall op_parsed ops
  | Prefixed _ ops => forall text ops', ops text = Ok ops' -> Forall op_parsed ops'
  end.
Lemma named_op_parsed kind op text ops :
  named_op kind op text = Ok ops -> (forall name, name_parsed name -> op_parsed (op name)) -> Forall op_parsed ops.
Proof.
  unfold named_op. destruct (valid_name _ _) eqn:E; [|done]. intros [= <-] H. constructor; [|done].
  by eapply H, valid_name_parsed.
Qed.
Lemma both_ops_parsed kind op1 op2 text ops :
  both_ops kind op1 op2 text = Ok ops -> (forall name, name_parsed name -> op_parsed (op1 name) /\ op_parsed (op2 name)) ->
  Forall op_parsed ops.
Proof.
  unfold both_ops. destruct (valid_name _ _) eqn:E; [|done]. intros [= <-] H. apply valid_name_parsed, H in E as [? ?]. by repeat constructor.
Qed.
Lemma body_path_op_parsed op text ops :
  body_path_op op text = Ok ops -> (forall path input, parse_body_path input = Ok path -> op_parsed (op path)) -> Forall op_parsed ops.
Proof. unfold body_path_op. destruct (parse_body_path _) eqn:E; [|done]. intros [= <-] H. constructor; [by eapply H|done]. Qed.
Lemma forms_parsed : Forall form_parsed DELETE_FORMS.
Proof.
  repeat constructor; intros text ops; try (by intros H; eapply named_op_parsed; [exact H|]);
    try (by intros H; eapply both_ops_parsed; [exact H|]);
    try (by intros H; eapply body_path_op_parsed; [exact H|]; intros path input Hi; exists input).
  unfold parse_path_segment. repeat case_match; try (by intros [= <-]; repeat constructor).
  unfold integer_error. destruct (parse_i32 text) eqn:E; [|done]. intros [= <-]. apply parse_i32_bound in E. constructor; [done|constructor].
Qed.
Lemma delete_property_parsed property ops : parse_delete_property property = Ok ops -> Forall op_parsed ops.
Proof.
  unfold parse_delete_property. pose proof forms_parsed as H. induction H as [|form forms Hf _ IH]; [done|].
  destruct form as [names ops'|names ops']; cbn [parse_delete_forms]; case_match; [by intros [= <-]|done|by apply Hf|done].
Qed.

Lemma parse_i32_show i : (- 2 ^ 31 <= i < 2 ^ 31)%Z -> parse_i32 (show_Z i) = Ok i.
Proof.
  intros Hi. unfold show_Z. destruct (Z.ltb_spec i 0).
  - pose proof (parse_uint_show_N (2 ^ 31) (Z.to_N (- i)) ltac:(lia)) as Hp. pose proof (show_N_nonempty (Z.to_N (- i))) as Hn.
    unfold parse_i32. destruct (show_N (Z.to_N (- i))) as [|d ds] eqn:E; [done|]. rewrite N.eqb_refl. cbn [drop].
    assert (Hd : parse_digits 10 (2 ^ 31) 0 (d :: ds) = Ok (Z.to_N (- i))).
    { rewrite <- Hp. unfold parse_uint, from_str_radix. pose proof (show_N_digits (Z.to_N (- i))) as Hdig. rewrite E in Hdig.
      inversion Hdig as [|? ? Hdd _]; subst. apply in_range_spec in Hdd.
      rewrite (proj2 (N.eqb_neq d (ch "+"))) by (change (ch "+") with 43; lia).
      rewrite (proj2 (N.eqb_neq d (ch "-"))) by (change (ch "-") with 45; lia). by destruct ds. }
    rewrite Hd. f_equal. lia.
  - pose proof (parse_uint_show_N (2 ^ 31 - 1) (Z.to_N i) ltac:(lia)) as Hp. pose proof (show_N_digits (Z.to_N i)) as Hdig.
    assert (Hres : (n ← parse_uint (2 ^ 31 - 1) (show_N (Z.to_N i)); Ok (Z.of_N n)) = Ok i).
    { rewrite Hp. cbn. f_equal. lia. }
    unfold parse_i32. destruct (show_N (Z.to_N i)) as [|c [|d s]]; [done..|]. inversion Hdig as [|? ? Hc _]; subst.
    apply in_range_spec in Hc. rewrite (proj2 (N.eqb_neq c (ch "-"))) by (change (ch "-") with 45; lia). done.
Qed.
Lemma path_segment_read i : (- 2 ^ 31 <= i < 2 ^ 31)%Z -> parse_path_segment (show_Z i) = Ok (DeletePathSegment.Index i).
Proof.
  intros Hi. unfold parse_path_segment. rewrite parse_i32_show by done.
  assert (Hhead : exists c s, show_Z i = c :: s /\ c < 58).
  { unfold show_Z. case_match; [eexists _, _; split; [done|by change (ch "-") with 45]|].
    pose proof (show_N_digits (Z.to_N i)) as Hd. pose proof (show_N_nonempty (Z.to_N i)) as Hn.
    destruct (show_N (Z.to_N i)) as [|c s]; [done|]. inversion Hd as [|? ? Hc _]; subst. apply in_range_spec in Hc.
    exists c, s. split; [done|lia]. }
  destruct Hhead as (c & s & -> & Hc). cbn [to_ascii_lowercase map]. fold (to_ascii_lowercase s).
  assert (lower c = c) as ->. { unfold lower, is_ascii_uppercase. by rewrite (proj2 (in_range_false 65 90 c)) by lia. }
  rewrite !bool_decide_eq_false_2; [done|..]; intros [= ->]; discriminate Hc.
Qed.

(** The explanation of a deletion can be read back: it is short enough and no
    empty key stands before an array selector. *)
Definition readable (op : DeleteOp.t) : Prop :=
  match op with
  | DeleteOp.ReqBodyPath path | DeleteOp.ResBodyPath path =>
      anchored (dbp_segments path) = true /\ len (explain_delete_body_path path) <= MAX_BODY_PATH_BYTES
  | _ => True
  end.
Ltac read_form k := erewrite (read_prefixed k); [|reflexivity|by vm_compute]; cbv beta.
(** A deletion is explained in the rule language: every operation that the
    parser returns is explained as a property that the parser reads as exactly
    that operation, keys with special characters and array selectors included,
    unless an empty key stands before a selector or the text is too long. *)
Theorem delete_explanation_reads_back property ops op :
  parse_delete_property property = Ok ops -> op ∈ ops -> readable op -> parse_delete_property (explain_delete_op op) = Ok [op].
Proof.
  intros Hops%delete_property_parsed Hin Hr. rewrite Forall_forall in Hops. specialize (Hops _ Hin). clear Hin property ops.
  destruct op; cbn [explain_delete_op op_parsed readable] in *;
    try lazymatch goal with |- parse_delete_property (lit _) = _ => by vm_compute end.
  - destruct segment as [i|]; [|by vm_compute]. read_form 1%nat. by rewrite path_segment_read.
  - read_form 3%nat. unfold named_op. by rewrite Hops.
  - read_form 4%nat. unfold named_op. by rewrite Hops.
  - read_form 5%nat. unfold named_op. by rewrite Hops.
  - read_form 10%nat. destruct Hops as [input Hi], Hr as [Ha Hl]. unfold body_path_op. by rewrite (parsed_path_read input).
  - read_form 11%nat. destruct Hops as [input Hi], Hr as [Ha Hl]. unfold body_path_op. by rewrite (parsed_path_read input).
  - read_form 19%nat. unfold named_op. by rewrite Hops.
  - read_form 20%nat. unfold named_op. by rewrite Hops.
  - read_form 22%nat. unfold named_op. by rewrite Hops.
Qed.

(** ** The limit of an explanation *)

Section Limit.
Context {PE : PatternEngines} {CE : CaptureEngine}.

Lemma explain_lines_bounded req out actions cache cache' text :
  len out <= MAX_RULE_EXPLAIN_BYTES - len EXPLAIN_MARKER ->
  explain_lines req out actions cache = (cache', Ok text) -> len text <= MAX_RULE_EXPLAIN_BYTES.
Proof.
  assert (Hm : len EXPLAIN_MARKER <= MAX_RULE_EXPLAIN_BYTES) by done.
  revert out cache. induction actions as [|item actions IH]; intros out cache Ho H; cbn [explain_lines] in H.
  - injection H as <- <-. lia.
  - unfold mbind, StateR_bind in H. destruct (explain_action item req cache) as [cache1 [action|[]]].
    assert (Hmark : len (out ++ EXPLAIN_MARKER) <= MAX_RULE_EXPLAIN_BYTES) by (rewrite len_app; lia).
    destruct (checked_add _ _ _) as [length|] eqn:E; [|by injection H as <- <-]. unfold checked_add in E.
    destruct (_ <=? USIZE_MAX); [|done]. injection E as <-.
    destruct (_ <? _) eqn:El in H; [by injection H as <- <-|]. apply N.ltb_ge in El. eapply IH; [|exact H]. rewrite len_app. lia.
Qed.
(** Explaining a resolution always gives a text, of at most
    [MAX_RULE_EXPLAIN_BYTES] bytes with the truncation marker included, however
    many actions were resolved and whatever their values render to. *)
Theorem explanation_is_bounded result req cache :
  exists cache' text, explain_result result req cache = (cache', Ok text) /\ len text <= MAX_RULE_EXPLAIN_BYTES.
Proof.
  destruct (explain_result result req cache) as [cache' [text|[]]] eqn:E. exists cache', text. split; [done|].
  unfold explain_result in E. destruct (is_emptyb _); [injection E as <- <-; by vm_compute|]. by eapply explain_lines_bounded in E.
Qed.
End Limit.

Lemma delete_explanation_reads_back_witness :
  parse_delete_property (lit "reqBody.a\.b[3].c{d") =
    Ok [DeleteOp.ReqBodyPath (mkDeleteBodyPath [SegKey (lit "a.b"); SegIndex 3; SegKey (lit "c{d")])] /\
  parse_delete_property (explain_delete_op (DeleteOp.ReqBodyPath (mkDeleteBodyPath [SegKey (lit "a.b"); SegIndex 3; SegKey (lit "c{d")]))) =
    Ok [DeleteOp.ReqBodyPath (mkDeleteBodyPath [SegKey (lit "a.b"); SegIndex 3; SegKey (lit "c{d")])].
Proof.
  split; [by vm_compute|].
  apply (delete_explanation_reads_back (lit "reqBody.a\.b[3].c{d")
    [DeleteOp.ReqBodyPath (mkDeleteBodyPath [SegKey (lit "a.b"); SegIndex 3; SegKey (lit "c{d")])]).
  - by vm_compute.
  - left.
  - by vm_compute.
Defined.
