(* ===== verification/Migrate.v ===== *)
(** * Migration of rule sources

    crates/rsproxy-rules/src/migration.rs: the language directive is added or
    replaced and the aliases of call names are rewritten. *)
From Stdlib Require Import Ascii String.
From stdpp Require Import base numbers list gmap strings.
From S2P Require Import Prelude Utf8 Format Model Syntax ParseRule.
Import Syntax.

(** [regex_end_at_boundary]: the number of characters between the slash and
    the closing one. *)
Fixpoint regex_end_at_boundary (escaped character_class : bool) (offset : nat) (rest : str) : option nat :=
  match rest with
  | [] => None
  | c :: rest' =>
      let continue escaped character_class := regex_end_at_boundary escaped character_class (S offset) rest' in
      if escaped then continue false character_class
      else if c =? ch "\" then continue true character_class
      else if c =? ch "[" then continue false true
      else if (c =? ch "]") && character_class then continue false false
      else if negb (c =? ch "/") || character_class then continue false character_class
      else
        match rest' with
        | [] => Some offset
        | next :: _ =>
            if is_whitespace next || (next =? ch ",") || (next =? ch ")") then Some offset else continue false character_class
        end
  end.
(** [begins_regex] for the last character before that is not white space. *)
Definition begins_regex (last : option char) : bool :=
  match last with
  | None => true
  | Some c => contains_char c (lit "(,=~!")
  end.
Definition name_char (c : char) : bool := is_ascii_alphanumeric c || contains_char c (lit "._-").
(** The rest of a name, and what is behind it. *)
Fixpoint span_name (line : str) : str * str :=
  match line with
  | c :: rest => if name_char c then let '(name, behind) := span_name rest in (c :: name, behind) else ([], line)
  | [] => ([], [])
  end.
Definition canonical_call (name : str) : str :=
  match canonical_action_name name with
  | Some canonical => canonical
  | None => unwrap_or (canonical_condition_name name) name
  end.
Definition after (last : option char) (c : char) : option char := if is_whitespace c then last else Some c.
(** [canonicalize_call_names]; [regex] is the number of characters up to and
    with the closing slash of the regex literal being copied. *)
Fixpoint canonicalize (fuel : nat) (last : option char) (quote : option char) (escaped : bool) (regex : nat) (line : str) : str :=
  match fuel, line with
  | S fuel', c :: rest =>
      let copy quote escaped regex := c :: canonicalize fuel' (after last c) quote escaped regex rest in
      match regex with
      | S regex' => copy quote escaped regex'
      | O =>
          if escaped then copy quote false O
          else if c =? ch "\" then copy quote true O
          else
            match quote with
            | Some delimiter => copy (if c =? delimiter then None else Some delimiter) false O
            | None =>
                if is_quote c then copy (Some c) false O
                else if c =? ch "#" then line
                else
                  match (if (c =? ch "/") && begins_regex last then regex_end_at_boundary false false 0 rest else None) with
                  | Some inside => copy None false (S inside)
                  | None =>
                      if is_ascii_alphabetic c then
                        let '(name, behind) := span_name rest in
                        (if starts_with (lit "(") behind then canonical_call (c :: name) else c :: name) ++
                        canonicalize fuel' (List.last (map Some name) (Some c)) None false O behind
                      else copy None false O
                  end
            end
      end
  | _, _ => []
  end.
Definition canonicalize_call_names (line : str) : str := canonicalize (length line) None None false 0 line.

Definition is_directive_line (line : str) : bool :=
  match strip_comment line with
  | Some effective => is_language_directive (trim effective)
  | None => false
  end.
Definition replace_language_directive (line : str) : str :=
  let body := trim_start_matches is_whitespace line in
  let leading := take (length line - length body) line in
  match split_once [ch "#"] body with
  | None => leading ++ RULE_LANGUAGE_HEADER
  | Some (directive, comment) =>
      leading ++ RULE_LANGUAGE_HEADER ++ drop (length (trim_end_matches is_whitespace directive)) directive ++ ch "#" :: comment
  end.
Definition is_effective (line : str) : bool :=
  match strip_comment line with Some line => negb (is_emptyb (trim line)) | None => false end.
(** The line at the first effective position. *)
Fixpoint place_header (lines : list str) : list str :=
  match lines with
  | [] => [RULE_LANGUAGE_HEADER]
  | line :: rest =>
      if is_effective line then
        if is_directive_line line then replace_language_directive line :: rest else RULE_LANGUAGE_HEADER :: line :: rest
      else line :: place_header rest
  end.
Definition migrate_lines (source : str) : list str :=
  map (fun line => if is_directive_line line then line else canonicalize_call_names line) (place_header (lines source)).
Definition migrate_rule_source_v3 (source : str) : str :=
  join [10] (migrate_lines source) ++ (if ends_with [10] source || is_emptyb source then [10] else []).

(** ** What migration does *)

(** A text with names of calls in their canonical spelling. *)
Inductive renames : str -> str -> Prop :=
| renames_nil : renames [] []
| renames_keep c line line' : renames line line' -> renames (c :: line) (c :: line')
| renames_call name behind behind' :
    Forall (fun c => name_char c = true) name -> starts_with (lit "(") behind = true ->
    renames behind behind' -> renames (name ++ behind) (canonical_call name ++ behind').
Lemma renames_refl line : renames line line.
Proof. induction line; by constructor. Qed.
Lemma renames_app text line line' : renames line line' -> renames (text ++ line) (text ++ line').
Proof. induction text; [done|]. intros H. cbn. constructor. auto. Qed.
Lemma span_name_spec line name behind :
  span_name line = (name, behind) -> line = name ++ behind /\ Forall (fun c => name_char c = true) name.
Proof.
  revert name. induction line as [|c line IH]; intros name; cbn [span_name]; [by intros [= <- <-]|].
  case_match eqn:E; [|by intros [= <- <-]]. destruct (span_name line) as [n b]. intros [= <- <-].
  destruct (IH n eq_refl) as [-> Hn]. split; [done|by constructor].
Qed.
Lemma canonicalize_renames fuel last quote escaped regex line :
  (length line <= fuel)%nat -> renames line (canonicalize fuel last quote escaped regex line).
Proof.
  revert last quote escaped regex line. induction fuel as [|fuel IH]; intros last quote escaped regex line Hf.
  { destruct line; [constructor|cbn in Hf; lia]. }
  destruct line as [|c line]; [by destruct regex; constructor|]. cbn [length] in Hf.
  assert (Hcopy : forall last quote escaped regex, renames (c :: line) (c :: canonicalize fuel last quote escaped regex line)).
  { intros. constructor. apply IH. lia. }
  cbn [canonicalize]. destruct regex; [|done]. destruct escaped; [done|]. destruct (c =? ch "\"); [done|]. destruct quote; [done|].
  destruct (is_quote c); [done|]. destruct (c =? ch "#"); [apply renames_refl|].
  destruct (if _ : bool then _ else None); [done|]. destruct (is_ascii_alphabetic c) eqn:Ea; [|done].
  destruct (span_name line) as [name behind] eqn:Es. apply span_name_spec in Es as [-> Hn].
  rewrite length_app in Hf. specialize (IH (List.last (map Some name) (Some c)) None false 0%nat behind ltac:(lia)).
  destruct (starts_with (lit "(") behind) eqn:Eb; [|by apply (renames_app (c :: name))].
  apply (renames_call (c :: name)); [|done|done]. constructor; [|done]. unfold name_char, is_ascii_alphanumeric. by rewrite Ea.
Qed.
(** White space and comments stay. *)
Lemma whitespace_plain c :
  is_whitespace c = true ->
  c <> ch "\" /\ is_quote c = false /\ c <> ch "#" /\ c <> ch "/" /\ is_ascii_alphabetic c = false.
Proof.
  intros H. assert (Hc : c <= 32 \/ 133 <= c).
  { unfold is_whitespace in H. rewrite !orb_true_iff, !in_range_spec, !N.eqb_eq in H. lia. }
  assert (Ha : is_ascii_alphabetic c = false).
  { apply not_true_iff_false. unfold is_ascii_alphabetic, is_ascii_uppercase, is_ascii_lowercase. rewrite orb_true_iff, !in_range_spec. lia. }
  assert (Hq : is_quote c = false).
  { apply not_true_iff_false. unfold is_quote. rewrite orb_true_iff, !N.eqb_eq. unfold QUOTE, APOSTROPHE. change (ch "'") with 39. lia. }
  split_and!; try done; intros ->; vm_compute in Hc; by destruct Hc as [Hc|Hc]; destruct Hc.
Qed.
Lemma canonicalize_ineffective fuel last line :
  (length line <= fuel)%nat -> Forall (fun c => is_whitespace c = true) (strip_comment_loop None false line) ->
  canonicalize fuel last None false 0 line = line.
Proof.
  revert last line. induction fuel as [|fuel IH]; intros last line Hf H; [destruct line; [done|cbn in Hf; lia]|].
  destruct line as [|c line]; [done|]. cbn [length] in Hf. cbn [canonicalize strip_comment_loop] in *.
  destruct (is_whitespace c) eqn:Hc.
  - destruct (whitespace_plain c Hc) as (Hb & Hq & Hh & Hs & Ha).
    rewrite (proj2 (N.eqb_neq _ _) Hb), Hq, (proj2 (N.eqb_neq _ _) Hh) in *. rewrite (proj2 (N.eqb_neq _ _) Hs), Ha. cbn [andb].
    f_equal. apply IH; [lia|]. by inversion H.
  - destruct (c =? ch "\"); [inversion H; congruence|]. destruct (is_quote c); [inversion H; congruence|].
    destruct (c =? ch "#"); [done|inversion H; congruence].
Qed.
Lemma trim_empty s : is_emptyb (trim s) = true -> Forall (fun c => is_whitespace c = true) s.
Proof.
  unfold trim, trim_matches, trim_end_matches. intros H. destruct (trim_start_matches_spec is_whitespace s) as (l & Hs & Hl).
  pose proof (trim_start_matches_head is_whitespace s) as Hh.
  destruct (trim_start_matches is_whitespace s) as [|c t]; [by rewrite Hs, app_nil_r|]. destruct (trim_start_matches_spec is_whitespace (rev (c :: t))) as (r & Hr & Hrw).
  destruct (trim_start_matches is_whitespace (rev (c :: t))) as [|x y] eqn:E; [|cbn in H; by destruct (rev y)].
  rewrite app_nil_r in Hr. rewrite <- Hr in Hrw. apply Forall_rev in Hrw. rewrite rev_involutive in Hrw. inversion Hrw. congruence.
Qed.
Lemma ineffective_kept line :
  is_effective line = false -> canonicalize_call_names line = line /\ is_directive_line line = false.
Proof.
  unfold is_effective, is_directive_line, strip_comment. intros H.
  assert (He : is_emptyb (trim (strip_comment_loop None false line)) = true).
  { destruct (is_emptyb (trim (strip_comment_loop None false line))) eqn:E; [done|]. by rewrite E in H. }
  rewrite He. split; [|done]. by apply canonicalize_ineffective, trim_empty.
Qed.

Definition inert (c : char) : Prop := c <> ch "\" /\ is_quote c = false /\ c <> ch "#".
Lemma strip_inert text rest :
  Forall inert text -> strip_comment_loop None false (text ++ rest) = text ++ strip_comment_loop None false rest.
Proof.
  induction 1 as [|c text (Hb & Hq & Hh) _ IH]; [done|]. cbn [app strip_comment_loop].
  by rewrite (proj2 (N.eqb_neq _ _) Hb), Hq, (proj2 (N.eqb_neq _ _) Hh), IH.
Qed.
Lemma whitespace_inert text : Forall (fun c => is_whitespace c = true) text -> Forall inert text.
Proof. intros H. eapply Forall_impl; [exact H|]. intros c (? & ? & ? & _)%whitespace_plain. done. Qed.
Lemma header_inert : Forall inert RULE_LANGUAGE_HEADER.
Proof. repeat constructor; done. Qed.
Lemma trim_header before behind :
  Forall (fun c => is_whitespace c = true) before -> Forall (fun c => is_whitespace c = true) behind ->
  trim (before ++ RULE_LANGUAGE_HEADER ++ behind) = RULE_LANGUAGE_HEADER.
Proof.
  intros Hb Ha. unfold trim, trim_matches, trim_end_matches. rewrite trim_start_matches_app by done.
  change (RULE_LANGUAGE_HEADER ++ behind) with (ch "@" :: (lit "language 3" ++ behind)).
  rewrite trim_start_matches_id by done. change (ch "@" :: (lit "language 3" ++ behind)) with (RULE_LANGUAGE_HEADER ++ behind).
  rewrite rev_app_distr, trim_start_matches_app by (by apply Forall_rev). by vm_compute.
Qed.
(** The line that the header stands on. *)
Definition header_line (line : str) : Prop := exists text, strip_comment line = Some text /\ trim text = RULE_LANGUAGE_HEADER.
Lemma header_line_intro before gap comment :
  Forall (fun c => is_whitespace c = true) before -> Forall (fun c => is_whitespace c = true) gap ->
  strip_comment_loop None false comment = [] -> header_line (before ++ RULE_LANGUAGE_HEADER ++ gap ++ comment).
Proof.
  intros Hb Hg Hc. unfold header_line, strip_comment. rewrite !strip_inert by auto using whitespace_inert, header_inert.
  rewrite Hc, app_nil_r, trim_header by done. eexists. split; [done|by apply trim_header].
Qed.
Lemma replaced_is_header line : header_line (replace_language_directive line).
Proof.
  unfold replace_language_directive. destruct (trim_start_matches_spec is_whitespace line) as (l & Hl & Hw).
  set (body := trim_start_matches is_whitespace line) in *.
  assert (take (length line - length body) line = l) as ->.
  { rewrite Hl, length_app, Nat.add_sub, take_app_length. done. }
  destruct (split_once [ch "#"] body) as [[directive comment]|].
  - apply (header_line_intro l (drop (length (trim_end_matches is_whitespace directive)) directive) (ch "#" :: comment)); [done| |done].
    unfold trim_end_matches. destruct (trim_start_matches_spec is_whitespace (rev directive)) as (r & Hr & Hrw).
    apply (f_equal (@rev _)) in Hr. rewrite rev_involutive, rev_app_distr in Hr. rewrite Hr at 2.
    rewrite drop_app_length. by apply Forall_rev.
  - pose proof (header_line_intro l [] [] Hw ltac:(constructor) eq_refl) as H. by rewrite !app_nil_r in H.
Qed.
Lemma header_is_header : header_line RULE_LANGUAGE_HEADER.
Proof. pose proof (header_line_intro [] [] [] ltac:(constructor) ltac:(constructor) eq_refl) as H. by rewrite !app_nil_r in H. Qed.
Lemma header_is_directive line : header_line line -> is_directive_line line = true.
Proof. intros (text & Hs & Ht). unfold is_directive_line. by rewrite Hs, Ht. Qed.
(** A migrated source is its lines with the header before the first effective
    one, or in place of a first language directive, and with the canonical
    spelling of the names of calls in the others. *)
Theorem migration_spec source :
  exists before behind header, migrate_lines source = before ++ header :: behind /\
    header_line header /\ Forall (fun line => is_effective line = false) before /\
    exists rest, lines source = before ++ rest /\
      Forall2 renames (if match rest with line :: _ => is_directive_line line | [] => false end then drop 1 rest else rest) behind.
Proof.
  unfold migrate_lines. set (migrate_line := fun line => if is_directive_line line then line else canonicalize_call_names line).
  assert (Hrename : forall ls, Forall2 renames ls (map migrate_line ls)).
  { induction ls; cbn; constructor; [|done]. unfold migrate_line. case_match; [apply renames_refl|by apply canonicalize_renames]. }
  assert (Hkeep : forall line, header_line line -> migrate_line line = line).
  { intros line H%header_is_directive. unfold migrate_line. by rewrite H. }
  induction (lines source) as [|line ls (before & behind & header & Hm & Hh & Hb & rest & Hl & Hr)]; cbn [place_header].
  - exists [], [], RULE_LANGUAGE_HEADER. cbn. rewrite Hkeep by apply header_is_header. split_and!; [done|apply header_is_header|done|].
    by exists [].
  - destruct (is_effective line) eqn:Ee.
    + destruct (is_directive_line line) eqn:Ed.
      * exists [], (map migrate_line ls), (replace_language_directive line). cbn. rewrite Hkeep by apply replaced_is_header.
        split_and!; [done|apply replaced_is_header|done|]. exists (line :: ls). by rewrite Ed.
      * exists [], (map migrate_line (line :: ls)), RULE_LANGUAGE_HEADER. cbn. rewrite Hkeep by apply header_is_header.
        split_and!; [done|apply header_is_header|done|]. exists (line :: ls). rewrite Ed. split; [done|apply (Hrename (line :: ls))].
    + exists (line :: before), behind, header. cbn. destruct (ineffective_kept line Ee) as [Hk Hd].
      assert (migrate_line line = line) as -> by (unfold migrate_line; by rewrite Hd). rewrite Hm.
      split_and!; [done|done|by constructor|]. exists rest. by rewrite Hl.
Qed.
