(* ===== verification/Deadline.v ===== *)
(** * Request deadlines

    crates/rsproxy-net/src/request_deadline.rs and the error stages of
    connect_proxy.rs.  Instants and durations are nanoseconds; every reading
    of the clock is an argument. *)
From Stdlib Require Import Ascii String.
From stdpp Require Import base numbers list gmap strings.
From S2P Require Import Prelude Format Io Http1.

Definition REQUEST_TOTAL_STAGE : str := lit "stage=request_total: timeout after ".

Record RequestDeadline := mkDeadline { dl_started : N; dl_timeout : N }.
Record TimeoutBudget := mkBudget { tb_timeout : N; tb_request_timeout : N; tb_request_limited : bool }.

Definition as_millis (duration : N) : N := duration / 1000000.

Definition request_total_timeout_error (timeout : N) : IoError :=
  mkIoError TimedOut (REQUEST_TOTAL_STAGE ++ show_N (N.min (as_millis timeout) U64_MAX) ++ lit "ms").
Definition is_request_total_timeout (e : IoError) : bool :=
  bool_decide (io_kind e = TimedOut) && starts_with REQUEST_TOTAL_STAGE (io_message e).
Definition is_timeout_kind (e : IoError) : bool :=
  bool_decide (io_kind e = TimedOut) || bool_decide (io_kind e = WouldBlock).

(** [RequestDeadline] *)
Definition deadline_new (now timeout : N) : Result IoError RequestDeadline :=
  if timeout =? 0 then
    Err (invalid_input (lit "stage=request_total: timeout must be greater than zero"))
  else Ok (mkDeadline now timeout).
Definition timeout_error (d : RequestDeadline) : IoError := request_total_timeout_error (dl_timeout d).
Definition remaining (d : RequestDeadline) (now : N) : Result IoError N :=
  match checked_sub (dl_timeout d) (saturating_sub now (dl_started d)) with
  | Some rest => if rest =? 0 then Err (timeout_error d) else Ok rest
  | None => Err (timeout_error d)
  end.
Definition budget (d : RequestDeadline) (now stage_timeout : N) : Result IoError TimeoutBudget :=
  if stage_timeout =? 0 then Err (invalid_input (lit "stage timeout must be greater than zero"))
  else
    rest ← remaining d now;
    Ok (mkBudget (N.min rest stage_timeout) (dl_timeout d) (rest <=? stage_timeout)).
(** [sleep] with the clock before and after it: the time slept and the result. *)
Definition sleep (d : RequestDeadline) (duration now after : N) : N * Result IoError unit :=
  if duration =? 0 then (0, _ ← remaining d now; Ok tt)
  else
    match remaining d now with
    | Err e => (0, Err e)
    | Ok rest =>
        if rest <=? duration then (rest, Err (timeout_error d))
        else (duration, _ ← remaining d after; Ok tt)
    end.

(** [TimeoutBudget] *)
Definition budget_timeout_error (b : TimeoutBudget) (stage_error : N -> IoError) : IoError :=
  if tb_request_limited b then request_total_timeout_error (tb_request_timeout b)
  else stage_error (tb_timeout b).
Definition map_timeout (b : TimeoutBudget) (e : IoError) : IoError :=
  if tb_request_limited b && is_timeout_kind e then request_total_timeout_error (tb_request_timeout b)
  else e.

(** [stage_error] *)
Definition stage_error (stage : str) (e : IoError) : IoError :=
  mkIoError OtherIo (lit "stage=" ++ stage ++ lit ": " ++ io_message e).
(** [stage_io_error]: a request timeout keeps its marker through the stages. *)
Definition stage_io_error (stage : str) (e : IoError) : IoError :=
  if is_request_total_timeout e then e
  else mkIoError (io_kind e) (lit "stage=" ++ stage ++ lit ": " ++ io_message e).

(** ** Properties *)

Lemma request_total_timeout_recognised timeout :
  is_request_total_timeout (request_total_timeout_error timeout) = true.
Proof.
  unfold is_request_total_timeout. cbn [io_kind io_message request_total_timeout_error].
  rewrite bool_decide_true by done. apply starts_with_true. eauto.
Qed.

(** The end of a request as an instant. *)
Definition deadline_end (d : RequestDeadline) : N := dl_started d + dl_timeout d.

Lemma remaining_spec d now :
  dl_started d <= now ->
  remaining d now = if now <? deadline_end d then Ok (deadline_end d - now) else Err (timeout_error d).
Proof.
  intros H. unfold remaining, deadline_end, saturating_sub, checked_sub.
  destruct (N.ltb_spec now (dl_started d + dl_timeout d)).
  - rewrite (proj2 (N.leb_le _ _)) by lia. rewrite (proj2 (N.eqb_neq _ 0)) by lia. f_equal. lia.
  - destruct (N.leb_spec (now - dl_started d) (dl_timeout d)); [|done].
    by rewrite (proj2 (N.eqb_eq _ 0)) by lia.
Qed.

(** no stage outlives its request.  A stage budget taken before the end of
    the request is positive, at most the stage's own timeout, and ends no later
    than the request; when the request is what limits it, a timeout of the
    stage is reported as the request timeout and keeps that marker through
    every stage label.  After the end no budget and no sleep succeeds, and a
    sleep never lasts past the end. *)
Theorem stage_never_outlives_request d now stage_timeout duration after :
  dl_started d <= now -> 0 < stage_timeout ->
  match budget d now stage_timeout with
  | Ok b =>
      0 < tb_timeout b <= stage_timeout /\ now + tb_timeout b <= deadline_end d /\
      (tb_request_limited b = true <-> deadline_end d <= now + stage_timeout) /\
      forall stage e, tb_request_limited b = true -> is_timeout_kind e = true ->
        is_request_total_timeout (stage_io_error stage (map_timeout b e)) = true
  | Err e => deadline_end d <= now /\ e = timeout_error d
  end /\
  (now < deadline_end d -> now + fst (sleep d duration now after) <= deadline_end d) /\
  (deadline_end d <= now -> sleep d duration now after = (0, Err (timeout_error d))).
Proof.
  intros Hs Hst. unfold budget, sleep. rewrite (proj2 (N.eqb_neq stage_timeout 0)) by lia.
  rewrite (remaining_spec d now Hs). destruct (N.ltb_spec now (deadline_end d)) as [Hlt|Hge];
    cbn [mbind result_bind tb_timeout tb_request_limited].
  - split_and!; try lia.
    + rewrite N.leb_le. lia.
    + intros stage e Hl He. unfold map_timeout. cbn [tb_request_limited tb_request_timeout]. rewrite Hl, He.
      cbn [andb]. unfold stage_io_error. by rewrite request_total_timeout_recognised,
        request_total_timeout_recognised.
    + intros _. case_goal; cbn [fst]; [lia|]. case_goal; cbn [fst]; bool_to_prop; lia.
  - split_and!; [lia|done|lia|]. intros _. by case_goal.
Qed.
Lemma stage_never_outlives_request_witness :
  dl_started (mkDeadline 10 20) <= 15 /\ 0 < 30 /\
  (15 < deadline_end (mkDeadline 10 20) ->
   15 + fst (sleep (mkDeadline 10 20) 40 15 30) <= deadline_end (mkDeadline 10 20)).
Proof.
  assert (H1 : dl_started (mkDeadline 10 20) <= 15) by (cbn; lia).
  assert (H2 : 0 < 30) by lia.
  split; [exact H1|]. split; [exact H2|].
  exact (proj1 (proj2 (stage_never_outlives_request (mkDeadline 10 20) 15 30 40 30 H1 H2))).
Defined.
