(* ===== verification/Slots.v ===== *)
(** * Slots of a connection pool

    crates/rsproxy-net/src/upstream_pool.rs: the count of active operations per
    key, the admission loop of [acquire_slot], and the threads that run it
    against the releases of the HTTP/1 pool (h1_forward/pool.rs). *)
From Stdlib Require Import Ascii String.
From stdpp Require Import base numbers list gmap strings.
From S2P Require Import Prelude Utf8 Format Io Http1 Deadline.

(** ** Activity per key *)

Abbreviation KeyedActivity := (gmap str N).
Definition active_for (activity : KeyedActivity) (key : str) : N := default 0 (activity !! key).
Definition reserve (activity : KeyedActivity) (key : str) : KeyedActivity :=
  <[key := active_for activity key + 1]> activity.
Definition release (activity : KeyedActivity) (key : str) : KeyedActivity :=
  match activity !! key with
  | None => activity
  | Some active =>
      let active := saturating_sub active 1 in
      if active =? 0 then delete key activity else <[key := active]> activity
  end.

(** ** Admission *)

Record PoolWaitSpec := mkPoolWaitSpec { pw_stage : str; pw_limit_label : str }.
Definition invalid_pool_wait (spec : PoolWaitSpec) : IoError :=
  invalid_input (pw_stage spec ++ lit " pool_wait: " ++ pw_limit_label spec ++ lit " and timeout must be greater than zero").
Definition wait_timeout (timeout limit : N) (spec : PoolWaitSpec) : IoError :=
  mkIoError TimedOut (pw_stage spec ++ lit " pool_wait: timeout after " ++ show_N (N.min (as_millis timeout) U64_MAX) ++
    lit "ms (" ++ pw_limit_label spec ++ lit " " ++ show_N limit ++ lit ")").

(** The admission test, under the lock. *)
Definition try_reserve (limit : N) (key : str) (activity : KeyedActivity) : option KeyedActivity :=
  if active_for activity key <? limit then Some (reserve activity key) else None.

(** One wait on the condition variable: the time since [started] before it, the
    activity found when the lock is held again and whether the wait timed out. *)
Record Wait := mkWait { wt_elapsed : N; wt_activity : KeyedActivity; wt_timed_out : bool }.

(** The loop; without a wait to come, the wait runs out with nothing changed.
    The waits that were not needed are left. *)
Fixpoint acquire_loop (key : str) (limit timeout : N) (spec : PoolWaitSpec) (waits : list Wait)
    (activity : KeyedActivity) : KeyedActivity * list Wait * Result IoError unit :=
  match try_reserve limit key activity with
  | Some activity => (activity, waits, Ok tt)
  | None =>
      match waits with
      | [] => (activity, [], Err (wait_timeout timeout limit spec))
      | w :: waits' =>
          if timeout <? wt_elapsed w then (activity, waits, Err (wait_timeout timeout limit spec))
          else if wt_timed_out w && (limit <=? active_for (wt_activity w) key)
          then (wt_activity w, waits', Err (wait_timeout timeout limit spec))
          else acquire_loop key limit timeout spec waits' (wt_activity w)
      end
  end.
Definition acquire_slot (key : str) (limit timeout : N) (spec : PoolWaitSpec) (waits : list Wait)
    (activity : KeyedActivity) : KeyedActivity * list Wait * Result IoError unit :=
  if (limit =? 0) || (timeout =? 0) then (activity, waits, Err (invalid_pool_wait spec))
  else acquire_loop key limit timeout spec waits activity.

(** ** Threads *)

(** Where a thread is: about to test the activity, waiting on the condition
    variable, holding a permit, or past the release of its permit and before
    [notify_one]. *)
Inductive ThreadAt := Trying (key : str) | Parked (key : str) | Holding (key : str) | Notifying.
#[global] Instance ThreadAt_eq_dec : EqDecision ThreadAt.
Proof. solve_decision. Defined.

Record Slots := mkSlots { sl_activity : KeyedActivity; sl_threads : gmap N ThreadAt }.

Section Threads.
Context (limit : N).

Inductive slot_step : Slots -> Slots -> Prop :=
| step_call a ts t key :
    ts !! t = None -> slot_step (mkSlots a ts) (mkSlots a (<[t := Trying key]> ts))
| step_reserve a a' ts t key :
    ts !! t = Some (Trying key) -> try_reserve limit key a = Some a' ->
    slot_step (mkSlots a ts) (mkSlots a' (<[t := Holding key]> ts))
| step_park a ts t key :
    ts !! t = Some (Trying key) -> try_reserve limit key a = None ->
    slot_step (mkSlots a ts) (mkSlots a (<[t := Parked key]> ts))
| step_reserve_late a a' ts t key :
    ts !! t = Some (Parked key) -> try_reserve limit key a = Some a' ->
    slot_step (mkSlots a ts) (mkSlots a' (<[t := Holding key]> ts))
| step_time_out a ts t key :
    ts !! t = Some (Parked key) -> try_reserve limit key a = None ->
    slot_step (mkSlots a ts) (mkSlots a (delete t ts))
| step_release a ts t key :
    ts !! t = Some (Holding key) -> slot_step (mkSlots a ts) (mkSlots (release a key) (<[t := Notifying]> ts))
| step_notify a ts t u key :
    ts !! t = Some Notifying -> ts !! u = Some (Parked key) ->
    slot_step (mkSlots a ts) (mkSlots a (<[u := Trying key]> (delete t ts)))
| step_notify_nobody a ts t :
    ts !! t = Some Notifying -> (forall u key, ts !! u <> Some (Parked key)) ->
    slot_step (mkSlots a ts) (mkSlots a (delete t ts)).

Definition slots_initial : Slots := mkSlots ∅ ∅.

(** ** Proofs *)

(** The permits of a key. *)
Definition held (ts : gmap N ThreadAt) (key : str) : N :=
  N.of_nat (size (filter (fun p => snd p = Holding key) ts)).

Lemma held_delete ts t x key :
  ts !! t = Some x -> held ts key = held (delete t ts) key + if decide (x = Holding key) then 1 else 0.
Proof.
  intros Ht. rewrite <- (insert_delete_id ts t x Ht) at 1. unfold held.
  rewrite map_filter_insert. cbn [snd]. destruct (decide (x = Holding key)) as [H|H].
  - rewrite map_size_insert_None; [lia|]. apply map_lookup_filter_None. left. apply lookup_delete_eq.
  - rewrite delete_delete_eq. lia.
Qed.
Lemma held_insert ts t x key :
  held (<[t := x]> ts) key = held (delete t ts) key + if decide (x = Holding key) then 1 else 0.
Proof.
  rewrite (held_delete (<[t := x]> ts) t x) by apply lookup_insert_eq. by rewrite delete_insert_eq.
Qed.

Lemma active_reserve a key key' :
  active_for (reserve a key) key' = active_for a key' + if decide (key = key') then 1 else 0.
Proof.
  unfold reserve, active_for. destruct (decide (key = key')) as [->|Hne].
  - by rewrite lookup_insert_eq.
  - rewrite lookup_insert_ne by done. lia.
Qed.
Lemma active_release a key key' :
  active_for (release a key) key' = active_for a key' - if decide (key = key') then 1 else 0.
Proof.
  unfold release. destruct (a !! key) as [n|] eqn:E.
  - cbv zeta. unfold saturating_sub. destruct (decide (key = key')) as [->|Hne]; case_goal; bool_to_prop;
      unfold active_for; rewrite ?lookup_delete_eq, ?lookup_insert_eq, ?E, ?lookup_delete_ne, ?lookup_insert_ne by done;
      cbn; lia.
  - destruct (decide (key = key')) as [<-|]; unfold active_for; [rewrite E; cbn; lia|lia].
Qed.

(** Every permit is counted, and no key has more than [limit] of them. *)
Definition counted (s : Slots) : Prop :=
  forall key, active_for (sl_activity s) key = held (sl_threads s) key /\ held (sl_threads s) key <= limit.

Lemma try_reserve_Some a key a' :
  try_reserve limit key a = Some a' -> active_for a key < limit /\ a' = reserve a key.
Proof. unfold try_reserve. case_match eqn:E; [|done]. apply N.ltb_lt in E. by intros <-%(inj Some). Qed.

Lemma held_absent ts t key : ts !! t = None -> held (delete t ts) key = held ts key.
Proof. intros Ht. by rewrite delete_id. Qed.

(** A thread moves from [x] to [y]: the permits of a key change with it. *)
Lemma held_move ts t x y key :
  ts !! t = Some x ->
  held (<[t := y]> ts) key + (if decide (x = Holding key) then 1 else 0) =
  held ts key + if decide (y = Holding key) then 1 else 0.
Proof. intros Ht. rewrite held_insert, (held_delete ts t x key Ht). lia. Qed.

Lemma counted_step s s' : slot_step s s' -> counted s -> counted s'.
Proof.
  intros Hstep Hc key. destruct Hstep as
    [a ts t k Ht|a a' ts t k Ht Ha|a ts t k Ht Ha|a a' ts t k Ht Ha|a ts t k Ht Ha|a ts t k Ht|a ts t u k Ht Hu|a ts t Ht Hu];
    specialize (Hc key); cbn [sl_activity sl_threads] in *.
  - rewrite held_insert, held_absent by done. case_decide; [done|lia].
  - apply try_reserve_Some in Ha as [Hlt ->]. pose proof (held_move ts t _ (Holding k) key Ht) as Hm.
    rewrite active_reserve. repeat case_decide; simplify_eq; lia.
  - pose proof (held_move ts t _ (Parked k) key Ht) as Hm. repeat case_decide; simplify_eq; lia.
  - apply try_reserve_Some in Ha as [Hlt ->]. pose proof (held_move ts t _ (Holding k) key Ht) as Hm.
    rewrite active_reserve. repeat case_decide; simplify_eq; lia.
  - pose proof (held_delete ts t _ key Ht) as Hd. case_decide; simplify_eq; lia.
  - pose proof (held_move ts t _ Notifying key Ht) as Hm. rewrite active_release.
    repeat case_decide; simplify_eq; lia.
  - pose proof (held_delete ts t _ key Ht) as Hd.
    assert (delete t ts !! u = Some (Parked k)) as Hu' by (rewrite lookup_delete_ne; [done|congruence]).
    pose proof (held_move _ u _ (Trying k) key Hu') as Hm. repeat case_decide; simplify_eq; lia.
  - pose proof (held_delete ts t _ key Ht) as Hd. case_decide; simplify_eq; lia.
Qed.

Lemma counted_initial : counted slots_initial.
Proof. intros key. cbn. unfold held. rewrite map_filter_empty, map_size_empty. split; [done|lia]. Qed.

(** C24: However threads enter the admission loop, wait, time out and drop their
    permits, the counter of every key equals the number of permits held for it
    and never exceeds the limit. *)
Theorem active_counts_permits s : rtc slot_step slots_initial s -> counted s.
Proof.
  revert s. apply rtc_ind_r; [apply counted_initial|].
  intros y z _ Hyz Hy. by apply (counted_step y z).
Qed.
End Threads.

Lemma active_counts_permits_witness :
  counted 1 (mkSlots (reserve ∅ (lit "a:80")) (<[1 := Holding (lit "a:80")]> ∅)).
Proof.
  apply active_counts_permits.
  eapply rtc_l; [apply (step_call 1 ∅ ∅ 1 (lit "a:80")); done|].
  eapply rtc_l; [eapply (step_reserve 1 ∅ _ _ 1 (lit "a:80")); done|].
  rewrite insert_insert_eq. apply rtc_refl.
Defined.

(** ** A wake-up for the wrong key *)

(** Nobody is about to test the activity or to wake another thread. *)
Definition asleep (s : Slots) : Prop :=
  map_Forall (fun _ x => match x with Parked _ | Holding _ => true | _ => false end = true) (sl_threads s).

(** [notify_one] wakes any waiter of the condition variable that all keys
    share. With one slot for each of two keys, a slot of the second becomes
    free, the waiter of the first is the one that wakes and parks again, and
    the waiter of the second stays asleep beside its free slot until its
    timeout. *)
Theorem release_wakes_wrong_key :
  exists s a b, rtc (slot_step 1) slots_initial s /\ a <> b /\ asleep s /\
    sl_threads s !! 3 = Some (Parked a) /\ sl_threads s !! 4 = Some (Parked b) /\
    active_for (sl_activity s) b = 0 /\ try_reserve 1 b (sl_activity s) <> None.
Proof.
  set (a := lit "a:80"). set (b := lit "b:80").
  exists (mkSlots (release (reserve (reserve ∅ a) b) b)
            (<[3 := Parked a]> (<[3 := Trying a]> (delete 2 (<[2 := Notifying]>
            (<[4 := Parked b]> (<[4 := Trying b]> (<[3 := Parked a]> (<[3 := Trying a]>
            (<[2 := Holding b]> (<[2 := Trying b]> (<[1 := Holding a]> (<[1 := Trying a]> ∅))))))))))))), a, b.
  split.
  - eapply rtc_l; [by apply (step_call 1 _ _ 1 a)|]. eapply rtc_l; [by eapply (step_reserve 1 _ _ _ 1 a)|].
    eapply rtc_l; [by apply (step_call 1 _ _ 2 b)|]. eapply rtc_l; [by eapply (step_reserve 1 _ _ _ 2 b)|].
    eapply rtc_l; [by apply (step_call 1 _ _ 3 a)|]. eapply rtc_l; [by apply (step_park 1 _ _ 3 a)|].
    eapply rtc_l; [by apply (step_call 1 _ _ 4 b)|]. eapply rtc_l; [by apply (step_park 1 _ _ 4 b)|].
    eapply rtc_l; [apply (step_release 1 _ _ 2 b); done|].
    eapply rtc_l; [apply (step_notify 1 _ _ 2 3 a); done|].
    eapply rtc_l; [apply (step_park 1 _ _ 3 a); done|]. apply rtc_refl.
  - split_and!; try done. apply (bool_decide_unpack _). by vm_compute.
Qed.
