(* ===== verification/Relay.v ===== *)
(** * Forwarding of request bodies

    crates/rsproxy-engine/src/proxy: the pacing writer of request_util.rs, the
    body trace emitter of trace_helpers.rs, the framing headers of
    transforms/framing.rs and the streaming relay of request_stream.rs.  The
    deadline readers and writers of the engine turn an expired deadline into an
    error of the stream they wrap; such errors are arrivals of the client
    stream and faults of the upstream sink. *)
From Stdlib Require Import Ascii String.
From stdpp Require Import base numbers list gmap strings.
From S2P Require Import Prelude Utf8 Format Io Model TraceModel Http1 Http1Write Deadline.

(** ** Pacing *)

(** [slice::chunks] for a size of at least one. *)
Fixpoint chunks_aux {A} (fuel : nat) (n : N) (l : list A) : list (list A) :=
  match fuel, l with
  | _, [] => []
  | O, _ => []
  | S fuel', _ => take_N n l :: chunks_aux fuel' n (drop_N n l)
  end.
Definition chunks {A} (n : N) (l : list A) : list (list A) := chunks_aux (length l) n l.

Record ThrottlePacer := mkPacer { tp_bytes_per_sec : option N; tp_waits : bool }.
Definition ThrottlePacer_new (bytes_per_sec : option N) : ThrottlePacer :=
  mkPacer ((fun v => N.max v 1) <$> bytes_per_sec) false.

(** [wait_for_next_chunk]: no wait before the first chunk; a later wait may find
    the deadline expired, which is a fault of the sink. *)
Definition wait_for_next_chunk (p : ThrottlePacer) : StateR Sink IoError unit :=
  if tp_waits p then flush else mret tt.
Fixpoint write_paced (p : ThrottlePacer) (pieces : list (list N)) : StateR Sink IoError ThrottlePacer :=
  match pieces with
  | [] => mret p
  | piece :: pieces' =>
      _ ← wait_for_next_chunk p;
      _ ← write_bytes piece;
      write_paced (mkPacer (tp_bytes_per_sec p) true) pieces'
  end.
Definition ThrottlePacer_write (p : ThrottlePacer) (body : list N) : StateR Sink IoError ThrottlePacer :=
  match tp_bytes_per_sec p with
  | None => _ ← write_bytes body; mret p
  | Some bytes_per_sec => write_paced p (chunks (N.max 1 (N.min bytes_per_sec (16 * 1024))) body)
  end.
Definition write_maybe_throttled (body : list N) (bytes_per_sec : option N) : StateR Sink IoError unit :=
  _ ← ThrottlePacer_write (ThrottlePacer_new bytes_per_sec) body; mret tt.

(** ** Observation *)

Record BodyTraceEmitter := mkEmitter { be_id : N; be_direction : BodyDirection.t; be_remaining : N }.

(** [observe_slice] and [observe_bytes]: the event, with a preview of what the
    capture limit leaves. *)
Definition observe_slice (e : BodyTraceEmitter) (data : list N) : BodyTraceEmitter * TraceEvent.t :=
  let preview := take_N (N.min (blen data) (be_remaining e)) data in
  (mkEmitter (be_id e) (be_direction e) (saturating_sub (be_remaining e) (blen preview)),
   TraceEvent.BodyChunk (be_id e) (be_direction e) preview (blen data)).

Record RequestStreamSummary := mkStreamSummary {
  ss_bytes : N; ss_body_head : list N; ss_trailers : Headers;
  ss_exceeded_buffer_limit : bool; ss_completed : bool }.

Definition observe_request_data (summary : RequestStreamSummary) (data : list N) (trace_limit : N)
    (trace : option BodyTraceEmitter) : RequestStreamSummary * option BodyTraceEmitter * list TraceEvent.t :=
  let rest := saturating_sub trace_limit (blen (ss_body_head summary)) in
  let summary := mkStreamSummary (saturating_add U64_MAX (ss_bytes summary) (blen data))
                   (ss_body_head summary ++ take_N rest data) (ss_trailers summary)
                   (ss_exceeded_buffer_limit summary) (ss_completed summary) in
  match trace with
  | None => (summary, None, [])
  | Some e => let '(e, event) := observe_slice e data in (summary, Some e, [event])
  end.

(** ** Framing headers *)

Definition trailer_names (trailers : Headers) : str := join (lit ", ") (map fst trailers).

Definition HOP_BY_HOP : list str :=
  [lit "connection"; lit "keep-alive"; lit "proxy-connection"; lit "te"; lit "trailer";
   lit "transfer-encoding"; lit "upgrade"].
Definition strip_hop_by_hop_headers (headers : Headers) : Headers :=
  let connection_tokens :=
    List.filter (fun t => negb (is_emptyb t)) (field_values (lit "connection") headers) in
  fold_left remove_header HOP_BY_HOP (fold_left remove_header connection_tokens headers).

Definition prepare_streaming_body_headers (headers : Headers) : Headers :=
  fold_left remove_header [lit "content-length"; lit "transfer-encoding"; lit "trailer"] headers.

Definition prepare_upstream_request_framing (headers : Headers) (request : RawRequest) : Headers :=
  let had_content_length := is_some (header headers (lit "content-length")) in
  let headers := remove_header (remove_header headers (lit "transfer-encoding")) (lit "trailer") in
  if is_emptyb (rq_trailers request) then
    if negb (is_emptyb (rq_body request)) || had_content_length
    then set_header headers (lit "Content-Length") (show_N (blen (rq_body request)))
    else remove_header headers (lit "content-length")
  else
    set_header
      (set_header (remove_header headers (lit "content-length")) (lit "Transfer-Encoding") (lit "chunked"))
      (lit "Trailer") (trailer_names (rq_trailers request)).

Definition prepare_streaming_upstream_request_framing (headers : Headers)
    (framing : RequestBodyFraming.t) : Headers :=
  let headers := remove_header (remove_header headers (lit "content-length")) (lit "transfer-encoding") in
  match framing with
  | RequestBodyFraming.None => remove_header headers (lit "trailer")
  | RequestBodyFraming.ContentLength length =>
      set_header (remove_header headers (lit "trailer")) (lit "Content-Length") (show_N length)
  | RequestBodyFraming.Chunked => set_header headers (lit "Transfer-Encoding") (lit "chunked")
  end.

(** ** Chunked output *)

Definition trailer_text (trailers : Headers) : str :=
  flat_map (fun h => fst h ++ lit ": " ++ snd h ++ crlf) trailers.
Definition chunk_end (trailers : Headers) : list N :=
  encode (lit "0" ++ crlf ++ trailer_text trailers ++ crlf).

(** [write_chunked_request_until]: one chunk, then the trailers. *)
Definition write_chunked_request (body : list N) (trailers : Headers) (bytes_per_sec : option N)
    : StateR Sink IoError unit :=
  _ ← (if is_emptyb body then mret tt
       else
         _ ← write_bytes (encode (show_HEX (blen body) ++ crlf));
         _ ← write_maybe_throttled body bytes_per_sec;
         write_bytes crlf);
  write_bytes (chunk_end trailers).

Definition write_chunked_response {SR : StatusReasons} (head : RawResponseHead) (headers : Headers)
    (body : list N) (trailers : Headers) (bytes_per_sec : option N) (keep_alive : bool)
    : StateR Sink IoError unit :=
  _ ← write_response_head_with_connection head headers keep_alive;
  write_chunked_request body trailers bytes_per_sec.

Definition staged {S A} (stage : str) (m : StateR S IoError A) : StateR S IoError A := fun s =>
  match m s with (s', Ok x) => (s', Ok x) | (s', Err e) => (s', Err (stage_io_error stage e)) end.

(** [write_stream_data] and [finish_stream_body] of upstream_response/streaming.rs;
    the request side does the same and names the stage of an error. *)
Definition write_stream_data (data : list N) (chunked : bool) (throttle : ThrottlePacer)
    : StateR Sink IoError ThrottlePacer :=
  if is_emptyb data then mret throttle
  else
    _ ← (if chunked then write_bytes (encode (show_HEX (blen data) ++ crlf)) else mret tt);
    throttle ← ThrottlePacer_write throttle data;
    _ ← (if chunked then write_bytes crlf else mret tt);
    mret throttle.
Definition finish_stream_body (chunked : bool) (trailers : Headers) : StateR Sink IoError unit :=
  _ ← (if chunked then write_bytes (chunk_end trailers) else mret tt);
  flush.
Definition write_request_data (data : list N) (chunked : bool) (throttle : ThrottlePacer)
    : StateR Sink IoError ThrottlePacer :=
  staged (lit "request_write") (write_stream_data data chunked throttle).
Definition finish_request_body (chunked : bool) (trailers : Headers) : StateR Sink IoError unit :=
  staged (lit "request_write") (finish_stream_body chunked trailers).

(** ** The relay *)

Record StreamingRequestBody := mkStreamingRequestBody {
  sb_prefix : list N; sb_reader : RequestBodyReader; sb_exceeded_buffer_limit : bool }.
Record RelayConfig := mkRelayConfig {
  rc_trace_limit : N; rc_bytes_per_sec : option N; rc_max_header_size : N; rc_max_header_count : N;
  rc_trace : option N }.
Definition REQUEST_STREAM_CHUNK_SIZE : N := 16 * 1024.

(** The loop: the summary and the trace events so far are carried along. *)
Fixpoint relay_loop {S} `{Read S} (config : RelayConfig) (chunked : bool) (fuel : nat)
    (reader : RequestBodyReader) (throttle : ThrottlePacer) (summary : RequestStreamSummary)
    (trace : option BodyTraceEmitter) (events : list TraceEvent.t)
    : StateR (S * Sink) IoError (RequestStreamSummary * list TraceEvent.t) :=
  match fuel with
  | O => spent
  | Datatypes.S fuel' =>
      next ← on_input (staged (lit "client_request_body")
               (RequestBodyReader_read reader REQUEST_STREAM_CHUNK_SIZE
                  (rc_max_header_size config) (rc_max_header_count config)));
      match snd next with
      | RequestBodyRead.Data data =>
          let '(summary, trace, seen) := observe_request_data summary data (rc_trace_limit config) trace in
          throttle ← on_output (write_request_data data chunked throttle);
          relay_loop config chunked fuel' (fst next) throttle summary trace (events ++ seen)
      | RequestBodyRead.End_ trailers =>
          _ ← on_output (finish_request_body chunked trailers);
          mret (mkStreamSummary (ss_bytes summary) (ss_body_head summary) trailers
                  (ss_exceeded_buffer_limit summary) (ss_completed summary), events)
      end
  end.

(** The loop with a round per byte the client still sends. *)
Definition relay_rest {S} `{Read S} (config : RelayConfig) (chunked : bool) (reader : RequestBodyReader)
    (throttle : ThrottlePacer) (summary : RequestStreamSummary) (trace : option BodyTraceEmitter)
    (events : list TraceEvent.t) : StateR (S * Sink) IoError (RequestStreamSummary * list TraceEvent.t) :=
  fun s => relay_loop config chunked (Datatypes.S (length (pending (fst s)))) reader throttle summary
             trace events s.

Definition is_chunked (framing : RequestBodyFraming.t) : bool :=
  match framing with RequestBodyFraming.Chunked => true | _ => false end.

(** [restored] is the result of clearing the client's read timeout at the end. *)
Definition relay_request_body {S} `{Read S} (body : StreamingRequestBody) (config : RelayConfig)
    (restored : Result IoError unit)
    : StateR (S * Sink) IoError (RequestStreamSummary * list TraceEvent.t) :=
  let chunked := is_chunked (br_framing (sb_reader body)) in
  let trace := (fun id => mkEmitter id BodyDirection.Request (rc_trace_limit config)) <$> rc_trace config in
  let summary := mkStreamSummary 0 [] [] (sb_exceeded_buffer_limit body) true in
  let throttle := ThrottlePacer_new (rc_bytes_per_sec config) in
  out ← (if is_emptyb (sb_prefix body)
         then relay_rest config chunked (sb_reader body) throttle summary trace []
         else
           let '(summary, trace, seen) :=
             observe_request_data summary (sb_prefix body) (rc_trace_limit config) trace in
           throttle ← on_output (write_request_data (sb_prefix body) chunked throttle);
           relay_rest config chunked (sb_reader body) throttle summary trace seen);
  _ ← lift_result restored;
  mret out.

(** The body part of [forward_unpooled] for a request that was buffered. *)
Definition write_buffered_request_body (request : RawRequest) (bytes_per_sec : option N)
    : StateR Sink IoError unit :=
  if is_emptyb (rq_trailers request) && negb (is_emptyb (rq_body request)) then
    staged (lit "request_write") (write_maybe_throttled (rq_body request) bytes_per_sec)
  else if negb (is_emptyb (rq_trailers request)) then
    staged (lit "request_write") (write_chunked_request (rq_body request) (rq_trailers request) bytes_per_sec)
  else mret tt.

(** [update_body_headers] of transforms/content.rs. *)
Definition update_body_headers (headers : Headers) (len : N) : Headers :=
  set_header (remove_header (remove_header headers (lit "transfer-encoding")) (lit "trailer"))
    (lit "Content-Length") (show_N len).
