(* ===== verification/Transforms.v ===== *)
(** * Header, cookie, URL and body transformations

    crates/rsproxy-engine/src/proxy: transforms/headers.rs, cookies.rs,
    transforms/delete.rs, transforms/content.rs and the base64 of auth.rs. *)
From Stdlib Require Import Ascii String.
From stdpp Require Import base numbers list gmap strings.
From S2P Require Import Prelude Family Utf8 Format NetAddr Io Model Url Engines Template Http1 Http1Write.
From S2P Require Import Values Relay.

(** ** Header blocks *)

Fixpoint header_block_loop (limit bytes : N) (headers : Headers) : Result IoError unit :=
  match headers with
  | [] => Ok tt
  | (name, value) :: headers' =>
      if is_emptyb name || negb (forallb is_http_token_byte (encode name)) then
        Err (invalid_data (lit "rule actions produced invalid HTTP header name `" ++ name ++ lit "`"))
      else if negb (forallb is_http_field_value_byte (encode value)) then
        Err (invalid_data (lit "rule actions produced an invalid value for HTTP header `" ++ name ++ lit "`"))
      else
        let too_long := output_limit_error (lit "rule-produced header block") limit in
        bytes ← ok_or (b ← checked_add USIZE_MAX bytes (len name);
                       b ← checked_add USIZE_MAX b (len value);
                       checked_add USIZE_MAX b 4) too_long;
        if limit <? bytes then Err too_long else header_block_loop limit bytes headers'
  end.
Definition validate_header_block (headers : Headers) (config : ProxyConfig) : Result IoError unit :=
  if pc_max_header_count config <? blen headers then
    Err (invalid_data (lit "rule actions produced " ++ show_N (blen headers) ++
                       lit " headers, exceeding the configured limit of " ++
                       show_N (pc_max_header_count config)))
  else header_block_loop (rule_header_limit config) 0 headers.

Definition validate_http_method (method : str) : Result IoError unit :=
  if is_emptyb method || negb (forallb is_http_token_byte (encode method))
  then Err (invalid_data (lit "rule actions produced an invalid HTTP method")) else Ok tt.

(** ** Cookies *)

Definition parse_cookie_header (input : str) : Headers :=
  omap (fun part => '(key, value) ← split_once [ch "="] (trim part); Some (trim key, trim value))
    (split_char (ch ";") input).

(** The cookie is replaced in place, or added at the end. *)
Fixpoint set_pair (name value : str) (pairs : Headers) : Headers :=
  match pairs with
  | [] => [(name, value)]
  | (k, v) :: rest => if k =s? name then (k, value) :: rest else (k, v) :: set_pair name value rest
  end.
Definition remove_pair (name : str) (pairs : Headers) : Headers :=
  List.filter (fun p => negb (fst p =s? name)) pairs.

(** [push_text_bounded] of several texts in a row. *)
Definition push_all (output : str) (texts : list str) (limit : N) (label : str) : Result IoError str :=
  fold_left (fun out text => out ← out; push_text_bounded out text limit label) texts (Ok output).

Fixpoint render_request_cookies_loop (output : str) (first : bool) (cookies : Headers) (limit : N)
    : Result IoError str :=
  match cookies with
  | [] => Ok output
  | (name, value) :: cookies' =>
      output ← push_all output ((if first then [] else [lit "; "]) ++ [name; lit "="; value]) limit (lit "Cookie header");
      render_request_cookies_loop output false cookies' limit
  end.
Definition render_request_cookies (cookies : Headers) (limit : N) : Result IoError str :=
  render_request_cookies_loop [] true cookies limit.

Definition request_cookies (headers : Headers) : Headers :=
  unwrap_or (parse_cookie_header <$> header headers (lit "cookie")) [].

(** A [Set-Cookie] field for the cookie [name]. *)
Definition sets_cookie (name : str) (h : str * str) : bool :=
  eq_ignore_ascii_case (fst h) (lit "set-cookie") &&
  match split_once [ch "="] (snd h) with Some (cookie, _) => trim cookie =s? name | None => false end.
Definition remove_response_cookie (headers : Headers) (name : str) : Headers :=
  List.filter (fun h => negb (sets_cookie name h)) headers.

Definition set_charset (headers : Headers) (charset : str) : Headers :=
  let content_type :=
    match header headers (lit "content-type") with
    | Some value => trim (unwrap_or (head (split_char (ch ";") value)) (lit "text/plain"))
    | None => lit "text/plain"
    end in
  set_header headers (lit "Content-Type") (content_type ++ lit "; charset=" ++ charset).

(** ** Deletions *)

Definition remove_request_cookie (headers : Headers) (name : str) : Headers :=
  let cookies := remove_pair name (request_cookies headers) in
  if is_emptyb cookies then remove_header headers (lit "cookie")
  else set_header headers (lit "Cookie") (join (lit "; ") (map (fun c => fst c ++ lit "=" ++ snd c) cookies)).

Definition remove_content_type_part (headers : Headers) (remove_type : bool) : Headers :=
  match header headers (lit "content-type") with
  | None => headers
  | Some value =>
      let parts := map trim (split_char (ch ";") (trim value)) in
      let parts := if remove_type then match parts with [] => [] | _ :: rest => [] :: rest end
                   else take 1 parts in
      let value := join (lit "; ") parts in
      if is_emptyb value then remove_header headers (lit "content-type")
      else set_header headers (lit "Content-Type") value
  end.

Definition segment_position (len : Z) (segment : DeletePathSegment.t) : Z :=
  match segment with
  | DeletePathSegment.Index i => if (i <? 0)%Z then (len + i)%Z else i
  | DeletePathSegment.Last => (len - 1)%Z
  end.
Definition delete_path_segments (path : str) (operations : list DeletePathSegment.t) : str :=
  let raw := unwrap_or (strip_prefix (lit "/") path) path in
  let segments := split_char (ch "/") raw in
  let removed := map (segment_position (Z.of_nat (length segments))) operations in
  let preserve_trailing_slash :=
    existsb (fun op => match op with DeletePathSegment.Last => true | _ => false end) operations in
  let kept := map snd (List.filter (fun p => negb (bool_decide (Z.of_nat (fst p) ∈ removed)))
                         (imap (fun i s => (i, s)) segments)) in
  let kept := match last kept with
              | Some segment => if preserve_trailing_slash && negb (is_emptyb segment) then kept ++ [[]] else kept
              | None => kept
              end in
  let joined := join (lit "/") kept in
  if is_emptyb joined then lit "/" else lit "/" ++ joined.

Definition parse_query_pairs (query : str) : Headers :=
  map (fun part => match split_once [ch "="] part with Some kv => kv | None => (part, []) end)
    (List.filter (fun part => negb (is_emptyb part)) (split_char (ch "&") query)).
Definition pair_text (p : str * str) : str := fst p ++ lit "=" ++ snd p.

Definition set_query (u : UrlParts) (query : option str) : UrlParts :=
  mkUrlParts (up_scheme u) (up_host u) (up_port u) (up_path u) query.
Definition set_path (u : UrlParts) (path : str) : UrlParts :=
  mkUrlParts (up_scheme u) (up_host u) (up_port u) path (up_query u).

Definition delete_query (u : UrlParts) (operation : DeleteOp.t) : UrlParts :=
  match operation with
  | DeleteOp.UrlParams => set_query u None
  | DeleteOp.UrlParam name =>
      let pairs := remove_pair name (parse_query_pairs (unwrap_or (up_query u) [])) in
      set_query u (if is_emptyb pairs then None else Some (join (lit "&") (map pair_text pairs)))
  | _ => u
  end.
Definition apply_url_delete (u : UrlParts) (operations : list DeleteOp.t) : UrlParts :=
  let u :=
    if existsb (fun op => match op with DeleteOp.Pathname => true | _ => false end) operations
    then set_path u (lit "/")
    else
      let segments := omap (fun op => match op with DeleteOp.PathSegment s => Some s | _ => None end) operations in
      if is_emptyb segments then u else set_path u (delete_path_segments (up_path u) segments) in
  fold_left delete_query operations u.

Definition delete_trailer (trailers : Headers) (operation : DeleteOp.t) : Headers :=
  match operation with
  | DeleteOp.Trailer name => remove_header trailers name
  | DeleteOp.Trailers => []
  | _ => trailers
  end.
Definition apply_trailer_delete (trailers : Headers) (operations : list DeleteOp.t) : Headers :=
  fold_left delete_trailer operations trailers.

(** ** URLs *)

Definition set_url_origin (u : UrlParts) (origin : str) : UrlParts :=
  let origin := if starts_with (lit "/") origin then origin else lit "/" ++ origin in
  let '(path, query) := match split_once (lit "?") origin with
                        | Some (path, query) => (path, Some query)
                        | None => (origin, None)
                        end in
  mkUrlParts (up_scheme u) (up_host u) (up_port u) (if is_emptyb path then lit "/" else path) query.

Definition checked_mul (max a b : N) : option N := if a * b <=? max then Some (a * b) else None.
Definition replace_plain_bounded (input from to : str) (limit : N) (label : str) : Result IoError str :=
  let matches := match_count from input in
  length ← ok_or (removed ← checked_mul USIZE_MAX matches (len from);
                  inserted ← checked_mul USIZE_MAX matches (len to);
                  length ← checked_sub (len input) removed;
                  checked_add USIZE_MAX length inserted) (output_limit_error label limit);
  if limit <? length then Err (output_limit_error label limit) else Ok (str_replace from to input).

Fixpoint query_length_loop (length : N) (pairs : Headers) (limit : N) : Result IoError N :=
  match pairs with
  | [] => Ok length
  | (name, value) :: pairs' =>
      let too_long := output_limit_error (lit "query string") limit in
      length ← ok_or (l ← checked_add USIZE_MAX length (len name);
                      l ← checked_add USIZE_MAX l 1;
                      checked_add USIZE_MAX l (len value)) too_long;
      if limit <? length then Err too_long else query_length_loop length pairs' limit
  end.
Definition query_pairs_length (pairs : Headers) (limit : N) : Result IoError N :=
  query_length_loop (saturating_sub (blen pairs) 1) pairs limit.
Definition render_query_pairs (pairs : Headers) (limit : N) : Result IoError str :=
  _ ← query_pairs_length pairs limit; Ok (join (lit "&") (map pair_text pairs)).

Definition validate_rewritten_url (value : str) (limit : N) : Result IoError unit :=
  _ ← ensure_output_limit value limit (lit "rewritten URL");
  if existsb (fun byte => (byte <=? 32) || (byte =? 127)) (encode value)
  then Err (invalid_data (lit "rewritten URL contains whitespace or an ASCII control character"))
  else Ok tt.

(** ** Content types and captures *)

Definition mime_of (content_type : str) : str :=
  to_ascii_lowercase (trim (unwrap_or (head (split_char (ch ";") content_type)) [])).
Definition inject_content_type_matches (headers : Headers) (target : InjectTarget.t) : bool :=
  match header headers (lit "content-type") with
  | None => false
  | Some content_type =>
      existsb (fun t => mime_of content_type =s? t)
        match target with
        | InjectTarget.Html => [lit "text/html"; lit "application/xhtml+xml"]
        | InjectTarget.Js =>
            [lit "application/javascript"; lit "text/javascript"; lit "application/x-javascript"]
        | InjectTarget.Css => [lit "text/css"]
        end
  end.
Definition trace_media_content_type (headers : Headers) : bool :=
  match header headers (lit "content-type") with
  | None => false
  | Some content_type =>
      existsb (fun p => starts_with p (mime_of content_type))
        [lit "image/"; lit "audio/"; lit "video/"; lit "font/"; lit "application/font-";
         lit "application/x-font-"] ||
      (mime_of content_type =s? lit "application/vnd.ms-fontobject")
  end.
Definition trace_body_limit_for_headers (config : ProxyConfig) (headers : Headers) : N :=
  if pc_trace_body_limit config =? 0 then 0
  else if pc_trace_exclude_media_body config && trace_media_content_type headers then 0
  else pc_trace_body_limit config.

(** ** Base64 (auth.rs) *)

Definition BASE64_TABLE : str := lit "ABCDEFGHIJKLMNOPQRSTUVWXYZabcdefghijklmnopqrstuvwxyz0123456789+/".
Definition base64_digit (n : N) : char := nth (N.to_nat n) BASE64_TABLE 0.
Fixpoint base64 (input : list N) : str :=
  match input with
  | [] => []
  | [b0] => [base64_digit (N.shiftr b0 2); base64_digit (N.shiftl (N.land b0 3) 4); ch "="; ch "="]
  | [b0; b1] =>
      [base64_digit (N.shiftr b0 2); base64_digit (N.lor (N.shiftl (N.land b0 3) 4) (N.shiftr b1 4));
       base64_digit (N.shiftl (N.land b1 15) 2); ch "="]
  | b0 :: b1 :: b2 :: rest =>
      base64_digit (N.shiftr b0 2) :: base64_digit (N.lor (N.shiftl (N.land b0 3) 4) (N.shiftr b1 4)) ::
      base64_digit (N.lor (N.shiftl (N.land b1 15) 2) (N.shiftr b2 6)) :: base64_digit (N.land b2 63) ::
      base64 rest
  end.

(** [forwarded_for_value]: the address of a socket address, any other text as it is. *)
Definition forwarded_for_value (value : str) : str :=
  match parse_socket_addr value with Some addr => show_ip (sa_ip addr) | None => value end.

(** ** Attachments and CORS *)

Definition attachment_byte (b : N) : bool :=
  is_ascii_alphanumeric b || contains_char b (lit "!#$&+-.^_`|~").
Definition percent_byte (b : N) : str :=
  if attachment_byte b then [b] else ch "%" :: pad0 2 (show_HEX b).
Definition content_disposition_attachment (filename : str) : Result IoError str :=
  if is_emptyb filename || existsb is_control filename then
    Err (invalid_input (lit "attachment filename must be non-empty and contain no control characters"))
  else
    let fallback := flat_map (fun c => if (c =? DQUOTE) || (c =? ch "\") then [ch "\"; c]
                                       else if is_ascii c then [c] else lit "_") filename in
    Ok (lit "attachment; filename=" ++ [DQUOTE] ++ fallback ++ [DQUOTE] ++
        if forallb is_ascii filename then []
        else lit "; filename*=UTF-8''" ++ flat_map percent_byte (encode filename)).

Fixpoint vary_origin_first (headers : Headers) : option Headers :=
  match headers with
  | [] => None
  | (name, value) :: rest =>
      if eq_ignore_ascii_case name (lit "vary") then
        let has_origin := existsb (fun part => eq_ignore_ascii_case (trim part) (lit "origin")) (split_char (ch ",") value) in
        Some ((name, if has_origin then value
                     else value ++ (if is_emptyb (trim value) then [] else lit ", ") ++ lit "Origin") :: rest)
      else cons (name, value) <$> vary_origin_first rest
  end.
Definition ensure_vary_origin (headers : Headers) : Headers :=
  match vary_origin_first headers with Some h => h | None => set_header headers (lit "Vary") (lit "Origin") end.
