(* ===== verification/Mock.v ===== *)
(** * Mock answers

    crates/rsproxy-engine/src/proxy/mock.rs: the answer a mock action gives in
    place of an upstream, from a value, a raw response, or a file or directory
    of the host.  Directories answer through [MockDirs]: whether a path is one,
    its canonical path, and a file opened relative to it ([Dir::open] of
    cap-std, which refuses to leave the directory). *)
From Stdlib Require Import Ascii String.
From stdpp Require Import base numbers list gmap strings.
From S2P Require Import Prelude Family Utf8 Format Io Model Url Syntax Engines Template Http1 Http1Write.
From S2P Require Import Values Deadline Relay Transforms.

Class MockDirs := {
  is_dir : str -> bool;
  canonicalize : str -> Result IoError str;
  open_ambient_dir : str -> Result IoError unit;
  open_beneath : str -> str -> Result IoError (list N);
}.

(** ** Paths (std::path on Unix) *)

Module Component.
Inductive t := RootDir | CurDir | ParentDir | Normal (name : str).
End Component.
Definition DOT : str := lit ".".
Definition DOTDOT : str := lit "..".
(** The component of one name; [first] names may be the current directory. *)
Definition component (first : bool) (name : str) : list Component.t :=
  if is_emptyb name then []
  else if name =s? DOT then (if first then [Component.CurDir] else [])
  else if name =s? DOTDOT then [Component.ParentDir]
  else [Component.Normal name].
Definition path_components (path : str) : list Component.t :=
  match split_char (ch "/") path with
  | [] => []
  | name :: names =>
      (if starts_with (lit "/") path then [Component.RootDir] else component true name) ++
      flat_map (component false) names
  end.

(** [Path::extension]: the text behind the last dot of a file name that does
    not start with that dot. *)
Definition file_name (path : str) : option str :=
  match last (path_components path) with Some (Component.Normal name) => Some name | _ => None end.
Definition name_extension (name : str) : option str :=
  match rsplit_once_char (ch ".") name with
  | Some (before, after) => if is_emptyb before then None else Some after
  | None => None
  end.
Definition path_extension (path : str) : option str := file_name path ≫= name_extension.

Definition among (s : str) (names : list string) : bool := existsb (fun n => s =s? lit n) names.
Definition content_type_for_path (path : str) : str :=
  let ext := to_ascii_lowercase (unwrap_or (path_extension path) []) in
  if among ext ["html"; "htm"]%string then lit "text/html; charset=utf-8"
  else if among ext ["txt"; "text"; "log"]%string then lit "text/plain; charset=utf-8"
  else if among ext ["json"]%string then lit "application/json"
  else if among ext ["js"; "mjs"]%string then lit "application/javascript"
  else if among ext ["css"]%string then lit "text/css"
  else if among ext ["xml"]%string then lit "application/xml"
  else if among ext ["svg"]%string then lit "image/svg+xml"
  else if among ext ["png"]%string then lit "image/png"
  else if among ext ["jpg"; "jpeg"]%string then lit "image/jpeg"
  else if among ext ["gif"]%string then lit "image/gif"
  else if among ext ["webp"]%string then lit "image/webp"
  else if among ext ["ico"]%string then lit "image/x-icon"
  else if among ext ["pdf"]%string then lit "application/pdf"
  else if among ext ["wasm"]%string then lit "application/wasm"
  else if among ext ["woff"]%string then lit "font/woff"
  else if among ext ["woff2"]%string then lit "font/woff2"
  else if among ext ["ttf"]%string then lit "font/ttf"
  else if among ext ["otf"]%string then lit "font/otf"
  else lit "application/octet-stream".

(** ** The path below a mock directory *)

Definition is_safe_path_segment (segment : str) : bool :=
  match path_components segment with [Component.Normal _] => true | _ => false end.
Definition forbidden_char (c : char) : bool := (c =? ch "\") || (c =? ch ":") || (c =? 0).
Definition unsafe_segment (segment : str) : IoError :=
  invalid_input (lit "unsafe mock directory URL path segment `" ++ segment ++ lit "`").

Fixpoint push_segments (out : str) (segments : list str) : Result IoError str :=
  match segments with
  | [] => Ok out
  | segment :: segments' =>
      let segment := trim segment in
      if is_emptyb segment then push_segments out segments'
      else if (segment =s? DOT) || (segment =s? DOTDOT) || existsb forbidden_char segment ||
              negb (is_safe_path_segment segment)
      then Err (unsafe_segment segment)
      else push_segments (path_join out segment) segments'
  end.
Definition mock_directory_relative_path (meta : RequestMeta) : Result IoError str :=
  let path := match UrlParts_parse (req_url meta) with Ok url => up_path url | Err _ => lit "/" end in
  out ← push_segments [] (split_char (ch "/") path);
  Ok (if is_emptyb out || ends_with (lit "/") path then path_join out (lit "index.html") else out).

(** ** Answers *)

Record MockResponse := mkMockResponse { mk_status : N; mk_reason : str; mk_headers : Headers; mk_body : list N }.

Definition status_range_error : IoError := invalid_data (lit "mock response status must be in 200..=599").
Definition finalize_mock_response (response : MockResponse) (config : ProxyConfig) : Result IoError MockResponse :=
  let status := mk_status response in
  if negb ((MIN_FINAL_HTTP_STATUS <=? status) && (status <=? MAX_HTTP_STATUS)) then Err status_range_error
  else if negb (status_can_send_content status) && negb (is_emptyb (mk_body response)) then
    Err (invalid_data (lit "mock response status " ++ show_N status ++ lit " must not include content"))
  else
    let headers := remove_header (strip_hop_by_hop_headers (mk_headers response)) (lit "content-length") in
    _ ← validate_header_block headers config;
    Ok (mkMockResponse status (mk_reason response) headers (mk_body response)).

(** *** mock.raw *)

Fixpoint raw_headers (headers : Headers) (lines : list str) : Result IoError Headers :=
  match lines with
  | [] => Ok headers
  | line :: lines' =>
      let line := trim_end_matches (N.eqb 13) line in
      if is_emptyb (trim line) then raw_headers headers lines'
      else
        match split_once [ch ":"] line with
        | None => Err (invalid_data (lit "mock.raw invalid header `" ++ line ++ lit "`"))
        | Some (name, value) =>
            let name := trim name in
            if is_emptyb name || eq_ignore_ascii_case name (lit "connection") then raw_headers headers lines'
            else raw_headers (headers ++ [(name, trim_start value)]) lines'
        end
  end.
(** The head and the body, at the first blank line; [find_bytes]. *)
Definition split_raw (bytes : list N) : option (list N * list N) :=
  match split_once (crlf ++ crlf) bytes with
  | Some parts => Some parts
  | None => split_once [10; 10] bytes
  end.

Section Mock.
Context {SR : StatusReasons}.
Definition parse_raw_mock_response (bytes : list N) : Result IoError MockResponse :=
  match split_raw bytes with
  | None => Err (invalid_data (lit "mock.raw must include status line, headers, blank line, and body"))
  | Some (head, body) =>
      match lines (from_utf8_lossy head) with
      | [] => Err (invalid_data (lit "mock.raw missing status line"))
      | status_line :: lines =>
          let parts := splitn_char 3 (ch " ") (trim_end_matches (N.eqb 13) status_line) in
          let version := unwrap_or (parts !! 0%nat) [] in
          if negb (among version ["HTTP/1.0"; "HTTP/1.1"]%string)
          then Err (invalid_data (lit "mock.raw status line must use HTTP/1.0 or HTTP/1.1"))
          else
            status ← ok_or (parts !! 1%nat ≫= fun v => ok (parse_uint U16_MAX v))
                       (invalid_data (lit "mock.raw invalid status"));
            let reason := match parts !! 2%nat with
                          | Some value => if is_emptyb (trim value) then reason_phrase status else value
                          | None => reason_phrase status
                          end in
            headers ← raw_headers [] lines;
            Ok (mkMockResponse status reason headers body)
      end
  end.

(** *** Files *)

Context {PE : PatternEngines} {CE : CaptureEngine} {RF : RuleFiles} {MD : MockDirs}.
Context (config : ProxyConfig) (meta : RequestMeta).

Definition TEXT_PLAIN : str := lit "text/plain; charset=utf-8".
Definition MOCK_FILE : str := lit "mock file".
(** The content, and the path that decides on its type. *)
Definition read_rule_file_path (path : str) (limit : N) : Result IoError (list N * str) :=
  let limit := N.min limit MAX_RULE_EXTERNAL_VALUE_BYTES in
  if is_dir path then
    base ← canonicalize path;
    relative ← mock_directory_relative_path meta;
    let resolved := path_join base relative in
    _ ← open_ambient_dir path;
    content ← open_beneath path relative;
    body ← read_open_file content resolved limit MOCK_FILE;
    Ok (body, resolved)
  else
    body ← bounded_read_file path limit MOCK_FILE;
    Ok (body, path).
Definition read_rule_file_candidate (path : str) : Result IoError (list N * str) :=
  match read_rule_file_path (path_join (pc_storage config) path) (rule_body_limit config) with
  | Err e => if bool_decide (io_kind e = NotFound) then read_rule_file_path path (rule_body_limit config) else Err e
  | Ok found => Ok found
  end.

Definition MAX_RULE_MOCK_FILE_CANDIDATES : nat := 32.
(** The first candidate that exists; another error than [NotFound] ends the search. *)
Fixpoint first_candidate (last_err : option IoError) (candidates : list str) : Result IoError (list N * str) :=
  match candidates with
  | [] => Err (default (mkIoError NotFound (lit "mock file has no candidates")) last_err)
  | candidate :: candidates' =>
      match read_rule_file_candidate candidate with
      | Ok found => Ok found
      | Err e => if bool_decide (io_kind e = NotFound) then first_candidate (Some e) candidates' else Err e
      end
  end.
Definition mock_candidates (rendered : str) : list str :=
  take (MAX_RULE_MOCK_FILE_CANDIDATES + 1)
    (List.filter (fun c => negb (is_emptyb c)) (map trim (split_char (ch "|") rendered))).

Definition resolve_mock_value (value : Value.t) (item : ResolvedAction) : Act (list N * str) :=
  match value with
  | Value.Inline _ | Value.Reference _ =>
      body ← resolve_value_bytes_bounded config item meta value (rule_body_limit config);
      mret (body, TEXT_PLAIN)
  | Value.File path =>
      rendered ← render_rule_path item meta path;
      let candidates := mock_candidates rendered in
      if (MAX_RULE_MOCK_FILE_CANDIDATES <? length candidates)%nat
      then fail (invalid_input (lit "mock file exceeds the 32-candidate limit"))
      else
        found ← lift_result (first_candidate None candidates);
        body ← render_text_bytes item meta (fst found) (rule_body_limit config);
        mret (body, content_type_for_path (snd found))
  end.

(** *** The mock of a request *)

Fixpoint inline_headers (item : ResolvedAction) (headers : Headers) (ops : list (str * Value.t)) : Act Headers :=
  match ops with
  | [] => mret headers
  | (name, value) :: ops' =>
      text ← resolve_value_text_bounded config item meta value (rule_header_limit config);
      inline_headers item (headers ++ [(name, text)]) ops'
  end.
Definition mock_inline (op : MockInlineOp) (item : ResolvedAction) : Act MockResponse :=
  let status := default 200 (mi_status op) in
  body ← match mi_body op with
         | Some value => resolve_value_bytes_bounded config item meta value (rule_body_limit config)
         | None => mret []
         end;
  headers ← inline_headers item [] (mi_headers op);
  let headers := if existsb (fun h => eq_ignore_ascii_case (fst h) (lit "content-type")) headers then headers
                 else headers ++ [(lit "Content-Type", TEXT_PLAIN)] in
  mret (mkMockResponse status (reason_phrase status) headers body).
(** What one action answers. *)
Definition mock_of (item : ResolvedAction) : option (Act MockResponse) :=
  match ra_action item with
  | Action.Mock value =>
      Some (resolved ← resolve_mock_value value item;
            mret (mkMockResponse 200 (lit "OK") [(lit "Content-Type", snd resolved)] (fst resolved)))
  | Action.MockRaw value =>
      Some (bytes ← resolve_value_bytes_bounded config item meta value (rule_body_limit config);
            lift_result (parse_raw_mock_response bytes))
  | Action.MockInline op => Some (mock_inline op item)
  | _ => None
  end.
Fixpoint first_mock (actions : list ResolvedAction) : Act (option MockResponse) :=
  match actions with
  | [] => mret None
  | item :: actions' =>
      match mock_of item with
      | None => first_mock actions'
      | Some answer =>
          response ← answer;
          response ← lift_result (finalize_mock_response response config);
          mret (Some response)
      end
  end.
End Mock.

(** ** Proofs *)

(** A name that is one component of a path. *)
Definition plain_name (name : str) : Prop := name <> [] /\ name <> DOT /\ name <> DOTDOT /\ ch "/" ∉ name.
Definition SLASH : str := [ch "/"].

Lemma component_plain name : plain_name name -> component false name = [Component.Normal name].
Proof.
  intros (H1 & H2 & H3 & _). unfold component. destruct name; [done|]. cbn [is_emptyb].
  by rewrite !bool_decide_eq_false_2.
Qed.
(** The names of a relative path below a directory. *)
Lemma component_names names :
  names <> [] -> Forall plain_name names ->
  flat_map (component false) (split_char (ch "/") (join SLASH names)) = map Component.Normal names.
Proof.
  intros Hne Hn. destruct names as [|n names]; [done|]. unfold SLASH.
  rewrite split_char_join by (eapply Forall_impl; [done|]; intros m Hm; apply Hm). clear Hne.
  induction Hn as [|m ms Hm _ IH]; [done|]. cbn [flat_map map]. by rewrite component_plain, IH.
Qed.
Lemma components_sep b p :
  b <> [] -> path_components (b ++ ch "/" :: p) = path_components b ++ flat_map (component false) (split_char (ch "/") p).
Proof.
  intros Hne. unfold path_components. rewrite split_char_sep.
  destruct (split_char_cons (ch "/") b) as (h & t & ->). cbn [app]. rewrite flat_map_app, app_assoc.
  destruct b as [|c b]; [done|]. change (lit "/") with SLASH. unfold starts_with, SLASH.
  cbn [strip_prefix app]. by destruct (ch "/" =? c).
Qed.
Lemma components_below base names :
  base <> [] -> names <> [] -> Forall plain_name names ->
  path_components (path_join base (join SLASH names)) = path_components base ++ map Component.Normal names.
Proof.
  intros Hb Hne Hn. rewrite <- component_names by done. set (p := join SLASH names).
  assert (starts_with SLASH p = false) as Hp.
  { destruct names as [|n names]; [done|]. apply Forall_cons in Hn as [(Hn & _ & _ & Hs) _].
    destruct n as [|c n]; [done|]. subst p. assert (c <> ch "/") as Hc by set_solver.
    apply not_true_iff_false. rewrite starts_with_true. intros (r & E).
    destruct names; cbn in E; congruence. }
  unfold path_join. change (lit "/") with SLASH. rewrite Hp. replace (is_emptyb base) with false by (by destruct base).
  cbn [orb]. destruct (ends_with SLASH base) eqn:He; [|by apply components_sep].
  apply ends_with_true in He as (b & ->). unfold SLASH. rewrite <- app_assoc. cbn [app].
  destruct b as [|c b]; [done|]. rewrite !components_sep by done. cbn [split_char flat_map component is_emptyb app].
  by rewrite app_nil_r.
Qed.

(** The names pushed so far. *)
Lemma join_plain names : names <> [] -> Forall plain_name names -> exists b c, join SLASH names = b ++ [c] /\ c <> ch "/".
Proof.
  intros Hne Hn. induction Hn as [|n names (Hn & _ & _ & Hs) _ IH]; [done|]. destruct names as [|m names].
  - destruct (exists_last Hn) as (b & c & ->). exists b, c. split; [done|]. set_solver.
  - destruct IH as (b & c & E & Hc); [done|]. exists (n ++ SLASH ++ b), c.
    change (join SLASH (n :: m :: names)) with (n ++ SLASH ++ join SLASH (m :: names)). by rewrite E, <- !app_assoc.
Qed.
Lemma join_snoc names name : names <> [] -> join SLASH (names ++ [name]) = join SLASH names ++ SLASH ++ name.
Proof.
  intros Hne. induction names as [|n names IH]; [done|]. destruct names as [|m names]; [done|].
  change (join SLASH ((n :: m :: names) ++ [name])) with (n ++ SLASH ++ join SLASH ((m :: names) ++ [name])).
  change (join SLASH (n :: m :: names)) with (n ++ SLASH ++ join SLASH (m :: names)).
  rewrite IH by done. by rewrite <- !app_assoc.
Qed.
Lemma path_join_names names name :
  Forall plain_name names -> plain_name name ->
  path_join (join SLASH names) name = join SLASH (names ++ [name]).
Proof.
  intros Hns (Hne & _ & _ & Hs). unfold path_join. change (lit "/") with SLASH.
  replace (starts_with SLASH name) with false.
  2: { destruct name as [|c name]; [done|]. unfold starts_with, SLASH. cbn [strip_prefix].
       rewrite (proj2 (N.eqb_neq (ch "/") c)); [done|]. set_solver. }
  destruct names as [|n names]; [done|]. destruct (join_plain (n :: names)) as (b & c & E & Hc); [done..|].
  rewrite join_snoc, E by done. replace (is_emptyb (b ++ [c])) with false by (by destruct b).
  replace (ends_with SLASH (b ++ [c])) with false; [done|]. symmetry. apply not_true_iff_false.
  rewrite ends_with_true. intros (r & Er). apply app_inj_tail in Er as [_ ->]. done.
Qed.

Lemma push_segments_names out segments p names :
  out = join SLASH names -> Forall plain_name names -> Forall (fun s => ch "/" ∉ s) segments ->
  push_segments out segments = Ok p -> exists names', p = join SLASH names' /\ Forall plain_name names'.
Proof.
  intros -> Hn Hs. revert names Hn. induction Hs as [|s segments Hs _ IH]; intros names Hn; cbn [push_segments].
  { intros [= <-]. eauto. }
  destruct (trim s) as [|c t] eqn:Et; cbn [is_emptyb]; [by apply IH|].
  destruct (_ || _ || _ || _) eqn:Eb; [done|]. rewrite !orb_false_iff in Eb. destruct Eb as [[[H1 H2] _] _].
  assert (plain_name (c :: t)) as Hp.
  { apply bool_decide_eq_false in H1, H2. split_and!; [done..|]. rewrite <- Et.
    destruct (trim_matches_infix is_whitespace s) as (a & b & E). unfold trim. rewrite E in Hs. set_solver. }
  rewrite path_join_names by done. apply IH. apply Forall_app. by split; [|constructor].
Qed.

(** C29: A mock directory serves only files below it: for every URL the path it
    is asked for is a nonempty list of plain names, without a root, a current
    or a parent directory, so joined to any directory it goes down from there. *)
Theorem mock_path_stays_below meta p :
  mock_directory_relative_path meta = Ok p ->
  exists names, p = join SLASH names /\ names <> [] /\ Forall plain_name names /\
    forall base, base <> [] -> path_components (path_join base p) = path_components base ++ map Component.Normal names.
Proof.
  unfold mock_directory_relative_path. cbv zeta. set (path := match UrlParts_parse _ with Ok _ => _ | _ => _ end).
  destruct (push_segments [] (split_char (ch "/") path)) as [out|e] eqn:E; [|done]. intros [= <-].
  apply (push_segments_names _ _ _ []) in E as (names & -> & Hn); [|done|done|].
  2: { apply Forall_forall. intros s. apply split_char_no. }
  assert (plain_name (lit "index.html")) as Hi.
  { split_and!; [by vm_compute..|]. apply (bool_decide_unpack _). by vm_compute. }
  destruct (is_emptyb (join SLASH names) || _) eqn:Eb.
  - rewrite path_join_names by done. exists (names ++ [lit "index.html"]).
    assert (Forall plain_name (names ++ [lit "index.html"])) as Hf by (apply Forall_app; by split; [|constructor]).
    split_and!; [done|by destruct names|done|]. intros base Hb. apply components_below; [done|by destruct names|done].
  - assert (names <> []) as Hne by (by intros ->). exists names. split_and!; [done..|].
    intros base Hb. by apply components_below.
Qed.

Lemma mock_path_stays_below_witness :
  let meta := mkRequestMeta (lit "GET") (lit "http://a/x/y/") [] [] None None (mkTemplateMetadata [] 0 0 []) in
  mock_directory_relative_path meta = Ok (lit "x/y/index.html") /\
  exists names, lit "x/y/index.html" = join SLASH names /\ names <> [] /\ Forall plain_name names /\
    forall base, base <> [] ->
      path_components (path_join base (lit "x/y/index.html")) = path_components base ++ map Component.Normal names.
Proof.
  intros meta. assert (mock_directory_relative_path meta = Ok (lit "x/y/index.html")) as E by (by vm_compute).
  split; [exact E|]. exact (mock_path_stays_below meta _ E).
Defined.
