(* ===== verification/Actions.v ===== *)
(** * Applying rule actions

    crates/rsproxy-engine/src/proxy: response_actions.rs, request_actions.rs,
    the operations of transforms/headers.rs, cookies.rs, transforms/delete.rs
    and transforms/content.rs that read values, and authorization (auth.rs). *)
From Stdlib Require Import Ascii String.
From stdpp Require Import base numbers list gmap strings.
From S2P Require Import Prelude Family Utf8 Format Io Model Url Engines Template Http1 Http1Write Values.
From S2P Require Import Relay Transforms.

Section Actions.
Context {PE : PatternEngines} {CE : CaptureEngine} {RF : RuleFiles} {JT : JsonText} {SR : StatusReasons}.
Context (config : ProxyConfig) (meta : RequestMeta).

(** ** One action *)

Section Item.
Context (item : ResolvedAction).

Definition text (value : Value.t) (limit : N) : Act str :=
  resolve_value_text_bounded config item meta value limit.
Definition bytes (value : Value.t) (limit : N) : Act (list N) :=
  resolve_value_bytes_bounded config item meta value limit.

(** Every field of that name is rewritten; an error leaves the call. *)
Fixpoint replace_fields (name : str) (pattern : RegexReplacePattern) (replacement : str) (limit : N)
    (headers : Headers) : Result IoError Headers :=
  match headers with
  | [] => Ok []
  | (n, v) :: rest =>
      v ← (if eq_ignore_ascii_case n name
           then map_err rule_output_error (replace_all_bounded pattern v replacement limit) else Ok v);
      rest ← replace_fields name pattern replacement limit rest;
      Ok ((n, v) :: rest)
  end.
Definition apply_header_op (headers : Headers) (op : HeaderOp.t) : Act Headers :=
  let limit := rule_header_limit config in
  match op with
  | HeaderOp.Set_ name value => v ← text value limit; mret (set_header headers name v)
  | HeaderOp.Remove name => mret (remove_header headers name)
  | HeaderOp.Replace name pattern replacement =>
      lift_result (replace_fields name pattern replacement limit headers)
  end.

Definition apply_req_cookie (headers : Headers) (op : CookieOp.t) : Act Headers :=
  let limit := rule_header_limit config in
  cookies ← match op with
            | CookieOp.Set_ name value _ =>
                v ← text value limit; mret (set_pair name v (request_cookies headers))
            | CookieOp.Remove name => mret (remove_pair name (request_cookies headers))
            end;
  if is_emptyb cookies then mret (remove_header headers (lit "cookie"))
  else
    v ← lift_result (render_request_cookies cookies limit);
    mret (set_header headers (lit "Cookie") v).

Definition SET_COOKIE : str := lit "Set-Cookie value".
Fixpoint render_cookie_attrs (out : str) (attrs : list CookieAttr) : Act str :=
  match attrs with
  | [] => mret out
  | attr :: attrs' =>
      let limit := rule_header_limit config in
      out ← lift_result (push_all out [lit "; "; ca_name attr] limit SET_COOKIE);
      out ← match ca_value attr with
            | None => mret out
            | Some value =>
                out ← lift_result (push_text_bounded out (lit "=") limit SET_COOKIE);
                remaining ← lift_result (remaining_capacity (len out) limit SET_COOKIE);
                v ← text value remaining;
                lift_result (push_text_bounded out v limit SET_COOKIE)
            end;
      render_cookie_attrs out attrs'
  end.
Definition render_set_cookie (name value : str) (attrs : list CookieAttr) : Act str :=
  let limit := rule_header_limit config in
  out ← lift_result (push_all [] [name; lit "="; value] limit SET_COOKIE);
  if is_emptyb attrs then lift_result (push_text_bounded out (lit "; Path=/") limit SET_COOKIE)
  else render_cookie_attrs out attrs.
Definition apply_res_cookie (headers : Headers) (op : CookieOp.t) : Act Headers :=
  match op with
  | CookieOp.Set_ name value attrs =>
      v ← text value (rule_header_limit config);
      cookie ← render_set_cookie name v attrs;
      mret (headers ++ [(lit "Set-Cookie", cookie)])
  | CookieOp.Remove name => mret (remove_response_cookie headers name)
  end.

(** A field that is only set when the action gives it a value. *)
Definition set_optional (headers : Headers) (name : str) (value : option Value.t) : Act Headers :=
  match value with
  | Some v => t ← text v (rule_header_limit config); mret (set_header headers name t)
  | None => mret headers
  end.
Definition apply_res_cors (headers : Headers) (op : CorsOp) : Act Headers :=
  let limit := rule_header_limit config in
  origin ← text (co_origin op) limit;
  let headers := set_header headers (lit "Access-Control-Allow-Origin") origin in
  methods ← resolve_optional config item meta (co_methods op) limit (lit "GET,POST,PUT,PATCH,DELETE,OPTIONS");
  let headers := set_header headers (lit "Access-Control-Allow-Methods") methods in
  allowed ← resolve_optional config item meta (co_headers op) limit (lit "Content-Type,Authorization,*");
  let headers := set_header headers (lit "Access-Control-Allow-Headers") allowed in
  let credentials := lit "Access-Control-Allow-Credentials" in
  let headers := match co_credentials op with
                 | Some true => set_header headers credentials (lit "true")
                 | Some false => remove_header headers credentials
                 | None => headers
                 end in
  headers ← set_optional headers (lit "Access-Control-Expose-Headers") (co_expose op);
  headers ← set_optional headers (lit "Access-Control-Max-Age") (co_max_age op);
  mret (if origin =s? lit "*" then headers else ensure_vary_origin headers).

Definition CACHE_CONTROL : str := lit "Cache-Control value".
Fixpoint render_cache_loop (out : str) (first : bool) (directives : list CacheDirective) : Act str :=
  match directives with
  | [] => mret out
  | directive :: directives' =>
      let limit := rule_header_limit config in
      out ← lift_result (push_all out ((if first then [] else [lit ", "]) ++ [cd_name directive]) limit CACHE_CONTROL);
      out ← match cd_value directive with
            | None => mret out
            | Some value =>
                out ← lift_result (push_text_bounded out (lit "=") limit CACHE_CONTROL);
                remaining ← lift_result (remaining_capacity (len out) limit CACHE_CONTROL);
                v ← text value remaining;
                lift_result (push_text_bounded out v limit CACHE_CONTROL)
            end;
      render_cache_loop out false directives'
  end.
Definition render_cache_directives (directives : list CacheDirective) : Act str :=
  render_cache_loop [] true directives.

Definition prepended (body : list N) (value : Value.t) (label : str) : Act (list N) :=
  remaining ← lift_result (remaining_capacity (blen body) (rule_body_limit config) label);
  next ← bytes value remaining; mret (next ++ body).
Definition appended (body : list N) (value : Value.t) (label : str) : Act (list N) :=
  remaining ← lift_result (remaining_capacity (blen body) (rule_body_limit config) label);
  next ← bytes value remaining; mret (body ++ next).
Definition apply_body_op (body : list N) (op : BodyOp.t) : Act (list N) :=
  match op with
  | BodyOp.Set_ value => bytes value (rule_body_limit config)
  | BodyOp.Prepend value => prepended body value (lit "body transformation")
  | BodyOp.Append value => appended body value (lit "body transformation")
  | BodyOp.Replace pattern replacement =>
      match from_utf8 body with
      | Some t =>
          t ← lift_result (map_err rule_output_error
                             (replace_all_bounded pattern t replacement (rule_body_limit config)));
          mret (encode t)
      | None => mret body
      end
  end.
Definition apply_inject_op (headers : Headers) (body : list N) (op : InjectOp) : Act (list N) :=
  if negb (inject_content_type_matches headers (io_target op)) then mret body
  else
    match io_mode op with
    | InjectMode.Append => appended body (io_value op) (lit "body injection")
    | InjectMode.Prepend => prepended body (io_value op) (lit "body injection")
    | InjectMode.Replace => bytes (io_value op) (rule_body_limit config)
    end.
End Item.

(** ** Responses *)

Definition delete_in_response (body_available : bool) (state : Headers * list N) (op : DeleteOp.t)
    : Headers * list N :=
  let '(headers, body) := state in
  match op with
  | DeleteOp.ResHeader name => (remove_header headers name, body)
  | DeleteOp.ResCookie name => (remove_response_cookie headers name, body)
  | DeleteOp.ResCookies => (remove_header headers (lit "set-cookie"), body)
  | DeleteOp.ResType => (remove_content_type_part headers true, body)
  | DeleteOp.ResCharset => (remove_content_type_part headers false, body)
  | DeleteOp.ResBody => (headers, if body_available then [] else body)
  | DeleteOp.ResBodyPath path =>
      (headers, if body_available then unwrap_or (delete_response_body_path headers body path) body else body)
  | _ => (headers, body)
  end.
Definition apply_response_delete (headers : Headers) (body : list N) (operations : list DeleteOp.t)
    (body_available : bool) : Headers * list N :=
  fold_left (delete_in_response body_available) operations (headers, body).

Definition with_status (head : RawResponseHead) (status : N) : RawResponseHead :=
  mkRawResponseHead (rh_version head) status (reason_phrase status) (rh_headers head).

(** One action on the head, the fields and the body of a response. *)
Definition apply_response_action (include_body : bool) (item : ResolvedAction)
    (head : RawResponseHead) (headers : Headers) (body : list N)
    : Act (RawResponseHead * Headers * list N) :=
  let limit := rule_header_limit config in
  let on_headers (m : Act Headers) := headers ← m; mret (head, headers, body) in
  let on_body (m : Act (list N)) := body ← m; mret (head, headers, body) in
  let unchanged := mret (head, headers, body) in
  match ra_action item with
  | Action.ResHeader op => on_headers (apply_header_op item headers op)
  | Action.ResStatus code => mret (with_status head code, headers, body)
  | Action.ResCookie op => on_headers (apply_res_cookie item headers op)
  | Action.ResCors op => on_headers (apply_res_cors item headers op)
  | Action.ResType value =>
      on_headers (v ← text item value limit; mret (set_header headers (lit "Content-Type") v))
  | Action.ResCharset value => on_headers (v ← text item value limit; mret (set_charset headers v))
  | Action.ResMerge value =>
      if include_body then
        on_body (patch ← text item value (rule_body_limit config);
                 lift_result (apply_res_merge body patch (rule_body_limit config)))
      else unchanged
  | Action.Attachment filename =>
      on_headers (v ← match filename with
                      | Some name =>
                          t ← text item name limit; lift_result (content_disposition_attachment t)
                      | None => mret (lit "attachment")
                      end;
                  mret (set_header headers (lit "Content-Disposition") v))
  | Action.Cache CacheOp.Off =>
      on_headers (mret (set_header (set_header headers (lit "Cache-Control") (lit "no-store"))
                          (lit "Pragma") (lit "no-cache")))
  | Action.Cache (CacheOp.Directives directives) =>
      on_headers (v ← render_cache_directives item directives;
                  mret (set_header (remove_header headers (lit "Pragma")) (lit "Cache-Control") v))
  | Action.Inject op => if include_body then on_body (apply_inject_op item headers body op) else unchanged
  | Action.ResBody op => if include_body then on_body (apply_body_op item body op) else unchanged
  | Action.Delete operations =>
      let '(headers, body) := apply_response_delete headers body operations include_body in
      mret (head, headers, body)
  | _ => unchanged
  end.

Fixpoint apply_response_loop (include_body : bool) (actions : list ResolvedAction)
    (head : RawResponseHead) (headers : Headers) (body : list N)
    : Act (RawResponseHead * Headers * list N) :=
  match actions with
  | [] => mret (head, headers, body)
  | item :: actions' =>
      state ← apply_response_action include_body item head headers body;
      let '(head, headers, body) := state in
      apply_response_loop include_body actions' head headers body
  end.
Definition apply_response_actions_inner (include_body : bool) (head : RawResponseHead) (headers : Headers)
    (body : list N) (actions : list ResolvedAction) : Act (RawResponseHead * Headers * list N) :=
  state ← apply_response_loop include_body actions head headers body;
  let '(head, headers, body) := state in
  _ ← lift_result (validate_header_block headers config);
  mret (head, headers, body).
Definition apply_response_actions := apply_response_actions_inner true.
Definition apply_streaming_response_actions (head : RawResponseHead) (headers : Headers)
    (actions : list ResolvedAction) : Act (RawResponseHead * Headers) :=
  state ← apply_response_actions_inner false head headers [] actions;
  mret (fst state).

Definition response_actions_require_body (actions : list ResolvedAction) : bool :=
  existsb (fun item =>
    match ra_action item with
    | Action.ResMerge _ | Action.Inject _ | Action.ResBody _ => true
    | Action.Delete ops =>
        existsb (fun op => match op with DeleteOp.ResBody | DeleteOp.ResBodyPath _ => true | _ => false end) ops
    | _ => false
    end) actions.
Definition can_stream_sse_response (actions : list ResolvedAction) : bool :=
  negb (existsb (fun item =>
    match ra_action item with
    | Action.ResBody _ | Action.ResMerge _ | Action.ResTrailer _ | Action.Inject _ => true
    | _ => false
    end) actions).

(** ** Trailers *)

Definition validate_trailer_block (trailers : Headers) : Result IoError unit :=
  _ ← validate_header_block trailers config;
  match find (fun h => is_forbidden_trailer_name (fst h)) trailers with
  | Some (name, _) =>
      Err (invalid_input (lit "HTTP field `" ++ name ++ lit "` is forbidden in a trailer section"))
  | None => Ok tt
  end.
Fixpoint apply_trailer_loop (trailers : Headers) (actions : list ResolvedAction) : Act Headers :=
  match actions with
  | [] => mret trailers
  | item :: actions' =>
      trailers ← match ra_action item with
                 | Action.ResTrailer op => apply_header_op item trailers op
                 | Action.Delete operations => mret (apply_trailer_delete trailers operations)
                 | _ => mret trailers
                 end;
      apply_trailer_loop trailers actions'
  end.
Definition apply_response_trailer_actions (trailers : Headers) (actions : list ResolvedAction) : Act Headers :=
  trailers ← apply_trailer_loop trailers actions;
  _ ← lift_result (validate_trailer_block trailers);
  mret trailers.

(** [sanitize_upstream_trailers], and whether it dropped a field. *)
Definition sanitize_upstream_trailers (trailers response_headers : Headers) : Headers * bool :=
  let connection_names :=
    map to_ascii_lowercase
      (List.filter (fun n => negb (is_emptyb n)) (field_values (lit "connection") response_headers)) in
  let kept := List.filter (fun h => negb (is_forbidden_trailer_name (fst h)) &&
                            negb (existsb (eq_ignore_ascii_case (fst h)) connection_names)) trailers in
  (kept, negb (length kept =? length trailers)%nat).

(** ** Requests *)

Definition with_headers (req : RawRequest) (headers : Headers) : RawRequest :=
  mkRawRequest (rq_method req) (rq_target req) (rq_version req) headers (rq_body req) (rq_trailers req).
Definition with_method (req : RawRequest) (method : str) : RawRequest :=
  mkRawRequest method (rq_target req) (rq_version req) (rq_headers req) (rq_body req) (rq_trailers req).
Definition with_body (req : RawRequest) (body : list N) : RawRequest :=
  mkRawRequest (rq_method req) (rq_target req) (rq_version req) (rq_headers req) body (rq_trailers req).

(** One deletion, and whether the body has changed so far. *)
Definition delete_in_request (body_available : bool) (state : RawRequest * bool) (op : DeleteOp.t)
    : RawRequest * bool :=
  let '(req, changed) := state in
  let on_headers headers := (with_headers req headers, changed) in
  match op with
  | DeleteOp.ReqHeader name => on_headers (remove_header (rq_headers req) name)
  | DeleteOp.ReqCookie name => on_headers (remove_request_cookie (rq_headers req) name)
  | DeleteOp.ReqCookies => on_headers (remove_header (rq_headers req) (lit "cookie"))
  | DeleteOp.ReqType => on_headers (remove_content_type_part (rq_headers req) true)
  | DeleteOp.ReqCharset => on_headers (remove_content_type_part (rq_headers req) false)
  | DeleteOp.ReqBody => if body_available then (with_body req [], true) else state
  | DeleteOp.ReqBodyPath path =>
      if body_available then
        match delete_request_body_path (rq_headers req) (rq_body req) path with
        | Some body => (with_body req body, true)
        | None => state
        end
      else state
  | _ => state
  end.
Definition apply_request_delete (req : RawRequest) (operations : list DeleteOp.t) (body_available : bool)
    : RawRequest * bool :=
  fold_left (delete_in_request body_available) operations (req, false).

Definition apply_request_action (body_available : bool) (item : ResolvedAction) (req : RawRequest)
    (changed : bool) : Act (RawRequest * bool) :=
  let limit := rule_header_limit config in
  let headers := rq_headers req in
  let on_headers (m : Act Headers) := headers ← m; mret (with_headers req headers, changed) in
  let set name (m : Act str) := on_headers (v ← m; mret (set_header headers name v)) in
  match ra_action item with
  | Action.ReqHeader op => on_headers (apply_header_op item headers op)
  | Action.ReqMethod method =>
      v ← text item method limit; mret (with_method req (to_ascii_uppercase v), changed)
  | Action.ReqCookie op => on_headers (apply_req_cookie item headers op)
  | Action.ReqUa value => set (lit "User-Agent") (text item value limit)
  | Action.ReqReferer value => set (lit "Referer") (text item value limit)
  | Action.ReqAuth value =>
      set (lit "Authorization") (v ← text item value limit; mret (lit "Basic " ++ base64 (encode v)))
  | Action.ReqForwarded value =>
      set (lit "X-Forwarded-For") (v ← text item value limit; mret (forwarded_for_value v))
  | Action.ReqType value => set (lit "Content-Type") (text item value limit)
  | Action.ReqCharset value => on_headers (v ← text item value limit; mret (set_charset headers v))
  | Action.ReqBody op =>
      if body_available then body ← apply_body_op item (rq_body req) op; mret (with_body req body, true)
      else mret (req, changed)
  | Action.Delete operations =>
      let '(req, deleted) := apply_request_delete req operations body_available in
      mret (req, changed || deleted)
  | _ => mret (req, changed)
  end.
Fixpoint apply_request_loop (body_available : bool) (actions : list ResolvedAction) (req : RawRequest)
    (changed : bool) : Act (RawRequest * bool) :=
  match actions with
  | [] => mret (req, changed)
  | item :: actions' =>
      state ← apply_request_action body_available item req changed;
      apply_request_loop body_available actions' (fst state) (snd state)
  end.
Definition apply_request_actions_inner (body_available : bool) (req : RawRequest)
    (actions : list ResolvedAction) : Act RawRequest :=
  state ← apply_request_loop body_available actions req false;
  let '(req, changed) := state in
  let req :=
    if body_available && (changed || negb (is_emptyb (rq_body req)) ||
                          is_some (header (rq_headers req) (lit "content-length")))
    then with_headers req (update_body_headers (rq_headers req) (blen (rq_body req))) else req in
  _ ← lift_result (validate_http_method (rq_method req));
  _ ← lift_result (validate_header_block (rq_headers req) config);
  mret req.
Definition apply_request_actions := apply_request_actions_inner true.
Definition apply_streaming_request_actions := apply_request_actions_inner false.

(** ** URLs *)

Definition url_limit : N := N.min (pc_max_header_size config) MAX_RULE_RENDERED_VALUE_BYTES.

Definition map_remote_scheme (target : UrlParts) (rendered : str) : Result IoError str :=
  let scheme := up_scheme target in
  if scheme =s? lit "http" then Ok (lit "http")
  else if scheme =s? lit "https" then Ok (lit "https")
  else if (scheme =s? lit "ws") || (scheme =s? lit "wss") then
    if is_websocket_request (req_headers meta)
    then Ok (if scheme =s? lit "ws" then lit "http" else lit "https")
    else Err (invalid_input (lit "map.remote WebSocket target requires an Upgrade request: " ++ rendered))
  else Err (invalid_input (lit "map.remote target must use http, https, ws, or wss: " ++ rendered)).

Definition apply_map_remote (item : ResolvedAction) (value : Value.t) (u : UrlParts) : Act UrlParts :=
  rendered ← text item value url_limit;
  target ← lift_result (map_err (fun e => invalid_input (lit "map.remote target `" ++ rendered ++ lit "`: " ++
                                                         model_error_text e)) (UrlParts_parse (trim rendered)));
  scheme ← lift_result (map_remote_scheme target rendered);
  let explicit_path :=
    match split_once (lit "://") (trim rendered) with
    | Some (_, rest) => contains_char (ch "/") rest || contains_char (ch "?") rest
    | None => false
    end in
  let u := mkUrlParts scheme (up_host target) (up_port target)
             (if explicit_path then up_path target else up_path u)
             (if explicit_path then up_query target else up_query u) in
  _ ← lift_result (validate_rewritten_url (url_to_string u) url_limit);
  mret u.

Definition apply_url_rewrite (item : ResolvedAction) (from : UrlRewritePattern.t) (to : Value.t)
    (u : UrlParts) : Act UrlParts :=
  rewritten ← match from with
              | UrlRewritePattern.Plain from =>
                  from ← text item from url_limit;
                  to ← text item to url_limit;
                  lift_result (replace_plain_bounded (origin_form u) from to url_limit (lit "rewritten URL"))
              | UrlRewritePattern.Regex pattern =>
                  replacement ← resolve_raw_value_text config item meta to;
                  lift_result (map_err rule_output_error
                                 (replace_all_bounded pattern (origin_form u) replacement url_limit))
              end;
  mret (set_url_origin u rewritten).

Fixpoint apply_query_ops (item : ResolvedAction) (ops : list QueryOp.t) (pairs : Headers) : Act Headers :=
  match ops with
  | [] => mret pairs
  | op :: ops' =>
      pairs ← match op with
              | QueryOp.Set_ name value => v ← text item value url_limit; mret (set_pair name v pairs)
              | QueryOp.Remove name => mret (remove_pair name pairs)
              end;
      _ ← lift_result (query_pairs_length pairs url_limit);
      apply_query_ops item ops' pairs
  end.

Definition apply_url_action (item : ResolvedAction) (u : UrlParts) : Act UrlParts :=
  match ra_action item with
  | Action.MapRemote value => apply_map_remote item value u
  | Action.UrlRewrite from to => apply_url_rewrite item from to u
  | Action.UrlQuery ops =>
      pairs ← apply_query_ops item ops (parse_query_pairs (unwrap_or (up_query u) []));
      if is_emptyb pairs then mret (set_query u None)
      else q ← lift_result (render_query_pairs pairs url_limit); mret (set_query u (Some q))
  | Action.Delete operations => mret (apply_url_delete u operations)
  | _ => mret u
  end.
Fixpoint apply_url_loop (actions : list ResolvedAction) (u : UrlParts) : Act UrlParts :=
  match actions with
  | [] => mret u
  | item :: actions' => u ← apply_url_action item u; apply_url_loop actions' u
  end.
Definition apply_url_actions (full_url : str) (actions : list ResolvedAction) : Act str :=
  u ← lift_result (map_err (fun e => invalid_input (model_error_text e)) (UrlParts_parse full_url));
  u ← apply_url_loop actions u;
  let output := url_to_string u in
  _ ← lift_result (validate_rewritten_url output url_limit);
  mret output.
End Actions.

(** ** Authorization (auth.rs) *)

Definition authorized (req : RawRequest) (expected : option str) : bool :=
  match expected with
  | None => true
  | Some expected =>
      match header (rq_headers req) (lit "proxy-authorization") with
      | None => false
      | Some actual =>
          match split_whitespace actual with
          | [scheme; credentials] =>
              eq_ignore_ascii_case scheme (lit "basic") && (credentials =s? base64 (encode expected))
          | _ => false
          end
      end
  end.
Definition authorize_and_strip_proxy_credentials (req : RawRequest) (expected : option str)
    : option RawRequest :=
  if authorized req expected
  then Some (with_headers req (remove_header (rq_headers req) (lit "proxy-authorization"))) else None.
