(* ===== verification/RelayProofs.v ===== *)
(** * Forwarding of request bodies, proofs

    What the relay writes upstream decodes to the message it read, and the
    framing headers prepared for upstream select that decoder. *)
From Stdlib Require Import Ascii String.
From stdpp Require Import base numbers list gmap strings.
From S2P Require Import Prelude Utf8 Format Io Model TraceModel Http1 Http1Proofs Http1Body Http1Write.
From S2P Require Import Deadline Relay.

(** ** Writing without faults *)

Definition fine (w : Sink) : Prop := Forall (eq Fine) (sk_faults w).

(** [m] returns a value in [Q] and appends [bs]. *)
Definition emits {A} (m : StateR Sink IoError A) (Q : A -> Prop) (bs : list N) : Prop :=
  forall w, fine w -> exists w' x, m w = (w', Ok x) /\ fine w' /\ Q x /\ sk_written w' = sk_written w ++ bs.

Lemma emits_ret {A} (x : A) (Q : A -> Prop) : Q x -> emits (mret x) Q [].
Proof. intros HQ w Hw. exists w, x. by rewrite app_nil_r. Qed.
Lemma emits_bind {A B} m (k : A -> StateR Sink IoError B) P Q a b :
  emits m P a -> (forall x, P x -> emits (k x) Q b) -> emits (m ≫= k) Q (a ++ b).
Proof.
  intros Hm Hk w Hw. destruct (Hm w Hw) as (w1 & x & E & Hw1 & HP & E1).
  destruct (Hk x HP w1 Hw1) as (w2 & y & E' & Hw2 & HQ & E2).
  exists w2, y. rewrite (bind_run _ _ _ _ _ E). split_and!; [done..|].
  by rewrite E2, E1, app_assoc.
Qed.
Lemma emits_write bs : emits (write_bytes bs) (fun _ => True) bs.
Proof.
  intros [out fs] Hw. unfold write_bytes. cbn [sk_faults sk_written] in *. unfold fine in *. cbn in Hw.
  destruct Hw as [|f fs <- Hw]; eexists _, _; split_and!; try done; constructor.
Qed.
Lemma emits_flush : emits flush (fun _ => True) [].
Proof.
  intros [out fs] Hw. unfold flush. cbn [sk_faults sk_written] in *. unfold fine in *. cbn in Hw.
  rewrite app_nil_r. destruct Hw as [|f fs <- Hw]; eexists _, _; split_and!; try done; constructor.
Qed.
Lemma emits_staged {A} stage (m : StateR Sink IoError A) Q bs : emits m Q bs -> emits (staged stage m) Q bs.
Proof. intros H w Hw. destruct (H w Hw) as (w' & x & E & R). exists w', x. unfold staged. by rewrite E. Qed.
Lemma emits_weaken {A} (m : StateR Sink IoError A) P Q a b :
  emits m P a -> (forall x, P x -> Q x) -> a = b -> emits m Q b.
Proof. intros H HPQ <- w Hw. destruct (H w Hw) as (w' & x & E & Hf & HP & R). exists w', x. auto. Qed.
Create HintDb relay.
#[export] Hint Resolve emits_write emits_flush emits_staged : relay.

(** ** Pacing *)

Lemma chunks_aux_concat {A} fuel n (l : list A) :
  0 < n -> (length l <= fuel)%nat -> concat (chunks_aux fuel n l) = l.
Proof.
  intros Hn. revert l. induction fuel as [|fuel IH]; intros l Hl.
  - by destruct l; [|cbn in Hl; lia].
  - destruct l as [|x l]; [done|]. cbn [chunks_aux concat]. rewrite IH; [apply take_drop_N|].
    rewrite drop_N_drop, length_drop. cbn in *. lia.
Qed.

Lemma write_paced_emits p pieces :
  emits (write_paced p pieces) (fun p' => tp_bytes_per_sec p' = tp_bytes_per_sec p) (concat pieces).
Proof.
  revert p. induction pieces as [|piece pieces IH]; intros p; cbn [write_paced concat].
  { by apply emits_ret. }
  apply (emits_bind _ _ (fun _ => True) _ []).
  { unfold wait_for_next_chunk. destruct (tp_waits p); [apply emits_flush|by apply emits_ret]. }
  intros _ _. apply (emits_bind _ _ (fun _ => True)); [apply emits_write|]. intros _ _.
  exact (IH (mkPacer (tp_bytes_per_sec p) true)).
Qed.

Lemma ThrottlePacer_write_emits p body : emits (ThrottlePacer_write p body) (fun _ => True) body.
Proof.
  unfold ThrottlePacer_write. destruct (tp_bytes_per_sec p) as [n|].
  - eapply emits_weaken; [apply write_paced_emits|done|]. apply chunks_aux_concat; lia.
  - eapply emits_weaken with (P := fun _ => True) (a := body ++ []); [|done|apply app_nil_r].
    eapply emits_bind; [apply emits_write|]. intros _ _. by apply emits_ret.
Qed.
#[export] Hint Resolve ThrottlePacer_write_emits : relay.

Definition chunk_text (data : list N) : list N := encode (show_HEX (blen data) ++ crlf) ++ data ++ crlf.

Lemma write_stream_data_emits data chunked throttle :
  data <> [] ->
  emits (write_stream_data data chunked throttle) (fun _ => True)
    (if chunked then chunk_text data else data).
Proof.
  intros Hd. unfold write_stream_data. destruct data as [|b bs] eqn:Ed; [done|]. cbn [is_emptyb].
  rewrite <- Ed in *. clear Ed. unfold chunk_text. destruct chunked.
  - eapply emits_bind; [apply emits_write|]. intros _ _.
    eapply emits_bind; [apply ThrottlePacer_write_emits|]. intros p _.
    eapply emits_weaken with (P := fun _ => True) (a := crlf ++ []); [|done|apply app_nil_r].
    eapply emits_bind; [apply emits_write|]. intros _ _. by apply emits_ret.
  - eapply emits_weaken with (P := fun _ => True) (a := [] ++ data ++ [] ++ []); [|done|by rewrite !app_nil_r].
    eapply emits_bind; [by apply (emits_ret tt (fun _ => True))|]. intros _ _.
    eapply emits_bind; [apply ThrottlePacer_write_emits|]. intros p _.
    eapply emits_bind; [by apply (emits_ret tt (fun _ => True))|]. intros _ _. by apply emits_ret.
Qed.

Lemma write_request_data_emits data chunked throttle :
  data <> [] ->
  emits (write_request_data data chunked throttle) (fun _ => True)
    (if chunked then chunk_text data else data).
Proof. intros Hd. by apply emits_staged, write_stream_data_emits. Qed.

Lemma finish_stream_body_emits chunked trailers :
  emits (finish_stream_body chunked trailers) (fun _ => True) (if chunked then chunk_end trailers else []).
Proof.
  eapply emits_weaken with (P := fun _ => True) (a := (if chunked then chunk_end trailers else []) ++ []); [|done|apply app_nil_r].
  eapply (emits_bind _ _ (fun _ => True)); [|intros _ _; apply emits_flush].
  destruct chunked; [apply emits_write|by apply emits_ret].
Qed.
Lemma finish_request_body_emits chunked trailers :
  emits (finish_request_body chunked trailers) (fun _ => True) (if chunked then chunk_end trailers else []).
Proof. apply emits_staged, finish_stream_body_emits. Qed.

(** ** Chunked output *)

Lemma show_HEX_clean n c : c ∈ show_HEX n -> c < 128 /\ c <> 13 /\ c <> ch ";" /\ is_whitespace c = false.
Proof.
  intros H. pose proof (show_HEX_chars n) as Hc. rewrite Forall_forall in Hc. specialize (Hc c H).
  rewrite orb_true_iff, !in_range_spec in Hc. cbv [ch N_of_ascii]. simpl.
  unfold is_whitespace. rewrite !orb_false_iff, !in_range_false, !N.eqb_neq. lia.
Qed.

Lemma chunk_size_show_HEX n : n <= USIZE_MAX -> chunk_size (show_HEX n) = Some n.
Proof.
  intros Hn. unfold chunk_size. rewrite split_char_none by (intros (_ & _ & H & _)%show_HEX_clean; done).
  cbn [head default from_option id]. rewrite trim_word.
  - by rewrite from_str_radix_show_HEX.
  - apply Forall_forall. intros c H. by destruct (show_HEX_clean _ _ H) as (? & ? & ? & ?).
Qed.

Lemma len_ascii s : Forall (fun c => c < 128) s -> len s = N.of_nat (length s).
Proof. intros H. rewrite <- length_encode. by rewrite encode_ascii. Qed.

Section Output.
(** The limits of the peer that decodes the output. *)
Context (size count : N).
Context (Hsize : 18 <= size) (Hmax : size + 2 <= USIZE_MAX).

Lemma written_line text rest :
  13 ∉ text -> valid_str text = true -> len text <= size ->
  crlf_line size (encode (text ++ crlf) ++ rest) text rest.
Proof.
  intros H Hv Hl. rewrite encode_app, <- app_assoc. split_and!; [by apply split_once_crlf|done|].
  unfold saturating_add. lia.
Qed.

Lemma written_chunk data out body trailers rest :
  data <> [] -> blen data <= USIZE_MAX ->
  framed size count (RequestBodyState.Chunked 0) out body trailers rest ->
  framed size count (RequestBodyState.Chunked 0) (chunk_text data ++ out) (data ++ body) trailers rest.
Proof.
  intros Hd Hl Hf. assert (Ha : Forall (fun c => c < 128) (show_HEX (blen data))).
  { apply Forall_forall. intros c H. by destruct (show_HEX_clean _ _ H) as (? & ? & ? & ?). }
  unfold chunk_text. rewrite <- app_assoc. eapply framed_size.
  - apply written_line.
    + intros (_ & H & _)%show_HEX_clean. done.
    + by apply valid_ascii.
    + rewrite len_ascii by done. pose proof (show_HEX_length (blen data) Hl). lia.
  - by apply chunk_size_show_HEX.
  - destruct data; [done|]. rewrite blen_cons. lia.
  - rewrite <- app_assoc. apply framed_data; [|done|done].
    destruct data; [done|]. rewrite blen_cons. lia.
Qed.

(** A trailer that reads back from its own line. *)
Definition written_ok (t : str * str) : Prop :=
  trailer_of_line (field_line t) = Ok t /\ valid_str (field_line t) = true /\ (13 ∉ field_line t) /\
  field_line t <> [].

Definition trailers_size (trailers : Headers) : N := sum_N (map (fun t => len (field_line t) + 2) trailers).

Lemma written_trailers seen trailers total rest :
  Forall written_ok trailers -> (blen seen + blen trailers <= count) ->
  total + trailers_size trailers + 2 <= size ->
  trailer_lines size count seen total (encode (trailer_text trailers ++ crlf) ++ rest)
    (seen ++ trailers) rest.
Proof.
  intros Ht. revert seen total. induction Ht as [|t trailers (Hline & Hv & H13 & Hne) Ht IH];
    intros seen total Hc Hs; cbn [trailer_text flat_map app].
  - rewrite app_nil_r. unfold trailers_size in Hs. cbn in Hs. apply trailers_end.
    + apply (written_line [] rest); [set_solver|done|cbn; lia].
    + unfold trailer_total, saturating_add. cbn [len]. lia.
  - unfold trailers_size in Hs. cbn [map sum_N foldr] in Hs. fold (sum_N (map (fun t => len (field_line t) + 2) trailers)) in Hs.
    fold (trailers_size trailers) in Hs. fold (trailer_text trailers).
    replace (encode (((fst t ++ lit ": " ++ snd t ++ crlf) ++ trailer_text trailers) ++ crlf) ++ rest)
      with (encode (field_line t ++ crlf) ++ encode (trailer_text trailers ++ crlf) ++ rest)
      by (unfold field_line; rewrite !encode_app, <- !app_assoc; done).
    rewrite (cons_middle t seen trailers), (app_assoc seen). eapply trailers_more.
    + apply written_line; [done|done|lia].
    + done.
    + unfold trailer_total, saturating_add. lia.
    + rewrite blen_cons in Hc. lia.
    + done.
    + unfold trailer_total, saturating_add. rewrite !N.min_r by lia. apply IH.
      * autorewrite with blen in *. lia.
      * lia.
Qed.

Lemma written_end trailers rest :
  Forall written_ok trailers -> blen trailers <= count -> trailers_size trailers + 2 <= size ->
  framed size count (RequestBodyState.Chunked 0) (chunk_end trailers ++ rest) [] trailers rest.
Proof.
  intros Ht Hc Hs. unfold chunk_end.
  replace (encode (lit "0" ++ crlf ++ trailer_text trailers ++ crlf) ++ rest)
    with (encode (lit "0" ++ crlf) ++ encode (trailer_text trailers ++ crlf) ++ rest)
    by (rewrite !encode_app, <- !app_assoc; done).
  eapply framed_last.
  - apply written_line; [vm_compute; set_solver|done|vm_compute len; lia].
  - by vm_compute.
  - apply (written_trailers [] trailers 0 rest); [done|rewrite blen_nil; lia|lia].
Qed.
End Output.

(** ** Trailers that were read *)

Lemma token_bytes_clean n c :
  forallb is_header_token_byte (encode n) = true -> c ∈ n -> c < 128 -> is_header_token_byte c = true.
Proof.
  intros H Hc Hlt. rewrite forallb_forall in H. apply H, list_elem_of_In. by apply encode_elem.
Qed.

Lemma trailer_line_ok size bytes line mid t :
  crlf_line size bytes line mid -> trailer_of_line line = Ok t ->
  written_ok t /\ len (field_line t) <= len line + 1.
Proof.
  intros (_ & Hv & _) H. unfold trailer_of_line in H.
  destruct (split_once [ch ":"] line) as [[n0 v0]|] eqn:Es; [|done]. cbv zeta in H.
  destruct (is_emptyb (trim n0)) eqn:En; [done|].
  destruct (validate_request_trailer (trim n0) (trim v0)) as [[]|] eqn:Ev; [|done].
  injection H as <-. apply split_once_Some in Es as ->.
  assert (Hn : forallb is_header_token_byte (encode (trim n0)) = true /\
               existsb (fun b => (b =? 13) || (b =? 10) || (b =? 0)) (encode (trim v0)) = false).
  { unfold validate_request_trailer in Ev. rewrite En in Ev. cbn [orb] in Ev.
    do 3 (case_in Ev; [done|]). by apply negb_false_iff in E. }
  destruct Hn as [Hn Hval].
  assert (H13 : 13 ∉ trim v0).
  { intros Hin. apply not_true_iff_false in Hval. apply Hval, existsb_exists. exists 13.
    split; [|done]. by apply list_elem_of_In, encode_elem. }
  split.
  - unfold written_ok, field_line. cbn [fst snd]. split_and!.
    + unfold trailer_of_line. change (lit ": ") with (ch ":" :: [32]).
      rewrite <- app_comm_cons, split_once_char_first.
      2: { intros Hin. by apply (token_bytes_clean _ _ Hn) in Hin. }
      cbv zeta. change ([32] ++ trim v0) with (32 :: trim v0).
      rewrite trim_space, !trim_trim, En, Ev. done.
    + rewrite !valid_str_app in *. rewrite !andb_true_iff in *. destruct Hv as (Hv1 & _ & Hv2).
      split_and!; [by apply trim_valid|done|by apply trim_valid].
    + rewrite !elem_of_app. intros [Hin|[Hin|Hin]]; [|by vm_compute in Hin; set_solver|done].
      by apply (token_bytes_clean _ _ Hn) in Hin.
    + intros E. apply app_eq_nil in E as [E _]. by rewrite E in En.
  - unfold field_line. cbn [fst snd]. rewrite !len_app. change (len (lit ": ")) with 2.
    change (len [ch ":"]) with 1. pose proof (len_trim n0). pose proof (len_trim v0). lia.
Qed.

Lemma trailer_lines_written size count seen total bytes trailers rest :
  size + 2 <= USIZE_MAX ->
  trailer_lines size count seen total bytes trailers rest ->
  exists more, trailers = seen ++ more /\ Forall written_ok more /\ blen more <= count - blen seen /\
    total + trailers_size more + 2 <= size + blen more.
Proof.
  intros Hm. induction 1 as [seen total bytes rest El Hs|seen total bytes line t mid all rest El Hne Hs Hc Ht Hr IH].
  - exists []. rewrite app_nil_r. split_and!; [done|constructor|rewrite blen_nil; lia|].
    unfold trailer_total, saturating_add in Hs. cbn [len] in Hs. cbn [trailers_size map sum_N foldr]. lia.
  - destruct (trailer_line_ok _ _ _ _ _ El Ht) as [Hok Hlen].
    destruct IH as (more & -> & Hf & Hb & Htot). exists (t :: more). rewrite <- app_assoc.
    split_and!; [done|by constructor| |]; autorewrite with blen in *; [lia|].
    unfold trailers_size in *. cbn [map sum_N foldr]. unfold sum_N in Htot.
    unfold trailer_total, saturating_add in *. lia.
Qed.

(** The trailers of a message that was read can be written for a peer whose
    header limit is larger by one byte per trailer. *)
Lemma framed_trailers_written size count st bytes body trailers rest :
  size + 2 <= USIZE_MAX -> framed size count st bytes body trailers rest ->
  Forall written_ok trailers /\ blen trailers <= count /\
  (trailers = [] \/ trailers_size trailers + 2 <= size + blen trailers).
Proof.
  intros Hm. induction 1 as [| | | |line bytes mid trailers rest El Ec Ht]; try done.
  1,2: split_and!; [constructor|rewrite blen_nil; lia|by left].
  destruct (trailer_lines_written _ _ _ _ _ _ _ Hm Ht) as (more & -> & Hf & Hb & Hs).
  cbn [app] in *. rewrite blen_nil in Hb. split_and!; [done|lia|right; lia].
Qed.

(** ** Observation *)

Definition preview (e : TraceEvent.t) : list N :=
  match e with TraceEvent.BodyChunk _ _ data _ => data | _ => [] end.
Definition observed_bytes (e : TraceEvent.t) : N :=
  match e with TraceEvent.BodyChunk _ _ _ n => n | _ => 0 end.

(** The summary and the events after [seen] was forwarded. *)
Definition observed (limit : N) (id : option N) (seen : list N) (summary : RequestStreamSummary)
    (events : list TraceEvent.t) : Prop :=
  ss_bytes summary = N.min U64_MAX (blen seen) /\ ss_body_head summary = take_N limit seen /\
  match id with
  | None => events = []
  | Some id =>
      flat_map preview events = take_N limit seen /\ sum_N (map observed_bytes events) = blen seen /\
      Forall (fun e => TraceEvent.session_id e = id) events
  end.
Definition emitter_at (limit : N) (id : option N) (seen : list N) (trace : option BodyTraceEmitter) : Prop :=
  trace = (fun id => mkEmitter id BodyDirection.Request (limit - blen seen)) <$> id.

Lemma take_N_split {A} n (a b : list A) : take_N n (a ++ b) = take_N n a ++ take_N (n - blen a) b.
Proof.
  destruct (N.le_gt_cases n (blen a)).
  - rewrite take_N_app_le by done. replace (n - blen a) with 0 by lia.
    rewrite (take_N_take 0), app_nil_r. done.
  - rewrite take_N_app_ge, (take_N_all n a) by lia. done.
Qed.

Lemma observe_step limit id seen summary events trace data summary' trace' events' :
  observed limit id seen summary events -> emitter_at limit id seen trace ->
  observe_request_data summary data limit trace = (summary', trace', events') ->
  observed limit id (seen ++ data) summary' (events ++ events') /\ emitter_at limit id (seen ++ data) trace' /\
  ss_trailers summary' = ss_trailers summary.
Proof.
  intros (Hb & Hh & Ht) He H. unfold emitter_at in *. subst trace. unfold observe_request_data in H.
  assert (Hhead : ss_body_head summary ++ take_N (limit - blen (ss_body_head summary)) data =
                  take_N limit (seen ++ data)).
  { rewrite Hh, take_N_split, blen_take_N. f_equal.
    destruct (N.le_gt_cases limit (blen seen)); [|f_equal; lia].
    rewrite !take_N_take. replace (limit - N.min limit (blen seen)) with 0 by lia.
    replace (limit - blen seen) with 0 by lia. done. }
  destruct id as [id|]; cbn [fmap option_fmap option_map] in H.
  - cbn [observe_slice be_id be_direction be_remaining] in H. injection H as <- <- <-.
    destruct Ht as (Hp & Ho & Hid). set (pre := take_N (N.min (blen data) (limit - blen seen)) data).
    assert (Hpre : pre = take_N (limit - blen seen) data).
    { unfold pre. destruct (N.le_gt_cases (blen data) (limit - blen seen)).
      - rewrite !take_N_all by lia. done.
      - by rewrite N.min_r by lia. }
    assert (Hl : saturating_sub (limit - blen seen) (blen pre) = limit - blen (seen ++ data)).
    { rewrite Hpre, blen_take_N. unfold saturating_sub. autorewrite with blen. lia. }
    split_and!; [|cbn; by rewrite Hl|done]. unfold observed. cbn [ss_bytes ss_body_head].
    split_and!; [|exact Hhead| | |].
    + rewrite Hb. autorewrite with blen. unfold saturating_add. lia.
    + rewrite flat_map_app. cbn [flat_map preview app]. rewrite app_nil_r, Hp, Hpre. by rewrite take_N_split.
    + rewrite map_app, sum_N_app. cbn [map observed_bytes sum_N foldr]. rewrite blen_app. unfold sum_N in Ho at 1.
      unfold sum_N. lia.
    + apply Forall_app. split; [done|]. by repeat constructor.
  - injection H as <- <- <-. subst events. split_and!; [|done|done]. unfold observed. cbn [ss_bytes ss_body_head].
    split_and!; [|exact Hhead|done]. rewrite Hb. autorewrite with blen. unfold saturating_add. lia.
Qed.

(** ** The relay *)

Lemma on_input_run {S W A} (m : StateR S IoError A) s (w : W) s' x :
  m s = (s', Ok x) -> on_input m (s, w) = ((s', w), Ok x).
Proof. intros E. unfold on_input. cbn [fst snd]. by rewrite E. Qed.
Lemma on_output_run {S W A} (m : StateR W IoError A) (s : S) w w' x :
  m w = (w', Ok x) -> on_output m (s, w) = ((s, w'), Ok x).
Proof. intros E. unfold on_output. cbn [fst snd]. by rewrite E. Qed.
Lemma staged_run {S A} stage (m : StateR S IoError A) s s' x :
  m s = (s', Ok x) -> staged stage m s = (s', Ok x).
Proof. intros E. unfold staged. by rewrite E. Qed.

(** What is written for a body: the chunks of its pieces, or the body itself. *)
Inductive encoded (chunked : bool) : list N -> list N -> Prop :=
| encoded_nil : encoded chunked [] []
| encoded_piece data body out :
    data <> [] -> encoded chunked body out ->
    encoded chunked (data ++ body) ((if chunked then chunk_text data else data) ++ out).

Lemma encoded_app chunked a b x y : encoded chunked a x -> encoded chunked b y -> encoded chunked (a ++ b) (x ++ y).
Proof. induction 1 as [|data body out Hd _ IH]; intros Hb; [done|]. rewrite <- !app_assoc. constructor; auto. Qed.
Lemma encoded_plain body out : encoded false body out -> out = body.
Proof. by induction 1 as [|? ? ? _ _ ->]. Qed.

Lemma encoded_chunked size count body out trailers rest :
  18 <= size -> size + 2 <= USIZE_MAX -> encoded true body out -> blen body <= USIZE_MAX ->
  Forall written_ok trailers -> blen trailers <= count -> trailers_size trailers + 2 <= size ->
  framed size count (RequestBodyState.Chunked 0) (out ++ chunk_end trailers ++ rest) body trailers rest.
Proof.
  intros Hs Hm He. induction He as [|data body out Hd He IH]; intros Hb Ht Hc Hz.
  - by apply written_end.
  - autorewrite with blen in Hb. rewrite <- app_assoc. apply written_chunk; [done|done|done|lia|].
    apply IH; [lia|done..].
Qed.

Section Relay.
Context (config : RelayConfig).
Local Abbreviation framed := (framed (rc_max_header_size config) (rc_max_header_count config)).

Lemma relay_loop_spec chunked fuel reader throttle summary trace events seen s w body trailers rest :
  healthy s -> fine w -> (length (carried s) < fuel)%nat ->
  observed (rc_trace_limit config) (rc_trace config) seen summary events ->
  emitter_at (rc_trace_limit config) (rc_trace config) seen trace ->
  framed (br_state reader) (carried s) body trailers rest ->
  exists s' w' summary' events' out,
    relay_loop config chunked fuel reader throttle summary trace events (s, w) =
      ((s', w'), Ok (summary', events')) /\
    healthy s' /\ fine w' /\ carried s' = rest /\ ss_trailers summary' = trailers /\
    observed (rc_trace_limit config) (rc_trace config) (seen ++ body) summary' events' /\
    encoded chunked body out /\
    sk_written w' = sk_written w ++ out ++ (if chunked then chunk_end trailers else []).
Proof.
  revert reader throttle summary trace events seen s w body.
  induction fuel as [|fuel IH]; intros reader throttle summary trace events seen s w body Hs Hw Hf Hob Hem Hfr; [lia|].
  cbn [relay_loop].
  destruct (reader_step_complete _ _ reader REQUEST_STREAM_CHUNK_SIZE s _ _ _ Hs ltac:(done) Hfr)
    as (s1 & r1 & x & E & Hd).
  rewrite (bind_run _ _ _ _ _ (on_input_run _ _ w _ _ (staged_run _ _ _ _ _ E))).
  apply reader_step_sound in E as (Hs1 & _ & Hx); [|done|done]. cbn [fst snd]. destruct x as [d|t].
  - destruct Hd as (body' & -> & Hb'). destruct Hx as (Hne & _ & Hlt & _).
    destruct (observe_request_data summary d (rc_trace_limit config) trace) as [[summary1 trace1] ev] eqn:Eo.
    destruct (observe_step _ _ _ _ _ _ _ _ _ _ Hob Hem Eo) as (Hob1 & Hem1 & _).
    destruct (write_request_data_emits d chunked throttle Hne w Hw) as (w1 & th & Ew & Hw1 & _ & Eout).
    rewrite (bind_run _ _ _ _ _ (on_output_run _ s1 _ _ _ Ew)).
    destruct (IH r1 th summary1 trace1 (events ++ ev) (seen ++ d) s1 w1 body')
      as (s' & w' & summary' & events' & out & E & H1 & H2 & H3 & H4 & H5 & H6 & H7); [done|done|lia|done..|].
    exists s', w', summary', events', ((if chunked then chunk_text d else d) ++ out).
    split_and!; try done.
    + by rewrite app_assoc.
    + by constructor.
    + rewrite H7, Eout, <- !app_assoc. done.
  - destruct Hd as (-> & -> & <-).
    destruct (finish_request_body_emits chunked trailers w Hw) as (w1 & [] & Ew & Hw1 & _ & Eout).
    rewrite (bind_run _ _ _ _ _ (on_output_run _ s1 _ _ _ Ew)).
    eexists s1, w1, _, events, []. rewrite app_nil_r.
    split_and!; [done..| |constructor|done]. destruct Hob as (H1 & H2 & H3). done.
Qed.
End Relay.

Lemma relay_request_spec config prefix reader exceeded s w more trailers rest :
  healthy s -> fine w ->
  framed (rc_max_header_size config) (rc_max_header_count config) (br_state reader) (carried s) more trailers rest ->
  exists s' w' summary events out,
    relay_request_body (mkStreamingRequestBody prefix reader exceeded) config (Ok tt) (s, w) =
      ((s', w'), Ok (summary, events)) /\
    healthy s' /\ carried s' = rest /\ ss_trailers summary = trailers /\
    observed (rc_trace_limit config) (rc_trace config) (prefix ++ more) summary events /\
    encoded (is_chunked (br_framing reader)) (prefix ++ more) out /\
    sk_written w' = sk_written w ++ out ++ (if is_chunked (br_framing reader) then chunk_end trailers else []).
Proof.
  intros Hs Hw Hf. unfold relay_request_body. cbn [sb_prefix sb_reader sb_exceeded_buffer_limit].
  set (summary0 := mkStreamSummary 0 [] [] exceeded true). set (limit := rc_trace_limit config).
  set (trace0 := (fun id => mkEmitter id BodyDirection.Request limit) <$> rc_trace config).
  assert (H0 : observed limit (rc_trace config) [] summary0 []).
  { unfold observed. cbn. split_and!; [done|done|]. by destruct (rc_trace config); split_and?. }
  assert (He : emitter_at limit (rc_trace config) [] trace0).
  { unfold emitter_at. rewrite blen_nil, N.sub_0_r. done. }
  set (chunked := is_chunked (br_framing reader)). destruct prefix as [|b bs] eqn:Ep; cbn [is_emptyb].
  - destruct (relay_loop_spec config chunked (S (length (pending (fst (s, w))))) reader
                (ThrottlePacer_new (rc_bytes_per_sec config)) summary0 trace0 [] [] s w more trailers rest)
      as (s' & w' & sum' & ev' & out & E & H1 & H2 & H3 & H4 & H5 & H6 & H7);
      [done|done|cbn [fst pending Stream_read]; lia|exact H0|exact He|done|].
    change (relay_rest config chunked reader (ThrottlePacer_new (rc_bytes_per_sec config)) summary0 trace0 []
              (s, w) = ((s', w'), Ok (sum', ev'))) in E.
    rewrite (bind_run _ _ _ _ _ E). exists s', w', sum', ev', out. done.
  - rewrite <- Ep in *. assert (Hne : prefix <> []) by (by rewrite Ep). clear Ep.
    destruct (observe_request_data summary0 prefix limit trace0) as [[summary1 trace1] ev] eqn:Eo.
    destruct (observe_step _ _ _ _ _ _ _ _ _ _ H0 He Eo) as (Hob1 & Hem1 & _).
    destruct (write_request_data_emits prefix chunked (ThrottlePacer_new (rc_bytes_per_sec config)) Hne w Hw)
      as (w1 & th & Ew & Hw1 & _ & Eout).
    destruct (relay_loop_spec config chunked (S (length (pending (fst (s, w1))))) reader th summary1 trace1
                ev prefix s w1 more trailers rest)
      as (s' & w' & sum' & ev' & out & E & H1 & H2 & H3 & H4 & H5 & H6 & H7); [done|done|cbn [fst pending Stream_read]; lia|done..|].
    assert (Eb : (throttle ← on_output (write_request_data prefix chunked (ThrottlePacer_new (rc_bytes_per_sec config)));
                  relay_rest config chunked reader throttle summary1 trace1 ev) (s, w) = ((s', w'), Ok (sum', ev'))).
    { rewrite (bind_run _ _ _ _ _ (on_output_run _ s _ _ _ Ew)). exact E. }
    rewrite (bind_run _ _ _ _ _ Eb).
    exists s', w', sum', ev', ((if chunked then chunk_text prefix else prefix) ++ out).
    split_and!; try done; [by constructor|]. rewrite H7, Eout, <- !app_assoc. done.
Qed.

(** C10: a request body that is too large to buffer is forwarded unchanged.  When
    the bounded reader overflows on a connection that holds [body] and
    [trailers], the relay forwards the buffered prefix and the rest, leaves the
    client exactly behind the message, and what it wrote upstream, followed by
    anything, decodes under the same framing to the same body and trailers (for
    a peer whose header limit has a byte to spare per trailer).  The trace events and the
    summary report the whole body and its first bytes up to the capture limit. *)
Theorem forwarded_body_decodes_to_original config framing limit exceeded s s1 prefix reader w body trailers rest :
  limit < USIZE_MAX -> blen body <= USIZE_MAX -> rc_max_header_size config + 2 <= USIZE_MAX ->
  healthy s -> fine w ->
  framed (rc_max_header_size config) (rc_max_header_count config)
    (br_state (RequestBodyReader_new framing)) (carried s) body trailers rest ->
  read_request_body_bounded framing limit (rc_max_header_size config) (rc_max_header_count config) s =
    (s1, Ok (BoundedRequestBody.Overflow prefix reader)) ->
  exists s2 w' summary events out,
    relay_request_body (mkStreamingRequestBody prefix reader exceeded) config (Ok tt) (s1, w) =
      ((s2, w'), Ok (summary, events)) /\
    carried s2 = rest /\ ss_trailers summary = trailers /\
    observed (rc_trace_limit config) (rc_trace config) body summary events /\
    sk_written w' = sk_written w ++ out /\
    forall size count next,
      18 <= size -> rc_max_header_size config + blen trailers <= size -> size + 2 <= USIZE_MAX ->
      rc_max_header_count config <= count ->
      framed size count (br_state (RequestBodyReader_new framing)) (out ++ next) body trailers next.
Proof.
  intros Hlim Hbody Hmax Hs Hw Hf Hread.
  destruct (read_bounded_done _ _ framing limit s _ _ _ Hlim Hs Hf) as (s' & res & E & Hs' & Ho).
  rewrite Hread in E. injection E as <- <-. destruct Ho as (_ & _ & Hfr & more & Hmore & Hf').
  cbn [app] in Hmore. subst body. cbn [br_framing RequestBodyReader_new] in Hfr.
  destruct (relay_request_spec config prefix reader exceeded s1 w more trailers rest Hs' Hw Hf')
    as (s2 & w' & summary & events & out & E & _ & H2 & H3 & H4 & H5 & H6). rewrite Hfr in *.
  exists s2, w', summary, events, (out ++ (if is_chunked framing then chunk_end trailers else [])).
  split_and!; try done. intros size count next Hsize Hsz Hm Hc.
  destruct (framed_trailers_written _ _ _ _ _ _ _ Hmax Hf) as (Ht & Hcnt & Htsz). rewrite <- app_assoc.
  destruct framing as [|n|]; cbn [is_chunked] in *.
  - apply encoded_plain in H5 as ->. cbn in Hf. inversion Hf; subst. constructor.
  - apply encoded_plain in H5 as ->. cbn [app]. cbn in Hf. destruct n.
    + inversion Hf; subst. constructor.
    + apply framed_length_inv in Hf as (Hn & Hb & -> & _). by constructor.
  - apply encoded_chunked; try done; [lia|]. destruct Htsz as [->|Htsz]; [cbn; lia|lia].
Qed.
Definition sample_relay_config : RelayConfig := mkRelayConfig 4 (Some 3) 100 5 (Some 7).
Lemma forwarded_body_decodes_to_original_witness :
  exists s1 prefix reader,
    read_request_body_bounded RequestBodyFraming.Chunked 5 100 5 sample_chunks_stream =
      (s1, Ok (BoundedRequestBody.Overflow prefix reader)) /\
    exists s2 w' summary events out,
      relay_request_body (mkStreamingRequestBody prefix reader true) sample_relay_config (Ok tt)
        (s1, mkSink [] []) = ((s2, w'), Ok (summary, events)) /\
      sk_written w' = [] ++ out /\
      framed 200 5 (br_state (RequestBodyReader_new RequestBodyFraming.Chunked)) (out ++ lit "x")
        (lit "abc0123456789") [(lit "Digest", lit "z")] (lit "x").
Proof.
  do 3 eexists. split; [vm_compute; reflexivity|].
  destruct (forwarded_body_decodes_to_original sample_relay_config RequestBodyFraming.Chunked 5 true
              sample_chunks_stream _ _ _ (mkSink [] []) (lit "abc0123456789") [(lit "Digest", lit "z")]
              (lit "next") ltac:(by vm_compute) ltac:(by vm_compute) ltac:(by vm_compute) sample_chunks_healthy
              ltac:(by constructor) sample_chunks_framed ltac:(vm_compute; reflexivity))
    as (s2 & w' & summary & events & out & E & _ & _ & _ & Ew & Hf).
  exists s2, w', summary, events, out. split; [exact E|]. split; [exact Ew|].
  apply (Hf 200 5 (lit "x")); by vm_compute.
Defined.

(** ** Framing headers *)

Lemma body_framing_none headers :
  field_values CL headers = [] -> field_values TE headers = [] -> body_framing headers = Ok RequestBodyFraming.None.
Proof. intros H1 H2. unfold body_framing, content_length, transfer_codings. fold CL TE. by rewrite H1, H2. Qed.
Lemma body_framing_length headers n :
  n <= USIZE_MAX -> field_values CL headers = [show_N n] -> field_values TE headers = [] ->
  body_framing headers = Ok (RequestBodyFraming.ContentLength n).
Proof.
  intros Hn H1 H2. unfold body_framing, content_length, transfer_codings. fold CL TE. rewrite H1, H2.
  by rewrite parse_uint_show_N.
Qed.
Lemma body_framing_chunked headers :
  field_values CL headers = [] -> field_values TE headers = [lit "chunked"] ->
  body_framing headers = Ok RequestBodyFraming.Chunked.
Proof. intros H1 H2. unfold body_framing, content_length, transfer_codings. fold CL TE. by rewrite H1, H2. Qed.

Lemma streaming_framing_headers headers framing :
  (match framing with RequestBodyFraming.ContentLength n => n <= USIZE_MAX | _ => True end) ->
  body_framing (prepare_streaming_upstream_request_framing headers framing) = Ok framing.
Proof.
  intros Hn. unfold prepare_streaming_upstream_request_framing. fold CL TE.
  set (h := remove_header (remove_header headers CL) TE).
  assert (Hcl : Forall (fun h => eq_ignore_ascii_case (fst h) CL = false) h)
    by (apply remove_header_forall, remove_header_none).
  assert (Hte : Forall (fun h => eq_ignore_ascii_case (fst h) TE = false) h) by apply remove_header_none.
  clearbody h. pose proof (remove_header_forall _ _ (lit "trailer") Hcl) as Hcl'.
  pose proof (remove_header_forall _ _ (lit "trailer") Hte) as Hte'.
  destruct framing as [|n|].
  - apply body_framing_none; by apply field_values_nil.
  - assert (Hcl2 : Forall (fun h => eq_ignore_ascii_case (fst h) (lit "Content-Length") = false)
                     (remove_header h (lit "trailer"))) by exact Hcl'.
    apply body_framing_length; [done| |]; rewrite field_values_set_new by done.
    + rewrite field_values_nil by done. cbn [app]. rewrite show_N_field. by vm_compute.
    + rewrite field_values_nil by done. by vm_compute.
  - assert (Hte2 : Forall (fun h => eq_ignore_ascii_case (fst h) (lit "Transfer-Encoding") = false) h)
      by exact Hte.
    apply body_framing_chunked; rewrite field_values_set_new by done;
      rewrite field_values_nil by done; by vm_compute.
Qed.

(** The framing a buffered request is forwarded with. *)
Definition buffered_framing (headers : Headers) (request : RawRequest) : RequestBodyFraming.t :=
  if is_emptyb (rq_trailers request) then
    if negb (is_emptyb (rq_body request)) || is_some (header headers CL)
    then RequestBodyFraming.ContentLength (blen (rq_body request))
    else RequestBodyFraming.None
  else RequestBodyFraming.Chunked.

Lemma buffered_framing_headers headers request :
  (length (List.filter (has_name CL) headers) <= 1)%nat -> blen (rq_body request) <= USIZE_MAX ->
  body_framing (prepare_upstream_request_framing headers request) = Ok (buffered_framing headers request).
Proof.
  intros Hone Hb. unfold prepare_upstream_request_framing, buffered_framing. fold CL TE.
  set (h := remove_header (remove_header headers TE) (lit "trailer")).
  assert (Hte : Forall (fun h => eq_ignore_ascii_case (fst h) TE = false) h)
    by (apply remove_header_forall, remove_header_none).
  assert (Hone' : (length (List.filter (has_name CL) h) <= 1)%nat).
  { etransitivity; [apply filter_remove_le|]. etransitivity; [apply filter_remove_le|done]. }
  clearbody h. destruct (is_emptyb (rq_trailers request)).
  - destruct (negb (is_emptyb (rq_body request)) || is_some (header headers CL)).
    + apply body_framing_length; [done| |].
      * change (field_values CL) with (field_values (lit "Content-Length")).
        rewrite field_values_set_single; [apply show_N_field|by vm_compute|exact Hone'].
      * rewrite field_values_set_other by (by vm_compute). by apply field_values_nil.
    + apply body_framing_none; apply field_values_nil; [apply remove_header_none|by apply remove_header_forall].
  - set (h2 := remove_header h CL).
    assert (Hte2 : Forall (fun h => eq_ignore_ascii_case (fst h) TE = false) h2) by (by apply remove_header_forall).
    assert (Hcl2 : Forall (fun h => eq_ignore_ascii_case (fst h) CL = false) h2) by apply remove_header_none.
    clearbody h2. apply body_framing_chunked; rewrite field_values_set_other by (by vm_compute).
    + rewrite field_values_set_other by (by vm_compute). by apply field_values_nil.
    + assert (Hte3 : Forall (fun h => eq_ignore_ascii_case (fst h) (lit "Transfer-Encoding") = false) h2)
        by exact Hte2.
      rewrite field_values_set_new, field_values_nil by done. by vm_compute.
Qed.

Lemma write_maybe_throttled_emits body bps : emits (write_maybe_throttled body bps) (fun _ => True) body.
Proof.
  unfold write_maybe_throttled. eapply emits_weaken with (P := fun _ => True) (a := body ++ []); [|done|apply app_nil_r].
  eapply emits_bind; [apply ThrottlePacer_write_emits|]. intros _ _. by apply emits_ret.
Qed.

Lemma write_chunked_request_emits body trailers bps :
  emits (write_chunked_request body trailers bps) (fun _ => True)
    ((if is_emptyb body then [] else chunk_text body) ++ chunk_end trailers).
Proof.
  unfold write_chunked_request. apply (emits_bind _ _ (fun _ => True)); [|intros _ _; apply emits_write].
  destruct (is_emptyb body); [by apply emits_ret|]. unfold chunk_text.
  eapply emits_bind; [apply emits_write|]. intros _ _.
  eapply emits_bind; [apply write_maybe_throttled_emits|]. intros _ _. apply emits_write.
Qed.

Lemma buffered_body_emits request bps size count :
  18 <= size -> size + 2 <= USIZE_MAX -> blen (rq_body request) <= USIZE_MAX ->
  Forall written_ok (rq_trailers request) -> blen (rq_trailers request) <= count ->
  trailers_size (rq_trailers request) + 2 <= size ->
  exists out, emits (write_buffered_request_body request bps) (fun _ => True) out /\
    forall headers next,
      framed size count (br_state (RequestBodyReader_new (buffered_framing headers request))) (out ++ next)
        (rq_body request) (rq_trailers request) next.
Proof.
  intros Hs Hm Hb Ht Hc Hz. unfold write_buffered_request_body, buffered_framing.
  destruct (rq_trailers request) as [|t ts] eqn:Et; cbn [is_emptyb andb negb].
  - destruct (rq_body request) as [|b bs] eqn:Eb; cbn [is_emptyb negb orb].
    + exists []. split; [by apply emits_ret|]. intros headers next. destruct (is_some _); constructor.
    + eexists. split; [apply emits_staged, write_maybe_throttled_emits|]. intros headers next.
      change (match blen (b :: bs) with 0 => RequestBodyState.Finished | N.pos _ => RequestBodyState.ContentLength (blen (b :: bs)) end)
        with (br_state (RequestBodyReader_new (RequestBodyFraming.ContentLength (blen (b :: bs))))).
      replace (br_state (RequestBodyReader_new (RequestBodyFraming.ContentLength (blen (b :: bs)))))
        with (RequestBodyState.ContentLength (blen (b :: bs))) by done.
      constructor; [rewrite blen_cons; lia|done].
  - eexists. split; [apply emits_staged, write_chunked_request_emits|]. intros headers next.
    rewrite <- app_assoc. apply encoded_chunked; try done.
    destruct (rq_body request) as [|b bs]; cbn [is_emptyb]; [constructor|].
    rewrite <- (app_nil_r (b :: bs)) at 1. rewrite <- (app_nil_r (chunk_text (b :: bs))).
    apply (encoded_piece true (b :: bs) [] []); [done|constructor].
Qed.


Definition sample_buffered_request : RawRequest :=
  mkRawRequest (lit "POST") (lit "/") (lit "HTTP/1.1") [] (lit "hello") [(lit "Digest", lit "z")].

(** a rewritten body can be forwarded with two contradicting lengths.  A
    request may repeat its Content-Length; the reader accepts equal values.
    When a rule changes the body, only the first of the repeated fields is
    updated, so the head sent upstream announces both the new and the old
    length, which this reader itself refuses as conflicting. *)
Theorem repeated_length_survives_rewrite n request :
  n <= USIZE_MAX -> blen (rq_body request) <> n -> blen (rq_body request) <= USIZE_MAX ->
  rq_trailers request = [] ->
  let headers := [(lit "Content-Length", show_N n); (lit "Content-Length", show_N n)] in
  body_framing headers = Ok (RequestBodyFraming.ContentLength n) /\
  let rewritten := update_body_headers headers (blen (rq_body request)) in
  let sent := prepare_upstream_request_framing rewritten request in
  sent = [(lit "Content-Length", show_N (blen (rq_body request))); (lit "Content-Length", show_N n)] /\
  body_framing sent = Err (invalid_data (lit "conflicting Content-Length headers")).
Proof.
  intros Hn Hne Hb Ht headers.
  assert (Hv : forall a b, field_values CL [(lit "Content-Length", show_N a); (lit "Content-Length", show_N b)] =
                           [show_N a; show_N b]).
  { intros a b. unfold field_values. cbn [flat_map]. rewrite app_nil_r, map_app.
    change (eq_ignore_ascii_case (lit "Content-Length") CL) with true. cbn iota. by rewrite !show_N_field. }
  assert (Hte : forall a b, field_values TE [(lit "Content-Length", show_N a); (lit "Content-Length", show_N b)] = [])
    by (intros; by vm_compute).
  assert (Hsent : prepare_upstream_request_framing (update_body_headers headers (blen (rq_body request))) request =
          [(lit "Content-Length", show_N (blen (rq_body request))); (lit "Content-Length", show_N n)]).
  { unfold prepare_upstream_request_framing. rewrite Ht. cbn [is_emptyb].
    change (update_body_headers headers (blen (rq_body request)))
      with [(lit "Content-Length", show_N (blen (rq_body request))); (lit "Content-Length", show_N n)].
    cbv zeta. rewrite orb_true_r. done. }
  split.
  - unfold body_framing, content_length, transfer_codings. fold CL TE. unfold headers. rewrite Hv, Hte.
    rewrite parse_uint_show_N by done. cbn [map_err mbind result_bind existsb].
    rewrite parse_uint_show_N, N.eqb_refl by done. done.
  - cbv zeta. rewrite Hsent. split; [done|].
    unfold body_framing, content_length. fold CL. rewrite Hv, parse_uint_show_N by done.
    cbn [map_err mbind result_bind existsb]. rewrite parse_uint_show_N by done.
    rewrite (proj2 (N.eqb_neq n (blen (rq_body request)))) by congruence. done.
Qed.
Lemma repeated_length_survives_rewrite_witness :
  let request := mkRawRequest (lit "POST") (lit "/") (lit "HTTP/1.1") [] (lit "hello") [] in
  let headers := [(lit "Content-Length", show_N 3); (lit "Content-Length", show_N 3)] in
  body_framing (prepare_upstream_request_framing (update_body_headers headers (blen (rq_body request))) request) =
  Err (invalid_data (lit "conflicting Content-Length headers")).
Proof.
  intros request headers.
  exact (proj2 (proj2 (repeated_length_survives_rewrite 3 request ltac:(by vm_compute) ltac:(by vm_compute)
                         ltac:(by vm_compute) eq_refl))).
Defined.
