(* ===== verification/Heads.v ===== *)
(** * Heads on the wire

    What a peer reads of the heads the proxy writes: the request line or status
    line and the fields, as they were given to the writer. *)
From Stdlib Require Import Ascii String.
From stdpp Require Import base numbers list gmap strings.
From S2P Require Import Prelude Utf8 Format Io Url Http1 Http1Proofs Http1Write.

(** ** Fields that can be sent *)

(** A field with a token name and a value without control bytes. *)
Definition sendable (t : str * str) : Prop :=
  fst t <> [] /\ forallb is_http_token_byte (encode (fst t)) = true /\
  forallb is_http_field_value_byte (encode (snd t)) = true.
Definition valid_field (t : str * str) : Prop := valid_str (fst t) = true /\ valid_str (snd t) = true.
(** The field as a peer reads it. *)
Definition received (t : str * str) : str * str := (fst t, trim (snd t)).

Lemma token_char n c : forallb is_http_token_byte (encode n) = true -> c ∈ n -> c < 128 -> is_http_token_byte c = true.
Proof. intros H Hc Hlt. rewrite forallb_forall in H. apply H, list_elem_of_In. by apply encode_elem. Qed.
Lemma value_char v c :
  forallb is_http_field_value_byte (encode v) = true -> c ∈ v -> c < 128 -> is_http_field_value_byte c = true.
Proof. intros H Hc Hlt. rewrite forallb_forall in H. apply H, list_elem_of_In. by apply encode_elem. Qed.

#[local] Ltac Zify.zify_post_hook ::= Z.to_euclidean_division_equations.
Lemma encode_char_high c b : 128 <= c -> b ∈ encode_char c -> 128 <= b.
Proof.
  intros Hc H. unfold encode_char in H. repeat case_in H; set_unfold in H; bool_to_prop; intuition lia.
Qed.
#[local] Ltac Zify.zify_post_hook ::= idtac.
(** A token is ASCII. *)
Lemma token_ascii n : forallb is_http_token_byte (encode n) = true -> Forall (fun c => c < 128) n.
Proof.
  intros H. apply Forall_forall. intros c Hc. destruct (N.lt_ge_cases c 128) as [|Hge]; [done|exfalso].
  destruct (encode_char c) as [|b bs] eqn:E; [by apply encode_char_nonempty in E|].
  assert (Hb : b ∈ encode_char c) by (rewrite E; set_solver).
  pose proof (encode_char_high c b Hge Hb) as Hh.
  rewrite forallb_forall in H. specialize (H b). apply not_false_iff_true in H.
  - apply H. unfold is_http_token_byte, is_ascii_alphanumeric, is_ascii_alphabetic, is_ascii_digit, is_ascii_uppercase,
      is_ascii_lowercase. rewrite !orb_false_iff, !in_range_false, contains_char_false.
    split_and!; [lia..|]. intros Hin. assert (b < 128); [|lia]. revert Hin. vm_compute (lit _).
    rewrite !elem_of_cons, elem_of_nil. intros Hin. destruct_or?; subst; try done; lia.
  - apply list_elem_of_In. unfold encode. apply list_elem_of_In, in_flat_map. exists c.
    split; by apply list_elem_of_In.
Qed.
Lemma token_no_space c : is_http_token_byte c = true -> is_whitespace c = false /\ c <> 13 /\ c <> ch ":".
Proof.
  intros H. assert (Hc : 33 <= c < 127 /\ c <> ch ":").
  { revert H. unfold is_http_token_byte, is_ascii_alphanumeric, is_ascii_alphabetic, is_ascii_digit, is_ascii_uppercase,
      is_ascii_lowercase. rewrite !orb_true_iff, !in_range_spec, contains_char_true. vm_compute (lit _). vm_compute (ch _).
    rewrite !elem_of_cons, elem_of_nil. intros Hin. destruct_or?; subst; try done; lia. }
  split_and!; [|lia|tauto]. unfold is_whitespace. rewrite !orb_false_iff, !in_range_false, !N.eqb_neq. lia.
Qed.

Lemma sendable_line t :
  sendable t -> valid_field t ->
  split_once [ch ":"] (field_line t) = Some (fst t, 32 :: snd t) /\ trim (fst t) = fst t /\
  (13 ∉ field_line t) /\ valid_str (field_line t) = true /\ field_line t <> [].
Proof.
  destruct t as [n v]. unfold sendable, valid_field, field_line. cbn [fst snd]. intros (Hne & Hn & Hv) (Hvn & Hvv).
  pose proof (token_ascii _ Hn) as Ha. rewrite Forall_forall in Ha.
  assert (Hc : forall c, c ∈ n -> is_whitespace c = false /\ c <> 13 /\ c <> ch ":")
    by (intros c Hin; eapply token_no_space, token_char; eauto).
  change (lit ": ") with (ch ":" :: [32]). split_and!.
  - cbn [app]. rewrite split_once_char_first; [done|]. intros Hin. by apply Hc in Hin as (_ & _ & ?).
  - apply trim_word, Forall_forall. intros c Hin. by apply Hc.
  - rewrite !elem_of_app. intros [Hin|[Hin|Hin]].
    + by apply Hc in Hin as (_ & ? & _).
    + revert Hin. vm_compute (ch _). set_solver.
    + by apply (value_char _ _ Hv) in Hin.
  - rewrite !valid_str_app, Hvn, Hvv. done.
  - by destruct n.
Qed.

(** ** Lines *)

(** A line of a head: not empty and without carriage return. *)
Definition plain_line (l : list N) : Prop := l <> [] /\ 13 ∉ l.

Lemma encode_flat_map_line ls : encode (flat_map line ls) = flat_map line (map encode ls).
Proof.
  induction ls as [|l ls IH]; [done|]. cbn [flat_map map]. unfold line at 1 3. by rewrite !encode_app, IH.
Qed.
Lemma join_cons2 sep (a b : str) ls : join sep (a :: b :: ls) = a ++ sep ++ join sep (b :: ls).
Proof. done. Qed.
Lemma encode_join ls : encode (join crlf ls) = join crlf (map encode ls).
Proof.
  induction ls as [|l [|l2 ls] IH]; [done|done|]. cbn [map] in *. by rewrite !join_cons2, !encode_app, IH.
Qed.
Lemma plain_line_encode l : plain_line l -> plain_line (encode l).
Proof.
  intros [Hne H]. split; [|by rewrite encode_elem]. destruct l as [|c l]; [done|]. unfold encode. cbn [flat_map].
  pose proof (encode_char_nonempty c). by destruct (encode_char c).
Qed.

Lemma split_once_past_crlf c t :
  13 <> c -> split_once TERMINATOR (crlf ++ c :: t) = (fun '(x, y) => (crlf ++ x, y)) <$> split_once TERMINATOR (c :: t).
Proof.
  intros Hc. apply N.eqb_neq in Hc. unfold crlf, TERMINATOR. cbn [app].
  assert (E : forall a t', strip_prefix [13; 10; 13; 10] (a :: t') = if 13 =? a then strip_prefix [10; 13; 10] t' else None) by done.
  assert (E2 : forall a t', strip_prefix [10; 13; 10] (a :: t') = if 10 =? a then strip_prefix [13; 10] t' else None) by done.
  assert (E3 : forall a t', strip_prefix [13; 10] (a :: t') = if 13 =? a then strip_prefix [10] t' else None) by done.
  cbn [split_once]. rewrite !E, E2, E3, Hc. change (13 =? 13) with true. change (10 =? 10) with true.
  change (13 =? 10) with false. cbv iota. by destruct (split_once _ t) as [[? ?]|].
Qed.
(** The blank line ends the head. *)
Lemma split_once_terminator l ls rest :
  Forall plain_line (l :: ls) ->
  split_once TERMINATOR (flat_map line (l :: ls) ++ crlf ++ rest) = Some (join crlf (l :: ls), rest).
Proof.
  revert l. induction ls as [|l2 ls IH]; intros l [[Hne Hl] Hls]%Forall_cons; cbn [flat_map].
  - rewrite app_nil_r. unfold line. rewrite <- app_assoc. unfold TERMINATOR. rewrite split_once_skip by done.
    cbn. by rewrite app_nil_r.
  - specialize (IH _ Hls). apply Forall_cons in Hls as [[Hne2 Hl2] _]. rewrite join_cons2.
    change (line l ++ line l2 ++ flat_map line ls) with (line l ++ flat_map line (l2 :: ls)).
    unfold line at 1. rewrite <- !app_assoc. unfold TERMINATOR. rewrite split_once_skip by done. fold TERMINATOR.
    destruct l2 as [|c l2]; [done|].
    replace (flat_map line ((c :: l2) :: ls) ++ crlf ++ rest) with (c :: (l2 ++ crlf ++ flat_map line ls ++ crlf ++ rest))
      in * by (cbn [flat_map]; unfold line; by rewrite <- !app_assoc).
    assert (Hc : 13 <> c) by set_solver.
    fold TERMINATOR. by rewrite split_once_past_crlf, IH by done.
Qed.

Lemma split_once_line l rest : 13 ∉ l -> split_once crlf (l ++ crlf ++ rest) = Some (l, rest).
Proof. intros H. unfold crlf at 1. rewrite split_once_skip by done. cbn. by rewrite app_nil_r. Qed.
Lemma split_str_join l ls :
  Forall (fun l => 13 ∉ l) (l :: ls) -> split_str crlf (join crlf (l :: ls)) = l :: ls.
Proof.
  unfold split_str. set (fuel := length _). assert (Hf : (length (join crlf (l :: ls)) <= fuel)%nat) by done.
  clearbody fuel. revert l fuel Hf. induction ls as [|l2 ls IH]; intros l fuel Hf [Hl Hls]%Forall_cons.
  - cbn [join] in *. destruct fuel; [done|]. cbn [split_str_aux].
    rewrite <- (app_nil_r l) at 1. unfold crlf. by rewrite split_once_skip by done.
  - rewrite join_cons2 in *. rewrite !length_app in Hf. cbn [length crlf] in Hf. destruct fuel; [lia|].
    cbn [split_str_aux]. rewrite split_once_line, IH; [done|lia|done|done].
Qed.

(** ** Fields *)

Lemma parse_fields count n fields :
  Forall sendable fields -> Forall valid_field fields -> n + blen fields <= count ->
  parse_headers_from count n (map field_line fields) = Ok (map received fields).
Proof.
  intros Hs. revert n. induction Hs as [|t fields Ht _ IH]; intros n Hv Hn; [done|].
  apply Forall_cons in Hv as [Hvt Hv]. destruct (sendable_line t Ht Hvt) as (Hsp & Htr & _ & _ & Hne).
  cbn [map parse_headers_from]. autorewrite with blen in Hn.
  rewrite (proj2 (N.ltb_ge _ _)) by lia. rewrite (IH (n + 1)) by (done || lia). destruct (field_line t) eqn:E; [done|].
  cbn [is_emptyb mbind result_bind]. rewrite Hsp, Htr, trim_space. done.
Qed.

Lemma sendable_lines fields :
  Forall sendable fields -> Forall valid_field fields ->
  Forall plain_line (map field_line fields) /\ Forall (fun l => valid_str l = true) (map field_line fields).
Proof.
  intros Hs Hv. rewrite !Forall_map. split; apply Forall_forall; intros t Ht;
    rewrite Forall_forall in Hs, Hv; destruct (sendable_line t (Hs _ Ht) (Hv _ Ht)) as (_ & _ & ? & ? & ?); done.
Qed.
Lemma valid_join ls : Forall (fun l => valid_str l = true) ls -> valid_str (join crlf ls) = true.
Proof.
  induction 1 as [|l [|l2 ls] Hl _ IH]; [done|done|]. by rewrite join_cons2, !valid_str_app, Hl, IH.
Qed.

(** ** Heads *)

(** A head as it is sent: its first line, its fields and a blank line. *)
Definition head_bytes (first : str) (fields : Headers) : list N :=
  encode (flat_map line (first :: map field_line fields) ++ crlf).

Section Head.
Context (first : str) (fields : Headers) (max : N).
Context (Hfirst : plain_line first) (Hvalid : valid_str first = true).
Context (Hs : Forall sendable fields) (Hv : Forall valid_field fields).
Context (Hmax : blen (head_bytes first fields) <= max).

Lemma head_read rest :
  read_head max (head_bytes first fields ++ rest) = (rest, Ok (Some (encode (join crlf (first :: map field_line fields))))).
Proof.
  destruct (sendable_lines _ Hs Hv) as [Hp _].
  assert (E : split_once TERMINATOR (head_bytes first fields ++ rest) =
              Some (encode (join crlf (first :: map field_line fields)), rest)).
  { unfold head_bytes. rewrite encode_app, encode_flat_map_line, encode_join, <- app_assoc. cbn [map].
    change (encode crlf) with crlf. apply split_once_terminator, Forall_cons.
    split; [by apply plain_line_encode|]. rewrite Forall_map in Hp. rewrite !Forall_map. eapply Forall_impl; [exact Hp|].
    intros t Ht. by apply plain_line_encode. }
  apply read_head_found; [exact E|]. apply split_once_Some in E. apply (f_equal blen) in E.
  rewrite !blen_app, blen_TERMINATOR in E. lia.
Qed.

Lemma head_lines : split_str crlf (from_utf8_lossy (encode (join crlf (first :: map field_line fields)))) =
  first :: map field_line fields.
Proof.
  destruct (sendable_lines _ Hs Hv) as [Hp Hl]. rewrite from_utf8_lossy_encode.
  - apply split_str_join, Forall_cons. split; [apply Hfirst|]. eapply Forall_impl; [exact Hp|]. by intros l [_ ?].
  - apply valid_join. by constructor.
Qed.
End Head.

(** ** Responses *)

Lemma show_N_ascii n : Forall (fun c => c < 128) (show_N n).
Proof.
  eapply Forall_impl; [apply show_N_digits|]. intros c. unfold is_ascii_digit. rewrite in_range_spec. vm_compute (ch _). lia.
Qed.

Definition response_version (version : str) : Prop := version = lit "HTTP/1.0" \/ version = lit "HTTP/1.1".

Lemma status_line_plain version status reason :
  response_version version -> 13 ∉ reason -> valid_str reason = true ->
  plain_line (status_line version status reason) /\ valid_str (status_line version status reason) = true.
Proof.
  intros Hv Hr Hvr. pose proof (show_N_ascii status) as Ha. unfold plain_line, status_line.
  split; [split|].
  - by destruct Hv as [->| ->].
  - rewrite !elem_of_app. intros [H|[H|[H|[H|H]]]]; try done; [| |by pose proof (proj1 (Forall_forall _ _) (show_N_digits status) _ H)|].
    + destruct Hv as [->| ->]; revert H; vm_compute (lit _); set_solver.
    + revert H. vm_compute (lit _). set_solver.
    + revert H. vm_compute (lit _). set_solver.
  - rewrite !valid_str_app, Hvr, (valid_ascii _ Ha). by destruct Hv as [->| ->].
Qed.
Lemma status_line_parts version status reason :
  response_version version ->
  splitn_char 3 (ch " ") (status_line version status reason) = [version; show_N status; reason].
Proof.
  intros Hv. unfold status_line. change (lit " ") with [ch " "]. cbn [splitn_char app].
  rewrite split_once_char_first by (destruct Hv as [->| ->]; vm_compute; set_solver).
  rewrite split_once_char_first; [done|]. intros H. pose proof (show_N_digits status) as Hd.
  rewrite Forall_forall in Hd. by apply Hd in H.
Qed.

Lemma response_head_written version status reason fields max count rest :
  response_version version -> status <= U16_MAX ->
  forallb is_http_field_value_byte (encode reason) = true -> valid_str reason = true ->
  Forall sendable fields -> Forall valid_field fields -> blen fields <= count ->
  blen (head_bytes (status_line version status reason) fields) <= max ->
  read_response_head max count (head_bytes (status_line version status reason) fields ++ rest) =
    (rest, Ok (mkRawResponseHead version status reason (map received fields))).
Proof.
  intros Hver Hst Hr Hvr Hs Hv Hc Hm.
  assert (H13 : 13 ∉ reason) by (intros Hin; by apply (value_char _ _ Hr) in Hin).
  destruct (status_line_plain version status reason Hver H13 Hvr) as [Hp Hl].
  unfold read_response_head. erewrite bind_run by (by apply head_read). erewrite bind_run by done.
  unfold parse_response_head, lift_result. rewrite head_lines by done.
  rewrite status_line_parts by done. cbn [lookup list_lookup unwrap_or]. rewrite parse_uint_show_N by done.
  unfold parse_headers_limited. rewrite parse_fields by (done || lia). done.
Qed.

(** ** Requests *)

Definition request_line (method target version : str) : str :=
  method ++ lit " " ++ target ++ lit " " ++ version.

Lemma word_no_cr s : word s -> 13 ∉ s.
Proof. intros [_ H] Hin. rewrite Forall_forall in H. by apply H in Hin. Qed.
Lemma request_head_written method target version fields max count rest :
  word method -> word target -> word version ->
  valid_str method = true -> valid_str target = true -> valid_str version = true ->
  Forall sendable fields -> Forall valid_field fields -> blen fields <= count ->
  blen (head_bytes (request_line method target version) fields) <= max ->
  read_request_head max count (head_bytes (request_line method target version) fields ++ rest) =
    (rest, framing ← body_framing (map received fields);
           Ok (Some (mkRequestHead (mkRawRequest method target version (map received fields) [] []) framing))).
Proof.
  intros Hw1 Hw2 Hw3 Hv1 Hv2 Hv3 Hs Hv Hc Hm.
  assert (Hp : plain_line (request_line method target version)).
  { split; [by destruct Hw1, method|]. unfold request_line. rewrite !elem_of_app.
    intros [H|[H|[H|[H|H]]]]; try (by eapply word_no_cr; [|exact H]); revert H; vm_compute (lit _); set_solver. }
  assert (Hl : valid_str (request_line method target version) = true).
  { unfold request_line. by rewrite !valid_str_app, Hv1, Hv2, Hv3. }
  unfold read_request_head. erewrite bind_run by (by apply head_read).
  unfold parse_request_head, mbind, StateR_bind, lift_result. rewrite head_lines by done.
  unfold request_line. change (lit " ") with [ch " "]. cbn [app].
  rewrite !split_whitespace_cons, split_whitespace_last by done. cbn [lookup list_lookup unwrap_or].
  destruct Hw1 as [Hne1 _], Hw2 as [Hne2 _]. destruct method, target; [done..|]. cbn [is_emptyb orb].
  unfold parse_headers_limited. rewrite parse_fields by (done || lia). cbn [result_bind].
  by destruct (body_framing _).
Qed.

(** ** The writers *)

(** The fields of a streamed answer, in the order they are written. *)
Definition connection_field (keep_alive : bool) : str * str :=
  (lit "Connection", if keep_alive then lit "keep-alive" else lit "close").
Definition streaming_fields (status : N) (headers : Headers) (content_length : option N) (keep_alive : bool) : Headers :=
  List.filter (fun h =>
    negb (eq_ignore_ascii_case (fst h) (lit "connection") || eq_ignore_ascii_case (fst h) (lit "content-length") ||
          (negb (status_can_send_content status) && matches_body_framing_header (fst h)))) headers ++
  (if status_can_send_content status then
     match content_length with Some n => [(lit "Content-Length", show_N n)] | None => [] end
   else if status =? 205 then [(lit "Content-Length", lit "0")] else []) ++
  [connection_field keep_alive].
Definition complete_fields (status : N) (headers : Headers) (length : N) (keep_alive : bool) : Headers :=
  List.filter (fun h => negb (is_complete_response_managed_header (fst h))) headers ++
  (if status_can_send_content status then [(lit "Content-Length", show_N length)]
   else if status =? 205 then [(lit "Content-Length", lit "0")] else []) ++
  [connection_field keep_alive].

Lemma flat_map_field_lines fields : flat_map line (map field_line fields) = flat_map (fun h => line (field_line h)) fields.
Proof. induction fields as [|h fields IH]; [done|]. cbn. by rewrite IH. Qed.
Lemma head_bytes_fields first fields :
  head_bytes first fields = encode (line first ++ flat_map (fun h => line (field_line h)) fields ++ crlf).
Proof. unfold head_bytes. cbn [flat_map]. by rewrite flat_map_field_lines, <- app_assoc. Qed.
Lemma connection_field_line keep_alive : line (field_line (connection_field keep_alive)) = line (connection_line keep_alive).
Proof. by destruct keep_alive. Qed.
Lemma streaming_head_bytes `{StatusReasons} version status reason headers content_length keep_alive :
  encode (streaming_response_head version status reason headers content_length keep_alive) =
  head_bytes (status_line version status reason) (streaming_fields status headers content_length keep_alive).
Proof.
  rewrite head_bytes_fields. unfold streaming_response_head, streaming_fields. rewrite !flat_map_app.
  cbn [flat_map]. rewrite connection_field_line, app_nil_r, <- !app_assoc.
  destruct (status_can_send_content status); [destruct content_length|destruct (status =? 205)];
    cbn [flat_map]; by rewrite ?app_nil_r.
Qed.
Lemma complete_head_bytes version status reason headers body keep_alive :
  encode (complete_response_head version status reason headers body keep_alive) =
  head_bytes (status_line version status reason) (complete_fields status headers (blen body) keep_alive).
Proof.
  rewrite head_bytes_fields. unfold complete_response_head, complete_fields. rewrite !flat_map_app.
  cbn [flat_map]. rewrite connection_field_line, app_nil_r, <- !app_assoc.
  destruct (status_can_send_content status); [|destruct (status =? 205)]; cbn [flat_map]; by rewrite ?app_nil_r.
Qed.

Lemma validate_fields_ok headers : validate_fields headers = Ok tt -> Forall sendable headers.
Proof.
  induction headers as [|[n v] headers IH]; [done|]. cbn [validate_fields].
  destruct (is_emptyb n || _) eqn:En; [done|]. apply orb_false_iff in En as [Hne Hn].
  destruct (forallb is_http_field_value_byte (encode v)) eqn:Ev; [|done]. apply negb_false_iff in Hn. cbn [negb].
  intros H. constructor; [|by apply IH]. split_and!; [by destruct n|done|done].
Qed.
Lemma validate_parts_ok version status reason headers :
  validate_response_parts version status reason headers = Ok tt ->
  response_version version /\ 100 <= status <= 599 /\ forallb is_http_field_value_byte (encode reason) = true /\
  Forall sendable headers.
Proof.
  unfold validate_response_parts. destruct (_ || _) eqn:Ev; [|done]. cbn [negb].
  destruct (in_range 100 599 status) eqn:Es; [|done]. cbn [negb].
  destruct (forallb is_http_field_value_byte (encode reason)) eqn:Er; [|done]. cbn [negb].
  intros H%validate_fields_ok. apply in_range_spec in Es. apply orb_true_iff in Ev. unfold response_version.
  by rewrite !bool_decide_eq_true in Ev.
Qed.

(** Fields the writers add. *)
Lemma length_field_fine n : sendable (lit "Content-Length", show_N n) /\ valid_field (lit "Content-Length", show_N n).
Proof.
  pose proof (show_N_digits n) as Hd. pose proof (show_N_ascii n) as Ha. split; [|split; [done|by apply valid_ascii]]. split_and!; [done|by vm_compute|]. cbn [snd].
  rewrite (encode_ascii _ Ha). apply forallb_forall. intros c Hc%list_elem_of_In.
  rewrite Forall_forall in Hd. apply Hd in Hc. revert Hc. unfold is_ascii_digit, is_http_field_value_byte.
  rewrite in_range_spec. vm_compute (ch _). intros Hc. rewrite orb_true_iff, andb_true_iff, negb_true_iff, N.leb_le, N.eqb_neq. lia.
Qed.
Lemma connection_field_fine keep_alive : sendable (connection_field keep_alive) /\ valid_field (connection_field keep_alive).
Proof. by destruct keep_alive; repeat split; vm_compute. Qed.

Lemma Forall_list_filter {A} (P : A -> Prop) f l : Forall P l -> Forall P (List.filter f l).
Proof. induction 1; cbn; [done|]. destruct (f _); [by constructor|done]. Qed.
Lemma streaming_fields_Forall (P : str * str -> Prop) status headers content_length keep_alive :
  (forall n, P (lit "Content-Length", show_N n)) -> P (connection_field keep_alive) ->
  Forall P headers -> Forall P (streaming_fields status headers content_length keep_alive).
Proof.
  intros Hl Hc Hh. unfold streaming_fields. rewrite !Forall_app. split_and!; [by apply Forall_list_filter| |by constructor].
  destruct (status_can_send_content status); [destruct content_length|destruct (status =? 205)]; repeat constructor; try apply Hl.
  apply (Hl 0).
Qed.
Lemma complete_fields_Forall (P : str * str -> Prop) status headers length keep_alive :
  (forall n, P (lit "Content-Length", show_N n)) -> P (connection_field keep_alive) ->
  Forall P headers -> Forall P (complete_fields status headers length keep_alive).
Proof.
  intros Hl Hc Hh. unfold complete_fields. rewrite !Forall_app. split_and!; [by apply Forall_list_filter| |by constructor].
  destruct (status_can_send_content status); [|destruct (status =? 205)]; repeat constructor; try apply Hl.
  apply (Hl 0).
Qed.

(** A reader of the head sees the fields that were written. *)
Definition head_reads (version : str) (status : N) (reason : str) (fields : Headers) : Prop :=
  forall max count rest,
    blen fields <= count -> blen (head_bytes (status_line version status reason) fields) <= max ->
    read_response_head max count (head_bytes (status_line version status reason) fields ++ rest) =
      (rest, Ok (mkRawResponseHead version status reason (map received fields))).

Section Written.
Context (version : str) (status : N) (reason : str) (headers : Headers).
Context (Hok : validate_response_parts version status reason headers = Ok tt).
Context (Hr : valid_str reason = true) (Hh : Forall valid_field headers).

Lemma streaming_head_reads content_length keep_alive :
  head_reads version status reason (streaming_fields status headers content_length keep_alive).
Proof.
  apply validate_parts_ok in Hok as (Hv & Hs & Hre & Hf). intros max count rest Hc Hm.
  apply response_head_written; try done; [unfold U16_MAX; lia| |];
    apply streaming_fields_Forall; try done; intros; apply length_field_fine || apply connection_field_fine.
Qed.
Lemma complete_head_reads length keep_alive :
  head_reads version status reason (complete_fields status headers length keep_alive).
Proof.
  apply validate_parts_ok in Hok as (Hv & Hs & Hre & Hf). intros max count rest Hc Hm.
  apply response_head_written; try done; [unfold U16_MAX; lia| |];
    apply complete_fields_Forall; try done; intros; apply length_field_fine || apply connection_field_fine.
Qed.
End Written.
