(* ===== verification/ResponseBody.v ===== *)
(** * Response bodies from HTTP/1 upstreams

    crates/rsproxy-engine/src/proxy: the buffered reader of body.rs and
    the streaming reader of h1_forward/body_stream.rs. *)
From Stdlib Require Import Ascii String.
From stdpp Require Import base numbers list gmap strings.
From S2P Require Import Prelude Utf8 Format Io Model Engines TraceModel Template Http1 Http1Write Deadline.
From S2P Require Import Relay.

(** ** Lines *)

(** Both line readers: push a byte, stop at CRLF, refuse more than [limit] bytes. *)
Fixpoint line_loop {S} `{Read S} (limit : N) (decode : list N -> Result IoError str) (too_long : IoError)
    (fuel : nat) (buf : list N) : StateR S IoError str :=
  match fuel with
  | O => spent
  | Datatypes.S fuel' =>
      byte ← read_byte;
      let buf := buf ++ [byte] in
      if ends_with crlf buf then lift_result (decode (take_N (blen buf - 2) buf))
      else if limit <? blen buf then fail too_long
      else line_loop limit decode too_long fuel' buf
  end.

(** [read_crlf_line] of body.rs. *)
Definition read_crlf_line {S} `{Read S} : StateR S IoError str :=
  looping (fun fuel => line_loop 8192 (fun bs => Ok (from_utf8_lossy bs))
                         (invalid_data (lit "chunk line too large")) fuel []).
(** [read_crlf_line_bounded] of body_stream.rs. *)
Definition read_crlf_line_bounded {S} `{Read S} (limit : N) : StateR S IoError str :=
  looping (fun fuel => line_loop limit
             (fun bs => ok_or (from_utf8 bs) (invalid_data (lit "invalid chunk line")))
             (invalid_data (lit "chunk line exceeds response header limit")) fuel []).

(** ** The buffered reader *)

Definition has_chunked_transfer_encoding (headers : Headers) : bool :=
  match header headers (lit "transfer-encoding") with
  | Some value => existsb (fun part => eq_ignore_ascii_case (trim part) (lit "chunked"))
                    (split_char (ch ",") value)
  | None => false
  end.

Definition tls_close_notify_missing (e : IoError) : bool :=
  (bool_decide (io_kind e = UnexpectedEof) || bool_decide (io_kind e = InvalidData)) &&
  contains (lit "close_notify") (io_message e).

Definition missing_crlf : IoError := invalid_data (lit "chunk missing trailing CRLF").

(** The trailer lines of [read_chunked_body]: lines without a name are skipped. *)
Fixpoint chunked_trailers_loop {S} `{Read S} (fuel : nat) (trailers : Headers) : StateR S IoError Headers :=
  match fuel with
  | O => spent
  | Datatypes.S fuel' =>
      trailer ← read_crlf_line;
      if is_emptyb trailer then mret trailers
      else
        chunked_trailers_loop fuel'
          match split_once [ch ":"] trailer with
          | Some (name, value) =>
              if is_emptyb (trim name) then trailers else trailers ++ [(trim name, trim value)]
          | None => trailers
          end
  end.

Fixpoint read_chunked_loop {S} `{Read S} (fuel : nat) (body : list N) : StateR S IoError (list N * Headers) :=
  match fuel with
  | O => spent
  | Datatypes.S fuel' =>
      line ← read_crlf_line;
      size ← lift_result (ok_or (chunk_size line)
               (invalid_data (lit "invalid chunk size `" ++
                  trim (default [] (head (split_char (ch ";") line))) ++ lit "`")));
      if size =? 0 then
        trailers ← looping (fun fuel => chunked_trailers_loop fuel []);
        mret (body, trailers)
      else
        data ← read_exact size;
        delimiter ← read_exact 2;
        if delimiter =s? crlf then read_chunked_loop fuel' (body ++ data) else fail missing_crlf
  end.
Definition read_chunked_body {S} `{Read S} : StateR S IoError (list N * Headers) :=
  looping (fun fuel => read_chunked_loop fuel []).

(** Reading to the end of the connection, which a missing TLS close also ends. *)
Fixpoint read_to_end_loop {S} `{Read S} (fuel : nat) (body : list N) : StateR S IoError (list N) := fun s =>
  match fuel with
  | O => spent s
  | Datatypes.S fuel' =>
      match read 8192 s with
      | (s, Ok []) => (s, Ok body)
      | (s, Ok data) => read_to_end_loop fuel' (body ++ data) s
      | (s, Err e) => (s, if tls_close_notify_missing e then Ok body else Err e)
      end
  end.

Definition read_response_body {S} `{Read S} (headers : Headers) : StateR S IoError (list N * Headers) :=
  if has_chunked_transfer_encoding headers then read_chunked_body
  else
    match header headers (lit "content-length") ≫= fun v => ok (parse_uint USIZE_MAX v) with
    | Some len => body ← read_exact len; mret (body, [])
    | None => body ← looping (fun fuel => read_to_end_loop fuel []); mret (body, [])
    end.

(** ** The streaming reader *)

Module BodyState.
Inductive t := Empty | ContentLength (remaining : N) | ChunkSize | ChunkData (remaining : N)
             | ChunkTerminator | CloseDelimited | Done.
End BodyState.

(** [UpstreamBodyFrame] *)
Module UpstreamBodyFrame.
Inductive t := Data (data : list N) | Trailers (trailers : Headers).
End UpstreamBodyFrame.

Definition READ_BUFFER_SIZE : N := 16 * 1024.

Definition H1BodyStream_new (method : str) (status : N) (headers : Headers) : Result IoError BodyState.t :=
  if negb (response_has_framed_body method status) then Ok BodyState.Empty
  else if has_chunked_transfer_encoding headers then Ok BodyState.ChunkSize
  else
    match header headers (lit "content-length") with
    | Some value =>
        n ← map_err (fun _ => invalid_data (lit "invalid response content-length")) (parse_uint USIZE_MAX value);
        Ok (BodyState.ContentLength n)
    | None => if status =? 205 then Ok BodyState.Empty else Ok BodyState.CloseDelimited
    end.

Fixpoint stream_trailers_loop {S} `{Read S} (max_header_size max_header_count : N) (fuel : nat)
    (trailers : Headers) (size : N) : StateR S IoError Headers :=
  match fuel with
  | O => spent
  | Datatypes.S fuel' =>
      line ← read_crlf_line_bounded max_header_size;
      if is_emptyb line then mret trailers
      else
        let size := saturating_add USIZE_MAX size (len line + 2) in
        if (max_header_size <? size) || (max_header_count <=? blen trailers)
        then fail (invalid_data (lit "response trailer limit exceeded"))
        else
          match split_once [ch ":"] line with
          | None => fail (invalid_data (lit "invalid trailer"))
          | Some (name, value) =>
              if is_emptyb (trim name) then fail (invalid_data (lit "invalid empty trailer name"))
              else stream_trailers_loop max_header_size max_header_count fuel'
                     (trailers ++ [(trim name, trim value)]) size
          end
  end.

(** [next_inner]: at most four states are passed before a frame or the end. *)
Fixpoint next_inner {S} `{Read S} (max_header_size max_header_count : N) (fuel : nat) (state : BodyState.t)
    : StateR S IoError (BodyState.t * option UpstreamBodyFrame.t) := fun s =>
  match fuel with
  | O => spent s
  | Datatypes.S fuel' =>
      let continue state := next_inner max_header_size max_header_count fuel' state in
      match state with
      | BodyState.Empty | BodyState.Done => (s, Ok (BodyState.Done, None))
      | BodyState.ContentLength remaining =>
          if remaining =? 0 then continue BodyState.Done s
          else
            (data ← read (N.min remaining READ_BUFFER_SIZE);
             if is_emptyb data then
               fail (mkIoError UnexpectedEof (lit "response body ended before content-length was reached"))
             else mret (BodyState.ContentLength (remaining - blen data), Some (UpstreamBodyFrame.Data data))) s
      | BodyState.ChunkSize =>
          (line ← read_crlf_line_bounded max_header_size;
           size ← lift_result (ok_or (chunk_size line) (invalid_data (lit "invalid chunk size")));
           if size =? 0 then
             trailers ← looping (fun fuel => stream_trailers_loop max_header_size max_header_count fuel [] 0);
             mret (BodyState.Done,
                   if is_emptyb trailers then None else Some (UpstreamBodyFrame.Trailers trailers))
           else continue (BodyState.ChunkData size)) s
      | BodyState.ChunkData remaining =>
          (let take := N.min remaining READ_BUFFER_SIZE in
           data ← read_exact take;
           mret (if take =? remaining then BodyState.ChunkTerminator else BodyState.ChunkData (remaining - take),
                 Some (UpstreamBodyFrame.Data data))) s
      | BodyState.ChunkTerminator =>
          (delimiter ← read_exact 2;
           if delimiter =s? crlf then continue BodyState.ChunkSize else fail missing_crlf) s
      | BodyState.CloseDelimited =>
          match read READ_BUFFER_SIZE s with
          | (s, Ok []) => continue BodyState.Done s
          | (s, Ok data) => (s, Ok (BodyState.CloseDelimited, Some (UpstreamBodyFrame.Data data)))
          | (s, Err e) => if tls_close_notify_missing e then continue BodyState.Done s else (s, Err e)
          end
      end
  end.

(** [next_frame]: an error ends the stream. *)
Definition next_frame {S} `{Read S} (max_header_size max_header_count : N) (state : BodyState.t) (s : S)
    : S * BodyState.t * option (Result IoError UpstreamBodyFrame.t) :=
  match next_inner max_header_size max_header_count 4 state s with
  | (s, Ok (state, frame)) => (s, state, Ok <$> frame)
  | (s, Err e) => (s, BodyState.Done, Some (Err (stage_io_error (lit "response_body") e)))
  end.

(** ** Trace *)

Definition optional_observe (trace : option BodyTraceEmitter) (data : list N)
    : option BodyTraceEmitter * list TraceEvent.t :=
  match trace with
  | None => (None, [])
  | Some e => let '(e, event) := observe_slice e data in (Some e, [event])
  end.

(** * Event streams

    crates/rsproxy-engine/src/proxy/body.rs (streaming and capture of event
    streams), transforms/sse.rs (frames of a buffered body) and the end of a
    tunnel (tunnel.rs). *)

Definition NL : char := 10.
Definition blank (frame : str) : bool := is_emptyb (trim frame).
Definition trim_newlines (s : str) : str := trim_end_matches (N.eqb NL) s.

(** ** Frames of a complete body *)

Definition MAX_SSE_FRAMES : nat := 512.

(** [sse_frames]: the payloads; the other fields of a record are constant. *)
Definition sse_frames (body : list N) : list (list N) :=
  map encode (take MAX_SSE_FRAMES (List.filter (fun f => negb (blank f))
    (split_str [NL; NL] (str_replace crlf [NL] (from_utf8_lossy body))))).

(** ** The capture of a stream *)

Record SseStreamCapture := mkCapture {
  sc_trace_limit : N; sc_body_head : list N; sc_frames : list (list N); sc_pending : str }.
Definition SseStreamCapture_new (trace_limit : N) : SseStreamCapture := mkCapture trace_limit [] [] [].

Definition push_frame (c : SseStreamCapture) (frame : str) : SseStreamCapture :=
  if blank frame || (MAX_SSE_FRAMES <=? length (sc_frames c))%nat then c
  else mkCapture (sc_trace_limit c) (sc_body_head c) (sc_frames c ++ [encode frame]) (sc_pending c).
Definition with_pending (c : SseStreamCapture) (pending : str) : SseStreamCapture :=
  mkCapture (sc_trace_limit c) (sc_body_head c) (sc_frames c) pending.

(** The loop of [push]; every round removes at least two characters. *)
Fixpoint capture_frames (fuel : nat) (c : SseStreamCapture) : SseStreamCapture :=
  match fuel with
  | O => c
  | S fuel' =>
      if (length (sc_frames c) <? MAX_SSE_FRAMES)%nat then
        match split_once [NL; NL] (sc_pending c) with
        | None => c
        | Some (frame, rest) => capture_frames fuel' (push_frame (with_pending c rest) (trim_newlines frame))
        end
      else c
  end.
Definition capture_push (c : SseStreamCapture) (data : list N) : SseStreamCapture :=
  let c := mkCapture (sc_trace_limit c)
             (sc_body_head c ++ take_N (saturating_sub (sc_trace_limit c) (blen (sc_body_head c))) data)
             (sc_frames c) (sc_pending c) in
  if (MAX_SSE_FRAMES <=? length (sc_frames c))%nat then c
  else
    let text := str_replace [13] [NL] (str_replace crlf [NL] (from_utf8_lossy data)) in
    let c := with_pending c (sc_pending c ++ text) in
    capture_frames (S (length (sc_pending c))) c.
Definition capture_finish (c : SseStreamCapture) : SseStreamCapture :=
  with_pending (if (length (sc_frames c) <? MAX_SSE_FRAMES)%nat && negb (blank (sc_pending c))
                then push_frame c (trim_newlines (sc_pending c)) else c) [].

(** ** Streaming *)

(** [tunnel_end_error]: the peer went away. *)
Definition tunnel_end_error (e : IoError) : bool :=
  match io_kind e with
  | BrokenPipe | ConnectionReset | ConnectionAborted | UnexpectedEof => true
  | _ => false
  end.

(** [write_streaming_payload]: [None] when the client went away. *)
Definition write_streaming_payload (data : list N) (throttle : ThrottlePacer)
    : StateR Sink IoError (option ThrottlePacer) := fun w =>
  if is_emptyb data then (w, Ok (Some throttle))
  else
    match ThrottlePacer_write throttle data w with
    | (w, Ok throttle) => (w, Ok (Some throttle))
    | (w, Err e) => (w, if tunnel_end_error e then Ok None else Err e)
    end.

(** What [stream_sse_response] carries along. *)
Record SseRun := mkSseRun {
  sse_capture : SseStreamCapture; sse_throttle : ThrottlePacer; sse_bytes : N;
  sse_trace : option BodyTraceEmitter; sse_events : list TraceEvent.t }.

(** One piece, written and then captured and observed; [false] ends the stream. *)
Definition sse_piece {S} (run : SseRun) (data : list N) : StateR (S * Sink) IoError (SseRun * bool) :=
  written ← on_output (write_streaming_payload data (sse_throttle run));
  match written with
  | None => mret (run, false)
  | Some throttle =>
      let '(trace, events) := optional_observe (sse_trace run) data in
      mret (mkSseRun (capture_push (sse_capture run) data) throttle
              (wrapping_add64 (sse_bytes run) (blen data)) trace (sse_events run ++ events), true)
  end.

Fixpoint skip_trailers {S} `{Read S} (fuel : nat) : StateR S IoError unit :=
  match fuel with
  | O => spent
  | Datatypes.S fuel' =>
      trailer ← read_crlf_line;
      if is_emptyb trailer then mret tt else skip_trailers fuel'
  end.

Fixpoint sse_chunked_loop {S} `{Read S} (fuel : nat) (run : SseRun) : StateR (S * Sink) IoError SseRun :=
  match fuel with
  | O => spent
  | Datatypes.S fuel' =>
      line ← on_input read_crlf_line;
      size ← lift_result (ok_or (chunk_size line)
               (invalid_data (lit "invalid chunk size `" ++
                  trim (default [] (head (split_char (ch ";") line))) ++ lit "`")));
      if size =? 0 then _ ← on_input (looping skip_trailers); mret run
      else
        chunk ← on_input (read_exact size);
        delimiter ← on_input (read_exact 2);
        if delimiter =s? crlf then
          next ← sse_piece run chunk;
          if snd next : bool then sse_chunked_loop fuel' (fst next) else mret (fst next)
        else fail missing_crlf
  end.

Definition SSE_BUFFER_SIZE : N := 8192.
Fixpoint sse_length_loop {S} `{Read S} (fuel : nat) (remaining : N) (run : SseRun)
    : StateR (S * Sink) IoError SseRun :=
  if remaining =? 0 then mret run
  else
    match fuel with
    | O => spent
    | Datatypes.S fuel' =>
        let take := N.min remaining SSE_BUFFER_SIZE in
        data ← on_input (read_exact take);
        next ← sse_piece run data;
        if snd next : bool then sse_length_loop fuel' (remaining - take) (fst next) else mret (fst next)
    end.

Fixpoint sse_close_loop {S} `{Read S} (fuel : nat) (run : SseRun) : StateR (S * Sink) IoError SseRun := fun s =>
  match fuel with
  | O => spent s
  | Datatypes.S fuel' =>
      match on_input (read SSE_BUFFER_SIZE) s with
      | (s, Ok []) => (s, Ok run)
      | (s, Ok data) =>
          (next ← sse_piece run data;
           if snd next : bool then sse_close_loop fuel' (fst next) else mret (fst next)) s
      | (s, Err e) => (s, if tls_close_notify_missing e then Ok run else Err e)
      end
  end.

(** [stream_sse_response]: the bytes sent, the captured head and frames, and the
    trace events. *)
Definition stream_sse_response {S} `{Read S} (upstream_headers : Headers) (trace_limit : N)
    (bytes_per_sec : option N) (trace : option BodyTraceEmitter)
    : StateR (S * Sink) IoError (N * list N * list (list N) * list TraceEvent.t) := fun s =>
  let fuel := Datatypes.S (List.length (pending (fst s))) in
  let run := mkSseRun (SseStreamCapture_new trace_limit) (ThrottlePacer_new bytes_per_sec) 0 trace [] in
  (run ← (if has_chunked_transfer_encoding upstream_headers then sse_chunked_loop fuel run
          else
            match header upstream_headers (lit "content-length") ≫= fun v => ok (parse_uint USIZE_MAX v) with
            | Some len => sse_length_loop fuel len run
            | None => sse_close_loop fuel run
            end);
   let capture := capture_finish (sse_capture run) in
   mret (sse_bytes run, sc_body_head capture, sc_frames capture, sse_events run)) s.
