(* ===== verification/ResponseProofs.v ===== *)
(** * Response bodies, proofs

    The buffered and the streaming reader of the engine accept the same
    chunked bodies and give the same content. *)
From Stdlib Require Import Ascii String.
From stdpp Require Import base numbers list gmap strings.
From S2P Require Import Prelude Utf8 Format Io Model TraceModel Http1 Http1Proofs Http1Write Deadline Relay.
From S2P Require Import ResponseBody.

(** ** Grammar *)

Section Grammar.
(** [cap] bounds a line with its carriage return; [size] and [count] the trailers. *)
Context (cap size count : N).

Definition response_line (bytes : list N) (text : str) (rest : list N) : Prop :=
  split_once crlf bytes = Some (encode text, rest) /\ valid_str text = true /\ len text + 1 <= cap.

Inductive response_trailers : Headers -> N -> list N -> Headers -> list N -> Prop :=
| response_trailers_end seen total bytes rest :
    response_line bytes [] rest -> response_trailers seen total bytes seen rest
| response_trailers_more seen total bytes line name value mid all rest :
    response_line bytes line mid -> line <> [] -> split_once [ch ":"] line = Some (name, value) ->
    trim name <> [] -> total + len line + 2 <= size -> blen seen < count ->
    response_trailers (seen ++ [(trim name, trim value)]) (total + len line + 2) mid all rest ->
    response_trailers seen total bytes all rest.

Inductive response_chunks : list N -> list N -> Headers -> list N -> Prop :=
| response_last line bytes mid trailers rest :
    response_line bytes line mid -> chunk_size line = Some 0 -> response_trailers [] 0 mid trailers rest ->
    response_chunks bytes [] trailers rest
| response_chunk line n bytes data mid body trailers rest :
    response_line bytes line (data ++ crlf ++ mid) -> chunk_size line = Some n -> 0 < n -> blen data = n ->
    response_chunks mid body trailers rest ->
    response_chunks bytes (data ++ body) trailers rest.
End Grammar.

(** ** Lines *)

Lemma line_loop_slice limit decode e fuel bs buf line rest :
  (length bs < fuel)%nat -> contains crlf buf = false ->
  split_once crlf (buf ++ bs) = Some (line, rest) -> blen line + 1 <= limit ->
  line_loop limit decode e fuel buf bs = (rest, decode line).
Proof.
  revert bs buf. induction fuel as [|fuel IH]; intros bs buf Hf Hc Hs Hl; [lia|].
  cbn [line_loop]. destruct bs as [|b bs].
  { exfalso. rewrite app_nil_r in Hs. apply split_once_Some in Hs.
    apply not_true_iff_false in Hc. apply Hc, contains_true. eauto. }
  rewrite (bind_run _ _ _ _ _ (read_byte_slice b bs)). cbv zeta.
  destruct (ends_with crlf (buf ++ [b])) eqn:He.
  - destruct (split_once_snoc crlf buf b bs) as (a & Ea & Es); [done..|].
    rewrite Es in Hs. injection Hs as <- <-.
    rewrite Ea, take_N_app by (autorewrite with blen; lia). done.
  - assert (Hc' : contains crlf (buf ++ [b]) = false) by (by rewrite contains_snoc).
    replace (buf ++ b :: bs) with ((buf ++ [b]) ++ bs) in Hs by (by rewrite <- app_assoc).
    pose proof (split_once_beyond _ _ _ _ _ Hc' Hs) as Hb. autorewrite with blen in Hb.
    rewrite (proj2 (N.ltb_ge _ _)) by (autorewrite with blen; lia).
    apply IH; [cbn in Hf; lia|done|done|done].
Qed.

Lemma sim_line_loop limit decode e fuel buf :
  sim (line_loop limit decode e fuel buf) (line_loop limit decode e fuel buf).
Proof.
  revert buf. induction fuel as [|fuel IH]; intros buf; cbn [line_loop]; unfold spent; sim_auto.
Qed.

Lemma yields_line_loop cap limit decode e bytes text rest :
  response_line cap bytes text rest -> cap <= limit -> decode (encode text) = Ok text ->
  yields (looping (fun fuel => line_loop limit decode e fuel [])) bytes text rest.
Proof.
  intros (Hs & Hv & Hl) Hc Hd. eapply yields_sim; [apply sim_looping; intros; apply sim_line_loop|].
  unfold looping. cbn [pending Slice_read].
  rewrite (line_loop_slice _ _ _ _ _ [] (encode text) rest); [by rewrite Hd|lia|done|done|].
  unfold blen. rewrite length_encode. lia.
Qed.

Lemma yields_crlf_line cap bytes text rest :
  cap <= 8192 -> response_line cap bytes text rest -> yields read_crlf_line bytes text rest.
Proof. intros Hc H. eapply yields_line_loop; [done|done|]. f_equal. apply from_utf8_lossy_encode, H. Qed.

Lemma yields_crlf_line_bounded cap limit bytes text rest :
  cap <= limit -> response_line cap bytes text rest -> yields (read_crlf_line_bounded limit) bytes text rest.
Proof. intros Hc H. eapply yields_line_loop; [done|done|]. rewrite from_utf8_encode by apply H. done. Qed.

Lemma response_line_shorter cap bytes text rest :
  response_line cap bytes text rest -> (length rest + 2 <= length bytes)%nat.
Proof. intros (Hs & _). apply split_once_Some in Hs as ->. rewrite !length_app. cbn. lia. Qed.

(** ** The buffered reader *)

Lemma yields_chunked_trailers cap size count seen total bytes all rest fuel :
  cap <= 8192 -> response_trailers cap size count seen total bytes all rest -> (length bytes < fuel)%nat ->
  yields (chunked_trailers_loop fuel seen) bytes all rest.
Proof.
  intros Hc H. revert fuel.
  induction H as [seen total bytes rest Hl|seen total bytes line name value mid all rest Hl Hne Hs Hn Ht Hcnt _ IH];
    intros fuel Hf; (destruct fuel as [|fuel]; [lia|]); cbn [chunked_trailers_loop].
  - eapply yields_bind; [by eapply yields_crlf_line|]. apply yields_ret.
  - pose proof (response_line_shorter _ _ _ _ Hl).
    eapply yields_bind; [by eapply yields_crlf_line|].
    destruct line; [done|]. cbn [is_emptyb]. rewrite Hs.
    destruct (trim name) eqn:En; [done|]. cbn [is_emptyb]. apply IH. lia.
Qed.

Lemma yields_read_chunked cap size count bytes body trailers rest seen fuel :
  cap <= 8192 -> response_chunks cap size count bytes body trailers rest -> (length bytes < fuel)%nat ->
  yields (read_chunked_loop fuel seen) bytes (seen ++ body, trailers) rest.
Proof.
  intros Hc H. revert fuel seen.
  induction H as [line bytes mid trailers rest Hl Hz Ht|line n bytes data mid body trailers rest Hl Hn Hp Hd _ IH];
    intros fuel seen Hf; (destruct fuel as [|fuel]; [lia|]); cbn [read_chunked_loop];
    pose proof (response_line_shorter _ _ _ _ Hl) as Hshort;
    (eapply yields_bind; [by eapply yields_crlf_line|]).
  - rewrite Hz. eapply yields_bind; [apply yields_lift|]. cbn [N.eqb]. rewrite app_nil_r.
    eapply yields_bind; [|apply yields_ret].
    apply yields_looping. eapply yields_chunked_trailers; [done..|lia].
  - rewrite Hn. eapply yields_bind; [apply yields_lift|]. rewrite (proj2 (N.eqb_neq _ _)) by lia.
    eapply yields_bind; [by apply yields_exact|].
    eapply yields_bind; [by apply (yields_exact 2 crlf)|].
    rewrite bool_decide_eq_true_2, app_assoc by done. apply IH. rewrite !length_app in Hshort. lia.
Qed.

(** ** The streaming reader *)

Section Streaming.
Context (cap size count : N) (Hcap : cap <= size) (Hsize : size <= USIZE_MAX).

(** What is left to deliver in a state of the stream: [body], then [trailers],
    before [rest]. *)
Inductive streams : BodyState.t -> list N -> list N -> Headers -> list N -> Prop :=
| streams_empty bytes : streams BodyState.Empty bytes [] [] bytes
| streams_done bytes : streams BodyState.Done bytes [] [] bytes
| streams_length n data rest :
    blen data = n -> streams (BodyState.ContentLength n) (data ++ rest) data [] rest
| streams_size bytes body trailers rest :
    response_chunks cap size count bytes body trailers rest ->
    streams BodyState.ChunkSize bytes body trailers rest
| streams_data n data mid body trailers rest :
    blen data = n -> 0 < n -> response_chunks cap size count mid body trailers rest ->
    streams (BodyState.ChunkData n) (data ++ crlf ++ mid) (data ++ body) trailers rest
| streams_terminator mid body trailers rest :
    response_chunks cap size count mid body trailers rest ->
    streams BodyState.ChunkTerminator (crlf ++ mid) body trailers rest
| streams_close bytes : streams BodyState.CloseDelimited bytes bytes [] [].

(** One frame: what it delivers is the first part of what was left. *)
Definition delivers (frame : option UpstreamBodyFrame.t) (st : BodyState.t) (bytes body : list N)
    (trailers : Headers) (rest : list N) : Prop :=
  match frame with
  | None => st = BodyState.Done /\ body = [] /\ trailers = [] /\ bytes = rest
  | Some (UpstreamBodyFrame.Data data) =>
      data <> [] /\ exists body', body = data ++ body' /\ streams st bytes body' trailers rest
  | Some (UpstreamBodyFrame.Trailers t) =>
      t <> [] /\ st = BodyState.Done /\ body = [] /\ trailers = t /\ bytes = rest
  end.

Lemma yields_stream_trailers seen total bytes all rest fuel :
  response_trailers cap size count seen total bytes all rest -> (length bytes < fuel)%nat ->
  yields (stream_trailers_loop size count fuel seen total) bytes all rest.
Proof.
  intros H. revert fuel.
  induction H as [seen total bytes rest Hl|seen total bytes line name value mid all rest Hl Hne Hs Hn Ht Hcnt _ IH];
    intros fuel Hf; (destruct fuel as [|fuel]; [lia|]); cbn [stream_trailers_loop].
  - eapply yields_bind; [by eapply (yields_crlf_line_bounded cap)|]. apply yields_ret.
  - pose proof (response_line_shorter _ _ _ _ Hl).
    eapply yields_bind; [by eapply (yields_crlf_line_bounded cap)|].
    destruct line as [|c line]; [done|]. cbn [is_emptyb]. cbv zeta.
    replace (saturating_add USIZE_MAX total (len (c :: line) + 2)) with (total + len (c :: line) + 2)
      by (unfold saturating_add; lia).
    rewrite (proj2 (N.ltb_ge _ _)), (proj2 (N.leb_gt _ _)) by lia. cbn [orb]. rewrite Hs.
    destruct (trim name) eqn:En; [done|]. cbn [is_emptyb]. apply IH. lia.
Qed.

(** A chunk's data, at most one buffer of it. *)
Lemma yields_chunk_data f n data mid body trailers rest :
  blen data = n -> 0 < n -> response_chunks cap size count mid body trailers rest ->
  exists st d bytes, yields (next_inner size count (S f) (BodyState.ChunkData n)) (data ++ crlf ++ mid)
      (st, Some (UpstreamBodyFrame.Data d)) bytes /\
    delivers (Some (UpstreamBodyFrame.Data d)) st bytes (data ++ body) trailers rest.
Proof.
  intros Hn Hp Hb. set (take := N.min n READ_BUFFER_SIZE).
  assert (Ht : 0 < take <= n) by (unfold take, READ_BUFFER_SIZE; lia).
  exists (if take =? n then BodyState.ChunkTerminator else BodyState.ChunkData (n - take)),
    (take_N take data), (drop_N take data ++ crlf ++ mid). split.
  { replace (data ++ crlf ++ mid) with (take_N take data ++ drop_N take data ++ crlf ++ mid)
      by (by rewrite app_assoc, take_drop_N).
    eapply yields_bind; [apply yields_exact; rewrite blen_take_N; lia|]. apply yields_ret. }
  split.
  { intros E. apply (f_equal blen) in E. rewrite blen_take_N, blen_nil in E. lia. }
  exists (drop_N take data ++ body). split; [by rewrite app_assoc, take_drop_N|].
  destruct (N.eqb_spec take n) as [E|E].
  - rewrite drop_N_all by lia. by constructor.
  - constructor; [rewrite blen_drop_N; lia|lia|done].
Qed.

Lemma yields_chunk_size f bytes body trailers rest :
  response_chunks cap size count bytes body trailers rest ->
  exists st frame bytes', yields (next_inner size count (S (S f)) BodyState.ChunkSize) bytes (st, frame) bytes' /\
    delivers frame st bytes' body trailers rest.
Proof.
  intros H. destruct H as [line bytes mid trailers rest Hl Hz Ht|line n bytes data mid body trailers rest Hl Hn Hp Hd Hb].
  - exists BodyState.Done, (if is_emptyb trailers then None else Some (UpstreamBodyFrame.Trailers trailers)), rest.
    split; [|by destruct trailers].
    eapply yields_bind; [by eapply (yields_crlf_line_bounded cap)|]. rewrite Hz.
    eapply yields_bind; [apply yields_lift|]. cbn [N.eqb].
    eapply yields_bind; [|apply yields_ret].
    apply yields_looping. eapply yields_stream_trailers; [done|lia].
  - destruct (yields_chunk_data f n data mid body trailers rest) as (st & d & bytes' & Hy & Hdel); [done..|].
    exists st, (Some (UpstreamBodyFrame.Data d)), bytes'. split; [|done].
    eapply yields_bind; [by eapply (yields_crlf_line_bounded cap)|]. rewrite Hn.
    eapply yields_bind; [apply yields_lift|]. by rewrite (proj2 (N.eqb_neq _ _)) by lia.
Qed.

Lemma next_read s n :
  healthy s -> 0 < n ->
  exists s' d, read n s = (s', Ok d) /\ healthy s' /\ carried s = d ++ carried s' /\ blen d <= n /\
    (d = [] -> carried s = []).
Proof. apply stream_read_spec. Qed.

Lemma next_length s n body rest :
  healthy s -> carried s = body ++ rest -> blen body = n ->
  exists s' st frame, next_inner size count 4 (BodyState.ContentLength n) s = (s', Ok (st, frame)) /\ healthy s' /\
    delivers frame st (carried s') body [] rest.
Proof.
  intros Hs Hc Hn. cbn [next_inner]. destruct (N.eqb_spec n 0) as [->|H0].
  { apply blen_0 in Hn as ->. exists s, BodyState.Done, None. split_and!; [done..|]. split_and!; done. }
  destruct (next_read s (N.min n READ_BUFFER_SIZE)) as (s' & d & E & Hs' & Hd & Hl & Hne);
    [done|unfold READ_BUFFER_SIZE; lia|].
  rewrite (bind_run _ _ _ _ _ E). destruct d as [|b d].
  { exfalso. specialize (Hne eq_refl). rewrite Hne in Hc. symmetry in Hc. apply app_eq_nil in Hc as [-> _].
    by rewrite blen_nil in Hn. }
  cbn [is_emptyb]. exists s', (BodyState.ContentLength (n - blen (b :: d))), (Some (UpstreamBodyFrame.Data (b :: d))).
  split_and!; [done|done|]. split; [done|]. rewrite Hc in Hd.
  assert (Eb : body = (b :: d) ++ drop_N (blen (b :: d)) body /\ carried s' = drop_N (blen (b :: d)) body ++ rest).
  { apply app_eq_app in Hd as (l & [[-> Hr]|[Hb Hr]]).
    - by rewrite drop_N_app, Hr by done.
    - assert (l = []) as -> by (apply blen_0; rewrite Hb, !blen_app in Hl; lia).
      rewrite app_nil_r in Hb. rewrite Hb, drop_N_all by lia. cbn [app] in *. rewrite app_nil_r. done. }
  destruct Eb as [Eb ->]. eexists. split; [exact Eb|]. constructor. rewrite blen_drop_N. lia.
Qed.

(** A frame of a healthy stream delivers the next part of the body. *)
Lemma next_frame_step s st body trailers rest :
  healthy s -> streams st (carried s) body trailers rest ->
  exists s' st' frame, next_frame size count st s = (s', st', Ok <$> frame) /\ healthy s' /\
    delivers frame st' (carried s') body trailers rest.
Proof.
  intros Hs H. unfold next_frame.
  cut (exists s' st' frame, next_inner size count 4 st s = (s', Ok (st', frame)) /\ healthy s' /\
         delivers frame st' (carried s') body trailers rest).
  { intros (s' & st' & frame & -> & ?). eauto. }
  remember (carried s) as bytes eqn:Hc.
  destruct H as [bytes|bytes|n data rest Hn|bytes body trailers rest Hb|n data mid body trailers rest Hn Hp Hb
                |mid body trailers rest Hb|bytes].
  - exists s, BodyState.Done, None. by rewrite <- Hc.
  - exists s, BodyState.Done, None. by rewrite <- Hc.
  - by apply next_length.
  - destruct (yields_chunk_size 2 bytes body trailers rest Hb) as (st' & frame & bytes' & Hy & Hd).
    destruct (Hy s Hs (eq_sym Hc)) as (s' & E & Hs' & <-). exists s', st'. eexists. done.
  - destruct (yields_chunk_data 3 n data mid body trailers rest) as (st' & d & bytes' & Hy & Hd); [done..|].
    destruct (Hy s Hs (eq_sym Hc)) as (s' & E & Hs' & <-). exists s', st'. eexists. done.
  - destruct (yields_chunk_size 1 mid body trailers rest Hb) as (st' & frame & bytes' & Hy & Hd).
    assert (Hy' : yields (next_inner size count 4 BodyState.ChunkTerminator) (crlf ++ mid) (st', frame) bytes')
      by (eapply yields_bind; [by apply (yields_exact 2 crlf)|]; by rewrite bool_decide_eq_true_2).
    destruct (Hy' s Hs (eq_sym Hc)) as (s' & E & Hs' & <-). exists s', st'. eexists. done.
  - destruct (next_read s READ_BUFFER_SIZE) as (s' & d & E & Hs' & Hd & Hl & Hne); [done..|].
    cbn [next_inner]. rewrite E. destruct d as [|b d].
    + exists s', BodyState.Done, None. rewrite Hc. specialize (Hne eq_refl). rewrite Hne in Hd.
      cbn [app] in Hd. rewrite <- Hd. done.
    + exists s', BodyState.CloseDelimited, (Some (UpstreamBodyFrame.Data (b :: d))). split_and!; [done..|].
      split; [done|]. exists (carried s'). split; [congruence|]. constructor.
Qed.
End Streaming.
