(* ===== verification/ResponseFlow.v ===== *)
(** * Answering the client

    crates/rsproxy-engine/src/proxy: the response helpers of stream.rs,
    transforms/sse.rs and upstream_response.rs, the streamed and the buffered
    answer (upstream_response/streaming.rs, buffered.rs) and the choice between
    them for an HTTP/1 upstream (h1_forward/fallback.rs). *)
From Stdlib Require Import Ascii String.
From stdpp Require Import base numbers list gmap strings.
From S2P Require Import Prelude Family Utf8 Format Io Model Url Engines TraceModel Template Http1 Http1Write.
From S2P Require Import Values Deadline Relay Transforms Actions ResponseBody.

(** ** Connections and versions (stream.rs) *)

Module ClientPersistence.
Inductive t := Close | KeepAlive.
Definition keep_alive (p : t) : bool := match p with KeepAlive => true | Close => false end.
End ClientPersistence.

Definition header_contains_token (headers : Headers) (name wanted : str) : bool :=
  existsb (fun token => eq_ignore_ascii_case token wanted) (field_values name headers).

Definition is_http10 (version : str) : bool := eq_ignore_ascii_case version (lit "HTTP/1.0").
Definition requested_client_connection (request : RawRequest) : ClientPersistence.t :=
  let has name token := header_contains_token (rq_headers request) (lit name) (lit token) in
  if has "connection"%string "close"%string || has "proxy-connection"%string "close"%string
  then ClientPersistence.Close
  else if eq_ignore_ascii_case (rq_version request) (lit "HTTP/1.1") then ClientPersistence.KeepAlive
  else if is_http10 (rq_version request) &&
          (has "connection"%string "keep-alive"%string || has "proxy-connection"%string "keep-alive"%string)
  then ClientPersistence.KeepAlive
  else ClientPersistence.Close.
Definition client_response_version (request_version : str) : str :=
  if is_http10 request_version then lit "HTTP/1.0" else lit "HTTP/1.1".
Definition upstream_http_version (client_version : str) : str :=
  if eq_ignore_ascii_case client_version (lit "HTTP/2") || eq_ignore_ascii_case client_version (lit "HTTP/2.0")
  then lit "HTTP/1.1" else client_version.

Definition is_sse_response (headers : Headers) : bool :=
  match header headers (lit "content-type") with
  | Some value =>
      eq_ignore_ascii_case (trim (unwrap_or (head (split_char (ch ";") value)) [])) (lit "text/event-stream")
  | None => false
  end.
Definition accepts_sse (headers : Headers) : bool :=
  match header headers (lit "accept") with
  | Some value =>
      existsb (fun item => match head (split_char (ch ";") item) with
                           | Some media => eq_ignore_ascii_case (trim media) (lit "text/event-stream")
                           | None => false
                           end) (split_char (ch ",") value)
  | None => false
  end.

Definition throttle_bps (actions : list ResolvedAction) (phase : Phase.t) : option N :=
  head (omap (fun item => match ra_action item with
                          | Action.Throttle p n => if bool_decide (p = phase) then Some n else None
                          | _ => None
                          end) actions).
(** The response delays, in order. *)
Definition response_delays (actions : list ResolvedAction) : list N :=
  omap (fun item => match ra_action item with Action.Delay Phase.Res millis => Some millis | _ => None end) actions.

Definition prepare_trailer_headers (head : RawResponseHead) (headers trailers : Headers)
    : RawResponseHead * Headers :=
  (mkRawResponseHead (lit "HTTP/1.1") (rh_status head) (rh_reason head) (rh_headers head),
   set_header (set_header (remove_header (remove_header headers (lit "content-length")) (lit "transfer-encoding"))
                 (lit "Transfer-Encoding") (lit "chunked"))
     (lit "Trailer") (trailer_names trailers)).

(** ** The state of an answer *)

(** [ResponseBodyStream], with a bound on the frames a stream still has. *)
Class ResponseBodyStream (B : Type) := {
  body_frame : B -> B * option (Result IoError UpstreamBodyFrame.t);
  frames_left : B -> nat;
}.

(** The HTTP/1 stream: its reader, its state and its limits. *)
Record H1BodyStream := mkH1BodyStream {
  h1_reader : Stream; h1_state : BodyState.t; h1_max_header_size : N; h1_max_header_count : N }.
#[export] Instance H1BodyStream_frames : ResponseBodyStream H1BodyStream := {
  body_frame b :=
    let '(s, st, frame) := next_frame (h1_max_header_size b) (h1_max_header_count b) (h1_state b) (h1_reader b) in
    (mkH1BodyStream s st (h1_max_header_size b) (h1_max_header_count b), frame);
  frames_left b := S (S (List.length (carried (h1_reader b))));
}.

(** What the trace pipeline is told of a response. *)
Inductive Emitted :=
| EmittedResponse (id status : N) (headers trailers : Headers)
| EmittedBody (event : TraceEvent.t).

(** The body source, the client, the regex cache of the thread, the readings
    of the clock to come and the trace events so far. *)
Record Flow (B : Type) := mkFlow {
  fl_body : B; fl_client : Sink; fl_cache : RegexCache; fl_clock : list N; fl_events : list Emitted }.
Arguments mkFlow {B}.
Arguments fl_body {B}.
Arguments fl_client {B}.
Arguments fl_cache {B}.
Arguments fl_clock {B}.
Arguments fl_events {B}.

Section Flow.
Context {B : Type}.

Definition on_client {A} (m : StateR Sink IoError A) : StateR (Flow B) IoError A := fun f =>
  let '(c, r) := m (fl_client f) in (mkFlow (fl_body f) c (fl_cache f) (fl_clock f) (fl_events f), r).
Definition on_cache {A} (m : StateR RegexCache IoError A) : StateR (Flow B) IoError A := fun f =>
  let '(c, r) := m (fl_cache f) in (mkFlow (fl_body f) (fl_client f) c (fl_clock f) (fl_events f), r).
Definition emit (events : list Emitted) : StateR (Flow B) IoError unit := fun f =>
  (mkFlow (fl_body f) (fl_client f) (fl_cache f) (fl_clock f) (fl_events f ++ events), Ok tt).
(** [Instant::now]; without a reading to come the clock shows [start]. *)
Definition clock (start : N) : StateR (Flow B) IoError N := fun f =>
  match fl_clock f with
  | [] => (f, Ok start)
  | now :: rest => (mkFlow (fl_body f) (fl_client f) (fl_cache f) rest (fl_events f), Ok now)
  end.
Definition check_deadline (d : RequestDeadline) : StateR (Flow B) IoError unit :=
  now ← clock (dl_started d);
  _ ← lift_result (remaining d now);
  mret tt.
Fixpoint sleep_all (d : RequestDeadline) (delays : list N) : StateR (Flow B) IoError unit :=
  match delays with
  | [] => mret tt
  | millis :: delays' =>
      now ← clock (dl_started d);
      after ← clock (dl_started d);
      _ ← lift_result (snd (sleep d (millis * 1000000) now after));
      sleep_all d delays'
  end.
End Flow.

(** ** Results *)

Module UpstreamProtocol.
Inductive t := Http1 | Http1Pooled (reused_connection : bool) | Http2 (reused_connection : bool).
End UpstreamProtocol.

(** [ForwardResult] without its durations. *)
Record ForwardResult := mkForwardResult {
  fw_status : N;
  fw_upstream : str;
  fw_request_bytes : N;
  fw_response_bytes : N;
  fw_res_headers : Headers;
  fw_res_trailers : Headers;
  fw_body_head : list N;
  fw_frames : list (list N);
  fw_kind : option SessionKind.t;
  fw_matched_rules : list MatchedRule;
  fw_actions : list ResolvedAction;
  fw_protocol : UpstreamProtocol.t;
  fw_client_connection : ClientPersistence.t;
  fw_flags : list str;
  fw_error : option str;
}.

Record ResponseContext := mkResponseContext {
  rc_request : RawRequest;
  rc_meta : RequestMeta;
  rc_config : ProxyConfig;
  rc_trace_id : N;
  rc_upstream_addr : str;
  rc_client_connection : ClientPersistence.t;
  rc_deadline : RequestDeadline;
}.

Record StreamSummary := mkStreamSummary' {
  su_bytes : N; su_body_head : list N; su_trailers : Headers; su_trace_limit : N; su_error : option str }.
Definition StreamSummary_new (trace_limit : N) : StreamSummary := mkStreamSummary' 0 [] [] trace_limit None.
Definition StreamSummary_observe (s : StreamSummary) (data : list N) : StreamSummary :=
  mkStreamSummary' (saturating_add U64_MAX (su_bytes s) (blen data))
    (su_body_head s ++ take_N (saturating_sub (su_trace_limit s) (blen (su_body_head s))) data)
    (su_trailers s) (su_trace_limit s) (su_error s).
Definition with_error (s : StreamSummary) (error : str) : StreamSummary :=
  mkStreamSummary' (su_bytes s) (su_body_head s) (su_trailers s) (su_trace_limit s) (Some error).
Definition with_trailers (s : StreamSummary) (trailers : Headers) : StreamSummary :=
  mkStreamSummary' (su_bytes s) (su_body_head s) trailers (su_trace_limit s) (su_error s).
Definition fail_upstream (s : StreamSummary) (flags : list str) (e : IoError) : StreamSummary * list str :=
  (with_error s (io_message e),
   flags ++ if is_request_total_timeout e
            then [lit "upstream-timeout"; lit "request-timeout"; lit "request-total-timeout"]
            else [lit "upstream-response-body-error"]).
Definition fail_downstream (s : StreamSummary) (flags : list str) (e : IoError) : StreamSummary * list str :=
  (with_error s (lit "downstream response body: " ++ io_message e),
   flags ++ [lit "downstream-response-write-error"]).

(** ** The streamed answer *)

Definition declared_trailer_names (headers : Headers) (actions : list ResolvedAction) : list str :=
  let names := List.filter (fun n => negb (is_emptyb n) && negb (is_forbidden_trailer_name n))
                 (field_values (lit "trailer") headers) in
  fold_left (fun names item =>
    match ra_action item with
    | Action.ResTrailer (HeaderOp.Set_ name _) =>
        if is_forbidden_trailer_name name || existsb (fun seen => eq_ignore_ascii_case seen name) names
        then names else names ++ [name]
    | _ => names
    end) actions names.

(** What the loop over the frames carries. *)
Record Streaming := mkStreaming {
  sm_summary : StreamSummary; sm_throttle : ThrottlePacer;
  sm_trace : option BodyTraceEmitter; sm_flags : list str }.

Definition DISCARDED_205 : str := lit "upstream-205-content-discarded".

Section Answer.
Context {PE : PatternEngines} {CE : CaptureEngine} {RF : RuleFiles} {JT : JsonText} {SR : StatusReasons}.

Section Streamed.
Context {B : Type} `{ResponseBodyStream B}.
Context (body_allowed chunked : bool) (upstream_status : N).

(** One piece of the body: observed, then written; a failed write ends the body. *)
Definition stream_piece (st : Streaming) (data : list N) : StateR (Flow B) IoError Streaming := fun f =>
  let summary := StreamSummary_observe (sm_summary st) data in
  let '(trace, events) := optional_observe (sm_trace st) data in
  let f := mkFlow (fl_body f) (fl_client f) (fl_cache f) (fl_clock f) (fl_events f ++ map EmittedBody events) in
  match on_client (write_stream_data data chunked (sm_throttle st)) f with
  | (f, Ok throttle) => (f, Ok (mkStreaming summary throttle trace (sm_flags st)))
  | (f, Err e) =>
      let '(summary, flags) := fail_downstream summary (sm_flags st) e in
      (f, Ok (mkStreaming summary (sm_throttle st) trace flags))
  end.

Definition discard_piece (st : Streaming) (data : list N) : Streaming :=
  if (upstream_status =? 205) && negb (is_emptyb data) && negb (existsb (fun f => f =s? DISCARDED_205) (sm_flags st))
  then mkStreaming (sm_summary st) (sm_throttle st) (sm_trace st) (sm_flags st ++ [DISCARDED_205]) else st.

Definition stream_prefix (prefix : list N) (st : Streaming) : StateR (Flow B) IoError Streaming :=
  if (upstream_status =? 205) && negb (is_emptyb prefix) then
    mret (mkStreaming (sm_summary st) (sm_throttle st) (sm_trace st) (sm_flags st ++ [DISCARDED_205]))
  else if body_allowed && negb (is_emptyb prefix) then stream_piece st prefix
  else mret st.

Fixpoint stream_frames (fuel : nat) (st : Streaming) : StateR (Flow B) IoError Streaming := fun f =>
  match su_error (sm_summary st) with
  | Some _ => (f, Ok st)
  | None =>
      match fuel with
      | O => spent f
      | S fuel' =>
          let '(body, frame) := body_frame (fl_body f) in
          let f := mkFlow body (fl_client f) (fl_cache f) (fl_clock f) (fl_events f) in
          match frame with
          | None => (f, Ok st)
          | Some (Ok (UpstreamBodyFrame.Data data)) =>
              if body_allowed then (st ← stream_piece st data; stream_frames fuel' st) f
              else stream_frames fuel' (discard_piece st data) f
          | Some (Ok (UpstreamBodyFrame.Trailers trailers)) =>
              let summary := sm_summary st in
              stream_frames fuel'
                (mkStreaming (with_trailers summary (su_trailers summary ++ trailers))
                   (sm_throttle st) (sm_trace st) (sm_flags st)) f
          | Some (Err e) =>
              let '(summary, flags) := fail_upstream (sm_summary st) (sm_flags st) e in
              stream_frames fuel' (mkStreaming summary (sm_throttle st) (sm_trace st) flags) f
          end
      end
  end.
Definition stream_body (st : Streaming) : StateR (Flow B) IoError Streaming := fun f =>
  stream_frames (S (frames_left (fl_body f))) st f.

(** The end of the body, unless it has failed already. *)
Definition end_stream (summary : StreamSummary) (flags : list str)
    : StateR (Flow B) IoError (StreamSummary * list str) := fun f =>
  match su_error summary with
  | Some _ => (f, Ok (summary, flags))
  | None =>
      match on_client (finish_stream_body chunked (su_trailers summary)) f with
      | (f, Ok _) => (f, Ok (summary, flags))
      | (f, Err e) => (f, Ok (fail_downstream summary flags e))
      end
  end.
End Streamed.

Record StreamingResponse := mkStreamingResponse {
  sr_head : RawResponseHead;
  sr_prefix : list N;
  sr_matched_rules : list MatchedRule;
  sr_actions : list ResolvedAction;
  sr_protocol : UpstreamProtocol.t;
  sr_flags : list str;
}.

(** The fields that frame a streamed answer, whether it is chunked and whether
    the connection must close after it. *)
Definition frame_streaming (body_allowed http10 : bool) (upstream_status status : N) (declared : list str)
    (headers : Headers) : Headers * bool * bool :=
  let headers :=
    if (upstream_status =? 205) && status_can_send_content status then
      set_header (remove_header (remove_header headers (lit "transfer-encoding")) (lit "trailer"))
        (lit "Content-Length") (lit "0")
    else headers in
  let has_length := is_some (header headers (lit "content-length")) in
  let chunked := body_allowed && negb http10 && (negb has_length || negb (is_emptyb declared)) in
  if chunked then
    let headers := set_header (remove_header headers (lit "content-length")) (lit "Transfer-Encoding") (lit "chunked") in
    (if is_emptyb declared then headers else set_header headers (lit "Trailer") (join (lit ", ") declared), true, false)
  else (headers, false, body_allowed && negb has_length).

Definition finish_streaming_response {B} `{ResponseBodyStream B} (context : ResponseContext)
    (response : StreamingResponse) : StateR (Flow B) IoError ForwardResult :=
  let req := rc_request context in
  let config := rc_config context in
  let meta := rc_meta context in
  let deadline := rc_deadline context in
  let actions := sr_actions response in
  let upstream_status := rh_status (sr_head response) in
  let declared := declared_trailer_names (rh_headers (sr_head response)) actions in
  applied ← on_cache (apply_streaming_response_actions config meta (sr_head response)
                        (rh_headers (sr_head response)) actions);
  let '(head, headers) := applied in
  _ ← check_deadline deadline;
  let head := mkRawResponseHead (client_response_version (rq_version req)) (rh_status head) (rh_reason head)
                (rh_headers head) in
  let headers := strip_hop_by_hop_headers headers in
  let http10 := is_http10 (rq_version req) in
  let body_allowed := response_can_send_content (rq_method req) (rh_status head) && negb (upstream_status =? 205) in
  let '(headers, chunked, must_close) :=
    frame_streaming body_allowed http10 upstream_status (rh_status head) declared headers in
  let connection := if must_close then ClientPersistence.Close else rc_client_connection context in
  _ ← sleep_all deadline (response_delays actions);
  _ ← (if rc_trace_id context =? 0 then mret tt
       else emit [EmittedResponse (rc_trace_id context) (rh_status head) headers []]);
  _ ← on_client (write_response_head_with_connection head headers (ClientPersistence.keep_alive connection));
  _ ← on_client flush;
  let trace_limit := trace_body_limit_for_headers config headers in
  let trace := if rc_trace_id context =? 0 then None
               else Some (mkEmitter (rc_trace_id context) BodyDirection.Response trace_limit) in
  let st := mkStreaming (StreamSummary_new trace_limit) (ThrottlePacer_new (throttle_bps actions Phase.Res)) trace
              (sr_flags response ++ [lit "response-streamed"]) in
  st ← stream_prefix body_allowed chunked upstream_status (sr_prefix response) st;
  st ← stream_body body_allowed chunked upstream_status st;
  let '(trailers, dropped) := sanitize_upstream_trailers (su_trailers (sm_summary st)) (rh_headers head) in
  let flags := sm_flags st ++ if dropped then [lit "forbidden-upstream-trailer-dropped"] else [] in
  trailers ← on_cache (apply_response_trailer_actions config meta trailers actions);
  let trailers := if negb body_allowed || http10 then [] else trailers in
  let summary := with_trailers (sm_summary st) trailers in
  ended ← end_stream chunked summary flags;
  let '(summary, flags) := ended in
  mret (mkForwardResult (rh_status head) (rc_upstream_addr context) (blen (rq_body req)) (su_bytes summary)
          headers (su_trailers summary) (su_body_head summary) []
          (if is_sse_response (rh_headers head) then Some SessionKind.Sse else None)
          (sr_matched_rules response) actions (sr_protocol response)
          (match su_error summary with Some _ => ClientPersistence.Close | None => connection end)
          flags (su_error summary)).

(** ** The buffered answer *)

Record BufferedResponse := mkBufferedResponse {
  bf_head : RawResponseHead;
  bf_body : list N;
  bf_trailers : Headers;
  bf_matched_rules : list MatchedRule;
  bf_actions : list ResolvedAction;
  bf_protocol : UpstreamProtocol.t;
}.

(** The head, the fields, the body and the trailers that are sent. *)
Definition frame_buffered (req : RawRequest) (head : RawResponseHead) (headers : Headers) (body : list N)
    (trailers : Headers) : RawResponseHead * Headers * list N * Headers :=
  let status_allows_body := status_can_send_content (rh_status head) in
  let body_allowed := response_can_send_content (rq_method req) (rh_status head) in
  let body := if status_allows_body then body else [] in
  let '(headers, trailers) :=
    if negb status_allows_body then (prepare_streaming_body_headers headers, [])
    else if eq_ignore_ascii_case (rq_method req) (lit "HEAD")
    then (remove_header (remove_header headers (lit "transfer-encoding")) (lit "trailer"), [])
    else (headers, trailers) in
  let '(head, trailers) :=
    if is_http10 (rq_version req)
    then (mkRawResponseHead (lit "HTTP/1.0") (rh_status head) (rh_reason head) (rh_headers head), [])
    else (head, trailers) in
  let headers := strip_hop_by_hop_headers headers in
  if body_allowed && is_emptyb trailers then (head, update_body_headers headers (blen body), body, trailers)
  else if body_allowed then
    let '(head, headers) := prepare_trailer_headers head headers trailers in (head, headers, body, trailers)
  else (head, headers, body, trailers).

Definition write_buffered (body_allowed keep_alive : bool) (head : RawResponseHead) (headers : Headers)
    (body : list N) (trailers : Headers) (throttle : option N) : StateR Sink IoError unit :=
  if negb body_allowed then
    _ ← write_response_head_with_connection head headers keep_alive; flush
  else if is_emptyb trailers then
    match throttle with
    | None =>
        let reason := if is_emptyb (rh_reason head) then reason_phrase (rh_status head) else rh_reason head in
        write_response_with_version_and_connection (rh_version head) (rh_status head) reason headers body keep_alive
    | Some _ =>
        _ ← write_response_head_with_connection head headers keep_alive;
        write_maybe_throttled body throttle
    end
  else write_chunked_response head headers body trailers throttle keep_alive.

Definition finish_buffered_response {B} (context : ResponseContext) (response : BufferedResponse)
    : StateR (Flow B) IoError ForwardResult :=
  let req := rc_request context in
  let config := rc_config context in
  let meta := rc_meta context in
  let actions := bf_actions response in
  let upstream_head := bf_head response in
  let is_205 := rh_status upstream_head =? 205 in
  let discarded := is_205 && negb (is_emptyb (bf_body response)) in
  let '(trailers, dropped) := sanitize_upstream_trailers (bf_trailers response) (rh_headers upstream_head) in
  let body := if is_205 then [] else bf_body response in
  let trailers := if is_205 then [] else trailers in
  applied ← on_cache (apply_response_actions config meta upstream_head (rh_headers upstream_head) body actions);
  let '(head, headers, body) := applied in
  trailers ← on_cache (apply_response_trailer_actions config meta trailers actions);
  _ ← check_deadline (rc_deadline context);
  let body_allowed := response_can_send_content (rq_method req) (rh_status head) in
  let '(head, headers, body, trailers) := frame_buffered req head headers body trailers in
  _ ← sleep_all (rc_deadline context) (response_delays actions);
  _ ← (if rc_trace_id context =? 0 then mret tt
       else emit [EmittedResponse (rc_trace_id context) (rh_status head) headers trailers]);
  _ ← on_client (write_buffered body_allowed (ClientPersistence.keep_alive (rc_client_connection context))
                   head headers body trailers (throttle_bps actions Phase.Res));
  let frames := if body_allowed && is_sse_response headers then sse_frames body else [] in
  mret (mkForwardResult (rh_status head) (rc_upstream_addr context) (blen (rq_body req))
          (if body_allowed then blen body else 0) headers trailers
          (take_N (if body_allowed then trace_body_limit_for_headers config headers else 0) body) frames
          (if is_emptyb frames then None else Some SessionKind.Sse) (bf_matched_rules response) actions
          (bf_protocol response) (rc_client_connection context)
          ((if discarded then [DISCARDED_205] else []) ++
           (if dropped then [lit "forbidden-upstream-trailer-dropped"] else [])) None).

(** ** An HTTP/1 upstream *)

Definition COALESCED_BODY_LIMIT : N := 64 * 1024.

(** A short body of known length is answered in one piece. *)
Definition fixed_body_can_coalesce (config : ProxyConfig) (req : RawRequest) (head : RawResponseHead) : bool :=
  response_has_framed_body (rq_method req) (rh_status head) &&
  negb (is_some (header (rh_headers head) (lit "trailer"))) &&
  match header (rh_headers head) (lit "content-length") ≫= fun v => ok (parse_uint USIZE_MAX v) with
  | Some length => (length <=? COALESCED_BODY_LIMIT) && (length <=? pc_body_buffer_limit config)
  | None => false
  end.
Definition should_stream (config : ProxyConfig) (req : RawRequest) (head : RawResponseHead)
    (actions : list ResolvedAction) : bool :=
  negb (response_actions_require_body actions) && negb (is_http10 (rq_version req)) &&
  negb (fixed_body_can_coalesce config req head).

(** The upstream reader of a flow. *)
Definition on_upstream {A} (m : StateR Stream IoError A) : StateR (Flow Stream) IoError A := fun f =>
  let '(s, r) := m (fl_body f) in (mkFlow s (fl_client f) (fl_cache f) (fl_clock f) (fl_events f), r).
(** A streamed answer over the reader of the flow. *)
Definition streamed {A} (st : BodyState.t) (config : ProxyConfig) (m : StateR (Flow H1BodyStream) IoError A)
    : StateR (Flow Stream) IoError A := fun f =>
  let body := mkH1BodyStream (fl_body f) st (pc_max_header_size config) (pc_max_header_count config) in
  let '(f, r) := m (mkFlow body (fl_client f) (fl_cache f) (fl_clock f) (fl_events f)) in
  (mkFlow (h1_reader (fl_body f)) (fl_client f) (fl_cache f) (fl_clock f) (fl_events f), r).

(** The end of [forward_unpooled]: an answer that is neither an upgrade nor an
    event stream. *)
Definition answer_unpooled (context : ResponseContext) (head : RawResponseHead)
    (matched : list MatchedRule) (actions : list ResolvedAction) : StateR (Flow Stream) IoError ForwardResult :=
  let config := rc_config context in
  let req := rc_request context in
  if should_stream config req head actions then
    st ← lift_result (H1BodyStream_new (rq_method req) (rh_status head) (rh_headers head));
    streamed st config
      (finish_streaming_response context
         (mkStreamingResponse head [] matched actions UpstreamProtocol.Http1 []))
  else
    body ← on_upstream (staged (lit "response_body") (read_response_body (rh_headers head)));
    _ ← check_deadline (rc_deadline context);
    finish_buffered_response context
      (mkBufferedResponse head (fst body) (snd body) matched actions UpstreamProtocol.Http1).

(** The event stream of [forward_unpooled]. *)
Definition answer_event_stream (context : ResponseContext) (head : RawResponseHead)
    (matched : list MatchedRule) (actions : list ResolvedAction) : StateR (Flow Stream) IoError ForwardResult :=
  let config := rc_config context in
  let upstream_headers := rh_headers head in
  applied ← on_cache (apply_response_actions config (rc_meta context) head upstream_headers [] actions);
  let '(head, headers, _) := applied in
  let headers := prepare_streaming_body_headers (strip_hop_by_hop_headers headers) in
  _ ← (if rc_trace_id context =? 0 then mret tt
       else emit [EmittedResponse (rc_trace_id context) (rh_status head) headers []]);
  _ ← sleep_all (rc_deadline context) (response_delays actions);
  _ ← on_client (write_response_head head headers);
  let trace_limit := trace_body_limit_for_headers config headers in
  let trace := if rc_trace_id context =? 0 then None
               else Some (mkEmitter (rc_trace_id context) BodyDirection.Response trace_limit) in
  streamed_sse ← (fun f =>
    let '((s, c), r) := stream_sse_response upstream_headers trace_limit (throttle_bps actions Phase.Res) trace
                          (fl_body f, fl_client f) in
    (mkFlow s c (fl_cache f) (fl_clock f) (fl_events f), map_err (stage_error (lit "response_body")) r))
    : StateR (Flow Stream) IoError _;
  let '(bytes, body_head, frames, events) := streamed_sse in
  _ ← emit (map EmittedBody events);
  mret (mkForwardResult (rh_status head) (rc_upstream_addr context) (blen (rq_body (rc_request context))) bytes
          headers [] body_head frames (Some SessionKind.Sse) matched actions UpstreamProtocol.Http1
          ClientPersistence.Close [lit "response-streamed"] None).

(** The response half of [forward_unpooled], for a request that is no upgrade. *)
Definition answer (context : ResponseContext) (head : RawResponseHead)
    (matched : list MatchedRule) (actions : list ResolvedAction) : StateR (Flow Stream) IoError ForwardResult :=
  if is_sse_response (rh_headers head) && can_stream_sse_response actions
  then answer_event_stream context head matched actions
  else answer_unpooled context head matched actions.

(** ** Failed forwarding (http_flow/completion.rs) *)

Definition message_starts (prefix : string) (e : IoError) : bool := starts_with (lit prefix) (io_message e).
Definition is_client_request_body_error : IoError -> bool := message_starts "stage=client_request_body:".
Definition is_pool_wait_timeout (e : IoError) : bool :=
  message_starts "upstream_h1 pool_wait: timeout after " e || message_starts "upstream_h2 pool_wait: timeout after " e.
Definition is_upstream_ttfb_timeout (e : IoError) : bool :=
  bool_decide (io_kind e = TimedOut) &&
  (message_starts "stage=ttfb: timeout after " e || message_starts "upstream_h2 ttfb: timeout after " e ||
   (message_starts "upstream_h1 pool_" e && contains (lit " ttfb: timeout after ") (io_message e))).
Definition forward_error_status (e : IoError) : N :=
  if is_client_request_body_error e then 400
  else if is_pool_wait_timeout e || message_starts "stage=dns: timeout after " e ||
          message_starts "stage=connect: timeout after " e ||
          message_starts "stage=tls_handshake: timeout after " e ||
          is_upstream_ttfb_timeout e || is_request_total_timeout e
  then 504 else 502.

(** The answer of [handle_forward_error]; a failed write is ignored. *)
Definition handle_forward_error (context : ResponseContext) (has_streaming_request : bool) (e : IoError) (w : Sink)
    : Sink * ClientPersistence.t :=
  let connection := if has_streaming_request then ClientPersistence.Close else rc_client_connection context in
  let status := forward_error_status e in
  (fst (write_response_with_version_and_connection
          (client_response_version (rq_version (rc_request context))) status (reason_phrase status)
          [(lit "Content-Type", lit "text/plain")] (encode (lit "upstream error: " ++ io_message e ++ [NL]))
          (ClientPersistence.keep_alive connection) w),
   connection).

(** The outcome of a request: what becomes of the connection to the client. *)
Definition conclude (context : ResponseContext) (has_streaming_request : bool)
    (forwarded : Flow Stream * Result IoError ForwardResult) : Sink * ClientPersistence.t :=
  match forwarded with
  | (f, Ok result) => (fl_client f, fw_client_connection result)
  | (f, Err e) => handle_forward_error context has_streaming_request e (fl_client f)
  end.
End Answer.
