(* ===== verification/FlowProofs.v ===== *)
(** * Answering the client, proofs

    The streamed answer delivers the body of the upstream response, and what the
    client decodes from it is that body. *)
From Stdlib Require Import Ascii String.
From stdpp Require Import base numbers list gmap strings.
From S2P Require Import Prelude Family Utf8 Format Io Model Url Engines TraceModel Template TemplateProofs.
From S2P Require Import Http1 Http1Proofs Http1Body Http1Write Values Deadline Relay Transforms Actions.
From S2P Require Import RelayProofs Heads ResponseBody ResponseProofs ResponseFlow.

(** ** A sample exchange

    Concrete engines, configuration, request and flows for the examples of the
    response path. *)
#[export] Instance sample_capture_engine : CaptureEngine := literal_engine.
#[export] Instance sample_files : RuleFiles := fun _ => Err (mkIoError NotFound (lit "no such file")).
(** A reader that knows no JSON. *)
#[export] Instance sample_json : JsonText := {
  json_from_str _ := Err (lit "expected value");
  json_first _ := None;
  json_to_vec _ := [];
}.
#[export] Instance sample_reasons : StatusReasons := fun status =>
  if status =? 200 then Some (lit "OK") else if status =? 502 then Some (lit "Bad Gateway") else None.

Definition sample_proxy_config : ProxyConfig := mkProxyConfig (lit "/srv") 4096 16 1000000 4 false.
Definition sample_raw_request (method : string) : RawRequest :=
  mkRawRequest (lit method) (lit "/") (lit "HTTP/1.1") [(lit "Host", lit "a")] [] [].
Definition sample_context (method : string) : ResponseContext :=
  mkResponseContext (sample_raw_request method) sample_meta sample_proxy_config 7 (lit "a:80")
    ClientPersistence.KeepAlive (mkDeadline 0 1000000000).
Definition sample_response_head (headers : Headers) : RawResponseHead :=
  mkRawResponseHead (lit "HTTP/1.1") 200 (lit "OK") headers.
Definition sample_flow {B} (body : B) : Flow B := mkFlow body (mkSink [] []) [] [] [].

Definition sample_item (action : Action.t) : ResolvedAction :=
  mkResolvedAction action (mkMatchedRule (lit "g") 1 []) Captures_default None.



(** ** Steps that leave the body and the client alone *)

Section Steps.
Context {B : Type}.
Implicit Types f : Flow B.

Definition same_io f f' : Prop := fl_body f' = fl_body f /\ fl_client f' = fl_client f.

(** [m] reads and writes nothing. *)
Definition silent {A} (m : StateR (Flow B) IoError A) : Prop :=
  forall f f' r, m f = (f', r) -> same_io f f'.
Lemma silent_ret {A} (x : A) : silent (mret x).
Proof. by intros f f' r [= <- _]. Qed.
Lemma silent_lift {A} (x : Result IoError A) : silent (lift_result x).
Proof. by intros f f' r [= <- _]. Qed.
Lemma silent_bind {A C} m (k : A -> StateR (Flow B) IoError C) :
  silent m -> (forall x, silent (k x)) -> silent (m ≫= k).
Proof.
  intros Hm Hk f f' r. unfold mbind, StateR_bind. destruct (m f) as [f1 [x|e]] eqn:E; intros H.
  - destruct (Hm _ _ _ E) as [H1 H2]. destruct (Hk _ _ _ _ H) as [H3 H4]. split; congruence.
  - injection H as <- _. by apply Hm in E.
Qed.
Lemma silent_cache {A} (m : StateR RegexCache IoError A) : silent (on_cache m).
Proof. intros f f' r. unfold on_cache. destruct (m (fl_cache f)). by intros [= <- _]. Qed.
Lemma silent_clock start : silent (clock start).
Proof. intros f f' r. unfold clock. destruct (fl_clock f); by intros [= <- _]. Qed.
Lemma silent_emit events : silent (emit events).
Proof. by intros f f' r [= <- _]. Qed.
#[local] Hint Resolve silent_ret silent_lift silent_bind silent_cache silent_clock silent_emit : core.
Lemma silent_check d : silent (check_deadline d).
Proof. unfold check_deadline. auto. Qed.
Lemma silent_sleep d delays : silent (sleep_all d delays).
Proof. induction delays; cbn [sleep_all]; auto 6. Qed.
Lemma silent_if {A} (b : bool) (m n : StateR (Flow B) IoError A) : silent m -> silent n -> silent (if b then m else n).
Proof. by destruct b. Qed.

Lemma on_client_ok {A} (m : StateR Sink IoError A) f f' x :
  on_client m f = (f', Ok x) -> fl_body f' = fl_body f /\ m (fl_client f) = (fl_client f', Ok x).
Proof. unfold on_client. destruct (m (fl_client f)) eqn:E. by intros [= <- ->]. Qed.
Lemma on_client_run {A} (m : StateR Sink IoError A) f w x :
  m (fl_client f) = (w, Ok x) ->
  on_client m f = (mkFlow (fl_body f) w (fl_cache f) (fl_clock f) (fl_events f), Ok x).
Proof. unfold on_client. by intros ->. Qed.
End Steps.
#[export] Hint Resolve silent_ret silent_lift silent_bind silent_cache silent_clock silent_emit silent_check
  silent_sleep silent_if : core.

(** ** The body loop *)

Section Piece.
Context (chunked : bool) (limit : N).

(** The summary after [seen] was sent. *)
Definition counted (st : Streaming) (seen : list N) (trailers : Headers) : Prop :=
  su_error (sm_summary st) = None /\ su_bytes (sm_summary st) = N.min U64_MAX (blen seen) /\
  su_trailers (sm_summary st) = trailers /\
  su_trace_limit (sm_summary st) = limit /\ su_body_head (sm_summary st) = take_N limit seen.

Lemma stream_piece_spec {B} (f : Flow B) st seen trailers data :
  fine (fl_client f) -> data <> [] -> counted st seen trailers ->
  exists f' st', stream_piece chunked st data f = (f', Ok st') /\ fl_body f' = fl_body f /\ fine (fl_client f') /\
    counted st' (seen ++ data) trailers /\ sm_flags st' = sm_flags st /\
    sk_written (fl_client f') = sk_written (fl_client f) ++ (if chunked then chunk_text data else data).
Proof.
  intros Hw Hd (He & Hb & Ht & Hl & Hh). unfold stream_piece. destruct (optional_observe (sm_trace st) data) as [trace events].
  set (f1 := mkFlow _ _ _ _ _).
  destruct (write_stream_data_emits data chunked (sm_throttle st) Hd (fl_client f1)) as (w' & throttle & E & Hw' & _ & Hs);
    [done|].
  rewrite (on_client_run _ _ _ _ E). eexists _, _. split; [done|]. cbn [fl_body fl_client sm_flags].
  split_and!; [done|done| |done|done].
  unfold counted, StreamSummary_observe. cbn [sm_summary su_error su_bytes su_trailers su_body_head su_trace_limit].
  split_and!; [done| |done| |].
  - rewrite Hb. unfold saturating_add. rewrite blen_app. lia.
  - done.
  - rewrite Hh, Hl. unfold saturating_sub. rewrite take_N_split. f_equal. rewrite blen_take_N. f_equal. lia.
Qed.
End Piece.

Section Loop.
Context (size count : N) (cap : N) (Hcap : cap <= size) (Hsize : size <= USIZE_MAX).
Context (chunked : bool) (upstream_status limit : N).
Local Abbreviation counted := (counted limit).

(** The stream of a flow has [body] and [trailers] left, before [rest]. *)
Definition holds (f : Flow H1BodyStream) (body : list N) (trailers : Headers) (rest : list N) : Prop :=
  exists s st, fl_body f = mkH1BodyStream s st size count /\ healthy s /\
    streams cap size count st (carried s) body trailers rest.
Definition drained (f : Flow H1BodyStream) (rest : list N) : Prop :=
  healthy (h1_reader (fl_body f)) /\ carried (h1_reader (fl_body f)) = rest.


Lemma discard_counted st data seen trailers :
  counted st seen trailers -> counted (discard_piece upstream_status st data) seen trailers.
Proof. unfold discard_piece, FlowProofs.counted. by destruct (_ && _ && _). Qed.

Lemma body_frame_step f body trailers rest :
  holds f body trailers rest ->
  exists b' frame, body_frame (fl_body f) = (b', Ok <$> frame) /\
    forall f', fl_body f' = b' ->
    match frame with
    | None => body = [] /\ trailers = [] /\ drained f' rest
    | Some (UpstreamBodyFrame.Data data) =>
        data <> [] /\ exists body', body = data ++ body' /\ holds f' body' trailers rest
    | Some (UpstreamBodyFrame.Trailers t) => t <> [] /\ body = [] /\ trailers = t /\ holds f' [] [] rest
    end.
Proof.
  intros (s & st & Eb & Hs & Hst). rewrite Eb. unfold body_frame, H1BodyStream_frames.
  cbn [h1_max_header_size h1_max_header_count h1_state h1_reader].
  destruct (next_frame_step cap size count Hcap Hsize s st body trailers rest Hs Hst) as (s' & st' & frame & -> & Hs' & Hd).
  eexists _, frame. split; [done|]. intros f' Ef. destruct frame as [[data|t]|]; cbn [delivers] in Hd.
  - destruct Hd as [Hne (body' & -> & Hst')]. split; [done|]. exists body'. split; [done|]. by exists s', st'.
  - destruct Hd as (Ht & -> & -> & -> & Hc). split_and!; [done..|]. exists s', BodyState.Done.
    split_and!; [done..|]. rewrite Hc. constructor.
  - destruct Hd as (-> & -> & -> & Hc). unfold drained. by rewrite Ef.
Qed.

Lemma stream_frames_spec body_allowed fuel f st seen trs body trailers rest :
  fine (fl_client f) -> holds f body trailers rest -> counted st seen trs -> (length body + min 1 (length trailers) < fuel)%nat ->
  exists f' st' out, stream_frames body_allowed chunked upstream_status fuel st f = (f', Ok st') /\
    drained f' rest /\ fine (fl_client f') /\ counted st' (if body_allowed then seen ++ body else seen) (trs ++ trailers) /\
    encoded chunked (if body_allowed then body else []) out /\
    sk_written (fl_client f') = sk_written (fl_client f) ++ out.
Proof.
  revert f st seen trs body trailers. induction fuel as [|fuel IH]; intros f st seen trs body trailers Hw Hh Hc Hf; [lia|].
  cbn [stream_frames]. pose proof Hc as (He & Hb & Ht & Hlim & Hhd). rewrite He.
  destruct (body_frame_step f body trailers rest Hh) as (b' & frame & -> & Hstep).
  set (f1 := mkFlow b' _ _ _ _). specialize (Hstep f1 eq_refl).
  destruct frame as [[data|t]|]; cbn [fmap option_fmap option_map].
  - destruct Hstep as [Hne (body' & -> & Hh')]. assert (length data <> 0%nat) by (by destruct data).
    rewrite length_app in Hf. destruct body_allowed.
    + destruct (stream_piece_spec chunked limit f1 st seen trs data Hw Hne Hc) as (f2 & st2 & E & Eb & Hw2 & Hc2 & _ & Hwr).
      rewrite (bind_run _ _ _ _ _ E).
      destruct (IH f2 st2 (seen ++ data) trs body' trailers) as (f3 & st3 & out & -> & Hd & Hw3 & Hc3 & Hen & Hwr3);
        [done| |done|lia|].
      { destruct Hh' as (s & b & Es & R). exists s, b. rewrite Eb. done. }
      exists f3, st3, ((if chunked then chunk_text data else data) ++ out). rewrite app_assoc.
      split_and!; [done..| |].
      * by constructor.
      * by rewrite Hwr3, Hwr, <- app_assoc.
    + by apply (IH f1 _ seen trs body' trailers); [| |apply discard_counted|lia].
  - destruct Hstep as (Hne & -> & -> & Hh'). assert (length t <> 0%nat) by (by destruct t).
    destruct (IH f1 (mkStreaming (with_trailers (sm_summary st) (su_trailers (sm_summary st) ++ t))
                (sm_throttle st) (sm_trace st) (sm_flags st)) seen (trs ++ t) [] [])
      as (f3 & st3 & out & -> & Hd & Hw3 & Hc3 & Hen & Hwr3); [done|done| |cbn [length] in *; lia|].
    { unfold FlowProofs.counted, with_trailers. cbn. rewrite Ht. done. }
    exists f3, st3, out. rewrite !app_nil_r in *. done.
  - destruct Hstep as (-> & -> & Hd). exists f1, st, []. rewrite !app_nil_r.
    split_and!; [done|done|done|by destruct body_allowed|destruct body_allowed; constructor|done].
Qed.

Lemma response_chunks_length bytes body trailers rest :
  response_chunks cap size count bytes body trailers rest -> (length body <= length bytes)%nat.
Proof.
  induction 1 as [|line n bytes data mid body trailers rest Hl Hn Hp Hd _ IH]; [cbn; lia|].
  apply response_line_shorter in Hl. rewrite !length_app in *. lia.
Qed.
Lemma streams_length st bytes body trailers rest :
  streams cap size count st bytes body trailers rest -> (length body <= length bytes)%nat.
Proof.
  destruct 1 as [| |n data rest Hn|bytes body trailers rest H|n data mid body trailers rest Hn Hp H|mid body trailers rest H|];
    try apply response_chunks_length in H; rewrite ?length_app in *; cbn [length] in *; lia.
Qed.

Lemma stream_body_spec body_allowed f st seen trs body trailers rest :
  fine (fl_client f) -> holds f body trailers rest -> counted st seen trs ->
  exists f' st' out, stream_body body_allowed chunked upstream_status st f = (f', Ok st') /\
    drained f' rest /\ fine (fl_client f') /\ counted st' (if body_allowed then seen ++ body else seen) (trs ++ trailers) /\
    encoded chunked (if body_allowed then body else []) out /\
    sk_written (fl_client f') = sk_written (fl_client f) ++ out.
Proof.
  intros Hw Hh Hc. apply stream_frames_spec; [done..|].
  destruct Hh as (s & b & -> & _ & Hst%streams_length). unfold frames_left, H1BodyStream_frames. cbn [h1_reader]. lia.
Qed.
End Loop.

(** ** What the client decodes *)

Section Client.
Context (cap size count : N) (Hcap : 18 <= cap).

Lemma response_line_written text rest :
  13 ∉ text -> valid_str text = true -> len text + 1 <= cap ->
  response_line cap (encode (text ++ crlf) ++ rest) text rest.
Proof. intros H Hv Hl. rewrite encode_app, <- app_assoc. split_and!; [by apply split_once_crlf|done|done]. Qed.

Lemma response_trailers_written seen trailers total rest :
  Forall sendable trailers -> Forall valid_field trailers -> blen seen + blen trailers <= count ->
  total + trailers_size trailers <= size -> trailers_size trailers <= cap ->
  response_trailers cap size count seen total (encode (trailer_text trailers ++ crlf) ++ rest)
    (seen ++ map received trailers) rest.
Proof.
  intros Hs. revert seen total. induction Hs as [|t trailers Ht _ IH]; intros seen total Hv Hc Hz Hl;
    cbn [trailer_text flat_map map app].
  { rewrite app_nil_r. constructor. apply (response_line_written [] rest); [set_solver|done|cbn [len]; lia]. }
  apply Forall_cons in Hv as [Hvt Hv]. destruct (sendable_line t Ht Hvt) as (Hsp & Htr & H13 & Hval & Hne).
  unfold trailers_size in Hz, Hl. cbn [map sum_N foldr] in Hz, Hl.
  change (foldr N.add 0 (map (fun t => len (field_line t) + 2) trailers)) with (trailers_size trailers) in Hz, Hl.
  fold (trailer_text trailers).
  replace (encode (((fst t ++ lit ": " ++ snd t ++ crlf) ++ trailer_text trailers) ++ crlf) ++ rest)
    with (encode (field_line t ++ crlf) ++ encode (trailer_text trailers ++ crlf) ++ rest)
    by (unfold field_line; rewrite !encode_app, <- !app_assoc; done).
  rewrite (cons_middle (received t) seen), (app_assoc seen).
  replace (received t) with (trim (fst t), trim (32 :: snd t)) by (by rewrite Htr, trim_space).
  autorewrite with blen in Hc.
  eapply response_trailers_more; [apply response_line_written; [done|done|lia]|done|done| |lia|lia|].
  - rewrite Htr. apply Ht.
  - apply IH; [done| |lia|lia]. autorewrite with blen. lia.
Qed.

Lemma response_encoded body out trailers rest :
  encoded true body out -> blen body <= USIZE_MAX ->
  Forall sendable trailers -> Forall valid_field trailers -> blen trailers <= count ->
  trailers_size trailers <= size -> trailers_size trailers <= cap ->
  response_chunks cap size count (out ++ chunk_end trailers ++ rest) body (map received trailers) rest.
Proof.
  intros He Hb Hs Hv Hc Hz Hl. induction He as [|data body out Hd He IH].
  - cbn [app]. unfold chunk_end.
    replace (encode (lit "0" ++ crlf ++ trailer_text trailers ++ crlf) ++ rest)
      with (encode (lit "0" ++ crlf) ++ encode (trailer_text trailers ++ crlf) ++ rest)
      by (rewrite !encode_app, <- !app_assoc; done).
    eapply response_last; [apply response_line_written; [vm_compute; set_solver|done|vm_compute len; lia]|by vm_compute|].
    apply (response_trailers_written [] trailers 0 rest); [done|done|rewrite blen_nil; lia|lia|done].
  - autorewrite with blen in Hb. unfold chunk_text. rewrite <- !app_assoc.
    assert (Ha : Forall (fun c => c < 128) (show_HEX (blen data))).
    { apply Forall_forall. intros c H. by destruct (show_HEX_clean _ _ H) as (? & ? & ? & ?). }
    eapply response_chunk; [apply response_line_written|apply chunk_size_show_HEX; lia| |done|apply IH; lia].
    + intros (_ & H & _)%show_HEX_clean. done.
    + by apply valid_ascii.
    + rewrite len_ascii by done. assert (Hl64 : blen data <= U64_MAX) by (unfold USIZE_MAX in Hb; lia).
      pose proof (show_HEX_length (blen data) Hl64). lia.
    + destruct data; [done|]. rewrite blen_cons. lia.
Qed.
End Client.

(** ** Header blocks *)

Lemma header_block_loop_ok limit bytes headers :
  bytes <= limit ->
  header_block_loop limit bytes headers = Ok tt ->
  Forall sendable headers /\ bytes + trailers_size headers <= limit.
Proof.
  revert bytes. induction headers as [|[n v] headers IH]; intros bytes Hb H; cbn [header_block_loop] in H.
  { split; [constructor|]. cbn. lia. }
  destruct (is_emptyb n || _) eqn:En; [done|]. apply orb_false_iff in En as [Hne Hn].
  destruct (negb (forallb is_http_field_value_byte (encode v))) eqn:Ev; [done|].
  apply negb_false_iff in Hn, Ev. cbv zeta in H.
  assert (Hb' : bytes + len n + len v + 4 <= limit /\ header_block_loop limit (bytes + len n + len v + 4) headers = Ok tt).
  { unfold checked_add in H. bind_in H; bool_to_prop. 
    do 3 (match type of E with context [?a <=? USIZE_MAX] => destruct (a <=? USIZE_MAX) end; [|done]).
    by injection E as <-.  }
  destruct Hb' as [Hb' H']. destruct (IH _ Hb' H') as [Hs Hz]. split.
  - constructor; [|done]. split_and!; [by destruct n|done|done].
  - unfold trailers_size in *. cbn [map sum_N foldr]. unfold sum_N in Hz.
    unfold field_line at 1. cbn [fst snd]. rewrite !len_app. change (len (lit ": ")) with 2. lia.
Qed.
Lemma validate_header_block_ok headers config :
  validate_header_block headers config = Ok tt ->
  Forall sendable headers /\ blen headers <= pc_max_header_count config /\
  trailers_size headers <= rule_header_limit config.
Proof.
  unfold validate_header_block. destruct (N.ltb_spec (pc_max_header_count config) (blen headers)); [done|].
  intros Hb. apply header_block_loop_ok in Hb as [Hs Hz]; [|lia]. done.
Qed.

(** ** Framing of a streamed answer *)

Lemma strip_hop_by_hop_te headers : header (strip_hop_by_hop_headers headers) TE = None.
Proof. apply fold_remove_none. vm_compute. set_solver. Qed.

(** The answer is chunked exactly when its fields say so. *)
Lemma frame_streaming_te body_allowed http10 us status declared headers headers' chunked must_close :
  header headers TE = None ->
  frame_streaming body_allowed http10 us status declared headers = (headers', chunked, must_close) ->
  header headers' TE = if chunked then Some (lit "chunked") else None.
Proof.
  intros Hte. unfold frame_streaming. fold TE CL. set (h := if (us =? 205) && _ then _ else headers).
  assert (Hh : header h TE = None).
  { unfold h. destruct (_ && _); [|done]. rewrite header_set by (by vm_compute).
    change (eq_ignore_ascii_case (lit "Content-Length") TE) with false. cbn [andb].
    rewrite header_remove_other by (by vm_compute). apply header_none, remove_header_none. }
  clearbody h. destruct (_ && _ && _); [|by intros [= <- <- <-]].
  destruct (is_emptyb declared); intros [= <- <- <-]; rewrite !header_set by (by vm_compute); done.
Qed.

Lemma write_head_ok `{StatusReasons} head headers keep_alive w w' :
  fine w -> write_response_head_with_connection head headers keep_alive w = (w', Ok tt) ->
  fine w' /\ exists reason length,
    validate_response_parts (rh_version head) (rh_status head) reason headers = Ok tt /\
    validate_streaming_framing headers = Ok length /\
    sk_written w' = sk_written w ++
      encode (streaming_response_head (rh_version head) (rh_status head) reason headers length keep_alive).
Proof.
  intros Hw E. unfold write_response_head_with_connection in E. cbv zeta in E.
  set (reason := if is_emptyb (rh_reason head) then _ else _) in *.
  apply bind_ok in E as (w1 & [] & E1 & E). injection E1 as <- Ev.
  apply bind_ok in E as (w2 & length & E2 & E). injection E2 as <- Ef.
  destruct (emits_write (encode (streaming_response_head (rh_version head) (rh_status head) reason headers length keep_alive))
              w Hw) as (w3 & [] & E3 & Hw3 & _ & Hs). rewrite E in E3. injection E3 as <-.
  split; [done|]. by exists reason, length.
Qed.

Lemma validate_trailer_block_ok config trailers :
  validate_trailer_block config trailers = Ok tt ->
  Forall sendable trailers /\ blen trailers <= pc_max_header_count config /\
  trailers_size trailers <= rule_header_limit config.
Proof.
  unfold validate_trailer_block. intros H. destruct (validate_header_block trailers config) as [[]|] eqn:E; [|done].
  by apply validate_header_block_ok in E.
Qed.

(** Peel a step that reads and writes nothing. *)
Ltac quiet H :=
  let f := fresh "f" in let x := fresh "x" in let E := fresh "E" in let Hio := fresh "Hio" in
  apply bind_ok in H as (f & x & E & H);
  lazymatch type of E with
  | ?m ?g = _ => assert (Hio : same_io g f) by (assert (Hsi : silent m) by auto 7; by apply (Hsi _ _ _ E)); destruct Hio as [? ?]
  end.

Section Delivery.
Context {PE : PatternEngines} {CE : CaptureEngine} {RF : RuleFiles} {JT : JsonText} {SR : StatusReasons}.

Lemma trailer_actions_ok config meta trailers actions cache cache' trailers' :
  apply_response_trailer_actions config meta trailers actions cache = (cache', Ok trailers') ->
  validate_trailer_block config trailers' = Ok tt.
Proof.
  unfold apply_response_trailer_actions. intros H.
  apply bind_ok in H as (c1 & t & _ & H). apply bind_ok in H as (c2 & [] & E & H).
  injection E as _ E. by injection H as _ <-.
Qed.

Lemma on_cache_ok {B A} (m : StateR RegexCache IoError A) (f f' : Flow B) x :
  on_cache m f = (f', Ok x) -> exists c, m (fl_cache f) = (c, Ok x).
Proof. unfold on_cache. destruct (m (fl_cache f)) as [c r]. intros [= _ ->]. eauto. Qed.

Lemma stream_prefix_spec {B} limit chunked us body_allowed prefix (f : Flow B) st :
  fine (fl_client f) -> counted limit st [] [] -> (us = 205 -> body_allowed = false) ->
  exists f' st' out, stream_prefix body_allowed chunked us prefix st f = (f', Ok st') /\ fl_body f' = fl_body f /\
    fine (fl_client f') /\ counted limit st' (if body_allowed then prefix else []) [] /\
    encoded chunked (if body_allowed then prefix else []) out /\
    sk_written (fl_client f') = sk_written (fl_client f) ++ out.
Proof.
  intros Hw Hc H205. unfold stream_prefix.
  assert (Hnil : body_allowed = false \/ prefix = [] -> forall st', counted limit st' [] [] ->
    exists f' st'' out, (mret st' : StateR (Flow B) IoError Streaming) f = (f', Ok st'') /\ fl_body f' = fl_body f /\ fine (fl_client f') /\
      counted limit st'' (if body_allowed then prefix else []) [] /\ encoded chunked (if body_allowed then prefix else []) out /\
      sk_written (fl_client f') = sk_written (fl_client f) ++ out).
  { intros Hor st' Hst. exists f, st', []. rewrite app_nil_r.
    destruct Hor as [-> | ->]; [|destruct body_allowed]; split_and!; try done; constructor. }
  destruct ((us =? 205) && negb (is_emptyb prefix)) eqn:E1.
  { apply andb_true_iff in E1 as [E1 _]. apply N.eqb_eq in E1. apply Hnil; [left; auto|]. exact Hc. }
  destruct (body_allowed && negb (is_emptyb prefix)) eqn:E2.
  - apply andb_true_iff in E2 as [-> E2]. assert (Hne : prefix <> []) by (by destruct prefix).
    destruct (stream_piece_spec chunked limit f st [] [] prefix Hw Hne Hc) as (f' & st' & -> & Eb & Hw' & Hc' & _ & Hs).
    eexists f', st', _. split_and!; [done|done|done|done| |exact Hs].
    rewrite <- (app_nil_r prefix) at 1. rewrite <- (app_nil_r (if chunked then _ else _)). constructor; [done|constructor].
  - apply Hnil; [|done]. apply andb_false_iff in E2 as [->|E2]; [by left|right]. by destruct prefix.
Qed.

(** The end of a body that has not failed. *)
Lemma end_stream_spec {B} chunked summary flags (f : Flow B) :
  fine (fl_client f) -> su_error summary = None ->
  exists f', end_stream chunked summary flags f = (f', Ok (summary, flags)) /\ fl_body f' = fl_body f /\
    sk_written (fl_client f') = sk_written (fl_client f) ++ (if chunked then chunk_end (su_trailers summary) else []).
Proof.
  intros Hw He. unfold end_stream. rewrite He.
  destruct (finish_stream_body_emits chunked (su_trailers summary) (fl_client f) Hw) as (w' & [] & E & _ & _ & Hs).
  rewrite (on_client_run _ _ _ _ E). by eexists.
Qed.

Definition sent_body (context : ResponseContext) (response : StreamingResponse) (status : N) (body : list N) : list N :=
  if response_can_send_content (rq_method (rc_request context)) status && negb (rh_status (sr_head response) =? 205)
  then sr_prefix response ++ body else [].

(** What was written after the head, for the fields of the answer. *)
Definition payload_of (config : ProxyConfig) (r : ForwardResult) (sent payload : list N) : Prop :=
  if is_some (header (fw_res_headers r) TE)
  then forall cap more, 18 <= cap -> rule_header_limit config <= cap ->
         response_chunks cap (pc_max_header_size config) (pc_max_header_count config) (payload ++ more) sent
           (map received (fw_res_trailers r)) more
  else payload = sent.

Lemma payload_chunked config r sent out trailers :
  fw_res_trailers r = trailers -> Forall valid_field trailers -> blen sent <= USIZE_MAX ->
  (trailers = [] \/ validate_trailer_block config trailers = Ok tt) -> encoded true sent out ->
  header (fw_res_headers r) TE = Some (lit "chunked") ->
  payload_of config r sent (out ++ chunk_end trailers).
Proof.
  intros Ht Hv Hl Hor He Hte. unfold payload_of. rewrite Hte, Ht. cbn [is_some]. intros cap more Hcap Hlim.
  assert (H : Forall sendable trailers /\ blen trailers <= pc_max_header_count config /\
              trailers_size trailers <= rule_header_limit config).
  { destruct Hor as [->|H]; [|by apply validate_trailer_block_ok].
    split_and!; [constructor|rewrite blen_nil; lia|cbn; lia]. }
  destruct H as (Hs & Hc & Hz). rewrite <- app_assoc.
  apply response_encoded; try done; [|lia]. unfold rule_header_limit in Hz. lia.
Qed.

(** The body part: prefix, frames, trailers and the end. *)
Lemma body_part_spec limit cap config (f : Flow H1BodyStream) st0 body_allowed chunked us prefix body trailers rest f1 st1 f2 st2 :
  cap <= pc_max_header_size config -> pc_max_header_size config <= USIZE_MAX ->
  fine (fl_client f) -> holds (pc_max_header_size config) (pc_max_header_count config) cap f body trailers rest ->
  counted limit st0 [] [] -> (us = 205 -> body_allowed = false) ->
  stream_prefix body_allowed chunked us prefix st0 f = (f1, Ok st1) ->
  stream_body body_allowed chunked us st1 f1 = (f2, Ok st2) ->
  let sent := if body_allowed then prefix ++ body else [] in
  exists out, encoded chunked sent out /\ drained f2 rest /\ fine (fl_client f2) /\ counted limit st2 sent trailers /\
    sk_written (fl_client f2) = sk_written (fl_client f) ++ out.
Proof.
  intros Hcap Hsz Hw Hh Hc H205 E1 E2 sent.
  destruct (stream_prefix_spec limit chunked us body_allowed prefix f st0 Hw Hc H205)
    as (g1 & t1 & out1 & F1 & Eb & Hw1 & Hc1 & He1 & Hs1). rewrite E1 in F1. injection F1 as <- <-.
  destruct (stream_body_spec _ (pc_max_header_count config) cap Hcap Hsz chunked us limit body_allowed f1 st1
              (if body_allowed then prefix else []) [] body trailers rest Hw1)
    as (g2 & t2 & out2 & F2 & Hd & Hw2 & Hc2 & He2 & Hs2).
  { destruct Hh as (s & b & Es & R). exists s, b. by rewrite Eb. }
  { exact Hc1. }
  rewrite E2 in F2. injection F2 as <- <-. exists (out1 ++ out2). split_and!; [|done|done| |].
  - unfold sent. destruct body_allowed; [by apply encoded_app|]. inversion He1; subst; [|by destruct data].
    inversion He2; subst; [constructor|by destruct data].
  - unfold sent. by destruct body_allowed.
  - by rewrite Hs2, Hs1, app_assoc.
Qed.

(** The fields a fresh answer starts from count nothing. *)
Lemma counted_new limit throttle trace flags :
  counted limit (mkStreaming (StreamSummary_new limit) throttle trace flags) [] [].
Proof. split_and!; try done. Qed.

(** The whole of [finish_streaming_response], for a run that succeeds. *)
Lemma finish_streaming_spec cap context response f f' r body trailers rest :
  let config := rc_config context in
  cap <= pc_max_header_size config -> pc_max_header_size config <= USIZE_MAX ->
  fine (fl_client f) -> holds (pc_max_header_size config) (pc_max_header_count config) cap f body trailers rest ->
  blen (sr_prefix response ++ body) <= USIZE_MAX ->
  finish_streaming_response context response f = (f', Ok r) -> Forall valid_field (fw_res_trailers r) ->
  let sent := sent_body context response (fw_status r) body in
  fw_error r = None /\ drained f' rest /\ fw_response_bytes r = N.min U64_MAX (blen sent) /\
  fw_body_head r = take_N (trace_body_limit_for_headers config (fw_res_headers r)) sent /\
  exists reason length payload,
    let version := client_response_version (rq_version (rc_request context)) in
    let fields := streaming_fields (fw_status r) (fw_res_headers r) length
                    (ClientPersistence.keep_alive (fw_client_connection r)) in
    sk_written (fl_client f') = sk_written (fl_client f) ++
      head_bytes (status_line version (fw_status r) reason) fields ++ payload /\
    validate_streaming_framing (fw_res_headers r) = Ok length /\
    (valid_str reason = true -> Forall valid_field (fw_res_headers r) -> head_reads version (fw_status r) reason fields) /\
    payload_of config r sent payload.
Proof.
  intros config Hcap Hsz Hw Hh Hlen H Hv sent. unfold finish_streaming_response in H. cbv zeta in H.
  quiet H. destruct x as [head headers]. quiet H.
  set (allowed := response_can_send_content _ _ && _) in H.
  destruct (frame_streaming allowed _ _ _ _ _) as [[headers' chunked] must_close] eqn:Ef.
  quiet H. quiet H.
  apply bind_ok in H as (g1 & [] & Ew & H). apply on_client_ok in Ew as [Eb1 Ew].
  assert (Hwq : fine (fl_client f3)) by congruence.
  destruct (write_head_ok _ _ _ _ _ Hwq Ew) as (Hw1 & reason & length & Hval & Hfr & Hs1).
  apply bind_ok in H as (g2 & [] & Ef2 & H). apply on_client_ok in Ef2 as [Eb2 Ef2].
  destruct (emits_flush (fl_client g1) Hw1) as (w & [] & Ew2 & Hw2 & _ & Hs2). rewrite Ef2 in Ew2. injection Ew2 as <-.
  apply bind_ok in H as (g3 & st1 & E3 & H). apply bind_ok in H as (g4 & st2 & E4 & H).
  assert (Hh' : holds (pc_max_header_size config) (pc_max_header_count config) cap g2 body trailers rest).
  { destruct Hh as (s & b & Es & R). exists s, b. split; [congruence|exact R]. }
  assert (H205 : rh_status (sr_head response) = 205 -> allowed = false) by (unfold allowed; intros ->; apply andb_false_r).
  destruct (body_part_spec _ cap config g2 _ allowed chunked _ _ body trailers rest _ _ _ _ Hcap Hsz Hw2 Hh'
              (counted_new _ _ _ _) H205 E3 E4) as (out & He & Hd & Hw4 & (Herr & Hby & _ & _ & Hhd) & Hs4).
  destruct (sanitize_upstream_trailers _ _) as [ts dropped]. quiet H. rename x2 into ts'.
  apply on_cache_ok in E5 as (c & Et%trailer_actions_ok).
  set (final := if negb allowed || _ then [] else ts') in H.
  destruct (end_stream_spec chunked (with_trailers (sm_summary st2) final)
              (sm_flags st2 ++ if dropped then [lit "forbidden-upstream-trailer-dropped"] else []) f4)
    as (g5 & E6 & Eb5 & Hs5); [congruence|done|].
  rewrite (bind_run _ _ _ _ _ E6) in H. injection H as <- <-.
  cbn [fw_status fw_res_headers fw_res_trailers fw_error fw_response_bytes fw_body_head fw_client_connection
       su_error su_bytes su_trailers su_body_head with_trailers rh_status rh_version] in Hv |- *. cbv zeta.
  rewrite Herr. split_and!; [done| |done|done|].
  - unfold drained in *. congruence.
  - exists reason, length, (out ++ if chunked then chunk_end final else []). split.
    + cbn [su_trailers with_trailers] in Hs5. rewrite Hs5, <- streaming_head_bytes. replace (fl_client f4) with (fl_client g4) by done.
      rewrite Hs4, Hs2, Hs1, app_nil_r. replace (fl_client f3) with (fl_client f) by congruence. by rewrite <- !app_assoc.
    + split_and!; [done|by intros; apply streaming_head_reads|]. apply frame_streaming_te in Ef; [|apply strip_hop_by_hop_te]. destruct chunked.
      * apply payload_chunked; [done|done| | |done|done].
        { unfold sent, sent_body. destruct (_ && _); [done|rewrite blen_nil; lia]. }
        { unfold final. destruct (negb allowed || _); [by left|by right]. }
      * unfold payload_of. cbn [fw_res_headers]. rewrite Ef, app_nil_r. by apply encoded_plain in He.
Qed.
End Delivery.

(** ** Properties *)

(** C9: A streamed answer delivers the upstream body: when the stream of an
    HTTP/1 response carries a well-formed body and the client accepts writes, the
    client receives one response head, from which a reader gets back the status,
    the reason and the fields of the result, followed by exactly the prefix and the
    body (nothing when the method or status forbids content), plain or as chunks
    that decode to it together with the trailers of the result; every body byte
    is consumed from upstream and nothing behind it, and the byte count and the
    captured head of the result are those of the body. *)
Theorem streamed_answer_delivers_body
    {PE : PatternEngines} {CE : CaptureEngine} {RF : RuleFiles} {JT : JsonText} {SR : StatusReasons}
    cap context response f f' r body trailers rest :
  let config := rc_config context in
  cap <= pc_max_header_size config -> pc_max_header_size config <= USIZE_MAX ->
  fine (fl_client f) -> holds (pc_max_header_size config) (pc_max_header_count config) cap f body trailers rest ->
  blen (sr_prefix response ++ body) <= USIZE_MAX ->
  finish_streaming_response context response f = (f', Ok r) -> Forall valid_field (fw_res_trailers r) ->
  let sent := sent_body context response (fw_status r) body in
  fw_error r = None /\ drained f' rest /\ fw_response_bytes r = N.min U64_MAX (blen sent) /\
  fw_body_head r = take_N (trace_body_limit_for_headers config (fw_res_headers r)) sent /\
  exists reason length payload,
    let version := client_response_version (rq_version (rc_request context)) in
    let fields := streaming_fields (fw_status r) (fw_res_headers r) length
                    (ClientPersistence.keep_alive (fw_client_connection r)) in
    sk_written (fl_client f') = sk_written (fl_client f) ++
      head_bytes (status_line version (fw_status r) reason) fields ++ payload /\
    validate_streaming_framing (fw_res_headers r) = Ok length /\
    (valid_str reason = true -> Forall valid_field (fw_res_headers r) -> head_reads version (fw_status r) reason fields) /\
    payload_of config r sent payload.
Proof. apply finish_streaming_spec. Qed.

Definition sample_stream_flow : Flow H1BodyStream :=
  sample_flow (mkH1BodyStream sample_chunks_stream BodyState.ChunkSize 4096 16).
Lemma sample_stream_holds :
  holds 4096 16 100 sample_stream_flow (lit "abc0123456789") [(lit "Digest", lit "z")] (lit "next").
Proof.
  exists sample_chunks_stream, BodyState.ChunkSize. split_and!; [done|exact sample_chunks_healthy|]. constructor.
  eapply (response_chunk _ _ _ (lit "3;x=1") 3 _ (lit "abc")); [by vm_compute|done..|].
  eapply (response_chunk _ _ _ (lit "A") 10 _ (lit "0123456789") _ []); [by vm_compute|done..|].
  eapply (response_last _ _ _ (lit "0")); [by vm_compute|done|].
  eapply (response_trailers_more _ _ _ _ _ _ (lit "Digest: z")); [by vm_compute|done|done|done|done|done|].
  constructor. by vm_compute.
Qed.
Definition sample_stream_response : StreamingResponse :=
  mkStreamingResponse
    (sample_response_head [(lit "Transfer-Encoding", lit "chunked"); (lit "Trailer", lit "Digest")])
    [] [] [] UpstreamProtocol.Http1 [].
Lemma sample_stream_run :
  exists f' r, finish_streaming_response (sample_context "GET") sample_stream_response sample_stream_flow = (f', Ok r) /\
    fw_status r = 200 /\ Forall valid_field (fw_res_trailers r).
Proof. eexists _, _. split; [by vm_compute|]. split; [done|by repeat constructor]. Qed.
Lemma streamed_answer_delivers_body_witness :
  exists f' r payload,
    finish_streaming_response (sample_context "GET") sample_stream_response sample_stream_flow = (f', Ok r) /\
    drained f' (lit "next") /\ fw_error r = None /\ payload_of sample_proxy_config r (lit "abc0123456789") payload.
Proof.
  destruct sample_stream_run as (f' & r & E & Hs & Hv).
  destruct (streamed_answer_delivers_body 100 (sample_context "GET") sample_stream_response sample_stream_flow f' r
              (lit "abc0123456789") [(lit "Digest", lit "z")] (lit "next")) as (He & Hd & _ & _ & reason & length & payload & _ & _ & _ & Hp);
    [by vm_compute|by vm_compute|by constructor|exact sample_stream_holds|by vm_compute|exact E|exact Hv|].
  exists f', r, payload. split; [exact E|]. split; [exact Hd|]. split; [exact He|].
  revert Hp. rewrite Hs. exact (fun H => H).
Defined.
