(* ===== verification/BufferedProofs.v ===== *)
(** * The buffered answer, proofs

    A buffered answer reaches the client with the length of its body, or as
    chunks when it has trailers. *)
From Stdlib Require Import Ascii String.
From stdpp Require Import base numbers list gmap strings.
From S2P Require Import Prelude Family Utf8 Format Io Model Url Engines TraceModel Template Http1 Http1Proofs.
From S2P Require Import Http1Body Http1Write Values Deadline Relay Transforms Actions RelayProofs Heads.
From S2P Require Import ResponseBody ResponseProofs ResponseFlow FlowProofs.

(** ** Declared lengths *)

Lemma streaming_lengths_start values m r : streaming_lengths (Some m) values = Ok r -> r = Some m.
Proof.
  revert m. induction values as [|v values IH]; intros m H; cbn [streaming_lengths] in H; [by injection H as <-|].
  destruct (_ || _); [done|]. destruct (map_err _ _) as [p|]; [|done]. cbn [mbind result_bind] in H.
  destruct (N.eqb_spec m p) as [->|]; [|done]. by apply IH.
Qed.
Lemma streaming_lengths_elem acc values n m :
  n <= U64_MAX -> show_N n ∈ values -> streaming_lengths acc values = Ok m -> m = Some n.
Proof.
  intros Hn. revert acc. induction values as [|v values IH]; intros acc Hin H; [by apply not_elem_of_nil in Hin|].
  cbn [streaming_lengths] in H. destruct (_ || _); [done|].
  apply elem_of_cons in Hin as [<-|Hin].
  - rewrite parse_uint_show_N in H by done. cbn [map_err mbind result_bind] in H.
    destruct (match acc with Some _ => _ | None => _ end); [done|]. by eapply streaming_lengths_start.
  - destruct (map_err _ _) as [p|]; [|done]. cbn [mbind result_bind] in H.
    destruct (match acc with Some _ => _ | None => _ end); [done|]. by eapply IH.
Qed.

(** A length that is set is among the values of the field. *)
Lemma set_header_values name value headers :
  eq_ignore_ascii_case (canonical_header_name name) name = true ->
  exists a b, field_values name (set_header headers name value) = a ++ map trim (split_char (ch ",") value) ++ b.
Proof.
  intros Hcan. unfold set_header. destruct (replace_first name value headers) as [h|] eqn:Eh.
  - destruct (replace_first_Some _ _ _ _ Eh) as (a & n & v & b & -> & -> & Hn & Ha).
    exists (field_values name a), (field_values name b). rewrite field_values_app. f_equal.
    unfold field_values. cbn [flat_map]. by rewrite Hn, map_app.
  - exists (field_values name headers), []. rewrite field_values_app. f_equal. unfold field_values. cbn [flat_map].
    by rewrite Hcan, !app_nil_r.
Qed.
Lemma update_body_headers_length headers n m :
  n <= U64_MAX -> validate_streaming_framing (update_body_headers headers n) = Ok m -> m = Some n.
Proof.
  intros Hn H. unfold validate_streaming_framing in H.
  destruct (streaming_lengths None _) as [l|] eqn:El; [|done]. cbn [mbind result_bind] in H.
  destruct (is_some l && _); [done|]. injection H as <-. eapply streaming_lengths_elem; [done| |exact El].
  unfold update_body_headers.
  rewrite <- (field_values_case _ (lit "Content-Length") (lit "content-length")) by (by vm_compute).
  destruct (set_header_values (lit "Content-Length") (show_N n)
              (remove_header (remove_header headers (lit "transfer-encoding")) (lit "trailer"))) as (a & b & ->); [by vm_compute|].
  rewrite show_N_field. set_solver.
Qed.

(** ** The fields of a complete answer *)

(** What tells a reader that [n] bytes follow. *)
Definition framed_by_length (fields : Headers) (n : N) : Prop :=
  field_values CL fields = [show_N n] /\ header fields TE = None.

Lemma filter_without name f (headers : Headers) :
  (forall h, eq_ignore_ascii_case (fst h) name = true -> f h = false) ->
  Forall (fun h => eq_ignore_ascii_case (fst h) name = false) (List.filter f headers).
Proof.
  intros H. apply Forall_forall. intros h Hh. apply list_elem_of_In, filter_In in Hh as [_ Hf].
  apply not_true_iff_false. intros E. by rewrite (H _ E) in Hf.
Qed.
Lemma field_values_length n : field_values CL [(lit "Content-Length", show_N n)] = [show_N n].
Proof.
  unfold field_values. cbn [flat_map]. change (eq_ignore_ascii_case (lit "Content-Length") CL) with true. cbv iota.
  by rewrite app_nil_r, show_N_field.
Qed.
Lemma framed_tail kept n keep_alive :
  Forall (fun h => eq_ignore_ascii_case (fst h) CL = false) kept -> header kept TE = None ->
  framed_by_length (kept ++ [(lit "Content-Length", show_N n)] ++ [connection_field keep_alive]) n.
Proof.
  intros Hc Ht. split.
  - rewrite !field_values_app, field_values_nil, field_values_length by done. by destruct keep_alive.
  - rewrite header_app, Ht. by destruct keep_alive.
Qed.
Lemma managed_name (h : str * str) name :
  existsb (fun managed => eq_ignore_ascii_case name managed)
    [lit "connection"; lit "content-length"; lit "keep-alive"; lit "proxy-connection"; lit "te";
     lit "trailer"; lit "transfer-encoding"; lit "upgrade"] = true ->
  eq_ignore_ascii_case (fst h) name = true -> negb (is_complete_response_managed_header (fst h : str)) = false.
Proof.
  intros H E. apply negb_false_iff. unfold is_complete_response_managed_header.
  apply existsb_exists in H as (m & Hm & Hn). apply existsb_exists. exists m. split; [done|].
  rewrite eq_ignore_ascii_case_spec in *. congruence.
Qed.
Lemma complete_fields_framed status headers n keep_alive :
  status_can_send_content status = true -> framed_by_length (complete_fields status headers n keep_alive) n.
Proof.
  intros Hs. unfold complete_fields. rewrite Hs. apply framed_tail; [|apply header_none];
    apply filter_without; intros h E; (eapply managed_name; [|exact E]; by vm_compute).
Qed.
Lemma streaming_fields_framed status headers n keep_alive :
  status_can_send_content status = true -> header headers TE = None ->
  framed_by_length (streaming_fields status headers (Some n) keep_alive) n.
Proof.
  intros Hs Ht. unfold streaming_fields. rewrite Hs. cbn [negb andb]. apply framed_tail.
  - apply filter_without. intros h E. apply negb_false_iff. unfold CL in E. rewrite E, orb_true_r. done.
  - apply header_none. apply header_none in Ht. by apply Forall_list_filter.
Qed.

(** ** Framing and writing *)

Lemma allowed_status method status : response_can_send_content method status = true -> status_can_send_content status = true.
Proof. unfold response_can_send_content. rewrite !andb_true_iff. tauto. Qed.
Lemma allowed_method method status :
  response_can_send_content method status = true -> eq_ignore_ascii_case method (lit "HEAD") = false.
Proof. unfold response_can_send_content. rewrite !andb_true_iff, !negb_true_iff. tauto. Qed.

Definition chunked_fields (headers trailers : Headers) : Headers :=
  set_header (set_header (remove_header (remove_header headers (lit "content-length")) (lit "transfer-encoding"))
                (lit "Transfer-Encoding") (lit "chunked"))
    (lit "Trailer") (trailer_names trailers).

Lemma frame_buffered_spec req head headers body trailers head' headers' body' trailers' :
  frame_buffered req head headers body trailers = (head', headers', body', trailers') ->
  let allowed := response_can_send_content (rq_method req) (rh_status head) in
  rh_status head' = rh_status head /\ (trailers' = [] \/ trailers' = trailers) /\
  (allowed = true -> body' = body /\ exists h,
     headers' = if is_emptyb trailers' then update_body_headers h (blen body) else chunked_fields h trailers').
Proof.
  intros H allowed. unfold frame_buffered in H. fold allowed in H.
  destruct (if negb (status_can_send_content (rh_status head)) then _ else _) as [h1 t1] eqn:E1.
  destruct (if is_http10 (rq_version req) then _ else _) as [head1 t2] eqn:E2.
  assert (Ht1 : t1 = [] \/ t1 = trailers).
  { destruct (negb (status_can_send_content _)); [injection E1 as _ <-; by left|].
    destruct (eq_ignore_ascii_case _ _); injection E1 as _ <-; [by left|by right]. }
  assert (Ht2 : t2 = [] \/ t2 = trailers).
  { destruct (is_http10 _); injection E2 as _ <-; [by left|done]. }
  assert (Hh : rh_status head1 = rh_status head) by (destruct (is_http10 _); by injection E2 as <- _).
  destruct allowed eqn:Ea; unfold allowed in Ea.
  - rewrite (allowed_status _ _ Ea) in H. cbn [andb] in H. destruct (is_emptyb t2) eqn:Et.
    + injection H as <- <- <- <-. split_and!; [done..|]. intros _. split; [done|].
      exists (strip_hop_by_hop_headers h1). by rewrite Et.
    + cbn in H. injection H as <- <- <- <-. split_and!; [done..|]. intros _. split; [done|].
      exists (strip_hop_by_hop_headers h1). by rewrite Et.
  - cbn [andb] in H. injection H as <- <- <- <-. by split_and!.
Qed.

Lemma header_filter_keep f headers name :
  (forall h, eq_ignore_ascii_case (fst h) name = true -> f h = true) -> header (List.filter f headers) name = header headers name.
Proof.
  intros Hf. unfold header. induction headers as [|h headers IH]; [done|]. cbn [List.filter List.find].
  destruct (eq_ignore_ascii_case (fst h) name) eqn:E.
  - rewrite (Hf h E). cbn [List.find]. by rewrite E.
  - destruct (f h); cbn [List.find]; rewrite ?E; exact IH.
Qed.

Lemma chunked_fields_te headers trailers : header (chunked_fields headers trailers) TE = Some (lit "chunked").
Proof. unfold chunked_fields. by rewrite !header_set by (by vm_compute). Qed.
Lemma chunked_fields_framing headers trailers length :
  validate_streaming_framing (chunked_fields headers trailers) = Ok length -> length = None.
Proof.
  unfold validate_streaming_framing. unfold chunked_fields.
  rewrite field_values_set_other, field_values_set_other, field_values_remove_other, field_values_nil;
    [by intros [= <-]|apply remove_header_none|by vm_compute..].
Qed.
Lemma streaming_fields_chunked status headers trailers keep_alive :
  status_can_send_content status = true ->
  header (streaming_fields status (chunked_fields headers trailers) None keep_alive) TE = Some (lit "chunked").
Proof.
  intros Hs. unfold streaming_fields. rewrite Hs, header_app. cbn [negb andb]. rewrite header_filter_keep, chunked_fields_te; [done|].
  intros h E. rewrite orb_false_r. apply negb_true_iff. rewrite orb_false_iff.
  split; apply not_true_iff_false; intros E2; pose proof (eq_ignore_ascii_case_trans _ _ _ E E2) as X; vm_compute in X; done.
Qed.

(** What the client finds behind the fields of a buffered answer. *)
Definition delivered (config : ProxyConfig) (allowed : bool) (fields : Headers) (body : list N) (trailers : Headers)
    (payload : list N) : Prop :=
  if negb allowed then payload = []
  else if is_emptyb trailers then payload = body /\ framed_by_length fields (blen body)
  else header fields TE = Some (lit "chunked") /\
    forall cap more, 18 <= cap -> rule_header_limit config <= cap ->
      response_chunks cap (pc_max_header_size config) (pc_max_header_count config) (payload ++ more) body
        (map received trailers) more.

Lemma chunked_request_decodes config body trailers cap more :
  18 <= cap -> rule_header_limit config <= cap -> blen body <= USIZE_MAX ->
  Forall valid_field trailers -> validate_trailer_block config trailers = Ok tt ->
  response_chunks cap (pc_max_header_size config) (pc_max_header_count config)
    (((if is_emptyb body then [] else chunk_text body) ++ chunk_end trailers) ++ more) body (map received trailers) more.
Proof.
  intros Hcap Hlim Hlen Hv (Hs & Hc & Hz)%validate_trailer_block_ok. rewrite <- app_assoc.
  apply response_encoded; try done; [|unfold rule_header_limit in Hz; lia|lia].
  destruct body as [|b body]; cbn [is_emptyb]; [constructor|].
  rewrite <- (app_nil_r (chunk_text _)), <- (app_nil_r (b :: body)) at 1. by constructor; [|constructor].
Qed.

Section WriteBuffered.
Context {SR : StatusReasons}.

Lemma write_then_emits {A} (m : StateR Sink IoError A) Q bs head headers keep_alive w w' x :
  fine w -> emits m Q bs ->
  (_ ← write_response_head_with_connection head headers keep_alive; m) w = (w', Ok x) ->
  exists reason length,
    validate_response_parts (rh_version head) (rh_status head) reason headers = Ok tt /\
    validate_streaming_framing headers = Ok length /\
    sk_written w' = sk_written w ++
      head_bytes (status_line (rh_version head) (rh_status head) reason)
        (streaming_fields (rh_status head) headers length keep_alive) ++ bs.
Proof.
  intros Hw Hm H. apply bind_ok in H as (w1 & [] & E1 & H).
  destruct (write_head_ok _ _ _ _ _ Hw E1) as (Hw1 & reason & length & Hv & Hf & Hs).
  destruct (Hm _ Hw1) as (w2 & y & E2 & _ & _ & Hs2). rewrite H in E2. injection E2 as <- <-.
  exists reason, length. split_and!; [done..|]. by rewrite Hs2, Hs, streaming_head_bytes, <- app_assoc.
Qed.

Lemma write_complete_ok version status reason headers body keep_alive w w' :
  fine w -> write_response_with_version_and_connection version status reason headers body keep_alive w = (w', Ok tt) ->
  validate_response_parts version status reason headers = Ok tt /\
  sk_written w' = sk_written w ++
    head_bytes (status_line version status reason) (complete_fields status headers (blen body) keep_alive) ++ body.
Proof.
  intros Hw H. unfold write_response_with_version_and_connection in H.
  apply bind_ok in H as (w1 & [] & E1 & H). injection E1 as <- Ev. destruct (_ && _); [done|].
  rewrite <- complete_head_bytes. set (head := encode _) in *. split; [done|].
  assert (Hm : emits (_ ← (if blen body <=? COALESCED_RESPONSE_LIMIT then write_bytes (head ++ body)
                           else _ ← write_bytes head; write_bytes body); flush) (fun _ => True) ((head ++ body) ++ [])).
  { apply (emits_bind _ _ (fun _ => True)); [|intros _ _; apply emits_flush].
    destruct (_ <=? _); [apply emits_write|]. eapply emits_bind; [apply emits_write|]. intros _ _. apply emits_write. }
  destruct (Hm w Hw) as (w2 & y & E2 & _ & _ & Hs). rewrite app_nil_r in Hs. rewrite H in E2. by injection E2 as <- <-.
Qed.

Lemma write_buffered_spec config allowed keep_alive head headers body trailers throttle w w' :
  fine w -> (allowed = true -> status_can_send_content (rh_status head) = true) ->
  (allowed = true -> exists h,
     headers = if is_emptyb trailers then update_body_headers h (blen body) else chunked_fields h trailers) ->
  (allowed = true -> blen body <= USIZE_MAX) ->
  Forall valid_field trailers -> (trailers = [] \/ validate_trailer_block config trailers = Ok tt) ->
  write_buffered allowed keep_alive head headers body trailers throttle w = (w', Ok tt) ->
  exists reason fields payload,
    sk_written w' = sk_written w ++
      head_bytes (status_line (rh_version head) (rh_status head) reason) fields ++ payload /\
    (valid_str reason = true -> Forall valid_field headers -> head_reads (rh_version head) (rh_status head) reason fields) /\
    delivered config allowed fields body trailers payload.
Proof.
  intros Hw Hst Hfr Hlen Hvt Hor H. unfold write_buffered in H. destruct allowed; cbn [negb] in H.
  2: { eapply write_then_emits in H as (reason & length & Hv & _ & Hs); [|done|apply emits_flush].
       eexists reason, _, []. split_and!; [exact Hs|by intros; apply streaming_head_reads|done]. }
  specialize (Hst eq_refl). destruct (Hfr eq_refl) as [h ->]. specialize (Hlen eq_refl).
  unfold delivered. cbn [negb]. destruct (is_emptyb trailers) eqn:Et.
  2: { unfold write_chunked_response in H.
       eapply write_then_emits in H as (reason & length & Hv & Hf & Hs); [|done|apply write_chunked_request_emits].
       apply chunked_fields_framing in Hf as ->.
       eexists reason, _, _. split_and!; [exact Hs|by intros; apply streaming_head_reads|by apply streaming_fields_chunked|].
       intros cap more Hcap Hlim. apply chunked_request_decodes; try done. destruct Hor as [->|?]; done. }
  assert (Hl64 : blen body <= U64_MAX) by (unfold USIZE_MAX in Hlen; lia). destruct throttle as [bps|].
  - eapply write_then_emits in H as (reason & length & Hv & Hf & Hs); [|done|apply write_maybe_throttled_emits].
    apply update_body_headers_length in Hf as ->; [|done].
    eexists reason, _, _. split_and!; [exact Hs|by intros; apply streaming_head_reads|done|].
    apply streaming_fields_framed; [done|]. unfold update_body_headers. rewrite header_set by (by vm_compute).
    change (eq_ignore_ascii_case (lit "Content-Length") TE) with false. cbv iota.
    rewrite header_remove_other by (by vm_compute). apply header_none, remove_header_none.
  - eapply write_complete_ok in H as [Hv Hs]; [|done].
    eexists _, _, _. split_and!; [exact Hs|by intros; apply complete_head_reads|done|]. by apply complete_fields_framed.
Qed.
End WriteBuffered.

(** The whole of [finish_buffered_response], for a run that succeeds. *)
Lemma finish_buffered_spec
    {PE : PatternEngines} {CE : CaptureEngine} {RF : RuleFiles} {JT : JsonText} {SR : StatusReasons}
    {B} context response (f f' : Flow B) r :
  let config := rc_config context in
  let allowed := response_can_send_content (rq_method (rc_request context)) (fw_status r) in
  fine (fl_client f) -> fw_response_bytes r <= USIZE_MAX ->
  finish_buffered_response context response f = (f', Ok r) -> Forall valid_field (fw_res_trailers r) ->
  fl_body f' = fl_body f /\ fw_client_connection r = rc_client_connection context /\
  exists c c' head headers body,
    apply_response_actions config (rc_meta context) (bf_head response) (rh_headers (bf_head response))
      (if rh_status (bf_head response) =? 205 then [] else bf_body response) (bf_actions response) c =
      (c', Ok (head, headers, body)) /\ fw_status r = rh_status head /\
  exists version reason fields payload,
    sk_written (fl_client f') = sk_written (fl_client f) ++
      head_bytes (status_line version (fw_status r) reason) fields ++ payload /\
    (valid_str reason = true -> Forall valid_field (fw_res_headers r) -> head_reads version (fw_status r) reason fields) /\
    delivered config allowed fields body (fw_res_trailers r) payload /\
    (allowed = true -> fw_response_bytes r = blen body /\
       fw_body_head r = take_N (trace_body_limit_for_headers config (fw_res_headers r)) body).
Proof.
  intros config allowed Hw Hlen H Hv. unfold finish_buffered_response in H. cbv zeta in H.
  destruct (sanitize_upstream_trailers _ _) as [ts dropped].
  quiet H. destruct x as [[head headers] body]. quiet H. rename x into ts'. quiet H.
  destruct (frame_buffered _ _ _ _ _) as [[[head' headers'] body'] ts2] eqn:Ef.
  quiet H. quiet H. apply bind_ok in H as (f6 & [] & E6 & H). apply on_client_ok in E6 as [Eb6 E6].
  apply on_cache_ok in E as (c & Ea). apply on_cache_ok in E0 as (c2 & Et%trailer_actions_ok).
  destruct (frame_buffered_spec _ _ _ _ _ _ _ _ _ Ef) as (Es & Hor & Hfr).
  subst allowed. injection H as <- <-.
  cbn [fw_status fw_res_headers fw_res_trailers fw_response_bytes fw_body_head fw_client_connection] in Hv, Hlen, Hfr |- *.
  rewrite !Es. set (ok := response_can_send_content (rq_method (rc_request context)) (rh_status head)) in *.
  split; [congruence|]. split; [done|]. exists (fl_cache f), c, head, headers, body. split; [exact Ea|]. split; [done|].
  destruct (write_buffered_spec config ok _ head' headers' body' ts2 _ (fl_client f4) _ ltac:(congruence)
              ltac:(rewrite Es; apply allowed_status)
              ltac:(intros Ho; destruct (Hfr Ho) as (-> & h & Eh); by exists h)
              ltac:(intros Ho; by rewrite Ho in Hlen) Hv ltac:(destruct Hor as [?| ->]; [by left|by right]) E6)
    as (reason & fields & payload & Hs & Hr & Hd).
  exists (rh_version head'), reason, fields, payload. rewrite Es in Hs, Hr. split_and!.
  - replace (fl_client f) with (fl_client f4) by congruence. exact Hs.
  - exact Hr.
  - destruct ok; [|exact Hd]. by destruct (Hfr eq_refl) as [-> _].
  - intros Ho. rewrite Ho. destruct (Hfr Ho) as [-> _]. done.
Qed.

(** ** Properties *)

(** C16: A buffered answer reaches the client whole: what is sent is one
    response head, from which a reader gets back the status and the fields, and the
    body that the response rules produced, framed by exactly its length, or sent as
    chunks that decode to it and to the trailers of the result when there are any;
    nothing follows the head when the method or status forbids content, nothing is
    read from upstream, and the byte count and captured head of the result are those
    of the body. *)
Theorem buffered_answer_delivers_body
    {PE : PatternEngines} {CE : CaptureEngine} {RF : RuleFiles} {JT : JsonText} {SR : StatusReasons}
    {B} context response (f f' : Flow B) r :
  let config := rc_config context in
  let allowed := response_can_send_content (rq_method (rc_request context)) (fw_status r) in
  fine (fl_client f) -> fw_response_bytes r <= USIZE_MAX ->
  finish_buffered_response context response f = (f', Ok r) -> Forall valid_field (fw_res_trailers r) ->
  fl_body f' = fl_body f /\ fw_client_connection r = rc_client_connection context /\
  exists c c' head headers body,
    apply_response_actions config (rc_meta context) (bf_head response) (rh_headers (bf_head response))
      (if rh_status (bf_head response) =? 205 then [] else bf_body response) (bf_actions response) c =
      (c', Ok (head, headers, body)) /\ fw_status r = rh_status head /\
  exists version reason fields payload,
    sk_written (fl_client f') = sk_written (fl_client f) ++
      head_bytes (status_line version (fw_status r) reason) fields ++ payload /\
    (valid_str reason = true -> Forall valid_field (fw_res_headers r) -> head_reads version (fw_status r) reason fields) /\
    delivered config allowed fields body (fw_res_trailers r) payload /\
    (allowed = true -> fw_response_bytes r = blen body /\
       fw_body_head r = take_N (trace_body_limit_for_headers config (fw_res_headers r)) body).
Proof. apply finish_buffered_spec. Qed.

Definition sample_buffered_response : BufferedResponse :=
  mkBufferedResponse (sample_response_head [(lit "Content-Length", lit "5"); (lit "Content-Type", lit "text/plain")])
    (lit "hello") [] [] [sample_item (Action.ResBody (BodyOp.Append (Value.Inline (lit "!"))))] UpstreamProtocol.Http1.
Lemma sample_buffered_run :
  exists f' r, finish_buffered_response (sample_context "GET") sample_buffered_response (sample_flow tt) = (f', Ok r) /\
    fw_status r = 200 /\ fw_response_bytes r = 6 /\ fw_res_trailers r = [].
Proof. eexists _, _. split; [by vm_compute|]. done. Qed.
Lemma buffered_answer_delivers_body_witness :
  exists f' r version reason fields payload,
    finish_buffered_response (sample_context "GET") sample_buffered_response (sample_flow tt) = (f', Ok r) /\
    sk_written (fl_client f') = head_bytes (status_line version 200 reason) fields ++ payload /\
    blen payload = 6 /\ framed_by_length fields 6.
Proof.
  destruct sample_buffered_run as (f' & r & E & Hs & Hb & Ht).
  destruct (buffered_answer_delivers_body (sample_context "GET") sample_buffered_response (sample_flow tt) f' r)
    as (_ & _ & c & c' & head & headers & body & Ea & _ & version & reason & fields & payload & Hw & _ & Hd & Hr);
    [by constructor|rewrite Hb; by vm_compute|exact E|rewrite Ht; constructor|].
  rewrite Hs in *. rewrite Ht in Hd. destruct (Hr eq_refl) as [Hl _]. rewrite Hb in Hl. destruct Hd as [-> Hd].
  rewrite <- Hl in Hd.
  exists f', r, version, reason, fields, body. split; [exact E|]. split; [exact Hw|]. split; [done|exact Hd].
Defined.
