(* ===== verification/FlowFindings.v ===== *)
(** * Answering the client, where it goes wrong

    Runs of the response path whose outcome a client cannot read: a length that
    the body does not have, an answer that fails for want of a body that was
    never to come, and a second response inside a started body. *)
From Stdlib Require Import Ascii String.
From stdpp Require Import base numbers list gmap strings.
From S2P Require Import Prelude Family Utf8 Format Io Model Url Engines TraceModel Template Http1 Http1Proofs.
From S2P Require Import Http1Body Http1Write Values Deadline Relay Transforms Actions RelayProofs Heads.
From S2P Require Import ResponseBody ResponseProofs ResponseFlow FlowProofs.

Section Findings.
Context {PE : PatternEngines} {CE : CaptureEngine} {RF : RuleFiles} {JT : JsonText} {SR : StatusReasons}.

(** The fields and the persistence of a streamed answer. *)
Lemma finish_streaming_fields {B} `{ResponseBodyStream B} context response (f f' : Flow B) r :
  finish_streaming_response context response f = (f', Ok r) ->
  exists c c' head headers chunked must_close,
    apply_streaming_response_actions (rc_config context) (rc_meta context) (sr_head response)
      (rh_headers (sr_head response)) (sr_actions response) c = (c', Ok (head, headers)) /\
    frame_streaming
      (response_can_send_content (rq_method (rc_request context)) (rh_status head) &&
       negb (rh_status (sr_head response) =? 205))
      (is_http10 (rq_version (rc_request context))) (rh_status (sr_head response)) (rh_status head)
      (declared_trailer_names (rh_headers (sr_head response)) (sr_actions response)) (strip_hop_by_hop_headers headers)
    = (fw_res_headers r, chunked, must_close) /\
    fw_status r = rh_status head /\
    (fw_error r = None ->
     fw_client_connection r = if must_close then ClientPersistence.Close else rc_client_connection context).
Proof.
  intros E. unfold finish_streaming_response in E. cbv zeta in E.
  apply bind_ok in E as (f1 & [head headers] & E1 & E). apply bind_ok in E as (f2 & x2 & _ & E).
  destruct (frame_streaming _ _ _ _ _ _) as [[headers' chunked] must_close] eqn:Ef.
  do 6 (apply bind_ok in E as (? & ? & _ & E)). destruct (sanitize_upstream_trailers _ _) as [ts dropped].
  apply bind_ok in E as (? & ? & _ & E). apply bind_ok in E as (? & [summary flags] & _ & E). injection E as <- <-.
  unfold on_cache in E1. destruct (apply_streaming_response_actions _ _ _ _ _ (fl_cache f)) as [c' o] eqn:Ea.
  injection E1 as <- ->. cbn in Ef. eexists _, _, head, headers, chunked, must_close. split; [exact Ea|].
  split; [exact Ef|]. split; [done|]. cbn. by intros ->.
Qed.

(** A response that is chunked and declares a length all the same. *)
Definition overdetermined (v : str) : StreamingResponse :=
  mkStreamingResponse
    (mkRawResponseHead (lit "HTTP/1.1") 200 (lit "OK")
       [(lit "Transfer-Encoding", lit "chunked"); (lit "Content-Length", v)])
    [] [] [] UpstreamProtocol.Http1 [].

Lemma overdetermined_fields {B} `{ResponseBodyStream B} context v (f f' : Flow B) r :
  finish_streaming_response context (overdetermined v) f = (f', Ok r) ->
  fw_status r = 200 /\ fw_res_headers r = [(lit "Content-Length", v)] /\
  (fw_error r = None -> fw_client_connection r = rc_client_connection context).
Proof.
  intros (c & c' & head & headers & chunked & must_close & Ea & Ef & Es & Ec)%finish_streaming_fields.
  apply bind_ok in Ea as (c1 & x & Ea & Ex). apply bind_ok in Ea as (c2 & y & Ey & Ea).
  injection Ey as <- <-. apply bind_ok in Ea as (c3 & [] & _ & Ea). injection Ea as <- <-. injection Ex as <- <- <-.
  change (declared_trailer_names _ _) with (@nil str) in Ef.
  change (strip_hop_by_hop_headers _) with [(lit "Content-Length", v)] in Ef.
  unfold frame_streaming in Ef. cbn in Ef. rewrite !andb_false_r in Ef. injection Ef as <- _ <-. done.
Qed.
End Findings.

Lemma declared_length n :
  n <= U64_MAX -> validate_streaming_framing [(lit "Content-Length", show_N n)] = Ok (Some n).
Proof.
  intros Hn. unfold validate_streaming_framing.
  replace (field_values (lit "content-length") [(lit "Content-Length", show_N n)]) with [show_N n].
  2: { unfold field_values. cbn [flat_map]. change (eq_ignore_ascii_case (lit "Content-Length") _) with true. cbv iota.
       by rewrite app_nil_r, show_N_field. }
  cbn [streaming_lengths]. pose proof (show_N_digits n) as Hd.
  rewrite (encode_ascii _ (show_N_ascii n)). rewrite (proj2 (forallb_forall _ _)).
  2: { intros c Hc%list_elem_of_In. rewrite Forall_forall in Hd. by apply Hd. }
  pose proof (show_N_nonempty n). rewrite parse_uint_show_N by done. by destruct (show_N n).
Qed.

(** ** Properties *)

(** A response that is chunked and also declares a length is streamed to
    the client with that length and without chunks: the answer carries the
    upstream's Content-Length [n] unchanged as its only framing, is followed by the
    decoded body whatever its size, and the connection stays as the client asked. *)
Theorem chunked_length_reaches_client
    {PE : PatternEngines} {CE : CaptureEngine} {RF : RuleFiles} {JT : JsonText} {SR : StatusReasons}
    cap context n f f' r body trailers rest :
  let config := rc_config context in
  cap <= pc_max_header_size config -> pc_max_header_size config <= USIZE_MAX ->
  fine (fl_client f) -> holds (pc_max_header_size config) (pc_max_header_count config) cap f body trailers rest ->
  blen body <= USIZE_MAX -> response_can_send_content (rq_method (rc_request context)) 200 = true ->
  n <= U64_MAX ->
  finish_streaming_response context (overdetermined (show_N n)) f = (f', Ok r) -> Forall valid_field (fw_res_trailers r) ->
  fw_client_connection r = rc_client_connection context /\
  exists reason,
    sk_written (fl_client f') = sk_written (fl_client f) ++
      head_bytes (status_line (client_response_version (rq_version (rc_request context))) 200 reason)
        [(lit "Content-Length", show_N n); connection_field (ClientPersistence.keep_alive (rc_client_connection context))] ++
      body.
Proof.
  intros config Hcap Hsz Hw Hh Hlen Hok Hn E Hv.
  destruct (overdetermined_fields _ _ _ _ _ E) as (Es & Ehd & Ec).
  destruct (finish_streaming_spec cap context (overdetermined (show_N n)) f f' r body trailers rest Hcap Hsz Hw Hh Hlen E Hv)
    as (He & _ & _ & _ & reason & length & payload & Hwr & Hfr & _ & Hp).
  split; [by apply Ec|]. exists reason. rewrite Hwr, Ec, Es, Ehd by done.
  rewrite Ehd, (declared_length n) in Hfr by done. injection Hfr as <-. do 2 f_equal.
  unfold payload_of in Hp. rewrite Ehd in Hp. cbn in Hp. rewrite Hp. unfold sent_body. by rewrite Es, Hok.
Qed.

(** Thirteen bytes are sent as ninety thousand, and the connection is kept. *)
Lemma overdetermined_run :
  exists f' r, finish_streaming_response (sample_context "GET") (overdetermined (show_N 90000)) sample_stream_flow = (f', Ok r) /\
    Forall valid_field (fw_res_trailers r).
Proof. eexists _, _. split; [by vm_compute|by repeat constructor]. Qed.
Lemma chunked_length_reaches_client_witness :
  exists f' r reason,
    finish_streaming_response (sample_context "GET") (overdetermined (show_N 90000)) sample_stream_flow = (f', Ok r) /\
    fw_client_connection r = ClientPersistence.KeepAlive /\
    sk_written (fl_client f') =
      head_bytes (status_line (lit "HTTP/1.1") 200 reason)
        [(lit "Content-Length", lit "90000"); (lit "Connection", lit "keep-alive")] ++ lit "abc0123456789".
Proof.
  destruct overdetermined_run as (f' & r & E & Hv).
  destruct (chunked_length_reaches_client 100 (sample_context "GET") 90000 sample_stream_flow f' r
              (lit "abc0123456789") [(lit "Digest", lit "z")] (lit "next")) as (Hc & reason & Hw);
    [by vm_compute|by vm_compute|by constructor|exact sample_stream_holds|by vm_compute|done|by vm_compute|exact E|exact Hv|].
  exists f', r, reason. split; [exact E|]. split; [exact Hc|exact Hw].
Defined.

(** Over a connection of its own, the answer to a HEAD request whose
    response a body rule applies to is awaited with the body it never has: the declared
    length is read although no body follows the head, so the exchange fails with an
    unexpected end of file (a 502 for the client) and nothing of the answer is sent. *)
Theorem head_with_body_rule_fails
    {PE : PatternEngines} {CE : CaptureEngine} {RF : RuleFiles} {JT : JsonText} {SR : StatusReasons}
    context head matched actions f v n :
  eq_ignore_ascii_case (rq_method (rc_request context)) (lit "HEAD") = true ->
  response_actions_require_body actions = true ->
  has_chunked_transfer_encoding (rh_headers head) = false ->
  header (rh_headers head) (lit "content-length") = Some v -> parse_uint USIZE_MAX v = Ok n -> 0 < n ->
  fl_body f = [] ->
  response_has_framed_body (rq_method (rc_request context)) (rh_status head) = false /\
  exists message,
    answer_unpooled context head matched actions f = (f, Err (mkIoError UnexpectedEof message)) /\
    forward_error_status (mkIoError UnexpectedEof message) = 502.
Proof.
  intros Hm Ha Hc Hl Hp Hn Hf. split.
  { unfold response_has_framed_body, response_can_send_content. by rewrite Hm. }
  unfold answer_unpooled, should_stream. rewrite Ha. cbn [negb andb]. eexists. split.
  - erewrite bind_err; [reflexivity|]. unfold on_upstream, staged, read_response_body. rewrite Hf, Hc, Hl.
    cbn [mbind option_bind]. rewrite Hp. cbn [ok].
    erewrite bind_err; [|cbn; by rewrite (proj2 (N.eqb_neq n 0)) by lia]. destruct f; cbn in Hf; subst. reflexivity.
  - done.
Qed.

Definition replace_body_rule : list ResolvedAction :=
  [sample_item (Action.ResBody (BodyOp.Set_ (Value.Inline (lit "x"))))].
Lemma head_with_body_rule_fails_witness :
  response_has_framed_body (lit "HEAD") 200 = false /\
  exists message,
    answer_unpooled (sample_context "HEAD") (sample_response_head [(lit "Content-Length", lit "5")]) []
      replace_body_rule (sample_flow []) = (sample_flow [], Err (mkIoError UnexpectedEof message)) /\
    forward_error_status (mkIoError UnexpectedEof message) = 502.
Proof.
  apply (head_with_body_rule_fails (sample_context "HEAD") (sample_response_head [(lit "Content-Length", lit "5")]) []
           replace_body_rule (sample_flow []) (lit "5") 5); done.
Defined.

(** An event stream of one chunk that the upstream cuts. *)
Definition cut_event_stream : Flow Stream := sample_flow [Bytes (lit "8" ++ crlf ++ lit "data: 1" ++ [NL] ++ crlf ++ lit "8" ++ crlf ++ lit "dat")].
(** An event stream that breaks off upstream is answered twice: after the
    head, which announced that the connection closes, and the events so far, the client
    gets a whole 502 response, and the connection is kept for the next request. *)
Theorem cut_event_stream_answered_twice :
  conclude (sample_context "GET") false
    (answer (sample_context "GET")
       (sample_response_head [(lit "Content-Type", lit "text/event-stream"); (lit "Transfer-Encoding", lit "chunked")])
       [] [] cut_event_stream) =
  (mkSink
     (flat_map (fun line => lit line ++ crlf)
        ["HTTP/1.1 200 OK"; "Content-Type: text/event-stream"; "Connection: close"]%string ++ crlf ++
      lit "data: 1" ++ [NL] ++
      flat_map (fun line => lit line ++ crlf)
        ["HTTP/1.1 502 Bad Gateway"; "Content-Type: text/plain"; "Content-Length: 65"; "Connection: keep-alive"]%string ++ crlf ++
      lit "upstream error: stage=response_body: failed to fill whole buffer" ++ [NL]) [],
   ClientPersistence.KeepAlive).
Proof. by vm_compute. Qed.
