(* ===== verification/FastResponse.v ===== *)
(** * Answers of the pooled HTTP/1 path

    crates/rsproxy-engine/src/proxy/h1_forward: the answer to a request that
    was sent over a pooled connection (response.rs, response/empty.rs,
    response/result.rs) and the relays of its body (response/body.rs).

    A relay works on the flow of the answer, with the summary and the trace it
    fills as it goes: both survive an error of the relay, as in the source. *)
From Stdlib Require Import Ascii String.
From stdpp Require Import base numbers list gmap strings.
From S2P Require Import Prelude Family Utf8 Format Io Model Url Engines TraceModel Template Http1 Http1Write.
From S2P Require Import Values Deadline Relay Transforms Actions ResponseBody ResponseFlow.

Definition SMALL_BODY_LIMIT : N := 64 * 1024.
Definition RELAY_BUFFER_SIZE : N := 16 * 1024.

(** ** Relays (response/body.rs) *)

Record BodySummary := mkBodySummary { bs_bytes : N; bs_body_head : list N; bs_limit : N; bs_streamed : bool }.
Definition BodySummary_new (limit : N) : BodySummary := mkBodySummary 0 [] limit true.
Definition BodySummary_empty : BodySummary := mkBodySummary 0 [] 0 false.
Definition BodySummary_completed (bytes : N) (body_head : list N) : BodySummary :=
  mkBodySummary bytes body_head (blen body_head) true.
Definition BodySummary_observe (b : BodySummary) (data : list N) : BodySummary :=
  mkBodySummary (saturating_add U64_MAX (bs_bytes b) (blen data))
    (bs_body_head b ++ take_N (saturating_sub (bs_limit b) (blen (bs_body_head b))) data)
    (bs_limit b) (bs_streamed b).
Definition body_trace (trace_id limit : N) : option BodyTraceEmitter :=
  if trace_id =? 0 then None else Some (mkEmitter trace_id BodyDirection.Response limit).

(** What a relay changes. *)
Record Relaying := mkRelaying {
  rl_flow : Flow Stream; rl_summary : BodySummary; rl_trace : option BodyTraceEmitter }.
Abbreviation Relay := (StateR Relaying IoError).

Definition on_flow {A} (m : StateR (Flow Stream) IoError A) : Relay A := fun r =>
  let '(f, x) := m (rl_flow r) in (mkRelaying f (rl_summary r) (rl_trace r), x).
(** [summary.observe(data)], and [trace.observe_slice(data)] where there is a trace. *)
Definition observe (data : list N) : Relay unit := fun r =>
  let '(trace, events) := optional_observe (rl_trace r) data in
  let f := rl_flow r in
  (mkRelaying (mkFlow (fl_body f) (fl_client f) (fl_cache f) (fl_clock f) (fl_events f ++ map EmittedBody events))
     (BodySummary_observe (rl_summary r) data) trace, Ok tt).
(** A relay with a fresh summary; its result is a value beside the summary. *)
Definition run_relay {A} (limit : N) (trace : option BodyTraceEmitter) (m : Relay A)
    : StateR (Flow Stream) IoError (BodySummary * Result IoError A) := fun f =>
  let '(r, x) := m (mkRelaying f (BodySummary_new limit) trace) in (rl_flow r, Ok (rl_summary r, x)).

(** The result of a part as a value, its effects kept. *)
Definition outcome {A} (m : StateR (Flow Stream) IoError A) : StateR (Flow Stream) IoError (Result IoError A) :=
  fun f => let '(f, x) := m f in (f, Ok x).

(** The receiver of a relay: the client, or [io::sink()]. *)
Definition Receiver : Type := list N -> StateR (Flow Stream) IoError unit.
Definition to_client : Receiver := fun data => on_client (write_bytes data).
Definition to_sink : Receiver := fun _ => mret tt.

Definition write_chunk (write : Receiver) (data : list N) : StateR (Flow Stream) IoError unit :=
  write (encode (show_HEX (blen data) ++ crlf) ++ data ++ crlf).
Definition write_chunk_end (write : Receiver) (trailers : Headers) : StateR (Flow Stream) IoError unit :=
  write (chunk_end trailers).

Section Relays.
Context (deadline : RequestDeadline).

(** The loop of [relay_exact], and of the data of a chunk with [write_chunk]. *)
Fixpoint relay_exact_loop (write : Receiver) (fuel : nat) (remaining : N) : Relay unit :=
  if remaining =? 0 then mret tt
  else
    match fuel with
    | O => spent
    | S fuel' =>
        _ ← on_flow (check_deadline deadline);
        let take := N.min remaining RELAY_BUFFER_SIZE in
        data ← on_flow (on_upstream (read_exact take));
        _ ← on_flow (write data);
        _ ← observe data;
        relay_exact_loop write fuel' (remaining - take)
    end.
Definition relay_exact (write : Receiver) (length : N) : Relay unit := fun r =>
  relay_exact_loop write (S (List.length (pending (fl_body (rl_flow r))))) length r.

Fixpoint relay_to_eof_loop (write : Receiver) (fuel : nat) : Relay unit :=
  match fuel with
  | O => spent
  | S fuel' =>
      _ ← on_flow (check_deadline deadline);
      data ← on_flow (on_upstream (read RELAY_BUFFER_SIZE));
      if is_emptyb data then mret tt
      else
        _ ← on_flow (write data);
        _ ← observe data;
        relay_to_eof_loop write fuel'
  end.
Definition relay_to_eof (write : Receiver) : Relay unit := fun r =>
  relay_to_eof_loop write (S (List.length (pending (fl_body (rl_flow r))))) r.

Fixpoint relay_trailers_loop (max_header_size max_header_count : N) (fuel : nat) (trailers : Headers) (bytes : N)
    : StateR Stream IoError Headers :=
  match fuel with
  | O => spent
  | S fuel' =>
      line ← read_crlf_line;
      if is_emptyb line then mret trailers
      else
        let bytes := saturating_add USIZE_MAX bytes (len line + 2) in
        if (max_header_size <? bytes) || (max_header_count <=? blen trailers)
        then fail (invalid_data (lit "response trailer limit exceeded"))
        else
          match split_once [ch ":"] line with
          | None => fail (invalid_data (lit "invalid trailer"))
          | Some (name, value) =>
              relay_trailers_loop max_header_size max_header_count fuel' (trailers ++ [(trim name, trim value)]) bytes
          end
  end.
Definition read_trailers (max_header_size max_header_count : N) : StateR Stream IoError Headers :=
  looping (fun fuel => relay_trailers_loop max_header_size max_header_count fuel [] 0).

Fixpoint relay_chunked_loop (write : Receiver) (max_header_size max_header_count : N) (fuel : nat) : Relay Headers :=
  match fuel with
  | O => spent
  | S fuel' =>
      _ ← on_flow (check_deadline deadline);
      line ← on_flow (on_upstream read_crlf_line);
      size ← lift_result (ok_or (chunk_size line) (invalid_data (lit "invalid chunk size")));
      if size =? 0 then on_flow (on_upstream (read_trailers max_header_size max_header_count))
      else
        _ ← relay_exact (write_chunk write) size;
        delimiter ← on_flow (on_upstream (read_exact 2));
        if delimiter =s? crlf then relay_chunked_loop write max_header_size max_header_count fuel'
        else fail missing_crlf
  end.
Definition relay_chunked (write : Receiver) (max_header_size max_header_count : N) : Relay Headers := fun r =>
  relay_chunked_loop write max_header_size max_header_count (S (List.length (pending (fl_body (rl_flow r))))) r.
End Relays.

(** ** Results (response/result.rs) *)

(** The context of an answer, whether its connection was reused and whether it
    may be kept. *)
Record FastResponseContext := mkFastContext {
  ft_response : ResponseContext; ft_reused : bool; ft_reusable : bool }.
Record FastResponseOutcome := mkFastOutcome { fo_result : ForwardResult; fo_reusable : bool }.

Definition protocol (reused : bool) : UpstreamProtocol.t := UpstreamProtocol.Http1Pooled reused.
Definition emit_response (context : FastResponseContext) (status : N) (headers trailers : Headers)
    : StateR (Flow Stream) IoError unit :=
  let id := rc_trace_id (ft_response context) in
  if id =? 0 then mret tt else emit [EmittedResponse id status headers trailers].
Definition response_is_persistent (head : RawResponseHead) : bool :=
  if header_contains_token (rh_headers head) (lit "connection") (lit "close") then false
  else eq_ignore_ascii_case (rh_version head) (lit "HTTP/1.1") ||
       (is_http10 (rh_version head) && header_contains_token (rh_headers head) (lit "connection") (lit "keep-alive")).

Definition FAST_PATH : str := lit "h1-fast-path".
(** [result], and [body_error_result] with an error. *)
Definition fast_result (context : FastResponseContext) (head : RawResponseHead) (headers trailers : Headers)
    (summary : BodySummary) (connection : ClientPersistence.t) (kind : option SessionKind.t)
    (frames : list (list N)) : ForwardResult :=
  mkForwardResult (rh_status head) (rc_upstream_addr (ft_response context)) 0 (bs_bytes summary) headers trailers
    (bs_body_head summary) frames kind [] [] (protocol (ft_reused context)) connection
    (FAST_PATH :: if bs_streamed summary then [lit "response-streamed"] else []) None.
Definition with_flags (r : ForwardResult) (flags : list str) (error : option str) : ForwardResult :=
  mkForwardResult (fw_status r) (fw_upstream r) (fw_request_bytes r) (fw_response_bytes r) (fw_res_headers r)
    (fw_res_trailers r) (fw_body_head r) (fw_frames r) (fw_kind r) (fw_matched_rules r) (fw_actions r)
    (fw_protocol r) (fw_client_connection r) (fw_flags r ++ flags) error.
Definition body_error_result (context : FastResponseContext) (head : RawResponseHead) (headers : Headers)
    (summary : BodySummary) (kind : option SessionKind.t) (frames : list (list N)) (error : IoError)
    : FastResponseOutcome :=
  mkFastOutcome
    (with_flags (fast_result context head headers [] summary ClientPersistence.Close kind frames)
       [lit "upstream-response-body-error"] (Some (io_message (stage_io_error (lit "response_body") error))))
    false.

Definition with_version (head : RawResponseHead) (version : str) : RawResponseHead :=
  mkRawResponseHead version (rh_status head) (rh_reason head) (rh_headers head).
Definition DROPPED_TRAILER : str := lit "forbidden-upstream-trailer-dropped".

(** ** Answers *)

Section Finish.
Context {PE : PatternEngines} {CE : CaptureEngine} {RF : RuleFiles} {JT : JsonText} {SR : StatusReasons}.
Context (context : FastResponseContext).

Definition answer_version : str := client_response_version (rq_version (rc_request (ft_response context))).
Definition keeps_client : bool := ClientPersistence.keep_alive (rc_client_connection (ft_response context)).
Definition content_length (headers : Headers) : option N :=
  header headers (lit "content-length") ≫= fun v => ok (parse_uint USIZE_MAX v).
Definition max_size : N := pc_max_header_size (rc_config (ft_response context)).
Definition max_count : N := pc_max_header_count (rc_config (ft_response context)).
(** The trace limit of the fields sent. *)
Definition trace_limit_of (headers : Headers) : N :=
  trace_body_limit_for_headers (rc_config (ft_response context)) headers.
(** A relay of the body to the client. *)
Definition relay_to_client {A} (headers : Headers) (m : Relay A)
    : StateR (Flow Stream) IoError (BodySummary * Result IoError A) :=
  run_relay (trace_limit_of headers) (body_trace (rc_trace_id (ft_response context)) (trace_limit_of headers)) m.

(** *** response/empty.rs *)

Definition finish_without_body (head : RawResponseHead) : StateR (Flow Stream) IoError FastResponseOutcome :=
  let headers := strip_hop_by_hop_headers (rh_headers head) in
  let head := with_version head answer_version in
  _ ← emit_response context (rh_status head) headers [];
  _ ← on_client (write_response_head_with_connection head headers keeps_client);
  _ ← on_client flush;
  mret (mkFastOutcome
          (fast_result context head headers [] BodySummary_empty (rc_client_connection (ft_response context)) None [])
          (ft_reusable context)).

(** The content of a 205 is read and thrown away: whether there was any, and
    whether a trailer was dropped. *)
Definition discard_content (head : RawResponseHead) : StateR (Flow Stream) IoError (bool * bool) :=
  let deadline := rc_deadline (ft_response context) in
  if has_chunked_transfer_encoding (rh_headers head) then
    relayed ← run_relay 0 None (relay_chunked deadline to_sink max_size max_count);
    trailers ← lift_result (snd relayed);
    mret (negb (bs_bytes (fst relayed) =? 0), snd (sanitize_upstream_trailers trailers (rh_headers head)))
  else
    match content_length (rh_headers head) with
    | Some length =>
        relayed ← run_relay 0 None (relay_exact deadline to_sink length);
        _ ← lift_result (snd relayed);
        mret (negb (bs_bytes (fst relayed) =? 0), false)
    | None => mret (false, false)
    end.
Definition finish_reset_content (head : RawResponseHead) : StateR (Flow Stream) IoError FastResponseOutcome :=
  discarded ← discard_content head;
  let headers := strip_hop_by_hop_headers (prepare_streaming_body_headers (rh_headers head)) in
  let head := with_version head answer_version in
  _ ← emit_response context (rh_status head) headers [];
  _ ← on_client (write_response_head_with_connection head headers keeps_client);
  _ ← on_client flush;
  mret (mkFastOutcome
          (with_flags
             (fast_result context head headers [] BodySummary_empty (rc_client_connection (ft_response context)) None [])
             ((if fst discarded : bool then [DISCARDED_205] else []) ++
              (if snd discarded : bool then [DROPPED_TRAILER] else [])) None)
          (ft_reusable context)).

(** *** response.rs *)

Definition finish_fixed (head : RawResponseHead) (length : N) : StateR (Flow Stream) IoError FastResponseOutcome :=
  let headers := set_header (strip_hop_by_hop_headers (rh_headers head)) (lit "Content-Length") (show_N length) in
  let head := with_version head answer_version in
  _ ← emit_response context (rh_status head) headers [];
  _ ← on_client (write_response_head_with_connection head headers keeps_client);
  relayed ← relay_to_client headers
              (_ ← relay_exact (rc_deadline (ft_response context)) to_client length; on_flow (on_client flush));
  match snd relayed with
  | Err e => mret (body_error_result context head headers (fst relayed) None [] e)
  | Ok _ =>
      mret (mkFastOutcome
              (fast_result context head headers [] (fst relayed) (rc_client_connection (ft_response context)) None [])
              (ft_reusable context))
  end.

(** The names the [Trailer] fields declare, as trailers without values. *)
Definition declared_trailers (headers : Headers) : Headers :=
  map (fun name => (name, [])) (List.filter (fun n => negb (is_emptyb n)) (field_values (lit "trailer") headers)).

Definition finish_chunked (head : RawResponseHead) : StateR (Flow Stream) IoError FastResponseOutcome :=
  let upstream_headers := rh_headers head in
  let declared := fst (sanitize_upstream_trailers (declared_trailers upstream_headers) upstream_headers) in
  let headers := set_header (strip_hop_by_hop_headers upstream_headers) (lit "Transfer-Encoding") (lit "chunked") in
  let headers := if is_emptyb declared then headers
                 else set_header headers (lit "Trailer") (join (lit ", ") (map fst declared)) in
  let head := with_version head answer_version in
  _ ← emit_response context (rh_status head) headers [];
  _ ← on_client (write_response_head_with_connection head headers keeps_client);
  relayed ← relay_to_client headers
              (relay_chunked (rc_deadline (ft_response context)) to_client max_size max_count);
  let '(summary, relayed) := relayed in
  match relayed with
  | Err e => mret (body_error_result context head headers summary None [] e)
  | Ok trailers =>
      let '(trailers, dropped) := sanitize_upstream_trailers trailers upstream_headers in
      ended ← outcome (_ ← write_chunk_end to_client trailers; on_client flush);
      match ended with
      | Err e => mret (body_error_result context head headers summary None [] e)
      | Ok _ =>
          mret (mkFastOutcome
                  (with_flags
                     (fast_result context head headers trailers summary (rc_client_connection (ft_response context))
                        None [])
                     (if dropped : bool then [DROPPED_TRAILER] else []) None)
                  (ft_reusable context))
      end
  end.

Definition finish_close_delimited (head : RawResponseHead) : StateR (Flow Stream) IoError FastResponseOutcome :=
  let headers := strip_hop_by_hop_headers (rh_headers head) in
  let head := with_version head answer_version in
  _ ← emit_response context (rh_status head) headers [];
  _ ← on_client (write_response_head_with_connection head headers false);
  relayed ← relay_to_client headers
              (_ ← relay_to_eof (rc_deadline (ft_response context)) to_client; on_flow (on_client flush));
  match snd relayed with
  | Err e => mret (body_error_result context head headers (fst relayed) None [] e)
  | Ok _ =>
      mret (mkFastOutcome (fast_result context head headers [] (fst relayed) ClientPersistence.Close None []) false)
  end.

(** [stream_sse_response] between the reader and the client of the flow. *)
Definition stream_sse (upstream_headers : Headers) (limit : N) (trace : option BodyTraceEmitter)
    : StateR (Flow Stream) IoError (N * list N * list (list N)) := fun f =>
  match stream_sse_response upstream_headers limit None trace (fl_body f, fl_client f) with
  | ((s, c), Err e) => (mkFlow s c (fl_cache f) (fl_clock f) (fl_events f), Err e)
  | ((s, c), Ok (bytes, body_head, frames, events)) =>
      (mkFlow s c (fl_cache f) (fl_clock f) (fl_events f ++ map EmittedBody events), Ok (bytes, body_head, frames))
  end.
(** An event stream; the trace events of a stream that fails are not kept. *)
Definition finish_sse (head : RawResponseHead) : StateR (Flow Stream) IoError FastResponseOutcome :=
  let upstream_headers := rh_headers head in
  let headers := prepare_streaming_body_headers (strip_hop_by_hop_headers upstream_headers) in
  let head := with_version head answer_version in
  let kind := Some SessionKind.Sse in
  _ ← emit_response context (rh_status head) headers [];
  _ ← on_client (write_response_head_with_connection head headers false);
  let limit := trace_limit_of headers in
  streamed ← outcome (stream_sse upstream_headers limit
                        (body_trace (rc_trace_id (ft_response context)) limit));
  match streamed with
  | Err e => mret (body_error_result context head headers BodySummary_empty kind [] e)
  | Ok (bytes, body_head, frames) =>
      let summary := BodySummary_completed bytes body_head in
      flushed ← outcome (on_client flush);
      match flushed with
      | Err e => mret (body_error_result context head headers summary kind frames e)
      | Ok _ =>
          mret (mkFastOutcome (fast_result context head headers [] summary ClientPersistence.Close kind frames) false)
      end
  end.

(** A short body of known length goes through the buffered answer. *)
Definition finish_small (head : RawResponseHead) (length : N) : StateR (Flow Stream) IoError FastResponseOutcome :=
  body ← on_upstream (read_exact length);
  result ← finish_buffered_response (ft_response context)
             (mkBufferedResponse head body [] [] [] (protocol (ft_reused context)));
  mret (mkFastOutcome result (ft_reusable context)).

(** [finish], once the read timeout is set. *)
Definition finish_response (head : RawResponseHead) : StateR (Flow Stream) IoError FastResponseOutcome :=
  if negb (response_has_framed_body (rq_method (rc_request (ft_response context))) (rh_status head))
  then finish_without_body head
  else if rh_status head =? 205 then finish_reset_content head
  else if is_sse_response (rh_headers head) then finish_sse head
  else if has_chunked_transfer_encoding (rh_headers head) then finish_chunked head
  else
    match content_length (rh_headers head) with
    | Some length =>
        if (length <=? SMALL_BODY_LIMIT) && (length <=? pc_body_buffer_limit (rc_config (ft_response context)))
        then finish_small head length
        else finish_fixed head length
    | None => finish_close_delimited (with_version head answer_version)
    end.
End Finish.
