(* ===== verification/Routing.v ===== *)
(** * Upstream routes

    crates/rsproxy-engine/src/proxy: the choice of the route to an origin
    (routing.rs, the address helpers of request_util.rs) and its labels and
    addresses (routing/model.rs). *)
From Stdlib Require Import Ascii String.
From stdpp Require Import base numbers list gmap strings.
From S2P Require Import Prelude Family Utf8 Format Io Model Url Engines Template Http1 Values.

(** ** Addresses (request_util.rs) *)

Definition is_bracket (c : char) : bool := (c =? ch "[") || (c =? ch "]").
Definition split_addr (input : str) (default_port : N) : str * N :=
  match rsplit_once_char (ch ":") input ≫= fun '(host, port) =>
          match parse_uint U16_MAX port with Ok port => Some (host, port) | Err _ => None end with
  | Some (host, port) => (trim_matches is_bracket host, port)
  | None => (trim_matches is_bracket input, default_port)
  end.

Record SocksAuth := mkSocksAuth { sa_username : str; sa_password : str }.
Definition split_socks_auth (input : str) : option SocksAuth * str :=
  match rsplit_once_char (ch "@") input with
  | None => (None, input)
  | Some (auth, addr) =>
      match split_once [ch ":"] auth with
      | None => (None, input)
      | Some (username, password) => (Some (mkSocksAuth username password), addr)
      end
  end.

(** ** Routes (routing/model.rs) *)

Module ProxyHop.
Inductive t :=
| Http (host : str) (port : N)
| Https (host : str) (port : N)
| Socks5 (host : str) (port : N) (auth : option SocksAuth).
Definition host (h : t) : str := match h with Http h _ | Https h _ | Socks5 h _ _ => h end.
Definition port (h : t) : N := match h with Http _ p | Https _ p | Socks5 _ p _ => p end.
Definition addr (h : t) : str := format_host_port (host h) (port h).
Definition auth_prefix (auth : option SocksAuth) : str := match auth with Some _ => lit "auth@" | None => [] end.
Definition label (h : t) : str :=
  match h with
  | Http host port => lit "proxy://" ++ format_host_port host port
  | Https host port => lit "https-proxy://" ++ format_host_port host port
  | Socks5 host port auth => lit "socks5://" ++ auth_prefix auth ++ format_host_port host port
  end.
End ProxyHop.

Module UpstreamRoute.
Inductive t :=
| Direct (host : str) (port : N)
| HttpProxy (proxy_host : str) (proxy_port : N) (target_host : str) (target_port : N)
| ProxyChain (hops : list ProxyHop.t) (target_host : str) (target_port : N)
| HttpsProxy (proxy_host : str) (proxy_port : N) (target_host : str) (target_port : N)
| Socks5 (proxy_host : str) (proxy_port : N) (auth : option SocksAuth) (target_host : str) (target_port : N).

(** [hops[0]] panics for an empty chain, which no route has. *)
Definition first_hop (hops : list ProxyHop.t) : ProxyHop.t := default (ProxyHop.Http [] 0) (head hops).
Definition connect_addr (r : t) : str :=
  match r with
  | Direct host port => format_host_port host port
  | HttpProxy host port _ _ | HttpsProxy host port _ _ | Socks5 host port _ _ _ => format_host_port host port
  | ProxyChain hops _ _ => ProxyHop.addr (first_hop hops)
  end.
Definition session_label (r : t) : str :=
  match r with
  | Direct host port => format_host_port host port
  | HttpProxy host port _ _ => lit "proxy://" ++ format_host_port host port
  | ProxyChain hops _ _ => join (lit "->") (map ProxyHop.label hops)
  | HttpsProxy host port _ _ => lit "https-proxy://" ++ format_host_port host port
  | Socks5 host port auth target_host target_port =>
      lit "socks5://" ++ ProxyHop.auth_prefix auth ++ format_host_port host port ++ lit "->" ++
      format_host_port target_host target_port
  end.
Definition tls_host (r : t) : str :=
  match r with
  | Direct host _ | Socks5 _ _ _ host _ => host
  | ProxyChain hops _ _ => ProxyHop.host (first_hop hops)
  | HttpProxy host _ _ _ | HttpsProxy host _ _ _ => host
  end.
Definition uses_absolute_form (r : t) : bool :=
  match r with
  | HttpProxy _ _ _ _ | HttpsProxy _ _ _ _ => true
  | ProxyChain hops _ _ =>
      match last hops with Some (ProxyHop.Http _ _) | Some (ProxyHop.Https _ _) => true | _ => false end
  | _ => false
  end.
Definition uses_proxy_tunnel_for_https_origin (r : t) (url : UrlParts) : bool :=
  (up_scheme url =s? lit "https") &&
  match r with HttpProxy _ _ _ _ | ProxyChain _ _ _ | HttpsProxy _ _ _ _ => true | _ => false end.
Definition uses_absolute_form_for_url (r : t) (url : UrlParts) : bool :=
  uses_absolute_form r && negb (uses_proxy_tunnel_for_https_origin r url).
Definition uses_tls_to_proxy (r : t) : bool := match r with HttpsProxy _ _ _ _ => true | _ => false end.
Definition tunnel_target_parts (r : t) : str * N :=
  match r with
  | Direct host port | HttpProxy _ _ host port | ProxyChain _ host port | HttpsProxy _ _ host port
  | Socks5 _ _ _ host port => (host, port)
  end.
Definition tunnel_target_addr (r : t) : str :=
  let '(host, port) := tunnel_target_parts r in format_host_port host port.
Definition tunnel_session_label (r : t) : str :=
  match r with
  | Direct _ _ => tunnel_target_addr r
  | HttpProxy _ _ _ _ | ProxyChain _ _ _ | HttpsProxy _ _ _ _ =>
      session_label r ++ lit "->" ++ tunnel_target_addr r
  | Socks5 _ _ _ _ _ => session_label r
  end.
Definition is_direct (r : t) : bool := match r with Direct _ _ => true | _ => false end.
End UpstreamRoute.

(** ** The choice (routing.rs) *)

Definition MAX_RULE_UPSTREAM_HOPS : N := 32.
Definition upstream_entries (value : str) : list str :=
  take_N (MAX_RULE_UPSTREAM_HOPS + 1)
    (List.filter (fun item => negb (is_emptyb item)) (map trim (split_char (ch ",") value))).

Definition strip_either (a b : str) (value : str) : option str :=
  match strip_prefix a value with Some addr => Some addr | None => strip_prefix b value end.
Definition parse_proxy_hop (value : str) : option ProxyHop.t :=
  match strip_either (lit "proxy://") (lit "http://") value with
  | Some addr => let '(host, port) := split_addr addr 80 in Some (ProxyHop.Http host port)
  | None =>
      match strip_prefix (lit "https-proxy://") value with
      | Some addr => let '(host, port) := split_addr addr 443 in Some (ProxyHop.Https host port)
      | None =>
          match strip_either (lit "socks://") (lit "socks5://") value with
          | Some addr =>
              let '(auth, addr) := split_socks_auth addr in
              let '(host, port) := split_addr addr 1080 in Some (ProxyHop.Socks5 host port auth)
          | None => None
          end
      end
  end.

(** A route over one proxy. *)
Definition single_route (hop : ProxyHop.t) (target : str * N) : UpstreamRoute.t :=
  match hop with
  | ProxyHop.Http host port => UpstreamRoute.HttpProxy host port (fst target) (snd target)
  | ProxyHop.Https host port => UpstreamRoute.HttpsProxy host port (fst target) (snd target)
  | ProxyHop.Socks5 host port auth => UpstreamRoute.Socks5 host port auth (fst target) (snd target)
  end.
(** The route an [upstream] value names: a chain when every entry is a hop,
    otherwise the first entry if it is one. *)
Definition route_of_value (rendered : str) (target : str * N) : Result IoError (option UpstreamRoute.t) :=
  let entries := upstream_entries rendered in
  if MAX_RULE_UPSTREAM_HOPS <? blen entries then
    Err (invalid_input (lit "upstream route exceeds the " ++ show_N MAX_RULE_UPSTREAM_HOPS ++ lit "-hop limit"))
  else
    let hops := omap parse_proxy_hop entries in
    if (1 <? blen entries) && (blen hops =? blen entries)
    then Ok (Some (UpstreamRoute.ProxyChain hops (fst target) (snd target)))
    else Ok ((fun hop => single_route hop target) <$> parse_proxy_hop (unwrap_or (head entries) rendered)).

Section Route.
Context {PE : PatternEngines} {CE : CaptureEngine} {RF : RuleFiles}.
Context (config : ProxyConfig) (meta : RequestMeta).
(** The selection of a pool, which its first use in a resolved action fixes. *)
Context (selection : HostPool -> N).

Definition selected_address (pool : HostPool) : Value.t :=
  default (Value.Inline []) (hp_addresses pool !! N.to_nat (selection pool mod blen (hp_addresses pool))).

Fixpoint upstream_target (url : UrlParts) (actions : list ResolvedAction) : Act (str * N) :=
  let port := unwrap_or (effective_port url) 80 in
  match actions with
  | [] => mret (up_host url, port)
  | item :: actions' =>
      match ra_action item with
      | Action.Host pool =>
          rendered ← resolve_value_text_bounded config item meta (selected_address pool) (rule_header_limit config);
          mret (split_addr rendered port)
      | _ => upstream_target url actions'
      end
  end.
Fixpoint route_loop (target : str * N) (actions : list ResolvedAction) : Act UpstreamRoute.t :=
  match actions with
  | [] => mret (UpstreamRoute.Direct (fst target) (snd target))
  | item :: actions' =>
      match ra_action item with
      | Action.Upstream value =>
          rendered ← resolve_value_text_bounded config item meta value (rule_header_limit config);
          route ← lift_result (route_of_value rendered target);
          match route with Some route => mret route | None => route_loop target actions' end
      | _ => route_loop target actions'
      end
  end.
Definition upstream_route (url : UrlParts) (actions : list ResolvedAction) : Act UpstreamRoute.t :=
  target ← upstream_target url actions;
  if existsb (fun item => match ra_action item with Action.Direct => true | _ => false end) actions
  then mret (UpstreamRoute.Direct (fst target) (snd target))
  else route_loop target actions.
End Route.

(** * Upstream routes, proofs

    The route an [upstream] value names goes over the hops it lists, and what
    becomes of a list with an entry that is no hop. *)

(** The proxies a route goes over, in order. *)
Definition hops_of (route : UpstreamRoute.t) : list ProxyHop.t :=
  match route with
  | UpstreamRoute.Direct _ _ => []
  | UpstreamRoute.HttpProxy host port _ _ => [ProxyHop.Http host port]
  | UpstreamRoute.HttpsProxy host port _ _ => [ProxyHop.Https host port]
  | UpstreamRoute.Socks5 host port auth _ _ => [ProxyHop.Socks5 host port auth]
  | UpstreamRoute.ProxyChain hops _ _ => hops
  end.
(** The entries of a list of items: without the spaces around them and without
    the empty ones. *)
Definition entries_of (items : list str) : list str :=
  List.filter (fun item => negb (is_emptyb item)) (map trim items).

Lemma upstream_entries_join items :
  items <> [] -> Forall (fun i => ch "," ∉ i) items ->
  upstream_entries (join [ch ","] items) = take_N (MAX_RULE_UPSTREAM_HOPS + 1) (entries_of items).
Proof. intros Hne Hc. destruct items as [|item items]; [done|]. unfold upstream_entries. by rewrite split_char_join. Qed.

Lemma omap_all {A B} (f : A -> option B) l r : Forall2 (fun x y => f x = Some y) l r -> omap f l = r.
Proof. induction 1 as [|x y l r E _ IH]; [done|]. cbn. by rewrite E, IH. Qed.
Lemma omap_le {A B} (f : A -> option B) l : (length (omap f l) <= length l)%nat.
Proof. induction l as [|x l IH]; [done|]. cbn. destruct (f x); cbn; lia. Qed.
Lemma omap_lt {A B} (f : A -> option B) l :
  Exists (fun x => f x = None) l -> (length (omap f l) < length l)%nat.
Proof.
  induction 1 as [x l E|x l _ IH]; cbn; [rewrite E; pose proof (omap_le f l); lia|].
  destruct (f x); cbn; lia.
Qed.
Lemma hops_of_single hop target : hops_of (single_route hop target) = [hop].
Proof. by destruct hop. Qed.
Lemma target_of_single hop target : UpstreamRoute.tunnel_target_parts (single_route hop target) = target.
Proof. by destruct hop, target. Qed.

(** the route an [upstream] value names.  With at most 32 entries that are
    all hops, the route goes over exactly these hops in this order, to the
    target; with more than 32 entries it is refused.  With an entry that is no
    hop (a misspelt scheme), the other entries do not make a chain either: the
    route goes over the first entry alone, and over no proxy when that is the
    one that is no hop. *)
Theorem upstream_value_route items target :
  items <> [] -> Forall (fun i => ch "," ∉ i) items ->
  let value := join [ch ","] items in
  (MAX_RULE_UPSTREAM_HOPS < blen (entries_of items) ->
   exists m, route_of_value value target = Err (invalid_input m)) /\
  (blen (entries_of items) <= MAX_RULE_UPSTREAM_HOPS -> forall hops, hops <> [] ->
   Forall2 (fun e h => parse_proxy_hop e = Some h) (entries_of items) hops ->
   exists r, route_of_value value target = Ok (Some r) /\ hops_of r = hops /\
     UpstreamRoute.tunnel_target_parts r = target) /\
  (blen (entries_of items) <= MAX_RULE_UPSTREAM_HOPS ->
   Exists (fun e => parse_proxy_hop e = None) (entries_of items) ->
   route_of_value value target =
     Ok ((fun hop => single_route hop target) <$> (head (entries_of items) ≫= parse_proxy_hop))).
Proof.
  intros Hne Hc value. unfold route_of_value, value. rewrite upstream_entries_join by done.
  generalize (entries_of items); intros entries. split_and!.
  - intros Hl. rewrite (proj2 (N.ltb_lt MAX_RULE_UPSTREAM_HOPS _)) by (rewrite blen_take_N; lia). eauto.
  - intros Hl hops Hh Hall. rewrite take_N_all by lia. rewrite (proj2 (N.ltb_ge MAX_RULE_UPSTREAM_HOPS _)) by lia.
    rewrite (omap_all _ _ _ Hall). assert (Hlen : blen hops = blen entries)
      by (unfold blen; f_equal; symmetry; by eapply Forall2_length).
    rewrite Hlen, N.eqb_refl, andb_true_r. destruct (N.ltb_spec 1 (blen entries)) as [H1|H1].
    + eexists. split_and!; [done..|]. by destruct target.
    + destruct Hall as [|e h es hs He Hrest]; [done|]. destruct Hrest; [|autorewrite with blen in H1; lia].
      unfold unwrap_or. cbn [head]. rewrite He. eexists. split_and!; [done|apply hops_of_single|apply target_of_single].
  - intros Hl Hex. rewrite take_N_all by lia. rewrite (proj2 (N.ltb_ge MAX_RULE_UPSTREAM_HOPS _)) by lia.
    apply omap_lt in Hex. rewrite (proj2 (N.eqb_neq (blen (omap parse_proxy_hop entries)) _)) by (unfold blen; lia).
    rewrite andb_false_r. destruct entries as [|e es]; [by apply Nat.nlt_0_r in Hex|done].
Qed.
Lemma upstream_value_route_witness :
  let items := [lit "proxy://a:1"; lit " sock5://u:p@b"] in
  route_of_value (join [ch ","] items) (lit "t", 443) =
    Ok ((fun hop => single_route hop (lit "t", 443)) <$> (head (entries_of items) ≫= parse_proxy_hop)).
Proof.
  apply (upstream_value_route [lit "proxy://a:1"; lit " sock5://u:p@b"] (lit "t", 443)).
  - done.
  - by apply (bool_decide_unpack _).
  - by vm_compute.
  - apply Exists_cons_tl, Exists_cons_hd. by vm_compute.
Defined.
