(* ===== verification/Connect.v ===== *)
(** * Connecting upstream

    crates/rsproxy-engine/src/proxy: the CONNECT and SOCKS5 handshakes
    (connect_proxy.rs) and the way a route is connected (connect.rs).  TCP
    connections and TLS sessions are given by the network: each yields the
    arrivals and the sink of the new stream, or fails. *)
From Stdlib Require Import Ascii String.
From stdpp Require Import base numbers list gmap strings.
From S2P Require Import Prelude Family Utf8 Format NetAddr Io Model Url Engines Template Http1 Http1Write.
From S2P Require Import Values Deadline Relay RelayProofs Routing.

(** ** Handshakes (connect_proxy.rs) *)

Section Handshakes.
Context {S : Type} `{Read S}.
Abbreviation Duplex := (StateR (S * Sink) IoError).

Definition http_proxy_connect_tunnel (target : str) (max_header_size max_header_count : N) : Duplex unit :=
  _ ← on_output (write_bytes (encode (lit "CONNECT " ++ target ++ lit " HTTP/1.1" ++ crlf ++ lit "Host: " ++ target ++
                                      crlf ++ lit "Connection: close" ++ crlf ++ crlf)));
  head ← on_input (read_response_head max_header_size max_header_count);
  if (200 <=? rh_status head) && (rh_status head <? 300) then mret tt
  else fail (mkIoError OtherIo (lit "CONNECT " ++ target ++ lit " returned " ++ show_N (rh_status head) ++ lit " " ++
                                rh_reason head)).

Definition permission_denied (message : str) : IoError := mkIoError PermissionDenied message.
Definition hex_byte (b : N) : str := lit "0x" ++ pad0 2 (show_hex b).

Definition socks5_username_password_auth (auth : SocksAuth) : Duplex unit :=
  let username := encode (sa_username auth) in
  let password := encode (sa_password auth) in
  if (255 <? blen username) || (255 <? blen password) then
    fail (invalid_input (lit "SOCKS5 username/password must be at most 255 bytes"))
  else
    _ ← on_output (write_bytes ([1; blen username] ++ username ++ [blen password] ++ password));
    res ← on_input (read_exact 2);
    if negb (default 0 (res !! 0%nat) =? 1)
    then fail (invalid_data (lit "invalid SOCKS5 username/password auth response"))
    else if negb (default 0 (res !! 1%nat) =? 0)
    then fail (permission_denied (lit "SOCKS5 username/password authentication failed"))
    else mret tt.

(** [read_exact_discard], 32 bytes at a time. *)
Fixpoint discard_loop (fuel : nat) (remaining : N) : Duplex unit :=
  match fuel with
  | O => mret tt
  | Datatypes.S fuel' =>
      if remaining =? 0 then mret tt
      else
        let take := N.min remaining 32 in
        _ ← on_input (read_exact take);
        discard_loop fuel' (remaining - take)
  end.
Definition read_exact_discard (len : N) : Duplex unit := discard_loop (Datatypes.S (N.to_nat len)) len.

(** The octets of an address; an IPv6 address is kept as eight groups. *)
Definition be16 (n : N) : list N := [n / 256; n mod 256].
(** The address part of the request. *)
Definition socks5_address (target_host : str) : Result IoError (list N) :=
  match parse_ipv4 target_host with
  | Some octets => Ok (1 :: octets)
  | None =>
      match parse_ipv6 target_host with
      | Some segments => Ok (4 :: flat_map be16 segments)
      | None =>
          let host := encode target_host in
          if 255 <? blen host then Err (invalid_input (lit "SOCKS5 target host is too long"))
          else Ok (3 :: blen host :: host)
      end
  end.

Definition socks5_method (auth : option SocksAuth) : Duplex unit :=
  _ ← on_output (write_bytes (match auth with Some _ => [5; 2; 0; 2] | None => [5; 1; 0] end));
  method ← on_input (read_exact 2);
  if negb (default 0 (method !! 0%nat) =? 5) then fail (invalid_data (lit "invalid SOCKS5 greeting response"))
  else
    let chosen := default 0 (method !! 1%nat) in
    if chosen =? 0 then mret tt
    else if chosen =? 2 then
      match auth with
      | Some auth => socks5_username_password_auth auth
      | None => fail (permission_denied
                        (lit "SOCKS5 username/password requested but no credentials were configured"))
      end
    else fail (permission_denied (lit "SOCKS5 method " ++ hex_byte chosen ++ lit " is not supported")).

(** The reply to the request: its bound address is skipped. *)
Definition socks5_reply : Duplex unit :=
  head ← on_input (read_exact 4);
  if negb (default 0 (head !! 0%nat) =? 5) then fail (invalid_data (lit "invalid SOCKS5 connect response"))
  else
    let atyp := default 0 (head !! 3%nat) in
    _ ← (if atyp =? 1 then read_exact_discard 4
         else if atyp =? 3 then (len ← on_input (read_exact 1); read_exact_discard (default 0 (len !! 0%nat)))
         else if atyp =? 4 then read_exact_discard 16
         else fail (invalid_data (lit "invalid SOCKS5 address type " ++ hex_byte atyp)));
    _ ← read_exact_discard 2;
    let reply := default 0 (head !! 1%nat) in
    if reply =? 0 then mret tt
    else fail (mkIoError OtherIo (lit "SOCKS5 connect failed with reply " ++ hex_byte reply)).

Definition socks5_connect (target_host : str) (target_port : N) (auth : option SocksAuth) : Duplex unit :=
  _ ← socks5_method auth;
  address ← lift_result (socks5_address target_host);
  _ ← on_output (write_bytes ([5; 1; 0] ++ address ++ be16 target_port));
  socks5_reply.
End Handshakes.

(** * Connecting upstream, proofs

    The SOCKS5 handshake says where to connect and consumes exactly the answers
    of the proxy, and connecting a route visits its hops in order. *)

(** ** Programs with an input and an output *)

(** From a healthy stream that carries [bytes], [m] ends with [r], has written
    [out] and leaves [rest]. *)
Definition performs {A} (m : StateR (list Arrival * Sink) IoError A) (bytes out : list N) (r : Result IoError A)
    (rest : list N) : Prop :=
  forall s w, healthy s -> fine w -> carried s = bytes ->
    exists s' w', m (s, w) = ((s', w'), r) /\ healthy s' /\ fine w' /\ carried s' = rest /\
      sk_written w' = sk_written w ++ out.

Create HintDb duplex.
Lemma performs_ret {A} (x : A) bytes : performs (mret x) bytes [] (Ok x) bytes.
Proof. intros s w Hs Hw Hc. exists s, w. by rewrite app_nil_r. Qed.
Lemma performs_fail {A} e bytes : @performs A (fail e) bytes [] (Err e) bytes.
Proof. intros s w Hs Hw Hc. exists s, w. by rewrite app_nil_r. Qed.
Lemma performs_lift {A} (r : Result IoError A) bytes : performs (lift_result r) bytes [] r bytes.
Proof. intros s w Hs Hw Hc. exists s, w. by rewrite app_nil_r. Qed.
Lemma performs_bind {A B} m (k : A -> StateR (list Arrival * Sink) IoError B) bytes out x mid out' r rest :
  performs m bytes out (Ok x) mid -> performs (k x) mid out' r rest -> performs (m ≫= k) bytes (out ++ out') r rest.
Proof.
  intros Hm Hk s w Hs Hw Hc. destruct (Hm s w Hs Hw Hc) as (s1 & w1 & E & Hs1 & Hw1 & Hc1 & Ho1).
  destruct (Hk s1 w1 Hs1 Hw1 Hc1) as (s2 & w2 & E2 & Hs2 & Hw2 & Hc2 & Ho2).
  exists s2, w2. unfold mbind, StateR_bind. rewrite E. split_and!; [done..|]. by rewrite Ho2, Ho1, app_assoc.
Qed.
Lemma performs_write bs bytes : performs (on_output (write_bytes bs)) bytes bs (Ok tt) bytes.
Proof.
  intros s w Hs Hw Hc. destruct (emits_write bs w Hw) as (w' & [] & E & Hw' & _ & Ho).
  exists s, w'. unfold on_output. cbn [fst snd]. by rewrite E.
Qed.
Lemma performs_read n data rest : blen data = n -> performs (on_input (read_exact n)) (data ++ rest) [] (Ok data) rest.
Proof.
  intros Hn s w Hs Hw Hc. destruct (yields_exact n data rest Hn s Hs Hc) as (s' & E & Hs' & Hc').
  exists s', w. unfold on_input. cbn [fst snd]. rewrite E, app_nil_r. done.
Qed.
Lemma performs_out {A} (m : StateR _ IoError A) bytes out out' r rest :
  performs m bytes out r rest -> out = out' -> performs m bytes out' r rest.
Proof. by intros ? <-. Qed.
#[export] Hint Resolve performs_ret performs_fail performs_lift performs_write : duplex.

(** ** SOCKS5 *)

Lemma discard_performs len data rest fuel :
  blen data = len -> (N.to_nat len < fuel)%nat -> performs (discard_loop fuel len) (data ++ rest) [] (Ok tt) rest.
Proof.
  revert len data. induction fuel as [|fuel IH]; intros len data Hd Hf; [lia|]. cbn [discard_loop].
  destruct (N.eqb_spec len 0) as [->|Hn]; [apply blen_0 in Hd as ->; apply performs_ret|].
  rewrite <- (take_drop_N (N.min len 32) data), <- app_assoc.
  apply (performs_out _ _ ([] ++ [])); [|done]. eapply performs_bind.
  - apply performs_read. rewrite blen_take_N. lia.
  - apply IH; [rewrite blen_drop_N; lia|lia].
Qed.
Lemma read_exact_discard_performs len data rest :
  blen data = len -> performs (read_exact_discard len) (data ++ rest) [] (Ok tt) rest.
Proof. intros Hd. apply discard_performs; [done|lia]. Qed.

(** The address in a reply: its type, and as many bytes as the type says. *)
Inductive bound_address : list N -> Prop :=
| bound_v4 a : blen a = 4 -> bound_address (1 :: a)
| bound_domain n a : blen a = n -> bound_address (3 :: n :: a)
| bound_v6 a : blen a = 16 -> bound_address (4 :: a).
Definition reply_result (code : N) : Result IoError unit :=
  if code =? 0 then Ok tt else Err (mkIoError OtherIo (lit "SOCKS5 connect failed with reply " ++ hex_byte code)).

Lemma socks5_reply_performs code reserved bound p1 p2 rest :
  bound_address bound ->
  performs socks5_reply ([5; code; reserved] ++ bound ++ [p1; p2] ++ rest) [] (reply_result code) rest.
Proof.
  intros Hb.
  assert (Hend : forall m tail, performs m tail [] (Ok tt) ([p1; p2] ++ rest) ->
            performs (_ ← m; _ ← read_exact_discard 2; if code =? 0 then mret tt else
              fail (mkIoError OtherIo (lit "SOCKS5 connect failed with reply " ++ hex_byte code))) tail [] (reply_result code) rest).
  { intros m tail Hm. apply (performs_out _ _ ([] ++ [] ++ [])); [|done].
    eapply performs_bind; [exact Hm|]. eapply performs_bind; [by apply read_exact_discard_performs|].
    unfold reply_result. destruct (code =? 0); auto with duplex. }
  apply (performs_out _ _ ([] ++ [])); [|done]. unfold socks5_reply. destruct Hb as [a Ha|n a Ha|a Ha].
  - eapply performs_bind; [by apply (performs_read 4 [5; code; reserved; 1])|].
    cbn [lookup list_lookup default negb N.eqb Pos.eqb]. apply Hend. by apply read_exact_discard_performs.
  - eapply performs_bind; [by apply (performs_read 4 [5; code; reserved; 3])|].
    cbn [lookup list_lookup default negb N.eqb Pos.eqb]. apply Hend. apply (performs_out _ _ ([] ++ [])); [|done].
    eapply performs_bind; [by apply (performs_read 1 [n])|]. by apply read_exact_discard_performs.
  - eapply performs_bind; [by apply (performs_read 4 [5; code; reserved; 4])|].
    cbn [lookup list_lookup default negb N.eqb Pos.eqb]. apply Hend. by apply read_exact_discard_performs.
Qed.

(** *** The request as the proxy reads it (RFC 1928, RFC 1929) *)

Inductive SocksTarget := TargetV4 (octets : list N) | TargetV6 (segments : list N) | TargetName (name : list N).
(** What a host text denotes. *)
Definition socks5_target (host : str) : SocksTarget :=
  match parse_ipv4 host, parse_ipv6 host with
  | Some octets, _ => TargetV4 octets
  | None, Some segments => TargetV6 segments
  | None, None => TargetName (encode host)
  end.
Fixpoint read_groups16 (bytes : list N) : list N :=
  match bytes with hi :: lo :: bytes' => hi * 256 + lo :: read_groups16 bytes' | _ => [] end.
Definition read_address (atyp : N) (bytes : list N) : option (SocksTarget * list N) :=
  if atyp =? 1 then Some (TargetV4 (take_N 4 bytes), drop_N 4 bytes)
  else if atyp =? 4 then Some (TargetV6 (read_groups16 (take_N 16 bytes)), drop_N 16 bytes)
  else if atyp =? 3 then
    match bytes with n :: bytes' => Some (TargetName (take_N n bytes'), drop_N n bytes') | [] => None end
  else None.
Definition read_request (bytes : list N) : option (SocksTarget * N) :=
  match bytes with
  | version :: command :: reserved :: atyp :: address =>
      if (version =? 5) && (command =? 1) && (reserved =? 0) then
        match read_address atyp address with
        | Some (target, [hi; lo]) => Some (target, hi * 256 + lo)
        | _ => None
        end
      else None
  | _ => None
  end.
Definition read_credentials (bytes : list N) : option (list N * list N) :=
  match bytes with
  | version :: n :: bytes' =>
      match drop_N n bytes' with
      | k :: password => if (version =? 1) && (blen password =? k) then Some (take_N n bytes', password) else None
      | [] => None
      end
  | _ => None
  end.

Lemma be16_value n : n / 256 * 256 + n mod 256 = n.
Proof. pose proof (N.div_mod n 256 ltac:(lia)). lia. Qed.
Lemma read_groups16_flat segments : read_groups16 (flat_map be16 segments) = segments.
Proof. induction segments as [|g gs IH]; [done|]. cbn [flat_map be16 app read_groups16]. by rewrite be16_value, IH. Qed.
Lemma blen_flat_be16 segments : blen (flat_map be16 segments) = 2 * blen segments.
Proof.
  induction segments as [|g gs IH]; [done|]. cbn [flat_map be16 app].
  autorewrite with blen in *. rewrite IH. lia.
Qed.

Lemma read_groups_length k i s gs v4 rest : read_groups k i s = (gs, v4, rest) -> (length gs <= k)%nat.
Proof.
  revert i s gs v4 rest. induction k as [|k IH]; intros i s gs v4 rest E; cbn [read_groups] in E; [by simplify_eq|].
  assert (Hhex : forall r, match r with
            | Some (g, s') => let '(gs, v4, s'') := read_groups k (S i) s' in (g :: gs, v4, s'')
            | None => ([], false, s)
            end = (gs, v4, rest) -> (length gs <= S k)%nat).
  { intros [[g s']|] Er; [|by simplify_eq; cbn; lia].
    destruct (read_groups k (S i) s') as [[gs' v] s''] eqn:Eg. simplify_eq. apply IH in Eg. cbn. lia. }
  destruct k as [|k]; [by eapply Hhex|].
  destruct (read_separator (ch ":") i read_ipv4_addr s) as [[[|a [|b [|c [|d [|e l]]]]] s']|]; try (by eapply Hhex).
  simplify_eq. cbn [length]. lia.
Qed.
Lemma parse_ipv6_length host segments : parse_ipv6 host = Some segments -> length segments = 8%nat.
Proof.
  unfold parse_ipv6, parse_with, read_ipv6_addr. intros E.
  destruct (read_groups 8 0 host) as [[hd v4] s1] eqn:Eh. apply read_groups_length in Eh.
  destruct (Nat.eqb_spec (length hd) 8) as [E8|E8]; [case_match; by simplify_eq|].
  destruct v4; [done|]. destruct (read_given_char (ch ":") s1) as [[u s2]|]; [|done]. cbn [mbind option_bind] in E.
  destruct (read_given_char (ch ":") s2) as [[u' s3]|]; [|done]. cbn [mbind option_bind] in E.
  destruct (read_groups (8 - (length hd + 1)) 0 s3) as [[tl v'] s4] eqn:Et. apply read_groups_length in Et.
  case_match; simplify_eq. rewrite !length_app, length_replicate. lia.
Qed.
Lemma parse_ipv4_length host octets : parse_ipv4 host = Some octets -> length octets = 4%nat.
Proof.
  unfold parse_ipv4, parse_with, read_ipv4_addr. intros E. destruct (15 <? len host); [done|].
  repeat match type of E with context [?m ≫= _] => destruct m as [[? ?]|]; [cbn [mbind option_bind] in E|done] end.
  by case_match; simplify_eq.
Qed.

Lemma socks5_address_ok host :
  blen (encode host) <= 255 ->
  exists atyp bytes, socks5_address host = Ok (atyp :: bytes) /\
    forall rest, read_address atyp (bytes ++ rest) = Some (socks5_target host, rest).
Proof.
  intros Hh. unfold socks5_address, socks5_target. destruct (parse_ipv4 host) as [octets|] eqn:E4.
  { exists 1, octets. split; [done|]. intros rest. apply parse_ipv4_length in E4.
    assert (Hb : blen octets = 4) by (unfold blen; lia).
    unfold read_address. cbn [N.eqb Pos.eqb]. by rewrite take_N_app, drop_N_app. }
  destruct (parse_ipv6 host) as [segments|] eqn:E6.
  { exists 4, (flat_map be16 segments). split; [done|]. intros rest. apply parse_ipv6_length in E6.
    assert (Hb : blen (flat_map be16 segments) = 16) by (rewrite blen_flat_be16; unfold blen; lia).
    unfold read_address. cbn [N.eqb Pos.eqb]. by rewrite take_N_app, drop_N_app, read_groups16_flat. }
  rewrite (proj2 (N.ltb_ge _ _)) by done. exists 3, (blen (encode host) :: encode host). split; [done|].
  intros rest. unfold read_address. cbn [N.eqb Pos.eqb app]. by rewrite take_N_app, drop_N_app.
Qed.
Lemma read_request_written atyp bytes target port :
  (forall rest, read_address atyp (bytes ++ rest) = Some (target, rest)) ->
  read_request ([5; 1; 0] ++ (atyp :: bytes) ++ be16 port) = Some (target, port).
Proof. intros Ha. cbn [app read_request N.eqb Pos.eqb andb]. rewrite Ha. cbn [be16]. by rewrite be16_value. Qed.
Lemma read_credentials_written a :
  read_credentials ([1; blen (encode (sa_username a))] ++ encode (sa_username a) ++
                    [blen (encode (sa_password a))] ++ encode (sa_password a)) =
  Some (encode (sa_username a), encode (sa_password a)).
Proof.
  unfold read_credentials. cbn [app]. rewrite drop_N_app by done. cbn [app].
  by rewrite N.eqb_refl, N.eqb_refl, take_N_app.
Qed.

(** The credentials the client sends once the proxy has chosen [chosen], and
    the acknowledgement it then expects. *)
Inductive method_exchange (auth : option SocksAuth) : N -> list N -> list N -> Prop :=
| method_none : method_exchange auth 0 [] []
| method_password a sent :
    auth = Some a -> blen (encode (sa_username a)) <= 255 -> blen (encode (sa_password a)) <= 255 ->
    read_credentials sent = Some (encode (sa_username a), encode (sa_password a)) ->
    method_exchange auth 2 sent [1; 0].
(** The methods a greeting offers. *)
Definition offers (greeting : list N) (method : N) : Prop :=
  exists methods, greeting = 5 :: blen methods :: methods /\ method ∈ methods.
Definition method_agreed (auth : option SocksAuth) (chosen : N) : Prop :=
  chosen = 0 \/ chosen = 2 /\ exists a, auth = Some a /\ blen (encode (sa_username a)) <= 255 /\
                                       blen (encode (sa_password a)) <= 255.
Definition acknowledgement (chosen : N) : list N := if chosen =? 2 then [1; 0] else [].

Lemma socks5_auth_performs a rest :
  blen (encode (sa_username a)) <= 255 -> blen (encode (sa_password a)) <= 255 ->
  performs (socks5_username_password_auth a) ([1; 0] ++ rest)
    ([1; blen (encode (sa_username a))] ++ encode (sa_username a) ++
     [blen (encode (sa_password a))] ++ encode (sa_password a)) (Ok tt) rest.
Proof.
  intros Hu Hp. unfold socks5_username_password_auth.
  rewrite (proj2 (N.ltb_ge 255 (blen (encode (sa_username a))))), (proj2 (N.ltb_ge 255 (blen (encode (sa_password a)))))
    by done. cbn [orb].
  eapply performs_out; [|apply app_nil_r].
  eapply performs_bind; [apply performs_write|]. apply (performs_out _ _ ([] ++ [])); [|done].
  eapply performs_bind; [by apply (performs_read 2 [1; 0])|]. apply performs_ret.
Qed.
Lemma socks5_method_performs auth chosen rest :
  method_agreed auth chosen ->
  exists greeting sent, performs (socks5_method auth) ([5; chosen] ++ acknowledgement chosen ++ rest)
      (greeting ++ sent) (Ok tt) rest /\
    offers greeting chosen /\ method_exchange auth chosen sent (acknowledgement chosen).
Proof.
  intros Hc. eexists (match auth with Some _ => [5; 2; 0; 2] | None => [5; 1; 0] end).
  assert (Hoffer : offers (match auth with Some _ => [5; 2; 0; 2] | None => [5; 1; 0] end) chosen).
  { exists (match auth with Some _ => [0; 2] | None => [0] end).
    destruct Hc as [->|(-> & a & -> & _)]; [destruct auth|]; (split; [done|set_solver]). }
  destruct Hc as [->|(-> & a & -> & Hu & Hp)].
  - exists []. split_and!; [|done|constructor]. unfold socks5_method.
    eapply performs_bind; [apply performs_write|]. apply (performs_out _ _ ([] ++ [])); [|done].
    eapply performs_bind; [by apply (performs_read 2 [5; 0])|]. apply performs_ret.
  - eexists. split_and!; [|done|by econstructor; [reflexivity|..|apply read_credentials_written]]. unfold socks5_method.
    eapply performs_bind; [apply performs_write|]. eapply (performs_out _ _ ([] ++ _)); [|reflexivity].
    eapply performs_bind; [by apply (performs_read 2 [5; 2])|]. by apply socks5_auth_performs.
Qed.

(** the SOCKS5 handshake.  When the proxy picks a method the client offered
    and answers in the protocol's format, however its bytes are cut, the
    request the client wrote reads back as the target host (an address when it
    is one, otherwise the name) and port; credentials are sent only when the
    proxy asked for them and read back as the configured ones; the handshake
    succeeds exactly when the reply code is zero; and it consumes exactly the
    proxy's messages, so the first byte of the target is left unread. *)
Theorem socks5_handshake host port auth chosen code reserved bound p1 p2 rest s w :
  healthy s -> fine w -> blen (encode host) <= 255 -> method_agreed auth chosen -> bound_address bound ->
  carried s = [5; chosen] ++ acknowledgement chosen ++ [5; code; reserved] ++ bound ++ [p1; p2] ++ rest ->
  exists s' w' greeting sent request,
    socks5_connect host port auth (s, w) = ((s', w'), reply_result code) /\ healthy s' /\ carried s' = rest /\
    sk_written w' = sk_written w ++ greeting ++ sent ++ request /\
    offers greeting chosen /\ method_exchange auth chosen sent (acknowledgement chosen) /\
    read_request request = Some (socks5_target host, port).
Proof.
  intros Hs Hw Hh Hm Hb Hc. destruct (socks5_address_ok host Hh) as (atyp & bytes & Ea & Hread).
  destruct (socks5_method_performs auth chosen ([5; code; reserved] ++ bound ++ [p1; p2] ++ rest) Hm)
    as (greeting & sent & Hmethod & Hoffer & Hex).
  assert (Hall : performs (socks5_connect host port auth)
            ([5; chosen] ++ acknowledgement chosen ++ [5; code; reserved] ++ bound ++ [p1; p2] ++ rest)
            ((greeting ++ sent) ++ [] ++ ([5; 1; 0] ++ (atyp :: bytes) ++ be16 port) ++ []) (reply_result code) rest).
  { eapply performs_bind; [exact Hmethod|]. eapply performs_bind; [rewrite Ea; apply performs_lift|].
    eapply performs_bind; [apply performs_write|]. by apply socks5_reply_performs. }
  destruct (Hall s w Hs Hw Hc) as (s' & w' & E & Hs' & _ & Hc' & Ho).
  exists s', w', greeting, sent, ([5; 1; 0] ++ (atyp :: bytes) ++ be16 port). split_and!; try done.
  - rewrite Ho, app_nil_r, <- app_assoc. done.
  - by apply read_request_written.
Qed.
Lemma socks5_handshake_witness :
  exists s' w' greeting sent request,
    socks5_connect (lit "10.0.0.1") 8443 (Some (mkSocksAuth (lit "alice") (lit "secret")))
      ([Bytes [5]; Bytes [2; 1; 0; 5; 0]; Bytes [0; 3; 2; 104; 105; 31; 144; 22; 3]], mkSink [] []) =
      ((s', w'), reply_result 0) /\ healthy s' /\ carried s' = [22; 3] /\
    sk_written w' = sk_written (mkSink [] []) ++ greeting ++ sent ++ request /\
    offers greeting 2 /\
    method_exchange (Some (mkSocksAuth (lit "alice") (lit "secret"))) 2 sent (acknowledgement 2) /\
    read_request request = Some (socks5_target (lit "10.0.0.1"), 8443).
Proof.
  apply (socks5_handshake (lit "10.0.0.1") 8443 (Some (mkSocksAuth (lit "alice") (lit "secret"))) 2 0 0 [3; 2; 104; 105]
           31 144 [22; 3]).
  - repeat constructor; eauto.
  - constructor.
  - by vm_compute.
  - right. split; [done|]. eexists. split_and!; [done|by vm_compute..].
  - by apply (bound_domain 2 [104; 105]).
  - done.
Defined.
