(* ===== verification/Dial.v ===== *)
(** * Dialling an upstream

    crates/rsproxy-engine/src/proxy: TCP connections with their DNS and connect
    budgets (connect_tls/timing.rs), TLS sessions over a connection
    (connect_tls/handshake.rs), and connecting a route (connect.rs).

    The network answers through [Network]: every reading of the clock, name
    lookup, connection attempt, TLS handshake and socket option of a dial is an
    event, numbered in the order it happens.  A connection is the plaintext of
    its innermost layer: what the far end sends, and the sink towards it.  As
    elsewhere, a deadline that expires while a handshake reads or writes is a
    fault of that stream.  [d_legs] records, in order, the legs that were
    attempted; nothing reads it. *)
From Stdlib Require Import Ascii String.
From stdpp Require Import base numbers list gmap strings.
From S2P Require Import Prelude Family Utf8 Format NetAddr Io Model Url Engines TraceModel Template Http1.
From S2P Require Import Http1Write Values Deadline Relay Routing Connect.

Definition Conn : Type := list Arrival * Sink.

(** [TlsWrapInput]: the identity is what the rule's certificate files load as. *)
Record TlsWrap (Identity : Type) := mkTlsWrap {
  tw_host : str; tw_identity : option Identity; tw_policy : option TlsOp; tw_allow_h2 : bool }.
Arguments mkTlsWrap {_} _ _ _ _. Arguments tw_host {_} _. Arguments tw_identity {_} _.
Arguments tw_policy {_} _. Arguments tw_allow_h2 {_} _.

(** The other requests a dial makes of a socket: [set_nodelay], one of its
    timeouts, and [try_clone]. *)
Module SocketOption.
Inductive t := NoDelay | ReadTimeout (timeout : N) | WriteTimeout (timeout : N) | GetReadTimeout | Duplicate.
End SocketOption.

Class Network (Identity : Type) := {
  nw_clock : N -> N;
  nw_millis : N -> N;
  nw_resolve : N -> str -> N -> Result IoError (list SocketAddr);
  nw_connect : N -> SocketAddr -> N -> Result IoError Conn;
  nw_tls : N -> TlsWrap Identity -> N -> Conn -> Result IoError (Conn * TlsRecord);
  nw_set_timeouts : N -> Conn -> N -> N -> Result IoError unit;
  nw_set_option : N -> Conn -> SocketOption.t -> Result IoError unit;
}.

(** The timeouts of the configuration. *)
Record Timeouts := mkTimeouts { to_dns : N; to_connect : N; to_tls : N }.
Definition UPSTREAM_READ_TIMEOUT : N := 60 * 1000000000.
Definition UPSTREAM_WRITE_TIMEOUT : N := 30 * 1000000000.

Inductive Leg (Identity : Type) :=
| TcpLeg (addr : str)
| TlsLeg (wrap : TlsWrap Identity)
| ConnectLeg (target : str)
| SocksLeg (host : str) (port : N) (auth : option SocksAuth).
Arguments TcpLeg {_} _. Arguments TlsLeg {_} _. Arguments ConnectLeg {_} _. Arguments SocksLeg {_} _ _ _.

Record Dial (Identity : Type) := mkDial {
  d_step : N; d_legs : list (Leg Identity); d_dns_ms : N; d_connect_ms : N; d_tls : list TlsRecord }.
Arguments mkDial {_} _ _ _ _ _. Arguments d_step {_} _. Arguments d_legs {_} _. Arguments d_dns_ms {_} _.
Arguments d_connect_ms {_} _. Arguments d_tls {_} _.

Section Dialling.
Context {Identity : Type} {NW : Network Identity}.
Context (config : ProxyConfig) (timeouts : Timeouts) (deadline : RequestDeadline).
Abbreviation Dialling := (StateR (Dial Identity) IoError).

(** The next event. *)
Definition event {A} (f : N -> A) : Dialling A := fun d =>
  (mkDial (d_step d + 1) (d_legs d) (d_dns_ms d) (d_connect_ms d) (d_tls d), Ok (f (d_step d))).
Definition try_event {A} (f : N -> Result IoError A) : Dialling A := r ← event f; lift_result r.
Definition leg (l : Leg Identity) : Dialling unit := fun d =>
  (mkDial (d_step d) (d_legs d ++ [l]) (d_dns_ms d) (d_connect_ms d) (d_tls d), Ok tt).
Definition add_dns_ms (ms : N) : Dialling unit := fun d =>
  (mkDial (d_step d) (d_legs d) (saturating_add U64_MAX (d_dns_ms d) ms) (d_connect_ms d) (d_tls d), Ok tt).
Definition add_connect_ms (ms : N) : Dialling unit := fun d =>
  (mkDial (d_step d) (d_legs d) (d_dns_ms d) (saturating_add U64_MAX (d_connect_ms d) ms) (d_tls d), Ok tt).
Definition push_tls_record (r : TlsRecord) : Dialling unit := fun d =>
  (mkDial (d_step d) (d_legs d) (d_dns_ms d) (d_connect_ms d) (d_tls d ++ [r]), Ok tt).
(** The result of a part as a value, its effects kept. *)
Definition attempt {A} (m : Dialling A) : Dialling (Result IoError A) := fun d => let '(d', r) := m d in (d', Ok r).
Definition map_err {A} (f : IoError -> IoError) (r : Result IoError A) : Result IoError A :=
  match r with Ok x => Ok x | Err e => Err (f e) end.

Definition set_io_timeouts (conn : Conn) (read write : N) : Dialling unit :=
  try_event (fun i => nw_set_timeouts i conn read write).
Definition restore_upstream_timeouts (conn : Conn) : Dialling unit :=
  set_io_timeouts conn UPSTREAM_READ_TIMEOUT UPSTREAM_WRITE_TIMEOUT.

(** ** TCP (connect_tls/timing.rs) *)

Definition duration_millis (duration : N) : N := N.min (as_millis duration) U64_MAX.
Definition tcp_connect_timeout_error (timeout : N) (addr : str) : IoError :=
  mkIoError TimedOut (lit "stage=connect: timeout after " ++ show_N (as_millis timeout) ++ lit "ms connecting to " ++ addr).
Definition staged_io_error (stage : str) (e : IoError) : IoError :=
  mkIoError (io_kind e) (lit "stage=" ++ stage ++ lit ": " ++ io_message e).
(** What is left of a timeout that started at [started]. *)
Definition left_of (timeout started now : N) : option N :=
  match checked_sub timeout (saturating_sub now started) with
  | Some rest => if rest =? 0 then None else Some rest
  | None => None
  end.

Fixpoint connect_addresses (addr : str) (timeout started : N) (last_error : option IoError)
    (addresses : list SocketAddr) : Dialling Conn :=
  match addresses with
  | [] =>
      fail (staged_io_error (lit "connect")
              (default (mkIoError AddrNotAvailable (lit "no address was connectable")) last_error))
  | address :: addresses' =>
      now ← event nw_clock;
      match left_of timeout started now with
      | None => fail (tcp_connect_timeout_error timeout addr)
      | Some remaining =>
          r ← event (fun i => nw_connect i address remaining);
          match r with
          | Ok tcp => mret tcp
          | Err e =>
              if is_timeout_kind e then fail (tcp_connect_timeout_error timeout addr)
              else connect_addresses addr timeout started (Some e) addresses'
          end
      end
  end.

Definition connect_tcp_with_timeouts (addr : str) : Dialling Conn :=
  _ ← leg (TcpLeg addr);
  dns_started ← event nw_clock;
  now ← event nw_clock;
  dns_budget ← lift_result (budget deadline now (to_dns timeouts));
  addresses ← event (fun i => nw_resolve i addr (tb_timeout dns_budget));
  now ← event nw_clock;
  _ ← add_dns_ms (duration_millis (saturating_sub now dns_started));
  addresses ← lift_result (map_err (map_timeout dns_budget) addresses);
  if is_emptyb addresses
  then fail (mkIoError AddrNotAvailable (lit "stage=dns: no addresses resolved for " ++ addr))
  else
    now ← event nw_clock;
    connect_budget ← lift_result (budget deadline now (to_connect timeouts));
    started ← event nw_clock;
    result ← attempt (connect_addresses addr (tb_timeout connect_budget) started None addresses);
    now ← event nw_clock;
    _ ← add_connect_ms (duration_millis (saturating_sub now started));
    tcp ← lift_result (map_err (map_timeout connect_budget) result);
    _ ← set_io_timeouts tcp UPSTREAM_READ_TIMEOUT UPSTREAM_WRITE_TIMEOUT;
    mret tcp.

(** ** TLS (connect_tls/handshake.rs, connect_tls/records.rs) *)

Definition owned (s : str) : Buf N := mkBuf s (len s).
Definition failed_tls_record (phase host : str) (handshake_ms : N) (e : IoError) : TlsRecord :=
  mkTlsRecord (owned phase) (owned host) handshake_ms 0 None None None (Some (owned (io_message e))).
Definition tls_wrap_upstream_stream (upstream : Conn) (input : TlsWrap Identity) : Dialling Conn :=
  _ ← leg (TlsLeg input);
  started_ms ← event nw_millis;
  now ← event nw_clock;
  handshake_budget ← lift_result (budget deadline now (to_tls timeouts));
  r ← event (fun i => nw_tls i input (tb_timeout handshake_budget) upstream);
  match r with
  | Ok (stream, record) =>
      _ ← set_io_timeouts stream UPSTREAM_READ_TIMEOUT UPSTREAM_WRITE_TIMEOUT;
      _ ← push_tls_record record;
      mret stream
  | Err e =>
      let e := map_timeout handshake_budget e in
      now ← event nw_millis;
      _ ← push_tls_record (failed_tls_record (lit "upstream_tls") (tw_host input) (saturating_sub now started_ms) e);
      fail e
  end.

(** ** Handshakes over a connection (connect.rs) *)

Definition handshake (stage : str) (conn : Conn) (m : StateR Conn IoError unit) : Dialling Conn :=
  match m conn with
  | (conn', Ok _) => mret conn'
  | (_, Err e) => fail (stage_io_error stage e)
  end.
Definition http_proxy_connect_with_deadline (conn : Conn) (target : str) : Dialling Conn :=
  _ ← leg (ConnectLeg target);
  handshake (lit "proxy_connect") conn
    (http_proxy_connect_tunnel target (pc_max_header_size config) (pc_max_header_count config)).
Definition socks5_connect_with_deadline (conn : Conn) (host : str) (port : N) (auth : option SocksAuth) : Dialling Conn :=
  _ ← leg (SocksLeg host port auth);
  handshake (lit "socks5") conn (socks5_connect host port auth).

(** ** Routes (connect.rs) *)

Definition plain_tls (host : str) : TlsWrap Identity := mkTlsWrap host None None false.
(** [if let ProxyHop::Https { host, .. } = hop { tls_wrap_upstream_stream(..) }]. *)
Definition wrap_hop (hop : ProxyHop.t) (conn : Conn) : Dialling Conn :=
  match hop with
  | ProxyHop.Https host _ => tls_wrap_upstream_stream conn (plain_tls host)
  | _ => mret conn
  end.
(** The turns of the loop over [1..hops.len()], with the previous hop. *)
Fixpoint chain_loop (prev : ProxyHop.t) (hops : list ProxyHop.t) (conn : Conn) : Dialling Conn :=
  match hops with
  | [] => mret conn
  | next :: hops' =>
      conn ← match prev with
             | ProxyHop.Http _ _ | ProxyHop.Https _ _ => http_proxy_connect_with_deadline conn (ProxyHop.addr next)
             | ProxyHop.Socks5 _ _ auth =>
                 socks5_connect_with_deadline conn (ProxyHop.host next) (ProxyHop.port next) auth
             end;
      conn ← wrap_hop next conn;
      chain_loop next hops' conn
  end.
Definition empty_chain : IoError := invalid_input (lit "proxy chain is empty").
Definition connect_proxy_chain_to_final (hops : list ProxyHop.t) : Dialling Conn :=
  match hops with
  | [] => fail empty_chain
  | first :: rest =>
      tcp ← connect_tcp_with_timeouts (ProxyHop.addr first);
      upstream ← wrap_hop first tcp;
      upstream ← chain_loop first rest upstream;
      _ ← restore_upstream_timeouts upstream;
      mret upstream
  end.

Definition connect_tunnel_upstream_recorded (route : UpstreamRoute.t) : Dialling Conn :=
  match route with
  | UpstreamRoute.Direct _ _ => connect_tcp_with_timeouts (UpstreamRoute.connect_addr route)
  | UpstreamRoute.Socks5 _ _ auth target_host target_port =>
      tcp ← connect_tcp_with_timeouts (UpstreamRoute.connect_addr route);
      upstream ← socks5_connect_with_deadline tcp target_host target_port auth;
      _ ← restore_upstream_timeouts upstream;
      mret upstream
  | UpstreamRoute.HttpProxy _ _ _ _ =>
      tcp ← connect_tcp_with_timeouts (UpstreamRoute.connect_addr route);
      upstream ← http_proxy_connect_with_deadline tcp (UpstreamRoute.tunnel_target_addr route);
      _ ← restore_upstream_timeouts upstream;
      mret upstream
  | UpstreamRoute.ProxyChain hops _ _ =>
      upstream ← connect_proxy_chain_to_final hops;
      upstream ← match last hops with
                 | Some (ProxyHop.Http _ _) | Some (ProxyHop.Https _ _) =>
                     http_proxy_connect_with_deadline upstream (UpstreamRoute.tunnel_target_addr route)
                 | Some (ProxyHop.Socks5 _ _ auth) =>
                     let '(host, port) := UpstreamRoute.tunnel_target_parts route in
                     socks5_connect_with_deadline upstream host port auth
                 | None => fail empty_chain
                 end;
      _ ← restore_upstream_timeouts upstream;
      mret upstream
  | UpstreamRoute.HttpsProxy _ _ _ _ =>
      tcp ← connect_tcp_with_timeouts (UpstreamRoute.connect_addr route);
      tls ← tls_wrap_upstream_stream tcp (plain_tls (UpstreamRoute.tls_host route));
      tls ← http_proxy_connect_with_deadline tls (UpstreamRoute.tunnel_target_addr route);
      _ ← restore_upstream_timeouts tls;
      mret tls
  end.

(** tls/policy.rs *)
Definition tls_action (actions : list ResolvedAction) : option TlsOp :=
  head (omap (fun item => match ra_action item with Action.Tls op => Some op | _ => None end) actions).
Definition origin_tls_supported (url : UrlParts) (route : UpstreamRoute.t) : bool :=
  (up_scheme url =s? lit "https") &&
  (match route with UpstreamRoute.Direct _ _ | UpstreamRoute.Socks5 _ _ _ _ _ => true | _ => false end ||
   UpstreamRoute.uses_proxy_tunnel_for_https_origin route url).

(** [client_identity] is the outcome of [tls_client_identity]. *)
Definition connect_upstream_stream (client_identity : Result IoError (option Identity)) (url : UrlParts)
    (route : UpstreamRoute.t) (actions : list ResolvedAction) (allow_origin_h2 : bool) : Dialling Conn :=
  if UpstreamRoute.uses_proxy_tunnel_for_https_origin route url then
    upstream ← connect_tunnel_upstream_recorded route;
    identity ← lift_result client_identity;
    tls_wrap_upstream_stream upstream (mkTlsWrap (up_host url) identity (tls_action actions) allow_origin_h2)
  else
    match route with
    | UpstreamRoute.ProxyChain hops target_host target_port =>
        upstream ← connect_proxy_chain_to_final hops;
        upstream ← match last hops with
                   | Some (ProxyHop.Socks5 _ _ auth) =>
                       socks5_connect_with_deadline upstream target_host target_port auth
                   | _ => mret upstream
                   end;
        _ ← restore_upstream_timeouts upstream;
        mret upstream
    | _ =>
        tcp ← connect_tcp_with_timeouts (UpstreamRoute.connect_addr route);
        upstream ← match route with
                   | UpstreamRoute.Socks5 _ _ auth target_host target_port =>
                       socks5_connect_with_deadline tcp target_host target_port auth
                   | _ => mret tcp
                   end;
        let origin_tls := origin_tls_supported url route in
        identity ← (if origin_tls then lift_result client_identity else mret None);
        if UpstreamRoute.uses_tls_to_proxy route then
          tls_wrap_upstream_stream upstream (plain_tls (UpstreamRoute.tls_host route))
        else if origin_tls then
          tls_wrap_upstream_stream upstream (mkTlsWrap (up_host url) identity (tls_action actions) allow_origin_h2)
        else
          _ ← restore_upstream_timeouts upstream;
          mret upstream
    end.
End Dialling.

(** * Dialling an upstream, proofs

    Dialling takes the legs of its route, in order: one connection to the first
    hop, TLS with each hop that speaks it before anything else is said to it,
    every hop asked with its own credentials for the next one, and TLS with the
    origin last. *)

(** ** The legs of a route *)

Section Spec.
Context {Identity : Type}.

Definition greet (hop : ProxyHop.t) : list (Leg Identity) :=
  match hop with ProxyHop.Https host _ => [TlsLeg (mkTlsWrap host None None false)] | _ => [] end.
Definition ask (hop : ProxyHop.t) (host : str) (port : N) : Leg Identity :=
  match hop with
  | ProxyHop.Socks5 _ _ auth => SocksLeg host port auth
  | _ => ConnectLeg (format_host_port host port)
  end.
Fixpoint approach (prev : ProxyHop.t) (hops : list ProxyHop.t) : list (Leg Identity) :=
  match hops with
  | [] => []
  | next :: hops' => ask prev (ProxyHop.host next) (ProxyHop.port next) :: greet next ++ approach next hops'
  end.
Definition to_last_hop (hops : list ProxyHop.t) : list (Leg Identity) :=
  match hops with [] => [] | first :: rest => TcpLeg (ProxyHop.addr first) :: greet first ++ approach first rest end.
Definition to_target (route : UpstreamRoute.t) : list (Leg Identity) :=
  let '(host, port) := UpstreamRoute.tunnel_target_parts route in
  match last (hops_of route) with
  | None => [TcpLeg (format_host_port host port)]
  | Some hop => to_last_hop (hops_of route) ++ [ask hop host port]
  end.
(** The last hop is not asked when it forwards plain requests itself. *)
Definition to_origin (origin : TlsWrap Identity) (url : UrlParts) (route : UpstreamRoute.t) : list (Leg Identity) :=
  if up_scheme url =s? lit "https" then to_target route ++ [TlsLeg origin]
  else if UpstreamRoute.uses_absolute_form route then to_last_hop (hops_of route)
  else to_target route.
End Spec.

(** ** Programs that take given legs *)

Section Legs.
Context {Identity : Type} {NW : Network Identity}.
Context (config : ProxyConfig) (timeouts : Timeouts) (deadline : RequestDeadline).
Abbreviation Dialling := (StateR (Dial Identity) IoError).

(** [m] takes [legs] in order, all of them when it succeeds. *)
Definition takes {A} (m : Dialling A) (legs : list (Leg Identity)) : Prop :=
  forall d, exists taken, d_legs (fst (m d)) = d_legs d ++ taken /\ taken `prefix_of` legs /\
    match snd (m d) with Ok _ => taken = legs | Err _ => True end.

Lemma takes_bind {A B} (m : Dialling A) (k : A -> Dialling B) l1 l2 :
  takes m l1 -> (forall x, takes (k x) l2) -> takes (m ≫= k) (l1 ++ l2).
Proof.
  intros Hm Hk d. destruct (Hm d) as (t1 & E1 & P1 & R1). unfold mbind, StateR_bind.
  destruct (m d) as [d1 [x|e]]; cbn [fst snd] in *.
  - destruct (Hk x d1) as (t2 & E2 & P2 & R2). subst. exists (l1 ++ t2). rewrite E2, E1, app_assoc.
    split_and!; [done|by apply prefix_app|]. by case_match; subst.
  - exists t1. split_and!; [done|by apply prefix_app_r|done].
Qed.
Lemma takes_mono {A} (m : Dialling A) l1 l2 : takes m l1 -> l1 = l2 -> takes m l2.
Proof. by intros ? <-. Qed.
Lemma takes_none {A} (m : Dialling A) : (forall d, d_legs (fst (m d)) = d_legs d) -> takes m [].
Proof. intros H d. exists []. rewrite H, app_nil_r. split_and!; [done..|by case_match]. Qed.
Lemma takes_leg l : takes (leg l) [l].
Proof. intros d. exists [l]. done. Qed.
Lemma takes_fail {A} e legs : takes (@fail _ _ A e) legs.
Proof. intros d. exists []. rewrite app_nil_r. split_and!; [done|apply prefix_nil|done]. Qed.
Lemma takes_err {A} e legs : takes (@lift_result _ _ A (Err e)) legs.
Proof. apply takes_fail. Qed.
Lemma takes_then {A B} (m : Dialling A) (k : A -> Dialling B) legs :
  takes m [] -> (forall x, takes (k x) legs) -> takes (m ≫= k) legs.
Proof. apply (takes_bind m k [] legs). Qed.
Lemma takes_last {A B} (m : Dialling A) (k : A -> Dialling B) legs :
  takes m legs -> (forall x, takes (k x) []) -> takes (m ≫= k) legs.
Proof. intros Hm Hk. eapply takes_mono; [by eapply takes_bind|apply app_nil_r]. Qed.
Lemma takes_ret {A} (x : A) : takes (mret x) [].
Proof. by apply takes_none. Qed.
Lemma takes_lift {A} (r : Result IoError A) : takes (lift_result r) [].
Proof. by apply takes_none. Qed.
Lemma takes_event {A} (f : N -> A) : takes (event f) [].
Proof. by apply takes_none. Qed.
Lemma takes_dns ms : takes (add_dns_ms ms) [].
Proof. by apply takes_none. Qed.
Lemma takes_connect_ms ms : takes (add_connect_ms ms) [].
Proof. by apply takes_none. Qed.
Lemma takes_record r : takes (push_tls_record r) [].
Proof. by apply takes_none. Qed.
Lemma takes_attempt {A} (m : Dialling A) :
  (forall d, d_legs (fst (m d)) = d_legs d) -> takes (attempt m) [].
Proof. intros H. apply takes_none. intros d. specialize (H d). unfold attempt. by destruct (m d). Qed.
End Legs.
Create HintDb legs.
#[export] Hint Resolve takes_fail takes_ret takes_lift takes_event takes_dns takes_connect_ms takes_record takes_leg : legs.

(** Programs that take no leg, one step after the other. *)
Ltac stays :=
  repeat first
    [ progress intros
    | solve [auto with legs]
    | apply takes_then
    | case_match ].

Section Legs.
Context {Identity : Type} {NW : Network Identity}.
Context (config : ProxyConfig) (timeouts : Timeouts) (deadline : RequestDeadline).
Abbreviation Dialling := (StateR (Dial Identity) IoError).

Lemma takes_set_timeouts conn r w : takes (set_io_timeouts conn r w) [].
Proof. unfold set_io_timeouts, try_event. stays. Qed.
Lemma takes_restore conn : takes (restore_upstream_timeouts conn) [].
Proof. apply takes_set_timeouts. Qed.
#[local] Hint Resolve takes_set_timeouts takes_restore : legs.

Lemma connect_addresses_stays addr timeout started last_error addresses d :
  d_legs (fst (connect_addresses addr timeout started last_error addresses d)) = d_legs d.
Proof.
  revert last_error d. induction addresses as [|a addresses IH]; intros last_error d; [done|].
  cbn [connect_addresses]. unfold mbind, StateR_bind, event. cbn [fst snd].
  case_match; [|done]. case_match; [done|]. case_match; [done|]. by rewrite IH.
Qed.
Lemma takes_tcp addr : takes (connect_tcp_with_timeouts timeouts deadline addr) [TcpLeg addr].
Proof.
  unfold connect_tcp_with_timeouts. apply (takes_bind _ _ [_] []); [apply takes_leg|]. stays.
  apply takes_attempt, connect_addresses_stays.
Qed.
Lemma takes_tls conn wrap : takes (tls_wrap_upstream_stream timeouts deadline conn wrap) [TlsLeg wrap].
Proof. unfold tls_wrap_upstream_stream. apply (takes_bind _ _ [_] []); [apply takes_leg|]. stays. Qed.
Lemma takes_handshake stage conn m : takes (Identity := Identity) (handshake stage conn m) [].
Proof. unfold handshake. stays. Qed.
#[local] Hint Resolve takes_tcp takes_tls takes_handshake : legs.
Lemma takes_http conn target : takes (Identity := Identity) (http_proxy_connect_with_deadline config conn target) [ConnectLeg target].
Proof. apply (takes_bind _ _ [_] []); auto with legs. Qed.
Lemma takes_socks conn host port auth :
  takes (Identity := Identity) (socks5_connect_with_deadline conn host port auth) [SocksLeg host port auth].
Proof. apply (takes_bind _ _ [_] []); auto with legs. Qed.
Lemma takes_wrap_hop hop conn : takes (wrap_hop timeouts deadline hop conn) (greet hop).
Proof. destruct hop; cbn [wrap_hop greet]; auto with legs. Qed.
#[local] Hint Resolve takes_http takes_socks takes_wrap_hop : legs.

Lemma takes_chain_loop prev hops conn : takes (chain_loop config timeouts deadline prev hops conn) (approach prev hops).
Proof.
  revert prev conn. induction hops as [|next hops IH]; intros prev conn; cbn [chain_loop approach]; [apply takes_ret|].
  apply (takes_bind _ _ [_]); [destruct prev; cbn [ask]; auto with legs|]. intros conn'.
  apply takes_bind; [auto with legs|]. intros. apply IH.
Qed.
Lemma takes_chain hops :
  hops <> [] -> takes (connect_proxy_chain_to_final config timeouts deadline hops) (to_last_hop hops).
Proof.
  intros Hne. destruct hops as [|first rest]; [done|]. cbn [connect_proxy_chain_to_final to_last_hop].
  apply (takes_bind _ _ [_]); [auto with legs|]. intros tcp.
  apply takes_bind; [auto with legs|]. intros up.
  apply takes_last; [apply takes_chain_loop|]. intros. stays.
Qed.

Lemma takes_tunnel route :
  takes (connect_tunnel_upstream_recorded config timeouts deadline route) (to_target route).
Proof.
  destruct route as [host port|ph pp host port|hops host port|ph pp host port|ph pp auth host port];
    unfold to_target; cbn [connect_tunnel_upstream_recorded hops_of UpstreamRoute.tunnel_target_parts last].
  - apply takes_tcp.
  - apply (takes_bind _ _ [_] [_]); [apply takes_tcp|]. intros. apply takes_last; [apply takes_http|]. stays.
  - destruct (last hops) as [hop|] eqn:El.
    + apply takes_bind; [apply takes_chain; by intros ->|]. intros up. apply takes_last; [|stays].
      destruct hop; cbn [ask]; auto with legs.
    + apply last_None in El as ->. apply (takes_bind _ _ [] [_]); [apply takes_fail|]. intros.
      apply (takes_bind _ _ [_] []); [apply takes_fail|]. stays.
  - apply (takes_bind _ _ [_] [_; _]); [apply takes_tcp|]. intros.
    apply (takes_bind _ _ [_] [_]); [apply takes_tls|]. intros. apply takes_last; [apply takes_http|]. stays.
  - apply (takes_bind _ _ [_] [_]); [apply takes_tcp|]. intros. apply takes_last; [apply takes_socks|]. stays.
Qed.

Definition origin_wrap (client_identity : Result IoError (option Identity)) (url : UrlParts)
    (actions : list ResolvedAction) (allow_h2 : bool) : TlsWrap Identity :=
  mkTlsWrap (up_host url) (match client_identity with Ok identity => identity | Err _ => None end)
    (tls_action actions) allow_h2.
Lemma takes_origin_tls {A} (client_identity : Result IoError (option Identity)) (k : option Identity -> Dialling A) legs :
  takes (k (match client_identity with Ok identity => identity | Err _ => None end)) legs ->
  takes (lift_result client_identity ≫= k) legs.
Proof.
  intros Hk. destruct client_identity as [identity|e]; [exact Hk|]. apply takes_fail.
Qed.

Lemma takes_origin client_identity url route actions allow_h2 :
  takes (connect_upstream_stream config timeouts deadline client_identity url route actions allow_h2)
    (to_origin (origin_wrap client_identity url actions allow_h2) url route).
Proof.
  unfold connect_upstream_stream, to_origin, origin_tls_supported, UpstreamRoute.uses_proxy_tunnel_for_https_origin.
  destruct (up_scheme url =s? lit "https"); cbn [andb].
  - destruct route as [host port|ph pp host port|hops host port|ph pp host port|ph pp auth host port];
      cbn [orb UpstreamRoute.uses_tls_to_proxy];
      try (apply takes_bind; [apply takes_tunnel|]; intros; apply takes_origin_tls, takes_tls).
    + apply (takes_bind _ _ [_] [_]); [apply takes_tcp|]. intros. apply takes_then; [apply takes_ret|]. intros.
      apply takes_origin_tls, takes_tls.
    + apply (takes_bind _ _ [_] [_; _]); [apply takes_tcp|]. intros.
      apply (takes_bind _ _ [_] [_]); [apply takes_socks|]. intros. apply takes_origin_tls, takes_tls.
  - destruct route as [host port|ph pp host port|hops host port|ph pp host port|ph pp auth host port];
      cbn [orb UpstreamRoute.uses_tls_to_proxy UpstreamRoute.uses_absolute_form hops_of].
    + apply (takes_bind _ _ [_] []); [apply takes_tcp|]. stays.
    + apply (takes_bind _ _ [_] []); [apply takes_tcp|]. stays.
    + unfold to_target. cbn [hops_of UpstreamRoute.tunnel_target_parts]. destruct (last hops) as [hop|] eqn:El.
      * assert (Hne : hops <> []) by by intros ->.
        destruct hop; [apply takes_last; [by apply takes_chain|]; stays..|].
        apply takes_bind; [by apply takes_chain|]. intros. apply takes_last; [apply takes_socks|]. stays.
      * apply last_None in El as ->. apply takes_last; [apply takes_fail|]. stays.
    + apply (takes_bind _ _ [_] [_]); [apply takes_tcp|]. intros. stays.
    + apply (takes_bind _ _ [_] [_]); [apply takes_tcp|]. intros. apply takes_last; [apply takes_socks|]. stays.
Qed.
End Legs.

(** C36: connecting a request takes the legs of its route.  Whatever the network
    answers, the legs attempted are a prefix, and after a success all, of: one
    TCP connection to the first hop (or the target), TLS with each https-proxy
    hop before it is asked anything, each hop asked for the next one with that
    hop's own credentials, the last hop asked for the target unless it forwards
    plain requests, and TLS with the origin last when the URL is https.  The
    same holds of a tunnel, which stops at the target. *)
Theorem dial_takes_route {Identity} {NW : Network Identity} config timeouts deadline client_identity url route actions
    allow_h2 d :
  (let '(d', r) := connect_upstream_stream config timeouts deadline client_identity url route actions allow_h2 d in
   exists taken, d_legs d' = d_legs d ++ taken /\
     taken `prefix_of` to_origin (origin_wrap client_identity url actions allow_h2) url route /\
     match r with Ok _ => taken = to_origin (origin_wrap client_identity url actions allow_h2) url route | Err _ => True end) /\
  (let '(d', r) := connect_tunnel_upstream_recorded config timeouts deadline route d in
   exists taken, d_legs d' = d_legs d ++ taken /\ taken `prefix_of` to_target route /\
     match r with Ok _ => taken = to_target route | Err _ => True end).
Proof.
  split.
  - pose proof (takes_origin config timeouts deadline client_identity url route actions allow_h2 d) as H.
    by destruct (connect_upstream_stream _ _ _ _ _ _ _ _ d).
  - pose proof (takes_tunnel config timeouts deadline route d) as H.
    by destruct (connect_tunnel_upstream_recorded _ _ _ _ d).
Qed.
