(* ===== verification/FastPool.v ===== *)
(** * The pooled HTTP/1 path

    crates/rsproxy-engine/src/proxy: the connections a thread keeps
    (h1_forward/pool.rs), and a request over one of them (h1_forward.rs), with
    the context of a forwarded request (forward/context.rs).

    A connection that is dropped gives its permit back: every place where the
    source lets a [FastConnection] go out of scope is a [drop_connection]. *)
From Stdlib Require Import Ascii String.
From stdpp Require Import base numbers list gmap strings.
From S2P Require Import Prelude Family Utf8 Format NetAddr Io Model Url Engines Index Resolve TraceModel.
From S2P Require Import Template Http1 Http1Write Values Deadline Slots Relay Transforms Actions ResponseBody.
From S2P Require Import ResponseFlow FastResponse Routing Connect Dial.

(** ** The context of a request (forward/context.rs) *)

Record ForwardCtx := mkForwardCtx {
  fx_request : RawRequest;
  fx_full_url : str;
  fx_url : UrlParts;
  fx_meta : RequestMeta;
  fx_actions : list ResolvedAction;
  fx_config : ProxyConfig;
  fx_trace_id : N;
  fx_rules : RuleSet;
  fx_route : UpstreamRoute.t;
  fx_headers : Headers;
  fx_client_connection : ClientPersistence.t;
  fx_deadline : RequestDeadline;
  fx_request_body_rules_skipped : bool;
}.
Definition upstream_addr (ctx : ForwardCtx) : str := UpstreamRoute.session_label (fx_route ctx).
Definition websocket_request (ctx : ForwardCtx) : bool := is_websocket_request (rq_headers (fx_request ctx)).
(** [ResponseContext::from_forward]. *)
Definition from_forward (ctx : ForwardCtx) : ResponseContext :=
  mkResponseContext (fx_request ctx) (fx_meta ctx) (fx_config ctx) (fx_trace_id ctx) (upstream_addr ctx)
    (fx_client_connection ctx) (fx_deadline ctx).

(** The limits of the configuration for this path. *)
Record PoolLimits := mkPoolLimits { pl_max_active : N; pl_wait_timeout : N; pl_ttfb_timeout : N }.

(** ** Connections (h1_forward/pool.rs) *)

Definition THREAD_IDLE_CAPACITY : nat := 8.
Definition FAST_POOL_IDLE_TTL : N := 90 * 1000000000.

Record FastConnection := mkFastConnection {
  fc_reader : Stream; fc_writer : Sink; fc_pool_key : str; fc_last_used : N;
  fc_read_timeout : option N; fc_write_timeout : option N }.

(** What an exchange over the pool changes: the client, the regex cache, the
    clock and the trace of the answer; the dial; the pool of the thread; the
    activity all threads share, and what waits for it will find. *)
Record Exchange (Identity : Type) := mkExchange {
  ex_client : Sink; ex_cache : RegexCache; ex_clock : list N; ex_events : list Emitted;
  ex_dial : Dial Identity; ex_pool : list FastConnection; ex_activity : KeyedActivity; ex_waits : list Wait }.
Arguments mkExchange {_} _ _ _ _ _ _ _ _. Arguments ex_client {_} _. Arguments ex_cache {_} _.
Arguments ex_clock {_} _. Arguments ex_events {_} _. Arguments ex_dial {_} _. Arguments ex_pool {_} _.
Arguments ex_activity {_} _. Arguments ex_waits {_} _.

Section Pool.
Context {Identity : Type} {NW : Network Identity}.
Abbreviation Exchanging := (StateR (Exchange Identity) IoError).

Definition on_dial {A} (m : StateR (Dial Identity) IoError A) : Exchanging A := fun x =>
  let '(d, r) := m (ex_dial x) in
  (mkExchange (ex_client x) (ex_cache x) (ex_clock x) (ex_events x) d (ex_pool x) (ex_activity x) (ex_waits x), r).
Definition on_pool (f : list FastConnection -> list FastConnection) : Exchanging unit := fun x =>
  (mkExchange (ex_client x) (ex_cache x) (ex_clock x) (ex_events x) (ex_dial x) (f (ex_pool x)) (ex_activity x)
     (ex_waits x), Ok tt).
Definition on_activity {A} (f : KeyedActivity -> list Wait -> KeyedActivity * list Wait * Result IoError A)
    : Exchanging A := fun x =>
  let '(activity, waits, r) := f (ex_activity x) (ex_waits x) in
  (mkExchange (ex_client x) (ex_cache x) (ex_clock x) (ex_events x) (ex_dial x) (ex_pool x) activity waits, r).
(** The result of a part as a value, its effects kept. *)
Definition attempted {A} (m : Exchanging A) : Exchanging (Result IoError A) := fun x => let '(x, r) := m x in (x, Ok r).
(** The answer over the reader of a connection. *)
Definition on_answer {A} (c : FastConnection) (m : StateR (Flow Stream) IoError A)
    : Exchanging (FastConnection * A) := fun x =>
  let '(f, r) := m (mkFlow (fc_reader c) (ex_client x) (ex_cache x) (ex_clock x) (ex_events x)) in
  (mkExchange (fl_client f) (fl_cache f) (fl_clock f) (fl_events f) (ex_dial x) (ex_pool x) (ex_activity x) (ex_waits x),
   match r with
   | Ok a => Ok (mkFastConnection (fl_body f) (fc_writer c) (fc_pool_key c) (fc_last_used c) (fc_read_timeout c)
                   (fc_write_timeout c), a)
   | Err e => Err e
   end).

Definition now : Exchanging N := on_dial (event nw_clock).

Definition H1_POOL : PoolWaitSpec := mkPoolWaitSpec (lit "upstream_h1") (lit "active limit").
(** The permit of the source is the reservation of its key. *)
Definition acquire (key : str) (limit timeout : N) : Exchanging unit :=
  on_activity (fun activity waits => acquire_slot key limit timeout H1_POOL waits activity).
(** [FastPermit::drop]. *)
Definition drop_permit (key : str) : Exchanging unit :=
  on_activity (fun activity waits => (release activity key, waits, Ok tt)).
Definition drop_connection (c : FastConnection) : Exchanging unit := drop_permit (fc_pool_key c).
Definition drop_connections (cs : list FastConnection) : Exchanging unit :=
  foldr (fun c rest => _ ← drop_connection c; rest) (mret tt) cs.

Definition set_read_timeout (c : FastConnection) (timeout : N) : Exchanging FastConnection :=
  if bool_decide (fc_read_timeout c = Some timeout) then mret c
  else
    _ ← on_dial (try_event (fun i => nw_set_option i (fc_reader c, fc_writer c) (SocketOption.ReadTimeout timeout)));
    mret (mkFastConnection (fc_reader c) (fc_writer c) (fc_pool_key c) (fc_last_used c) (Some timeout)
            (fc_write_timeout c)).
Definition set_write_timeout (c : FastConnection) (timeout : N) : Exchanging FastConnection :=
  if bool_decide (fc_write_timeout c = Some timeout) then mret c
  else
    _ ← on_dial (try_event (fun i => nw_set_option i (fc_reader c, fc_writer c) (SocketOption.WriteTimeout timeout)));
    mret (mkFastConnection (fc_reader c) (fc_writer c) (fc_pool_key c) (fc_last_used c) (fc_read_timeout c)
            (Some timeout)).

(** The first connection of a key, and the others. *)
Fixpoint take_entry (key : str) (entries : list FastConnection) : option (FastConnection * list FastConnection) :=
  match entries with
  | [] => None
  | c :: entries' =>
      if fc_pool_key c =s? key then Some (c, entries')
      else
        match take_entry key entries' with
        | Some (found, rest) => Some (found, c :: rest)
        | None => None
        end
  end.
Definition checkout (key : str) : Exchanging (option FastConnection) :=
  x ← sget;
  match take_entry key (ex_pool x) with
  | None => mret None
  | Some (c, rest) =>
      _ ← on_pool (fun _ => rest);
      time ← now;
      if FAST_POOL_IDLE_TTL <=? saturating_sub time (fc_last_used c)
      then _ ← drop_connection c; mret None
      else mret (Some c)
  end.

(** The entries a new connection of [key] leaves in the pool: those of other
    keys, without the oldest ones that make room for it. *)
Definition other_keys (key : str) (entries : list FastConnection) : list FastConnection :=
  List.filter (fun c => negb (fc_pool_key c =s? key)) entries.
Definition same_key (key : str) (entries : list FastConnection) : list FastConnection :=
  List.filter (fun c => fc_pool_key c =s? key) entries.
Definition surplus (entries : list FastConnection) : nat := (length entries - (THREAD_IDLE_CAPACITY - 1))%nat.
Definition checkin (key : str) (c : FastConnection) : Exchanging unit :=
  time ← now;
  x ← sget;
  let c := mkFastConnection (fc_reader c) (fc_writer c) (fc_pool_key c) time (fc_read_timeout c) (fc_write_timeout c) in
  let kept := other_keys key (ex_pool x) in
  _ ← drop_connections (same_key key (ex_pool x));
  _ ← drop_connections (take (surplus kept) kept);
  on_pool (fun _ => drop (surplus kept) kept ++ [c]).

(** ** A request (h1_forward.rs) *)

Context {PE : PatternEngines} {CE : CaptureEngine} {RF : RuleFiles} {JT : JsonText} {SR : StatusReasons}.
Context (timeouts : Timeouts) (limits : PoolLimits) (ctx : ForwardCtx).

Definition pool_key : str := UpstreamRoute.connect_addr (fx_route ctx).
Definition pool_eligible : bool :=
  let req := fx_request ctx in
  is_emptyb (rs_rules (fx_rules ctx)) && is_emptyb (fx_actions ctx) && UpstreamRoute.is_direct (fx_route ctx) &&
  (up_scheme (fx_url ctx) =s? lit "http") && ((rq_method req =s? lit "GET") || (rq_method req =s? lit "HEAD")) &&
  eq_ignore_ascii_case (rq_version req) (lit "HTTP/1.1") && is_emptyb (rq_body req) && is_emptyb (rq_trailers req) &&
  negb (is_some (header (rq_headers req) (lit "expect"))) && negb (websocket_request ctx) &&
  negb (accepts_sse (rq_headers req)).

Definition budget_now (stage_timeout : N) : Exchanging TimeoutBudget :=
  time ← now;
  lift_result (budget (fx_deadline ctx) time stage_timeout).

(** [connect]: the permit goes with the connection, or is dropped with the error. *)
Definition dial_fresh : StateR (Dial Identity) IoError Conn :=
  conn ← connect_tcp_with_timeouts timeouts (fx_deadline ctx) pool_key;
  _ ← try_event (fun i => nw_set_option i conn SocketOption.NoDelay);
  _ ← try_event (fun i => nw_set_option i conn SocketOption.Duplicate);
  mret conn.
Definition connect : Exchanging FastConnection :=
  dialled ← attempted (on_dial dial_fresh);
  match dialled with
  | Err e => _ ← drop_permit pool_key; fail e
  | Ok conn =>
      time ← now;
      mret (mkFastConnection (fst conn) (snd conn) pool_key time None None)
  end.
(** A connection of the pool, or a new one. *)
Definition obtain (connection : option FastConnection) : Exchanging FastConnection :=
  match connection with
  | Some c => mret c
  | None =>
      wait ← budget_now (pl_wait_timeout limits);
      _ ← acquire pool_key (pl_max_active limits) (tb_timeout wait);
      connect
  end.

(** The request as [send_request] encodes it. *)
Definition encoded_request : list N :=
  encode (rq_method (fx_request ctx) ++ lit " " ++ origin_form (fx_url ctx) ++ lit " HTTP/1.1" ++ crlf ++
          flat_map (fun '(name, value) => name ++ lit ": " ++ value ++ crlf)
            (List.filter (fun h => negb (eq_ignore_ascii_case (fst h) (lit "connection"))) (fx_headers ctx)) ++
          lit "Connection: keep-alive" ++ crlf ++ crlf).
Definition send_request (c : FastConnection) : Exchanging (FastConnection * RawResponseHead) :=
  write_budget ← budget_now UPSTREAM_WRITE_TIMEOUT;
  c ← set_write_timeout c (tb_timeout write_budget);
  let '(writer, written) := write_bytes encoded_request (fc_writer c) in
  _ ← lift_result (map_err (map_timeout write_budget) written);
  ttfb_budget ← budget_now (pl_ttfb_timeout limits);
  c ← set_read_timeout c (tb_timeout ttfb_budget);
  let '(reader, head) :=
    read_response_head_buffered (pc_max_header_size (fx_config ctx)) (pc_max_header_count (fx_config ctx))
      (fc_reader c) in
  head ← lift_result (map_err (map_timeout ttfb_budget) head);
  mret (mkFastConnection reader writer (fc_pool_key c) (fc_last_used c) (fc_read_timeout c) (fc_write_timeout c), head).

(** [finish] of h1_forward/response.rs. *)
Definition finish (c : FastConnection) (reused : bool) (head : RawResponseHead)
    : Exchanging (FastConnection * FastResponseOutcome) :=
  read_budget ← budget_now UPSTREAM_READ_TIMEOUT;
  c ← set_read_timeout c (tb_timeout read_budget);
  on_answer c (finish_response (mkFastContext (from_forward ctx) reused (response_is_persistent head)) head).

Definition flag_fast_path (r : ForwardResult) : ForwardResult :=
  if existsb (fun flag => flag =s? FAST_PATH) (fw_flags r) then r else with_flags r [FAST_PATH] (fw_error r).
(** The answer to a request that was sent, and what becomes of its connection. *)
Definition conclude_pooled (c : FastConnection) (reused : bool) (head : RawResponseHead) : Exchanging ForwardResult :=
  finished ← attempted (finish c reused head);
  match finished with
  | Err e => _ ← drop_connection c; fail e
  | Ok (c, outcome) =>
      _ ← (if fo_reusable outcome then checkin pool_key c else drop_connection c);
      mret (flag_fast_path (fo_result outcome))
  end.

(** The attempts that are left; only the first may reuse a connection. *)
Fixpoint pooled_attempts (left : nat) (connection : option FastConnection) (reused : bool) : Exchanging ForwardResult :=
  match left with
  | O => fail (mkIoError OtherIo (lit "fast HTTP/1 retry loop returns within two attempts"))
  | S left' =>
      active ← obtain connection;
      sent ← attempted (send_request active);
      match sent with
      | Ok (active, head) => conclude_pooled active reused head
      | Err e =>
          _ ← drop_connection active;
          if reused && bool_decide (left' <> O) then pooled_attempts left' None false else fail e
      end
  end.
Definition try_pooled : Exchanging (option ForwardResult) :=
  if pool_eligible then
    connection ← checkout pool_key;
    result ← pooled_attempts 2 connection (is_some connection);
    mret (Some result)
  else mret None.
End Pool.
