(* ===== verification/FastProofs.v ===== *)
(** * The pooled HTTP/1 path, theorems

    Permits and the pool of a thread (FastPool.v): a request over the pool
    gives back every permit that does not stay with a pooled connection, and
    the pool keeps at most eight connections of distinct keys. *)
From Stdlib Require Import Ascii String.
From stdpp Require Import base numbers list gmap strings.
From S2P Require Import Prelude Family Utf8 Format NetAddr Io Model Url Engines Index Resolve TraceModel.
From S2P Require Import Template TemplateProofs Http1 Http1Write Values Deadline Slots Relay Transforms.
From S2P Require Import Actions ResponseBody ResponseFlow FlowProofs FastResponse Routing Connect Dial.
From S2P Require Import FastPool.

(** ** A sample of the pooled path

    A network, a request and a pool for the examples of the pooled HTTP/1
    path. *)

(** A network that connects nobody, and whose clock stands still. *)
#[export] Instance silent_network : Network unit := {
  nw_clock _ := 0;
  nw_millis _ := 0;
  nw_resolve _ _ _ := Err (mkIoError OtherIo (lit "no network"));
  nw_connect _ _ _ := Err (mkIoError OtherIo (lit "no network"));
  nw_tls _ _ _ _ := Err (mkIoError OtherIo (lit "no network"));
  nw_set_timeouts _ _ _ _ := Ok tt;
  nw_set_option _ _ _ := Ok tt;
}.
Definition sample_url (path : string) : UrlParts := mkUrlParts (lit "http") (lit "a") None (lit path) None.
Definition sample_forward (ix : RuleIndex) (path : string) : ForwardCtx :=
  mkForwardCtx (sample_raw_request "GET") (url_to_string (sample_url path)) (sample_url path) sample_meta []
    sample_proxy_config 7 (mkRuleSet 3 1 [] ix) (UpstreamRoute.Direct (lit "a") 80) [(lit "Host", lit "a")]
    ClientPersistence.KeepAlive (mkDeadline 0 1000000000) false.
Definition sample_limits : PoolLimits := mkPoolLimits 4 1000000000 1000000000.
Definition sample_timeouts : Timeouts := mkTimeouts 1000000000 1000000000 1000000000.
(** One pooled connection to the upstream, which sends [bytes]. *)
Definition sample_exchange (bytes : list N) : Exchange unit :=
  mkExchange (mkSink [] []) [] [] [] (mkDial 0 [] 0 0 [])
    [mkFastConnection [Bytes bytes] (mkSink [] []) (lit "a:80") 0 None None] {[lit "a:80" := 1]} [].
Definition sample_get (ix : RuleIndex) (path : string) (x : Exchange unit)
    : Exchange unit * Result IoError (option ForwardResult) :=
  try_pooled sample_timeouts sample_limits (sample_forward ix path) x.

Definition message (status : string) (body : string) : list N :=
  encode (lit "HTTP/1.1 " ++ lit status ++ crlf ++ lit "Content-Length: " ++ show_N (len (lit body)) ++ crlf ++ crlf ++
          lit body).



(** ** Counting keys *)

Definition keys (entries : list FastConnection) : list str := map fc_pool_key entries.
(** How often a key occurs. *)
Fixpoint occurrences (key : str) (ks : list str) : N :=
  match ks with [] => 0 | k :: ks' => (if decide (k = key) then 1 else 0) + occurrences key ks' end.

Lemma occurrences_app key a b : occurrences key (a ++ b) = occurrences key a + occurrences key b.
Proof. induction a as [|k a IH]; cbn [app occurrences]; [lia|]. rewrite IH. lia. Qed.

Lemma keys_filter_split key entries k :
  occurrences k (keys (same_key key entries)) + occurrences k (keys (other_keys key entries)) =
  occurrences k (keys entries).
Proof.
  induction entries as [|c entries IH]; [done|]. unfold same_key, other_keys, keys in *. cbn [List.filter].
  destruct (fc_pool_key c =s? key); cbn [negb map occurrences]; lia.
Qed.
Lemma other_keys_key key entries c : c ∈ other_keys key entries -> c ∈ entries /\ fc_pool_key c <> key.
Proof.
  unfold other_keys. rewrite list_elem_of_In, filter_In, <- list_elem_of_In. intros [H1 H2]. split; [done|].
  intros E. by rewrite bool_decide_eq_true_2 in H2.
Qed.
Lemma same_key_key key entries c : c ∈ same_key key entries -> fc_pool_key c = key.
Proof.
  unfold same_key. rewrite list_elem_of_In, filter_In. intros [_ H]. by apply bool_decide_eq_true in H.
Qed.

(** At most eight connections, of distinct keys. *)
Definition pool_ok (entries : list FastConnection) : Prop :=
  (length entries <= THREAD_IDLE_CAPACITY)%nat /\ NoDup (keys entries).

Lemma take_entry_Some key entries c rest :
  take_entry key entries = Some (c, rest) ->
  fc_pool_key c = key /\ exists a b, entries = a ++ c :: b /\ rest = a ++ b.
Proof.
  revert c rest. induction entries as [|d entries IH]; [done|]. cbn. intros c rest.
  destruct (fc_pool_key d =s? key) eqn:E.
  - intros [= <- <-]. split; [by apply bool_decide_eq_true in E|]. by exists [], entries.
  - destruct (take_entry key entries) as [[found rest']|]; [|done]. intros [= <- <-].
    destruct (IH found rest' eq_refl) as (Hk & a & b & -> & ->). split; [done|]. by exists (d :: a), b.
Qed.
Lemma pool_ok_remove a c b : pool_ok (a ++ c :: b) -> pool_ok (a ++ b).
Proof.
  unfold pool_ok, keys. rewrite !map_app, !length_app. cbn. intros [Hl Hn]. split; [lia|].
  rewrite <- Permutation_middle in Hn. by apply NoDup_cons in Hn as [_ Hn].
Qed.
Lemma NoDup_other_keys key entries : NoDup (keys entries) -> NoDup (keys (other_keys key entries)).
Proof.
  unfold keys, other_keys. induction entries as [|c entries IH]; [done|]. cbn [map List.filter].
  intros [Hc Hn]%NoDup_cons. destruct (negb _); [|by apply IH]. cbn [map]. apply NoDup_cons. split; [|by apply IH].
  intros (d & E & Hd)%list_elem_of_fmap. apply Hc, list_elem_of_fmap. exists d. split; [done|].
  by apply (other_keys_key key).
Qed.
Lemma pool_ok_checkin key entries c :
  pool_ok entries -> fc_pool_key c = key ->
  pool_ok (drop (surplus (other_keys key entries)) (other_keys key entries) ++ [c]).
Proof.
  intros [_ Hn] Hc. set (kept := other_keys key entries). unfold pool_ok, keys. rewrite length_app, map_app. split.
  { rewrite length_drop. cbn. unfold surplus, THREAD_IDLE_CAPACITY. lia. }
  apply NoDup_app. split_and!.
  - pose proof (NoDup_other_keys key entries Hn) as Hk. fold kept in Hk.
    rewrite <- (take_drop (surplus kept) kept) in Hk. unfold keys in Hk. rewrite map_app in Hk.
    by apply NoDup_app in Hk as (_ & _ & Hk).
  - intros k (d & -> & Hd)%list_elem_of_fmap. cbn. rewrite list_elem_of_singleton. intros E.
    apply (other_keys_key key entries d); [|congruence]. fold kept.
    rewrite <- (take_drop (surplus kept) kept). set_solver.
  - apply NoDup_singleton.
Qed.

(** ** Permits *)

Section Permits.
Context {Identity : Type} {NW : Network Identity}.
Context {PE : PatternEngines} {CE : CaptureEngine} {RF : RuleFiles} {JT : JsonText} {SR : StatusReasons}.
(** The permits of the other threads. *)
Context (others : str -> N).

(** Nobody else changes the activity while the thread waits, the pool is in
    order, and the permits are those of the other threads, of the pooled
    connections and of the connections in [hand]. *)
Definition owns (hand : list str) (x : Exchange Identity) : Prop :=
  ex_waits x = [] /\ pool_ok (ex_pool x) /\
  forall k, active_for (ex_activity x) k = others k + occurrences k (keys (ex_pool x)) + occurrences k hand.

Lemma owns_dial {A} hand (m : StateR (Dial Identity) IoError A) :
  triple (owns hand) (on_dial m) (fun _ => owns hand) (owns hand).
Proof. intros x Hx. unfold on_dial. destruct (m (ex_dial x)) as [d [a|e]]; apply Hx. Qed.
Lemma owns_answer {A} hand c (m : StateR (Flow Stream) IoError A) :
  triple (owns hand) (on_answer c m) (fun r x => owns hand x /\ fc_pool_key (fst r) = fc_pool_key c) (owns hand).
Proof.
  intros x Hx. unfold on_answer. destruct (m _) as [f [a|e]]; [split; [|done]|]; apply Hx.
Qed.
Lemma owns_attempted {A} P (m : StateR (Exchange Identity) IoError A) Q E Z :
  triple P m Q E ->
  triple P (attempted m) (fun r x => match r with Ok a => Q a x | Err _ => E x end) Z.
Proof.
  intros H x Hx. specialize (H x Hx). unfold attempted. by destruct (m x) as [x' [a|e]].
Qed.
Lemma owns_drop hand key : triple (owns (key :: hand)) (drop_permit key) (fun _ => owns hand) (owns hand).
Proof.
  intros x (Hw & Hp & Ha). cbn. split_and!; [done|done|]. intros k. cbn [ex_activity ex_pool].
  rewrite active_release, Ha. cbn [occurrences]. case_decide; lia.
Qed.
(** Dropping connections changes the activity only. *)
Lemma drops_run cs (x : Exchange Identity) :
  exists a, drop_connections cs x =
              (mkExchange (ex_client x) (ex_cache x) (ex_clock x) (ex_events x) (ex_dial x) (ex_pool x) a (ex_waits x), Ok tt)
    /\ forall k, active_for a k = active_for (ex_activity x) k - occurrences k (keys cs).
Proof.
  revert x. induction cs as [|c cs IH]; intros x.
  { exists (ex_activity x). split; [by destruct x|]. intros k. cbn [keys map occurrences]. lia. }
  destruct (IH (fst (drop_connection c x))) as (a & E & Ha). exists a. split; [exact E|].
  intros k. rewrite Ha. cbn [drop_connection drop_permit on_activity fst ex_activity].
  rewrite active_release. unfold keys. cbn [map occurrences]. case_decide; lia.
Qed.
Lemma owns_acquire hand key limit timeout :
  triple (owns hand) (acquire key limit timeout) (fun _ => owns (key :: hand)) (owns hand).
Proof.
  intros x (Hw & Hp & Ha). unfold acquire, on_activity, acquire_slot. rewrite Hw.
  destruct (_ || _); cbn [fst]; [by split_and!|]. cbn [acquire_loop].
  destruct (try_reserve _ _ _) as [a|] eqn:E; [|by split_and!].
  apply try_reserve_Some in E as [_ ->]. split_and!; [done|done|].
  intros k. cbn [ex_activity ex_pool]. rewrite active_reserve, Ha. cbn [occurrences]. case_decide; lia.
Qed.
Lemma owns_now hand E : triple (owns hand) now (fun _ => owns hand) E.
Proof. intros x Hx. exact Hx. Qed.

Lemma owns_checkout hand key :
  triple (owns hand) (checkout key)
    (fun found x => match found with
                    | Some c => owns (key :: hand) x /\ fc_pool_key c = key
                    | None => owns hand x
                    end) (owns hand).
Proof.
  intros x Hx. unfold checkout. rewrite (bind_run _ _ x x x eq_refl).
  destruct (take_entry key (ex_pool x)) as [[c rest]|] eqn:E; [|done].
  apply take_entry_Some in E as (Hk & a & b & E & ->).
  set (y := fst (on_pool (fun _ => a ++ b) x)). rewrite (bind_run _ _ x y tt eq_refl).
  assert (owns (key :: hand) y) as Hy.
  { destruct Hx as (Hw & Hp & Ha). rewrite E in Hp. split_and!; [done|by apply (pool_ok_remove a c)|].
    intros k. cbn [y on_pool fst ex_activity ex_pool]. rewrite Ha, E. unfold keys. rewrite !map_app, !occurrences_app.
    cbn [map occurrences]. rewrite Hk. lia. }
  assert (forall time, triple (owns (key :: hand))
    (if FAST_POOL_IDLE_TTL <=? saturating_sub time (fc_last_used c)
     then _ ← drop_connection c; mret None else mret (Some c))
    (fun found x => match found with
                    | Some c => owns (key :: hand) x /\ fc_pool_key c = key
                    | None => owns hand x
                    end) (owns hand)) as Hk'.
  { intros time. case_match.
    - eapply triple_bind; [unfold drop_connection; rewrite Hk; apply owns_drop|]. intros []. by apply triple_ret.
    - by apply triple_ret. }
  exact (triple_bind _ now _ (fun _ => owns (key :: hand)) _ (owns hand) (owns_now _ _) Hk' y Hy).
Qed.

Lemma owns_checkin hand c E :
  triple (owns (fc_pool_key c :: hand)) (checkin (fc_pool_key c) c) (fun _ => owns hand) E.
Proof.
  unfold checkin. set (key := fc_pool_key c). eapply triple_bind; [apply owns_now|]. intros time x (Hw & Hp & Ha).
  rewrite (bind_run _ _ x x x eq_refl). cbv zeta.
  set (kept := other_keys key (ex_pool x)). set (old := take (surplus kept) kept).
  destruct (drops_run (same_key key (ex_pool x)) x) as (a & E1 & Ha1). rewrite (bind_run _ _ _ _ _ E1).
  match goal with |- context [(_ ≫= _) ?y] => destruct (drops_run old y) as (b & E2 & Hb) end.
  rewrite (bind_run _ _ _ _ _ E2). cbn in Hb. cbn. split_and!; [done| |].
  - by apply pool_ok_checkin.
  - intros k. cbn [ex_activity ex_pool]. rewrite Hb, Ha1, Ha, <- (keys_filter_split key (ex_pool x) k). fold kept.
    rewrite <- (take_drop (surplus kept) kept) at 1. fold old. unfold keys.
    rewrite !map_app, !occurrences_app. cbn [map occurrences fc_pool_key]. fold key. lia.
Qed.

Lemma owns_read_timeout hand c timeout :
  triple (owns hand) (set_read_timeout c timeout) (fun c' x => owns hand x /\ fc_pool_key c' = fc_pool_key c) (owns hand).
Proof.
  unfold set_read_timeout. case_match; [by apply triple_ret|].
  eapply triple_bind; [apply owns_dial|]. intros []. by apply triple_ret.
Qed.
Lemma owns_write_timeout hand c timeout :
  triple (owns hand) (set_write_timeout c timeout) (fun c' x => owns hand x /\ fc_pool_key c' = fc_pool_key c) (owns hand).
Proof.
  unfold set_write_timeout. case_match; [by apply triple_ret|].
  eapply triple_bind; [apply owns_dial|]. intros []. by apply triple_ret.
Qed.

Context (timeouts : Timeouts) (limits : PoolLimits) (ctx : ForwardCtx).
Abbreviation key := (pool_key ctx).

Lemma owns_budget hand stage : triple (owns hand) (budget_now ctx stage) (fun _ => owns hand) (owns hand).
Proof. eapply triple_bind; [apply owns_now|]. intros time. apply triple_lift. Qed.

Lemma owns_obtain connection :
  triple (match connection with Some c => fun x => owns [key] x /\ fc_pool_key c = key | None => owns [] end)
    (obtain timeouts limits ctx connection) (fun c x => owns [key] x /\ fc_pool_key c = key) (owns []).
Proof.
  destruct connection as [c|]; [by apply triple_ret|]. cbn [obtain].
  eapply triple_bind; [apply owns_budget|]. intros wait.
  eapply triple_bind; [apply owns_acquire|]. intros [].
  eapply triple_bind; [eapply owns_attempted, owns_dial|]. intros [conn|e]; cbv beta iota.
  - eapply triple_bind; [apply owns_now|]. intros time. by apply triple_ret.
  - eapply triple_bind; [apply owns_drop|]. intros []. by apply triple_fail.
Qed.

Lemma owns_send hand c :
  triple (owns hand) (send_request limits ctx c)
    (fun r x => owns hand x /\ fc_pool_key (fst r) = fc_pool_key c) (owns hand).
Proof.
  unfold send_request. eapply triple_bind; [apply owns_budget|]. intros wb.
  eapply triple_bind; [apply owns_write_timeout|]. intros c1. apply triple_pure. intros E1.
  destruct (write_bytes _ _) as [w written].
  eapply triple_bind; [apply triple_lift|]. intros [].
  eapply triple_bind; [apply owns_budget|]. intros tb.
  eapply triple_bind; [apply owns_read_timeout|]. intros c2. apply triple_pure. intros E2.
  destruct (read_response_head_buffered _ _ _) as [r head].
  eapply triple_bind; [apply triple_lift|]. intros h. apply triple_ret. intros x Hx. cbn. split; [done|congruence].
Qed.

Lemma owns_finish hand c reused head :
  triple (owns hand) (finish ctx c reused head)
    (fun r x => owns hand x /\ fc_pool_key (fst r) = fc_pool_key c) (owns hand).
Proof.
  unfold finish. eapply triple_bind; [apply owns_budget|]. intros rb.
  eapply triple_bind; [apply owns_read_timeout|]. intros c1. apply triple_pure. intros E1.
  rewrite <- E1. apply owns_answer.
Qed.

Lemma owns_conclude c reused head :
  fc_pool_key c = key ->
  triple (owns [key]) (conclude_pooled ctx c reused head) (fun _ => owns []) (owns []).
Proof.
  intros Hc. unfold conclude_pooled. eapply triple_bind; [eapply owns_attempted, owns_finish|].
  intros [[c1 outcome]|e]; cbv beta iota.
  - cbn [fst]. apply triple_pure. intros E1. rewrite Hc in E1.
    eapply (triple_bind _ _ _ (fun _ => owns [])); [|intros []; by apply triple_ret].
    rewrite <- E1. destruct (fo_reusable outcome); [apply owns_checkin|apply owns_drop].
  - eapply triple_bind; [unfold drop_connection; rewrite Hc; apply owns_drop|]. intros []. by apply triple_fail.
Qed.

Lemma owns_attempts left connection reused :
  triple (match connection with Some c => fun x => owns [key] x /\ fc_pool_key c = key | None => owns [] end)
    (pooled_attempts timeouts limits ctx (S left) connection reused) (fun _ => owns []) (owns []).
Proof.
  revert connection reused. induction left as [|left IH]; intros connection reused; cbn [pooled_attempts];
    (eapply triple_bind; [apply owns_obtain|]); intros c; apply triple_pure; intros Hc;
    (eapply triple_bind; [eapply owns_attempted, owns_send|]); intros [[c1 head]|e]; cbv beta iota.
  1, 3: cbn [fst]; apply triple_pure; intros E1; apply owns_conclude; congruence.
  all: eapply triple_bind; [unfold drop_connection; rewrite Hc; apply owns_drop|]; intros [].
  - rewrite bool_decide_eq_false_2, andb_false_r by auto. by apply triple_fail.
  - destruct reused; [exact (IH None false)|by apply triple_fail].
Qed.

(** C23: Whatever the network, the upstream and the client do, and whether the
    request is answered or fails, a request over the pool leaves no permit
    behind: the counter of every key is again the permits of the other threads
    plus one per pooled connection, and the pool holds at most eight
    connections of distinct keys. *)
Theorem pooled_request_returns_permits x x' r :
  try_pooled timeouts limits ctx x = (x', r) -> owns [] x -> owns [] x'.
Proof.
  intros E Hx. cut (triple (owns []) (try_pooled timeouts limits ctx) (fun _ => owns []) (owns [])).
  { intros H. specialize (H x Hx). rewrite E in H. by destruct r. }
  unfold try_pooled. case_match; [|by apply triple_ret].
  eapply triple_bind; [apply (owns_checkout [])|]. intros connection.
  eapply (triple_bind _ _ _ (fun _ => owns [])); [|intros result; by apply triple_ret].
  eapply triple_conseq; [apply owns_attempts| |done|done]. by destruct connection.
Qed.
End Permits.

(** The pool of the sample has one permit, for its connection. *)
Lemma sample_owns bytes : owns (fun _ => 0) [] (sample_exchange bytes).
Proof.
  split; [reflexivity|]. split; [split; [by apply Nat.leb_le|apply NoDup_singleton]|].
  intros k. unfold sample_exchange. cbn [ex_activity ex_pool keys map fc_pool_key occurrences].
  unfold active_for. destruct (decide (lit "a:80" = k)) as [<-|Hk].
  - by rewrite lookup_singleton_eq.
  - by rewrite lookup_singleton_ne.
Qed.
Lemma sample_answered ix :
  exists x' r, try_pooled sample_timeouts sample_limits (sample_forward ix "/") (sample_exchange (message "200 OK" "A"))
               = (x', Ok (Some r)).
Proof. eexists _, _. vm_compute. reflexivity. Qed.
Lemma pooled_request_returns_permits_witness :
  match RuleIndex_build [] with
  | Some ix => exists x' r, sample_get ix "/" (sample_exchange (message "200 OK" "A")) = (x', Ok (Some r)) /\
                            owns (fun _ => 0) [] x'
  | None => False
  end.
Proof.
  destruct (RuleIndex_build []) as [ix|] eqn:E; [|by vm_compute in E].
  destruct (sample_answered ix) as (x' & r & Er). exists x', r. split; [exact Er|].
  exact (pooled_request_returns_permits (fun _ => 0) sample_timeouts sample_limits (sample_forward ix "/")
           (sample_exchange (message "200 OK" "A")) x' (Ok (Some r)) Er (sample_owns _)).
Defined.
