(* ===== verification/CleanProofs.v ===== *)
(** * The pooled HTTP/1 path, connections that are kept

    A connection goes back to the pool with its reader exactly behind the
    message that was answered (FastResponse.v); an interim response is taken
    for the answer. *)
From Stdlib Require Import Ascii String.
From stdpp Require Import base numbers list gmap strings.
From S2P Require Import Prelude Family Utf8 Format NetAddr Io Model Url Engines Index Resolve TraceModel.
From S2P Require Import Template TemplateProofs Http1 Http1Proofs Http1Write Values Deadline Slots Relay.
From S2P Require Import Transforms Actions ResponseBody ResponseProofs ResponseFlow FlowProofs FastResponse.
From S2P Require Import Routing Connect Dial FastPool FastProofs.

(** ** The reader of a flow *)

(** The reader is healthy and carries [bytes]. *)
Definition reads (bytes : list N) (f : Flow Stream) : Prop := healthy (fl_body f) /\ carried (fl_body f) = bytes.
Definition anywhere {S} (s : S) : Prop := True.
(** A part of an answer that leaves the reader alone. *)
Definition keeps_reader {A} (m : StateR (Flow Stream) IoError A) : Prop :=
  forall f, fl_body (fst (m f)) = fl_body f.

Lemma keeps_triple {A} (m : StateR (Flow Stream) IoError A) bytes :
  keeps_reader m -> triple (reads bytes) m (fun _ => reads bytes) anywhere.
Proof.
  intros Hm f Hf. specialize (Hm f). destruct (m f) as [f' [a|e]]; [|done]. cbn in Hm. unfold reads. by rewrite Hm.
Qed.
Create HintDb reader.
Lemma keeps_ret {A} (a : A) : keeps_reader (mret a).
Proof. done. Qed.
Lemma keeps_lift {A} (r : Result IoError A) : keeps_reader (lift_result r).
Proof. done. Qed.
Lemma keeps_bind {A B} (m : StateR (Flow Stream) IoError A) (k : A -> StateR (Flow Stream) IoError B) :
  keeps_reader m -> (forall a, keeps_reader (k a)) -> keeps_reader (m ≫= k).
Proof.
  intros Hm Hk f. specialize (Hm f). unfold mbind, StateR_bind. destruct (m f) as [f1 [a|e]]; [|done].
  cbn in Hm. by rewrite Hk.
Qed.
Lemma keeps_client {A} (m : StateR Sink IoError A) : keeps_reader (on_client m).
Proof. intros f. unfold on_client. by destruct (m _). Qed.
Lemma keeps_cache {A} (m : StateR RegexCache IoError A) : keeps_reader (on_cache m).
Proof. intros f. unfold on_cache. by destruct (m _). Qed.
Lemma keeps_emit events : keeps_reader (emit events).
Proof. done. Qed.
Lemma keeps_clock start : keeps_reader (clock start).
Proof. intros f. unfold clock. by destruct (fl_clock f). Qed.
Lemma keeps_outcome {A} (m : StateR (Flow Stream) IoError A) : keeps_reader m -> keeps_reader (outcome m).
Proof. intros Hm f. specialize (Hm f). unfold outcome. by destruct (m f). Qed.
#[export] Hint Resolve keeps_ret keeps_lift keeps_client keeps_cache keeps_emit keeps_clock keeps_outcome : reader.
Ltac keeps := repeat first
  [ progress intros | solve [eauto with reader] | apply keeps_bind | progress cbv zeta
  | match goal with |- keeps_reader (match ?x with _ => _ end) => destruct x end
  | match goal with |- keeps_reader (if ?x then _ else _) => destruct x end ].
Lemma keeps_deadline d : keeps_reader (check_deadline d).
Proof. unfold check_deadline. keeps. Qed.
Lemma keeps_sleep d delays : keeps_reader (sleep_all d delays).
Proof. induction delays; cbn [sleep_all]; keeps. Qed.
Lemma keeps_to_client data : keeps_reader (to_client data).
Proof. apply keeps_client. Qed.
Lemma keeps_to_sink data : keeps_reader (to_sink data).
Proof. done. Qed.
#[export] Hint Resolve keeps_deadline keeps_sleep keeps_to_client keeps_to_sink : reader.

Section Answers.
Context {PE : PatternEngines} {CE : CaptureEngine} {RF : RuleFiles} {JT : JsonText} {SR : StatusReasons}.
Lemma keeps_buffered context response : keeps_reader (finish_buffered_response context response).
Proof.
  unfold finish_buffered_response. cbv zeta. destruct (sanitize_upstream_trailers _ _) as [ts dropped].
  apply keeps_bind; [auto with reader|]. intros [[head headers] body].
  apply keeps_bind; [auto with reader|]. intros trailers. apply keeps_bind; [auto with reader|]. intros [].
  destruct (frame_buffered _ _ _ _ _) as [[[h hs] b] t]. keeps.
Qed.
End Answers.

(** ** Relays *)

Definition relays (bytes : list N) (r : Relaying) : Prop := reads bytes (rl_flow r).

Lemma relay_upstream {A} (m : StateR Stream IoError A) bytes x rest :
  yields m bytes x rest -> triple (reads bytes) (on_upstream m) (fun y f => reads rest f /\ y = x) anywhere.
Proof.
  intros Hm f [Hf Hc]. destruct (Hm _ Hf Hc) as (s & E & Hs & Hr). unfold on_upstream. rewrite E. done.
Qed.
Lemma relay_flow {A} (m : StateR (Flow Stream) IoError A) P Q :
  triple P m Q anywhere -> triple (fun r => P (rl_flow r)) (on_flow m) (fun a r => Q a (rl_flow r)) anywhere.
Proof. intros H r Hr. specialize (H _ Hr). unfold on_flow. destruct (m _) as [f [a|e]]; done. Qed.
Lemma relay_keeps {A} (m : StateR (Flow Stream) IoError A) bytes :
  keeps_reader m -> triple (relays bytes) (on_flow m) (fun _ => relays bytes) anywhere.
Proof. intros H. apply (relay_flow m (reads bytes) (fun _ => reads bytes)). by apply keeps_triple. Qed.
Lemma relay_reads {A} (m : StateR Stream IoError A) bytes x rest :
  yields m bytes x rest -> triple (relays bytes) (on_flow (on_upstream m)) (fun y r => relays rest r /\ y = x) anywhere.
Proof. intros H. apply (relay_flow (on_upstream m) (reads bytes) (fun y f => reads rest f /\ y = x)). by apply relay_upstream. Qed.
Lemma relay_observe data bytes : triple (relays bytes) (observe data) (fun _ => relays bytes) anywhere.
Proof. intros r Hr. unfold observe. destruct (optional_observe _ _). apply Hr. Qed.

Lemma relay_exact_reads deadline write data rest :
  (forall d, keeps_reader (write d)) ->
  triple (relays (data ++ rest)) (relay_exact deadline write (blen data)) (fun _ => relays rest) anywhere.
Proof.
  intros Hw r Hr. unfold relay_exact. generalize (S (length (pending (fl_body (rl_flow r))))) as fuel.
  intros fuel. revert r Hr. revert data. induction fuel as [|fuel IH]; intros data; cbn [relay_exact_loop].
  { destruct (N.eqb_spec (blen data) 0) as [E|E]; [apply blen_0 in E as ->; done|done]. }
  destruct (N.eqb_spec (blen data) 0) as [E|E]; [apply blen_0 in E as ->; done|].
  set (n := N.min (blen data) RELAY_BUFFER_SIZE).
  assert (blen (take_N n data) = n) as Hn by (rewrite blen_take_N; lia).
  eapply triple_bind; [apply relay_keeps; auto with reader|]. intros [].
  assert (data ++ rest = take_N n data ++ drop_N n data ++ rest) as Hs by (by rewrite app_assoc, take_drop_N).
  eapply (triple_bind _ _ _ (fun y r => relays (drop_N n data ++ rest) r /\ y = take_N n data)).
  { rewrite Hs. apply relay_reads, yields_exact, Hn. }
  intros piece. apply triple_pure. intros ->.
  eapply triple_bind; [apply relay_keeps, Hw|]. intros []. eapply triple_bind; [apply relay_observe|]. intros [].
  replace (blen data - n) with (blen (drop_N n data)) by (rewrite blen_drop_N; lia). exact (IH (drop_N n data)).
Qed.

Lemma yields_relay_trailers cap size count seen total bytes all rest fuel :
  cap <= 8192 -> size <= USIZE_MAX -> response_trailers cap size count seen total bytes all rest ->
  (length bytes < fuel)%nat ->
  yields (relay_trailers_loop size count fuel seen total) bytes all rest.
Proof.
  intros Hc Hsz H. revert fuel.
  induction H as [seen total bytes rest Hl|seen total bytes line name value mid all rest Hl Hne Hs Hn Ht Hcnt _ IH];
    intros fuel Hf; (destruct fuel as [|fuel]; [lia|]); cbn [relay_trailers_loop].
  - eapply yields_bind; [by eapply yields_crlf_line|]. apply yields_ret.
  - pose proof (response_line_shorter _ _ _ _ Hl).
    eapply yields_bind; [by eapply yields_crlf_line|].
    destruct line; [done|]. cbn [is_emptyb]. cbv zeta. set (l := n :: line) in *.
    replace (saturating_add USIZE_MAX total (len l + 2)) with (total + len l + 2)
      by (unfold saturating_add; lia).
    rewrite (proj2 (N.ltb_ge _ _)), (proj2 (N.leb_gt _ _)) by lia. cbn [orb]. rewrite Hs. apply IH. lia.
Qed.

Lemma relay_chunked_reads deadline write cap size count bytes body trailers rest :
  (forall d, keeps_reader (write d)) -> cap <= 8192 -> size <= USIZE_MAX ->
  response_chunks cap size count bytes body trailers rest ->
  triple (relays bytes) (relay_chunked deadline write size count) (fun ts r => relays rest r /\ ts = trailers) anywhere.
Proof.
  intros Hw Hc Hsz H r Hr. unfold relay_chunked.
  assert (length bytes < S (length (pending (fl_body (rl_flow r)))))%nat as Hf.
  { destruct Hr as [_ <-]. cbn. lia. }
  revert Hf. generalize (S (length (pending (fl_body (rl_flow r))))) as fuel. intros fuel Hf. revert r Hr. revert fuel Hf.
  induction H as [line bytes mid trailers rest Hl Hz Ht|line n bytes data mid body trailers rest Hl Hn Hp Hd _ IH];
    intros fuel Hf; (destruct fuel as [|fuel]; [lia|]); cbn [relay_chunked_loop];
    pose proof (response_line_shorter _ _ _ _ Hl) as Hshort;
    (eapply triple_bind; [apply relay_keeps; auto with reader|]); intros [];
    (eapply triple_bind; [by eapply relay_reads, yields_crlf_line|]); intros text; apply triple_pure; intros ->.
  - rewrite Hz. apply triple_ok. cbn [N.eqb].
    apply relay_reads, yields_looping. eapply yields_relay_trailers; [done..|lia].
  - rewrite Hn. apply triple_ok. rewrite (proj2 (N.eqb_neq _ _)) by lia. subst n.
    eapply triple_bind; [apply relay_exact_reads; intros; apply Hw|]. intros [].
    eapply triple_bind; [by apply relay_reads, (yields_exact 2 crlf)|]. intros d. apply triple_pure. intros ->.
    rewrite bool_decide_eq_true_2 by done. refine (IH fuel _). rewrite !length_app in Hshort. lia.
Qed.

(** ** Messages *)

Section Messages.
Context {PE : PatternEngines} {CE : CaptureEngine} {RF : RuleFiles} {JT : JsonText} {SR : StatusReasons}.
Context (context : FastResponseContext) (head : RawResponseHead).
Abbreviation framed := (response_has_framed_body (rq_method (rc_request (ft_response context))) (rh_status head)).

(** The bytes behind a head: the body the head frames, then [rest]. Content
    that ends with the connection leaves nothing; a 205 declares its content. *)
Inductive message_body : list N -> list N -> list N -> Prop :=
| body_absent rest : framed = false -> message_body rest [] rest
| body_chunked cap bytes body trailers rest :
    framed = true -> has_chunked_transfer_encoding (rh_headers head) = true -> cap <= 8192 ->
    response_chunks cap (max_size context) (max_count context) bytes body trailers rest ->
    message_body bytes body rest
| body_length body rest :
    framed = true -> has_chunked_transfer_encoding (rh_headers head) = false ->
    content_length (rh_headers head) = Some (blen body) -> message_body (body ++ rest) body rest
| body_to_eof body :
    framed = true -> has_chunked_transfer_encoding (rh_headers head) = false ->
    content_length (rh_headers head) = None -> rh_status head <> 205 -> message_body body body [].

(** A kept connection has read [rest]. *)
Abbreviation clean rest := (fun o f => fo_reusable o = true -> reads rest f).

Lemma run_relay_triple {A} limit trace (m : Relay A) bytes Q :
  triple (relays bytes) m Q anywhere ->
  triple (reads bytes) (run_relay limit trace m)
    (fun r f => match snd r with Ok a => exists r', Q a r' /\ rl_flow r' = f | Err _ => True end) anywhere.
Proof.
  intros H f Hf. specialize (H (mkRelaying f (BodySummary_new limit) trace) Hf). unfold run_relay.
  destruct (m _) as [r [a|e]]; cbn; eauto.
Qed.
Lemma clean_keeps rest (m : StateR (Flow Stream) IoError FastResponseOutcome) :
  keeps_reader m -> triple (reads rest) m (clean rest) anywhere.
Proof.
  intros H. eapply triple_conseq; [by apply keeps_triple|done| |done]. intros o f Hf _. exact Hf.
Qed.
Lemma keeps_emit_response status headers trailers : keeps_reader (emit_response context status headers trailers).
Proof. unfold emit_response. keeps. Qed.
Hint Resolve keeps_emit_response : reader.

Lemma clean_without_body bytes : triple (reads bytes) (finish_without_body context head) (clean bytes) anywhere.
Proof. apply clean_keeps. unfold finish_without_body. cbv zeta. keeps. Qed.

(** A relay of the body to the client, then the outcome. *)
Lemma clean_relay {A} headers (m : Relay A) bytes rest Q (k : BodySummary * Result IoError A -> StateR (Flow Stream) IoError _) :
  triple (relays bytes) m Q anywhere -> (forall a r, Q a r -> relays rest r) ->
  (forall summary a, keeps_reader (k (summary, Ok a))) ->
  (forall summary e, exists o, fo_reusable o = false /\ k (summary, Err e) = mret o) ->
  triple (reads bytes) (relay_to_client context headers m ≫= k) (clean rest) anywhere.
Proof.
  intros Hm HQ Hok Herr. eapply triple_bind; [apply (run_relay_triple _ _ _ _ _ Hm)|].
  intros [summary [a|e]]; cbn [snd].
  - intros f (r & Hr & <-). apply HQ in Hr. by apply (clean_keeps rest (k (summary, Ok a)) (Hok summary a)).
  - destruct (Herr summary e) as (o & Ho & ->). apply triple_ret. congruence.
Qed.

Lemma clean_fixed body rest :
  triple (reads (body ++ rest)) (finish_fixed context head (blen body)) (clean rest) anywhere.
Proof.
  unfold finish_fixed. cbv zeta. eapply triple_bind; [apply keeps_triple; auto with reader|]. intros [].
  eapply triple_bind; [apply keeps_triple; auto with reader|]. intros [].
  apply (clean_relay _ _ _ _ (fun _ => relays rest)); [|done|done|intros; eexists; apply and_comm; by split].
  eapply triple_bind; [apply relay_exact_reads; auto with reader|]. intros [].
  apply relay_keeps. auto with reader.
Qed.

Lemma clean_chunked cap bytes body trailers rest :
  cap <= 8192 -> max_size context <= USIZE_MAX ->
  response_chunks cap (max_size context) (max_count context) bytes body trailers rest ->
  triple (reads bytes) (finish_chunked context head) (clean rest) anywhere.
Proof.
  intros Hc Hsz Hb. unfold finish_chunked. cbv zeta.
  eapply triple_bind; [apply keeps_triple; auto with reader|]. intros [].
  eapply triple_bind; [apply keeps_triple; auto with reader|]. intros [].
  eapply clean_relay; [eapply relay_chunked_reads; eauto with reader|intros a r []; done| |intros; eexists; apply and_comm; by split].
  intros summary ts. destruct (sanitize_upstream_trailers _ _) as [sent dropped].
  apply keeps_bind; [apply keeps_outcome; unfold write_chunk_end; keeps|]. intros [[]|e]; keeps.
Qed.

Lemma clean_small body rest :
  triple (reads (body ++ rest)) (finish_small context head (blen body)) (clean rest) anywhere.
Proof.
  unfold finish_small. eapply triple_bind; [by apply relay_upstream, yields_exact|]. intros b.
  apply triple_pure. intros ->. apply clean_keeps, keeps_bind; [apply keeps_buffered|keeps].
Qed.

Lemma discard_reads bytes body rest :
  max_size context <= USIZE_MAX -> rh_status head = 205 -> framed = true -> message_body bytes body rest ->
  triple (reads bytes) (discard_content context head) (fun _ => reads rest) anywhere.
Proof.
  intros Hsz Hst Hfr Hb. unfold discard_content. cbv zeta.
  destruct Hb as [rest Hf|cap bytes body trailers rest Hf Hch Hc Hb|body rest Hf Hch Hl|body Hf Hch Hl H205];
    [congruence| | |done].
  - rewrite Hch. eapply triple_bind; [eapply run_relay_triple, relay_chunked_reads; eauto with reader|].
    intros [summary [ts|e]]; cbn [fst snd]; [|done]. intros f (r & [Hr _] & <-). exact Hr.
  - rewrite Hch, Hl. eapply triple_bind; [eapply run_relay_triple, relay_exact_reads; auto with reader|].
    intros [summary [ts|e]]; cbn [fst snd]; [|done]. intros f (r & Hr & <-). exact Hr.
Qed.
Lemma clean_reset_content bytes body rest :
  max_size context <= USIZE_MAX -> rh_status head = 205 -> framed = true -> message_body bytes body rest ->
  triple (reads bytes) (finish_reset_content context head) (clean rest) anywhere.
Proof.
  intros Hsz Hst Hfr Hb. unfold finish_reset_content.
  eapply triple_bind; [by eapply discard_reads|]. intros discarded. cbv zeta. apply clean_keeps. keeps.
Qed.

(** The answers that never keep their connection. *)
Lemma triple_any {A} (m : StateR (Flow Stream) IoError A) : triple anywhere m (fun _ => anywhere) anywhere.
Proof. intros f _. by destruct (m f) as [f' [a|e]]. Qed.
Lemma close_delimited_closes h :
  triple anywhere (finish_close_delimited context h) (fun o _ => fo_reusable o = false) anywhere.
Proof.
  unfold finish_close_delimited. cbv zeta. do 3 (eapply triple_bind; [apply triple_any|]; intros ?).
  case_match; by apply triple_ret.
Qed.
Lemma sse_closes : triple anywhere (finish_sse context head) (fun o _ => fo_reusable o = false) anywhere.
Proof.
  unfold finish_sse. cbv zeta. do 2 (eapply triple_bind; [apply triple_any|]; intros []).
  eapply triple_bind; [apply triple_any|]. intros [[[bytes body_head] frames]|e]; [|by apply triple_ret].
  eapply triple_bind; [apply triple_any|]. intros [[]|e]; by apply triple_ret.
Qed.
Lemma clean_closes bytes rest (m : StateR (Flow Stream) IoError FastResponseOutcome) :
  triple anywhere m (fun o _ => fo_reusable o = false) anywhere -> triple (reads bytes) m (clean rest) anywhere.
Proof. intros H. eapply triple_conseq; [exact H|done| |done]. congruence. Qed.

End Messages.

(** ** Examples *)


(** An interim response is taken for the answer. The upstream answers the
    first request with 103 Early Hints and then 200 with the content A, and the
    second request with the content B. The client gets the 103 as the whole
    answer to its first request, the connection is kept although the 200 is
    still to come, and the second request is answered with A. *)
Theorem interim_response_desynchronises_pool (ix : RuleIndex) :
  exists x1 x2 r1 r2,
    sample_get ix "/1" (sample_exchange (encode (lit "HTTP/1.1 103 Early Hints" ++ crlf ++ crlf) ++
                                         message "200 OK" "A" ++ message "200 OK" "B")) = (x1, Ok (Some r1)) /\
    sample_get ix "/2" x1 = (x2, Ok (Some r2)) /\
    fw_status r1 = 103 /\ fw_error r1 = None /\
    fw_status r2 = 200 /\ fw_error r2 = None /\ fw_body_head r2 = encode (lit "A").
Proof. eexists _, _, _, _. split; [vm_compute; reflexivity|]. split; [vm_compute; reflexivity|]. done. Qed.
