(* ===== verification/WebSocket.v ===== *)
(** * WebSocket tunnels

    crates/rsproxy-engine/src/proxy: the frame codec (websocket_frame.rs,
    websocket.rs), the blocking copy of one direction (websocket/concurrent.rs)
    and the non-blocking relay of both (websocket/nonblocking.rs). *)
From Stdlib Require Import Ascii String.
From stdpp Require Import base numbers list gmap strings.
From S2P Require Import Prelude Utf8 Format Io TraceModel Http1.

(** ** Frames *)

Record WsFrame := mkWsFrame { wf_raw : list N; wf_payload : list N; wf_opcode : N; wf_fin : bool }.

Definition WS_FRAME_LIMIT : N := 16 * 1024 * 1024.
Definition frame_too_large : IoError := invalid_data (lit "websocket frame too large").

(** [from_be_bytes] *)
Definition be_bytes (bs : list N) : N := fold_left (fun n b => n * 256 + b) bs 0.
(** The payload under the mask, byte by byte. *)
Fixpoint unmask_from (mask : list N) (index : nat) (payload : list N) : list N :=
  match payload with
  | [] => []
  | b :: payload' => N.lxor b (default 0 (mask !! (index mod 4)%nat)) :: unmask_from mask (S index) payload'
  end.
Definition unmask (mask : option (list N)) (payload : list N) : list N :=
  match mask with Some key => unmask_from key 0 payload | None => payload end.

(** The first two bytes: last fragment, opcode, masked and the short length. *)
Record WsStart := mkWsStart { st_fin : bool; st_opcode : N; st_masked : bool; st_len : N }.
Definition ws_start (b0 b1 : N) : WsStart :=
  mkWsStart (negb (N.land b0 128 =? 0)) (N.land b0 15) (negb (N.land b1 128 =? 0)) (N.land b1 127).
(** The bytes of the extended length. *)
Definition extended (len : N) : N := if len =? 126 then 2 else if len =? 127 then 8 else 0.

(** The part of [read_ws_frame] behind the first two bytes. *)
Definition read_ws_rest {S} `{Read S} (first : list N) : StateR S IoError (option WsFrame) :=
  let start := ws_start (default 0 (first !! 0%nat)) (default 0 (first !! 1%nat)) in
  ext ← (if extended (st_len start) =? 0 then mret [] else read_exact (extended (st_len start)));
  let len := if extended (st_len start) =? 0 then st_len start else be_bytes ext in
  if WS_FRAME_LIMIT <? len then fail frame_too_large
  else
    key ← (if st_masked start then key ← read_exact 4; mret (Some key) else mret None);
    payload ← read_exact len;
    mret (Some (mkWsFrame (first ++ ext ++ default [] key ++ payload) (unmask key payload)
                  (st_opcode start) (st_fin start))).
(** [read_ws_frame]; an end of file in the first two bytes ends the stream. *)
Definition read_ws_frame {S} `{Read S} : StateR S IoError (option WsFrame) := fun s =>
  match read_exact 2 s with
  | (s, Err e) => (s, if decide (io_kind e = UnexpectedEof) then Ok None else Err e)
  | (s, Ok first) => read_ws_rest first s
  end.

(** [parse_ws_frame_prefix]: a frame at the start of the buffer and its size. *)
Definition parse_ws_frame_prefix (buf : list N) : Result IoError (option (WsFrame * N)) :=
  match buf with
  | b0 :: b1 :: _ =>
      let start := ws_start b0 b1 in
      let pos := 2 + extended (st_len start) in
      if blen buf <? pos then Ok None
      else
        let len := if extended (st_len start) =? 0 then st_len start
                   else be_bytes (take_N (extended (st_len start)) (drop_N 2 buf)) in
        if WS_FRAME_LIMIT <? len then Err frame_too_large
        else if st_masked start && (blen buf <? pos + 4) then Ok None
        else
          let key := if st_masked start then Some (take_N 4 (drop_N pos buf)) else None in
          let pos := if st_masked start then pos + 4 else pos in
          let end_ := pos + len in
          if blen buf <? end_ then Ok None
          else Ok (Some (mkWsFrame (take_N end_ buf) (unmask key (take_N len (drop_N pos buf)))
                           (st_opcode start) (st_fin start), end_))
  | _ => Ok None
  end.

(** [WsFrameDecoder::push]: the frames and the bytes that stay. *)
Fixpoint decode_loop (fuel : nat) (buf : list N) : list WsFrame * list N * option IoError :=
  match fuel with
  | O => ([], buf, None)
  | Datatypes.S fuel' =>
      match parse_ws_frame_prefix buf with
      | Err e => ([], buf, Some e)
      | Ok None => ([], buf, None)
      | Ok (Some (frame, used)) =>
          let '(frames, rest, e) := decode_loop fuel' (drop_N used buf) in (frame :: frames, rest, e)
      end
  end.
Definition decoder_push (buf data : list N) : list N * Result IoError (list WsFrame) :=
  let buf := buf ++ data in
  match decode_loop (length buf) buf with
  | (frames, rest, None) => (rest, Ok frames)
  | (_, rest, Some e) => (rest, Err e)
  end.

(** ** Observation *)

(** [WsTraceState] *)
Abbreviation WsTraceState := (option N) (only parsing).
Definition update_ws_trace_state (state : WsTraceState) (frame : WsFrame) : WsTraceState :=
  if (wf_opcode frame =? 1) || (wf_opcode frame =? 2)
  then if wf_fin frame then None else Some (wf_opcode frame)
  else if (wf_opcode frame =? 0) && wf_fin frame then None else state.

Definition ws_frame_encoding (logical_opcode : N) (payload : list N) : FrameDataEncoding.t :=
  if logical_opcode =? 1 then FrameDataEncoding.AsUtf8
  else if in_range 8 10 logical_opcode && is_some (from_utf8 payload) then FrameDataEncoding.AsUtf8
  else FrameDataEncoding.Hex.
Definition ws_opcode_name (opcode : N) : str :=
  if opcode =? 0 then lit "continuation" else if opcode =? 1 then lit "text"
  else if opcode =? 2 then lit "binary" else if opcode =? 8 then lit "close"
  else if opcode =? 9 then lit "ping" else if opcode =? 10 then lit "pong" else lit "unknown".

(** [FrameRecord] without its time. *)
Record WsRecord := mkWsRecord {
  wr_direction : FrameDirection.t; wr_opcode : str; wr_fin : bool; wr_payload_len : N;
  wr_data_encoding : FrameDataEncoding.t; wr_data : list N; wr_truncated : bool }.
Definition MAX_WS_FRAMES : N := 512.
Definition record_ws_frame (frames : list WsRecord) (direction : FrameDirection.t) (frame : WsFrame)
    (trace_limit : N) (state : WsTraceState) : list WsRecord * WsTraceState :=
  (if MAX_WS_FRAMES <=? blen frames then frames
   else
     let logical_opcode := if wf_opcode frame =? 0 then default 0 state else wf_opcode frame in
     frames ++ [mkWsRecord direction (ws_opcode_name (wf_opcode frame)) (wf_fin frame) (blen (wf_payload frame))
                  (ws_frame_encoding logical_opcode (wf_payload frame)) (take_N trace_limit (wf_payload frame))
                  (trace_limit <? blen (wf_payload frame))],
   update_ws_trace_state state frame).

(** ** The blocking copy of one direction *)

Definition websocket_end_error (e : IoError) : bool :=
  match io_kind e with UnexpectedEof | ConnectionReset | ConnectionAborted | BrokenPipe => true | _ => false end.
Definition would_block (e : IoError) : bool :=
  match io_kind e with WouldBlock | TimedOut => true | _ => false end.

(** [websocket_copy_frames_shared]; the frames are shared with the other
    direction, under a lock that is held for one record. *)
Fixpoint copy_frames {S} `{Read S} (direction : FrameDirection.t) (trace_limit : N) (fuel : nat) (bytes : N)
    (state : WsTraceState) (frames : list WsRecord) : StateR (S * Sink) IoError (N * list WsRecord) := fun s =>
  match fuel with
  | O => spent s
  | Datatypes.S fuel' =>
      match on_input read_ws_frame s with
      | (s, Ok None) => (s, Ok (bytes, frames))
      | (s, Err e) => (s, if websocket_end_error e then Ok (bytes, frames) else Err e)
      | (s, Ok (Some frame)) =>
          let bytes := wrapping_add64 bytes (blen (wf_raw frame)) in
          match on_output (write_bytes (wf_raw frame)) s with
          | (s, Err e) => (s, if websocket_end_error e then Ok (bytes, frames) else Err e)
          | (s, Ok _) =>
              match on_output flush s with
              | (s, Err e) => (s, if websocket_end_error e then Ok (bytes, frames) else Err e)
              | (s, Ok _) =>
                  let '(frames, state) := record_ws_frame frames direction frame trace_limit state in
                  if wf_opcode frame =? 8 then (s, Ok (bytes, frames))
                  else copy_frames direction trace_limit fuel' bytes state frames s
              end
          end
      end
  end.
Definition websocket_copy_frames {S} `{Read S} (direction : FrameDirection.t) (trace_limit : N)
    (frames : list WsRecord) : StateR (S * Sink) IoError (N * list WsRecord) := fun s =>
  copy_frames direction trace_limit (Datatypes.S (length (pending (fst s)))) 0 None frames s.

(** ** Non-blocking input and output *)

(** [read_ws_frames_nonblocking]: the bytes read, the frames and whether the
    peer has closed; a short read ends the round. *)
Definition WS_BUFFER_SIZE : N := 8192.
Fixpoint read_frames_loop (fuel : nat) (total : N) (out : list WsFrame) (buf : list N) (s : Stream)
    : Stream * list N * Result IoError (N * list WsFrame * bool) :=
  match fuel with
  | O => (s, buf, Ok (total, out, false))
  | Datatypes.S fuel' =>
      match stream_read WS_BUFFER_SIZE s with
      | (s, Ok []) => (s, buf, Ok (total, out, true))
      | (s, Ok data) =>
          match decoder_push buf data with
          | (buf, Err e) => (s, buf, Err e)
          | (buf, Ok frames) =>
              if blen data <? WS_BUFFER_SIZE then (s, buf, Ok (total + blen data, out ++ frames, false))
              else read_frames_loop fuel' (total + blen data) (out ++ frames) buf s
          end
      | (s, Err e) => (s, buf, if would_block e then Ok (total, out, false) else Err e)
      end
  end.
Definition read_ws_frames_nonblocking (buf : list N) (s : Stream)
    : Stream * list N * Result IoError (N * list WsFrame * bool) :=
  read_frames_loop (Datatypes.S (length (carried s))) 0 [] buf s.

(** What a non-blocking socket does with the coming writes and flushes: accept
    some bytes, or fail; [nb_then] when the script is used up. *)
Inductive NbAnswer := Accepts (n : N) | Refuses (e : IoError).
Record NbSink := mkNbSink { nb_written : list N; nb_script : list NbAnswer; nb_then : NbAnswer }.
Definition nb_answer (w : NbSink) : NbSink * NbAnswer :=
  match nb_script w with
  | [] => (w, nb_then w)
  | answer :: script => (mkNbSink (nb_written w) script (nb_then w), answer)
  end.
(** [Write::write]: the number of bytes taken. *)
Definition nb_write (bs : list N) (w : NbSink) : NbSink * Result IoError N :=
  match nb_answer w with
  | (w, Refuses e) => (w, Err e)
  | (w, Accepts n) =>
      let n := N.min n (blen bs) in
      (mkNbSink (nb_written w ++ take_N n bs) (nb_script w) (nb_then w), Ok n)
  end.
Definition nb_flush (w : NbSink) : NbSink * Result IoError unit :=
  match nb_answer w with (w, Refuses e) => (w, Err e) | (w, Accepts _) => (w, Ok tt) end.

(** [flush_pending_nonblocking]: what stays and the number of bytes written. *)
Fixpoint flush_loop (fuel : nat) (written : N) (pending : list N) (w : NbSink)
    : NbSink * list N * Result IoError N :=
  match fuel, pending with
  | O, _ | _, [] => (w, pending, Ok written)
  | Datatypes.S fuel', _ =>
      match nb_write pending w with
      | (w, Ok 0) => (w, pending, Ok written)
      | (w, Ok n) => flush_loop fuel' (written + n) (drop_N n pending) w
      | (w, Err e) => (w, pending, if would_block e || websocket_end_error e then Ok written else Err e)
      end
  end.
Definition flush_pending_nonblocking (pending : list N) (w : NbSink) : NbSink * list N * Result IoError N :=
  match flush_loop (length pending) 0 pending w with
  | (w, pending, Ok written) =>
      if written =? 0 then (w, pending, Ok written)
      else
        match nb_flush w with
        | (w, Ok _) => (w, pending, Ok written)
        | (w, Err e) => (w, pending, if would_block e || websocket_end_error e then Ok written else Err e)
        end
  | r => r
  end.

(** ** The non-blocking relay *)

(** One direction: the peer that sends with what its decoder holds, and the
    peer that receives with what is pending for it. *)
Record Half := mkHalf {
  hf_in : list Arrival;
  hf_decoder : list N;
  hf_closed : bool;
  hf_close_seen : bool;
  hf_bytes : N;
  hf_state : option N;
  hf_pending : list N;
  hf_out : NbSink;
  hf_shut : bool;
}.
Record Tunnel := mkTunnel { tu_c2s : Half; tu_s2c : Half; tu_frames : list WsRecord }.

Definition PENDING_LIMIT : N := 1024 * 1024.

(** [append_frames] *)
Definition append_frame (direction : FrameDirection.t) (trace_limit : N) (acc : Half * list WsRecord) (frame : WsFrame)
    : Half * list WsRecord :=
  let '(h, frames) := acc in
  let '(frames, state) := record_ws_frame frames direction frame trace_limit (hf_state h) in
  (mkHalf (hf_in h) (hf_decoder h) (hf_closed h) (hf_close_seen h || (wf_opcode frame =? 8))
     (wrapping_add64 (hf_bytes h) (blen (wf_raw frame))) state (hf_pending h ++ wf_raw frame) (hf_out h) (hf_shut h),
   frames).
Definition append_frames (direction : FrameDirection.t) (trace_limit : N) (parsed : list WsFrame)
    (h : Half) (frames : list WsRecord) : Half * list WsRecord :=
  fold_left (append_frame direction trace_limit) parsed (h, frames).

Definition after_read (h : Half) (s : list Arrival) (decoder : list N) (closed : bool) : Half :=
  mkHalf s decoder (hf_closed h || closed) (hf_close_seen h) (hf_bytes h) (hf_state h) (hf_pending h) (hf_out h) (hf_shut h).
(** The reading part of a round, for one direction. *)
Definition read_half (direction : FrameDirection.t) (trace_limit : N) (h : Half) (frames : list WsRecord)
    : Half * list WsRecord * Result IoError unit :=
  if negb (hf_closed h) && (blen (hf_pending h) <? PENDING_LIMIT) then
    match read_ws_frames_nonblocking (hf_decoder h) (hf_in h) with
    | (s, decoder, Ok (_, parsed, closed)) =>
        let '(h, frames) := append_frames direction trace_limit parsed (after_read h s decoder closed) frames in
        (h, frames, Ok tt)
    | (s, decoder, Err e) =>
        if websocket_end_error e then (after_read h s decoder true, frames, Ok tt)
        else (after_read h s decoder false, frames, Err e)
    end
  else (h, frames, Ok tt).

Definition flush_half (h : Half) : Half * Result IoError unit :=
  let '(w, pending, r) := flush_pending_nonblocking (hf_pending h) (hf_out h) in
  (mkHalf (hf_in h) (hf_decoder h) (hf_closed h) (hf_close_seen h) (hf_bytes h) (hf_state h) pending w (hf_shut h),
   match r with Ok _ => Ok tt | Err e => Err e end).

(** A close frame that has been passed on ends its direction. *)
Definition close_half (h : Half) : Half :=
  if hf_close_seen h && is_emptyb (hf_pending h) then
    mkHalf (hf_in h) (hf_decoder h) true (hf_close_seen h) (hf_bytes h) (hf_state h) (hf_pending h) (hf_out h) true
  else h.

Definition tunnel_done (t : Tunnel) : bool :=
  ((hf_closed (tu_c2s t) && hf_closed (tu_s2c t)) || (hf_close_seen (tu_c2s t) && hf_close_seen (tu_s2c t))) &&
  is_emptyb (hf_pending (tu_c2s t)) && is_emptyb (hf_pending (tu_s2c t)).

(** One round of the loop; [true] ends it. *)
Definition tunnel_round (trace_limit : N) (t : Tunnel) : Tunnel * Result IoError bool :=
  let '(c2s, frames, r) := read_half FrameDirection.ClientToServer trace_limit (tu_c2s t) (tu_frames t) in
  match r with
  | Err e => (mkTunnel c2s (tu_s2c t) frames, Err e)
  | Ok _ =>
      let '(s2c, frames, r) := read_half FrameDirection.ServerToClient trace_limit (tu_s2c t) frames in
      match r with
      | Err e => (mkTunnel c2s s2c frames, Err e)
      | Ok _ =>
          let '(c2s, r) := flush_half c2s in
          match r with
          | Err e => (mkTunnel c2s s2c frames, Err e)
          | Ok _ =>
              let '(s2c, r) := flush_half s2c in
              match r with
              | Err e => (mkTunnel c2s s2c frames, Err e)
              | Ok _ =>
                  let t := mkTunnel (close_half c2s) (close_half s2c) frames in
                  (t, Ok (tunnel_done t))
              end
          end
      end
  end.

(** [websocket_tunnel_nonblocking_inner], for a number of rounds. *)
Fixpoint tunnel_run (trace_limit : N) (fuel : nat) (t : Tunnel)
    : Tunnel * option (Result IoError (N * N * list WsRecord)) :=
  match fuel with
  | O => (t, None)
  | Datatypes.S fuel' =>
      match tunnel_round trace_limit t with
      | (t, Err e) => (t, Some (Err e))
      | (t, Ok true) => (t, Some (Ok (hf_bytes (tu_c2s t), hf_bytes (tu_s2c t), tu_frames t)))
      | (t, Ok false) => tunnel_run trace_limit fuel' t
      end
  end.

Definition Half_new (s : list Arrival) (w : NbSink) : Half := mkHalf s [] false false 0 None [] w false.
Definition Tunnel_new (from_client : list Arrival) (to_upstream : NbSink) (from_upstream : list Arrival)
    (to_client : NbSink) : Tunnel :=
  mkTunnel (Half_new from_client to_upstream) (Half_new from_upstream to_client) [].
