(* ===== verification/WebSocketProofs.v ===== *)
(** * WebSocket tunnels, proofs

    The decoder finds the same frames however the network cuts the bytes, the
    relay passes bytes on unchanged and in order, and it comes to an end when
    its peers accept what is written to them. *)
From Stdlib Require Import Ascii String.
From stdpp Require Import base numbers list gmap strings.
From S2P Require Import Prelude Utf8 Format Io TraceModel Http1 WebSocket.

(** ** One frame *)

Definition raws (frames : list WsFrame) : list N := flat_map wf_raw frames.
Lemma raws_app a b : raws (a ++ b) = raws a ++ raws b.
Proof. apply flat_map_app. Qed.

(** The frame behind a start, in a buffer that holds it. *)
Definition ws_length (start : WsStart) (buf : list N) : N :=
  if extended (st_len start) =? 0 then st_len start else be_bytes (take_N (extended (st_len start)) (drop_N 2 buf)).
Definition ws_head (start : WsStart) : N := 2 + extended (st_len start) + if st_masked start then 4 else 0.
Definition ws_frame_at (start : WsStart) (buf : list N) : WsFrame * N :=
  let key := if st_masked start then Some (take_N 4 (drop_N (2 + extended (st_len start)) buf)) else None in
  let end_ := ws_head start + ws_length start buf in
  (mkWsFrame (take_N end_ buf) (unmask key (take_N (ws_length start buf) (drop_N (ws_head start) buf)))
     (st_opcode start) (st_fin start), end_).
Definition parse_from (start : WsStart) (buf : list N) : Result IoError (option (WsFrame * N)) :=
  if blen buf <? 2 + extended (st_len start) then Ok None
  else if WS_FRAME_LIMIT <? ws_length start buf then Err frame_too_large
  else if blen buf <? ws_head start + ws_length start buf then Ok None
  else Ok (Some (ws_frame_at start buf)).
Lemma parse_from_eq b0 b1 buf :
  parse_ws_frame_prefix (b0 :: b1 :: buf) = parse_from (ws_start b0 b1) (b0 :: b1 :: buf).
Proof.
  unfold parse_ws_frame_prefix, parse_from. cbv zeta. fold (ws_length (ws_start b0 b1) (b0 :: b1 :: buf)).
  generalize (ws_start b0 b1) as start; intros start. set (all := b0 :: b1 :: buf).
  destruct (N.ltb_spec (blen all) (2 + extended (st_len start))); [done|].
  destruct (WS_FRAME_LIMIT <? _); [done|]. unfold ws_frame_at, ws_head. destruct (st_masked start); cbn [andb].
  - destruct (N.ltb_spec (blen all) (2 + extended (st_len start) + 4)); [|done].
    rewrite (proj2 (N.ltb_lt (blen all) _)); [done|]. lia.
  - by rewrite N.add_0_r.
Qed.

Lemma parse_some buf frame used :
  parse_ws_frame_prefix buf = Ok (Some (frame, used)) ->
  wf_raw frame = take_N used buf /\ 2 <= used <= blen buf.
Proof.
  destruct buf as [|b0 [|b1 buf]]; [done..|]. rewrite parse_from_eq. unfold parse_from.
  generalize (ws_start b0 b1) as start; intros start. set (all := b0 :: b1 :: buf). clearbody all.
  destruct (_ <? 2 + _); [done|]. destruct (WS_FRAME_LIMIT <? _); [done|].
  destruct (N.ltb_spec (blen all) (ws_head start + ws_length start all)); [done|]. intros [= <- <-].
  split; [done|]. unfold ws_head in *. lia.
Qed.

(** A frame that is complete stays the first one whatever follows. *)
Lemma parse_from_more start buf more :
  2 <= blen buf -> match parse_from start buf with Ok None => True | r => parse_from start (buf ++ more) = r end.
Proof.
  intros H2. unfold parse_from. rewrite blen_app.
  destruct (N.ltb_spec (blen buf) (2 + extended (st_len start))) as [|He]; [done|].
  rewrite (proj2 (N.ltb_ge (blen buf + blen more) (2 + extended (st_len start)))) by lia.
  assert (El : ws_length start (buf ++ more) = ws_length start buf).
  { unfold ws_length. rewrite drop_N_app_le by done. by rewrite take_N_app_le by (autorewrite with blen; lia). }
  rewrite El. destruct (WS_FRAME_LIMIT <? _); [done|].
  destruct (N.ltb_spec (blen buf) (ws_head start + ws_length start buf)) as [|Hl]; [done|].
  rewrite (proj2 (N.ltb_ge (blen buf + blen more) (ws_head start + ws_length start buf))) by lia.
  do 2 f_equal. unfold ws_frame_at. cbv zeta. rewrite El. unfold ws_head in *.
  rewrite take_N_app_le by done.
  destruct (st_masked start); rewrite !drop_N_app_le by lia; by rewrite !take_N_app_le by (autorewrite with blen; lia).
Qed.
Lemma parse_more buf more :
  match parse_ws_frame_prefix buf with Ok None => True | r => parse_ws_frame_prefix (buf ++ more) = r end.
Proof.
  destruct buf as [|b0 [|b1 buf]]; [done..|]. change ((b0 :: b1 :: buf) ++ more) with (b0 :: b1 :: (buf ++ more)).
  rewrite !parse_from_eq. apply (parse_from_more (ws_start b0 b1) (b0 :: b1 :: buf) more). rewrite !blen_cons. lia.
Qed.

(** ** The decoder *)

Definition decode (buf : list N) : list WsFrame * list N * option IoError := decode_loop (length buf) buf.

Lemma drop_N_length used (buf : list N) : 2 <= used -> used <= blen buf -> (length (drop_N used buf) + 2 <= length buf)%nat.
Proof. intros H1 H2. rewrite drop_N_drop, length_drop. unfold blen in H2. lia. Qed.

Lemma decode_fuel fuel buf : (length buf <= fuel)%nat -> decode_loop fuel buf = decode buf.
Proof.
  unfold decode. remember (length buf) as n eqn:En. revert fuel buf En. induction n as [n IH] using lt_wf_ind.
  intros fuel buf -> Hf. destruct fuel as [|fuel]; [destruct buf; [done|cbn in Hf; lia]|].
  destruct (length buf) as [|m] eqn:El; [by destruct buf|]. cbn [decode_loop].
  destruct (parse_ws_frame_prefix buf) as [[[frame used]|]|e] eqn:Ep; [|done..].
  apply parse_some in Ep as (_ & Hu1 & Hu2). pose proof (drop_N_length used buf Hu1 Hu2) as Hl.
  rewrite (IH (length (drop_N used buf))) by lia. by rewrite (IH (length (drop_N used buf)) ltac:(lia) m) by lia.
Qed.
Lemma decode_step buf :
  decode buf = match parse_ws_frame_prefix buf with
               | Err e => ([], buf, Some e)
               | Ok None => ([], buf, None)
               | Ok (Some (frame, used)) =>
                   let '(frames, rest, e) := decode (drop_N used buf) in (frame :: frames, rest, e)
               end.
Proof.
  rewrite <- (decode_fuel (Datatypes.S (length buf)) buf) by lia. cbn [decode_loop].
  destruct (parse_ws_frame_prefix buf) as [[[frame used]|]|e] eqn:Ep; [|done..].
  apply parse_some in Ep as (_ & Hu1 & Hu2). pose proof (drop_N_length used buf Hu1 Hu2).
  by rewrite decode_fuel by lia.
Qed.

Lemma decode_ind (P : list N -> Prop) :
  (forall buf, (forall frame used, parse_ws_frame_prefix buf = Ok (Some (frame, used)) -> P (drop_N used buf)) -> P buf) ->
  forall buf, P buf.
Proof.
  intros H buf. remember (length buf) as n eqn:En. revert buf En. induction n as [n IH] using lt_wf_ind. intros buf ->.
  apply H. intros frame used Ep. apply parse_some in Ep as (_ & Hu1 & Hu2).
  pose proof (drop_N_length used buf Hu1 Hu2). by eapply IH; [|reflexivity]; lia.
Qed.

(** Frames and rest are the input. *)
Lemma decode_bytes buf : forall frames rest e, decode buf = (frames, rest, e) -> raws frames ++ rest = buf.
Proof.
  induction buf as [buf IH] using decode_ind. intros frames rest e. rewrite decode_step.
  destruct (parse_ws_frame_prefix buf) as [[[frame used]|]|e'] eqn:Ep; [|by intros [= <- <- <-]..].
  destruct (decode (drop_N used buf)) as [[fs r] e'] eqn:Ed. intros [= <- <- <-].
  apply parse_some in Ep as Hp. destruct Hp as (Hr & _ & _). cbn [raws flat_map]. fold (raws fs).
  by rewrite <- app_assoc, (IH _ _ eq_refl _ _ _ Ed), Hr, take_drop_N.
Qed.

(** Decoding a prefix first changes nothing. *)
Lemma decode_app a : forall frames rest b,
  decode a = (frames, rest, None) ->
  decode (a ++ b) = let '(frames', rest', e) := decode (rest ++ b) in (frames ++ frames', rest', e).
Proof.
  induction a as [a IH] using decode_ind. intros frames rest b. rewrite decode_step.
  destruct (parse_ws_frame_prefix a) as [[[frame used]|]|e] eqn:Ep; [| |done].
  - destruct (decode (drop_N used a)) as [[fs r] e] eqn:Ed. intros [= <- <- ->].
    pose proof (parse_more a b) as Hm. rewrite Ep in Hm. rewrite (decode_step (a ++ b)), Hm.
    apply parse_some in Ep as Hp. destruct Hp as (_ & _ & Hu). rewrite drop_N_app_le by done.
    rewrite (IH _ _ eq_refl _ _ b Ed). by destruct (decode (r ++ b)) as [[? ?] ?].
  - intros [= <- <-]. by destruct (decode (a ++ b)) as [[? ?] ?].
Qed.

(** A buffer without a complete frame. *)
Definition settled (buf : list N) : Prop := decode buf = ([], buf, None).
Lemma decode_settled buf : forall frames rest, decode buf = (frames, rest, None) -> settled rest.
Proof.
  induction buf as [buf IH] using decode_ind. intros frames rest. rewrite decode_step.
  destruct (parse_ws_frame_prefix buf) as [[[frame used]|]|e] eqn:Ep; [| |done].
  - destruct (decode (drop_N used buf)) as [[fs r] e] eqn:Ed. intros [= <- <- ->]. by eapply IH.
  - intros [= <- <-]. unfold settled. by rewrite decode_step, Ep.
Qed.
Lemma push_ok buf data buf' frames :
  decoder_push buf data = (buf', Ok frames) -> decode (buf ++ data) = (frames, buf', None).
Proof.
  unfold decoder_push. fold (decode (buf ++ data)). destruct (decode (buf ++ data)) as [[fs r] [e|]]; [done|].
  by intros [= <- <-].
Qed.
Lemma push_err buf data buf' e : decoder_push buf data = (buf', Err e) -> e = frame_too_large.
Proof.
  unfold decoder_push. fold (decode (buf ++ data)). generalize (buf ++ data) as all. clear buf data. intros all.
  destruct (decode all) as [[fs r] [e'|]] eqn:Ed; [|done]. intros [= <- <-]. revert fs r Ed.
  induction all as [all IH] using decode_ind. intros fs r. rewrite decode_step.
  destruct (parse_ws_frame_prefix all) as [[[frame used]|]|e''] eqn:Ep; [|done|].
  - destruct (decode (drop_N used all)) as [[fs' r'] e''] eqn:Ed. intros [= _ <- ->]. by eapply IH.
  - intros [= _ _ <-]. destruct all as [|b0 [|b1 all]]; [done..|]. rewrite parse_from_eq in Ep. unfold parse_from in Ep.
    destruct (_ <? _); [done|]. destruct (WS_FRAME_LIMIT <? _); [by injection Ep as <-|]. by destruct (_ <? _).
Qed.

(** ** Reading *)

(** Arrivals that are data or a wait for it. *)
Definition calm (s : list Arrival) : Prop :=
  Forall (fun a => match a with Bytes bs => bs <> [] | Broken e => would_block e = true end) s.

Lemma calm_unread bs s : calm s -> calm (unread bs s).
Proof. destruct bs; [done|]. by constructor. Qed.
Lemma stream_read_carried n s s' r :
  stream_read n s = (s', r) -> carried s = match r with Ok data => data | Err _ => [] end ++ carried s'.
Proof.
  destruct s as [|[bs|e] s]; cbn; intros [= <- <-]; [done| |done].
  by rewrite carried_unread, app_assoc, take_drop_N.
Qed.
Lemma stream_read_calm n s s' r : calm s -> stream_read n s = (s', r) -> calm s'.
Proof.
  intros Hc. destruct s as [|[bs|e] s]; cbn; intros [= <- <-]; [done| |by apply Forall_cons in Hc as []].
  apply Forall_cons in Hc as [_ Hc]. by apply calm_unread.
Qed.

Lemma read_frames_ok fuel total out buf s s' buf' n parsed closed :
  settled buf -> (length (carried s) < fuel)%nat ->
  read_frames_loop fuel total out buf s = (s', buf', Ok (n, parsed, closed)) ->
  exists frames data, parsed = out ++ frames /\ carried s = data ++ carried s' /\
    decode (buf ++ data) = (frames, buf', None) /\ (calm s -> calm s' /\ (closed = true -> carried s' = [])).
Proof.
  revert total out buf s. induction fuel as [|fuel IH]; intros total out buf s Hb Hf H; [lia|].
  cbn [read_frames_loop] in H. destruct (stream_read WS_BUFFER_SIZE s) as [s1 r] eqn:Er.
  pose proof (stream_read_carried _ _ _ _ Er) as Hc. pose proof (fun Hs => stream_read_calm _ _ _ _ Hs Er) as Hcalm.
  destruct r as [data|e].
  - destruct data as [|b data].
    + injection H as <- <- <- <- <-. exists [], []. rewrite !app_nil_r. split_and!; [done..|]. intros Hs. split; [by apply Hcalm|].
      intros _. destruct s as [|[bs|e] s]; cbn in Er; [by injection Er as <-| |done].
      apply Forall_cons in Hs as [Hs _]. destruct bs; [done|]. injection Er as _ Er. by destruct (WS_BUFFER_SIZE =? 0) eqn:E0.
    + set (d := b :: data) in *. destruct (decoder_push buf d) as [b1 [frames|e]] eqn:Ep; [|done].
      apply push_ok in Ep as Ed. destruct (blen d <? WS_BUFFER_SIZE).
      * injection H as <- <- <- <- <-. exists frames, d. split_and!; [done..|]. by intros Hs%Hcalm.
      * apply IH in H as (fs & d2 & -> & Hc2 & Ed2 & Hs2); [|by eapply decode_settled|].
        2: { rewrite Hc in Hf. unfold d in Hf. cbn in Hf. rewrite length_app in Hf. lia. }
        exists (frames ++ fs), (d ++ d2). split_and!; [by rewrite app_assoc|by rewrite Hc, Hc2, app_assoc| |].
        { rewrite app_assoc, (decode_app _ _ _ d2 Ed), Ed2. done. }
        { intros Hs%Hcalm. by apply Hs2. }
  - destruct (would_block e); [|done]. injection H as <- <- <- <- <-. exists [], [].
    rewrite !app_nil_r. split_and!; [done..|]. by intros Hs%Hcalm.
Qed.
Lemma read_frames_err fuel total out buf s s' buf' e :
  read_frames_loop fuel total out buf s = (s', buf', Err e) ->
  (exists data, carried s = data ++ carried s') /\ (calm s -> websocket_end_error e = false).
Proof.
  revert total out buf s. induction fuel as [|fuel IH]; intros total out buf s H; [done|].
  cbn [read_frames_loop] in H. destruct (stream_read WS_BUFFER_SIZE s) as [s1 r] eqn:Er.
  pose proof (stream_read_carried _ _ _ _ Er) as Hc. pose proof (fun Hs => stream_read_calm _ _ _ _ Hs Er) as Hcalm.
  destruct r as [[|b data]|e1]; [done| |].
  - set (d := b :: data) in *. destruct (decoder_push buf d) as [b1 [frames|e1]] eqn:Ep.
    + destruct (_ <? _); [done|]. apply IH in H as [[d2 Hd] He]. split; [|by intros Hs%Hcalm; apply He].
      exists (d ++ d2). by rewrite Hc, Hd, app_assoc.
    + injection H as <- <- <-. split; [by exists d|]. apply push_err in Ep as ->. done.
  - destruct (would_block e1) eqn:Ew; [done|]. injection H as <- <- <-. split; [by exists []|]. intros Hs.
    destruct s as [|[bs|e2] s]; cbn in Er; [done|done|]. injection Er as _ <-. apply Forall_cons in Hs as [Hs _]. congruence.
Qed.

(** ** Writing *)

Lemma nb_write_spec bs w w' r :
  nb_write bs w = (w', r) ->
  match r with
  | Ok n => n <= blen bs /\ nb_written w' = nb_written w ++ take_N n bs
  | Err _ => nb_written w' = nb_written w
  end.
Proof.
  unfold nb_write. assert (Ha : nb_written (fst (nb_answer w)) = nb_written w) by (unfold nb_answer; by destruct (nb_script w)).
  destruct (nb_answer w) as [w1 [n|e]]; cbn [fst] in Ha; intros [= <- <-]; cbn [nb_written]; rewrite Ha; [|done].
  split; [lia|done].
Qed.
Lemma flush_loop_spec fuel written pending w w' pending' r :
  flush_loop fuel written pending w = (w', pending', r) ->
  exists sent, pending = sent ++ pending' /\ nb_written w' = nb_written w ++ sent.
Proof.
  revert written pending w. induction fuel as [|fuel IH]; intros written pending w; cbn [flush_loop].
  { intros [= <- <- _]. exists []. by rewrite !app_nil_r. }
  destruct pending as [|b bs]; [intros [= <- <- _]; exists []; by rewrite !app_nil_r|]. set (all := b :: bs).
  destruct (nb_write all w) as [w1 o] eqn:Ew. apply nb_write_spec in Ew. destruct o as [n|e].
  - destruct Ew as [Hn Hw]. destruct n as [|p].
    + intros [= <- <- _]. exists []. split; [done|exact Hw].
    + intros H. apply IH in H as (sent & Hs & Hw'). exists (take_N (N.pos p) all ++ sent).
      split; [by rewrite <- app_assoc, <- Hs, take_drop_N|]. by rewrite Hw', Hw, app_assoc.
  - intros [= <- <- _]. exists []. rewrite Ew. by rewrite !app_nil_r.
Qed.
Lemma flush_pending_spec pending w w' pending' r :
  flush_pending_nonblocking pending w = (w', pending', r) ->
  exists sent, pending = sent ++ pending' /\ nb_written w' = nb_written w ++ sent.
Proof.
  unfold flush_pending_nonblocking. destruct (flush_loop _ _ _ _) as [[w1 p1] [n|e]] eqn:Ef; apply flush_loop_spec in Ef.
  2: { intros H. injection H as <- <- _. exact Ef. }
  destruct (n =? 0); [intros H; injection H as <- <- _; exact Ef|]. unfold nb_flush.
  assert (Ha : nb_written (fst (nb_answer w1)) = nb_written w1) by (unfold nb_answer; by destruct (nb_script w1)).
  destruct (nb_answer w1) as [w2 [m|e]]; cbn [fst] in Ha; intros H; injection H as <- <- _; by rewrite Ha.
Qed.

(** ** One direction *)

Definition is_close (frame : WsFrame) : bool := wf_opcode frame =? 8.

Lemma append_frames_spec direction limit parsed h records h' records' :
  append_frames direction limit parsed h records = (h', records') ->
  hf_in h' = hf_in h /\ hf_decoder h' = hf_decoder h /\ hf_closed h' = hf_closed h /\ hf_out h' = hf_out h /\
  hf_pending h' = hf_pending h ++ raws parsed /\
  hf_close_seen h' = hf_close_seen h || existsb is_close parsed /\
  (hf_bytes h < 2 ^ 64 -> hf_bytes h' = (hf_bytes h + blen (raws parsed)) mod 2 ^ 64).
Proof.
  unfold append_frames. revert h records. induction parsed as [|f parsed IH]; intros h records; cbn [fold_left].
  { intros [= <- _]. cbn [raws flat_map existsb]. rewrite app_nil_r, orb_false_r, blen_nil, N.add_0_r.
    split_and!; try done. intros Hb. by rewrite N.mod_small. }
  destruct (append_frame direction limit (h, records) f) as [h1 r1] eqn:Ea. intros H.
  unfold append_frame in Ea. destruct (record_ws_frame _ _ _ _ _) as [r2 st]. injection Ea as <- <-.
  apply IH in H as (-> & -> & -> & -> & -> & -> & Hb).
  cbn [hf_in hf_decoder hf_closed hf_out hf_pending hf_close_seen hf_bytes] in *. cbn [raws flat_map existsb]. fold (raws parsed).
  split_and!; [done..|by rewrite app_assoc|by rewrite orb_assoc|]. intros Hlt. rewrite Hb by (apply N.mod_lt; lia).
  unfold wrapping_add64. rewrite N.Div0.add_mod_idemp_l, blen_app. f_equal. lia.
Qed.

(** What a direction has passed on, holds and has still to read is what its
    peer sends, as whole frames and a rest. *)
Definition relayed (sent : list N) (h : Half) : Prop :=
  exists frames,
    nb_written (hf_out h) ++ hf_pending h = raws frames /\
    sent = (raws frames ++ hf_decoder h) ++ carried (hf_in h) /\
    decode (raws frames ++ hf_decoder h) = (frames, hf_decoder h, None) /\
    hf_bytes h = blen (raws frames) mod 2 ^ 64 /\ hf_close_seen h = existsb is_close frames.
(** The part that is passed on starts what the peer sends. *)
Definition passed (sent : list N) (h : Half) : Prop :=
  exists more, sent = nb_written (hf_out h) ++ hf_pending h ++ more.
Definition sound (sent : list N) (h : Half) : Prop := passed sent h /\ (hf_closed h = false -> relayed sent h).

Lemma relayed_passed sent h : relayed sent h -> passed sent h.
Proof.
  intros (frames & Hw & Hs & _). exists (hf_decoder h ++ carried (hf_in h)). by rewrite Hs, <- Hw, <- !app_assoc.
Qed.
Lemma relayed_settled sent h : relayed sent h -> settled (hf_decoder h).
Proof. intros (frames & _ & _ & Hd & _). by eapply decode_settled. Qed.

Lemma relayed_append direction limit sent h s buf closed data parsed records h' records' :
  relayed sent h -> carried (hf_in h) = data ++ carried s -> decode (hf_decoder h ++ data) = (parsed, buf, None) ->
  append_frames direction limit parsed (after_read h s buf closed) records = (h', records') ->
  relayed sent h' /\ hf_in h' = s /\ hf_closed h' = hf_closed h || closed /\ hf_out h' = hf_out h.
Proof.
  intros (frames & Hw & Hs & Hd & Hb & Hc) Hin Hdec Ha.
  apply append_frames_spec in Ha as (E1 & E2 & E3 & E4 & E5 & E6 & E7).
  cbn [after_read hf_in hf_decoder hf_closed hf_out hf_pending hf_close_seen hf_bytes] in *. split_and!; [|done..].
  assert (Hr : raws parsed ++ buf = hf_decoder h ++ data) by (by eapply decode_bytes).
  exists (frames ++ parsed). rewrite E1, E2, E4, E5, E6, raws_app. split_and!.
  - by rewrite app_assoc, Hw.
  - rewrite Hs, Hin. rewrite <- !app_assoc. f_equal. rewrite !app_assoc. by rewrite Hr, <- app_assoc.
  - replace ((raws frames ++ raws parsed) ++ buf) with ((raws frames ++ hf_decoder h) ++ data)
      by (by rewrite <- !app_assoc, Hr).
    by rewrite (decode_app _ _ _ data Hd), Hdec.
  - rewrite E7 by (rewrite Hb; apply N.mod_lt; lia). rewrite Hb, N.Div0.add_mod_idemp_l, blen_app. done.
  - by rewrite Hc, existsb_app.
Qed.

Lemma read_half_sound direction limit sent h records h' records' r :
  sound sent h -> read_half direction limit h records = (h', records', r) ->
  passed sent h' /\ (r = Ok tt -> sound sent h').
Proof.
  intros [Hp Hr] H. unfold read_half in H. destruct (hf_closed h) eqn:Ec; cbn [negb andb] in H.
  { injection H as <- <- <-. split; [done|]. intros _. split; [done|congruence]. }
  specialize (Hr eq_refl). destruct (_ <? PENDING_LIMIT); [|by injection H as <- <- <-].
  destruct (read_ws_frames_nonblocking (hf_decoder h) (hf_in h)) as [[s buf] [[[n parsed] closed]|e]] eqn:Er.
  - destruct (append_frames _ _ _ _ _) as [h1 r1] eqn:Ea. injection H as <- <- <-.
    apply read_frames_ok in Er as (frames & data & -> & Hin & Hd & _); [|by eapply relayed_settled|lia].
    eapply relayed_append in Ea as [Hr' _]; [|done..]. apply relayed_passed in Hr' as Hp'. by repeat split.
  - destruct (websocket_end_error e); injection H as <- <- <-; split; [exact Hp| |exact Hp|done].
    intros _. split; [exact Hp|]. cbn. by rewrite orb_true_r.
Qed.

(** Without errors of the peer nothing is lost, and a direction closes at the
    end of its input or behind a close frame. *)
Definition ended (h : Half) : Prop := hf_closed h = true -> hf_close_seen h = true \/ carried (hf_in h) = [].
Definition whole (sent : list N) (h : Half) : Prop := relayed sent h /\ calm (hf_in h) /\ ended h.

Lemma read_half_whole direction limit sent h records h' records' :
  whole sent h -> read_half direction limit h records = (h', records', Ok tt) -> whole sent h'.
Proof.
  intros (Hr & Hc & He) H. unfold read_half in H. destruct (hf_closed h) eqn:Ec; cbn [negb andb] in H.
  { by injection H as <- <-. }
  destruct (_ <? PENDING_LIMIT); [|by injection H as <- <-].
  destruct (read_ws_frames_nonblocking (hf_decoder h) (hf_in h)) as [[s buf] [[[n parsed] closed]|e]] eqn:Er.
  - destruct (append_frames _ _ _ _ _) as [h1 r1] eqn:Ea. injection H as <- <-.
    apply read_frames_ok in Er as (frames & data & -> & Hin & Hd & Hs); [|by eapply relayed_settled|lia].
    destruct (Hs Hc) as [Hc' Hcl].
    eapply relayed_append in Ea as (Hr' & E1 & E2 & _); [|done..]. split_and!; [done|by rewrite E1|].
    intros Hx. right. rewrite E1. apply Hcl. by rewrite E2, Ec in Hx.
  - apply read_frames_err in Er as [_ Hx]. by rewrite (Hx Hc) in H.
Qed.

Lemma flush_half_fields h h' r :
  flush_half h = (h', r) ->
  hf_in h' = hf_in h /\ hf_decoder h' = hf_decoder h /\ hf_closed h' = hf_closed h /\ hf_bytes h' = hf_bytes h /\
  hf_close_seen h' = hf_close_seen h /\
  nb_written (hf_out h') ++ hf_pending h' = nb_written (hf_out h) ++ hf_pending h.
Proof.
  unfold flush_half. destruct (flush_pending_nonblocking _ _) as [[w p] o] eqn:Ef.
  apply flush_pending_spec in Ef as (sent & Hp & Hw). intros [= <- _]. cbn. split_and!; [done..|].
  by rewrite Hw, Hp, app_assoc.
Qed.
Lemma flush_half_passed sent h h' r : passed sent h -> flush_half h = (h', r) -> passed sent h'.
Proof.
  intros [more Hm] (_ & _ & _ & _ & _ & E)%flush_half_fields. exists more. by rewrite app_assoc, E, <- app_assoc.
Qed.
Lemma flush_half_relayed sent h h' r : relayed sent h -> flush_half h = (h', r) -> relayed sent h'.
Proof.
  intros (frames & R) (E1 & E2 & _ & E4 & E5 & E6)%flush_half_fields. exists frames. by rewrite E1, E2, E4, E5, E6.
Qed.
Lemma flush_half_sound sent h h' r : sound sent h -> flush_half h = (h', r) -> sound sent h'.
Proof.
  intros [Hp Hr] E. split; [by eapply flush_half_passed|]. apply flush_half_fields in E as E'.
  destruct E' as (_ & _ & -> & _). intros Hc. eapply flush_half_relayed; [by apply Hr|exact E].
Qed.
Lemma flush_half_whole sent h h' r : whole sent h -> flush_half h = (h', r) -> whole sent h'.
Proof.
  intros (Hr & Hc & He) E. split; [by eapply flush_half_relayed|].
  apply flush_half_fields in E as (E1 & _ & E3 & _ & E5 & _). unfold ended. by rewrite E1, E3, E5.
Qed.

Lemma close_half_sound sent h : sound sent h -> sound sent (close_half h).
Proof. intros [Hp Hr]. unfold close_half. destruct (_ && _); [|done]. by split; [exact Hp|]. Qed.
Lemma close_half_whole sent h : whole sent h -> whole sent (close_half h).
Proof.
  intros (Hr & Hc & He). unfold close_half. destruct (hf_close_seen h) eqn:Es; cbn [andb]; [|done].
  destruct (is_emptyb _); [|done]. destruct Hr as (frames & R). rewrite Es in R. split_and!; [by exists frames|done|].
  intros _. left. cbn. done.
Qed.

(** ** The tunnel *)

Definition tunnel_passed (a b : list N) (t : Tunnel) : Prop := passed a (tu_c2s t) /\ passed b (tu_s2c t).
Definition tunnel_sound (a b : list N) (t : Tunnel) : Prop := sound a (tu_c2s t) /\ sound b (tu_s2c t).
Definition tunnel_whole (a b : list N) (t : Tunnel) : Prop := whole a (tu_c2s t) /\ whole b (tu_s2c t).

Lemma round_sound limit a b t t' r :
  tunnel_sound a b t -> tunnel_round limit t = (t', r) ->
  tunnel_passed a b t' /\ (is_some (ok r) = true -> tunnel_sound a b t').
Proof.
  intros [H1 H2] H. unfold tunnel_round in H.
  destruct (read_half _ _ (tu_c2s t) _) as [[c fs] rc] eqn:E1. destruct (read_half_sound _ _ _ _ _ _ _ _ H1 E1) as [P1 S1].
  destruct rc as [[]|e]; [specialize (S1 eq_refl)|injection H as <- <-; split; [split; [exact P1|apply H2]|done]].
  destruct (read_half _ _ (tu_s2c t) _) as [[s fs2] rs] eqn:E2. destruct (read_half_sound _ _ _ _ _ _ _ _ H2 E2) as [P2 S2].
  destruct rs as [[]|e]; [specialize (S2 eq_refl)|injection H as <- <-; split; [by split|done]].
  destruct (flush_half c) as [c2 rf] eqn:E3. pose proof (flush_half_sound _ _ _ _ S1 E3) as S3.
  destruct rf as [[]|e]; [|injection H as <- <-; split; [split; [apply S3|exact P2]|done]].
  destruct (flush_half s) as [s2 rg] eqn:E4. pose proof (flush_half_sound _ _ _ _ S2 E4) as S4.
  destruct rg as [[]|e]; [|injection H as <- <-; split; [split; [apply S3|apply S4]|done]].
  injection H as <- <-. apply close_half_sound in S3, S4. split; [split; [apply S3|apply S4]|by split].
Qed.
Lemma round_whole limit a b t t' d :
  tunnel_whole a b t -> tunnel_round limit t = (t', Ok d) -> tunnel_whole a b t' /\ d = tunnel_done t'.
Proof.
  intros [H1 H2] H. unfold tunnel_round in H.
  destruct (read_half _ _ (tu_c2s t) _) as [[c fs] [[]|e]] eqn:E1; [|done]. apply read_half_whole with (sent := a) in E1; [|done].
  destruct (read_half _ _ (tu_s2c t) _) as [[s fs2] [[]|e]] eqn:E2; [|done]. apply read_half_whole with (sent := b) in E2; [|done].
  destruct (flush_half c) as [c2 [[]|e]] eqn:E3; [|done]. eapply flush_half_whole in E3; [|exact E1].
  destruct (flush_half s) as [s2 [[]|e]] eqn:E4; [|done]. eapply flush_half_whole in E4; [|exact E2].
  injection H as <- <-. split; [|done]. split; by apply close_half_whole.
Qed.

Lemma run_sound limit fuel a b t t' r :
  tunnel_sound a b t -> tunnel_run limit fuel t = (t', r) -> tunnel_passed a b t'.
Proof.
  revert t. induction fuel as [|fuel IH]; intros t Hs; cbn [tunnel_run].
  { intros [= <- _]. destruct Hs as [[? _] [? _]]. by split. }
  destruct (tunnel_round limit t) as [t1 [[]|e]] eqn:Er; destruct (round_sound _ _ _ _ _ _ Hs Er) as [Hp Hs1].
  - by intros [= <- _].
  - apply IH, Hs1. done.
  - by intros [= <- _].
Qed.
Lemma run_whole limit fuel a b t t' r :
  tunnel_whole a b t -> tunnel_run limit fuel t = (t', Some (Ok r)) ->
  tunnel_whole a b t' /\ tunnel_done t' = true /\ r = (hf_bytes (tu_c2s t'), hf_bytes (tu_s2c t'), tu_frames t').
Proof.
  revert t. induction fuel as [|fuel IH]; intros t Hs; cbn [tunnel_run]; [done|].
  destruct (tunnel_round limit t) as [t1 [[]|e]] eqn:Er; [| |done];
    destruct (round_whole _ _ _ _ _ _ Hs Er) as [Hs1 Hd].
  - by intros [= <- <-].
  - by apply IH.
Qed.

Lemma new_sound s w : nb_written w = [] -> sound (carried s) (Half_new s w).
Proof. intros Hw. split; [exists (carried s); cbn; by rewrite Hw|]. intros _. exists []. cbn. by rewrite Hw. Qed.
Lemma new_whole s w : nb_written w = [] -> calm s -> whole (carried s) (Half_new s w).
Proof. intros Hw Hc. split_and!; [by apply new_sound|done|done]. Qed.

(** What a finished direction delivered: whole frames, all that came unless a
    close frame is among them. *)
Definition delivered_frames (sent received : list N) (count : N) : Prop :=
  exists frames rest, received = raws frames /\ sent = raws frames ++ rest /\ count = blen received mod 2 ^ 64 /\
    (existsb is_close frames = true \/ decode sent = (frames, rest, None)).
Lemma whole_delivered sent h :
  whole sent h -> hf_pending h = [] -> (hf_closed h = true \/ hf_close_seen h = true) ->
  delivered_frames sent (nb_written (hf_out h)) (hf_bytes h).
Proof.
  intros ((frames & Hw & Hs & Hd & Hb & Hc) & _ & He) Hp Hend. rewrite Hp, app_nil_r in Hw.
  exists frames, (hf_decoder h ++ carried (hf_in h)). rewrite Hw. split_and!; [done|by rewrite app_assoc|done|].
  destruct (hf_close_seen h) eqn:Es; [by left|right]. destruct Hend as [Hx|]; [|done].
  destruct (He Hx) as [|Hn]; [congruence|]. rewrite Hs, Hn, !app_nil_r. done.
Qed.

(** ** Progress *)

(** What a direction has still to read. *)
Definition input_left (s : list Arrival) : nat := (length (carried s) + length s)%nat.

Lemma stream_read_progress n s s' r :
  stream_read n s = (s', r) -> r <> Ok [] -> (input_left s' < input_left s)%nat.
Proof.
  intros Er Hr. pose proof (stream_read_carried _ _ _ _ Er) as Hc. unfold input_left.
  destruct s as [|[bs|e] s]; cbn in Er; injection Er as <- <-; [done| |rewrite Hc; cbn [app length]; lia].
  rewrite Hc, length_app. assert (Hl : (length (unread (drop_N n bs) s) <= Datatypes.S (length s))%nat)
    by (destruct (drop_N n bs); cbn; lia).
  destruct (take_N n bs) as [|b data]; [done|]. cbn [length]. lia.
Qed.
Lemma read_frames_progress fuel total out buf s s' buf' n parsed :
  (length (carried s) < fuel)%nat ->
  read_frames_loop fuel total out buf s = (s', buf', Ok (n, parsed, false)) -> (input_left s' < input_left s)%nat.
Proof.
  revert total out buf s. induction fuel as [|fuel IH]; intros total out buf s Hf H; [lia|]. cbn [read_frames_loop] in H.
  destruct (stream_read WS_BUFFER_SIZE s) as [s1 [[|b data]|e]] eqn:Er; [done| |].
  - pose proof (stream_read_progress _ _ _ _ Er ltac:(done)) as Hp. pose proof (stream_read_carried _ _ _ _ Er) as Hc.
    destruct (decoder_push buf (b :: data)) as [b1 [frames|e]]; [|done].
    destruct (_ <? _); [by injection H as <- <- <- <-|]. apply IH in H; [lia|].
    rewrite Hc, length_app in Hf. cbn in Hf. lia.
  - pose proof (stream_read_progress _ _ _ _ Er ltac:(done)) as Hp. destruct (would_block e); [|done].
    by injection H as <- <- <- <-.
Qed.

(** A peer that takes at least a byte of every write. *)
Definition accepts (a : NbAnswer) : Prop := match a with Accepts n => 0 < n | Refuses _ => False end.
Definition willing (w : NbSink) : Prop := Forall accepts (nb_script w) /\ accepts (nb_then w).

Lemma willing_answer w : willing w -> exists n, snd (nb_answer w) = Accepts n /\ 0 < n /\ willing (fst (nb_answer w)).
Proof.
  intros [Hs Ht]. unfold nb_answer. destruct (nb_script w) as [|a script] eqn:Es; cbn [fst snd].
  - destruct (nb_then w) as [n|] eqn:En; [|done]. exists n. split_and!; [done..|]. split; [by rewrite Es|by rewrite En].
  - apply Forall_cons in Hs as [Ha Hs]. destruct a as [n|]; [|done]. exists n. by split_and!.
Qed.
Lemma flush_willing fuel written pending w :
  willing w -> (length pending <= fuel)%nat ->
  exists w' n, flush_loop fuel written pending w = (w', [], Ok n) /\ willing w'.
Proof.
  revert written pending w. induction fuel as [|fuel IH]; intros written pending w Hw Hf.
  { destruct pending; [|cbn in Hf; lia]. by exists w, written. }
  cbn [flush_loop]. destruct pending as [|b bs]; [by exists w, written|]. set (all := b :: bs) in *.
  destruct (willing_answer w Hw) as (n & En & Hn & Hw'). unfold nb_write. destruct (nb_answer w) as [w1 a]. cbn [fst snd] in *. subst a.
  destruct (N.min n (blen all)) as [|p] eqn:Em; [unfold all in Em; rewrite blen_cons in Em; lia|].
  apply IH; [exact Hw'|]. rewrite drop_N_drop, length_drop. unfold all in *. cbn [length] in *. lia.
Qed.
Lemma flush_half_willing h :
  willing (hf_out h) -> exists h', flush_half h = (h', Ok tt) /\ hf_pending h' = [] /\ willing (hf_out h') /\
    hf_in h' = hf_in h /\ hf_closed h' = hf_closed h.
Proof.
  intros Hw. unfold flush_half, flush_pending_nonblocking.
  destruct (flush_willing (length (hf_pending h)) 0 (hf_pending h) _ Hw ltac:(lia)) as (w & n & -> & Hw1).
  destruct (n =? 0); [by eexists|]. unfold nb_flush. destruct (willing_answer w Hw1) as (m & Em & _ & Hw2).
  destruct (nb_answer w) as [w2 a]. cbn [fst snd] in *. subst a. by eexists.
Qed.
Lemma append_frames_out direction limit parsed h records h' records' :
  append_frames direction limit parsed h records = (h', records') ->
  hf_out h' = hf_out h /\ hf_in h' = hf_in h /\ hf_closed h' = hf_closed h.
Proof. intros (? & _ & ? & ? & _)%append_frames_spec. done. Qed.

(** A reading round of a direction with nothing pending. *)
Definition left_of (h : Half) : nat := if hf_closed h then 0 else Datatypes.S (input_left (hf_in h)).
Lemma read_half_progress direction limit h records h' records' :
  hf_pending h = [] -> read_half direction limit h records = (h', records', Ok tt) ->
  hf_out h' = hf_out h /\ (left_of h' < left_of h \/ hf_closed h' = true /\ left_of h' = 0)%nat.
Proof.
  intros Hp H. unfold read_half in H. unfold left_of. rewrite Hp in H. destruct (hf_closed h) eqn:Ec; cbn [negb andb] in H.
  { injection H as <- <-. rewrite Ec. split; [done|by right]. }
  change (blen [] <? PENDING_LIMIT) with true in H. cbv iota in H.
  destruct (read_ws_frames_nonblocking (hf_decoder h) (hf_in h)) as [[s buf] [[[n parsed] closed]|e]] eqn:Er.
  - destruct (append_frames _ _ _ _ _) as [h1 r1] eqn:Ea. injection H as <- <-.
    apply append_frames_out in Ea as (E1 & E2 & E3). cbn [after_read hf_in hf_out hf_closed] in *.
    rewrite E2, E3, Ec. cbn [orb]. split; [done|]. destruct closed; [by right|left].
    apply read_frames_progress in Er; [lia|lia].
  - destruct (websocket_end_error e); [|done]. injection H as <- <-. cbn [after_read hf_in hf_out hf_closed].
    rewrite orb_true_r. split; [done|by right].
Qed.

(** Both directions flushed, and peers that accept. *)
Definition ready (h : Half) : Prop := hf_pending h = [] /\ willing (hf_out h).
Lemma close_half_left h : (left_of (close_half h) <= left_of h)%nat.
Proof. unfold close_half, left_of. destruct (_ && _); [cbn; lia|done]. Qed.
Lemma close_half_ready h : ready h -> ready (close_half h).
Proof. unfold close_half. by destruct (_ && _). Qed.

Lemma round_progress limit t t' :
  ready (tu_c2s t) -> ready (tu_s2c t) -> tunnel_round limit t = (t', Ok false) ->
  ready (tu_c2s t') /\ ready (tu_s2c t') /\
  (left_of (tu_c2s t') + left_of (tu_s2c t') < left_of (tu_c2s t) + left_of (tu_s2c t))%nat.
Proof.
  intros [P1 W1] [P2 W2] H. unfold tunnel_round in H.
  destruct (read_half _ _ (tu_c2s t) _) as [[c fs] [[]|e]] eqn:E1; [|done]. apply read_half_progress in E1 as [O1 L1]; [|done].
  destruct (read_half _ _ (tu_s2c t) _) as [[s fs2] [[]|e]] eqn:E2; [|done]. apply read_half_progress in E2 as [O2 L2]; [|done].
  destruct (flush_half_willing c ltac:(congruence)) as (c' & Ec & Pc & Wc & Ic & Cc). rewrite Ec in H.
  destruct (flush_half_willing s ltac:(congruence)) as (s' & Es & Ps & Ws & Is & Cs). rewrite Es in H.
  injection H as <- Hd. cbn [tu_c2s tu_s2c]. split_and!; [by apply close_half_ready|by apply close_half_ready|].
  assert (Lc : left_of c' = left_of c) by (unfold left_of; by rewrite Ic, Cc).
  assert (Ls : left_of s' = left_of s) by (unfold left_of; by rewrite Is, Cs).
  pose proof (close_half_left c'). pose proof (close_half_left s').
  destruct L1 as [L1|[C1 L1]], L2 as [L2|[C2 L2]]; try lia.
  exfalso. assert (Hcl : forall h, hf_closed h = true -> hf_closed (close_half h) = true)
    by (intros h Hh; unfold close_half; by destruct (_ && _)).
  destruct (close_half_ready c' (conj Pc Wc)) as [Pc' _], (close_half_ready s' (conj Ps Ws)) as [Ps' _].
  unfold tunnel_done in Hd. cbn [tu_c2s tu_s2c] in Hd. rewrite Pc', Ps', !Hcl in Hd by congruence. done.
Qed.

Lemma run_ends limit fuel t :
  ready (tu_c2s t) -> ready (tu_s2c t) -> (left_of (tu_c2s t) + left_of (tu_s2c t) < fuel)%nat ->
  exists t' r, tunnel_run limit fuel t = (t', Some r).
Proof.
  revert t. induction fuel as [|fuel IH]; intros t R1 R2 Hf; [lia|]. cbn [tunnel_run].
  destruct (tunnel_round limit t) as [t1 [[]|e]] eqn:Er; [eauto| |eauto].
  destruct (round_progress _ _ _ R1 R2 Er) as (R1' & R2' & Hl). apply IH; [done..|lia].
Qed.

(** A direction whose receiver is gone: what is pending for it stays pending. *)
Definition refusing (w : NbSink) (e : IoError) : Prop := nb_script w = [] /\ nb_then w = Refuses e.
Definition stuck (e : IoError) (t : Tunnel) : Prop :=
  hf_closed (tu_c2s t) = true /\ hf_pending (tu_c2s t) = [] /\ hf_in (tu_s2c t) = [] /\
  hf_pending (tu_s2c t) <> [] /\ refusing (hf_out (tu_s2c t)) e.

Lemma flush_refused h e :
  websocket_end_error e = true -> refusing (hf_out h) e -> flush_half h = (h, Ok tt).
Proof.
  intros He [Hs Ht]. unfold flush_half, flush_pending_nonblocking. destruct h as [s d c cs by_ st [|b p] w sh]; [done|].
  cbn [hf_pending hf_out length flush_loop] in *. unfold nb_write, nb_answer. rewrite Hs, Ht, He, orb_true_r. done.
Qed.
Lemma flush_nothing h : hf_pending h = [] -> flush_half h = (h, Ok tt).
Proof. unfold flush_half. destruct h. cbn. by intros ->. Qed.
(** The end of a round in which nothing moved. *)
Lemma stuck_end e c s frames :
  hf_closed c = true -> hf_pending c = [] -> hf_in s = [] -> hf_pending s <> [] -> refusing (hf_out s) e ->
  let t := mkTunnel (close_half c) (close_half s) frames in tunnel_done t = false /\ stuck e t.
Proof.
  intros Hc Hp Hi Hq Hr t. assert (Es : close_half s = s).
  { unfold close_half. destruct (hf_pending s); [done|]. by rewrite andb_false_r. }
  assert (Ec : hf_closed (close_half c) = true /\ hf_pending (close_half c) = []) by (unfold close_half; by destruct (_ && _)).
  destruct Ec as [Ec Ep]. unfold t, tunnel_done, stuck. cbn [tu_c2s tu_s2c]. rewrite Es, Ec, Ep.
  split; [|done]. destruct (hf_pending s); [done|]. by rewrite andb_false_r.
Qed.
Lemma stuck_round limit e t :
  websocket_end_error e = true -> stuck e t -> exists t', tunnel_round limit t = (t', Ok false) /\ stuck e t'.
Proof.
  intros He (Hc & Hp & Hi & Hq & Hr). unfold tunnel_round, read_half. rewrite Hc. cbn [negb andb].
  destruct (negb (hf_closed (tu_s2c t)) && _).
  - rewrite Hi. cbn [read_ws_frames_nonblocking read_frames_loop stream_read carried flat_map length append_frames fold_left].
    rewrite flush_nothing, (flush_refused _ e) by done.
    set (s := after_read _ _ _ _). destruct (stuck_end e (tu_c2s t) s (tu_frames t)) as [Hd Hs]; [done..|].
    eexists. split; [by rewrite Hd|exact Hs].
  - rewrite flush_nothing, (flush_refused _ e) by done.
    destruct (stuck_end e (tu_c2s t) (tu_s2c t) (tu_frames t)) as [Hd Hs]; [done..|]. eexists. split; [by rewrite Hd|exact Hs].
Qed.
Lemma stuck_run limit e fuel t : websocket_end_error e = true -> stuck e t -> snd (tunnel_run limit fuel t) = None.
Proof.
  intros He. revert t. induction fuel as [|fuel IH]; intros t Hs; [done|]. cbn [tunnel_run].
  destruct (stuck_round limit e t He Hs) as (t' & -> & Hs'). by apply IH.
Qed.

(** The first round of a tunnel whose client is gone. *)
Lemma decode_raws data frames rest : decode data = (frames, rest, None) -> frames <> [] -> raws frames <> [].
Proof.
  rewrite decode_step. destruct (parse_ws_frame_prefix data) as [[[frame used]|]|] eqn:Ep; [|by intros [= <- _]|done].
  destruct (decode (drop_N used data)) as [[fs r] e]. intros [= <- _ _] _. apply parse_some in Ep as (Hr & Hu & Hl).
  cbn [raws flat_map]. rewrite Hr. intros [Hn _]%app_eq_nil. apply (f_equal blen) in Hn. rewrite blen_take_N, blen_nil in Hn. lia.
Qed.
Lemma read_gone direction limit e w records :
  websocket_end_error e = true ->
  read_half direction limit (Half_new [Broken e] w) records = (after_read (Half_new [Broken e] w) [] [] true, records, Ok tt).
Proof.
  intros He. unfold read_half. cbn [Half_new hf_closed hf_pending negb andb hf_decoder hf_in]. change (blen [] <? PENDING_LIMIT) with true.
  cbv iota. cbn [read_ws_frames_nonblocking read_frames_loop stream_read]. unfold read_ws_frames_nonblocking.
  cbn [read_frames_loop stream_read]. replace (would_block e) with false; [by rewrite He|].
  unfold would_block, websocket_end_error in *. by destruct (io_kind e).
Qed.
Lemma read_one direction limit w data frames rest records :
  decode data = (frames, rest, None) -> data <> [] -> blen data < WS_BUFFER_SIZE ->
  read_half direction limit (Half_new [Bytes data] w) records =
    (let '(h, records) := append_frames direction limit frames (after_read (Half_new [Bytes data] w) [] rest false) records in
     (h, records, Ok tt)).
Proof.
  intros Hd Hne Hl. unfold read_half. cbn [Half_new hf_closed hf_pending negb andb hf_decoder hf_in].
  change (blen [] <? PENDING_LIMIT) with true. cbv iota. unfold read_ws_frames_nonblocking. cbn [read_frames_loop stream_read].
  rewrite take_N_all, drop_N_all by lia. destruct data as [|b bs]; [done|].
  unfold decoder_push. cbn [app]. fold (decode (b :: bs)). rewrite Hd. by rewrite (proj2 (N.ltb_lt _ _)) by done.
Qed.
Lemma gone_round limit e u data frames rest :
  websocket_end_error e = true -> decode data = (frames, rest, None) -> frames <> [] -> blen data < WS_BUFFER_SIZE ->
  exists t, tunnel_round limit (Tunnel_new [Broken e] u [Bytes data] (mkNbSink [] [] (Refuses e))) = (t, Ok false) /\ stuck e t.
Proof.
  intros He Hd Hf Hl. pose proof (decode_raws _ _ _ Hd Hf) as Hr.
  assert (Hne : data <> []) by (intros ->; by injection Hd as <-).
  unfold tunnel_round. cbn [Tunnel_new tu_c2s tu_s2c tu_frames]. rewrite read_gone by done.
  rewrite (read_one _ _ _ data frames rest) by done. destruct (append_frames _ _ _ _ _) as [s rs] eqn:Ea.
  apply append_frames_spec in Ea as (E1 & _ & _ & E4 & E5 & _).
  cbn [after_read Half_new hf_in hf_out hf_pending app] in E1, E4, E5. rewrite flush_nothing by done.
  rewrite (flush_refused s e); [|done|by rewrite E4].
  destruct (stuck_end e (after_read (Half_new [Broken e] u) [] [] true) s rs) as [H1 H2]; [done|done|done|congruence|by rewrite E4|].
  eexists. split; [by rewrite H1|exact H2].
Qed.

Lemma tunnel_new_sound a u b c :
  nb_written u = [] -> nb_written c = [] -> tunnel_sound (carried a) (carried b) (Tunnel_new a u b c).
Proof. intros Hu Hc. split; by apply new_sound. Qed.
Lemma tunnel_new_whole a u b c :
  nb_written u = [] -> nb_written c = [] -> calm a -> calm b -> tunnel_whole (carried a) (carried b) (Tunnel_new a u b c).
Proof. intros Hu Hc Ha Hb. split; by apply new_whole. Qed.

(** ** The blocking reader *)

Lemma sim_read_ws_rest first : sim (read_ws_rest first) (read_ws_rest first).
Proof. unfold read_ws_rest. sim_auto. Qed.
Lemma sim_read_ws_frame : sim read_ws_frame read_ws_frame.
Proof.
  intros s Hs. destruct (sim_read_exact 2 s Hs) as (s1 & H1 & C1 & E1). unfold read_ws_frame. rewrite E1.
  destruct (read_exact 2 (carried s)) as [bs [first|e]]; cbn [fst snd] in *.
  - destruct (sim_read_ws_rest first s1 H1) as (s2 & H2 & C2 & E2). rewrite C1 in C2, E2. eauto.
  - by exists s1.
Qed.

Lemma slice_exact n bs :
  read_exact n bs = if n <=? blen bs then (drop_N n bs, Ok (take_N n bs)) else ([], Err failed_to_fill).
Proof. done. Qed.

(** What the frame of the slice is, by the prefix parser. *)
Definition frame_outcome (bs : list N) : Result IoError (option WsFrame) :=
  match parse_ws_frame_prefix bs with
  | Ok (Some (frame, _)) => Ok (Some frame)
  | Ok None => if blen bs <? 2 then Ok None else Err failed_to_fill
  | Err e => Err e
  end.
Lemma drop_drop_N {A} a b (l : list A) : drop_N b (drop_N a l) = drop_N (a + b) l.
Proof. rewrite !drop_N_drop, drop_drop. f_equal. lia. Qed.
Lemma take_take_N {A} a b (l : list A) : take_N a l ++ take_N b (drop_N a l) = take_N (a + b) l.
Proof.
  rewrite !take_N_take, drop_N_drop, N2Nat.inj_add, take_take_drop. done.
Qed.
Lemma read_ws_rest_slice start first all :
  ws_start (default 0 (first !! 0%nat)) (default 0 (first !! 1%nat)) = start -> first = take_N 2 all -> 2 <= blen all ->
  snd (read_ws_rest first (drop_N 2 all)) =
    match parse_from start all with
    | Ok (Some (frame, _)) => Ok (Some frame) | Ok None => Err failed_to_fill | Err e => Err e
    end /\
  match parse_from start all with
  | Ok (Some (_, used)) => fst (read_ws_rest first (drop_N 2 all)) = drop_N used all | _ => True
  end.
Proof.
  intros Hst Hfirst H2. unfold read_ws_rest, parse_from. rewrite Hst. cbv zeta.
  set (x := extended (st_len start)) in *. destruct (N.ltb_spec (blen all) (2 + x)) as [Hlt|Hx].
  { rewrite (bind_err _ _ (drop_N 2 all) [] failed_to_fill); [done|].
    rewrite (proj2 (N.eqb_neq x 0)) by lia. rewrite slice_exact, (proj2 (N.leb_gt x _)); [done|]. rewrite blen_drop_N. lia. }
  rewrite (bind_run _ _ (drop_N 2 all) (drop_N (2 + x) all) (take_N x (drop_N 2 all))).
  2: { destruct (N.eqb_spec x 0) as [->|Hx0]; [by rewrite N.add_0_r; destruct (drop_N 2 all)|].
       rewrite slice_exact, (proj2 (N.leb_le x _)) by (rewrite blen_drop_N; lia). by rewrite drop_drop_N. }
  fold (ws_length start all). change (if x =? 0 then st_len start else be_bytes (take_N x (drop_N 2 all))) with (ws_length start all).
  destruct (WS_FRAME_LIMIT <? ws_length start all); [done|].
  set (key := if st_masked start then Some (take_N 4 (drop_N (2 + x) all)) else None).
  destruct (N.ltb_spec (blen all) (2 + x + if st_masked start then 4 else 0)) as [Hlt|Hk].
  { rewrite (proj2 (N.ltb_lt (blen all) _)) by (unfold ws_head; fold x; lia).
    rewrite (bind_err _ _ (drop_N (2 + x) all) [] failed_to_fill); [done|]. destruct (st_masked start); [|lia].
    rewrite (bind_err _ _ _ [] failed_to_fill); [done|]. rewrite slice_exact, (proj2 (N.leb_gt 4 _)); [done|]. rewrite blen_drop_N. lia. }
  rewrite (bind_run _ _ (drop_N (2 + x) all) (drop_N (ws_head start) all) key).
  2: { unfold key, ws_head. fold x. destruct (st_masked start); [|by rewrite N.add_0_r].
       rewrite (bind_run _ _ _ (drop_N (2 + x + 4) all) (take_N 4 (drop_N (2 + x) all))); [done|].
       rewrite slice_exact, (proj2 (N.leb_le 4 _)) by (rewrite blen_drop_N; lia). by rewrite drop_drop_N. }
  destruct (N.ltb_spec (blen all) (ws_head start + ws_length start all)) as [Hlt|Hl].
  { rewrite (bind_err _ _ _ [] failed_to_fill); [done|]. rewrite slice_exact, (proj2 (N.leb_gt _ _)); [done|].
    rewrite blen_drop_N. unfold ws_head in *. fold x in Hlt |- *. lia. }
  rewrite (bind_run _ _ _ (drop_N (ws_head start + ws_length start all) all) (take_N (ws_length start all) (drop_N (ws_head start) all))).
  2: { rewrite slice_exact, (proj2 (N.leb_le _ _)) by (rewrite blen_drop_N; lia). by rewrite drop_drop_N. }
  split; [|done]. cbn [ws_frame_at snd mret StateR_ret]. do 3 f_equal. rewrite Hfirst. fold x.
  rewrite app_assoc, take_take_N. unfold ws_head. fold x. destruct (st_masked start); unfold key; cbn [default].
  - unfold id. by rewrite app_assoc, take_take_N, take_take_N.
  - rewrite N.add_0_r. cbn [app]. by rewrite take_take_N.
Qed.
Lemma read_ws_frame_slice bs :
  snd (read_ws_frame bs) = frame_outcome bs /\
  forall frame used, parse_ws_frame_prefix bs = Ok (Some (frame, used)) -> fst (read_ws_frame bs) = drop_N used bs.
Proof.
  unfold frame_outcome, read_ws_frame. rewrite slice_exact.
  destruct bs as [|b0 [|b1 bs]]; [done..|]. set (all := b0 :: b1 :: bs).
  assert (H2 : 2 <= blen all) by (unfold all; rewrite !blen_cons; lia).
  assert (Ep : parse_ws_frame_prefix all = parse_from (ws_start b0 b1) all) by apply parse_from_eq.
  rewrite (proj2 (N.leb_le _ _)) by done. rewrite (proj2 (N.ltb_ge _ 2)) by done. rewrite Ep.
  destruct (read_ws_rest_slice (ws_start b0 b1) (take_N 2 all) all) as [Hs Hf]; [done|done|done|].
  split; [exact Hs|]. intros frame used E. by rewrite E in Hf.
Qed.

(** The decoder over a sequence of chunks. *)
Fixpoint push_all (buf : list N) (chunks : list (list N)) : list N * Result IoError (list WsFrame) :=
  match chunks with
  | [] => (buf, Ok [])
  | data :: chunks' =>
      match decoder_push buf data with
      | (buf, Err e) => (buf, Err e)
      | (buf, Ok frames) =>
          match push_all buf chunks' with (buf, Ok more) => (buf, Ok (frames ++ more)) | r => r end
      end
  end.
Lemma decode_error_app a : forall frames rest e b,
  decode a = (frames, rest, Some e) -> exists rest', decode (a ++ b) = (frames, rest', Some e).
Proof.
  induction a as [a IH] using decode_ind. intros frames rest e b. rewrite decode_step.
  pose proof (parse_more a b) as Hm. destruct (parse_ws_frame_prefix a) as [[[frame used]|]|e'] eqn:Ep; [|done|].
  - destruct (decode (drop_N used a)) as [[fs r] e'] eqn:Ed. intros [= <- <- ->].
    destruct (IH _ _ eq_refl _ _ _ b Ed) as [r' E']. apply parse_some in Ep as (_ & _ & Hu).
    exists r'. by rewrite decode_step, Hm, drop_N_app_le, E'.
  - intros [= <- <- <-]. exists (a ++ b). by rewrite decode_step, Hm.
Qed.
Lemma push_all_decode buf chunks frames rest :
  settled buf -> decode (buf ++ concat chunks) = (frames, rest, None) -> push_all buf chunks = (rest, Ok frames).
Proof.
  revert buf frames. induction chunks as [|data chunks IH]; intros buf frames Hb Hd; cbn [concat push_all] in *.
  { rewrite app_nil_r, Hb in Hd. by injection Hd as <- <-. }
  rewrite app_assoc in Hd. unfold decoder_push. fold (decode (buf ++ data)).
  destruct (decode (buf ++ data)) as [[fs r] [e|]] eqn:Ed.
  { destruct (decode_error_app _ _ _ _ (concat chunks) Ed) as [r' E']. by rewrite E' in Hd. }
  rewrite (decode_app _ _ _ _ Ed) in Hd. destruct (decode (r ++ concat chunks)) as [[fs' r'] e'] eqn:Ed'.
  injection Hd as <- <- ->. by rewrite (IH r fs' (decode_settled _ _ _ Ed) Ed').
Qed.

(** ** Properties *)

(** Frames do not depend on how the network cuts the bytes: the decoder,
    fed any chunks of a sequence of frames and a partial one, returns exactly these
    frames and keeps the rest; and the blocking reader, on any arrivals, returns the
    frame the prefix parser finds in the bytes they carry and leaves what follows it,
    fails where the parser fails, and ends where fewer than two bytes are left. *)
Theorem websocket_frames_independent_of_cuts chunks s frames rest :
  decode (concat chunks) = (frames, rest, None) -> healthy s ->
  push_all [] chunks = (rest, Ok frames) /\ raws frames ++ rest = concat chunks /\
  exists s', read_ws_frame s = (s', frame_outcome (carried s)) /\
    forall frame used, parse_ws_frame_prefix (carried s) = Ok (Some (frame, used)) ->
      carried s' = drop_N used (carried s) /\ wf_raw frame = take_N used (carried s).
Proof.
  intros Hd Hs. split; [by apply push_all_decode|]. split; [by eapply decode_bytes|].
  destruct (sim_read_ws_frame s Hs) as (s' & Hs' & Hc & E). destruct (read_ws_frame_slice (carried s)) as [Ho Hf].
  exists s'. split; [by rewrite E, Ho|]. intros frame used Ep. split; [by rewrite Hc, (Hf _ _ Ep)|]. by apply parse_some in Ep as [? _].
Qed.
Lemma websocket_frames_independent_of_cuts_witness :
  push_all [] [[129]; [1; 65; 137]; [0; 130]] = ([130], Ok [mkWsFrame [129; 1; 65] [65] 1 true; mkWsFrame [137; 0] [] 9 true]).
Proof.
  apply (websocket_frames_independent_of_cuts [[129]; [1; 65; 137]; [0; 130]] [Bytes [129; 1]; Bytes [65]]
           [mkWsFrame [129; 1; 65] [65] 1 true; mkWsFrame [137; 0] [] 9 true] [130]);
    [by vm_compute|by repeat constructor; eexists _, _].
Defined.

(** C32: The websocket relay passes bytes on unchanged and in order: after any
    number of rounds, whatever the sockets do, each peer has received a prefix of what
    the other sends; and when the relay ends without errors of the peers, each has
    received whole frames, all complete frames of the other side unless a close
    frame is among them, and the byte counts are those of what was passed on. *)
Theorem websocket_relay_transparent limit fuel from_client to_upstream from_upstream to_client t r :
  nb_written to_upstream = [] -> nb_written to_client = [] ->
  tunnel_run limit fuel (Tunnel_new from_client to_upstream from_upstream to_client) = (t, r) ->
  (exists more, carried from_client = nb_written (hf_out (tu_c2s t)) ++ more) /\
  (exists more, carried from_upstream = nb_written (hf_out (tu_s2c t)) ++ more) /\
  forall request response records, calm from_client -> calm from_upstream -> r = Some (Ok (request, response, records)) ->
    delivered_frames (carried from_client) (nb_written (hf_out (tu_c2s t))) request /\
    delivered_frames (carried from_upstream) (nb_written (hf_out (tu_s2c t))) response.
Proof.
  intros Hu Hc E. split_and!.
  1, 2: destruct (run_sound limit fuel (carried from_client) (carried from_upstream) _ _ _
          (tunnel_new_sound _ _ _ _ Hu Hc) E) as [[m1 H1] [m2 H2]]; eauto.
  intros request response records C1 C2 ->.
  destruct (run_whole limit fuel (carried from_client) (carried from_upstream) _ _ _
              (tunnel_new_whole _ _ _ _ Hu Hc C1 C2) E) as ([W1 W2] & Hd & [= -> -> ->]).
  unfold tunnel_done in Hd. apply andb_true_iff in Hd as [[Hd P1]%andb_true_iff P2].
  assert (Hends : forall a b c d : bool, (a && b) || (c && d) = true -> (a = true \/ c = true) /\ (b = true \/ d = true))
    by (intros [] [] [] []; cbn; intuition).
  apply Hends in Hd as [D1 D2]. destruct (hf_pending (tu_c2s t)) eqn:Q1, (hf_pending (tu_s2c t)) eqn:Q2; [|done..].
  split; by apply whole_delivered.
Qed.

(** A masked text frame and a close frame, cut inside the first. *)
Definition sample_frames : list N := [129; 131; 1; 2; 3; 4; 96; 96; 96; 136; 128; 0; 0; 0; 0].
Definition sample_ws_stream : list Arrival :=
  [Bytes (take_N 5 sample_frames); Broken (mkIoError WouldBlock []); Bytes (drop_N 5 sample_frames)].
Definition slow_peer : NbSink := mkNbSink [] [Accepts 1; Accepts 3; Refuses (mkIoError WouldBlock [])] (Accepts 4).
Lemma websocket_relay_transparent_witness :
  exists t records,
    tunnel_run 2 20 (Tunnel_new sample_ws_stream slow_peer [] slow_peer) = (t, Some (Ok (15, 0, records))) /\
    delivered_frames sample_frames (nb_written (hf_out (tu_c2s t))) 15.
Proof.
  eexists _, _. split; [by vm_compute|].
  eapply (websocket_relay_transparent 2 20 sample_ws_stream slow_peer [] slow_peer _ _ eq_refl eq_refl);
    [vm_compute; reflexivity| |by constructor|reflexivity].
  by repeat constructor.
Defined.


(** A websocket relay whose client is gone while a frame for it is pending
    never ends: the failing write is taken as "nothing written", the frame stays
    pending and the loop runs on, for every number of rounds, although both inputs
    have ended. *)
Theorem gone_client_keeps_relay_running limit e to_upstream data frames rest :
  websocket_end_error e = true -> decode data = (frames, rest, None) -> frames <> [] -> blen data < WS_BUFFER_SIZE ->
  forall fuel,
    snd (tunnel_run limit fuel (Tunnel_new [Broken e] to_upstream [Bytes data] (mkNbSink [] [] (Refuses e)))) = None.
Proof.
  intros He Hd Hf Hl fuel. destruct fuel as [|fuel]; [done|]. cbn [tunnel_run].
  destruct (gone_round limit e to_upstream data frames rest He Hd Hf Hl) as (t & -> & Hs). by eapply stuck_run.
Qed.
Lemma gone_client_keeps_relay_running_witness :
  snd (tunnel_run 2 1000
    (Tunnel_new [Broken (mkIoError BrokenPipe [])] slow_peer [Bytes [129; 1; 65]]
       (mkNbSink [] [] (Refuses (mkIoError BrokenPipe []))))) = None.
Proof.
  apply (gone_client_keeps_relay_running 2 (mkIoError BrokenPipe []) slow_peer [129; 1; 65]
           [mkWsFrame [129; 1; 65] [65] 1 true] []); [done|by vm_compute|done|by vm_compute].
Defined.
