(* ===== verification/FlowSession.v ===== *)
(** * The session of a request

    crates/rsproxy-engine/src/proxy: the session that records a request
    (http_flow/session.rs), what the forwarding result or its error add to it
    (http_flow/completion.rs), and tags, merged rules and flags
    (trace_helpers.rs, tls/policy.rs).

    [FlowSession] is [Session] without its times; the two sides of the exchange
    are records of their own. *)
From Stdlib Require Import Ascii String.
From stdpp Require Import base numbers list gmap strings.
From S2P Require Import Prelude Family Utf8 Format NetAddr Io Model Url Engines TraceModel Template Http1.
From S2P Require Import Http1Write Values Deadline Relay Transforms Actions ResponseBody ResponseFlow Routing.
From S2P Require Import Dial.

(** ** Sessions *)

Record Side := mkSide { sd_headers : Headers; sd_trailers : Headers; sd_bytes : N; sd_body_head : list N }.
Definition Side_empty : Side := mkSide [] [] 0 [].
Record FlowSession := mkFlowSession {
  fs_id : N;
  fs_kind : SessionKind.t;
  fs_method : str;
  fs_url : str;
  fs_client : str;
  fs_status : option N;
  fs_upstream : option str;
  fs_flags : list str;
  fs_tls : list TlsRecord;
  fs_matched_rules : list MatchedRule;
  fs_request : Side;
  fs_response : Side;
  fs_frames : list (list N);
  fs_pool_wait_ms : N;
  fs_error : option str;
}.
(** [Session::new(SessionKind::Http, ..)]. *)
Definition FlowSession_new (method url client : str) : FlowSession :=
  mkFlowSession 0 SessionKind.Http method url client None None [] [] [] Side_empty Side_empty [] 0 None.

Section Updates.
Context (s : FlowSession).
Definition with_id (id : N) : FlowSession :=
  mkFlowSession id (fs_kind s) (fs_method s) (fs_url s) (fs_client s) (fs_status s) (fs_upstream s) (fs_flags s)
    (fs_tls s) (fs_matched_rules s) (fs_request s) (fs_response s) (fs_frames s) (fs_pool_wait_ms s) (fs_error s).
Definition with_kind (kind : SessionKind.t) (frames : list (list N)) : FlowSession :=
  mkFlowSession (fs_id s) kind (fs_method s) (fs_url s) (fs_client s) (fs_status s) (fs_upstream s) (fs_flags s)
    (fs_tls s) (fs_matched_rules s) (fs_request s) (fs_response s) frames (fs_pool_wait_ms s) (fs_error s).
Definition with_url (url : str) : FlowSession :=
  mkFlowSession (fs_id s) (fs_kind s) (fs_method s) url (fs_client s) (fs_status s) (fs_upstream s) (fs_flags s)
    (fs_tls s) (fs_matched_rules s) (fs_request s) (fs_response s) (fs_frames s) (fs_pool_wait_ms s) (fs_error s).
Definition with_outcome (status : option N) (upstream : option str) (error : option str) : FlowSession :=
  mkFlowSession (fs_id s) (fs_kind s) (fs_method s) (fs_url s) (fs_client s) status upstream (fs_flags s)
    (fs_tls s) (fs_matched_rules s) (fs_request s) (fs_response s) (fs_frames s) (fs_pool_wait_ms s) error.
Definition push_flags (flags : list str) : FlowSession :=
  mkFlowSession (fs_id s) (fs_kind s) (fs_method s) (fs_url s) (fs_client s) (fs_status s) (fs_upstream s)
    (fs_flags s ++ flags) (fs_tls s) (fs_matched_rules s) (fs_request s) (fs_response s) (fs_frames s)
    (fs_pool_wait_ms s) (fs_error s).
Definition with_tls (tls : list TlsRecord) : FlowSession :=
  mkFlowSession (fs_id s) (fs_kind s) (fs_method s) (fs_url s) (fs_client s) (fs_status s) (fs_upstream s) (fs_flags s)
    tls (fs_matched_rules s) (fs_request s) (fs_response s) (fs_frames s) (fs_pool_wait_ms s) (fs_error s).
Definition with_rules (rules : list MatchedRule) : FlowSession :=
  mkFlowSession (fs_id s) (fs_kind s) (fs_method s) (fs_url s) (fs_client s) (fs_status s) (fs_upstream s) (fs_flags s)
    (fs_tls s) rules (fs_request s) (fs_response s) (fs_frames s) (fs_pool_wait_ms s) (fs_error s).
Definition with_sides (request response : Side) : FlowSession :=
  mkFlowSession (fs_id s) (fs_kind s) (fs_method s) (fs_url s) (fs_client s) (fs_status s) (fs_upstream s) (fs_flags s)
    (fs_tls s) (fs_matched_rules s) request response (fs_frames s) (fs_pool_wait_ms s) (fs_error s).
Definition with_pool_wait (ms : N) : FlowSession :=
  mkFlowSession (fs_id s) (fs_kind s) (fs_method s) (fs_url s) (fs_client s) (fs_status s) (fs_upstream s) (fs_flags s)
    (fs_tls s) (fs_matched_rules s) (fs_request s) (fs_response s) (fs_frames s) ms (fs_error s).
Definition push_flag_if (b : bool) (flag : string) : FlowSession := push_flags (if b then [lit flag] else []).
End Updates.

Definition has_flag (s : FlowSession) (flag : string) : bool := existsb (fun f => f =s? lit flag) (fs_flags s).

(** ** Helpers (trace_helpers.rs) *)

Definition apply_client_connection_flag (s : FlowSession) (request_version : str) (connection : ClientPersistence.t)
    : FlowSession :=
  if negb (eq_ignore_ascii_case request_version (lit "HTTP/1.1")) && negb (is_http10 request_version) then s
  else push_flags s [match connection with
                     | ClientPersistence.KeepAlive => lit "h1-client-keepalive"
                     | ClientPersistence.Close => lit "h1-client-close"
                     end].

Definition is_h1_pool_wait_timeout : IoError -> bool := message_starts "upstream_h1 pool_wait: timeout after ".
Definition is_h2_pool_wait_timeout : IoError -> bool := message_starts "upstream_h2 pool_wait: timeout after ".
Definition is_upstream_tls_handshake_timeout : IoError -> bool := message_starts "stage=tls_handshake: timeout after ".
Definition is_upstream_tcp_connect_timeout : IoError -> bool := message_starts "stage=connect: timeout after ".
Definition is_upstream_dns_timeout : IoError -> bool := message_starts "stage=dns: timeout after ".

Definition negotiated_h2_record (r : TlsRecord) : bool :=
  (items (tr_phase r) =s? lit "upstream_tls") &&
  match tr_alpn r with Some alpn => items alpn =s? lit "h2" | None => false end.
Definition apply_upstream_pool_error_flags (s : FlowSession) (e : IoError) : FlowSession :=
  if message_starts "upstream_h1 " e then
    let s := push_flags s [lit "h1-upstream"] in
    if is_h1_pool_wait_timeout e then push_flags s [lit "h1-upstream-pool-wait-timeout"]
    else push_flags s [if message_starts "upstream_h1 pool_hit " e then lit "h1-upstream-pool-hit"
                       else lit "h1-upstream-pool-miss"]
  else if negb (message_starts "upstream_h2 " e) then s
  else
    let s := push_flags s [lit "h2-upstream"] in
    if is_h2_pool_wait_timeout e then push_flags s [lit "h2-upstream-pool-wait-timeout"]
    else push_flags s [if existsb negotiated_h2_record (fs_tls s) then lit "h2-upstream-pool-miss"
                       else lit "h2-upstream-pool-hit"].

(** Rules that match again move behind the others; each identity is kept once. *)
#[global] Instance MatchedRule_eq_dec : EqDecision MatchedRule.
Proof. solve_decision. Defined.
Fixpoint keep_new (seen : list MatchedRule) (rules : list MatchedRule) : list MatchedRule :=
  match rules with
  | [] => []
  | rule :: rules' =>
      if bool_decide (rule ∈ seen) then keep_new seen rules' else rule :: keep_new (rule :: seen) rules'
  end.
Definition merge_matched_rules (existing additional : list MatchedRule) : list MatchedRule :=
  let kept := keep_new [] (List.filter (fun rule => negb (bool_decide (rule ∈ additional))) existing) in
  kept ++ keep_new kept additional.

Definition trace_hidden (actions : list ResolvedAction) : bool :=
  existsb (fun item => match ra_action item with Action.Hide => true | _ => false end) actions.

Definition MAX_RULE_TAGS_PER_REQUEST : N := 256.
Definition MAX_RULE_RENDERED_TAG_BYTES : N := 4096.

Section Tags.
Context {PE : PatternEngines} {CE : CaptureEngine} {RF : RuleFiles}.
Context (config : ProxyConfig) (meta : RequestMeta).

(** A tag that does not resolve is left out; the loop ends at the limit. *)
Fixpoint tag_loop (tag_count : N) (flags : list str) (actions : list ResolvedAction) : Act (list str) :=
  match actions with
  | [] => mret flags
  | item :: actions' =>
      if MAX_RULE_TAGS_PER_REQUEST <=? tag_count then mret flags
      else
        match ra_action item with
        | Action.Tag value => fun cache =>
            match resolve_value_text_bounded config item meta value MAX_RULE_RENDERED_TAG_BYTES cache with
            | (cache, Err _) => tag_loop tag_count flags actions' cache
            | (cache, Ok tag) =>
                let tag := trim tag in
                let flag := lit "tag:" ++ tag in
                if is_emptyb tag || existsb (fun seen => seen =s? flag) flags
                then tag_loop tag_count flags actions' cache
                else tag_loop (tag_count + 1) (flags ++ [flag]) actions' cache
            end
        | _ => tag_loop tag_count flags actions'
        end
  end.
Definition count_tags (flags : list str) : N := blen (List.filter (starts_with (lit "tag:")) flags).
Definition apply_trace_tags (s : FlowSession) (actions : list ResolvedAction) : Act FlowSession :=
  flags ← tag_loop (count_tags (fs_flags s)) (fs_flags s) actions;
  mret (push_flags s (drop (length (fs_flags s)) flags)).

(** ** The start (http_flow/session.rs) *)

Definition any_action (actions : list ResolvedAction) (matches : Action.t -> bool) : bool :=
  existsb (fun item => matches (ra_action item)) actions.
Definition action_flags (actions : list ResolvedAction) : list str :=
  let flag (name : string) (matches : Action.t -> bool) := if any_action actions matches then [lit name] else [] in
  flag "res-merge" (fun a => match a with Action.ResMerge _ => true | _ => false end) ++
  flag "res-cors" (fun a => match a with Action.ResCors _ => true | _ => false end) ++
  flag "req-cookie" (fun a => match a with Action.ReqCookie _ => true | _ => false end) ++
  flag "res-cookie" (fun a => match a with Action.ResCookie _ => true | _ => false end) ++
  flag "cache" (fun a => match a with Action.Cache _ => true | _ => false end) ++
  flag "res-trailer" (fun a => match a with Action.ResTrailer _ => true | _ => false end).

(** [begin] up to the start of the trace: the session and whether it is hidden. *)
Definition begin_session (req : RawRequest) (full_url peer : str) (initial_tls : list TlsRecord)
    (initial_flags : list str) (matched : list MatchedRule) (actions : list ResolvedAction) (is_mitm : bool)
    : Act (FlowSession * bool) :=
  let s := push_flags (FlowSession_new (rq_method req) full_url peer) initial_flags in
  let s := with_tls s initial_tls in
  let s := with_sides s (mkSide (rq_headers req) (rq_trailers req) (blen (rq_body req)) []) Side_empty in
  let s := with_rules s matched in
  s ← apply_trace_tags s actions;
  let s := push_flag_if s is_mitm "mitm" in
  let s := push_flag_if s (negb (is_emptyb (rq_trailers req))) "req-trailers" in
  mret (push_flags s (action_flags actions), trace_hidden actions).

(** ** The end (http_flow/completion.rs) *)

(** h2_bridge.rs *)
Definition prepare_h2_client_response_headers (headers : Headers) (status : N) (body_len : option N) : Headers :=
  let headers := strip_hop_by_hop_headers headers in
  if negb (status_can_send_content status) then remove_header headers (lit "content-length")
  else
    match body_len with
    | Some n => if is_some (header headers (lit "content-length")) then headers
                else set_header headers (lit "Content-Length") (show_N n)
    | None => headers
    end.

Definition protocol_flags (protocol : UpstreamProtocol.t) : list str :=
  match protocol with
  | UpstreamProtocol.Http1Pooled reused =>
      [lit "h1-upstream"; if reused then lit "h1-upstream-pool-hit" else lit "h1-upstream-pool-miss"]
  | UpstreamProtocol.Http2 reused =>
      [lit "h2-upstream"; if reused then lit "h2-upstream-pool-hit" else lit "h2-upstream-pool-miss"]
  | UpstreamProtocol.Http1 => []
  end.
(** What a relayed request body adds to the result. *)
Record RequestObservation := mkRequestObservation {
  ro_bytes : N; ro_body_head : option (list N); ro_trailers : option Headers; ro_flags : list str }.

Definition kind_flags (kind : SessionKind.t) : list str :=
  match kind with
  | SessionKind.Sse => [lit "sse"]
  | SessionKind.WebSocket => [lit "websocket"]
  | _ => []
  end.
(** The session, whether it is hidden, and the connection of the client. *)
Definition apply_forward_result (s : FlowSession) (hidden : bool) (result : ForwardResult)
    (request : RequestObservation) : Act (FlowSession * bool * ClientPersistence.t) :=
  let s := with_outcome s (Some (fw_status result)) (Some (fw_upstream result)) (fw_error result) in
  let old := fs_request s in
  let side := mkSide (sd_headers old) (default (sd_trailers old) (ro_trailers request)) (fw_request_bytes result)
                (default (sd_body_head old) (ro_body_head request)) in
  let s := push_flag_if s (match ro_trailers request with
                           | Some ts => negb (is_emptyb ts) && negb (has_flag s "req-trailers")
                           | None => false
                           end) "req-trailers" in
  let s := push_flags s (fw_flags result) in
  let s := push_flags s (protocol_flags (fw_protocol result)) in
  let res_headers := if has_flag s "h2-client"
                     then prepare_h2_client_response_headers (fw_res_headers result) (fw_status result) None
                     else fw_res_headers result in
  let s := with_sides s side (mkSide res_headers (fw_res_trailers result) (fw_response_bytes result) (fw_body_head result)) in
  let s := with_rules s (merge_matched_rules (fs_matched_rules s) (fw_matched_rules result)) in
  s ← apply_trace_tags s (fw_actions result);
  let hidden := hidden || trace_hidden (fw_actions result) in
  let s := push_flag_if s (negb (is_emptyb (fw_res_trailers result))) "trailers" in
  let s := match fw_kind result with
           | Some kind => push_flags (with_kind s kind (fw_frames result)) (kind_flags kind)
           | None => s
           end in
  mret (s, hidden, fw_client_connection result).

Definition TOTAL_TIMEOUT_FLAGS : list str := [lit "request-timeout"; lit "request-total-timeout"].
(** The session part of [handle_forward_error]; the waits are those of the configuration. *)
Definition apply_forward_error (s : FlowSession) (planned_upstream : option str) (h1_wait h2_wait : N) (e : IoError)
    : FlowSession :=
  let timeout (b : bool) (flag : string) s := if b then push_flags s [lit "upstream-timeout"; lit flag] else s in
  let s := with_outcome s (Some (forward_error_status e)) planned_upstream (Some (io_message e)) in
  let s := push_flag_if s (is_client_request_body_error e) "client-request-body-error" in
  let s := if is_h1_pool_wait_timeout e then with_pool_wait s (N.min (as_millis h1_wait) U64_MAX)
           else if is_h2_pool_wait_timeout e then with_pool_wait s (N.min (as_millis h2_wait) U64_MAX) else s in
  let s := timeout (is_upstream_tls_handshake_timeout e) "upstream-tls-handshake-timeout"%string s in
  let s := timeout (is_upstream_dns_timeout e) "upstream-dns-timeout"%string s in
  let s := timeout (is_upstream_tcp_connect_timeout e) "upstream-tcp-connect-timeout"%string s in
  let s := timeout (is_upstream_ttfb_timeout e) "upstream-ttfb-timeout"%string s in
  let s := if is_request_total_timeout e then push_flags s (lit "upstream-timeout" :: TOTAL_TIMEOUT_FLAGS) else s in
  apply_upstream_pool_error_flags s e.

(** ** Policy flags (tls/policy.rs, routing.rs) *)

Context (selection : HostPool -> N).

(** The route of a URL, as an option; the regex cache is changed either way. *)
Definition route_of (full_url : str) (actions : list ResolvedAction) : Act (option (UrlParts * UpstreamRoute.t)) :=
  match UrlParts_parse full_url with
  | Err _ => mret None
  | Ok url => fun cache =>
      match upstream_route config meta selection url actions cache with
      | (cache, Ok route) => (cache, Ok (Some (url, route)))
      | (cache, Err _) => (cache, Ok None)
      end
  end.
Definition upstream_mtls_enabled (full_url : str) (actions : list ResolvedAction) : Act bool :=
  match tls_action actions with
  | Some op =>
      if is_some (to_client_cert op) then
        found ← route_of full_url actions;
        mret (match found with Some (url, route) => origin_tls_supported url route | None => false end)
      else mret false
  | None => mret false
  end.
Definition tls_policy_flags (op : TlsOp) : list str :=
  lit "upstream-tls-policy" ::
  match to_min_version op with Some v => [lit "upstream-tls-min:" ++ TlsMinVersion_as_str v] | None => [] end ++
  if is_emptyb (to_ciphers op) then [] else [lit "upstream-tls-ciphers:" ++ show_N (blen (to_ciphers op))].
Definition apply_upstream_tls_policy_flags (s : FlowSession) (full_url : str) (actions : list ResolvedAction)
    : Act FlowSession :=
  match tls_action actions with
  | Some op =>
      if negb (is_some (to_min_version op)) && is_emptyb (to_ciphers op) then mret s
      else
        found ← route_of full_url actions;
        mret (match found with
              | Some (url, route) => if origin_tls_supported url route then push_flags s (tls_policy_flags op) else s
              | None => s
              end)
  | None => mret s
  end.
Definition planned_upstream_addr (full_url : str) (actions : list ResolvedAction) : Act (option str) :=
  found ← route_of full_url actions;
  mret (match found with Some (_, route) => Some (UpstreamRoute.session_label route) | None => None end).
Definition literal_ip_from_url (url : str) : option str :=
  match UrlParts_parse url with
  | Ok u => match parse_ipv4 (up_host u), parse_ipv6 (up_host u) with
            | Some octets, _ => Some (show_ip (V4 octets))
            | None, Some segments => Some (show_ip (V6 segments))
            | None, None => None
            end
  | Err _ => None
  end.
End Tags.
