(* ===== verification/Forward.v ===== *)
(** * Forwarding a request

    crates/rsproxy-engine/src/proxy: the choice of an upstream protocol
    (forward/plan.rs), forwarding (forward.rs), and a request over a connection
    of its own (h1_forward/fallback.rs), with the WebSocket upgrade
    (websocket_forward.rs) and the wait for the response head
    (connect_tls/timing.rs).

    [World] is what a thread that serves a client connection changes.  HTTP/2
    upstreams answer through [H2Upstreams], and the copying of a WebSocket, which
    WebSocket.v models on its own, through [WebSocketTunnel]. *)
From Stdlib Require Import Ascii String.
From stdpp Require Import base numbers list gmap strings.
From S2P Require Import Prelude Family Utf8 Format NetAddr Io Model Url Engines Index Resolve TraceModel.
From S2P Require Import Template Http1 Http1Write Values Deadline Slots Relay Transforms Actions ResponseBody.
From S2P Require Import ResponseFlow FastResponse Routing Connect Dial FastPool FlowSession.

(** ** The state of a serving thread *)

(** What the trace store is told of sessions. *)
Inductive Traced :=
| TracedStart (id : N) (session : FlowSession)
| TracedRequest (id : N) (session : FlowSession)
| TracedFinish (session : FlowSession)
| TracedAbort (id : N).

(** The bytes of the client, the exchange, the trace so far, and what the trace
    store will answer: the ids it gives, and whether it takes a command. *)
Record World (Identity : Type) := mkWorld {
  w_input : Stream; w_exchange : Exchange Identity; w_trace : list Traced; w_ids : list N; w_takes : list bool }.
Arguments mkWorld {_} _ _ _ _ _. Arguments w_input {_} _. Arguments w_exchange {_} _.
Arguments w_trace {_} _. Arguments w_ids {_} _. Arguments w_takes {_} _.

(** The result of a forwarded request, and what was seen of its body. *)
Definition Forwarded : Type := ForwardResult * RequestObservation.

Class H2Upstreams (Identity : Type) := {
  h2_dispatch : ForwardCtx -> option StreamingRequestBody -> StateR (World Identity) IoError (option Forwarded);
  h2_negotiated : Conn -> bool;
  h2_connected : ForwardCtx -> Conn -> option StreamingRequestBody -> StateR (World Identity) IoError Forwarded;
}.
Class WebSocketTunnel :=
  websocket_tunnel : N -> Conn -> Conn -> Conn * Result IoError (N * N * list (list N)).

Section Lifts.
Context {Identity : Type}.
Abbreviation Serving := (StateR (World Identity) IoError).

Definition on_exchange {A} (m : StateR (Exchange Identity) IoError A) : Serving A := fun w =>
  let '(x, r) := m (w_exchange w) in (mkWorld (w_input w) x (w_trace w) (w_ids w) (w_takes w), r).
(** A part that works on the flow of an answer, with [body] for its reader. *)
Definition on_answer_from {A} (body : Stream) (m : StateR (Flow Stream) IoError A) : Serving (Stream * A) := fun w =>
  let x := w_exchange w in
  let '(f, r) := m (mkFlow body (ex_client x) (ex_cache x) (ex_clock x) (ex_events x)) in
  (mkWorld (w_input w)
     (mkExchange (fl_client f) (fl_cache f) (fl_clock f) (fl_events f) (ex_dial x) (ex_pool x) (ex_activity x) (ex_waits x))
     (w_trace w) (w_ids w) (w_takes w),
   match r with Ok a => Ok (fl_body f, a) | Err e => Err e end).
Definition on_answer_only {A} (m : StateR (Flow Stream) IoError A) : Serving A :=
  r ← on_answer_from [] m; mret (snd r).
Definition on_act {A} (m : Act A) : Serving A := on_answer_only (on_cache m).
Definition to_the_client {A} (m : StateR Sink IoError A) : Serving A := on_answer_only (on_client m).
Definition from_the_client {A} (m : StateR Stream IoError A) : Serving A := fun w =>
  let '(s, r) := m (w_input w) in (mkWorld s (w_exchange w) (w_trace w) (w_ids w) (w_takes w), r).
Definition tell (events : list Emitted) : Serving unit := on_answer_only (emit events).
(** The result of a part as a value, its effects kept. *)
Definition caught {A} (m : Serving A) : Serving (Result IoError A) := fun w => let '(w, r) := m w in (w, Ok r).

Definition trace_note (t : Traced) : Serving unit := fun w =>
  (mkWorld (w_input w) (w_exchange w) (w_trace w ++ [t]) (w_ids w) (w_takes w), Ok tt).
(** [TraceStore::start]; a store that gives no id gives 0. *)
Definition trace_start (s : FlowSession) : Serving N := fun w =>
  let id := default 0 (head (w_ids w)) in
  (mkWorld (w_input w) (w_exchange w) (w_trace w ++ [TracedStart id s]) (tail (w_ids w)) (w_takes w), Ok id).
(** A command the store may refuse. *)
Definition trace_command (t : Traced) : Serving bool := fun w =>
  (mkWorld (w_input w) (w_exchange w) (w_trace w ++ [t]) (w_ids w) (tail (w_takes w)),
   Ok (default true (head (w_takes w)))).
End Lifts.

(** ** The protocol (forward/plan.rs) *)

Module UpstreamPlan.
Inductive t := H1 (pooled : bool) | H2 (pooled streaming : bool) | WebSocket.
End UpstreamPlan.
Record PlanSignals := mkPlanSignals {
  ps_websocket : bool; ps_h2_eligible : bool; ps_h1_pool_eligible : bool; ps_streaming : bool }.
Definition choose (signals : PlanSignals) : UpstreamPlan.t :=
  if ps_websocket signals then UpstreamPlan.WebSocket
  else if ps_h2_eligible signals then UpstreamPlan.H2 true (ps_streaming signals)
  else UpstreamPlan.H1 (ps_h1_pool_eligible signals).
Definition plan_upstream (ctx : ForwardCtx) (streaming : bool) : UpstreamPlan.t :=
  choose (mkPlanSignals (websocket_request ctx)
            (negb (accepts_sse (rq_headers (fx_request ctx))) && negb (is_some (throttle_bps (fx_actions ctx) Phase.Req)) &&
             origin_tls_supported (fx_url ctx) (fx_route ctx))
            (negb streaming && pool_eligible ctx) streaming).

Section Forward.
Context {Identity : Type} {NW : Network Identity} {H2 : H2Upstreams Identity} {WS : WebSocketTunnel}.
Context {PE : PatternEngines} {CE : CaptureEngine} {RF : RuleFiles} {JT : JsonText} {SR : StatusReasons}.
Context (config : ProxyConfig) (timeouts : Timeouts) (limits : PoolLimits) (selection : HostPool -> N).
(** The outcome of [tls_client_identity]. *)
Context (client_identity : ForwardCtx -> Result IoError (option Identity)).
Abbreviation Serving := (StateR (World Identity) IoError).

(** ** A connection of its own (h1_forward/fallback.rs) *)

Definition unpooled_headers (ctx : ForwardCtx) : Headers :=
  if websocket_request ctx then fx_headers ctx else set_header (fx_headers ctx) (lit "Connection") (lit "close").
Definition request_target (ctx : ForwardCtx) : str :=
  if UpstreamRoute.uses_absolute_form_for_url (fx_route ctx) (fx_url ctx) then fx_full_url ctx
  else origin_form (fx_url ctx).
Definition write_upstream_head (ctx : ForwardCtx) : StateR Sink IoError unit :=
  staged (lit "request_write")
    (_ ← write_bytes (encode (rq_method (fx_request ctx) ++ lit " " ++ request_target ctx ++ lit " " ++
                              upstream_http_version (rq_version (fx_request ctx)) ++ crlf));
     _ ← foldr (fun h rest => _ ← write_bytes (encode (line (field_line h))); rest) (mret tt) (unpooled_headers ctx);
     write_bytes crlf).
(** A part that writes to the upstream. *)
Definition on_upstream_sink {A} (conn : Conn) (m : StateR Sink IoError A) : Serving (Conn * A) := fun w =>
  match m (snd conn) with
  | (sink, Ok a) => (w, Ok ((fst conn, sink), a))
  | (_, Err e) => (w, Err e)
  end.
(** [relay_request_body] from the client to the upstream. *)
Definition relay_body (ctx : ForwardCtx) (conn : Conn) (body : StreamingRequestBody)
    : Serving (Conn * RequestStreamSummary) :=
  let id := fx_trace_id ctx in
  let relay := mkRelayConfig (trace_body_limit_for_headers config (rq_headers (fx_request ctx)))
                 (throttle_bps (fx_actions ctx) Phase.Req) (pc_max_header_size config) (pc_max_header_count config)
                 (if id =? 0 then None else Some id) in
  w ← sget;
  restored ← on_exchange (on_dial (event (fun i =>
               nw_set_option i (w_input w, ex_client (w_exchange w)) (SocketOption.ReadTimeout 0))));
  relayed ← (fun w =>
    let '((s, sink), r) := relay_request_body body relay restored (w_input w, snd conn) in
    (mkWorld s (w_exchange w) (w_trace w) (w_ids w) (w_takes w),
     match r with Ok out => Ok (sink, out) | Err e => Err e end)) : Serving _;
  let '(sink, (summary, events)) := relayed in
  _ ← tell (map EmittedBody events);
  mret ((fst conn, sink), summary).
(** The body of the request, and what was seen of it. *)
Definition send_body (ctx : ForwardCtx) (conn : Conn) (request_body : option StreamingRequestBody)
    : Serving (Conn * option RequestStreamSummary) :=
  match request_body with
  | Some body => sent ← relay_body ctx conn body; mret (fst sent, Some (snd sent))
  | None =>
      sent ← on_upstream_sink conn (write_buffered_request_body (fx_request ctx) (throttle_bps (fx_actions ctx) Phase.Req));
      mret (fst sent, None)
  end.
Definition request_observation (request : RawRequest) (summary : option RequestStreamSummary) : RequestObservation :=
  match summary with
  | None => mkRequestObservation (blen (rq_body request)) None None []
  | Some s =>
      mkRequestObservation (ss_bytes s) (Some (ss_body_head s)) (Some (ss_trailers s))
        (lit "request-streamed" ::
         (if ss_exceeded_buffer_limit s then [lit "request-body-rewrite-skipped-limit"] else []) ++
         (if ss_completed s then [] else [lit "request-stream-ended-by-upstream"]))
  end.

(** *** The response head (connect_tls/timing.rs) *)

(** A first byte comes before any error but an interruption. *)
Fixpoint first_byte_comes (s : Stream) : bool :=
  match s with
  | Bytes (_ :: _) :: _ => true
  | Broken e :: s' => bool_decide (io_kind e = Interrupted) && first_byte_comes s'
  | _ => false
  end.
Definition ttfb_timeout_error (timeout : N) : IoError :=
  mkIoError TimedOut (lit "stage=ttfb: timeout after " ++ show_N (duration_millis timeout) ++ lit "ms").
Definition read_response_head_with_ttfb (ctx : ForwardCtx) (conn : Conn) : Serving (Conn * RawResponseHead) :=
  ttfb ← on_exchange (budget_now ctx (pl_ttfb_timeout limits));
  let first_byte := first_byte_comes (fst conn) in
  let '(reader, result) := read_response_head (pc_max_header_size config) (pc_max_header_count config) (fst conn) in
  _ ← on_exchange (on_dial (set_io_timeouts conn UPSTREAM_READ_TIMEOUT UPSTREAM_WRITE_TIMEOUT));
  match result with
  | Ok head => mret ((reader, snd conn), head)
  | Err e =>
      if negb first_byte && is_timeout_kind e then fail (budget_timeout_error ttfb ttfb_timeout_error)
      else fail (stage_io_error (lit "response_head") e)
  end.

(** *** WebSocket upgrades (websocket_forward.rs) *)

Definition write_upgrade_response_head (head : RawResponseHead) (headers : Headers) : StateR Sink IoError unit :=
  let reason := if is_emptyb (rh_reason head) then reason_phrase (rh_status head) else rh_reason head in
  _ ← write_bytes (encode (rh_version head ++ lit " " ++ show_N (rh_status head) ++ lit " " ++ reason ++ crlf));
  _ ← foldr (fun h rest => _ ← write_bytes (encode (line (field_line h))); rest) (mret tt) headers;
  write_bytes crlf.
Definition finish_websocket (ctx : ForwardCtx) (conn : Conn) (head : RawResponseHead) (matched : list MatchedRule)
    (actions : list ResolvedAction) (request : RequestObservation) : Serving Forwarded :=
  applied ← on_act (apply_response_actions config (fx_meta ctx) head (rh_headers head) [] actions);
  let '(head, headers, _) := applied in
  _ ← on_answer_only (sleep_all (fx_deadline ctx) (response_delays actions));
  _ ← on_exchange (on_dial (restore_upstream_timeouts conn));
  _ ← to_the_client (write_upgrade_response_head head headers);
  tunnelled ← (fun w =>
    let x := w_exchange w in
    let '((s, sink), r) := websocket_tunnel (pc_trace_body_limit config) (w_input w, ex_client x) conn in
    (mkWorld s (mkExchange sink (ex_cache x) (ex_clock x) (ex_events x) (ex_dial x) (ex_pool x) (ex_activity x) (ex_waits x))
       (w_trace w) (w_ids w) (w_takes w), r)) : Serving _;
  let '(request_bytes, response_bytes, frames) := tunnelled in
  mret (mkForwardResult (rh_status head) (upstream_addr ctx) (saturating_add U64_MAX request_bytes (ro_bytes request))
          response_bytes headers [] [] frames (Some SessionKind.WebSocket) matched actions UpstreamProtocol.Http1
          ClientPersistence.Close (ro_flags request) None, request).

(** *** The exchange *)

Definition with_request_seen (result : ForwardResult) (bytes : N) (flags : list str) : ForwardResult :=
  mkForwardResult (fw_status result) (fw_upstream result) bytes (fw_response_bytes result) (fw_res_headers result)
    (fw_res_trailers result) (fw_body_head result) (fw_frames result) (fw_kind result) (fw_matched_rules result)
    (fw_actions result) (fw_protocol result) (fw_client_connection result) flags (fw_error result).
Definition response_rules (ctx : ForwardCtx) (head : RawResponseHead) : ResolveResult :=
  let meta := mkResponseMeta (rh_status head) (rh_headers head) in
  if fx_request_body_rules_skipped ctx then resolve_response_without_request_body (fx_rules ctx) (fx_meta ctx) meta
  else resolve_response (fx_rules ctx) (fx_meta ctx) meta.
Definition forward_unpooled (ctx : ForwardCtx) (conn : Conn) (request_body : option StreamingRequestBody)
    : Serving Forwarded :=
  written ← on_upstream_sink conn (write_upstream_head ctx);
  sent ← send_body ctx (fst written) request_body;
  let '(conn, summary) := sent in
  received ← read_response_head_with_ttfb ctx conn;
  let '(conn, head) := received in
  let resolved := response_rules ctx head in
  let matched := rr_matched_rules resolved in
  let actions := rr_actions resolved in
  let request := request_observation (fx_request ctx) summary in
  if websocket_request ctx && is_websocket_response (rh_headers head) (rh_status head)
  then finish_websocket ctx conn head matched actions request
  else
    answered ← on_answer_from (fst conn) (answer (from_forward ctx) head matched actions);
    let result := snd answered in
    let flags := if is_sse_response (rh_headers head) && can_stream_sse_response actions
                 then ro_flags request ++ fw_flags result else fw_flags result ++ ro_flags request in
    mret (with_request_seen result (ro_bytes request) flags, request).

(** ** Forwarding (forward.rs) *)

Record ForwardInput := mkForwardInput {
  fi_request : RawRequest;
  fi_full_url : str;
  fi_meta : RequestMeta;
  fi_actions : list ResolvedAction;
  fi_trace_id : N;
  fi_rules : RuleSet;
  fi_client_connection : ClientPersistence.t;
  fi_deadline : RequestDeadline;
  fi_request_body : option StreamingRequestBody;
  fi_request_body_rules_skipped : bool;
}.
Definition upstream_headers (input : ForwardInput) (url : UrlParts) : Headers :=
  let request := fi_request input in
  let websocket := is_websocket_request (rq_headers request) in
  let headers := remove_header (remove_header (remove_header (rq_headers request) (lit "expect"))
                   (lit "proxy-connection")) (lit "proxy-authorization") in
  let headers := if websocket then headers else remove_header headers (lit "connection") in
  let headers := set_header headers (lit "Host") (host_header url) in
  let headers := if websocket then set_header headers (lit "Connection") (lit "Upgrade") else headers in
  match fi_request_body input with
  | Some body => prepare_streaming_upstream_request_framing headers (br_framing (sb_reader body))
  | None => prepare_upstream_request_framing headers request
  end.
Definition forward_ctx (input : ForwardInput) (url : UrlParts) (route : UpstreamRoute.t) : ForwardCtx :=
  mkForwardCtx (fi_request input) (fi_full_url input) url (fi_meta input) (fi_actions input) config (fi_trace_id input)
    (fi_rules input) route (upstream_headers input url) (fi_client_connection input) (fi_deadline input)
    (fi_request_body_rules_skipped input).

(** An upstream that is not pooled, over HTTP/2 where the plan allows it. *)
Definition forward_connected (ctx : ForwardCtx) (allow_h2 : bool) (body : option StreamingRequestBody)
    : Serving Forwarded :=
  conn ← on_exchange (on_dial (connect_upstream_stream config timeouts (fx_deadline ctx) (client_identity ctx)
                                 (fx_url ctx) (fx_route ctx) (fx_actions ctx) allow_h2));
  if h2_negotiated conn then
    if allow_h2 then h2_connected ctx conn body
    else fail (stage_error (lit "upstream_h2")
                 (mkIoError OtherIo (lit "origin negotiated h2 without an eligible connector")))
  else forward_unpooled ctx conn body.
Definition forward (input : ForwardInput) : Serving Forwarded :=
  match UrlParts_parse (fi_full_url input) with
  | Err e => fail (invalid_input (model_error_text e))
  | Ok url =>
      _ ← lift_result (map_err (stage_error (lit "request_trailer"))
            (validate_request_trailers (rq_trailers (fi_request input)) (pc_max_header_size config)
               (pc_max_header_count config)));
      route ← on_act (upstream_route config (fi_meta input) selection url (fi_actions input));
      let ctx := forward_ctx input url route in
      let body := fi_request_body input in
      match plan_upstream ctx (is_some body) with
      | UpstreamPlan.H1 true =>
          pooled ← on_exchange (try_pooled timeouts limits ctx);
          match pooled with
          | Some result => mret (result, mkRequestObservation (fw_request_bytes result) None None [])
          | None => forward_connected ctx false body
          end
      | UpstreamPlan.H2 _ _ =>
          answered ← h2_dispatch ctx body;
          match answered with
          | Some forwarded => mret forwarded
          | None => forward_connected ctx true body
          end
      | UpstreamPlan.H1 false | UpstreamPlan.WebSocket => forward_connected ctx false body
      end
  end.
End Forward.
