(* ===== verification/HttpFlow.v ===== *)
(** * A request of the client

    crates/rsproxy-engine/src/proxy: the handling of one request, from its head
    to the answer and the recorded session (http_flow.rs, http_flow/pending.rs,
    http_flow/completion.rs, trace_helpers.rs), with the URL of a request
    (request_util.rs) and the answers that need no upstream (transforms/sse.rs,
    mock.rs). *)
From Stdlib Require Import Ascii String.
From stdpp Require Import base numbers list gmap strings.
From S2P Require Import Prelude Family Utf8 Format NetAddr Io Model Url Engines Index Resolve TraceModel.
From S2P Require Import Template Http1 Http1Write Values Deadline Slots Relay Transforms Mock Actions.
From S2P Require Import ResponseBody ResponseFlow FastResponse Routing Connect Dial FastPool FlowSession.
From S2P Require Import Forward.

(** ** The URL (request_util.rs) *)

(** [map_err(|error| io::Error::new(InvalidInput, error))]. *)
Definition refused {A} (r : Result RuleModelError A) : Result IoError A :=
  match r with Ok x => Ok x | Err e => Err (invalid_input (model_error_text e)) end.
Definition absolute_url_for (req : RawRequest) (https_authority : option str) : Result IoError str :=
  absolute ← (if contains (lit "://") (rq_target req) then Ok (rq_target req)
              else
                match https_authority with
                | Some authority => Ok (lit "https://" ++ authority ++ rq_target req)
                | None =>
                    host ← ok_or (header (rq_headers req) (lit "host"))
                             (invalid_input (lit "origin-form request missing Host"));
                    Ok (lit "http://" ++ host ++ rq_target req)
                end);
  refused (normalize_websocket_transport_scheme absolute).

(** ** Answers without an upstream (transforms/sse.rs) *)

Definition first_status (actions : list ResolvedAction) : option (N * ResolvedAction) :=
  head (omap (fun item => match ra_action item with Action.Status code => Some (code, item) | _ => None end) actions).

Section Flow.
Context {Identity : Type} {NW : Network Identity} {H2 : H2Upstreams Identity} {WS : WebSocketTunnel}.
Context {PE : PatternEngines} {CE : CaptureEngine} {RF : RuleFiles} {MD : MockDirs} {JT : JsonText} {SR : StatusReasons}.
Context (config : ProxyConfig) (timeouts : Timeouts) (limits : PoolLimits) (selection : HostPool -> N).
Context (client_identity : ForwardCtx -> Result IoError (option Identity)).
(** [h2_pool_wait_timeout] of the configuration. *)
Context (h2_wait : N).
Abbreviation Serving := (StateR (World Identity) IoError).

Fixpoint first_redirect (meta : RequestMeta) (actions : list ResolvedAction) : Act (option (str * N)) :=
  match actions with
  | [] => mret None
  | item :: actions' =>
      match ra_action item with
      | Action.Redirect url code =>
          rendered ← resolve_value_text_bounded config item meta url (pc_max_header_size config);
          _ ← lift_result (refused (validate_redirect_location rendered));
          mret (Some (rendered, code))
      | _ => first_redirect meta actions'
      end
  end.

(** ** The trace of a session (trace_helpers.rs) *)

Definition emit_request (id : N) (s : FlowSession) : Serving unit :=
  if id =? 0 then mret tt else trace_note (TracedRequest id s).
Definition begin_session_trace_if_visible (s : FlowSession) (hidden : bool) : Serving FlowSession :=
  if hidden || negb (fs_id s =? 0) then mret s
  else
    id ← trace_start s;
    let s := with_id s id in
    _ ← trace_note (TracedRequest id s);
    mret s.
(** Whether the store took the session. *)
Definition record_session_if_visible (s : FlowSession) (hidden : bool) : Serving bool :=
  if hidden then (if fs_id s =? 0 then mret true else trace_command (TracedAbort (fs_id s)))
  else
    s ← begin_session_trace_if_visible s false;
    trace_command (TracedFinish s).
(** [TraceAbortGuard]: on every way out, a session that was not recorded is
    aborted. [m] says whether it was. *)
Definition guarded {A} (id : N) (m : Serving (A * bool)) : Serving A :=
  r ← caught m;
  match r with
  | Ok (a, disarmed) =>
      _ ← (if disarmed || (id =? 0) then mret true else trace_command (TracedAbort id));
      mret a
  | Err e =>
      _ ← (if id =? 0 then mret true else trace_command (TracedAbort id));
      fail e
  end.

(** ** One request (http_flow.rs) *)

Record HttpConnectionInput := mkConnectionInput {
  ci_peer : str;
  ci_https_authority : option str;
  ci_initial_tls : list TlsRecord;
  ci_initial_flags : list str;
  ci_client_connection : ClientPersistence.t;
}.
Record HttpStreamInput := mkStreamInput {
  hi_request : RawRequest;
  hi_rules : RuleSet;
  hi_connection : HttpConnectionInput;
  hi_deadline : RequestDeadline;
  hi_request_body : option StreamingRequestBody;
  hi_request_body_rules_skipped : bool;
  (** What a template generates for the request, once. *)
  hi_template : TemplateMetadata;
}.

Definition request_meta (req : RawRequest) (full_url peer : str) (body : list N) (template : TemplateMetadata)
    : RequestMeta :=
  mkRequestMeta (rq_method req) (rule_url_for full_url (rq_headers req)) (rq_headers req) body (Some peer)
    (literal_ip_from_url full_url) template.
(** The delays of the request phase. *)
Definition request_delays (actions : list ResolvedAction) : list N :=
  omap (fun item => match ra_action item with Action.Delay Phase.Req millis => Some millis | _ => None end) actions.

Definition PLAIN : Headers := [(lit "Content-Type", lit "text/plain")].
(** A complete answer, or for HEAD its head with the length of what is left out. *)
Definition write_local_answer (req : RawRequest) (status : N) (reason : str) (head_headers headers : Headers)
    (body : list N) (keep_alive : bool) : StateR Sink IoError unit :=
  let version := client_response_version (rq_version req) in
  if eq_ignore_ascii_case (rq_method req) (lit "HEAD") && status_can_send_content status then
    _ ← write_response_head_with_connection (mkRawResponseHead version status reason []) head_headers keep_alive;
    flush
  else
    write_response_with_version_and_connection version status reason headers
      (if response_can_send_content (rq_method req) status then body else []) keep_alive.

(** The session of an answer that is ready: its connection flag is set. *)
Definition local_session (s : FlowSession) (req : RawRequest) (connection : ClientPersistence.t) (flag : string)
    (status : N) (response : Side) : FlowSession :=
  let s := with_outcome s (Some status) (fs_upstream s) (fs_error s) in
  let s := push_flags s [lit flag] in
  apply_client_connection_flag (with_sides s (fs_request s) response) (rq_version req) connection.

(** [finish_request_total_timeout] of completion.rs. *)
Definition finish_request_total_timeout (req : RawRequest) (s : FlowSession) (hidden : bool)
    (connection : ClientPersistence.t) (e : IoError) : Serving (ClientPersistence.t * bool) :=
  let s := with_outcome s (Some 504) (fs_upstream s) (Some (io_message e)) in
  let s := apply_client_connection_flag (push_flags s TOTAL_TIMEOUT_FLAGS) (rq_version req) connection in
  _ ← to_the_client (write_response_with_version_and_connection (client_response_version (rq_version req)) 504
        (reason_phrase 504) PLAIN (encode (lit "upstream error: " ++ io_message e ++ [NL]))
        (ClientPersistence.keep_alive connection));
  taken ← record_session_if_visible s hidden;
  mret (connection, taken).

Definition status_text (status : N) (item : ResolvedAction) : str :=
  lit "rsproxy status(" ++ show_N status ++ lit ") from " ++ mr_group (ra_rule item) ++ lit ":" ++
  show_N (mr_line (ra_rule item)) ++ [NL].
Definition answer_status (req : RawRequest) (s : FlowSession) (hidden : bool) (connection : ClientPersistence.t)
    (status : N) (item : ResolvedAction) : Serving (ClientPersistence.t * bool) :=
  let content := status_can_send_content status in
  let body := if content then encode (status_text status item) else [] in
  let allowed := response_can_send_content (rq_method req) status in
  let headers := if content then PLAIN else [] in
  let side := mkSide [] [] (if allowed then blen body else 0)
                (take_N (if allowed then pc_trace_body_limit config else 0) body) in
  let s := local_session s req connection "status" status side in
  _ ← to_the_client (write_local_answer req status (reason_phrase status)
        (set_header headers (lit "Content-Length") (show_N (blen body))) headers body
        (ClientPersistence.keep_alive connection));
  taken ← record_session_if_visible s hidden;
  mret (connection, taken).
Definition answer_redirect (req : RawRequest) (s : FlowSession) (hidden : bool) (connection : ClientPersistence.t)
    (url : str) (code : N) : Serving (ClientPersistence.t * bool) :=
  let s := local_session s req connection "redirect" code (fs_response s) in
  _ ← to_the_client (write_response_with_version_and_connection (client_response_version (rq_version req)) code
        (reason_phrase code) [(lit "Location", url)] [] (ClientPersistence.keep_alive connection));
  taken ← record_session_if_visible s hidden;
  mret (connection, taken).
Definition answer_mock (req : RawRequest) (s : FlowSession) (hidden : bool) (connection : ClientPersistence.t)
    (mock : MockResponse) : Serving (ClientPersistence.t * bool) :=
  let status := mk_status mock in
  let allowed := response_can_send_content (rq_method req) status in
  let headers := if status_can_send_content status
                 then set_header (mk_headers mock) (lit "Content-Length") (show_N (blen (mk_body mock)))
                 else mk_headers mock in
  let side := mkSide headers [] (if allowed then blen (mk_body mock) else 0)
                (take_N (if allowed then trace_body_limit_for_headers config headers else 0) (mk_body mock)) in
  let s := local_session s req connection "mock" status side in
  _ ← to_the_client (write_local_answer req status (mk_reason mock) headers headers (mk_body mock)
                       (ClientPersistence.keep_alive connection));
  taken ← record_session_if_visible s hidden;
  mret (connection, taken).

(** The forwarding of a request and its end. *)
Definition set_tls (tls : list TlsRecord) : StateR (Dial Identity) IoError unit := fun d =>
  (mkDial (d_step d) (d_legs d) 0 0 tls, Ok tt).
Definition forward_and_record (input : HttpStreamInput) (req : RawRequest) (meta : RequestMeta)
    (actions : list ResolvedAction) (effective_url : str) (s : FlowSession) (hidden : bool)
    : Serving (ClientPersistence.t * bool) :=
  let connection := ci_client_connection (hi_connection input) in
  planned ← on_act (planned_upstream_addr config meta selection effective_url actions);
  _ ← on_exchange (on_dial (set_tls (fs_tls s)));
  forwarded ← caught (forward config timeouts limits selection client_identity
                 (mkForwardInput req effective_url meta actions (fs_id s) (hi_rules input) connection
                    (hi_deadline input) (hi_request_body input) (hi_request_body_rules_skipped input)));
  w ← sget;
  let s := with_tls s (d_tls (ex_dial (w_exchange w))) in
  concluded ← match forwarded with
              | Ok (result, request) => on_act (apply_forward_result config meta s hidden result request)
              | Err e =>
                  let context := mkResponseContext req meta config (fs_id s) [] connection (hi_deadline input) in
                  answered ← to_the_client (fun sink =>
                    let '(sink, c) := handle_forward_error context (is_some (hi_request_body input)) e sink in
                    (sink, Ok c));
                  mret (apply_forward_error s planned (pl_wait_timeout limits) h2_wait e, hidden, answered)
              end;
  let '(s, hidden, response_connection) := concluded in
  taken ← record_session_if_visible (apply_client_connection_flag s (rq_version req) response_connection) hidden;
  mret (response_connection, taken).

(** The request after its delays: rewriting, local answers, forwarding. *)
Definition url_flags (full_url effective_url : str) (actions : list ResolvedAction) (s : FlowSession) : FlowSession :=
  if effective_url =s? full_url then s
  else
    push_flag_if (with_url (push_flags s [lit "url-rewrite"]) effective_url)
      (any_action actions (fun a => match a with Action.MapRemote _ => true | _ => false end)) "map-remote".
Definition observed_request (req : RawRequest) : Side :=
  mkSide (rq_headers req) (rq_trailers req) (blen (rq_body req))
    (take_N (trace_body_limit_for_headers config (rq_headers req)) (rq_body req)).
Definition answer_request (input : HttpStreamInput) (full_url : str) (meta : RequestMeta)
    (actions : list ResolvedAction) (connection : ClientPersistence.t) (s : FlowSession) (hidden : bool)
    : Serving (ClientPersistence.t * bool) :=
  let req := hi_request input in
  let deadline := hi_deadline input in
  effective_url ← on_act (apply_url_actions config meta full_url actions);
  let s := url_flags full_url effective_url actions s in
  mtls ← on_act (upstream_mtls_enabled config meta selection effective_url actions);
  let s := push_flag_if s mtls "upstream-mtls" in
  s ← on_act (apply_upstream_tls_policy_flags config meta selection s effective_url actions);
  req ← on_act (if is_some (hi_request_body input) then apply_streaming_request_actions config meta req actions
                else apply_request_actions config meta req actions);
  let s := with_sides s (observed_request req) (fs_response s) in
  _ ← emit_request (fs_id s) s;
  in_time ← caught (on_answer_only (check_deadline deadline));
  match in_time with
  | Err e => finish_request_total_timeout req s hidden connection e
  | Ok _ =>
      match first_status actions with
      | Some (status, item) => answer_status req s hidden connection status item
      | None =>
          redirect ← on_act (first_redirect meta actions);
          match redirect with
          | Some (url, code) => answer_redirect req s hidden connection url code
          | None =>
              mock ← on_act (first_mock config meta actions);
              match mock with
              | Some mock => answer_mock req s hidden connection mock
              | None => forward_and_record input req meta actions effective_url s hidden
              end
          end
      end
  end.

Definition handle_http_stream_inner (input : HttpStreamInput) : Serving ClientPersistence.t :=
  let req := hi_request input in
  let conn := hi_connection input in
  full_url ← lift_result (absolute_url_for req (ci_https_authority conn));
  let meta := request_meta req full_url (ci_peer conn) (rq_body req) (hi_template input) in
  let resolved := if hi_request_body_rules_skipped input then resolve_without_request_body (hi_rules input) meta
                  else resolve (hi_rules input) meta in
  let actions := rr_actions resolved in
  let connection := if is_some (hi_request_body input) then ClientPersistence.Close else ci_client_connection conn in
  begun ← on_act (begin_session config meta req full_url (ci_peer conn) (ci_initial_tls conn) (ci_initial_flags conn)
                    (rr_matched_rules resolved) actions (is_some (ci_https_authority conn)));
  let '(s, hidden) := begun in
  id ← (if hidden : bool then mret 0 else trace_start s);
  let s := with_id s id in
  guarded id
    (slept ← caught (on_answer_only (sleep_all (hi_deadline input) (request_delays actions)));
     match slept with
     | Err e => finish_request_total_timeout req s hidden connection e
     | Ok _ => answer_request input full_url meta actions connection s hidden
     end).

(** ** A head with its body still to come (http_flow/pending.rs) *)

Definition request_expects_continue (request : RawRequest) : bool :=
  header_contains_token (rq_headers request) (lit "expect") (lit "100-continue").
Definition CONTINUE : list N := encode (lit "HTTP/1.1 100 Continue" ++ crlf ++ crlf).
Definition with_content (req : RawRequest) (body : list N) (trailers : Headers) : RawRequest :=
  mkRawRequest (rq_method req) (rq_target req) (rq_version req) (rq_headers req) body trailers.
(** [read_request_body_bounded_with_deadline]; the timeout is restored at the end. *)
Definition read_body_bounded (framing : RequestBodyFraming.t) : Serving BoundedRequestBody.t :=
  w ← sget;
  restored ← on_exchange (on_dial (event (fun i =>
               nw_set_option i (w_input w, ex_client (w_exchange w)) (SocketOption.ReadTimeout 0))));
  body ← from_the_client (staged (lit "client_request_body")
           (read_request_body_bounded framing (pc_body_buffer_limit config) (pc_max_header_size config)
              (pc_max_header_count config)));
  _ ← lift_result restored;
  mret body.
Definition push_initial_flag (c : HttpConnectionInput) (flag : str) : HttpConnectionInput :=
  mkConnectionInput (ci_peer c) (ci_https_authority c) (ci_initial_tls c) (ci_initial_flags c ++ [flag])
    (ci_client_connection c).

(** [request_total_timeout] of the configuration and the rules in force. *)
Context (total_timeout : N) (rules : RuleSet) (template : TemplateMetadata).

Definition new_deadline : Serving RequestDeadline :=
  started ← on_exchange now;
  lift_result (deadline_new started total_timeout).
Definition handle_http_head (head : RequestHead) (connection : HttpConnectionInput) : Serving ClientPersistence.t :=
  deadline ← new_deadline;
  let req := hd_request head in
  let has_body := RequestBodyFraming.has_body (hd_body head) in
  connection ← (if has_body && request_expects_continue req then
                  _ ← to_the_client (_ ← write_bytes CONTINUE; flush);
                  mret (push_initial_flag connection (lit "expect-continue"))
                else mret connection);
  if negb has_body then
    handle_http_stream_inner (mkStreamInput req rules connection deadline None false template)
  else
    full_url ← lift_result (absolute_url_for req (ci_https_authority connection));
    let planning := request_meta req full_url (ci_peer connection) [] template in
    let body_required := request_body_required rules planning in
    collected ← read_body_bounded (hd_body head);
    match collected with
    | BoundedRequestBody.Complete body trailers =>
        handle_http_stream_inner (mkStreamInput (with_content req body trailers) rules connection deadline None false template)
    | BoundedRequestBody.Overflow prefix reader =>
        handle_http_stream_inner
          (mkStreamInput req rules connection deadline (Some (mkStreamingRequestBody prefix reader body_required)) true template)
    end.
End Flow.
