(* ===== verification/Server.v ===== *)
(** * A client connection

    crates/rsproxy-engine/src/proxy/server.rs and server/request.rs: the loop
    over the requests of one client connection.  What a CONNECT request leads
    to is [ConnectHandler]. *)
From Stdlib Require Import Ascii String.
From stdpp Require Import base numbers list gmap strings.
From S2P Require Import Prelude Family Utf8 Format NetAddr Io Model Url Engines Index Resolve TraceModel.
From S2P Require Import Template Http1 Http1Write Values Deadline Slots Relay Transforms Mock Actions.
From S2P Require Import ResponseBody ResponseFlow FastResponse Routing Connect Dial FastPool FlowSession.
From S2P Require Import Forward HttpFlow.

Class ConnectHandler (Identity : Type) := handle_connect : RawRequest -> StateR (World Identity) IoError unit.

(** ** Errors of the request (server/request.rs) *)

Definition is_h1_request_input_error (e : IoError) : bool :=
  is_client_request_body_error e || is_request_total_timeout e.
Definition h1_request_input_error_status (e : IoError) : N :=
  if is_request_total_timeout e then 504
  else if contains (lit "limit exceeded") (io_message e) then 431 else 400.

Section Server.
Context {Identity : Type} {NW : Network Identity} {H2 : H2Upstreams Identity} {WS : WebSocketTunnel}.
Context {CH : ConnectHandler Identity}.
Context {PE : PatternEngines} {CE : CaptureEngine} {RF : RuleFiles} {MD : MockDirs} {JT : JsonText} {SR : StatusReasons}.
Context (config : ProxyConfig) (timeouts : Timeouts) (limits : PoolLimits) (selection : HostPool -> N).
Context (client_identity : ForwardCtx -> Result IoError (option Identity)).
Context (h2_wait total_timeout : N).
(** The credentials of the configuration, and the address of the client. *)
Context (proxy_auth : option str) (peer : str).
(** The rules in force and the values generated for the request of a number. *)
Context (rules_at : N -> RuleSet) (template_at : N -> TemplateMetadata).
Abbreviation Serving := (StateR (World Identity) IoError).

Definition write_h1_request_input_error (request_version : str) (e : IoError) : StateR Sink IoError unit :=
  let status := h1_request_input_error_status e in
  write_response_with_version_and_connection (client_response_version request_version) status (reason_phrase status)
    PLAIN (encode (lit "request error: " ++ io_message e ++ [NL])) false.

(** [None]: the request was answered and the connection ends. *)
Definition collect_connect_request (head : RequestHead) : Serving (option RawRequest) :=
  if negb (RequestBodyFraming.has_body (hd_body head)) then mret (Some (hd_request head))
  else
    _ ← (if request_expects_continue (hd_request head)
         then to_the_client (_ ← write_bytes CONTINUE; flush) else mret tt);
    _ ← new_deadline total_timeout;
    collected ← read_body_bounded config (hd_body head);
    match collected with
    | BoundedRequestBody.Complete body trailers => mret (Some (with_content (hd_request head) body trailers))
    | BoundedRequestBody.Overflow _ _ =>
        _ ← to_the_client (write_response_with_version_and_connection
              (client_response_version (rq_version (hd_request head))) 413 (reason_phrase 413) PLAIN
              (encode (lit "CONNECT request body exceeds the configured buffer limit" ++ [NL])) false);
        mret None
    end.

(** ** The loop (server.rs) *)

Definition AUTH_REQUIRED : Headers :=
  [(lit "Proxy-Authenticate", lit "Basic realm=" ++ [34] ++ lit "rsproxy" ++ [34]);
   (lit "Content-Type", lit "text/plain")].
Definition refuse_credentials (request : RawRequest) (connection : ClientPersistence.t) : StateR Sink IoError unit :=
  write_response_with_version_and_connection (client_response_version (rq_version request)) 407
    (lit "Proxy Authentication Required") AUTH_REQUIRED (encode (lit "proxy authentication required" ++ [NL]))
    (ClientPersistence.keep_alive connection).
(** The answer to a head that cannot be read; a failed write is ignored. *)
Definition refuse_head (e : IoError) : Serving unit :=
  let status := if contains (lit "limit exceeded") (io_message e) then 431 else 400 in
  _ ← caught (to_the_client (write_response status (reason_phrase status) PLAIN (encode (io_message e))));
  mret tt.

(** What a turn of the loop decides. *)
Inductive Turn := EndConnection | NextRequest.
Definition turn_for (connection : ClientPersistence.t) : Turn :=
  match connection with ClientPersistence.Close => EndConnection | ClientPersistence.KeepAlive => NextRequest end.

(** One request whose head was read. *)
Definition serve_request (request_index : N) (head : RequestHead) : Serving Turn :=
  let request := hd_request head in
  let requested := requested_client_connection request in
  match authorize_and_strip_proxy_credentials request proxy_auth with
  | None =>
      let connection := if RequestBodyFraming.has_body (hd_body head) then ClientPersistence.Close else requested in
      _ ← to_the_client (refuse_credentials request connection);
      mret (turn_for connection)
  | Some request =>
      let head := mkRequestHead request (hd_body head) in
      if eq_ignore_ascii_case (rq_method request) (lit "CONNECT") then
        collected ← collect_connect_request head;
        match collected with
        | None => mret EndConnection
        | Some req => _ ← handle_connect req; mret EndConnection
        end
      else
        let flags := if 0 <? request_index then [lit "h1-client-connection-reused"] else [] in
        answered ← caught (handle_http_head config timeouts limits selection client_identity h2_wait total_timeout
                       (rules_at request_index) (template_at request_index) head
                       (mkConnectionInput peer None [] flags requested));
        match answered with
        | Ok connection =>
            match turn_for connection with
            | EndConnection => mret EndConnection
            | NextRequest =>
                w ← sget;
                _ ← (if request_index =? 0 then
                       on_exchange (on_dial (try_event (fun i =>
                         nw_set_option i (w_input w, ex_client (w_exchange w))
                           (SocketOption.ReadTimeout (90 * 1000000000)))))
                     else mret tt);
                mret NextRequest
            end
        | Err e =>
            if is_h1_request_input_error e
            then _ ← to_the_client (write_h1_request_input_error (rq_version request) e); mret EndConnection
            else fail e
        end
  end.

(** One turn: the head of the next request, if there is one. *)
Definition client_turn (request_index : N) : Serving Turn :=
  read ← caught (from_the_client (read_request_head_tcp (pc_max_header_size config) (pc_max_header_count config)));
  match read with
  | Ok (Some head) => serve_request request_index head
  | Ok None => mret EndConnection
  | Err e =>
      if (0 <? request_index) && is_timeout_kind e then mret EndConnection
      else if bool_decide (io_kind e = InvalidData) then _ ← refuse_head e; mret EndConnection
      else fail e
  end.
Fixpoint client_loop (fuel : nat) (request_index : N) : Serving unit :=
  match fuel with
  | O => spent
  | S fuel' =>
      turn ← client_turn request_index;
      match turn with
      | EndConnection => mret tt
      | NextRequest => client_loop fuel' (request_index + 1)
      end
  end.
(** Every turn that goes on has read a head, so there is a turn per byte. *)
Definition handle_client : Serving unit := fun w =>
  (w0 ← sget;
   _ ← on_exchange (on_dial (try_event (fun i =>
         nw_set_option i (w_input w0, ex_client (w_exchange w0)) SocketOption.NoDelay)));
   client_loop (S (length (carried (w_input w)))) 0) w.
End Server.
