(* ===== verification/Intercept.v ===== *)
(** * What becomes of a CONNECT request

    crates/rsproxy-engine/src/proxy/server/connect_policy.rs, server/probe.rs,
    client_tls.rs and state/mitm_failures.rs: whether the connection behind a
    CONNECT request is inspected, and what its first bytes speak.  The theorems
    show that the verdict on the first bytes does not depend on their arrival,
    and that the memory of failed interceptions is bounded and exact. *)
From Stdlib Require Import Ascii String.
From stdpp Require Import base numbers list gmap strings.
From S2P Require Import Prelude Utf8 Format Io Model Http1 Deadline Routing Dial.

(** ** Failed interceptions (state/mitm_failures.rs) *)

(** A host with the time of its failure; the order runs from the host that was
    used least recently. *)
Record MitmFailureCache := mkFailureCache {
  mf_capacity : N; mf_ttl : N; mf_entries : gmap str N; mf_order : list str }.
Definition MitmFailureCache_new (capacity ttl : N) : MitmFailureCache := mkFailureCache capacity ttl ∅ [].

Definition cache_key (host : str) : str := to_ascii_lowercase (trim_end_matches (fun c => c =? ch ".") host).

Section Cache.
Context (c : MitmFailureCache).
Definition with_failures (entries : gmap str N) (order : list str) : MitmFailureCache :=
  mkFailureCache (mf_capacity c) (mf_ttl c) entries order.
Definition purge_expired (now : N) : MitmFailureCache :=
  let entries := filter (fun '(_, failed_at) => saturating_sub now failed_at < mf_ttl c) (mf_entries c) in
  with_failures entries (filter (fun host => is_Some (entries !! host)) (mf_order c)).
Definition touch (host : str) : MitmFailureCache :=
  with_failures (mf_entries c) (filter (fun seen => seen <> host) (mf_order c) ++ [host]).
Definition clear (host : str) : MitmFailureCache :=
  let host := cache_key host in
  with_failures (delete host (mf_entries c)) (filter (fun seen => seen <> host) (mf_order c)).
End Cache.

Definition is_active_at (c : MitmFailureCache) (host : str) (now : N) : MitmFailureCache * bool :=
  let c := purge_expired c now in
  let host := cache_key host in
  match mf_entries c !! host with
  | None => (c, false)
  | Some _ => (touch c host, true)
  end.
Definition active_len (c : MitmFailureCache) (now : N) : MitmFailureCache * N :=
  let c := purge_expired c now in (c, N.of_nat (size (mf_entries c))).
(** The eviction loop; every round takes a host off the order. *)
Fixpoint evict (capacity : N) (entries : gmap str N) (order : list str) : gmap str N * list str :=
  if capacity <? N.of_nat (size entries) then
    match order with
    | [] => (entries, [])
    | oldest :: order' => evict capacity (delete oldest entries) order'
    end
  else (entries, order).
Definition remember_at (c : MitmFailureCache) (host : str) (now : N) : MitmFailureCache * bool :=
  if (mf_capacity c =? 0) || (mf_ttl c =? 0) then (c, false)
  else
    let c := purge_expired c now in
    let host := cache_key host in
    let c := touch (with_failures c (<[host := now]> (mf_entries c)) (mf_order c)) host in
    let '(entries, order) := evict (mf_capacity c) (mf_entries c) (mf_order c) in
    (with_failures c entries order, true).

(** ** The decision (server/connect_policy.rs) *)

Module PassthroughReason.
Inductive t := Disabled | RuleBypass | MissingCa | RememberedFailure.
Definition flag (r : t) : str :=
  match r with
  | Disabled => lit "no-mitm"
  | RuleBypass => lit "bypass"
  | MissingCa => lit "no-ca"
  | RememberedFailure => lit "mitm-fallback-cache-hit"
  end.
End PassthroughReason.
Module ConnectDecision.
Inductive t := Inspect (host : str) (flags : list str) | Passthrough (flags : list str).
End ConnectDecision.

Record InterceptConfig := mkInterceptConfig {
  ic_no_mitm : bool; ic_strict_mitm : bool; ic_ca_initialized : bool;
  ic_connect_probe_timeout : N; ic_client_tls_handshake_timeout : N; ic_request_total_timeout : N }.

Definition connect_bypass (actions : list ResolvedAction) : bool :=
  existsb (fun item => match ra_action item with Action.Bypass => true | _ => false end) actions.
Definition passthrough_reason (no_mitm rule_bypass ca_initialized remembered_failure : bool)
    : option PassthroughReason.t :=
  if no_mitm then Some PassthroughReason.Disabled
  else if rule_bypass then Some PassthroughReason.RuleBypass
  else if negb ca_initialized then Some PassthroughReason.MissingCa
  else if remembered_failure then Some PassthroughReason.RememberedFailure
  else None.
(** The memory of failures is only asked when it can decide. *)
Definition decide_connect (config : InterceptConfig) (failures : MitmFailureCache) (now : N) (target : str)
    (actions : list ResolvedAction) : MitmFailureCache * ConnectDecision.t :=
  let '(host, _) := split_addr target 443 in
  let rule_bypass := connect_bypass actions in
  let ca_initialized := if ic_no_mitm config || rule_bypass then false else ic_ca_initialized config in
  let '(failures, remembered_failure) :=
    if negb (ic_no_mitm config) && negb rule_bypass && ca_initialized && negb (ic_strict_mitm config)
    then is_active_at failures host now else (failures, false) in
  (failures,
   match passthrough_reason (ic_no_mitm config) rule_bypass ca_initialized remembered_failure with
   | Some reason => ConnectDecision.Passthrough [PassthroughReason.flag reason]
   | None => ConnectDecision.Inspect host (if ic_strict_mitm config then [lit "strict-mitm"] else [])
   end).

(** ** The first bytes (server/probe.rs) *)

Definition PROBE_BUFFER_SIZE : N := 64.
Definition MAX_METHOD_SIZE : N := 32.
Module ConnectProtocol.
Inductive t := Tls | Http | Unknown | Timeout | Closed.
End ConnectProtocol.
Module PrefixState.
Inductive t := Protocol (protocol : ConnectProtocol.t) | NeedMore.
End PrefixState.

Definition is_token (byte : N) : bool :=
  is_ascii_alphanumeric byte || existsb (N.eqb byte) (lit "!#$%&'*+-.^_`|~").
Fixpoint position_of (b : N) (input : list N) : option N :=
  match input with
  | [] => None
  | x :: input' => if x =? b then Some 0 else (N.add 1) <$> position_of b input'
  end.
(** The loop over the schemes. *)
Fixpoint scheme_state (schemes : list str) (target : list N) : PrefixState.t :=
  match schemes with
  | [] => PrefixState.Protocol ConnectProtocol.Unknown
  | scheme :: schemes' =>
      if starts_with target scheme then PrefixState.NeedMore
      else if starts_with scheme target then PrefixState.Protocol ConnectProtocol.Http
      else scheme_state schemes' target
  end.
Definition classify_prefix (input : list N) : PrefixState.t :=
  if bool_decide (head input = Some 22) then
    match input with
    | _ :: b1 :: b2 :: _ =>
        PrefixState.Protocol (if (b1 =? 3) && (b2 <=? 4) then ConnectProtocol.Tls else ConnectProtocol.Unknown)
    | _ => PrefixState.NeedMore
    end
  else
    match position_of (ch " ") input with
    | None =>
        if (blen input <=? MAX_METHOD_SIZE) && forallb is_token input then PrefixState.NeedMore
        else PrefixState.Protocol ConnectProtocol.Unknown
    | Some space =>
        if (space =? 0) || (MAX_METHOD_SIZE <? space) || negb (forallb is_token (take_N space input))
        then PrefixState.Protocol ConnectProtocol.Unknown
        else
          match drop_N (space + 1) input with
          | [] => PrefixState.NeedMore
          | (b :: _) as target =>
              if (b =? ch "/") || (b =? ch "*") then PrefixState.Protocol ConnectProtocol.Http
              else scheme_state [lit "http://"; lit "https://"] target
          end
    end.

(** A look at the connection: the time since the start and what [peek] returned. *)
Record Look := mkLook { lk_elapsed : N; lk_peeked : Result IoError (list N) }.
(** [detect_inner]; without a look to come, the time runs out. *)
Fixpoint detect_inner (timeout : N) (looks : list Look) : Result IoError ConnectProtocol.t :=
  match looks with
  | [] => Ok ConnectProtocol.Timeout
  | look :: looks' =>
      match checked_sub timeout (lk_elapsed look) with
      | None | Some 0 => Ok ConnectProtocol.Timeout
      | Some _ =>
          match lk_peeked look with
          | Ok [] => Ok ConnectProtocol.Closed
          | Ok bytes =>
              match classify_prefix bytes with
              | PrefixState.Protocol protocol => Ok protocol
              | PrefixState.NeedMore => detect_inner timeout looks'
              end
          | Err e => if is_timeout_kind e then Ok ConnectProtocol.Timeout else Err (stage_error (lit "connect_probe") e)
          end
      end
  end.
(** [detect]: the read timeout is restored at the end. *)
Definition detect (timeout : N) (looks : list Look) (restored : Result IoError unit) : Result IoError ConnectProtocol.t :=
  protocol ← detect_inner timeout looks;
  match restored with Ok _ => Ok protocol | Err e => Err (stage_error (lit "connect_probe_restore") e) end.

(** ** The handshake with the client (client_tls.rs) *)

Definition client_tls_handshake_io_error (e : IoError) (timeout : N) : IoError :=
  if is_timeout_kind e
  then mkIoError TimedOut (lit "stage=client_tls_handshake: timeout after " ++ show_N (duration_millis timeout) ++ lit "ms")
  else mkIoError (io_kind e) (lit "stage=client_tls: " ++ io_message e).
Definition is_client_tls_handshake_timeout (e : IoError) : bool :=
  bool_decide (io_kind e = TimedOut) && starts_with (lit "stage=client_tls_handshake: timeout after ") (io_message e).
(** What the TLS library did until the handshake ended, and whether the
    timeouts of the socket were restored. *)
Definition complete_client_tls_handshake {A} (timeout : N) (handshake : Result IoError A) (restored : Result IoError unit)
    : Result IoError A :=
  if timeout =? 0 then Err (invalid_input (lit "stage=client_tls_handshake: timeout must be greater than zero"))
  else
    match handshake, restored with
    | Err e, _ => Err (client_tls_handshake_io_error e timeout)
    | Ok _, Err e => Err (stage_error (lit "client_tls_io_restore") e)
    | Ok connection, Ok _ => Ok connection
    end.

(** ** The verdict on the first bytes *)

Lemma starts_with_extended p s more :
  starts_with p s = false -> starts_with s p = false -> starts_with p (s ++ more) = false.
Proof.
  intros H1 H2. destruct (starts_with p (s ++ more)) eqn:E; [|done]. exfalso.
  apply starts_with_true in E as [r E]. apply app_eq_inv in E as [(k & Hk & _)|(k & Hk & _)].
  - by rewrite (proj2 (starts_with_true p s)) in H1 by eauto.
  - by rewrite (proj2 (starts_with_true s p)) in H2 by eauto.
Qed.
Lemma starts_with_shorter p s more : starts_with (s ++ more) p = true -> starts_with s p = true.
Proof. rewrite !starts_with_true. intros [r ->]. rewrite <- app_assoc. eauto. Qed.

Lemma scheme_state_stable schemes target more p :
  scheme_state schemes target = PrefixState.Protocol p -> scheme_state schemes (target ++ more) = PrefixState.Protocol p.
Proof.
  induction schemes as [|scheme schemes IH]; [done|]. cbn [scheme_state].
  destruct (starts_with target scheme) eqn:E1; [done|]. intros H.
  destruct (starts_with (target ++ more) scheme) eqn:E2; [apply starts_with_shorter in E2; congruence|].
  destruct (starts_with scheme target) eqn:E3.
  - apply starts_with_true in E3 as [r ->]. rewrite <- app_assoc.
    by rewrite (proj2 (starts_with_true scheme (scheme ++ r ++ more))) by eauto.
  - by rewrite starts_with_extended, IH.
Qed.

Lemma position_of_some b input n :
  position_of b input = Some n -> n < blen input /\ forall more, position_of b (input ++ more) = Some n.
Proof.
  revert n. induction input as [|x input IH]; intros n; [done|]. cbn [position_of app]. rewrite blen_cons.
  destruct (x =? b); [intros [= <-]; split; [lia|done]|]. destruct (position_of b input) as [k|]; [|done].
  intros [= <-]. destruct (IH k eq_refl) as [H1 H2]. split; [lia|]. intros more. by rewrite H2.
Qed.
Lemma position_of_none b input more :
  position_of b input = None -> position_of b (input ++ more) = (N.add (blen input)) <$> position_of b more.
Proof.
  induction input as [|x input IH]; cbn [position_of app].
  { intros _. destruct (position_of b more); cbn; [by rewrite blen_nil|done]. }
  destruct (x =? b); [done|]. destruct (position_of b input) eqn:E; [done|]. intros _. rewrite IH by done.
  destruct (position_of b more); cbn; [|done]. rewrite blen_cons. f_equal. lia.
Qed.

Lemma classify_prefix_stable input more p :
  classify_prefix input = PrefixState.Protocol p -> classify_prefix (input ++ more) = PrefixState.Protocol p.
Proof.
  intros H. destruct input as [|b input]; [by vm_compute in H|]. unfold classify_prefix in *. cbn [head app] in *.
  destruct (bool_decide (Some b = Some 22)). { destruct input as [|b1 [|b2 input]]; done. }
  change (b :: input ++ more) with ((b :: input) ++ more). set (all := b :: input) in *. clearbody all.
  destruct (position_of (ch " ") all) as [space|] eqn:E.
  - apply position_of_some in E as [Hs ->]. rewrite take_N_app_le, drop_N_app_le by lia.
    case_match; [done|]. destruct (drop_N (space + 1) all) as [|t ts]; [done|]. cbn [app].
    case_match; [done|]. by apply (scheme_state_stable _ (t :: ts)).
  - rewrite position_of_none by done. case_match; [done|]. injection H as <-.
    assert (Hf : blen all <= MAX_METHOD_SIZE -> forallb is_token all = false).
    { intros Hle. by rewrite (proj2 (N.leb_le _ _)) in H0 by done. }
    destruct (position_of (ch " ") more) as [k|]; cbn [fmap option_fmap option_map].
    + rewrite take_N_app_ge, forallb_app by lia. case_match; [done|]. exfalso.
      apply orb_false_iff in H as [H Ht]. apply orb_false_iff in H as [_ H]. apply N.ltb_ge in H.
      rewrite Hf in Ht by lia. done.
    + rewrite forallb_app, blen_app. case_match; [|done]. exfalso. apply andb_true_iff in H as [H Ht].
      apply N.leb_le in H. rewrite Hf in Ht by lia. done.
Qed.

Lemma scheme_state_short schemes target :
  scheme_state schemes target = PrefixState.NeedMore -> exists scheme, scheme ∈ schemes /\ blen target <= blen scheme.
Proof.
  induction schemes as [|scheme schemes IH]; cbn [scheme_state]; [done|].
  destruct (starts_with target scheme) eqn:E.
  - intros _. exists scheme. split; [by constructor|].
    apply starts_with_true in E as [r ->]. rewrite blen_app. lia.
  - case_match; [done|]. intros Hs. destruct (IH Hs) as (x & Hx & Hl). exists x. split; [by constructor|done].
Qed.

Lemma classify_prefix_short input : classify_prefix input = PrefixState.NeedMore -> blen input < PROBE_BUFFER_SIZE.
Proof.
  unfold classify_prefix, PROBE_BUFFER_SIZE, MAX_METHOD_SIZE. intros H. case_match.
  { destruct input as [|b [|b1 [|b2 input]]]; rewrite ?blen_cons, ?blen_nil; try lia. done. }
  destruct (position_of (ch " ") input) as [space|] eqn:E.
  2: { case_match; [|done]. apply andb_true_iff in H1 as [H1 _]. apply N.leb_le in H1. lia. }
  case_match; [done|]. apply orb_false_iff in H1 as [H1 _]. apply orb_false_iff in H1 as [_ H1]. apply N.ltb_ge in H1.
  assert (Hl : blen (drop_N (space + 1) input) <= 8).
  { destruct (drop_N (space + 1) input) as [|t ts]; [rewrite blen_nil; lia|]. case_match; [done|].
    apply scheme_state_short in H as (scheme & Hin & Hl).
    apply elem_of_cons in Hin as [->|Hin]; [|apply list_elem_of_singleton in Hin as ->]; (eapply N.le_trans; [exact Hl|by vm_compute]). }
  rewrite blen_drop_N in Hl. lia.
Qed.

(** C30: the verdict on a CONNECT connection is the verdict on its bytes.  However
    the first bytes arrive and whenever the probe looks at them, a protocol that
    it reports other than by time is what all the bytes that the client ever
    sends are classified as; and a full probe buffer always gives a verdict. *)
Theorem probe_verdict_is_of_the_bytes timeout looks restored bytes :
  Forall (fun look => match lk_peeked look with Ok peeked => peeked `prefix_of` bytes | Err _ => True end) looks ->
  (forall protocol, detect timeout looks restored = Ok protocol ->
     protocol = ConnectProtocol.Timeout \/ protocol = ConnectProtocol.Closed \/
     classify_prefix bytes = PrefixState.Protocol protocol) /\
  (forall peeked, PROBE_BUFFER_SIZE <= blen peeked -> classify_prefix peeked <> PrefixState.NeedMore).
Proof.
  intros Hl. split.
  2: { intros peeked Hp Hc. apply classify_prefix_short in Hc. lia. }
  intros protocol H. unfold detect in H. destruct (detect_inner timeout looks) as [p|e] eqn:E; [|done].
  assert (p = protocol) as -> by (destruct restored; cbn in H; by simplify_eq). clear H.
  induction Hl as [|look looks Hlook _ IH]; cbn [detect_inner] in E; [injection E as <-; auto|].
  destruct (checked_sub timeout (lk_elapsed look)) as [[|r]|]; [injection E as <-; auto| |injection E as <-; auto].
  destruct (lk_peeked look) as [[|b bs]|e]; [injection E as <-; auto| |case_match; [injection E as <-; auto|done]].
  destruct (classify_prefix (b :: bs)) as [q|] eqn:Eq; [|auto]. injection E as <-.
  destruct Hlook as [more ->]. right. right. by apply classify_prefix_stable.
Qed.
Lemma probe_verdict_is_of_the_bytes_witness :
  classify_prefix (lit "POST https://a.test/ HTTP/1.1") = PrefixState.Protocol ConnectProtocol.Http /\
  detect 1000 [mkLook 1 (Ok (lit "POS")); mkLook 2 (Ok (lit "POST htt")); mkLook 5 (Ok (lit "POST https://a"))] (Ok tt)
    = Ok ConnectProtocol.Http.
Proof.
  assert (E : detect 1000 [mkLook 1 (Ok (lit "POS")); mkLook 2 (Ok (lit "POST htt")); mkLook 5 (Ok (lit "POST https://a"))]
                (Ok tt) = Ok ConnectProtocol.Http) by reflexivity.
  split; [|exact E].
  destruct (probe_verdict_is_of_the_bytes 1000 [mkLook 1 (Ok (lit "POS")); mkLook 2 (Ok (lit "POST htt"));
              mkLook 5 (Ok (lit "POST https://a"))] (Ok tt) (lit "POST https://a.test/ HTTP/1.1")) as [H _].
  { repeat constructor; cbn [lk_peeked]; eexists; reflexivity. }
  destruct (H _ E) as [?|[?|?]]; [discriminate|discriminate|assumption].
Defined.

(** ** The memory of failed interceptions *)

(** The order lists each remembered host once, and there are not too many. *)
Definition order_ok (entries : gmap str N) (order : list str) : Prop :=
  NoDup order /\ forall host, host ∈ order <-> is_Some (entries !! host).
Definition cache_ok (c : MitmFailureCache) : Prop :=
  order_ok (mf_entries c) (mf_order c) /\ N.of_nat (size (mf_entries c)) <= mf_capacity c.

Lemma purge_expired_ok c now : cache_ok c -> cache_ok (purge_expired c now).
Proof.
  intros [[Hn Ho] Hs]. split; cbn [purge_expired with_failures mf_entries mf_order mf_capacity].
  - split; [by apply NoDup_filter|]. intros host. rewrite list_elem_of_filter, Ho. split; [by intros []|].
    intros H. split; [done|]. destruct H as [t H]. apply map_lookup_filter_Some in H as [H _]. eauto.
  - pose proof (map_size_filter (fun '(_, failed_at) => saturating_sub now failed_at < mf_ttl c) (mf_entries c)). lia.
Qed.
Lemma touch_ok entries order host : order_ok entries order -> is_Some (entries !! host) ->
  order_ok entries (filter (fun seen => seen <> host) order ++ [host]).
Proof.
  intros [Hn Ho] Hh. split.
  - apply NoDup_app. split_and!; [by apply NoDup_filter| |by apply NoDup_singleton].
    intros x Hx. apply list_elem_of_filter in Hx as [Hx _]. by rewrite list_elem_of_singleton.
  - intros x. rewrite elem_of_app, list_elem_of_filter, list_elem_of_singleton, Ho. split.
    + intros [[_ H]| ->]; done.
    + intros H. destruct (decide (x = host)); auto.
Qed.

Lemma order_ok_empty entries : order_ok entries [] -> size entries = 0%nat.
Proof.
  intros [_ Ho]. apply map_size_empty_iff, map_empty. intros host.
  destruct (entries !! host) eqn:E; [|done]. assert (host ∈ []) as H by (apply Ho; eauto). by apply not_elem_of_nil in H.
Qed.
Lemma order_ok_delete entries order host : order_ok entries (host :: order) -> order_ok (delete host entries) order.
Proof.
  intros [Hn Ho]. apply NoDup_cons in Hn as [Hh Hn]. split; [done|]. intros x.
  destruct (decide (x = host)) as [->|Hx].
  - rewrite lookup_delete_eq. split; [done|]. by intros [? [=]].
  - rewrite lookup_delete_ne by done. rewrite <- Ho, elem_of_cons. split; [auto|]. by intros [?|?].
Qed.
(** Eviction keeps the host that was touched last. *)
Lemma evict_ok capacity host entries order :
  order_ok entries (order ++ [host]) -> 0 < capacity ->
  let '(entries', order') := evict capacity entries (order ++ [host]) in
  order_ok entries' order' /\ N.of_nat (size entries') <= capacity /\ entries' !! host = entries !! host.
Proof.
  intros Ho Hc. revert entries Ho. induction order as [|x order IH]; intros entries Ho; cbn [evict app].
  - destruct (N.ltb_spec capacity (N.of_nat (size entries))) as [Hl|Hl]; [|done].
    apply order_ok_delete in Ho as Ho'. apply order_ok_empty in Ho'. exfalso.
    assert (is_Some (entries !! host)) as Ht by (apply Ho; by apply list_elem_of_singleton).
    apply map_size_delete_Some in Ht. rewrite Ho' in Ht. lia.
  - destruct (N.ltb_spec capacity (N.of_nat (size entries))) as [Hl|Hl]; [|done].
    assert (x <> host). { destruct Ho as [Hn _]. cbn in Hn. apply NoDup_cons in Hn as [Hn _]. intros ->. apply Hn.
      apply elem_of_app. right. by apply list_elem_of_singleton. }
    specialize (IH (delete x entries) (order_ok_delete _ _ _ Ho)). rewrite lookup_delete_ne in IH by done. exact IH.
Qed.

(** Operations on the memory, each at its time. *)
Inductive FailureOp := Remember (host : str) (now : N) | Active (host : str) (now : N) | Clear (host : str) | Count (now : N).
Definition failure_op (c : MitmFailureCache) (op : FailureOp) : MitmFailureCache :=
  match op with
  | Remember host now => fst (remember_at c host now)
  | Active host now => fst (is_active_at c host now)
  | Clear host => clear c host
  | Count now => fst (active_len c now)
  end.

Lemma remember_at_ok c host now :
  cache_ok c -> mf_capacity c <> 0 -> mf_ttl c <> 0 ->
  exists c', remember_at c host now = (c', true) /\ cache_ok c' /\ mf_ttl c' = mf_ttl c /\
    mf_entries c' !! cache_key host = Some now.
Proof.
  intros Hc H1 H2. unfold remember_at. rewrite (proj2 (N.eqb_neq _ _) H1), (proj2 (N.eqb_neq _ _) H2).
  apply (purge_expired_ok c now) in Hc as [Ho _]. cbn [orb touch with_failures mf_entries mf_order mf_capacity purge_expired] in *.
  set (entries := filter _ (mf_entries c)) in *. set (order := filter (fun h => is_Some (entries !! h)) (mf_order c)) in *.
  clearbody entries order. set (key := cache_key host). clearbody key.
  assert (Hok : order_ok (<[key := now]> entries) (filter (fun seen => seen <> key) order ++ [key])).
  { destruct Ho as [Hn Ho]. split.
    - apply NoDup_app. split_and!; [by apply NoDup_filter| |by apply NoDup_singleton].
      intros x Hx. apply list_elem_of_filter in Hx as [Hx _]. by rewrite list_elem_of_singleton.
    - intros x. rewrite elem_of_app, list_elem_of_filter, list_elem_of_singleton, Ho.
      destruct (decide (x = key)) as [->|Hx]; [rewrite lookup_insert_eq|rewrite lookup_insert_ne by done].
      + split; [eauto|auto].
      + split; [by intros [[_ ?]|?]|auto]. }
  pose proof (evict_ok (mf_capacity c) key _ _ Hok ltac:(lia)) as He.
  destruct (evict _ _ _) as [entries' order']. destruct He as (He1 & He2 & He3).
  eexists. split; [done|]. split_and!; [by split|done|]. cbn. rewrite He3. apply lookup_insert_eq.
Qed.
Lemma failure_op_ok c op : cache_ok c -> cache_ok (failure_op c op).
Proof.
  intros Hc. destruct op as [host now|host now|host|now]; cbn [failure_op].
  - destruct (decide (mf_capacity c = 0)) as [E1|E1]; [|destruct (decide (mf_ttl c = 0)) as [E2|E2]].
    + unfold remember_at. by rewrite E1.
    + unfold remember_at. by rewrite E2, orb_true_r.
    + destruct (remember_at_ok c host now Hc E1 E2) as (c' & -> & H & _). exact H.
  - unfold is_active_at. apply (purge_expired_ok c now) in Hc. case_match; [|done].
    destruct Hc as [Ho Hs]. split; [|done]. apply touch_ok; eauto.
  - destruct Hc as [[Hn Ho] Hs]. split; cbn.
    + split; [by apply NoDup_filter|]. intros x. rewrite list_elem_of_filter, Ho.
      destruct (decide (x = cache_key host)) as [->|Hx]; [rewrite lookup_delete_eq|rewrite lookup_delete_ne by done].
      * split; [by intros [[] ]|by intros [? [=]]].
      * split; [by intros []|done].
    + pose proof (map_size_delete (cache_key host) (mf_entries c)) as Hd.
      destruct (mf_entries c !! cache_key host); unfold id in Hd; lia.
  - by apply purge_expired_ok.
Qed.

(** C31: the memory of hosts whose interception failed is bounded and exact.
    After any operations at any times it holds at most its capacity, each host
    once in its order of use; and the host remembered last is reported, under
    any spelling of its name, exactly until its time to live has passed. *)
Theorem failure_memory_bounded_and_exact capacity ttl ops :
  let c := fold_left failure_op ops (MitmFailureCache_new capacity ttl) in
  cache_ok c /\
  forall host now, capacity <> 0 -> ttl <> 0 ->
  exists c', remember_at c host now = (c', true) /\
    forall host' later, cache_key host' = cache_key host ->
    snd (is_active_at c' host' later) = (saturating_sub later now <? ttl).
Proof.
  cbv zeta. set (c := fold_left _ _ _).
  assert (H : cache_ok c /\ mf_capacity c = capacity /\ mf_ttl c = ttl).
  { subst c. set (c0 := MitmFailureCache_new capacity ttl).
    assert (H : cache_ok c0 /\ mf_capacity c0 = capacity /\ mf_ttl c0 = ttl).
    { split; [|done]. split; [|cbn; rewrite map_size_empty; lia]. split; [constructor|]. intros h.
      cbn. rewrite lookup_empty. split; [by intros ?%not_elem_of_nil|by intros [? [=]]]. }
    clearbody c0. revert c0 H. induction ops as [|op ops IH]; intros c0 H; [done|]. cbn [fold_left]. apply IH.
    destruct H as (H1 & H2 & H3). split; [by apply failure_op_ok|]. rewrite <- H2, <- H3.
    destruct op; cbn [failure_op]; unfold remember_at, is_active_at; repeat case_match; done. }
  destruct H as (Hc & Hcap & Httl). split; [done|]. intros host now H1 H2.
  destruct (remember_at_ok c host now Hc) as (c' & E & Hc' & Ht & Hl); [congruence|congruence|].
  exists c'. split; [done|]. intros host' later Hk. unfold is_active_at. rewrite Hk.
  cbn [purge_expired with_failures mf_entries]. rewrite map_lookup_filter, Hl. cbn [mbind option_bind].
  rewrite Ht, Httl. case_guard; cbn; destruct (N.ltb_spec (saturating_sub later now) ttl); try done; lia.
Qed.
Lemma failure_memory_bounded_and_exact_witness :
  exists c', remember_at (MitmFailureCache_new 2 10) (lit "A.test.") 5 = (c', true) /\
    snd (is_active_at c' (lit "a.TEST") 14) = true /\ snd (is_active_at c' (lit "a.test") 15) = false.
Proof.
  destruct (proj2 (failure_memory_bounded_and_exact 2 10 []) (lit "A.test.") 5 ltac:(discriminate) ltac:(discriminate))
    as (c' & E & H).
  exists c'. split; [exact E|]. split; rewrite H by reflexivity; reflexivity.
Defined.
