(* ===== verification/ConnectFlow.v ===== *)
(** * CONNECT connections

    crates/rsproxy-engine/src/proxy/server/connect.rs, server/inner_http.rs,
    server/mitm.rs and tunnel.rs: the connection behind a CONNECT request is
    passed through, read as HTTP, or intercepted.  The TLS library, the upstream
    side of a TLS tunnel and the HTTP/2 server are classes. *)
From Stdlib Require Import Ascii String.
From stdpp Require Import base numbers list gmap strings.
From S2P Require Import Prelude Family Utf8 Format NetAddr Io Model Url Engines Index Resolve TraceModel.
From S2P Require Import Template Http1 Http1Write Values Deadline Slots Relay Transforms Mock Actions ResponseBody.
From S2P Require Import ResponseFlow Routing Connect Dial FastResponse FastPool FlowSession Forward HttpFlow Server.
From S2P Require Import Intercept.

(** ** What is not in the sources *)

(** The TLS library towards the client: the certificate of a host and whether it
    was cached, the connection state for it, the handshake with the plaintext
    connection and its record, whether HTTP/2 was negotiated and how it is
    served. *)
Class ClientTls (Identity : Type) := {
  mitm_server_config : N -> str -> Result IoError bool;
  server_connection : N -> str -> Result IoError unit;
  tls_handshake : N -> str -> N -> Conn -> Result IoError (Conn * TlsRecord);
  speaks_h2 : Conn -> bool;
  serve_h2_mitm : Conn -> str -> str -> TlsRecord -> list str -> StateR (World Identity) IoError unit;
}.
(** A tunnel whose upstream side is TLS: what both sides were sent, with the
    sizes of the pieces. *)
Class TlsTunnels := {
  upstream_is_tls : Conn -> bool;
  tunnel_copy_tls : Conn -> Conn -> Conn * (list N * list N);
}.
(** When the probe looks at the connection and what it sees. *)
Class Probe := connection_looks : N -> Stream -> list Look.

(** ** Tunnels (tunnel.rs) *)

Definition TUNNEL_BUFFER : N := 16 * 1024.
(** [copy_tunnel_direction] with the sizes the trace is told; a round per byte. *)
Fixpoint copy_tunnel_loop (fuel : nat) (total : N) (s : Stream) (w : Sink) : Stream * Sink * N * list N :=
  match fuel with
  | O => (s, w, total, [])
  | S fuel' =>
      match stream_read TUNNEL_BUFFER s with
      | (s, Err _) | (s, Ok []) => (s, w, total, [])
      | (s, Ok data) =>
          match write_bytes data w with
          | (w, Err _) => (s, w, total, [])
          | (w, Ok _) =>
              let '(s, w, total, sizes) := copy_tunnel_loop fuel' (saturating_add U64_MAX total (blen data)) s w in
              (s, w, total, blen data :: sizes)
          end
      end
  end.
Definition copy_tunnel_direction (s : Stream) (w : Sink) : Stream * Sink * N * list N :=
  copy_tunnel_loop (S (length (carried s))) 0 s w.
Definition tunnel_events (id : N) (direction : BodyDirection.t) (sizes : list N) : list Emitted :=
  if id =? 0 then [] else map (fun n => EmittedBody (TraceEvent.BodyChunk id direction [] n)) sizes.

(** ** HTTP behind CONNECT (server/inner_http.rs) *)

Module ConnectHttpMode.
Inductive t := Mitm (client_tls : TlsRecord) (first_flags : list str) | Plain (first_flags : list str).
Definition empty_flag (m : t) : str := match m with Mitm _ _ => lit "mitm-empty" | Plain _ => lit "connect-http-empty" end.
Definition read_error_stage (m : t) : str := match m with Mitm _ _ => lit "client_tls" | Plain _ => lit "client_http" end.
Definition authority (m : t) (target : str) : option str := match m with Mitm _ _ => Some target | Plain _ => None end.
Definition flags (m : t) (request_index : N) : list str :=
  if request_index =? 0 then match m with Mitm _ first | Plain first => first end
  else [lit "h1-client-connection-reused";
        match m with Mitm _ _ => lit "mitm-tunnel-reused" | Plain _ => lit "connect-http-reused" end].
Definition tls_records (m : t) (request_index : N) : list TlsRecord :=
  match m with
  | Mitm record _ =>
      [if request_index =? 0 then record
       else mkTlsRecord (tr_phase record) (tr_host record) 0 (tr_peer_certificates record) (tr_protocol record)
              (tr_cipher_suite record) (tr_alpn record) (tr_error record)]
  | Plain _ => []
  end.
Definition prepare_head (m : t) (head : RequestHead) (target : str) : RequestHead :=
  let q := hd_request head in
  match m with
  | Plain _ =>
      if starts_with (lit "/") (rq_target q) && negb (contains (lit "://") (rq_target q))
      then mkRequestHead (mkRawRequest (rq_method q) (lit "http://" ++ target ++ rq_target q) (rq_version q)
                            (rq_headers q) (rq_body q) (rq_trailers q)) (hd_body head)
      else head
  | Mitm _ _ => head
  end.
End ConnectHttpMode.

Section ConnectFlow.
Context {Identity : Type} {NW : Network Identity} {H2 : H2Upstreams Identity} {WS : WebSocketTunnel}.
Context {CT : ClientTls Identity} {TT : TlsTunnels} {PB : Probe}.
Context {PE : PatternEngines} {CE : CaptureEngine} {RF : RuleFiles} {MD : MockDirs} {JT : JsonText} {SR : StatusReasons}.
Context (config : ProxyConfig) (timeouts : Timeouts) (limits : PoolLimits) (selection : HostPool -> N).
Context (client_identity : ForwardCtx -> Result IoError (option Identity)).
Context (h2_wait : N) (intercept : InterceptConfig).
(** The rules in force and the values generated for the CONNECT request, and for
    the requests inside it by their number. *)
Context (connect_rules : RuleSet) (connect_template : TemplateMetadata).
Context (rules_at : N -> RuleSet) (template_at : N -> TemplateMetadata).
Abbreviation Serving := (StateR (World Identity) IoError).

(** [finish_session] and [finish_connect_session]. *)
Definition finish_session (s : FlowSession) (hidden : bool) : Serving bool :=
  s ← begin_session_trace_if_visible s hidden;
  record_session_if_visible s hidden.
Definition ended_with (s : FlowSession) (status : N) (error : option str) : FlowSession :=
  with_outcome s (Some status) (fs_upstream s) error.
(** The session of the CONNECT request ends with its first inner request. *)
Definition finish_first (request_index : N) (s : FlowSession) (hidden : bool) : Serving unit :=
  if request_index =? 0 then _ ← finish_session s hidden; mret tt else mret tt.

Definition refuse_inner_head (request_index : N) (s : FlowSession) (hidden : bool) (e : IoError) : Serving unit :=
  let status := if contains (lit "limit exceeded") (io_message e) then 431 else 400 in
  _ ← caught (to_the_client (write_response status (reason_phrase status) PLAIN (encode (io_message e))));
  finish_first request_index (ended_with s status (Some (io_message (stage_error (lit "client_http") e)))) hidden.

(** One request inside the tunnel. *)
Definition serve_inner_request (mode : ConnectHttpMode.t) (target peer : str) (connect_session : FlowSession)
    (hidden : bool) (request_index : N) (head : RequestHead) : Serving Turn :=
  let head := ConnectHttpMode.prepare_head mode head target in
  let request := hd_request head in
  let requested := requested_client_connection request in
  w ← sget;
  _ ← (if is_websocket_request (rq_headers request) && match mode with ConnectHttpMode.Plain _ => true | _ => false end
       then on_exchange (on_dial (try_event (fun i =>
              nw_set_option i (w_input w, ex_client (w_exchange w)) SocketOption.Duplicate)))
       else mret tt);
  answered ← caught (handle_http_head config timeouts limits selection client_identity h2_wait
                 (ic_request_total_timeout intercept) (rules_at request_index) (template_at request_index) head
                 (mkConnectionInput peer (ConnectHttpMode.authority mode target)
                    (ConnectHttpMode.tls_records mode request_index) (ConnectHttpMode.flags mode request_index) requested));
  match answered with
  | Ok connection =>
      _ ← to_the_client flush;
      match turn_for connection with
      | EndConnection => mret EndConnection
      | NextRequest =>
          w ← sget;
          _ ← (if request_index =? 0 then
                 on_exchange (on_dial (try_event (fun i =>
                   nw_set_option i (w_input w, ex_client (w_exchange w)) (SocketOption.ReadTimeout (90 * 1000000000)))))
               else mret tt);
          mret NextRequest
      end
  | Err e =>
      if is_h1_request_input_error e then
        _ ← to_the_client (write_h1_request_input_error (rq_version request) e);
        _ ← finish_first request_index (ended_with connect_session (h1_request_input_error_status e) (Some (io_message e))) hidden;
        mret EndConnection
      else fail e
  end.
Definition inner_turn (mode : ConnectHttpMode.t) (target peer : str) (connect_session : FlowSession) (hidden : bool)
    (request_index : N) : Serving Turn :=
  read ← caught (from_the_client (read_request_head (pc_max_header_size config) (pc_max_header_count config)));
  match read with
  | Ok (Some head) => serve_inner_request mode target peer connect_session hidden request_index head
  | Ok None =>
      _ ← finish_first request_index
            (ended_with (push_flags connect_session [ConnectHttpMode.empty_flag mode]) 200 (fs_error connect_session)) hidden;
      mret EndConnection
  | Err e =>
      if bool_decide (io_kind e = InvalidData) then
        _ ← refuse_inner_head request_index connect_session hidden e; mret EndConnection
      else if (0 <? request_index) && is_timeout_kind e then mret EndConnection
      else
        _ ← finish_first request_index
              (ended_with connect_session 502
                 (Some (io_message (stage_error (ConnectHttpMode.read_error_stage mode) e)))) hidden;
        mret EndConnection
  end.
Fixpoint inner_loop (mode : ConnectHttpMode.t) (target peer : str) (connect_session : FlowSession) (hidden : bool)
    (fuel : nat) (request_index : N) : Serving unit :=
  match fuel with
  | O => spent
  | S fuel' =>
      turn ← inner_turn mode target peer connect_session hidden request_index;
      match turn with
      | EndConnection => mret tt
      | NextRequest => inner_loop mode target peer connect_session hidden fuel' (request_index + 1)
      end
  end.
(** [inner_http::serve]; every turn that goes on has read a head. *)
Definition serve_inner (mode : ConnectHttpMode.t) (target : str) (connect_session : FlowSession) (hidden : bool)
    : Serving unit := fun w =>
  inner_loop mode target (fs_client connect_session) connect_session hidden (S (length (carried (w_input w)))) 0 w.

(** ** Passing through (server/connect.rs) *)

Definition ESTABLISHED : list N := encode (lit "HTTP/1.1 200 Connection Established" ++ crlf ++ crlf).
Definition write_established : Serving unit := to_the_client (_ ← write_bytes ESTABLISHED; flush).

Definition finish_upstream_error (target : str) (s : FlowSession) (hidden : bool) (e : IoError)
    (response_established : bool) : Serving (unit * bool) :=
  let dns_timed_out := is_upstream_dns_timeout e in
  let connect_timed_out := is_upstream_tcp_connect_timeout e in
  let request_timed_out := is_request_total_timeout e in
  let timed_out := dns_timed_out || connect_timed_out || request_timed_out in
  let status := if timed_out then 504 else 502 in
  let s := ended_with s status (Some (io_message e)) in
  let s := push_flag_if s timed_out "upstream-timeout" in
  let s := push_flag_if s dns_timed_out "upstream-dns-timeout" in
  let s := push_flag_if s connect_timed_out "upstream-tcp-connect-timeout" in
  let s := push_flags s (if request_timed_out then TOTAL_TIMEOUT_FLAGS else []) in
  let s := push_flag_if s response_established "connect-upstream-failed-after-200" in
  _ ← (if response_established then mret tt
       else _ ← caught (to_the_client (write_response status (reason_phrase status) PLAIN
                  (encode (lit "connect " ++ target ++ lit ": " ++ io_message e ++ [NL])))); mret tt);
  taken ← finish_session s hidden;
  mret (tt, taken).

(** [tunnel_copy]: the bytes of both directions.  The threads of a TCP tunnel
    share nothing but the trace, which is told one direction after the other
    here. *)
Definition after_tunnel (s : Stream) (sink : Sink) (events : list Emitted) : Serving unit := fun w =>
  let x := w_exchange w in
  (mkWorld s (mkExchange sink (ex_cache x) (ex_clock x) (ex_events x ++ events) (ex_dial x) (ex_pool x) (ex_activity x) (ex_waits x))
     (w_trace w) (w_ids w) (w_takes w), Ok tt).
Definition tunnel_copy_tcp (upstream : Conn) (id : N) : Serving (N * N) :=
  w ← sget;
  let client := (w_input w, ex_client (w_exchange w)) in
  cloned ← on_exchange (on_dial (event (fun i => nw_set_option i client SocketOption.Duplicate)));
  match cloned with
  | Err _ => mret (0, 0)
  | Ok _ =>
      cloned ← on_exchange (on_dial (event (fun i => nw_set_option i upstream SocketOption.Duplicate)));
      match cloned with
      | Err _ => mret (0, 0)
      | Ok _ =>
          let '(s, _, up, up_sizes) := copy_tunnel_direction (fst client) (snd upstream) in
          let '(_, sink, down, down_sizes) := copy_tunnel_direction (fst upstream) (snd client) in
          _ ← after_tunnel s sink (tunnel_events id BodyDirection.Request up_sizes ++
                                   tunnel_events id BodyDirection.Response down_sizes);
          mret (up, down)
      end
  end.
Definition tunnel_copy (upstream : Conn) (id : N) : Serving (N * N) :=
  if upstream_is_tls upstream then
    w ← sget;
    let '((s, sink), (up_sizes, down_sizes)) := tunnel_copy_tls (w_input w, ex_client (w_exchange w)) upstream in
    _ ← after_tunnel s sink (tunnel_events id BodyDirection.Request up_sizes ++
                             tunnel_events id BodyDirection.Response down_sizes);
    mret (N.min (sum_N up_sizes) U64_MAX, N.min (sum_N down_sizes) U64_MAX)
  else tunnel_copy_tcp upstream id.

Definition pass_through (upstream : Conn) (s : FlowSession) (hidden : bool)
    (response_established : bool) : Serving (unit * bool) :=
  _ ← (if response_established then mret tt else write_established);
  let s := ended_with s 200 (fs_error s) in
  _ ← (if fs_id s =? 0 then mret tt else tell [EmittedResponse (fs_id s) 200 [] []]);
  copied ← tunnel_copy upstream (fs_id s);
  let side old n := mkSide (sd_headers old) (sd_trailers old) n (sd_body_head old) in
  let s := with_sides s (side (fs_request s) (fst copied)) (side (fs_response s) (snd copied)) in
  taken ← finish_session s hidden;
  mret (tt, taken).
Definition handle_passthrough (target : str) (actions : list ResolvedAction) (meta : RequestMeta) (s : FlowSession)
    (hidden : bool) (deadline : RequestDeadline) (response_established : bool) : Serving unit :=
  s ← begin_session_trace_if_visible s hidden;
  guarded (fs_id s)
    (tunnel_url ← lift_result (refused (UrlParts_parse (lit "tunnel://" ++ target)));
     routed ← caught (on_act (upstream_route config meta selection tunnel_url actions));
     match routed with
     | Err e => finish_upstream_error target s hidden e response_established
     | Ok route =>
         let s := push_flag_if s (negb (UpstreamRoute.is_direct route)) "upstream" in
         let s := with_outcome s (fs_status s) (Some (UpstreamRoute.tunnel_session_label route)) (fs_error s) in
         connected ← caught (on_exchange (on_dial (connect_tunnel_upstream_recorded config timeouts deadline route)));
         match connected with
         | Ok upstream => pass_through upstream s hidden response_established
         | Err e => finish_upstream_error target s hidden e response_established
         end
     end).

(** ** With the memory of failures *)

Abbreviation Intercepting := (StateR (World Identity * MitmFailureCache) IoError).
Definition on_world {A} (m : Serving A) : Intercepting A := fun s =>
  let '(w, r) := m (fst s) in ((w, snd s), r).
Definition update_failures {A} (f : MitmFailureCache -> MitmFailureCache * A) : Intercepting A := fun s =>
  let '(c, a) := f (snd s) in ((fst s, c), Ok a).
Definition on_failures {A} (f : MitmFailureCache -> N -> MitmFailureCache * A) : Intercepting A :=
  now ← on_world (on_exchange now);
  update_failures (fun c => f c now).

(** *** Interception (server/mitm.rs) *)

Definition record_handshake_failure (host : str) (s : FlowSession) (handshake_ms : N) (e : IoError) : Intercepting FlowSession :=
  let timed_out := is_client_tls_handshake_timeout e in
  let s := ended_with s (if timed_out then 408 else 502) (Some (io_message e)) in
  let s := with_tls s (fs_tls s ++ [failed_tls_record (lit "client_mitm_tls") host handshake_ms e]) in
  if timed_out then mret (push_flags s [lit "client-timeout"; lit "client-tls-handshake-timeout"])
  else if ic_strict_mitm intercept then mret (push_flags s [lit "mitm-fallback-disabled"])
  else
    remembered ← on_failures (fun c now => remember_at c host now);
    mret (push_flag_if s remembered "mitm-fallback-remembered").

(** The client of the thread becomes the plaintext side of its TLS connection. *)
Definition enter_tls (plain : Conn) : Serving unit := fun w =>
  let x := w_exchange w in
  (mkWorld (fst plain) (mkExchange (snd plain) (ex_cache x) (ex_clock x) (ex_events x) (ex_dial x) (ex_pool x)
                          (ex_activity x) (ex_waits x)) (w_trace w) (w_ids w) (w_takes w), Ok tt).
Definition client_handshake (host : str) : Serving (Conn * TlsRecord) :=
  w ← sget;
  let client := (w_input w, ex_client (w_exchange w)) in
  let timeout := ic_client_tls_handshake_timeout intercept in
  shaken ← on_exchange (on_dial (event (fun i => tls_handshake i host timeout client)));
  restored ← on_exchange (on_dial (event (fun i => nw_set_option i client (SocketOption.ReadTimeout 0))));
  lift_result (complete_client_tls_handshake timeout shaken restored).
Definition handle_connect_mitm (target host : str) (s : FlowSession) (hidden : bool) (initial_flags : list str)
    : Intercepting unit :=
  configured ← on_world (on_exchange (on_dial (event (fun i => mitm_server_config i host))));
  match configured with
  | Err e =>
      _ ← on_world (finish_session (push_flags (ended_with s 502 (Some (io_message e))) [lit "mitm-setup-failed"]) hidden);
      mret tt
  | Ok cache_hit =>
      let cache_flag := if cache_hit : bool then lit "mitm-cert-cache-hit" else lit "mitm-cert-cache-miss" in
      let s := push_flags s [cache_flag] in
      let initial_flags := initial_flags ++ [cache_flag] in
      _ ← on_world (on_exchange (on_dial (try_event (fun i => server_connection i host))));
      started ← on_world (on_exchange (on_dial (event nw_millis)));
      shaken ← on_world (caught (client_handshake host));
      match shaken with
      | Err e =>
          ended ← on_world (on_exchange (on_dial (event nw_millis)));
          s ← record_handshake_failure host s (saturating_sub ended started) e;
          _ ← on_world (finish_session s hidden);
          mret tt
      | Ok (plain, record) =>
          _ ← update_failures (fun c => (clear c host, tt));
          _ ← on_world (enter_tls plain);
          if speaks_h2 plain then on_world (serve_h2_mitm plain (fs_client s) target record initial_flags)
          else on_world (serve_inner (ConnectHttpMode.Mitm record initial_flags) target s hidden)
      end
  end.

(** *** The request (server/connect.rs) *)

Definition connect_meta (req : RawRequest) (peer : str) : RequestMeta :=
  let url := lit "tunnel://" ++ rq_target req in
  mkRequestMeta (lit "CONNECT") url (rq_headers req) [] (Some peer) (literal_ip_from_url url) connect_template.
Definition connect_session (req : RawRequest) (peer : str) (matched : list MatchedRule) : FlowSession :=
  let s := with_kind (FlowSession_new (lit "CONNECT") (rq_target req) peer) SessionKind.Tunnel [] in
  let s := with_sides s (mkSide (rq_headers req) (rq_trailers req) 0 []) Side_empty in
  let s := push_flag_if s (negb (is_emptyb (rq_trailers req))) "req-trailers" in
  push_flags (with_rules s matched) [lit "tunnel"].

Definition handle_inspected (target host : str) (actions : list ResolvedAction) (meta : RequestMeta) (s : FlowSession)
    (hidden : bool) (deadline : RequestDeadline) (protocol : ConnectProtocol.t) (initial_flags : list str)
    : Intercepting unit :=
  match protocol with
  | ConnectProtocol.Tls =>
      handle_connect_mitm target host (push_flags s [lit "connect-probe-tls"]) hidden
        (initial_flags ++ [lit "connect-probe-tls"])
  | ConnectProtocol.Http =>
      on_world (serve_inner (ConnectHttpMode.Plain (initial_flags ++ [lit "connect-probe-http"; lit "connect-http"]))
                  target (push_flags s [lit "connect-probe-http"]) hidden)
  | ConnectProtocol.Unknown =>
      on_world (handle_passthrough target actions meta (push_flags s [lit "connect-probe-unknown"]) hidden deadline true)
  | ConnectProtocol.Timeout =>
      on_world (handle_passthrough target actions meta (push_flags s [lit "connect-probe-timeout"]) hidden deadline true)
  | ConnectProtocol.Closed =>
      _ ← on_world (finish_session (push_flags (ended_with s 200 (fs_error s)) [lit "connect-probe-closed"]) hidden);
      mret tt
  end.
(** The probe with its timeout; the read timeout of the socket is asked for
    before and restored after it. *)
Definition probe_protocol (deadline : RequestDeadline) : Serving (Result IoError ConnectProtocol.t) :=
  now ← on_exchange now;
  remaining ← lift_result (remaining deadline now);
  let timeout := N.min remaining (ic_connect_probe_timeout intercept) in
  caught (w ← sget;
          let client := (w_input w, ex_client (w_exchange w)) in
          _ ← on_exchange (on_dial (try_event (fun i => nw_set_option i client SocketOption.GetReadTimeout)));
          looks ← on_exchange (on_dial (event (fun i => connection_looks i (w_input w))));
          restored ← on_exchange (on_dial (event (fun i => nw_set_option i client (SocketOption.ReadTimeout 0))));
          lift_result (detect timeout looks restored)).
Definition inspect (target host : str) (actions : list ResolvedAction) (meta : RequestMeta) (s : FlowSession)
    (hidden : bool) (deadline : RequestDeadline) (flags : list str) : Intercepting unit :=
  let s := push_flags s flags in
  _ ← on_world write_established;
  probed ← on_world (probe_protocol deadline);
  match probed with
  | Err e =>
      _ ← on_world (finish_session (push_flags (ended_with s 502 (Some (io_message e))) [lit "connect-probe-error"]) hidden);
      mret tt
  | Ok protocol =>
      now ← on_world (on_exchange now);
      match remaining deadline now with
      | Err e =>
          _ ← on_world (finish_session (push_flags (ended_with s 504 (Some (io_message e)))
                          [lit "request-timeout"; lit "request-total-timeout"]) hidden);
          mret tt
      | Ok _ => handle_inspected target host actions meta s hidden deadline protocol flags
      end
  end.
Definition handle_connect_request (req : RawRequest) (peer : str) : Intercepting unit :=
  let target := rq_target req in
  let meta := connect_meta req peer in
  let resolved := resolve connect_rules meta in
  let actions := rr_actions resolved in
  s ← on_world (on_act (apply_trace_tags config meta (connect_session req peer (rr_matched_rules resolved)) actions));
  let hidden := trace_hidden actions in
  deadline ← on_world (new_deadline (ic_request_total_timeout intercept));
  decision ← on_failures (fun c now => decide_connect intercept c now target actions);
  match decision with
  | ConnectDecision.Passthrough flags =>
      on_world (handle_passthrough target actions meta (push_flags s flags) hidden deadline false)
  | ConnectDecision.Inspect host flags => inspect target host actions meta s hidden deadline flags
  end.
(** What the loop over a client connection calls, with the memory of failures
    as it is then. *)
Definition connect_handler (failures : MitmFailureCache) (peer : str) : ConnectHandler Identity := fun req w =>
  let '((w, _), r) := handle_connect_request req peer (w, failures) in (w, r).
End ConnectFlow.
