(* ===== verification/ServerProofs.v ===== *)
(** * A kept client connection is in step with its requests

    Whatever a request leads to, a client connection that is read again stands
    exactly behind the message of that request.  The forwarding parts are
    followed with triples on the input of the client. *)
From Stdlib Require Import Ascii String.
From stdpp Require Import base numbers list gmap strings.
From S2P Require Import Prelude Family Utf8 Format NetAddr Io Model Url Engines Index Resolve TraceModel.
From S2P Require Import Template TemplateProofs Http1 Http1Proofs Http1Body Http1Write Values Deadline Slots Relay.
From S2P Require Import RelayProofs Transforms Mock Actions ResponseBody ResponseFlow FlowProofs FastResponse Routing Connect Dial.
From S2P Require Import FastPool FastProofs WebSocket FlowSession Forward HttpFlow Server.
From S2P Require Import Intercept ConnectFlow.

(** ** What the decoders have read *)

Lemma bounded_loop_sound size count limit fuel r seen s s' out :
  healthy s -> read_bounded_loop limit size count fuel r seen s = (s', Ok out) ->
  healthy s' /\
  match out with
  | BoundedRequestBody.Complete all trailers =>
      exists body, framed size count (br_state r) (carried s) body trailers (carried s')
  | BoundedRequestBody.Overflow prefix r' =>
      forall more trailers rest, framed size count (br_state r') (carried s') more trailers rest ->
      exists body, framed size count (br_state r) (carried s) body trailers rest
  end.
Proof.
  revert r seen s. induction fuel as [|fuel IH]; intros r seen s Hs H; [done|].
  cbn [read_bounded_loop] in H. cbv zeta in H. case_match.
  { injection H as <- <-. split; [done|]. intros; eauto. }
  apply bind_ok in H as (s1 & [r1 x] & E & H). apply N.eqb_neq in H0.
  apply reader_step_sound in E as (Hs1 & _ & Hx); [|done|unfold REQUEST_BODY_CHUNK_SIZE; lia].
  cbn [fst snd] in H. destruct x as [d|t].
  - destruct Hx as (_ & _ & _ & Hx). case_match.
    + injection H as <- <-. split; [done|]. intros; eauto.
    + destruct (IH _ _ _ Hs1 H) as [Hs' Ho]. split; [done|].
      destruct out; [destruct Ho; eauto|]. intros m t rest Hf. destruct (Ho _ _ _ Hf); eauto.
  - injection H as <- <-. split; [done|]. eauto.
Qed.

(** A body that was begun and whose rest the decoder has still to read. *)
Definition drained (size count : N) (body : StreamingRequestBody) (s s' : Stream) : Prop :=
  healthy s' /\ exists more trailers, framed size count (br_state (sb_reader body)) (carried s) more trailers (carried s').

Lemma bounded_sound size count framing limit s s' out :
  healthy s -> read_request_body_bounded framing limit size count s = (s', Ok out) ->
  healthy s' /\
  match out with
  | BoundedRequestBody.Complete _ _ =>
      exists body trailers, framed size count (br_state (RequestBodyReader_new framing)) (carried s) body trailers (carried s')
  | BoundedRequestBody.Overflow prefix r' =>
      forall required s'', drained size count (mkStreamingRequestBody prefix r' required) s' s'' ->
      exists body trailers, framed size count (br_state (RequestBodyReader_new framing)) (carried s) body trailers (carried s'')
  end.
Proof.
  intros Hs. unfold read_request_body_bounded. case_match.
  { intros [= <- <-]. split; [done|]. intros req s'' (_ & more & t & Hf). eauto. }
  unfold looping. intros E. destruct (bounded_loop_sound _ _ _ _ _ _ _ _ _ Hs E) as [Hs' Ho].
  split; [done|]. destruct out; [destruct Ho; eauto|].
  intros req s'' (_ & more & t & Hf). destruct (Ho _ _ _ Hf); eauto.
Qed.

Lemma relay_loop_sound config chunked fuel reader throttle summary trace events s sink s' sink' out :
  healthy s ->
  relay_loop config chunked fuel reader throttle summary trace events (s, sink) = ((s', sink'), Ok out) ->
  healthy s' /\ exists more trailers,
    framed (rc_max_header_size config) (rc_max_header_count config) (br_state reader) (carried s) more trailers (carried s').
Proof.
  revert reader throttle summary trace events s sink.
  induction fuel as [|fuel IH]; intros reader throttle summary trace events s sink Hs H; [done|].
  cbn [relay_loop] in H. apply bind_ok in H as ([s1 k1] & [r1 x] & E & H).
  unfold on_input, staged in E. cbn [fst snd] in *.
  destruct (RequestBodyReader_read _ _ _ _ s) as [s2 [p|e]] eqn:Er; [|done]. injection E as <- <- ->.
  apply reader_step_sound in Er as (Hs1 & _ & Hx); [|done|done]. destruct x as [d|t].
  - destruct Hx as (_ & _ & _ & Hx). destruct (observe_request_data _ _ _ _) as [[sm tr] seen].
    apply bind_ok in H as ([s3 k3] & th & E & H).
    assert (s3 = s2) as -> by (unfold on_output in E; cbn in E; by destruct (write_request_data _ _ _ _) as [? []]; simplify_eq).
    destruct (IH _ _ _ _ _ _ _ Hs1 H) as (Hs' & more & t & Hf). split; [done|]. eauto.
  - apply bind_ok in H as ([s3 k3] & th & E & H).
    assert (s3 = s2) as -> by (unfold on_output in E; cbn in E; by destruct (finish_request_body _ _ _) as [? []]; simplify_eq).
    injection H as <- <- <-. split; [done|]. eauto.
Qed.

Lemma on_output_keeps {S W A} (m : StateR W IoError A) (s : S) w s' w' r :
  on_output m (s, w) = ((s', w'), r) -> s' = s.
Proof. unfold on_output. cbn. destruct (m w). by intros [= <- _ _]. Qed.

Lemma relay_request_sound body config restored s sink s' sink' out :
  healthy s -> relay_request_body body config restored (s, sink) = ((s', sink'), Ok out) ->
  drained (rc_max_header_size config) (rc_max_header_count config) body s s'.
Proof.
  intros Hs H. unfold relay_request_body in H. apply bind_ok in H as ([s1 k1] & o & E & H).
  apply bind_ok in H as (st & u & E' & H). unfold lift_result in E'. injection E' as <- ->. injection H as <- <- <-.
  case_match.
  { by eapply relay_loop_sound. }
  destruct (observe_request_data _ _ _ _) as [[sm tr] seen].
  apply bind_ok in E as ([s3 k3] & th & E & Hl). apply on_output_keeps in E as ->.
  by eapply relay_loop_sound.
Qed.

(** ** Parts that leave the client's input alone *)

Definition stays {Identity A} (m : StateR (World Identity) IoError A) : Prop :=
  forall w, w_input (fst (m w)) = w_input w.

Create HintDb stays.
Section Stays.
Context {Identity : Type}.
Implicit Types A B : Type.
Abbreviation Serving := (StateR (World Identity) IoError).

Lemma stays_ret {A} (x : A) : stays (mret x : Serving A).
Proof. done. Qed.
Lemma stays_bind {A B} (m : Serving A) (k : A -> Serving B) :
  stays m -> (forall a, stays (k a)) -> stays (m ≫= k).
Proof.
  intros Hm Hk w. specialize (Hm w). unfold mbind, StateR_bind.
  destruct (m w) as [w' [a|e]]; cbn [fst] in *; [by rewrite Hk|done].
Qed.
Lemma stays_lift {A} (r : Result IoError A) : stays (lift_result r : Serving A).
Proof. done. Qed.
Lemma stays_fail {A} e : stays (fail e : Serving A).
Proof. done. Qed.
Lemma stays_get : stays (sget : Serving _).
Proof. done. Qed.
Lemma stays_exchange {A} (m : StateR (Exchange Identity) IoError A) : stays (on_exchange m).
Proof. intros w. unfold on_exchange. by destruct (m _). Qed.
Lemma stays_answer_from {A} body (m : StateR (Flow Stream) IoError A) : stays (on_answer_from (Identity := Identity) body m).
Proof. intros w. unfold on_answer_from. by destruct (m _). Qed.
Lemma stays_caught {A} (m : Serving A) : stays m -> stays (caught m).
Proof. intros H w. specialize (H w). unfold caught. by destruct (m w). Qed.
Lemma stays_note t : stays (trace_note t : Serving unit).
Proof. done. Qed.
Lemma stays_start s : stays (trace_start s : Serving N).
Proof. done. Qed.
Lemma stays_command t : stays (trace_command t : Serving bool).
Proof. done. Qed.
Lemma stays_upstream {A} conn (m : StateR Sink IoError A) : stays (on_upstream_sink (Identity := Identity) conn m).
Proof. intros w. unfold on_upstream_sink. by destruct (m _) as [? []]. Qed.
End Stays.
#[export] Hint Resolve stays_ret stays_lift stays_fail stays_get stays_exchange stays_answer_from stays_note
  stays_start stays_command stays_upstream stays_caught : stays.

Ltac stays_step :=
  first
    [ solve [auto with stays]
    | apply stays_caught
    | apply stays_bind; [|intros ?]
    | progress cbv beta zeta
    | match goal with |- stays (match ?x with _ => _ end) => destruct x end ].
Ltac stays_auto := repeat stays_step.

Section StaysMore.
Context {Identity : Type}.
Abbreviation Serving := (StateR (World Identity) IoError).
Lemma stays_answer_only {A} (m : StateR (Flow Stream) IoError A) : stays (on_answer_only m : Serving A).
Proof. unfold on_answer_only. stays_auto. Qed.
Lemma stays_act {A} (m : Act A) : stays (on_act m : Serving A).
Proof. apply stays_answer_only. Qed.
Lemma stays_client {A} (m : StateR Sink IoError A) : stays (to_the_client m : Serving A).
Proof. apply stays_answer_only. Qed.
Lemma stays_tell events : stays (tell events : Serving unit).
Proof. apply stays_answer_only. Qed.
Lemma stays_record s hidden : stays (record_session_if_visible s hidden : Serving bool).
Proof. unfold record_session_if_visible, begin_session_trace_if_visible. stays_auto. Qed.
Lemma stays_emit_request id s : stays (emit_request id s : Serving unit).
Proof. unfold emit_request. stays_auto. Qed.
End StaysMore.
#[export] Hint Resolve stays_answer_only stays_act stays_client stays_tell stays_record stays_emit_request : stays.

(** A part that leaves the input alone keeps what is known of it. *)
Lemma triple_stays {Identity A} (m : StateR (World Identity) IoError A) (P : Stream -> Prop) :
  stays m -> triple (fun w => P (w_input w)) m (fun _ w => P (w_input w)) (fun w => P (w_input w)).
Proof. intros H w Hw. specialize (H w). destruct (m w) as [w' [a|e]]; cbn [fst] in H; by rewrite H. Qed.

(** ** Forwarding *)

(** The request of which [body] was left in the input [s] is read to its end at [s']. *)
Definition request_read (size count : N) (body : option StreamingRequestBody) (s s' : Stream) : Prop :=
  match body with None => s' = s | Some b => drained size count b s s' end.
(** A forwarded request: if the connection is kept, the request was read. *)
Definition forwards (size count : N) (body : option StreamingRequestBody) (s : Stream) {Identity}
    (forwarded : Forwarded) (w : World Identity) : Prop :=
  fw_client_connection (fst forwarded) = ClientPersistence.KeepAlive -> request_read size count body s (w_input w).
(** A failed one: a request without a body to come leaves the input alone. *)
Definition fails_over (body : option StreamingRequestBody) (s : Stream) {Identity} (w : World Identity) : Prop :=
  body = None -> w_input w = s.
Abbreviation at_input s := (fun w => w_input w = s).

(** What the upstream HTTP/2 code promises of the client's input: it reads the
    streamed body and nothing else, and keeps the connection only when it has
    read all of it (forward/streaming_h2.rs). *)
Class H2Reads (Identity : Type) {H2 : H2Upstreams Identity} (size count : N) := {
  h2_dispatch_reads ctx body s : healthy s ->
    triple (at_input s) (h2_dispatch ctx body)
      (fun o w => match o with Some f => forwards size count body s f w | None => w_input w = s end) (fails_over body s);
  h2_connected_reads ctx conn body s : healthy s ->
    triple (at_input s) (h2_connected ctx conn body) (forwards size count body s) (fails_over body s);
}.
(** A WebSocket tunnel that ends without an error. *)
Class TunnelsEnd {WS : WebSocketTunnel} :=
  tunnels_end limit client upstream : is_ok (snd (websocket_tunnel limit client upstream)) = true.

Lemma triple_at_stays {Identity A} (m : StateR (World Identity) IoError A) s (Q : A -> World Identity -> Prop) (E : World Identity -> Prop) :
  stays m -> (forall a w, w_input w = s -> Q a w) -> (forall w, w_input w = s -> E w) -> triple (at_input s) m Q E.
Proof. intros H HQ HE. eapply triple_conseq; [exact (triple_stays m (fun i => i = s) H)|..]; auto. Qed.

Section Forwarding.
Context {Identity : Type} {NW : Network Identity} {H2 : H2Upstreams Identity} {WS : WebSocketTunnel}.
Context {PE : PatternEngines} {CE : CaptureEngine} {RF : RuleFiles} {JT : JsonText} {SR : StatusReasons}.
Context (config : ProxyConfig) (timeouts : Timeouts) (limits : PoolLimits) (selection : HostPool -> N).
Context (client_identity : ForwardCtx -> Result IoError (option Identity)).
Let size := pc_max_header_size config.
Let count := pc_max_header_count config.
Context {HR : H2Reads Identity size count} {TE : TunnelsEnd}.

Lemma stays_head_with_ttfb ctx conn :
  stays (read_response_head_with_ttfb (Identity := Identity) config limits ctx conn).
Proof.
  unfold read_response_head_with_ttfb. apply stays_bind; [auto with stays|intros ttfb]. cbv zeta.
  destruct (read_response_head _ _ _) as [reader result]. stays_auto.
Qed.

Lemma send_body_reads ctx conn body s :
  healthy s ->
  triple (at_input s) (send_body (Identity := Identity) config ctx conn body)
    (fun _ w => request_read size count body s (w_input w)) (fails_over body s).
Proof.
  intros Hs. destruct body as [b|]; cbn [send_body].
  2: { apply triple_at_stays; [stays_auto|by cbn|by intros w Hw _]. }
  intros w Hw. match goal with |- match ?m w with _ => _ end => destruct (m w) as [w' [a|e]] eqn:E end; [|intros [=]].
  apply bind_ok in E as (w1 & x & E & H). injection H as <- _.
  unfold relay_body in E. apply bind_ok in E as (w2 & w0 & E0 & H). injection E0 as <- <-.
  apply bind_ok in H as (w3 & restored & E3 & H). apply bind_ok in H as (w4 & [sink [sm ev]] & E4 & H).
  pose proof (stays_exchange (on_dial (event (fun i => nw_set_option i (w_input w, ex_client (w_exchange w))
      (SocketOption.ReadTimeout 0)))) w) as H3. rewrite E3 in H3. cbn [fst] in H3.
  destruct (relay_request_body _ _ _ _) as [[s4 k4] [o|e]] eqn:Er; [|done]. injection E4 as <- <- ->.
  rewrite H3, Hw in Er. apply relay_request_sound in Er; [|done].
  apply bind_ok in H as (w5 & u & E5 & H). injection H as <- _.
  pose proof (stays_tell (map EmittedBody ev) (mkWorld s4 (w_exchange w3) (w_trace w3) (w_ids w3) (w_takes w3))) as H5.
  rewrite E5 in H5. cbn [fst w_input] in H5. cbn [request_read]. by rewrite H5.
Qed.

Lemma triple_after {A B} (m : StateR (World Identity) IoError A) (k : A -> StateR (World Identity) IoError B) i Q E :
  stays m -> (forall w, w_input w = i -> E w) -> (forall a, triple (at_input i) (k a) Q E) ->
  triple (at_input i) (m ≫= k) Q E.
Proof. intros Hm HE Hk. eapply triple_bind; [by apply triple_at_stays with (Q := fun _ => at_input i)|exact Hk]. Qed.

Lemma finish_websocket_reads ctx conn head matched actions request body s i :
  triple (at_input i) (finish_websocket config ctx conn head matched actions request)
    (forwards size count body s) (fun w => w_input w = i).
Proof.
  unfold finish_websocket. apply triple_after; [auto with stays|done|]. intros [[h hs] b].
  do 3 (apply triple_after; [auto with stays|done|intros _]).
  intros w Hw. pose proof (tunnels_end (pc_trace_body_limit config) (w_input w, ex_client (w_exchange w)) conn) as Ht.
  unfold mbind, StateR_bind. destruct (websocket_tunnel _ _ _) as [[s1 k1] [[[a b1] c]|e]]; [|done].
  unfold forwards. cbn. intros [=].
Qed.

(** What is written and read behind the body does not concern the client's input. *)
Lemma answer_reads ctx conn summary body s i :
  request_read size count body s i -> (body = None -> i = s) ->
  triple (at_input i)
    (received ← read_response_head_with_ttfb config limits ctx conn;
     let '(conn, head) := received in
     let resolved := response_rules ctx head in
     let matched := rr_matched_rules resolved in
     let actions := rr_actions resolved in
     let request := request_observation (fx_request ctx) summary in
     if websocket_request ctx && is_websocket_response (rh_headers head) (rh_status head)
     then finish_websocket config ctx conn head matched actions request
     else
       answered ← on_answer_from (fst conn) (answer (from_forward ctx) head matched actions);
       let result := snd answered in
       let flags := if is_sse_response (rh_headers head) && can_stream_sse_response actions
                    then ro_flags request ++ fw_flags result else fw_flags result ++ ro_flags request in
       mret (with_request_seen result (ro_bytes request) flags, request))
    (forwards size count body s) (fails_over body s).
Proof.
  intros Hi Hn. apply triple_after; [apply stays_head_with_ttfb|intros w Hw ?; rewrite Hw; auto|]. intros [conn1 head]. cbv zeta.
  case_match.
  - eapply triple_conseq; [apply (finish_websocket_reads _ _ _ _ _ _ body s i)|done|done|]. cbn. intros w Hw ?. rewrite Hw. auto.
  - apply triple_at_stays; [stays_auto| |]; [intros a w Hw _; by rewrite Hw|intros w Hw ?; rewrite Hw; auto].
Qed.

Lemma forward_unpooled_reads ctx conn body s :
  healthy s ->
  triple (at_input s) (forward_unpooled config limits ctx conn body) (forwards size count body s) (fails_over body s).
Proof.
  intros Hs. unfold forward_unpooled. apply triple_after; [auto with stays|by intros w ? _|]. intros [conn1 u].
  eapply triple_bind; [by apply send_body_reads|]. intros [conn2 summary] w Hw.
  refine (answer_reads ctx conn2 summary body s (w_input w) Hw _ w eq_refl).
  intros ->. exact Hw.
Qed.

Lemma forward_connected_reads ctx allow_h2 body s :
  healthy s ->
  triple (at_input s) (forward_connected config timeouts limits client_identity ctx allow_h2 body)
    (forwards size count body s) (fails_over body s).
Proof.
  intros Hs. unfold forward_connected. apply triple_after; [auto with stays|by intros w ? _|]. intros conn.
  destruct (h2_negotiated conn); [destruct allow_h2|]; [by apply h2_connected_reads| |by apply forward_unpooled_reads].
  apply triple_fail. by intros w ? _.
Qed.

Lemma forward_reads input s :
  healthy s ->
  triple (at_input s) (forward config timeouts limits selection client_identity input)
    (forwards size count (fi_request_body input) s) (fails_over (fi_request_body input) s).
Proof.
  intros Hs. unfold forward. destruct (UrlParts_parse _) as [url|e]; [|apply triple_fail; by intros w ? _].
  apply triple_after; [auto with stays|by intros w ? _|]. intros _.
  apply triple_after; [auto with stays|by intros w ? _|]. intros route. cbv zeta.
  destruct (plan_upstream _ _) as [[]|p st|] eqn:Hp; try by apply forward_connected_reads.
  - apply triple_after; [auto with stays|by intros w ? _|]. intros [result|]; [|by apply forward_connected_reads].
    apply triple_ret. intros w Hw _. unfold plan_upstream, choose in Hp. cbn [ps_websocket ps_h2_eligible ps_h1_pool_eligible] in Hp.
    repeat case_match; simplify_eq. destruct (fi_request_body input); done.
  - eapply triple_bind; [by apply h2_dispatch_reads|]. intros [f|]; [apply triple_ret; auto|by apply forward_connected_reads].
Qed.
End Forwarding.

(** ** A request *)

Section Request.
Context {Identity : Type} {NW : Network Identity} {H2 : H2Upstreams Identity} {WS : WebSocketTunnel}.
Context {PE : PatternEngines} {CE : CaptureEngine} {RF : RuleFiles} {MD : MockDirs} {JT : JsonText} {SR : StatusReasons}.
Context (config : ProxyConfig) (timeouts : Timeouts) (limits : PoolLimits) (selection : HostPool -> N).
Context (client_identity : ForwardCtx -> Result IoError (option Identity)) (h2_wait total_timeout : N).
Let size := pc_max_header_size config.
Let count := pc_max_header_count config.
Context {HR : H2Reads Identity size count} {TE : TunnelsEnd}.

(** The outcome of a request: if the connection is kept, the request was read. *)
Definition settled (body : option StreamingRequestBody) (s : Stream) (out : ClientPersistence.t * bool)
    (w : World Identity) : Prop :=
  fst out = ClientPersistence.KeepAlive -> request_read size count body s (w_input w).
Definition anywhere (w : World Identity) : Prop := True.

(** An answer that closes the connection of a request still to be read. *)
Lemma local_answer_settles body s connection (m : StateR (World Identity) IoError bool) :
  stays m -> (body = None \/ connection = ClientPersistence.Close) ->
  triple (at_input s) (taken ← m; mret (connection, taken)) (settled body s) anywhere.
Proof.
  intros Hm Hc. apply triple_after; [done|done|]. intros taken. apply triple_ret. intros w Hw Hk.
  cbn [fst] in Hk. destruct Hc as [->| ->]; [exact Hw|done].
Qed.
Lemma local_settles {A} body s connection (m : StateR (World Identity) IoError A) (k : StateR (World Identity) IoError bool) :
  stays m -> stays k -> (body = None \/ connection = ClientPersistence.Close) ->
  triple (at_input s) (_ ← m; taken ← k; mret (connection, taken)) (settled body s) anywhere.
Proof. intros Hm Hk Hc. apply triple_after; [done|done|]. intros _. by apply local_answer_settles. Qed.

Lemma on_act_ok {A} (m : Act A) (w w' : World Identity) a :
  on_act m w = (w', Ok a) -> w_input w' = w_input w /\ exists c c', m c = (c', Ok a).
Proof.
  unfold on_act, on_answer_only, on_answer_from, on_cache, mbind, StateR_bind. cbn.
  destruct (m _) as [c' [x|e]] eqn:E; [|done]. intros [= <- <-]. eauto.
Qed.

Lemma to_the_client_ok {A} (m : StateR Sink IoError A) (w w' : World Identity) a :
  to_the_client m w = (w', Ok a) -> w_input w' = w_input w /\ exists c c', m c = (c', Ok a).
Proof.
  unfold to_the_client, on_answer_only, on_answer_from, on_client, mbind, StateR_bind. cbn.
  destruct (m _) as [c' [x|e]] eqn:E; [|done]. intros [= <- <-]. eauto.
Qed.

(** What becomes of the connection after forwarding. *)
Definition verdict (input : HttpStreamInput) (r : Result IoError Forwarded) : ClientPersistence.t :=
  match r with
  | Ok f => fw_client_connection (fst f)
  | Err _ => if is_some (hi_request_body input) then ClientPersistence.Close
             else ci_client_connection (hi_connection input)
  end.
Lemma verdict_settles input r s (w : World Identity) :
  match r with
  | Ok f => forwards size count (hi_request_body input) s f w
  | Err _ => fails_over (hi_request_body input) s w
  end ->
  verdict input r = ClientPersistence.KeepAlive -> request_read size count (hi_request_body input) s (w_input w).
Proof.
  destruct r as [f|e]; cbn [verdict]; [auto|]. unfold fails_over, request_read.
  destruct (hi_request_body input); cbn [is_some]; [done|auto].
Qed.
Lemma forward_result_verdict meta session hidden result request i :
  triple (at_input i) (on_act (apply_forward_result config meta session hidden result request))
    (fun c w => w_input w = i /\ snd c = fw_client_connection result) anywhere.
Proof.
  intros w Hw. destruct (on_act _ w) as [w' [a|e]] eqn:E; [|done].
  apply on_act_ok in E as (-> & c & c' & E). split; [done|]. unfold apply_forward_result in E.
  apply bind_ok in E as (c1 & s1 & _ & E). by injection E as _ <-.
Qed.

Lemma forward_and_record_settles input req meta actions url session hidden s :
  healthy s ->
  triple (at_input s)
    (forward_and_record config timeouts limits selection client_identity h2_wait input req meta actions url session hidden)
    (settled (hi_request_body input) s) anywhere.
Proof.
  intros Hs. unfold forward_and_record. cbv zeta. apply triple_after; [auto with stays|done|intros planned].
  apply triple_after; [auto with stays|done|intros _].
  set (input' := mkForwardInput _ _ _ _ _ _ _ _ _ _).
  apply triple_bind with (M := fun r w => verdict input r = ClientPersistence.KeepAlive ->
                                          request_read size count (hi_request_body input) s (w_input w)).
  { intros w Hw. pose proof (forward_reads config timeouts limits selection client_identity input' s Hs w Hw) as H.
    unfold caught. destruct (forward _ _ _ _ _ _ w) as [w' [f|e]]; by apply (verdict_settles input). }
  intros r w Hr. unfold mbind at 1, StateR_bind at 1, sget. cbn beta iota. set (session' := with_tls _ _). clearbody session'.
  refine (triple_bind (at_input (w_input w)) _ _ (fun c w' => w_input w' = w_input w /\ snd c = verdict input r)
            _ anywhere _ _ w eq_refl).
  - destruct r as [[result request]|e]; [apply forward_result_verdict|].
    intros w1 Hw1. unfold mbind, StateR_bind. destruct (to_the_client _ w1) as [w2 [c|e']] eqn:E; [|done].
    apply to_the_client_ok in E as (H & k & k' & E). cbn [fst snd]. split; [by rewrite H|].
    unfold handle_forward_error in E. by injection E as _ <-.
  - intros [[session2 hidden2] c] w1 [Hw1 Hc]. cbn [snd] in Hc. subst c.
    refine (triple_after _ _ (w_input w) _ anywhere _ _ _ w1 Hw1); [auto with stays|done|].
    intros taken. apply triple_ret. intros w2 Hw2 Hk. rewrite Hw2. auto.
Qed.

Lemma answer_request_settles input full_url meta actions connection session hidden s :
  healthy s -> (hi_request_body input = None \/ connection = ClientPersistence.Close) ->
  triple (at_input s)
    (answer_request config timeouts limits selection client_identity h2_wait input full_url meta actions connection session hidden)
    (settled (hi_request_body input) s) anywhere.
Proof.
  intros Hs Hc. unfold answer_request. cbv zeta.
  do 6 (apply triple_after; [stays_auto|done|intros ?]). case_match.
  2: { apply local_settles; auto with stays. }
  case_match.
  { destruct p as [status item]. apply local_settles; auto with stays. }
  apply triple_after; [auto with stays|done|intros redirect]. case_match.
  { destruct p as [url code]. apply local_settles; auto with stays. }
  apply triple_after; [auto with stays|done|intros mock]. case_match.
  { apply local_settles; auto with stays. }
  by apply forward_and_record_settles.
Qed.

(** The guard of the trace does not concern the input. *)
Lemma guarded_settles {A} id (m : StateR (World Identity) IoError (A * bool)) P (Q : A -> Stream -> Prop) :
  triple P m (fun out w => Q (fst out) (w_input w)) anywhere ->
  triple P (guarded id m) (fun a w => Q a (w_input w)) anywhere.
Proof.
  intros H. unfold guarded. eapply triple_bind with (M := fun r w => match r with Ok out => Q (fst out) (w_input w) | Err _ => True end).
  { intros w Hw. specialize (H w Hw). unfold caught. by destruct (m w) as [w' [[a b]|e]]. }
  intros [[a disarmed]|e] w Hw.
  - refine (triple_after _ _ (w_input w) _ anywhere _ _ _ w eq_refl); [stays_auto|done|].
    intros _. apply triple_ret. intros w' ->. exact Hw.
  - refine (triple_after _ _ (w_input w) _ anywhere _ _ _ w eq_refl); [stays_auto|done|]. intros _. by apply triple_fail.
Qed.

Lemma stream_inner_settles input s :
  healthy s ->
  triple (at_input s) (handle_http_stream_inner config timeouts limits selection client_identity h2_wait input)
    (fun c w => c = ClientPersistence.KeepAlive -> request_read size count (hi_request_body input) s (w_input w)) anywhere.
Proof.
  intros Hs. unfold handle_http_stream_inner. cbv zeta. do 2 (apply triple_after; [auto with stays|done|intros ?]).
  destruct a0 as [session hidden]. apply triple_after; [stays_auto|done|intros id].
  apply (guarded_settles _ _ _ (fun c i => c = ClientPersistence.KeepAlive -> request_read size count (hi_request_body input) s i)).
  assert (Hc : hi_request_body input = None \/
    (if is_some (hi_request_body input) then ClientPersistence.Close else ci_client_connection (hi_connection input))
      = ClientPersistence.Close) by (destruct (hi_request_body input); auto).
  apply triple_after; [auto with stays|done|intros [?|e]].
  - by apply answer_request_settles.
  - apply local_settles; auto with stays.
Qed.

(** The message of a request whose head was read: its body ends at [s']. *)
Definition message_read (framing : RequestBodyFraming.t) (s s' : Stream) : Prop :=
  healthy s' /\ exists body trailers,
    framed size count (br_state (RequestBodyReader_new framing)) (carried s) body trailers (carried s').

Lemma read_body_bounded_sound framing s :
  healthy s ->
  triple (at_input s) (read_body_bounded config framing)
    (fun out w => healthy (w_input w) /\
       match out with
       | BoundedRequestBody.Complete _ _ => message_read framing s (w_input w)
       | BoundedRequestBody.Overflow prefix reader =>
           forall required s', drained size count (mkStreamingRequestBody prefix reader required) (w_input w) s' ->
           message_read framing s s'
       end) anywhere.
Proof.
  intros Hs. unfold read_body_bounded. apply triple_after; [auto with stays|done|intros w0].
  apply triple_after; [auto with stays|done|intros restored].
  intros w Hw. match goal with |- match ?m w with _ => _ end => destruct (m w) as [w' [a|e]] eqn:E end; [|done].
  apply bind_ok in E as (w1 & out & E & H). apply bind_ok in H as (w2 & u & E2 & H).
  unfold lift_result in E2. injection E2 as <- ->. injection H as <- <-.
  unfold from_the_client, staged in E. destruct (read_request_body_bounded _ _ _ _ _) as [s1 [o|e]] eqn:Er; [|done].
  injection E as <- <-. rewrite Hw in Er. apply bounded_sound in Er as [Hs1 Ho]; [|done]. cbn [w_input].
  split; [done|]. unfold message_read. destruct o; [auto|]. intros required s' Hd. split; [apply Hd|by eapply Ho].
Qed.

Lemma http_head_settles rules template head connection s :
  healthy s ->
  triple (at_input s)
    (handle_http_head config timeouts limits selection client_identity h2_wait total_timeout rules template head connection)
    (fun c w => c = ClientPersistence.KeepAlive -> message_read (hd_body head) s (w_input w)) anywhere.
Proof.
  intros Hs. unfold handle_http_head. apply triple_after; [unfold new_deadline; stays_auto|done|intros deadline]. cbv zeta.
  apply triple_after; [stays_auto|done|intros connection'].
  destruct (RequestBodyFraming.has_body (hd_body head)) eqn:Hb; cbn [negb].
  2: { eapply triple_conseq; [by apply stream_inner_settles|done| |done]. cbn [hi_request_body request_read]. intros c w H Hk.
       rewrite (H Hk). split; [done|]. exists [], []. destruct (hd_body head) as [|n|]; try done; [constructor|].
       destruct n; [constructor|done]. }
  apply triple_after; [auto with stays|done|intros full_url].
  eapply triple_bind; [by apply read_body_bounded_sound|]. intros [body trailers|prefix reader] w [Hw Ho].
  - pose proof (stream_inner_settles (mkStreamInput (with_content (hd_request head) body trailers) rules connection' deadline
      None false template) (w_input w) Hw w eq_refl) as H. cbn [hi_request_body request_read] in H.
    destruct (handle_http_stream_inner _ _ _ _ _ _ _ w) as [w' [c|e]]; [|done]. intros Hk. by rewrite (H Hk).
  - set (required := request_body_required _ _).
    pose proof (stream_inner_settles (mkStreamInput (hd_request head) rules connection' deadline
      (Some (mkStreamingRequestBody prefix reader required)) true template) (w_input w) Hw w eq_refl) as H.
    cbn [hi_request_body request_read] in H.
    destruct (handle_http_stream_inner _ _ _ _ _ _ _ w) as [w' [c|e]]; [|done]. intros Hk. by eapply Ho, H.
Qed.
End Request.

(** ** The connection *)

(** The bytes of a connection hold the messages of requests one after the other. *)
Inductive messages (size count : N) : list N -> list RequestHead -> list N -> Prop :=
| messages_none rest : messages size count rest [] rest
| messages_next bytes head mid body trailers after heads rest :
    read_request_head size count bytes = (mid, Ok (Some head)) ->
    framed size count (br_state (RequestBodyReader_new (hd_body head))) mid body trailers after ->
    messages size count after heads rest ->
    messages size count bytes (head :: heads) rest.

Lemma framed_shorter size count st bytes body trailers rest :
  framed size count st bytes body trailers rest -> (length rest <= length bytes)%nat.
Proof.
  induction 1; rewrite ?length_app; cbn [length] in *; try lia.
  - apply crlf_line_shorter in H. lia.
  - apply crlf_line_shorter in H. apply trailer_lines_shorter in H1. lia.
Qed.
Lemma request_head_shorter size count bytes rest head :
  read_request_head size count bytes = (rest, Ok (Some head)) -> (length rest < length bytes)%nat.
Proof.
  unfold read_request_head. intros H. apply bind_ok in H as (b1 & h & E & H).
  destruct (read_head_slice size bytes) as [Hs Hr]. rewrite E in Hs, Hr. cbn [fst snd] in *.
  destruct h as [h|]; [|done]. apply bind_ok in H as (b2 & q & E2 & H). unfold lift_result in E2.
  injection E2 as <- _. injection H as <- _. specialize (Hr eq_refl). unfold head_result, head_rest in *.
  destruct (split_once TERMINATOR bytes) as [[a c]|] eqn:Es; [|by repeat case_match].
  apply split_once_Some in Es. subst. rewrite !length_app. cbn. lia.
Qed.

(** *** Turns in general *)

Section Turns.
Context {Identity : Type} (size count : N) (turn : N -> StateR (World Identity) IoError Turn).

(** The state after [n] requests that each left the connection open. *)
Fixpoint after_turns (n : nat) (request_index : N) (w : World Identity) : option (World Identity) :=
  match n with
  | O => Some w
  | S n' =>
      match turn request_index w with
      | (w', Ok NextRequest) => after_turns n' (request_index + 1) w'
      | _ => None
      end
  end.

(** A turn that goes on has read one message. *)
Definition turn_reads : Prop := forall i w w',
  healthy (w_input w) -> turn i w = (w', Ok NextRequest) ->
  healthy (w_input w') /\ exists head mid body trailers,
    read_request_head size count (carried (w_input w)) = (mid, Ok (Some head)) /\
    framed size count (br_state (RequestBodyReader_new (hd_body head))) mid body trailers (carried (w_input w')).
Context (Hturn : turn_reads).

Lemma turn_shorter i w w' :
  healthy (w_input w) -> turn i w = (w', Ok NextRequest) ->
  (length (carried (w_input w')) < length (carried (w_input w)))%nat.
Proof.
  intros Hs H. destruct (Hturn _ _ _ Hs H) as (_ & head & mid & b & t & Hh & Hf).
  apply request_head_shorter in Hh. apply framed_shorter in Hf. lia.
Qed.
Lemma turns_in_step n i w w' :
  healthy (w_input w) -> after_turns n i w = Some w' ->
  exists heads, length heads = n /\ messages size count (carried (w_input w)) heads (carried (w_input w')).
Proof.
  revert i w. induction n as [|n IH]; intros i w Hs H.
  { injection H as <-. exists []. split; [done|constructor]. }
  cbn [after_turns] in H. destruct (turn i w) as [w1 [[]|e]] eqn:E; try done.
  destruct (Hturn _ _ _ Hs E) as (Hs1 & head & mid & b & t & Hh & Hf).
  destruct (IH _ _ Hs1 H) as (heads & <- & Hm). exists (head :: heads). split; [done|]. by econstructor.
Qed.

(** A loop of such turns, which ends with the turn that does not go on. *)
Context (loop : nat -> N -> StateR (World Identity) IoError unit).
Context (Hloop : forall fuel i, loop (S fuel) i =
  (t ← turn i; match t with EndConnection => mret tt | NextRequest => loop fuel (i + 1) end)).
Definition loop_ends (fuel : nat) (i : N) (w : World Identity) : Prop :=
  exists n w1, (n <= length (carried (w_input w)))%nat /\ after_turns n i w = Some w1 /\
    match turn (i + N.of_nat n) w1 with
    | (w', Ok EndConnection) => loop fuel i w = (w', Ok tt)
    | (_, Ok NextRequest) => False
    | (w', Err e) => loop fuel i w = (w', Err e)
    end.
Lemma turns_end fuel i w :
  healthy (w_input w) -> (length (carried (w_input w)) < fuel)%nat -> loop_ends fuel i w.
Proof.
  revert i w. induction fuel as [|fuel IH]; intros i w Hs Hf; [lia|]. unfold loop_ends. rewrite Hloop.
  destruct (turn i w) as [w1 [[]|e]] eqn:E.
  - exists 0%nat, w. rewrite N.add_0_r, E, (bind_run _ _ _ _ _ E). split_and!; [lia|done|done].
  - pose proof (turn_shorter _ _ _ Hs E) as Hl. destruct (Hturn _ _ _ Hs E) as [Hs1 _].
    destruct (IH (i + 1) w1 Hs1) as (n & w2 & Hn & Ha & Ho); [lia|].
    exists (S n), w2. cbn [after_turns]. rewrite E, (bind_run _ _ _ _ _ E). split_and!; [lia|done|].
    by replace (i + N.of_nat (S n)) with (i + 1 + N.of_nat n) by lia.
  - exists 0%nat, w. rewrite N.add_0_r, E, (bind_err _ _ _ _ _ E). split_and!; [lia|done|done].
Qed.
End Turns.

(** *** The connections of the listener *)

Section Connection.
Context {Identity : Type} {NW : Network Identity} {H2 : H2Upstreams Identity} {WS : WebSocketTunnel}.
Context {CH : ConnectHandler Identity}.
Context {PE : PatternEngines} {CE : CaptureEngine} {RF : RuleFiles} {MD : MockDirs} {JT : JsonText} {SR : StatusReasons}.
Context (config : ProxyConfig) (timeouts : Timeouts) (limits : PoolLimits) (selection : HostPool -> N).
Context (client_identity : ForwardCtx -> Result IoError (option Identity)) (h2_wait total_timeout : N).
Context (proxy_auth : option str) (peer : str) (rules_at : N -> RuleSet) (template_at : N -> TemplateMetadata).
Let size := pc_max_header_size config.
Let count := pc_max_header_count config.
Abbreviation turn := (client_turn config timeouts limits selection client_identity h2_wait total_timeout proxy_auth peer rules_at template_at).
Abbreviation loop := (client_loop config timeouts limits selection client_identity h2_wait total_timeout proxy_auth peer rules_at template_at).

Context {HR : H2Reads Identity size count} {TE : TunnelsEnd}.

Lemma serve_request_reads i head s :
  healthy s ->
  triple (at_input s)
    (serve_request config timeouts limits selection client_identity h2_wait total_timeout proxy_auth peer rules_at template_at i head)
    (fun t w => t = NextRequest -> message_read config (hd_body head) s (w_input w)) anywhere.
Proof.
  intros Hs. unfold serve_request. cbv zeta. destruct (authorize_and_strip_proxy_credentials _ _) as [request|].
  2: { apply triple_after; [auto with stays|done|intros _]. apply triple_ret. intros w Hw Hn.
       destruct (RequestBodyFraming.has_body (hd_body head)) eqn:Hb; [done|]. split; [by rewrite Hw|]. exists [], [].
       rewrite Hw. destruct (hd_body head) as [|n|]; [constructor| |done]. destruct n; [constructor|done]. }
  case_match.
  { intros w _. match goal with |- match ?m w with _ => _ end => destruct (m w) as [w' [a|e]] eqn:E end; [|done].
    apply bind_ok in E as (w1 & [q|] & _ & E); [|by injection E as _ <-].
    apply bind_ok in E as (w2 & u & _ & E). by injection E as _ <-. }
  apply triple_bind with (M := fun r w => match r with
    | Ok c => c = ClientPersistence.KeepAlive -> message_read config (hd_body head) s (w_input w) | Err _ => True end).
  { intros w Hw.
    pose proof (http_head_settles config timeouts limits selection client_identity h2_wait total_timeout (rules_at i) (template_at i)
      (mkRequestHead request (hd_body head))
      (mkConnectionInput peer None [] (if 0 <? i then [lit "h1-client-connection-reused"] else [])
         (requested_client_connection (hd_request head))) s Hs w Hw) as H0.
    unfold caught. by destruct (handle_http_head _ _ _ _ _ _ _ _ _ _ _ w) as [w' [c|e]]. }
  intros [c|e] w Hr.
  - destruct c; cbn [turn_for]; [done|]. specialize (Hr eq_refl).
    refine (triple_after _ _ (w_input w) _ anywhere _ _ _ w eq_refl); [auto with stays|done|intros w0].
    apply triple_after; [stays_auto|done|intros _]. apply triple_ret. intros w1 ->. done.
  - destruct (is_h1_request_input_error e); [|done]. refine (triple_after _ _ (w_input w) _ anywhere _ _ _ w eq_refl); [auto with stays|done|intros _].
    by apply triple_ret.
Qed.

Lemma client_turn_reads : turn_reads size count turn.
Proof.
  intros i w w' Hs H. unfold client_turn in H. apply bind_ok in H as (w1 & r & E & H).
  unfold caught, from_the_client in E.
  destruct (read_request_head_tcp_spec size count (w_input w) Hs) as [Hv Hr].
  fold size count in E. destruct (read_request_head_tcp size count (w_input w)) as [s1 r1]. cbn [fst snd] in *.
  injection E as <- <-. destruct r1 as [[head|]|e].
  - rewrite <- Hv in Hr. destruct (Hr eq_refl) as [Hs1 Hc].
    pose proof (serve_request_reads i head s1 Hs1 (mkWorld s1 (w_exchange w) (w_trace w) (w_ids w) (w_takes w)) eq_refl) as Hm.
    rewrite H in Hm. destruct (Hm eq_refl) as (Hs' & body & trailers & Hf). split; [done|].
    exists head, (carried s1), body, trailers. split; [|done].
    destruct (read_request_head size count (carried (w_input w))) as [m r]. cbn [fst snd] in *. by subst.
  - by injection H as _ H.
  - repeat case_match; try done. apply bind_ok in H as (w2 & u & _ & H). done.
Qed.

End Connection.

(** *** The connections behind CONNECT *)

Section Tunnelled.
Context {Identity : Type} {NW : Network Identity} {H2 : H2Upstreams Identity} {WS : WebSocketTunnel}.
Context {PE : PatternEngines} {CE : CaptureEngine} {RF : RuleFiles} {MD : MockDirs} {JT : JsonText} {SR : StatusReasons}.
Context (config : ProxyConfig) (timeouts : Timeouts) (limits : PoolLimits) (selection : HostPool -> N).
Context (client_identity : ForwardCtx -> Result IoError (option Identity)) (h2_wait : N) (intercept : InterceptConfig).
Context (rules_at : N -> RuleSet) (template_at : N -> TemplateMetadata).
Context (mode : ConnectHttpMode.t) (target peer : str) (session : FlowSession) (hidden : bool).
Let size := pc_max_header_size config.
Let count := pc_max_header_count config.
Abbreviation inner := (inner_turn config timeouts limits selection client_identity h2_wait intercept rules_at template_at
                         mode target peer session hidden).
Context {HR : H2Reads Identity size count} {TE : TunnelsEnd}.

Lemma stays_finish_first i s h : stays (finish_first i s h : StateR (World Identity) IoError unit).
Proof. unfold finish_first, finish_session, begin_session_trace_if_visible. stays_auto. Qed.

Lemma serve_inner_request_reads i head s :
  healthy s ->
  triple (at_input s)
    (serve_inner_request config timeouts limits selection client_identity h2_wait intercept rules_at template_at
       mode target peer session hidden i head)
    (fun t w => t = NextRequest -> message_read config (hd_body head) s (w_input w)) anywhere.
Proof.
  intros Hs. unfold serve_inner_request. cbv zeta. set (head' := ConnectHttpMode.prepare_head mode head target).
  assert (Hb : hd_body head' = hd_body head).
  { subst head'. unfold ConnectHttpMode.prepare_head. destruct mode; [done|]. by case_match. }
  clearbody head'. rewrite <- Hb. do 2 (apply triple_after; [stays_auto|done|intros ?]).
  apply triple_bind with (M := fun r w => match r with
    | Ok c => c = ClientPersistence.KeepAlive -> message_read config (hd_body head') s (w_input w) | Err _ => True end).
  { intros w Hw.
    pose proof (http_head_settles config timeouts limits selection client_identity h2_wait (ic_request_total_timeout intercept)
      (rules_at i) (template_at i) head' (mkConnectionInput peer (ConnectHttpMode.authority mode target)
        (ConnectHttpMode.tls_records mode i) (ConnectHttpMode.flags mode i)
        (requested_client_connection (hd_request head'))) s Hs w Hw) as H0.
    unfold caught. by destruct (handle_http_head _ _ _ _ _ _ _ _ _ _ _ w) as [w' [c|e]]. }
  intros [c|e] w Hr.
  - refine (triple_after _ _ (w_input w) _ anywhere _ _ _ w eq_refl); [auto with stays|done|intros ?].
    destruct c; cbn [turn_for]; [by apply triple_ret|]. specialize (Hr eq_refl).
    do 2 (apply triple_after; [stays_auto|done|intros ?]). apply triple_ret. intros w1 ->. done.
  - destruct (is_h1_request_input_error e); [|done].
    refine (triple_after _ _ (w_input w) _ anywhere _ _ _ w eq_refl); [auto with stays|done|intros ?].
    apply triple_after; [apply stays_finish_first|done|intros ?]. by apply triple_ret.
Qed.

Lemma inner_turn_reads : turn_reads size count inner.
Proof.
  intros i w w' Hs H. unfold inner_turn in H. apply bind_ok in H as (w1 & r & E & H).
  unfold caught, from_the_client in E. fold size count in E.
  destruct (sim_read_request_head size count (w_input w) Hs) as (s1 & Hs1 & Hc & Er). rewrite Er in E.
  injection E as <- <-. destruct (read_request_head size count (carried (w_input w))) as [mid [[head|]|e]]; cbn [fst snd] in *.
  - pose proof (serve_inner_request_reads i head s1 Hs1 (mkWorld s1 (w_exchange w) (w_trace w) (w_ids w) (w_takes w)) eq_refl) as Hm.
    rewrite H in Hm. destruct (Hm eq_refl) as (Hs' & body & trailers & Hf). split; [done|].
    exists head, mid, body, trailers. split; [done|]. by rewrite <- Hc.
  - by apply bind_ok in H as (w2 & u & _ & H).
  - repeat case_match; try done; by apply bind_ok in H as (w2 & u & _ & H).
Qed.

End Tunnelled.

(** *** Tunnels *)

Lemma copy_tunnel_spec fuel total s w :
  healthy s -> fine w -> (length (carried s) < fuel)%nat -> total + blen (carried s) <= U64_MAX ->
  let '(s', w', total', sizes) := copy_tunnel_loop fuel total s w in
  carried s' = [] /\ sk_written w' = sk_written w ++ carried s /\ total' = total + blen (carried s) /\
  sum_N sizes = blen (carried s).
Proof.
  revert total s w. induction fuel as [|fuel IH]; intros total s w Hs Hw Hf Ht; [lia|]. cbn [copy_tunnel_loop].
  destruct (stream_read_spec TUNNEL_BUFFER s Hs ltac:(done)) as (s1 & data & E & Hs1 & Hc & Hl & He). rewrite E.
  destruct data as [|d ds].
  { specialize (He eq_refl). cbn [app] in Hc. rewrite <- Hc, He, app_nil_r, blen_nil. split_and!; [done|done|lia|done]. }
  set (data := d :: ds) in *. rewrite Hc in Hf, Ht. rewrite length_app in Hf. rewrite blen_app in Ht.
  destruct (emits_write data w Hw) as (w1 & x & Ew & Hf1 & _ & Hw1). rewrite Ew.
  assert (Hd : (0 < length data)%nat) by (cbn; lia).
  specialize (IH (saturating_add U64_MAX total (blen data)) s1 w1 Hs1 Hf1 ltac:(lia)).
  unfold saturating_add in *. rewrite N.min_r in * by lia. specialize (IH ltac:(lia)).
  destruct (copy_tunnel_loop fuel (total + blen data) s1 w1) as [[[s2 w2] total2] sizes]. destruct IH as (H1 & H2 & H3 & H4).
  rewrite Hc. autorewrite with blen. split_and!; [done|by rewrite H2, Hw1, app_assoc|lia|].
  change (sum_N (blen data :: sizes)) with (blen data + sum_N sizes). lia.
Qed.

(** A direction of a tunnel passes every byte on, in order, counts them and tells
    the trace of all of them. *)
Lemma tunnel_direction_transparent s w :
  healthy s -> fine w -> blen (carried s) <= U64_MAX ->
  exists s' w' sizes, copy_tunnel_direction s w = (s', w', blen (carried s), sizes) /\
    sk_written w' = sk_written w ++ carried s /\ sum_N sizes = blen (carried s).
Proof.
  intros Hs Hw Hl. unfold copy_tunnel_direction.
  pose proof (copy_tunnel_spec (S (length (carried s))) 0 s w Hs Hw (Nat.lt_succ_diag_r _) ltac:(lia)) as H.
  destruct (copy_tunnel_loop _ _ _ _) as [[[s' w'] total] sizes]. destruct H as (_ & H1 & -> & H2).
  exists s', w', sizes. split_and!; [by rewrite N.add_0_l|done|done].
Qed.

(** ** Sample connections *)

#[export] Instance sample_mock_dirs : MockDirs := {
  is_dir _ := false;
  canonicalize _ := Err (mkIoError NotFound (lit "no such directory"));
  open_ambient_dir _ := Err (mkIoError NotFound (lit "no such directory"));
  open_beneath _ _ := Err (mkIoError NotFound (lit "no such file"));
}.
(** No upstream speaks HTTP/2, and CONNECT ends at once. *)
#[export] Instance no_h2 : H2Upstreams unit := {
  h2_dispatch _ _ := mret None;
  h2_negotiated _ := false;
  h2_connected _ _ _ := fail (mkIoError OtherIo (lit "no HTTP/2"));
}.
#[export] Instance no_connect : ConnectHandler unit := fun _ => mret tt.
(** The copy from the client to the upstream, while the upstream is silent. *)
#[export] Instance copying_tunnel : WebSocketTunnel := fun limit client upstream =>
  match websocket_copy_frames FrameDirection.ClientToServer limit [] (fst client, snd upstream) with
  | ((s, _), Ok (bytes, _)) => ((s, snd client), Ok (bytes, 0, []))
  | ((s, _), Err e) => ((s, snd client), Err e)
  end.
(** A network that connects everybody to an upstream that sends [bytes]. *)
Definition answering (bytes : list N) : Network unit := {|
  nw_clock _ := 0;
  nw_millis _ := 0;
  nw_resolve _ _ _ := Ok [mkSocketAddr (V4 [10; 0; 0; 9]) 80];
  nw_connect _ _ _ := Ok ([Bytes bytes], mkSink [] []);
  nw_tls _ _ _ _ := Err (mkIoError OtherIo (lit "no network"));
  nw_set_timeouts _ _ _ _ := Ok tt;
  nw_set_option _ _ _ := Ok tt;
|}.
Definition sample_world (arrivals : list (list N)) : World unit :=
  mkWorld (map Bytes arrivals) (mkExchange (mkSink [] []) [] [] [] (mkDial 0 [] 0 0 []) [] ∅ []) [] [1; 2; 3] [].
(** The turns of a sample connection under a set of rules. *)
Definition sample_turns (NW : Network unit) (WS : WebSocketTunnel) (rules : list Rule) (n : nat) (w : World unit)
    : option (World unit) :=
  ix ← RuleIndex_build rules;
  after_turns (client_turn (NW := NW) (WS := WS) sample_proxy_config sample_timeouts sample_limits (fun _ => 0)
    (fun _ => Ok None) 1000000000 1000000000 None (lit "10.0.0.1:55") (fun _ => mkRuleSet 3 1 rules ix)
    (fun i => mkTemplateMetadata [] 0 0 [])) n 0 w.
Definition request_text (line : string) (fields : list string) : list N :=
  encode (lit line ++ crlf ++ flat_map (fun f => lit f ++ crlf) fields ++ crlf).
Definition everywhere : Matcher.t := Matcher.Glob (mkGlobMatcher None (lit "**") None None None).
Definition pipelined : list (list N) :=
  [request_text "GET http://a.test/1 HTTP/1.1" ["Host: a.test"]%string ++
   request_text "POST http://a.test/2 HTTP/1.1" ["Host: a.test"; "Content-Length: 3"]%string; lit "ab";
   lit "c" ++ request_text "GET http://a.test/3 HTTP/1.1" ["Host: a.test"]%string].
Definition answer_404 : list Rule := [sample_rule 1 everywhere [Action.Status 404] [] false].
(** A tunnel through which nothing passes. *)
Definition idle_tunnel : WebSocketTunnel := fun _ client _ => (client, Ok (0, 0, [])).
Lemma idle_tunnels_end : TunnelsEnd (WS := idle_tunnel).
Proof. by intros limit client upstream. Qed.
Lemma no_h2_reads size count : H2Reads unit size count.
Proof. split; intros; [by apply triple_ret|]. apply triple_fail. by intros w ? _. Qed.

Lemma sample_connection_healthy : healthy (w_input (sample_world pipelined)).
Proof. repeat constructor; eexists _, _; reflexivity. Qed.
Lemma sample_index_built : exists ix, RuleIndex_build answer_404 = Some ix.
Proof. destruct (RuleIndex_build answer_404) eqn:E; [eauto|]. by vm_compute in E. Qed.
Lemma sample_connection_served : is_some (sample_turns silent_network idle_tunnel answer_404 2 (sample_world pipelined)) = true.
Proof. by vm_compute. Qed.



Definition sample_intercept : InterceptConfig := mkInterceptConfig false false false 1000000 1000000 1000000000.

(** ** Where the connection loses step *)

Lemma checked {A} (p : A -> bool) (o : option A) (Q : A -> Prop) :
  match o with Some a => p a | None => false end = true -> (forall a, p a = true -> Q a) ->
  exists a, o = Some a /\ Q a.
Proof. destruct o; [|done]. eauto. Qed.

(** A frame whose length is over the limit, and a request behind its header. *)
Definition oversized_frame : list N := [129; 255; 1; 0; 0; 0; 0; 0; 0; 0].
Definition smuggled : list N := request_text "GET http://a.test/x HTTP/1.1" ["Host: a.test"]%string.
Definition upgrade : list N :=
  request_text "GET http://10.0.0.9/ws HTTP/1.1" ["Host: 10.0.0.9"; "Connection: Upgrade"; "Upgrade: websocket"]%string.
Definition switching : list N :=
  request_text "HTTP/1.1 101 Switching Protocols" ["Connection: Upgrade"; "Upgrade: websocket"]%string.


(** an error answer to a HEAD request carries a body although such an answer
    ends with its head, and the connection is kept: the client takes the text of
    the error for the head of its next answer. *)
Theorem head_error_answer_has_body :
  exists w', sample_turns silent_network idle_tunnel [] 1
               (sample_world [request_text "HEAD http://10.0.0.9/ HTTP/1.1" ["Host: 10.0.0.9"]%string]) = Some w' /\
    exists head, split_once TERMINATOR (sk_written (ex_client (w_exchange w'))) =
      Some (head, encode (lit "upstream error: no network" ++ [NL])).
Proof.
  apply (checked (fun w' => match split_once TERMINATOR (sk_written (ex_client (w_exchange w'))) with
                            | Some (_, rest) => rest =s? encode (lit "upstream error: no network" ++ [NL])
                            | None => false end)); [by vm_compute|].
  intros w' H. destruct (split_once _ _) as [[head rest]|]; [|done]. exists head. by apply bool_decide_eq_true in H as ->.
Qed.
