(* ===== verification/TraceGuard.v ===== *)
(** * Every session that is started is ended

    The trace of a serving thread (Forward.v, HttpFlow.v, Server.v,
    ConnectFlow.v): a session the trace store has given an id is finished or
    aborted, on every way out of a request. *)
From Stdlib Require Import Ascii String.
From stdpp Require Import base numbers list gmap strings.
From S2P Require Import Prelude Family Utf8 Format NetAddr Io Model Url Engines Index Resolve TraceModel.
From S2P Require Import Template Http1 Http1Write Values Deadline Slots Relay Transforms Mock Actions ResponseBody.
From S2P Require Import ResponseFlow FlowProofs Routing Connect Dial FastResponse FastPool FastProofs FlowSession Forward.
From S2P Require Import HttpFlow Server Intercept ConnectFlow ServerProofs.

(** ** Balanced traces *)

Definition ends_session (id : N) (t : Traced) : bool :=
  match t with TracedFinish s => fs_id s =? id | TracedAbort i => i =? id | _ => false end.
Definition ended (id : N) (events : list Traced) : Prop := id = 0 \/ existsb (ends_session id) events = true.
(** Behind the start of a session with an id comes its end. *)
Fixpoint balanced (events : list Traced) : Prop :=
  match events with
  | [] => True
  | TracedStart id _ :: events' => ended id events' /\ balanced events'
  | _ :: events' => balanced events'
  end.

Lemma ended_app id a b : ended id a \/ ended id b -> ended id (a ++ b).
Proof. unfold ended. rewrite existsb_app, orb_true_iff. tauto. Qed.
Lemma balanced_app a b : balanced a -> balanced b -> balanced (a ++ b).
Proof.
  intros Ha Hb. induction a as [|[id s|id s|s|id] a IH]; cbn [app balanced] in *; auto.
  destruct Ha as [He Ha]. split; [apply ended_app; auto|auto].
Qed.

(** ** Parts and what they tell the trace *)

Section Tidy.
Context {Identity : Type}.
Abbreviation Serving := (StateR (World Identity) IoError).

(** [m] appends events to the trace that satisfy [P]; a value it returns
    satisfies [Q] with them. *)
Definition tells {A} (P : list Traced -> Prop) (m : Serving A) (Q : A -> list Traced -> Prop) : Prop := forall w,
  exists events, w_trace (fst (m w)) = w_trace w ++ events /\ P events /\
    match snd (m w) with Ok a => Q a events | Err _ => True end.
Definition silent {A} (m : Serving A) : Prop := forall w, w_trace (fst (m w)) = w_trace w.
Definition tidy {A} (m : Serving A) (Q : A -> list Traced -> Prop) : Prop := tells balanced m Q.
Definition whatever {A} (a : A) (events : list Traced) : Prop := True.

(** A statement on events that more events before them do not change. *)
Definition suffix_stable {A} (Q : A -> list Traced -> Prop) : Prop := forall a before events, Q a events -> Q a (before ++ events).

Lemma silent_tidy {A} (m : Serving A) : silent m -> tidy m (fun _ events => events = []).
Proof. intros H w. exists []. rewrite H, app_nil_r. split_and!; [done|done|by case_match]. Qed.
Lemma tidy_weaken {A} (m : Serving A) (Q Q' : A -> list Traced -> Prop) :
  tidy m Q -> (forall a events, Q a events -> Q' a events) -> tidy m Q'.
Proof. intros H HQ w. destruct (H w) as (ev & E & B & HA). exists ev. split_and!; [done|done|]. case_match; auto. Qed.
Lemma tidy_bind {A B} (m : Serving A) (k : A -> Serving B) V Q :
  suffix_stable Q -> tidy m (fun a _ => V a) -> (forall a, V a -> tidy (k a) Q) -> tidy (m ≫= k) Q.
Proof.
  intros HQ Hm Hk w. destruct (Hm w) as (ev & E & B1 & HA). unfold mbind, StateR_bind.
  destruct (m w) as [w1 [a|e]]; cbn [fst snd] in *; [|by exists ev].
  destruct (Hk a HA w1) as (ev' & E' & B2 & HB). exists (ev ++ ev'). rewrite E', E, app_assoc.
  split_and!; [done|by apply balanced_app|]. case_match; auto.
Qed.
Lemma tidy_silent_bind {A B} (m : Serving A) (k : A -> Serving B) Q :
  silent m -> (forall a, tidy (k a) Q) -> tidy (m ≫= k) Q.
Proof.
  intros Hm Hk w. specialize (Hm w). unfold mbind, StateR_bind.
  destruct (m w) as [w1 [a|e]]; cbn [fst snd] in *; [|exists []; by rewrite Hm, app_nil_r].
  destruct (Hk a w1) as (ev & E & Hb & HB). exists ev. rewrite E, Hm. done.
Qed.
Lemma tidy_caught {A} (m : Serving A) Q : tidy m Q -> tidy (caught m) (fun r ev => match r with Ok a => Q a ev | Err _ => True end).
Proof. intros H w. destruct (H w) as (ev & E & B & HA). exists ev. unfold caught. destruct (m w) as [w1 r]. done. Qed.

Lemma tidy_ret {A} (a : A) (Q : A -> list Traced -> Prop) : Q a [] -> tidy (mret a : Serving A) Q.
Proof. intros H w. exists []. by rewrite app_nil_r. Qed.
Lemma muted_ret {A} (a : A) : silent (mret a : Serving A).
Proof. done. Qed.
Lemma silent_fail {A} e : silent (fail e : Serving A).
Proof. done. Qed.
Lemma muted_lift {A} (r : Result IoError A) : silent (lift_result r : Serving A).
Proof. done. Qed.
Lemma silent_get : silent (sget : Serving _).
Proof. done. Qed.
Lemma muted_bind {A B} (m : Serving A) (k : A -> Serving B) : silent m -> (forall a, silent (k a)) -> silent (m ≫= k).
Proof.
  intros Hm Hk w. specialize (Hm w). unfold mbind, StateR_bind. destruct (m w) as [w1 [a|e]]; cbn [fst] in *; [by rewrite Hk|done].
Qed.
Lemma silent_caught {A} (m : Serving A) : silent m -> silent (caught m).
Proof. intros H w. specialize (H w). unfold caught. by destruct (m w). Qed.
Lemma silent_exchange {A} (m : StateR (Exchange Identity) IoError A) : silent (on_exchange m).
Proof. intros w. unfold on_exchange. by destruct (m _). Qed.
Lemma silent_answer_from {A} body (m : StateR (Flow Stream) IoError A) : silent (on_answer_from (Identity := Identity) body m).
Proof. intros w. unfold on_answer_from. by destruct (m _). Qed.
Lemma silent_from_client {A} (m : StateR Stream IoError A) : silent (from_the_client (Identity := Identity) m).
Proof. intros w. unfold from_the_client. by destruct (m _). Qed.
Lemma silent_upstream {A} conn (m : StateR Sink IoError A) : silent (on_upstream_sink (Identity := Identity) conn m).
Proof. intros w. unfold on_upstream_sink. by destruct (m _) as [? []]. Qed.
End Tidy.

Create HintDb silent.
#[export] Hint Resolve muted_ret silent_fail muted_lift silent_get silent_exchange silent_answer_from
  silent_from_client silent_upstream : silent.
Ltac silent_step :=
  first
    [ solve [auto with silent]
    | apply silent_caught
    | apply muted_bind; [|intros ?]
    | progress cbv beta zeta
    | match goal with |- silent (match ?x with _ => _ end) => destruct x end ].
Ltac silent_auto := repeat silent_step.

Section SilentMore.
Context {Identity : Type}.
Abbreviation Serving := (StateR (World Identity) IoError).
Lemma silent_answer_only {A} (m : StateR (Flow Stream) IoError A) : silent (on_answer_only m : Serving A).
Proof. unfold on_answer_only. silent_auto. Qed.
Lemma silent_act {A} (m : Act A) : silent (on_act m : Serving A).
Proof. apply silent_answer_only. Qed.
Lemma silent_client {A} (m : StateR Sink IoError A) : silent (to_the_client m : Serving A).
Proof. apply silent_answer_only. Qed.
Lemma silent_tell events : silent (tell events : Serving unit).
Proof. apply silent_answer_only. Qed.

(** ** Sessions *)

Lemma tidy_note t (Q : unit -> list Traced -> Prop) :
  match t with TracedStart _ _ => False | _ => True end -> Q tt [t] -> tidy (trace_note t : Serving unit) Q.
Proof. intros Ht HQ w. exists [t]. split_and!; [done|by destruct t|done]. Qed.
Lemma tidy_command t : match t with TracedStart _ _ => False | _ => True end ->
  tidy (trace_command t : Serving bool) (fun _ events => events = [t]).
Proof. intros Ht w. exists [t]. split_and!; [done|by destruct t|done]. Qed.

(** Recording a session ends it. *)
Lemma record_session_ends s hidden :
  tells (fun events => balanced events /\ ended (fs_id s) events) (record_session_if_visible s hidden : Serving bool) whatever.
Proof.
  intros w. unfold record_session_if_visible, begin_session_trace_if_visible, mbind, StateR_bind, ended.
  destruct hidden; destruct (fs_id s =? 0) eqn:E; cbn.
  - exists []. rewrite app_nil_r. apply N.eqb_eq in E. split_and!; [done|done|auto|done].
  - exists [TracedAbort (fs_id s)]. cbn. rewrite N.eqb_refl. split_and!; [done|done|auto|done].
  - apply N.eqb_eq in E. set (id := default 0 (head (w_ids w))).
    exists [TracedStart id s; TracedRequest id (with_id s id); TracedFinish (with_id s id)].
    rewrite <- !app_assoc. split_and!; [done| |auto|done].
    split; [|done]. right. cbn [existsb ends_session fs_id with_id orb]. by rewrite N.eqb_refl.
  - exists [TracedFinish s]. cbn. rewrite N.eqb_refl. split_and!; [done|done|auto|done].
Qed.
(** With its guard, a session that was started is ended. *)
Lemma guarded_ends {A} id (m : Serving (A * bool)) :
  tidy m (fun out events => snd out = true -> ended id events) ->
  tells (fun events => balanced events /\ ended id events) (guarded id m) whatever.
Proof.
  intros H w. destruct (H w) as (ev & E & B & HA). unfold guarded, caught, mbind, StateR_bind.
  destruct (m w) as [w1 [[a disarmed]|e]]; cbn [fst snd] in *.
  - destruct disarmed; cbn [orb]; [exists ev; cbn; split_and!; auto; done|].
    destruct (id =? 0) eqn:Ei.
    { exists ev. cbn. rewrite E. apply N.eqb_eq in Ei. split_and!; [done|done|by left|done]. }
    exists (ev ++ [TracedAbort id]). cbn. rewrite E, app_assoc. split_and!; [done|by apply balanced_app| |done].
    apply ended_app. right. right. cbn. by rewrite N.eqb_refl.
  - destruct (id =? 0) eqn:Ei.
    { exists ev. cbn. rewrite E. apply N.eqb_eq in Ei. split_and!; [done|done|by left|done]. }
    exists (ev ++ [TracedAbort id]). cbn. rewrite E, app_assoc. split_and!; [done|by apply balanced_app| |done].
    apply ended_app. right. right. cbn. by rewrite N.eqb_refl.
Qed.
End SilentMore.
#[export] Hint Resolve silent_answer_only silent_act silent_client silent_tell : silent.

(** ** A request *)

(** What the HTTP/2 code promises of the trace: it is silent. *)
Class H2Silent (Identity : Type) {H2 : H2Upstreams Identity} := {
  h2_dispatch_silent ctx body : silent (h2_dispatch ctx body);
  h2_connected_silent ctx conn body : silent (h2_connected ctx conn body);
}.

Section Requests.
Context {Identity : Type} {NW : Network Identity} {H2 : H2Upstreams Identity} {WS : WebSocketTunnel} {HS : H2Silent Identity}.
Context {PE : PatternEngines} {CE : CaptureEngine} {RF : RuleFiles} {MD : MockDirs} {JT : JsonText} {SR : StatusReasons}.
Context (config : ProxyConfig) (timeouts : Timeouts) (limits : PoolLimits) (selection : HostPool -> N).
Context (client_identity : ForwardCtx -> Result IoError (option Identity)) (h2_wait : N).
Abbreviation Serving := (StateR (World Identity) IoError).

Lemma silent_forward input : silent (forward config timeouts limits selection client_identity input : Serving _).
Proof.
  assert (Hs : forall ctx conn body, silent (send_body config ctx conn body : Serving _)).
  { intros ctx conn [body|]; unfold send_body, relay_body; silent_auto.
    intros w. by destruct (relay_request_body _ _ _ _) as [[? ?] ?]. }
  assert (Hr : forall ctx conn, silent (read_response_head_with_ttfb config limits ctx conn : Serving _)).
  { intros ctx conn. unfold read_response_head_with_ttfb. apply muted_bind; [auto with silent|intros ?]. cbv zeta.
    destruct (read_response_head _ _ _). silent_auto. }
  assert (Hw : forall ctx conn head matched actions request,
             silent (finish_websocket config ctx conn head matched actions request : Serving _)).
  { intros. unfold finish_websocket. silent_auto. intros w. by destruct (websocket_tunnel _ _ _) as [[? ?] ?]. }
  assert (Hc : forall ctx h2 body, silent (forward_connected config timeouts limits client_identity ctx h2 body : Serving _)).
  { intros. unfold forward_connected, forward_unpooled.
    pose proof h2_connected_silent. silent_auto. }
  unfold forward. pose proof h2_dispatch_silent. silent_auto.
Qed.

(** Parts that only return sessions of the same id. *)
Definition same_id {A} (session : A -> FlowSession) (s : FlowSession) (m : Act A) : Prop :=
  forall c c' a, m c = (c', Ok a) -> fs_id (session a) = fs_id s.
Lemma tidy_act_bind {A B} (m : Act A) (k : A -> Serving B) session s Q :
  same_id session s m -> (forall a, fs_id (session a) = fs_id s -> tidy (k a) Q) -> tidy (on_act m ≫= k) Q.
Proof.
  intros Hm Hk w. pose proof (silent_act m w) as Hw. unfold mbind, StateR_bind.
  destruct (on_act m w) as [w1 [a|e]] eqn:E; cbn [fst snd] in *; [|exists []; by rewrite Hw, app_nil_r].
  apply on_act_ok in E as (_ & c & c' & E). destruct (Hk a (Hm _ _ _ E) w1) as (ev & E' & Hb & HB).
  exists ev. by rewrite E', Hw.
Qed.

Lemma trace_tags_same_id meta s actions : same_id id s (apply_trace_tags config meta s actions).
Proof. intros c c' a H. apply bind_ok in H as (c1 & flags & _ & H). by injection H as _ <-. Qed.
Lemma policy_flags_same_id meta s url actions :
  same_id id s (apply_upstream_tls_policy_flags config meta selection s url actions).
Proof.
  intros c c' a H. unfold apply_upstream_tls_policy_flags in H. case_match; [case_match|]; [by injection H as _ <-| |by injection H as _ <-].
  apply bind_ok in H as (c1 & found & _ & H). injection H as _ <-. repeat case_match; done.
Qed.
Lemma forward_result_same_id meta s hidden result request :
  same_id (fun out => fst (fst out)) s (apply_forward_result config meta s hidden result request).
Proof.
  intros c c' a H. unfold apply_forward_result in H. apply bind_ok in H as (c1 & s1 & E & H). injection H as _ <-.
  apply trace_tags_same_id in E. cbn [fst]. repeat case_match; exact E.
Qed.
Lemma forward_error_same_id s planned a b e : fs_id (apply_forward_error s planned a b e) = fs_id s.
Proof. unfold apply_forward_error, apply_upstream_pool_error_flags. cbv zeta. repeat case_match; reflexivity. Qed.
Lemma connection_flag_same_id s version connection : fs_id (apply_client_connection_flag s version connection) = fs_id s.
Proof. unfold apply_client_connection_flag. by case_match. Qed.

(** The outcome of a request: a session that was taken is ended. *)
Definition taken_ends (id : N) (out : ClientPersistence.t * bool) (events : list Traced) : Prop :=
  snd out = true -> ended id events.
Lemma taken_stable id : suffix_stable (taken_ends id).
Proof. intros out before events H Ht. apply ended_app. auto. Qed.

Lemma recorded_tidy s hidden (connection : ClientPersistence.t) id :
  fs_id s = id -> tidy (taken ← record_session_if_visible s hidden; mret (connection, taken) : Serving _) (taken_ends id).
Proof.
  intros <- w. destruct (record_session_ends s hidden w) as (ev & E & [Hb He] & _). exists ev.
  unfold mbind, StateR_bind, taken_ends. destruct (record_session_if_visible s hidden w) as [w1 [t|e]]; cbn in *; auto.
Qed.

Ltac recorded :=
  apply tidy_silent_bind; [auto with silent|intros _]; apply recorded_tidy;
  unfold local_session; rewrite connection_flag_same_id; reflexivity.

Lemma forward_and_record_tidy input req meta actions url s hidden :
  tidy (forward_and_record config timeouts limits selection client_identity h2_wait input req meta actions url s hidden : Serving _)
    (taken_ends (fs_id s)).
Proof.
  unfold forward_and_record. cbv zeta.
  apply tidy_silent_bind; [auto with silent|intros planned]. apply tidy_silent_bind; [auto with silent|intros _].
  apply tidy_silent_bind; [apply silent_caught, silent_forward|intros forwarded].
  apply tidy_silent_bind; [auto with silent|intros w0]. set (s' := with_tls s _).
  change (fs_id s) with (fs_id s'). clearbody s'. destruct forwarded as [[result request]|e].
  - eapply tidy_act_bind; [apply forward_result_same_id|]. intros [[s1 h1] c] Hs. cbn [fst] in Hs. rewrite <- Hs.
    apply recorded_tidy. apply connection_flag_same_id.
  - apply tidy_bind with (V := fun c => fs_id (fst (fst c)) = fs_id s'); [apply taken_stable| |].
    + apply tidy_silent_bind; [auto with silent|intros answered]. apply tidy_ret. apply forward_error_same_id.
    + intros [[s1 h1] c] Hs. cbn [fst] in Hs. rewrite <- Hs. apply recorded_tidy, connection_flag_same_id.
Qed.

Lemma answer_request_tidy input full_url meta actions connection s hidden :
  tidy (answer_request config timeouts limits selection client_identity h2_wait input full_url meta actions connection s hidden : Serving _)
    (taken_ends (fs_id s)).
Proof.
  unfold answer_request. cbv zeta. apply tidy_silent_bind; [auto with silent|intros url].
  apply tidy_silent_bind; [auto with silent|intros mtls]. set (s1 := push_flag_if _ mtls _).
  assert (fs_id s1 = fs_id s) as <- by (subst s1; unfold url_flags; by case_match). clearbody s1.
  eapply tidy_act_bind; [apply policy_flags_same_id|]. intros s2 Hs2. rewrite <- Hs2. cbn [id].
  apply tidy_silent_bind; [auto with silent|intros req].
  apply tidy_bind with (V := fun _ => True); [apply taken_stable| |intros _ _].
  { unfold emit_request. case_match; [by apply tidy_ret|by apply tidy_note]. }
  set (s3 := with_sides s2 _ _). change (fs_id s2) with (fs_id s3). clearbody s3.
  apply tidy_silent_bind; [silent_auto|intros [?|e]].
  2: { unfold finish_request_total_timeout. recorded. }
  destruct (first_status actions) as [[status item]|].
  { unfold answer_status. recorded. }
  apply tidy_silent_bind; [auto with silent|intros [[u code]|]].
  { unfold answer_redirect. recorded. }
  apply tidy_silent_bind; [auto with silent|intros [mock|]].
  { unfold answer_mock. recorded. }
  apply forward_and_record_tidy.
Qed.

(** Starting a session before a part that ends it. *)
Lemma start_tidy {A} s (k : N -> Serving A) :
  (forall id, tells (fun events => balanced events /\ ended id events) (k id) whatever) ->
  tidy (id ← trace_start s; k id) whatever.
Proof.
  intros Hk w. unfold mbind, StateR_bind, trace_start. set (id := default 0 (head (w_ids w))).
  destruct (Hk id (mkWorld (w_input w) (w_exchange w) (w_trace w ++ [TracedStart id s]) (tail (w_ids w)) (w_takes w)))
    as (ev & E & [Hb He] & _).
  exists (TracedStart id s :: ev). rewrite E. cbn [w_trace]. rewrite <- app_assoc. split_and!; [done|done|by case_match].
Qed.
Lemma tells_tidy {A} P (m : Serving A) : (forall events, P events -> balanced events) -> tells P m whatever -> tidy m whatever.
Proof. intros HP H w. destruct (H w) as (ev & E & Hp & HQ). exists ev. auto. Qed.

Lemma guarded_request_ends input url meta actions connection s hidden id :
  tells (fun events => balanced events /\ ended id events)
    (guarded id
       (slept ← caught (on_answer_only (sleep_all (hi_deadline input) (request_delays actions)));
        match slept with
        | Err e => finish_request_total_timeout (hi_request input) (with_id s id) hidden connection e
        | Ok _ => answer_request config timeouts limits selection client_identity h2_wait input url meta actions
                    connection (with_id s id) hidden
        end) : Serving _) whatever.
Proof.
  apply guarded_ends. change id with (fs_id (with_id s id)) at 2.
  apply tidy_silent_bind; [silent_auto|intros [?|e]]; [apply answer_request_tidy|].
  unfold finish_request_total_timeout. recorded.
Qed.
Lemma stream_inner_tidy input :
  tidy (handle_http_stream_inner config timeouts limits selection client_identity h2_wait input : Serving _) whatever.
Proof.
  unfold handle_http_stream_inner. cbv zeta. apply tidy_silent_bind; [auto with silent|intros url].
  apply tidy_silent_bind; [auto with silent|intros [s [|]]].
  - apply tidy_silent_bind; [auto with silent|intros id]. eapply tells_tidy; [|apply guarded_request_ends]. by intros ? [].
  - apply start_tidy. intros id. apply guarded_request_ends.
Qed.

Lemma http_head_tidy total_timeout rules template head connection :
  tidy (handle_http_head config timeouts limits selection client_identity h2_wait total_timeout rules template head connection
          : Serving _) whatever.
Proof.
  unfold handle_http_head, new_deadline, read_body_bounded. apply tidy_silent_bind; [silent_auto|intros deadline]. cbv zeta.
  apply tidy_silent_bind; [silent_auto|intros connection']. case_match; [apply stream_inner_tidy|].
  apply tidy_silent_bind; [auto with silent|intros url].
  apply tidy_silent_bind; [silent_auto|intros [body trailers|prefix reader]]; apply stream_inner_tidy.
Qed.
End Requests.
Create HintDb tidy.
Lemma whatever_stable {A} : suffix_stable (whatever (A := A)).
Proof. done. Qed.
#[export] Hint Resolve whatever_stable : tidy.
Lemma tidy_then {Identity A B} (m : StateR (World Identity) IoError A) (k : A -> StateR (World Identity) IoError B) :
  tidy m whatever -> (forall a, tidy (k a) whatever) -> tidy (m ≫= k) whatever.
Proof. intros Hm Hk. by apply tidy_bind with (V := fun _ => True). Qed.
Lemma tidy_of_silent {Identity A} (m : StateR (World Identity) IoError A) : silent m -> tidy m whatever.
Proof. intros H. by eapply tidy_weaken; [apply silent_tidy|]. Qed.
Lemma tidy_caught_whatever {Identity A} (m : StateR (World Identity) IoError A) : tidy m whatever -> tidy (caught m) whatever.
Proof. intros H. by eapply tidy_weaken; [apply tidy_caught|]. Qed.
#[export] Hint Resolve http_head_tidy tidy_caught_whatever : tidy.
Ltac tidy_step :=
  first
    [ solve [auto with tidy]
    | solve [apply tidy_of_silent; silent_auto]
    | apply tidy_then; [|intros ?]
    | progress cbv beta zeta
    | match goal with |- tidy (match ?x with _ => _ end) _ => destruct x end ].
Ltac tidy_auto := repeat tidy_step.

(** ** Connections *)

(** CONNECT as the loop of a connection needs it. *)
Class TidyConnect (Identity : Type) {CH : ConnectHandler Identity} :=
  connect_tidy req : tidy (handle_connect req : StateR (World Identity) IoError unit) whatever.

Section Connections.
Context {Identity : Type} {NW : Network Identity} {H2 : H2Upstreams Identity} {WS : WebSocketTunnel} {HS : H2Silent Identity}.
Context {CH : ConnectHandler Identity} {TC : TidyConnect Identity}.
Context {PE : PatternEngines} {CE : CaptureEngine} {RF : RuleFiles} {MD : MockDirs} {JT : JsonText} {SR : StatusReasons}.
Context (config : ProxyConfig) (timeouts : Timeouts) (limits : PoolLimits) (selection : HostPool -> N).
Context (client_identity : ForwardCtx -> Result IoError (option Identity)) (h2_wait total_timeout : N).
Context (proxy_auth : option str) (peer : str) (rules_at : N -> RuleSet) (template_at : N -> TemplateMetadata).

Lemma client_turn_tidy i :
  tidy (client_turn config timeouts limits selection client_identity h2_wait total_timeout proxy_auth peer rules_at template_at i
          : StateR (World Identity) IoError Turn) whatever.
Proof.
  unfold client_turn, serve_request, collect_connect_request, read_body_bounded, new_deadline, refuse_head.
  pose proof connect_tidy. tidy_auto.
Qed.
Lemma client_loop_tidy fuel i :
  tidy (client_loop config timeouts limits selection client_identity h2_wait total_timeout proxy_auth peer rules_at template_at
          fuel i : StateR (World Identity) IoError unit) whatever.
Proof.
  revert i. induction fuel as [|fuel IH]; intros i; cbn [client_loop]; [by apply tidy_of_silent|].
  apply tidy_then; [apply client_turn_tidy|]. intros [|]; [by apply tidy_ret|apply IH].
Qed.
End Connections.

(** *** Behind CONNECT *)

(** What serving HTTP/2 to an intercepted client promises of the trace. *)
Class TidyH2Server (Identity : Type) {CT : ClientTls Identity} :=
  serve_h2_tidy plain client target record flags :
    tidy (serve_h2_mitm plain client target record flags : StateR (World Identity) IoError unit) whatever.

Section ConnectTidy.
Context {Identity : Type} {NW : Network Identity} {H2 : H2Upstreams Identity} {WS : WebSocketTunnel} {HS : H2Silent Identity}.
Context {CT : ClientTls Identity} {TH : TidyH2Server Identity} {TT : TlsTunnels} {PB : Probe}.
Context {PE : PatternEngines} {CE : CaptureEngine} {RF : RuleFiles} {MD : MockDirs} {JT : JsonText} {SR : StatusReasons}.
Context (config : ProxyConfig) (timeouts : Timeouts) (limits : PoolLimits) (selection : HostPool -> N).
Context (client_identity : ForwardCtx -> Result IoError (option Identity)) (h2_wait : N) (intercept : InterceptConfig).
Context (connect_rules : RuleSet) (connect_template : TemplateMetadata).
Context (rules_at : N -> RuleSet) (template_at : N -> TemplateMetadata).
Abbreviation Serving := (StateR (World Identity) IoError).
Abbreviation Intercepting := (StateR (World Identity * MitmFailureCache) IoError).

(** Starting a session where it is visible, before a part that ends it. *)
Lemma begin_tidy {A} s hidden (k : FlowSession -> Serving A) :
  (forall s, tells (fun events => balanced events /\ ended (fs_id s) events) (k s) whatever) ->
  tidy (s ← begin_session_trace_if_visible s hidden; k s) whatever.
Proof.
  intros Hk w. unfold begin_session_trace_if_visible. case_match.
  { destruct (Hk s w) as (ev & E & [Hb _] & HQ). by exists ev. }
  set (id := default 0 (head (w_ids w))).
  destruct (Hk (with_id s id) (mkWorld (w_input w) (w_exchange w)
     ((w_trace w ++ [TracedStart id s]) ++ [TracedRequest id (with_id s id)]) (tail (w_ids w)) (w_takes w))) as (ev & E & [Hb He] & HQ).
  exists (TracedStart id s :: TracedRequest id (with_id s id) :: ev).
  unfold mbind, StateR_bind, trace_start, trace_note in *. cbn in *. fold id. rewrite E, <- !app_assoc.
  split_and!; [done| |done|clear HQ; by case_match]. destruct He as [He|He]; [by left|right]. cbn. exact He.
Qed.
Lemma finish_session_ends s hidden :
  tells (fun events => balanced events /\ ended (fs_id s) events) (finish_session s hidden : Serving bool) whatever.
Proof.
  intros w. unfold finish_session. destruct (hidden || negb (fs_id s =? 0)) eqn:E.
  - unfold begin_session_trace_if_visible. rewrite E. apply record_session_ends.
  - destruct (begin_tidy s hidden (fun s => record_session_if_visible s hidden) ltac:(intros; apply record_session_ends) w)
      as (ev & E' & Hb & HQ). exists ev. apply orb_false_iff in E as [_ E]. apply negb_false_iff, N.eqb_eq in E.
    split_and!; [done|done|by left|done].
Qed.
Lemma finish_session_tidy s hidden : tidy (finish_session s hidden : Serving bool) whatever.
Proof. eapply tells_tidy; [|apply finish_session_ends]. by intros ? []. Qed.
Lemma finish_first_tidy i s hidden : tidy (finish_first i s hidden : Serving unit) whatever.
Proof. unfold finish_first. pose proof finish_session_tidy. tidy_auto. Qed.

Lemma inner_loop_tidy mode target peer session hidden fuel i :
  tidy (inner_loop config timeouts limits selection client_identity h2_wait intercept rules_at template_at mode target peer
          session hidden fuel i : Serving unit) whatever.
Proof.
  revert i. induction fuel as [|fuel IH]; intros i; cbn [inner_loop]; [by apply tidy_of_silent|].
  apply tidy_then; [|intros [|]; [by apply tidy_ret|apply IH]].
  unfold inner_turn, serve_inner_request, refuse_inner_head. pose proof finish_first_tidy. tidy_auto.
Qed.

Lemma finished_tidy s hidden id :
  fs_id s = id -> tidy (taken ← finish_session s hidden; mret (tt, taken) : Serving _) (fun out events => snd out = true -> ended id events).
Proof.
  intros <- w. destruct (finish_session_ends s hidden w) as (ev & E & [Hb He] & _). exists ev.
  unfold mbind, StateR_bind. destruct (finish_session s hidden w) as [w1 [t|e]]; cbn in *; auto.
Qed.
Lemma silent_tunnel_copy upstream id : silent (tunnel_copy upstream id : Serving _).
Proof.
  unfold tunnel_copy, tunnel_copy_tcp. case_match; apply muted_bind; try done; intros w0; cbv zeta.
  - destruct (tunnel_copy_tls _ _) as [[? ?] [? ?]]. by silent_auto.
  - apply muted_bind; [auto with silent|intros [?|?]]; [|done]. apply muted_bind; [auto with silent|intros [?|?]]; [|done].
    destruct (copy_tunnel_direction _ _) as [[[? ?] ?] ?]. destruct (copy_tunnel_direction _ _) as [[[? ?] ?] ?]. by silent_auto.
Qed.
Lemma upstream_error_tidy target s hidden e established :
  tidy (finish_upstream_error target s hidden e established : Serving _) (fun out events => snd out = true -> ended (fs_id s) events).
Proof. unfold finish_upstream_error. cbv zeta. apply tidy_silent_bind; [silent_auto|intros _]. by apply finished_tidy. Qed.
Lemma passthrough_tidy target actions meta s hidden deadline established :
  tidy (handle_passthrough config timeouts selection target actions meta s hidden deadline established : Serving unit) whatever.
Proof.
  unfold handle_passthrough. apply begin_tidy. intros s1. apply guarded_ends.
  apply tidy_silent_bind; [auto with silent|intros url]. apply tidy_silent_bind; [silent_auto|intros [route|e]].
  2: { apply upstream_error_tidy. }
  cbv zeta. set (s2 := with_outcome _ _ _ _). change (fs_id s1) with (fs_id s2). clearbody s2.
  apply tidy_silent_bind; [silent_auto|intros [upstream|e]]; [|apply upstream_error_tidy].
  unfold pass_through, write_established. apply tidy_silent_bind; [silent_auto|intros _].
  apply tidy_silent_bind; [silent_auto|intros _]. apply tidy_silent_bind; [apply silent_tunnel_copy|intros copied].
  by apply finished_tidy.
Qed.

(** With the memory of failures beside the world. *)
Definition tidy_both {A} (m : Intercepting A) : Prop := forall s,
  exists events, w_trace (fst (fst (m s))) = w_trace (fst s) ++ events /\ balanced events.
Lemma tidy_both_bind {A B} (m : Intercepting A) (k : A -> Intercepting B) :
  tidy_both m -> (forall a, tidy_both (k a)) -> tidy_both (m ≫= k).
Proof.
  intros Hm Hk s. destruct (Hm s) as (ev & E & B1). unfold mbind, StateR_bind.
  destruct (m s) as [s1 [a|e]]; cbn [fst snd] in *; [|by exists ev].
  destruct (Hk a s1) as (ev' & E' & B2). exists (ev ++ ev'). rewrite E', E, app_assoc. split; [done|by apply balanced_app].
Qed.
Lemma tidy_both_ret {A} (a : A) : tidy_both (mret a).
Proof. intros s. exists []. by rewrite app_nil_r. Qed.
Lemma tidy_both_world {A} (m : Serving A) : tidy m whatever -> tidy_both (on_world m).
Proof. intros H s. destruct (H (fst s)) as (ev & E & Hb & _). exists ev. unfold on_world. by destruct (m (fst s)). Qed.
Lemma tidy_both_update {A} (f : MitmFailureCache -> MitmFailureCache * A) : tidy_both (update_failures f).
Proof. intros s. exists []. unfold update_failures. destruct (f (snd s)). by rewrite app_nil_r. Qed.
Lemma tidy_both_failures {A} (f : MitmFailureCache -> N -> MitmFailureCache * A) : tidy_both (on_failures f).
Proof.
  unfold on_failures. apply tidy_both_bind; [|intros ?; apply tidy_both_update].
  apply tidy_both_world, tidy_of_silent. silent_auto.
Qed.
Lemma silent_handshake host : silent (client_handshake intercept host : Serving _).
Proof. unfold client_handshake. silent_auto. Qed.
Lemma silent_probe deadline : silent (probe_protocol intercept deadline : Serving _).
Proof. unfold probe_protocol. silent_auto. Qed.
Lemma silent_enter plain : silent (enter_tls plain : Serving _).
Proof. done. Qed.

Ltac both_step :=
  first
    [ solve [apply tidy_both_ret] | solve [apply tidy_both_update] | solve [apply tidy_both_failures]
    | solve [apply tidy_both_world; first [apply finish_session_tidy | apply passthrough_tidy | apply inner_loop_tidy
        | apply serve_h2_tidy
        | apply tidy_of_silent; first [apply silent_probe | apply silent_caught, silent_handshake | apply silent_enter | silent_auto]]]
    | apply tidy_both_bind; [|intros ?]
    | progress cbv beta zeta
    | match goal with |- tidy_both (match ?x with _ => _ end) => destruct x end ].

Lemma connect_request_tidy req peer :
  tidy_both (handle_connect_request config timeouts limits selection client_identity h2_wait intercept connect_rules
               connect_template rules_at template_at req peer).
Proof.
  assert (Hs : forall mode target s hidden, tidy_both (on_world (serve_inner config timeouts limits selection client_identity
             h2_wait intercept rules_at template_at mode target s hidden))).
  { intros. apply tidy_both_world. intros w. apply inner_loop_tidy. }
  unfold handle_connect_request, inspect, handle_inspected, handle_connect_mitm, record_handshake_failure, write_established.
  repeat first [apply Hs | both_step].
Qed.
Lemma connect_handler_tidy failures peer :
  TidyConnect Identity (CH := connect_handler config timeouts limits selection client_identity h2_wait intercept connect_rules
                       connect_template rules_at template_at failures peer).
Proof.
  intros req w. destruct (connect_request_tidy req peer (w, failures)) as (ev & E & Hb). exists ev.
  unfold handle_connect, connect_handler. destruct (handle_connect_request _ _ _ _ _ _ _ _ _ _ _ _ _ _) as [[w1 c1] r].
  split_and!; [done|done|by case_match].
Qed.

End ConnectTidy.

(** A client connection with two requests that rules answer. *)
#[export] Instance no_client_tls : ClientTls unit := {
  mitm_server_config _ _ := Err (mkIoError OtherIo (lit "no certificate"));
  server_connection _ _ := Ok tt;
  tls_handshake _ _ _ _ := Err (mkIoError OtherIo (lit "no TLS"));
  speaks_h2 _ := false;
  serve_h2_mitm _ _ _ _ _ := mret tt;
}.
#[export] Instance no_tls_tunnels : TlsTunnels := {
  upstream_is_tls _ := false;
  tunnel_copy_tls client _ := (client, ([], []));
}.
#[export] Instance no_looks : Probe := fun _ _ => [].
Lemma no_h2_silent : H2Silent unit.
Proof. by split. Qed.
Lemma no_h2_server_tidy : TidyH2Server unit.
Proof. intros plain client target record flags. by apply tidy_ret. Qed.
