(* ===== verification/RuleStore.v ===== *)
(** * The rule store

    crates/rsproxy-engine/src/rule_store.rs and rule_store/storage.rs: the rule
    groups on disk, the snapshot published to requests, and the updates that
    change both.  The groups of a rules directory are files [name.rules] and a
    manifest [groups.toml] that gives their order and whether they are enabled.
    The TOML library is the class [ManifestFormat]; a panic of the parser is
    modelled with the lock that it poisons. *)
From Stdlib Require Import Ascii String.
From stdpp Require Import base numbers list gmap strings sorting.
From S2P Require Import Prelude Family Utf8 Format NetAddr Io Disk Model Url Syntax Engines Index Resolve.
From S2P Require Import Http1 Values ParseRule Mock.

(** ** Data *)

Record RuleGroup := mkRuleGroup { gr_name : str; gr_enabled : bool; gr_text : str }.
Record RuleSnapshot := mkRuleSnapshot { sp_groups : list RuleGroup; sp_compiled : RuleSet }.
Module RuleStoreError.
Inductive t :=
| Invalid (message : str) | NotFound (group : str) | Parse (errors : list RuleError)
| Io (context : str) (source : IoError) | Watch (source : str).
End RuleStoreError.
(** How a call can fail to return a value. *)
Inductive StoreFailure := Refused (e : RuleStoreError.t) | Panicked.

Record ManifestGroup := mkManifestGroup { mg_name : str; mg_enabled : bool }.
Record RuleManifest := mkRuleManifest { rm_version : N; rm_groups : list ManifestGroup }.
Class ManifestFormat := {
  manifest_from_toml : str -> Result str RuleManifest;
  manifest_to_toml : RuleManifest -> Result str str;
}.

#[global] Instance RuleGroup_eq_dec : EqDecision RuleGroup.
Proof. solve_decision. Defined.

(** Counters of the watcher (rule_store/watch.rs). *)
Record RuleWatchStatus := mkWatchStatus {
  ws_events : N; ws_dropped_events : N; ws_reloads : N; ws_failures : N;
  ws_last_reload_ms : option N; ws_last_error : option str }.

(** The store: the files with the faults to come, the published snapshot,
    whether the update lock is poisoned, the watcher's status, the number that
    [next_ruleset_version] gives next, and the readings of the clock to come. *)
Record RuleStore := mkRuleStore {
  st_disk : Disk;
  st_snapshot : RuleSnapshot;
  st_poisoned : bool;
  st_status : RuleWatchStatus;
  st_version : N;
  st_times : list N;
}.
Abbreviation Storing := (StateR RuleStore StoreFailure) (only parsing).

Section Fields.
Context (s : RuleStore).
Definition with_disk (d : Disk) : RuleStore :=
  mkRuleStore d (st_snapshot s) (st_poisoned s) (st_status s) (st_version s) (st_times s).
Definition with_snapshot (snapshot : RuleSnapshot) : RuleStore :=
  mkRuleStore (st_disk s) snapshot (st_poisoned s) (st_status s) (st_version s) (st_times s).
Definition with_poison : RuleStore :=
  mkRuleStore (st_disk s) (st_snapshot s) true (st_status s) (st_version s) (st_times s).
Definition with_status (status : RuleWatchStatus) : RuleStore :=
  mkRuleStore (st_disk s) (st_snapshot s) (st_poisoned s) status (st_version s) (st_times s).
Definition with_version (version : N) : RuleStore :=
  mkRuleStore (st_disk s) (st_snapshot s) (st_poisoned s) (st_status s) version (st_times s).
Definition with_times (times : list N) : RuleStore :=
  mkRuleStore (st_disk s) (st_snapshot s) (st_poisoned s) (st_status s) (st_version s) times.
End Fields.

Definition refuse {A} (e : RuleStoreError.t) : Storing A := fail (Refused e).
Definition invalid {A} (message : str) : Storing A := refuse (RuleStoreError.Invalid message).
Definition on_disk {A} (m : Io A) : StateR RuleStore IoError A := fun s =>
  let '(d, r) := m (st_disk s) in (with_disk s d, r).
(** The value or the error of a disk operation. *)
Definition attempted {A} (m : Io A) : Storing (Result IoError A) := fun s =>
  let '(s, r) := on_disk m s in (s, Ok r).
(** [map_err(|source| io_error(context, source))] *)
Definition io_context {A} (context : str) (m : Io A) : Storing A :=
  r ← attempted m;
  match r with Ok a => mret a | Err e => refuse (RuleStoreError.Io context e) end.
Definition ask_file (path : Path) : Storing bool := fun s =>
  let '(d, b) := is_file path (st_disk s) in (with_disk s d, Ok b).
Definition now_millis : Storing N := fun s =>
  match st_times s with [] => (s, Ok 0) | t :: ts => (with_times s ts, Ok t) end.

(** An error as a value; a panic goes on. *)
Definition caught_refusal {A} (m : Storing A) : Storing (Result RuleStoreError.t A) := fun s =>
  match m s with
  | (s, Ok a) => (s, Ok (Ok a))
  | (s, Err (Refused e)) => (s, Ok (Err e))
  | (s, Err Panicked) => (s, Err Panicked)
  end.

(** ** Names *)

Definition MANIFEST_VERSION : N := 1.
Definition MANIFEST_FILE : str := lit "groups.toml".
Definition MAX_RULE_MANIFEST_BYTES : N := 1024 * 1024.
Definition DEFAULT_GROUP : str := lit "default".

Definition group_name_ok (name : str) : bool :=
  negb (is_emptyb name || (MAX_RULE_GROUP_NAME_BYTES <? len name) || starts_with (lit ".") name ||
        negb (forallb (fun b => is_ascii_alphanumeric b || existsb (N.eqb b) (lit "._-")) (encode name))).
Definition validate_group_name (name : str) : Storing unit :=
  if group_name_ok name then mret tt
  else invalid (lit "invalid rule group name `" ++ name ++ lit "`; use 1-" ++ show_N MAX_RULE_GROUP_NAME_BYTES ++
                lit " ASCII letters, digits, dot, underscore, or hyphen").

(** [Path::file_stem] of a name that has an extension. *)
Definition name_stem (name : str) : option str :=
  match rsplit_once_char (ch ".") name with
  | Some (before, after) => Some (if is_emptyb before then name else before)
  | None => Some name
  end.
(** The group whose file has the name. *)
Definition group_of_file (file : str) : option str :=
  if bool_decide (name_extension file = Some (lit "rules")) then name_stem file else None.
(** The order of [String], which is that of the scalar values. *)
Fixpoint str_leb (a b : str) : bool :=
  match a, b with
  | [], _ => true
  | _ :: _, [] => false
  | x :: a', y :: b' => (x <? y) || ((x =? y) && str_leb a' b')
  end.
Definition str_le (a b : str) : Prop := str_leb a b = true.
#[global] Instance str_le_dec a b : Decision (str_le a b).
Proof. unfold str_le. apply _. Defined.
Definition sort_names (names : list str) : list str := merge_sort str_le names.
(** [sort_by_key(|name| (name != "default", name))] *)
Definition default_first (a b : str) : Prop :=
  match a =s? DEFAULT_GROUP, b =s? DEFAULT_GROUP with
  | true, true | false, false => str_le a b
  | true, false => True
  | false, true => False
  end.
#[global] Instance default_first_dec a b : Decision (default_first a b).
Proof. unfold default_first. repeat case_match; apply _. Defined.

Section Store.
Context {PE : PatternEngines} {MF : ManifestFormat}.
(** The rules directory and the number of the process. *)
Context (rules_dir : str) (pid : N).

Definition group_path (name : str) : Path := (rules_dir, name ++ lit ".rules").
Definition manifest_path : Path := (rules_dir, MANIFEST_FILE).

(** ** Compilation *)

Definition group_sources (groups : list RuleGroup) : list (str * str) :=
  map (fun g => (gr_name g, gr_text g)) groups.
Definition enabled_groups (groups : list RuleGroup) : list RuleGroup := List.filter gr_enabled groups.
(** [RuleSet::parse_versioned_groups]; a set takes a number when it is built. *)
Definition parse_set (sources : list (str * str)) : Storing RuleSet := fun s =>
  match parse_versioned_groups (st_version s) sources with
  | Some (Ok set) => (with_version s (st_version s + 1), Ok set)
  | Some (Err errors) => (s, Err (Refused (RuleStoreError.Parse errors)))
  | None => (s, Err Panicked)
  end.
Definition compile (groups : list RuleGroup) : Storing RuleSnapshot :=
  _ ← parse_set (group_sources groups);
  compiled ← parse_set (group_sources (enabled_groups groups));
  mret (mkRuleSnapshot groups compiled).

Definition find_group (groups : list RuleGroup) (name : str) : option RuleGroup :=
  List.find (fun g => gr_name g =s? name) groups.
(** [RuleSnapshot::group] *)
Definition group (snapshot : RuleSnapshot) (name : str) : option RuleGroup := find_group (sp_groups snapshot) name.

(** ** Reading (storage.rs) *)

(** The text of [FromUtf8Error] is abbreviated. *)
Definition read_utf8_file_bounded (path : Path) (limit : N) (label : str) : Storing (option str) :=
  content ← attempted (read_file path);
  let read := content ← content; read_open_file content (fst path ++ lit "/" ++ snd path) limit label in
  match read with
  | Ok bytes =>
      match from_utf8 bytes with
      | Some text => mret (Some text)
      | None => refuse (RuleStoreError.Io (lit "read " ++ label) (invalid_data (lit "invalid utf-8 sequence")))
      end
  | Err e =>
      if bool_decide (io_kind e = NotFound) then mret None
      else if bool_decide (io_kind e = InvalidData) then invalid (io_message e)
      else refuse (RuleStoreError.Io (lit "read " ++ label) e)
  end.
(** The text of a group, and the bytes read so far. *)
Definition read_group_text (name : str) (source_bytes : N) : Storing (option str * N) :=
  let remaining := saturating_sub MAX_RULE_SNAPSHOT_SOURCE_BYTES source_bytes in
  text ← read_utf8_file_bounded (group_path name) remaining (lit "rule group `" ++ name ++ lit "`");
  match text with
  | None => mret (None, source_bytes)
  | Some text => mret (Some text, source_bytes + len text)
  end.

Fixpoint read_entries (seen : list str) (source_bytes : N) (entries : list ManifestGroup)
    : Storing (list RuleGroup * N) :=
  match entries with
  | [] => mret ([], source_bytes)
  | entry :: entries' =>
      _ ← validate_group_name (mg_name entry);
      if bool_decide (mg_name entry ∈ seen) then
        invalid (lit "duplicate rule group `" ++ mg_name entry ++ lit "` in manifest")
      else
        read ← read_group_text (mg_name entry) source_bytes;
        match fst read with
        | None => invalid (lit "groups manifest references missing rule group `" ++ mg_name entry ++ lit "`")
        | Some text =>
            rest ← read_entries (mg_name entry :: seen) (snd read) entries';
            mret (mkRuleGroup (mg_name entry) (mg_enabled entry) text :: fst rest, snd rest)
        end
  end.
Definition load_manifest_groups : Storing (list RuleGroup * N) :=
  text ← read_utf8_file_bounded manifest_path MAX_RULE_MANIFEST_BYTES (lit "groups manifest");
  match text with
  | None => invalid (lit "groups manifest disappeared while reading")
  | Some text =>
      match manifest_from_toml text with
      | Err e => invalid (lit "invalid groups manifest: " ++ e)
      | Ok manifest =>
          if negb (rm_version manifest =? MANIFEST_VERSION) then
            invalid (lit "unsupported groups manifest version " ++ show_N (rm_version manifest))
          else if MAX_RULE_GROUPS_PER_SNAPSHOT <? blen (rm_groups manifest) then
            invalid (lit "groups manifest exceeds the " ++ show_N MAX_RULE_GROUPS_PER_SNAPSHOT ++ lit "-group limit")
          else read_entries [] 0 (rm_groups manifest)
      end
  end.

Definition group_limit {A} (what : string) : Storing A :=
  invalid (lit what ++ lit " the " ++ show_N MAX_RULE_GROUPS_PER_SNAPSHOT ++ lit "-group limit").
(** The entries of the directory, all of them files; [guarded] stands for the
    errors that an entry and its file type can give. *)
Fixpoint collect_names (names : list str) (files : list str) : Storing (list str) :=
  match files with
  | [] => mret names
  | file :: files' =>
      _ ← io_context (lit "read rules directory entry") (guarded (mret tt));
      _ ← io_context (lit "read rule group file type") (guarded (mret tt));
      match group_of_file file with
      | None => collect_names names files'
      | Some name =>
          _ ← validate_group_name name;
          if blen names =? MAX_RULE_GROUPS_PER_SNAPSHOT then group_limit "rules directory exceeds"
          else collect_names (names ++ [name]) files'
      end
  end.
Definition discover_group_names : Storing (list str) :=
  entries ← attempted (read_dir rules_dir);
  match entries with
  | Err e => if bool_decide (io_kind e = NotFound) then mret []
             else refuse (RuleStoreError.Io (lit "read rules directory") e)
  | Ok files => names ← collect_names [] files; mret (sort_names names)
  end.
Fixpoint read_enabled (source_bytes : N) (names : list str) : Storing (list RuleGroup * N) :=
  match names with
  | [] => mret ([], source_bytes)
  | name :: names' =>
      read ← read_group_text name source_bytes;
      rest ← read_enabled (snd read) names';
      mret (mkRuleGroup name true (unwrap_or (fst read) []) :: fst rest, snd rest)
  end.
Definition discover_groups : Storing (list RuleGroup * N) :=
  names ← discover_group_names;
  read_enabled 0 (merge_sort default_first names).
Fixpoint append_names (listed : list str) (groups : list RuleGroup) (source_bytes : N) (names : list str)
    : Storing (list RuleGroup * N) :=
  match names with
  | [] => mret (groups, source_bytes)
  | name :: names' =>
      if bool_decide (name ∈ listed) then append_names listed groups source_bytes names'
      else if blen groups =? MAX_RULE_GROUPS_PER_SNAPSHOT then group_limit "stored rules exceed"
      else
        read ← read_group_text name source_bytes;
        append_names listed (groups ++ [mkRuleGroup name true (unwrap_or (fst read) [])]) (snd read) names'
  end.
Definition append_unlisted_groups (groups : list RuleGroup) (source_bytes : N) : Storing (list RuleGroup * N) :=
  names ← discover_group_names;
  append_names (map gr_name groups) groups source_bytes names.

Definition load_snapshot : Storing RuleSnapshot :=
  listed ← ask_file manifest_path;
  read ← (if (listed : bool) then load_manifest_groups else discover_groups);
  read ← append_unlisted_groups (fst read) (snd read);
  groups ←
    (if existsb (fun g => gr_name g =s? DEFAULT_GROUP) (fst read) then mret (fst read)
     else if blen (fst read) =? MAX_RULE_GROUPS_PER_SNAPSHOT then group_limit "stored rules exceed"
     else
       text ← read_group_text DEFAULT_GROUP (snd read);
       mret (mkRuleGroup DEFAULT_GROUP true (unwrap_or (fst text) []) :: fst read));
  compile groups.

(** ** Writing (storage.rs) *)

Definition temp_path (path : Path) (now : N) : Path :=
  (fst path, lit "." ++ snd path ++ lit ".tmp-" ++ show_N pid ++ lit "-" ++ show_N now).
Definition atomic_write (path : Path) (bytes : list N) : Storing unit :=
  _ ← io_context (lit "create rule path") (create_dir_all (fst path));
  now ← now_millis;
  let temp := temp_path path now in
  _ ← io_context (lit "write temporary rule file") (write_file temp bytes);
  moved ← attempted (rename temp path);
  match moved with
  | Ok _ => mret tt
  | Err e => _ ← attempted (remove_file temp); refuse (RuleStoreError.Io (lit "replace rule file") e)
  end.
Fixpoint write_missing (groups : list RuleGroup) : Storing unit :=
  match groups with
  | [] => mret tt
  | g :: groups' =>
      present ← ask_file (group_path (gr_name g));
      _ ← (if (present : bool) then mret tt else atomic_write (group_path (gr_name g)) (encode (gr_text g)));
      write_missing groups'
  end.
Definition manifest_of (groups : list RuleGroup) : RuleManifest :=
  mkRuleManifest MANIFEST_VERSION (map (fun g => mkManifestGroup (gr_name g) (gr_enabled g)) groups).
Definition persist_manifest (groups : list RuleGroup) : Storing unit :=
  _ ← io_context (lit "create rules directory") (create_dir_all rules_dir);
  _ ← write_missing groups;
  match manifest_to_toml (manifest_of groups) with
  | Err e => invalid (lit "serialize groups manifest: " ++ e)
  | Ok text => atomic_write manifest_path (encode text)
  end.

(** ** The updates (rule_store.rs) *)

(** The update lock: a holder that panics poisons it, and whoever finds it
    poisoned panics. *)
Definition locked {A} (m : Storing A) : Storing A := fun s =>
  if st_poisoned s then (s, Err Panicked)
  else
    match m s with
    | (s, Err Panicked) => (with_poison s, Err Panicked)
    | done => done
    end.
Definition current_groups : Storing (list RuleGroup) := fun s => (s, Ok (sp_groups (st_snapshot s))).
Definition publish (snapshot : RuleSnapshot) : Storing RuleSnapshot := fun s => (with_snapshot s snapshot, Ok snapshot).

(** The first group of the name changed; [None] when there is none. *)
Fixpoint update_group (f : RuleGroup -> RuleGroup) (name : str) (groups : list RuleGroup) : option (list RuleGroup) :=
  match groups with
  | [] => None
  | g :: groups' =>
      if gr_name g =s? name then Some (f g :: groups') else cons g <$> update_group f name groups'
  end.
Definition with_text (text : str) (g : RuleGroup) : RuleGroup := mkRuleGroup (gr_name g) (gr_enabled g) text.
Definition with_enabled (enabled : bool) (g : RuleGroup) : RuleGroup := mkRuleGroup (gr_name g) enabled (gr_text g).
Definition groups_with_text (name text : str) (groups : list RuleGroup) : list RuleGroup :=
  unwrap_or (update_group (with_text text) name groups) (groups ++ [mkRuleGroup name true text]).
Definition groups_without (name : str) (groups : list RuleGroup) : list RuleGroup :=
  List.filter (fun g => negb (gr_name g =s? name)) groups.

Definition set_group (name text : str) : Storing RuleSnapshot :=
  _ ← validate_group_name name;
  locked (
    groups ← current_groups;
    snapshot ← compile (groups_with_text name text groups);
    _ ← io_context (lit "create rules directory") (create_dir_all rules_dir);
    match group snapshot name with
    | None => fail Panicked
    | Some g =>
        _ ← atomic_write (group_path name) (encode (gr_text g));
        _ ← persist_manifest (sp_groups snapshot);
        publish snapshot
    end).
Definition remove_group (name : str) : Storing RuleSnapshot :=
  _ ← validate_group_name name;
  if name =s? DEFAULT_GROUP then invalid (lit "the default rule group cannot be removed")
  else
    locked (
      groups ← current_groups;
      if negb (existsb (fun g => gr_name g =s? name) groups) then refuse (RuleStoreError.NotFound name)
      else
        snapshot ← compile (groups_without name groups);
        _ ← persist_manifest (sp_groups snapshot);
        removed ← attempted (remove_file (group_path name));
        match removed with
        | Ok _ => publish snapshot
        | Err e => if bool_decide (io_kind e = NotFound) then publish snapshot
                   else refuse (RuleStoreError.Io (lit "remove rule group") e)
        end).
Definition set_enabled (name : str) (enabled : bool) : Storing RuleSnapshot :=
  _ ← validate_group_name name;
  locked (
    groups ← current_groups;
    match update_group (with_enabled enabled) name groups with
    | None => refuse (RuleStoreError.NotFound name)
    | Some groups =>
        snapshot ← compile groups;
        _ ← persist_manifest (sp_groups snapshot);
        publish snapshot
    end).

(** ** Watching (rule_store/watch.rs) *)

Definition EVENT_QUEUE_CAPACITY : N := 64.
Definition reload_from_disk : Storing bool :=
  locked (
    next ← load_snapshot;
    groups ← current_groups;
    if bool_decide (groups = sp_groups next) then mret false
    else _ ← publish next; mret true).

Definition on_status (f : RuleWatchStatus -> RuleWatchStatus) : Storing unit := fun s =>
  (with_status s (f (st_status s)), Ok tt).
Definition record_event : Storing unit := on_status (fun w =>
  mkWatchStatus (saturating_add U64_MAX (ws_events w) 1) (ws_dropped_events w) (ws_reloads w) (ws_failures w)
    (ws_last_reload_ms w) (ws_last_error w)).
Definition record_dropped_event : Storing unit := on_status (fun w =>
  mkWatchStatus (ws_events w) (saturating_add U64_MAX (ws_dropped_events w) 1) (ws_reloads w) (ws_failures w)
    (ws_last_reload_ms w) (ws_last_error w)).
Definition record_reload : Storing unit :=
  now ← now_millis;
  on_status (fun w =>
    mkWatchStatus (ws_events w) (ws_dropped_events w) (saturating_add U64_MAX (ws_reloads w) 1) (ws_failures w)
      (Some now) None).
Definition record_failure (error : str) : Storing unit := on_status (fun w =>
  mkWatchStatus (ws_events w) (ws_dropped_events w) (ws_reloads w) (saturating_add U64_MAX (ws_failures w) 1)
    (ws_last_reload_ms w) (Some error)).

(** A file system event: whether it is an access, and the paths it names, each
    the rules directory or not, with the file name when that is text. *)
Record EventPath := mkEventPath { ep_is_rules_dir : bool; ep_file_name : option str }.
Record FsEvent := mkFsEvent { ev_access : bool; ev_paths : list EventPath }.
Definition relevant (event : FsEvent) : bool :=
  if ev_access event then false
  else
    is_emptyb (ev_paths event) ||
    existsb (fun path =>
      ep_is_rules_dir path || bool_decide (ep_file_name path = Some MANIFEST_FILE) ||
      bool_decide (ep_file_name path ≫= name_extension = Some (lit "rules"))) (ev_paths event).

Inductive WatchMessage := Event (event : FsEvent) | Stop.
(** The callback: [queued] messages wait in the channel; the result is the
    message that is put into it. *)
Definition enqueue_event (queued : N) (event : Result str FsEvent) : Storing (option WatchMessage) :=
  match event with
  | Err error => _ ← record_failure error; mret None
  | Ok event =>
      if relevant event then
        if EVENT_QUEUE_CAPACITY <=? queued then _ ← record_dropped_event; mret None
        else mret (Some (Event event))
      else mret None
  end.

(** What the worker receives: a message, nothing for the debounce time, or the
    end of the channel. *)
Inductive Received := Message (m : WatchMessage) | Quiet | Disconnected.
(** The burst of events behind the first one, whether a reload follows, and
    what is received later. *)
Fixpoint collect_burst (received : list Received) : Storing (bool * list Received) :=
  match received with
  | [] => mret (false, [])
  | Quiet :: received' => mret (true, received')
  | Disconnected :: received' | Message Stop :: received' => mret (false, received')
  | Message (Event event) :: received' =>
      _ ← (if relevant event then record_event else mret tt);
      collect_burst received'
  end.
Definition RuleError_display (e : RuleError) : str :=
  match re_span e with
  | Some span => re_group e ++ lit ":" ++ show_N (re_line e) ++ lit ":" ++ show_N (sp_start span + 1) ++ lit ": " ++ re_message e
  | None => re_group e ++ lit ":" ++ show_N (re_line e) ++ lit ": " ++ re_message e
  end.
Definition RuleStoreError_display (e : RuleStoreError.t) : str :=
  match e with
  | RuleStoreError.Invalid message => message
  | RuleStoreError.NotFound name => lit "rule group `" ++ name ++ lit "` not found"
  | RuleStoreError.Parse errors => join [10] (map RuleError_display errors)
  | RuleStoreError.Io context source => context ++ lit ": " ++ io_message source
  | RuleStoreError.Watch source => lit "rule watcher: " ++ source
  end.
(** The worker, until it ends or has received everything; every round takes
    something off the channel. *)
Fixpoint watch_rounds (fuel : nat) (received : list Received) : Storing unit :=
  match fuel, received with
  | O, _ | _, [] | _, Message Stop :: _ | _, Disconnected :: _ => mret tt
  | S fuel', Quiet :: received' => watch_rounds fuel' received'
  | S fuel', Message (Event event) :: received' =>
      if relevant event then
        _ ← record_event;
        burst ← collect_burst received';
        if (fst burst : bool) then
          reloaded ← caught_refusal reload_from_disk;
          _ ← match reloaded with
              | Ok _ => record_reload
              | Err e => record_failure (RuleStoreError_display e)
              end;
          watch_rounds fuel' (snd burst)
        else mret tt
      else watch_rounds fuel' received'
  end.
Definition watch_loop (received : list Received) : Storing unit := watch_rounds (length received) received.

(** [RuleStore::load]: the snapshot that a new store on the disk publishes. *)
Definition load : Storing RuleSnapshot := snapshot ← load_snapshot; publish snapshot.
End Store.
