(* ===== verification/RuleStoreProofs.v ===== *)
(** * The rule store keeps its promises

    Updates of the rule store survive a restart, interrupted ones leave the old
    or the new rules on disk, and whatever happens on disk the published
    snapshot is well formed and is followed by the watcher. *)
From Stdlib Require Import Ascii String.
From stdpp Require Import base numbers list gmap strings sorting.
From S2P Require Import Prelude Family Utf8 Format NetAddr Io Disk Model Url Syntax Engines Index Resolve.
From S2P Require Import Http1 Values ParseRule ParseProofs Mock RuleStore.

(** ** Names of files *)

Lemma name_byte_small b : is_ascii_alphanumeric b || existsb (N.eqb b) (lit "._-") = true -> b < 128.
Proof.
  intros H. apply orb_true_iff in H as [H|H].
  - unfold is_ascii_alphanumeric, is_ascii_alphabetic, is_ascii_uppercase, is_ascii_lowercase, is_ascii_digit, in_range in H.
    destruct (N.lt_ge_cases b 128) as [|Hb]; [done|]. revert H.
    rewrite !(proj2 (N.leb_gt b _)) by lia. by rewrite !andb_false_r.
  - apply existsb_exists in H as (x & Hx & Heq). apply N.eqb_eq in Heq as ->. revert Hx.
    change (lit "._-") with [46; 95; 45]. intros Hx. cbn in Hx. lia.
Qed.
Lemma encode_char_wide c : 128 <= c -> exists b bs, encode_char c = b :: bs /\ 128 <= b.
Proof.
  intros H. unfold encode_char. rewrite (proj2 (N.ltb_ge c 128) H).
  generalize (c / 64), (c / 4096), (c / 262144). intros x y z.
  repeat case_match; eexists _, _; (split; [reflexivity|]); lia.
Qed.
Lemma group_name_ok_spec name :
  group_name_ok name = true ->
  name <> [] /\ len name <= MAX_RULE_GROUP_NAME_BYTES /\ head name <> Some (ch ".") /\ valid_str name = true.
Proof.
  unfold group_name_ok. intros H. apply negb_true_iff in H. apply orb_false_iff in H as [H Hb].
  apply orb_false_iff in H as [H Hd]. apply orb_false_iff in H as [He Hl]. apply negb_false_iff in Hb.
  split_and!.
  - by destruct name.
  - by apply N.ltb_ge in Hl.
  - destruct name as [|c name]; [done|]. intros [= ->]. done.
  - unfold valid_str. apply forallb_forall. intros c Hc. apply list_elem_of_In in Hc.
    destruct (N.le_gt_cases 128 c) as [Hw|Hw]; [|apply valid_char_spec; lia]. exfalso.
    apply encode_char_wide in Hw as (b & bs & E & Hw). rewrite forallb_forall in Hb.
    assert (Hin : In b (encode name)).
    { unfold encode. apply in_flat_map. exists c. rewrite E. split; [by apply list_elem_of_In|by left]. }
    apply Hb, name_byte_small in Hin. lia.
Qed.

Lemma name_extension_app name ext :
  name <> [] -> ch "." ∉ ext -> name_extension (name ++ ch "." :: ext) = Some ext.
Proof.
  intros Hn He. unfold name_extension.
  rewrite (proj2 (rsplit_once_char_Some (ch ".") (name ++ ch "." :: ext) name ext)) by done. by destruct name.
Qed.
Lemma group_of_file_app name : name <> [] -> group_of_file (name ++ lit ".rules") = Some name.
Proof.
  intros Hn. unfold group_of_file. change (lit ".rules") with (ch "." :: lit "rules").
  assert (He : ch "." ∉ lit "rules") by (apply (bool_decide_unpack _); by vm_compute).
  rewrite name_extension_app by done. rewrite bool_decide_true by done. unfold name_stem.
  rewrite (proj2 (rsplit_once_char_Some (ch ".") (name ++ ch "." :: lit "rules") name (lit "rules"))) by done.
  by destruct name.
Qed.
Lemma group_of_file_Some file name : group_of_file file = Some name -> file = name ++ lit ".rules" /\ name <> [].
Proof.
  unfold group_of_file, name_extension, name_stem. case_bool_decide as H; [|done].
  destruct (rsplit_once_char (ch ".") file) as [[before after]|] eqn:E; [|done].
  apply rsplit_once_char_Some in E as [-> _]. destruct before as [|b before]; [done|]. cbn [is_emptyb] in *.
  by injection H as ->; intros [= <-].
Qed.

(** What the TOML library does for the manifests of the store: a manifest is
    written as text that reads back, in a bounded space for each group. *)
Class ManifestLaws {MF : ManifestFormat} : Prop := manifest_reads_back : forall groups,
  Forall (fun g => group_name_ok (mg_name g) = true) groups ->
  exists text, manifest_to_toml (mkRuleManifest MANIFEST_VERSION groups) = Ok text /\ valid_str text = true /\
    manifest_from_toml text = Ok (mkRuleManifest MANIFEST_VERSION groups) /\
    len text <= 64 + sum_N (map (fun g => 64 + len (mg_name g)) groups).

Section Proofs.
Context {PE : PatternEngines} {MF : ManifestFormat} {ML : ManifestLaws}.
Context (rules_dir : str) (pid : N).
Local Abbreviation manifest_path := (manifest_path rules_dir) (only parsing).
Local Abbreviation group_path := (group_path rules_dir) (only parsing).

(** ** What the disk shows *)

Local Abbreviation Files := (gmap (list N * list N) (list N)) (only parsing).
Definition files (s : RuleStore) : Files := d_files (st_disk s).
(** The manifest and the texts of the groups in the directory. *)
Definition shows (fs : Files) (manifest : option (list N)) (texts : gmap str (list N)) : Prop :=
  fs !! manifest_path = manifest /\ (forall name, name <> [] -> fs !! group_path name = texts !! name) /\ texts !! [] = None.
(** Files of other names, such as those of interrupted writes. *)
Definition hidden (file : str) : Prop := file <> MANIFEST_FILE /\ group_of_file file = None.

Lemma manifest_is_no_group name : name <> [] -> manifest_path <> group_path name.
Proof.
  intros Hn [= H]. apply group_of_file_app in Hn. rewrite <- H in Hn. revert Hn. by vm_compute.
Qed.
Lemma group_path_inj a b : group_path a = group_path b -> a = b.
Proof. intros [= H]. by apply app_inv_tail in H. Qed.
Lemma temp_hidden path now : hidden (snd (temp_path pid path now)).
Proof.
  unfold temp_path, hidden. cbn [snd]. split; [by intros [=]|]. unfold group_of_file.
  replace (lit "." ++ _) with ((lit "." ++ snd path) ++ ch "." :: (lit "tmp-" ++ show_N pid ++ lit "-" ++ show_N now))
    by (rewrite <- app_assoc; reflexivity).
  rewrite name_extension_app; [by rewrite bool_decide_false|done|].
  assert (Hd : forall n, ch "." ∉ show_N n).
  { intros n Hin. pose proof (show_N_digits n) as H. rewrite Forall_forall in H. by apply H in Hin. }
  rewrite !elem_of_app. intros [H|[H|[H|H]]]; [|by apply Hd in H| |by apply Hd in H];
    revert H; apply (bool_decide_unpack _); by vm_compute.
Qed.
Lemma hidden_paths file :
  hidden file -> (rules_dir, file) <> manifest_path /\ forall name, name <> [] -> (rules_dir, file) <> group_path name.
Proof.
  intros [H1 H2]. split; [by intros [= ->]|]. intros name Hn [= ->]. by rewrite group_of_file_app in H2.
Qed.

(** Predicates that hidden files do not affect. *)
Definition stable (I : Files -> Prop) : Prop := forall file fs x,
  hidden file -> I fs -> I (<[(rules_dir, file) := x]> fs) /\ I (delete (rules_dir, file) fs).
Lemma shows_stable m t : stable (fun fs => shows fs m t).
Proof.
  intros file fs x Hh (H1 & H2 & H3). apply hidden_paths in Hh as [Hm Hg].
  split; (split_and!; [|intros name Hn|done]); rewrite ?lookup_insert_ne, ?lookup_delete_ne by auto; auto.
Qed.
Lemma shows_group fs m t name bytes :
  shows fs m t -> name <> [] -> shows (<[group_path name := bytes]> fs) m (<[name := bytes]> t).
Proof.
  intros (H1 & H2 & H3) Hn. split_and!.
  - rewrite lookup_insert_ne; [done|]. intros H. symmetry in H. by apply manifest_is_no_group in H.
  - intros other Ho. destruct (decide (other = name)) as [->|Hne]; [by rewrite !lookup_insert_eq|].
    rewrite !lookup_insert_ne; [auto|done|]. intros H. by apply group_path_inj in H.
  - by rewrite lookup_insert_ne.
Qed.
Lemma shows_without_group fs m t name :
  shows fs m t -> name <> [] -> shows (delete (group_path name) fs) m (delete name t).
Proof.
  intros (H1 & H2 & H3) Hn. split_and!.
  - rewrite lookup_delete_ne; [done|]. intros H. symmetry in H. by apply manifest_is_no_group in H.
  - intros other Ho. destruct (decide (other = name)) as [->|Hne]; [by rewrite !lookup_delete_eq|].
    rewrite !lookup_delete_ne; [auto|done|]. intros H. by apply group_path_inj in H.
  - by rewrite lookup_delete_ne.
Qed.
Lemma shows_manifest fs m t bytes : shows fs m t -> shows (<[manifest_path := bytes]> fs) (Some bytes) t.
Proof.
  intros (H1 & H2 & H3). split_and!; [by rewrite lookup_insert_eq| |done]. intros name Hn.
  rewrite lookup_insert_ne; [auto|by apply manifest_is_no_group].
Qed.

(** ** Operations of the disk *)

(** The published snapshot and the files. *)
Definition holds (sp : RuleSnapshot) (I : Files -> Prop) (s : RuleStore) : Prop :=
  st_snapshot s = sp /\ I (files s).
Lemma next_fault_files d : d_files (snd (next_fault d)) = d_files d.
Proof. unfold next_fault. by destruct (d_faults d). Qed.
Lemma guarded_files {A} (op : Io A) d :
  exists d', d_files d' = d_files d /\ (guarded op d = op d' \/ exists e, guarded op d = (d', Err e)).
Proof.
  exists (snd (next_fault d)). split; [apply next_fault_files|]. unfold guarded.
  destruct (next_fault d) as [[|n e] d'] eqn:E; cbn; eauto.
Qed.
Lemma attempted_files {A} (op : Io A) sp I J :
  (forall d, I (d_files d) -> J (snd (op d)) (d_files (fst (op d)))) ->
  forall E, triple (holds sp I) (attempted op) (fun r => holds sp (J r)) E.
Proof.
  intros H E s [Hs Hi]. unfold attempted, on_disk. specialize (H (st_disk s) Hi). by destruct (op (st_disk s)) as [d r].
Qed.
Lemma io_context_files {A} context (op : Io A) sp I J :
  (forall d, I (d_files d) -> match op d with (d', Ok a) => J a (d_files d') | (d', Err _) => I (d_files d') end) ->
  triple (holds sp I) (io_context context op) (fun a => holds sp (J a)) (holds sp I).
Proof.
  intros H s [Hs Hi]. unfold io_context, attempted, on_disk, mbind, StateR_bind. specialize (H (st_disk s) Hi).
  by destruct (op (st_disk s)) as [d [a|e]].
Qed.

Lemma now_millis_files sp I E : triple (holds sp I) now_millis (fun _ => holds sp I) E.
Proof. intros s H. unfold now_millis. by destruct (st_times s). Qed.
Lemma create_dir_files sp I context dir :
  triple (holds sp I) (io_context context (create_dir_all dir)) (fun _ => holds sp I) (holds sp I).
Proof.
  apply (io_context_files context (create_dir_all dir) sp I (fun _ => I)). intros d Hi. unfold create_dir_all.
  destruct (guarded_files (fun d => (d, Ok tt : Result IoError unit)) d) as (d' & Hf & [->|[e ->]]); by rewrite Hf.
Qed.
Lemma atomic_write_files (sp : RuleSnapshot) (I J : Files -> Prop) (path : str * str) (bytes : list N) :
  fst path = rules_dir -> stable I -> (forall fs, I fs -> J (<[path := bytes]> fs)) ->
  triple (holds sp I) (atomic_write pid path bytes) (fun _ => holds sp J) (holds sp I).
Proof.
  intros Hp Hst HJ. unfold atomic_write. eapply triple_bind; [apply create_dir_files|intros []].
  eapply triple_bind; [apply now_millis_files|intros now]. cbv zeta.
  pose proof (temp_hidden path now) as Hh. set (temp := temp_path pid path now) in *.
  assert (Ht : temp = (rules_dir, snd temp)) by (unfold temp, temp_path; cbn; by rewrite Hp). clearbody temp.
  apply triple_bind with (M := fun _ => holds sp (fun fs => I fs /\ fs !! temp = Some bytes)).
  { apply (io_context_files _ _ sp I (fun _ fs => I fs /\ fs !! temp = Some bytes)). intros d Hi. unfold write_file.
    pose proof (next_fault_files d) as Hf. destruct (next_fault d) as [[|n e] d']; cbn in *; rewrite Hf.
    - rewrite lookup_insert_eq, firstn_all. split; [rewrite Ht; by apply Hst|done].
    - rewrite Ht. by apply Hst. }
  intros _.
  apply triple_bind with (M := fun r => holds sp (match r with Ok _ => J | Err _ => I end)).
  { apply attempted_files. intros d [Hi Hl]. unfold rename.
    destruct (guarded_files (fun d => match d_files d !! temp with
      | Some content => (mkDisk (<[path := content]> (delete temp (d_files d))) (d_faults d), Ok tt)
      | None => (d, Err not_found) end) d) as (d' & Hf & [->|[e ->]]); rewrite ?Hf, ?Hl; cbn; rewrite ?Hf; [|done].
    apply HJ. rewrite Ht. by apply (Hst _ _ []). }
  intros [[]|e]; [by apply triple_ret|]. apply triple_bind with (M := fun _ => holds sp I).
  { eapply (attempted_files (remove_file temp) sp I (fun _ => I)). intros d Hi. unfold remove_file.
    destruct (guarded_files (fun d => match d_files d !! temp with
      | Some _ => (mkDisk (delete temp (d_files d)) (d_faults d), Ok tt)
      | None => (d, Err not_found) end) d) as (d' & Hf & [->|[e' ->]]); cbn; rewrite ?Hf; [|done].
    destruct (d_files d !! temp); cbn; rewrite ?Hf; [|done]. rewrite Ht. by apply (Hst _ _ []). }
  intros _. by apply triple_fail.
Qed.

(** ** Persisting *)

(** The files are texts of the groups. *)
Definition texts_of (groups : list RuleGroup) (t : gmap str (list N)) : Prop :=
  forall name bytes, t !! name = Some bytes -> exists g, g ∈ groups /\ gr_name g = name /\ encode (gr_text g) = bytes.
Definition has_texts (groups : list RuleGroup) (t : gmap str (list N)) : Prop :=
  Forall (fun g => t !! gr_name g = Some (encode (gr_text g))) groups.
Definition named (groups : list RuleGroup) : Prop :=
  Forall (fun g => group_name_ok (gr_name g) = true) groups /\ NoDup (map gr_name groups).
Lemma named_nonempty groups g : named groups -> g ∈ groups -> gr_name g <> [].
Proof. intros [H _] Hg. rewrite Forall_forall in H. by apply H, group_name_ok_spec in Hg as [? _]. Qed.
Lemma named_same groups g g' : named groups -> g ∈ groups -> g' ∈ groups -> gr_name g = gr_name g' -> g = g'.
Proof.
  intros [_ H] Hg Hg' E. revert H Hg Hg'. induction groups as [|x groups IH]; cbn [map]; [by intros _ ?%not_elem_of_nil|].
  intros [Hx Hn]%NoDup_cons. rewrite !elem_of_cons. intros [->|Hg] [->|Hg']; [done| | |auto].
  - destruct Hx. rewrite E. by apply list_elem_of_fmap_2.
  - destruct Hx. rewrite <- E. by apply list_elem_of_fmap_2.
Qed.

(** A view of the directory: files of [all] the groups, [done] among them. *)
Definition view (all done : list RuleGroup) (m : option (list N)) (fs : Files) : Prop :=
  exists t, shows fs m t /\ texts_of all t /\ has_texts done t.
Lemma view_stable all done m : stable (view all done m).
Proof. intros file fs x Hh (t & Hs & Ht). split; exists t; (split; [by apply (shows_stable m t file fs x)|done]). Qed.
Lemma view_done all done done' m fs : (forall g, g ∈ done' -> g ∈ done) -> view all done m fs -> view all done' m fs.
Proof.
  intros H (t & Hs & Ht & Hd). exists t. split_and!; [done..|]. unfold has_texts in *. rewrite Forall_forall in *. auto.
Qed.
Lemma view_written all done m g fs :
  named all -> g ∈ all -> (forall g', g' ∈ done -> g' ∈ all) -> view all done m fs ->
  view all (g :: done) m (<[group_path (gr_name g) := encode (gr_text g)]> fs).
Proof.
  intros Hn Hg Hd (t & Hs & Ht & Hh). exists (<[gr_name g := encode (gr_text g)]> t). split_and!.
  - apply shows_group; [done|]. by eapply named_nonempty.
  - intros name bytes H. destruct (decide (name = gr_name g)) as [->|Hne].
    + rewrite lookup_insert_eq in H. injection H as <-. eauto.
    + rewrite lookup_insert_ne in H by done. auto.
  - constructor; [by rewrite lookup_insert_eq|]. unfold has_texts in *. rewrite Forall_forall in *. intros g' Hg'.
    destruct (decide (gr_name g' = gr_name g)) as [E|Hne]; [|rewrite lookup_insert_ne; auto].
    rewrite E, lookup_insert_eq. f_equal. f_equal. f_equal. symmetry. apply (named_same all); auto.
Qed.
Lemma view_present all done m g fs :
  named all -> g ∈ all -> view all done m fs -> is_Some (fs !! group_path (gr_name g)) -> view all (g :: done) m fs.
Proof.
  intros Hn Hg (t & Hs & Ht & Hh) [bytes Hb]. exists t. split_and!; [done..|]. constructor; [|done].
  destruct Hs as (_ & Hs & _). rewrite Hs in Hb by (by eapply named_nonempty). rewrite Hb. f_equal.
  destruct (Ht _ _ Hb) as (g' & Hg' & E & <-). f_equal. f_equal. apply (named_same all); auto.
Qed.

Lemma ask_file_present sp I path E :
  triple (holds sp I) (ask_file path) (fun b => holds sp (fun fs => I fs /\ (b = true -> is_Some (fs !! path)))) E.
Proof.
  intros s [Hs Hi]. unfold ask_file, is_file. pose proof (next_fault_files (st_disk s)) as Hf.
  destruct (next_fault (st_disk s)) as [[|n e] d]; (split; [done|]); cbn in *; unfold files; cbn; rewrite Hf; [|done].
  split; [done|]. by destruct (d_files (st_disk s) !! path).
Qed.
Lemma write_missing_files sp all groups done m :
  named all -> (forall g, g ∈ groups -> g ∈ all) -> (forall g, g ∈ done -> g ∈ all) ->
  triple (holds sp (view all done m)) (write_missing rules_dir pid groups)
    (fun _ => holds sp (view all (groups ++ done) m)) (holds sp (view all done m)).
Proof.
  intros Hn. revert done. induction groups as [|g groups IH]; intros done Hg Hd; cbn [write_missing]; [by apply triple_ret|].
  assert (Hin : g ∈ all) by (apply Hg; left).
  eapply triple_bind; [apply ask_file_present|intros present].
  apply triple_bind with (M := fun _ => holds sp (view all (g :: done) m)).
  - destruct present.
    + apply triple_ret. intros s (Hs & Hv & Hp). split; [done|]. by apply view_present; auto.
    + eapply triple_conseq with (P' := holds sp (view all done m)).
      { apply (atomic_write_files sp (view all done m) (view all (g :: done) m)); [done|apply view_stable|].
        intros fs Hv. by apply view_written. }
      all: [> by intros s (Hs & Hv & _) | done | done].
  - intros []. eapply triple_conseq; [apply (IH (g :: done))|done| |].
    + intros g' H. apply Hg. by right.
    + intros g' [->|H]%elem_of_cons; auto.
    + intros _ s [Hs Hv]. split; [done|]. eapply view_done; [|exact Hv]. set_solver.
    + intros s [Hs Hv]. split; [done|]. eapply view_done; [|exact Hv]. intros g' H. by right.
Qed.

(** The manifest of the groups as bytes. *)
Definition manifest_bytes (groups : list RuleGroup) (bytes : list N) : Prop :=
  exists text, manifest_to_toml (manifest_of groups) = Ok text /\ bytes = encode text.
Lemma persist_manifest_files sp all groups done m :
  named all -> (forall g, g ∈ groups -> g ∈ all) -> (forall g, g ∈ done -> g ∈ all) ->
  triple (holds sp (view all done m)) (persist_manifest rules_dir pid groups)
    (fun _ => holds sp (fun fs => exists bytes, manifest_bytes groups bytes /\ view all (groups ++ done) (Some bytes) fs))
    (holds sp (view all done m)).
Proof.
  intros Hn Hg Hd. unfold persist_manifest. eapply triple_bind; [apply create_dir_files|intros []].
  eapply triple_bind; [by apply write_missing_files|intros []].
  destruct (manifest_to_toml (manifest_of groups)) as [text|e] eqn:E.
  - eapply triple_conseq.
    { apply (atomic_write_files sp (view all (groups ++ done) m)
        (fun fs => exists bytes, manifest_bytes groups bytes /\ view all (groups ++ done) (Some bytes) fs)); [done|apply view_stable|].
      intros fs (t & Hs & Ht). exists (encode text). split; [by exists text|]. exists t. split; [|done]. by eapply shows_manifest. }
    all: [> done | done | ].
    intros s [Hs Hv]. split; [done|]. eapply view_done; [|exact Hv]. intros g H. apply elem_of_app. by right.
  - apply triple_fail. intros s [Hs Hv]. split; [done|]. eapply view_done; [|exact Hv]. intros g H. apply elem_of_app. by right.
Qed.

(** ** Compiling *)

Definition parses (sources : list (str * str)) : Prop :=
  exists version set, parse_versioned_groups version sources = Some (Ok set).
Definition compiles (groups : list RuleGroup) : Prop :=
  parses (group_sources groups) /\ parses (group_sources (enabled_groups groups)).
(** The set is what the enabled groups are parsed to. *)
Definition compiled_from (snapshot : RuleSnapshot) : Prop :=
  exists version, parse_versioned_groups version (group_sources (enabled_groups (sp_groups snapshot))) =
    Some (Ok (sp_compiled snapshot)).

Lemma parses_any sources version :
  parses sources -> exists set, parse_versioned_groups version sources = Some (Ok set).
Proof.
  intros (v & set & H). unfold parse_versioned_groups, parse_groups_with_profile in *. destruct (is_emptyb _); [|done].
  destruct (RuleIndex_build _); [|done]. cbn. eauto.
Qed.
Lemma parses_within sources :
  parses sources ->
  blen sources <= MAX_RULE_GROUPS_PER_SNAPSHOT /\ source_bytes sources <= MAX_RULE_SNAPSHOT_SOURCE_BYTES.
Proof.
  intros (v & set & H). apply parse_groups_Ok in H as (rules & ix & H & _). unfold reference_source, source_entries in H.
  destruct (_ && _) eqn:E in H; [|done]. apply andb_true_iff in E as [E1 E2]. apply N.leb_le in E1, E2. by split.
Qed.
Lemma parse_set_spec (P : RuleStore -> Prop) sources :
  (forall s v, P s -> P (with_version s v)) ->
  triple P (parse_set sources) (fun set s => P s /\ exists version, parse_versioned_groups version sources = Some (Ok set)) P.
Proof.
  intros HP s Hs. unfold parse_set. destruct (parse_versioned_groups (st_version s) sources) as [[set|errors]|] eqn:E; eauto.
Qed.
Lemma compile_spec (P : RuleStore -> Prop) groups :
  (forall s v, P s -> P (with_version s v)) ->
  triple P (compile groups)
    (fun snapshot s => P s /\ sp_groups snapshot = groups /\ compiles groups /\ compiled_from snapshot) P.
Proof.
  intros HP. unfold compile. eapply triple_bind; [by apply parse_set_spec|intros all].
  intros s [Hs [v1 H1]]. revert s Hs.
  eapply triple_bind; [by apply parse_set_spec|intros set]. apply triple_ret. intros s [Hs [v2 H2]].
  split_and!; [done|done|split; by eexists _, _|by exists v2].
Qed.
Lemma compile_total groups s :
  compiles groups -> exists version snapshot, compile groups s = (with_version s version, Ok snapshot) /\ sp_groups snapshot = groups.
Proof.
  intros [H1 H2]. unfold compile, mbind, StateR_bind, parse_set.
  destruct (parses_any _ (st_version s) H1) as [a ->].
  destruct (parses_any _ (st_version (with_version s (st_version s + 1))) H2) as [b ->]. by eexists _, _.
Qed.

(** ** Reading *)

(** The files do not change; where [b], no fault is to come. *)
Definition quiet (b : bool) (fs : Files) (s : RuleStore) : Prop :=
  files s = fs /\ (b = true -> faultless (st_disk s)).
Lemma quiet_version b fs s v : quiet b fs s -> quiet b fs (with_version s v).
Proof. done. Qed.
Lemma guarded_quiet {A} (op : Io A) (R : A -> Prop) b fs E :
  (forall d, d_files d = fs -> fst (op d) = d /\ match snd (op d) with Ok a => R a | Err _ => True end) ->
  triple (quiet b fs) (attempted (guarded op)) (fun r s => quiet b fs s /\ (forall a, r = Ok a -> R a) /\
     (b = true -> exists d, d_files d = fs /\ r = snd (op d))) E.
Proof.
  intros H s [Hf Hb]. unfold attempted, on_disk, guarded. pose proof (next_fault_files (st_disk s)) as Hn.
  destruct (next_fault (st_disk s)) as [f d] eqn:En. cbn [snd] in Hn. unfold files in Hf. rewrite Hf in Hn.
  assert (Hq : b = true -> f = Fine /\ faultless d).
  { intros Eb. destruct (next_fault_faultless _ (Hb Eb)) as (d' & E' & _ & Hl). rewrite En in E'. by injection E' as -> ->. }
  destruct f as [|n e].
  - destruct (H d Hn) as [H1 H2]. destruct (op d) as [d1 r] eqn:Eo. cbn in H1, H2. subst d1.
    split_and!; [by split; [|intros Eb; apply Hq]|by intros a ->|]. intros _. exists d. by rewrite Eo.
  - split_and!; [by split; [|intros Eb; apply Hq]|done|]. intros Eb. by destruct (Hq Eb).
Qed.
Lemma read_file_quiet b fs path E :
  triple (quiet b fs) (attempted (read_file path)) (fun r s => quiet b fs s /\
    (forall c, r = Ok c -> fs !! path = Some c) /\
    (b = true -> r = match fs !! path with Some c => Ok c | None => Err not_found end)) E.
Proof.
  intros s Hs. pose proof (guarded_quiet (fun d => match d_files d !! path with
    | Some c => (d, Ok c) | None => (d, Err not_found) end) (fun c => fs !! path = Some c) b fs E) as H.
  specialize (H ltac:(intros d Hd; cbn beta; rewrite Hd; by destruct (fs !! path)) s Hs). unfold read_file.
  destruct (attempted _ s) as [s' [r|e]]; [|done]. destruct H as (H1 & H2 & H3). split_and!; [done..|].
  intros Eb. destruct (H3 Eb) as (d & <- & ->). by destruct (d_files d !! path).
Qed.
Lemma ask_file_quiet b fs path E :
  triple (quiet b fs) (ask_file path) (fun r s => quiet b fs s /\ (b = true -> r = is_some (fs !! path))) E.
Proof.
  intros s [Hf Hb]. unfold ask_file, is_file. pose proof (next_fault_files (st_disk s)) as Hn.
  destruct (next_fault (st_disk s)) as [f d] eqn:En. cbn [snd] in Hn. unfold files in Hf. rewrite Hf in Hn.
  assert (Hq : b = true -> f = Fine /\ faultless d).
  { intros Eb. destruct (next_fault_faultless _ (Hb Eb)) as (d' & E' & _ & Hl). rewrite En in E'. by injection E' as -> ->. }
  destruct f as [|n e]; (split; [by split; [|intros Eb; apply Hq]|]); intros Eb; [by rewrite Hn|by destruct (Hq Eb)].
Qed.

Lemma read_open_file_Ok content path limit label bytes :
  limit < USIZE_MAX -> read_open_file content path limit label = Ok bytes -> bytes = content /\ blen content <= limit.
Proof.
  intros Hl. unfold read_open_file, saturating_add. rewrite N.min_r by lia. case_match eqn:E; [done|]. intros [= <-].
  apply N.ltb_ge in E. destruct (N.le_gt_cases (blen content) (limit + 1)) as [H|H].
  - rewrite take_N_all in * by done. by split.
  - rewrite blen_take_N in E. lia.
Qed.
Lemma read_open_file_total content path limit label :
  limit < USIZE_MAX -> blen content <= limit -> read_open_file content path limit label = Ok content.
Proof.
  intros Hl Hc. unfold read_open_file, saturating_add. rewrite N.min_r by lia. rewrite take_N_all by lia.
  by rewrite (proj2 (N.ltb_ge _ _) Hc).
Qed.
Lemma read_utf8_quiet b fs path limit label :
  limit < USIZE_MAX ->
  triple (quiet b fs) (read_utf8_file_bounded path limit label) (fun r s => quiet b fs s /\
    (forall text, r = Some text -> fs !! path = Some (encode text) /\ valid_str text = true /\ len text <= limit) /\
    (b = true -> r = None -> fs !! path = None)) (fun _ => True).
Proof.
  intros Hl. unfold read_utf8_file_bounded. eapply triple_bind; [apply read_file_quiet|intros r]. cbv zeta.
  intros s (Hs & H1 & H2). destruct r as [content|e]; cbn [mbind result_bind].
  - destruct (read_open_file content _ limit label) as [bytes|e] eqn:E.
    + apply read_open_file_Ok in E as [-> Hc]; [|done]. destruct (from_utf8 content) as [text|] eqn:Eu; [|done].
      apply from_utf8_Some in Eu as [<- Hv]. cbn. split_and!; [done| |done]. intros text' [= <-].
      unfold blen in Hc. rewrite length_encode in Hc. auto.
    + case_bool_decide as Ek; [|by case_bool_decide]. exfalso. clear H2. unfold read_open_file in E.
      destruct (_ <? _) in E; [|done]. by injection E as <-.
  - case_bool_decide as Ek; [|by case_bool_decide]. cbn. split_and!; [done..|]. intros Eb _. specialize (H2 Eb).
    by destruct (fs !! path).
Qed.
Lemma read_group_quiet b fs name bytes :
  triple (quiet b fs) (read_group_text rules_dir name bytes) (fun r s => quiet b fs s /\
    (forall text, fst r = Some text -> fs !! group_path name = Some (encode text) /\ valid_str text = true) /\
    (b = true -> fst r = None -> fs !! group_path name = None)) (fun _ => True).
Proof.
  unfold read_group_text. cbv zeta. eapply triple_bind; [apply read_utf8_quiet|].
  { unfold saturating_sub, MAX_RULE_SNAPSHOT_SOURCE_BYTES, USIZE_MAX, U64_MAX. lia. }
  intros r s (Hs & H1 & H2). destruct r as [text|]; (split; [done|]); cbn [fst]; (split; [|by auto]).
  - intros text' [= <-]. by destruct (H1 text eq_refl) as (? & ? & _).
  - done.
Qed.

(** A group read from the files: its text is text, and that of its file. *)
Definition read_well (b : bool) (fs : Files) (g : RuleGroup) : Prop :=
  valid_str (gr_text g) = true /\
  (b = true -> forall bytes, fs !! group_path (gr_name g) = Some bytes -> bytes = encode (gr_text g)).
Lemma read_well_default b fs name enabled bytes :
  triple (quiet b fs) (read_group_text rules_dir name bytes)
    (fun r s => quiet b fs s /\ read_well b fs (mkRuleGroup name enabled (unwrap_or (fst r) []))) (fun _ => True).
Proof.
  eapply triple_conseq; [apply read_group_quiet|done| |done]. intros [[text|] n] s (Hs & H1 & H2); cbn [fst snd unwrap_or] in *.
  - destruct (H1 text eq_refl) as [H3 H4]. split; [done|]. split; [done|]. cbn [gr_name gr_text]. intros _ c Hc. congruence.
  - split; [done|]. split; [done|]. cbn [gr_name gr_text]. intros Eb c Hc. by rewrite H2 in Hc.
Qed.

Lemma validate_quiet (P : RuleStore -> Prop) name :
  triple P (validate_group_name name) (fun _ s => P s /\ group_name_ok name = true) P.
Proof. intros s Hs. unfold validate_group_name. by destruct (group_name_ok name) eqn:E. Qed.
Lemma read_entries_quiet b fs seen bytes entries :
  triple (quiet b fs) (read_entries rules_dir seen bytes entries) (fun r s => quiet b fs s /\
    map gr_name (fst r) = map mg_name entries /\ named (fst r) /\ Forall (fun g => gr_name g ∉ seen) (fst r) /\
    Forall (read_well b fs) (fst r)) (fun _ => True).
Proof.
  revert seen bytes. induction entries as [|e entries IH]; intros seen bytes; cbn [read_entries].
  { apply triple_ret. intros s Hs. split_and!; [done|done|split; constructor|constructor|constructor]. }
  eapply triple_bind; [eapply triple_conseq; [apply validate_quiet|done|done|done]|intros []].
  intros s [Hs Hn]. revert s Hs. case_bool_decide as Hin; [done|].
  eapply triple_bind; [apply (read_well_default b fs _ (mg_enabled e))|intros [[text|] n]]; cbn [fst snd]; [|done].
  intros s [Hs Hw]. revert s Hs. eapply triple_bind; [apply IH|intros rest]. apply triple_ret. cbn [fst snd].
  intros s (Hs & Hm & [Ho Hd] & Hseen & Hr). cbn [map gr_name]. split_and!; [done|by rewrite Hm| | |by constructor].
  - split; [by constructor|]. cbn [map gr_name]. constructor; [|done]. rewrite Forall_forall in Hseen.
    intros (g & Eg & Hg)%list_elem_of_fmap. apply Hseen in Hg. apply Hg. rewrite Eg. left.
  - constructor; [done|]. rewrite Forall_forall in *. intros g Hg H. apply (Hseen g Hg). by right.
Qed.

Definition listing (fs : Files) : list str :=
  map (fun kv => kv.1.2) (List.filter (fun kv => bool_decide (kv.1.1 = rules_dir)) (map_to_list fs)).
Definition group_files (fs : Files) : list str := omap group_of_file (listing fs).
Lemma elem_of_listing fs file : file ∈ listing fs <-> is_Some (fs !! (rules_dir, file)).
Proof.
  unfold listing. rewrite list_elem_of_fmap. split.
  - intros ([[dir name] c] & -> & H). cbn. apply list_elem_of_In, filter_In in H as [H Hd]. apply bool_decide_eq_true in Hd.
    cbn in Hd. subst dir. apply list_elem_of_In, elem_of_map_to_list in H. eauto.
  - intros [c Hc]. exists ((rules_dir, file), c). split; [done|]. apply list_elem_of_In, filter_In. split.
    + by apply list_elem_of_In, elem_of_map_to_list.
    + by apply bool_decide_eq_true.
Qed.
Lemma NoDup_listing fs : NoDup (listing fs).
Proof.
  unfold listing. assert (H : NoDup (map fst (map_to_list fs))) by apply NoDup_fst_map_to_list. revert H.
  generalize (map_to_list fs). intros l. induction l as [|[[dir name] c] l IH]; cbn; [constructor|].
  intros [Hx Hn]%NoDup_cons. case_bool_decide as Hd; cbn; [|auto]. subst dir. constructor; [|auto].
  intros ([[dir' name'] c'] & -> & H)%list_elem_of_fmap. apply list_elem_of_In, filter_In in H as [H Hd].
  apply bool_decide_eq_true in Hd. cbn in Hd. subst dir'. apply Hx. cbn. apply list_elem_of_fmap.
  exists ((rules_dir, name'), c'). split; [done|]. by apply list_elem_of_In.
Qed.
Lemma elem_of_group_files fs name :
  name ∈ group_files fs <-> name <> [] /\ is_Some (fs !! group_path name).
Proof.
  unfold group_files. rewrite list_elem_of_omap. split.
  - intros (file & Hf & H). apply group_of_file_Some in H as [-> Hn]. split; [done|]. by apply elem_of_listing.
  - intros [Hn H]. exists (name ++ lit ".rules"). split; [by apply elem_of_listing|by apply group_of_file_app].
Qed.
Lemma NoDup_group_files fs : NoDup (group_files fs).
Proof.
  unfold group_files. pose proof (NoDup_listing fs) as H. induction (listing fs) as [|file l IH]; cbn; [constructor|].
  apply NoDup_cons in H as [Hx Hn]. destruct (group_of_file file) as [name|] eqn:E; cbn; [|auto]. constructor; [|auto].
  intros (file' & Hf & H)%list_elem_of_omap. apply group_of_file_Some in E as [-> _], H as [-> _]. done.
Qed.

Lemma io_guarded_quiet b fs context :
  triple (quiet b fs) (io_context context (guarded (mret tt))) (fun _ => quiet b fs) (fun s => b = false).
Proof.
  unfold io_context. eapply triple_bind.
  { apply (guarded_quiet (mret tt) (fun _ => True) b fs (fun s => b = false)). intros d _. done. }
  intros [[]|e]; [apply triple_ret; by intros s (? & _)|]. apply triple_fail. intros s (_ & _ & H).
  destruct b; [|done]. by destruct (H eq_refl) as (d & _ & ?).
Qed.
Lemma collect_names_quiet b fs names l :
  Forall (fun name => group_name_ok name = true) names ->
  triple (quiet b fs) (collect_names names l) (fun r s => quiet b fs s /\ r = names ++ omap group_of_file l /\
    Forall (fun name => group_name_ok name = true) r) (fun _ => True).
Proof.
  revert names. induction l as [|file l IH]; intros names Hn; cbn [collect_names omap].
  { apply triple_ret. intros s Hs. by rewrite app_nil_r. }
  eapply triple_bind; [eapply triple_conseq; [apply io_guarded_quiet|done|done|done]|intros []].
  eapply triple_bind; [eapply triple_conseq; [apply io_guarded_quiet|done|done|done]|intros []].
  destruct (group_of_file file) as [name|] eqn:E; cbn [omap list_omap]; rewrite E; [|by apply IH].
  eapply triple_bind; [eapply triple_conseq; [apply validate_quiet|done|done|done]|intros []].
  intros s [Hs Ho]. revert s Hs. case_match; [done|]. eapply triple_conseq; [apply IH|done| |done].
  - apply Forall_app. by split; [|constructor].
  - cbn beta. intros r s (Hs & -> & Hr). split_and!; [done| |done]. by rewrite <- app_assoc.
Qed.
Lemma discover_names_quiet b fs :
  triple (quiet b fs) (discover_group_names rules_dir) (fun names s => quiet b fs s /\ NoDup names /\
    Forall (fun name => group_name_ok name = true) names /\ (b = true -> names ≡ₚ group_files fs)) (fun _ => True).
Proof.
  unfold discover_group_names, read_dir. eapply triple_bind.
  { apply (guarded_quiet _ (fun l => l = listing fs) b fs (fun _ => True)). intros d <-. done. }
  intros [l|e] s (Hs & H1 & H2).
  - rewrite (H1 l eq_refl). revert s Hs. eapply triple_bind; [by apply collect_names_quiet|intros names]. cbn beta.
    apply triple_ret. intros s (Hs & -> & Ho). cbn [app] in *. fold (group_files fs) in *. unfold sort_names.
    pose proof (merge_sort_Permutation str_le (group_files fs)) as Hp. split_and!; [done| | |done].
    + rewrite Hp. apply NoDup_group_files.
    + by rewrite Hp.
  - case_bool_decide as Ek; [|done]. cbn. split_and!; [done|constructor|constructor|]. intros Eb.
    destruct (H2 Eb) as (d & _ & E). done.
Qed.

Lemma read_enabled_quiet b fs bytes names :
  triple (quiet b fs) (read_enabled rules_dir bytes names) (fun r s => quiet b fs s /\
    map gr_name (fst r) = names /\ Forall (read_well b fs) (fst r)) (fun _ => True).
Proof.
  revert bytes. induction names as [|name names IH]; intros bytes; cbn [read_enabled].
  { apply triple_ret. intros s Hs. split_and!; [done..|constructor]. }
  eapply triple_bind; [apply (read_well_default b fs name true)|intros read]. intros s [Hs Hw]. revert s Hs.
  eapply triple_bind; [apply IH|intros rest]. apply triple_ret. intros s (Hs & <- & Hr).
  split_and!; [done|done|by constructor].
Qed.
Lemma append_names_quiet b fs listed groups bytes names :
  triple (quiet b fs) (append_names rules_dir listed groups bytes names) (fun r s => quiet b fs s /\
    exists more, fst r = groups ++ more /\ map gr_name more = filter (fun name => name ∉ listed) names /\
      Forall (read_well b fs) more) (fun _ => True).
Proof.
  revert groups bytes. induction names as [|name names IH]; intros groups bytes; cbn [append_names].
  { apply triple_ret. intros s Hs. split; [done|]. exists []. rewrite app_nil_r. split_and!; [done..|constructor]. }
  case_bool_decide as Hin.
  - eapply triple_conseq; [apply IH|done| |done]. cbn beta. intros r s (Hs & more & E & Hm & Hw).
    split; [done|]. exists more. rewrite filter_cons_False by (intros H; by apply H). done.
  - case_match; [done|].
    eapply triple_bind; [apply (read_well_default b fs name true)|intros read]. intros s [Hs Hw]. revert s Hs.
    eapply triple_conseq; [apply IH|done| |done]. cbn beta. intros r s (Hs & more & E & Hm & Hr).
    split; [done|]. eexists (_ :: more). rewrite E, <- app_assoc, filter_cons_True by done. split_and!; [reflexivity| |by constructor].
    cbn [map gr_name]. by rewrite Hm.
Qed.

(** What a reader of a snapshot may rely on. *)
Definition snapshot_ok (groups : list RuleGroup) : Prop :=
  named groups /\ DEFAULT_GROUP ∈ map gr_name groups /\ Forall (fun g => valid_str (gr_text g) = true) groups /\
  compiles groups.
(** Every group of the files is there, with the text of its file. *)
Definition covers (fs : Files) (groups : list RuleGroup) : Prop :=
  Forall (read_well true fs) groups /\
  forall name, name <> [] -> is_Some (fs !! group_path name) -> name ∈ map gr_name groups.

Lemma named_app groups more names listed :
  named groups -> listed = map gr_name groups -> NoDup names -> Forall (fun name => group_name_ok name = true) names ->
  map gr_name more = filter (fun name => name ∉ listed) names -> named (groups ++ more).
Proof.
  intros [Ho Hd] -> Hn Hok Hm.
  assert (Hin : forall g, g ∈ more -> (gr_name g ∉ map gr_name groups) /\ gr_name g ∈ names).
  { intros g Hg. apply (list_elem_of_filter (fun name => name ∉ map gr_name groups)). rewrite <- Hm. by apply list_elem_of_fmap_2. }
  split.
  - apply Forall_app. split; [done|]. apply Forall_forall. intros g Hg. rewrite Forall_forall in Hok. by apply Hok, Hin.
  - rewrite map_app. apply NoDup_app. split_and!; [done| |rewrite Hm; by apply NoDup_filter].
    intros name Hg (g & -> & Hg')%list_elem_of_fmap. by apply Hin in Hg' as [? _].
Qed.
Lemma load_groups_quiet b fs (listed : bool) :
  triple (quiet b fs) (if listed then load_manifest_groups rules_dir else discover_groups rules_dir)
    (fun r s => quiet b fs s /\ named (fst r) /\ Forall (read_well b fs) (fst r)) (fun _ => True).
Proof.
  destruct listed.
  - unfold load_manifest_groups. eapply triple_bind; [by apply read_utf8_quiet|intros [text|]]; [|done].
    intros s (Hs & _). revert s Hs. destruct (manifest_from_toml text) as [manifest|e]; [|done].
    case_match; [done|]. case_match; [done|]. eapply triple_conseq; [apply read_entries_quiet|done| |done].
    cbn beta. tauto.
  - unfold discover_groups. eapply triple_bind; [apply discover_names_quiet|intros names].
    intros s (Hs & Hn & Ho & _). revert s Hs. eapply triple_conseq; [apply read_enabled_quiet|done| |done].
    cbn beta. intros r s (Hs & Hm & Hw). split_and!; [done| |done].
    pose proof (merge_sort_Permutation default_first names) as Hp. split; [|by rewrite Hm, Hp].
    assert (H : Forall (fun name => group_name_ok name = true) (map gr_name (fst r))) by (by rewrite Hm, Hp).
    by apply Forall_map in H.
Qed.

Lemma append_unlisted_quiet b fs groups bytes :
  named groups -> Forall (read_well b fs) groups ->
  triple (quiet b fs) (append_unlisted_groups rules_dir groups bytes) (fun r s => quiet b fs s /\
    named (fst r) /\ Forall (read_well b fs) (fst r) /\
    (b = true -> forall name, name <> [] -> is_Some (fs !! group_path name) -> name ∈ map gr_name (fst r))) (fun _ => True).
Proof.
  intros Hn Hw. unfold append_unlisted_groups. eapply triple_bind; [apply discover_names_quiet|intros names].
  intros s (Hs & Hnd & Hok & Hall). revert s Hs. eapply triple_conseq; [apply append_names_quiet|done| |done].
  cbn beta. intros r s (Hs & more & E & Hm & Hr). rewrite E. split_and!; [done|by eapply named_app|by apply Forall_app|].
  intros Eb name Hne Hf. rewrite map_app, Hm, elem_of_app.
  destruct (decide (name ∈ map gr_name groups)) as [|Hin]; [by left|right]. apply list_elem_of_filter. split; [done|].
  rewrite (Hall Eb). by apply elem_of_group_files.
Qed.
Lemma existsb_name groups name : existsb (fun g => gr_name g =s? name) groups = true <-> name ∈ map gr_name groups.
Proof.
  rewrite existsb_exists, list_elem_of_fmap. split.
  - intros (g & Hg & E). apply bool_decide_eq_true in E. exists g. by rewrite list_elem_of_In.
  - intros (g & -> & Hg). exists g. rewrite bool_decide_eq_true. by rewrite <- list_elem_of_In.
Qed.
Lemma existsb_no_name groups name : existsb (fun g => gr_name g =s? name) groups = false -> name ∉ map gr_name groups.
Proof. intros E H. apply existsb_name in H. congruence. Qed.
Lemma load_quiet b fs :
  triple (quiet b fs) (load_snapshot rules_dir) (fun snapshot s => quiet b fs s /\
    snapshot_ok (sp_groups snapshot) /\ compiled_from snapshot /\ (b = true -> covers fs (sp_groups snapshot))) (fun _ => True).
Proof.
  unfold load_snapshot. eapply triple_bind; [apply ask_file_quiet|intros listed]. intros s [Hs _]. revert s Hs.
  eapply triple_bind; [apply load_groups_quiet|intros read]. intros s (Hs & Hn & Hw). revert s Hs.
  eapply triple_bind; [by apply append_unlisted_quiet|intros read']. intros s (Hs & Hn' & Hw' & Hc). revert s Hs.
  apply triple_bind with (M := fun groups s => quiet b fs s /\ named groups /\ DEFAULT_GROUP ∈ map gr_name groups /\
    Forall (read_well b fs) groups /\ (b = true -> covers fs groups)).
  - destruct (existsb _ _) eqn:E.
    + apply triple_ret. intros s Hs. apply existsb_name in E. split_and!; [done..|]. by intros ->; split; auto.
    + case_match; [done|]. eapply triple_bind; [apply (read_well_default b fs DEFAULT_GROUP true)|intros text].
      apply triple_ret. intros s [Hs Hd]. apply existsb_no_name in E. split_and!; [done| |by left|by constructor|].
      * destruct Hn' as [H1 H2]. split; [by constructor|by constructor].
      * intros ->. split; [by constructor|]. intros name Hne Hf. right. auto.
  - intros groups s (Hs & Hng & Hd & Hg & Hcov). revert s Hs. eapply triple_conseq; [apply compile_spec, quiet_version|done| |done].
    cbn beta. intros snapshot s (Hs & -> & Hcomp & Hfrom). split_and!; [done| |done|done]. split_and!; [done..| |done].
    eapply Forall_impl; [exact Hg|]. by intros g [? _].
Qed.

(** ** A directory that was written is read back *)

(** Without faults the load ends with these groups. *)
Definition loads (fs : Files) (groups : list RuleGroup) : Prop := forall s, quiet true fs s ->
  exists s' snapshot, load_snapshot rules_dir s = (s', Ok snapshot) /\ sp_groups snapshot = groups.
Definition never (s : RuleStore) : Prop := False.

Lemma read_utf8_total fs path limit label text :
  limit < USIZE_MAX -> fs !! path = Some (encode text) -> valid_str text = true -> len text <= limit ->
  triple (quiet true fs) (read_utf8_file_bounded path limit label) (fun r s => quiet true fs s /\ r = Some text) never.
Proof.
  intros Hl Hp Hv Hle. unfold read_utf8_file_bounded. eapply triple_bind; [apply read_file_quiet|intros r]. cbv zeta.
  intros s (Hs & _ & H). rewrite (H eq_refl), Hp. cbn [mbind result_bind].
  rewrite read_open_file_total; [|done|unfold blen; by rewrite length_encode]. by rewrite from_utf8_encode.
Qed.
Lemma read_group_total fs name text bytes :
  fs !! group_path name = Some (encode text) -> valid_str text = true -> bytes + len text <= MAX_RULE_SNAPSHOT_SOURCE_BYTES ->
  triple (quiet true fs) (read_group_text rules_dir name bytes)
    (fun r s => quiet true fs s /\ r = (Some text, bytes + len text)) never.
Proof.
  intros Hp Hv Hle. unfold read_group_text. cbv zeta. eapply triple_bind.
  { apply read_utf8_total with (text := text); [|done|done|unfold saturating_sub; lia].
    unfold saturating_sub, MAX_RULE_SNAPSHOT_SOURCE_BYTES, USIZE_MAX, U64_MAX. lia. }
  intros r s [Hs ->]. done.
Qed.
Definition total_text (groups : list RuleGroup) : N := sum_N (map (fun g => len (gr_text g)) groups).
Definition manifest_entry (g : RuleGroup) : ManifestGroup := mkManifestGroup (gr_name g) (gr_enabled g).
Definition stored (fs : Files) (g : RuleGroup) : Prop :=
  fs !! group_path (gr_name g) = Some (encode (gr_text g)) /\ valid_str (gr_text g) = true.
Lemma read_entries_total fs seen bytes groups :
  named groups -> Forall (fun g => gr_name g ∉ seen) groups -> Forall (stored fs) groups ->
  bytes + total_text groups <= MAX_RULE_SNAPSHOT_SOURCE_BYTES ->
  triple (quiet true fs) (read_entries rules_dir seen bytes (map manifest_entry groups))
    (fun r s => quiet true fs s /\ r = (groups, bytes + total_text groups)) never.
Proof.
  revert seen bytes. induction groups as [|g groups IH]; intros seen bytes [Ho Hd] Hseen Hst Hle; cbn [map read_entries].
  { apply triple_ret. intros s Hq. by rewrite N.add_0_r. }
  inversion_clear Ho as [|? ? Hg Ho']. inversion_clear Hseen as [|? ? Hs Hseen']. inversion_clear Hst as [|? ? Hgs Hst'].
  cbn [map] in Hd. apply NoDup_cons in Hd as [Hx Hd]. destruct Hgs as [Hf Hv].
  change (total_text (g :: groups)) with (len (gr_text g) + total_text groups) in Hle.
  unfold validate_group_name. cbn [manifest_entry mg_name mg_enabled]. rewrite Hg.
  eapply triple_bind; [by apply (triple_ret (quiet true fs) tt (fun _ => quiet true fs))|intros []].
  rewrite bool_decide_false by done. eapply triple_bind; [apply read_group_total; [done|done|lia]|intros read].
  intros s [Hq ->]. revert s Hq. cbn [fst snd]. eapply triple_bind; [apply IH|intros rest].
  - by split.
  - rewrite Forall_forall in *. intros g' Hg' [E|H]%elem_of_cons; [|by apply (Hseen' g')].
    apply Hx. rewrite <- E. by apply list_elem_of_fmap_2.
  - done.
  - lia.
  - apply triple_ret. intros s [Hq ->]. split; [done|]. cbn [fst snd].
    change (total_text (g :: groups)) with (len (gr_text g) + total_text groups). rewrite N.add_assoc. by destruct g.
Qed.
Lemma collect_names_total fs names l :
  Forall (fun name => group_name_ok name = true) (omap group_of_file l) ->
  blen names + blen (omap group_of_file l) <= MAX_RULE_GROUPS_PER_SNAPSHOT ->
  triple (quiet true fs) (collect_names names l) (fun r s => quiet true fs s /\ r = names ++ omap group_of_file l) never.
Proof.
  revert names. induction l as [|file l IH]; intros names Ho Hl; cbn [collect_names].
  { apply triple_ret. intros s Hs. by rewrite app_nil_r. }
  do 2 (eapply triple_bind; [eapply triple_conseq; [apply io_guarded_quiet|done|done|done]|intros []]).
  cbn [omap list_omap] in *. destruct (group_of_file file) as [name|] eqn:E; [|by apply IH].
  inversion_clear Ho as [|? ? Hn Ho']. unfold validate_group_name. rewrite Hn.
  eapply triple_bind; [by apply (triple_ret (quiet true fs) tt (fun _ => quiet true fs))|intros []].
  unfold blen in *. cbn [length] in Hl. rewrite (proj2 (N.eqb_neq _ _)) by lia.
  eapply triple_conseq; [apply IH; [done|]|done| |done].
  - rewrite length_app. cbn [length]. lia.
  - cbn beta. intros r s [Hs ->]. by rewrite <- app_assoc.
Qed.

Lemma discover_names_total fs :
  Forall (fun name => group_name_ok name = true) (group_files fs) -> blen (group_files fs) <= MAX_RULE_GROUPS_PER_SNAPSHOT ->
  triple (quiet true fs) (discover_group_names rules_dir) (fun names s => quiet true fs s /\ names ≡ₚ group_files fs) never.
Proof.
  intros Ho Hl. unfold discover_group_names, read_dir. eapply triple_bind.
  { apply (guarded_quiet _ (fun l => l = listing fs) true fs never). intros d <-. done. }
  intros r s (Hs & _ & H2). destruct (H2 eq_refl) as (d & <- & ->). cbn [snd]. fold (listing (d_files d)). revert s Hs.
  eapply triple_bind; [apply collect_names_total; [done|]|intros names].
  - change (blen []) with 0. by rewrite N.add_0_l.
  - apply triple_ret. cbn beta. intros s [Hs ->]. split; [done|]. apply merge_sort_Permutation.
Qed.
Lemma append_names_total fs listed groups extra bytes names :
  map gr_name extra = filter (fun name => name ∉ listed) names -> Forall (fun g => gr_enabled g = true) extra ->
  Forall (stored fs) extra -> bytes + total_text extra <= MAX_RULE_SNAPSHOT_SOURCE_BYTES ->
  blen groups + blen extra <= MAX_RULE_GROUPS_PER_SNAPSHOT ->
  triple (quiet true fs) (append_names rules_dir listed groups bytes names)
    (fun r s => quiet true fs s /\ fst r = groups ++ extra) never.
Proof.
  revert groups extra bytes. induction names as [|name names IH]; intros groups extra bytes Hm He Hst Hb Hl; cbn [append_names].
  { destruct extra; [|done]. apply triple_ret. intros s Hs. by rewrite app_nil_r. }
  case_bool_decide as Hin.
  { apply IH; try done. rewrite Hm. apply filter_cons_False. intros H. by apply H. }
  rewrite filter_cons_True in Hm by done. destruct extra as [|g extra]; [done|]. cbn [map] in Hm. injection Hm as Hg Hm.
  inversion_clear He as [|? ? He1 He']. inversion_clear Hst as [|? ? [Hf Hv] Hst'].
  change (total_text (g :: extra)) with (len (gr_text g) + total_text extra) in Hb. unfold blen in Hl. cbn [length] in Hl.
  unfold blen. rewrite (proj2 (N.eqb_neq _ _)) by lia. rewrite <- Hg.
  eapply triple_bind; [apply read_group_total; [done|done|lia]|intros read]. intros s [Hs ->]. revert s Hs.
  cbn [fst snd unwrap_or]. eapply triple_conseq; [apply (IH _ extra)|done| |done]; try done; try lia.
  - unfold blen. rewrite length_app. cbn [length]. lia.
  - cbn beta. intros r s [Hs ->]. split; [done|]. rewrite <- app_assoc. destruct g; cbn in *. by subst.
Qed.

Lemma has_texts_stored fs m t groups :
  shows fs m t -> named groups -> has_texts groups t -> Forall (fun g => valid_str (gr_text g) = true) groups ->
  Forall (stored fs) groups.
Proof.
  intros (_ & Hs & _) Hn Ht Hv. unfold has_texts in Ht. rewrite Forall_forall in *. intros g Hg. split; [|auto].
  rewrite Hs by (by eapply named_nonempty). auto.
Qed.
Lemma group_files_named fs m groups :
  named groups -> view groups groups m fs -> group_files fs ≡ₚ map gr_name groups.
Proof.
  intros Hn (t & Hs & Ht & Hh). apply NoDup_Permutation; [apply NoDup_group_files|by destruct Hn|]. intros name.
  rewrite elem_of_group_files, list_elem_of_fmap. destruct Hs as (_ & Hs & _). split.
  - intros [Hne [c Hc]]. rewrite Hs in Hc by done. apply Ht in Hc as (g & Hg & <- & _). eauto.
  - intros (g & -> & Hg). split; [by eapply named_nonempty|]. rewrite Hs by (by eapply named_nonempty).
    unfold has_texts in Hh. rewrite Forall_forall in Hh. rewrite Hh by done. eauto.
Qed.
Lemma manifest_within groups :
  named groups -> blen groups <= MAX_RULE_GROUPS_PER_SNAPSHOT ->
  64 + sum_N (map (fun g => 64 + len (mg_name g)) (map manifest_entry groups)) <= MAX_RULE_MANIFEST_BYTES.
Proof.
  intros [Ho _] Hl. assert (H : sum_N (map (fun g => 64 + len (mg_name g)) (map manifest_entry groups)) <= blen groups * 192).
  { clear Hl. induction Ho as [|g groups Hg _ IH]; [done|]. apply group_name_ok_spec in Hg as (_ & Hg & _).
    unfold blen in *. cbn [map sum_N foldr length manifest_entry mg_name]. fold (sum_N (map (fun g => 64 + len (mg_name g)) (map manifest_entry groups))).
    unfold MAX_RULE_GROUP_NAME_BYTES in Hg. lia. }
  unfold MAX_RULE_GROUPS_PER_SNAPSHOT, MAX_RULE_MANIFEST_BYTES in *. lia.
Qed.

Lemma compiles_within groups :
  compiles groups -> blen groups <= MAX_RULE_GROUPS_PER_SNAPSHOT /\ total_text groups <= MAX_RULE_SNAPSHOT_SOURCE_BYTES.
Proof.
  intros [H _]. apply parses_within in H as [H1 H2]. unfold blen, group_sources in H1. rewrite length_map in H1.
  unfold source_bytes, group_sources in H2. rewrite map_map in H2. by split.
Qed.
Lemma total_text_app a b : total_text (a ++ b) = total_text a + total_text b.
Proof. unfold total_text. by rewrite map_app, sum_N_app. Qed.
Lemma load_manifest_total fs groups bytes m :
  named groups -> blen groups <= MAX_RULE_GROUPS_PER_SNAPSHOT -> total_text groups <= MAX_RULE_SNAPSHOT_SOURCE_BYTES ->
  Forall (stored fs) groups -> manifest_bytes groups bytes -> m = Some bytes -> fs !! manifest_path = m ->
  triple (quiet true fs) (load_manifest_groups rules_dir) (fun r s => quiet true fs s /\ r = (groups, total_text groups)) never.
Proof.
  intros Hn Hl Ht Hst (text & Em & ->) -> Hm. unfold load_manifest_groups.
  destruct (manifest_reads_back (map manifest_entry groups)) as (text' & Et & Hv & Hr & Hle).
  { destruct Hn as [Ho _]. by apply Forall_map. }
  change (mkRuleManifest MANIFEST_VERSION (map manifest_entry groups)) with (manifest_of groups) in *.
  rewrite Em in Et. injection Et as <-.
  eapply triple_bind; [eapply read_utf8_total; [done|exact Hm|done|]|intros r].
  { etransitivity; [exact Hle|]. by apply manifest_within. }
  intros s [Hs ->]. revert s Hs. rewrite Hr. cbn [manifest_of rm_version rm_groups negb N.eqb MANIFEST_VERSION Pos.eqb].
  unfold blen in *. rewrite length_map, (proj2 (N.ltb_ge _ _) Hl).
  apply (read_entries_total fs [] 0); [done| |done|by rewrite N.add_0_l].
  apply Forall_forall. intros g _. apply not_elem_of_nil.
Qed.
Lemma filter_none {A} (P : A -> Prop) `{!forall x, Decision (P x)} l : Forall (fun x => ~ P x) l -> filter P l = [].
Proof. induction 1 as [|x l Hx _ IH]; [done|]. by rewrite filter_cons_False. Qed.
Lemma filter_every {A} (P : A -> Prop) `{!forall x, Decision (P x)} l : Forall P l -> filter P l = l.
Proof. induction 1 as [|x l Hx _ IH]; [done|]. rewrite filter_cons_True by done. by rewrite IH. Qed.
Lemma unlisted_names listed extra names :
  named (listed ++ extra) -> (length extra <= 1)%nat -> names ≡ₚ map gr_name (listed ++ extra) ->
  map gr_name extra = filter (fun name => name ∉ map gr_name listed) names.
Proof.
  intros [_ Hn] Hl Hp. rewrite map_app in *. apply NoDup_app in Hn as (_ & Hd & _).
  assert (H : filter (fun name => name ∉ map gr_name listed) names ≡ₚ map gr_name extra).
  { rewrite Hp, filter_app, filter_none, filter_every; [done| |].
    - apply Forall_forall. intros name Hin H. by apply (Hd name).
    - apply Forall_forall. intros name Hin H. by apply H. }
  symmetry in H. destruct extra as [|g [|]]; cbn [map length] in *; [by apply Permutation_nil in H| |lia].
  by apply Permutation_length_1_inv in H.
Qed.
Lemma append_unlisted_total fs listed extra m bytes :
  named (listed ++ extra) -> view (listed ++ extra) (listed ++ extra) m fs -> Forall (stored fs) extra ->
  Forall (fun g => gr_enabled g = true) extra -> (length extra <= 1)%nat ->
  bytes + total_text extra <= MAX_RULE_SNAPSHOT_SOURCE_BYTES -> blen (listed ++ extra) <= MAX_RULE_GROUPS_PER_SNAPSHOT ->
  triple (quiet true fs) (append_unlisted_groups rules_dir listed bytes)
    (fun r s => quiet true fs s /\ fst r = listed ++ extra) never.
Proof.
  intros Hn Hview Hst He Hle Hb Hl. unfold append_unlisted_groups. pose proof (group_files_named _ _ _ Hn Hview) as Hp.
  eapply triple_bind; [apply discover_names_total|intros names].
  - rewrite Hp. destruct Hn as [Ho _]. by apply Forall_map.
  - unfold blen in *. rewrite Hp, length_map. done.
  - intros s [Hs Hnames]. revert s Hs. apply append_names_total; [|done..|].
    + apply unlisted_names; [done|done|by rewrite Hnames].
    + unfold blen in *. rewrite length_app in Hl. lia.
Qed.
(** The manifest lists the groups, and at most one file is not in it. *)
Lemma written_loads fs listed extra bytes :
  snapshot_ok (listed ++ extra) -> manifest_bytes listed bytes -> view (listed ++ extra) (listed ++ extra) (Some bytes) fs ->
  Forall (fun g => gr_enabled g = true) extra -> (length extra <= 1)%nat -> loads fs (listed ++ extra).
Proof.
  intros (Hn & Hd & Hv & Hc) Hm Hview He Hle s Hs.
  destruct (compiles_within _ Hc) as [Hcount Htotal].
  assert (Hst : Forall (stored fs) (listed ++ extra)) by (destruct Hview as (t & ? & ? & ?); by eapply has_texts_stored).
  assert (Hman : fs !! manifest_path = Some bytes) by (by destruct Hview as (t & (? & _) & _)).
  pose proof Hst as [Hst1 Hst2]%Forall_app. destruct Hn as [Ho Hnd]. pose proof Ho as [Ho1 Ho2]%Forall_app.
  pose proof Hnd as Hnd'. rewrite map_app in Hnd'. apply NoDup_app in Hnd' as (Hnd1 & Hdis & Hnd2).
  rewrite total_text_app in Htotal. unfold blen in Hcount. rewrite length_app in Hcount.
  assert (H : triple (quiet true fs) (load_snapshot rules_dir) (fun snapshot s => sp_groups snapshot = listed ++ extra) never).
  { unfold load_snapshot. eapply triple_bind; [apply ask_file_quiet|intros present]. intros s1 [Hs1 Hpres]. revert s1 Hs1.
    rewrite (Hpres eq_refl), Hman. cbn [is_some]. clear Hpres present.
    eapply triple_bind; [apply load_manifest_total with (groups := listed) (bytes := bytes) (m := Some bytes); [by split|unfold blen; lia|lia|exact Hst1|exact Hm|reflexivity|exact Hman]|intros read].
    intros s1 [Hs1 ->]. revert s1 Hs1. cbn [fst snd].
    eapply triple_bind; [eapply append_unlisted_total with (extra := extra); [by split|done..|lia|]|intros read].
    { unfold blen. rewrite length_app. lia. }
    intros s1 [Hs1 ->]. revert s1 Hs1. rewrite (proj2 (existsb_name _ _) Hd).
    eapply triple_bind; [by apply (triple_ret (quiet true fs) (listed ++ extra) (fun r s => quiet true fs s /\ r = listed ++ extra))|].
    intros groups s1 [Hs1 ->]. destruct (compile_total _ s1 Hc) as (v & snapshot & -> & ?). done. }
  specialize (H s Hs). destruct (load_snapshot rules_dir s) as [s' [snapshot|e]]; [|done]. by eexists _, _.
Qed.

(** ** What operations leave alone *)

(** Only the faults to come are consumed. *)
Definition tame {A} (m : StateR RuleStore StoreFailure A) : Prop := forall s,
  st_snapshot (fst (m s)) = st_snapshot s /\
  (st_poisoned (fst (m s)) = st_poisoned s /\ st_status (fst (m s)) = st_status s) /\
  d_faults (st_disk (fst (m s))) `suffix_of` d_faults (st_disk s).
Definition consumes {A} (op : Io A) : Prop := forall d, d_faults (fst (op d)) `suffix_of` d_faults d.

Lemma next_fault_consumes d : d_faults (snd (next_fault d)) `suffix_of` d_faults d.
Proof. unfold next_fault. destruct (d_faults d) as [|f fs] eqn:E; cbn; rewrite ?E; [done|]. by exists [f]. Qed.
Lemma guarded_consumes {A} (op : Io A) : consumes op -> consumes (guarded op).
Proof.
  intros H d. unfold guarded. pose proof (next_fault_consumes d) as Hn. destruct (next_fault d) as [[|n e] d']; cbn in *; [|done].
  etransitivity; [apply H|done].
Qed.
Lemma read_file_consumes path : consumes (read_file path).
Proof. apply guarded_consumes. intros d. by destruct (d_files d !! path). Qed.
Lemma rename_consumes from to : consumes (rename from to).
Proof. apply guarded_consumes. intros d. by destruct (d_files d !! from). Qed.
Lemma remove_file_consumes path : consumes (remove_file path).
Proof. apply guarded_consumes. intros d. by destruct (d_files d !! path). Qed.
Lemma plain_consumes {A} (f : Disk -> Result IoError A) : consumes (guarded (fun d => (d, f d))).
Proof. apply guarded_consumes. by intros d. Qed.
Lemma noop_consumes : consumes (guarded (mret tt)).
Proof. apply (plain_consumes (fun _ => Ok tt)). Qed.
Lemma write_file_consumes path bytes : consumes (write_file path bytes).
Proof.
  intros d. unfold write_file. pose proof (next_fault_consumes d) as Hn. by destruct (next_fault d) as [[|n e] d'].
Qed.

Lemma tame_bind {A B} (m : StateR RuleStore StoreFailure A) (k : A -> StateR RuleStore StoreFailure B) :
  tame m -> (forall a, tame (k a)) -> tame (m ≫= k).
Proof.
  intros Hm Hk s. unfold mbind, StateR_bind. specialize (Hm s). destruct (m s) as [s1 [a|e]]; cbn in *; [|done].
  destruct Hm as (H1 & [H2 H2'] & H3). destruct (Hk a s1) as (H4 & [H5 H5'] & H6). rewrite H4, H5, H5'.
  split_and!; [done..|]. by etransitivity.
Qed.
Lemma tame_ret {A} (a : A) : tame (mret a).
Proof. done. Qed.
Lemma tame_fail {A} e : tame (fail e : StateR RuleStore StoreFailure A).
Proof. done. Qed.
Lemma tame_attempted {A} (op : Io A) : consumes op -> tame (attempted op).
Proof. intros H s. specialize (H (st_disk s)). unfold attempted, on_disk. by destruct (op (st_disk s)). Qed.
Lemma tame_io_context {A} context (op : Io A) : consumes op -> tame (io_context context op).
Proof. intros H. apply tame_bind; [by apply tame_attempted|]. by intros [a|e]. Qed.
Lemma tame_ask_file path : tame (ask_file path).
Proof.
  intros s. unfold ask_file, is_file. pose proof (next_fault_consumes (st_disk s)) as Hn.
  by destruct (next_fault (st_disk s)) as [[|n e] d].
Qed.
Lemma tame_now_millis : tame now_millis.
Proof. intros s. unfold now_millis. by destruct (st_times s). Qed.
Lemma tame_parse_set sources : tame (parse_set sources).
Proof. intros s. unfold parse_set. by destruct (parse_versioned_groups (st_version s) sources) as [[|]|]. Qed.
Lemma tame_validate name : tame (validate_group_name name).
Proof. intros s. unfold validate_group_name. by destruct (group_name_ok name). Qed.
Lemma tame_refuse {A} e : tame (refuse e : StateR RuleStore StoreFailure A).
Proof. done. Qed.
Lemma tame_invalid {A} e : tame (invalid e : StateR RuleStore StoreFailure A).
Proof. done. Qed.
Create HintDb tame.
Hint Resolve tame_ret tame_fail tame_refuse tame_invalid tame_attempted tame_io_context tame_ask_file tame_now_millis tame_parse_set tame_validate
  read_file_consumes rename_consumes remove_file_consumes plain_consumes noop_consumes write_file_consumes : tame.
(** Follows the structure of an operation. *)
Ltac tame_step :=
  first [ solve [auto with tame] | apply tame_bind; [|intros ?] | progress cbv zeta
        | match goal with |- context [match ?x with _ => _ end] => destruct x end
        | match goal with |- context [if ?x then _ else _] => destruct x end ].
Lemma tame_compile groups : tame (compile groups).
Proof. unfold compile. repeat tame_step. Qed.
Lemma tame_atomic_write path bytes : tame (atomic_write pid path bytes).
Proof. unfold atomic_write, create_dir_all. repeat tame_step. Qed.
Hint Resolve tame_compile tame_atomic_write : tame.
Lemma tame_write_missing groups : tame (write_missing rules_dir pid groups).
Proof. induction groups as [|g groups IH]; cbn [write_missing]; [done|]. repeat tame_step. Qed.
Hint Resolve tame_write_missing : tame.
Lemma tame_persist groups : tame (persist_manifest rules_dir pid groups).
Proof. unfold persist_manifest, create_dir_all. repeat tame_step. Qed.
Hint Resolve tame_persist : tame.

(** ** The groups after an update *)

Lemma update_group_None f name groups : update_group f name groups = None -> name ∉ map gr_name groups.
Proof.
  induction groups as [|g groups IH]; cbn [update_group map]; [by intros _ ?%not_elem_of_nil|]. case_bool_decide as E; [done|].
  destruct (update_group f name groups); [done|]. intros _ [->|H]%elem_of_cons; [done|]. by apply IH.
Qed.
Lemma update_group_Some f name groups groups' :
  (forall g, gr_name (f g) = gr_name g) -> update_group f name groups = Some groups' ->
  map gr_name groups' = map gr_name groups /\
  exists g, g ∈ groups /\ gr_name g = name /\ f g ∈ groups' /\
    (forall x, x ∈ groups' -> x = f g \/ x ∈ groups) /\ (forall x, x ∈ groups -> gr_name x <> name -> x ∈ groups').
Proof.
  intros Hf. revert groups'. induction groups as [|g groups IH]; intros groups'; cbn [update_group]; [done|].
  case_bool_decide as E.
  - intros [= <-]. cbn [map]. rewrite Hf. split; [done|]. exists g. split_and!; [by left|done|by left| |].
    + intros x [->|H]%elem_of_cons; [by left|]. right. by right.
    + intros x [->|H]%elem_of_cons Hx; [done|by right].
  - destruct (update_group f name groups) as [gs|]; [|done]. intros [= <-]. destruct (IH gs eq_refl) as (Hm & g0 & H1 & H2 & H3 & H4 & H5).
    cbn [map]. split; [by rewrite Hm|]. exists g0. split_and!; [by right|done|by right| |].
    + intros x [->|H]%elem_of_cons; [right; by left|]. destruct (H4 x H); [by left|right; by right].
    + intros x [->|H]%elem_of_cons Hx; [by left|right; by auto].
Qed.
Lemma named_names groups groups' : named groups -> map gr_name groups' = map gr_name groups -> named groups'.
Proof.
  intros [H1 H2] E. split; [|by rewrite E].
  assert (H : Forall (fun name => group_name_ok name = true) (map gr_name groups')) by (rewrite E; by apply Forall_map).
  by apply Forall_map in H.
Qed.
(** The new group, and the others as they were. *)
Lemma groups_with_text_spec name text groups :
  named groups -> group_name_ok name = true ->
  let groups' := groups_with_text name text groups in
  named groups' /\ find_group groups' name <> None /\
  (map manifest_entry groups' = map manifest_entry groups \/ groups' = groups ++ [mkRuleGroup name true text]) /\
  (forall g, g ∈ groups' -> gr_name g = name -> gr_text g = text) /\
  (forall g, g ∈ groups' -> gr_name g <> name -> g ∈ groups) /\ (forall g, g ∈ groups -> gr_name g <> name -> g ∈ groups').
Proof.
  intros Hn Hok. cbv zeta. unfold groups_with_text.
  assert (Hfind : forall gs, name ∈ map gr_name gs -> find_group gs name <> None).
  { intros gs (g & -> & Hg)%list_elem_of_fmap Hf. unfold find_group in Hf. apply list_elem_of_In in Hg.
    eapply find_none in Hf; [|exact Hg]. by rewrite bool_decide_true in Hf. }
  destruct (update_group (with_text text) name groups) as [gs|] eqn:E; cbn [unwrap_or].
  - pose proof (update_group_Some (with_text text) _ _ _ (fun g => eq_refl) E) as (Hm & g & H1 & H2 & H3 & H4 & H5).
    pose proof (named_names _ _ Hn Hm) as Hn'. split_and!; [done| | | | |done].
    + apply Hfind. rewrite Hm, <- H2. by apply list_elem_of_fmap_2.
    + left. clear -E. revert gs E. induction groups as [|x groups IH]; intros gs; cbn [update_group]; [done|].
      case_bool_decide; [by intros [= <-]|]. destruct (update_group _ name groups) as [gs'|]; [|done]. intros [= <-].
      cbn [map]. by rewrite (IH gs').
    + intros x Hx Ex. destruct (H4 x Hx) as [->|Hin]; [done|]. assert (x = with_text text g) as ->; [|done].
      apply (named_same gs); [done..|]. by rewrite Ex.
    + intros x Hx Ex. destruct (H4 x Hx) as [->|Hin]; [by destruct Ex|done].
  - apply update_group_None in E. destruct Hn as [Ho Hd]. split_and!.
    + split; [apply Forall_app; by split; [|constructor]|]. rewrite map_app. apply NoDup_app. split_and!; [done| |apply NoDup_singleton].
      intros x Hx ->%list_elem_of_singleton. done.
    + apply Hfind. rewrite map_app. apply elem_of_app. right. by left.
    + by right.
    + intros g [Hg| ->%list_elem_of_singleton]%elem_of_app Eg; [|done]. destruct E. rewrite <- Eg. by apply list_elem_of_fmap_2.
    + intros g [Hg| ->%list_elem_of_singleton]%elem_of_app Eg; done.
    + intros g Hg _. apply elem_of_app. by left.
Qed.

(** ** The updates *)

Lemma triple_locked {A} (P : RuleStore -> Prop) (m : StateR RuleStore StoreFailure A) Q E :
  triple P m Q E -> (forall s, P s -> E s) -> (forall s, E s -> E (with_poison s)) -> triple P (locked m) Q E.
Proof.
  intros Hm HP HE s Hs. unfold locked. destruct (st_poisoned s); [by apply HP|]. specialize (Hm s Hs).
  destruct (m s) as [s1 [a|[e|]]]; [done|done|by apply HE].
Qed.
Lemma current_groups_spec sp I (Q : list RuleGroup -> RuleStore -> Prop) E :
  (forall s, holds sp I s -> Q (sp_groups sp) s) -> triple (holds sp I) current_groups Q E.
Proof. intros H s Hs. unfold current_groups. pose proof Hs as [-> _]. by apply H. Qed.
Lemma holds_version sp I s v : holds sp I s -> holds sp I (with_version s v).
Proof. done. Qed.

(** The snapshot is published, and the directory is that of its groups. *)
Definition kept (s : RuleStore) : Prop :=
  let groups := sp_groups (st_snapshot s) in
  snapshot_ok groups /\ exists bytes, manifest_bytes groups bytes /\ view groups groups (Some bytes) (files s).
Definition published (snapshot : RuleSnapshot) (groups : list RuleGroup) (s : RuleStore) : Prop :=
  st_snapshot s = snapshot /\ sp_groups snapshot = groups /\ kept s.

Lemma retext_view gs name text done done' m fs :
  named gs -> group_name_ok name = true ->
  let gs' := groups_with_text name text gs in
  (forall g, g ∈ done' -> g ∈ gs' /\ (gr_name g <> name -> g ∈ done)) ->
  view gs done m fs -> view gs' done' m (<[group_path name := encode text]> fs).
Proof.
  intros Hn Hok. cbv zeta. destruct (groups_with_text_spec name text gs Hn Hok) as (Hn' & Hf & _ & Ht & Hold & Hkeep).
  set (gs' := groups_with_text name text gs) in *. intros Hd (t & Hs & Htx & Hh). pose proof (group_name_ok_spec _ Hok) as [Hne _].
  exists (<[name := encode text]> t). split_and!; [by apply shows_group| |].
  - intros other bytes H. destruct (decide (other = name)) as [->|Ho].
    + rewrite lookup_insert_eq in H. injection H as <-. destruct (find_group gs' name) as [g|] eqn:E; [|done].
      apply find_some in E as [Hg Eg]. apply list_elem_of_In in Hg. apply bool_decide_eq_true in Eg. exists g. by rewrite (Ht g).
    + rewrite lookup_insert_ne in H by done. apply Htx in H as (g & Hg & <- & <-). exists g. auto.
  - unfold has_texts in *. rewrite Forall_forall in *. intros g Hg. destruct (Hd g Hg) as [H1 H2].
    destruct (decide (gr_name g = name)) as [E|E].
    + by rewrite E, lookup_insert_eq, (Ht g).
    + rewrite lookup_insert_ne by done. auto.
Qed.
Lemma entries_names gs gs' : map manifest_entry gs' = map manifest_entry gs -> map gr_name gs' = map gr_name gs.
Proof. intros H. apply (f_equal (map mg_name)) in H. by rewrite !map_map in H. Qed.
Lemma with_text_ok gs name text :
  snapshot_ok gs -> group_name_ok name = true -> valid_str text = true ->
  compiles (groups_with_text name text gs) -> snapshot_ok (groups_with_text name text gs).
Proof.
  intros (Hn & Hd & Hv & _) Hok Htext Hc. destruct (groups_with_text_spec name text gs Hn Hok) as (Hn' & Hf & Hm & Ht & Hold & Hkeep).
  split_and!; [done| | |done].
  - destruct Hm as [Hm| ->]; [|rewrite map_app; apply elem_of_app; by left].
    by rewrite (entries_names _ _ Hm).
  - rewrite Forall_forall in *. intros g Hg. destruct (decide (gr_name g = name)) as [E|E]; [by rewrite (Ht g)|auto].
Qed.
Lemma set_group_files sp name text done done' m :
  snapshot_ok (sp_groups sp) -> valid_str text = true ->
  let gs := sp_groups sp in let gs' := groups_with_text name text gs in
  (done = gs /\ done' = gs') \/ (done = [] /\ done' = []) ->
  triple (holds sp (view gs done m)) (set_group rules_dir pid name text)
    (fun snapshot => published snapshot gs')
    (fun s => st_snapshot s = sp /\
      (view gs done m (files s) \/
       group_name_ok name = true /\ compiles gs' /\ view gs' done' m (files s))).
Proof.
  intros Hok Hv. cbv zeta. set (gs := sp_groups sp) in *. set (gs' := groups_with_text name text gs). intros Hdone.
  unfold set_group. eapply triple_bind; [eapply triple_conseq; [apply validate_quiet|done|done|]|intros []].
  { intros s [H1 H2]. split; [done|by left]. }
  intros s [Hs Hname]. revert s Hs. apply triple_locked.
  2: { intros s [H1 H2]. split; [done|by left]. } 2: { done. }
  destruct (groups_with_text_spec name text gs (proj1 Hok) Hname) as (Hn' & Hf & _ & Ht & Hold & Hkeep). fold gs' in Hn', Hf, Ht, Hold, Hkeep.
  assert (Hd' : forall g, g ∈ done' -> g ∈ gs' /\ (gr_name g <> name -> g ∈ done)).
  { destruct Hdone as [[-> ->]|[-> ->]]; [auto|]. by intros g ?%not_elem_of_nil. }
  eapply triple_bind; [apply (current_groups_spec sp _ (fun gs0 s => holds sp (view gs done m) s /\ gs0 = gs)); by auto|].
  intros gs0 s [Hs ->]. revert s Hs. eapply triple_bind.
  { eapply triple_conseq; [apply (compile_spec (holds sp (view gs done m)))|done|done|]; [done|].
    intros s [H1 H2]. split; [done|by left]. }
  intros snapshot s (Hs & Hsn & Hc & Hfrom). revert s Hs. fold gs' in Hsn, Hc. unfold group. rewrite Hsn.
  eapply triple_bind; [eapply triple_conseq; [apply create_dir_files|done|done|]|intros []].
  { intros s [H1 H2]. split; [done|by left]. }
  destruct (find_group gs' name) as [g|] eqn:Eg; [|done].
  assert (Etext : gr_text g = text).
  { apply find_some in Eg as [Hin E]. apply bool_decide_eq_true in E. apply Ht; [by apply list_elem_of_In|done]. }
  rewrite Etext. eapply triple_bind; [eapply triple_conseq;
    [apply (atomic_write_files sp (view gs done m) (view gs' done' m)); [done|apply view_stable|]|done|done|]|intros []].
  { intros fs Hview. apply retext_view with (done := done); [apply Hok|done|done|done]. }
  { intros s [H1 H2]. split; [done|by left]. }
  eapply triple_bind; [eapply triple_conseq; [apply (persist_manifest_files sp gs' gs' done' m); [done|done|]|done|done|]|intros []].
  { intros x Hx. by apply Hd'. }
  { intros s [H1 H2]. split; [done|]. by right. }
  intros s [Hs (bytes & Hb & Hview)]. cbn. split_and!; [done|done|]. split; cbn.
  - rewrite Hsn. by apply with_text_ok.
  - rewrite Hsn. exists bytes. split; [done|]. eapply view_done; [|exact Hview]. intros x Hx. apply elem_of_app. by left.
Qed.

Lemma same_sources_view gs gs' m fs :
  group_sources gs' = group_sources gs ->
  (view gs gs m fs -> view gs' gs' m fs) /\ (view gs [] m fs -> view gs' [] m fs).
Proof.
  intros Hsrc.
  assert (Hin : forall a b g, group_sources a = group_sources b -> g ∈ a -> exists g', g' ∈ b /\ gr_name g' = gr_name g /\ gr_text g' = gr_text g).
  { intros a b g E Hg. assert (H : (gr_name g, gr_text g) ∈ group_sources b).
    { rewrite <- E. unfold group_sources. apply list_elem_of_fmap. by exists g. }
    apply list_elem_of_fmap in H as (g' & Eg & Hg'). injection Eg as -> ->. by exists g'. }
  assert (Ht : forall t, texts_of gs t -> texts_of gs' t).
  { intros t H name bytes Hb. destruct (H name bytes Hb) as (g & Hg & <- & <-). destruct (Hin gs gs' g) as (g' & Hg' & <- & <-); eauto. }
  split; intros (t & Hs & Htx & Hh); exists t; (split_and!; [done|by apply Ht|]); [|constructor].
  unfold has_texts in *. rewrite Forall_forall in *. intros g Hg. destruct (Hin gs' gs g) as (g' & Hg' & <- & <-); auto.
Qed.
Lemma with_enabled_sources enabled name gs gs' :
  update_group (with_enabled enabled) name gs = Some gs' -> group_sources gs' = group_sources gs.
Proof.
  revert gs'. induction gs as [|g gs IH]; intros gs'; cbn [update_group]; [done|]. case_bool_decide; [by intros [= <-]|].
  destruct (update_group _ name gs) as [gs1|]; [|done]. intros [= <-]. unfold group_sources in *. cbn [map]. by rewrite (IH gs1).
Qed.
Lemma same_sources_ok gs gs' :
  group_sources gs' = group_sources gs -> snapshot_ok gs -> compiles gs' -> snapshot_ok gs'.
Proof.
  intros Hsrc (Hn & Hd & Hv & _) Hc.
  assert (Hm : map gr_name gs' = map gr_name gs).
  { apply (f_equal (map fst)) in Hsrc. unfold group_sources in Hsrc. by rewrite !map_map in Hsrc. }
  split_and!; [by eapply named_names|by rewrite Hm| |done].
  assert (H : Forall (fun src : str * str => valid_str (snd src) = true) (group_sources gs'))
    by (rewrite Hsrc; by apply Forall_map). by apply Forall_map in H.
Qed.
Lemma set_enabled_files sp name enabled done m :
  snapshot_ok (sp_groups sp) -> let gs := sp_groups sp in done = gs \/ done = [] ->
  triple (holds sp (view gs done m)) (set_enabled rules_dir pid name enabled)
    (fun snapshot s => exists gs', update_group (with_enabled enabled) name gs = Some gs' /\ published snapshot gs' s)
    (holds sp (view gs done m)).
Proof.
  intros Hok gs Hdone. unfold set_enabled. eapply triple_bind; [apply validate_quiet|intros []].
  intros s [Hs Hname]. revert s Hs. apply triple_locked; [|done|done].
  eapply triple_bind; [apply (current_groups_spec sp _ (fun gs0 s => holds sp (view gs done m) s /\ gs0 = gs)); by auto|].
  intros gs0 s [Hs ->]. revert s Hs. destruct (update_group (with_enabled enabled) name gs) as [gs'|] eqn:E; [|by apply triple_fail].
  pose proof (with_enabled_sources _ _ _ _ E) as Hsrc. pose proof (proj1 (update_group_Some (with_enabled enabled) _ _ _ (fun g => eq_refl) E)) as Hm.
  eapply triple_bind; [by apply (compile_spec (holds sp (view gs done m)))|].
  intros snapshot s (Hs & Hsn & Hc & Hfrom). revert s Hs. rewrite Hsn.
  set (done' := match done with [] => [] | _ => gs' end).
  assert (Hto : forall fs, view gs done m fs -> view gs' done' m fs).
  { intros fs. destruct (same_sources_view gs gs' m fs Hsrc) as [H1 H2]. subst done'. destruct Hdone as [-> | ->]; [|done].
    destruct gs; [done|]. done. }
  assert (Hfro : forall fs, view gs' done' m fs -> view gs done m fs).
  { intros fs. destruct (same_sources_view gs' gs m fs (eq_sym Hsrc)) as [H1 H2]. subst done'. destruct Hdone as [-> | ->]; [|done].
    destruct gs; [|done]. by destruct gs'. }
  eapply triple_bind; [eapply triple_conseq; [apply (persist_manifest_files sp gs' gs' done' m)| | |]|intros []].
  - eapply named_names; [apply Hok|done].
  - done.
  - intros g. subst done'. destruct done; [by intros ?%not_elem_of_nil|done].
  - intros s [H1 H2]. split; [done|by apply Hto].
  - done.
  - intros s [H1 H2]. split; [done|by apply Hfro].
  - intros s [Hs (bytes & Hb & Hview)]. cbn. exists gs'. split; [done|]. split_and!; [done|done|]. split; cbn; rewrite Hsn.
    + by eapply same_sources_ok.
    + exists bytes. split; [done|]. eapply view_done; [|exact Hview]. intros x Hx. apply elem_of_app. by left.
Qed.

(** The operating system does not report a file that is there as missing. *)
Definition honest (s : RuleStore) : Prop :=
  Forall (fun f => match f with Fine => True | Fails _ e => io_kind e <> NotFound end) (d_faults (st_disk s)).
Lemma tame_honest {A} (m : StateR RuleStore StoreFailure A) P Q E :
  tame m -> triple P m Q E -> triple (fun s => P s /\ honest s) m (fun a s => Q a s /\ honest s) E.
Proof.
  intros Ht Hm s [Hs Hh]. specialize (Hm s Hs). destruct (Ht s) as (_ & _ & [pre Hpre]).
  destruct (m s) as [s1 [a|e]]; cbn in *; [|done]. split; [done|]. unfold honest in *. rewrite Hpre in Hh.
  by apply Forall_app in Hh as [_ ?].
Qed.
Lemma elem_of_groups_without g name gs : g ∈ groups_without name gs <-> g ∈ gs /\ gr_name g <> name.
Proof. unfold groups_without. rewrite !list_elem_of_In, filter_In, negb_true_iff. by rewrite bool_decide_eq_false. Qed.
Lemma removed_view gs name m t fs :
  named gs -> shows fs m t -> texts_of gs t -> has_texts (groups_without name gs) t -> name <> [] ->
  view (groups_without name gs) (groups_without name gs) m (delete (group_path name) fs).
Proof.
  intros Hn Hs Htx Hh Hne.
  pose proof (fun g => elem_of_groups_without g name gs) as Hin.
  exists (delete name t). split_and!; [by apply shows_without_group| |].
  - intros other bytes [Hother Hb]%lookup_delete_Some. apply Htx in Hb as (g & Hg & <- & <-). exists g.
    rewrite Hin. auto.
  - unfold has_texts in *. rewrite Forall_forall in *. intros g Hg. rewrite lookup_delete_ne; [auto|]. apply Hin in Hg as [_ ?]. auto.
Qed.
Lemma groups_without_ok gs name :
  snapshot_ok gs -> name <> DEFAULT_GROUP -> compiles (groups_without name gs) -> snapshot_ok (groups_without name gs).
Proof.
  intros ([Ho Hd] & Hdef & Hv & _) Hne Hc.
  pose proof (fun g => elem_of_groups_without g name gs) as Hsub.
  rewrite Forall_forall in *. split_and!; [split| | |done].
  - apply Forall_forall. intros g Hg. by apply Ho, Hsub.
  - eapply sublist_NoDup; [exact Hd|]. clear. induction gs as [|g gs IH]; cbn; [done|]. case_match; cbn; by constructor.
  - apply list_elem_of_fmap in Hdef as (g & Eg & Hg). apply list_elem_of_fmap. exists g. split; [done|]. apply Hsub. split; [done|].
    intros E. by rewrite E in Eg.
  - apply Forall_forall. intros g Hg. by apply Hv, Hsub.
Qed.
Lemma remove_file_honest (sp : RuleSnapshot) (I : Files -> Prop) (path : str * str) (J : Files -> Prop) E :
  (forall fs : Files, I fs -> J (delete path fs)) ->
  triple (fun s => holds sp I s /\ honest s) (attempted (remove_file path))
    (fun r s => st_snapshot s = sp /\ (match r with Ok _ => True | Err e => io_kind e = NotFound end -> J (files s))) E.
Proof.
  intros HJ s [[Hs Hi] Hh]. unfold attempted, on_disk, remove_file, guarded, next_fault, files, honest in *.
  destruct (d_faults (st_disk s)) as [|[|n e] faults] eqn:Ef; cbn.
  - destruct (d_files (st_disk s) !! path) eqn:E1; cbn; (split; [done|]); intros _; [by apply HJ|].
    rewrite <- (delete_id (d_files (st_disk s)) path E1). by apply HJ.
  - destruct (d_files (st_disk s) !! path) eqn:E1; cbn; (split; [done|]); intros _; [by apply HJ|].
    rewrite <- (delete_id (d_files (st_disk s)) path E1). by apply HJ.
  - split; [done|]. intros H. by apply Forall_inv in Hh.
Qed.

Lemma remove_group_files sp name m :
  snapshot_ok (sp_groups sp) -> let gs := sp_groups sp in
  triple (fun s => holds sp (view gs [] m) s /\ honest s) (remove_group rules_dir pid name)
    (fun snapshot => published snapshot (groups_without name gs)) (fun s => st_snapshot s = sp).
Proof.
  intros Hok gs. set (gs' := groups_without name gs). unfold remove_group.
  assert (Herr : forall s, holds sp (view gs [] m) s /\ honest s -> st_snapshot s = sp) by (by intros s [[? _] _]).
  apply triple_bind with (M := fun _ s => (holds sp (view gs [] m) s /\ honest s) /\ group_name_ok name = true).
  { eapply triple_conseq; [apply (validate_quiet (fun s => holds sp (view gs [] m) s /\ honest s))|done|done|exact Herr]. }
  intros [].
  intros s [Hs Hname]. revert s Hs. case_bool_decide as Hdef; [apply triple_fail; exact Herr|].
  apply triple_locked; [|done|done].
  eapply triple_bind; [apply (tame_honest current_groups (holds sp (view gs [] m))
    (fun gs0 s => holds sp (view gs [] m) s /\ gs0 = gs)); [done|apply current_groups_spec; by auto]|].
  intros gs0 s [[Hs ->] Hh]. revert s Hs Hh.
  enough (H : triple (fun s => holds sp (view gs [] m) s /\ honest s) _ _ _) by (intros s Hs Hh; apply H; by split).
  destruct (negb _); [apply triple_fail; exact Herr|].
  eapply triple_bind; [apply tame_honest; [apply tame_compile|eapply triple_conseq; [by apply (compile_spec (holds sp (view gs [] m)))|done|done|by intros s [? _]]]|].
  intros snapshot s [(Hs & Hsn & Hc & Hfrom) Hh]. revert s Hs Hh. fold gs' in Hsn, Hc. rewrite Hsn.
  enough (H : triple (fun s => holds sp (view gs [] m) s /\ honest s) _ _ _) by (intros s Hs Hh; apply H; by split).
  eapply triple_bind; [apply tame_honest; [apply tame_persist|eapply triple_conseq;
    [apply (persist_manifest_files sp gs gs' [] m)|done|done|by intros s [? _]]]|intros []].
  { apply Hok. } { intros g. by intros [? _]%elem_of_groups_without. } { by intros g ?%not_elem_of_nil. }
  set (J := fun fs => exists bytes, manifest_bytes gs' bytes /\ view gs' gs' (Some bytes) fs).
  eapply triple_bind; [apply (remove_file_honest sp _ (group_path name) J)|].
  { intros fs (bytes & Hb & t & Hshow & Htx & Hh). rewrite app_nil_r in Hh. exists bytes. split; [done|].
    eapply removed_view; [apply Hok|done..|]. by apply group_name_ok_spec. }
  assert (Hpub : forall s, st_snapshot s = sp -> J (files s) -> published snapshot gs' (with_snapshot s snapshot)).
  { intros s Hs HJ. split_and!; [done|done|]. split; cbn; rewrite Hsn; [|done]. by apply groups_without_ok. }
  intros [[]|e] s [Hs HJ]; [by apply Hpub; auto|]. case_bool_decide as Ek; [by apply Hpub; auto|done].
Qed.

Inductive StoreUpdate :=
| SetGroup (name text : str) | RemoveGroup (name : str) | SetEnabled (name : str) (enabled : bool).
Definition run_update (u : StoreUpdate) : StateR RuleStore StoreFailure RuleSnapshot :=
  match u with
  | SetGroup name text => set_group rules_dir pid name text
  | RemoveGroup name => remove_group rules_dir pid name
  | SetEnabled name enabled => set_enabled rules_dir pid name enabled
  end.
(** The groups that the update is to leave. *)
Definition updated (u : StoreUpdate) (groups : list RuleGroup) : list RuleGroup :=
  match u with
  | SetGroup name text => groups_with_text name text groups
  | RemoveGroup name => groups_without name groups
  | SetEnabled name enabled => unwrap_or (update_group (with_enabled enabled) name groups) groups
  end.
(** The text of an update is a Rust string. *)
Definition update_ok (u : StoreUpdate) : Prop :=
  match u with SetGroup _ text => valid_str text = true | _ => True end.

Lemma shows_exists fs : exists t, shows fs (fs !! manifest_path) t.
Proof.
  exists (list_to_map (map (fun name => (name, default [] (fs !! group_path name))) (group_files fs))).
  set (l := map _ _). assert (Hl : NoDup l.*1).
  { subst l. rewrite <- list_fmap_compose. change (fst ∘ _) with (fun name : str => name). rewrite list_fmap_id. apply NoDup_group_files. }
  assert (Hin : forall name c, (name, c) ∈ l <-> name <> [] /\ fs !! group_path name = Some c).
  { intros name c. subst l. rewrite list_elem_of_fmap. split.
    - intros (n & E & Hn). injection E as -> ->. apply elem_of_group_files in Hn as [Hne [c Hc]]. by rewrite Hc.
    - intros [Hne Hc]. exists name. rewrite Hc. split; [done|]. apply elem_of_group_files. eauto. }
  split_and!; [done| |].
  - intros name Hne. destruct (fs !! group_path name) as [c|] eqn:E; symmetry.
    + apply elem_of_list_to_map; [done|]. by apply Hin.
    + apply not_elem_of_list_to_map. intros ([n c] & En & Hc)%list_elem_of_fmap. cbn in En. subst n. apply Hin in Hc as [_ Hc]. congruence.
  - apply not_elem_of_list_to_map. intros ([n c] & En & Hc)%list_elem_of_fmap. cbn in En. subst n. by apply Hin in Hc as [? _].
Qed.
Lemma loads_view fs groups s :
  loads fs groups -> files s = fs -> snapshot_ok groups /\ view groups [] (fs !! manifest_path) fs.
Proof.
  intros Hl Hf. set (s0 := with_disk s (mkDisk fs [])).
  assert (Hq : quiet true fs s0) by (split; [done|intros _; constructor]).
  destruct (Hl s0 Hq) as (s1 & snapshot & E & <-). pose proof (load_quiet true fs s0 Hq) as H. rewrite E in H.
  destruct H as (_ & Hok & _ & Hc). specialize (Hc eq_refl) as [Hw Hall]. split; [done|].
  destruct (shows_exists fs) as (t & Hs). exists t. split_and!; [done| |constructor].
  intros name bytes Hb. pose proof Hs as (_ & Ht & Hnil).
  assert (Hne : name <> []) by (intros ->; by rewrite Hnil in Hb). rewrite <- Ht in Hb by done.
  assert (Hin : name ∈ map gr_name (sp_groups snapshot)) by (apply Hall; eauto).
  apply list_elem_of_fmap in Hin as (g & -> & Hg). exists g. rewrite Forall_forall in Hw.
  destruct (Hw g Hg) as [_ Hread]. by rewrite (Hread eq_refl bytes Hb).
Qed.
Lemma kept_loads s : kept s -> loads (files s) (sp_groups (st_snapshot s)).
Proof.
  intros [Hok (bytes & Hb & Hview)]. pose proof (written_loads (files s) (sp_groups (st_snapshot s)) [] bytes) as H.
  rewrite !app_nil_r in H. apply H; [done..|constructor|cbn; lia].
Qed.


Lemma half_written_loads gs name text bytes fs :
  snapshot_ok gs -> group_name_ok name = true -> valid_str text = true ->
  let gs' := groups_with_text name text gs in
  compiles gs' -> manifest_bytes gs bytes -> view gs' gs' (Some bytes) fs -> loads fs gs'.
Proof.
  intros Hok Hname Hv gs' Hc Hb Hview. pose proof (with_text_ok _ _ _ Hok Hname Hv Hc) as Hok'. fold gs' in Hok'.
  destruct (groups_with_text_spec name text gs (proj1 Hok) Hname) as (_ & _ & Hm & _). fold gs' in Hm.
  destruct Hm as [Hm|Hm].
  - pose proof (written_loads fs gs' [] bytes) as H. rewrite !app_nil_r in H. apply H; [done| |done|constructor|cbn; lia].
    destruct Hb as (toml & Ht & ->). exists toml. split; [|done]. unfold manifest_of in *.
    change (map _ gs') with (map manifest_entry gs'). by rewrite Hm.
  - rewrite Hm in *. eapply written_loads; [done..| |cbn; lia]. by constructor.
Qed.


(** ** What is published *)

Definition well_formed (s : RuleStore) : Prop :=
  snapshot_ok (sp_groups (st_snapshot s)) /\ compiled_from (st_snapshot s).
Lemma tame_snapshot {A} (m : StateR RuleStore StoreFailure A) sp :
  tame m -> triple (fun s => st_snapshot s = sp) m (fun _ s => st_snapshot s = sp) (fun s => st_snapshot s = sp).
Proof. intros Ht s <-. destruct (Ht s) as [H _]. by destruct (m s) as [s1 [a|e]]. Qed.

Definition showing (sp : RuleSnapshot) (s : RuleStore) : Prop := st_snapshot s = sp.
(** A tame step of an operation. *)
Lemma triple_tame {A B} sp (m : StateR RuleStore StoreFailure A) (k : A -> StateR RuleStore StoreFailure B) Q :
  tame m -> (forall a, triple (showing sp) (k a) Q (showing sp)) -> triple (showing sp) (m ≫= k) Q (showing sp).
Proof. intros Hm Hk. eapply triple_bind; [by apply tame_snapshot|done]. Qed.
Lemma triple_compile {B} sp groups (k : RuleSnapshot -> StateR RuleStore StoreFailure B) Q :
  (forall snapshot, sp_groups snapshot = groups -> compiles groups -> compiled_from snapshot ->
     triple (showing sp) (k snapshot) Q (showing sp)) ->
  triple (showing sp) (snapshot ← compile groups; k snapshot) Q (showing sp).
Proof.
  intros Hk. eapply triple_bind; [by apply (compile_spec (showing sp))|]. intros snapshot s (Hs & H1 & H2 & H3). by apply Hk.
Qed.
Lemma triple_current {B} sp (k : list RuleGroup -> StateR RuleStore StoreFailure B) Q :
  triple (showing sp) (k (sp_groups sp)) Q (showing sp) -> triple (showing sp) (groups ← current_groups; k groups) Q (showing sp).
Proof. intros Hk s Hs. unfold mbind, StateR_bind, current_groups. rewrite Hs. by apply Hk. Qed.
Lemma triple_publish sp snapshot :
  snapshot_ok (sp_groups snapshot) -> compiled_from snapshot ->
  triple (showing sp) (publish snapshot) (fun snapshot s => showing snapshot s /\ well_formed s) (showing sp).
Proof. intros H1 H2 s Hs. by split. Qed.

(** An update that fails leaves the snapshot, another one publishes a well-formed one. *)
Lemma update_publishes u sp :
  snapshot_ok (sp_groups sp) -> update_ok u ->
  triple (showing sp) (run_update u) (fun snapshot s => showing snapshot s /\ well_formed s) (showing sp).
Proof.
  intros Hok Hu. destruct u as [name text|name|name enabled]; cbn [run_update update_ok] in *.
  - unfold set_group. eapply triple_bind; [by apply validate_quiet|]. intros [] s [Hs Hname]. revert s Hs.
    apply triple_locked; [|done|done]. apply triple_current, triple_compile. intros snapshot Hsn Hc Hf.
    apply triple_tame; [apply tame_io_context, plain_consumes|intros []].
    destruct (group snapshot name) as [g|]; [|by apply triple_fail]. do 2 (apply triple_tame; [auto with tame|intros []]).
    apply triple_publish; [|done]. rewrite Hsn. by apply with_text_ok.
  - unfold remove_group. eapply triple_bind; [by apply validate_quiet|]. intros [] s [Hs Hname]. revert s Hs.
    case_bool_decide as Hd; [by apply triple_fail|]. apply triple_locked; [|done|done]. apply triple_current.
    destruct (negb _); [by apply triple_fail|]. apply triple_compile. intros snapshot Hsn Hc Hf.
    assert (Hp : triple (showing sp) (publish snapshot) (fun snapshot s => showing snapshot s /\ well_formed s) (showing sp)).
    { apply triple_publish; [|done]. rewrite Hsn. by apply groups_without_ok. }
    do 2 (apply triple_tame; [auto with tame|intros ?]). destruct a0; [done|]. case_bool_decide; [done|by apply triple_fail].
  - unfold set_enabled. eapply triple_bind; [by apply validate_quiet|]. intros [] s [Hs Hname]. revert s Hs.
    apply triple_locked; [|done|done]. apply triple_current.
    destruct (update_group _ name _) as [gs'|] eqn:E; [|by apply triple_fail]. apply triple_compile. intros snapshot Hsn Hc Hf.
    apply triple_tame; [auto with tame|intros []]. apply triple_publish; [|done]. rewrite Hsn.
    eapply same_sources_ok; [by eapply with_enabled_sources|done|done].
Qed.

Lemma tame_read_utf8 path limit label : tame (read_utf8_file_bounded path limit label).
Proof. unfold read_utf8_file_bounded. repeat tame_step. Qed.
Hint Resolve tame_read_utf8 : tame.
Lemma tame_read_group name bytes : tame (read_group_text rules_dir name bytes).
Proof. unfold read_group_text. repeat tame_step. Qed.
Hint Resolve tame_read_group : tame.
Lemma tame_read_entries seen bytes entries : tame (read_entries rules_dir seen bytes entries).
Proof. revert seen bytes. induction entries as [|e entries IH]; intros; cbn [read_entries]; [done|]. repeat tame_step. Qed.
Lemma tame_collect_names names l : tame (collect_names names l).
Proof.
  revert names. induction l as [|file l IH]; intros; cbn [collect_names]; [done|]. unfold group_limit.
  repeat tame_step.
Qed.
Lemma tame_read_enabled bytes names : tame (read_enabled rules_dir bytes names).
Proof. revert bytes. induction names as [|name names IH]; intros; cbn [read_enabled]; [done|]. repeat tame_step. Qed.
Lemma tame_append_names listed groups bytes names : tame (append_names rules_dir listed groups bytes names).
Proof.
  revert groups bytes. induction names as [|name names IH]; intros; cbn [append_names]; [done|]. unfold group_limit. repeat tame_step.
Qed.
Hint Resolve tame_read_entries tame_collect_names tame_read_enabled tame_append_names : tame.
Lemma tame_discover_names : tame (discover_group_names rules_dir).
Proof. unfold discover_group_names, read_dir. repeat tame_step. Qed.
Hint Resolve tame_discover_names : tame.
Lemma tame_load : tame (load_snapshot rules_dir).
Proof.
  unfold load_snapshot, load_manifest_groups, discover_groups, append_unlisted_groups, group_limit. repeat tame_step.
Qed.

Lemma reload_publishes sp :
  snapshot_ok (sp_groups sp) -> compiled_from sp ->
  triple (showing sp) (reload_from_disk rules_dir) (fun _ => well_formed) (showing sp).
Proof.
  intros Hok Hf. unfold reload_from_disk. apply triple_locked; [|done|done].
  apply triple_bind with (M := fun snapshot s => showing sp s /\ snapshot_ok (sp_groups snapshot) /\ compiled_from snapshot).
  { intros s Hs. destruct (tame_load s) as [H1 _]. pose proof (load_quiet false (files s) s) as H2.
    specialize (H2 ltac:(by split)). destruct (load_snapshot rules_dir s) as [s1 [snapshot|e]]; cbn in *.
    - destruct H2 as (_ & H2 & H3 & _). split_and!; [|done..]. unfold showing. by rewrite H1.
    - unfold showing. by rewrite H1. }
  intros next s (Hs & H1 & H2). revert s Hs. apply triple_current. case_bool_decide as E.
  - apply triple_ret. intros s Hs. unfold well_formed. by rewrite Hs.
  - eapply triple_bind; [by apply triple_publish|]. intros snapshot s [_ Hs]. done.
Qed.
Lemma status_keeps f (P : RuleStore -> Prop) E :
  (forall s w, P s -> P (with_status s w)) -> triple P (on_status f) (fun _ => P) E.
Proof. intros H s Hs. by apply H. Qed.
Lemma collect_burst_keeps (P : RuleStore -> Prop) received E :
  (forall s w, P s -> P (with_status s w)) -> triple P (collect_burst received) (fun _ => P) E.
Proof.
  intros H. induction received as [|[[event|]| |] received IH]; cbn [collect_burst]; try by apply triple_ret.
  eapply triple_bind; [|intros []; exact IH]. destruct (relevant event); [by apply status_keeps|by apply triple_ret].
Qed.
Lemma watch_publishes fuel received :
  triple well_formed (watch_rounds rules_dir fuel received) (fun _ => well_formed) well_formed.
Proof.
  revert received. induction fuel as [|fuel IH]; intros [|[[event|]| |] received]; cbn [watch_rounds];
    try (by apply triple_ret); [|by apply IH].
  destruct (relevant event); [|apply IH]. eapply triple_bind; [by apply status_keeps|intros []].
  eapply triple_bind; [by apply collect_burst_keeps|intros [again later]]. destruct again; cbn [fst snd]; [|by apply triple_ret].
  eapply triple_bind with (M := fun _ => well_formed).
  { intros s Hs. unfold caught_refusal. destruct Hs as [H1 H2]. pose proof (reload_publishes _ H1 H2 s eq_refl) as H.
    destruct (reload_from_disk rules_dir s) as [s1 [b|[e|]]]; [done|..]; unfold well_formed; by rewrite H. }
  intros reloaded. apply triple_bind with (M := fun _ => well_formed); [|intros []; apply IH]. destruct reloaded as [b|e]; [|by apply status_keeps].
  unfold record_reload. eapply triple_bind with (M := fun _ => well_formed).
  { intros s [H1 H2]. unfold now_millis. by destruct (st_times s). }
  intros now. by apply status_keeps.
Qed.

(** What happens to a store: updates, the watcher, and what others do to the
    files, with any faults to come. *)
Inductive store_step : RuleStore -> RuleStore -> Prop :=
| step_update u s : update_ok u -> store_step s (fst (run_update u s))
| step_watch received s : store_step s (fst (watch_loop rules_dir received s))
| step_event queued event s : store_step s (fst (enqueue_event queued event s))
| step_outside d times s : store_step s (with_times (with_disk s d) times).
Lemma store_step_well_formed s s' : store_step s s' -> well_formed s -> well_formed s'.
Proof.
  intros Hst [Hok Hf]. destruct Hst as [u s Hu|received s|queued event s|d times s].
  - pose proof (update_publishes u _ Hok Hu s eq_refl) as H. destruct (run_update u s) as [s1 [snapshot|e]]; cbn.
    + by destruct H.
    + unfold well_formed. by rewrite H.
  - pose proof (watch_publishes (length received) received s (conj Hok Hf)) as H. unfold watch_loop.
    by destruct (watch_rounds _ _ _ s) as [s1 [a|e]].
  - unfold enqueue_event. destruct event as [event|error]; [|done]. destruct (relevant event); [|done]. by case_match.
  - done.
Qed.

(** C20: whatever happens to the store, the published snapshot is well formed.
    From its load on, through updates, reloads by the watcher, edits of the files
    by others and every fault of the disk, the groups have valid and distinct
    names, the default group is one of them, all of them compile, and the
    published set is what the enabled ones are compiled to; and an update that
    fails publishes nothing. *)
Theorem published_snapshot_well_formed s0 s1 snapshot s :
  load rules_dir s0 = (s1, Ok snapshot) -> rtc store_step s1 s ->
  snapshot_ok (sp_groups (st_snapshot s)) /\ compiled_from (st_snapshot s) /\
  forall u s' e, update_ok u -> run_update u s = (s', Err e) -> st_snapshot s' = st_snapshot s.
Proof.
  intros E Hsteps.
  assert (H1 : well_formed s1).
  { unfold load in E. apply bind_ok in E as (s2 & snapshot' & E1 & E2). injection E2 as <- <-.
    pose proof (load_quiet false (files s0) s0 ltac:(by split)) as H. rewrite E1 in H. by destruct H as (_ & ? & ? & _). }
  clear E. assert (H : well_formed s).
  { induction Hsteps as [|x y z Hst _ IH]; [done|]. apply IH. by eapply store_step_well_formed. }
  destruct H as [Hok Hf]. split_and!; [done..|]. intros u s' e Hu Er.
  pose proof (update_publishes u _ Hok Hu s eq_refl) as H. by rewrite Er in H.
Qed.

(** ** The watcher *)

Lemma collect_burst_quiet b fs events later s :
  quiet b fs s ->
  exists s1, collect_burst (map (fun e => Message (Event e)) events ++ Quiet :: later) s = (s1, Ok (true, later)) /\
    quiet b fs s1 /\ st_snapshot s1 = st_snapshot s /\ st_poisoned s1 = st_poisoned s /\
    ws_reloads (st_status s1) = ws_reloads (st_status s).
Proof.
  revert s. induction events as [|e events IH]; intros s Hs; cbn [map app collect_burst]; [by exists s|].
  unfold mbind, StateR_bind. destruct (relevant e); [|by apply IH].
  destruct (IH (fst (record_event s))) as (s1 & E & H1 & H2 & H3 & H4); [done|]. exists s1. cbn in *. by rewrite E.
Qed.
Lemma reload_total fs groups s :
  quiet true fs s -> st_poisoned s = false -> loads fs groups ->
  exists s1 changed, reload_from_disk rules_dir s = (s1, Ok changed) /\ sp_groups (st_snapshot s1) = groups /\
    st_status s1 = st_status s.
Proof.
  intros Hq Hp Hl. unfold reload_from_disk, locked. rewrite Hp. unfold mbind, StateR_bind.
  destruct (Hl s Hq) as (s1 & snapshot & E & <-). destruct (tame_load s) as (H1 & [_ H2] & _). rewrite E in *. cbn in H1, H2.
  unfold current_groups. case_bool_decide as Eg; by eexists _, _.
Qed.

End Proofs.

(** ** Samples *)

(** Manifests in a format of their own: a sign, the name and a line end. *)
Definition entry_line (g : ManifestGroup) : str := (if mg_enabled g then ch "+" else ch "-") :: mg_name g ++ [10].
Fixpoint read_lines (open : option (bool * str)) (text : str) : option (list ManifestGroup) :=
  match text, open with
  | [], None => Some []
  | [], Some _ => None
  | c :: text', None => read_lines (Some (c =? ch "+", [])) text'
  | c :: text', Some (enabled, name) =>
      if c =? 10 then cons (mkManifestGroup name enabled) <$> read_lines None text'
      else read_lines (Some (enabled, name ++ [c])) text'
  end.
#[export] Instance line_manifests : ManifestFormat := {
  manifest_from_toml text :=
    match read_lines None text with
    | Some groups => Ok (mkRuleManifest MANIFEST_VERSION groups)
    | None => Err (lit "unfinished line")
    end;
  manifest_to_toml m := Ok (flat_map entry_line (rm_groups m));
}.
Lemma group_name_no_line_end name : group_name_ok name = true -> Forall (fun c => c <> 10) name.
Proof.
  intros H. apply Forall_forall. intros c Hc ->. unfold group_name_ok in H. apply negb_true_iff, orb_false_iff in H as [_ H].
  apply negb_false_iff in H. rewrite forallb_forall in H. specialize (H 10).
  assert (Hin : In 10 (encode name)).
  { unfold encode. apply in_flat_map. exists 10. split; [by apply list_elem_of_In|by left]. }
  apply H in Hin. revert Hin. by vm_compute.
Qed.
Lemma read_lines_name enabled start name rest :
  Forall (fun c => c <> 10) name ->
  read_lines (Some (enabled, start)) (name ++ 10 :: rest) = cons (mkManifestGroup (start ++ name) enabled) <$> read_lines None rest.
Proof.
  intros H. revert start. induction H as [|c name Hc _ IH]; intros start; cbn [app read_lines].
  - by rewrite app_nil_r.
  - rewrite (proj2 (N.eqb_neq c 10) Hc), IH. by rewrite <- app_assoc.
Qed.
#[export] Instance line_manifests_laws : ManifestLaws.
Proof.
  intros groups Ho. cbn. eexists. split; [reflexivity|]. induction Ho as [|g groups Hg _ IH]; [done|].
  destruct IH as (Hv & Hr & Hl). pose proof (group_name_ok_spec _ Hg) as (_ & _ & _ & Hvn).
  pose proof (group_name_no_line_end _ Hg) as Hn. cbn [flat_map].
  assert (He : entry_line g ++ flat_map entry_line groups =
    [if mg_enabled g then ch "+" else ch "-"] ++ mg_name g ++ [10] ++ flat_map entry_line groups)
    by (unfold entry_line; cbn [app]; by rewrite <- app_assoc).
  rewrite He. clear He. generalize dependent (flat_map entry_line groups). intros text Hv Hr Hl. split_and!.
  - rewrite !valid_str_app, Hvn, Hv. by destruct (mg_enabled g).
  - cbn [app read_lines]. rewrite read_lines_name by done. destruct (read_lines None text); [|done]. injection Hr as ->.
    destruct g as [name []]; done.
  - rewrite !len_app. cbn [map sum_N foldr]. change (foldr N.add 0) with sum_N.
    assert (H : len [if mg_enabled g then ch "+" else ch "-"] = 1) by (by destruct (mg_enabled g)).
    rewrite H. change (len [10]) with 1. lia.
Qed.

(** A directory with the default group and a disabled one. *)
Definition sample_dir : str := lit "/data/rules".
Definition sample_text (rule : string) : str := RULE_LANGUAGE_HEADER ++ [10] ++ lit rule.
Definition sample_groups : list RuleGroup :=
  [mkRuleGroup DEFAULT_GROUP true []; mkRuleGroup (lit "lab") false (sample_text "example.com host(10.0.0.1)")].
Definition sample_files : gmap (list N * list N) (list N) :=
  <[manifest_path sample_dir := encode (flat_map entry_line (rm_groups (manifest_of sample_groups)))]>
  (<[group_path sample_dir (lit "lab") := encode (sample_text "example.com host(10.0.0.1)")]>
  (<[group_path sample_dir DEFAULT_GROUP := encode []]> ∅)).
Definition sample_store (set : RuleSet) (faults : list Fault) : RuleStore :=
  mkRuleStore (mkDisk sample_files faults) (mkRuleSnapshot sample_groups set) false (mkWatchStatus 0 0 0 0 None None) 2
    [1000; 1001; 1002; 1003].
Lemma sample_set_parses : exists set, parse_versioned_groups 1 (group_sources (enabled_groups sample_groups)) = Some (Ok set).
Proof. vm_compute. eauto. Qed.
Lemma sample_groups_compile : compiles sample_groups.
Proof. split; exists 1; vm_compute; eauto. Qed.
Lemma sample_groups_ok : snapshot_ok sample_groups.
Proof.
  split_and!; [split| | |apply sample_groups_compile].
  - repeat constructor; by vm_compute.
  - apply (bool_decide_unpack _). by vm_compute.
  - left.
  - repeat constructor; by vm_compute.
Qed.
Lemma shows_nothing dir : shows dir ∅ None ∅.
Proof. by split_and!. Qed.
Lemma sample_view : exists bytes, manifest_bytes sample_groups bytes /\ view sample_dir sample_groups sample_groups (Some bytes) sample_files.
Proof.
  eexists. split; [by eexists|]. eexists. split_and!.
  - eapply shows_manifest. apply shows_group; [|done]. apply shows_group; [|done]. apply shows_nothing.
  - intros name bytes H. apply lookup_insert_Some in H as [[<- <-]|[_ H]]; [eexists; split_and!; [right; left|done|done]|].
    apply lookup_insert_Some in H as [[<- <-]|[_ H]]; [eexists; split_and!; [left|done|done]|]. done.
  - constructor; [by rewrite lookup_insert_ne, lookup_insert_eq|constructor; [by rewrite lookup_insert_eq|constructor]].
Qed.
Lemma sample_kept set faults : kept sample_dir (sample_store set faults).
Proof. split; [apply sample_groups_ok|apply sample_view]. Qed.
Definition sample_change : StoreUpdate := SetEnabled (lit "lab") true.
Definition sample_edit : StoreUpdate := SetGroup (lit "lab") (sample_text "example.com host(10.0.0.2)").
Definition disk_full : IoError := mkIoError OtherIo (lit "no space left on device").
Lemma sample_change_runs set : exists s' snapshot, run_update sample_dir 7 sample_change (sample_store set []) = (s', Ok snapshot).
Proof. vm_compute. eauto. Qed.
Lemma sample_edit_fails set : exists s' e,
  run_update sample_dir 7 sample_edit (sample_store set (repeat Fine 9 ++ [Fails 0 disk_full])) = (s', Err e).
Proof. vm_compute. eauto. Qed.
Lemma sample_loads set : exists s' snapshot, load sample_dir (sample_store set []) = (s', Ok snapshot).
Proof. vm_compute. eauto. Qed.

Lemma published_snapshot_well_formed_witness :
  exists set s1 snapshot, load sample_dir (sample_store set []) = (s1, Ok snapshot) /\
    compiled_from (st_snapshot (fst (run_update sample_dir 7 sample_change s1))).
Proof.
  destruct sample_set_parses as [set _]. destruct (sample_loads set) as (s1 & snapshot & E). exists set, s1, snapshot. split; [exact E|].
  apply (published_snapshot_well_formed sample_dir 7 (sample_store set []) s1 snapshot); [exact E|].
  apply rtc_once. constructor. exact I.
Defined.


(** a rule on which the parser panics ends all updates.  The panic happens
    while the update lock is held: every later update of a valid name, and every
    reload of the watcher, panics on the poisoned lock. *)
Theorem panicking_rule_poisons_store set :
  let '(s, r) := set_group sample_dir 7 (lit "lab") (sample_text "a.test direct when client.ip(10.*\])") (sample_store set []) in
  r = Err Panicked /\ sp_groups (st_snapshot s) = sample_groups /\
  forall name text enabled, group_name_ok name = true ->
    set_group sample_dir 7 name text s = (s, Err Panicked) /\ set_enabled sample_dir 7 name enabled s = (s, Err Panicked) /\
    reload_from_disk sample_dir s = (s, Err Panicked).
Proof.
  destruct (set_group sample_dir 7 (lit "lab") _ (sample_store set [])) as [s r] eqn:E. vm_compute in E. injection E as <- <-.
  split_and!; [done..|]. intros name text enabled H. unfold set_group, set_enabled, validate_group_name. by rewrite H.
Qed.
